(* ===== verification/_CoqProject ===== *)
-Q . S2P
Prelude.v
MapOfSets.v
CMem.v
LibcMem.v
LibcStr.v
LibcNum.v
PosixState.v
PosixInv.v
Intrinsics.v
PosixFd.v
PosixMeta.v
PosixInit.v
PosixEnv.v
PosixStubs.v
PosixFd64.v
PosixFd32.v
PosixRw.v
PosixAlloc.v
PosixQuirks.v
PosixSys.v
NfTable.v
NfChain.v
NfRing.v
NfTree.v
NfPacket.v
NfNat.v
NfNatRun.v
NfLb.v
ReplayTool.v
KTestFile.v
ReplayFile.v
CacheModel.v
CacheLru.v
CacheRun.v
ExprData.v
ExprFacts.v
ExprCreate.v
ExprSound.v
ExprEval.v
ExprMain.v
Constraints.v
ConstraintsOk.v
ConstraintsMain.v
ImmTree.v
ImmTreeOk.v
ImmTreeMain.v
BitArray.v
Memory.v
MemoryOk.v
MemoryBytes.v
MemoryMain.v
MemorySys.v
AddressSpace.v
AddressSpaceCow.v
AddressSpaceMain.v
ExprUtil.v
ExprOrder.v
ExprTotal.v
Solver.v
SolverOk.v
StpSolver.v
SolverRange.v
IndepSolver.v
IndepOk.v
IndepSpec.v
SolverMain.v
CexCaching.v
CexOk.v
CachingSolver.v
SolverStack.v
Paths.v
Contention.v
ContentionOk.v
ContentionChoice.v
Searcher.v
Lpm.v
ExecFork.v
ForkMain.v
Interp.v
InterpMain.v
