(* ===== verification/Prelude.v ===== *)
(** * CASTAN: a verification of its run time, network functions, tools and analyses

    CASTAN (a fork of KLEE) runs a network function symbolically against a model of
    the processor cache and looks for the packets that cost it most. The program
    under analysis is linked with a run time in C that stands for libc and for the
    operating system; every path ends in a test case that can be replayed natively.
    This library models, function by function, the parts listed below and proves what
    makes them correct.

    ** Conventions

    A C integer is a [Z] in the range of its type, and every operation that can leave
    the range is followed by the conversion of that type ([u8] .. [u64], [s8] .. [s64] in
    this file). A function with effects is a computation of [M St A], a state monad
    whose outcomes are [Ret] (a result and the new state) and [Stop] with the reason:
    a memory error, a failed assertion, a reported error, an exit, an assumption that
    cannot hold, or [OutOfFuel] for a loop that did not end within its fuel. Code outside
    the repository (the host kernel, DPDK, the solver, [rand]) is a parameter, and a law it
    is relied on for is a hypothesis.

    ** Parts and files

    - Libc of the analysed program (src/runtime/klee-libc, src/runtime/Intrinsic):
      CMem is the byte-addressed memory, LibcMem the mem* functions, LibcStr the str*
      functions, LibcNum strtol, strtoul, atoi, tolower, toupper, htonl and the like,
      Intrinsics the functions the executor instruments programs with.
    - POSIX layer (src/runtime/POSIX): PosixState has the data of fd.h and the host
      kernel as an interface; PosixInv the type invariant [wf] and its proof rules;
      PosixFd and PosixMeta are fd.c, PosixInit is fd_init.c, PosixEnv is
      klee_init_env.c, PosixStubs is stubs.c, illegal.c and selinux.c, PosixFd64 and
      PosixFd32 the entry points of fd_64.c and fd_32.c. PosixRw, PosixAlloc and
      PosixQuirks have the functional theorems, PosixSys the programs as sequences of
      calls over all entry points.
    - Network functions (the NATs and load balancers of src/examples): NfTable has the keys,
      the hash and the interface of a flow table (class [FlowTable] with its
      laws), NfChain, NfRing and NfTree the three tables, NfPacket the headers, NfNat
      and NfLb the packet handlers against the interface, NfNatRun the handlers on
      the tables.
    - Longest-prefix match (src/examples/dpdk-lpm-btrie, dpdk-lpm-da): Lpm has the
      interface of a route table ([Lpm], with its laws), routes and their longest
      prefix ([Routes]), the trie ([Btrie]), the flat table ([Da]), and the network
      function over either ([LpmMain]).
    - Replay (src/runtime/Runtest, src/tools/klee-replay, src/lib/Basic/KTest.cpp):
      KTestFile is the format of test cases, ReplayTool the tool that runs a native program,
      ReplayFile the library the program is linked with ([Runtest]) and the round trips
      from a recorded path to its inputs.
    - Cache analysis (src/lib/CASTAN): CacheModel has the levels, replacement and costs of
      GenericCacheModel.cpp, CacheLru the facts on one line, CacheRun sequences of
      accesses. Contention is ContentionSetCacheModel.cpp: the contention sets, the charge
      of an access and the choice of an address for a symbolic pointer; ContentionOk
      ([ContentionRun]) has the invariant and the misses of an overflowing set,
      ContentionChoice what is assumed of a symbolic pointer.
    - Search (src/lib/CASTAN/CastanSearcher.cpp): Searcher has the control flow graph, the
      map of costs and its worklist ([Searcher], [SearcherOk]) and the queue of states
      ([Queue]).
    - Paths: Paths has src/lib/Core/TimingSolver.cpp ([TimingSolver]), the solutions of a
      path and computations with enough fuel; ExecFork the part of
      src/lib/Core/Executor.cpp that forks and ends states, with PTree.cpp; ForkMain
      ([ForkRun]) what holds over a whole search, and that the searcher is called as it
      asks for.
    - Interpreter (src/lib/Core/Executor.cpp): Interp has the cells of a frame, the steps,
      calls, returns, branches and switches, and the instructions that compute values;
      InterpMain has what the program itself does, on machine integers ([Machine]), that a
      step of the interpreter follows it on every input of a path ([Simulation]), and
      small programs ([InterpDemo]).
    - Expressions (src/lib/Expr/Expr.cpp, Updates.cpp, ExprEvaluator.cpp, ExprVisitor.cpp,
      src/include/klee/Expr.h, util/Assignment.h): ExprData has the expressions, their
      widths, their meaning [eval] (a partial function: a division by zero has none) and
      LLVM's APInt as the class [APInt] with the laws [APIntOk]; ExprFacts the lemmas on
      bit vectors; ExprCreate the simplifying constructors; ExprSound that they keep the
      meaning; ExprEval the evaluator; ExprMain the statements and an instance of APInt.
    - Path constraints (src/lib/Expr/Constraints.cpp): Constraints has the visitors and the
      manager, [Weight] and ConstraintsOk the weight that the visitors decrease and
      what they keep, ConstraintsMain the statements.
    - Immutable trees (src/include/klee/Internal/ADT/ImmutableTree.h): ImmTree has the
      trees, their rotations and the iterators with their stacks of fixed size, ImmTreeOk
      the operations on sorted sequences that they stand for, ImmTreeMain and ImmTreeIter
      the statements on trees and on iterators.
    - Memory objects (src/lib/Core/Memory.cpp, src/include/klee/util/BitArray.h):
      BitArray has the masks, Memory the object states (concrete bytes, known symbolic
      bytes, the lazy update list), MemoryOk their invariant and rules for
      computations on them, MemoryBytes reads and writes of a byte, MemoryMain those
      of values, MemorySys sequences of accesses.
    - Address spaces (src/lib/Core/AddressSpace.cpp): AddressSpace has bindings, copy on
      write and the resolution of pointers, AddressSpaceCow that sharing cannot be
      observed, AddressSpaceRes and AddressSpaceMain what a pointer is resolved to.
    - Solvers (src/lib/Solver/Solver.cpp, SolverImpl.cpp, src/include/klee/Solver.h): Solver
      has queries, the record of what an implementation offers and the questions derived
      from it, SolverOk the promise of an implementation as a class and what the derived
      questions then mean, SolverRange the binary searches of getRange.
    - Reads (src/lib/Expr/ExprUtil.cpp) and the independent solver
      (src/lib/Solver/IndependentSolver.cpp): ExprUtil the search for the reads of an
      expression, IndepSolver the sets of cells, the closure of the required constraints and
      the independent factors, IndepOk and IndepFactors that they separate what the
      constraints depend on, IndepMain that fewer constraints give the same answers,
      IndepValues and IndepSpec that the independent solver keeps the promise. SolverTable
      is a small solver that tries all inputs, SolverMain has the statements and examples.
    - The stack of solvers: StpSolver derives the questions from initial values
      (src/lib/Solver/STPSolver.cpp), SolverPoint evaluates under the bytes of a solution;
      ExprOrder is Expr::compare and the hashes (Expr.cpp, Updates.cpp), Orders the orders
      of the standard containers, MapOfSets the map of the same name
      (src/include/klee/Internal/ADT/MapOfSets.h), ExprTotal that evaluation returns and
      ExprKeep what the constructors keep; CexCaching and CexOk are CexCachingSolver.cpp,
      CachingSolver and IncompleteSolver the files of these names; SolverStack is
      src/lib/Basic/ConstructSolverChain.cpp with the theorem on sequences of questions,
      SolverStackMain has examples.

    A file can hold several modules, named in its first lines; the names above that are not
    files are such modules.

    ** What the theorems show

    - Invariants: every state a program can reach through the POSIX calls is well
      formed ([reachable_invariant]); initialisation establishes it; no set of the
      cache holds more blocks than its ways ([contention_bounded]); the load balancer
      assigns clients round robin; the map of costs marks only instructions that reach the
      loop, and the cost of a plain instruction that is not waiting is not improved by its
      successors ([cost_map_invariant]).
    - Symbolic execution: for programs without divisions and calls through pointers, whose
      switches keep apart from their default block, and without limits: in whatever order
      the paths are stepped, they stand for exactly the runs of the program, and every path
      can be stepped ([exploration_exact]).
    - Paths, without divisions and outside of replays: the children of a fork have together
      the solutions of the path where no limit is reached ([fork_partitions]), those of a switch the solutions of their conditions
      ([branch_splits]); over a whole search every state in memory has a path that can be
      taken and a leaf of the process tree, and no assertion fails, as long as no state is
      ended twice ([executor_invariant]); where the contention sets are decided, a symbolic pointer is replaced by an address it can have and nothing else is assumed
      ([symbolic_access_sound]), and one that was found by overflowing a set misses
      ([worst_case_misses]); the searcher is a priority queue ([searcher_refines]).
    - Functional behaviour, errors included: read, write, lseek, open, close, dup2 and
      stat on symbolic files, on every branch; the libc functions against list
      specifications; injected failures.
    - Refinement and equivalence: the packet handlers refine an abstract NAT and an
      abstract load balancer over any table that keeps the interface, and the three
      tables keep it and answer alike; a packet is forwarded to what the table answers, which is the longest
      prefix ([lpm_forwards], [tables_agree]); strtol and strtoul compute the mathematical
      value with saturation; the predicted cost of a read is the latency of the level
      whose hit is counted.
    - Meaning of expressions: the simplifying constructors and the visitors return
      well-typed expressions with the value of the plain ones; an assignment evaluates
      expressions to what they denote; adding a constraint that does not contradict the path keeps the common solutions.
    - Memory of the executor: object states refine arrays of bytes whatever is concrete,
      symbolic or flushed ([object_refines]); immutable trees refine sorted sequences;
      forked address spaces cannot observe what they share ([cow_unobservable]);
      resolution finds the objects a pointer can point to.
    - Solvers: the independent solver keeps the promise of the interface it is given, for
      queries whose parts the solver below may be asked ([independent_refines]); for these,
      the whole stack answers rightly, whatever the caches remember ([chain_answers]);
      getRange is exact up to 64 bits, over a solver that does not fail.
    - Round trips: write, seek, read; test case files; recorded inputs and the native
      program; a NAT reply comes back to the client; the command line.
    - Termination and liveness: loops whose end is not structural are given fuel, and
      the theorems show a fuel that suffices: the length of the string plus one for
      the string loops, 65536 rounds for the search of a free port (one per port), the
      number of pending bytes for the feeder of a pipe, the numbers of entries for
      the table walks, the numbers of nodes for the mutual recursion of addition and
      subtraction, the weight of an expression plus one for the visitor that starts
      again after each replacement, 65 rounds for a binary search on 64 bits, the number
      of nodes plus one for the search for reads, the number of constraints plus one for
      their closure, the number of nodes for the removal from the process tree; for adding
      a constraint, and so for forking, for a step of the interpreter and for the accesses of the cache model, the
      existence of enough fuel is proved ([gives], [eventually]). The receive loops end
      with their input.
    - Defects of the code that modelling showed are theorems about the model, too;
      the files name them where they appear (for instance [Quirks]).

    ** Not modelled

    - In the interpreter, the memory instructions and the resolution of their addresses,
      floating point, vectors, aggregates, variadic functions, exceptions, inline assembly
      and external functions. Pointers to functions and divisions are modelled, but
      [exploration_exact] is about programs without them, and without a switch that has its
      default block as a case, too: [InterpDemo] has such a switch and such a pointer for
      which it does not hold.
    - The rest of the executor (src/lib/Core), the LLVM passes (src/lib/Module), the bindings to
      STP, Z3 and MetaSMT, the fast counterexample solver and the loggers (src/lib/Solver),
      the front end of src/lib/SMT and the drivers (src/tools/castan,
      klee, kleaver): C++ over LLVM and external solvers.
    - The choice of a worst-case address and the times in GenericCacheModel.cpp (those of
      ContentionSetCacheModel.cpp are modelled). That the worklist of the map of costs
      becomes empty is not proved: the invariant is about every round.
    - Seeds, statistics, coverage and the writing of test cases in the executor; what the
      statistics decide is a flag of the model.
    - In the longest-prefix-match functions, the scanning of the text of the route file
      and DPDK's own table.
    - Configuration and device set-up of the network functions (getopt, DPDK), the
      network functions on DPDK's own hash tables, STL containers or ruby's st.c, and
      the vendored VeriFast containers of dpdk-nat-cc and dpdk-nfs, which carry their
      own machine-checked contracts in VeriFast.
    - Process control in klee-replay (fork, ptrace, timeouts), the Python and shell
      tools, and the tests. *)
From stdpp Require Import base gmap list strings numbers.
From Stdlib Require Import ZArith Lia Sorting.Sorted.

Open Scope Z_scope.

#[global] Arguments Z.eqb : simpl never.
#[global] Arguments Z.ltb : simpl never.
#[global] Arguments Z.leb : simpl never.
#[global] Arguments Z.pow : simpl never.
#[global] Arguments Z.modulo : simpl never.
#[global] Arguments Z.land : simpl never.
#[global] Arguments Z.lor : simpl never.
#[global] Arguments Z.shiftl : simpl never.
#[global] Arguments Z.shiftr : simpl never.

(** ** Machine integers

    A C integer is a [Z]; the operations that can leave its width are followed
    by the conversion the C type performs. *)

Definition u8 (z : Z) : Z := z `mod` 2 ^ 8.
Definition u16 (z : Z) : Z := z `mod` 2 ^ 16.
Definition u32 (z : Z) : Z := z `mod` 2 ^ 32.
Definition u64 (z : Z) : Z := z `mod` 2 ^ 64.

(** Two's complement reading of the low [n] bits. *)
Definition sext (n z : Z) : Z :=
  let v := z `mod` 2 ^ n in if v <? 2 ^ (n - 1) then v else v - 2 ^ n.

Definition s8 : Z -> Z := sext 8.
Definition s32 : Z -> Z := sext 32.
Definition s64 : Z -> Z := sext 64.

(** C truth value of an integer and C value of a comparison. *)
Definition nz (z : Z) : bool := negb (z =? 0).
Definition b2z (b : bool) : Z := if b then 1 else 0.

(** ** Outcomes of a run

    A run either returns a value, or stops the program: a memory access outside
    the accessible bytes, a failed [assert], a [klee_report_error], a
    [klee_silent_exit]/[exit], a [klee_assume] that does not hold on this path.
    [OutOfFuel] only marks that the fuel of a model loop was too small. *)
Inductive stop : Type :=
  | MemError
  | AssertFailed
  | ReportError (msg : string)
  | Exit (code : Z)
  | AssumeFailed
  | OutOfFuel.

Inductive result (A : Type) : Type :=
  | Ret (a : A)
  | Stop (e : stop).
Arguments Ret {A} a.
Arguments Stop {A} e.

#[export] Instance stop_eq_dec : EqDecision stop.
Proof. solve_decision. Defined.

(** Results without state. *)
#[export] Instance result_ret : MRet result := fun A a => Ret a.
#[export] Instance result_bind : MBind result := fun A B f m =>
  match m with Ret a => f a | Stop e => Stop e end.

(** State-passing computations that may stop. *)
Definition M (S A : Type) : Type := S -> result (A * S).

#[export] Instance M_ret S : MRet (M S) := fun A a s => Ret (a, s).
#[export] Instance M_bind S : MBind (M S) := fun A B f m s =>
  match m s with
  | Ret (a, s') => f a s'
  | Stop e => Stop e
  end.

Definition get {S} : M S S := fun s => Ret (s, s).
Definition gets {S A} (f : S -> A) : M S A := fun s => Ret (f s, s).
Definition put {S} (s : S) : M S unit := fun _ => Ret (tt, s).
Definition modify {S} (f : S -> S) : M S unit := fun s => Ret (tt, f s).
Definition halt {S A} (e : stop) : M S A := fun _ => Stop e.
Definition assert_ {S} (b : bool) : M S unit :=
  if b then mret tt else halt AssertFailed.
Definition of_option {S A} (o : option A) : M S A :=
  match o with Some a => mret a | None => halt MemError end.

(** A result without state. *)
Definition lift {S A} (r : result A) : M S A := fun s => match r with Ret a => Ret (a, s) | Stop e => Stop e end.
(** A computation on a component of the state. *)
Definition zoom {S T A} (look : S -> T) (upd : T -> S -> S) (m : M T A) : M S A :=
  fun s => match m (look s) with
           | Ret (a, t) => Ret (a, upd t s)
           | Stop e => Stop e
           end.

(** Post-condition of every run that returns, and of every run. *)
Definition post {S A} (m : M S A) (s : S) (Q : A -> S -> Prop) : Prop :=
  forall a s', m s = Ret (a, s') -> Q a s'.
Definition total {S A} (m : M S A) (s : S) (Q : A -> S -> Prop) : Prop :=
  exists a s', m s = Ret (a, s') /\ Q a s'.

(** ** Arrays obtained from [calloc]

    An array of [ca_len] cells, all [ca_fill] until written. Reads and writes
    out of range are errors. *)
Record carray (A : Type) : Type := CArray {
  ca_len : Z;
  ca_fill : A;
  ca_cells : gmap Z A
}.
Arguments CArray {A}.
Arguments ca_len {A}.
Arguments ca_fill {A}.
Arguments ca_cells {A}.

Definition acalloc {A} (n : Z) (x : A) : carray A := CArray n x ∅.
Definition in_range {A} (a : carray A) (i : Z) : bool := (0 <=? i) && (i <? ca_len a).
Definition aget {A} (a : carray A) (i : Z) : option A :=
  if in_range a i then Some (default (ca_fill a) (ca_cells a !! i)) else None.
Definition aset {A} (a : carray A) (i : Z) (x : A) : option (carray A) :=
  if in_range a i then Some (CArray (ca_len a) (ca_fill a) (<[i:=x]> (ca_cells a))) else None.

(** ** Bounded loops

    [iter_nat n step s] runs the body [step] at most [n] times, stopping at the
    first [inr]. [iter_Z] is the same loop with a binary bound, so that a loop
    whose bound is a machine constant evaluates without building a unary
    number. *)
Section Loop.
Context {S R : Type} (step : S -> S + R).

Fixpoint iter_nat (n : nat) (s : S) : S + R :=
  match n with
  | O => inl s
  | Datatypes.S n => match step s with inl s' => iter_nat n s' | inr r => inr r end
  end.

Fixpoint iter_pos (p : positive) (s : S) : S + R :=
  match p with
  | xH => step s
  | xO p => match iter_pos p s with inl s' => iter_pos p s' | inr r => inr r end
  | xI p =>
      match step s with
      | inl s' => match iter_pos p s' with inl s'' => iter_pos p s'' | inr r => inr r end
      | inr r => inr r
      end
  end.

Definition iter_Z (z : Z) (s : S) : S + R :=
  match z with Zpos p => iter_pos p s | _ => inl s end.

Lemma iter_nat_add n m s :
  iter_nat (n + m) s =
  match iter_nat n s with inl s' => iter_nat m s' | inr r => inr r end.
Proof.
  revert s; induction n as [|n IH]; intros s; simpl; [done|].
  destruct (step s); [apply IH|done].
Qed.

Lemma iter_pos_nat p s : iter_pos p s = iter_nat (Pos.to_nat p) s.
Proof.
  revert s; induction p as [p IH|p IH|]; intros s; cbn [iter_pos].
  - rewrite Pos2Nat.inj_xI; cbn [iter_nat]. destruct (step s) as [s'|]; [|done].
    rewrite IH. replace (2 * Pos.to_nat p)%nat
      with (Pos.to_nat p + Pos.to_nat p)%nat by lia.
    rewrite iter_nat_add. by destruct (iter_nat _ s').
  - rewrite IH, Pos2Nat.inj_xO.
    replace (2 * Pos.to_nat p)%nat with (Pos.to_nat p + Pos.to_nat p)%nat by lia.
    rewrite iter_nat_add. by destruct (iter_nat _ s).
  - rewrite Pos2Nat.inj_1. simpl. by destruct (step s).
Qed.

Lemma iter_Z_nat z s : iter_Z z s = iter_nat (Z.to_nat z) s.
Proof. destruct z; [done|apply iter_pos_nat|done]. Qed.
End Loop.

(** ** Lemmas on machine integers *)

Lemma u8_range z : 0 <= u8 z < 256.
Proof. apply (Z.mod_pos_bound z (2 ^ 8)). lia. Qed.
Lemma u16_range z : 0 <= u16 z < 65536.
Proof. apply (Z.mod_pos_bound z (2 ^ 16)). lia. Qed.
Lemma u32_range z : 0 <= u32 z < 4294967296.
Proof. apply (Z.mod_pos_bound z (2 ^ 32)). lia. Qed.
Lemma u64_range z : 0 <= u64 z < 18446744073709551616.
Proof. apply (Z.mod_pos_bound z (2 ^ 64)). lia. Qed.

Lemma u8_small z : 0 <= z < 256 -> u8 z = z.
Proof. intros H. apply Z.mod_small. lia. Qed.
Lemma u16_small z : 0 <= z < 65536 -> u16 z = z.
Proof. intros H. apply Z.mod_small. lia. Qed.
Lemma u32_small z : 0 <= z < 4294967296 -> u32 z = z.
Proof. intros H. apply Z.mod_small. lia. Qed.
Lemma u64_small z : 0 <= z < 18446744073709551616 -> u64 z = z.
Proof. intros H. apply Z.mod_small. lia. Qed.

Lemma sext_small n z : 0 < n -> - 2 ^ (n - 1) <= z < 2 ^ (n - 1) -> sext n z = z.
Proof.
  intros Hn Hz. unfold sext.
  assert (Hp : 2 ^ n = 2 * 2 ^ (n - 1)) by (rewrite <- Z.pow_succ_r by lia; f_equal; lia).
  destruct (Z_lt_le_dec z 0) as [Hneg|Hpos].
  - assert (E : z `mod` 2 ^ n = z + 2 ^ n).
    { symmetry. apply (Z.mod_unique z (2 ^ n) (-1)); lia. }
    rewrite E. case_match eqn:B; [apply Z.ltb_lt in B; lia|lia].
  - rewrite Z.mod_small by lia.
    case_match eqn:B; [done|apply Z.ltb_ge in B; lia].
Qed.

Lemma sext_range n z : 0 < n -> - 2 ^ (n - 1) <= sext n z < 2 ^ (n - 1).
Proof.
  intros Hn. unfold sext.
  assert (Hp : 2 ^ n = 2 * 2 ^ (n - 1)) by (rewrite <- Z.pow_succ_r by lia; f_equal; lia).
  pose proof (Z.mod_pos_bound z (2 ^ n) ltac:(lia)).
  case_match eqn:B; [apply Z.ltb_lt in B|apply Z.ltb_ge in B]; lia.
Qed.

Lemma s64_small z :
  - 9223372036854775808 <= z < 9223372036854775808 -> s64 z = z.
Proof. intros H. apply sext_small; [lia|]. change (2 ^ (64 - 1)) with 9223372036854775808. lia. Qed.
Lemma s64_range z : - 9223372036854775808 <= s64 z < 9223372036854775808.
Proof. apply (sext_range 64). lia. Qed.
Lemma s64_u64 z : s64 (u64 z) = s64 z.
Proof. unfold s64, u64, sext. by rewrite Z.mod_mod by lia. Qed.
Lemma s32_small z : - 2147483648 <= z < 2147483648 -> s32 z = z.
Proof. intros H. apply sext_small; [lia|]. change (2 ^ (32 - 1)) with 2147483648. lia. Qed.
Lemma s32_range z : - 2147483648 <= s32 z < 2147483648.
Proof. apply (sext_range 32). lia. Qed.
Lemma s8_range z : - 128 <= s8 z < 128.
Proof. apply (sext_range 8). lia. Qed.

Lemma nz_true z : nz z = true <-> z <> 0.
Proof. unfold nz. rewrite negb_true_iff, Z.eqb_neq. done. Qed.
Lemma nz_false z : nz z = false <-> z = 0.
Proof. unfold nz. rewrite negb_false_iff, Z.eqb_eq. done. Qed.

(** ** Bit operations *)

Lemma testbit_high n x i : 0 <= x < 2 ^ n -> n <= i -> Z.testbit x i = false.
Proof.
  intros Hx Hi. destruct (Z.lt_ge_cases i 0); [by apply Z.testbit_neg_r|].
  rewrite <- (Z.mod_small x (2 ^ i)); [by apply Z.mod_pow2_bits_high|].
  destruct (Z.lt_ge_cases n 0); [rewrite Z.pow_neg_r in Hx by done; lia|].
  pose proof (Z.pow_le_mono_r 2 n i). lia.
Qed.

(** Bits of a truncated value. *)
Lemma u32_bit z n : 0 <= n -> Z.testbit (u32 z) n = (n <? 32) && Z.testbit z n.
Proof.
  intros Hn. unfold u32. destruct (Z.ltb_spec n 32); [by apply Z.mod_pow2_bits_low|].
  by apply Z.mod_pow2_bits_high.
Qed.
Lemma u64_bit z n : 0 <= n -> Z.testbit (u64 z) n = (n <? 64) && Z.testbit z n.
Proof.
  intros Hn. unfold u64. destruct (Z.ltb_spec n 64); [by apply Z.mod_pow2_bits_low|].
  by apply Z.mod_pow2_bits_high.
Qed.

(** Two bit fields that do not overlap: or is addition. *)
Lemma lor_shiftl_add n x y :
  0 <= n -> 0 <= x < 2 ^ n -> Z.lor x (Z.shiftl y n) = x + y * 2 ^ n.
Proof.
  intros Hn Hx. rewrite <- Z.shiftl_mul_pow2 by done.
  assert (H : Z.land x (Z.shiftl y n) = 0).
  { apply Z.bits_inj'. intros i Hi. rewrite Z.land_spec, Z.bits_0.
    destruct (Z.lt_ge_cases i n).
    - rewrite (Z.shiftl_spec_low y n i) by done. apply andb_false_r.
    - by rewrite (testbit_high n). }
  by rewrite Z.add_nocarry_lxor, Z.lxor_lor.
Qed.

Lemma land_ones_mod x n : 0 <= n -> Z.land x (Z.ones n) = x `mod` 2 ^ n.
Proof. apply Z.land_ones. Qed.

(** ** Running monadic code

    [mbind_inv] splits a run that returned; [mbind_run] chains a known run.
    The tactic [mrun H] turns a returned run in [H] into its steps; [mstep]
    executes the next statement of a run in the goal with a known result. *)
Lemma mbind_inv {S A B} (m : M S A) (f : A -> M S B) s r :
  (m ≫= f) s = Ret r -> exists a s', m s = Ret (a, s') /\ f a s' = Ret r.
Proof.
  unfold mbind, M_bind. destruct (m s) as [[a s']|e]; [|done]. eauto.
Qed.

Lemma mbind_run {S A B} (m : M S A) (f : A -> M S B) s a s' :
  m s = Ret (a, s') -> (m ≫= f) s = f a s'.
Proof. intros H. unfold mbind, M_bind. by rewrite H. Qed.

Lemma mbind_assoc_run {S A B C} (m : M S A) (f : A -> M S B) (g : B -> M S C) s a s' :
  m s = Ret (a, s') -> ((m ≫= f) ≫= g) s = (f a ≫= g) s'.
Proof. intros H. unfold mbind, M_bind. by rewrite H. Qed.

Lemma mbind_stop {S A B} (m : M S A) (f : A -> M S B) s e :
  m s = Stop e -> (m ≫= f) s = Stop e.
Proof. intros H. unfold mbind, M_bind. by rewrite H. Qed.

Lemma post_bind {S A B} (m : M S A) (f : A -> M S B) s Q :
  post m s (fun a s' => post (f a) s' Q) -> post (m ≫= f) s Q.
Proof.
  intros H b s'' E. apply mbind_inv in E as (a & s' & E1 & E2). by eapply H.
Qed.

Lemma post_ret {S A} (a : A) (s : S) (Q : A -> S -> Prop) : Q a s -> post (mret a) s Q.
Proof. by intros H b s' [= <- <-]. Qed.
Lemma post_gets {S A} (f : S -> A) s (Q : A -> S -> Prop) : Q (f s) s -> post (gets f) s Q.
Proof. by intros H b s' [= <- <-]. Qed.
Lemma post_modify {S} (f : S -> S) s (Q : unit -> S -> Prop) : Q tt (f s) -> post (modify f) s Q.
Proof. by intros H b s' [= <- <-]. Qed.
Lemma post_halt {S A} e (s : S) (Q : A -> S -> Prop) : post (halt e) s Q.
Proof. by intros b s' [=]. Qed.
Lemma post_assert {S} b (s : S) (Q : unit -> S -> Prop) :
  (b = true -> Q tt s) -> post (assert_ b) s Q.
Proof. destruct b; [intros H; apply post_ret; auto|intros _; apply post_halt]. Qed.
Lemma post_of_option {S A} (o : option A) (s : S) (Q : A -> S -> Prop) :
  (forall a, o = Some a -> Q a s) -> post (of_option o) s Q.
Proof. destruct o; [intros H; apply post_ret; auto|intros _; apply post_halt]. Qed.
Lemma post_if {S A} (b : bool) (m1 m2 : M S A) s Q :
  (b = true -> post m1 s Q) -> (b = false -> post m2 s Q) -> post (if b then m1 else m2) s Q.
Proof. destruct b; auto. Qed.
Lemma post_weaken {S A} (m : M S A) s (P Q : A -> S -> Prop) :
  post m s P -> (forall a s', P a s' -> Q a s') -> post m s Q.
Proof. intros H HPQ a s' E. apply HPQ. by apply H. Qed.

(** *** Runs that return *)
Definition runs {S A} (m : M S A) (s : S) (Q : A -> S -> Prop) : Prop :=
  match m s with Ret (a, s') => Q a s' | Stop _ => False end.

Lemma runs_ret {S A} (a : A) (s : S) Q : Q a s -> runs (mret a) s Q.
Proof. done. Qed.
Lemma runs_bind {S A B} (m : M S A) (f : A -> M S B) s Q :
  runs m s (fun a s' => runs (f a) s' Q) -> runs (m ≫= f) s Q.
Proof. unfold runs, mbind, M_bind. by destruct (m s) as [[a s']|e]. Qed.
Lemma runs_mono {S A} (m : M S A) s (P Q : A -> S -> Prop) :
  runs m s P -> (forall a s', P a s' -> Q a s') -> runs m s Q.
Proof. unfold runs. destruct (m s) as [[a s']|e]; auto. Qed.
Lemma runs_lift {S A} (r : result A) (s : S) (Q : A -> S -> Prop) a : r = Ret a -> Q a s -> runs (lift r) s Q.
Proof. by intros ->. Qed.
Lemma runs_get {S} (s : S) Q : Q s s -> runs get s Q.
Proof. done. Qed.
Lemma runs_modify {S} (f : S -> S) s Q : Q tt (f s) -> runs (modify f) s Q.
Proof. done. Qed.
Lemma runs_assert {S} (b : bool) (s : S) Q : b = true -> Q tt s -> runs (assert_ b) s Q.
Proof. by intros ->. Qed.
Lemma runs_value {S A} (m : M S A) s Q a s' : m s = Ret (a, s') -> runs m s Q -> Q a s'.
Proof. unfold runs. by intros ->. Qed.
Lemma runs_out {S A} (m : M S A) s Q : runs m s Q -> exists a s', m s = Ret (a, s') /\ Q a s'.
Proof. unfold runs. destruct (m s) as [[a s']|e]; [|done]. eauto. Qed.
(** A run, then the rest. *)
Lemma runs_step {S A B} (m : M S A) (f : A -> M S B) s P Q :
  runs m s P -> (forall a s', P a s' -> runs (f a) s' Q) -> runs (m ≫= f) s Q.
Proof. intros H1 H2. by eapply runs_bind, runs_mono. Qed.

(** The statements of a returned run, one hypothesis per statement. *)
Ltac mrun H :=
  match type of H with
  | (_ ≫= _) _ = Ret _ =>
      let a := fresh "a" in let s := fresh "s" in let E := fresh "E" in
      apply mbind_inv in H; destruct H as (a & s & E & H); mrun H
  | _ => idtac
  end.

(** Reduce returned statements of the goal. *)
(** *** Sorted lists *)
Lemma sorted_split {A} (R : A -> A -> Prop) l l' x y :
  StronglySorted R (l ++ l') -> x ∈ l -> y ∈ l' -> R x y.
Proof.
  induction l as [|z l IH]; intros H Hx Hy; [by apply elem_of_nil in Hx|].
  apply StronglySorted_inv in H as [H1 H2]. apply elem_of_cons in Hx as [->|Hx]; [|by apply IH].
  rewrite list.Forall_forall in H2. apply H2. apply elem_of_app. by right.
Qed.

Ltac mred := cbv beta iota zeta delta [mbind M_bind mret M_ret].

(** Destruct the scrutinee of the innermost match of the goal, keeping the equation. *)
Ltac dmatch :=
  match goal with
  | |- context [match ?x with _ => _ end] => destruct x eqn:?
  end.

Create HintDb cint discriminated.
#[export] Hint Resolve u8_range u16_range u32_range u64_range s8_range s32_range s64_range : cint.
Create HintDb cpost discriminated.
#[export] Hint Resolve post_ret post_gets post_modify post_halt : cpost.
