(* ===== verification/MapOfSets.v ===== *)
(** * Orders and maps from sets

The orders of the standard containers ([Orders]) and
    src/include/klee/Internal/ADT/MapOfSets.h ([MapOfSets]). *)
From stdpp Require Import base list relations.
From Stdlib Require Import ZArith Lia Sorting.Sorted.
From S2P Require Import Prelude.

(** * Orders

    The comparisons that [std::set] and [std::map] are kept in: negative, zero or positive.
    Numbers, pairs, and sequences element by element, as [operator<] of the containers. *)
Module Orders.

Class Compare (K : Type) : Type := cmp : K -> K -> Z.
Class CompareOk (K : Type) {c : Compare K} : Prop := {
  cmp_0 a b : cmp a b = 0 <-> a = b;
  cmp_opp a b : cmp b a = - cmp a b;
  cmp_trans a b c : cmp a b < 0 -> cmp b c < 0 -> cmp a c < 0
}.

(** The first difference decides. *)
Definition first (res rest : Z) : Z := if res =? 0 then rest else res.
Definition zcmp (a b : Z) : Z := if a =? b then 0 else if a <? b then -1 else 1.

Lemma zcmp_cases a b : (a = b /\ zcmp a b = 0) \/ (a < b /\ zcmp a b = -1) \/ (b < a /\ zcmp a b = 1).
Proof. unfold zcmp. destruct (Z.eqb_spec a b); [by left|]. destruct (Z.ltb_spec a b); [right; by left|right; right; lia]. Qed.
Lemma first_0 r : first 0 r = r.
Proof. done. Qed.
Lemma first_zero a b : first a b = 0 <-> a = 0 /\ b = 0.
Proof. unfold first. destruct (Z.eqb_spec a 0); lia. Qed.
Lemma first_neg a b : first a b < 0 <-> a < 0 \/ (a = 0 /\ b < 0).
Proof. unfold first. destruct (Z.eqb_spec a 0); lia. Qed.
Lemma first_opp a b : first (- a) (- b) = - first a b.
Proof. unfold first. destruct (Z.eqb_spec a 0) as [->|H]; [done|]. by rewrite (proj2 (Z.eqb_neq (- a) 0)) by lia. Qed.

#[export] Instance z_compare : Compare Z := zcmp.
#[export] Instance z_compare_ok : CompareOk Z.
Proof.
  split; unfold cmp, z_compare.
  - intros a b. destruct (zcmp_cases a b) as [[? ->]|[[? ->]|[? ->]]]; split; lia.
  - intros a b. destruct (zcmp_cases a b) as [[? ->]|[[? ->]|[? ->]]], (zcmp_cases b a) as [[? ->]|[[? ->]|[? ->]]]; lia.
  - intros a b c. destruct (zcmp_cases a b) as [[? ->]|[[? ->]|[? ->]]], (zcmp_cases b c) as [[? ->]|[[? ->]|[? ->]]],
      (zcmp_cases a c) as [[? ->]|[[? ->]|[? ->]]]; lia.
Qed.

(** An order with the elements of another type in between. *)
Lemma compare_by {A B} {c : Compare B} {ok : CompareOk B} (f : A -> B) :
  (forall a b, f a = f b -> a = b) -> @CompareOk A (fun a b => cmp (f a) (f b)).
Proof.
  intros Hf. split.
  - intros a b. change (cmp (f a) (f b) = 0 <-> a = b). rewrite cmp_0. split; [apply Hf|by intros ->].
  - intros a b. apply (cmp_opp (f a) (f b)).
  - intros a b d. apply (cmp_trans (f a) (f b) (f d)).
Qed.

Section Sequences.
Context {A B : Type} {ca : Compare A} {oka : CompareOk A} {cb : Compare B} {okb : CompareOk B}.
#[export] Instance pair_compare : Compare (A * B) := fun x y => first (cmp x.1 y.1) (cmp x.2 y.2).
Lemma cmp_pair (x y : A * B) : cmp x y = first (cmp x.1 y.1) (cmp x.2 y.2).
Proof. done. Qed.
#[export] Instance pair_compare_ok : CompareOk (A * B).
Proof.
  split.
  - intros [a b] [a' b']. rewrite cmp_pair, first_zero, (cmp_0 a a'), (cmp_0 b b'). split; [by intros [-> ->]|by intros [= -> ->]].
  - intros x y. by rewrite !cmp_pair, (cmp_opp x.1), (cmp_opp x.2), first_opp.
  - intros x y z. rewrite !cmp_pair, !first_neg, (cmp_0 x.1), (cmp_0 y.1), (cmp_0 x.1).
    intros [H1|[E1 H1]] [H2|[E2 H2]].
    + left. by eapply cmp_trans.
    + left. by rewrite <- E2.
    + left. by rewrite E1.
    + right. split; [congruence|by eapply cmp_trans].
Qed.
Fixpoint lexicographic (x y : list A) : Z :=
  match x, y with
  | [], [] => 0
  | [], _ => -1
  | _, [] => 1
  | a :: x, b :: y => first (cmp a b) (lexicographic x y)
  end.
#[export] Instance list_compare : Compare (list A) := lexicographic.
Lemma cmp_cons a x b y : cmp (a :: x) (b :: y) = first (cmp a b) (cmp x y).
Proof. done. Qed.
#[export] Instance list_compare_ok : CompareOk (list A).
Proof.
  split.
  - intros x. induction x as [|a x IH]; intros [|b y]; [done|done|done|]. rewrite cmp_cons, first_zero, (cmp_0 a b), IH.
    split; [by intros [-> ->]|by intros [= -> ->]].
  - intros x. induction x as [|a x IH]; intros [|b y]; [done|done|done|]. by rewrite !cmp_cons, (cmp_opp a), IH, first_opp.
  - intros x. induction x as [|a x IH]; intros [|b y] [|d z]; try done. rewrite !cmp_cons, !first_neg, (cmp_0 a b), (cmp_0 b d), (cmp_0 a d).
    intros [H1|[E1 H1]] [H2|[E2 H2]].
    + left. by eapply cmp_trans.
    + left. by rewrite <- E2.
    + left. by rewrite E1.
    + right. split; [congruence|by apply (IH y)].
Qed.
End Sequences.
End Orders.

(** * Maps from sets

    src/include/klee/Internal/ADT/MapOfSets.h: a map whose keys are sets, stored as a tree in
    which the path to a value has the elements of its key in increasing order. Besides
    lookups it finds values of subsets and of supersets of a given set. *)
Module MapOfSets.
Import Orders.

Section Tree.
Context {K V : Type} {order : Compare K}.
Definition klt (a b : K) : bool := cmp a b <? 0.
Definition keq (a b : K) : bool := cmp a b =? 0.

(** A set, in increasing order. *)
Abbreviation set := (list K).
Fixpoint set_insert (x : K) (s : set) : set :=
  match s with
  | [] => [x]
  | y :: s => if keq x y then y :: s else if klt x y then x :: y :: s else y :: set_insert x s
  end.

(** [Node]: the value if [isEndOfSet], and the children in increasing order. *)
#[warnings="-register-all"] Inductive node : Type := Node (value : option V) (children : list (K * node)).
Definition value_of (n : node) : option V := match n with Node v _ => v end.
Definition children (n : node) : list (K * node) := match n with Node _ ch => ch end.
Definition empty_node : node := Node None [].
Definition clear (n : node) : node := empty_node.

Fixpoint find_child (k : K) (ch : list (K * node)) : option node :=
  match ch with [] => None | (k', c) :: ch => if keq k k' then Some c else find_child k ch end.
(** The child of [k], new if there is none, is changed by [f]. *)
Fixpoint at_child (k : K) (f : node -> node) (ch : list (K * node)) : list (K * node) :=
  match ch with
  | [] => [(k, f empty_node)]
  | (k', c) :: ch =>
      if keq k k' then (k', f c) :: ch
      else if klt k k' then (k, f empty_node) :: (k', c) :: ch
      else (k', c) :: at_child k f ch
  end.
Fixpoint insert (s : set) (v : V) (n : node) : node :=
  match s with
  | [] => Node (Some v) (children n)
  | k :: s => Node (value_of n) (at_child k (insert s v) (children n))
  end.
Fixpoint lookup (s : set) (n : node) : option V :=
  match s with
  | [] => value_of n
  | k :: s => match find_child k (children n) with Some c => lookup s c | None => None end
  end.

(** ** All subsets, all supersets *)
Definition here (n : node) (accum : set) : list (set * V) := match value_of n with Some v => [(accum, v)] | None => [] end.
Fixpoint subsets_from (it : set) (n : node) (accum : set) : list (set * V) :=
  match it with
  | [] => []
  | elt :: it =>
      match find_child elt (children n) with
      | Some c => let nacc := set_insert elt accum in here c nacc ++ subsets_from it c nacc
      | None => []
      end ++ subsets_from it n accum
  end.
Definition findSubsets (n : node) (accum it : set) : list (set * V) := here n accum ++ subsets_from it n accum.
Definition subsets (n : node) (s : set) : list (set * V) := findSubsets n [] s.

(** The loops over the children, on what is done with a child. *)
Section Children.
Context (rec : node -> set -> set -> list (set * V)) (accum : set).
Fixpoint all_children (ch : list (K * node)) : list (set * V) :=
  match ch with [] => [] | (k, c) :: ch => rec c (set_insert k accum) [] ++ all_children ch end.
Fixpoint children_upto (elt : K) (next : set) (ch : list (K * node)) : list (set * V) :=
  match ch with
  | [] => []
  | (k, c) :: ch =>
      if keq elt k then rec c (set_insert k accum) next ++ children_upto elt next ch
      else if klt k elt then rec c (set_insert k accum) (elt :: next) ++ children_upto elt next ch
      else []
  end.
End Children.
Fixpoint findSupersets (n : node) (accum it : set) : list (set * V) :=
  match n with
  | Node _ ch =>
      match it with
      | [] => here n accum ++ all_children findSupersets accum ch
      | elt :: next => children_upto findSupersets accum elt next ch
      end
  end.
Definition supersets (n : node) (s : set) : list (set * V) := findSupersets n [] s.

(** ** One subset, one superset with a value that [p] accepts *)
Section Find.
(** The predicate, and what the search ends with on a value that it holds of. *)
Context {A : Type} (p : V -> option A).

Definition accepted (n : node) : option A := match value_of n with Some v => p v | None => None end.
(** The elements less than [k] are passed over. *)
Fixpoint drop_below (k : K) (it : set) : set :=
  match it with [] => [] | x :: rest => if klt x k then drop_below k rest else it end.
Section Loops.
Context (rec : node -> set -> option A).
(** The loop advances the elements and the children in turn; the first child it looks at is
    [lower_bound] of the first element. *)
Fixpoint scan (ch : list (K * node)) (it : set) : option A :=
  match ch with
  | [] => None
  | (k, c) :: ch =>
      match drop_below k it with
      | [] => None
      | x :: rest =>
          if keq x k then
            match rec c rest, rest with
            | Some v, _ => Some v
            | None, [] => None
            | None, _ => scan ch rest
            end
          else scan ch (x :: rest)
      end
  end.
Fixpoint first_child (it : set) (ch : list (K * node)) : option A :=
  match ch with [] => None | (_, c) :: ch => match rec c it with Some v => Some v | None => first_child it ch end end.
(** The child of [x], by [lower_bound]. *)
Fixpoint child_of (x : K) (next : set) (ch : list (K * node)) : option A :=
  match ch with
  | [] => None
  | (k, c) :: ch => if klt k x then child_of x next ch else if keq x k then rec c next else None
  end.
End Loops.
Fixpoint findSubset (n : node) (it : set) : option A :=
  match n with
  | Node _ ch => match accepted n with Some v => Some v | None => scan findSubset ch it end
  end.
Fixpoint findSuperset (n : node) (it : set) : option A :=
  match n with
  | Node _ ch =>
      match it with
      | [] => match accepted n with Some v => Some v | None => first_child findSuperset it ch end
      | x :: next =>
          match first_child findSuperset it ch with
          | Some v => Some v
          | None => child_of findSuperset x next ch
          end
      end
  end.
End Find.

(** ** Well-formed trees *)
Abbreviation sorted := (StronglySorted (fun a b : K => cmp a b < 0)).
Abbreviation below k n := (Forall (fun kc : K * node => cmp k kc.1 < 0) (children n)).
Fixpoint wf (n : node) : Prop :=
  match n with
  | Node _ ch =>
      StronglySorted (fun a b : K * node => cmp a.1 b.1 < 0) ch /\
      (fix all (ch : list (K * node)) : Prop :=
         match ch with [] => True | (k, c) :: ch => (wf c /\ below k c) /\ all ch end) ch
  end.
Lemma wf_node v ch :
  wf (Node v ch) <-> StronglySorted (fun a b : K * node => cmp a.1 b.1 < 0) ch /\ Forall (fun kc => wf kc.2 /\ below kc.1 kc.2) ch.
Proof.
  simpl. apply and_iff_compat_l. induction ch as [|[k c] ch IH]; [done|]. rewrite Forall_cons_iff, IH. done.
Qed.
(** Induction on trees. *)
Lemma node_induct (P : node -> Prop) : (forall v ch, Forall (fun kc => P kc.2) ch -> P (Node v ch)) -> forall n, P n.
Proof.
  intros H. fix IH 1. intros [v ch]. apply H. induction ch as [|[k c] ch IHch]; constructor; [apply IH|exact IHch].
Qed.

(** ** Lookups and insertion *)
Context {cok : CompareOk K}.
Lemma keq_iff a b : keq a b = true <-> a = b.
Proof. unfold keq. by rewrite Z.eqb_eq, cmp_0. Qed.
Lemma keq_refl a : keq a a = true.
Proof. by apply keq_iff. Qed.
Lemma klt_iff a b : klt a b = true <-> cmp a b < 0.
Proof. apply Z.ltb_lt. Qed.
Lemma cmp_irrefl a : ~ cmp a a < 0.
Proof. rewrite (proj2 (cmp_0 a a) eq_refl). lia. Qed.
Lemma cmp_asym a b : cmp a b < 0 -> ~ cmp b a < 0.
Proof. rewrite (cmp_opp a b). lia. Qed.
Lemma cmp_cases a b : (a = b /\ keq a b = true) \/ (cmp a b < 0 /\ klt a b = true /\ keq a b = false) \/
  (cmp b a < 0 /\ klt a b = false /\ keq a b = false).
Proof.
  unfold keq, klt. pose proof (cmp_0 a b) as H0. pose proof (cmp_opp a b) as Ho.
  destruct (Z.eqb_spec (cmp a b) 0) as [E|E]; [left; split; [by apply H0|done]|].
  destruct (Z.ltb_spec (cmp a b) 0); right; [by left|right; split; [lia|done]].
Qed.
Lemma sorted_head_in x s : sorted s -> (forall y, y ∈ s -> cmp x y < 0) -> sorted (x :: s).
Proof. intros H1 H2. constructor; [done|]. by apply list.Forall_forall. Qed.

Lemma find_child_in k ch c : find_child k ch = Some c -> (k, c) ∈ ch.
Proof.
  induction ch as [|[k' c'] ch IH]; [done|]. cbn [find_child]. destruct (keq k k') eqn:E; [|intros H; right; by apply IH].
  apply keq_iff in E as ->. intros [= ->]. left.
Qed.
Lemma find_child_of k c ch : StronglySorted (fun a b : K * node => cmp a.1 b.1 < 0) ch -> (k, c) ∈ ch -> find_child k ch = Some c.
Proof.
  induction ch as [|[k' c'] ch IH]; intros Hs; [by intros ?%elem_of_nil|]. apply StronglySorted_inv in Hs as [Hs Hk'].
  cbn [find_child]. intros [[= <- <-]|H]%elem_of_cons; [by rewrite keq_refl|].
  rewrite list.Forall_forall in Hk'. specialize (Hk' _ H). simpl in Hk'. destruct (keq k k') eqn:E; [|by apply IH].
  apply keq_iff in E as ->. by apply cmp_irrefl in Hk'.
Qed.
Lemma find_at_child k k' f ch : StronglySorted (fun a b : K * node => cmp a.1 b.1 < 0) ch ->
  find_child k' (at_child k f ch) = if keq k' k then Some (f (default empty_node (find_child k ch))) else find_child k' ch.
Proof.
  induction ch as [|[k1 c1] ch IH]; intros Hs; [cbn; by destruct (keq k' k)|]. apply StronglySorted_inv in Hs as [Hs Hk].
  cbn [at_child find_child]. destruct (cmp_cases k k1) as [[-> ->]|[(Hlt & Hl & He)|(Hlt & Hl & He)]].
  - cbn [find_child]. by destruct (keq k' k1).
  - rewrite Hl, He. cbn [find_child]. destruct (keq k' k) eqn:E; [|done]. do 2 f_equal.
    destruct (find_child k ch) as [c|] eqn:Ec; [|done]. apply find_child_in in Ec. rewrite list.Forall_forall in Hk.
    specialize (Hk _ Ec). simpl in Hk. by destruct (cmp_asym _ _ Hlt).
  - rewrite Hl, He. cbn [find_child]. destruct (keq k' k1) eqn:E1.
    + apply keq_iff in E1 as ->. destruct (keq k1 k) eqn:E; [|done]. apply keq_iff in E as ->. by apply cmp_irrefl in Hlt.
    + by apply IH.
Qed.
Lemma at_child_in k f ch kc :
  kc ∈ at_child k f ch -> kc ∈ ch \/ (kc.1 = k /\ exists c, kc.2 = f c /\ (c = empty_node \/ (k, c) ∈ ch)).
Proof.
  induction ch as [|[k1 c1] ch IH]; cbn [at_child].
  { intros ->%list_elem_of_singleton. right. split; [done|]. exists empty_node. auto. }
  destruct (cmp_cases k k1) as [[-> ->]|[(Hlt & -> & ->)|(Hlt & -> & ->)]].
  - intros [->|H]%elem_of_cons; [|left; by right]. right. split; [done|]. exists c1. split; [done|]. right. left.
  - intros [->|H]%elem_of_cons; [|by left]. right. split; [done|]. exists empty_node. auto.
  - intros [->|H]%elem_of_cons; [left; left|]. destruct (IH H) as [?|(E & c & Ec & Hc)]; [left; by right|].
    right. split; [done|]. exists c. split; [done|]. destruct Hc as [?|?]; [by left|right; by right].
Qed.
Lemma at_child_sorted k f ch :
  StronglySorted (fun a b : K * node => cmp a.1 b.1 < 0) ch -> StronglySorted (fun a b : K * node => cmp a.1 b.1 < 0) (at_child k f ch).
Proof.
  induction ch as [|[k1 c1] ch IH]; intros Hs; cbn [at_child]; [by repeat constructor|]. apply StronglySorted_inv in Hs as [Hs Hk].
  destruct (cmp_cases k k1) as [[-> ->]|[(Hlt & -> & ->)|(Hlt & -> & ->)]].
  - by constructor.
  - constructor; [by constructor|]. constructor; [done|]. eapply list.Forall_impl; [exact Hk|]. intros kc H. by eapply cmp_trans.
  - constructor; [by apply IH|]. rewrite list.Forall_forall in Hk |- *. intros kc [H|[-> _]]%at_child_in; [by apply Hk|done].
Qed.
Lemma insert_children s v n kc : kc ∈ children (insert s v n) -> kc.1 ∈ fst <$> children n \/ head s = Some kc.1.
Proof.
  destruct s as [|k s]; cbn [insert children].
  - intros H. left. by apply list_elem_of_fmap_2.
  - intros [H|[-> _]]%at_child_in; [left; by apply list_elem_of_fmap_2|by right].
Qed.
Lemma wf_empty : wf empty_node.
Proof. apply wf_node. by repeat constructor. Qed.
Lemma insert_wf s v : forall n, sorted s -> wf n -> wf (insert s v n).
Proof.
  induction s as [|k s IH]; intros [w ch] Hs Hn; apply wf_node in Hn as [Hch Hall]; cbn [insert children value_of]; apply wf_node; [done|].
  apply StronglySorted_inv in Hs as [Hs Hk]. split; [by apply at_child_sorted|]. rewrite list.Forall_forall in Hall |- *.
  intros [k' c'] [H|(E & c & Ec & Hc)]%at_child_in; [by apply (Hall _ H)|]. simpl in *. subst k' c'.
  assert (Hc' : wf c /\ below k c) by (destruct Hc as [->|Hc]; [split; [apply wf_empty|by constructor]|by apply (Hall _ Hc)]).
  split; [by apply IH; [|apply Hc']|]. apply list.Forall_forall. intros kc' H'. destruct Hc' as [_ Hb].
  apply insert_children in H' as [H'|H'].
  - apply list_elem_of_fmap in H' as (kc'' & -> & H''). rewrite list.Forall_forall in Hb. by apply Hb.
  - destruct s; [done|]. injection H' as ->. by apply Forall_cons_iff in Hk as [Hk _].
Qed.
Lemma lookup_empty s : lookup s empty_node = None.
Proof. by destruct s. Qed.
Lemma wf_child n k c : wf n -> find_child k (children n) = Some c -> wf c /\ below k c.
Proof. destruct n as [v ch]. intros [_ H]%wf_node Hc%find_child_in. rewrite list.Forall_forall in H. by apply (H _ Hc). Qed.
Lemma lookup_insert_ok s v : forall n s', wf n ->
  (s' = s -> lookup s' (insert s v n) = Some v) /\ (s' <> s -> lookup s' (insert s v n) = lookup s' n).
Proof.
  induction s as [|k s IH]; intros [w ch] s' Hn; cbn [insert children value_of].
  { split; [by intros ->|]. by destruct s'. }
  pose proof Hn as [Hch _]%wf_node.
  destruct s' as [|k' s']; [by split|]. cbn [lookup children]. rewrite find_at_child by done.
  destruct (keq k' k) eqn:E.
  - apply keq_iff in E as ->. assert (Hd : wf (default empty_node (find_child k ch))).
    { destruct (find_child k ch) as [c|] eqn:Ec; [by apply (wf_child (Node w ch) k c)|apply wf_empty]. }
    destruct (IH _ s' Hd) as [H1 H2]. split; [intros [= ->]; by apply H1|]. intros Hne. rewrite H2 by congruence.
    destruct (find_child k ch); [done|apply lookup_empty].
  - split; [|done]. intros [= -> _]. by rewrite keq_refl in E.
Qed.
Lemma lookup_cons k s n v : wf n -> lookup (k :: s) n = Some v <-> exists c, (k, c) ∈ children n /\ lookup s c = Some v.
Proof.
  destruct n as [w ch]. intros [Hch _]%wf_node. cbn [lookup children]. split.
  - destruct (find_child k ch) as [c|] eqn:E; [|done]. intros H. exists c. split; [by apply find_child_in|done].
  - intros (c & Hc & H). by rewrite (find_child_of k c ch).
Qed.
Lemma wf_in n k c : wf n -> (k, c) ∈ children n -> wf c /\ below k c.
Proof. intros Hn Hc. destruct n as [w ch]. pose proof Hn as [Hch _]%wf_node. by apply (wf_child _ k c Hn), find_child_of. Qed.
Lemma lookup_sorted s : forall n v, wf n -> lookup s n = Some v -> sorted s.
Proof.
  induction s as [|k s IH]; intros n v Hn; [by constructor|]. intros (c & Hc & H)%lookup_cons; [|done].
  destruct (wf_in n k c Hn Hc) as [Hwc Hb]. pose proof (IH c v Hwc H) as Hs. constructor; [done|].
  destruct s as [|k' s]; [by constructor|]. apply lookup_cons in H as (c' & Hc' & _); [|done].
  rewrite list.Forall_forall in Hb. specialize (Hb _ Hc'). simpl in Hb. constructor; [done|].
  apply StronglySorted_inv in Hs as [_ Hs]. eapply list.Forall_impl; [exact Hs|]. intros x Hx. by eapply cmp_trans.
Qed.
Lemma sorted_tail k s : sorted (k :: s) -> sorted s /\ forall x, x ∈ s -> cmp k x < 0.
Proof. intros [H1 H2]%StronglySorted_inv. by rewrite list.Forall_forall in H2. Qed.

(** ** Finding subsets *)
Section FindOk.
Context {A : Type} (p : V -> option A).
(** A value that is accepted. *)
Definition hit (n : node) (s : set) (a : A) : Prop := exists v, lookup s n = Some v /\ p v = Some a.
Lemma hit_cons k s n a : wf n -> hit n (k :: s) a <-> exists c, (k, c) ∈ children n /\ hit c s a.
Proof.
  intros Hn. split.
  - intros (v & Hl & Hv). apply lookup_cons in Hl as (c & Hc & Hl); [|done]. exists c. split; [done|by exists v].
  - intros (c & Hc & v & Hl & Hv). exists v. split; [|done]. apply lookup_cons; [done|]. by exists c.
Qed.
Lemma accepted_some n v : accepted p n = Some v -> hit n [] v.
Proof. unfold accepted, hit. cbn [lookup]. destruct (value_of n) as [w|]; [|done]. intros H. by exists w. Qed.
Lemma accepted_none n v : accepted p n = None -> lookup [] n = Some v -> p v = None.
Proof. unfold accepted. cbn [lookup]. intros H Hv. by rewrite Hv in H. Qed.
Lemma drop_below_ok k it : sorted it ->
  sorted (drop_below k it) /\ (forall x, x ∈ drop_below k it <-> x ∈ it /\ ~ cmp x k < 0).
Proof.
  induction it as [|y it IH]; intros Hs; cbn [drop_below]; [split; [done|]; intros x; rewrite elem_of_nil; tauto|].
  apply sorted_tail in Hs as [Hs Hy]. destruct (klt y k) eqn:E.
  - apply klt_iff in E. destruct (IH Hs) as [H1 H2]. split; [done|]. intros x. rewrite H2, elem_of_cons.
    split; [tauto|]. intros [[->|H] Hx]; [done|done].
  - split; [by apply sorted_head_in|]. intros x. split; [|tauto]. intros Hx. split; [done|].
    assert (~ cmp y k < 0) as Hn by (intros H; apply klt_iff in H; congruence).
    apply elem_of_cons in Hx as [->|Hx]; [done|]. intros H. apply Hn. by eapply cmp_trans; [apply Hy|].
Qed.

(** Elements of a set that starts with a later child, or with this one, are not dropped. *)
Lemma drop_keeps k k' it s : sorted it -> cmp k k' < 0 \/ k = k' -> sorted (k' :: s) -> k' :: s ⊆ it -> k' :: s ⊆ drop_below k it.
Proof.
  intros Hit Hkk' [Hs1 Hs2]%sorted_tail Hsub x Hx. apply drop_below_ok; [done|]. split; [by apply Hsub|]. intros Hlt.
  apply elem_of_cons in Hx as [->|Hx]; [destruct Hkk' as [H| ->]; [by apply cmp_asym in H|by apply cmp_irrefl in Hlt]|].
  specialize (Hs2 x Hx). assert (cmp k x < 0) as H by (destruct Hkk' as [H| ->]; [by eapply cmp_trans|done]). by apply cmp_asym in H.
Qed.
(** ... nor does the first element belong to the rest of a set that starts after it. *)
Lemma rest_keeps k k' s rest : cmp k k' < 0 -> sorted (k' :: s) -> k' :: s ⊆ k :: rest -> k' :: s ⊆ rest.
Proof.
  intros Hk [_ Hgt]%sorted_tail Hsub y Hy. pose proof (Hsub y Hy) as [->|?]%elem_of_cons; [|done].
  apply elem_of_cons in Hy as [->|Hy]; [by apply cmp_irrefl in Hk|]. by destruct (cmp_asym _ _ Hk (Hgt k Hy)).
Qed.
Lemma rest_subset k s rest : sorted (k :: s) -> k :: s ⊆ k :: rest -> s ⊆ rest.
Proof.
  intros [_ Hgt]%sorted_tail Hsub y Hy. pose proof (Hsub y ltac:(by right)) as [->|?]%elem_of_cons; [|done].
  by destruct (cmp_irrefl k (Hgt k Hy)).
Qed.
(** What is to be found in the children [ch] with elements of [it]. *)
Definition found (ch : list (K * node)) (it : set) (r : option A) : Prop :=
  match r with
  | Some v => exists k c s, (k, c) ∈ ch /\ k :: s ⊆ it /\ hit c s v
  | None => forall k c s v, (k, c) ∈ ch -> k :: s ⊆ it -> sorted (k :: s) -> lookup s c = Some v -> p v = None
  end.
Definition subset_found (n : node) (it : set) (r : option A) : Prop :=
  match r with
  | Some v => exists s, s ⊆ it /\ hit n s v
  | None => forall s v, s ⊆ it -> lookup s n = Some v -> p v = None
  end.
Lemma scan_ok ch : Forall (fun kc => forall it, sorted it -> subset_found kc.2 it (findSubset p kc.2 it)) ch ->
  StronglySorted (fun a b : K * node => cmp a.1 b.1 < 0) ch -> forall it, sorted it -> found ch it (scan (findSubset p) ch it).
Proof.
  induction ch as [|[k c] ch IH]; intros Hall Hch it Hit; cbn [scan]; [by intros k c s v ?%elem_of_nil|].
  apply Forall_cons_iff in Hall as [Hc Hall]. apply StronglySorted_inv in Hch as [Hch Hk]. rewrite list.Forall_forall in Hk.
  destruct (drop_below_ok k it Hit) as [Hd Hin]. specialize (IH Hall Hch).
  pose proof (fun k' s => drop_keeps k k' it s Hit) as Hkeep.
  (* no set is left when nothing is left *)
  destruct (drop_below k it) as [|x rest] eqn:E.
  { intros k' c' s v Hkc Hsub Hs _. exfalso. apply (Hkeep k' s) in Hsub; [|apply elem_of_cons in Hkc as [[= -> _]|H]; [by right|left; by apply (Hk _ H)]|done].
    specialize (Hsub k' ltac:(left)). by apply elem_of_nil in Hsub. }
  assert (Hrest : forall y, y ∈ x :: rest -> y ∈ it) by (intros y Hy; by apply Hin).
  pose proof (sorted_tail x rest Hd) as [Hr Hx].
  destruct (keq x k) eqn:Ek.
  - apply keq_iff in Ek as ->. specialize (Hc rest Hr). cbn [snd] in Hc.
    assert (Hlater : forall r, found ch rest r -> (r = None -> findSubset p c rest = None) -> found ((k, c) :: ch) it r).
    { intros [v|] Hf Hnone; cbn [found] in *.
      - destruct Hf as (k' & c' & s & H1 & H2 & H3). exists k', c', s. split_and!; [by right| |done].
        intros y Hy. apply Hrest. right. by apply H2.
      - intros k' c' s v Hkc Hsub Hs Hl. rewrite (Hnone eq_refl) in Hc. apply elem_of_cons in Hkc as [[= -> ->]|Hkc].
        + apply (Hc s v); [|done]. apply (rest_subset k); [done|]. apply Hkeep; [by right|done|done].
        + specialize (Hk _ Hkc). apply (Hf k' c' s v); [done| |done|done]. apply (rest_keeps k); [done|done|].
          apply Hkeep; [by left|done|done]. }
    destruct (findSubset p c rest) as [v|] eqn:Ec.
    + destruct Hc as (s & Hs & Hl). exists k, c, s. split_and!; [left| |done].
      intros y Hy. apply Hrest. apply elem_of_cons in Hy as [->|Hy]; [left|right; by apply Hs].
    + destruct rest as [|x' rest']; [|apply Hlater; [by apply IH|done]]. apply Hlater; [|done].
      intros k' c' s v _ Hsub. specialize (Hsub k' ltac:(left)). by apply elem_of_nil in Hsub.
  - specialize (IH (x :: rest) Hd). destruct (scan (findSubset p) ch (x :: rest)) as [v|]; cbn [found] in *.
    + destruct IH as (k' & c' & s & H1 & H2 & H3). exists k', c', s. split_and!; [by right| |done].
      intros y Hy. by apply Hrest, H2.
    + intros k' c' s v Hkc Hsub Hs Hl. apply elem_of_cons in Hkc as [[= -> ->]|Hkc].
      * exfalso. specialize (Hkeep k s ltac:(by right) Hs Hsub k ltac:(left)).
        apply elem_of_cons in Hkeep as [->|Hkx]; [by rewrite keq_refl in Ek|].
        specialize (Hx k Hkx). by apply (proj1 (Hin x) ltac:(left)) in Hx.
      * apply (IH k' c' s v); [done| |done|done]. apply Hkeep; [left; by apply (Hk _ Hkc)|done|done].
Qed.
Lemma findSubset_ok n : forall it, wf n -> sorted it -> subset_found n it (findSubset p n it).
Proof.
  induction n as [w ch IH] using node_induct. intros it Hn Hit. cbn [findSubset].
  destruct (accepted p (Node w ch)) as [v|] eqn:Ea.
  { apply accepted_some in Ea. exists []. split; [by intros x ?%elem_of_nil|done]. }
  pose proof Hn as [Hch Hall]%wf_node.
  assert (Hf : found ch it (scan (findSubset p) ch it)).
  { apply scan_ok; [|done|done]. rewrite list.Forall_forall in IH, Hall |- *. intros kc Hkc it' Hit'. by apply IH, Hit'; [|apply Hall]. }
  destruct (scan (findSubset p) ch it) as [v|]; cbn [found subset_found] in *.
  - destruct Hf as (k & c & s & H1 & H2 & H3). exists (k :: s). split; [done|]. apply hit_cons; [done|]. by exists c.
  - intros [|k s] v Hsub Hl; [by eapply accepted_none|]. pose proof (lookup_sorted _ _ _ Hn Hl) as Hs.
    apply lookup_cons in Hl as (c & Hc & Hl); [|done]. by apply (Hf k c s v).
Qed.

(** ** Finding supersets *)
Definition superset_found (n : node) (it : set) (r : option A) : Prop :=
  match r with
  | Some v => exists s, it ⊆ s /\ hit n s v
  | None => forall s v, it ⊆ s -> lookup s n = Some v -> p v = None
  end.
Lemma first_child_ok ch it :
  Forall (fun kc => superset_found kc.2 it (findSuperset p kc.2 it)) ch ->
  match first_child (findSuperset p) it ch with
  | Some v => exists k c s, (k, c) ∈ ch /\ it ⊆ s /\ hit c s v
  | None => forall k c s v, (k, c) ∈ ch -> it ⊆ s -> lookup s c = Some v -> p v = None
  end.
Proof.
  induction ch as [|[k c] ch IH]; intros Hall; cbn [first_child]; [by intros k c s v ?%elem_of_nil|].
  apply Forall_cons_iff in Hall as [Hc Hall]. specialize (IH Hall). cbn [snd] in Hc.
  destruct (findSuperset p c it) as [v|].
  { destruct Hc as (s & H1 & H2). exists k, c, s. split_and!; [left|done|done]. }
  destruct (first_child (findSuperset p) it ch) as [v|].
  - destruct IH as (k' & c' & s & H1 & H2 & H3). exists k', c', s. split_and!; [by right|done|done].
  - intros k' c' s v [[= -> ->]|Hkc]%elem_of_cons; [by apply Hc|by apply (IH k' c' s v Hkc)].
Qed.
Lemma child_of_find x next ch : StronglySorted (fun a b : K * node => cmp a.1 b.1 < 0) ch ->
  child_of (findSuperset p) x next ch = find_child x ch ≫= fun c => findSuperset p c next.
Proof.
  induction ch as [|[k c] ch IH]; intros Hch; [done|]. apply StronglySorted_inv in Hch as [Hch Hk]. cbn [child_of find_child].
  destruct (cmp_cases x k) as [[-> ->]|[(Hlt & _ & ->)|(Hlt & _ & ->)]].
  - destruct (klt k k) eqn:E; [apply klt_iff in E; by apply cmp_irrefl in E|done].
  - destruct (klt k x) eqn:E; [apply klt_iff in E; by apply cmp_asym in E|]. destruct (find_child x ch) as [c'|] eqn:Ec; [|done].
    apply find_child_in in Ec. rewrite list.Forall_forall in Hk. specialize (Hk _ Ec). simpl in Hk. by apply cmp_asym in Hk.
  - rewrite (proj2 (klt_iff k x) Hlt). by apply IH.
Qed.
Lemma findSuperset_ok n : forall it, wf n -> sorted it -> superset_found n it (findSuperset p n it).
Proof.
  induction n as [w ch IH] using node_induct. intros it Hn Hit. pose proof Hn as [Hch Hall]%wf_node. cbn [findSuperset].
  assert (Hc : forall it', sorted it' -> Forall (fun kc => superset_found kc.2 it' (findSuperset p kc.2 it')) ch).
  { intros it' Hit'. rewrite list.Forall_forall in IH, Hall |- *. intros kc Hkc. by apply IH, Hit'; [|apply Hall]. }
  assert (Hup : forall v, (exists k c s, (k, c) ∈ ch /\ it ⊆ k :: s /\ hit c s v) -> superset_found (Node w ch) it (Some v)).
  { intros v (k & c & s & H1 & H2 & H3). exists (k :: s). split; [done|]. apply hit_cons; [done|]. by exists c. }
  pose proof (first_child_ok ch it (Hc it Hit)) as Hf. destruct it as [|x next].
  - destruct (accepted p (Node w ch)) as [v|] eqn:Ea; [apply accepted_some in Ea; by exists []|].
    destruct (first_child (findSuperset p) [] ch) as [v|].
    + destruct Hf as (k & c & s & H1 & _ & H3). apply Hup. exists k, c, s. split_and!; [done|by intros y ?%elem_of_nil|done].
    + intros [|k s] v _ Hl; [by eapply accepted_none|]. apply lookup_cons in Hl as (c & Hkc & Hl); [|done].
      apply (Hf k c s v); [done|by intros y ?%elem_of_nil|done].
  - destruct (first_child (findSuperset p) (x :: next) ch) as [v|].
    { destruct Hf as (k & c & s & H1 & H2 & H3). apply Hup. exists k, c, s. split_and!; [done| |done]. intros y Hy. right. by apply H2. }
    rewrite child_of_find by done. apply sorted_tail in Hit as [Hnext Hx].
    assert (Hdone : forall s v, x :: next ⊆ s -> lookup s (Node w ch) = Some v ->
      (forall c s', find_child x ch = Some c -> next ⊆ s' -> lookup s' c = Some v -> p v = None) -> p v = None).
    { intros [|k s] v Hsub Hl Hmid; [specialize (Hsub x ltac:(left)); by apply elem_of_nil in Hsub|].
      pose proof (lookup_sorted _ _ _ Hn Hl) as [_ Hgt]%sorted_tail. apply lookup_cons in Hl as (c & Hkc & Hl); [|done].
      assert (Hin : forall y, y ∈ x :: next -> y = k \/ y ∈ s) by (intros y Hy; by apply elem_of_cons, Hsub).
      destruct (decide (keq x k = true)) as [E|E].
      - apply keq_iff in E as ->. apply (Hmid c s); [by apply find_child_of| |done]. intros y Hy.
        destruct (Hin y ltac:(by right)) as [->|?]; [|done]. by destruct (cmp_irrefl k (Hx k Hy)).
      - apply (Hf k c s v); [done| |done]. intros y Hy. destruct (Hin y Hy) as [->|?]; [|done].
        apply elem_of_cons in Hy as [->|Hy]; [by rewrite keq_refl in E|].
        destruct (Hin x ltac:(left)) as [->|Hxs]; [by rewrite keq_refl in E|].
        by destruct (cmp_asym _ _ (Hx k Hy) (Hgt x Hxs)). }
    destruct (find_child x ch) as [c|] eqn:Ec; simpl; [|intros s v Hsub Hl; by apply (Hdone s v Hsub Hl)].
    pose proof (find_child_in _ _ _ Ec) as Hxc. pose proof (Hc next Hnext) as Hcn. rewrite list.Forall_forall in Hcn. specialize (Hcn _ Hxc). cbn [snd] in Hcn.
    destruct (findSuperset p c next) as [v|].
    + destruct Hcn as (s & H1 & H2). apply Hup. exists x, c, s. split_and!; [done| |done].
      intros y [->|Hy]%elem_of_cons; [left|right; by apply H1].
    + intros s v Hsub Hl. apply (Hdone s v Hsub Hl). intros c' s' [= <-] Hs'. by apply Hcn.
Qed.
End FindOk.

(** ** All subsets and supersets *)
Abbreviation after accum n := (forall x, x ∈ accum -> below x n).
Lemma set_insert_last k accum : (forall x, x ∈ accum -> cmp x k < 0) -> set_insert k accum = accum ++ [k].
Proof.
  induction accum as [|y accum IH]; intros H; [done|]. cbn [set_insert app]. pose proof (H y ltac:(left)) as Hy.
  destruct (cmp_cases k y) as [[-> _]|[(Hlt & _)|(_ & -> & ->)]]; [by apply cmp_irrefl in Hy|by apply cmp_asym in Hy|].
  f_equal. apply IH. intros x Hx. apply H. by right.
Qed.
Lemma after_child accum n k c : wf n -> after accum n -> (k, c) ∈ children n ->
  set_insert k accum = accum ++ [k] /\ after (accum ++ [k]) c.
Proof.
  intros Hn Ha Hc. destruct (wf_in n k c Hn Hc) as [_ Hb].
  assert (Hk : forall x, x ∈ accum -> cmp x k < 0).
  { intros x Hx. specialize (Ha x Hx). rewrite list.Forall_forall in Ha. by apply (Ha (k, c)). }
  split; [by apply set_insert_last|]. intros x [Hx| ->%list_elem_of_singleton]%elem_of_app; [|done].
  eapply list.Forall_impl; [exact Hb|]. intros kc H. eapply cmp_trans; [by apply Hk|done].
Qed.
Lemma here_in n accum s v : (s, v) ∈ here n accum <-> s = accum /\ lookup [] n = Some v.
Proof.
  unfold here. cbn [lookup]. destruct (value_of n) as [w|].
  - rewrite list_elem_of_singleton. split; [by intros [= -> ->]|by intros [-> [= ->]]].
  - rewrite elem_of_nil. split; [done|by intros [_ ?]].
Qed.
Lemma subsets_from_in it : forall n accum s v, wf n -> sorted it -> after accum n ->
  (s, v) ∈ subsets_from it n accum <-> exists k s', s = accum ++ k :: s' /\ k :: s' ⊆ it /\ lookup (k :: s') n = Some v.
Proof.
  induction it as [|elt it IH]; intros n accum s v Hn Hit Ha; cbn [subsets_from].
  { rewrite elem_of_nil. split; [done|]. intros (k & s' & _ & H & _). specialize (H k ltac:(left)). by apply elem_of_nil in H. }
  apply sorted_tail in Hit as [Hit Helt]. rewrite elem_of_app, (IH n accum s v) by done.
  assert (Hchild : (s, v) ∈ (match find_child elt (children n) with
                             | Some c => let nacc := set_insert elt accum in here c nacc ++ subsets_from it c nacc
                             | None => []
                             end) <-> exists s', s = accum ++ elt :: s' /\ s' ⊆ it /\ lookup (elt :: s') n = Some v).
  { cbn [lookup]. destruct (find_child elt (children n)) as [c|] eqn:Ec; [|rewrite elem_of_nil; split; [done|by intros (? & _ & _ & ?)]].
    destruct (wf_child n elt c Hn Ec) as [Hc _]. destruct (after_child accum n elt c Hn Ha (find_child_in _ _ _ Ec)) as [-> Hac].
    cbn zeta. rewrite elem_of_app, here_in, IH by done. setoid_rewrite <- app_assoc. cbn [app]. split.
    - intros [[-> Hl]|(k & s' & -> & Hs & Hl)]; [by exists []; split_and!; [|intros y ?%elem_of_nil|]|by exists (k :: s')].
    - intros ([|k s'] & -> & Hs & Hl); [by left|right; by exists k, s']. }
  rewrite Hchild. split.
  - intros [(s' & -> & Hs & Hl)|(k & s' & -> & Hs & Hl)].
    + exists elt, s'. split_and!; [done| |done]. intros y [->|Hy]%elem_of_cons; [left|right; by apply Hs].
    + exists k, s'. split_and!; [done| |done]. intros y Hy. right. by apply Hs.
  - intros (k & s' & -> & Hs & Hl). pose proof (lookup_sorted _ _ _ Hn Hl) as Hsort. destruct (decide (keq k elt = true)) as [E|E].
    + apply keq_iff in E as ->. left. exists s'. split_and!; [done|by apply (rest_subset elt)|done].
    + right. exists k, s'. split_and!; [done| |done]. apply (rest_keeps elt); [|done|done].
      pose proof (Hs k ltac:(left)) as [->|Hk]%elem_of_cons; [by rewrite keq_refl in E|by apply Helt].
Qed.
Lemma all_children_in rec accum ch x :
  x ∈ all_children rec accum ch <-> exists k c, (k, c) ∈ ch /\ x ∈ rec c (set_insert k accum) [].
Proof.
  induction ch as [|[k c] ch IH]; cbn [all_children].
  - rewrite elem_of_nil. split; [done|]. by intros (k & c & ?%elem_of_nil & _).
  - rewrite elem_of_app, IH. split.
    + intros [H|(k' & c' & H1 & H2)]; [exists k, c; split; [left|done]|exists k', c'; split; [by right|done]].
    + intros (k' & c' & [[= -> ->]|H1]%elem_of_cons & H2); [by left|right; by exists k', c'].
Qed.
Lemma children_upto_in rec accum elt next ch x : StronglySorted (fun a b : K * node => cmp a.1 b.1 < 0) ch ->
  x ∈ children_upto rec accum elt next ch <-> exists k c, (k, c) ∈ ch /\
    ((k = elt /\ x ∈ rec c (set_insert k accum) next) \/ (cmp k elt < 0 /\ x ∈ rec c (set_insert k accum) (elt :: next))).
Proof.
  induction ch as [|[k c] ch IH]; intros Hch; cbn [children_upto].
  { rewrite elem_of_nil. split; [done|]. by intros (k & c & ?%elem_of_nil & _). }
  apply StronglySorted_inv in Hch as [Hch Hk]. rewrite list.Forall_forall in Hk. specialize (IH Hch).
  assert (Hcons : forall P : K -> node -> Prop, (exists k' c', (k', c') ∈ (k, c) :: ch /\ P k' c') <->
    P k c \/ exists k' c', (k', c') ∈ ch /\ P k' c').
  { intros P. split.
    - intros (k' & c' & [[= -> ->]|H1]%elem_of_cons & H2); [by left|right; by exists k', c'].
    - intros [H|(k' & c' & H1 & H2)]; [exists k, c; split; [left|done]|exists k', c'; split; [by right|done]]. }
  rewrite Hcons. destruct (cmp_cases elt k) as [[-> ->]|[(Hlt & _ & ->)|(Hlt & _ & ->)]].
  - rewrite elem_of_app, IH. pose proof (cmp_irrefl k). tauto.
  - destruct (klt k elt) eqn:E; [apply klt_iff in E; by apply cmp_asym in E|]. rewrite elem_of_nil. split; [done|].
    intros [[[-> _]|[H _]]|(k' & c' & Hc & H)]; [by apply cmp_irrefl in Hlt|by apply cmp_asym in H|].
    specialize (Hk _ Hc). simpl in Hk. pose proof (cmp_trans _ _ _ Hlt Hk) as Hek.
    destruct H as [[-> _]|[H _]]; [by apply cmp_irrefl in Hek|by apply cmp_asym in H].
  - rewrite (proj2 (klt_iff k elt) Hlt), elem_of_app, IH. assert (k <> elt) by (intros ->; by apply cmp_irrefl in Hlt). tauto.
Qed.
Lemma findSupersets_in n : forall accum it s v, wf n -> sorted it -> after accum n ->
  (s, v) ∈ findSupersets n accum it <-> exists s', s = accum ++ s' /\ it ⊆ s' /\ lookup s' n = Some v.
Proof.
  induction n as [w ch IH] using node_induct. intros accum it s v Hn Hit Ha. rewrite list.Forall_forall in IH.
  pose proof Hn as [Hch _]%wf_node. cbn [findSupersets].
  assert (Hrec : forall k c it', (k, c) ∈ ch -> sorted it' ->
    (s, v) ∈ findSupersets c (set_insert k accum) it' <-> exists s', s = accum ++ k :: s' /\ it' ⊆ s' /\ lookup s' c = Some v).
  { intros k c it' Hc Hit'. destruct (wf_in _ k c Hn Hc) as [Hwc _]. destruct (after_child accum _ k c Hn Ha Hc) as [-> Hac].
    rewrite (IH _ Hc (accum ++ [k]) it' s v) by done. cbn [snd]. setoid_rewrite <- app_assoc. done. }
  destruct it as [|elt next].
  - rewrite elem_of_app, here_in, all_children_in. split.
    + intros [[-> Hl]|(k & c & Hc & H)]; [exists []; by rewrite app_nil_r|].
      apply Hrec in H as (s' & -> & _ & Hl); [|done|constructor]. exists (k :: s'). split_and!; [done|by intros y ?%elem_of_nil|].
      apply lookup_cons; [done|]. by exists c.
    + intros ([|k s'] & -> & _ & Hl); [left; by rewrite app_nil_r|right]. apply lookup_cons in Hl as (c & Hc & Hl); [|done].
      exists k, c. split; [done|]. apply Hrec; [done|constructor|]. exists s'. split_and!; [done|by intros y ?%elem_of_nil|done].
  - pose proof Hit as [Hnext Helt]%sorted_tail. rewrite children_upto_in by done. split.
    + intros (k & c & Hc & H). assert (exists s', s = accum ++ k :: s' /\ elt :: next ⊆ k :: s' /\ lookup s' c = Some v) as (s' & -> & Hs & Hl).
      { destruct H as [[-> H]|[_ H]]; (apply Hrec in H as (s' & -> & Hs & Hl); [|done|done]); exists s'; (split_and!; [done| |done]).
        - intros y [->|Hy]%elem_of_cons; [left|right; by apply Hs].
        - intros y Hy. right. by apply Hs. }
      exists (k :: s'). split_and!; [done|done|]. apply lookup_cons; [done|]. by exists c.
    + intros ([|k s'] & -> & Hs & Hl); [specialize (Hs elt ltac:(left)); by apply elem_of_nil in Hs|].
      pose proof (lookup_sorted _ _ _ Hn Hl) as Hsort. pose proof Hsort as [_ Hgt]%sorted_tail.
      apply lookup_cons in Hl as (c & Hc & Hl); [|done]. exists k, c. split; [done|].
      pose proof (Hs elt ltac:(left)) as [->|Hks]%elem_of_cons.
      * left. split; [done|]. apply Hrec; [done|done|]. exists s'. split_and!; [done|by apply (rest_subset k)|done].
      * right. split; [by apply Hgt|]. apply Hrec; [done|done|]. exists s'. split_and!; [done| |done].
        by apply (rest_keeps k); [apply Hgt| |].
Qed.
Lemma supersets_ok n it s v : wf n -> sorted it -> (s, v) ∈ supersets n it <-> it ⊆ s /\ lookup s n = Some v.
Proof.
  intros Hn Hit. unfold supersets. rewrite findSupersets_in by (done || by intros x ?%elem_of_nil). cbn [app]. split.
  - by intros (s' & -> & H).
  - intros H. by exists s.
Qed.
Lemma subsets_ok n it s v : wf n -> sorted it -> (s, v) ∈ subsets n it <-> s ⊆ it /\ lookup s n = Some v.
Proof.
  intros Hn Hit. unfold subsets, findSubsets. rewrite elem_of_app, here_in, subsets_from_in by (done || by intros x ?%elem_of_nil).
  cbn [app]. split.
  - intros [[-> Hl]|(k & s' & -> & Hs & Hl)]; [by split; [intros y ?%elem_of_nil|]|done].
  - intros [Hs Hl]. destruct s as [|k s]; [by left|right; by exists k, s].
Qed.

(** ** Insertions one after the other *)
Definition insert_all (kvs : list (set * V)) (n : node) : node := foldl (fun n kv => insert kv.1 kv.2 n) n kvs.
(** What was inserted last for a set. *)
Definition stored (kvs : list (set * V)) (s : set) : option V :=
  foldl (fun r kv => if bool_decide (Forall2 (fun a b => keq a b = true) s kv.1) then Some kv.2 else r) None kvs.
Lemma same_set (s s' : set) : Forall2 (fun a b => keq a b = true) s s' <-> s = s'.
Proof.
  revert s'. induction s as [|x s IH]; intros [|y s']; [by split; [|constructor]|by split; [intros H; inversion H|]..|].
  rewrite list.Forall2_cons, keq_iff, IH. split; [by intros [-> ->]|by intros [= -> ->]].
Qed.
Lemma insert_all_ok kvs : Forall (fun kv => sorted kv.1) kvs -> wf (insert_all kvs empty_node) /\
  forall s, lookup s (insert_all kvs empty_node) = stored kvs s.
Proof.
  induction kvs as [|[s0 v] kvs IH] using rev_ind; intros Hs; [split; [apply wf_empty|apply lookup_empty]|].
  apply Forall_app in Hs as [Hs [Hs0 _]%Forall_cons_iff]. destruct (IH Hs) as [Hwf Hl]. unfold insert_all, stored. rewrite !foldl_app.
  cbn [foldl fst snd]. fold (insert_all kvs empty_node). split; [by apply insert_wf|]. intros s. rewrite foldl_app. cbn [foldl fst snd].
  destruct (lookup_insert_ok s0 v (insert_all kvs empty_node) s Hwf) as [H1 H2]. case_bool_decide as E.
  - apply same_set in E. by apply H1.
  - rewrite H2; [apply Hl|]. intros ->. by apply E, same_set.
Qed.

(** C33. The map after any insertions: a lookup gives the value that was inserted last for the
    set; the searches give what an accepted value of a subset, or a superset, ends them
    with, and nothing only when no such value is accepted; and the iterations see exactly
    the sets with their values. *)
Theorem map_of_sets_refines {A} (kvs : list (set * V)) (p : V -> option A) (it : set) :
  Forall (fun kv => sorted kv.1) kvs -> sorted it ->
  let n := insert_all kvs empty_node in
  (forall s, lookup s n = stored kvs s) /\
  match findSubset p n it with
  | Some a => exists s v, s ⊆ it /\ stored kvs s = Some v /\ p v = Some a
  | None => forall s v, s ⊆ it -> stored kvs s = Some v -> p v = None
  end /\
  match findSuperset p n it with
  | Some a => exists s v, it ⊆ s /\ stored kvs s = Some v /\ p v = Some a
  | None => forall s v, it ⊆ s -> stored kvs s = Some v -> p v = None
  end /\
  (forall s v, (s, v) ∈ subsets n it <-> s ⊆ it /\ stored kvs s = Some v) /\
  (forall s v, (s, v) ∈ supersets n it <-> it ⊆ s /\ stored kvs s = Some v).
Proof.
  intros Hs Hit n. destruct (insert_all_ok kvs Hs) as [Hwf Hl]. fold n in Hwf, Hl.
  pose proof (findSubset_ok p n it Hwf Hit) as H1. pose proof (findSuperset_ok p n it Hwf Hit) as H2.
  split_and!; [done| | | |].
  - destruct (findSubset p n it) as [a|]; [destruct H1 as (s & Hsub & v & Hv & Hp); exists s, v; by rewrite <- Hl|].
    intros s v Hsub Hv. apply (H1 s); [done|by rewrite Hl].
  - destruct (findSuperset p n it) as [a|]; [destruct H2 as (s & Hsub & v & Hv & Hp); exists s, v; by rewrite <- Hl|].
    intros s v Hsub Hv. apply (H2 s); [done|by rewrite Hl].
  - intros s v. by rewrite subsets_ok, Hl.
  - intros s v. by rewrite supersets_ok, Hl.
Qed.
End Tree.

Definition inserted : list (list Z * Z) := [([1; 3], 10); ([], 20); ([1; 2; 3], 30); ([3], 40); ([1; 3], 50)].
Definition above (k v : Z) : option Z := if k <? v then Some v else None.
Lemma map_of_sets_refines_witness :
  findSubset (above 40) (insert_all inserted empty_node) [1; 3] = Some 50 /\
  (exists s v, s ⊆ [1; 3] /\ stored inserted s = Some v /\ above 40 v = Some 50).
Proof.
  assert (Hs : Forall (fun kv : list Z * Z => StronglySorted (fun a b => cmp a b < 0) kv.1) inserted) by (repeat constructor).
  assert (Hi : StronglySorted (fun a b : Z => cmp a b < 0) [1; 3]) by (repeat constructor).
  split; [vm_compute; reflexivity|]. exact (proj1 (proj2 (map_of_sets_refines inserted (above 40) [1; 3] Hs Hi))).
Defined.
End MapOfSets.
