(* ===== verification/CMem.v ===== *)
(** * Byte-addressed memory

    The memory the C library functions work on: a finite map from addresses to
    bytes. An access to an address outside the map is a memory error, which is
    what the symbolic executor reports. A [char *] is an address. *)
From stdpp Require Import base gmap list numbers.
From Stdlib Require Import ZArith Lia.
From S2P Require Import Prelude.

Abbreviation mem := (gmap Z Z).

Definition load (p : Z) : M mem Z := fun m =>
  match m !! p with Some b => Ret (b, m) | None => Stop MemError end.

(** Assignment through a [char *]: the stored byte is the value modulo 256. *)
Definition store (p b : Z) : M mem unit := fun m =>
  match m !! p with Some _ => Ret (tt, <[p := u8 b]> m) | None => Stop MemError end.

(** [write m p l]: the memory after the bytes [l] are stored from address [p]. *)
Fixpoint write (m : mem) (p : Z) (l : list Z) : mem :=
  match l with
  | [] => m
  | b :: l => write (<[p := b]> m) (p + 1) l
  end.

(** The bytes from [p] are exactly [l]; the [n] bytes from [p] are accessible;
    a NUL-terminated string of bytes [l] starts at [p]. *)
Definition bytes_at (m : mem) (p : Z) (l : list Z) : Prop :=
  forall i b, l !! i = Some b -> m !! (p + Z.of_nat i) = Some b.
Definition accessible (m : mem) (p n : Z) : Prop :=
  forall i, 0 <= i < n -> is_Some (m !! (p + i)).
Definition is_byte (b : Z) : Prop := 0 <= b < 256.
Definition cstring (m : mem) (p : Z) (l : list Z) : Prop :=
  bytes_at m p (l ++ [0]) /\ Forall (fun b => b <> 0) l.

(** Several bytes at once: the body of a [memcpy] between the program's memory
    and an object the run time keeps elsewhere. *)
Fixpoint load_bytes (n : nat) (p : Z) : M mem (list Z) :=
  match n with
  | O => mret []
  | S n => b ← load p; l ← load_bytes n (p + 1); mret (b :: l)
  end.

Fixpoint store_bytes (p : Z) (l : list Z) : M mem unit :=
  match l with
  | [] => mret tt
  | b :: l => store p b;; store_bytes (p + 1) l
  end.

(** Little-endian representation of an integer on [n] bytes. *)
Fixpoint le_bytes (n : nat) (z : Z) : list Z :=
  match n with
  | O => []
  | S n => u8 z :: le_bytes n (Z.shiftr z 8)
  end.

Fixpoint le_value (l : list Z) : Z :=
  match l with
  | [] => 0
  | b :: l => b + 256 * le_value l
  end.

(** Unsigned load and store of an [n]-byte integer object. *)
Definition load_int (n : nat) (p : Z) : M mem Z := l ← load_bytes n p; mret (le_value l).
Definition store_int (n : nat) (p v : Z) : M mem unit := store_bytes p (le_bytes n v).

(** A memory with the bytes [l] from address [p], for concrete runs. *)
Definition mem_of (p : Z) (l : list Z) : mem := write ∅ p l.

(** Every byte of the memory is in range. *)
Definition wf_mem (m : mem) : Prop := forall a b, m !! a = Some b -> is_byte b.

Lemma load_run m p b : m !! p = Some b -> load p m = Ret (b, m).
Proof. intros H. unfold load. by rewrite H. Qed.

Lemma store_run m p b : is_Some (m !! p) -> store p b m = Ret (tt, <[p := u8 b]> m).
Proof. intros [x H]. unfold store. by rewrite H. Qed.

Lemma mbind_load {A} (f : Z -> M mem A) m p b :
  m !! p = Some b -> (load p ≫= f) m = f b m.
Proof. intros H. by apply mbind_run, load_run. Qed.

Lemma mbind_store {A} (f : unit -> M mem A) m p b :
  is_Some (m !! p) -> is_byte b -> (store p b ≫= f) m = f tt (<[p := b]> m).
Proof.
  intros H Hb. rewrite <- (u8_small b) at 2 by done. by apply mbind_run, store_run.
Qed.

Lemma wf_mem_insert m p b : wf_mem m -> is_byte b -> wf_mem (<[p := b]> m).
Proof.
  intros Hwf Hb a c Ha. rewrite lookup_insert in Ha.
  case_decide; [by simplify_eq|by apply (Hwf a)].
Qed.

Lemma lookup_write m p l a :
  write m p l !! a =
  if decide (p <= a < p + Z.of_nat (length l)) then l !! Z.to_nat (a - p) else m !! a.
Proof.
  revert m p. induction l as [|b l IH]; intros m p; simpl.
  - rewrite decide_False by lia. done.
  - rewrite IH. destruct (decide (a = p)) as [->|Hne].
    + rewrite decide_False by lia. rewrite decide_True by lia.
      rewrite lookup_insert_eq. by rewrite Z.sub_diag.
    + rewrite lookup_insert_ne by done.
      destruct (decide (p + 1 <= a < p + 1 + Z.of_nat (length l))).
      * rewrite decide_True by lia.
        by replace (Z.to_nat (a - p)) with (S (Z.to_nat (a - (p + 1)))) by lia.
      * rewrite decide_False by lia. done.
Qed.

Lemma lookup_write_out m p l a :
  a < p \/ p + Z.of_nat (length l) <= a -> write m p l !! a = m !! a.
Proof. intros H. rewrite lookup_write. rewrite decide_False by lia. done. Qed.

Lemma write_bytes_at m p l : bytes_at (write m p l) p l.
Proof.
  intros i b Hi. pose proof (lookup_lt_Some _ _ _ Hi). rewrite lookup_write.
  rewrite decide_True by lia. by replace (Z.to_nat (p + Z.of_nat i - p)) with i by lia.
Qed.

Lemma bytes_at_cons m p b l :
  bytes_at m p (b :: l) <-> m !! p = Some b /\ bytes_at m (p + 1) l.
Proof.
  split.
  - intros H. split; [rewrite <- (Z.add_0_r p); by apply (H O)|].
    intros i c Hi. replace (p + 1 + Z.of_nat i) with (p + Z.of_nat (S i)) by lia. by apply H.
  - intros [H1 H2] [|i] c Hi; simpl in Hi.
    + simplify_eq. by rewrite Z.add_0_r.
    + replace (p + Z.of_nat (S i)) with (p + 1 + Z.of_nat i) by lia. by apply H2.
Qed.

Lemma bytes_at_nil m p : bytes_at m p [].
Proof. intros i b [=]. Qed.

Lemma bytes_at_app m p l1 l2 :
  bytes_at m p (l1 ++ l2) <-> bytes_at m p l1 /\ bytes_at m (p + Z.of_nat (length l1)) l2.
Proof.
  revert p; induction l1 as [|b l1 IH]; intros p; simpl.
  - rewrite Z.add_0_r. split; [by split; [apply bytes_at_nil|]|by intros [_ ?]].
  - rewrite !bytes_at_cons, IH.
    replace (p + 1 + Z.of_nat (length l1)) with (p + Z.of_nat (S (length l1))) by lia. tauto.
Qed.

Lemma bytes_at_ext m m' p l :
  bytes_at m p l ->
  (forall a, p <= a < p + Z.of_nat (length l) -> m' !! a = m !! a) -> bytes_at m' p l.
Proof.
  intros H E i b Hi. pose proof (lookup_lt_Some _ _ _ Hi). rewrite E by lia. by apply H.
Qed.

Lemma bytes_at_accessible m p l : bytes_at m p l -> accessible m p (Z.of_nat (length l)).
Proof.
  intros H i Hi. destruct (lookup_lt_is_Some_2 l (Z.to_nat i)) as [b Hb]; [lia|].
  exists b. replace i with (Z.of_nat (Z.to_nat i)) by lia. by apply H.
Qed.

Lemma accessible_insert m p n a b : accessible m p n -> accessible (<[a := b]> m) p n.
Proof.
  intros H i Hi. destruct (decide (a = p + i)) as [->|]; [rewrite lookup_insert_eq; by eexists|].
  rewrite lookup_insert_ne by done. by apply H.
Qed.

Lemma accessible_at m p n a : accessible m p n -> p <= a < p + n -> is_Some (m !! a).
Proof. intros H Ha. replace a with (p + (a - p)) by lia. apply H. lia. Qed.

Lemma accessible_sub m p n q k :
  accessible m p n -> p <= q -> q + k <= p + n -> accessible m q k.
Proof.
  intros H Hq Hk i Hi. replace (q + i) with (p + (q - p + i)) by lia. apply H. lia.
Qed.

(** The bytes [l] stored byte by byte from low to high is [write]. *)
Lemma write_app m p l1 l2 :
  write m p (l1 ++ l2) = write (write m p l1) (p + Z.of_nat (length l1)) l2.
Proof.
  revert m p; induction l1 as [|b l1 IH]; intros m p; simpl; [by rewrite Z.add_0_r|].
  rewrite IH. f_equal. lia.
Qed.

Lemma bytes_at_write_out m p l q l' :
  bytes_at m p l ->
  (p + Z.of_nat (length l) <= q \/ q + Z.of_nat (length l') <= p) ->
  bytes_at (write m q l') p l.
Proof. intros H Hd. eapply bytes_at_ext; [done|]. intros a Ha. apply lookup_write_out. lia. Qed.

Lemma accessible_write m p n q l : accessible m p n -> accessible (write m q l) p n.
Proof.
  intros H i Hi. rewrite lookup_write. case_decide; [|by apply H].
  apply lookup_lt_is_Some_2. lia.
Qed.

Lemma bytes_at_of p l1 l2 l3 :
  bytes_at (mem_of p (l1 ++ l2 ++ l3)) (p + Z.of_nat (length l1)) l2.
Proof.
  pose proof (write_bytes_at ∅ p (l1 ++ l2 ++ l3)) as H.
  apply bytes_at_app in H as [_ H]. by apply bytes_at_app in H as [H _].
Qed.

Lemma wf_mem_write m p l : wf_mem m -> Forall is_byte l -> wf_mem (write m p l).
Proof.
  intros Hm Hl. revert m p Hm. induction Hl as [|b l Hb Hl IH]; intros m p Hm; simpl; [done|].
  by apply IH, wf_mem_insert.
Qed.

Lemma wf_mem_of p l : Forall is_byte l -> wf_mem (mem_of p l).
Proof. intros H. apply wf_mem_write; [|done]. intros a b Ha. by rewrite lookup_empty in Ha. Qed.

Lemma accessible_of p l q n :
  p <= q -> q + n <= p + Z.of_nat (length l) -> accessible (mem_of p l) q n.
Proof.
  intros Hq Hn. eapply accessible_sub; [apply bytes_at_accessible, write_bytes_at|done|done].
Qed.

Lemma load_bytes_run m p l : bytes_at m p l -> load_bytes (length l) p m = Ret (l, m).
Proof.
  revert p; induction l as [|b l IH]; intros p H; simpl; [done|].
  apply bytes_at_cons in H as [Hb Hl]. rewrite (mbind_load _ _ _ b) by done.
  by rewrite (mbind_run _ _ _ l m) by (by apply IH).
Qed.

Lemma load_bytes_inv n p m l m' :
  load_bytes n p m = Ret (l, m') -> m' = m /\ length l = n /\ bytes_at m p l.
Proof.
  revert p l m'. induction n as [|n IH]; intros p l m' H; simpl in H.
  - injection H as <- <-. repeat split. apply bytes_at_nil.
  - mrun H. unfold load in E. destruct (m !! p) eqn:Hp; [|done]. injection E as <- <-.
    apply IH in E0 as (-> & <- & Hl). injection H as <- <-.
    repeat split. by apply bytes_at_cons.
Qed.

Lemma store_bytes_run m p l :
  accessible m p (Z.of_nat (length l)) -> Forall is_byte l ->
  store_bytes p l m = Ret (tt, write m p l).
Proof.
  intros Ha Hl. revert m p Ha. induction Hl as [|b l Hb Hl IH]; intros m p Ha; simpl; [done|].
  simpl in Ha. rewrite mbind_store; [|apply (accessible_at _ _ _ p Ha); lia|done].
  apply IH. apply accessible_insert. eapply accessible_sub; [done|lia|lia].
Qed.

Lemma length_le_bytes n z : length (le_bytes n z) = n.
Proof. revert z; induction n as [|n IH]; intros z; simpl; [done|]. by rewrite IH. Qed.

Lemma le_bytes_byte n z : Forall is_byte (le_bytes n z).
Proof.
  revert z; induction n as [|n IH]; intros z; simpl; constructor; [|done]. apply u8_range.
Qed.

Lemma le_value_bytes n z : le_value (le_bytes n z) = z `mod` 2 ^ (8 * Z.of_nat n).
Proof.
  revert z; induction n as [|n IH]; intros z; simpl; [by rewrite Z.mod_1_r|].
  rewrite IH, Z.shiftr_div_pow2 by lia. unfold u8.
  replace (8 * Z.of_nat (S n)) with (8 + 8 * Z.of_nat n) by lia.
  rewrite Z.pow_add_r by lia. change 256 with (2 ^ 8).
  pose proof (Z.pow_pos_nonneg 2 (8 * Z.of_nat n)).
  rewrite Z.rem_mul_r by lia. done.
Qed.

Lemma le_value_range l :
  Forall is_byte l -> 0 <= le_value l < 2 ^ (8 * Z.of_nat (length l)).
Proof.
  induction 1 as [|b l Hb Hl IH]; simpl; [lia|].
  replace (8 * Z.of_nat (S (length l))) with (8 + 8 * Z.of_nat (length l)) by lia.
  rewrite Z.pow_add_r by lia. change (2 ^ 8) with 256. unfold is_byte in Hb. nia.
Qed.

Lemma le_bytes_value l : Forall is_byte l -> le_bytes (length l) (le_value l) = l.
Proof.
  induction 1 as [|b l Hb Hl IH]; simpl; [done|]. f_equal.
  - unfold u8, is_byte in *. rewrite (Z.mul_comm 256). change 256 with (2 ^ 8).
    rewrite Z.mod_add by lia. by apply Z.mod_small.
  - rewrite Z.shiftr_div_pow2 by lia. change (2 ^ 8) with 256. rewrite (Z.mul_comm 256).
    rewrite Z.div_add by lia. rewrite Z.div_small by done. by rewrite Z.add_0_l.
Qed.

Create HintDb cmem discriminated.
#[export] Hint Resolve wf_mem_insert bytes_at_nil write_bytes_at bytes_at_accessible accessible_insert accessible_write
  wf_mem_write : cmem.
