(* ===== verification/LibcMem.v ===== *)
(** * klee-libc: block memory functions

    The functions of runtime/klee-libc that work on [n] bytes: memcpy, mempcpy,
    memmove, memset, memcmp, memchr (runtime/Intrinsic has the same bodies of
    the first four). Each loop of the source is a recursion on the counter it
    decrements; pointers are addresses and every access can fail. *)
From stdpp Require Import base gmap list numbers.
From Stdlib Require Import ZArith Lia.
From S2P Require Import Prelude CMem.

Module LibcMem.

(** [while (n-- > 0) *dest++ = *src++;] ending with the value of [dest]. *)
Fixpoint copy_up (n : nat) (dest src : Z) : M mem Z :=
  match n with
  | O => mret dest
  | S n => b ← load src; store dest b;; copy_up n (dest + 1) (src + 1)
  end.

(** [while (n--) *a-- = *b--;] *)
Fixpoint copy_down (n : nat) (a b : Z) : M mem unit :=
  match n with
  | O => mret tt
  | S n => x ← load b; store a x;; copy_down n (a - 1) (b - 1)
  end.

Definition memcpy (destaddr srcaddr len : Z) : M mem Z :=
  copy_up (Z.to_nat len) destaddr srcaddr;; mret destaddr.

Definition mempcpy (destaddr srcaddr len : Z) : M mem Z :=
  copy_up (Z.to_nat len) destaddr srcaddr.

Definition memmove (dst src count : Z) : M mem Z :=
  if src =? dst then mret dst
  else if dst <? src then copy_up (Z.to_nat count) dst src;; mret dst
  else copy_down (Z.to_nat count) (dst + (count - 1)) (src + (count - 1));; mret dst.

Fixpoint fill (n : nat) (a s : Z) : M mem unit :=
  match n with
  | O => mret tt
  | S n => store a s;; fill n (a + 1) s
  end.

Definition memset (dst s count : Z) : M mem Z := fill (Z.to_nat count) dst s;; mret dst.

(** [do { if ( *p1++ != *p2++) return *--p1 - *--p2; } while (--n != 0);] *)
Fixpoint cmp_loop (n : nat) (p1 p2 : Z) : M mem Z :=
  match n with
  | O => mret 0
  | S n =>
      b1 ← load p1; b2 ← load p2;
      if negb (b1 =? b2) then mret (b1 - b2) else cmp_loop n (p1 + 1) (p2 + 1)
  end.

Definition memcmp (s1 s2 n : Z) : M mem Z := cmp_loop (Z.to_nat n) s1 s2.

(** [do { if ( *p++ == c) return p - 1; } while (--n != 0); return NULL;] *)
Fixpoint chr_loop (n : nat) (p c : Z) : M mem Z :=
  match n with
  | O => mret 0
  | S n => b ← load p; if b =? c then mret p else chr_loop n (p + 1) c
  end.

Definition memchr (s c n : Z) : M mem Z := chr_loop (Z.to_nat n) s c.

(** ** Reference definitions *)

(** Difference of the first pair of bytes that differ, 0 when there is none. *)
Fixpoint first_diff (l1 l2 : list Z) : Z :=
  match l1, l2 with
  | a :: l1, b :: l2 => if a =? b then first_diff l1 l2 else a - b
  | _, _ => 0
  end.

Fixpoint index_of (c : Z) (l : list Z) : option nat :=
  match l with
  | [] => None
  | b :: l => if b =? c then Some O else S <$> index_of c l
  end.

(** ** Loop lemmas *)

Lemma copy_up_spec n m dst src l :
  wf_mem m -> length l = n -> bytes_at m src l -> accessible m dst (Z.of_nat n) ->
  (dst <= src \/ src + Z.of_nat n <= dst) ->
  copy_up n dst src m = Ret (dst + Z.of_nat n, write m dst l).
Proof.
  revert m dst src l. induction n as [|n IH]; intros m dst src [|b l] Hwf Hlen Hsrc Hdst Hov;
    try discriminate Hlen; cbn [copy_up].
  - by rewrite Z.add_0_r.
  - apply bytes_at_cons in Hsrc as [Hb Hsrc]. injection Hlen as Hlen.
    assert (is_byte b) by by apply (Hwf src).
    rewrite (mbind_load _ _ _ _ Hb), mbind_store by
      (done || (eapply accessible_at; [done|lia])).
    rewrite (IH _ _ _ l); [cbn [write]; do 2 f_equal; lia|auto with cmem|done| | |lia].
    + eapply bytes_at_ext; [done|]. intros a Ha. apply lookup_insert_ne. lia.
    + apply accessible_insert, (accessible_sub m dst (Z.of_nat (S n))); [done|lia..].
Qed.

Lemma copy_down_spec n m dst src l :
  wf_mem m -> length l = n -> bytes_at m src l -> accessible m dst (Z.of_nat n) ->
  src <= dst ->
  copy_down n (dst + (Z.of_nat n - 1)) (src + (Z.of_nat n - 1)) m = Ret (tt, write m dst l).
Proof.
  revert m l. induction n as [|n IH]; intros m l Hwf Hlen Hsrc Hdst Hov.
  { destruct l; [done|discriminate]. }
  destruct l as [|b l _] using rev_ind; [discriminate|].
  rewrite length_app in Hlen. simpl in Hlen.
  apply bytes_at_app in Hsrc as [Hsrc Hb]. apply bytes_at_cons in Hb as [Hb _].
  assert (is_byte b) by by eapply Hwf.
  cbn [copy_down].
  replace (src + (Z.of_nat (S n) - 1)) with (src + Z.of_nat (length l)) by lia.
  rewrite (mbind_load _ _ _ _ Hb), mbind_store by
    (done || (eapply accessible_at; [done|lia])).
  replace (dst + (Z.of_nat (S n) - 1) - 1) with (dst + (Z.of_nat n - 1)) by lia.
  replace (src + Z.of_nat (length l) - 1) with (src + (Z.of_nat n - 1)) by lia.
  rewrite (IH _ l); [|auto with cmem|lia| | |done].
  - rewrite write_app. cbn [write]. do 2 f_equal. apply map_eq. intros a.
    rewrite lookup_write, !lookup_insert, lookup_write. repeat case_decide; try lia; done.
  - eapply bytes_at_ext; [done|]. intros a Ha. apply lookup_insert_ne. lia.
  - apply accessible_insert, (accessible_sub m dst (Z.of_nat (S n))); [done|lia..].
Qed.

Lemma fill_spec n m a s :
  accessible m a (Z.of_nat n) -> fill n a s m = Ret (tt, write m a (replicate n (u8 s))).
Proof.
  revert m a. induction n as [|n IH]; intros m a Ha; cbn [fill replicate write]; [done|].
  erewrite mbind_run by (apply store_run; eapply accessible_at; [done|lia]).
  apply IH, accessible_insert, (accessible_sub m a (Z.of_nat (S n))); [done|lia..].
Qed.

Lemma cmp_loop_spec n m p1 p2 l1 l2 :
  length l1 = n -> length l2 = n -> bytes_at m p1 l1 -> bytes_at m p2 l2 ->
  cmp_loop n p1 p2 m = Ret (first_diff l1 l2, m).
Proof.
  revert p1 p2 l1 l2. induction n as [|n IH]; intros p1 p2 [|a l1] [|b l2] H1 H2 B1 B2;
    try discriminate; cbn [cmp_loop]; [done|].
  apply bytes_at_cons in B1 as [Ha B1]. apply bytes_at_cons in B2 as [Hb B2].
  rewrite (mbind_load _ _ _ _ Ha), (mbind_load _ _ _ _ Hb). cbn [first_diff].
  destruct (a =? b); simpl; [apply IH; auto|done].
Qed.

Lemma first_diff_zero l1 l2 : length l1 = length l2 -> first_diff l1 l2 = 0 <-> l1 = l2.
Proof.
  revert l2; induction l1 as [|a l1 IH]; intros [|b l2] H; try discriminate; simpl; [done|].
  injection H as H. destruct (Z.eqb_spec a b) as [->|Hne].
  - rewrite IH by done. split; [by intros ->|by intros [= ->]].
  - split; [lia|by intros [= -> _]].
Qed.

(** The sign of [first_diff] is the lexicographic order of the byte strings. *)
Lemma first_diff_lex l1 l2 :
  length l1 = length l2 ->
  first_diff l1 l2 < 0 <->
  exists k a b, take k l1 = take k l2 /\ l1 !! k = Some a /\ l2 !! k = Some b /\ a < b.
Proof.
  revert l2; induction l1 as [|x l1 IH]; intros [|y l2] H; try discriminate; simpl.
  { split; [lia|]. intros (k & a & b & _ & Hk & _). by rewrite lookup_nil in Hk. }
  injection H as H. destruct (Z.eqb_spec x y) as [->|Hne].
  - rewrite IH by done. split.
    + intros (k & a & b & E & ? & ? & ?). exists (S k), a, b. simpl. by rewrite E.
    + intros ([|k] & a & b & E & ? & ? & ?); simpl in *; [simplify_eq; lia|].
      injection E as E. eauto 8.
  - split.
    + intros. exists O, x, y. by repeat split; try lia.
    + intros ([|k] & a & b & E & ? & ? & ?); simpl in *; simplify_eq; lia.
Qed.

Lemma chr_loop_spec n m p c l :
  length l = n -> bytes_at m p l ->
  chr_loop n p c m =
  Ret (match index_of c l with Some i => p + Z.of_nat i | None => 0 end, m).
Proof.
  revert p l. induction n as [|n IH]; intros p [|b l] H B; try discriminate; cbn [chr_loop]; [done|].
  apply bytes_at_cons in B as [Hb B]. rewrite (mbind_load _ _ _ _ Hb). cbn [index_of].
  destruct (b =? c); simpl; [by rewrite Z.add_0_r|].
  rewrite (IH _ l) by auto. destruct (index_of c l); simpl; [do 2 f_equal; lia|done].
Qed.

Lemma index_of_Some c l i :
  index_of c l = Some i <-> l !! i = Some c /\ forall j, (j < i)%nat -> l !! j <> Some c.
Proof.
  revert i; induction l as [|b l IH]; intros i; simpl.
  { by split; [|intros [H _]; rewrite lookup_nil in H]. }
  destruct (Z.eqb_spec b c) as [->|Hne].
  - split; [intros [= <-]; split; [done|lia]|]. intros [H1 H2].
    destruct i; [done|]. by destruct (H2 O ltac:(lia)).
  - split.
    + destruct (index_of c l) as [k|] eqn:E; [|done]. intros [= <-]. simpl.
      destruct (proj1 (IH k) eq_refl) as [H1 H2]. split; [done|].
      intros [|j] Hj; simpl; [congruence|]. apply H2. lia.
    + intros [H1 H2]. destruct i as [|i]; simpl in H1; [congruence|].
      destruct (IH i) as [_ ->]; [done|]. split; [done|]. intros j Hj. apply (H2 (S j)). lia.
Qed.

Lemma index_of_None c l : index_of c l = None <-> Forall (fun b => b <> c) l.
Proof.
  induction l as [|b l IH]; simpl; [done|]. rewrite Forall_cons_iff.
  destruct (Z.eqb_spec b c) as [->|Hne]; [split; [done|tauto]|].
  rewrite <- IH. destruct (index_of c l); simpl; [split; [done|by intros [_ [=]]]|tauto].
Qed.

(** ** Properties *)

(** memmove copies a block correctly whatever the overlap of source and
    destination: the destination ends up holding the bytes the source held
    before the call, nothing else changes, and the destination pointer is
    returned. *)
Theorem memmove_correct m dst src l :
  wf_mem m -> bytes_at m src l -> accessible m dst (Z.of_nat (length l)) ->
  memmove dst src (Z.of_nat (length l)) m = Ret (dst, write m dst l).
Proof.
  intros Hwf Hsrc Hdst. unfold memmove. rewrite Nat2Z.id.
  destruct (Z.eqb_spec src dst) as [->|Hne].
  - enough (write m dst l = m) as -> by done.
    apply map_eq. intros a. rewrite lookup_write. case_decide; [|done].
    destruct (lookup_lt_is_Some_2 l (Z.to_nat (a - dst))) as [b Hb]; [lia|].
    rewrite Hb. apply Hsrc in Hb. by replace (dst + _) with a in Hb by lia.
  - destruct (Z.ltb_spec dst src).
    + by erewrite mbind_run by (apply (copy_up_spec _ m dst src l); auto; lia).
    + by erewrite mbind_run by (apply (copy_down_spec _ m dst src l); auto; lia).
Qed.

(** Moving four bytes one address up inside a five byte object. *)
Lemma memmove_correct_witness :
  memmove 101 100 4 (mem_of 100 [1; 2; 3; 4; 5])
  = Ret (101, mem_of 100 [1; 1; 2; 3; 4]).
Proof.
  refine (eq_trans (memmove_correct (mem_of 100 [1; 2; 3; 4; 5]) 101 100 [1; 2; 3; 4] _ _ _) _).
  - apply wf_mem_of. repeat constructor; unfold is_byte; lia.
  - apply (bytes_at_app _ _ [1; 2; 3; 4] [5]). apply write_bytes_at.
  - apply accessible_of; simpl; lia.
  - vm_compute. reflexivity.
Defined.

(** memcpy and mempcpy copy a block whose source is not overwritten before
    it is read (disjoint blocks, or a destination below the source); memcpy
    returns the destination and mempcpy the address after the last byte
    written. *)
Theorem memcpy_correct m dst src l :
  wf_mem m -> bytes_at m src l -> accessible m dst (Z.of_nat (length l)) ->
  (dst <= src \/ src + Z.of_nat (length l) <= dst) ->
  memcpy dst src (Z.of_nat (length l)) m = Ret (dst, write m dst l) /\
  mempcpy dst src (Z.of_nat (length l)) m =
    Ret (dst + Z.of_nat (length l), write m dst l).
Proof.
  intros Hwf Hsrc Hdst Hov. unfold memcpy, mempcpy. rewrite Nat2Z.id.
  pose proof (copy_up_spec _ m dst src l Hwf eq_refl Hsrc Hdst Hov) as E.
  split; [by rewrite (mbind_run _ _ _ _ _ E)|done].
Qed.

Lemma memcpy_correct_witness :
  memcpy 103 100 2 (mem_of 100 [1; 2; 3; 4; 5]) = Ret (103, mem_of 100 [1; 2; 3; 1; 2]) /\
  mempcpy 103 100 2 (mem_of 100 [1; 2; 3; 4; 5]) = Ret (105, mem_of 100 [1; 2; 3; 1; 2]).
Proof.
  destruct (memcpy_correct (mem_of 100 [1; 2; 3; 4; 5]) 103 100 [1; 2]) as [E1 E2].
  - apply wf_mem_of. repeat constructor; unfold is_byte; lia.
  - apply (bytes_at_app _ _ [1; 2] [3; 4; 5]). apply write_bytes_at.
  - apply accessible_of; simpl; lia.
  - simpl. lia.
  - split; [refine (eq_trans E1 _)|refine (eq_trans E2 _)]; vm_compute; reflexivity.
Defined.

(** memset fills exactly the block, with the low byte of its argument. *)
Lemma memset_correct m dst s n :
  accessible m dst (Z.of_nat n) ->
  memset dst s (Z.of_nat n) m = Ret (dst, write m dst (replicate n (u8 s))).
Proof.
  intros H. unfold memset. rewrite Nat2Z.id. by rewrite (mbind_run _ _ _ _ _ (fill_spec n m dst s H)).
Qed.

(** memcmp reads both blocks without changing memory; its result is 0
    exactly when the blocks are equal and negative exactly when the first block
    is lexicographically smaller as a string of unsigned bytes. *)
Theorem memcmp_correct m s1 s2 l1 l2 :
  length l1 = length l2 -> bytes_at m s1 l1 -> bytes_at m s2 l2 ->
  exists r, memcmp s1 s2 (Z.of_nat (length l1)) m = Ret (r, m) /\
    (r = 0 <-> l1 = l2) /\
    (r < 0 <-> exists k a b, take k l1 = take k l2 /\ l1 !! k = Some a /\ l2 !! k = Some b /\ a < b).
Proof.
  intros Hlen H1 H2. exists (first_diff l1 l2). unfold memcmp. rewrite Nat2Z.id. split.
  - by apply cmp_loop_spec.
  - split; [by apply first_diff_zero|by apply first_diff_lex].
Qed.

Lemma memcmp_correct_witness :
  exists r, memcmp 100 103 3 (mem_of 100 [1; 2; 200; 1; 2; 7]) = Ret (r, mem_of 100 [1; 2; 200; 1; 2; 7])
    /\ ~ r < 0.
Proof.
  destruct (memcmp_correct (mem_of 100 [1; 2; 200; 1; 2; 7]) 100 103 [1; 2; 200] [1; 2; 7])
    as (r & E & _ & Hlt).
  - reflexivity.
  - apply (bytes_at_app _ _ [1; 2; 200] [1; 2; 7]). apply write_bytes_at.
  - apply (bytes_at_app _ 100 [1; 2; 200] [1; 2; 7]). apply write_bytes_at.
  - exists r. split; [exact E|]. vm_compute in E. injection E as <-. lia.
Defined.

(** memchr returns the address of the first of the [n] bytes equal to the
    int [c], and NULL when there is none; in particular it never finds a [c]
    outside 0..255, because the source compares the unsigned byte with the int
    itself instead of its conversion to unsigned char. *)
Theorem memchr_correct m s c l :
  bytes_at m s l ->
  exists r, memchr s c (Z.of_nat (length l)) m = Ret (r, m) /\
    ((exists i, l !! i = Some c /\ (forall j, (j < i)%nat -> l !! j <> Some c) /\ r = s + Z.of_nat i)
     \/ Forall (fun b => b <> c) l /\ r = 0).
Proof.
  intros H. unfold memchr. rewrite Nat2Z.id, (chr_loop_spec _ _ _ _ l) by done. eexists; split; [done|].
  destruct (index_of c l) as [i|] eqn:E.
  - left. apply index_of_Some in E as [E1 E2]. eauto.
  - right. apply index_of_None in E. eauto.
Qed.

Lemma memchr_correct_witness :
  exists r, memchr 100 2 3 (mem_of 100 [1; 2; 2]) = Ret (r, mem_of 100 [1; 2; 2]) /\ r = 101.
Proof.
  destruct (memchr_correct (mem_of 100 [1; 2; 2]) 100 2 [1; 2; 2]) as (r & E & _).
  - apply write_bytes_at.
  - exists r. split; [exact E|]. vm_compute in E. by injection E as <-.
Defined.
End LibcMem.
