(* ===== verification/LibcStr.v ===== *)
(** * klee-libc: string functions

    strlen, strcpy, stpcpy, strcat, strncpy, strcmp, strcoll, strncmp, strchr
    and strrchr of runtime/klee-libc. A loop that runs until a NUL byte takes
    fuel; the theorems show that any fuel above the length of the string is
    enough, so the loops terminate on every NUL-terminated string. [char] is
    signed, as on the x86-64 targets the runtime is built for. *)
From stdpp Require Import base gmap list numbers.
From Stdlib Require Import ZArith Lia.
From S2P Require Import Prelude CMem LibcMem.
Import LibcMem.

Module LibcStr.

(** [for (; *s; ++s);] *)
Fixpoint skip_to_nul (fuel : nat) (s : Z) : M mem Z :=
  match fuel with
  | O => halt OutOfFuel
  | S fuel => c ← load s; if c =? 0 then mret s else skip_to_nul fuel (s + 1)
  end.

Definition strlen (fuel : nat) (str : Z) : M mem Z :=
  s ← skip_to_nul fuel str; mret (s - str).

(** [while (( *to = *from)) ++to, ++from;] ending with the value of [to]. *)
Fixpoint copy_str (fuel : nat) (to from : Z) : M mem Z :=
  match fuel with
  | O => halt OutOfFuel
  | S fuel =>
      c ← load from; store to c;;
      if c =? 0 then mret to else copy_str fuel (to + 1) (from + 1)
  end.

Definition strcpy (fuel : nat) (to from : Z) : M mem Z :=
  copy_str fuel to from;; mret to.

Definition stpcpy (fuel : nat) (to from : Z) : M mem Z := copy_str fuel to from.

Definition strcat (fuel : nat) (s append : Z) : M mem Z :=
  e ← skip_to_nul fuel s; copy_str fuel e append;; mret s.

(** [do { if (( *d++ = *s++) == 0) { pad the rest with NUL; break; } } while (--n != 0);] *)
Fixpoint ncpy_loop (n : nat) (d s : Z) : M mem unit :=
  match n with
  | O => mret tt
  | S n =>
      c ← load s; store d c;;
      if c =? 0 then fill n (d + 1) 0 else ncpy_loop n (d + 1) (s + 1)
  end.

Definition strncpy (dst src n : Z) : M mem Z :=
  ncpy_loop (Z.to_nat n) dst src;; mret dst.

(** [while ( *a && *a == *b) ++a, ++b; return *a - *b;] on plain (signed) char. *)
Fixpoint strcmp (fuel : nat) (a b : Z) : M mem Z :=
  match fuel with
  | O => halt OutOfFuel
  | S fuel =>
      x ← load a;
      if x =? 0 then y ← load b; mret (s8 x - s8 y)
      else y ← load b; if x =? y then strcmp fuel (a + 1) (b + 1) else mret (s8 x - s8 y)
  end.

Definition strcoll (fuel : nat) (s1 s2 : Z) : M mem Z := strcmp fuel s1 s2.

Fixpoint ncmp_loop (n : nat) (s1 s2 : Z) : M mem Z :=
  match n with
  | O => mret 0
  | S n =>
      x ← load s1; y ← load s2;
      if negb (x =? y) then mret (x - y)
      else if x =? 0 then mret 0 else ncmp_loop n (s1 + 1) (s2 + 1)
  end.

Definition strncmp (s1 s2 n : Z) : M mem Z := ncmp_loop (Z.to_nat n) s1 s2.

(** The comparison [*p == c] is between chars, so between bytes. *)
Fixpoint strchr (fuel : nat) (p ch : Z) : M mem Z :=
  match fuel with
  | O => halt OutOfFuel
  | S fuel =>
      x ← load p;
      if x =? u8 ch then mret p
      else if x =? 0 then mret 0 else strchr fuel (p + 1) ch
  end.

Fixpoint rchr_loop (fuel : nat) (t c l : Z) : M mem Z :=
  match fuel with
  | O => halt OutOfFuel
  | S fuel =>
      x ← load t;
      let l := if x =? u8 c then t else l in
      if x =? 0 then mret l else rchr_loop fuel (t + 1) c l
  end.

Definition strrchr (fuel : nat) (t c : Z) : M mem Z := rchr_loop fuel t c 0.

(** ** Reference definitions *)

(** The string comparison the loops perform: position-wise, the terminating NUL
    included, reading bytes with [f]. *)
Fixpoint str_diff (f : Z -> Z) (l1 l2 : list Z) : Z :=
  match l1, l2 with
  | [], [] => 0
  | a :: _, [] => f a - f 0
  | [], b :: _ => f 0 - f b
  | a :: l1, b :: l2 => if a =? b then str_diff f l1 l2 else f a - f b
  end.

Fixpoint last_index_of (c : Z) (l : list Z) : option nat :=
  match l with
  | [] => None
  | b :: l =>
      match last_index_of c l with
      | Some i => Some (S i)
      | None => if b =? c then Some O else None
      end
  end.

(** The [n] bytes strncpy writes: the string truncated or NUL-padded to [n]. *)
Definition pad (n : nat) (l : list Z) : list Z := take n l ++ replicate (n - length l) 0.

(** ** Lemmas *)

Lemma cstring_cons m p b l :
  cstring m p (b :: l) <-> m !! p = Some b /\ b <> 0 /\ cstring m (p + 1) l.
Proof. unfold cstring. simpl. rewrite bytes_at_cons, Forall_cons_iff. tauto. Qed.

Lemma cstring_nil m p : cstring m p [] <-> m !! p = Some 0.
Proof.
  unfold cstring. simpl. rewrite bytes_at_cons. split; [tauto|].
  intros H. repeat split; [done|apply bytes_at_nil|constructor].
Qed.

Lemma cstring_head m p l : cstring m p l -> m !! p = Some (default 0 (head l)).
Proof.
  destruct l; [by rewrite cstring_nil|by intros [? _]%cstring_cons].
Qed.

Lemma cstring_unique m p l1 l2 : cstring m p l1 -> cstring m p l2 -> l1 = l2.
Proof.
  revert p l2; induction l1 as [|a l1 IH]; intros p [|b l2] H1 H2; [done|..].
  - apply cstring_nil in H1. apply cstring_cons in H2 as (? & ? & _). congruence.
  - apply cstring_nil in H2. apply cstring_cons in H1 as (? & ? & _). congruence.
  - apply cstring_cons in H1 as (? & ? & ?). apply cstring_cons in H2 as (? & ? & ?).
    f_equal; [congruence|by eapply IH].
Qed.

Lemma skip_to_nul_spec fuel m p l :
  cstring m p l -> (length l < fuel)%nat ->
  skip_to_nul fuel p m = Ret (p + Z.of_nat (length l), m).
Proof.
  revert p l; induction fuel as [|fuel IH]; intros p l H Hf; [lia|]. cbn [skip_to_nul].
  rewrite (mbind_load _ _ _ _ (cstring_head _ _ _ H)).
  destruct l as [|b l]; simpl.
  - by rewrite Z.add_0_r.
  - apply cstring_cons in H as (_ & Hb & H). apply Z.eqb_neq in Hb as ->.
    rewrite (IH _ l) by (done || simpl in Hf; lia). do 2 f_equal. lia.
Qed.

Lemma copy_str_spec fuel m dst src l :
  wf_mem m -> cstring m src l -> accessible m dst (Z.of_nat (length l) + 1) ->
  (dst <= src \/ src + Z.of_nat (length l) + 1 <= dst) -> (length l < fuel)%nat ->
  copy_str fuel dst src m = Ret (dst + Z.of_nat (length l), write m dst (l ++ [0])).
Proof.
  revert m dst src l; induction fuel as [|fuel IH]; intros m dst src l Hwf H Ha Hov Hf; [lia|].
  cbn [copy_str]. pose proof (cstring_head _ _ _ H) as Hh.
  rewrite (mbind_load _ _ _ _ Hh), mbind_store by
    first [by eapply Hwf | eapply accessible_at; [done|lia]].
  destruct l as [|b l]; simpl in *.
  - by rewrite Z.add_0_r.
  - apply cstring_cons in H as (_ & Hb & [H HF]). rewrite (proj2 (Z.eqb_neq _ _) Hb).
    rewrite (IH _ _ _ l); [do 2 f_equal; lia|..| |lia|lia].
    + apply wf_mem_insert; [done|by eapply Hwf].
    + split; [|done]. eapply bytes_at_ext; [done|]. intros a Ha'. rewrite length_app in Ha'.
      simpl in Ha'. apply lookup_insert_ne. lia.
    + apply accessible_insert. eapply accessible_sub; [done|lia..].
Qed.

Lemma write_cstring m p l : Forall (fun b => b <> 0) l -> cstring (write m p (l ++ [0])) p l.
Proof. intros H. split; [apply write_bytes_at|done]. Qed.

Lemma strcmp_spec fuel m a b l1 l2 :
  cstring m a l1 -> cstring m b l2 -> (length l1 < fuel)%nat ->
  strcmp fuel a b m = Ret (str_diff s8 l1 l2, m).
Proof.
  revert a b l1 l2; induction fuel as [|fuel IH]; intros a b l1 l2 H1 H2 Hf; [lia|].
  cbn [strcmp].
  rewrite (mbind_load _ _ _ _ (cstring_head _ _ _ H1)).
  destruct l1 as [|x l1]; simpl.
  - rewrite (mbind_load _ _ _ _ (cstring_head _ _ _ H2)). by destruct l2.
  - apply cstring_cons in H1 as (_ & Hx & H1). rewrite (proj2 (Z.eqb_neq _ _) Hx).
    rewrite (mbind_load _ _ _ _ (cstring_head _ _ _ H2)).
    destruct l2 as [|y l2]; simpl.
    + by rewrite (proj2 (Z.eqb_neq _ _) Hx).
    + apply cstring_cons in H2 as (_ & Hy & H2). destruct (x =? y); [|done].
      apply IH; [done..|simpl in Hf; lia].
Qed.

Lemma ncmp_loop_spec n m a b l1 l2 :
  cstring m a l1 -> cstring m b l2 ->
  ncmp_loop n a b m = Ret (str_diff id (take n l1) (take n l2), m).
Proof.
  revert a b l1 l2; induction n as [|n IH]; intros a b l1 l2 H1 H2; [done|].
  cbn [ncmp_loop].
  rewrite (mbind_load _ _ _ _ (cstring_head _ _ _ H1)),
    (mbind_load _ _ _ _ (cstring_head _ _ _ H2)).
  destruct l1 as [|x l1], l2 as [|y l2]; simpl; [done|..].
  - apply cstring_cons in H2 as (_ & Hy & _).
    by rewrite (proj2 (Z.eqb_neq 0 y) (not_eq_sym Hy)).
  - apply cstring_cons in H1 as (_ & Hx & _). by rewrite (proj2 (Z.eqb_neq _ _) Hx).
  - apply cstring_cons in H1 as (_ & Hx & H1). apply cstring_cons in H2 as (_ & Hy & H2).
    destruct (x =? y); simpl; [|done]. rewrite (proj2 (Z.eqb_neq _ _) Hx). by apply IH.
Qed.

Lemma str_diff_zero f l1 l2 :
  (forall a b, is_byte a -> is_byte b -> f a = f b -> a = b) ->
  Forall (fun b => is_byte b /\ b <> 0) l1 -> Forall (fun b => is_byte b /\ b <> 0) l2 ->
  str_diff f l1 l2 = 0 <-> l1 = l2.
Proof.
  intros Hf H1. revert l2. induction H1 as [|a l1 [Ha Ha0] H1 IH]; intros l2 H2.
  - destruct H2 as [|b l2 [Hb Hb0] H2]; simpl; [done|]. split; [|done].
    intros E. destruct Hb0. apply Hf; [done|unfold is_byte; lia|lia].
  - destruct H2 as [|b l2 [Hb Hb0] H2]; simpl.
    + split; [|done]. intros E. destruct Ha0. apply Hf; [done|unfold is_byte; lia|lia].
    + destruct (Z.eqb_spec a b) as [->|Hne]; [rewrite IH by done; split; [by intros ->|by intros [= ->]]|].
      split; [|congruence]. intros E. destruct Hne. apply Hf; [done..|lia].
Qed.

Lemma s8_byte a : is_byte a -> s8 a = if a <? 128 then a else a - 256.
Proof. intros H. unfold s8, sext. rewrite Z.mod_small by (unfold is_byte in H; lia). done. Qed.

Lemma s8_inj a b : is_byte a -> is_byte b -> s8 a = s8 b -> a = b.
Proof.
  intros Ha Hb. rewrite !s8_byte by done. unfold is_byte in *.
  destruct (Z.ltb_spec a 128), (Z.ltb_spec b 128); lia.
Qed.

Lemma str_diff_ascii l1 l2 :
  Forall (fun b => 0 <= b < 128) l1 -> Forall (fun b => 0 <= b < 128) l2 ->
  str_diff s8 l1 l2 = str_diff id l1 l2.
Proof.
  assert (Hs : forall a, 0 <= a < 128 -> s8 a = id a).
  { intros a Ha. rewrite s8_byte by (unfold is_byte; lia).
    destruct (Z.ltb_spec a 128); [done|lia]. }
  intros H1. revert l2. induction H1 as [|a l1 Ha H1 IH]; intros l2 H2;
    destruct H2 as [|b l2 Hb H2]; simpl; rewrite ?Hs by lia; try done.
  by rewrite IH.
Qed.

Lemma ascii_range l :
  Forall (fun b => is_byte b /\ b <> 0) l -> Forall (fun x => x < 128) l ->
  Forall (fun b => 0 <= b < 128) l.
Proof.
  intros H1 H2. induction H1 as [|b l [Hb _] H1 IH]; [done|].
  apply Forall_cons_iff in H2 as [? ?]. constructor; [unfold is_byte in Hb; lia|auto].
Qed.

Lemma cstring_bytes m p l :
  wf_mem m -> cstring m p l -> Forall (fun b => is_byte b /\ b <> 0) l.
Proof.
  intros Hwf. revert p; induction l as [|b l IH]; intros p H; [done|].
  apply cstring_cons in H as (Hb & Hb0 & H). constructor; [|by eapply IH].
  split; [by eapply Hwf|done].
Qed.

Lemma ncpy_loop_spec n m dst src l :
  wf_mem m -> cstring m src l -> accessible m dst (Z.of_nat n) ->
  (dst + Z.of_nat n <= src \/ src + Z.of_nat (length l) + 1 <= dst) ->
  ncpy_loop n dst src m = Ret (tt, write m dst (pad n l)).
Proof.
  revert m dst src l; induction n as [|n IH]; intros m dst src l Hwf H Ha Hov; [done|].
  cbn [ncpy_loop]. pose proof (cstring_head _ _ _ H) as Hh.
  rewrite (mbind_load _ _ _ _ Hh), mbind_store by
    first [by eapply Hwf | eapply accessible_at; [done|lia]].
  assert (Ha' : accessible (<[dst := default 0 (head l)]> m) (dst + 1) (Z.of_nat n)).
  { apply accessible_insert. eapply accessible_sub; [done|lia..]. }
  destruct l as [|b l]; simpl in *.
  - by rewrite (fill_spec n _ (dst + 1) 0 Ha').
  - apply cstring_cons in H as (_ & Hb & [H HF]). rewrite (proj2 (Z.eqb_neq _ _) Hb).
    rewrite (IH _ _ _ l); [done|..|done|lia].
    + apply wf_mem_insert; [done|by eapply Hwf].
    + split; [|done]. eapply bytes_at_ext; [done|]. intros a Ha2. rewrite length_app in Ha2.
      simpl in Ha2. apply lookup_insert_ne. lia.
Qed.

Lemma strchr_spec fuel m p ch l :
  cstring m p l -> (length l < fuel)%nat ->
  strchr fuel p ch m =
  Ret (match index_of (u8 ch) (l ++ [0]) with Some i => p + Z.of_nat i | None => 0 end, m).
Proof.
  revert p l; induction fuel as [|fuel IH]; intros p l H Hf; [lia|]. cbn [strchr].
  rewrite (mbind_load _ _ _ _ (cstring_head _ _ _ H)).
  destruct l as [|b l]; simpl.
  - destruct (0 =? u8 ch); simpl; [by rewrite Z.add_0_r|done].
  - apply cstring_cons in H as (_ & Hb & H). rewrite (proj2 (Z.eqb_neq _ _) Hb).
    destruct (b =? u8 ch); simpl; [by rewrite Z.add_0_r|].
    rewrite (IH _ l) by (done || simpl in Hf; lia).
    destruct (index_of _ _); simpl; [do 2 f_equal; lia|done].
Qed.

Lemma rchr_loop_spec fuel m p c l d :
  cstring m p l -> (length l < fuel)%nat ->
  rchr_loop fuel p c d m =
  Ret (match last_index_of (u8 c) (l ++ [0]) with Some i => p + Z.of_nat i | None => d end, m).
Proof.
  revert p l d; induction fuel as [|fuel IH]; intros p l d H Hf; [lia|]. cbn [rchr_loop].
  rewrite (mbind_load _ _ _ _ (cstring_head _ _ _ H)).
  destruct l as [|b l]; simpl.
  - destruct (0 =? u8 c); [by rewrite Z.add_0_r|done].
  - apply cstring_cons in H as (_ & Hb & H). rewrite (proj2 (Z.eqb_neq _ _) Hb).
    rewrite (IH _ l) by (done || simpl in Hf; lia).
    destruct (last_index_of _ _); [do 2 f_equal; lia|].
    destruct (b =? u8 c); [by rewrite Z.add_0_r|done].
Qed.

Lemma last_index_of_None c l : last_index_of c l = None <-> Forall (fun b => b <> c) l.
Proof.
  induction l as [|b l IH]; simpl; [done|]. rewrite Forall_cons_iff, <- IH.
  destruct (last_index_of c l); [split; [done|by intros [_ [=]]]|].
  destruct (Z.eqb_spec b c); [split; [done|tauto]|tauto].
Qed.

Lemma last_index_of_Some c l i :
  last_index_of c l = Some i ->
  l !! i = Some c /\ forall j, (i < j)%nat -> l !! j <> Some c.
Proof.
  revert i; induction l as [|b l IH]; intros i; simpl; [done|].
  destruct (last_index_of c l) as [k|] eqn:E.
  - intros [= <-]. destruct (IH k eq_refl) as [H1 H2]. split; [done|].
    intros [|j] Hj; simpl; [lia|]. apply H2. lia.
  - destruct (Z.eqb_spec b c) as [->|]; [|done]. intros [= <-]. split; [done|].
    intros [|j] Hj; simpl; [lia|]. intros Hc. apply last_index_of_None in E.
    by eapply Forall_lookup_1 in E.
Qed.

(** ** Properties *)

(** strcpy and stpcpy: on every NUL-terminated source of length n, n+1
    iterations are enough, exactly the n+1 bytes of the string and its NUL are
    written, the destination then holds the same string; strcpy returns the
    destination, stpcpy the address of the NUL it wrote, and strlen of the copy
    is n. *)
Theorem strcpy_correct fuel m dst src l :
  wf_mem m -> cstring m src l -> accessible m dst (Z.of_nat (length l) + 1) ->
  (dst <= src \/ src + Z.of_nat (length l) + 1 <= dst) -> (length l < fuel)%nat ->
  exists m', m' = write m dst (l ++ [0]) /\ cstring m' dst l /\
    strcpy fuel dst src m = Ret (dst, m') /\
    stpcpy fuel dst src m = Ret (dst + Z.of_nat (length l), m') /\
    strlen fuel dst m' = Ret (Z.of_nat (length l), m').
Proof.
  intros Hwf Hs Ha Hov Hf. eexists; split; [done|].
  pose proof (copy_str_spec fuel m dst src l Hwf Hs Ha Hov Hf) as E.
  assert (Hc : cstring (write m dst (l ++ [0])) dst l) by (apply write_cstring, Hs).
  split; [done|]. unfold strcpy, stpcpy, strlen. rewrite (mbind_run _ _ _ _ _ E).
  split; [done|]. split; [done|].
  rewrite (mbind_run _ _ _ _ _ (skip_to_nul_spec fuel _ _ _ Hc Hf)).
  unfold mret, M_ret. do 2 f_equal. lia.
Qed.

Lemma strcpy_correct_witness :
  strcpy 3 100 200 (mem_of 100 [9; 9; 9] ∪ mem_of 200 [104; 105; 0])
  = Ret (100, mem_of 100 [104; 105; 0] ∪ mem_of 200 [104; 105; 0]).
Proof.
  edestruct (strcpy_correct 3 (write (mem_of 100 [9; 9; 9]) 200 [104; 105; 0]) 100 200 [104; 105])
    as (m' & -> & _ & E & _ & _).
  - apply wf_mem_write; [apply wf_mem_of|]; repeat constructor; unfold is_byte; lia.
  - apply write_cstring. repeat constructor; done.
  - apply accessible_write, (accessible_of 100 [9; 9; 9] 100 3); simpl; lia.
  - left. lia.
  - simpl. lia.
  - vm_compute in E. vm_compute. exact E.
Defined.

(** strcat appends the second string to the first in place: the result is
    the concatenation, NUL-terminated, at the address of the first string, and
    no byte outside the appended part and its NUL changes. *)
Theorem strcat_correct fuel m s append l1 l2 :
  wf_mem m -> cstring m s l1 -> cstring m append l2 ->
  accessible m (s + Z.of_nat (length l1)) (Z.of_nat (length l2) + 1) ->
  (append + Z.of_nat (length l2) + 1 <= s + Z.of_nat (length l1) \/
   s + Z.of_nat (length l1) <= append) ->
  (length l1 < fuel)%nat -> (length l2 < fuel)%nat ->
  exists m', strcat fuel s append m = Ret (s, m') /\ cstring m' s (l1 ++ l2) /\
    forall a, a < s + Z.of_nat (length l1) \/ s + Z.of_nat (length l1 + length l2) < a ->
      m' !! a = m !! a.
Proof.
  intros Hwf H1 H2 Ha Hov Hf1 Hf2. unfold strcat.
  rewrite (mbind_run _ _ _ _ _ (skip_to_nul_spec fuel _ _ _ H1 Hf1)).
  rewrite (mbind_run _ _ _ _ _ (copy_str_spec fuel m _ _ l2 Hwf H2 Ha ltac:(lia) Hf2)).
  eexists; split; [done|]. destruct H1 as [B1 F1], H2 as [B2 F2]. split.
  - split; [|by apply Forall_app].
    rewrite <- app_assoc. apply bytes_at_app. split; [|apply write_bytes_at].
    apply bytes_at_app in B1 as [B1 _]. eapply bytes_at_ext; [done|].
    intros a Ha'. apply lookup_write_out. lia.
  - intros a Ha'. apply lookup_write_out. rewrite length_app. simpl. lia.
Qed.

Lemma strcat_correct_witness :
  exists m', strcat 3 100 200 (write (mem_of 100 [104; 0; 7]) 200 [105; 0]) = Ret (100, m')
    /\ m' = write (mem_of 100 [104; 105; 0]) 200 [105; 0].
Proof.
  edestruct (strcat_correct 3 (write (mem_of 100 [104; 0; 7]) 200 [105; 0]) 100 200 [104] [105])
    as (m' & E & _ & _).
  - apply wf_mem_write; [apply wf_mem_of|]; repeat constructor; unfold is_byte; lia.
  - split; [|repeat constructor; done]. apply bytes_at_write_out; [|simpl; lia].
    apply (bytes_at_of 100 [] [104; 0] [7]).
  - apply write_cstring. repeat constructor; done.
  - apply accessible_write, (accessible_of 100 [104; 0; 7] 101 2); simpl; lia.
  - right. simpl. lia.
  - simpl. lia.
  - simpl. lia.
  - exists m'. split; [exact E|]. vm_compute in E. injection E as <-. vm_compute. reflexivity.
Defined.

(** strncpy writes exactly [n] bytes: the source string cut to [n] bytes,
    or the whole string followed by NULs. *)
Theorem strncpy_correct m dst src n l :
  wf_mem m -> cstring m src l -> accessible m dst (Z.of_nat n) ->
  (dst + Z.of_nat n <= src \/ src + Z.of_nat (length l) + 1 <= dst) ->
  strncpy dst src (Z.of_nat n) m = Ret (dst, write m dst (pad n l)) /\
  length (pad n l) = n /\
  ((length l < n)%nat -> cstring (write m dst (pad n l)) dst l).
Proof.
  intros Hwf Hs Ha Hov. unfold strncpy. rewrite Nat2Z.id.
  rewrite (mbind_run _ _ _ _ _ (ncpy_loop_spec n m dst src l Hwf Hs Ha Hov)).
  split; [done|]. split.
  - unfold pad. rewrite length_app, length_take, length_replicate. lia.
  - intros Hlt. split; [|apply Hs]. unfold pad. rewrite take_ge by lia.
    replace (n - length l)%nat with (1 + (n - length l - 1))%nat by lia.
    simpl replicate. rewrite (app_assoc l [0] (replicate _ 0) : l ++ 0 :: _ = _).
    apply (proj1 (bytes_at_app _ _ (l ++ [0]) _) (write_bytes_at _ _ _)).
Qed.

Lemma strncpy_correct_witness :
  strncpy 100 200 3 (write (mem_of 100 [9; 9; 9; 9]) 200 [104; 0])
  = Ret (100, write (mem_of 100 [104; 0; 0; 9]) 200 [104; 0]).
Proof.
  edestruct (strncpy_correct (write (mem_of 100 [9; 9; 9; 9]) 200 [104; 0]) 100 200 3 [104])
    as (E & _ & _).
  - apply wf_mem_write; [apply wf_mem_of|]; repeat constructor; unfold is_byte; lia.
  - apply write_cstring. repeat constructor; done.
  - apply accessible_write, (accessible_of 100 [9; 9; 9; 9] 100 3); simpl; lia.
  - left. simpl. lia.
  - refine (eq_trans E _). vm_compute. reflexivity.
Defined.

(** strcmp of two strings is 0 exactly when they are equal, whatever the
    bytes; on strings of bytes below 128 its value is the one strncmp gives
    with any bound above both lengths. *)
Theorem strcmp_correct fuel m a b l1 l2 n :
  wf_mem m -> cstring m a l1 -> cstring m b l2 -> (length l1 < fuel)%nat ->
  (length l1 <= n)%nat -> (length l2 <= n)%nat ->
  exists r, strcmp fuel a b m = Ret (r, m) /\ (r = 0 <-> l1 = l2) /\
    (Forall (fun x => x < 128) l1 -> Forall (fun x => x < 128) l2 ->
     strncmp a b (Z.of_nat n) m = Ret (r, m)).
Proof.
  intros Hwf H1 H2 Hf Hn1 Hn2. exists (str_diff s8 l1 l2).
  pose proof (cstring_bytes _ _ _ Hwf H1) as F1. pose proof (cstring_bytes _ _ _ Hwf H2) as F2.
  split; [by apply strcmp_spec|]. split; [apply str_diff_zero; [apply s8_inj|done..]|].
  intros A1 A2. unfold strncmp. rewrite Nat2Z.id.
  rewrite (ncmp_loop_spec n m a b l1 l2) by done. rewrite !take_ge by lia.
  by rewrite str_diff_ascii by (by apply ascii_range).
Qed.

Lemma strcmp_correct_witness :
  exists r, strcmp 3 100 200 (write (mem_of 100 [104; 105; 0]) 200 [104; 0]) =
      Ret (r, write (mem_of 100 [104; 105; 0]) 200 [104; 0]) /\ r <> 0 /\
    strncmp 100 200 2 (write (mem_of 100 [104; 105; 0]) 200 [104; 0]) =
      Ret (r, write (mem_of 100 [104; 105; 0]) 200 [104; 0]).
Proof.
  edestruct (strcmp_correct 3 (write (mem_of 100 [104; 105; 0]) 200 [104; 0]) 100 200
    [104; 105] [104] 2) as (r & E & Hz & Hn).
  - apply wf_mem_write; [apply wf_mem_of|]; repeat constructor; unfold is_byte; lia.
  - split; [|repeat constructor; done]. apply bytes_at_write_out; [|simpl; lia].
    apply (bytes_at_of 100 [] [104; 105; 0] []).
  - apply write_cstring. repeat constructor; done.
  - simpl; lia.
  - simpl; lia.
  - simpl; lia.
  - exists r. split; [exact E|]. split; [intros Hr; by apply Hz in Hr|].
    apply Hn; repeat constructor; lia.
Defined.

(** strchr returns the first and strrchr the last position of the character
    (converted to char) in the string and its terminating NUL, NULL when there
    is none; both terminate and leave memory unchanged. *)
Theorem strchr_strrchr_correct fuel m p ch l :
  cstring m p l -> (length l < fuel)%nat ->
  exists r1 r2, strchr fuel p ch m = Ret (r1, m) /\ strrchr fuel p ch m = Ret (r2, m) /\
    let s := l ++ [0] in
    ((exists i, s !! i = Some (u8 ch) /\ (forall j, (j < i)%nat -> s !! j <> Some (u8 ch)) /\
        r1 = p + Z.of_nat i) /\
     (exists i, s !! i = Some (u8 ch) /\ (forall j, (i < j)%nat -> s !! j <> Some (u8 ch)) /\
        r2 = p + Z.of_nat i)
     \/ Forall (fun b => b <> u8 ch) s /\ r1 = 0 /\ r2 = 0).
Proof.
  intros H Hf. unfold strrchr. rewrite (strchr_spec _ _ _ _ l), (rchr_loop_spec _ _ _ _ l) by done.
  do 2 eexists; do 2 (split; [done|]). cbn zeta.
  destruct (index_of (u8 ch) (l ++ [0])) as [i|] eqn:E.
  - left. apply index_of_Some in E as [E1 E2]. split; [eauto|].
    destruct (last_index_of (u8 ch) (l ++ [0])) as [k|] eqn:E'.
    + apply last_index_of_Some in E' as [? ?]. eauto.
    + apply last_index_of_None in E'. by eapply Forall_lookup_1 in E'.
  - right. apply index_of_None in E. rewrite (proj2 (last_index_of_None _ _) E). done.
Qed.

Lemma strchr_strrchr_correct_witness :
  exists r1 r2, strchr 4 100 97 (mem_of 100 [97; 98; 97; 0]) = Ret (r1, mem_of 100 [97; 98; 97; 0])
    /\ strrchr 4 100 97 (mem_of 100 [97; 98; 97; 0]) = Ret (r2, mem_of 100 [97; 98; 97; 0])
    /\ r1 = 100 /\ r2 = 102.
Proof.
  edestruct (strchr_strrchr_correct 4 (mem_of 100 [97; 98; 97; 0]) 100 97 [97; 98; 97])
    as (r1 & r2 & E1 & E2 & _).
  - apply write_cstring. repeat constructor; done.
  - simpl; lia.
  - exists r1, r2. split; [exact E1|]. split; [exact E2|].
    vm_compute in E1, E2. by injection E1 as <-; injection E2 as <-.
Defined.

(** The comparison of strcmp is by signed characters: on some pairs of
    strings it gives the opposite order to strncmp and memcmp, which compare
    unsigned bytes as the C standard requires of all three. *)
Theorem strcmp_signed_order :
  exists m a b, (exists r, strcmp 2 a b m = Ret (r, m) /\ r < 0) /\
    (exists r, strncmp a b 1 m = Ret (r, m) /\ 0 < r) /\
    (exists r, memcmp a b 1 m = Ret (r, m) /\ 0 < r).
Proof.
  exists (mem_of 100 [200; 0; 65; 0]), 100, 102.
  repeat split; (eexists; split; [vm_compute; reflexivity|done]).
Qed.
End LibcStr.
