(* ===== verification/LibcNum.v ===== *)
(** * klee-libc: numbers

    strtol, strtoul and atoi on C strings in memory, the character functions
    tolower and toupper, and the byte-order functions of htonl.c. Values of type
    [long] and [unsigned long] are 64 bits wide. *)
From stdpp Require Import base gmap list numbers.
From Stdlib Require Import ZArith Lia.
From S2P Require Import Prelude CMem LibcMem LibcStr.
Import LibcMem LibcStr.

Module LibcNum.

Definition LONG_MAX : Z := 2 ^ 63 - 1.
Definition LONG_MIN : Z := - 2 ^ 63.
Definition ULONG_MAX : Z := 2 ^ 64 - 1.
Definition EINVAL : Z := 22.
Definition ERANGE : Z := 34.

(** ctype's isspace in the C locale. *)
Definition isspace (c : Z) : bool := (c =? 32) || ((9 <=? c) && (c <=? 13)).

(** A [char] read from memory. *)
Definition loadc (p : Z) : M mem Z := b ← load p; mret (s8 b).

(** [do { c = *s++; } while (isspace((unsigned char)c));] *)
Fixpoint skip_space (fuel : nat) (s : Z) : M mem (Z * Z) :=
  match fuel with
  | O => halt OutOfFuel
  | S fuel => c ← loadc s; if isspace (u8 c) then skip_space fuel (s + 1) else mret (c, s + 1)
  end.

(** The value of a digit character: the range tests and subtractions of the
    conversion loop. *)
Definition digit (c : Z) : option Z :=
  if (48 <=? c) && (c <=? 57) then Some (c - 48)
  else if (65 <=? c) && (c <=? 90) then Some (c - (65 - 10))
  else if (97 <=? c) && (c <=? 122) then Some (c - (97 - 10))
  else None.

(** The loop [for ( ; ; c = *s++)]; the result is [(acc, any, s)]. *)
Fixpoint conv (fuel : nat) (base cutoff cutlim c s acc any : Z) : M mem (Z * Z * Z) :=
  match fuel with
  | O => halt OutOfFuel
  | S fuel =>
      match digit c with
      | None => mret (acc, any, s)
      | Some d =>
          if base <=? d then mret (acc, any, s)
          else
            let '(acc, any) :=
              if (any <? 0) || (cutoff <? acc) || ((acc =? cutoff) && (cutlim <? d))
              then (acc, -1) else (u64 (u64 (acc * base) + d), 1) in
            c ← loadc s; conv fuel base cutoff cutlim c (s + 1) acc any
      end
  end.

(** Sign and radix prefix: [(c, s)] is the state after the white space. *)
Definition read_sign (c s : Z) : M mem (bool * Z * Z) :=
  if c =? 45 then c ← loadc s; mret (true, c, s + 1)
  else if c =? 43 then c ← loadc s; mret (false, c, s + 1)
  else mret (false, c, s).

Definition read_prefix (base c s : Z) : M mem (Z * Z * Z) :=
  '(base, c, s) ←
    (if ((base =? 0) || (base =? 16)) && (c =? 48) then
       x ← loadc s;
       if (x =? 120) || (x =? 88) then c ← loadc (s + 1); mret (16, c, s + 2)
       else mret (base, c, s)
     else mret (base, c, s));
  mret (if base =? 0 then (if c =? 48 then 8 else 10) else base, c, s).

(** Result of a conversion: the value returned, the value stored through
    [endptr] when it is not NULL, and the value assigned to errno, if any. *)
Record conversion := Conv { conv_value : Z; conv_end : Z; conv_errno : option Z }.

Definition strtol (fuel : nat) (nptr base : Z) : M mem conversion :=
  '(c, s) ← skip_space fuel nptr;
  '(neg, c, s) ← read_sign c s;
  '(base, c, s) ← read_prefix base c s;
  if (base <? 2) || (36 <? base) then mret (Conv 0 nptr (Some EINVAL))
  else
    let limit := if neg : bool then u64 (- (LONG_MIN + LONG_MAX) + LONG_MAX) else LONG_MAX in
    let cutlim := limit `mod` base in
    let cutoff := limit `div` base in
    '(acc, any, s) ← conv fuel base cutoff cutlim c s 0 0;
    let endp := if nz any then s - 1 else nptr in
    if any <? 0 then mret (Conv (s64 (if neg then LONG_MIN else LONG_MAX)) endp (Some ERANGE))
    else if any =? 0 then mret (Conv (s64 acc) endp (Some EINVAL))
    else mret (Conv (s64 (if neg then u64 (- acc) else acc)) endp None).

Definition strtoul (fuel : nat) (nptr base : Z) : M mem conversion :=
  '(c, s) ← skip_space fuel nptr;
  '(neg, c, s) ← read_sign c s;
  '(base, c, s) ← read_prefix base c s;
  if (base <? 2) || (36 <? base) then mret (Conv 0 nptr (Some EINVAL))
  else
    let cutoff := ULONG_MAX `div` base in
    let cutlim := ULONG_MAX `mod` base in
    '(acc, any, s) ← conv fuel base cutoff cutlim c s 0 0;
    let endp := if nz any then s - 1 else nptr in
    if any <? 0 then mret (Conv ULONG_MAX endp (Some ERANGE))
    else if any =? 0 then mret (Conv acc endp (Some EINVAL))
    else mret (Conv (if neg : bool then u64 (- acc) else acc) endp None).

Definition atoi (fuel : nat) (str : Z) : M mem Z :=
  r ← strtol fuel str 10; mret (s32 (conv_value r)).

Definition tolower (ch : Z) : Z := if u32 (ch - 65) <? 26 then ch - (65 - 97) else ch.
Definition toupper (ch : Z) : Z := if u32 (ch - 97) <? 26 then ch + (65 - 97) else ch.

(** htonl.c, little-endian branch. *)
Definition htons (v : Z) : Z := u16 (Z.lor (Z.shiftr v 8) (Z.shiftl v 8)).
Definition htonl (v : Z) : Z :=
  u32 (Z.lor (htons (u16 (Z.shiftr v 16))) (Z.shiftl (htons (u16 v)) 16)).
Definition ntohs (v : Z) : Z := htons v.
Definition ntohl (v : Z) : Z := htonl v.

(** ** Reference definitions: conversion of a list of bytes, on unbounded integers *)

(** Longest prefix whose elements satisfy [f], and the rest. *)
Fixpoint span (f : Z -> bool) (l : list Z) : list Z * list Z :=
  match l with
  | [] => ([], [])
  | b :: l' => if f b then let '(p, r) := span f l' in (b :: p, r) else ([], l)
  end.

Definition digit_in (base b : Z) : bool :=
  match digit (s8 b) with Some d => d <? base | None => false end.
Definition digit_value (b : Z) : Z := default 0 (digit (s8 b)).

(** Positional value of a digit string. *)
Definition digits_value (base : Z) (ds : list Z) : Z :=
  fold_left (fun v b => v * base + digit_value b) ds 0.

Definition ref_sign (l : list Z) : bool * list Z :=
  match l with
  | b :: l' => if b =? 45 then (true, l') else if b =? 43 then (false, l') else (false, l)
  | [] => (false, [])
  end.

(** Radix and remaining text after an optional 0x prefix. *)
Definition ref_prefix (base : Z) (l : list Z) : Z * list Z :=
  match l with
  | a :: x :: l' =>
      if ((base =? 0) || (base =? 16)) && (a =? 48) && ((x =? 120) || (x =? 88)) then (16, l')
      else (if base =? 0 then (if a =? 48 then 8 else 10) else base, l)
  | [a] => (if base =? 0 then (if a =? 48 then 8 else 10) else base, l)
  | [] => (if base =? 0 then 10 else base, l)
  end.

(** What a conversion of the text [l] finds: sign, radix, digits, what follows. *)
Definition ref_parse (base : Z) (l : list Z) : bool * Z * list Z * list Z :=
  let '(neg, l1) := ref_sign (span isspace l).2 in
  let '(radix, l2) := ref_prefix base l1 in
  let '(ds, rest) := span (digit_in radix) l2 in
  (neg, radix, ds, rest).

(** Saturating conversion to [lo..hi]. *)
Definition ref_strtol (nptr base : Z) (l : list Z) : conversion :=
  let '(neg, radix, ds, rest) := ref_parse base l in
  if (radix <? 2) || (36 <? radix) || (length ds =? 0)%nat then Conv 0 nptr (Some EINVAL)
  else
    let v := if neg then - digits_value radix ds else digits_value radix ds in
    let endp := nptr + Z.of_nat (length l - length rest) in
    if v <? LONG_MIN then Conv LONG_MIN endp (Some ERANGE)
    else if LONG_MAX <? v then Conv LONG_MAX endp (Some ERANGE)
    else Conv v endp None.

Definition ref_strtoul (nptr base : Z) (l : list Z) : conversion :=
  let '(neg, radix, ds, rest) := ref_parse base l in
  if (radix <? 2) || (36 <? radix) || (length ds =? 0)%nat then Conv 0 nptr (Some EINVAL)
  else
    let v := digits_value radix ds in
    let endp := nptr + Z.of_nat (length l - length rest) in
    if ULONG_MAX <? v then Conv ULONG_MAX endp (Some ERANGE)
    else Conv (if neg then u64 (- v) else v) endp None.

(** ** Lemmas: characters and the list functions *)

Lemma u8_s8 b : is_byte b -> u8 (s8 b) = b.
Proof.
  intros H. rewrite s8_byte by done. unfold is_byte in H.
  destruct (Z.ltb_spec b 128); [by apply u8_small|].
  unfold u8. rewrite <- (Z.mod_add _ 1) by lia. rewrite Z.mod_small; lia.
Qed.

Lemma s8_eqb b k : is_byte b -> 0 <= k < 128 -> (s8 b =? k) = (b =? k).
Proof.
  intros H Hk. rewrite s8_byte by done. unfold is_byte in H.
  destruct (Z.ltb_spec b 128); [done|].
  rewrite (proj2 (Z.eqb_neq _ _)) by lia. by rewrite (proj2 (Z.eqb_neq _ _)) by lia.
Qed.

(** The first character of a text, its terminating NUL included. *)
Definition first (l : list Z) : Z := match l with [] => 0 | b :: _ => b end.

Lemma first_byte m p l : wf_mem m -> cstring m p l -> is_byte (first l).
Proof. intros Hwf H. eapply Hwf. rewrite (cstring_head _ _ _ H). by destruct l. Qed.

Lemma loadc_run m p l : cstring m p l -> loadc p m = Ret (s8 (first l), m).
Proof.
  intros H. unfold loadc. rewrite (mbind_load _ _ _ _ (cstring_head _ _ _ H)). by destruct l.
Qed.

(** [at_text m p l l']: the text [l] starts at [p] and its suffix [l'] is where
    the scan stands. *)
Definition at_text (m : mem) (p : Z) (l l' : list Z) (q : Z) : Prop :=
  q = p + Z.of_nat (length l - length l') /\ cstring m q l' /\ (length l' <= length l)%nat.

Lemma at_text_start m p l : cstring m p l -> at_text m p l l p.
Proof. intros H. split; [lia|]. by split; [|lia]. Qed.

Lemma at_text_next m p l b l' q : at_text m p l (b :: l') q -> at_text m p l l' (q + 1).
Proof.
  intros (-> & H & Hl). apply cstring_cons in H as (_ & _ & H). simpl in *.
  split; [lia|]. split; [|lia]. replace (_ + 1) with (p + Z.of_nat (length l - S (length l')) + 1)
    by lia. done.
Qed.

Lemma digit_zero : digit (s8 0) = None.
Proof. done. Qed.

Lemma digit_nonneg c d : digit c = Some d -> 0 <= d < 36.
Proof.
  unfold digit. intros H.
  destruct (Z.leb_spec 48 c), (Z.leb_spec c 57), (Z.leb_spec 65 c), (Z.leb_spec c 90),
    (Z.leb_spec 97 c), (Z.leb_spec c 122); simpl in H; simplify_eq; lia.
Qed.

(** ** The scanning steps follow the reference functions *)

Section Scan.
Context (m : mem) (p : Z) (l : list Z) (Hwf : wf_mem m).

Lemma skip_space_spec fuel q l1 :
  at_text m p l l1 q -> (length l1 < fuel)%nat ->
  exists q', skip_space fuel q m = Ret ((s8 (first (span isspace l1).2), q' + 1), m) /\
    at_text m p l (span isspace l1).2 q'.
Proof.
  revert q l1; induction fuel as [|fuel IH]; intros q l1 H Hf; [lia|]. cbn [skip_space].
  pose proof H as (_ & Hc & _).
  rewrite (mbind_run _ _ _ _ _ (loadc_run _ _ _ Hc)), u8_s8 by (by eapply first_byte).
  destruct l1 as [|b l1]; [by exists q|]. simpl.
  destruct (isspace b); [|by exists q].
  destruct (IH (q + 1) l1) as (q' & E & H'); [by eapply at_text_next|simpl in Hf; lia|].
  exists q'. by destruct (span isspace l1).
Qed.

Lemma read_sign_spec q l1 neg l2 :
  at_text m p l l1 q -> ref_sign l1 = (neg, l2) ->
  exists q', read_sign (s8 (first l1)) (q + 1) m = Ret ((neg, s8 (first l2), q' + 1), m) /\
    at_text m p l l2 q'.
Proof.
  intros H E. pose proof H as (_ & Hc & _). unfold read_sign.
  rewrite !s8_eqb by (lia || by eapply first_byte).
  destruct l1 as [|b l1]; simpl in E; [simplify_eq; by exists q|]. simpl.
  pose proof (at_text_next _ _ _ _ _ _ H) as H'. pose proof H' as (_ & Hc' & _).
  destruct (b =? 45); [|destruct (b =? 43)]; simplify_eq;
    [..|by exists q]; rewrite (mbind_run _ _ _ _ _ (loadc_run _ _ _ Hc')); by exists (q + 1).
Qed.

Lemma read_prefix_spec base q l1 radix l2 :
  at_text m p l l1 q -> ref_prefix base l1 = (radix, l2) ->
  exists q', read_prefix base (s8 (first l1)) (q + 1) m =
      Ret ((radix, s8 (first l2), q' + 1), m) /\ at_text m p l l2 q'.
Proof.
  intros H E. pose proof H as (_ & Hc & _). unfold read_prefix.
  rewrite !s8_eqb by (lia || by eapply first_byte).
  destruct l1 as [|a l1]; simpl in E.
  { simplify_eq. simpl. rewrite andb_false_r. by exists q. }
  pose proof (at_text_next _ _ _ _ _ _ H) as H1. pose proof H1 as (_ & Hc1 & _).
  pose proof (first_byte _ _ _ Hwf Hc) as Ha. pose proof (first_byte _ _ _ Hwf Hc1) as Hx.
  simpl in Ha |- *.
  destruct (((base =? 0) || (base =? 16)) && (a =? 48)) eqn:B.
  - rewrite (mbind_assoc_run _ _ _ _ _ _ (loadc_run _ _ _ Hc1)), !s8_eqb by (lia || done).
    destruct l1 as [|x l1]; simpl in *.
    + simplify_eq. exists q. mred. by rewrite (s8_eqb a) by (lia || done).
    + pose proof (at_text_next _ _ _ _ _ _ H1) as H2. pose proof H2 as (_ & Hc2 & _).
      destruct ((x =? 120) || (x =? 88)); simplify_eq.
      * rewrite (mbind_assoc_run _ _ _ _ _ _ (loadc_run _ _ _ Hc2)).
        exists (q + 1 + 1). split; [|done]. mred. do 3 f_equal. lia.
      * exists q. mred. by rewrite (s8_eqb a) by (lia || done).
  - exists q. mred. rewrite (s8_eqb a) by (lia || done).
    destruct l1 as [|x l1]; simpl in E; by simplify_eq.
Qed.

(** Invariant of the accumulator: [v] is the exact value of the digits read,
    [L] the largest value the result may have. *)
Definition conv_inv (L v acc any : Z) : Prop :=
  0 <= v /\ (any = -1 /\ L < v \/ (any = 0 \/ any = 1) /\ acc = v /\ v <= L).

Lemma conv_inv_step L base d v acc any :
  2 <= base -> 0 <= d < base -> 0 <= L < 2 ^ 64 -> conv_inv L v acc any ->
  let '(acc', any') :=
    if (any <? 0) || (L `div` base <? acc) || ((acc =? L `div` base) && (L `mod` base <? d))
    then (acc, -1) else (u64 (u64 (acc * base) + d), 1) in
  conv_inv L (v * base + d) acc' any' /\ any' <> 0.
Proof.
  intros Hb Hd HL [Hv H]. pose proof (Z.div_mod L base ltac:(lia)) as HLd.
  pose proof (Z.mod_pos_bound L base ltac:(lia)) as HLm.
  destruct (Z.ltb_spec any 0) as [Hneg|Hpos]; simpl.
  { split; [|lia]. split; [nia|left]. nia. }
  destruct H as [|(_ & -> & Hle)]; [lia|].
  destruct (Z.ltb_spec (L `div` base) v); simpl.
  { split; [|lia]. split; [nia|left]. nia. }
  destruct (Z.eqb_spec v (L `div` base)) as [->|]; simpl.
  - destruct (Z.ltb_spec (L `mod` base) d); [split; [|lia]; split; [nia|left]; nia|].
    rewrite !u64_small by (rewrite ?u64_small; nia).
    split; [|lia]. split; [nia|right]. nia.
  - rewrite !u64_small by (rewrite ?u64_small; nia).
    split; [|lia]. split; [nia|right]. nia.
Qed.

Lemma conv_spec fuel base L q l1 v acc any ds rest :
  at_text m p l l1 q -> (length l1 < fuel)%nat -> 2 <= base <= 36 -> 0 <= L < 2 ^ 64 ->
  span (digit_in base) l1 = (ds, rest) -> conv_inv L v acc any ->
  exists acc' any' q',
    conv fuel base (L `div` base) (L `mod` base) (s8 (first l1)) (q + 1) acc any m =
      Ret ((acc', any', q' + 1), m) /\
    at_text m p l rest q' /\
    conv_inv L (fold_left (fun v b => v * base + digit_value b) ds v) acc' any' /\
    (any' = 0 <-> any = 0 /\ ds = []).
Proof.
  revert q l1 v acc any ds. induction fuel as [|fuel IH];
    intros q l1 v acc any ds Ht Hf Hb HL Hs Hi; [lia|]. cbn [conv].
  destruct l1 as [|b l1]; simpl in Hs.
  { simplify_eq. change (digit (s8 (first []))) with (@None Z).
    exists acc, any, q. split; [done|]. split; [done|]. split; [done|]. tauto. }
  simpl. unfold digit_in, digit_value in *.
  destruct (digit (s8 b)) as [d|] eqn:Ed; simpl in *;
    [|simplify_eq; exists acc, any, q; tauto].
  pose proof (digit_nonneg _ _ Ed).
  destruct (Z.leb_spec base d); simpl in *.
  { rewrite (proj2 (Z.ltb_ge _ _)) in Hs by lia. simplify_eq. exists acc, any, q. tauto. }
  rewrite (proj2 (Z.ltb_lt _ _)) in Hs by lia.
  destruct (span _ l1) as [ds' rest'] eqn:Es. simplify_eq.
  pose proof (at_text_next _ _ _ _ _ _ Ht) as Ht1. pose proof Ht1 as (_ & Hc1 & _).
  pose proof (conv_inv_step L base d v acc any ltac:(lia) ltac:(lia) HL Hi) as Hstep.
  match type of Hstep with match ?t with _ => _ end => destruct t as [acc1 any1] end.
  destruct Hstep as [Hstep Hany].
  rewrite (mbind_run _ _ _ _ _ (loadc_run _ _ _ Hc1)).
  destruct (IH (q + 1) l1 (v * base + d) acc1 any1 ds') as (acc' & any' & q' & E & ? & ? & Hz);
    [done|simpl in Hf; lia|done..|].
  exists acc', any', q'. split; [done|]. simpl. rewrite Ed. split; [done|]. split; [done|].
  rewrite Hz. split; [tauto|by intros [_ [=]]].
Qed.
End Scan.

(** Everything before the conversion loop, and the loop itself, at once. *)
Lemma scan_spec fuel m nptr base l neg radix ds rest :
  wf_mem m -> cstring m nptr l -> (length l < fuel)%nat ->
  ref_parse base l = (neg, radix, ds, rest) ->
  exists c1 s1 c2 s2 c3 s3,
    skip_space fuel nptr m = Ret ((c1, s1), m) /\
    read_sign c1 s1 m = Ret ((neg, c2, s2), m) /\
    read_prefix base c2 s2 m = Ret ((radix, c3, s3), m) /\
    forall L, 2 <= radix <= 36 -> 0 <= L < 2 ^ 64 ->
    exists acc any,
      conv fuel radix (L `div` radix) (L `mod` radix) c3 s3 0 0 m =
        Ret ((acc, any, nptr + Z.of_nat (length l - length rest) + 1), m) /\
      conv_inv L (digits_value radix ds) acc any /\ (any = 0 <-> ds = []).
Proof.
  intros Hwf Hc Hf. unfold ref_parse.
  destruct (skip_space_spec m nptr l Hwf fuel nptr l) as (q1 & E1 & T1);
    [by apply at_text_start|done|].
  destruct (ref_sign _) as [neg' l1] eqn:S2.
  destruct (read_sign_spec m nptr l Hwf q1 _ _ _ T1 S2) as (q2 & E2 & T2).
  destruct (ref_prefix base l1) as [radix' l2] eqn:S3.
  destruct (read_prefix_spec m nptr l Hwf base q2 _ _ _ T2 S3) as (q3 & E3 & T3).
  destruct (span (digit_in radix') l2) as [ds' rest'] eqn:S4. intros [= -> -> -> ->].
  do 6 eexists. split; [exact E1|]. split; [exact E2|]. split; [exact E3|].
  intros L Hr HL. pose proof T3 as (_ & _ & Hlen).
  destruct (conv_spec m nptr l fuel radix L q3 l2 0 0 0 ds rest)
    as (acc & any & q4 & E4 & (-> & _) & Hi & Hz); [done|lia|done..| |].
  { split; [lia|right]. lia. }
  exists acc, any. split; [exact E4|]. split; [exact Hi|]. rewrite Hz. tauto.
Qed.

(** ** Properties *)

(** strtol on every NUL-terminated string, for every base: it terminates,
    leaves memory unchanged, and returns the value, end pointer and errno of
    the reference conversion: leading white space, sign, radix prefix, the
    longest run of digits valued without overflow and saturated to
    LONG_MIN..LONG_MAX with ERANGE; EINVAL, 0 and the start of the string when
    there is no digit or the base is not 0 or 2..36. *)
Theorem strtol_correct fuel m nptr base l :
  wf_mem m -> cstring m nptr l -> (length l < fuel)%nat ->
  strtol fuel nptr base m = Ret (ref_strtol nptr base l, m).
Proof.
  intros Hwf Hc Hf. unfold ref_strtol.
  destruct (ref_parse base l) as [[[neg radix] ds] rest] eqn:P.
  destruct (scan_spec _ _ _ _ _ _ _ _ _ Hwf Hc Hf P)
    as (c1 & s1 & c2 & s2 & c3 & s3 & E1 & E2 & E3 & H4).
  unfold strtol. rewrite (mbind_run _ _ _ _ _ E1), (mbind_run _ _ _ _ _ E2),
    (mbind_run _ _ _ _ _ E3).
  destruct ((radix <? 2) || (36 <? radix)) eqn:R; simpl; [done|].
  apply orb_false_iff in R as [R1%Z.ltb_ge R2%Z.ltb_ge].
  set (L := if neg then u64 (- (LONG_MIN + LONG_MAX) + LONG_MAX) else LONG_MAX).
  assert (HL : L = if neg then 2 ^ 63 else 2 ^ 63 - 1) by (subst L; destruct neg; reflexivity).
  destruct (H4 L) as (acc & any & E4 & [Hv Hi] & Hz); [lia|rewrite HL; destruct neg; lia|].
  rewrite (mbind_run _ _ _ _ _ E4). clear E1 E2 E3 H4 E4.
  replace (nptr + Z.of_nat (length l - length rest) + 1 - 1)
    with (nptr + Z.of_nat (length l - length rest)) by lia.
  destruct ds as [|d ds].
  { assert (any = 0) as -> by (by apply Hz).
    destruct Hi as [[? _]|(_ & -> & _)]; [done|]. reflexivity. }
  assert (any <> 0) as Hnz by (rewrite Hz; done). cbn [length Nat.eqb].
  rewrite (proj2 (nz_true any) Hnz). revert Hv Hi.
  generalize (digits_value radix (d :: ds)) as v. intros v Hv Hi. unfold LONG_MIN, LONG_MAX.
  destruct Hi as [[-> HLv]|([->| ->] & -> & HLv)]; [|done|]; simpl; rewrite HL in HLv;
    destruct neg; unfold mret, M_ret; repeat f_equal;
    repeat case_match; rewrite ?Z.ltb_lt, ?Z.ltb_ge in *; try lia; try done.
  - rewrite s64_u64, s64_small by lia. done.
  - rewrite s64_small by lia. done.
Qed.

Lemma strtol_correct_witness :
  strtol 9 100 10 (mem_of 100 [32; 45; 49; 50; 120; 0]) =
    Ret (Conv (-12) 104 None, mem_of 100 [32; 45; 49; 50; 120; 0]).
Proof.
  refine (eq_trans (strtol_correct 9 _ 100 10 [32; 45; 49; 50; 120] _ _ _) _).
  - apply wf_mem_of. repeat constructor; unfold is_byte; lia.
  - apply write_cstring. repeat constructor; done.
  - simpl. lia.
  - vm_compute. reflexivity.
Defined.

(** strtoul on every NUL-terminated string: the digits are valued without
    overflow, saturated to ULONG_MAX with ERANGE, and a minus sign negates the
    value modulo 2^64. *)
Theorem strtoul_correct fuel m nptr base l :
  wf_mem m -> cstring m nptr l -> (length l < fuel)%nat ->
  strtoul fuel nptr base m = Ret (ref_strtoul nptr base l, m).
Proof.
  intros Hwf Hc Hf. unfold ref_strtoul.
  destruct (ref_parse base l) as [[[neg radix] ds] rest] eqn:P.
  destruct (scan_spec _ _ _ _ _ _ _ _ _ Hwf Hc Hf P)
    as (c1 & s1 & c2 & s2 & c3 & s3 & E1 & E2 & E3 & H4).
  unfold strtoul. rewrite (mbind_run _ _ _ _ _ E1), (mbind_run _ _ _ _ _ E2),
    (mbind_run _ _ _ _ _ E3).
  destruct ((radix <? 2) || (36 <? radix)) eqn:R; simpl; [done|].
  apply orb_false_iff in R as [R1%Z.ltb_ge R2%Z.ltb_ge].
  destruct (H4 ULONG_MAX) as (acc & any & E4 & [Hv Hi] & Hz); [lia|unfold ULONG_MAX; lia|].
  rewrite (mbind_run _ _ _ _ _ E4). clear E1 E2 E3 H4 E4.
  replace (nptr + Z.of_nat (length l - length rest) + 1 - 1)
    with (nptr + Z.of_nat (length l - length rest)) by lia.
  destruct ds as [|d ds].
  { assert (any = 0) as -> by (by apply Hz).
    destruct Hi as [[? _]|(_ & -> & _)]; [done|]. reflexivity. }
  assert (any <> 0) as Hnz by (rewrite Hz; done). cbn [length Nat.eqb].
  rewrite (proj2 (nz_true any) Hnz).
  destruct Hi as [[-> HLv]|([->| ->] & -> & HLv)]; [|done|]; simpl; unfold mret, M_ret.
  - by rewrite (proj2 (Z.ltb_lt _ _) HLv).
  - by rewrite (proj2 (Z.ltb_ge _ _) HLv).
Qed.

Lemma strtoul_correct_witness :
  strtoul 9 100 0 (mem_of 100 [45; 48; 88; 49; 0]) =
    Ret (Conv (2 ^ 64 - 1) 104 None, mem_of 100 [45; 48; 88; 49; 0]).
Proof.
  refine (eq_trans (strtoul_correct 9 _ 100 0 [45; 48; 88; 49] _ _ _) _).
  - apply wf_mem_of. repeat constructor; unfold is_byte; lia.
  - apply write_cstring. repeat constructor; done.
  - simpl. lia.
  - vm_compute. reflexivity.
Defined.

Lemma htons_word2 a b : 0 <= a < 256 -> 0 <= b < 256 -> htons (a + 256 * b) = b + 256 * a.
Proof.
  intros Ha Hb. unfold htons.
  assert (E : Z.shiftr (a + 256 * b) 8 = b).
  { rewrite Z.shiftr_div_pow2 by lia. symmetry. apply (Z.div_unique _ _ _ a); [left|]; lia. }
  rewrite E, lor_shiftl_add by lia.
  symmetry. apply (Z.mod_unique _ _ b); lia.
Qed.

(** A 32-bit word as its four bytes, least significant first. *)
Definition word4 (a b c d : Z) : Z := a + 256 * b + 65536 * c + 16777216 * d.

Lemma word4_bytes v :
  0 <= v < 2 ^ 32 ->
  exists a b c d, is_byte a /\ is_byte b /\ is_byte c /\ is_byte d /\ v = word4 a b c d.
Proof.
  intros H. change (2 ^ 32) with 4294967296 in H. unfold is_byte, word4.
  exists (v `mod` 256), ((v `div` 256) `mod` 256), (((v `div` 256) `div` 256) `mod` 256),
    (((v `div` 256) `div` 256) `div` 256).
  repeat split; try (apply Z.mod_pos_bound; lia); Z.div_mod_to_equations; lia.
Qed.

Lemma word4_byte a b c d i :
  is_byte a -> is_byte b -> is_byte c -> is_byte d -> 0 <= i < 4 ->
  (word4 a b c d `div` 2 ^ (8 * i)) `mod` 2 ^ 8 =
  if i =? 0 then a else if i =? 1 then b else if i =? 2 then c else d.
Proof.
  unfold is_byte, word4. intros Ha Hb Hc Hd Hi.
  assert (i = 0 \/ i = 1 \/ i = 2 \/ i = 3) as [->|[->|[->| ->]]] by lia; simpl.
  - change (2 ^ (8 * 0)) with 1. rewrite Z.div_1_r. symmetry.
    apply (Z.mod_unique _ _ (b + 256 * c + 65536 * d)); lia.
  - symmetry. apply (Z.mod_unique _ _ (c + 256 * d)); [lia|].
    symmetry. apply (Z.div_unique _ _ _ a); [left|]; change (2 ^ (8 * 1)) with 256; lia.
  - symmetry. apply (Z.mod_unique _ _ d); [lia|].
    symmetry. apply (Z.div_unique _ _ _ (a + 256 * b)); [left|]; change (2 ^ (8 * 2)) with 65536; lia.
  - symmetry. apply (Z.mod_unique _ _ 0); [lia|].
    symmetry. apply (Z.div_unique _ _ _ (a + 256 * b + 65536 * c)); [left|];
      change (2 ^ (8 * 3)) with 16777216; lia.
Qed.

Lemma htonl_word4 a b c d :
  is_byte a -> is_byte b -> is_byte c -> is_byte d -> htonl (word4 a b c d) = word4 d c b a.
Proof.
  unfold is_byte. intros Ha Hb Hc Hd. unfold htonl.
  assert (E1 : u16 (word4 a b c d) = a + 256 * b).
  { symmetry. apply (Z.mod_unique _ _ (c + 256 * d)); unfold word4; lia. }
  assert (E2 : u16 (Z.shiftr (word4 a b c d) 16) = c + 256 * d).
  { rewrite Z.shiftr_div_pow2 by lia. rewrite <- (Z.div_unique _ _ (c + 256 * d) (a + 256 * b));
      [apply u16_small|left|unfold word4]; lia. }
  rewrite E1, E2, !htons_word2 by done.
  rewrite lor_shiftl_add by lia. unfold word4. rewrite u32_small; lia.
Qed.

(** htonl stores the four bytes of its argument in the opposite order, and
    ntohl undoes it; the same for htons and ntohs. *)
Theorem byte_order_roundtrip v w :
  0 <= v < 2 ^ 32 -> 0 <= w < 2 ^ 16 ->
  0 <= htonl v < 2 ^ 32 /\ ntohl (htonl v) = v /\
  (forall i, 0 <= i < 4 ->
    (htonl v `div` 2 ^ (8 * i)) `mod` 2 ^ 8 = (v `div` 2 ^ (8 * (3 - i))) `mod` 2 ^ 8) /\
  ntohs (htons w) = w.
Proof.
  intros Hv Hw. unfold ntohl, ntohs. split; [apply u32_range|].
  destruct (word4_bytes v Hv) as (a & b & c & d & Ha & Hb & Hc & Hd & ->).
  rewrite htonl_word4 by done. split; [by apply htonl_word4|]. split.
  - intros i Hi. rewrite !word4_byte by (done || lia).
    assert (i = 0 \/ i = 1 \/ i = 2 \/ i = 3) as [->|[->|[->| ->]]] by lia; done.
  - rewrite (Z.div_mod w 256) by lia. rewrite Z.add_comm.
    pose proof (Z.mod_pos_bound w 256 ltac:(lia)).
    assert (0 <= w `div` 256 < 256) by (split; [apply Z.div_pos; lia|apply Z.div_lt_upper_bound; lia]).
    rewrite !htons_word2 by done. lia.
Qed.

Lemma byte_order_roundtrip_witness : ntohl (htonl 305419896) = 305419896.
Proof. destruct (byte_order_roundtrip 305419896 258) as (_ & E & _); [lia|lia|exact E]. Defined.

(** tolower and toupper change exactly the letters, to the other case. *)
Lemma tolower_spec ch :
  - 2 ^ 31 <= ch < 2 ^ 31 -> tolower ch = if (65 <=? ch) && (ch <=? 90) then ch + 32 else ch.
Proof.
  intros H. unfold tolower, u32.
  destruct (Z.leb_spec 65 ch), (Z.leb_spec ch 90); simpl;
    destruct (Z.ltb_spec ((ch - 65) `mod` 2 ^ 32) 26) as [B|B]; try lia;
    revert B; change (2 ^ 32) with 4294967296; Z.div_mod_to_equations; lia.
Qed.
End LibcNum.
