(* ===== verification/PosixState.v ===== *)
(** * POSIX model: data

    The data the POSIX layer of the run time keeps (runtime/POSIX/fd.h): disk
    files with their [stat64], the table of 32 file descriptors, the file system
    record with the failure-injection settings, the process environment; the
    host kernel as an interface; and the accessors the operations are written
    with. A pointer to a disk file is a [dref]; a pointer into the descriptor
    table is its index; user buffers and path names are addresses of the
    program's memory. *)
From stdpp Require Import base gmap list numbers strings.
From Stdlib Require Import ZArith Lia.
From S2P Require Import Prelude CMem.

(** ** Constants of the platform headers (Linux, x86-64) *)
Definition EPERM := 1.
Definition ENOENT := 2.
Definition EIO := 5.
Definition EBADF := 9.
Definition ECHILD := 10.
Definition ENOMEM := 12.
Definition EACCES := 13.
Definition EFAULT := 14.
Definition EEXIST := 17.
Definition ENOTDIR := 20.
Definition EISDIR := 21.
Definition EINVAL := 22.
Definition ENFILE := 23.
Definition EMFILE := 24.
Definition ENOTTY := 25.
Definition ENOSPC := 28.
Definition ERANGE := 34.
Definition EAFNOSUPPORT := 97.

Definition O_RDONLY := 0.
Definition O_WRONLY := 1.
Definition O_RDWR := 2.
Definition O_ACCMODE := 3.
Definition O_CREAT := 64.
Definition O_EXCL := 128.
Definition O_TRUNC := 512.
Definition AT_FDCWD := -100.
Definition SEEK_SET := 0.
Definition SEEK_CUR := 1.
Definition SEEK_END := 2.

Definition S_IFMT := 61440.
Definition S_IFCHR := 8192.
Definition S_IFDIR := 16384.
Definition S_IFREG := 32768.
Definition S_IFLNK := 40960.
Definition S_ISGID := 1024.
Definition S_ISCHR (m : Z) : bool := Z.land m S_IFMT =? S_IFCHR.
Definition S_ISDIR (m : Z) : bool := Z.land m S_IFMT =? S_IFDIR.
Definition S_ISREG (m : Z) : bool := Z.land m S_IFMT =? S_IFREG.
Definition S_ISLNK (m : Z) : bool := Z.land m S_IFMT =? S_IFLNK.

(** ** struct stat64, with its representation in memory (144 bytes) *)
Record stat64 : Type := Stat64 {
  st_dev : Z; st_ino : Z; st_nlink : Z; st_mode : Z; st_uid : Z; st_gid : Z;
  st_pad0 : Z; st_rdev : Z; st_size : Z; st_blksize : Z; st_blocks : Z;
  st_atime : Z; st_atimensec : Z; st_mtime : Z; st_mtimensec : Z;
  st_ctime : Z; st_ctimensec : Z;
  st_reserved0 : Z; st_reserved1 : Z; st_reserved2 : Z
}.

Definition sizeof_stat64 : nat := 144.

Definition stat_bytes (s : stat64) : list Z :=
  le_bytes 8 (st_dev s) ++ le_bytes 8 (st_ino s) ++ le_bytes 8 (st_nlink s) ++
  le_bytes 4 (st_mode s) ++ le_bytes 4 (st_uid s) ++ le_bytes 4 (st_gid s) ++
  le_bytes 4 (st_pad0 s) ++ le_bytes 8 (st_rdev s) ++ le_bytes 8 (st_size s) ++
  le_bytes 8 (st_blksize s) ++ le_bytes 8 (st_blocks s) ++
  le_bytes 8 (st_atime s) ++ le_bytes 8 (st_atimensec s) ++
  le_bytes 8 (st_mtime s) ++ le_bytes 8 (st_mtimensec s) ++
  le_bytes 8 (st_ctime s) ++ le_bytes 8 (st_ctimensec s) ++
  le_bytes 8 (st_reserved0 s) ++ le_bytes 8 (st_reserved1 s) ++ le_bytes 8 (st_reserved2 s).

(** The unsigned field of [n] bytes at offset [o] of an object. *)
Definition field (l : list Z) (o n : nat) : Z := le_value (take n (drop o l)).

Definition stat_of_bytes (l : list Z) : stat64 := {|
  st_dev := field l 0 8; st_ino := field l 8 8; st_nlink := field l 16 8;
  st_mode := field l 24 4; st_uid := field l 28 4; st_gid := field l 32 4;
  st_pad0 := field l 36 4; st_rdev := field l 40 8; st_size := s64 (field l 48 8);
  st_blksize := s64 (field l 56 8); st_blocks := s64 (field l 64 8);
  st_atime := s64 (field l 72 8); st_atimensec := s64 (field l 80 8);
  st_mtime := s64 (field l 88 8); st_mtimensec := s64 (field l 96 8);
  st_ctime := s64 (field l 104 8); st_ctimensec := s64 (field l 112 8);
  st_reserved0 := s64 (field l 120 8); st_reserved1 := s64 (field l 128 8);
  st_reserved2 := s64 (field l 136 8) |}.

Definition set_st_ino (v : Z) (s : stat64) : stat64 :=
  Stat64 (st_dev s) v (st_nlink s) (st_mode s) (st_uid s) (st_gid s) (st_pad0 s) (st_rdev s)
    (st_size s) (st_blksize s) (st_blocks s) (st_atime s) (st_atimensec s) (st_mtime s)
    (st_mtimensec s) (st_ctime s) (st_ctimensec s) (st_reserved0 s) (st_reserved1 s)
    (st_reserved2 s).
Definition set_st_mode (v : Z) (s : stat64) : stat64 :=
  Stat64 (st_dev s) (st_ino s) (st_nlink s) v (st_uid s) (st_gid s) (st_pad0 s) (st_rdev s)
    (st_size s) (st_blksize s) (st_blocks s) (st_atime s) (st_atimensec s) (st_mtime s)
    (st_mtimensec s) (st_ctime s) (st_ctimensec s) (st_reserved0 s) (st_reserved1 s)
    (st_reserved2 s).
Definition set_st_size_blocks (sz bl : Z) (s : stat64) : stat64 :=
  Stat64 (st_dev s) (st_ino s) (st_nlink s) (st_mode s) (st_uid s) (st_gid s) (st_pad0 s)
    (st_rdev s) sz (st_blksize s) bl (st_atime s) (st_atimensec s) (st_mtime s)
    (st_mtimensec s) (st_ctime s) (st_ctimensec s) (st_reserved0 s) (st_reserved1 s)
    (st_reserved2 s).
Definition set_st_times (at_ at_ns mt mt_ns : Z) (s : stat64) : stat64 :=
  Stat64 (st_dev s) (st_ino s) (st_nlink s) (st_mode s) (st_uid s) (st_gid s) (st_pad0 s)
    (st_rdev s) (st_size s) (st_blksize s) (st_blocks s) at_ at_ns mt mt_ns
    (st_ctime s) (st_ctimensec s) (st_reserved0 s) (st_reserved1 s) (st_reserved2 s).

(** ** exe_disk_file_t, exe_file_t *)
Record exe_disk_file : Type := DiskFile {
  df_size : Z;
  df_contents : list Z;
  df_stat : stat64
}.

(** A non-null [exe_disk_file_t *]: an element of [sym_files], or the object
    [sym_stdin] or [sym_stdout] points to. *)
Inductive dref : Type := DSym (i : nat) | DStdin | DStdout.

#[export] Instance dref_eq_dec : EqDecision dref.
Proof. solve_decision. Defined.

Definition eOpen := 1.
Definition eCloseOnExec := 2.
Definition eReadable := 4.
Definition eWriteable := 8.

Record exe_file : Type := File {
  f_fd : Z;
  f_flags : Z;
  f_off : Z;
  f_dfile : option dref
}.

(** [memset(f, 0, sizeof *f)] *)
Definition zero_file : exe_file := File 0 0 0 None.

Definition is_open (f : exe_file) : bool := nz (Z.land (f_flags f) eOpen).

(** ** exe_file_system_t

    The [int *X_fail] pointers are [None] for NULL, [Some v] for a pointer to
    the value [v]. *)
Record exe_file_system : Type := FileSystem {
  n_sym_files : Z;
  sym_stdin : option exe_disk_file;
  sym_stdout : option exe_disk_file;
  stdout_writes : Z;
  sym_files : list exe_disk_file;
  max_failures : Z;
  read_fail : option Z;
  write_fail : option Z;
  close_fail : option Z;
  ftruncate_fail : option Z;
  getcwd_fail : option Z;
  chmod_fail : option Z;
  fchmod_fail : option Z
}.

(** ** exe_sym_env_t *)
Definition MAX_FDS := 32.

Record exe_sym_env : Type := SymEnv {
  fds : list exe_file;
  umask_ : Z;
  version : Z;
  save_all_writes : Z
}.

(** The functions with a [static int n_calls] counter. *)
Inductive counted : Type :=
  | CClose | CRead | CWrite | CChmod | CFchmod | CFtruncate | CGetcwd.

#[export] Instance counted_eq_dec : EqDecision counted.
Proof. solve_decision. Defined.

Record calls : Type := Calls {
  n_close : Z; n_read : Z; n_write : Z; n_chmod : Z; n_fchmod : Z; n_ftruncate : Z; n_getcwd : Z
}.

Definition n_calls (k : counted) (c : calls) : Z :=
  match k with
  | CClose => n_close c | CRead => n_read c | CWrite => n_write c | CChmod => n_chmod c
  | CFchmod => n_fchmod c | CFtruncate => n_ftruncate c | CGetcwd => n_getcwd c
  end.

(** [n_calls++] on an [int]. *)
Definition bump (k : counted) (c : calls) : calls :=
  let i j := if decide (k = j) then s32 (n_calls j c + 1) else n_calls j c in
  Calls (i CClose) (i CRead) (i CWrite) (i CChmod) (i CFchmod) (i CFtruncate) (i CGetcwd).

Definition fail_ptr (k : counted) (fs : exe_file_system) : option Z :=
  match k with
  | CClose => close_fail fs | CRead => read_fail fs | CWrite => write_fail fs
  | CChmod => chmod_fail fs | CFchmod => fchmod_fail fs | CFtruncate => ftruncate_fail fs
  | CGetcwd => getcwd_fail fs
  end.

(** ** The host kernel and the executor, as an interface

    [syscall] performs a system call on the host: it may write the program's
    memory and change the host's state; [os_select] is the select system call on
    the three descriptor sets the run time keeps in local variables.
    [klee_get_valuel] is the concrete value
    the executor picks for an expression, [os_symbolic name n] the [n] bytes a
    symbolic object has on this path, [os_is_symbolic] the answer of
    [klee_is_symbolic]; [bsd_source] says whether the build defines
    [_BSD_SOURCE]. [malloc n] returns the address of [n]
    fresh bytes, or 0. The names of the system calls the run time makes are the
    constructors of [sysno]. *)
Inductive sysno : Type :=
  | NR_access | NR_open | NR_openat | NR_utimes | NR_futimesat | NR_read | NR_pread64
  | NR_write | NR_pwrite64 | NR_lseek | NR_stat | NR_newfstatat | NR_lstat | NR_chdir
  | NR_fchdir | NR_chmod | NR_fchmod | NR_chown | NR_fchown | NR_fstat | NR_ftruncate
  | NR_getdents64 | NR_ioctl | NR_fcntl | NR_statfs | NR_fstatfs | NR_fsync | NR_readlink
  | NR_select | NR_getcwd.

Class Kernel (OS : Type) : Type := {
  os_syscall : sysno -> list Z -> mem -> OS -> Z * mem * OS;
  os_select : Z -> list Z -> list Z -> list Z -> OS ->
    Z * (list Z * list Z * list Z) * OS;
  os_errno : OS -> Z;
  os_geteuid : OS -> Z;
  os_getgid : OS -> Z;
  os_getegid : OS -> Z;
  os_gettimeofday : OS -> Z * Z;
  os_malloc : Z -> mem -> OS -> Z * mem * OS;
  os_symbolic : string -> Z -> OS -> list Z * OS;
  os_is_symbolic : Z -> OS -> bool;
  klee_get_valuel : Z -> OS -> Z;
  bsd_source : bool
}.

(** ** The state of a process on one path *)
Record world (OS : Type) : Type := World {
  w_fs : exe_file_system;
  w_env : exe_sym_env;
  w_errno : Z;
  w_calls : calls;
  w_mem : mem;
  w_os : OS
}.
Arguments World {OS}.
Arguments w_fs {OS}.
Arguments w_env {OS}.
Arguments w_errno {OS}.
Arguments w_calls {OS}.
Arguments w_mem {OS}.
Arguments w_os {OS}.

Section Access.
Context {OS : Type}.
Abbreviation W := (world OS).

Definition set_fs (x : exe_file_system) (w : W) : W :=
  World x (w_env w) (w_errno w) (w_calls w) (w_mem w) (w_os w).
Definition set_env (x : exe_sym_env) (w : W) : W :=
  World (w_fs w) x (w_errno w) (w_calls w) (w_mem w) (w_os w).
Definition set_errno_w (x : Z) (w : W) : W :=
  World (w_fs w) (w_env w) x (w_calls w) (w_mem w) (w_os w).
Definition set_calls (x : calls) (w : W) : W :=
  World (w_fs w) (w_env w) (w_errno w) x (w_mem w) (w_os w).
Definition set_mem (x : mem) (w : W) : W :=
  World (w_fs w) (w_env w) (w_errno w) (w_calls w) x (w_os w).
Definition set_os (x : OS) (w : W) : W :=
  World (w_fs w) (w_env w) (w_errno w) (w_calls w) (w_mem w) x.

(** Disk files through their pointers. *)
Definition lookup_df (fs : exe_file_system) (d : dref) : option exe_disk_file :=
  match d with
  | DSym i => sym_files fs !! i
  | DStdin => sym_stdin fs
  | DStdout => sym_stdout fs
  end.

Definition update_df (d : dref) (x : exe_disk_file) (fs : exe_file_system) : exe_file_system :=
  FileSystem (n_sym_files fs)
    (match d with DStdin => Some x | _ => sym_stdin fs end)
    (match d with DStdout => Some x | _ => sym_stdout fs end)
    (stdout_writes fs)
    (match d with DSym i => <[i := x]> (sym_files fs) | _ => sym_files fs end)
    (max_failures fs) (read_fail fs) (write_fail fs) (close_fail fs) (ftruncate_fail fs)
    (getcwd_fail fs) (chmod_fail fs) (fchmod_fail fs).

Definition set_max_failures (v : Z) (fs : exe_file_system) : exe_file_system :=
  FileSystem (n_sym_files fs) (sym_stdin fs) (sym_stdout fs) (stdout_writes fs) (sym_files fs)
    v (read_fail fs) (write_fail fs) (close_fail fs) (ftruncate_fail fs)
    (getcwd_fail fs) (chmod_fail fs) (fchmod_fail fs).

Definition set_stdout_writes (v : Z) (fs : exe_file_system) : exe_file_system :=
  FileSystem (n_sym_files fs) (sym_stdin fs) (sym_stdout fs) v (sym_files fs)
    (max_failures fs) (read_fail fs) (write_fail fs) (close_fail fs) (ftruncate_fail fs)
    (getcwd_fail fs) (chmod_fail fs) (fchmod_fail fs).

Definition set_fds (l : list exe_file) (e : exe_sym_env) : exe_sym_env :=
  SymEnv l (umask_ e) (version e) (save_all_writes e).
Definition set_umask (m : Z) (e : exe_sym_env) : exe_sym_env :=
  SymEnv (fds e) m (version e) (save_all_writes e).

(** Replace the bytes of [l] from index [o] by [x]. *)
Definition splice (l : list Z) (o : nat) (x : list Z) : list Z :=
  take o l ++ x ++ drop (o + length x) l.

Definition set_contents (l : list Z) (x : exe_disk_file) : exe_disk_file :=
  DiskFile (df_size x) l (df_stat x).
Definition set_stat (s : stat64) (x : exe_disk_file) : exe_disk_file :=
  DiskFile (df_size x) (df_contents x) s.

Definition get_df (d : dref) : M W exe_disk_file :=
  fs ← gets w_fs; of_option (lookup_df fs d).
Definition set_df (d : dref) (x : exe_disk_file) : M W unit :=
  modify (fun w => set_fs (update_df d x (w_fs w)) w).

(** [__exe_env.fds[i]] *)
Definition get_f (i : Z) : M W exe_file :=
  e ← gets w_env; of_option (fds e !! Z.to_nat i).
Definition set_f (i : Z) (x : exe_file) : M W unit :=
  modify (fun w => set_env (set_fds (<[Z.to_nat i := x]> (fds (w_env w))) (w_env w)) w).
Definition set_off (i : Z) (v : Z) : M W unit :=
  f ← get_f i; set_f i (File (f_fd f) (f_flags f) (s64 v) (f_dfile f)).
Definition set_flags (i : Z) (v : Z) : M W unit :=
  f ← get_f i; set_f i (File (f_fd f) (u32 v) (f_off f) (f_dfile f)).

Definition set_errno (e : Z) : M W unit := modify (set_errno_w e).
(** [errno = e; return -1;] *)
Definition fail (e : Z) : M W Z := set_errno e;; mret (-1).
Definition count_call (k : counted) : M W unit :=
  modify (fun w => set_calls (bump k (w_calls w)) w).

(** Accesses to the program's memory. *)
Definition on_mem {A} (m : M mem A) : M W A := zoom w_mem set_mem m.

(** The executor's intrinsics: a warning only goes to the executor's log; an
    assumption that is false ends the path. *)
Definition klee_warning (msg : string) : M W unit := mret tt.
Definition klee_warning_once (msg : string) : M W unit := mret tt.
Definition klee_assume (b : bool) : M W unit := if b then mret tt else halt AssumeFailed.

(** [klee_check_memory_access]: every byte of the range must be accessible. *)
Definition accessible_b (m : mem) (p n : Z) : bool :=
  forallb (fun i => bool_decide (is_Some (m !! (p + Z.of_nat i)))) (seq 0 (Z.to_nat n)).
Definition klee_check_memory_access (p n : Z) : M W unit :=
  m ← gets w_mem; if accessible_b m p n then mret tt else halt MemError.

(** [df->stat->field = ...;] *)
Definition upd_stat (d : dref) (g : stat64 -> stat64) : M W unit :=
  x ← get_df d; set_df d (set_stat (g (df_stat x)) x).

(** [memcpy(buf, df->contents + off, n)] and [memcpy(df->contents + off, buf, n)]:
    the object [df->contents] has [length contents] bytes. *)
Definition in_contents (x : exe_disk_file) (off n : Z) : bool :=
  (n =? 0) || ((0 <=? off) && (off + n <=? Z.of_nat (length (df_contents x)))).

Definition copy_out (d : dref) (off buf n : Z) : M W unit :=
  x ← get_df d;
  if in_contents x off n
  then on_mem (store_bytes buf (take (Z.to_nat n) (drop (Z.to_nat off) (df_contents x))))
  else halt MemError.

Definition copy_in (d : dref) (off buf n : Z) : M W unit :=
  x ← get_df d;
  if in_contents x off n
  then l ← on_mem (load_bytes (Z.to_nat n) buf);
       set_df d (set_contents (splice (df_contents x) (Z.to_nat off) l) x)
  else halt MemError.

Context {K : Kernel OS}.

Definition sys (nr : sysno) (args : list Z) : M W Z := fun w =>
  let '(r, m, o) := os_syscall nr args (w_mem w) (w_os w) in
  Ret (s64 r, set_os o (set_mem m w)).

(** [errno = klee_get_errno();] *)
Definition errno_from_os : M W unit :=
  o ← gets w_os; set_errno (os_errno o).

(** [int r = syscall(...); if (r == -1) errno = klee_get_errno(); return r;] *)
Definition sys_int (nr : sysno) (args : list Z) : M W Z :=
  r ← sys nr args;
  let r := s32 r in
  (if r =? -1 then errno_from_os else mret tt);; mret r.

Definition sys_select (nfds : Z) (r w e : list Z) : M W (Z * (list Z * list Z * list Z)) :=
  fun s => let '(res, sets, o) := os_select nfds r w e (w_os s) in Ret ((s64 res, sets), set_os o s).

Definition geteuid : M W Z := o ← gets w_os; mret (u32 (os_geteuid o)).
Definition getgid : M W Z := o ← gets w_os; mret (u32 (os_getgid o)).
Definition getegid : M W Z := o ← gets w_os; mret (u32 (os_getegid o)).

(** [klee_make_symbolic(p, n, name)]: the bytes the object takes. *)
Definition make_symbolic (name : string) (n : Z) : M W (list Z) := fun w =>
  let '(l, o) := os_symbolic name n (w_os w) in Ret (l, set_os o w).

Definition malloc (n : Z) : M W Z := fun w =>
  let '(p, m, o) := os_malloc n (w_mem w) (w_os w) in Ret (p, set_os o (set_mem m w)).

End Access.

(** ** Lemmas on the representation *)

Lemma n_calls_bump j k c :
  n_calls j (bump k c) = if decide (k = j) then s32 (n_calls j c + 1) else n_calls j c.
Proof. by destruct j. Qed.

Lemma length_stat_bytes s : length (stat_bytes s) = sizeof_stat64.
Proof. unfold stat_bytes. by rewrite !length_app, !length_le_bytes. Qed.

Lemma stat_bytes_byte s : Forall is_byte (stat_bytes s).
Proof. unfold stat_bytes. rewrite !Forall_app. repeat split; apply le_bytes_byte. Qed.

(** Fields in the range of their types. *)
Definition is_u32 (z : Z) : Prop := 0 <= z < 4294967296.
Definition is_u64 (z : Z) : Prop := 0 <= z < 18446744073709551616.
Definition is_s64 (z : Z) : Prop := - 9223372036854775808 <= z < 9223372036854775808.
Definition is_s32 (z : Z) : Prop := - 2147483648 <= z < 2147483648.

Definition wf_stat (s : stat64) : Prop :=
  (is_u64 (st_dev s) /\ is_u64 (st_ino s) /\ is_u64 (st_nlink s) /\ is_u32 (st_mode s) /\
   is_u32 (st_uid s) /\ is_u32 (st_gid s) /\ is_u32 (st_pad0 s) /\ is_u64 (st_rdev s)) /\
  (is_s64 (st_size s) /\ is_s64 (st_blksize s) /\ is_s64 (st_blocks s)) /\
  (is_s64 (st_atime s) /\ is_s64 (st_atimensec s) /\ is_s64 (st_mtime s) /\
   is_s64 (st_mtimensec s) /\ is_s64 (st_ctime s) /\ is_s64 (st_ctimensec s)) /\
  (is_s64 (st_reserved0 s) /\ is_s64 (st_reserved1 s) /\ is_s64 (st_reserved2 s)).

Lemma stat_roundtrip s : wf_stat s -> stat_of_bytes (stat_bytes s) = s.
Proof.
  intros ((?&?&?&?&?&?&?&?)&(?&?&?)&(?&?&?&?&?&?)&(?&?&?)).
  destruct s as [dev ino nlink mode uid gid pad0 rdev size blksize blocks at_ atn mt mtn ct ctn
    r0 r1 r2]; simpl in *.
  assert (Hu4 : forall z, is_u32 z -> le_value (le_bytes 4 z) = z).
  { intros z Hz. rewrite le_value_bytes. by apply u32_small. }
  assert (Hu8 : forall z, is_u64 z -> le_value (le_bytes 8 z) = z).
  { intros z Hz. rewrite le_value_bytes. by apply u64_small. }
  assert (Hs : forall z, is_s64 z -> s64 (le_value (le_bytes 8 z)) = z).
  { intros z Hz. rewrite le_value_bytes. change (s64 (u64 z) = z).
    rewrite s64_u64. by apply s64_small. }
  unfold stat_of_bytes. f_equal; first [by apply Hu8|by apply Hu4|by apply Hs].
Qed.

Lemma length_splice l o x :
  (o + length x <= length l)%nat -> length (splice l o x) = length l.
Proof. intros H. unfold splice. rewrite !length_app, length_take, length_drop. lia. Qed.

Lemma splice_byte l o x : Forall is_byte l -> Forall is_byte x -> Forall is_byte (splice l o x).
Proof.
  intros Hl Hx. unfold splice. rewrite !Forall_app.
  repeat split; [by apply Forall_take|done|by apply Forall_drop].
Qed.

(** The spliced bytes are read back, the others are unchanged. *)
Lemma splice_at l o x :
  (o + length x <= length l)%nat -> take (length x) (drop o (splice l o x)) = x.
Proof.
  intros H. unfold splice. rewrite drop_app_ge by (rewrite length_take; lia).
  rewrite length_take. replace (o - o `min` length l)%nat with O by lia.
  rewrite drop_0. by rewrite take_app_length.
Qed.

Lemma splice_out l o x i :
  (o + length x <= length l)%nat -> (i < o \/ o + length x <= i)%nat ->
  splice l o x !! i = l !! i.
Proof.
  intros H Hi. unfold splice. destruct Hi as [Hi|Hi].
  - rewrite lookup_app_l by (rewrite length_take; lia). by rewrite lookup_take_lt.
  - rewrite lookup_app_r by (rewrite length_take; lia). rewrite length_take.
    rewrite lookup_app_r by lia. rewrite lookup_drop. f_equal. lia.
Qed.

Lemma lookup_update_df fs d x d' :
  is_Some (lookup_df fs d) ->
  lookup_df (update_df d x fs) d' = if decide (d = d') then Some x else lookup_df fs d'.
Proof.
  intros [y Hy]. destruct d as [i| |], d' as [j| |]; simpl; try done.
  rewrite list_lookup_insert. apply lookup_lt_Some in Hy.
  destruct (decide (i = j)) as [->|Hne].
  - rewrite !decide_True by done. done.
  - rewrite decide_False by tauto. by rewrite decide_False by naive_solver.
Qed.
