(* ===== verification/PosixInv.v ===== *)
(** * POSIX model: the invariant and its proof rules

    [wf] is the type invariant of the POSIX layer; [evolves] is what a call may
    do to the file system over time (sizes are fixed, a removed file stays
    removed, the failure budget never grows). [pres m] says that [m] keeps both;
    the rules of [pres], collected in the hint database [pres] and the tactic
    [solve_pres], follow the statements of a function body. *)
From stdpp Require Import base gmap list numbers strings.
From Stdlib Require Import ZArith Lia.
From S2P Require Import Prelude CMem PosixState.

(** ** The invariant *)
Record wf_df (x : exe_disk_file) : Prop := {
  wf_df_size : 0 < df_size x < 4294967296;
  wf_df_len : Z.of_nat (length (df_contents x)) = df_size x;
  wf_df_bytes : Forall is_byte (df_contents x);
  wf_df_stat : wf_stat (df_stat x);
  wf_df_st_size : st_size (df_stat x) = df_size x;
  wf_df_blksize : 0 <= st_blksize (df_stat x) < 65536
}.

Record wf_file (fs : exe_file_system) (f : exe_file) : Prop := {
  wf_f_fd : is_s32 (f_fd f);
  wf_f_flags : is_u32 (f_flags f);
  wf_f_off : is_s64 (f_off f);
  wf_f_dfile : forall d, f_dfile f = Some d -> is_Some (lookup_df fs d)
}.

Record wf_fs (fs : exe_file_system) : Prop := {
  wf_files : forall d x, lookup_df fs d = Some x -> wf_df x;
  wf_n_sym : n_sym_files fs = Z.of_nat (length (sym_files fs));
  wf_n_sym_u32 : is_u32 (n_sym_files fs);
  wf_max : is_u32 (max_failures fs);
  wf_stdout_writes : is_u32 (stdout_writes fs);
  wf_fail : max_failures fs <> 0 ->
    forall k, k <> CChmod -> k <> CFchmod -> is_Some (fail_ptr k fs)
}.

Record wf {OS} (w : world OS) : Prop := {
  wf_fs_ : wf_fs (w_fs w);
  wf_fds_len : length (fds (w_env w)) = 32%nat;
  wf_fds : Forall (wf_file (w_fs w)) (fds (w_env w));
  wf_umask : 0 <= umask_ (w_env w) < 512;
  wf_memory : wf_mem (w_mem w);
  wf_calls : forall k, is_s32 (n_calls k (w_calls w))
}.

(** ** What a call may do to the file system *)
Definition df_evolves (o o' : option exe_disk_file) : Prop :=
  match o, o' with
  | Some x, Some y =>
      df_size y = df_size x /\
      (st_ino (df_stat y) = st_ino (df_stat x) \/ st_ino (df_stat y) = 0)
  | None, None => True
  | _, _ => False
  end.

Record evolves {OS} (w w' : world OS) : Prop := {
  ev_files : forall d, df_evolves (lookup_df (w_fs w) d) (lookup_df (w_fs w') d);
  ev_n_sym : n_sym_files (w_fs w') = n_sym_files (w_fs w);
  ev_budget : max_failures (w_fs w') <= max_failures (w_fs w);
  ev_fail : forall k, fail_ptr k (w_fs w') = fail_ptr k (w_fs w);
  ev_save : save_all_writes (w_env w') = save_all_writes (w_env w);
  ev_version : version (w_env w') = version (w_env w)
}.

Lemma df_evolves_refl o : df_evolves o o.
Proof. destruct o; simpl; auto. Qed.

Lemma df_evolves_trans o1 o2 o3 : df_evolves o1 o2 -> df_evolves o2 o3 -> df_evolves o1 o3.
Proof.
  destruct o1, o2, o3; simpl; try done. intros [-> H1] [-> [H2|H2]]; split; auto.
  rewrite H2. done.
Qed.

#[export] Instance evolves_preorder OS : PreOrder (@evolves OS).
Proof.
  split.
  - intros w. split; auto using df_evolves_refl. lia.
  - intros w1 w2 w3 [H1 N1 B1 P1 S1 V1] [H2 N2 B2 P2 S2 V2].
    split; [intros d; by eapply df_evolves_trans|congruence|lia| |congruence|congruence].
    intros k. by rewrite P2.
Qed.

(** A pointer that is valid stays valid. *)
Lemma evolves_valid {OS} (w w' : world OS) d :
  evolves w w' -> is_Some (lookup_df (w_fs w) d) -> is_Some (lookup_df (w_fs w') d).
Proof.
  intros H [x Hx]. pose proof (ev_files _ _ H d) as Hd. rewrite Hx in Hd.
  destruct (lookup_df (w_fs w') d); [by eexists|done].
Qed.

(** ** Preservation *)
Definition keeps {OS} (w w' : world OS) : Prop := wf w' /\ evolves w w'.
Definition pres {OS A} (m : M (world OS) A) : Prop :=
  forall w, wf w -> post m w (fun _ w' => keeps w w').
Definition mpres {A} (m : M mem A) : Prop :=
  forall m0, wf_mem m0 -> post m m0 (fun _ m1 => wf_mem m1).

(** The kernel only stores bytes, and a symbolic object has the bytes asked for. *)
Class KernelOk (OS : Type) `{Kernel OS} : Prop := {
  syscall_bytes : forall nr args m o, wf_mem m -> wf_mem (os_syscall nr args m o).1.2;
  malloc_bytes : forall n m o, wf_mem m -> wf_mem (os_malloc n m o).1.2;
  symbolic_bytes : forall name n o, Forall is_byte (os_symbolic name n o).1;
  symbolic_length : forall name n o, length (os_symbolic name n o).1 = Z.to_nat n
}.

Create HintDb pres discriminated.

Section MemRules.

Lemma mpres_bind {A B} (m : M mem A) (f : A -> M mem B) :
  mpres m -> (forall a, mpres (f a)) -> mpres (m ≫= f).
Proof.
  intros Hm Hf m0 H0. apply post_bind. eapply post_weaken; [by apply Hm|].
  intros a m1 H1. by apply Hf.
Qed.
Lemma mpres_ret {A} (a : A) : mpres (mret a).
Proof. intros m0 H0. by apply post_ret. Qed.
Lemma mpres_halt {A} e : mpres (@halt mem A e).
Proof. intros m0 H0. apply post_halt. Qed.
Lemma mpres_load p : mpres (load p).
Proof. intros m0 H0 a m1 H. unfold load in H. by destruct (m0 !! p); simplify_eq. Qed.
Lemma mpres_store p b : mpres (store p b).
Proof.
  intros m0 H0 a m1 H. unfold store in H. destruct (m0 !! p); simplify_eq.
  apply wf_mem_insert; [done|]. apply u8_range.
Qed.
Lemma mpres_load_bytes n p : mpres (load_bytes n p).
Proof.
  revert p; induction n as [|n IH]; intros p; simpl; [apply mpres_ret|].
  repeat (apply mpres_bind; [|intros ?]); auto using mpres_load, mpres_ret.
Qed.
Lemma mpres_store_bytes p l : mpres (store_bytes p l).
Proof.
  revert p; induction l as [|b l IH]; intros p; simpl; [apply mpres_ret|].
  apply mpres_bind; [apply mpres_store|done].
Qed.
Lemma mpres_load_int n p : mpres (load_int n p).
Proof. apply mpres_bind; [apply mpres_load_bytes|intros; apply mpres_ret]. Qed.
Lemma mpres_store_int n p v : mpres (store_int n p v).
Proof. apply mpres_store_bytes. Qed.

End MemRules.

#[export] Hint Resolve mpres_bind mpres_ret mpres_halt mpres_load mpres_store mpres_load_bytes
  mpres_store_bytes mpres_load_int mpres_store_int : pres.

Section Rules.
Context {OS : Type}.
Abbreviation W := (world OS).
Implicit Types w : W.

Lemma keeps_refl w : wf w -> keeps w w.
Proof. intros H. by split. Qed.

Lemma keeps_trans w1 w2 w3 : keeps w1 w2 -> keeps w2 w3 -> keeps w1 w3.
Proof. intros [_ H1] [H2 H3]. split; [done|]. by etransitivity. Qed.

Lemma pres_bind {A B} (m : M W A) (f : A -> M W B) :
  pres m -> (forall a, pres (f a)) -> pres (m ≫= f).
Proof.
  intros Hm Hf w Hw. apply post_bind. eapply post_weaken; [by apply Hm|].
  intros a w1 H1. eapply post_weaken; [apply Hf, H1|].
  intros b w2 H2. exact (keeps_trans _ _ _ H1 H2).
Qed.

Lemma pres_ret {A} (a : A) : pres (mret a : M W A).
Proof. intros w Hw. apply post_ret. by apply keeps_refl. Qed.
Lemma pres_gets {A} (f : W -> A) : pres (gets f).
Proof. intros w Hw. apply post_gets. by apply keeps_refl. Qed.
Lemma pres_halt {A} e : pres (@halt W A e).
Proof. intros w Hw. apply post_halt. Qed.
Lemma pres_assert b : pres (@assert_ W b).
Proof. destruct b; [apply pres_ret|apply pres_halt]. Qed.
Lemma pres_of_option {A} (o : option A) : pres (of_option o : M W A).
Proof. destruct o; [apply pres_ret|apply pres_halt]. Qed.
Lemma pres_assume b : pres (@klee_assume OS b).
Proof. destruct b; [apply pres_ret|apply pres_halt]. Qed.
Lemma pres_warning s : pres (@klee_warning OS s).
Proof. apply pres_ret. Qed.
Lemma pres_warning_once s : pres (@klee_warning_once OS s).
Proof. apply pres_ret. Qed.
Lemma pres_get_df d : pres (@get_df OS d).
Proof. apply pres_bind; [apply pres_gets|intros; apply pres_of_option]. Qed.
Lemma pres_get_f i : pres (@get_f OS i).
Proof. apply pres_bind; [apply pres_gets|intros; apply pres_of_option]. Qed.
Lemma pres_check p n : pres (@klee_check_memory_access OS p n).
Proof.
  apply pres_bind; [apply pres_gets|intros]. destruct (accessible_b a p n);
  [apply pres_ret|apply pres_halt].
Qed.

Lemma pres_set_errno e : pres (@set_errno OS e).
Proof.
  intros w Hw. apply post_modify. destruct Hw. split; [by split|].
  split; simpl; auto using df_evolves_refl. lia.
Qed.
Lemma pres_fail e : pres (@fail OS e).
Proof. apply pres_bind; [apply pres_set_errno|intros; apply pres_ret]. Qed.

Lemma pres_count k : pres (@count_call OS k).
Proof.
  intros w [? ? ? ? ? Hc]. apply post_modify. split.
  - split; try done. intros j. simpl. rewrite n_calls_bump.
    case_decide; [apply s32_range|apply Hc].
  - split; simpl; auto using df_evolves_refl. lia.
Qed.

Lemma pres_on_mem {A} (m : M mem A) : mpres m -> pres (@on_mem OS A m).
Proof.
  intros Hm w [? ? ? ? Hmem ?] a w' H. unfold on_mem, zoom in H.
  destruct (m (w_mem w)) as [[b m1]|] eqn:E; simplify_eq.
  split; [|split; simpl; auto using df_evolves_refl; lia].
  split; try done. by apply (Hm _ Hmem _ _ E).
Qed.

Lemma wf_set_f w i f :
  wf w -> wf_file (w_fs w) f ->
  keeps w (set_env (set_fds (<[i := f]> (fds (w_env w))) (w_env w)) w).
Proof.
  intros [? Hl Hf ? ? ?] Hx. split; [|split; simpl; auto using df_evolves_refl; lia].
  split; simpl; try done; [by rewrite length_insert|]. by apply Forall_insert.
Qed.

Lemma post_get_f w i (Q : exe_file -> W -> Prop) :
  wf w -> (forall f, fds (w_env w) !! Z.to_nat i = Some f -> wf_file (w_fs w) f -> Q f w) ->
  post (get_f i) w Q.
Proof.
  intros Hw H. apply post_bind, post_gets, post_of_option. intros f Hf. apply H; [done|].
  by eapply Forall_lookup_1; [apply wf_fds|].
Qed.

Lemma pres_set_off i v : pres (@set_off OS i v).
Proof.
  intros w Hw. apply post_bind, post_get_f; [done|]. intros f _ [? ? ? Hd].
  apply post_modify, wf_set_f; [done|]. split; try done. apply s64_range.
Qed.
Lemma pres_set_flags i v : pres (@set_flags OS i v).
Proof.
  intros w Hw. apply post_bind, post_get_f; [done|]. intros f _ [? ? ? Hd].
  apply post_modify, wf_set_f; [done|]. split; try done. apply u32_range.
Qed.
Lemma pres_set_f i f :
  is_s32 (f_fd f) -> is_u32 (f_flags f) -> is_s64 (f_off f) -> f_dfile f = None ->
  pres (@set_f OS i f).
Proof.
  intros H1 H2 H3 H4 w Hw. apply post_modify, wf_set_f; [done|]. split; try done.
  intros d. by rewrite H4.
Qed.

(** Storing a well-formed object in place of one of the same size. *)
Lemma wf_set_df w d x y :
  wf w -> lookup_df (w_fs w) d = Some x -> wf_df y -> df_evolves (Some x) (Some y) ->
  keeps w (set_fs (update_df d y (w_fs w)) w).
Proof.
  intros [[Hfs ? ? ? ? Hp] Hl Hf ? ? ?] Hx Hy Hev.
  assert (Hv : forall d', is_Some (lookup_df (w_fs w) d') ->
                          is_Some (lookup_df (update_df d y (w_fs w)) d')).
  { intros d' Hd'. rewrite lookup_update_df by done. case_decide; [by eexists|done]. }
  split; split; simpl; try done.
  - split; simpl; try done; [|by destruct d; rewrite ?length_insert].
    intros d' z. rewrite lookup_update_df by done. case_decide; [by intros [= <-]|apply Hfs].
  - eapply Forall_impl; [exact Hf|]. intros f [? ? ? Hd]. split; try done. auto.
  - intros d'. rewrite lookup_update_df by done. case_decide; [subst; by rewrite Hx|].
    apply df_evolves_refl.
Qed.

Lemma post_get_df w d (Q : exe_disk_file -> W -> Prop) :
  wf w -> (forall x, lookup_df (w_fs w) d = Some x -> wf_df x -> Q x w) -> post (get_df d) w Q.
Proof.
  intros Hw H. apply post_bind, post_gets, post_of_option. intros x Hx.
  apply H; [done|]. exact (wf_files _ (wf_fs_ _ Hw) d x Hx).
Qed.

(** Stat updates that keep the size and may only clear the inode number. *)
Definition stat_ok (g : stat64 -> stat64) : Prop := forall s, wf_stat s ->
  wf_stat (g s) /\ st_size (g s) = st_size s /\ st_blksize (g s) = st_blksize s /\
  (st_ino (g s) = st_ino s \/ st_ino (g s) = 0).

Lemma pres_upd_stat d g : stat_ok g -> pres (@upd_stat OS d g).
Proof.
  intros Hg w Hw. apply post_bind, post_get_df; [done|].
  intros x Hx [? ? ? Hs Hsz Hb]. apply post_modify.
  destruct (Hg _ Hs) as (G1 & G2 & G3 & G4).
  eapply wf_set_df; [done|done| |by split].
  split; simpl; try done; [by rewrite G2|by rewrite G3].
Qed.

Lemma pres_copy_out d off buf n : pres (@copy_out OS d off buf n).
Proof.
  apply pres_bind; [apply pres_get_df|]. intros x.
  destruct (in_contents x off n); [apply pres_on_mem, mpres_store_bytes|apply pres_halt].
Qed.

Lemma in_contents_bounds x off n :
  0 <= n -> in_contents x off n = true ->
  n = 0 \/ (0 < n /\ 0 <= off /\ off + n <= Z.of_nat (length (df_contents x))).
Proof.
  intros Hn. unfold in_contents. rewrite orb_true_iff, andb_true_iff, Z.eqb_eq, !Z.leb_le. lia.
Qed.

Lemma on_mem_load_bytes n p w l w' :
  on_mem (load_bytes n p) w = Ret (l, w') ->
  w' = w /\ length l = n /\ bytes_at (w_mem w) p l.
Proof.
  unfold on_mem, zoom. destruct (load_bytes n p (w_mem w)) as [[a m]|] eqn:E; [|done].
  apply load_bytes_inv in E as (-> & E1 & E2). intros [= -> <-]. by destruct w.
Qed.

Lemma bytes_at_is_byte m p l : wf_mem m -> bytes_at m p l -> Forall is_byte l.
Proof.
  intros Hm H. apply Forall_lookup. intros i b Hb. eapply Hm, (H i b Hb).
Qed.

Lemma pres_copy_in d off buf n : pres (@copy_in OS d off buf n).
Proof.
  intros w Hw. apply post_bind, post_get_df; [done|].
  intros x Hx Hwx. apply post_if; [|intros; apply post_halt]. intros Hin.
  apply post_bind. intros l w1 H1. apply on_mem_load_bytes in H1 as (-> & Hlen & Hb).
  apply post_modify. eapply wf_set_df; [done|done| |by split; [|left]].
  destruct Hwx as [? Hwl ? ? ? ?]. split; simpl; try done.
  - destruct (decide (n <= 0)).
    { destruct l; [|simpl in Hlen; lia]. unfold splice. simpl. rewrite Nat.add_0_r.
      by rewrite take_drop. }
    apply in_contents_bounds in Hin; [|lia]. rewrite length_splice; [done|lia].
  - apply splice_byte; [done|]. by eapply (bytes_at_is_byte _ _ _ (wf_memory _ Hw)).
Qed.

Lemma pres_set_umask m : pres (modify (fun w : W => set_env (set_umask (Z.land m 511) (w_env w)) w)).
Proof.
  intros w [? ? ? ? ? ?]. apply post_modify.
  split; [|split; simpl; auto using df_evolves_refl; lia].
  split; simpl; try done. change 511 with (Z.ones 9). rewrite Z.land_ones by lia.
  apply Z.mod_pos_bound. lia.
Qed.

Context {K : Kernel OS} {KO : KernelOk OS}.

Lemma pres_sys nr args : pres (sys nr args).
Proof.
  intros w [? ? ? ? Hm ?] a w' H. unfold sys in H.
  pose proof (syscall_bytes nr args (w_mem w) (w_os w) Hm) as Hb.
  destruct (os_syscall nr args (w_mem w) (w_os w)) as [[r m] o]. simplify_eq.
  split; [by split|]. split; simpl; auto using df_evolves_refl. lia.
Qed.
Lemma pres_malloc n : pres (malloc n).
Proof.
  intros w [? ? ? ? Hm ?] a w' H. unfold malloc in H.
  pose proof (malloc_bytes n (w_mem w) (w_os w) Hm) as Hb.
  destruct (os_malloc n (w_mem w) (w_os w)) as [[r m] o]. simplify_eq.
  split; [by split|]. split; simpl; auto using df_evolves_refl. lia.
Qed.
Lemma pres_sys_select n r1 r2 r3 : pres (sys_select n r1 r2 r3).
Proof.
  intros s [? ? ? ? Hm ?] a s' H. unfold sys_select in H.
  destruct (os_select n r1 r2 r3 (w_os s)) as [[res sets] o]. simplify_eq.
  split; [by split|]. split; simpl; auto using df_evolves_refl. lia.
Qed.
Lemma pres_make_symbolic name n : pres (make_symbolic name n).
Proof.
  intros w [? ? ? ? Hm ?] a w' H. unfold make_symbolic in H.
  destruct (os_symbolic name n (w_os w)) as [l o]. simplify_eq.
  split; [by split|]. split; simpl; auto using df_evolves_refl. lia.
Qed.
Lemma pres_errno_from_os : pres errno_from_os.
Proof. apply pres_bind; [apply pres_gets|intros; apply pres_set_errno]. Qed.
Lemma pres_sys_int nr args : pres (sys_int nr args).
Proof.
  apply pres_bind; [apply pres_sys|]. intros r. apply pres_bind; [|intros; apply pres_ret].
  case_match; [apply pres_errno_from_os|apply pres_ret].
Qed.
Lemma pres_geteuid : pres geteuid.
Proof. apply pres_bind; [apply pres_gets|intros; apply pres_ret]. Qed.
Lemma pres_getgid : pres getgid.
Proof. apply pres_bind; [apply pres_gets|intros; apply pres_ret]. Qed.
Lemma pres_getegid : pres getegid.
Proof. apply pres_bind; [apply pres_gets|intros; apply pres_ret]. Qed.

End Rules.

#[export] Hint Resolve pres_ret pres_gets pres_halt pres_assert pres_of_option pres_assume
  pres_warning pres_warning_once pres_get_df pres_get_f pres_check pres_set_errno pres_fail
  pres_count pres_on_mem pres_set_off pres_set_flags pres_upd_stat pres_copy_out pres_copy_in
  pres_set_umask pres_sys pres_malloc pres_make_symbolic pres_sys_select pres_errno_from_os pres_sys_int pres_geteuid pres_getgid
  pres_getegid : pres.

(** One statement of the body after the other. *)
Ltac pres_step :=
  match goal with
  | |- pres (_ ≫= _) => apply pres_bind; [|intros ?]
  | |- pres (match ?x with _ => _ end) => destruct x
  | |- pres (let _ := _ in _) => cbv zeta
  | |- mpres (match ?x with _ => _ end) => destruct x
  | |- mpres (_ ≫= _) => apply mpres_bind; [|intros ?]
  end.
Ltac solve_pres := repeat (first [progress auto with pres | pres_step]).
