(* ===== verification/Intrinsics.v ===== *)
(** * Intrinsics of the executor's run time

    runtime/Intrinsic: the checks the executor instruments the program with
    (klee_overshift_check, klee_div_zero_check) and the functions that make a
    fresh symbolic integer (klee_int, klee_range), with klee_choose of
    runtime/klee-libc. The bytes of a symbolic object come from the [Kernel]
    interface. *)
From stdpp Require Import base gmap list numbers strings.
From Stdlib Require Import ZArith Lia.
From S2P Require Import Prelude CMem PosixState PosixInv.

Module Intrinsics.

Definition klee_report_error {S A} (msg : string) : M S A := halt (ReportError msg).

Definition klee_div_zero_check {S} (z : Z) : M S unit :=
  if z =? 0 then klee_report_error "divide by zero" else mret tt.

Definition klee_overshift_check {S} (bitWidth shift : Z) : M S unit :=
  if bitWidth <=? shift then klee_report_error "overshift error" else mret tt.

Section Fresh.
Context {OS : Type} {K : Kernel OS}.
Abbreviation W := (world OS).

Definition klee_int (name : string) : M W Z :=
  l ← make_symbolic name 4; mret (s32 (le_value l)).

Definition klee_range (start end_ : Z) (name : string) : M W Z :=
  if end_ <=? start then klee_report_error "invalid range" else
  if s32 (start + 1) =? end_ then mret start
  else
    l ← make_symbolic name 4;
    let x := s32 (le_value l) in
    (if start =? 0 then klee_assume (u32 x <? u32 end_)
     else klee_assume (start <=? x);; klee_assume (x <? end_));;
    mret x.

Definition klee_choose (n : Z) : M W Z :=
  l ← make_symbolic "klee_choose" 8;
  let x := le_value l in
  (if n <=? x then halt (Exit 0) else mret tt);;
  mret x.

Lemma klee_assume_inv b (w w' : W) (a : unit) : klee_assume b w = Ret (a, w') -> b = true /\ w' = w.
Proof. destruct b; [|done]. by intros [= _ <-]. Qed.

(** [klee_range] only returns values of the half-open range, also through the
    unsigned comparison it uses when the range starts at 0. *)
Theorem klee_range_correct (start end_ : Z) (name : string) (w : W) :
  is_s32 start -> is_s32 end_ ->
  post (klee_range start end_ name) w (fun r _ => start <= r < end_).
Proof.
  intros Hs He. apply post_if; intros H; [apply post_halt|]. apply Z.leb_gt in H.
  apply post_if; intros H1.
  - apply post_ret. apply Z.eqb_eq in H1. lia.
  - apply post_bind. intros l w1 _. cbv zeta. set (x := s32 (le_value l)).
    pose proof (s32_range (le_value l)) as Hx. fold x in Hx. unfold is_s32 in *.
    apply post_bind. apply post_if; intros H0.
    + intros a w2 Ha. apply klee_assume_inv in Ha as [Ha ->]. apply post_ret.
      apply Z.eqb_eq in H0. apply Z.ltb_lt in Ha. rewrite (u32_small end_) in Ha by lia.
      unfold u32 in Ha. destruct (Z_lt_le_dec x 0).
      * replace (x `mod` 2 ^ 32) with (x + 2 ^ 32) in Ha; [lia|].
        apply (Z.mod_unique x (2 ^ 32) (-1)); lia.
      * rewrite Z.mod_small in Ha by lia. lia.
    + apply post_bind. intros a w2 Ha. apply klee_assume_inv in Ha as [Ha ->].
      intros a' w3 Ha'. apply klee_assume_inv in Ha' as [Ha' ->]. apply post_ret.
      apply Z.leb_le in Ha. apply Z.ltb_lt in Ha'. lia.
Qed.

Lemma pres_klee_range {KO : KernelOk OS} start end_ name : pres (klee_range start end_ name).
Proof. unfold klee_range, klee_report_error. solve_pres. Qed.

End Fresh.
End Intrinsics.
