(* ===== verification/PosixFd.v ===== *)
(** * POSIX model: descriptors and data transfer

    runtime/POSIX/fd.c, first part: path and descriptor lookup, concretisation
    helpers, access, umask, open, openat, close, read, write, lseek, dup2, dup.
    Every function is the whole body of the source function, in its order. *)
From stdpp Require Import base gmap list numbers strings.
From Stdlib Require Import ZArith Lia.
From S2P Require Import Prelude CMem PosixState PosixInv.

Module Fd.
Section Ops.
Context {OS : Type}.
Abbreviation W := (world OS).

(** [for (i=0; i<__exe_fs.n_sym_files; ++i) if (c == 'A' + (char) i) ...] *)
Fixpoint sym_loop (c : Z) (k : nat) (i : Z) : M W (option dref) :=
  match k with
  | O => mret None
  | S k =>
      if c =? 65 + s8 i then
        df ← get_df (DSym (Z.to_nat i));
        if st_ino (df_stat df) =? 0 then mret None else mret (Some (DSym (Z.to_nat i)))
      else sym_loop c k (i + 1)
  end.

Definition __get_sym_file (pathname : Z) : M W (option dref) :=
  c ← on_mem (load pathname);
  if c =? 0 then mret None else
  c1 ← on_mem (load (pathname + 1));
  if negb (c1 =? 0) then mret None else
  fs ← gets w_fs;
  sym_loop (s8 c) (Z.to_nat (n_sym_files fs)) 0.

(** The result is the index of the entry in [__exe_env.fds]. *)
Definition __get_file (fd : Z) : M W (option Z) :=
  if (0 <=? fd) && (fd <? MAX_FDS) then
    f ← get_f fd;
    if is_open f then mret (Some fd) else mret None
  else mret None.

(** [if (__exe_fs.max_failures && *__exe_fs.X_fail == n_calls)
      { __exe_fs.max_failures--; errno = e; return -1; }]
    returns whether the call fails. *)
Definition inject (k : counted) (e : Z) : M W bool :=
  fs ← gets w_fs;
  if nz (max_failures fs) then
    v ← of_option (fail_ptr k fs);
    c ← gets w_calls;
    if v =? n_calls k c then
      modify (fun w => set_fs (set_max_failures (max_failures fs - 1) (w_fs w)) w);;
      set_errno e;; mret true
    else mret false
  else mret false.

(** [for (fd = 0; fd < MAX_FDS; ++fd) if (!(fds[fd].flags & eOpen)) break;] *)
Fixpoint first_free (l : list exe_file) (fd : Z) : Z :=
  match l with
  | [] => fd
  | f :: l => if is_open f then first_free l (fd + 1) else fd
  end.
Definition find_free : M W Z := e ← gets w_env; mret (first_free (fds e) 0).

Definition umask (mask : Z) : M W Z :=
  e ← gets w_env;
  modify (fun w => set_env (set_umask (Z.land mask 511) (w_env w)) w);;
  mret (umask_ e).

(** The bits of [mode] that give any user read, or write, permission. *)
Definition has_permission (flags mode : Z) : bool :=
  let read_access := nz (Z.land flags O_RDONLY) || nz (Z.land flags O_RDWR) in
  let write_access := nz (Z.land flags O_WRONLY) || nz (Z.land flags O_RDWR) in
  if read_access && nz (Z.lor (Z.lor (Z.land mode 256) (Z.land mode 32)) (Z.land mode 4))
  then false
  else if write_access &&
          negb (nz (Z.lor (Z.lor (Z.land mode 128) (Z.land mode 16)) (Z.land mode 2)))
  then false
  else true.

Definition open_flags (flags : Z) : Z :=
  if Z.land flags O_ACCMODE =? O_RDONLY then Z.lor eOpen eReadable
  else if Z.land flags O_ACCMODE =? O_WRONLY then Z.lor eOpen eWriteable
  else Z.lor eOpen (Z.lor eReadable eWriteable).

(** [f->dfile = df;] and [f->fd = os_fd;] *)
Definition set_dfile (i : Z) (d : dref) : M W unit :=
  f ← get_f i; set_f i (File (f_fd f) (f_flags f) (f_off f) (Some d)).
Definition set_os_fd (i : Z) (v : Z) : M W unit :=
  f ← get_f i; set_f i (File (s32 v) (f_flags f) (f_off f) (f_dfile f)).

Context {K : Kernel OS}.

Definition __concretize_ptr (p : Z) : M W Z :=
  o ← gets w_os;
  let pc := klee_get_valuel p o in
  klee_assume (pc =? p);; mret pc.

Definition __concretize_size (s : Z) : M W Z :=
  o ← gets w_os;
  let sc := klee_get_valuel s o in
  klee_assume (sc =? s);; mret sc.

(** The loop of [__concretize_string]; [i] is an [unsigned]. *)
Fixpoint concretize_loop (fuel : nat) (sc i : Z) : M W unit :=
  match fuel with
  | O => halt OutOfFuel
  | S fuel =>
      c ← on_mem (load sc);
      if Z.land i (u32 (i - 1)) =? 0 then
        if c =? 0 then on_mem (store sc 0)
        else if c =? 47 then on_mem (store sc 47);; concretize_loop fuel (sc + 1) (u32 (i + 1))
        else concretize_loop fuel sc (u32 (i + 1))
      else
        o ← gets w_os;
        let cc := s8 (klee_get_valuel (s8 c) o) in
        klee_assume (cc =? s8 c);;
        on_mem (store sc cc);;
        if cc =? 0 then mret tt else concretize_loop fuel (sc + 1) (u32 (i + 1))
  end.

Definition __concretize_string (s : Z) : M W Z :=
  sc ← __concretize_ptr s;
  m ← gets w_mem;
  concretize_loop (2 * size m + 5) sc 0;; mret s.

Definition access (pathname mode : Z) : M W Z :=
  dfile ← __get_sym_file pathname;
  match dfile with
  | Some _ => mret 0
  | None => p ← __concretize_string pathname; sys_int NR_access [p; mode]
  end.

Definition __fd_open (pathname flags mode : Z) : M W Z :=
  fd ← find_free;
  if fd =? MAX_FDS then fail EMFILE else
  set_f fd zero_file;;
  df ← __get_sym_file pathname;
  match df with
  | Some df =>
      set_dfile fd df;;
      if nz (Z.land flags O_CREAT) && nz (Z.land flags O_EXCL) then fail EEXIST
      else if nz (Z.land flags O_TRUNC) && nz (Z.land flags O_RDONLY) then
        klee_warning "Undefined call to open(): O_TRUNC | O_RDONLY";; fail EACCES
      else if nz (Z.land flags O_EXCL) && negb (nz (Z.land flags O_CREAT)) then
        klee_warning "Undefined call to open(): O_EXCL w/o O_RDONLY";; fail EACCES
      else
        x ← get_df df;
        if negb (has_permission flags (st_mode (df_stat x))) then fail EACCES
        else
          e ← gets w_env;
          upd_stat df (fun s => set_st_mode
            (u32 (Z.lor (Z.land (st_mode s) (Z.lnot 511))
                        (Z.land mode (Z.lnot (umask_ e))))) s);;
          set_flags fd (open_flags flags);; mret fd
  | None =>
      p ← __concretize_string pathname;
      os_fd ← sys NR_open [p; flags; mode];
      if s32 os_fd =? -1 then errno_from_os;; mret (-1)
      else set_os_fd fd os_fd;; set_flags fd (open_flags flags);; mret fd
  end.

(** The common start of the [*at] functions: translate the base descriptor;
    [inl e] is an early return with [errno = e]. *)
Definition base_fd (basefd : Z) : M W (Z + Z) :=
  if negb (basefd =? AT_FDCWD) then
    bf ← __get_file basefd;
    match bf with
    | None => mret (inl EBADF)
    | Some i =>
        f ← get_f i;
        match f_dfile f with
        | Some _ => klee_warning "symbolic file descriptor, ignoring (ENOENT)";; mret (inl ENOENT)
        | None => mret (inr (f_fd f))
        end
    end
  else mret (inr basefd).

Definition __fd_openat (basefd pathname flags mode : Z) : M W Z :=
  b ← base_fd basefd;
  match b with
  | inl e => fail e
  | inr basefd =>
      df ← __get_sym_file pathname;
      match df with
      | Some _ => __fd_open pathname flags mode
      | None =>
          fd ← find_free;
          if fd =? MAX_FDS then fail EMFILE else
          set_f fd zero_file;;
          p ← __concretize_string pathname;
          os_fd ← sys NR_openat [basefd; p; flags; mode];
          if s32 os_fd =? -1 then errno_from_os;; mret (-1)
          else set_os_fd fd os_fd;; set_flags fd (open_flags flags);; mret fd
      end
  end.

Definition close (fd : Z) : M W Z :=
  count_call CClose;;
  f ← __get_file fd;
  match f with
  | None => fail EBADF
  | Some f =>
      b ← inject CClose EIO;
      if (b : bool) then mret (-1) else set_f f zero_file;; mret 0
  end.

(** The concrete and the symbolic branch of [read]. *)
Definition read_os (f buf count : Z) : M W Z :=
  buf ← __concretize_ptr buf;
  count ← __concretize_size count;
  klee_check_memory_access buf count;;
  x ← get_f f;
  r ← (if f_fd x =? 0 then sys NR_read [f_fd x; buf; count]
       else sys NR_pread64 [f_fd x; buf; count; f_off x]);
  let r := s32 r in
  if r =? -1 then errno_from_os;; mret (-1)
  else
    (if negb (f_fd x =? 0) then set_off f (f_off x + r) else mret tt);; mret r.

Definition read_sym (f buf count : Z) (d : dref) : M W Z :=
  x ← get_f f;
  df ← get_df d;
  assert_ (0 <=? f_off x);;
  if df_size df <? f_off x then mret 0 else
  let count := if df_size df <? u64 (f_off x + count) then u64 (df_size df - f_off x)
               else count in
  copy_out d (f_off x) buf count;;
  set_off f (f_off x + count);;
  mret (s64 count).

Definition read (fd buf count : Z) : M W Z :=
  count_call CRead;;
  if count =? 0 then mret 0
  else if buf =? 0 then fail EFAULT
  else
    f ← __get_file fd;
    match f with
    | None => fail EBADF
    | Some f =>
        b ← inject CRead EIO;
        if (b : bool) then mret (-1) else
        x ← get_f f;
        match f_dfile x with
        | None => read_os f buf count
        | Some d => read_sym f buf count d
        end
    end.

Definition write_os (f buf count : Z) : M W Z :=
  buf ← __concretize_ptr buf;
  count ← __concretize_size count;
  klee_check_memory_access buf count;;
  x ← get_f f;
  r ← (if (f_fd x =? 1) || (f_fd x =? 2) then sys NR_write [f_fd x; buf; count]
       else sys NR_pwrite64 [f_fd x; buf; count; f_off x]);
  let r := s32 r in
  if r =? -1 then errno_from_os;; mret (-1)
  else
    assert_ (0 <=? r);;
    (if negb (f_fd x =? 1) && negb (f_fd x =? 2) then set_off f (f_off x + r) else mret tt);;
    mret r.

Definition write_sym (f buf count : Z) (d : dref) : M W Z :=
  x ← get_f f;
  df ← get_df d;
  e ← gets w_env;
  actual_count ←
    (if u64 (f_off x + count) <=? df_size df then mret count
     else if nz (save_all_writes e) then halt AssertFailed
     else if f_off x <? df_size df then mret (u64 (df_size df - f_off x))
     else mret 0);
  (if nz actual_count then copy_in d (f_off x) buf actual_count else mret tt);;
  (if negb (count =? actual_count) then klee_warning "write() ignores bytes." else mret tt);;
  (if decide (d = DStdout) then
     modify (fun w => set_fs (set_stdout_writes
       (u32 (stdout_writes (w_fs w) + actual_count)) (w_fs w)) w)
   else mret tt);;
  set_off f (f_off x + count);;
  mret (s64 count).

Definition write (fd buf count : Z) : M W Z :=
  count_call CWrite;;
  f ← __get_file fd;
  match f with
  | None => fail EBADF
  | Some f =>
      b ← inject CWrite EIO;
      if (b : bool) then mret (-1) else
      x ← get_f f;
      match f_dfile x with
      | None => write_os f buf count
      | Some d => write_sym f buf count d
      end
  end.

Definition lseek_os (f offset whence : Z) : M W Z :=
  x ← get_f f;
  new_off ←
    (if whence =? SEEK_SET then sys NR_lseek [f_fd x; offset; SEEK_SET]
     else
       r ← sys NR_lseek [f_fd x; f_off x; SEEK_SET];
       if negb (r =? -1) then
         assert_ (r =? f_off x);; sys NR_lseek [f_fd x; offset; whence]
       else mret r);
  if new_off =? -1 then errno_from_os;; mret (-1)
  else set_off f new_off;; mret new_off.

Definition lseek_sym (f offset whence : Z) (d : dref) : M W Z :=
  x ← get_f f;
  df ← get_df d;
  let seek new_off :=
    if new_off <? 0 then fail EINVAL else set_off f new_off;; mret new_off in
  if whence =? SEEK_SET then seek offset
  else if whence =? SEEK_CUR then seek (s64 (f_off x + offset))
  else if whence =? SEEK_END then seek (s64 (df_size df + offset))
  else fail EINVAL.

Definition __fd_lseek (fd offset whence : Z) : M W Z :=
  f ← __get_file fd;
  match f with
  | None => fail EBADF
  | Some f =>
      x ← get_f f;
      match f_dfile x with
      | None => lseek_os f offset whence
      | Some d => lseek_sym f offset whence d
      end
  end.

(** [*f2 = *f] copies the entry [f] points to after [close(newfd)] ran, so the
    old entry is read again. *)
Definition dup2 (oldfd newfd : Z) : M W Z :=
  f ← __get_file oldfd;
  match f with
  | None => fail EBADF
  | Some f =>
      if negb ((0 <=? newfd) && (newfd <? MAX_FDS)) then fail EBADF
      else
        x2 ← get_f newfd;
        (if is_open x2 then close newfd;; mret tt else mret tt);;
        x ← get_f f;
        set_f newfd x;;
        set_flags newfd (Z.land (f_flags x) (Z.lnot eCloseOnExec));;
        mret newfd
  end.

Definition dup (oldfd : Z) : M W Z :=
  f ← __get_file oldfd;
  match f with
  | None => fail EBADF
  | Some _ =>
      fd ← find_free;
      if fd =? MAX_FDS then fail EMFILE else dup2 oldfd fd
  end.

End Ops.

(** ** The invariant is kept *)
Section Inv.
Context {OS : Type}.
Abbreviation W := (world OS).
Implicit Types w : W.

Lemma pres_at_bind {A B} (m : M W A) (f : A -> M W B) w :
  post m w (fun _ w' => keeps w w') -> (forall a, pres (f a)) ->
  post (m ≫= f) w (fun _ w' => keeps w w').
Proof.
  intros Hm Hf. apply post_bind. eapply post_weaken; [exact Hm|].
  intros a w1 H1. eapply post_weaken; [apply Hf, H1|].
  intros b w2 H2. exact (keeps_trans _ _ _ H1 H2).
Qed.

(** A sequence whose first part keeps the state unchanged and returns [a] with [Q a]. *)
Lemma pres_bind_pure {A B} (m : M W A) (f : A -> M W B) (Q : A -> W -> Prop) :
  (forall w, wf w -> post m w (fun a w' => w' = w /\ Q a w)) ->
  (forall a w, wf w -> Q a w -> post (f a) w (fun _ w' => keeps w w')) ->
  pres (m ≫= f).
Proof.
  intros Hm Hf w Hw. apply post_bind. eapply post_weaken; [by apply Hm|].
  intros a w1 [-> HQ]. by apply Hf.
Qed.

Lemma post_on_mem_load w p (Q : Z -> W -> Prop) :
  (forall c, w_mem w !! p = Some c -> Q c w) -> post (on_mem (load p)) w Q.
Proof.
  intros H c w'. unfold on_mem, zoom, load. destruct (w_mem w !! p) eqn:E; [|done].
  intros [= <- <-]. destruct w; auto.
Qed.

(** What a path name denotes: the index of the file named by its only character. *)
Definition names (w : W) (p : Z) (i : nat) : Prop :=
  exists c x, w_mem w !! p = Some c /\ w_mem w !! (p + 1) = Some 0 /\ c <> 0 /\
    s8 c = 65 + s8 (Z.of_nat i) /\ lookup_df (w_fs w) (DSym i) = Some x /\
    st_ino (df_stat x) <> 0.

Lemma sym_loop_spec c k i w :
  0 <= i ->
  post (sym_loop c k i) w (fun r w' => w' = w /\
    match r with
    | Some d => exists j x, d = DSym j /\ i <= Z.of_nat j < i + Z.of_nat k /\
        c = 65 + s8 (Z.of_nat j) /\ lookup_df (w_fs w) (DSym j) = Some x /\
        st_ino (df_stat x) <> 0
    | None => True
    end).
Proof.
  revert i; induction k as [|k IH]; intros i Hi; simpl; [by apply post_ret|].
  apply post_if; intros Hc.
  - apply post_bind, post_bind, post_gets, post_of_option. intros x Hx.
    apply post_if; intros Hino; apply post_ret; split; try done.
    apply Z.eqb_eq in Hc. apply Z.eqb_neq in Hino.
    exists (Z.to_nat i), x. rewrite Z2Nat.id by done. repeat split; [lia|lia|done|done|done].
  - eapply post_weaken; [apply IH; lia|]. intros [d|] w' [-> H]; [|done].
    split; [done|]. destruct H as (j & x & ? & ? & H). exists j, x. split; [done|].
    split; [lia|done].
Qed.

Lemma get_sym_file_spec w p :
  post (__get_sym_file p) w (fun r w' => w' = w /\
    match r with Some d => exists i, d = DSym i /\ names w p i | None => True end).
Proof.
  apply post_bind, post_on_mem_load. intros c Hc.
  apply post_if; intros Hc0; [by apply post_ret|].
  apply post_bind, post_on_mem_load. intros c1 Hc1.
  apply post_if; intros Hc10; [by apply post_ret|].
  apply post_bind, post_gets.
  eapply post_weaken; [by apply sym_loop_spec|]. intros [d|] w' [-> H]; [|done].
  split; [done|]. destruct H as (j & x & -> & _ & H2 & H3 & H4). exists j. split; [done|].
  apply Z.eqb_neq in Hc0. apply negb_false_iff, Z.eqb_eq in Hc10. subst c1.
  by exists c, x.
Qed.

Lemma pres_get_sym_file p : pres (@__get_sym_file OS p).
Proof.
  intros w Hw. eapply post_weaken; [apply get_sym_file_spec|]. intros a w' [-> _].
  by apply keeps_refl.
Qed.

Lemma pres_get_file fd : pres (@__get_file OS fd).
Proof. unfold __get_file. solve_pres. Qed.

Lemma pres_find_free : pres (@find_free OS).
Proof. unfold find_free. solve_pres. Qed.

Lemma pres_umask m : pres (@umask OS m).
Proof. unfold umask. solve_pres. Qed.

Lemma pres_zero_file i : pres (@set_f OS i zero_file).
Proof. apply pres_set_f; done. Qed.

Lemma pres_set_os_fd i v : pres (@set_os_fd OS i v).
Proof.
  intros w Hw. apply post_bind, post_get_f; [done|]. intros f _ [? ? ? Hd].
  apply post_modify, wf_set_f; [done|]. split; try done. apply s32_range.
Qed.

Lemma pres_copy_f i j : pres (x ← @get_f OS i; set_f j x).
Proof.
  intros w Hw. apply post_bind, post_get_f; [done|]. intros f _ Hf.
  by apply post_modify, wf_set_f.
Qed.

Lemma post_set_dfile w i d :
  wf w -> is_Some (lookup_df (w_fs w) d) -> post (set_dfile i d) w (fun _ w' => keeps w w').
Proof.
  intros Hw Hd. apply post_bind, post_get_f; [done|]. intros f _ [? ? ? Hf].
  apply post_modify, wf_set_f; [done|]. split; try done. by intros d' [= <-].
Qed.

Lemma pres_inject k e : pres (@inject OS k e).
Proof.
  intros w Hw. apply post_bind, post_gets. apply post_if; intros Hn; [|by apply pres_ret].
  apply nz_true in Hn. apply post_bind, post_of_option. intros v Hv.
  apply post_bind, post_gets. apply post_if; intros He; [|by apply pres_ret].
  apply pres_at_bind; [|intros; solve_pres]. apply post_modify.
  destruct Hw as [[? ? ? Hmax ? Hp] ? Hf ? ? ?]. unfold is_u32 in Hmax.
  split; split; simpl; try done; try lia.
  - split; simpl; try done; [unfold is_u32; lia|].
    intros _ j Hj1 Hj2. change (is_Some (fail_ptr j (w_fs w))). by apply Hp.
  - eapply Forall_impl; [exact Hf|]. intros f [? ? ? Hd]. split; try done.
  - intros d. change (df_evolves (lookup_df (w_fs w) d) (lookup_df (w_fs w) d)).
    apply df_evolves_refl.
Qed.

Lemma pres_stdout_writes v :
  pres (modify (fun w : W => set_fs (set_stdout_writes (u32 (stdout_writes (w_fs w) + v)) (w_fs w)) w)).
Proof.
  intros w [[? ? ? ? ? Hp] ? Hf ? ? ?]. apply post_modify.
  split; split; simpl; try done.
  - split; simpl; try done. apply u32_range.
  - eapply Forall_impl; [exact Hf|]. intros f [? ? ? Hd]. by split.
  - intros d. change (df_evolves (lookup_df (w_fs w) d) (lookup_df (w_fs w) d)).
    apply df_evolves_refl.
Qed.

(** Stores to [st_mode] and clearing [st_ino] are admissible updates. *)
Lemma stat_ok_mode (g : stat64 -> Z) : stat_ok (fun s => set_st_mode (u32 (g s)) s).
Proof.
  intros s Hs. pose proof (u32_range (g s)). unfold wf_stat, is_u32 in *; simpl. tauto.
Qed.
Lemma stat_ok_unlink : stat_ok (set_st_ino 0).
Proof.
  intros s Hs. assert (is_u64 0) by done. unfold wf_stat in *; simpl. tauto.
Qed.

Context {K : Kernel OS} {KO : KernelOk OS}.

Lemma pres_concretize_ptr p : pres (__concretize_ptr p).
Proof. unfold __concretize_ptr. solve_pres. Qed.
Lemma pres_concretize_size p : pres (__concretize_size p).
Proof. unfold __concretize_size. solve_pres. Qed.
Lemma pres_concretize_loop fuel sc i : pres (concretize_loop fuel sc i).
Proof. revert sc i; induction fuel as [|fuel IH]; intros sc i; simpl; solve_pres. Qed.
Lemma pres_concretize_string s : pres (__concretize_string s).
Proof.
  unfold __concretize_string. solve_pres; [apply pres_concretize_ptr|apply pres_concretize_loop].
Qed.
End Inv.

#[export] Hint Resolve pres_get_sym_file pres_get_file pres_find_free pres_umask pres_zero_file
  pres_set_os_fd pres_inject pres_stdout_writes stat_ok_mode stat_ok_unlink pres_concretize_ptr
  pres_concretize_size pres_concretize_string : pres.

Section InvOps.
Context {OS : Type} {K : Kernel OS} {KO : KernelOk OS}.
Abbreviation W := (world OS).
Implicit Types w : W.

Lemma pres_access p mode : pres (access p mode).
Proof. unfold access. solve_pres. Qed.

Lemma pres_open p flags mode : pres (__fd_open p flags mode).
Proof.
  unfold __fd_open. apply pres_bind; [solve_pres|]. intros fd.
  case_match; [solve_pres|]. apply pres_bind; [solve_pres|]. intros _.
  eapply pres_bind_pure; [intros w _; apply get_sym_file_spec|].
  intros [d|] w Hw Hd; simpl in Hd.
  - apply pres_at_bind; [|intros; solve_pres]. apply post_set_dfile; [done|].
    destruct Hd as (i & -> & c & x & _ & _ & _ & _ & Hx & _). by exists x.
  - match goal with |- post ?m _ _ => enough (Hm : pres m) by by apply Hm end.
    solve_pres.
Qed.
Hint Resolve pres_open : pres.

Lemma pres_base_fd fd : pres (@base_fd OS fd).
Proof. unfold base_fd. solve_pres. Qed.
Hint Resolve pres_base_fd : pres.

Lemma pres_openat b p flags mode : pres (__fd_openat b p flags mode).
Proof. unfold __fd_openat. solve_pres. Qed.

Lemma pres_close fd : pres (@close OS fd).
Proof. unfold close. solve_pres. Qed.
Hint Resolve pres_close : pres.

Lemma pres_read fd buf n : pres (read fd buf n).
Proof. unfold read, read_os, read_sym. solve_pres. Qed.

Lemma pres_write fd buf n : pres (write fd buf n).
Proof. unfold write, write_os, write_sym. solve_pres. Qed.

Lemma pres_lseek fd off whence : pres (__fd_lseek fd off whence).
Proof. unfold __fd_lseek, lseek_os, lseek_sym. solve_pres. Qed.

Lemma pres_dup2 a b : pres (@dup2 OS a b).
Proof.
  unfold dup2. apply pres_bind; [solve_pres|]. intros [f|]; [|solve_pres].
  case_match; [solve_pres|]. do 2 (apply pres_bind; [solve_pres|]; intros ?).
  intros w Hw. apply post_bind, post_get_f; [done|].
  intros x _ Hx. apply pres_at_bind; [by apply post_modify, wf_set_f|]. intros. solve_pres.
Qed.
Hint Resolve pres_dup2 : pres.

Lemma pres_dup a : pres (@dup OS a).
Proof. unfold dup. solve_pres. Qed.
End InvOps.

#[export] Hint Resolve pres_access pres_open pres_base_fd pres_openat pres_close pres_read
  pres_write pres_lseek pres_dup2 pres_dup : pres.
End Fd.
