(* ===== verification/PosixMeta.v ===== *)
(** * POSIX model: metadata, directories, terminals, select

    runtime/POSIX/fd.c, second part: utimes, futimesat, the stat family, chdir,
    chmod, chown, ftruncate, getdents, ioctl, fcntl, statfs, fsync, rmdir,
    unlink, unlinkat, readlink, select, getcwd, chroot. Structures in the
    program's memory are written field by field at their x86-64 offsets. *)
From stdpp Require Import base gmap list numbers strings.
From Stdlib Require Import ZArith Lia.
From S2P Require Import Prelude CMem LibcMem PosixState PosixInv PosixFd Intrinsics.
Import Fd Intrinsics.

Module Meta.
Section Ops.
Context {OS : Type} {K : Kernel OS}.
Abbreviation W := (world OS).

(** [r = syscall(nr, __concretize_string(path), args...)] *)
Definition sys_path (nr : sysno) (path : Z) (args : list Z) : M W Z :=
  p ← __concretize_string path; sys_int nr (p :: args).

(** [(path ? __concretize_string(path) : NULL)] *)
Definition concretize_opt (path : Z) : M W Z :=
  if nz path then __concretize_string path else mret 0.

Definition utimes (path times : Z) : M W Z :=
  dfile ← __get_sym_file path;
  match dfile with
  | Some d =>
      t0 ← on_mem (load_int 8 times);
      t1 ← on_mem (load_int 8 (times + 16));
      upd_stat d (fun s =>
        let ns t old := if bsd_source then s64 (1000000000 * s64 t) else old in
        set_st_times (s64 t0) (ns t0 (st_atimensec s)) (s64 t1) (ns t1 (st_mtimensec s)) s);;
      mret 0
  | None => sys_path NR_utimes path [times]
  end.

Definition futimesat (fd path times : Z) : M W Z :=
  b ← base_fd fd;
  match b with
  | inl e => fail e
  | inr fd =>
      df ← __get_sym_file path;
      match df with
      | Some _ => utimes path times
      | None => p ← concretize_opt path; sys_int NR_futimesat [fd; p; times]
      end
  end.

(** [memcpy(buf, df->stat, sizeof( *df->stat))] *)
Definition copy_stat (d : dref) (buf : Z) : M W unit :=
  x ← get_df d; on_mem (store_bytes buf (stat_bytes (df_stat x))).

Definition __fd_stat (path buf : Z) : M W Z :=
  dfile ← __get_sym_file path;
  match dfile with
  | Some d => copy_stat d buf;; mret 0
  | None => sys_path NR_stat path [buf]
  end.

Definition fstatat (fd path buf flags : Z) : M W Z :=
  b ← base_fd fd;
  match b with
  | inl e => fail e
  | inr fd =>
      dfile ← __get_sym_file path;
      match dfile with
      | Some d => copy_stat d buf;; mret 0
      | None => p ← concretize_opt path; sys_int NR_newfstatat [fd; p; buf; flags]
      end
  end.

Definition __fd_lstat (path buf : Z) : M W Z :=
  dfile ← __get_sym_file path;
  match dfile with
  | Some d => copy_stat d buf;; mret 0
  | None => sys_path NR_lstat path [buf]
  end.

Definition chdir (path : Z) : M W Z :=
  dfile ← __get_sym_file path;
  match dfile with
  | Some _ => klee_warning "symbolic file, ignoring (ENOENT)";; fail ENOENT
  | None => sys_path NR_chdir path []
  end.

Definition fchdir (fd : Z) : M W Z :=
  f ← __get_file fd;
  match f with
  | None => fail EBADF
  | Some f =>
      x ← get_f f;
      match f_dfile x with
      | Some _ => klee_warning "symbolic file, ignoring (ENOENT)";; fail ENOENT
      | None => sys_int NR_fchdir [f_fd x]
      end
  end.

Definition __df_chmod (d : dref) (mode : Z) : M W Z :=
  df ← get_df d;
  euid ← geteuid;
  if euid =? st_uid (df_stat df) then
    gid ← getgid;
    let mode := if negb (gid =? st_gid (df_stat df)) then Z.land mode (Z.lnot S_ISGID)
                else mode in
    upd_stat d (fun s =>
      set_st_mode (u32 (Z.lor (Z.land (st_mode s) (Z.lnot 4095)) (Z.land mode 4095))) s);;
    mret 0
  else fail EPERM.

Definition chmod (path mode : Z) : M W Z :=
  dfile ← __get_sym_file path;
  count_call CChmod;;
  b ← inject CChmod EIO;
  if (b : bool) then mret (-1) else
  match dfile with
  | Some d => __df_chmod d mode
  | None => sys_path NR_chmod path [mode]
  end.

Definition fchmod (fd mode : Z) : M W Z :=
  f ← __get_file fd;
  match f with
  | None => fail EBADF
  | Some f =>
      count_call CFchmod;;
      b ← inject CFchmod EIO;
      if (b : bool) then mret (-1) else
      x ← get_f f;
      match f_dfile x with
      | Some d => __df_chmod d mode
      | None => sys_int NR_fchmod [f_fd x; mode]
      end
  end.

Definition __df_chown (d : dref) (owner group : Z) : M W Z :=
  klee_warning "symbolic file, ignoring (EPERM)";; fail EPERM.

Definition chown (path owner group : Z) : M W Z :=
  df ← __get_sym_file path;
  match df with
  | Some d => __df_chown d owner group
  | None => sys_path NR_chown path [owner; group]
  end.

(** The system call gets [fd] itself, not the host descriptor [f->fd]. *)
Definition fchown (fd owner group : Z) : M W Z :=
  f ← __get_file fd;
  match f with
  | None => fail EBADF
  | Some f =>
      x ← get_f f;
      match f_dfile x with
      | Some d => __df_chown d owner group
      | None => sys_int NR_fchown [fd; owner; group]
      end
  end.

Definition lchown (path owner group : Z) : M W Z :=
  df ← __get_sym_file path;
  match df with
  | Some d => __df_chown d owner group
  | None => sys_path NR_chown path [owner; group]
  end.

Definition __fd_fstat (fd buf : Z) : M W Z :=
  f ← __get_file fd;
  match f with
  | None => fail EBADF
  | Some f =>
      x ← get_f f;
      match f_dfile x with
      | None => sys_int NR_fstat [f_fd x; buf]
      | Some d => copy_stat d buf;; mret 0
      end
  end.

Definition __fd_ftruncate (fd length : Z) : M W Z :=
  f ← __get_file fd;
  count_call CFtruncate;;
  match f with
  | None => fail EBADF
  | Some f =>
      b ← inject CFtruncate EIO;
      if (b : bool) then mret (-1) else
      x ← get_f f;
      match f_dfile x with
      | Some _ => klee_warning "symbolic file, ignoring (EIO)";; fail EIO
      | None => sys_int NR_ftruncate [f_fd x; length]
      end
  end.

(** struct dirent64: d_ino at 0, d_off at 8, d_reclen at 16, d_type at 18,
    d_name at 19; 280 bytes. *)
Definition sizeof_dirent64 := 280.
Definition IFTODT (mode : Z) : Z := Z.shiftr (Z.land mode S_IFMT) 12.

Definition store_dirent (dirp ino off reclen type : Z) (name : list Z) : M mem unit :=
  store_int 8 dirp ino;; store_int 2 (dirp + 16) reclen;; store_int 1 (dirp + 18) type;;
  store_bytes (dirp + 19) name;; store_int 8 (dirp + 8) off.

(** [for (; i<__exe_fs.n_sym_files; ++i) ...]; the result is [(dirp, bytes)]. *)
Fixpoint dirents_loop (k : nat) (i dirp bytes : Z) : M W (Z * Z) :=
  match k with
  | O => mret (dirp, bytes)
  | S k =>
      df ← get_df (DSym (Z.to_nat i));
      on_mem (store_dirent dirp (st_ino (df_stat df)) ((i + 1) * sizeof_dirent64)
                sizeof_dirent64 (IFTODT (st_mode (df_stat df))) [u8 (65 + i); 0]);;
      dirents_loop k (i + 1) (dirp + sizeof_dirent64) (bytes + sizeof_dirent64)
  end.

(** [while (pos < res) { dp->d_off += 4096; pos += dp->d_reclen; }] *)
Fixpoint patch_loop (fuel : nat) (dirp pos res : Z) : M W unit :=
  if pos <? res then
    match fuel with
    | O => halt OutOfFuel
    | S fuel =>
        d ← on_mem (load_int 8 (dirp + pos + 8));
        on_mem (store_int 8 (dirp + pos + 8) (d + 4096));;
        r ← on_mem (load_int 2 (dirp + pos + 16));
        patch_loop fuel dirp (s32 (pos + r)) res
    end
  else mret tt.

Definition getdents_sym (f dirp count : Z) : M W Z :=
  x ← get_f f;
  fs ← gets w_fs;
  let i := u64 (f_off x) / sizeof_dirent64 in
  if negb (i * sizeof_dirent64 =? f_off x) || (n_sym_files fs <? i) then fail EINVAL
  else
    '(dirp, bytes) ← dirents_loop (Z.to_nat (n_sym_files fs - i)) i dirp 0;
    let pad := if 4096 <=? count then 4096 else count in
    let reclen := u16 (pad - bytes) in
    on_mem (store_dirent dirp 0 4096 reclen 0 [0]);;
    set_off f pad;;
    mret (s32 (bytes + reclen)).

Definition getdents_os (f dirp count : Z) : M W Z :=
  x ← get_f f;
  let os_pos := s64 (f_off x - 4096) in
  on_mem (LibcMem.memset dirp 0 count);;
  s ← sys NR_lseek [f_fd x; os_pos; SEEK_SET];
  assert_ (negb (s =? -1));;
  res ← sys NR_getdents64 [f_fd x; dirp; count];
  let res := s32 res in
  if res =? -1 then errno_from_os;; mret res
  else
    o ← sys NR_lseek [f_fd x; 0; SEEK_CUR];
    set_off f (o + 4096);;
    patch_loop (Z.to_nat res) dirp 0 res;;
    mret res.

Definition __fd_getdents (fd dirp count : Z) : M W Z :=
  f ← __get_file (s32 fd);
  match f with
  | None => fail EBADF
  | Some f =>
      x ← get_f f;
      match f_dfile x with
      | Some _ => klee_warning "symbolic file, ignoring (EINVAL)";; fail EINVAL
      | None =>
          if u64 (f_off x) <? 4096 then getdents_sym f dirp count
          else getdents_os f dirp count
      end
  end.

Definition TCGETS := 21505.
Definition TCSETS := 21506.
Definition TCSETSW := 21507.
Definition TCSETSF := 21508.
Definition TIOCGWINSZ := 21523.
Definition TIOCSWINSZ := 21524.
Definition FIONREAD := 21531.
Definition MTIOCGET := 2150657282.

(** [c_cc[0]] to [c_cc[18]] *)
Definition termios_cc : list Z :=
  [3; 28; 127; 21; 4; 0; 1; 255; 17; 19; 26; 255; 18; 15; 23; 22; 255; 0; 0].

Definition store_termios (ts : Z) : M mem unit :=
  store_int 4 ts 27906;; store_int 4 (ts + 4) 5;; store_int 4 (ts + 8) 1215;;
  store_int 4 (ts + 12) 35287;; store_int 1 (ts + 16) 0;; store_bytes (ts + 17) termios_cc.

Definition ioctl (fd request buf : Z) : M W Z :=
  f ← __get_file fd;
  match f with
  | None => fail EBADF
  | Some f =>
      x ← get_f f;
      match f_dfile x with
      | Some d =>
          df ← get_df d;
          let ischr := S_ISCHR (st_mode (df_stat df)) in
          if request =? TCGETS then
            klee_warning_once "(TCGETS) symbolic file, incomplete model";;
            if ischr then on_mem (store_termios buf);; mret 0 else fail ENOTTY
          else if request =? TCSETS then
            klee_warning_once "(TCSETS) symbolic file, silently ignoring";;
            if ischr then mret 0 else fail ENOTTY
          else if request =? TCSETSW then
            klee_warning_once "(TCSETSW) symbolic file, silently ignoring";;
            if fd =? 0 then mret 0 else fail ENOTTY
          else if request =? TCSETSF then
            klee_warning_once "(TCSETSF) symbolic file, silently ignoring";;
            if ischr then mret 0 else fail ENOTTY
          else if request =? TIOCGWINSZ then
            on_mem (store_int 2 buf 24);; on_mem (store_int 2 (buf + 2) 80);;
            klee_warning_once "(TIOCGWINSZ) symbolic file, incomplete model";;
            if ischr then mret 0 else fail ENOTTY
          else if request =? TIOCSWINSZ then
            klee_warning_once "(TIOCSWINSZ) symbolic file, ignoring (EINVAL)";;
            if ischr then fail EINVAL else fail ENOTTY
          else if request =? FIONREAD then
            klee_warning_once "(FIONREAD) symbolic file, incomplete model";;
            if ischr then
              (if f_off x <? df_size df then on_mem (store_int 4 buf (df_size df - f_off x))
               else on_mem (store_int 4 buf 0));;
              mret 0
            else fail ENOTTY
          else if request =? MTIOCGET then
            klee_warning "(MTIOCGET) symbolic file, ignoring (EINVAL)";; fail EINVAL
          else klee_warning "symbolic file, ignoring (EINVAL)";; fail EINVAL
      | None => sys_int NR_ioctl [f_fd x; request; buf]
      end
  end.

Definition F_GETFD := 1.
Definition F_SETFD := 2.
Definition F_GETFL := 3.
Definition F_GETOWN := 9.
Definition F_GETSIG := 11.
Definition F_GETLEASE := 1025.
Definition F_NOTIFY := 1026.
Definition FD_CLOEXEC := 1.

(** [va] is the optional argument. *)
Definition fcntl (fd cmd va : Z) : M W Z :=
  f ← __get_file fd;
  match f with
  | None => fail EBADF
  | Some f =>
      let arg := if (cmd =? F_GETFD) || (cmd =? F_GETFL) || (cmd =? F_GETOWN) ||
                    (cmd =? F_GETSIG) || (cmd =? F_GETLEASE) || (cmd =? F_NOTIFY)
                 then 0 else u32 va in
      x ← get_f f;
      match f_dfile x with
      | Some _ =>
          if cmd =? F_GETFD then
            mret (if nz (Z.land (f_flags x) eCloseOnExec) then FD_CLOEXEC else 0)
          else if cmd =? F_SETFD then
            set_flags f (Z.land (f_flags x) (Z.lnot eCloseOnExec));;
            (if nz (Z.land arg FD_CLOEXEC)
             then x ← get_f f; set_flags f (Z.lor (f_flags x) eCloseOnExec)
             else mret tt);;
            mret 0
          else if cmd =? F_GETFL then mret 0
          else klee_warning "symbolic file, ignoring (EINVAL)";; fail EINVAL
      | None => sys_int NR_fcntl [f_fd x; cmd; arg]
      end
  end.

Definition __fd_statfs (path buf : Z) : M W Z :=
  dfile ← __get_sym_file path;
  match dfile with
  | Some _ => klee_warning "symbolic file, ignoring (ENOENT)";; fail ENOENT
  | None => sys_path NR_statfs path [buf]
  end.

Definition fstatfs (fd buf : Z) : M W Z :=
  f ← __get_file fd;
  match f with
  | None => fail EBADF
  | Some f =>
      x ← get_f f;
      match f_dfile x with
      | Some _ => klee_warning "symbolic file, ignoring (EBADF)";; fail EBADF
      | None => sys_int NR_fstatfs [f_fd x; buf]
      end
  end.

Definition fsync (fd : Z) : M W Z :=
  f ← __get_file fd;
  match f with
  | None => fail EBADF
  | Some f =>
      x ← get_f f;
      match f_dfile x with
      | Some _ => mret 0
      | None => sys_int NR_fsync [f_fd x]
      end
  end.

Definition rmdir (pathname : Z) : M W Z :=
  dfile ← __get_sym_file pathname;
  match dfile with
  | Some d =>
      x ← get_df d;
      if S_ISDIR (st_mode (df_stat x)) then upd_stat d (set_st_ino 0);; mret 0
      else fail ENOTDIR
  | None => klee_warning "ignoring (EPERM)";; fail EPERM
  end.

Definition unlink (pathname : Z) : M W Z :=
  dfile ← __get_sym_file pathname;
  match dfile with
  | Some d =>
      x ← get_df d;
      if S_ISREG (st_mode (df_stat x)) then upd_stat d (set_st_ino 0);; mret 0
      else if S_ISDIR (st_mode (df_stat x)) then fail EISDIR
      else fail EPERM
  | None => klee_warning "ignoring (EPERM)";; fail EPERM
  end.

Definition unlinkat (dirfd pathname flags : Z) : M W Z :=
  dfile ← __get_sym_file pathname;
  match dfile with
  | Some d =>
      x ← get_df d;
      if S_ISREG (st_mode (df_stat x)) then upd_stat d (set_st_ino 0);; mret 0
      else if S_ISDIR (st_mode (df_stat x)) then fail EISDIR
      else fail EPERM
  | None => klee_warning "ignoring (EPERM)";; fail EPERM
  end.

Definition readlink (path buf bufsize : Z) : M W Z :=
  dfile ← __get_sym_file path;
  match dfile with
  | Some d =>
      x ← get_df d;
      if S_ISLNK (st_mode (df_stat x)) then
        c ← on_mem (load path);
        on_mem (store buf c);;
        (if 1 <? bufsize then on_mem (store (buf + 1) 46) else mret tt);;
        (if 2 <? bufsize then on_mem (store (buf + 2) 108) else mret tt);;
        (if 3 <? bufsize then on_mem (store (buf + 3) 110) else mret tt);;
        (if 4 <? bufsize then on_mem (store (buf + 4) 107) else mret tt);;
        mret (if 5 <? bufsize then 5 else bufsize)
      else fail EINVAL
  | None => sys_int NR_readlink [path; buf; bufsize]
  end.

(** ** select

    A [fd_set] is 16 words of 64 bits. The macros of the source shift the [int]
    1, so the executor's overshift check guards the shift and bit 31 is
    sign-extended when it is or-ed into the word. *)
Definition NFDBITS := 64.
Definition zero_set : list Z := replicate 16 0.
Definition word (s : list Z) (k : Z) : option Z := if k <? 0 then None else s !! Z.to_nat k.

Definition fd_mask (n : Z) : M W Z :=
  klee_overshift_check 32 (u32 (Z.rem n NFDBITS));;
  mret (u64 (s32 (2 ^ Z.rem n NFDBITS))).
Definition FD_ISSET (n : Z) (s : list Z) : M W bool :=
  v ← of_option (word s (Z.quot n NFDBITS)); m ← fd_mask n; mret (nz (Z.land v m)).
(** On a local set, and through a pointer to the program's set. *)
Definition FD_SET (n : Z) (s : list Z) : M W (list Z) :=
  v ← of_option (word s (Z.quot n NFDBITS)); m ← fd_mask n;
  mret (<[Z.to_nat (Z.quot n NFDBITS) := Z.lor v m]> s).
Definition FD_SET_ptr (n p : Z) : M W unit :=
  m ← fd_mask n;
  let a := p + 8 * Z.quot n NFDBITS in
  v ← on_mem (load_int 8 a);
  on_mem (store_int 8 a (Z.lor v m)).

Fixpoint load_words (n : nat) (p : Z) : M mem (list Z) :=
  match n with
  | O => mret []
  | S n => v ← load_int 8 p; l ← load_words n (p + 8); mret (v :: l)
  end.

(** [if (p) { in = *p; FD_ZERO(p); } else FD_ZERO(&in);] *)
Definition take_set (p : Z) : M W (list Z) :=
  if nz p then
    s ← on_mem (load_words 16 p);
    on_mem (store_bytes p (replicate 128 0));; mret s
  else mret zero_set.

(** The local variables the first loop updates. *)
Record selst : Type := Sel {
  os_read : list Z; os_write : list Z; os_except : list Z; sel_count : Z; os_nfds : Z
}.

(** [if (FD_ISSET(i, &in)) FD_SET(i, p)] and [... FD_SET(f->fd, &os)] *)
Definition mark_ptr (i : Z) (inset : list Z) (p : Z) : M W unit :=
  b ← FD_ISSET i inset; if (b : bool) then FD_SET_ptr i p else mret tt.
Definition mark_os (i fd : Z) (inset os : list Z) : M W (list Z) :=
  b ← FD_ISSET i inset; if (b : bool) then FD_SET fd os else mret os.

(** [FD_ISSET(i, &in_read) || FD_ISSET(i, &in_write) || FD_ISSET(i, &in_except)] *)
Definition any_set (i : Z) (r w e : list Z) : M W bool :=
  b ← FD_ISSET i r; if (b : bool) then mret true else
  b ← FD_ISSET i w; if (b : bool) then mret true else FD_ISSET i e.

Section Select.
Variables (rp wp ep : Z) (in_read in_write in_except : list Z).

(** One iteration; [None] is the early return with EBADF. *)
Definition select_one (i : Z) (st : selst) : M W (option selst) :=
  b ← any_set i in_read in_write in_except;
  if negb b then mret (Some st) else
  f ← __get_file i;
  match f with
  | None => mret None
  | Some f =>
      x ← get_f f;
      match f_dfile x with
      | Some _ =>
          mark_ptr i in_read rp;; mark_ptr i in_write wp;; mark_ptr i in_except ep;;
          mret (Some (Sel (os_read st) (os_write st) (os_except st)
                          (s32 (sel_count st + 1)) (os_nfds st)))
      | None =>
          r ← mark_os i (f_fd x) in_read (os_read st);
          w ← mark_os i (f_fd x) in_write (os_write st);
          e ← mark_os i (f_fd x) in_except (os_except st);
          mret (Some (Sel r w e (sel_count st)
            (if os_nfds st <=? f_fd x then s32 (f_fd x + 1) else os_nfds st)))
      end
  end.

Fixpoint select_loop (k : nat) (i : Z) (st : selst) : M W (option selst) :=
  match k with
  | O => mret (Some st)
  | S k =>
      r ← select_one i st;
      match r with
      | None => mret None
      | Some st => select_loop k (i + 1) st
      end
  end.

(** [if (p && FD_ISSET(f->fd, &os)) FD_SET(i, p)] *)
Definition unmark (i fd p : Z) (os : list Z) : M W unit :=
  if nz p then b ← FD_ISSET fd os; if (b : bool) then FD_SET_ptr i p else mret tt else mret tt.

Fixpoint back_loop (k : nat) (i : Z) (r w e : list Z) : M W unit :=
  match k with
  | O => mret tt
  | S k =>
      f ← __get_file i;
      (match f with
       | Some f =>
           x ← get_f f;
           match f_dfile x with
           | None => unmark i (f_fd x) rp r;; unmark i (f_fd x) wp w;; unmark i (f_fd x) ep e
           | Some _ => mret tt
           end
       | None => mret tt
       end);;
      back_loop k (i + 1) r w e
  end.

Definition select_os (nfds : Z) (st : selst) : M W Z :=
  if 0 <? os_nfds st then
    '(r, (sr, sw, se)) ← sys_select (os_nfds st) (os_read st) (os_write st) (os_except st);
    let r := s32 r in
    if r =? -1 then
      if sel_count st =? 0 then errno_from_os;; mret (-1) else mret (sel_count st)
    else
      back_loop (Z.to_nat nfds) 0 sr sw se;; mret (s32 (sel_count st + r))
  else mret (sel_count st).
End Select.

Definition select (nfds rp wp ep timeout : Z) : M W Z :=
  in_read ← take_set rp;
  in_write ← take_set wp;
  in_except ← take_set ep;
  st ← select_loop rp wp ep in_read in_write in_except (Z.to_nat nfds) 0
         (Sel zero_set zero_set zero_set 0 0);
  match st with
  | None => fail EBADF
  | Some st => select_os rp wp ep nfds st
  end.

(** ** getcwd, chroot *)
Definition getcwd (buf size : Z) : M W Z :=
  count_call CGetcwd;;
  b ← inject CGetcwd ERANGE;
  if (b : bool) then mret 0 else
  '(buf, size) ←
    (if buf =? 0 then
       let size := if size =? 0 then 1024 else size in
       p ← malloc size; mret (p, size)
     else mret (buf, size));
  buf ← __concretize_ptr buf;
  size ← __concretize_size size;
  klee_check_memory_access buf size;;
  r ← sys NR_getcwd [buf; size];
  if s32 r =? -1 then errno_from_os;; mret 0 else mret buf.

Definition chroot (path : Z) : M W Z :=
  c ← on_mem (load path);
  if c =? 0 then fail ENOENT else
  c1 ← (if c =? 47 then on_mem (load (path + 1)) else mret 1);
  if (c =? 47) && (c1 =? 0) then mret 0
  else klee_warning "ignoring (ENOENT)";; fail ENOENT.

End Ops.

(** ** The invariant is kept *)
Section Inv.
Context {OS : Type} {K : Kernel OS} {KO : KernelOk OS}.

Lemma mpres_memset p b n : mpres (LibcMem.memset p b n).
Proof.
  unfold LibcMem.memset. apply mpres_bind; [|intros; apply mpres_ret].
  generalize (Z.to_nat n) as k. intros k. revert p.
  induction k as [|k IH]; intros p; simpl; solve_pres.
Qed.
Lemma mpres_load_words n p : mpres (load_words n p).
Proof. revert p; induction n as [|n IH]; intros p; simpl; solve_pres. Qed.
Lemma mpres_store_dirent p a b c d n : mpres (store_dirent p a b c d n).
Proof. unfold store_dirent. solve_pres. Qed.
Lemma mpres_store_termios p : mpres (store_termios p).
Proof. unfold store_termios. solve_pres. Qed.
Hint Resolve mpres_memset mpres_load_words mpres_store_dirent mpres_store_termios : pres.

Lemma stat_ok_times (f : stat64 -> Z * Z * Z * Z) :
  (forall s, wf_stat s -> is_s64 (f s).1.1.1 /\ is_s64 (f s).1.1.2 /\ is_s64 (f s).1.2 /\ is_s64 (f s).2) ->
  stat_ok (fun s => set_st_times (f s).1.1.1 (f s).1.1.2 (f s).1.2 (f s).2 s).
Proof.
  intros H s Hs. specialize (H s Hs). unfold wf_stat in *; simpl. tauto.
Qed.

Lemma pres_utimes p t : pres (utimes p t).
Proof.
  unfold utimes, sys_path. solve_pres. apply pres_upd_stat.
  apply (stat_ok_times (fun s => (_, _, _, _))).
  intros s Hs. unfold wf_stat in Hs; simpl.
  destruct bsd_source; repeat split; try apply s64_range; try apply Hs.
Qed.
Hint Resolve pres_utimes : pres.

Lemma pres_concretize_opt p : pres (concretize_opt p).
Proof. unfold concretize_opt. solve_pres. Qed.
Hint Resolve pres_concretize_opt : pres.

Lemma pres_futimesat fd p t : pres (futimesat fd p t).
Proof. unfold futimesat. solve_pres. Qed.
Lemma pres_stat p b : pres (__fd_stat p b).
Proof. unfold __fd_stat, sys_path, copy_stat. solve_pres. Qed.
Lemma pres_fstatat fd p b f : pres (fstatat fd p b f).
Proof. unfold fstatat, copy_stat. solve_pres. Qed.
Lemma pres_lstat p b : pres (__fd_lstat p b).
Proof. unfold __fd_lstat, sys_path, copy_stat. solve_pres. Qed.
Lemma pres_chdir p : pres (chdir p).
Proof. unfold chdir, sys_path. solve_pres. Qed.
Lemma pres_fchdir p : pres (fchdir p).
Proof. unfold fchdir, sys_path. solve_pres. Qed.
Lemma pres_chmod p m : pres (chmod p m).
Proof. unfold chmod, sys_path, __df_chmod. solve_pres. Qed.
Lemma pres_fchmod p m : pres (fchmod p m).
Proof. unfold fchmod, sys_path, __df_chmod. solve_pres. Qed.
Lemma pres_chown p o g : pres (chown p o g).
Proof. unfold chown, sys_path, __df_chown. solve_pres. Qed.
Lemma pres_fchown p o g : pres (fchown p o g).
Proof. unfold fchown, __df_chown. solve_pres. Qed.
Lemma pres_lchown p o g : pres (lchown p o g).
Proof. unfold lchown, sys_path, __df_chown. solve_pres. Qed.
Lemma pres_fstat fd b : pres (__fd_fstat fd b).
Proof. unfold __fd_fstat, copy_stat. solve_pres. Qed.
Lemma pres_ftruncate fd l : pres (__fd_ftruncate fd l).
Proof. unfold __fd_ftruncate. solve_pres. Qed.
Lemma pres_dirents_loop k i d b : pres (@dirents_loop OS k i d b).
Proof. revert i d b; induction k as [|k IH]; intros i d b; simpl; solve_pres. Qed.
Lemma pres_patch_loop k d p r : pres (@patch_loop OS k d p r).
Proof. revert p; induction k as [|k IH]; intros p; simpl; solve_pres. Qed.
Hint Resolve pres_dirents_loop pres_patch_loop : pres.
Lemma pres_getdents fd d c : pres (__fd_getdents fd d c).
Proof. unfold __fd_getdents, getdents_sym, getdents_os. solve_pres. Qed.
Lemma pres_ioctl fd r b : pres (ioctl fd r b).
Proof. unfold ioctl. solve_pres. Qed.
Lemma pres_fcntl fd c a : pres (fcntl fd c a).
Proof. unfold fcntl. solve_pres. Qed.
Lemma pres_statfs p b : pres (__fd_statfs p b).
Proof. unfold __fd_statfs, sys_path. solve_pres. Qed.
Lemma pres_fstatfs p b : pres (fstatfs p b).
Proof. unfold fstatfs. solve_pres. Qed.
Lemma pres_fsync p : pres (fsync p).
Proof. unfold fsync. solve_pres. Qed.
Lemma pres_rmdir p : pres (@rmdir OS p).
Proof. unfold rmdir. solve_pres. Qed.
Lemma pres_unlink p : pres (@unlink OS p).
Proof. unfold unlink. solve_pres. Qed.
Lemma pres_unlinkat d p f : pres (@unlinkat OS d p f).
Proof. unfold unlinkat. solve_pres. Qed.
Lemma pres_readlink p b n : pres (readlink p b n).
Proof. unfold readlink. solve_pres. Qed.

Lemma pres_fd_mask n : pres (@fd_mask OS n).
Proof. unfold fd_mask, klee_overshift_check, klee_report_error. solve_pres. Qed.
Hint Resolve pres_fd_mask : pres.
Lemma pres_FD_ISSET n s : pres (@FD_ISSET OS n s).
Proof. unfold FD_ISSET. solve_pres. Qed.
Lemma pres_FD_SET n s : pres (@FD_SET OS n s).
Proof. unfold FD_SET. solve_pres. Qed.
Lemma pres_FD_SET_ptr n s : pres (@FD_SET_ptr OS n s).
Proof. unfold FD_SET_ptr. solve_pres. Qed.
Hint Resolve pres_FD_ISSET pres_FD_SET pres_FD_SET_ptr : pres.
Lemma pres_take_set p : pres (@take_set OS p).
Proof. unfold take_set. solve_pres. Qed.
Lemma pres_select_loop a b c r w e k i st : pres (@select_loop OS a b c r w e k i st).
Proof.
  revert i st; induction k as [|k IH]; intros i st; simpl; [solve_pres|].
  unfold select_one, any_set, mark_ptr, mark_os. solve_pres.
Qed.
Lemma pres_back_loop a b c k i r w e : pres (@back_loop OS a b c k i r w e).
Proof. revert i; induction k as [|k IH]; intros i; simpl; [|unfold unmark]; solve_pres. Qed.
Hint Resolve pres_take_set pres_select_loop pres_back_loop : pres.
Lemma pres_select n r w e t : pres (select n r w e t).
Proof. unfold select, select_os. solve_pres. Qed.
Lemma pres_getcwd b n : pres (getcwd b n).
Proof. unfold getcwd. solve_pres. Qed.
Lemma pres_chroot p : pres (@chroot OS p).
Proof. unfold chroot. solve_pres. Qed.
End Inv.

#[export] Hint Resolve pres_utimes pres_futimesat pres_stat pres_fstatat pres_lstat pres_chdir
  pres_fchdir pres_chmod pres_fchmod pres_chown pres_fchown pres_lchown pres_fstat pres_ftruncate
  pres_getdents pres_ioctl pres_fcntl pres_statfs pres_fstatfs pres_fsync pres_rmdir pres_unlink
  pres_unlinkat pres_readlink pres_select pres_getcwd pres_chroot : pres.
End Meta.
