(* ===== verification/PosixInit.v ===== *)
(** * POSIX model: initialisation

    runtime/POSIX/fd_init.c: the static tables, __create_new_dfile and
    klee_init_fds, and the theorem that they establish the invariant.
    [klee_posix_prefer_cex] only guides the choice of test inputs and has no
    effect on the state. *)
From stdpp Require Import base gmap list numbers strings.
From Stdlib Require Import ZArith Lia Ascii.
From S2P Require Import Prelude CMem PosixState PosixInv PosixFd Intrinsics.
Import Intrinsics.

Module Init.

(** The static initialisers of [__exe_env] and [__exe_fs]. *)
Definition exe_env0 : exe_sym_env :=
  SymEnv (File 0 (Z.lor eOpen eReadable) 0 None ::
          File 1 (Z.lor eOpen eWriteable) 0 None ::
          File 2 (Z.lor eOpen eWriteable) 0 None :: replicate 29 zero_file)
         18 0 0.
Definition exe_fs0 : exe_file_system :=
  FileSystem 0 None None 0 [] 0 None None None None None None None.
Definition calls0 : calls := Calls 0 0 0 0 0 0 0.

(** The state in which [main] starts. *)
Definition boot_world {OS} (m : mem) (o : OS) : world OS := World exe_fs0 exe_env0 0 calls0 m o.

Definition data_name (k : Z) : string :=
  String (ascii_of_nat (Z.to_nat (u8 (65 + k)))) "-data".

Section Ops.
Context {OS : Type} {K : Kernel OS}.
Abbreviation W := (world OS).

Definition __create_new_dfile (size : Z) (name : string) (defaults : stat64) : M W exe_disk_file :=
  assert_ (nz size);;
  contents ← make_symbolic name size;
  sb ← make_symbolic (name +:+ "-stat") (Z.of_nat sizeof_stat64);
  let s := stat_of_bytes sb in
  o ← gets w_os;
  let s := if negb (os_is_symbolic (st_ino s) o) && (Z.land (st_ino s) 2147483647 =? 0)
           then set_st_ino (st_ino defaults) s else s in
  klee_assume (nz (Z.land (st_ino s) 2147483647));;
  klee_assume (Z.land (st_blksize s) (Z.lnot 65535) =? 0);;
  mret (DiskFile size contents (set_st_size_blocks size 8 s)).

(** [for (k=0; k < n_files; k++) { name[0] = 'A' + k; __create_new_dfile(...); }] *)
Fixpoint create_files (n : nat) (k file_length : Z) (defaults : stat64) :
    M W (list exe_disk_file) :=
  match n with
  | O => mret []
  | S n =>
      df ← __create_new_dfile file_length (data_name k) defaults;
      l ← create_files n (k + 1) file_length defaults;
      mret (df :: l)
  end.

Definition __sym_uint32 (name : string) : M W Z :=
  l ← make_symbolic name 4; mret (le_value l).

(** [p = malloc(sizeof *p); klee_make_symbolic(p, sizeof *p, name)] for an [int]. *)
Definition fresh_int (name : string) : M W (option Z) :=
  l ← make_symbolic name 4; mret (Some (s32 (le_value l))).

(** [__exe_env.fds[i].dfile = d;] *)
Definition attach (i : nat) (d : dref) (l : list exe_file) : list exe_file :=
  alter (fun f => File (f_fd f) (f_flags f) (f_off f) (Some d)) i l.

(** [defaults] is what [stat64(".", &s)] stored in [s]. *)
Definition klee_init_fds (defaults : stat64) (n_files file_length stdin_length sym_stdout_flag
    save_all_writes_flag max_failures_ : Z) : M W unit :=
  files ← create_files (Z.to_nat n_files) 0 file_length defaults;
  sin ← (if nz stdin_length
         then df ← __create_new_dfile stdin_length "stdin" defaults; mret (Some df)
         else mret None);
  fs ← gets w_fs;
  '(rf, wfl, cf, tf, gf) ←
    (if nz max_failures_ then
       r ← fresh_int "read_fail"; w ← fresh_int "write_fail"; c ← fresh_int "close_fail";
       t ← fresh_int "ftruncate_fail"; g ← fresh_int "getcwd_fail"; mret (r, w, c, t, g)
     else mret (read_fail fs, write_fail fs, close_fail fs, ftruncate_fail fs, getcwd_fail fs));
  sout ← (if nz sym_stdout_flag
          then df ← __create_new_dfile 1024 "stdout" defaults; mret (Some df)
          else mret None);
  v ← __sym_uint32 "model_version";
  modify (set_fs (FileSystem n_files sin sout
    (if nz sym_stdout_flag then 0 else stdout_writes fs) files max_failures_
    rf wfl cf tf gf (chmod_fail fs) (fchmod_fail fs)));;
  modify (fun w => set_env (SymEnv
    ((if nz sym_stdout_flag then attach 1 DStdout else id)
       ((if nz stdin_length then attach 0 DStdin else id) (fds (w_env w))))
    (umask_ (w_env w)) v save_all_writes_flag) w);;
  klee_assume (v =? 1).

End Ops.

(** ** Initialisation establishes the invariant *)

(** The state before [main]: static tables, no call made. *)
Definition boot {OS} (w : world OS) : Prop :=
  w_fs w = exe_fs0 /\ w_env w = exe_env0 /\ w_calls w = calls0 /\ wf_mem (w_mem w).

Section Spec.
Context {OS : Type} {K : Kernel OS} {KO : KernelOk OS}.
Abbreviation W := (world OS).
Implicit Types w : W.

(** Only the executor's state may differ. *)
Definition same_but_os (w w' : W) : Prop := exists o, w' = set_os o w.

Lemma same_but_os_refl w : same_but_os w w.
Proof. exists (w_os w). by destruct w. Qed.
Lemma same_but_os_trans w1 w2 w3 : same_but_os w1 w2 -> same_but_os w2 w3 -> same_but_os w1 w3.
Proof. intros [o ->] [o' ->]. by exists o'. Qed.

Lemma post_make_symbolic name n w (Q : list Z -> W -> Prop) :
  (forall l w', Forall is_byte l -> length l = Z.to_nat n -> same_but_os w w' -> Q l w') ->
  post (make_symbolic name n) w Q.
Proof.
  intros H a w'. unfold make_symbolic.
  pose proof (symbolic_bytes name n (w_os w)) as Hb.
  pose proof (symbolic_length name n (w_os w)) as Hl.
  destruct (os_symbolic name n (w_os w)) as [l o]. intros [= <- <-].
  apply H; [done|done|by exists o].
Qed.

Lemma post_assume b w (Q : unit -> W -> Prop) : (b = true -> Q tt w) -> post (klee_assume b) w Q.
Proof. intros H a w' Ha. apply klee_assume_inv in Ha as [Hb ->]. destruct a. auto. Qed.

Lemma field_range l o n : Forall is_byte l -> 0 <= field l o n < 2 ^ (8 * Z.of_nat n).
Proof.
  intros Hl. unfold field.
  pose proof (le_value_range (take n (drop o l)) ltac:(by apply Forall_take, Forall_drop)) as H.
  assert (2 ^ (8 * Z.of_nat (length (take n (drop o l)))) <= 2 ^ (8 * Z.of_nat n)).
  { apply Z.pow_le_mono_r; [lia|]. rewrite length_take. lia. }
  lia.
Qed.

Lemma stat_of_bytes_wf l : Forall is_byte l -> wf_stat (stat_of_bytes l).
Proof.
  intros Hl. unfold wf_stat; simpl.
  repeat split; first [apply s64_range | apply (field_range l _ 8 Hl) | apply (field_range l _ 4 Hl)].
Qed.

Lemma create_new_dfile_spec size name defaults w :
  wf_stat defaults -> is_u32 size ->
  post (__create_new_dfile size name defaults) w (fun df w' =>
    same_but_os w w' /\ wf_df df /\ df_size df = size /\ st_ino (df_stat df) <> 0).
Proof.
  intros Hd Hs. unfold is_u32 in Hs. apply post_bind, post_assert. intros Hnz. apply nz_true in Hnz.
  apply post_bind, post_make_symbolic. intros c w1 Hc Hcl H1.
  apply post_bind, post_make_symbolic. intros sb w2 Hsb _ H2.
  pose proof (stat_of_bytes_wf sb Hsb) as Hst. cbv zeta.
  apply post_bind, post_gets. set (s := if _ && _ then _ else _).
  assert (Hws : wf_stat s).
  { subst s. case_match; [|done]. unfold wf_stat in *; simpl. tauto. }
  clearbody s. apply post_bind, post_assume. intros Hi. apply post_bind, post_assume. intros Hb.
  apply post_ret. split; [by eapply same_but_os_trans|]. split; [|split; [done|]].
  - split; simpl; try done; [lia|lia| |].
    + unfold wf_stat in *; simpl. unfold is_s64 in *. repeat split; try tauto; try lia; apply Hws.
    + apply Z.eqb_eq in Hb. destruct Hws as (_ & (_ & Hbl & _) & _).
      assert (E : st_blksize s = st_blksize s `mod` 65536).
      { change 65536 with (2 ^ 16). rewrite <- Z.land_ones by lia.
        change (Z.ones 16) with 65535. apply Z.bits_inj'. intros n Hn.
        rewrite Z.land_spec. pose proof (f_equal (fun z => Z.testbit z n) Hb) as E.
        simpl in E. rewrite Z.land_spec, Z.lnot_spec, Z.bits_0 in E by done.
        destruct (Z.testbit (st_blksize s) n), (Z.testbit 65535 n); done. }
      rewrite E. apply Z.mod_pos_bound. lia.
  - simpl. apply nz_true in Hi. intros E. rewrite E in Hi. by apply Hi.
Qed.

Lemma create_files_spec n k len defaults w :
  wf_stat defaults -> is_u32 len ->
  post (create_files n k len defaults) w (fun l w' =>
    same_but_os w w' /\ length l = n /\
    Forall (fun df => wf_df df /\ df_size df = len /\ st_ino (df_stat df) <> 0) l).
Proof.
  intros Hd Hlen. revert k w; induction n as [|n IH]; intros k w; simpl.
  - apply post_ret. split; [apply same_but_os_refl|done].
  - apply post_bind. eapply post_weaken; [by apply create_new_dfile_spec|].
    intros df w1 (H1 & Hdf). apply post_bind. eapply post_weaken; [apply IH|].
    intros l w2 (H2 & <- & Hl). apply post_ret.
    split; [by eapply same_but_os_trans|]. split; [done|]. by constructor.
Qed.

Lemma fresh_int_spec name w :
  post (fresh_int name) w (fun r w' => same_but_os w w' /\ is_Some r).
Proof.
  apply post_bind, post_make_symbolic. intros l w' _ _ H. apply post_ret. split; [done|by eexists].
Qed.

(** The optional standard stream. *)
Lemma create_opt_spec (b : bool) size name defaults w :
  wf_stat defaults -> is_u32 size ->
  post (if b then df ← __create_new_dfile size name defaults; mret (Some df) else mret None) w
    (fun o w' => same_but_os w w' /\ (forall df, o = Some df -> wf_df df /\ df_size df = size) /\
      (b = true <-> is_Some o)).
Proof.
  intros Hd Hs. apply post_if; intros ->.
  - apply post_bind. eapply post_weaken; [by apply create_new_dfile_spec|].
    intros df w' (H & H1 & H2 & H3). apply post_ret. split; [done|].
    split; [by intros ? [= <-]|]. by split; eauto.
  - apply post_ret. split; [apply same_but_os_refl|]. split; [done|]. split; [done|].
    by intros [? [=]].
Qed.

Lemma attach_wf fs i d l :
  is_Some (lookup_df fs d) -> Forall (wf_file fs) l -> Forall (wf_file fs) (attach i d l).
Proof.
  intros Hd Hl. apply Forall_alter; [done|]. intros f _ [? ? ? ?]. split; try done.
  by intros d' [= <-].
Qed.

Lemma fds0_wf fs : Forall (wf_file fs) (fds exe_env0).
Proof.
  simpl. repeat constructor; try done; simpl.
Qed.

Lemma fail_ptrs_spec maxf fs w :
  fs = exe_fs0 ->
  post (if nz maxf then
       r ← fresh_int "read_fail"; w ← fresh_int "write_fail"; c ← fresh_int "close_fail";
       t ← fresh_int "ftruncate_fail"; g ← fresh_int "getcwd_fail"; mret (r, w, c, t, g)
     else mret (read_fail fs, write_fail fs, close_fail fs, ftruncate_fail fs, getcwd_fail fs)) w
    (fun '(r, wp, c, t, g) w' => same_but_os w w' /\
      (maxf <> 0 -> is_Some r /\ is_Some wp /\ is_Some c /\ is_Some t /\ is_Some g)).
Proof.
  intros ->. apply post_if; intros Hn.
  - do 5 (apply post_bind; eapply post_weaken; [apply fresh_int_spec|]; intros ? ? [? ?]).
    apply post_ret. split; [|done]. eauto 10 using same_but_os_trans.
  - apply post_ret. split; [apply same_but_os_refl|]. apply nz_false in Hn. done.
Qed.

(** What [klee_init_fds] leaves behind. *)
Definition initialised (n len sin sout save maxf : Z) (w : W) : Prop :=
  n_sym_files (w_fs w) = n /\
  (forall i, Z.of_nat i < n -> exists x, lookup_df (w_fs w) (DSym i) = Some x /\
     df_size x = len /\ st_ino (df_stat x) <> 0) /\
  (sin <> 0 <-> is_Some (sym_stdin (w_fs w))) /\ (sout <> 0 <-> is_Some (sym_stdout (w_fs w))) /\
  max_failures (w_fs w) = maxf /\ save_all_writes (w_env w) = save /\ version (w_env w) = 1 /\
  chmod_fail (w_fs w) = None /\ fchmod_fail (w_fs w) = None /\
  (forall i, (i < 32)%nat -> option_map is_open (fds (w_env w) !! i) = Some (Nat.ltb i 3)).

(** The tables set up from the objects the initialisation created. *)
Lemma init_tables_wf w w1 n sin sout maxf len save files so si r wp c t g :
  boot w -> same_but_os w w1 -> is_u32 n -> is_u32 maxf ->
  length files = Z.to_nat n ->
  Forall (fun df => wf_df df /\ df_size df = len /\ st_ino (df_stat df) <> 0) files ->
  (forall df, si = Some df -> wf_df df) -> (forall df, so = Some df -> wf_df df) ->
  (nz sin = true <-> is_Some si) -> (nz sout = true <-> is_Some so) ->
  (maxf <> 0 -> is_Some r /\ is_Some wp /\ is_Some c /\ is_Some t /\ is_Some g) ->
  let fs := FileSystem n si so (if nz sout then 0 else stdout_writes exe_fs0) files maxf
              r wp c t g None None in
  let l := (if nz sout then attach 1 DStdout else id)
             ((if nz sin then attach 0 DStdin else id) (fds exe_env0)) in
  let w' := set_env (SymEnv l (umask_ exe_env0) 1 save) (set_fs fs w1) in
  wf w' /\ initialised n len sin sout save maxf w'.
Proof.
  intros (Hfs & Henv & Hc & Hm) [o ->] Hn Hmax Hlen Hall Hsi Hso Hsin Hsout Hp fs l w'.
  unfold is_u32 in *.
  assert (Hat : length l = 32%nat).
  { subst l. destruct (nz sin), (nz sout); reflexivity. }
  split.
  - split; simpl.
    + split; simpl; try done; [|lia|by case_match|].
      * intros [i| |] x Hx; simpl in Hx; [|by apply Hsi|by apply Hso].
        by apply (Forall_lookup_1 _ _ _ _ Hall Hx).
      * intros Hm0 k Hk1 Hk2. destruct (Hp Hm0) as (?&?&?&?&?). by destruct k.
    + done.
    + subst l. pose proof (fds0_wf fs) as H0.
      assert (H1 : Forall (wf_file fs) ((if nz sin then attach 0 DStdin else id) (fds exe_env0))).
      { destruct (nz sin) eqn:E; [|done]. apply attach_wf; [by apply Hsin|done]. }
      destruct (nz sout) eqn:E; [|done]. apply attach_wf; [by apply Hsout|done].
    + done.
    + done.
    + intros k. simpl. rewrite Hc. by destruct k.
  - split; [done|]. split; [|split; [by rewrite <- nz_true|split; [by rewrite <- nz_true|]]].
    + intros i Hi. destruct (lookup_lt_is_Some_2 files i) as [x Hx]; [lia|].
      exists x. split; [done|]. by apply (Forall_lookup_1 _ _ _ _ Hall Hx).
    + do 5 (split; [done|]). intros i Hi. simpl. subst l.
      destruct (nz sin), (nz sout); do 32 (destruct i as [|i]; [done|]); lia.
Qed.

Lemma init_fds_spec (defaults : stat64) (n len sin sout save maxf : Z) (w : W) :
  boot w -> wf_stat defaults -> is_u32 n -> is_u32 len -> is_u32 sin -> is_u32 maxf ->
  post (klee_init_fds defaults n len sin sout save maxf) w
    (fun _ w' => wf w' /\ initialised n len sin sout save maxf w').
Proof.
  intros Hb Hd Hn Hlen Hsin Hmax. unfold klee_init_fds.
  apply post_bind. eapply post_weaken; [by apply create_files_spec|].
  intros files w1 (H1 & Hfl & Hall).
  apply post_bind. eapply post_weaken; [by apply create_opt_spec|].
  intros si w2 (H2 & Hsi & Hsin').
  assert (Hw2 : same_but_os w w2) by (by eapply same_but_os_trans).
  apply post_bind, post_gets.
  assert (Hfs : w_fs w2 = exe_fs0) by (destruct Hw2 as [o ->]; apply Hb).
  apply post_bind. eapply post_weaken; [by apply fail_ptrs_spec|].
  intros [[[[r wp] c] t] g] w3 [H3 Hp].
  apply post_bind. eapply post_weaken; [by apply create_opt_spec|].
  intros so w4 (H4 & Hso & Hsout).
  apply post_bind, post_bind, post_make_symbolic. intros vb w5 _ _ H5. apply post_ret.
  set (v := le_value vb). clearbody v.
  apply post_bind, post_modify, post_bind, post_modify, post_assume. intros Hv.
  apply Z.eqb_eq in Hv. subst v. rewrite Hfs.
  assert (Hw5 : same_but_os w w5) by eauto 10 using same_but_os_trans.
  assert (Henv : w_env w5 = exe_env0) by (destruct Hw5 as [o ->]; apply Hb).
  simpl. rewrite Henv. eapply (init_tables_wf w w5); try done.
  - intros df Hdf. by apply Hsi.
  - intros df Hdf. by apply Hso.
Qed.

(** [klee_init_fds] run before [main] sets up exactly the files, streams and
    failure budget asked for and establishes the invariant: every symbolic file
    has the requested size and a non-zero inode, descriptors 0 to 2 are open and
    the others free, and the model version is 1. The chmod and fchmod failure
    pointers are left NULL. *)
Theorem klee_init_fds_correct (defaults : stat64) (n len sin sout save maxf : Z) (w : W) :
  boot w -> wf_stat defaults -> is_u32 n -> is_u32 len -> is_u32 sin -> is_u32 maxf ->
  post (klee_init_fds defaults n len sin sout save maxf) w
    (fun _ w' => wf w' /\ initialised n len sin sout save maxf w').
Proof. exact (init_fds_spec defaults n len sin sout save maxf w). Qed.

End Spec.

(** ** A host for concrete runs

    A host on which every system call fails with EPERM, whose symbolic objects
    have the value 65 in every byte, except stat structures, which describe a
    regular file, and the model version, which is 1. *)
Definition demo_stat : stat64 :=
  Stat64 1 7 1 33188 1000 1000 0 0 0 4096 8 0 0 0 0 0 0 0 0 0.

Definition demo_symbolic (name : string) (n : Z) : list Z :=
  if n =? 144 then stat_bytes demo_stat
  else if (n =? 4) && bool_decide (name = "model_version") then [1; 0; 0; 0]
  else replicate (Z.to_nat n) 65.

#[export] Instance null_kernel : Kernel unit := {|
  os_syscall := fun _ _ m o => (-1, m, o);
  os_select := fun _ r w e o => (-1, (r, w, e), o);
  os_errno := fun _ => EPERM;
  os_geteuid := fun _ => 1000;
  os_getgid := fun _ => 1000;
  os_getegid := fun _ => 1000;
  os_gettimeofday := fun _ => (5, 6);
  os_malloc := fun _ m o => (0, m, o);
  os_symbolic := fun name n o => (demo_symbolic name n, o);
  os_is_symbolic := fun _ _ => false;
  klee_get_valuel := fun v _ => v;
  bsd_source := false
|}.

#[export] Instance null_kernel_ok : KernelOk unit.
Proof.
  split; simpl; try done.
  - intros name n _. unfold demo_symbolic. case_match; [apply stat_bytes_byte|].
    case_match; [repeat constructor; done|]. apply Forall_replicate. done.
  - intros name n _. unfold demo_symbolic. case_match eqn:E.
    { apply Z.eqb_eq in E as ->. apply length_stat_bytes. }
    case_match eqn:E2; [|apply length_replicate]. apply andb_prop in E2 as [E2 _].
    by apply Z.eqb_eq in E2 as ->.
Qed.

(** 200 bytes from address 100, zero except for the path "A" at address 290. *)
Definition demo_bytes : list Z := repeat 0 190 ++ [65; 0] ++ repeat 0 8.
Definition demo_mem : mem := mem_of 100 demo_bytes.
(** Two symbolic files of 8 bytes, symbolic stdin and stdout, a budget of one failure. *)
Definition demo_init : result (unit * world unit) :=
  klee_init_fds demo_stat 2 8 4 1 0 1 (boot_world demo_mem tt).

Lemma demo_stat_wf : wf_stat demo_stat.
Proof. unfold wf_stat, is_u64, is_u32, is_s64; simpl. lia. Qed.

Lemma demo_boot : boot (boot_world demo_mem tt).
Proof.
  split; [done|]. split; [done|]. split; [done|]. apply wf_mem_of.
  unfold demo_bytes. rewrite !Forall_app.
  assert (H : forall n, Forall is_byte (repeat 0 n)).
  { intros n. apply Forall_forall. intros b Hb. apply list_elem_of_In, repeat_spec in Hb as ->. done. }
  split; [done|]. split; [repeat constructor; done|done].
Qed.

Definition demo_world : world unit :=
  match demo_init with Ret (_, w) => w | Stop _ => boot_world demo_mem tt end.

Lemma demo_init_run : demo_init = Ret (tt, demo_world).
Proof. vm_compute. reflexivity. Qed.

Lemma demo_world_wf : wf demo_world.
Proof.
  refine (proj1 (init_fds_spec demo_stat 2 8 4 1 0 1 _ demo_boot demo_stat_wf _ _ _ _ _ _
    demo_init_run)); unfold is_u32; lia.
Qed.

Lemma demo_world_mem : w_mem demo_world = demo_mem.
Proof. vm_compute. reflexivity. Qed.

Lemma klee_init_fds_correct_witness : wf demo_world /\ initialised 2 8 4 1 0 1 demo_world.
Proof.
  refine (klee_init_fds_correct demo_stat 2 8 4 1 0 1 _ demo_boot demo_stat_wf _ _ _ _ _ _
    demo_init_run); unfold is_u32; lia.
Defined.

Lemma klee_range_correct_witness :
  exists w, klee_range 0 2000000000 "x" demo_world = Ret (1094795585, w) /\
    0 <= 1094795585 < 2000000000.
Proof.
  assert (E : exists w, klee_range 0 2000000000 "x" demo_world = Ret (1094795585, w))
    by (eexists; vm_compute; reflexivity).
  destruct E as [w E]. exists w. split; [exact E|].
  refine (klee_range_correct 0 2000000000 "x" demo_world _ _ _ _ E); unfold is_s32; lia.
Defined.

End Init.
