(* ===== verification/PosixEnv.v ===== *)
(** * POSIX model: the command line

    runtime/POSIX/klee_init_env.c. A C string given to the program is the list
    of its bytes, the last of which is NUL; [argv] is the list of the strings
    from index [k] on. *)
From stdpp Require Import base gmap list numbers strings.
From Stdlib Require Import ZArith Lia Ascii.
From S2P Require Import Prelude CMem PosixState PosixInv PosixFd Intrinsics PosixInit.
Import Intrinsics Init.

Module Env.

Definition bytes_of_string (s : string) : list Z :=
  map (fun c => Z.of_nat (nat_of_ascii c)) (String.list_ascii_of_string s).
(** A string literal. *)
Definition lit (s : string) : list Z := bytes_of_string s ++ [0].

Section Ops.
Context {OS : Type} {K : Kernel OS}.
Abbreviation W := (world OS).

Definition __emit_error {A} (msg : string) : M W A := klee_report_error msg.

(** [while ((c = *s++)) ...]: [s] is a string of signed [char]s. *)
Fixpoint str_to_int_loop (s : list Z) (res : Z) (msg : string) : M W Z :=
  match s with
  | [] => halt MemError
  | c :: s =>
      if c =? 0 then mret res
      else if (48 <=? s8 c) && (s8 c <=? 57) then
        str_to_int_loop s (s64 (res * 10 + (s8 c - 48))) msg
      else __emit_error msg
  end.

Definition __str_to_int (s : list Z) (error_msg : string) : M W Z :=
  match s with
  | [] => halt MemError
  | c :: _ => if c =? 0 then __emit_error error_msg else str_to_int_loop s 0 error_msg
  end.

Definition __isprint (c : Z) : bool := (32 <=? s8 c) && (s8 c <=? 126).

Fixpoint __streq (a b : list Z) : M W bool :=
  match a, b with
  | x :: a, y :: b =>
      if x =? y then if x =? 0 then mret true else __streq a b else mret false
  | _, _ => halt MemError
  end.

(** [__streq(a, s1) || __streq(a, s2)] *)
Definition streq_or (a : list Z) (s1 s2 : string) : M W bool :=
  b ← __streq a (lit s1); if (b : bool) then mret true else __streq a (lit s2).

(** The bytes of the new object, NUL included; [s[numChars] = '\0'] is out of
    bounds when the length is negative. *)
Definition __get_sym_str (numChars : Z) (name : string) : M W (list Z) :=
  if numChars <? 0 then halt MemError else
  l ← make_symbolic name (numChars + 1);
  mret (<[Z.to_nat numChars := 0]> l).

Definition __add_arg (argv : list (list Z)) (arg : list Z) (argcMax : Z) : M W (list (list Z)) :=
  if Z.of_nat (length argv) =? argcMax
  then __emit_error "too many arguments for klee_init_env"
  else mret (argv ++ [arg]).

Definition arg_name (n : Z) : string :=
  "arg" +:+ String (ascii_of_nat (Z.to_nat (u8 (48 + n)))) "".

(** The local variables of [klee_init_env] that the loop updates. *)
Record settings : Type := Settings {
  new_argv : list (list Z);
  sym_arg_num : Z;
  sym_files_ : Z;
  sym_file_len : Z;
  sym_stdin_len : Z;
  sym_stdout_flag : Z;
  save_all_writes_flag : Z;
  fd_fail : Z
}.
Definition settings0 : settings := Settings [] 0 0 0 0 0 0 0.

Definition set_argv (l : list (list Z)) (n : Z) (st : settings) : settings :=
  Settings l n (sym_files_ st) (sym_file_len st) (sym_stdin_len st) (sym_stdout_flag st)
    (save_all_writes_flag st) (fd_fail st).

(** [sym_arg_name[3] = '0' + sym_arg_num++; __add_arg(..., __get_sym_str(max_len, ...), 1024)] *)
Definition add_sym_arg (max_len : Z) (st : settings) : M W settings :=
  s ← __get_sym_str (s32 max_len) (arg_name (sym_arg_num st));
  l ← __add_arg (new_argv st) s 1024;
  mret (set_argv l (u32 (sym_arg_num st + 1)) st).

Fixpoint add_sym_args (n : nat) (max_len : Z) (st : settings) : M W settings :=
  match n with
  | O => mret st
  | S n => st ← add_sym_arg max_len st; add_sym_args n max_len st
  end.

Definition msg_sym_arg := "--sym-arg expects an integer argument <max-len>".
Definition msg_sym_args :=
  "--sym-args expects three integer arguments <min-argvs> <max-argvs> <max-len>".
Definition msg_sym_files :=
  "--sym-files expects two integer arguments <no-sym-files> <sym-file-len>".
Definition msg_sym_stdin := "--sym-stdin expects one integer argument <sym-stdin-len>".
Definition msg_max_fail := "--max-fail expects an integer argument <max-failures>".

(** The [while (k < argc)] loop on the arguments from [k] on. *)
Fixpoint parse_args (argv : list (list Z)) (st : settings) : M W settings :=
  match argv with
  | [] => mret st
  | a :: rest =>
      is_sym_arg ← streq_or a "--sym-arg" "-sym-arg";
      if (is_sym_arg : bool) then
        match rest with
        | [] => __emit_error msg_sym_arg
        | n :: rest =>
            max_len ← __str_to_int n msg_sym_arg;
            st ← add_sym_arg (u32 max_len) st;
            parse_args rest st
        end
      else
      is_sym_args ← streq_or a "--sym-args" "-sym-args";
      if (is_sym_args : bool) then
        match rest with
        | a1 :: a2 :: a3 :: rest =>
            min_argvs ← __str_to_int a1 msg_sym_args;
            max_argvs ← __str_to_int a2 msg_sym_args;
            max_len ← __str_to_int a3 msg_sym_args;
            n_args ← klee_range (s32 min_argvs) (s32 (max_argvs + 1)) "n_args";
            st ← add_sym_args (Z.to_nat n_args) (u32 max_len) st;
            parse_args rest st
        | _ => __emit_error msg_sym_args
        end
      else
      is_sym_files ← streq_or a "--sym-files" "-sym-files";
      if (is_sym_files : bool) then
        match rest with
        | a1 :: a2 :: rest =>
            n ← __str_to_int a1 msg_sym_files;
            len ← __str_to_int a2 msg_sym_files;
            parse_args rest (Settings (new_argv st) (sym_arg_num st) (u32 n) (u32 len)
              (sym_stdin_len st) (sym_stdout_flag st) (save_all_writes_flag st) (fd_fail st))
        | _ => __emit_error msg_sym_files
        end
      else
      is_sym_stdin ← streq_or a "--sym-stdin" "-sym-stdin";
      if (is_sym_stdin : bool) then
        match rest with
        | [] => __emit_error msg_sym_stdin
        | n :: rest =>
            len ← __str_to_int n msg_sym_stdin;
            parse_args rest (Settings (new_argv st) (sym_arg_num st) (sym_files_ st)
              (sym_file_len st) (u32 len) (sym_stdout_flag st) (save_all_writes_flag st)
              (fd_fail st))
        end
      else
      is_sym_stdout ← streq_or a "--sym-stdout" "-sym-stdout";
      if (is_sym_stdout : bool) then
        parse_args rest (Settings (new_argv st) (sym_arg_num st) (sym_files_ st)
          (sym_file_len st) (sym_stdin_len st) 1 (save_all_writes_flag st) (fd_fail st))
      else
      is_save ← streq_or a "--save-all-writes" "-save-all-writes";
      if (is_save : bool) then
        parse_args rest (Settings (new_argv st) (sym_arg_num st) (sym_files_ st)
          (sym_file_len st) (sym_stdin_len st) (sym_stdout_flag st) 1 (fd_fail st))
      else
      is_fd_fail ← streq_or a "--fd-fail" "-fd-fail";
      if (is_fd_fail : bool) then
        parse_args rest (Settings (new_argv st) (sym_arg_num st) (sym_files_ st)
          (sym_file_len st) (sym_stdin_len st) (sym_stdout_flag st)
          (save_all_writes_flag st) 1)
      else
      is_max_fail ← streq_or a "--max-fail" "-max-fail";
      if (is_max_fail : bool) then
        match rest with
        | [] => __emit_error msg_max_fail
        | n :: rest =>
            v ← __str_to_int n msg_max_fail;
            parse_args rest (Settings (new_argv st) (sym_arg_num st) (sym_files_ st)
              (sym_file_len st) (sym_stdin_len st) (sym_stdout_flag st)
              (save_all_writes_flag st) (s32 v))
        end
      else
        l ← __add_arg (new_argv st) a 1024;
        parse_args rest (set_argv l (sym_arg_num st) st)
  end.

Definition klee_init_env (defaults : stat64) (argv : list (list Z)) : M W (list (list Z)) :=
  (match argv with
   | [_; a] => b ← __streq a (lit "--help"); if (b : bool) then __emit_error "usage" else mret tt
   | _ => mret tt
   end);;
  st ← parse_args argv settings0;
  klee_init_fds defaults (sym_files_ st) (sym_file_len st) (sym_stdin_len st)
    (sym_stdout_flag st) (save_all_writes_flag st) (u32 (fd_fail st));;
  mret (new_argv st).

End Ops.

(** ** The settings read from the command line *)
Section Spec.
Context {OS : Type} {K : Kernel OS} {KO : KernelOk OS}.
Abbreviation W := (world OS).
Implicit Types w : W.

(** Runs that only use the executor and return a value with [P]. *)
Definition osq {A} (m : M W A) (P : A -> Prop) : Prop :=
  forall w, post m w (fun a w' => same_but_os w w' /\ P a).

Lemma osq_bind {A B} (m : M W A) (f : A -> M W B) P Q :
  osq m P -> (forall a, P a -> osq (f a) Q) -> osq (m ≫= f) Q.
Proof.
  intros Hm Hf w. apply post_bind. eapply post_weaken; [apply Hm|].
  intros a w1 [H1 Ha]. eapply post_weaken; [by apply Hf|]. intros b w2 [H2 Hb].
  split; [by eapply same_but_os_trans|done].
Qed.
Lemma osq_ret {A} (a : A) (P : A -> Prop) : P a -> osq (mret a) P.
Proof. intros H w. apply post_ret. split; [apply same_but_os_refl|done]. Qed.
Lemma osq_halt {A} e (P : A -> Prop) : osq (halt e) P.
Proof. intros w. apply post_halt. Qed.
Lemma osq_if {A} (b : bool) (m1 m2 : M W A) P : osq m1 P -> osq m2 P -> osq (if b then m1 else m2) P.
Proof. by destruct b. Qed.
Lemma osq_symbolic name n : osq (make_symbolic name n) (fun l => length l = Z.to_nat n).
Proof. intros w. by apply post_make_symbolic. Qed.

Lemma osq_streq a b : osq (__streq a b) (fun _ => True).
Proof.
  revert b; induction a as [|x a IH]; intros [|y b]; simpl; try apply osq_halt.
  repeat apply osq_if; auto using osq_ret.
Qed.
Lemma osq_streq_or a s1 s2 : osq (streq_or a s1 s2) (fun _ => True).
Proof. eapply osq_bind; [apply osq_streq|]. intros [|] _; [by apply osq_ret|apply osq_streq]. Qed.

Lemma osq_str_to_int s msg : osq (__str_to_int s msg) (fun _ => True).
Proof.
  destruct s as [|c s]; simpl; [apply osq_halt|]. apply osq_if; [apply osq_halt|].
  change (osq (str_to_int_loop (c :: s) 0 msg) (fun _ => True)).
  generalize (c :: s) 0. clear. intros l. induction l as [|c l IH]; intros r; simpl; [apply osq_halt|].
  repeat apply osq_if; auto using osq_ret. apply osq_halt.
Qed.

(** Every setting fits its C type; every argument fits the array of 1024. *)
Definition ok_settings (st : settings) : Prop :=
  (length (new_argv st) <= 1024)%nat /\ is_u32 (sym_files_ st) /\ is_u32 (sym_file_len st) /\
  is_u32 (sym_stdin_len st) /\ is_s32 (fd_fail st).

Lemma osq_add_arg argv arg :
  (length argv <= 1024)%nat ->
  osq (__add_arg argv arg 1024) (fun l => l = argv ++ [arg] /\ (length l <= 1024)%nat).
Proof.
  intros H. unfold __add_arg. case_match eqn:E; [apply osq_halt|]. apply osq_ret.
  apply Z.eqb_neq in E. split; [done|]. rewrite length_app. simpl. lia.
Qed.

Lemma osq_add_sym_arg max_len st :
  ok_settings st -> osq (add_sym_arg max_len st) ok_settings.
Proof.
  intros (Hl & Hrest). unfold add_sym_arg, __get_sym_str.
  eapply (osq_bind _ _ (fun _ => True)).
  { apply osq_if; [apply osq_halt|]. eapply osq_bind; [apply osq_symbolic|]. intros. by apply osq_ret. }
  intros s _. eapply osq_bind; [by apply osq_add_arg|]. intros l [_ Hl']. apply osq_ret.
  by split.
Qed.

Lemma osq_add_sym_args n max_len st :
  ok_settings st -> osq (add_sym_args n max_len st) ok_settings.
Proof.
  revert st; induction n as [|n IH]; intros st H; simpl; [by apply osq_ret|].
  eapply osq_bind; [by apply osq_add_sym_arg|]. auto.
Qed.

Lemma osq_klee_range a b name : osq (klee_range a b name) (fun _ => True).
Proof.
  unfold klee_range. apply osq_if; [apply osq_halt|]. apply osq_if; [by apply osq_ret|].
  eapply osq_bind; [apply osq_symbolic|]. intros l _. eapply (osq_bind _ _ (fun _ => True));
    [|intros; by apply osq_ret].
  assert (Ha : forall b, osq (@klee_assume OS b) (fun _ => True)).
  { intros []; [by apply osq_ret|apply osq_halt]. }
  apply osq_if; [apply Ha|]. eapply osq_bind; [apply Ha|]. intros. apply Ha.
Qed.

Ltac parse_step :=
  match goal with
  | |- osq (streq_or _ _ _ ≫= _) _ => eapply osq_bind; [apply osq_streq_or|]; intros [|] _
  | |- osq (__str_to_int _ _ ≫= _) _ => eapply osq_bind; [apply osq_str_to_int|]; intros ? _
  | |- osq (klee_range _ _ _ ≫= _) _ => eapply osq_bind; [apply osq_klee_range|]; intros ? _
  | |- osq (add_sym_arg _ _ ≫= _) _ => eapply osq_bind; [by apply osq_add_sym_arg|]; intros ? ?
  | |- osq (add_sym_args _ _ _ ≫= _) _ => eapply osq_bind; [by apply osq_add_sym_args|]; intros ? ?
  | |- osq (match ?l with _ => _ end) _ => destruct l
  | |- osq (__emit_error _) _ => apply osq_halt
  end.

Lemma osq_parse_args argv st : ok_settings st -> osq (parse_args argv st) ok_settings.
Proof.
  remember (length argv) as n eqn:Hn. revert argv st Hn.
  induction n as [n IH] using lt_wf_ind. intros [|a rest] st Hn Hst; cbn [parse_args];
    [by apply osq_ret|]. simpl in Hn.
  assert (IH' : forall l st', (length l <= length rest)%nat -> ok_settings st' ->
                  osq (parse_args l st') ok_settings).
  { intros l st' Hl. eapply IH; [|done]. lia. }
  repeat parse_step; try (apply IH'; [simpl; lia|]); try done;
    try (destruct Hst as (?&?&?&?&?); unfold ok_settings; simpl; split_and!;
      first [done|apply u32_range|apply s32_range|by unfold is_s32]).
  eapply osq_bind; [apply osq_add_arg; apply Hst|]. intros l [_ Hl]. apply IH'; [done|].
  by destruct Hst as (_&?).
Qed.

Lemma init_env_spec (defaults : stat64) (argv : list (list Z)) (w : W) :
  boot w -> wf_stat defaults ->
  post (klee_init_env defaults argv) w
    (fun argv' w' => wf w' /\ (length argv' <= 1024)%nat /\ version (w_env w') = 1).
Proof.
  intros Hb Hd. unfold klee_init_env.
  assert (Hh : osq (match argv with
                    | [_; a] => b ← __streq a (lit "--help");
                        if (b : bool) then __emit_error "usage" else mret tt
                    | _ => mret tt end) (fun _ => True)).
  { destruct argv as [|? [|? [|]]]; try by apply osq_ret.
    eapply osq_bind; [apply osq_streq|]. intros [|] _; [apply osq_halt|by apply osq_ret]. }
  apply post_bind. eapply post_weaken; [apply Hh|]. intros _ w1 [H1 _]. clear Hh.
  apply post_bind. eapply post_weaken; [apply osq_parse_args|].
  { repeat split; simpl; lia. }
  intros st w2 [H2 (Hl & Hf & Hfl & Hs & Hfail)].
  assert (Hb2 : boot w2) by (destruct H1 as [o1 ->], H2 as [o2 ->]; exact Hb).
  apply post_bind. eapply post_weaken; [apply init_fds_spec; try done; apply u32_range|].
  intros _ w3 (Hw & Hi). apply post_ret. split; [done|]. split; [done|]. apply Hi.
Qed.

(** Reading the command line and initialising: whatever the arguments are, a run
    that returns has the invariant and hands the program at most 1024 arguments. *)
Theorem klee_init_env_correct (defaults : stat64) (argv : list (list Z)) (w : W) :
  boot w -> wf_stat defaults ->
  post (klee_init_env defaults argv) w
    (fun argv' w' => wf w' /\ (length argv' <= 1024)%nat /\ version (w_env w') = 1).
Proof. exact (init_env_spec defaults argv w). Qed.

(** ** Printing and reading a command line *)

(** Decimal digits of a number below 10^20. *)
Fixpoint dec_digits (fuel : nat) (n : Z) (acc : list Z) : list Z :=
  match fuel with
  | O => acc
  | S fuel => if n <? 10 then (48 + n) :: acc
              else dec_digits fuel (n / 10) ((48 + n `mod` 10) :: acc)
  end.
Definition dec (n : Z) : list Z := dec_digits 20 n [] ++ [0].

Definition is_digit (c : Z) : Prop := 48 <= c <= 57.

Lemma loop_digits l s res msg w :
  Forall is_digit l ->
  str_to_int_loop (l ++ s) res msg w =
  str_to_int_loop s (fold_left (fun r c => s64 (r * 10 + (c - 48))) l res) msg w.
Proof.
  intros Hl. revert res. induction Hl as [|c l Hc Hl IH]; intros res; simpl; [done|].
  unfold is_digit in Hc. rewrite (proj2 (Z.eqb_neq c 0)) by lia.
  assert (E : s8 c = c) by (apply (sext_small 8); lia).
  rewrite E. rewrite (proj2 (Z.leb_le 48 c)), (proj2 (Z.leb_le c 57)) by lia. apply IH.
Qed.

Lemma dec_digits_spec fuel n acc :
  0 <= n < 10 ^ Z.of_nat fuel -> n < 9223372036854775808 -> Forall is_digit acc ->
  Forall is_digit (dec_digits fuel n acc) /\
  fold_left (fun r c => s64 (r * 10 + (c - 48))) (dec_digits fuel n acc) 0 =
  fold_left (fun r c => s64 (r * 10 + (c - 48))) acc n.
Proof.
  revert n acc; induction fuel as [|fuel IH]; intros n acc Hn Hm Hacc; simpl.
  - rewrite Z.pow_0_r in Hn. split; [done|]. by replace n with 0 by lia.
  - case_match eqn:E; [apply Z.ltb_lt in E|apply Z.ltb_ge in E].
    + split; [constructor; [unfold is_digit; lia|done]|]. simpl.
      f_equal. rewrite s64_small by lia. lia.
    + pose proof (Z.div_mod n 10 ltac:(lia)). pose proof (Z.mod_pos_bound n 10 ltac:(lia)).
      rewrite Nat2Z.inj_succ, Z.pow_succ_r in Hn by lia.
      destruct (IH (n / 10) ((48 + n `mod` 10) :: acc)) as [H1 H2].
      * split; [apply Z.div_pos; lia|]. apply Z.div_lt_upper_bound; lia.
      * assert (n / 10 <= n) by (apply Z.div_le_upper_bound; lia). lia.
      * constructor; [unfold is_digit; lia|done].
      * split; [done|]. rewrite H2. simpl. f_equal.
        replace (n / 10 * 10 + (48 + n `mod` 10 - 48)) with n by lia. apply s64_small. lia.
Qed.

Lemma dec_digits_cons fuel n acc :
  (0 < fuel)%nat -> 0 <= n -> exists c l, dec_digits fuel n acc = c :: l.
Proof.
  destruct fuel as [|fuel]; [lia|]. intros _. revert n acc.
  induction fuel as [|fuel IH]; intros n acc Hn.
  - simpl. case_match; eauto.
  - cbn [dec_digits]. case_match; [eauto|]. apply (IH (n / 10)). apply Z.div_pos; lia.
Qed.

(** [__str_to_int] reads back every decimal number that fits a [long]. *)
Lemma str_to_int_dec n msg w :
  0 <= n < 9223372036854775808 -> __str_to_int (dec n) msg w = Ret (n, w).
Proof.
  intros Hn. unfold dec.
  destruct (dec_digits_spec 20 n []) as [H1 H2]; [simpl; lia|lia|constructor|].
  destruct (dec_digits_cons 20 n []) as (c & l & E); [lia|lia|]. rewrite E in *.
  assert (Hc : c <> 0). { inversion H1. unfold is_digit in *. lia. }
  cbn [app __str_to_int]. rewrite (proj2 (Z.eqb_neq c 0)) by done.
  change (c :: l ++ [0]) with ((c :: l) ++ [0]). rewrite loop_digits by done.
  rewrite H2. done.
Qed.

(** The options of the command line that set a parameter, and other arguments. *)
Inductive opt : Type :=
  | OSymFiles (n len : Z) | OSymStdin (n : Z) | OSymStdout | OSaveAllWrites | OFdFail
  | OMaxFail (n : Z) | OPlain (a : list Z).

(** The option as it is typed, with one or two dashes. *)
Definition flag (dd : bool) (name : string) : list Z :=
  if dd then lit ("--" +:+ name) else lit ("-" +:+ name).
Definition render (o : bool * opt) : list (list Z) :=
  let '(dd, o) := o in
  match o with
  | OSymFiles n len => [flag dd "sym-files"; dec n; dec len]
  | OSymStdin n => [flag dd "sym-stdin"; dec n]
  | OSymStdout => [flag dd "sym-stdout"]
  | OSaveAllWrites => [flag dd "save-all-writes"]
  | OFdFail => [flag dd "fd-fail"]
  | OMaxFail n => [flag dd "max-fail"; dec n]
  | OPlain a => [a]
  end.

(** Its documented meaning. *)
Definition apply_opt (st : settings) (o : bool * opt) : settings :=
  match o.2 with
  | OSymFiles n len => Settings (new_argv st) (sym_arg_num st) n len (sym_stdin_len st)
      (sym_stdout_flag st) (save_all_writes_flag st) (fd_fail st)
  | OSymStdin n => Settings (new_argv st) (sym_arg_num st) (sym_files_ st) (sym_file_len st) n
      (sym_stdout_flag st) (save_all_writes_flag st) (fd_fail st)
  | OSymStdout => Settings (new_argv st) (sym_arg_num st) (sym_files_ st) (sym_file_len st)
      (sym_stdin_len st) 1 (save_all_writes_flag st) (fd_fail st)
  | OSaveAllWrites => Settings (new_argv st) (sym_arg_num st) (sym_files_ st) (sym_file_len st)
      (sym_stdin_len st) (sym_stdout_flag st) 1 (fd_fail st)
  | OFdFail => Settings (new_argv st) (sym_arg_num st) (sym_files_ st) (sym_file_len st)
      (sym_stdin_len st) (sym_stdout_flag st) (save_all_writes_flag st) 1
  | OMaxFail n => Settings (new_argv st) (sym_arg_num st) (sym_files_ st) (sym_file_len st)
      (sym_stdin_len st) (sym_stdout_flag st) (save_all_writes_flag st) n
  | OPlain a => set_argv (new_argv st ++ [a]) (sym_arg_num st) st
  end.

Definition option_names : list (list Z) :=
  map lit ["--sym-arg"; "-sym-arg"; "--sym-args"; "-sym-args"; "--sym-files"; "-sym-files";
           "--sym-stdin"; "-sym-stdin"; "--sym-stdout"; "-sym-stdout"; "--save-all-writes";
           "-save-all-writes"; "--fd-fail"; "-fd-fail"; "--max-fail"; "-max-fail"].

Definition is_cstr (a : list Z) : Prop := exists l, a = l ++ [0] /\ Forall (fun b => b <> 0) l.
Definition valid_opt (o : bool * opt) : Prop :=
  match o.2 with
  | OSymFiles n len => is_u32 n /\ is_u32 len
  | OSymStdin n => is_u32 n
  | OMaxFail n => 0 <= n < 2147483648
  | OPlain a => is_cstr a /\ a ∉ option_names
  | _ => True
  end.

Lemma streq_spec a b w : is_cstr a -> is_cstr b -> __streq a b w = Ret (bool_decide (a = b), w).
Proof.
  intros (la & -> & Ha) (lb & -> & Hb). revert lb Hb.
  induction Ha as [|x la Hx Ha IH]; intros lb Hb; destruct Hb as [|y lb Hy Hb]; simpl; try done.
  - rewrite (proj2 (Z.eqb_neq 0 y)) by congruence. by rewrite bool_decide_false by congruence.
  - rewrite (proj2 (Z.eqb_neq x 0)) by congruence. by rewrite bool_decide_false by congruence.
  - destruct (Z.eqb_spec x y) as [->|Hxy].
    + rewrite (proj2 (Z.eqb_neq y 0)) by done. rewrite IH by done. f_equal. f_equal.
      apply bool_decide_ext. split; [by intros ->|by intros [= ->]].
    + by rewrite bool_decide_false by congruence.
Qed.

Lemma lit_cstr s : forallb (fun b => negb (b =? 0)) (bytes_of_string s) = true -> is_cstr (lit s).
Proof.
  intros H. exists (bytes_of_string s). split; [done|]. rewrite forallb_forall in H.
  apply Forall_forall. intros b Hb. apply list_elem_of_In, H in Hb.
  apply negb_true_iff, Z.eqb_neq in Hb. done.
Qed.

(** An argument that is none of the options is copied. *)
Lemma parse_plain a rest st w :
  is_cstr a -> a ∉ option_names -> (length (new_argv st) < 1024)%nat ->
  parse_args (a :: rest) st w =
  parse_args rest (set_argv (new_argv st ++ [a]) (sym_arg_num st) st) w.
Proof.
  intros Ha Hn Hl. unfold option_names in Hn. simpl in Hn. cbn [parse_args].
  assert (Hno : forall s1 s2 {A} (m1 m2 : M W A), is_cstr (lit s1) -> is_cstr (lit s2) ->
    a <> lit s1 -> a <> lit s2 ->
    (b ← streq_or a s1 s2; if (b : bool) then m1 else m2) w = m2 w).
  { intros s1 s2 A m1 m2 H1 H2 N1 N2. erewrite mbind_run; [|].
    2:{ unfold streq_or. erewrite mbind_run by (by apply streq_spec).
        rewrite bool_decide_false by done. by apply streq_spec. }
    by rewrite bool_decide_false. }
  do 8 (rewrite Hno; [|by apply lit_cstr|by apply lit_cstr|set_solver|set_solver]).
  erewrite mbind_run; [done|]. unfold __add_arg.
  by rewrite (proj2 (Z.eqb_neq _ 1024)) by lia.
Qed.

Fixpoint plain_count (opts : list (bool * opt)) : nat :=
  match opts with
  | [] => 0
  | (_, OPlain _) :: opts => S (plain_count opts)
  | _ :: opts => plain_count opts
  end.

Lemma parse_one o rest st w :
  valid_opt o -> (length (new_argv st) + plain_count [o] <= 1024)%nat ->
  parse_args (render o ++ rest) st w = parse_args rest (apply_opt st o) w.
Proof.
  intros Hv Hl. destruct o as [dd []]; unfold valid_opt, is_u32 in Hv; unfold apply_opt;
    cbn [snd render app] in *.
  - transitivity ((n1 ← __str_to_int (dec n) msg_sym_files;
      n2 ← __str_to_int (dec len) msg_sym_files;
      parse_args rest (Settings (new_argv st) (sym_arg_num st) (u32 n1) (u32 n2)
        (sym_stdin_len st) (sym_stdout_flag st) (save_all_writes_flag st) (fd_fail st))) w);
      [by destruct dd|].
    erewrite mbind_run by (apply (str_to_int_dec n); lia).
    erewrite mbind_run by (apply (str_to_int_dec len); lia). by rewrite !u32_small by lia.
  - transitivity ((n1 ← __str_to_int (dec n) msg_sym_stdin;
      parse_args rest (Settings (new_argv st) (sym_arg_num st) (sym_files_ st) (sym_file_len st)
        (u32 n1) (sym_stdout_flag st) (save_all_writes_flag st) (fd_fail st))) w);
      [by destruct dd|].
    erewrite mbind_run by (apply (str_to_int_dec n); lia). by rewrite u32_small by lia.
  - by destruct dd.
  - by destruct dd.
  - by destruct dd.
  - transitivity ((n1 ← __str_to_int (dec n) msg_max_fail;
      parse_args rest (Settings (new_argv st) (sym_arg_num st) (sym_files_ st) (sym_file_len st)
        (sym_stdin_len st) (sym_stdout_flag st) (save_all_writes_flag st) (s32 n1))) w);
      [by destruct dd|].
    erewrite mbind_run by (apply (str_to_int_dec n); lia). by rewrite s32_small by lia.
  - destruct Hv. apply parse_plain; [done|done|]. simpl in Hl. lia.
Qed.

(** The command line is read back: printing a list of options and arguments (with
    decimal numbers, one or two dashes) and parsing it gives exactly the settings
    the options stand for, in order, and leaves the state unchanged. *)
Theorem parse_render (opts : list (bool * opt)) (st : settings) (w : W) :
  Forall valid_opt opts -> (length (new_argv st) + plain_count opts <= 1024)%nat ->
  parse_args (concat (map render opts)) st w = Ret (fold_left apply_opt opts st, w).
Proof.
  intros Hv. revert st. induction Hv as [|o opts Ho Hv IH]; intros st Hl; simpl; [done|].
  assert (E : plain_count (o :: opts) = (plain_count [o] + plain_count opts)%nat)
    by (by destruct o as [? []]).
  rewrite parse_one; [|done|lia]. apply IH.
  destruct o as [dd []]; unfold apply_opt; simpl in *; try lia.
  rewrite length_app. simpl. lia.
Qed.

End Spec.

(** ** Concrete runs *)
Definition demo_opts : list (bool * opt) :=
  [(true, OPlain (lit "prog")); (true, OSymFiles 3 16); (false, OMaxFail 2); (true, OPlain (lit "-x"))].

Lemma demo_opts_valid : Forall valid_opt demo_opts.
Proof.
  assert (Hp : forall s, s = "prog" \/ s = "-x" -> is_cstr (lit s) /\ lit s ∉ option_names).
  { intros s [-> | ->]; (split; [by apply lit_cstr|]); intros H; vm_compute in H;
      repeat (apply elem_of_cons in H as [H|H]; [discriminate H|]); by apply elem_of_nil in H. }
  repeat constructor; unfold valid_opt; simpl; unfold is_u32; try lia; apply Hp; auto.
Qed.

Lemma parse_render_witness :
  parse_args (concat (map render demo_opts)) settings0 (boot_world demo_mem tt) =
  Ret (Settings [lit "prog"; lit "-x"] 0 3 16 0 0 0 2, boot_world demo_mem tt).
Proof.
  refine (eq_trans (parse_render demo_opts settings0 (boot_world demo_mem tt) demo_opts_valid _) _);
    [vm_compute; lia|reflexivity].
Defined.

Lemma klee_init_env_correct_witness :
  exists w, klee_init_env demo_stat (concat (map render demo_opts)) (boot_world demo_mem tt) =
    Ret ([lit "prog"; lit "-x"], w) /\ wf w.
Proof.
  assert (E : exists w, klee_init_env demo_stat (concat (map render demo_opts))
    (boot_world demo_mem tt) = Ret ([lit "prog"; lit "-x"], w)) by (eexists; vm_compute; reflexivity).
  destruct E as [w E]. exists w. split; [exact E|].
  exact (proj1 (klee_init_env_correct demo_stat _ _ demo_boot demo_stat_wf _ _ E)).
Defined.

End Env.
