(* ===== verification/PosixStubs.v ===== *)
(** * POSIX model: stubs, illegal calls, device numbers, SELinux

    runtime/POSIX/stubs.c, illegal.c and selinux.c: the services the run time
    refuses (an error code and nothing else), the ones it ignores, the clock
    functions, the device-number encoding, and the SELinux context of created
    files. The functions of stubs.c that only forward to a libc function outside
    the repository (_IO_getc, _IO_putc, getutxent, setutxent, endutxent,
    utmpxname, canonicalize_file_name) are left out. *)
From stdpp Require Import base gmap list numbers strings.
From Stdlib Require Import ZArith Lia.
From S2P Require Import Prelude CMem LibcStr PosixState PosixInv PosixFd Intrinsics PosixInit.

Module Stubs.

Section Refused.
Context {OS : Type}.
Abbreviation W := (world OS).

(** ** stubs.c: ignored and refused services *)
Definition __syscall_rt_sigaction (signum act oldact _something : Z) : M W Z :=
  klee_warning_once "silently ignoring";; mret 0.
Definition sigaction (signum act oldact : Z) : M W Z :=
  klee_warning_once "silently ignoring";; mret 0.
Definition sigprocmask (how set oldset : Z) : M W Z :=
  klee_warning_once "silently ignoring";; mret 0.
Definition fdatasync (fd : Z) : M W Z := mret 0.
Definition sync : M W unit := mret tt.
Definition __socketcall (type_ args : Z) : M W Z :=
  klee_warning "ignoring (EAFNOSUPPORT)";; fail EAFNOSUPPORT.
Definition mkdir (pathname mode : Z) : M W Z :=
  klee_warning "ignoring (EIO)";; fail EIO.
Definition mkfifo (pathname mode : Z) : M W Z :=
  klee_warning "ignoring (EIO)";; fail EIO.
Definition mknod (pathname mode dev : Z) : M W Z :=
  klee_warning "ignoring (EIO)";; fail EIO.
Definition pipe (filedes : Z) : M W Z :=
  klee_warning "ignoring (ENFILE)";; fail ENFILE.
Definition link (oldpath newpath : Z) : M W Z :=
  klee_warning "ignoring (EPERM)";; fail EPERM.
Definition symlink (oldpath newpath : Z) : M W Z :=
  klee_warning "ignoring (EPERM)";; fail EPERM.
Definition rename (oldpath newpath : Z) : M W Z :=
  klee_warning "ignoring (EPERM)";; fail EPERM.
Definition nanosleep (req rem : Z) : M W Z := mret 0.
Definition clock_settime (clk_id res : Z) : M W Z :=
  klee_warning "ignoring (EPERM)";; fail EPERM.
Definition utime (filename buf : Z) : M W Z :=
  klee_warning "ignoring (EPERM)";; fail EPERM.
Definition futimes (fd times : Z) : M W Z :=
  klee_warning "ignoring (EBADF)";; fail EBADF.
Definition getloadavg (loadavg nelem : Z) : M W Z :=
  klee_warning "ignoring (-1 result)";; mret (-1).
Definition wait (status : Z) : M W Z :=
  klee_warning "ignoring (ECHILD)";; fail ECHILD.
Definition wait3 (status options rusage : Z) : M W Z :=
  klee_warning "ignoring (ECHILD)";; fail ECHILD.
Definition wait4 (pid status options rusage : Z) : M W Z :=
  klee_warning "ignoring (ECHILD)";; fail ECHILD.
Definition waitpid (pid status options : Z) : M W Z :=
  klee_warning "ignoring (ECHILD)";; fail ECHILD.
Definition waitid (idtype id infop options : Z) : M W Z :=
  klee_warning "ignoring (ECHILD)";; fail ECHILD.
Definition acl_delete_def_file (path_p : Z) : M W Z :=
  klee_warning "ignoring (EPERM)";; fail EPERM.
Definition acl_extended_file (path_p : Z) : M W Z :=
  klee_warning "ignoring (ENOENT)";; fail ENOENT.
Definition acl_entries (acl : Z) : M W Z :=
  klee_warning "ignoring (EINVAL)";; fail EINVAL.
Definition acl_from_mode (mode : Z) : M W Z :=
  klee_warning "ignoring (ENOMEM)";; set_errno ENOMEM;; mret 0.
Definition acl_get_fd (fd : Z) : M W Z :=
  klee_warning "ignoring (ENOMEM)";; set_errno ENOMEM;; mret 0.
Definition acl_get_file (pathname type_ : Z) : M W Z :=
  klee_warning "ignoring (ENONMEM)";; set_errno ENOMEM;; mret 0.
Definition acl_set_fd (fd acl : Z) : M W Z :=
  klee_warning "ignoring (EPERM)";; fail EPERM.
Definition acl_set_file (path_p type_ acl : Z) : M W Z :=
  klee_warning "ignoring (EPERM)";; fail EPERM.
Definition acl_free (obj_p : Z) : M W Z :=
  klee_warning "ignoring (EINVAL)";; fail EINVAL.
Definition mount (source target filesystemtype mountflags data : Z) : M W Z :=
  klee_warning "ignoring (EPERM)";; fail EPERM.
Definition umount (target : Z) : M W Z :=
  klee_warning "ignoring (EPERM)";; fail EPERM.
Definition umount2 (target flags : Z) : M W Z :=
  klee_warning "ignoring (EPERM)";; fail EPERM.
Definition swapon (path swapflags : Z) : M W Z :=
  klee_warning "ignoring (EPERM)";; fail EPERM.
Definition swapoff (path : Z) : M W Z :=
  klee_warning "ignoring (EPERM)";; fail EPERM.
Definition setgid (gid : Z) : M W Z :=
  klee_warning "silently ignoring (returning 0)";; mret 0.
Definition setgroups (size_ list_ : Z) : M W Z :=
  klee_warning "ignoring (EPERM)";; fail EPERM.
Definition sethostname (name len : Z) : M W Z :=
  klee_warning "ignoring (EPERM)";; fail EPERM.
Definition setpgid (pid pgid : Z) : M W Z :=
  klee_warning "ignoring (EPERM)";; fail EPERM.
Definition setpgrp : M W Z :=
  klee_warning "ignoring (EPERM)";; fail EPERM.
Definition setpriority (which who prio : Z) : M W Z :=
  klee_warning "ignoring (EPERM)";; fail EPERM.
Definition setresgid (rgid egid sgid : Z) : M W Z :=
  klee_warning "ignoring (EPERM)";; fail EPERM.
Definition setresuid (ruid euid suid : Z) : M W Z :=
  klee_warning "ignoring (EPERM)";; fail EPERM.
Definition setrlimit (resource rlim : Z) : M W Z :=
  klee_warning "ignoring (EPERM)";; fail EPERM.
Definition setrlimit64 (resource rlim : Z) : M W Z :=
  klee_warning "ignoring (EPERM)";; fail EPERM.
Definition setsid : M W Z :=
  klee_warning "ignoring (EPERM)";; fail EPERM.
Definition settimeofday (tv tz : Z) : M W Z :=
  klee_warning "ignoring (EPERM)";; fail EPERM.
Definition setuid (uid : Z) : M W Z :=
  klee_warning "silently ignoring (returning 0)";; mret 0.
Definition reboot (flag : Z) : M W Z :=
  klee_warning "ignoring (EPERM)";; fail EPERM.
Definition mlock (addr len : Z) : M W Z :=
  klee_warning "ignoring (EPERM)";; fail EPERM.
Definition munlock (addr len : Z) : M W Z :=
  klee_warning "ignoring (EPERM)";; fail EPERM.
Definition pause : M W Z :=
  klee_warning "ignoring (EPERM)";; fail EPERM.
Definition readahead (fd offset_ count : Z) : M W Z :=
  klee_warning "ignoring (EPERM)";; fail EPERM.
Definition mmap (start length_ prot flags fd offset_ : Z) : M W Z :=
  klee_warning "ignoring (EPERM)";; fail EPERM.
Definition mmap64 (start length_ prot flags fd offset_ : Z) : M W Z :=
  klee_warning "ignoring (EPERM)";; fail EPERM.
Definition munmap (start length_ : Z) : M W Z :=
  klee_warning "ignoring (EPERM)";; fail EPERM.

(** ** illegal.c *)
Definition kill (pid sig : Z) : M W Z := klee_warning "ignoring (EPERM)";; fail EPERM.
Definition _setjmp (env : Z) : M W Z := klee_warning_once "ignoring";; mret 0.
Definition longjmp (env val : Z) : M W unit :=
  Intrinsics.klee_report_error "longjmp unsupported".
Definition __bad_exec : M W Z := klee_warning "ignoring (EACCES)";; fail EACCES.
Definition execl (path arg : Z) : M W Z := __bad_exec.
Definition execlp (file arg : Z) : M W Z := __bad_exec.
Definition execle (path arg : Z) : M W Z := __bad_exec.
Definition execv (path argv : Z) : M W Z := __bad_exec.
Definition execvp (file argv : Z) : M W Z := __bad_exec.
Definition execve (file argv envp : Z) : M W Z := __bad_exec.
Definition fork : M W Z := klee_warning "ignoring (ENOMEM)";; fail ENOMEM.
Definition vfork : M W Z := fork.

(** struct tms: four [clock_t] of 8 bytes. *)
Definition times (buf : Z) : M W Z :=
  if buf =? 0 then klee_warning "returning 0";; mret 0
  else
    klee_warning "setting all times to 0 and returning 0";;
    on_mem (store_int 8 buf 0);; on_mem (store_int 8 (buf + 8) 0);;
    on_mem (store_int 8 (buf + 16) 0);; on_mem (store_int 8 (buf + 24) 0);; mret 0.

(** The bound on the recursion of [strcmp] is the number of bytes of the memory. *)
Definition strverscmp (s1 s2 : Z) : M W Z :=
  m ← gets w_mem; on_mem (LibcStr.strcmp (S (size m)) s1 s2).

Context {K : Kernel OS}.

Definition gettimeofday : M W (Z * Z) :=
  o ← gets w_os; mret (s64 (os_gettimeofday o).1, s64 (os_gettimeofday o).2).

Definition clock_gettime (clk_id res : Z) : M W Z :=
  '(tv_sec, tv_usec) ← gettimeofday;
  on_mem (store_int 8 res tv_sec);;
  on_mem (store_int 8 (res + 8) (s64 (tv_usec * 1000)));; mret 0.

Definition time (t : Z) : M W Z :=
  '(tv_sec, _) ← gettimeofday;
  (if nz t then on_mem (store_int 8 t tv_sec) else mret tt);; mret tv_sec.

Definition euidaccess (pathname mode : Z) : M W Z := Fd.access pathname mode.
Definition eaccess (pathname mode : Z) : M W Z := euidaccess pathname mode.
Definition group_member (gid : Z) : M W Z :=
  g ← getgid; if gid =? g then mret 1 else e ← getegid; mret (b2z (gid =? e)).

(** ** selinux.c: [create_con] is the static context pointer *)
Definition is_selinux_enabled : Z := 1.

Definition getfscreatecon (context : Z) : M (Z * W) Z :=
  con ← gets fst;
  zoom snd (fun w s => (s.1, w)) (on_mem (store_int 8 context con));; mret 0.

Definition setfscreatecon (context : Z) : M (Z * W) Z :=
  if context =? 0 then modify (fun s => (context, s.2));; mret 0
  else
    c ← zoom snd (fun w s => (s.1, w)) (on_mem (load context));
    c1 ← (if negb (c =? 0) then zoom snd (fun w s => (s.1, w)) (on_mem (load (context + 1)))
          else mret 1);
    if negb (c =? 0) && (c1 =? 0) then halt (Exit 1) else mret (-1).

Definition setfilecon (path con : Z) : M W Z := if nz con then mret 0 else fail ENOSPC.
Definition lsetfilecon (path con : Z) : M W Z := setfilecon path con.
Definition fsetfilecon (fd con : Z) : M W Z := setfilecon 0 con.
End Refused.

(** ** Device numbers: 32-bit major and minor, 64-bit device *)
Definition gnu_dev_major (dev : Z) : Z :=
  u32 (Z.lor (Z.land (Z.shiftr dev 8) 4095) (Z.land (u32 (Z.shiftr dev 32)) (Z.lnot 4095))).
Definition gnu_dev_minor (dev : Z) : Z :=
  u32 (Z.lor (Z.land dev 255) (Z.land (u32 (Z.shiftr dev 12)) (Z.lnot 255))).
Definition gnu_dev_makedev (major minor : Z) : Z :=
  u64 (Z.lor (Z.lor (Z.lor (Z.land minor 255) (u32 (Z.shiftl (Z.land major 4095) 8)))
                    (u64 (Z.shiftl (Z.land minor (Z.lnot 255)) 12)))
             (u64 (Z.shiftl (Z.land major (Z.lnot 4095)) 32))).

(** ** The device-number encoding is a bijection *)

Lemma mask8_bit n : 0 <= n -> Z.testbit 255 n = (n <? 8).
Proof. intros Hn. change 255 with (Z.ones 8). by rewrite Z.testbit_ones_nonneg by lia. Qed.
Lemma mask12_bit n : 0 <= n -> Z.testbit 4095 n = (n <? 12).
Proof. intros Hn. change 4095 with (Z.ones 12). by rewrite Z.testbit_ones_nonneg by lia. Qed.
Lemma shl_bit z k n :
  0 <= k -> 0 <= n -> Z.testbit (Z.shiftl z k) n = (k <=? n) && Z.testbit z (n - k).
Proof.
  intros Hk Hn. rewrite Z.shiftl_spec by done. destruct (Z.leb_spec k n); [done|].
  by rewrite Z.testbit_neg_r by lia.
Qed.

(** Decide the masks on each range of positions, and identify equal positions. *)
Ltac decide_masks :=
  repeat match goal with
  | |- context [?a <? ?b] => destruct (Z.ltb_spec a b); try lia; cbn [andb orb negb]
  | |- context [?a <=? ?b] => destruct (Z.leb_spec a b); try lia; cbn [andb orb negb]
  end.
Ltac same_bits :=
  rewrite ?andb_false_r, ?andb_true_r, ?orb_false_r; cbn [andb orb negb];
  try (f_equal; lia); try done.

Lemma u32_high z n : is_u32 z -> 32 <= n -> Z.testbit z n = false.
Proof. intros Hz Hn. apply (testbit_high 32); [exact Hz|done]. Qed.
Lemma u64_high z n : is_u64 z -> 64 <= n -> Z.testbit z n = false.
Proof. intros Hz Hn. apply (testbit_high 64); [exact Hz|done]. Qed.

(** The bits of a device number. *)
Lemma makedev_bit M m n :
  is_u32 M -> is_u32 m -> 0 <= n ->
  Z.testbit (gnu_dev_makedev M m) n =
  if n <? 8 then Z.testbit m n else if n <? 20 then Z.testbit M (n - 8)
  else if n <? 44 then Z.testbit m (n - 12) else Z.testbit M (n - 32).
Proof.
  intros HM Hm Hn. unfold gnu_dev_makedev. rewrite u64_bit by lia. rewrite !Z.lor_spec.
  rewrite u32_bit, !u64_bit, !shl_bit, !Z.land_spec by lia.
  destruct (Z.ltb_spec n 8).
  { rewrite mask8_bit by lia. decide_masks. same_bits. }
  rewrite mask8_bit by lia.
  destruct (Z.ltb_spec n 20).
  { rewrite !mask12_bit by lia. decide_masks; rewrite ?Z.lnot_spec, ?mask8_bit by lia;
      decide_masks; same_bits. }
  rewrite !mask12_bit by lia. rewrite !Z.lnot_spec, mask8_bit by lia.
  destruct (Z.ltb_spec n 44).
  { decide_masks; rewrite ?Z.lnot_spec, ?mask12_bit by lia; decide_masks; same_bits. }
  rewrite (u32_high m (n - 12)) by (done || lia). cbn [andb].
  rewrite ?Z.lnot_spec, ?mask12_bit by lia.
  destruct (Z.ltb_spec n 64); [|rewrite (u32_high M (n - 32)) by (done || lia)];
    decide_masks; same_bits.
Qed.

Lemma major_bit d n :
  0 <= n ->
  Z.testbit (gnu_dev_major d) n =
  (n <? 32) && (if n <? 12 then Z.testbit d (n + 8) else Z.testbit d (n + 32)).
Proof.
  intros Hn. unfold gnu_dev_major. rewrite u32_bit, Z.lor_spec, !Z.land_spec, u32_bit,
    !Z.shiftr_spec, Z.lnot_spec, mask12_bit by lia.
  decide_masks; same_bits.
Qed.

Lemma minor_bit d n :
  0 <= n ->
  Z.testbit (gnu_dev_minor d) n =
  (n <? 32) && (if n <? 8 then Z.testbit d n else Z.testbit d (n + 12)).
Proof.
  intros Hn. unfold gnu_dev_minor. rewrite u32_bit, Z.lor_spec, !Z.land_spec, u32_bit,
    !Z.shiftr_spec, Z.lnot_spec, mask8_bit by lia.
  decide_masks; same_bits.
Qed.

(** Building a device number from 32-bit major and minor numbers loses nothing,
    and every 64-bit device number is built from its major and minor. *)
Theorem gnu_dev_roundtrip (M m d : Z) :
  is_u32 M -> is_u32 m -> is_u64 d ->
  gnu_dev_major (gnu_dev_makedev M m) = M /\ gnu_dev_minor (gnu_dev_makedev M m) = m /\
  gnu_dev_makedev (gnu_dev_major d) (gnu_dev_minor d) = d.
Proof.
  intros HM Hm Hd. repeat split; apply Z.bits_inj'; intros n Hn.
  - rewrite major_bit, !makedev_bit by (done || lia).
    destruct (Z.ltb_spec n 32); [|by rewrite (u32_high _ n) by done]. decide_masks; same_bits.
  - rewrite minor_bit, !makedev_bit by (done || lia).
    destruct (Z.ltb_spec n 32); [|by rewrite (u32_high _ n) by done]. decide_masks; same_bits.
  - rewrite makedev_bit by (lia || apply u32_range).
    destruct (Z.ltb_spec n 64).
    + destruct (Z.ltb_spec n 8); [|destruct (Z.ltb_spec n 20); [|destruct (Z.ltb_spec n 44)]];
        rewrite ?minor_bit, ?major_bit by lia; decide_masks; same_bits.
    + rewrite (u64_high d) by done. decide_masks. rewrite major_bit by lia. by decide_masks.
Qed.

Lemma gnu_dev_roundtrip_witness :
  gnu_dev_makedev 4660 1048577 = 17596481156097 /\
  gnu_dev_major 17596481156097 = 4660 /\ gnu_dev_minor 17596481156097 = 1048577.
Proof.
  destruct (gnu_dev_roundtrip 4660 1048577 0) as (H1 & H2 & _);
    [unfold is_u32; lia|unfold is_u32; lia|unfold is_u64; lia|].
  assert (E : gnu_dev_makedev 4660 1048577 = 17596481156097) by (vm_compute; reflexivity).
  rewrite E in H1, H2. split; [exact E|]. split; [exact H1|exact H2].
Defined.

(** ** Refused services

    Every refused service with the error code its warning names. *)
Definition refused {OS} (a b c d e f : Z) : list (M (world OS) Z * Z) :=
  [(__socketcall a b, EAFNOSUPPORT); (mkdir a b, EIO); (mkfifo a b, EIO); (mknod a b c, EIO);
   (pipe a, ENFILE); (link a b, EPERM); (symlink a b, EPERM); (rename a b, EPERM);
   (clock_settime a b, EPERM); (utime a b, EPERM); (futimes a b, EBADF); (wait a, ECHILD);
   (wait3 a b c, ECHILD); (wait4 a b c d, ECHILD); (waitpid a b c, ECHILD);
   (waitid a b c d, ECHILD); (acl_delete_def_file a, EPERM); (acl_extended_file a, ENOENT);
   (acl_entries a, EINVAL); (acl_set_fd a b, EPERM); (acl_set_file a b c, EPERM);
   (acl_free a, EINVAL); (mount a b c d e, EPERM); (umount a, EPERM); (umount2 a b, EPERM);
   (swapon a b, EPERM); (swapoff a, EPERM); (setgroups a b, EPERM); (sethostname a b, EPERM);
   (setpgid a b, EPERM); (setpgrp, EPERM); (setpriority a b c, EPERM); (setresgid a b c, EPERM);
   (setresuid a b c, EPERM); (setrlimit a b, EPERM); (setrlimit64 a b, EPERM); (setsid, EPERM);
   (settimeofday a b, EPERM); (reboot a, EPERM); (mlock a b, EPERM); (munlock a b, EPERM);
   (pause, EPERM); (readahead a b c, EPERM); (mmap a b c d e f, EPERM);
   (mmap64 a b c d e f, EPERM); (munmap a b, EPERM); (kill a b, EPERM); (execl a b, EACCES);
   (execlp a b, EACCES); (execle a b, EACCES); (execv a b, EACCES); (execvp a b, EACCES);
   (execve a b c, EACCES); (fork, ENOMEM); (vfork, ENOMEM)].

(** A refused service returns -1, sets errno to the code its warning names and
    changes nothing else: not the memory, the descriptors or the files, whatever
    its arguments are. *)
Theorem refused_sets_errno_only {OS} (a b c d e f : Z) (m : M (world OS) Z) (err : Z) :
  (m, err) ∈ refused a b c d e f -> forall w, m w = Ret (-1, set_errno_w err w).
Proof.
  intros H w. unfold refused in H.
  repeat (apply elem_of_cons in H as [H|H]; [by injection H as -> ->|]). by apply elem_of_nil in H.
Qed.

Lemma refused_sets_errno_only_witness :
  let w := Init.boot_world ∅ tt in
  mkdir 8 511 w = Ret (-1, set_errno_w EIO w) /\ fork w = Ret (-1, set_errno_w ENOMEM w).
Proof.
  split.
  - apply (refused_sets_errno_only 8 511 0 0 0 0). unfold refused. set_solver.
  - apply (refused_sets_errno_only 8 511 0 0 0 0). unfold refused. set_solver.
Defined.

End Stubs.
