(* ===== verification/PosixFd64.v ===== *)
(** * POSIX model: the 64-bit entry points

    runtime/POSIX/fd_64.c: the libc functions a program links against, which
    forward to the [__fd_*] functions. The optional [mode] argument of open is
    read only with O_CREAT. *)
From stdpp Require Import base gmap list numbers strings.
From Stdlib Require Import ZArith Lia.
From S2P Require Import Prelude CMem LibcMem PosixState PosixInv PosixFd Intrinsics PosixMeta.
Import Fd Meta.

Module Fd64.
Section Ops.
Context {OS : Type} {K : Kernel OS}.
Abbreviation W := (world OS).

Definition open (pathname flags va : Z) : M W Z :=
  let mode := if nz (Z.land flags O_CREAT) then u32 va else 0 in
  __fd_open pathname flags mode.
Definition openat (fd pathname flags va : Z) : M W Z :=
  let mode := if nz (Z.land flags O_CREAT) then u32 va else 0 in
  __fd_openat fd pathname flags mode.
Definition lseek (fd offset whence : Z) : M W Z := __fd_lseek fd offset whence.
Definition __xstat (vers path buf : Z) : M W Z := __fd_stat path buf.
Definition stat (path buf : Z) : M W Z := __fd_stat path buf.
Definition __lxstat (vers path buf : Z) : M W Z := __fd_lstat path buf.
Definition lstat (path buf : Z) : M W Z := __fd_lstat path buf.
Definition __fxstat (vers fd buf : Z) : M W Z := __fd_fstat fd buf.
Definition fstat (fd buf : Z) : M W Z := __fd_fstat fd buf.
Definition ftruncate64 (fd length : Z) : M W Z := __fd_ftruncate fd length.
Definition statfs (path buf : Z) : M W Z := __fd_statfs path buf.
Definition getdents64 (fd dirp count : Z) : M W Z := __fd_getdents fd dirp count.
End Ops.
End Fd64.
