(* ===== verification/PosixFd32.v ===== *)
(** * POSIX model: the 32-bit entry points

    runtime/POSIX/fd_32.c: the same for the functions without large-file support,
    which convert through a local [struct stat64 tmp]; its address is an argument.
    On x86-64 [struct stat] and [struct dirent] have the layout of their 64-bit
    versions. *)
From stdpp Require Import base gmap list numbers strings.
From Stdlib Require Import ZArith Lia.
From S2P Require Import Prelude CMem LibcMem PosixState PosixInv PosixFd Intrinsics PosixMeta.
Import Fd Meta.

Module Fd32.
Section Ops.
Context {OS : Type} {K : Kernel OS}.
Abbreviation W := (world OS).

(** [b->field = a->field;] for the field of [n] bytes at offset [o]. *)
Definition copy_field (a b o : Z) (n : nat) : M mem unit :=
  v ← load_int n (a + o); store_int n (b + o) v.

Fixpoint copy_fields (a b : Z) (l : list (Z * nat)) : M mem unit :=
  match l with
  | [] => mret tt
  | (o, n) :: l => copy_field a b o n;; copy_fields a b l
  end.

(** st_dev, st_ino, st_mode, st_nlink, st_uid, st_gid, st_rdev, st_size, st_atime,
    st_mtime, st_ctime, st_blksize, st_blocks, and the nanoseconds. *)
Definition stat_fields (bsd : bool) : list (Z * nat) :=
  [(0, 8%nat); (8, 8%nat); (24, 4%nat); (16, 8%nat); (28, 4%nat); (32, 4%nat); (40, 8%nat);
   (48, 8%nat); (72, 8%nat); (88, 8%nat); (104, 8%nat); (56, 8%nat); (64, 8%nat)] ++
  (if bsd then [(80, 8%nat); (96, 8%nat); (112, 8%nat)] else []).

Definition __stat64_to_stat (a b : Z) : M W unit :=
  on_mem (copy_fields a b (stat_fields bsd_source)).

Definition open (pathname flags va : Z) : M W Z :=
  let mode := if nz (Z.land flags O_CREAT) then u32 va else 0 in
  __fd_open pathname flags mode.
Definition openat (fd pathname flags va : Z) : M W Z :=
  let mode := if nz (Z.land flags O_CREAT) then u32 va else 0 in
  __fd_openat fd pathname flags mode.
Definition lseek (fd off whence : Z) : M W Z := __fd_lseek fd off whence.

Definition __xstat (tmp vers path buf : Z) : M W Z :=
  res ← __fd_stat path tmp; __stat64_to_stat tmp buf;; mret res.
Definition stat (tmp path buf : Z) : M W Z :=
  res ← __fd_stat path tmp; __stat64_to_stat tmp buf;; mret res.
Definition __lxstat (tmp vers path buf : Z) : M W Z :=
  res ← __fd_lstat path tmp; __stat64_to_stat tmp buf;; mret res.
Definition lstat (tmp path buf : Z) : M W Z :=
  res ← __fd_lstat path tmp; __stat64_to_stat tmp buf;; mret res.
Definition __fxstat (tmp vers fd buf : Z) : M W Z :=
  res ← __fd_fstat fd tmp; __stat64_to_stat tmp buf;; mret res.
Definition fstat (tmp fd buf : Z) : M W Z :=
  res ← __fd_fstat fd tmp; __stat64_to_stat tmp buf;; mret res.

Definition ftruncate (fd length : Z) : M W Z := __fd_ftruncate fd length.
Definition statfs (path buf32 : Z) : M W Z := __fd_statfs path buf32.

(** One record rewritten over itself; the name is [d_reclen - 19] bytes, a
    [size_t]. The result is [dp->d_reclen]. *)
Definition rewrite_dirent (dp : Z) : M mem Z :=
  reclen ← load_int 2 (dp + 16);
  let name_len := u64 (reclen - 19) in
  copy_field dp dp 0 8;; copy_field dp dp 8 8;; copy_field dp dp 16 2;; copy_field dp dp 18 1;;
  LibcMem.memmove (dp + 19) (dp + 19) name_len;;
  load_int 2 (dp + 16).

(** [while (dp64 < end) ...] *)
Fixpoint rewrite_loop (fuel : nat) (dp64 end_ : Z) : M W unit :=
  if dp64 <? end_ then
    match fuel with
    | O => halt OutOfFuel
    | S fuel => r ← on_mem (rewrite_dirent dp64); rewrite_loop fuel (dp64 + r) end_
    end
  else mret tt.

Definition getdents (fd dirp nbytes : Z) : M W Z :=
  res ← __fd_getdents (u32 fd) dirp (u32 nbytes);
  (if 0 <? res then rewrite_loop (Z.to_nat res) dirp (dirp + res) else mret tt);;
  mret res.

Definition open64 (pathname flags va : Z) : M W Z :=
  let mode := if nz (Z.land flags O_CREAT) then u32 va else 0 in
  __fd_open pathname flags mode.
End Ops.

Section Inv.
Context {OS : Type} {K : Kernel OS} {KO : KernelOk OS}.

Lemma mpres_copy_fields a b l : mpres (copy_fields a b l).
Proof. induction l as [|[o n] l IH]; simpl; [|unfold copy_field]; solve_pres. Qed.
Hint Resolve mpres_copy_fields : pres.
Lemma pres_stat64_to_stat a b : pres (__stat64_to_stat a b).
Proof. unfold __stat64_to_stat. solve_pres. Qed.
Hint Resolve pres_stat64_to_stat : pres.
Lemma pres_stat32 tmp p b : pres (stat tmp p b).
Proof. unfold stat. solve_pres. Qed.
Lemma pres_lstat32 tmp p b : pres (lstat tmp p b).
Proof. unfold lstat. solve_pres. Qed.
Lemma pres_fstat32 tmp fd b : pres (fstat tmp fd b).
Proof. unfold fstat. solve_pres. Qed.

Lemma mpres_memmove_same p n : mpres (LibcMem.memmove p p n).
Proof. unfold LibcMem.memmove. rewrite Z.eqb_refl. solve_pres. Qed.
Hint Resolve mpres_memmove_same : pres.
Lemma pres_rewrite_loop k a b : pres (@rewrite_loop OS k a b).
Proof.
  revert a; induction k as [|k IH]; intros a; simpl; unfold rewrite_dirent, copy_field; solve_pres.
  apply pres_on_mem. solve_pres.
Qed.
Hint Resolve pres_rewrite_loop : pres.
Lemma pres_getdents32 fd d n : pres (getdents fd d n).
Proof. unfold getdents. solve_pres. Qed.
End Inv.

#[export] Hint Resolve pres_stat32 pres_lstat32 pres_fstat32 pres_getdents32 : pres.
End Fd32.
