(* ===== verification/PosixRw.v ===== *)
(** * POSIX model: what open, read, write, lseek, close and dup2 do

    Exact results of the data-transfer calls on symbolic files, for every input,
    the round trip of a write and a read, allocation of the lowest free
    descriptor, and the effect of an injected failure. *)
From stdpp Require Import base gmap list numbers strings.
From Stdlib Require Import ZArith Lia.
From S2P Require Import Prelude CMem PosixState PosixInv PosixFd Intrinsics PosixInit PosixMeta.
Import Fd Meta Init.

Module Rw.

(** Descriptor [fd] is open on the symbolic file [d], whose object is [x]. *)
Record sym_fd {OS} (w : world OS) (fd : Z) (f : exe_file) (d : dref) (x : exe_disk_file) : Prop := {
  sf_range : 0 <= fd < 32;
  sf_file : fds (w_env w) !! Z.to_nat fd = Some f;
  sf_open : is_open f = true;
  sf_dfile : f_dfile f = Some d;
  sf_object : lookup_df (w_fs w) d = Some x
}.

(** No failure is injected in the next call of function [k]. *)
Definition no_failure {OS} (k : counted) (w : world OS) : Prop :=
  max_failures (w_fs w) = 0 \/
  exists v, fail_ptr k (w_fs w) = Some v /\ v <> s32 (n_calls k (w_calls w) + 1).

Definition with_off (f : exe_file) (v : Z) : exe_file := File (f_fd f) (f_flags f) v (f_dfile f).

Lemma with_off_id f : with_off f (f_off f) = f.
Proof. by destruct f. Qed.

(** The state after a transfer on [fd]: counter, memory, object and offset. *)
Definition after {OS} (k : counted) (fd : Z) (f : exe_file) (m : mem) (fs : exe_file_system)
    (w : world OS) : world OS :=
  World fs (set_fds (<[Z.to_nat fd := f]> (fds (w_env w))) (w_env w)) (w_errno w)
    (bump k (w_calls w)) m (w_os w).

(** Execute the next statement of the goal's run with the given tactic. *)
Tactic Notation "mstep" tactic3(tac) := erewrite mbind_run by tac; cbv beta iota.

Section Exact.
Context {OS : Type}.
Abbreviation W := (world OS).
Implicit Types w : W.

Lemma run_get_f w i f : fds (w_env w) !! Z.to_nat i = Some f -> get_f i w = Ret (f, w).
Proof. intros H. unfold get_f. mred. unfold gets. by rewrite H. Qed.

Lemma run_get_df w d x : lookup_df (w_fs w) d = Some x -> get_df d w = Ret (x, w).
Proof. intros H. unfold get_df. mred. unfold gets. by rewrite H. Qed.

Lemma run_get_file w fd f :
  0 <= fd < 32 -> fds (w_env w) !! Z.to_nat fd = Some f ->
  __get_file fd w = Ret (if is_open f then Some fd else None, w).
Proof.
  intros Hr Hf. unfold __get_file, MAX_FDS.
  rewrite (proj2 (Z.leb_le 0 fd)), (proj2 (Z.ltb_lt fd 32)) by lia. simpl.
  erewrite mbind_run by (by apply run_get_f). by destruct (is_open f).
Qed.

Lemma get_file_out w fd : fd < 0 \/ 32 <= fd -> __get_file fd w = Ret (None, w).
Proof.
  intros H. unfold __get_file, MAX_FDS.
  destruct (Z.leb_spec 0 fd), (Z.ltb_spec fd 32); simpl; try done. lia.
Qed.

Lemma run_inject w k e :
  max_failures (w_fs w) = 0 \/
    (exists v, fail_ptr k (w_fs w) = Some v /\ v <> n_calls k (w_calls w)) ->
  inject k e w = Ret (false, w).
Proof.
  intros H. unfold inject. mred. unfold gets. destruct (nz (max_failures (w_fs w))) eqn:E; [|done].
  apply nz_true in E. destruct H as [H|(v & -> & H)]; [done|].
  simpl. mred. by rewrite (proj2 (Z.eqb_neq _ _) H).
Qed.

Lemma run_inject_fail w k e v :
  max_failures (w_fs w) <> 0 -> fail_ptr k (w_fs w) = Some v -> v = n_calls k (w_calls w) ->
  inject k e w =
  Ret (true, set_errno_w e (set_fs (set_max_failures (max_failures (w_fs w) - 1) (w_fs w)) w)).
Proof.
  intros H1 H2 H3. unfold inject. mred. unfold gets. rewrite (proj2 (nz_true _) H1), H2.
  simpl. mred. by rewrite (proj2 (Z.eqb_eq _ _) H3).
Qed.

Lemma no_failure_count k w :
  no_failure k w ->
  max_failures (w_fs w) = 0 \/
  exists v, fail_ptr k (w_fs w) = Some v /\ v <> n_calls k (bump k (w_calls w)).
Proof.
  intros [H|(v & H1 & H2)]; [by left|right]. exists v. split; [done|].
  rewrite n_calls_bump, decide_True by done. done.
Qed.

Lemma run_set_off w i f v :
  fds (w_env w) !! Z.to_nat i = Some f ->
  set_off i v w =
  Ret (tt, set_env (set_fds (<[Z.to_nat i := with_off f (s64 v)]> (fds (w_env w))) (w_env w)) w).
Proof. intros H. unfold set_off. by erewrite mbind_run by (by apply run_get_f). Qed.

Lemma run_on_mem {A} (m : M mem A) w a m' :
  m (w_mem w) = Ret (a, m') -> on_mem m w = Ret (a, set_mem m' w).
Proof. intros H. unfold on_mem, zoom. by rewrite H. Qed.

Lemma run_copy_out w d x off buf n :
  lookup_df (w_fs w) d = Some x -> Forall is_byte (df_contents x) ->
  0 <= n -> 0 <= off -> off + n <= Z.of_nat (length (df_contents x)) ->
  accessible (w_mem w) buf n ->
  copy_out d off buf n w =
  Ret (tt, set_mem (CMem.write (w_mem w) buf
                      (take (Z.to_nat n) (drop (Z.to_nat off) (df_contents x)))) w).
Proof.
  intros Hx Hb Hn Ho Hlen Ha. unfold copy_out. erewrite mbind_run by (by apply run_get_df).
  unfold in_contents. rewrite (proj2 (Z.leb_le 0 off)), (proj2 (Z.leb_le (off + n) _)) by lia.
  rewrite orb_true_r. apply run_on_mem. apply store_bytes_run.
  - rewrite length_take, length_drop. rewrite Nat.min_l by lia. by rewrite Z2Nat.id.
  - by apply Forall_take, Forall_drop.
Qed.

Lemma run_copy_in w d x off buf l :
  lookup_df (w_fs w) d = Some x -> bytes_at (w_mem w) buf l -> 0 <= off ->
  off + Z.of_nat (length l) <= Z.of_nat (length (df_contents x)) ->
  copy_in d off buf (Z.of_nat (length l)) w =
  Ret (tt, set_fs (update_df d (set_contents (splice (df_contents x) (Z.to_nat off) l) x)
                     (w_fs w)) w).
Proof.
  intros Hx Hl Ho Hlen. unfold copy_in. erewrite mbind_run by (by apply run_get_df).
  unfold in_contents. rewrite (proj2 (Z.leb_le 0 off)), (proj2 (Z.leb_le (off + _) _)) by lia.
  rewrite orb_true_r. erewrite mbind_run.
  2:{ apply run_on_mem. rewrite Nat2Z.id. by apply load_bytes_run. }
  simpl. unfold set_df, modify. by destruct w.
Qed.

Context {K : Kernel OS}.

(** ** read *)

(** The number of bytes [read] transfers from offset [off] of a file of size [sz]. *)
Definition read_amount (sz off count : Z) : Z :=
  if sz <? off then 0 else Z.min count (sz - off).

Lemma run_read (w : W) (fd buf count : Z) (f : exe_file) (d : dref) (x : exe_disk_file) :
  wf_df x -> sym_fd w fd f d x -> no_failure CRead w ->
  0 <= f_off f -> f_off f + count < 9223372036854775808 ->
  0 < count -> buf <> 0 ->
  let n := read_amount (df_size x) (f_off f) count in
  accessible (w_mem w) buf n ->
  read fd buf count w =
  Ret (n, after CRead fd (with_off f (f_off f + n))
            (CMem.write (w_mem w) buf (take (Z.to_nat n) (drop (Z.to_nat (f_off f)) (df_contents x))))
            (w_fs w) w).
Proof.
  intros [Hsz Hlen Hby _ _ _] [Hr Hf Ho Hd Hx] Hnf Hoff Hov Hc Hbuf n Ha.
  unfold read.
  unfold count_call. mstep reflexivity. set (w1 := set_calls _ w).
  rewrite (proj2 (Z.eqb_neq count 0)), (proj2 (Z.eqb_neq buf 0)) by lia.
  mstep (by apply (run_get_file w1 fd f)). rewrite Ho; cbv iota.
  mstep (apply run_inject; exact (no_failure_count CRead w Hnf)).
  mstep (by apply (run_get_f w1 fd f)). rewrite Hd; cbv iota.
  unfold read_sym. mstep (by apply (run_get_f w1 fd f)).
  mstep (by apply (run_get_df w1 d x)).
  rewrite (proj2 (Z.leb_le 0 (f_off f))) by done. mstep reflexivity.
  unfold n, read_amount in *. destruct (Z.ltb_spec (df_size x) (f_off f)) as [Hlt|Hge].
  - rewrite Z.add_0_r, with_off_id. unfold after. simpl. rewrite list_insert_id by done.
    by destruct w as [? [] ? ? ? ?].
  - set (k := if _ <? _ then _ else _).
    assert (Hk : k = Z.min count (df_size x - f_off f)).
    { subst k. rewrite (u64_small (_ + count)) by lia.
      destruct (Z.ltb_spec (df_size x) (f_off f + count)); [rewrite u64_small|]; lia. }
    clearbody k. rewrite <- Hk in *.
    mstep (apply (run_copy_out w1 d x); [done|done|lia|lia|lia|done]).
    mstep (by apply run_set_off). rewrite !s64_small by lia. done.
Qed.

(** C18. Reading a symbolic file transfers the bytes from the offset on, at most
    [count] of them and none past the end of the file, to the buffer; it returns
    their number and advances the offset by it. It changes nothing else. *)
Theorem read_correct (w : W) (fd buf count : Z) (f : exe_file) (d : dref) (x : exe_disk_file) :
  wf w -> sym_fd w fd f d x -> no_failure CRead w ->
  0 <= f_off f -> f_off f + count < 9223372036854775808 ->
  0 < count -> buf <> 0 ->
  let n := read_amount (df_size x) (f_off f) count in
  accessible (w_mem w) buf n ->
  read fd buf count w =
  Ret (n, after CRead fd (with_off f (f_off f + n))
            (CMem.write (w_mem w) buf (take (Z.to_nat n) (drop (Z.to_nat (f_off f)) (df_contents x))))
            (w_fs w) w).
Proof.
  intros Hw Hs. eapply run_read; [|exact Hs]. exact (wf_files _ (wf_fs_ _ Hw) _ _ (sf_object _ _ _ _ _ Hs)).
Qed.

(** ** write *)

(** The number of bytes [write] stores: none past the end of the file. *)
Definition write_amount (sz off count : Z) : Z :=
  if off + count <=? sz then count else if off <? sz then sz - off else 0.

(** The file system after the bytes [l] are stored at [off] of [d]. *)
Definition stored (fs : exe_file_system) (d : dref) (x : exe_disk_file) (off : Z) (l : list Z) :
    exe_file_system :=
  let fs1 := match l with
             | [] => fs
             | _ => update_df d (set_contents (splice (df_contents x) (Z.to_nat off) l) x) fs
             end in
  if decide (d = DStdout)
  then set_stdout_writes (u32 (stdout_writes fs + Z.of_nat (length l))) fs1 else fs1.

(** The actual count of the source, and the copy. *)
Lemma run_write_sym (w : W) (fd buf count : Z) (f : exe_file) (d : dref) (x : exe_disk_file)
    (l : list Z) :
  sym_fd w fd f d x -> 0 < df_size x < 4294967296 ->
  Z.of_nat (length (df_contents x)) = df_size x ->
  0 <= f_off f -> 0 <= count -> f_off f + count < 9223372036854775808 ->
  save_all_writes (w_env w) = 0 \/ f_off f + count <= df_size x ->
  bytes_at (w_mem w) buf l ->
  Z.of_nat (length l) = write_amount (df_size x) (f_off f) count ->
  write_sym fd buf count d w =
  Ret (count, set_env (set_fds (<[Z.to_nat fd := with_off f (f_off f + count)]> (fds (w_env w)))
                         (w_env w))
                (set_fs (stored (w_fs w) d x (f_off f) l) w)).
Proof.
  intros [Hr Hf Ho Hd Hx] Hsz Hlen Hoff Hc Hov Hsave Hl Hn. unfold write_sym.
  mstep (by apply (run_get_f w fd f)). mstep (by apply (run_get_df w d x)). mstep reflexivity.
  unfold write_amount in Hn. rewrite (u64_small (f_off f + count)) by lia.
  erewrite (mbind_run _ _ w (Z.of_nat (length l)) w).
  2:{ destruct (Z.leb_spec (f_off f + count) (df_size x)); [by rewrite Hn|].
      destruct Hsave as [->|]; [|lia]. simpl.
      destruct (Z.ltb_spec (f_off f) (df_size x)); rewrite Hn; [|done].
      by rewrite u64_small by lia. }
  set (fs1 := match l with [] => w_fs w | _ =>
     update_df d (set_contents (splice (df_contents x) (Z.to_nat (f_off f)) l) x) (w_fs w) end).
  erewrite (mbind_run _ _ w tt (set_fs fs1 w)).
  2:{ destruct l as [|b l]; [by destruct w|]. cbn [length] in *.
      replace (nz (Z.of_nat (S (length l)))) with true by (symmetry; apply nz_true; lia).
      apply (run_copy_in w d x _ buf (b :: l)); [done|done|done|]. cbn [length].
      destruct (Z.leb_spec (f_off f + count) (df_size x)); [lia|].
      destruct (Z.ltb_spec (f_off f) (df_size x)); lia. }
  erewrite (mbind_run _ _ _ tt (set_fs fs1 w)) by (by destruct (negb _)).
  erewrite (mbind_run _ _ _ tt (set_fs (stored (w_fs w) d x (f_off f) l) w)).
  2:{ unfold stored. fold fs1. case_decide; [|done]. unfold modify. simpl.
      by destruct l. }
  mstep (by apply run_set_off). by rewrite !s64_small by lia.
Qed.

Lemma run_write (w : W) (fd buf count : Z) (f : exe_file) (d : dref) (x : exe_disk_file)
    (l : list Z) :
  wf_df x -> sym_fd w fd f d x -> no_failure CWrite w ->
  0 <= f_off f -> 0 <= count -> f_off f + count < 9223372036854775808 ->
  save_all_writes (w_env w) = 0 \/ f_off f + count <= df_size x ->
  bytes_at (w_mem w) buf l ->
  Z.of_nat (length l) = write_amount (df_size x) (f_off f) count ->
  Fd.write fd buf count w =
  Ret (count, after CWrite fd (with_off f (f_off f + count)) (w_mem w)
                (stored (w_fs w) d x (f_off f) l) w).
Proof.
  intros [Hsz Hlen _ _ _ _] Hs Hnf Hoff Hc Hov Hsave Hl Hn. pose proof Hs as [Hr Hf Ho Hd Hx].
  unfold Fd.write. unfold count_call. mstep reflexivity. set (w1 := set_calls _ w).
  mstep (by apply (run_get_file w1 fd f)). rewrite Ho; cbv iota.
  mstep (apply run_inject; exact (no_failure_count CWrite w Hnf)).
  mstep (by apply (run_get_f w1 fd f)). rewrite Hd; cbv iota.
  rewrite (run_write_sym w1 fd buf count f d x l); done.
Qed.


(** ** lseek *)
Definition seek_target (off sz offset whence : Z) : option Z :=
  if whence =? SEEK_SET then Some offset
  else if whence =? SEEK_CUR then Some (s64 (off + offset))
  else if whence =? SEEK_END then Some (s64 (sz + offset))
  else None.

Definition set_file_w (fd : Z) (f : exe_file) (w : W) : W :=
  set_env (set_fds (<[Z.to_nat fd := f]> (fds (w_env w))) (w_env w)) w.

Lemma run_lseek (w : W) (fd offset whence : Z) (f : exe_file) (d : dref) (x : exe_disk_file) :
  sym_fd w fd f d x -> is_s64 offset ->
  __fd_lseek fd offset whence w =
  match seek_target (f_off f) (df_size x) offset whence with
  | Some t => if t <? 0 then Ret (-1, set_errno_w EINVAL w)
              else Ret (t, set_file_w fd (with_off f t) w)
  | None => Ret (-1, set_errno_w EINVAL w)
  end.
Proof.
  intros [Hr Hf Ho Hd Hx] Hs. unfold __fd_lseek.
  mstep (by apply (run_get_file w fd f)). rewrite Ho; cbv iota.
  mstep (by apply (run_get_f w fd f)). rewrite Hd; cbv iota. unfold lseek_sym.
  mstep (by apply (run_get_f w fd f)). mstep (by apply (run_get_df w d x)). unfold seek_target.
  assert (Hseek : forall t, is_s64 t ->
    (if t <? 0 then fail EINVAL else set_off fd t;; mret t) w =
    if t <? 0 then Ret (-1, set_errno_w EINVAL w) else Ret (t, set_file_w fd (with_off f t) w)).
  { intros t Ht. case_match; [done|]. mstep (by apply run_set_off).
    by rewrite s64_small by exact Ht. }
  destruct (whence =? SEEK_SET); [by apply Hseek|].
  destruct (whence =? SEEK_CUR); [apply Hseek, s64_range|].
  destruct (whence =? SEEK_END); [apply Hseek, s64_range|done].
Qed.

(** Seeking in a symbolic file, on every branch: an unknown [whence] or a negative
    target fails with EINVAL and leaves the offset alone; otherwise the offset is
    set, also past the end of the file, and returned. *)
Theorem lseek_correct (w : W) (fd offset whence : Z) (f : exe_file) (d : dref) (x : exe_disk_file) :
  sym_fd w fd f d x -> is_s64 offset ->
  __fd_lseek fd offset whence w =
  match seek_target (f_off f) (df_size x) offset whence with
  | Some t => if t <? 0 then Ret (-1, set_errno_w EINVAL w)
              else Ret (t, set_file_w fd (with_off f t) w)
  | None => Ret (-1, set_errno_w EINVAL w)
  end.
Proof. exact (run_lseek w fd offset whence f d x). Qed.

(** ** Round trip *)

Lemma write_amount_all sz off count : off + count <= sz -> write_amount sz off count = count.
Proof. intros H. unfold write_amount. by rewrite (proj2 (Z.leb_le _ _)). Qed.

Lemma stored_lookup fs d x off l :
  lookup_df fs d = Some x -> l <> [] ->
  lookup_df (stored fs d x off l) d =
  Some (set_contents (splice (df_contents x) (Z.to_nat off) l) x).
Proof.
  intros Hx Hl. unfold stored. destruct l as [|b l]; [done|].
  transitivity (lookup_df (update_df d
    (set_contents (splice (df_contents x) (Z.to_nat off) (b :: l)) x) fs) d).
  - by case_decide.
  - rewrite lookup_update_df by (by eexists). by rewrite decide_True.
Qed.

Lemma no_failure_stored w fd f g d x off l :
  no_failure CRead w ->
  no_failure CRead (set_file_w fd f (after CWrite fd g (w_mem w) (stored (w_fs w) d x off l) w)).
Proof.
  unfold no_failure, stored; simpl. destruct l; simpl; by case_decide.
Qed.

(** C35. Bytes written within a file, sought back and read, come back unchanged. *)
Theorem write_seek_read (w : W) (fd buf buf2 : Z) (f : exe_file) (d : dref) (x : exe_disk_file)
    (l : list Z) :
  wf w -> sym_fd w fd f d x -> no_failure CWrite w -> no_failure CRead w ->
  l <> [] -> buf2 <> 0 -> 0 <= f_off f ->
  f_off f + Z.of_nat (length l) <= df_size x ->
  bytes_at (w_mem w) buf l -> accessible (w_mem w) buf2 (Z.of_nat (length l)) ->
  let n := Z.of_nat (length l) in
  exists w', (Fd.write fd buf n ≫= (fun _ => __fd_lseek fd (f_off f) SEEK_SET ≫=
                (fun _ => read fd buf2 n))) w = Ret (n, w') /\
    bytes_at (w_mem w') buf2 l /\
    sym_fd w' fd (with_off f (f_off f + n)) d
      (set_contents (splice (df_contents x) (Z.to_nat (f_off f)) l) x).
Proof.
  intros Hw Hs Hnw Hnr Hl Hb2 Hoff Hfit Hb Ha n. pose proof Hs as [Hr Hf Ho Hd Hx].
  pose proof (wf_files _ (wf_fs_ _ Hw) _ _ Hx) as [Hsz Hlen Hby Hst Hss Hbl].
  assert (Hn : 0 < n) by (destruct l; [done|]; subst n; cbn [length]; lia).
  assert (Hrun : Fd.write fd buf n w = Ret (n, after CWrite fd (with_off f (f_off f + n)) (w_mem w)
                (stored (w_fs w) d x (f_off f) l) w)).
  { apply run_write; [by split|done|done|done|lia|lia|by right|done|].
    by rewrite write_amount_all. }
  rewrite (mbind_run _ _ _ _ _ Hrun). set (w1 := after _ _ _ _ _ _) in *.
  set (x' := set_contents _ x).
  assert (Hlx : length (df_contents x') = length (df_contents x)).
  { apply length_splice. lia. }
  assert (Hx' : wf_df x').
  { split; try done; [by rewrite Hlx|]. apply splice_byte; [done|]. by eapply bytes_at_is_byte; [apply (wf_memory _ Hw)|]. }
  assert (Hfd : (Z.to_nat fd < length (fds (w_env w)))%nat) by (by eapply lookup_lt_Some).
  assert (Hs1 : sym_fd w1 fd (with_off f (f_off f + n)) d x').
  { split; try done; [by apply list_lookup_insert_eq|by apply stored_lookup]. }
  assert (Hseek : __fd_lseek fd (f_off f) SEEK_SET w1 = Ret (f_off f, set_file_w fd f w1)).
  { rewrite (run_lseek w1 fd _ _ _ d x' Hs1) by (unfold is_s64; lia). simpl.
    destruct (Z.ltb_spec (f_off f) 0); [lia|]. done || (f_equal; f_equal; unfold set_file_w; by destruct f). }
  rewrite (mbind_run _ _ _ _ _ Hseek). set (w2 := set_file_w fd f w1).
  assert (Hs2 : sym_fd w2 fd f d x').
  { split; try done; [|by apply stored_lookup]. apply list_lookup_insert_eq. simpl.
    by rewrite length_insert. }
  assert (Hra : read_amount (df_size x') (f_off f) n = n).
  { unfold read_amount. simpl. destruct (Z.ltb_spec (df_size x) (f_off f)); lia. }
  pose proof (run_read w2 fd buf2 n f d x' Hx' Hs2) as Hread. rewrite Hra in Hread.
  rewrite Hread; [|by apply no_failure_stored|done|lia|done|done|done].
  eexists. split; [done|]. split.
  - simpl. replace (Z.to_nat n) with (length l) by lia. rewrite splice_at by lia.
    apply write_bytes_at.
  - split; try done; [|by apply stored_lookup]. apply list_lookup_insert_eq. simpl.
    by rewrite !length_insert.
Qed.

End Exact.

(** ** Concrete runs *)

(** The descriptor, file entry and object of the demonstration state. *)
Definition demo_file (fd : nat) : exe_file :=
  default zero_file (fds (w_env Init.demo_world) !! fd).
Definition demo_object (d : dref) : exe_disk_file :=
  default (DiskFile 0 [] Init.demo_stat) (lookup_df (w_fs Init.demo_world) d).

Lemma demo_stdin : sym_fd Init.demo_world 0 (demo_file 0) DStdin (demo_object DStdin).
Proof. split; [lia|vm_compute; reflexivity..]. Qed.
Lemma demo_no_failure k : k <> CChmod -> k <> CFchmod -> no_failure k Init.demo_world.
Proof.
  intros H1 H2. right. exists 1094795585.
  destruct k; try done; (split; [vm_compute; reflexivity|vm_compute; discriminate]).
Qed.
Lemma demo_accessible n : 0 <= n <= 200 -> accessible (w_mem Init.demo_world) 100 n.
Proof. intros Hn. rewrite Init.demo_world_mem. apply accessible_of; [lia|]. vm_compute (length _). lia. Qed.
Lemma demo_zeros n : (n <= 190)%nat -> bytes_at (w_mem Init.demo_world) 100 (repeat 0 n).
Proof.
  intros Hn. rewrite Init.demo_world_mem.
  pose proof (bytes_at_of 100 [] (repeat 0 n) (repeat 0 (190 - n) ++ [65; 0] ++ repeat 0 8)) as H.
  simpl app in H. rewrite (app_assoc (repeat 0 n)), <- repeat_app in H.
  by replace (n + (190 - n))%nat with 190%nat in H by lia.
Qed.

(** Reading 3 of the 4 bytes of stdin, then the last one only. *)
Lemma read_correct_witness :
  exists w', read 0 100 3 Init.demo_world = Ret (3, w') /\ w_mem w' !! 101 = Some 65.
Proof.
  assert (E : read_amount (df_size (demo_object DStdin)) (f_off (demo_file 0)) 3 = 3)
    by (vm_compute; reflexivity).
  pose proof (read_correct Init.demo_world 0 100 3 (demo_file 0) DStdin (demo_object DStdin)
    Init.demo_world_wf demo_stdin (demo_no_failure CRead ltac:(done) ltac:(done))) as H.
  cbv zeta in H. rewrite E in H.
  eexists. split; [apply H|vm_compute; reflexivity].
  - vm_compute. discriminate.
  - vm_compute. reflexivity.
  - lia.
  - lia.
  - apply demo_accessible. lia.
Defined.


Lemma lseek_correct_witness :
  __fd_lseek 0 (-1) SEEK_END Init.demo_world =
    Ret (3, set_file_w 0 (with_off (demo_file 0) 3) Init.demo_world) /\
  __fd_lseek 0 (-9) SEEK_CUR Init.demo_world = Ret (-1, set_errno_w EINVAL Init.demo_world).
Proof.
  split.
  - refine (eq_trans (lseek_correct Init.demo_world 0 (-1) SEEK_END _ _ _ demo_stdin _) _);
      [unfold is_s64; lia|vm_compute; reflexivity].
  - refine (eq_trans (lseek_correct Init.demo_world 0 (-9) SEEK_CUR _ _ _ demo_stdin _) _);
      [unfold is_s64; lia|vm_compute; reflexivity].
Defined.

Lemma write_seek_read_witness :
  exists w', (Fd.write 0 100 3 ≫= (fun _ => __fd_lseek 0 0 SEEK_SET ≫=
                (fun _ => read 0 200 3))) Init.demo_world = Ret (3, w') /\
    bytes_at (w_mem w') 200 [0; 0; 0].
Proof.
  destruct (write_seek_read Init.demo_world 0 100 200 (demo_file 0) DStdin (demo_object DStdin)
    (repeat 0 3) Init.demo_world_wf demo_stdin) as (w' & H1 & H2 & _).
  - apply demo_no_failure; discriminate.
  - apply demo_no_failure; discriminate.
  - discriminate.
  - lia.
  - vm_compute. discriminate.
  - vm_compute. discriminate.
  - apply demo_zeros. lia.
  - rewrite Init.demo_world_mem. apply accessible_of; [lia|]. vm_compute. discriminate.
  - exists w'. split; [exact H1|exact H2].
Defined.

End Rw.
