(* ===== verification/PosixAlloc.v ===== *)
(** * POSIX model: descriptor allocation, closing, duplication

    open and dup take the lowest free descriptor and leave every open descriptor
    alone; close frees exactly one; dup2 copies an entry (and closes it when the
    two descriptors are the same); an injected failure takes exactly one unit of
    the budget. *)
From stdpp Require Import base gmap list numbers strings.
From Stdlib Require Import ZArith Lia.
From S2P Require Import Prelude CMem PosixState PosixInv PosixFd Intrinsics PosixInit PosixMeta PosixRw.
Import Fd Meta Init Rw.

Module Alloc.

(** ** Statements that do not touch the descriptor table *)
Definition frames {OS A} (m : M (world OS) A) : Prop :=
  forall w, post m w (fun _ w' => w_env w' = w_env w).

Create HintDb frames discriminated.

Section Frame.
Context {OS : Type}.
Abbreviation W := (world OS).
Implicit Types w : W.

Lemma frames_bind {A B} (m : M W A) (f : A -> M W B) :
  frames m -> (forall a, frames (f a)) -> frames (m ≫= f).
Proof.
  intros Hm Hf w. apply post_bind. eapply post_weaken; [apply Hm|]. intros a w1 H1.
  eapply post_weaken; [apply Hf|]. intros b w2 H2. congruence.
Qed.
Lemma frames_ret {A} (a : A) : frames (mret a : M W A).
Proof. intros w. by apply post_ret. Qed.
Lemma frames_gets {A} (f : W -> A) : frames (gets f).
Proof. intros w. by apply post_gets. Qed.
Lemma frames_halt {A} e : frames (@halt W A e).
Proof. intros w. apply post_halt. Qed.
Lemma frames_of_option {A} (o : option A) : frames (of_option o : M W A).
Proof. destruct o; [apply frames_ret|apply frames_halt]. Qed.
Lemma frames_assume b : frames (@klee_assume OS b).
Proof. destruct b; [apply frames_ret|apply frames_halt]. Qed.
Lemma frames_warning s : frames (@klee_warning OS s).
Proof. apply frames_ret. Qed.
Lemma frames_get_df d : frames (@get_df OS d).
Proof. apply frames_bind; [apply frames_gets|intros; apply frames_of_option]. Qed.
Lemma frames_get_f i : frames (@get_f OS i).
Proof. apply frames_bind; [apply frames_gets|intros; apply frames_of_option]. Qed.
Lemma frames_on_mem {A} (m : M mem A) : frames (@on_mem OS A m).
Proof.
  intros w a w' H. unfold on_mem, zoom in H. by destruct (m (w_mem w)) as [[b m1]|]; simplify_eq.
Qed.
Lemma frames_set_errno e : frames (@set_errno OS e).
Proof. intros w. by apply post_modify. Qed.
Lemma frames_fail e : frames (@fail OS e).
Proof. apply frames_bind; [apply frames_set_errno|intros; apply frames_ret]. Qed.
Lemma frames_count k : frames (@count_call OS k).
Proof. intros w. by apply post_modify. Qed.
Lemma frames_upd_stat d g : frames (@upd_stat OS d g).
Proof. apply frames_bind; [apply frames_get_df|]. intros x w. by apply post_modify. Qed.
Lemma frames_get_sym_file p : frames (@__get_sym_file OS p).
Proof.
  intros w. eapply post_weaken; [apply get_sym_file_spec|]. by intros a w' [-> _].
Qed.

Context {K : Kernel OS}.
Lemma frames_sys nr args : frames (sys nr args).
Proof.
  intros w a w' H. unfold sys in H.
  by destruct (os_syscall nr args (w_mem w) (w_os w)) as [[r m] o]; simplify_eq.
Qed.
Lemma frames_errno_from_os : frames errno_from_os.
Proof. apply frames_bind; [apply frames_gets|intros; apply frames_set_errno]. Qed.
End Frame.

#[export] Hint Resolve frames_ret frames_gets frames_halt frames_of_option frames_assume
  frames_warning frames_get_df frames_get_f frames_on_mem frames_set_errno frames_fail frames_count
  frames_upd_stat frames_get_sym_file frames_sys frames_errno_from_os : frames.

Ltac frames_step :=
  match goal with
  | |- frames (_ ≫= _) => apply frames_bind; [|intros ?]
  | |- frames (match ?x with _ => _ end) => destruct x
  | |- frames (let _ := _ in _) => cbv zeta
  end.
Ltac solve_frames := repeat (first [progress auto with frames | frames_step]).

Section Alloc.
Context {OS : Type} {K : Kernel OS}.
Abbreviation W := (world OS).
Implicit Types w : W.

Lemma frames_concretize_string p : frames (__concretize_string p).
Proof.
  unfold __concretize_string, __concretize_ptr. solve_frames.
  match goal with |- frames (concretize_loop ?n ?a ?i) => generalize n as k, a as q, i as j end.
  induction k as [|k IH]; intros q j; simpl; solve_frames.
Qed.
Hint Resolve frames_concretize_string : frames.

(** ** The lowest free descriptor *)
Lemma first_free_spec l k :
  let r := first_free l k in
  k <= r <= k + Z.of_nat (length l) /\
  (forall i f, (Z.of_nat i < r - k) -> l !! i = Some f -> is_open f = true) /\
  (r < k + Z.of_nat (length l) -> exists f, l !! Z.to_nat (r - k) = Some f /\ is_open f = false).
Proof.
  revert k; induction l as [|g l IH]; intros k; simpl; [split; [lia|split; [done|lia]]|].
  destruct (is_open g) eqn:Hg.
  - destruct (IH (k + 1)) as (H1 & H2 & H3). split; [lia|]. split.
    + intros [|i] f Hi Hf; simpl in Hf; [congruence|]. apply (H2 i f); [lia|done].
    + intros Hr. destruct H3 as (f & Hf & Ho); [lia|]. exists f. split; [|done].
      replace (Z.to_nat (first_free l (k + 1) - k)) with (S (Z.to_nat (first_free l (k + 1) - (k + 1))))
        by lia. done.
  - split; [lia|]. split; [intros; lia|]. intros _. exists g. rewrite Z.sub_diag. done.
Qed.

(** The descriptor [r] is the lowest free one of [w]. *)
Definition lowest_free (w : W) (r : Z) : Prop :=
  0 <= r < 32 /\
  (exists f, fds (w_env w) !! Z.to_nat r = Some f /\ is_open f = false) /\
  (forall j f, (j < Z.to_nat r)%nat -> fds (w_env w) !! j = Some f -> is_open f = true).

Lemma find_free_lowest w :
  wf w -> post find_free w (fun r w' => w' = w /\ (r = MAX_FDS \/ lowest_free w r)).
Proof.
  intros Hw. apply post_bind, post_gets, post_ret. split; [done|].
  pose proof (first_free_spec (fds (w_env w)) 0) as (H1 & H2 & H3). pose proof (wf_fds_len _ Hw) as Hl.
  rewrite Hl in H1, H3. unfold MAX_FDS.
  destruct (Z.eq_dec (first_free (fds (w_env w)) 0) 32) as [E|E]; [by left|right].
  rewrite Z.sub_0_r in H3. split; [lia|]. split; [apply H3; lia|].
  intros j f Hj. apply H2. lia.
Qed.

(** The table of [w'] is the one of [w] with the closed entry [r] replaced by [g]. *)
Definition slot (w : W) (r : Z) (g : exe_file) (w' : W) : Prop :=
  fds (w_env w') = <[Z.to_nat r := g]> (fds (w_env w)).

Lemma slot_id w r g : fds (w_env w) !! Z.to_nat r = Some g -> slot w r g w.
Proof. intros H. unfold slot. by rewrite list_insert_id. Qed.

Lemma post_set_f_slot w w1 r g g' :
  slot w r g w1 -> post (set_f r g') w1 (fun _ w' => slot w r g' w').
Proof. intros H. apply post_modify. unfold slot in *. simpl. rewrite H. apply list_insert_insert_eq. Qed.

Lemma post_get_f_slot w w1 r g (Q : exe_file -> W -> Prop) :
  (Z.to_nat r < length (fds (w_env w)))%nat -> slot w r g w1 -> Q g w1 -> post (get_f r) w1 Q.
Proof.
  intros Hl Hs HQ. apply post_bind, post_gets, post_of_option. intros f Hf.
  rewrite Hs, list_lookup_insert_eq in Hf by done. by simplify_eq.
Qed.

Lemma post_frames_slot {A} (m : M W A) w w1 r g :
  frames m -> slot w r g w1 -> post m w1 (fun _ w' => slot w r g w').
Proof.
  intros Hm Hs. eapply post_weaken; [apply Hm|]. intros a w' E. unfold slot. by rewrite E.
Qed.

Lemma post_bind_slot {A B} (m : M W A) (k : A -> M W B) w w1 r g Q :
  frames m -> slot w r g w1 -> (forall a w2, slot w r g w2 -> post (k a) w2 Q) ->
  post (m ≫= k) w1 Q.
Proof.
  intros Hm Hs Hk. apply post_bind. eapply post_weaken; [by eapply post_frames_slot|].
  intros a w2 H2. by apply Hk.
Qed.

(** [f->field = v;] on the entry [r], followed by [k]. *)
Lemma post_store_slot {B} (h : exe_file -> exe_file) (k : unit -> M W B) w w1 r g Q :
  (Z.to_nat r < length (fds (w_env w)))%nat -> slot w r g w1 ->
  (forall w2, slot w r (h g) w2 -> post (k tt) w2 Q) ->
  post ((f ← get_f r; set_f r (h f)) ≫= k) w1 Q.
Proof.
  intros Hl Hs Hk. apply post_bind, post_bind, (post_get_f_slot w w1 r g); [done|done|].
  eapply post_weaken; [by eapply post_set_f_slot|]. intros [] w2 H2. by apply Hk.
Qed.

(** What a successful or failed allocation of descriptor [r] does to the table. *)
Definition allocated (w : W) (r : Z) (w' : W) : Prop :=
  lowest_free w r /\
  exists g, slot w r g w' /\ is_open g = true /\ f_off g = 0.
Definition unallocated (w w' : W) : Prop :=
  forall j f, fds (w_env w) !! j = Some f -> is_open f = true -> fds (w_env w') !! j = Some f.

Lemma slot_unallocated w r g w' : lowest_free w r -> slot w r g w' -> unallocated w w'.
Proof.
  intros (_ & (f0 & Hf0 & Hc) & _) Hs j f Hj Ho. rewrite Hs.
  rewrite list_lookup_insert_ne; [done|]. intros E. subst j. congruence.
Qed.

Lemma open_flags_open flags : is_open (File 0 (u32 (open_flags flags)) 0 None) = true.
Proof. unfold is_open, open_flags; simpl. repeat case_match; done. Qed.

(** The end of open: the flags are set and the descriptor returned. *)
Lemma post_finish_open w w1 r g flags :
  (Z.to_nat r < length (fds (w_env w)))%nat -> lowest_free w r -> slot w r g w1 -> f_off g = 0 ->
  post (set_flags r (open_flags flags);; mret r) w1
    (fun x w' => (x = -1 /\ unallocated w w') \/ (x = r /\ allocated w r w')).
Proof.
  intros Hl Hf Hs H0. apply post_bind. unfold set_flags.
  apply post_bind, (post_get_f_slot w w1 r g); [done|done|].
  eapply post_weaken; [by eapply post_set_f_slot|]. intros [] w2 H2. apply post_ret. right.
  split; [done|]. split; [done|]. eexists. split; [exact H2|].
  split; [apply open_flags_open|exact H0].
Qed.

Lemma post_fail_slot w w1 r g (m : M W Z) :
  lowest_free w r -> slot w r g w1 -> frames m -> post m w1 (fun x _ => x = -1) ->
  post m w1 (fun x w' => (x = -1 /\ unallocated w w') \/ (x = r /\ allocated w r w')).
Proof.
  intros Hf Hs Hm Hx x w' E. left. split; [by eapply Hx|].
  eapply slot_unallocated; [done|]. eapply post_frames_slot; [exact Hm|exact Hs|exact E].
Qed.

Lemma post_fail e w : post (@fail OS e) w (fun x _ => x = -1).
Proof. apply post_bind, post_modify. by apply post_ret. Qed.
Lemma post_warn_fail s e w : post (@klee_warning OS s;; fail e) w (fun x _ => x = -1).
Proof. apply post_bind, post_ret. apply post_fail. Qed.
Lemma post_os_fail w : post (errno_from_os;; mret (-1)) w (fun x (_ : W) => x = -1).
Proof. apply post_bind. intros ? ? _. by apply post_ret. Qed.

(** C39. Opening a file either fails and leaves every open descriptor as it is, or
    returns the lowest free descriptor, open at offset 0, and changes no other
    entry of the table. *)
Theorem open_lowest_free (w : W) (path flags mode : Z) :
  wf w ->
  post (__fd_open path flags mode) w (fun r w' =>
    (r = -1 /\ unallocated w w') \/ (0 <= r < 32 /\ allocated w r w')).
Proof.
  intros Hw. unfold __fd_open. apply post_bind. eapply post_weaken; [by apply find_free_lowest|].
  intros r w0 [-> Hr]. case_match eqn:Efull.
  { intros x w' E. left. split; [by eapply post_fail|]. intros j f Hj _.
    by rewrite (frames_fail _ _ _ _ E). }
  destruct Hr as [->|Hr]; [by rewrite Z.eqb_refl in Efull|]. clear Efull.
  eapply (post_weaken _ _ (fun x w' => (x = -1 /\ unallocated w w') \/ (x = r /\ allocated w r w'))).
  2:{ intros x w' [H|[-> H]]; [by left|right]. split; [apply H|done]. }
  assert (Hl : (Z.to_nat r < length (fds (w_env w)))%nat).
  { destruct Hr as (Hr & _). rewrite (wf_fds_len _ Hw). lia. }
  apply post_bind, post_modify. set (w1 := set_env _ w).
  assert (H1 : slot w r zero_file w1) by done. clearbody w1.
  eapply post_bind_slot; [auto with frames|exact H1|]. intros [d|] w2 H2.
  - unfold set_dfile. eapply (post_store_slot (fun f => File (f_fd f) (f_flags f) (f_off f) (Some d)));
      [done|done|]. intros w3 H3.
    repeat (apply post_if; intros _;
      [eapply post_fail_slot; [done|done|solve_frames|apply post_fail || apply post_warn_fail]|]).
    eapply post_bind_slot; [auto with frames|exact H3|]. intros x w4 H4. apply post_if; intros _.
    { eapply post_fail_slot; [done|done|solve_frames|apply post_fail]. }
    eapply post_bind_slot; [auto with frames|exact H4|]. intros e w5 H5.
    eapply post_bind_slot; [auto with frames|exact H5|]. intros [] w6 H6.
    by eapply post_finish_open.
  - eapply post_bind_slot; [auto with frames|exact H2|]. intros p w3 H3.
    eapply post_bind_slot; [auto with frames|exact H3|]. intros o w4 H4. apply post_if; intros _.
    { eapply post_fail_slot; [done|done|solve_frames|apply post_os_fail]. }
    unfold set_os_fd. eapply (post_store_slot (fun f => File (s32 o) (f_flags f) (f_off f) (f_dfile f)));
      [done|done|]. intros w5 H5. by eapply post_finish_open.
Qed.

(** With all 32 descriptors in use, open fails with EMFILE before it looks at the
    path, and changes nothing else. *)
Lemma open_emfile (w : W) (path flags mode : Z) :
  wf w -> Forall (fun f => is_open f = true) (fds (w_env w)) ->
  __fd_open path flags mode w = Ret (-1, set_errno_w EMFILE w).
Proof.
  intros Hw Hall. unfold __fd_open.
  assert (E : find_free w = Ret (MAX_FDS, w)).
  { unfold find_free. mred. unfold gets. f_equal. f_equal.
    pose proof (first_free_spec (fds (w_env w)) 0) as (H1 & _ & H3).
    rewrite (wf_fds_len _ Hw) in *. unfold MAX_FDS.
    destruct (Z.eq_dec (first_free (fds (w_env w)) 0) 32) as [|Hne]; [done|exfalso].
    destruct H3 as (f & Hf & Hc); [lia|].
    pose proof (Forall_lookup_1 _ _ _ _ Hall Hf). simpl in *. congruence. }
  rewrite (mbind_run _ _ _ _ _ E). done.
Qed.

(** ** close *)

(** The state after descriptor [fd] is closed. *)
Definition freed (fd : Z) (w : W) : W := after CClose fd zero_file (w_mem w) (w_fs w) w.

(** Closing an open descriptor frees it and nothing else: the entry is zeroed, so
    that every later use of the number fails with EBADF until it is opened again. *)
Theorem close_correct (w : W) (fd : Z) (f : exe_file) :
  0 <= fd < 32 -> fds (w_env w) !! Z.to_nat fd = Some f -> is_open f = true ->
  no_failure CClose w ->
  let w' := freed fd w in
  close fd w = Ret (0, w') /\ __get_file fd w' = Ret (None, w') /\
  (forall j, j <> fd -> 0 <= j -> fds (w_env w') !! Z.to_nat j = fds (w_env w) !! Z.to_nat j).
Proof.
  intros Hr Hf Ho Hnf w'.
  assert (Hl : (Z.to_nat fd < length (fds (w_env w)))%nat) by (by eapply lookup_lt_Some).
  split; [|split].
  - unfold close, count_call. mstep reflexivity. set (w1 := set_calls _ w).
    mstep (by apply (run_get_file w1 fd f)). rewrite Ho; cbv iota.
    mstep (apply run_inject; exact (no_failure_count CClose w Hnf)). done.
  - rewrite (run_get_file w' fd zero_file); [done|done|]. by apply list_lookup_insert_eq.
  - intros j Hj Hjr. simpl. by rewrite list_lookup_insert_ne by lia.
Qed.

(** ** dup2 *)
Definition dup_entry (f : exe_file) : exe_file :=
  File (f_fd f) (u32 (Z.land (f_flags f) (Z.lnot eCloseOnExec))) (f_off f) (f_dfile f).

Lemma dup_entry_open f : is_open (dup_entry f) = is_open f.
Proof.
  unfold is_open, dup_entry; simpl. f_equal. apply Z.bits_inj'. intros n Hn.
  rewrite !Z.land_spec. unfold eOpen, eCloseOnExec.
  destruct (Z.eq_dec n 0) as [->|].
  - rewrite u32_bit, Z.land_spec, Z.lnot_spec by lia. simpl. by rewrite andb_true_r.
  - replace (Z.testbit 1 n) with false; [by rewrite !andb_false_r|].
    symmetry. apply (testbit_high 1); lia.
Qed.

Lemma post_close_other (w : W) (a b : Z) (f g : exe_file) :
  a <> b -> 0 <= a < 32 -> 0 <= b < 32 ->
  fds (w_env w) !! Z.to_nat a = Some f -> fds (w_env w) !! Z.to_nat b = Some g ->
  post (close b) w (fun _ w' => exists h, slot w b h w').
Proof.
  intros Hab Ha Hb Hf Hg. unfold close, count_call. apply post_bind, post_modify.
  set (w1 := set_calls _ w). apply post_bind. intros r w2 E.
  rewrite (run_get_file w1 b g) in E by done. injection E as <- <-.
  assert (H1 : slot w b g w1) by (by apply (slot_id w)).
  destruct (is_open g).
  2:{ eapply post_weaken; [eapply (post_frames_slot _ w w1 b g); [auto with frames|exact H1]|].
      intros x w2 H2. by exists g. }
  assert (Hinj : frames (@inject OS CClose EIO)).
  { unfold inject. apply frames_bind; [auto with frames|]. intros fs. destruct (nz _); [|auto with frames].
    do 2 (apply frames_bind; [auto with frames|]; intros ?). case_match; [|auto with frames].
    apply frames_bind; [intros w'; by apply post_modify|]. intros. solve_frames. }
  eapply post_bind_slot; [exact Hinj|exact H1|]. intros [|] w3 H3; [apply post_ret; eauto|].
  apply post_bind. eapply post_weaken; [by eapply post_set_f_slot|]. intros [] w4 H4.
  apply post_ret. eauto.
Qed.

(** Duplicating onto a different descriptor returns it, and makes its entry a copy
    of the old one (same file, same offset) with close-on-exec cleared, whether
    the target was open, free, or failed to close; other entries are unchanged. *)
Theorem dup2_correct (w : W) (oldfd newfd : Z) (f g : exe_file) :
  oldfd <> newfd -> 0 <= oldfd < 32 -> 0 <= newfd < 32 ->
  fds (w_env w) !! Z.to_nat oldfd = Some f -> is_open f = true ->
  fds (w_env w) !! Z.to_nat newfd = Some g ->
  post (dup2 oldfd newfd) w (fun r w' =>
    r = newfd /\ slot w newfd (dup_entry f) w' /\ is_open (dup_entry f) = true).
Proof.
  intros Hne Ha Hb Hf Ho Hg. unfold dup2.
  assert (Hl : (Z.to_nat newfd < length (fds (w_env w)))%nat) by (by eapply lookup_lt_Some).
  apply post_bind. intros r w1 E. rewrite (run_get_file w oldfd f) in E by done.
  rewrite Ho in E. injection E as <- <-. unfold MAX_FDS.
  rewrite (proj2 (Z.leb_le 0 newfd)), (proj2 (Z.ltb_lt newfd 32)) by lia. simpl negb. cbv iota.
  apply post_bind. intros g' w2 E. rewrite (run_get_f w newfd g Hg) in E. injection E as <- <-.
  apply post_bind. eapply (post_weaken _ _ (fun _ w' => exists h, slot w newfd h w')).
  { destruct (is_open g).
    - apply post_bind. eapply post_weaken; [by eapply (post_close_other w oldfd newfd)|].
      intros a w' H. by apply post_ret.
    - apply post_ret. exists g. by apply slot_id. }
  intros _ w2 [h H2]. apply post_bind, post_bind, post_gets, post_of_option. intros f' Hf'.
  rewrite H2, list_lookup_insert_ne in Hf' by lia. simplify_eq.
  apply post_bind. eapply post_weaken; [by eapply post_set_f_slot|]. intros [] w3 H3.
  unfold set_flags. eapply (post_store_slot (fun x => File (f_fd x) _ (f_off x) (f_dfile x)));
    [done|exact H3|]. intros w4 H4. apply post_ret. split; [done|]. split; [exact H4|].
  by rewrite dup_entry_open.
Qed.

(** ** Injected failures *)

(** The state after a failure injected in function [k]: one failure less in the
    budget, the call counted, the error code set. *)
Definition failed (k : counted) (e : Z) (w : W) : W :=
  set_errno_w e (set_fs (set_max_failures (max_failures (w_fs w) - 1) (w_fs w))
    (set_calls (bump k (w_calls w)) w)).

(** The call of [k] that is about to be made is the one selected to fail. *)
Definition will_fail (k : counted) (w : W) : Prop :=
  max_failures (w_fs w) <> 0 /\ fail_ptr k (w_fs w) = Some (s32 (n_calls k (w_calls w) + 1)).

Lemma run_will_fail k e w :
  will_fail k w ->
  inject k e (set_calls (bump k (w_calls w)) w) = Ret (true, failed k e w).
Proof.
  intros [H1 H2]. erewrite run_inject_fail; [done|done|done|].
  simpl. by rewrite n_calls_bump, decide_True.
Qed.

(** Failure injection: when the call about to be made on an open descriptor is the
    selected one, close, read, write and ftruncate return -1 with EIO and getcwd
    returns NULL with ERANGE; each takes one unit of the budget and has no other
    effect, in particular the descriptor stays open and no byte is moved. *)
Theorem injected_failure (w : W) (fd buf count len : Z) (f : exe_file) :
  0 <= fd < 32 -> fds (w_env w) !! Z.to_nat fd = Some f -> is_open f = true ->
  count <> 0 -> buf <> 0 ->
  (will_fail CClose w -> close fd w = Ret (-1, failed CClose EIO w)) /\
  (will_fail CRead w -> read fd buf count w = Ret (-1, failed CRead EIO w)) /\
  (will_fail CWrite w -> Fd.write fd buf count w = Ret (-1, failed CWrite EIO w)) /\
  (will_fail CFtruncate w -> __fd_ftruncate fd len w = Ret (-1, failed CFtruncate EIO w)) /\
  (will_fail CGetcwd w -> getcwd buf count w = Ret (0, failed CGetcwd ERANGE w)).
Proof.
  intros Hr Hf Ho Hc Hb.
  assert (Hg : forall c, __get_file fd (set_calls c w) = Ret (Some fd, set_calls c w)).
  { intros c. rewrite (run_get_file (set_calls c w) fd f) by done. by rewrite Ho. }
  split; [|split; [|split; [|split]]]; intros Hw.
  - unfold close, count_call. mstep reflexivity. mstep (apply Hg).
    mstep (by apply run_will_fail). done.
  - unfold read, count_call. mstep reflexivity.
    rewrite (proj2 (Z.eqb_neq count 0)), (proj2 (Z.eqb_neq buf 0)) by done.
    mstep (apply Hg). mstep (by apply run_will_fail). done.
  - unfold Fd.write, count_call. mstep reflexivity. mstep (apply Hg).
    mstep (by apply run_will_fail). done.
  - unfold __fd_ftruncate, count_call. mstep (by apply (run_get_file w fd f)). rewrite Ho; cbv iota.
    mstep reflexivity. mstep (by apply run_will_fail). done.
  - unfold getcwd, count_call. mstep reflexivity. mstep (by apply run_will_fail). done.
Qed.
End Alloc.

(** ** Concrete runs *)

(** Opening the file A gives descriptor 3. *)
Lemma open_lowest_free_witness :
  exists w', __fd_open 290 O_WRONLY 0 demo_world = Ret (3, w') /\ allocated demo_world 3 w'.
Proof.
  assert (E : exists w', __fd_open 290 O_WRONLY 0 demo_world = Ret (3, w'))
    by (eexists; vm_compute; reflexivity).
  destruct E as [w' E]. exists w'. split; [exact E|].
  destruct (open_lowest_free demo_world 290 O_WRONLY 0 demo_world_wf _ _ E) as [[H _]|[_ H]];
    [discriminate|exact H].
Defined.

Lemma close_correct_witness :
  close 0 demo_world = Ret (0, freed 0 demo_world).
Proof.
  refine (proj1 (close_correct demo_world 0 (demo_file 0) _ _ _ _)).
  - lia.
  - vm_compute. reflexivity.
  - vm_compute. reflexivity.
  - apply demo_no_failure; discriminate.
Defined.

(** stdin duplicated onto descriptor 7. *)
Lemma dup2_correct_witness :
  exists w', dup2 0 7 demo_world = Ret (7, w') /\ slot demo_world 7 (dup_entry (demo_file 0)) w'.
Proof.
  assert (E : exists w', dup2 0 7 demo_world = Ret (7, w')) by (eexists; vm_compute; reflexivity).
  destruct E as [w' E]. exists w'. split; [exact E|].
  refine (proj1 (proj2 (dup2_correct demo_world 0 7 (demo_file 0) zero_file _ _ _ _ _ _ _ _ E))).
  - lia.
  - lia.
  - lia.
  - vm_compute. reflexivity.
  - vm_compute. reflexivity.
  - vm_compute. reflexivity.
Defined.

(** The demonstration state with the next read selected to fail. *)
Definition demo_fail : world unit :=
  set_calls (Calls 0 1094795584 0 0 0 0 0) demo_world.

Lemma injected_failure_witness :
  read 0 100 4 demo_fail = Ret (-1, failed CRead EIO demo_fail) /\
  max_failures (w_fs (failed CRead EIO demo_fail)) = 0.
Proof.
  split; [|vm_compute; reflexivity].
  refine (proj1 (proj2 (injected_failure demo_fail 0 100 4 0 (demo_file 0) _ _ _ _ _)) _).
  - lia.
  - vm_compute. reflexivity.
  - vm_compute. reflexivity.
  - discriminate.
  - discriminate.
  - split; [vm_compute; discriminate|vm_compute; reflexivity].
Defined.

End Alloc.
