(* ===== verification/PosixQuirks.v ===== *)
(** * POSIX model: concretisation, stat, and behaviours worth knowing

    Termination of the string concretisation loop, the stat family on symbolic
    files, and the places where the model departs from what its comments or
    POSIX say, each as a theorem about the code. *)
From stdpp Require Import base gmap list numbers strings.
From Stdlib Require Import ZArith Lia.
From S2P Require Import Prelude CMem PosixState PosixInv PosixFd Intrinsics PosixMeta PosixInit PosixRw.
Import Fd Meta Init Rw.

Module Quirks.

(** ** __concretize_string *)

Lemma bytes_at_size m p l : bytes_at m p l -> (length l <= size m)%nat.
Proof.
  intros H. rewrite <- size_dom.
  assert (Hd : NoDup ((fun i => p + Z.of_nat i) <$> seq 0 (length l))).
  { apply NoDup_fmap_2; [intros a b E; lia|apply NoDup_seq]. }
  transitivity (size (list_to_set ((fun i => p + Z.of_nat i) <$> seq 0 (length l)) : gset Z)).
  - rewrite size_list_to_set by done. by rewrite length_fmap, length_seq.
  - apply subseteq_size. intros a Ha. apply elem_of_list_to_set, list_elem_of_fmap in Ha as (i & -> & Hi).
    apply elem_of_seq in Hi. apply elem_of_dom.
    destruct (lookup_lt_is_Some_2 l i) as [b Hb]; [lia|]. exists b. by apply H.
Qed.

(** An odd number above 1 shares a bit with its predecessor. *)
Lemma land_pred_odd i : 3 <= i -> Z.odd i = true -> Z.land i (i - 1) <> 0.
Proof.
  intros Hi Ho. rewrite Z.odd_spec in Ho. destruct Ho as [k ->].
  replace (2 * k + 1 - 1) with (2 * k) by lia.
  assert (E : Z.land (2 * k + 1) (2 * k) = 2 * k).
  { apply Z.bits_inj'. intros n Hn. rewrite Z.land_spec. destruct (Z.eq_dec n 0) as [->|Hne].
    - by rewrite Z.testbit_even_0, andb_false_r.
    - replace n with (Z.succ (n - 1)) by lia.
      rewrite Z.testbit_odd_succ, Z.testbit_even_succ by lia. apply andb_diag. }
  rewrite E. lia.
Qed.

Section Conc.
Context {OS : Type} {K : Kernel OS}.
Abbreviation W := (world OS).
(** The executor picks for an expression the value it has on this path. *)
Definition picks_path_value : Prop := forall v (o : OS), klee_get_valuel v o = v.
Hypothesis picks_value : picks_path_value.

(** Iterations the loop still needs from counter [i] with [n] characters left: the
    cursor does not advance at 0, 1, 2 and some even counters. *)
Definition need (i : Z) (n : nat) : Z :=
  2 * Z.of_nat n + 2 + Z.max 0 (3 - i) - (if (3 <=? i) && Z.odd i then 1 else 0).

Lemma store_same (w : W) p c v :
  w_mem w !! p = Some c -> u8 v = c -> on_mem (store p v) w = Ret (tt, w).
Proof.
  intros Hp Hv. unfold on_mem, zoom, store. rewrite Hp, Hv. rewrite insert_id by done. by destruct w.
Qed.

Lemma run_load (w : W) p c : w_mem w !! p = Some c -> on_mem (load p) w = Ret (c, w).
Proof. intros Hp. unfold on_mem, zoom, load. rewrite Hp. by destruct w. Qed.

Lemma s8_zero c : is_byte c -> (s8 c =? 0) = (c =? 0).
Proof.
  intros Hc. unfold is_byte in Hc. unfold s8, sext. rewrite Z.mod_small by lia.
  destruct (Z.ltb_spec c (2 ^ (8 - 1))); [done|]. apply eq_true_iff_eq. rewrite !Z.eqb_eq. lia.
Qed.

Lemma u8_s8_byte c : is_byte c -> u8 (s8 c) = c.
Proof.
  intros Hc. unfold u8, s8, sext, is_byte in *. rewrite (Z.mod_small c) by lia.
  destruct (Z.ltb_spec c (2 ^ (8 - 1))); [apply Z.mod_small; lia|].
  symmetry. apply (Z.mod_unique _ _ (-1)); lia.
Qed.

Lemma need_step i n : 0 <= i -> need (i + 1) n <= need i n - 1 \/ (3 <= i /\ Z.odd i = true).
Proof.
  intros Hi. unfold need. rewrite Z.odd_add. destruct (Z.odd i) eqn:Ho; simpl.
  - destruct (Z.leb_spec 3 i); [by right|left].
    destruct (Z.leb_spec 3 (i + 1)); simpl; lia.
  - left. destruct (Z.leb_spec 3 i), (Z.leb_spec 3 (i + 1)); simpl; lia.
Qed.

Lemma need_advance i n : 0 <= i -> need (i + 1) n <= need i (S n) - 1.
Proof.
  intros Hi. unfold need. destruct (Z.odd i), (Z.odd (i + 1)), (Z.leb_spec 3 i), (Z.leb_spec 3 (i + 1));
    simpl; lia.
Qed.

Lemma concretize_loop_run fuel (w : W) sc i l :
  cstring (w_mem w) sc l -> Forall is_byte l -> 0 <= i -> i + Z.of_nat fuel < 4294967296 ->
  need i (length l) <= Z.of_nat fuel ->
  concretize_loop fuel sc i w = Ret (tt, w).
Proof.
  revert sc i l. induction fuel as [|fuel IH]; intros sc i l [Hs Hnz] Hby Hi Hov Hn.
  { exfalso. unfold need in Hn. destruct ((3 <=? i) && Z.odd i); lia. }
  assert (Hi1 : u32 (i + 1) = i + 1) by (apply u32_small; lia).
  destruct l as [|c l].
  - (* the terminator *)
    apply bytes_at_cons in Hs as [H0 _]. cbn [concretize_loop].
    rewrite (mbind_run _ _ _ _ _ (run_load w sc 0 H0)), Z.eqb_refl.
    case_match; [by apply (store_same w sc 0)|]. mred. unfold gets. rewrite picks_value. simpl.
    by rewrite (store_same w sc 0).
  - apply Forall_cons_iff in Hnz as [Hc0 Hnz]. apply Forall_cons_iff in Hby as [Hc Hby].
    pose proof (bytes_at_cons (w_mem w) sc c (l ++ [0])) as Hcons.
    assert (Hhead : w_mem w !! sc = Some c) by (by apply Hcons).
    assert (Htail : cstring (w_mem w) (sc + 1) l) by (split; [by apply Hcons|done]).
    assert (Hadv : concretize_loop fuel (sc + 1) (i + 1) w = Ret (tt, w)).
    { apply (IH _ _ l); [done|done|lia|lia|]. pose proof (need_advance i (length l) Hi). simpl in Hn. lia. }
    cbn [concretize_loop]. rewrite (mbind_run _ _ _ _ _ (run_load w sc c Hhead)).
    rewrite Hi1, (proj2 (Z.eqb_neq c 0)) by done. case_match eqn:E.
    + case_match eqn:Es; [mstep (apply (store_same w sc c); [done|by apply Z.eqb_eq in Es as ->])|];
        [exact Hadv|].
      apply (IH _ _ (c :: l)); [by split; [|constructor]|by constructor|lia|lia|].
      destruct (need_step i (length (c :: l)) Hi) as [H|[H1 H2]]; [lia|].
      exfalso. apply Z.eqb_eq in E. rewrite u32_small in E by lia. by apply (land_pred_odd i).
    + mstep reflexivity. rewrite picks_value.
      assert (E8 : s8 (s8 c) = s8 c).
      { apply (sext_small 8); [lia|]. apply (s8_range c). }
      rewrite E8, Z.eqb_refl. mstep reflexivity.
      mstep (by apply (store_same w sc c); [|apply u8_s8_byte]).
      rewrite s8_zero, (proj2 (Z.eqb_neq c 0)) by done. exact Hadv.
Qed.

Lemma concretize_string_run (w : W) (s : Z) (l : list Z) :
  cstring (w_mem w) s l -> Forall is_byte l -> Z.of_nat (size (w_mem w)) < 2147483640 ->
  __concretize_string s w = Ret (s, w).
Proof.
  intros Hs Hb Hsz. unfold __concretize_string.
  assert (E : __concretize_ptr s w = Ret (s, w)).
  { unfold __concretize_ptr. mstep reflexivity. by rewrite picks_value, Z.eqb_refl. }
  mstep (exact E). mstep reflexivity.
  assert (E2 : concretize_loop (2 * size (w_mem w) + 5) s 0 w = Ret (tt, w)).
  { apply (concretize_loop_run _ w s 0 l); [done|done|lia|lia|].
    destruct Hs as [Hs _]. apply bytes_at_size in Hs. rewrite length_app in Hs. simpl in Hs.
    unfold need. simpl (_ && _). lia. }
  mstep (exact E2). done.
Qed.

End Conc.

(** Concretising a path name terminates on every string shorter than 2^31 bytes,
    and when the executor picks the value each byte has on this path it returns
    the same pointer and leaves the string, and everything else, as it was. *)
Theorem concretize_string_correct {OS} {K : Kernel OS} (w : world OS) (s : Z) (l : list Z) :
  picks_path_value (OS := OS) -> cstring (w_mem w) s l -> Forall is_byte l ->
  Z.of_nat (size (w_mem w)) < 2147483640 ->
  __concretize_string s w = Ret (s, w).
Proof. intros Hp. by apply concretize_string_run. Qed.

(** ** The stat family *)
Section Stat.
Context {OS : Type} {K : Kernel OS}.
Abbreviation W := (world OS).

(** The state with the record of [x] stored at [buf]. *)
Definition stat_stored (x : exe_disk_file) (buf : Z) (w : W) : W :=
  set_mem (CMem.write (w_mem w) buf (stat_bytes (df_stat x))) w.

(** stat, lstat and fstat on a symbolic file store its 144-byte record, from which
    every field, in particular the size, can be read back. *)
Theorem stat_correct (w : W) (path fd buf : Z) (f : exe_file) (d : dref) (x : exe_disk_file) :
  wf w -> __get_sym_file path w = Ret (Some d, w) -> sym_fd w fd f d x ->
  accessible (w_mem w) buf 144 ->
  let w' := stat_stored x buf w in
  __fd_stat path buf w = Ret (0, w') /\ __fd_lstat path buf w = Ret (0, w') /\
  __fd_fstat fd buf w = Ret (0, w') /\
  (forall l, bytes_at (w_mem w') buf l -> length l = 144%nat ->
     stat_of_bytes l = df_stat x /\ st_size (stat_of_bytes l) = df_size x).
Proof.
  intros Hw Hp [Hr Hf Ho Hd Hx] Ha w'. pose proof (wf_files _ (wf_fs_ _ Hw) _ _ Hx) as Hwx.
  assert (Hc : copy_stat d buf w = Ret (tt, w')).
  { unfold copy_stat. mstep (by apply run_get_df). apply run_on_mem, store_bytes_run.
    - rewrite length_stat_bytes. exact Ha.
    - apply stat_bytes_byte. }
  split; [|split; [|split]].
  - unfold __fd_stat. mstep (exact Hp). by rewrite (mbind_run _ _ _ _ _ Hc).
  - unfold __fd_lstat. mstep (exact Hp). by rewrite (mbind_run _ _ _ _ _ Hc).
  - unfold __fd_fstat. mstep (by apply (run_get_file w fd f)). rewrite Ho; cbv iota.
    mstep (by apply (run_get_f w fd f)). rewrite Hd; cbv iota.
    by rewrite (mbind_run _ _ _ _ _ Hc).
  - intros l Hl Hlen.
    assert (E : l = stat_bytes (df_stat x)).
    { apply list_eq. intros i. pose proof (length_stat_bytes (df_stat x)) as Hls.
      destruct (l !! i) as [b|] eqn:Eb.
      - pose proof (lookup_lt_Some _ _ _ Eb) as Hi. pose proof (Hl i b Eb) as Hm.
        change (w_mem w') with (CMem.write (w_mem w) buf (stat_bytes (df_stat x))) in Hm.
        rewrite lookup_write, decide_True in Hm by (rewrite Hls; unfold sizeof_stat64; lia).
        by replace (Z.to_nat (buf + Z.of_nat i - buf)) with i in Hm by lia.
      - apply lookup_ge_None in Eb. symmetry. apply lookup_ge_None. rewrite Hls. unfold sizeof_stat64. lia. }
    destruct Hwx as [_ _ _ Hst Hss _]. rewrite E, (stat_roundtrip _ Hst). split; [reflexivity|exact Hss].
Qed.

(** ** Departures from the comments and from POSIX *)

(** Opening for reading and writing is refused exactly when some user may read the
    file (or nobody may write it): the test of the read permission is inverted. *)
Lemma has_permission_rdwr (mode : Z) :
  has_permission O_RDWR mode =
  negb (nz (Z.lor (Z.lor (Z.land mode 256) (Z.land mode 32)) (Z.land mode 4))) &&
  nz (Z.lor (Z.lor (Z.land mode 128) (Z.land mode 16)) (Z.land mode 2)).
Proof.
  unfold has_permission. change (nz (Z.land O_RDWR O_RDWR)) with true. rewrite !orb_true_r. simpl.
  destruct (nz _); [done|]. simpl. by destruct (nz _).
Qed.

(** dup2 of a descriptor onto itself closes it: the entry is zeroed by close and
    then copied over itself. *)
Lemma dup2_same_closes (w : W) (fd : Z) (f : exe_file) :
  0 <= fd < 32 -> fds (w_env w) !! Z.to_nat fd = Some f -> is_open f = true ->
  no_failure CClose w ->
  exists w', dup2 fd fd w = Ret (fd, w') /\ __get_file fd w' = Ret (None, w').
Proof.
  intros Hr Hf Ho Hnf.
  assert (Hl : (Z.to_nat fd < length (fds (w_env w)))%nat) by (by eapply lookup_lt_Some).
  assert (Hc : close fd w = Ret (0, after CClose fd zero_file (w_mem w) (w_fs w) w)).
  { unfold close, count_call. mstep reflexivity. set (w1 := set_calls _ w).
    mstep (by apply (run_get_file w1 fd f)). rewrite Ho; cbv iota.
    mstep (apply run_inject; exact (no_failure_count CClose w Hnf)). done. }
  unfold dup2. mstep (by apply (run_get_file w fd f)). rewrite Ho; cbv iota. unfold MAX_FDS.
  rewrite (proj2 (Z.leb_le 0 fd)), (proj2 (Z.ltb_lt fd 32)) by lia. cbn [negb andb].
  mstep (by apply (run_get_f w fd f)). rewrite Ho; cbv iota.
  erewrite mbind_run; [|by rewrite (mbind_run _ _ _ _ _ Hc)]. cbv beta. set (w1 := after _ _ _ _ _ w).
  assert (H1 : fds (w_env w1) !! Z.to_nat fd = Some zero_file) by (by apply list_lookup_insert_eq).
  mstep (by apply (run_get_f w1 fd zero_file)). unfold set_f. mstep reflexivity.
  set (w2 := set_env _ w1).
  assert (H2 : fds (w_env w2) !! Z.to_nat fd = Some zero_file).
  { apply list_lookup_insert_eq. simpl. by rewrite length_insert. }
  unfold set_flags. erewrite mbind_run by (erewrite mbind_run by (by apply run_get_f); reflexivity).
  eexists. split; [reflexivity|]. rewrite (run_get_file _ fd zero_file); [done|done|].
  apply list_lookup_insert_eq. simpl. by rewrite !length_insert.
Qed.

(** With a non-zero budget and the pointer left NULL by the initialisation, every
    chmod of an existing path, and every fchmod of an open descriptor, dereferences
    NULL. *)
Lemma chmod_null_deref (w : W) (path fd mode : Z) (f : exe_file) (o : option dref) :
  max_failures (w_fs w) <> 0 -> chmod_fail (w_fs w) = None -> fchmod_fail (w_fs w) = None ->
  __get_sym_file path w = Ret (o, w) ->
  0 <= fd < 32 -> fds (w_env w) !! Z.to_nat fd = Some f -> is_open f = true ->
  chmod path mode w = Stop MemError /\ fchmod fd mode w = Stop MemError.
Proof.
  intros Hm Hc Hfc Hp Hr Hf Ho.
  assert (Hi : forall k e c, fail_ptr k (w_fs w) = None -> inject k e (set_calls c w) = Stop MemError).
  { intros k e c Hk. unfold inject. mred. unfold gets. simpl. by rewrite (proj2 (nz_true _) Hm), Hk. }
  split.
  - unfold chmod. mstep (exact Hp). unfold count_call. mstep reflexivity.
    by rewrite (mbind_stop _ _ _ MemError (Hi CChmod EIO _ Hc)).
  - unfold fchmod. mstep (by apply (run_get_file w fd f)). rewrite Ho; cbv iota.
    unfold count_call. mstep reflexivity. by rewrite (mbind_stop _ _ _ MemError (Hi CFchmod EIO _ Hfc)).
Qed.

End Stat.

(** Seeking to the largest offset and writing one byte makes the offset negative
    (the 64-bit addition wraps), and the next read fails its assertion. *)
Example offset_wraps :
  match (__fd_lseek 0 9223372036854775807 SEEK_SET ≫= (fun _ => Fd.write 0 100 1)) demo_world with
  | Ret (r, w) => r = 1 /\ option_map f_off (fds (w_env w) !! 0%nat) = Some (-9223372036854775808) /\
                  read 0 100 1 w = Stop AssertFailed
  | Stop _ => False
  end.
Proof. vm_compute. auto. Qed.

(** Opening an existing file without O_CREAT stores mode 0 in its permission bits,
    so that the same open fails the second time. *)
Example open_clears_mode :
  match __fd_open 290 O_WRONLY 0 demo_world with
  | Ret (r, w) => r = 3 /\ option_map (fun x => st_mode (df_stat x)) (lookup_df (w_fs w) (DSym 0)) = Some 32768 /\
      match __fd_open 290 O_WRONLY 0 w with
      | Ret (r, w) => r = -1 /\ w_errno w = EACCES
      | Stop _ => False
      end
  | Stop _ => False
  end.
Proof. vm_compute. auto. Qed.

(** Listing a directory writes a record of 280 bytes for each symbolic file whatever
    the size of the buffer given: with a buffer of 100 bytes and two files, the name
    of the second file is stored 299 bytes after the start of the buffer and the
    result is 65636. *)
Definition demo_dir : world unit :=
  set_mem (mem_of 100 (repeat 0 580)) (set_env (set_fds
    (<[5%nat := File 9 5 0 None]> (fds (w_env demo_world))) (w_env demo_world)) demo_world).
Example getdents_overruns :
  match __fd_getdents 5 100 100 demo_dir with
  | Ret (r, w) => r = 65636 /\ w_mem w !! 399 = Some 66
  | Stop _ => False
  end.
Proof. vm_compute. auto. Qed.

(** ** Concrete runs *)
Lemma concretize_string_correct_witness : __concretize_string 290 demo_world = Ret (290, demo_world).
Proof.
  refine (concretize_string_correct demo_world 290 [65] _ _ _ _).
  - intros v o. reflexivity.
  - rewrite demo_world_mem. split; [|repeat constructor; discriminate].
    apply (bytes_at_of 100 (repeat 0 190) [65; 0] (repeat 0 8)).
  - repeat constructor; unfold is_byte; lia.
  - vm_compute. reflexivity.
Defined.

(** stat of A with descriptor 6 open on it. *)
Definition demo_open6 : world unit :=
  set_env (set_fds (<[6%nat := File 0 5 0 (Some (DSym 0))]> (fds (w_env demo_world)))
    (w_env demo_world)) demo_world.

Lemma demo_open6_wf : wf demo_open6.
Proof.
  refine (proj1 (wf_set_f demo_world 6 _ demo_world_wf _)).
  split; [unfold is_s32; simpl; lia|unfold is_u32; simpl; lia|unfold is_s64; simpl; lia|].
  intros d [= <-]. eexists. vm_compute. reflexivity.
Qed.

Lemma demo_open6_mem : w_mem demo_open6 = demo_mem.
Proof. vm_compute. reflexivity. Qed.
Lemma demo_open6_buffer : accessible (w_mem demo_open6) 100 144.
Proof. rewrite demo_open6_mem. apply accessible_of; [lia|]. vm_compute. discriminate. Qed.

Lemma stat_correct_witness :
  exists w', __fd_stat 290 100 demo_open6 = Ret (0, w') /\ __fd_fstat 6 100 demo_open6 = Ret (0, w').
Proof.
  assert (Hs : sym_fd demo_open6 6 (File 0 5 0 (Some (DSym 0))) (DSym 0) (demo_object (DSym 0))).
  { split; [lia|vm_compute; reflexivity..]. }
  destruct (stat_correct demo_open6 290 6 100 (File 0 5 0 (Some (DSym 0))) (DSym 0) (demo_object (DSym 0)) demo_open6_wf)
    as (H1 & _ & H2 & _).
  - vm_compute. reflexivity.
  - exact Hs.
  - exact demo_open6_buffer.
  - eexists. split; [exact H1|exact H2].
Defined.

End Quirks.
