(* ===== verification/PosixSys.v ===== *)
(** * POSIX model: programs as sequences of calls

    All entry points of the POSIX layer as one type of calls, the runs of a
    program (calls interleaved with the program's own stores), and the theorems
    that hold along every run: the invariant, and what can never change. *)
From stdpp Require Import base gmap list numbers strings.
From Stdlib Require Import ZArith Lia.
From S2P Require Import Prelude CMem PosixState PosixInv PosixFd Intrinsics PosixMeta PosixInit.
From S2P Require Import PosixEnv PosixStubs PosixFd64 PosixFd32 PosixRw.
Import Fd Meta Init Rw.

Module Sys.

Inductive call : Type :=
  | Open (path flags va : Z) | Openat (fd path flags va : Z) | Close (fd : Z)
  | Read (fd buf count : Z) | Write (fd buf count : Z) | Lseek (fd offset whence : Z)
  | Dup (fd : Z) | Dup2 (oldfd newfd : Z) | Access (path mode : Z) | Umask (mask : Z)
  | Utimes (path times : Z) | Futimesat (fd path times : Z)
  | Stat (path buf : Z) | Lstat (path buf : Z) | Fstat (fd buf : Z)
  | Stat32 (tmp path buf : Z) | Lstat32 (tmp path buf : Z) | Fstat32 (tmp fd buf : Z)
  | Fstatat (fd path buf flags : Z) | Chdir (path : Z) | Fchdir (fd : Z)
  | Chmod (path mode : Z) | Fchmod (fd mode : Z)
  | Chown (path owner group : Z) | Fchown (fd owner group : Z) | Lchown (path owner group : Z)
  | Ftruncate (fd length : Z) | Getdents64 (fd dirp count : Z) | Getdents (fd dirp count : Z)
  | Ioctl (fd request buf : Z) | Fcntl (fd cmd arg : Z)
  | Statfs (path buf : Z) | Fstatfs (fd buf : Z) | Fsync (fd : Z)
  | Rmdir (path : Z) | Unlink (path : Z) | Unlinkat (dirfd path flags : Z)
  | Readlink (path buf size : Z) | Select (nfds r w e timeout : Z)
  | Getcwd (buf size : Z) | Chroot (path : Z).

Section Exec.
Context {OS : Type} {K : Kernel OS}.
Abbreviation W := (world OS).

Definition exec (c : call) : M W Z :=
  match c with
  | Open p fl va => Fd64.open p fl va
  | Openat fd p fl va => Fd64.openat fd p fl va
  | Close fd => close fd
  | Read fd b n => read fd b n
  | Write fd b n => Fd.write fd b n
  | Lseek fd o wh => Fd64.lseek fd o wh
  | Dup fd => dup fd
  | Dup2 a b => dup2 a b
  | Access p m => access p m
  | Umask m => umask m
  | Utimes p t => utimes p t
  | Futimesat fd p t => futimesat fd p t
  | Stat p b => Fd64.stat p b
  | Lstat p b => Fd64.lstat p b
  | Fstat fd b => Fd64.fstat fd b
  | Stat32 t p b => Fd32.stat t p b
  | Lstat32 t p b => Fd32.lstat t p b
  | Fstat32 t fd b => Fd32.fstat t fd b
  | Fstatat fd p b fl => fstatat fd p b fl
  | Chdir p => chdir p
  | Fchdir fd => fchdir fd
  | Chmod p m => chmod p m
  | Fchmod fd m => fchmod fd m
  | Chown p o g => chown p o g
  | Fchown fd o g => fchown fd o g
  | Lchown p o g => lchown p o g
  | Ftruncate fd l => Fd64.ftruncate64 fd l
  | Getdents64 fd d n => Fd64.getdents64 fd d n
  | Getdents fd d n => Fd32.getdents fd d n
  | Ioctl fd r b => ioctl fd r b
  | Fcntl fd c a => fcntl fd c a
  | Statfs p b => Fd64.statfs p b
  | Fstatfs fd b => fstatfs fd b
  | Fsync fd => fsync fd
  | Rmdir p => rmdir p
  | Unlink p => unlink p
  | Unlinkat d p fl => unlinkat d p fl
  | Readlink p b n => readlink p b n
  | Select n r w e t => select n r w e t
  | Getcwd b n => getcwd b n
  | Chroot p => chroot p
  end.

(** A run: the program stores what it likes in its memory and makes calls, each
    of which returns; the trace records the calls with their results. *)
Inductive run : W -> list (call * Z) -> W -> Prop :=
  | run_done w : run w [] w
  | run_store w m t w' : wf_mem m -> run (set_mem m w) t w' -> run w t w'
  | run_call w c r w1 t w' :
      exec c w = Ret (r, w1) -> run w1 t w' -> run w ((c, r) :: t) w'.

Context {KO : KernelOk OS}.

Lemma pres_exec c : pres (exec c).
Proof.
  destruct c; simpl; unfold Fd64.open, Fd64.openat, Fd64.lseek, Fd64.stat, Fd64.lstat, Fd64.fstat,
    Fd64.ftruncate64, Fd64.getdents64, Fd64.statfs;
    auto using Fd32.pres_stat32, Fd32.pres_lstat32, Fd32.pres_fstat32, Fd32.pres_getdents32 with pres.
Qed.

Lemma run_keeps w t w' : wf w -> run w t w' -> keeps w w'.
Proof.
  intros Hw Hr. revert Hw. induction Hr as [w|w m t w' Hm Hr IH|w c r w1 t w' He Hr IH]; intros Hw.
  - by apply keeps_refl.
  - assert (H1 : keeps w (set_mem m w)).
    { destruct Hw. split; [by split|]. split; simpl; auto using df_evolves_refl. lia. }
    eapply keeps_trans; [exact H1|]. apply IH, H1.
  - pose proof (pres_exec c w Hw _ _ He) as H1. eapply keeps_trans; [exact H1|]. apply IH, H1.
Qed.

(** C2. Every state a program can reach from the start of [main], through any sequence
    of calls with any arguments, any host and any command line, satisfies the
    invariant; and since the start the number and the sizes of the symbolic files
    have not changed, no removed file has come back, the failure budget has not
    grown, and the settings are the ones given. *)
Theorem reachable_invariant (defaults : stat64) (argv argv' : list (list Z)) (w0 w1 w : W)
    (t : list (call * Z)) :
  boot w0 -> wf_stat defaults ->
  Env.klee_init_env defaults argv w0 = Ret (argv', w1) -> run w1 t w ->
  wf w /\ evolves w1 w.
Proof.
  intros Hb Hd Hi Hr. apply (run_keeps w1 t w); [|done].
  by apply (Env.init_env_spec defaults argv w0 Hb Hd _ _ Hi).
Qed.

(** ** Removal of files *)

(** The file system after the inode number of [d] is cleared. *)
Definition removed (d : dref) (x : exe_disk_file) (w : W) : W :=
  set_fs (update_df d (set_stat (set_st_ino 0 (df_stat x)) x) (w_fs w)) w.

Lemma removed_forever w d x t w' p :
  wf w -> lookup_df (w_fs w) d = Some x -> run (removed d x w) t w' ->
  post (__get_sym_file p) w' (fun r _ => r <> Some d).
Proof.
  intros Hw Hx Hr.
  assert (H0 : keeps w (removed d x w)).
  { assert (E : upd_stat d (set_st_ino 0) w = Ret (tt, removed d x w)).
    { unfold upd_stat. by rewrite (mbind_run _ _ _ _ _ (run_get_df w d x Hx)). }
    exact (pres_upd_stat d _ stat_ok_unlink w Hw _ _ E). }
  pose proof (run_keeps _ _ _ (proj1 H0) Hr) as [_ Hev].
  pose proof (ev_files _ _ Hev d) as Hd. simpl in Hd.
  rewrite lookup_update_df, decide_True in Hd by (done || by eexists).
  eapply post_weaken; [apply get_sym_file_spec|]. intros r w'' [_ Hn] ->.
  destruct Hn as (i & -> & c & y & _ & _ & _ & _ & Hy & Hino).
  rewrite Hy in Hd. simpl in Hd. lia.
Qed.

(** unlink and unlinkat of a regular symbolic file succeed and keep every open
    descriptor and every byte; from then on, whatever calls the program makes, no
    path finds the file again. *)
Theorem unlink_forever (w : W) (path dirfd flags : Z) (d : dref) (x : exe_disk_file) :
  wf w -> __get_sym_file path w = Ret (Some d, w) -> lookup_df (w_fs w) d = Some x ->
  S_ISREG (st_mode (df_stat x)) = true ->
  unlink path w = Ret (0, removed d x w) /\ unlinkat dirfd path flags w = Ret (0, removed d x w) /\
  w_env (removed d x w) = w_env w /\ w_mem (removed d x w) = w_mem w /\
  forall t w' p, run (removed d x w) t w' ->
    post (__get_sym_file p) w' (fun r _ => r <> Some d).
Proof.
  intros Hw Hp Hx Hreg.
  assert (E : (upd_stat d (set_st_ino 0);; mret 0) w = Ret (0, removed d x w)).
  { unfold upd_stat. mred. by rewrite (run_get_df w d x Hx). }
  split; [|split; [|split; [done|split; [done|]]]].
  - unfold unlink. mstep (exact Hp). mstep (by apply run_get_df). by rewrite Hreg.
  - unfold unlinkat. mstep (exact Hp). mstep (by apply run_get_df). by rewrite Hreg.
  - intros t w' p Hr. by eapply removed_forever.
Qed.

End Exec.

(** ** Concrete runs *)

(** The command line [prog --sym-files 2 8], then open of A, and a write to it. *)
Definition demo_argv : list (list Z) :=
  [Env.lit "prog"; Env.lit "--sym-files"; Env.dec 2; Env.dec 8].
Definition demo_trace : list (call * Z) := [(Open 290 O_WRONLY 0, 3); (Write 3 100 4, 4)].

Lemma reachable_invariant_witness :
  exists w1 w, Env.klee_init_env demo_stat demo_argv (boot_world demo_mem tt) =
    Ret ([Env.lit "prog"], w1) /\ run w1 demo_trace w /\ wf w /\ evolves w1 w.
Proof.
  assert (E1 : exists w1, Env.klee_init_env demo_stat demo_argv (boot_world demo_mem tt) =
    Ret ([Env.lit "prog"], w1) /\ exists w2, exec (Open 290 O_WRONLY 0) w1 = Ret (3, w2) /\
      exists w3, exec (Write 3 100 4) w2 = Ret (4, w3)).
  { eexists. split; [vm_compute; reflexivity|]. eexists. split; [vm_compute; reflexivity|].
    eexists. vm_compute. reflexivity. }
  destruct E1 as (w1 & E1 & w2 & E2 & w3 & E3).
  assert (Hr : run w1 demo_trace w3).
  { eapply run_call; [exact E2|]. eapply run_call; [exact E3|]. apply run_done. }
  exists w1, w3. split; [exact E1|]. split; [exact Hr|].
  exact (reachable_invariant demo_stat demo_argv _ _ w1 w3 demo_trace demo_boot demo_stat_wf E1 Hr).
Defined.

Lemma unlink_forever_witness :
  unlink 290 demo_world = Ret (0, removed (DSym 0) (demo_object (DSym 0)) demo_world).
Proof.
  refine (proj1 (unlink_forever demo_world 290 0 0 (DSym 0) (demo_object (DSym 0)) demo_world_wf _ _ _)).
  - vm_compute. reflexivity.
  - vm_compute. reflexivity.
  - vm_compute. reflexivity.
Defined.

End Sys.
