(* ===== verification/NfTable.v ===== *)
(** * Flow keys and flow tables

The keys of flows with their hash ([Key]), and what a table of flows promises. *)
From stdpp Require Import base gmap list numbers.
From Stdlib Require Import ZArith Lia.
From S2P Require Import Prelude.

(** * Network functions: flow keys and their hash

    The keys of the NAT (examples/dpdk-nat-basichash) and of the load balancer
    (examples/dpdk-lb-basichash), the key comparison, and the 32-bit hash based
    on lookup3. The NATs and load balancers with other tables use the same keys
    and hash. *)
Module Key.

(** ** lookup3 on three 32-bit words *)
Definition hash_function_rot (x k : Z) : Z := Z.lor (u32 (Z.shiftl x k)) (Z.shiftr x (32 - k)).

Definition hash_function_mix (a b c : Z) : Z * Z * Z :=
  let a := u32 (a - c) in let a := Z.lxor a (hash_function_rot c 4) in
  let c := u32 (c + b) in
  let b := u32 (b - a) in let b := Z.lxor b (hash_function_rot a 6) in
  let a := u32 (a + c) in
  let c := u32 (c - b) in let c := Z.lxor c (hash_function_rot b 8) in
  let b := u32 (b + a) in
  let a := u32 (a - c) in let a := Z.lxor a (hash_function_rot c 16) in
  let c := u32 (c + b) in
  let b := u32 (b - a) in let b := Z.lxor b (hash_function_rot a 19) in
  let a := u32 (a + c) in
  let c := u32 (c - b) in let c := Z.lxor c (hash_function_rot b 4) in
  let b := u32 (b + a) in
  (a, b, c).

Definition hash_function_final (a b c : Z) : Z :=
  let c := Z.lxor c b in let c := u32 (c - hash_function_rot b 14) in
  let a := Z.lxor a c in let a := u32 (a - hash_function_rot c 11) in
  let b := Z.lxor b a in let b := u32 (b - hash_function_rot a 25) in
  let c := Z.lxor c b in let c := u32 (c - hash_function_rot b 16) in
  let a := Z.lxor a c in let a := u32 (a - hash_function_rot c 4) in
  let b := Z.lxor b a in let b := u32 (b - hash_function_rot a 14) in
  let c := Z.lxor c b in let c := u32 (c - hash_function_rot b 24) in
  c.

(** ** The NAT's key: the 5-tuple *)
Record hash_key : Type := HKey {
  src_ip : Z; dst_ip : Z; proto : Z; src_port : Z; dst_port : Z
}.

#[export] Instance hash_key_eq_dec : EqDecision hash_key.
Proof. solve_decision. Defined.
#[export] Instance hash_key_countable : Countable hash_key.
Proof.
  refine (inj_countable' (fun k => (src_ip k, dst_ip k, proto k, src_port k, dst_port k))
    (fun '(a, b, c, d, e) => HKey a b c d e) _). by intros [].
Defined.

Definition hash_key_equals (a b : hash_key) : bool :=
  (src_ip a =? src_ip b) && (dst_ip a =? dst_ip b) && (proto a =? proto b) &&
  (src_port a =? src_port b) && (dst_port a =? dst_port b).

Lemma hash_key_equals_spec a b : hash_key_equals a b = true <-> a = b.
Proof.
  unfold hash_key_equals. rewrite !andb_true_iff, !Z.eqb_eq.
  destruct a, b; simpl. split; [by intros [[[[-> ->] ->] ->] ->]|intros [=]; tauto].
Qed.

(** [sizeof(hash_key_t)] is 13: the structure is packed. *)
Definition hash_function (key : hash_key) : Z :=
  let i := u32 (3735928559 + 13) in
  let a := u32 (i + src_ip key) in
  let b := u32 (i + dst_ip key) in
  let c := u32 (i + Z.lor (u32 (Z.shiftl (src_port key) 16)) (dst_port key)) in
  let '(a, b, c) := hash_function_mix a b c in
  let a := u32 (a + proto key) in
  hash_function_final a b c.

(** ** The load balancer's key: the client address *)
Record lb_key : Type := LKey { lb_src_ip : Z }.

#[export] Instance lb_key_eq_dec : EqDecision lb_key.
Proof. solve_decision. Defined.
#[export] Instance lb_key_countable : Countable lb_key.
Proof. refine (inj_countable' lb_src_ip LKey _). by intros []. Defined.

Definition lb_key_equals (a b : lb_key) : bool := lb_src_ip a =? lb_src_ip b.

Lemma lb_key_equals_spec a b : lb_key_equals a b = true <-> a = b.
Proof.
  unfold lb_key_equals. rewrite Z.eqb_eq. destruct a, b; simpl. split; [by intros ->|by intros [=]].
Qed.

Definition lb_hash_function (key : lb_key) : Z :=
  let i := u32 (3735928559 + 4) in
  let a := u32 (i + lb_src_ip key) in
  hash_function_final a i i.

Lemma hash_final_range a b c : 0 <= hash_function_final a b c < 4294967296.
Proof. unfold hash_function_final. cbv zeta. match goal with |- 0 <= u32 ?x < _ => generalize x end. intros x. apply u32_range. Qed.
#[local] Opaque hash_function_final hash_function_mix.
Lemma hash_range k : 0 <= hash_function k < 4294967296.
Proof.
  unfold hash_function. cbv zeta. destruct (hash_function_mix _ _ _) as [[a b] c].
  exact (hash_final_range _ _ _).
Qed.
Lemma lb_hash_range k : 0 <= lb_hash_function k < 4294967296.
Proof. exact (hash_final_range _ _ _). Qed.

End Key.

(** * Network functions: the flow table interface

    The network functions under examples/ keep their state in a table with a
    [hash_get] and a [hash_set] and come in several versions that differ only in
    the table: chained buckets, an open-addressing ring, a binary search tree.
    [FlowTable] is the interface the packet handlers use; [FlowTableOk] and
    [FlowProbeOk] state what an implementation promises with respect to a finite
    map; the files NfChain, NfRing and NfTree discharge them. *)
(** [tget k]: [hash_get(table, key, &value, ...)], the value stored when found;
    [tprobe k]: [hash_get(table, key, NULL, ...)]; [tset k v]: [hash_set]. *)
Class FlowTable (T K V : Type) : Type := {
  tget : K -> M T (option V);
  tprobe : K -> M T bool;
  tset : K -> V -> M T unit
}.

(** [represents t m]: the table holds exactly the bindings of [m]; [room m]: a new
    key can still be stored. *)
Class FlowTableOk (T K V : Type) `{Countable K} {FT : FlowTable T K V} : Type := {
  represents : T -> gmap K V -> Prop;
  room : gmap K V -> Prop;
  tget_ok : forall t m k, represents t m -> tget k t = Ret (m !! k, t);
  tset_ok : forall t m k v, represents t m -> (is_Some (m !! k) \/ room m) ->
    exists t', tset k v t = Ret (tt, t') /\ represents t' (<[k := v]> m)
}.

Class FlowProbeOk (T K V : Type) `{FlowTableOk T K V} : Prop := {
  tprobe_ok : forall t m k, represents t m -> tprobe k t = Ret (bool_decide (is_Some (m !! k)), t)
}.

(** ** Linear scans

    [for (pos = 0; pos < n; pos++) { if (f(pos) = Some r) return r; }] *)
Definition scan_step {R} (f : Z -> option R) (pos : Z) : Z + R :=
  match f pos with Some r => inr r | None => inl (pos + 1) end.
Definition scan {R} (f : Z -> option R) (n : Z) : option R :=
  match iter_Z (scan_step f) n 0 with inr r => Some r | inl _ => None end.

Lemma scan_nat {R} (f : Z -> option R) n p d r :
  (forall e, p <= e < p + d -> f e = None) -> 0 <= d < Z.of_nat n -> f (p + d) = Some r ->
  iter_nat (scan_step f) n p = inr r.
Proof.
  revert p d; induction n as [|n IH]; intros p d Hn Hd Hf; [lia|]. cbn [iter_nat].
  unfold scan_step at 1. destruct (Z.eq_dec d 0) as [->|Hd0].
  - rewrite Z.add_0_r in Hf. by rewrite Hf.
  - rewrite Hn by lia. apply (IH (p + 1) (d - 1)); [intros e He; apply Hn; lia|lia|].
    by replace (p + 1 + (d - 1)) with (p + d) by lia.
Qed.

Lemma scan_nat_none {R} (f : Z -> option R) n p :
  (forall e, p <= e < p + Z.of_nat n -> f e = None) ->
  exists q, iter_nat (scan_step f) n p = inl q.
Proof.
  revert p; induction n as [|n IH]; intros p Hn; simpl; [by exists p|].
  unfold scan_step at 1. rewrite Hn by lia. apply IH. intros e He. apply Hn. lia.
Qed.

(** The scan returns the first hit, [None] when there is none. *)
Lemma scan_hit {R} (f : Z -> option R) n d r :
  (forall e, 0 <= e < d -> f e = None) -> 0 <= d < n -> f d = Some r -> scan f n = Some r.
Proof.
  intros Hn Hd Hf. unfold scan. rewrite iter_Z_nat.
  by rewrite (scan_nat f (Z.to_nat n) 0 d r) by (done || lia).
Qed.

Lemma scan_miss {R} (f : Z -> option R) n :
  (forall e, 0 <= e < n -> f e = None) -> scan f n = None.
Proof.
  intros Hn. unfold scan. rewrite iter_Z_nat.
  destruct (scan_nat_none f (Z.to_nat n) 0) as [q ->]; [|done]. intros e He. apply Hn. lia.
Qed.

Lemma scan_nat_inv {R} (f : Z -> option R) n p :
  match iter_nat (scan_step f) n p with
  | inr r => exists d, p <= d < p + Z.of_nat n /\ f d = Some r
  | inl _ => forall d, p <= d < p + Z.of_nat n -> f d = None
  end.
Proof.
  revert p; induction n as [|n IH]; intros p; cbn [iter_nat]; [intros d Hd; lia|].
  unfold scan_step at 1. destruct (f p) as [r|] eqn:Hp; [exists p; split; [lia|done]|].
  specialize (IH (p + 1)). destruct (iter_nat (scan_step f) n (p + 1)) as [q|r].
  - intros d Hd. destruct (Z.eq_dec d p) as [->|]; [done|]. apply IH. lia.
  - destruct IH as (d & Hd & Hf). exists d. split; [lia|done].
Qed.

Lemma scan_inv {R} (f : Z -> option R) n r :
  scan f n = Some r -> exists d, 0 <= d < n /\ f d = Some r.
Proof.
  unfold scan. rewrite iter_Z_nat. pose proof (scan_nat_inv f (Z.to_nat n) 0) as Hs.
  destruct (iter_nat _ _ _); [done|]. intros [= ->]. destruct Hs as (d & Hd & Hf).
  exists d. split; [lia|done].
Qed.

Lemma scan_none_inv {R} (f : Z -> option R) n d : scan f n = None -> 0 <= d < n -> f d = None.
Proof.
  unfold scan. rewrite iter_Z_nat. pose proof (scan_nat_inv f (Z.to_nat n) 0) as Hs.
  destruct (iter_nat _ _ _); [|done]. intros _ Hd. apply Hs. lia.
Qed.

(** The least index below [n] with a decidable property. *)
Lemma least_index (P : Z -> bool) (n : nat) :
  (exists d, 0 <= d < Z.of_nat n /\ P d = true) ->
  exists d, 0 <= d < Z.of_nat n /\ P d = true /\ forall e, 0 <= e < d -> P e = false.
Proof.
  induction n as [|n IH]; intros (d & Hd & HP); [lia|].
  destruct (existsb (fun i => P (Z.of_nat i)) (seq 0 n)) eqn:E.
  - apply existsb_exists in E as (i & Hi & HPi). apply in_seq in Hi.
    destruct IH as (e & He & HPe & Hl); [exists (Z.of_nat i); split; [lia|done]|].
    exists e. split; [lia|done].
  - assert (Hn : forall e, 0 <= e < Z.of_nat n -> P e = false).
    { intros e He. destruct (P e) eqn:HPe; [|done]. exfalso.
      assert (Hex : existsb (fun i => P (Z.of_nat i)) (seq 0 n) = true); [|congruence].
      apply existsb_exists. exists (Z.to_nat e). split; [apply in_seq; lia|].
      by rewrite Z2Nat.id by lia. }
    exists d. split; [lia|]. split; [done|]. intros e He. apply Hn. lia.
Qed.

(** ** Lemmas on calloc'd arrays *)
Lemma aget_range {A} (a : carray A) i : is_Some (aget a i) <-> 0 <= i < ca_len a.
Proof.
  unfold aget, in_range. destruct (Z.leb_spec 0 i), (Z.ltb_spec i (ca_len a)); simpl;
    (split; [try (by intros [? [=]]); lia|try lia]); by eexists.
Qed.

Lemma aset_run {A} (a : carray A) i x :
  0 <= i < ca_len a ->
  exists a', aset a i x = Some a' /\ ca_len a' = ca_len a /\
    forall j, aget a' j = if decide (j = i) then Some x else aget a j.
Proof.
  intros Hi. unfold aset, aget, in_range.
  rewrite (proj2 (Z.leb_le 0 i)), (proj2 (Z.ltb_lt i (ca_len a))) by lia. simpl.
  eexists. split; [done|]. split; [done|]. intros j. simpl. rewrite lookup_insert.
  destruct (decide (i = j)) as [->|Hne].
  - rewrite decide_True by done.
    by rewrite (proj2 (Z.leb_le 0 j)), (proj2 (Z.ltb_lt j (ca_len a))) by lia.
  - by rewrite decide_False by congruence.
Qed.
