(* ===== verification/NfChain.v ===== *)
(** * Network functions: the chained hash table

    [hash_init], [hash_get] and [hash_set] of examples/dpdk-nat-basichash and of
    examples/dpdk-lb-basichash. The code of the two programs is the same text over
    two types of key and value, so the definitions are generic in them, in the key
    comparison and in the hash function; the instances at the end are the two
    programs. A bucket is the chain of entries from [hash_table[hash]] along
    [next]; [malloc] of an entry is taken to succeed, as the code does. *)
From stdpp Require Import base gmap list numbers.
From Stdlib Require Import ZArith Lia.
From S2P Require Import Prelude NfTable.

Module Chain.

Definition TABLE_SIZE : Z := Z.shiftl 1 16.

Section Chain.
Context {K V : Type} `{Countable K}.
Context (key_equals : K -> K -> bool) (hashf : K -> Z).
Hypothesis key_equals_spec : forall a b, key_equals a b = true <-> a = b.
Hypothesis hashf_nonneg : forall k, 0 <= hashf k.

Record hash_entry : Type := Entry { e_key : K; e_value : V }.
Abbreviation hash_table := (carray (list hash_entry)).

Definition hash_init : hash_table := acalloc TABLE_SIZE [].

(** The loop of [hash_set]: update the first entry with the key in place. *)
Fixpoint chain_update (l : list hash_entry) (key : K) (value : V) : option (list hash_entry) :=
  match l with
  | [] => None
  | entry :: l =>
      if key_equals (e_key entry) key then Some (Entry (e_key entry) value :: l)
      else match chain_update l key value with
           | Some l' => Some (entry :: l')
           | None => None
           end
  end.

Definition hash_set (key : K) (value : V) (hash : Z) : M hash_table unit :=
  t ← get;
  chain ← of_option (aget t hash);
  let chain' := match chain_update chain key value with
                | Some l => l
                | None => Entry key value :: chain
                end in
  t' ← of_option (aset t hash chain');
  put t'.

(** The loop of [hash_get]: the value of the first entry with the key. *)
Fixpoint chain_find (l : list hash_entry) (key : K) : option V :=
  match l with
  | [] => None
  | entry :: l => if key_equals (e_key entry) key then Some (e_value entry) else chain_find l key
  end.

(** The returned flag, with the value stored through [value] when it is not NULL. *)
Definition hash_get (key : K) (want : bool) (hash : Z) : M hash_table (bool * option V) :=
  t ← get;
  chain ← of_option (aget t hash);
  mret match chain_find chain key with
       | Some v => (true, if want then Some v else None)
       | None => (false, None)
       end.

(** The callers pass [hash_function(key) % TABLE_SIZE]. *)
Definition slot_of (key : K) : Z := hashf key `mod` TABLE_SIZE.

Definition chain_table : FlowTable hash_table K V := {|
  tget k := r ← hash_get k true (slot_of k); mret (snd r);
  tprobe k := r ← hash_get k false (slot_of k); mret (fst r);
  tset k v := hash_set k v (slot_of k)
|}.

(** ** What the chains hold *)
Definition chain_rep (t : hash_table) (m : gmap K V) : Prop :=
  ca_len t = TABLE_SIZE /\
  forall k, exists l, aget t (slot_of k) = Some l /\ chain_find l k = m !! k.

Lemma chain_slot_range k : 0 <= slot_of k < TABLE_SIZE.
Proof. apply Z.mod_pos_bound. reflexivity. Qed.

Lemma chain_key_refl k : key_equals k k = true.
Proof. by apply key_equals_spec. Qed.
Lemma chain_key_ne a b : a <> b -> key_equals a b = false.
Proof. intros Hab. apply not_true_is_false. by rewrite key_equals_spec. Qed.

Lemma chain_update_find l k v l' j :
  chain_update l k v = Some l' ->
  chain_find l' j = if decide (j = k) then Some v else chain_find l j.
Proof.
  revert l'; induction l as [|e l IH]; intros l' E; simpl in E; [done|].
  destruct (key_equals (e_key e) k) eqn:He.
  - simplify_eq. apply key_equals_spec in He as Hk. simpl. case_decide as Hj.
    + subst j. by rewrite He.
    + subst k. by rewrite chain_key_ne by congruence.
  - destruct (chain_update l k v) as [l0|]; simplify_eq. simpl. rewrite (IH l0) by done.
    case_decide as Hj; [|done]. subst j. by rewrite He.
Qed.

Lemma chain_update_none l k v : chain_update l k v = None -> chain_find l k = None.
Proof.
  induction l as [|e l IH]; simpl; [done|]. destruct (key_equals (e_key e) k); [done|].
  destruct (chain_update l k v); [done|]. auto.
Qed.

(** The chain [hash_set] leaves in the bucket. *)
Lemma chain_set_find l k v j :
  chain_find (match chain_update l k v with Some l' => l' | None => Entry k v :: l end) j =
  if decide (j = k) then Some v else chain_find l j.
Proof.
  destruct (chain_update l k v) as [l'|] eqn:E; [by apply chain_update_find|]. simpl.
  case_decide as Hj; [subst; by rewrite chain_key_refl|]. by rewrite chain_key_ne by congruence.
Qed.

Lemma chain_get_run t m k want :
  chain_rep t m ->
  hash_get k want (slot_of k) t =
  Ret (match m !! k with Some v => (true, if want then Some v else None) | None => (false, None) end, t).
Proof.
  intros [_ Hr]. destruct (Hr k) as (l & Hl & Hf). unfold hash_get, get.
  cbv beta iota delta [mbind M_bind]. rewrite Hl. cbn [of_option]. mred. by rewrite Hf.
Qed.

Lemma chain_set_run t m k v :
  chain_rep t m ->
  exists t', hash_set k v (slot_of k) t = Ret (tt, t') /\ chain_rep t' (<[k := v]> m).
Proof.
  intros [Hlen Hr]. destruct (Hr k) as (l & Hl & _). unfold hash_set, get.
  cbv beta iota delta [mbind M_bind]. rewrite Hl. cbn [of_option]. mred.
  set (l' := match chain_update l k v with Some l => l | None => Entry k v :: l end).
  destruct (aset_run t (slot_of k) l') as (t' & -> & Hlen' & Hget); [rewrite Hlen; apply chain_slot_range|].
  cbn [of_option]. mred. unfold put. eexists. split; [done|]. split; [congruence|]. intros j.
  destruct (Hr j) as (lj & Hlj & Hfj). rewrite Hget. case_decide as Hs.
  - exists l'. split; [done|]. unfold l'. rewrite chain_set_find, lookup_insert.
    rewrite Hs, Hl in Hlj. simplify_eq. destruct (decide (j = k)), (decide (k = j)); congruence.
  - exists lj. split; [done|]. rewrite Hfj, lookup_insert_ne; [done|]. by intros ->.
Qed.

Lemma chain_init_rep : chain_rep hash_init ∅.
Proof.
  split; [done|]. intros k. exists []. rewrite lookup_empty. split; [|done].
  unfold hash_init. pose proof (chain_slot_range k) as Hs. unfold aget, in_range. simpl.
  rewrite (proj2 (Z.leb_le _ _)), (proj2 (Z.ltb_lt _ _)) by lia. simpl. by rewrite lookup_empty.
Qed.

(** The chained table keeps the promises of the interface, and never runs out of room. *)
Definition chain_ok : FlowTableOk hash_table K V (FT := chain_table).
Proof.
  refine {| represents := chain_rep; room := fun _ => True |}.
  - intros t m k Hr. cbn [tget chain_table].
    rewrite (mbind_run _ _ _ _ _ (chain_get_run t m k true Hr)). by destruct (m !! k).
  - intros t m k v Hr _. by apply chain_set_run.
Defined.

Lemma chain_probe_ok : FlowProbeOk hash_table K V (FT := chain_table) (H0 := chain_ok).
Proof.
  constructor. intros t m k Hr. cbn [tprobe chain_table].
  rewrite (mbind_run _ _ _ _ _ (chain_get_run t m k false Hr)). destruct (m !! k) eqn:E.
  - by rewrite bool_decide_eq_true_2 by eauto.
  - rewrite bool_decide_eq_false_2; [done|]. by intros [? [=]].
Qed.
End Chain.
Arguments hash_entry : clear implicits.

End Chain.
