(* ===== verification/NfRing.v ===== *)
(** * Network functions: the hash ring

    [hash_init], [hash_get] and [hash_set] of examples/dpdk-nat-hashring: open
    addressing with linear probing in one array of [TABLE_SIZE] entries. The
    definitions are generic in key and value, as in NfChain. [ring_rep] is the
    invariant of the ring: an entry is reachable from the slot of its key through
    used entries with other keys. *)
From stdpp Require Import base gmap list numbers.
From Stdlib Require Import ZArith Lia.
From S2P Require Import Prelude NfTable.

Module Ring.

Definition PAGE_SIZE : Z := Z.shiftl 1 30.
(** [sizeof(hash_entry_t)]: 13 + 13 + 4 bytes, aligned to 64. *)
Definition sizeof_entry : Z := 64.
Definition TABLE_SIZE : Z := PAGE_SIZE / sizeof_entry.

Section Ring.
Context {K V : Type} `{Countable K} (kzero : K) (vzero : V) (size : Z).
Context (key_equals : K -> K -> bool) (hashf : K -> Z).
Hypothesis size_pos : 0 < size.
Hypothesis key_equals_spec : forall a b, key_equals a b = true <-> a = b.

Record hash_entry : Type := Entry { e_key : K; e_value : V; used : Z }.
Abbreviation hash_table := (carray hash_entry).

(** The reserved zone, cleared. *)
Definition hash_init : hash_table := acalloc size (Entry kzero vzero 0).

(** One round of the loop of [hash_set]: the table to return with. *)
Definition set_round (t : hash_table) (key : K) (value : V) (hash pos : Z)
    : option (result hash_table) :=
  let i := (hash + pos) `mod` size in
  let store x := match aset t i x with Some t' => Some (Ret t') | None => Some (Stop MemError) end in
  match aget t i with
  | None => Some (Stop MemError)
  | Some entry =>
      if negb (nz (used entry)) then store (Entry key value 1)
      else if key_equals (e_key entry) key then store (Entry (e_key entry) value (used entry))
      else None
  end.

Definition hash_set (key : K) (value : V) (hash : Z) : M hash_table unit := fun t =>
  match scan (set_round t key value hash) size with
  | Some (Ret t') => Ret (tt, t')
  | Some (Stop e) => Stop e
  | None => Ret (tt, t)
  end.

(** One round of the loop of [hash_get]. *)
Definition get_round (t : hash_table) (key : K) (hash pos : Z) : option (result (option V)) :=
  match aget t ((hash + pos) `mod` size) with
  | None => Some (Stop MemError)
  | Some entry =>
      if negb (nz (used entry)) then Some (Ret None)
      else if key_equals (e_key entry) key then Some (Ret (Some (e_value entry)))
      else None
  end.

(** The returned flag, with the value stored through [value] when it is not NULL. *)
Definition hash_get (key : K) (want : bool) (hash : Z) : M hash_table (bool * option V) := fun t =>
  match scan (get_round t key hash) size with
  | Some (Ret (Some v)) => Ret ((true, if want then Some v else None), t)
  | Some (Ret None) | None => Ret ((false, None), t)
  | Some (Stop e) => Stop e
  end.

(** The callers pass [hash_function(key) % TABLE_SIZE]. *)
Definition slot_of (key : K) : Z := hashf key `mod` size.

Definition ring_table : FlowTable hash_table K V := {|
  tget k := r ← hash_get k true (slot_of k); mret (snd r);
  tprobe k := r ← hash_get k false (slot_of k); mret (fst r);
  tset k v := hash_set k v (slot_of k)
|}.

(** ** The invariant *)
Definition idx (k : K) (d : Z) : Z := (slot_of k + d) `mod` size.
Definition is_used (x : hash_entry) : Prop := nz (used x) = true.

(** The probe sequence of [k] reaches an entry of [k] after [d] used entries of other keys. *)
Definition path (t : hash_table) (k : K) (d : Z) : Prop :=
  forall e, 0 <= e < d -> exists x, aget t (idx k e) = Some x /\ is_used x /\ e_key x <> k.
Definition reaches (t : hash_table) (k : K) (d : Z) (v : V) : Prop :=
  0 <= d < size /\ path t k d /\
  exists x, aget t (idx k d) = Some x /\ is_used x /\ e_key x = k /\ e_value x = v.

Record ring_rep (t : hash_table) (m : gmap K V) : Prop := {
  rr_len : ca_len t = size;
  rr_has : forall k v, m !! k = Some v -> exists d, reaches t k d v;
  rr_only : forall i x, aget t i = Some x -> is_used x ->
    m !! e_key x = Some (e_value x) /\
    exists d, i = idx (e_key x) d /\ reaches t (e_key x) d (e_value x)
}.

Lemma idx_range k d : 0 <= idx k d < size.
Proof. by apply Z.mod_pos_bound. Qed.

Lemma ring_key_refl k : key_equals k k = true.
Proof. by apply key_equals_spec. Qed.
Lemma ring_key_ne a b : a <> b -> key_equals a b = false.
Proof. intros Hab. apply not_true_is_false. by rewrite key_equals_spec. Qed.

(** Distinct distances below [size] are distinct slots, and every slot has a distance. *)
Lemma idx_inj k d e : 0 <= d < size -> 0 <= e < size -> idx k d = idx k e -> d = e.
Proof.
  unfold idx. intros Hd He E. set (s := slot_of k) in *.
  pose proof (Z.div_mod (s + d) size ltac:(lia)). pose proof (Z.div_mod (s + e) size ltac:(lia)).
  assert ((s + d) / size - (s + e) / size = 0); nia.
Qed.

Lemma idx_surj k i : 0 <= i < size -> exists d, 0 <= d < size /\ idx k d = i.
Proof.
  intros Hi. exists ((i - slot_of k) `mod` size). split; [by apply Z.mod_pos_bound|].
  unfold idx. rewrite Zplus_mod_idemp_r. replace (slot_of k + (i - slot_of k)) with i by lia.
  by apply Z.mod_small.
Qed.

Lemma reaches_unique t k d e v w : reaches t k d v -> reaches t k e w -> d = e.
Proof.
  intros (Hd & Pd & x & Hx & _ & Kx & _) (He & Pe & y & Hy & _ & Ky & _).
  destruct (Z.lt_trichotomy d e) as [Hlt|[->|Hlt]]; [|done|].
  - destruct (Pe d) as (z & Hz & _ & Kz); [lia|]. congruence.
  - destruct (Pd e) as (z & Hz & _ & Kz); [lia|]. congruence.
Qed.

Lemma get_round_path t k d e :
  path t k d -> 0 <= e < d -> get_round t k (slot_of k) e = None.
Proof.
  intros P He. destruct (P e He) as (x & Hx & Ux & Kx). unfold get_round.
  fold (idx k e). rewrite Hx, Ux. simpl. by rewrite ring_key_ne.
Qed.

Lemma set_round_path t k v d e :
  path t k d -> 0 <= e < d -> set_round t k v (slot_of k) e = None.
Proof.
  intros P He. destruct (P e He) as (x & Hx & Ux & Kx). unfold set_round.
  fold (idx k e). rewrite Hx, Ux. simpl. by rewrite ring_key_ne.
Qed.

(** A key that is not in the map: used entries all have other keys, so the probe
    goes on until the first unused entry. *)
Lemma absent_entry t m k i x :
  ring_rep t m -> m !! k = None -> aget t i = Some x -> is_used x -> e_key x <> k.
Proof. intros R Hk Hx Ux <-. destruct (rr_only _ _ R i x Hx Ux). congruence. Qed.

Lemma entry_at (t : hash_table) k d : ca_len t = size -> exists x, aget t (idx k d) = Some x.
Proof. intros Hl. apply aget_range. rewrite Hl. apply idx_range. Qed.

Lemma ring_get_run t m k want :
  ring_rep t m ->
  hash_get k want (slot_of k) t =
  Ret (match m !! k with Some v => (true, if want then Some v else None) | None => (false, None) end, t).
Proof.
  intros R. unfold hash_get. destruct (m !! k) as [v|] eqn:Hk.
  - destruct (rr_has _ _ R k v Hk) as (d & Hd & P & x & Hx & Ux & Kx & <-).
    erewrite (scan_hit _ size d (Ret (Some (e_value x)))); [done| |done|].
    + intros e He. by apply (get_round_path t k d).
    + unfold get_round. fold (idx k d). rewrite Hx, Ux. simpl. subst k. by rewrite ring_key_refl.
  - assert (Hr : forall d, get_round t k (slot_of k) d = None \/
                           get_round t k (slot_of k) d = Some (Ret None)).
    { intros d. unfold get_round. fold (idx k d).
      destruct (entry_at t k d (rr_len _ _ R)) as [x Hx]. rewrite Hx.
      destruct (nz (used x)) eqn:Ux; simpl; [|by right]. left.
      by rewrite ring_key_ne by (by eapply absent_entry). }
    unfold scan. rewrite iter_Z_nat. generalize 0. induction (Z.to_nat size) as [|n IH]; [done|].
    intros p. cbn [iter_nat]. unfold scan_step at 1. destruct (Hr p) as [-> | ->]; [apply IH|done].
Qed.

(** ** Insertion

    The write keeps every used entry used with its key, so that no probe sequence
    is broken. *)
Definition keeps (t t' : hash_table) : Prop :=
  forall i x, aget t i = Some x -> is_used x ->
  exists x', aget t' i = Some x' /\ is_used x' /\ e_key x' = e_key x.

Lemma path_keeps t t' k d : keeps t t' -> path t k d -> path t' k d.
Proof.
  intros Hk P e He. destruct (P e He) as (x & Hx & Ux & Kx).
  destruct (Hk _ _ Hx Ux) as (x' & Hx' & Ux' & Kx'). exists x'. rewrite Kx'. eauto.
Qed.

(** The write of a fresh or updated entry of [k] at the end of its path. *)
Lemma write_rep t m k v t' d x' :
  ring_rep t m -> 0 <= d < size -> path t k d ->
  (forall x, aget t (idx k d) = Some x -> is_used x -> e_key x = k) ->
  (forall e w, reaches t k e w -> e = d) ->
  is_used x' -> e_key x' = k -> e_value x' = v -> ca_len t' = ca_len t ->
  (forall j, aget t' j = if decide (j = idx k d) then Some x' else aget t j) ->
  ring_rep t' (<[k := v]> m).
Proof.
  intros R Hd P Hold Huniq Ux' Kx' Vx' Hlen Hget.
  assert (HK : keeps t t').
  { intros i x Hx Ux. rewrite Hget. case_decide as Hi; [|eauto].
    subst i. exists x'. split; [done|]. rewrite Kx'. split; [done|]. by rewrite (Hold x). }
  assert (Hmine : reaches t' k d v).
  { split; [done|]. split; [by eapply path_keeps|]. exists x'. by rewrite Hget, decide_True. }
  assert (Hother : forall j e w, j <> k -> reaches t j e w -> reaches t' j e w).
  { intros j e w Hj (He & Pe & x & Hx & Ux & Kx & Vx). split; [done|].
    split; [by eapply path_keeps|]. exists x. rewrite Hget. case_decide as Hi; [|done].
    rewrite Hi in Hx. specialize (Hold x Hx Ux). congruence. }
  split; [by rewrite Hlen; apply (rr_len _ _ R)| |].
  - intros j w Hj. destruct (decide (j = k)) as [->|Hne].
    + rewrite lookup_insert_eq in Hj. simplify_eq. eauto.
    + rewrite lookup_insert_ne in Hj by done.
      destruct (rr_has _ _ R j w Hj) as (e & He). eauto.
  - intros i x Hx Ux. rewrite Hget in Hx. case_decide as Hi.
    + injection Hx as <-. rewrite Kx', Vx', lookup_insert_eq. eauto.
    + destruct (rr_only _ _ R i x Hx Ux) as (Hm & e & -> & He).
      assert (e_key x <> k) as Hne.
      { intros E. rewrite E in *. apply Hi. by rewrite (Huniq e (e_value x)). }
      rewrite lookup_insert_ne by done. eauto.
Qed.

Lemma set_stores (t : hash_table) k v d x' :
  ca_len t = size -> 0 <= d < size -> path t k d ->
  set_round t k v (slot_of k) d =
    match aset t (idx k d) x' with Some t' => Some (Ret t') | None => Some (Stop MemError) end ->
  exists t', hash_set k v (slot_of k) t = Ret (tt, t') /\ ca_len t' = ca_len t /\
    forall j, aget t' j = if decide (j = idx k d) then Some x' else aget t j.
Proof.
  intros Hlen Hd P E. destruct (aset_run t (idx k d) x') as (t' & Ht' & Hl & Hg).
  { rewrite Hlen. apply idx_range. }
  rewrite Ht' in E. exists t'. split; [|done]. unfold hash_set.
  rewrite (scan_hit _ size d (Ret t')); [done| |done|done].
  intros e He. by apply (set_round_path t k v d).
Qed.

(** Overwriting a key that is present. *)
Lemma hash_set_present t m k v w :
  ring_rep t m -> m !! k = Some w ->
  exists t', hash_set k v (slot_of k) t = Ret (tt, t') /\ ring_rep t' (<[k := v]> m).
Proof.
  intros R Hk. destruct (rr_has _ _ R k w Hk) as (d & Hr). pose proof Hr as (Hd & P & x & Hx & Ux & Kx & Vx).
  destruct (set_stores t k v d (Entry (e_key x) v (used x))) as (t' & Hs & Hl & Hg);
    [apply (rr_len _ _ R)|done|done| |].
  { unfold set_round. fold (idx k d). rewrite Hx, Ux. simpl. subst k. by rewrite ring_key_refl. }
  exists t'. split; [done|]. eapply (write_rep t m k v t' d (Entry (e_key x) v (used x))); try done.
  - intros y Hy _. congruence.
  - intros e u He. symmetry. by eapply reaches_unique.
Qed.

(** The probe sequence of an absent key up to the first unused entry. *)
Lemma free_path t m k i x :
  ring_rep t m -> m !! k = None -> aget t i = Some x -> nz (used x) = false ->
  exists d y, 0 <= d < size /\ path t k d /\ aget t (idx k d) = Some y /\ nz (used y) = false.
Proof.
  intros R Hk Hx Fx. set (P d := match aget t (idx k d) with Some y => negb (nz (used y)) | None => true end).
  assert (Hi : 0 <= i < size) by (rewrite <- (rr_len _ _ R); apply aget_range; eauto).
  destruct (idx_surj k i Hi) as (d0 & Hd0 & Ei).
  destruct (least_index P (Z.to_nat size)) as (d & Hd & HP & Hl).
  { exists d0. split; [lia|]. unfold P. by rewrite Ei, Hx, Fx. }
  unfold P in HP. destruct (entry_at t k d (rr_len _ _ R)) as [y Hy]. rewrite Hy in HP.
  exists d, y. split; [lia|]. split; [|by apply negb_true_iff in HP].
  intros e He. destruct (entry_at t k e (rr_len _ _ R)) as [z Hz]. specialize (Hl e He).
  unfold P in Hl. rewrite Hz in Hl. apply negb_false_iff in Hl. exists z.
  split; [done|]. split; [done|]. by eapply absent_entry.
Qed.

Lemma hash_set_absent t m k v i x :
  ring_rep t m -> m !! k = None -> aget t i = Some x -> nz (used x) = false ->
  exists t', hash_set k v (slot_of k) t = Ret (tt, t') /\ ring_rep t' (<[k := v]> m).
Proof.
  intros R Hk Hx Fx. destruct (free_path t m k i x R Hk Hx Fx) as (d & y & Hd & P & Hy & Fy).
  destruct (set_stores t k v d (Entry k v 1)) as (t' & Hs & Hl & Hg);
    [apply (rr_len _ _ R)|done|done| |].
  { unfold set_round. fold (idx k d). by rewrite Hy, Fy. }
  exists t'. split; [done|]. eapply (write_rep t m k v t' d (Entry k v 1)); try done.
  - intros z Hz Uz. unfold is_used in Uz. congruence.
  - intros e u (_ & _ & z & Hz & Uz & Kz & _). by destruct (absent_entry t m k _ _ R Hk Hz Uz).
Qed.

(** A ring whose entries are all used has exactly one entry per slot: the keys
    are pairwise different, so the map has at least [size] keys. *)
Lemma full_size t m :
  ring_rep t m -> (forall i x, aget t i = Some x -> is_used x) -> size <= Z.of_nat (base.size m).
Proof.
  intros R Hall. set (key i := match aget t i with Some x => e_key x | None => kzero end).
  set (L := key <$> seqZ 0 size).
  assert (Hin : forall i, 0 <= i < size -> exists x, aget t i = Some x).
  { intros i Hi. apply aget_range. by rewrite (rr_len _ _ R). }
  assert (HL : NoDup L).
  { apply NoDup_fmap_2_strong; [|apply NoDup_seqZ]. intros i j Hi Hj E.
    apply elem_of_seqZ in Hi, Hj. destruct (Hin i ltac:(lia)) as [x Hx], (Hin j ltac:(lia)) as [y Hy].
    unfold key in E. rewrite Hx, Hy in E.
    destruct (rr_only _ _ R i x Hx (Hall _ _ Hx)) as (_ & d & -> & Hd).
    destruct (rr_only _ _ R j y Hy (Hall _ _ Hy)) as (_ & e & -> & He).
    rewrite <- E in *. by rewrite (reaches_unique t (e_key x) d e _ _ Hd He). }
  assert (Hsub : list_to_set (C := gset K) L ⊆ dom m).
  { intros k Hk. apply elem_of_list_to_set, list_elem_of_fmap in Hk as (i & -> & Hi).
    apply elem_of_seqZ in Hi. destruct (Hin i ltac:(lia)) as [x Hx]. unfold key. rewrite Hx.
    apply elem_of_dom. destruct (rr_only _ _ R i x Hx (Hall _ _ Hx)). eauto. }
  apply subseteq_size in Hsub. rewrite size_list_to_set, size_dom in Hsub by done.
  unfold L in Hsub. rewrite length_fmap, length_seqZ in Hsub. lia.
Qed.

(** Decidability of a full ring, by the scan of all slots. *)
Lemma free_slot t m :
  ring_rep t m -> Z.of_nat (base.size m) < size ->
  exists i x, aget t i = Some x /\ nz (used x) = false.
Proof.
  intros R Hm. set (P i := match aget t i with Some x => negb (nz (used x)) | None => false end).
  destruct (decide (Exists (fun i => P i = true) (seqZ 0 size))) as [HE|HN].
  - apply Exists_exists in HE as (i & _ & Hi). unfold P in Hi.
    destruct (aget t i) as [x|] eqn:Hx; [|done]. apply negb_true_iff in Hi. eauto.
  - exfalso. enough (size <= Z.of_nat (base.size m)) by lia. eapply full_size; [done|].
    intros i x Hx. unfold is_used. destruct (nz (used x)) eqn:Ux; [done|]. exfalso. apply HN.
    apply Exists_exists. exists i. split; [|unfold P; by rewrite Hx, Ux].
    apply list_elem_of_In, elem_of_seqZ. assert (0 <= i < ca_len t) by (apply aget_range; eauto).
    rewrite (rr_len _ _ R) in *. lia.
Qed.

Lemma ring_set_run t m k v :
  ring_rep t m -> is_Some (m !! k) \/ Z.of_nat (base.size m) < size ->
  exists t', hash_set k v (slot_of k) t = Ret (tt, t') /\ ring_rep t' (<[k := v]> m).
Proof.
  intros R Hroom. destruct (m !! k) as [w|] eqn:Hk; [by eapply hash_set_present|].
  destruct Hroom as [[? [=]]|Hroom]. destruct (free_slot t m R Hroom) as (i & x & Hx & Fx).
  by eapply hash_set_absent.
Qed.

Lemma ring_init_rep : ring_rep hash_init ∅.
Proof.
  split; [done|by intros k v; rewrite lookup_empty|].
  intros i x. unfold aget, hash_init, is_used. simpl. case_match; [|done]. rewrite lookup_empty.
  simpl. by intros [= <-].
Qed.

(** The ring keeps the promises of the interface as long as it has fewer keys than slots. *)
Definition ring_ok : FlowTableOk hash_table K V (FT := ring_table).
Proof.
  refine {| represents := ring_rep; room := fun m => Z.of_nat (base.size m) < size |}.
  - intros t m k Hr. cbn [tget ring_table].
    rewrite (mbind_run _ _ _ _ _ (ring_get_run t m k true Hr)). by destruct (m !! k).
  - intros t m k v Hr Hroom. by apply ring_set_run.
Defined.

Lemma ring_probe_ok : FlowProbeOk hash_table K V (FT := ring_table) (H0 := ring_ok).
Proof.
  constructor. intros t m k Hr. cbn [tprobe ring_table].
  rewrite (mbind_run _ _ _ _ _ (ring_get_run t m k false Hr)). destruct (m !! k) eqn:E.
  - by rewrite bool_decide_eq_true_2 by eauto.
  - rewrite bool_decide_eq_false_2; [done|]. by intros [? [=]].
Qed.

(** A full ring: [hash_set] of a new key returns without storing it. *)
Lemma full_drops t m k v :
  ring_rep t m -> m !! k = None -> (forall i x, aget t i = Some x -> is_used x) ->
  hash_set k v (slot_of k) t = Ret (tt, t).
Proof.
  intros R Hk Hall. unfold hash_set. rewrite scan_miss; [done|]. intros e He.
  unfold set_round. fold (idx k e). destruct (entry_at t k e (rr_len _ _ R)) as [x Hx].
  rewrite Hx, (Hall _ _ Hx : nz (used x) = true). simpl.
  rewrite ring_key_ne; [done|]. exact (absent_entry t m k _ x R Hk Hx (Hall _ _ Hx)).
Qed.
End Ring.
Arguments hash_entry : clear implicits.
End Ring.
