(* ===== verification/NfTree.v ===== *)
(** * Network functions: the binary search tree

    The table of examples/dpdk-nat-tree: an unbalanced search tree on the
    5-tuple, ordered lexicographically. The tree keeps the promises of a flow
    table for lookups with a destination and for insertions; a lookup without
    one ([value] is NULL), which the port search of the NAT makes, stores through
    the null pointer when the key is there. *)
From stdpp Require Import base gmap list numbers.
From Stdlib Require Import ZArith Lia.
From S2P Require Import Prelude NfTable.

Module Tree.
Import Key.

(** [hash_key_t::operator<] *)
Definition key_lt (this other : hash_key) : bool :=
  if negb (src_ip this =? src_ip other) then src_ip this <? src_ip other
  else if negb (dst_ip this =? dst_ip other) then dst_ip this <? dst_ip other
  else if negb (proto this =? proto other) then proto this <? proto other
  else if negb (src_port this =? src_port other) then src_port this <? src_port other
  else dst_port this <? dst_port other.

(** [hash_key_t::operator==] and [operator!=] *)
Definition key_eq (this other : hash_key) : bool :=
  (src_ip this =? src_ip other) && (dst_ip this =? dst_ip other) &&
  (proto this =? proto other) && (src_port this =? src_port other) &&
  (dst_port this =? dst_port other).
Definition key_ne (this other : hash_key) : bool := negb (key_eq this other).

(** A [tree_node_t *]: NULL or a node. *)
Inductive tree_node (V : Type) : Type :=
  | Null
  | Node (left right : tree_node V) (key : hash_key) (value : V).
Arguments Null {V}.
Arguments Node {V}.

Section Tree.
Context {V : Type}.
Abbreviation tree := (tree_node V).

Definition hash_init : tree := Null.

(** The tree with [*pos] assigned at the end of the walk of [hash_set]. *)
Fixpoint set_at (pos : tree) (key : hash_key) (value : V) : tree :=
  match pos with
  | Null => Node Null Null key value
  | Node l r k v =>
      if key_ne k key then
        if key_lt k key then Node l (set_at r key value) k v
        else Node (set_at l key value) r k v
      else Node l r k value
  end.

Definition hash_set (key : hash_key) (value : V) : M tree unit := modify (fun t => set_at t key value).

(** The walk of [hash_get]. *)
Fixpoint walk (pos : tree) (key : hash_key) : option V :=
  match pos with
  | Null => None
  | Node l r k v =>
      if key_ne k key then if key_lt k key then walk r key else walk l key
      else Some v
  end.

(** [dest] is false when [value] is NULL. *)
Definition hash_get (key : hash_key) (dest : bool) : M tree (bool * option V) :=
  t ← get;
  match walk t key with
  | Some v => if dest then mret (true, Some v) else halt MemError
  | None => mret (false, None)
  end.

#[export] Instance tree_table : FlowTable tree hash_key V := {|
  tget k := r ← hash_get k true; mret (snd r);
  tprobe k := r ← hash_get k false; mret (fst r);
  tset k v := hash_set k v
|}.

Lemma key_ne_spec a b : key_ne a b = true <-> a <> b.
Proof.
  unfold key_ne. rewrite negb_true_iff. rewrite <- not_true_iff_false.
  change (key_eq a b) with (hash_key_equals a b). by rewrite hash_key_equals_spec.
Qed.
Lemma key_ne_refl a : key_ne a a = false.
Proof. apply not_true_is_false. rewrite key_ne_spec. tauto. Qed.
Lemma key_ne_diff a b : a <> b -> key_ne a b = true.
Proof. by rewrite key_ne_spec. Qed.

(** ** The order

    [key_lt] is a strict total order, so the tree is a search tree for it. *)
Lemma key_lt_spec a b :
  key_lt a b = true <->
  src_ip a < src_ip b \/ src_ip a = src_ip b /\
  (dst_ip a < dst_ip b \/ dst_ip a = dst_ip b /\
  (proto a < proto b \/ proto a = proto b /\
  (src_port a < src_port b \/ src_port a = src_port b /\ dst_port a < dst_port b))).
Proof.
  unfold key_lt.
  destruct (Z.eqb_spec (src_ip a) (src_ip b)), (Z.eqb_spec (dst_ip a) (dst_ip b)),
    (Z.eqb_spec (proto a) (proto b)), (Z.eqb_spec (src_port a) (src_port b)); simpl;
    rewrite Z.ltb_lt; lia.
Qed.

Lemma key_lt_irrefl a : key_lt a a = false.
Proof. apply not_true_is_false. rewrite key_lt_spec. lia. Qed.
Lemma key_lt_trans a b c : key_lt a b = true -> key_lt b c = true -> key_lt a c = true.
Proof. rewrite !key_lt_spec. lia. Qed.
Lemma key_lt_total a b : a <> b -> key_lt a b = false -> key_lt b a = true.
Proof.
  intros Hne Hlt. apply not_true_iff_false in Hlt. rewrite key_lt_spec in *.
  destruct a as [a1 a2 a3 a4 a5], b as [b1 b2 b3 b4 b5]; simpl in *.
  destruct (decide (a1 = b1)) as [->|]; [|lia]. destruct (decide (a2 = b2)) as [->|]; [|lia].
  destruct (decide (a3 = b3)) as [->|]; [|lia]. destruct (decide (a4 = b4)) as [->|]; [|lia].
  destruct (decide (a5 = b5)) as [->|]; [done|lia].
Qed.

(** Search trees: every key of the left subtree is below the node, every key of the
    right subtree above it. *)
Fixpoint has_key (t : tree) (k : hash_key) : Prop :=
  match t with
  | Null => False
  | Node l r k' _ => k = k' \/ has_key l k \/ has_key r k
  end.
Fixpoint search_tree (t : tree) : Prop :=
  match t with
  | Null => True
  | Node l r k _ =>
      search_tree l /\ search_tree r /\
      (forall j, has_key l j -> key_lt j k = true) /\ (forall j, has_key r j -> key_lt k j = true)
  end.

Lemma has_key_set t k v j : has_key (set_at t k v) j <-> j = k \/ has_key t j.
Proof.
  induction t as [|l IHl r IHr k' v']; simpl; [tauto|].
  destruct (key_ne k' k) eqn:Hne; [destruct (key_lt k' k); simpl; tauto|]. simpl.
  destruct (decide (k' = k)) as [->|Hk]; [tauto|]. by rewrite key_ne_diff in Hne.
Qed.

Lemma set_at_search t k v : search_tree t -> search_tree (set_at t k v).
Proof.
  induction t as [|l IHl r IHr k' v']; simpl; [naive_solver|]. intros (Hl & Hr & Bl & Br).
  destruct (key_ne k' k) eqn:Hne; [|done]. apply key_ne_spec in Hne.
  destruct (key_lt k' k) eqn:Hlt; simpl; split_and!; auto; intros j Hj.
  - apply has_key_set in Hj as [->|Hj]; auto.
  - apply has_key_set in Hj as [->|Hj]; [by apply key_lt_total|auto].
Qed.

(** In a search tree the walk finds exactly the keys that are in the tree. *)
Lemma walk_has_key t k : search_tree t -> is_Some (walk t k) <-> has_key t k.
Proof.
  induction t as [|l IHl r IHr k' v']; simpl; [intros _; split; [by intros [? [=]]|done]|].
  intros (Hl & Hr & Bl & Br). destruct (key_ne k' k) eqn:Hne.
  - apply key_ne_spec in Hne. destruct (key_lt k' k) eqn:Hlt.
    + rewrite IHr by done. split; [tauto|]. intros [->|[Hj|Hj]]; [done| |done].
      apply Bl in Hj. pose proof (key_lt_trans _ _ _ Hlt Hj) as E. by rewrite key_lt_irrefl in E.
    + rewrite IHl by done. split; [tauto|]. intros [->|[Hj|Hj]]; [done|done|].
      apply Br in Hj. congruence.
  - destruct (decide (k' = k)) as [->|Hk]; [|by rewrite key_ne_diff in Hne].
    split; [by left|]. intros _. by eexists.
Qed.

(** ** Lookup after insertion *)
Lemma walk_set t k v j : walk (set_at t k v) j = if decide (j = k) then Some v else walk t j.
Proof.
  induction t as [|l IHl r IHr k' v']; simpl.
  - case_decide as Hj; [subst; by rewrite key_ne_refl|].
    rewrite key_ne_diff by congruence. by destruct (key_lt k j).
  - destruct (key_ne k' k) eqn:Hne.
    + apply key_ne_spec in Hne. destruct (key_lt k' k) eqn:Hlt; simpl.
      * destruct (key_ne k' j) eqn:Hj; [destruct (key_lt k' j) eqn:Hlj|]; [done| |].
        -- rewrite decide_False; [done|]. intros ->. congruence.
        -- rewrite decide_False; [done|]. intros ->. by rewrite key_ne_diff in Hj.
      * destruct (key_ne k' j) eqn:Hj; [destruct (key_lt k' j) eqn:Hlj|]; [|done|].
        -- rewrite decide_False; [done|]. intros ->. congruence.
        -- rewrite decide_False; [done|]. intros ->. by rewrite key_ne_diff in Hj.
    + destruct (decide (k' = k)) as [->|Hk]; [|by rewrite key_ne_diff in Hne]. simpl.
      case_decide as Hj; [subst; by rewrite key_ne_refl|]. by rewrite key_ne_diff by congruence.
Qed.

Definition tree_rep (t : tree) (m : gmap hash_key V) : Prop :=
  search_tree t /\ forall k, walk t k = m !! k.

Lemma tree_init_rep : tree_rep hash_init ∅.
Proof. split; [done|]. intros k. by rewrite lookup_empty. Qed.

#[export] Instance tree_ok : FlowTableOk tree hash_key V.
Proof.
  refine {| represents := tree_rep; room := fun _ => True |}.
  - intros t m k [_ Hw]. cbn [tget tree_table]. unfold hash_get, get. mred.
    rewrite Hw. by destruct (m !! k).
  - intros t m k v [Hs Hw] _. eexists. split; [done|]. split; [by apply set_at_search|].
    intros j. rewrite walk_set, lookup_insert, Hw. destruct (decide (j = k)), (decide (k = j)); congruence.
Defined.

(** The NULL destination: an error when the key is there, "not found" when it is not. *)
Lemma tree_probe t m k :
  tree_rep t m ->
  tprobe (V := V) k t = if decide (is_Some (m !! k)) then Stop MemError else Ret (false, t).
Proof.
  intros [_ Hw]. cbn [tprobe tree_table]. unfold hash_get, get. mred. rewrite Hw.
  destruct (m !! k) as [v|].
  - by rewrite decide_True by eauto.
  - rewrite decide_False; [done|]. by intros [? [=]].
Qed.
End Tree.
End Tree.
