(* ===== verification/NfPacket.v ===== *)
(** * Network functions: packets

    The packet handlers of the NATs and load balancers under examples/ start
    with the same checks of the Ethernet, IPv4 and TCP/UDP headers and write the
    headers in place. This file has the layout of the headers, the functions of
    DPDK the handlers call (parameters), the parsing of the headers and what
    loads and stores on the packet buffer do. Offsets are from the start of the
    packet data; multi-byte fields are read and written in host order
    (little-endian), as the structure accesses of the code do. *)
From stdpp Require Import base gmap list numbers.
From Stdlib Require Import ZArith Lia.
From S2P Require Import Prelude CMem.

Module Packet.

(** The functions and macros of DPDK: [RTE_ETH_IS_IPV4_HDR] on the packet type,
    [rte_ipv4_cksum] and [rte_ipv4_udptcp_cksum] on the packet bytes and the
    offsets of the headers. *)
Class Dpdk : Type := {
  RTE_ETH_IS_IPV4_HDR : Z -> bool;
  rte_ipv4_cksum : mem -> Z -> Z;
  rte_ipv4_udptcp_cksum : mem -> Z -> Z -> Z
}.

(** The fields of [struct rte_mbuf] the handlers read besides the data. *)
Record rte_mbuf : Type := Mbuf { packet_type : Z; pkt_len : Z }.

(** A received packet: the device it came in by, its mbuf and its bytes. *)
Record arrival : Type := Arrival { a_device : Z; a_mbuf : rte_mbuf; a_data : mem }.

Definition IPPROTO_TCP : Z := 6.
Definition IPPROTO_UDP : Z := 17.
Definition sizeof_ether_hdr : Z := 14.
Definition sizeof_tcp_hdr : Z := 20.
Definition sizeof_udp_hdr : Z := 8.
(** [rte_cpu_to_be_16(ETHER_TYPE_IPv4)] *)
Definition be_ETHER_TYPE_IPv4 : Z := 8.
Definition ntohs (x : Z) : Z := Z.lor (u16 (Z.shiftl x 8)) (Z.shiftr x 8).

(** Field offsets. *)
Definition o_d_addr : Z := 0.
Definition o_s_addr : Z := 6.
Definition o_ether_type : Z := 12.
Definition o_ip : Z := 14.
Definition o_version_ihl : Z := 14.
Definition o_total_length : Z := 16.
Definition o_next_proto_id : Z := 23.
Definition o_hdr_checksum : Z := 24.
Definition o_src_addr : Z := 26.
Definition o_dst_addr : Z := 30.
(** In the TCP and UDP headers. *)
Definition o_src_port : Z := 0.
Definition o_dst_port : Z := 2.
Definition o_data_off : Z := 12.
Definition o_tcp_cksum : Z := 16.
Definition o_dgram_len : Z := 4.
Definition o_dgram_cksum : Z := 6.

(** Arithmetic on offsets. *)
Ltac offsets :=
  unfold o_d_addr, o_s_addr, o_ether_type, o_ip, o_version_ihl, o_total_length, o_next_proto_id,
    o_hdr_checksum, o_src_addr, o_dst_addr, o_src_port, o_dst_port, o_data_off, o_tcp_cksum,
    o_dgram_len, o_dgram_cksum, sizeof_ether_hdr, sizeof_tcp_hdr, sizeof_udp_hdr in *; lia.

(** [(ip->version_ihl & 0x0F) * 4] and the offset of the transport header. *)
Definition ihl_bytes : M mem Z := v ← load o_version_ihl; mret (Z.land v 15 * 4).
Definition l4_offset : M mem Z := h ← ihl_bytes; mret (sizeof_ether_hdr + h).

Section Parse.
Context `{Dpdk}.

Definition is_ipv4 (mbuf : rte_mbuf) : M mem bool :=
  if RTE_ETH_IS_IPV4_HDR (packet_type mbuf) then mret true
  else if packet_type mbuf =? 0 then
    ty ← load_int 2 o_ether_type; mret (ty =? be_ETHER_TYPE_IPv4)
  else mret false.

(** A case of the first [switch]: the offset of the transport header, or [None] where
    the handler returns [device]. [check] is the last test of the case. *)
Definition l4_checked (mbuf : rte_mbuf) (hdr : Z) (check : Z -> M mem bool) : M mem (option Z) :=
  ihl ← ihl_bytes;
  if pkt_len mbuf <? sizeof_ether_hdr + ihl + hdr then mret None
  else
    total_length ← load_int 2 o_total_length;
    if total_length <? ihl + hdr then mret None
    else
      l4 ← l4_offset;
      truncated ← check l4;
      mret (if (truncated : bool) then None else Some l4).

Definition tcp_truncated (tcp : Z) : M mem bool :=
  data_off ← load (tcp + o_data_off); mret (data_off <? 5).
Definition udp_truncated (udp : Z) : M mem bool :=
  dgram_len ← load_int 2 (udp + o_dgram_len); mret (ntohs dgram_len <? 8).

Definition parse_l4 (mbuf : rte_mbuf) : M mem (option Z) :=
  ok ← is_ipv4 mbuf;
  if (ok : bool) then
    proto ← load o_next_proto_id;
    if proto =? IPPROTO_TCP then l4_checked mbuf sizeof_tcp_hdr tcp_truncated
    else if proto =? IPPROTO_UDP then l4_checked mbuf sizeof_udp_hdr udp_truncated
    else mret None
  else mret None.

(** The NAT reads both ports ([sport], [dport]), the load balancer the source port. *)
Definition parse_ports (mbuf : rte_mbuf) : M mem (option (Z * Z)) :=
  r ← parse_l4 mbuf;
  match r with
  | None => mret None
  | Some l4 =>
      sport ← load_int 2 (l4 + o_src_port);
      dport ← load_int 2 (l4 + o_dst_port);
      mret (Some (sport, dport))
  end.
Definition parse_sport (mbuf : rte_mbuf) : M mem (option Z) :=
  r ← parse_l4 mbuf;
  match r with
  | None => mret None
  | Some l4 => sport ← load_int 2 (l4 + o_src_port); mret (Some sport)
  end.
End Parse.

(** [ether_header->s_addr = config->device_macs[dst_dev]; ether_header->d_addr = ...] *)
Definition set_macs (device_macs endpoint_macs : list (list Z)) (dst_dev : Z) : M mem unit :=
  s ← of_option (device_macs !! Z.to_nat dst_dev);
  store_bytes o_s_addr s;;
  d ← of_option (endpoint_macs !! Z.to_nat dst_dev);
  store_bytes o_d_addr d.

(** A table of two MAC addresses. *)
Definition mac_ok (l : list Z) : Prop := length l = 6%nat /\ Forall is_byte l.
Definition macs_ok (l : list (list Z)) : Prop := length l = 2%nat /\ Forall mac_ok l.

(** ** Loads and stores *)

(** The value of the [n]-byte field at [p]. *)
Definition field (m : mem) (n : nat) (p : Z) : Z :=
  le_value ((fun i => default 0 (m !! (p + Z.of_nat i))) <$> seq 0 n).

Lemma load_int_run m n p l : bytes_at m p l -> length l = n -> load_int n p m = Ret (le_value l, m).
Proof. intros Hl <-. unfold load_int. by rewrite (mbind_run _ _ _ _ _ (load_bytes_run m p l Hl)). Qed.

(** The bytes in an accessible range. *)
Lemma accessible_bytes m p n :
  accessible m p (Z.of_nat n) ->
  bytes_at m p ((fun i => default 0 (m !! (p + Z.of_nat i))) <$> seq 0 n).
Proof.
  intros Ha i b Hi. rewrite list_lookup_fmap in Hi.
  apply fmap_Some in Hi as (j & Hj & ->). apply lookup_seq in Hj as [-> Hlt].
  destruct (Ha (Z.of_nat i)) as [b Hb]; [lia|]. simpl. by rewrite Hb.
Qed.

Lemma load_field m n p :
  accessible m p (Z.of_nat n) -> load_int n p m = Ret (field m n p, m).
Proof.
  intros Ha. apply load_int_run; [by apply accessible_bytes|]. by rewrite length_fmap, length_seq.
Qed.

Lemma load_byte m p : accessible m p 1 -> load p m = Ret (field m 1 p, m).
Proof.
  intros Ha. destruct (Ha 0) as [b Hb]; [lia|]. rewrite Z.add_0_r in Hb.
  rewrite (load_run m p b Hb). unfold field. cbn [seq fmap list_fmap].
  replace (p + Z.of_nat 0) with p by lia. rewrite Hb. cbn [default from_option le_value]. do 2 f_equal. simpl. lia.
Qed.

Lemma store_field m n p v :
  accessible m p (Z.of_nat n) -> store_int n p v m = Ret (tt, write m p (le_bytes n v)).
Proof.
  intros Ha. apply store_bytes_run; [by rewrite length_le_bytes|]. apply le_bytes_byte.
Qed.

Lemma field_ext m m' n p :
  (forall a, p <= a < p + Z.of_nat n -> m' !! a = m !! a) -> field m' n p = field m n p.
Proof.
  intros E. unfold field. f_equal. apply list_fmap_ext. intros i j Hi.
  apply lookup_seq in Hi as [-> Hlt]. simpl. by rewrite E by lia.
Qed.

(** A field after a write elsewhere, and of the written field itself. *)
Lemma field_write_out m n p q l :
  p + Z.of_nat n <= q \/ q + Z.of_nat (length l) <= p -> field (write m q l) n p = field m n p.
Proof. intros Hd. apply field_ext. intros a Ha. apply lookup_write_out. lia. Qed.

Lemma bytes_at_field m p l : bytes_at m p l -> field m (length l) p = le_value l.
Proof.
  intros Hl. unfold field. f_equal. apply list_eq. intros i. rewrite list_lookup_fmap.
  destruct (l !! i) as [b|] eqn:Hb.
  - pose proof (lookup_lt_Some _ _ _ Hb). rewrite lookup_seq_lt by done. simpl.
    by rewrite (Hl i b Hb).
  - apply lookup_ge_None in Hb. by rewrite lookup_seq_ge.
Qed.

Lemma field_write_same m n p v : field (write m p (le_bytes n v)) n p = v `mod` 2 ^ (8 * Z.of_nat n).
Proof.
  rewrite <- le_value_bytes. rewrite <- (length_le_bytes n v) at 2.
  apply bytes_at_field, write_bytes_at.
Qed.

Lemma packet_field_range m n p : wf_mem m -> 0 <= field m n p < 2 ^ (8 * Z.of_nat n).
Proof.
  intros Hm. unfold field.
  set (l := _ <$> _). replace n with (length l) by (unfold l; by rewrite length_fmap, length_seq).
  apply le_value_range. unfold l. apply Forall_fmap, Forall_forall. intros i _. simpl.
  destruct (m !! _) as [b|] eqn:Hb; [by apply (Hm _ _ Hb)|]. unfold is_byte. simpl. lia.
Qed.

(** ** The parser as a function of the packet bytes *)
Section ParseSpec.
Context `{Dpdk}.

Definition ihl_of (m : mem) : Z := Z.land (field m 1 o_version_ihl) 15 * 4.
Definition l4_of (m : mem) : Z := sizeof_ether_hdr + ihl_of m.

(** Every header field of a packet is accessible: the largest header is
    [15 * 4] bytes of IP and 20 of TCP. *)
Definition buffer (m : mem) : Prop := wf_mem m /\ accessible m 0 94.

(** A packet received on one of the two devices, in a buffer of DPDK's default size
    or any other that has room for the headers. *)
Definition arrival_ok (a : arrival) : Prop := 0 <= a_device a < 2 /\ buffer (a_data a).

(** The conditions under which a packet is considered at all. *)
Definition is_ipv4_b (mb : rte_mbuf) (m : mem) : bool :=
  RTE_ETH_IS_IPV4_HDR (packet_type mb) ||
  (packet_type mb =? 0) && (field m 2 o_ether_type =? be_ETHER_TYPE_IPv4).
Definition l4_ok (mb : rte_mbuf) (m : mem) (hdr : Z) (truncated : bool) : bool :=
  negb (pkt_len mb <? sizeof_ether_hdr + ihl_of m + hdr) &&
  negb (field m 2 o_total_length <? ihl_of m + hdr) && negb truncated.
Definition valid (mb : rte_mbuf) (m : mem) : bool :=
  is_ipv4_b mb m &&
  (if field m 1 o_next_proto_id =? IPPROTO_TCP then
     l4_ok mb m sizeof_tcp_hdr (field m 1 (l4_of m + o_data_off) <? 5)
   else if field m 1 o_next_proto_id =? IPPROTO_UDP then
     l4_ok mb m sizeof_udp_hdr (ntohs (field m 2 (l4_of m + o_dgram_len)) <? 8)
   else false).

Lemma ihl_range m : 0 <= ihl_of m <= 60.
Proof.
  unfold ihl_of. change 15 with (Z.ones 4). rewrite Z.land_ones by lia.
  pose proof (Z.mod_pos_bound (field m 1 o_version_ihl) (2 ^ 4) ltac:(lia)). lia.
Qed.

Lemma ihl_run m : buffer m -> ihl_bytes m = Ret (ihl_of m, m).
Proof.
  intros [_ Ha]. unfold ihl_bytes. rewrite (mbind_run _ _ _ _ _ (load_byte m o_version_ihl
    ltac:(eapply accessible_sub; [exact Ha|unfold o_version_ihl; lia..]))). done.
Qed.
Lemma l4_run m : buffer m -> l4_offset m = Ret (l4_of m, m).
Proof. intros Hb. unfold l4_offset. by rewrite (mbind_run _ _ _ _ _ (ihl_run m Hb)). Qed.

Lemma buffer_acc m p n : buffer m -> 0 <= p -> p + n <= 94 -> accessible m p n.
Proof. intros [_ Ha] Hp Hn. eapply accessible_sub; [exact Ha|lia|lia]. Qed.

Lemma is_ipv4_run mb m : buffer m -> is_ipv4 mb m = Ret (is_ipv4_b mb m, m).
Proof.
  intros Hb. unfold is_ipv4, is_ipv4_b. destruct (RTE_ETH_IS_IPV4_HDR _); [done|].
  destruct (packet_type mb =? 0); [|done].
  by rewrite (mbind_run _ _ _ _ _ (load_field m 2 o_ether_type ltac:(apply buffer_acc; [done|offsets..]))).
Qed.

Lemma l4_checked_run mb m hdr check tr :
  buffer m -> check (l4_of m) m = Ret (tr, m) ->
  l4_checked mb hdr check m = Ret (if l4_ok mb m hdr tr then Some (l4_of m) else None, m).
Proof.
  intros Hb Hc. unfold l4_checked, l4_ok.
  rewrite (mbind_run _ _ _ _ _ (ihl_run m Hb)). destruct (_ <? _); [done|].
  rewrite (mbind_run _ _ _ _ _ (load_field m 2 o_total_length
    ltac:(apply buffer_acc; [done|offsets..]))). destruct (_ <? _); [done|].
  rewrite (mbind_run _ _ _ _ _ (l4_run m Hb)), (mbind_run _ _ _ _ _ Hc). by destruct tr.
Qed.

Lemma parse_l4_run mb m :
  buffer m -> parse_l4 mb m = Ret (if valid mb m then Some (l4_of m) else None, m).
Proof.
  intros Hb. unfold parse_l4, valid. pose proof (ihl_range m) as Hr.
  rewrite (mbind_run _ _ _ _ _ (is_ipv4_run mb m Hb)). destruct (is_ipv4_b mb m); [|done].
  rewrite (mbind_run _ _ _ _ _ (load_byte m o_next_proto_id ltac:(apply buffer_acc; [done|offsets..]))).
  cbn [andb]. destruct (_ =? IPPROTO_TCP); [|destruct (_ =? IPPROTO_UDP); [|done]].
  - apply l4_checked_run; [done|]. unfold tcp_truncated.
    rewrite (mbind_run _ _ _ _ _ (load_byte m (l4_of m + o_data_off)
      ltac:(apply buffer_acc; [done|unfold l4_of; offsets..]))). done.
  - apply l4_checked_run; [done|]. unfold udp_truncated.
    rewrite (mbind_run _ _ _ _ _ (load_field m 2 (l4_of m + o_dgram_len)
      ltac:(apply buffer_acc; [done|unfold l4_of; offsets..]))). done.
Qed.

Lemma port_acc m o : buffer m -> 0 <= o <= 2 -> accessible m (l4_of m + o) 2.
Proof.
  intros Hb Ho. pose proof (ihl_range m). apply buffer_acc; [done|unfold l4_of; offsets..].
Qed.

(** Parsing reads only accessible bytes, changes nothing and returns the ports of
    exactly the valid packets. *)
Lemma parse_ports_run mb m :
  buffer m ->
  parse_ports mb m =
  Ret (if valid mb m
       then Some (field m 2 (l4_of m + o_src_port), field m 2 (l4_of m + o_dst_port)) else None, m).
Proof.
  intros Hb. unfold parse_ports. rewrite (mbind_run _ _ _ _ _ (parse_l4_run mb m Hb)).
  destruct (valid mb m); [|done].
  rewrite (mbind_run _ _ _ _ _ (load_field m 2 _ (port_acc m o_src_port Hb ltac:(offsets)))).
  by rewrite (mbind_run _ _ _ _ _ (load_field m 2 _ (port_acc m o_dst_port Hb ltac:(offsets)))).
Qed.

Lemma parse_sport_run mb m :
  buffer m ->
  parse_sport mb m = Ret (if valid mb m then Some (field m 2 (l4_of m + o_src_port)) else None, m).
Proof.
  intros Hb. unfold parse_sport. rewrite (mbind_run _ _ _ _ _ (parse_l4_run mb m Hb)).
  destruct (valid mb m); [|done].
  by rewrite (mbind_run _ _ _ _ _ (load_field m 2 _ (port_acc m o_src_port Hb ltac:(offsets)))).
Qed.

(** Writes outside the fields the parser checks keep a packet valid. *)
Lemma valid_ext mb m m' :
  field m' 2 o_ether_type = field m 2 o_ether_type ->
  field m' 1 o_version_ihl = field m 1 o_version_ihl ->
  field m' 2 o_total_length = field m 2 o_total_length ->
  field m' 1 o_next_proto_id = field m 1 o_next_proto_id ->
  field m' 1 (l4_of m + o_data_off) = field m 1 (l4_of m + o_data_off) ->
  field m' 2 (l4_of m + o_dgram_len) = field m 2 (l4_of m + o_dgram_len) ->
  valid mb m' = valid mb m /\ l4_of m' = l4_of m.
Proof.
  intros E1 E2 E3 E4 E5 E6. assert (Ei : ihl_of m' = ihl_of m) by (unfold ihl_of; by rewrite E2).
  assert (El : l4_of m' = l4_of m) by (unfold l4_of; by rewrite Ei). split; [|done].
  unfold valid, is_ipv4_b, l4_ok. by rewrite El, Ei, E1, E3, E4, E5, E6.
Qed.
End ParseSpec.

(** ** Writing the headers *)
Lemma buffer_write m p l : buffer m -> Forall is_byte l -> buffer (write m p l).
Proof. intros [Hw Ha] Hl. split; [by apply wf_mem_write|by apply accessible_write]. Qed.
Lemma buffer_put m p n v : buffer m -> buffer (write m p (le_bytes n v)).
Proof. intros Hb. apply buffer_write; [done|apply le_bytes_byte]. Qed.

Lemma mbind_store_int {A} (f : unit -> M mem A) m n p v :
  buffer m -> 0 <= p -> p + Z.of_nat n <= 94 ->
  (store_int n p v ≫= f) m = f tt (write m p (le_bytes n v)).
Proof. intros Hb Hp Hn. apply mbind_run, store_field. by apply buffer_acc. Qed.

Lemma mbind_store_byte {A} (f : unit -> M mem A) m p v :
  buffer m -> 0 <= p < 94 -> (store p v ≫= f) m = f tt (write m p (le_bytes 1 v)).
Proof.
  intros Hb Hp. apply mbind_run. apply store_run. apply (accessible_at m 0 94); [apply Hb|lia].
Qed.

(** Resolve the loads and stores of a handler one by one. *)
Ltac put_step := rewrite mbind_store_int; [|repeat apply buffer_put; assumption|offsets|offsets].

Lemma mac_at l i : macs_ok l -> 0 <= i < 2 -> exists a, l !! Z.to_nat i = Some a /\ mac_ok a.
Proof.
  intros [Hl Hf] Hi. destruct (lookup_lt_is_Some_2 l (Z.to_nat i)) as [a Ha]; [lia|].
  exists a. split; [done|]. by apply (Forall_lookup_1 _ _ _ _ Hf Ha).
Qed.

Lemma set_macs_run dm em dev m :
  macs_ok dm -> macs_ok em -> 0 <= dev < 2 -> buffer m ->
  exists a b, dm !! Z.to_nat dev = Some a /\ em !! Z.to_nat dev = Some b /\ mac_ok a /\ mac_ok b /\
    set_macs dm em dev m = Ret (tt, write (write m o_s_addr a) o_d_addr b).
Proof.
  intros Hd He Hdev Hb. destruct (mac_at dm dev Hd Hdev) as (a & Ea & La & Fa).
  destruct (mac_at em dev He Hdev) as (b & Eb & Lb & Fb). exists a, b. do 4 (split; [done|]).
  assert (Hb' : buffer (write m o_s_addr a)) by (by apply buffer_write).
  unfold set_macs. rewrite Ea, Eb. unfold of_option, mret, M_ret. cbn [mbind]. unfold mbind, M_bind.
  rewrite (store_bytes_run m o_s_addr a); [|apply (buffer_acc m); [done|offsets|rewrite La; offsets]|done].
  apply store_bytes_run; [|done]. apply (buffer_acc _ _ _ Hb'); [offsets|rewrite Lb; offsets].
Qed.

(** A field after the write of another or of the same field. *)
Lemma field_put_out m n p q k v :
  p + Z.of_nat n <= q \/ q + Z.of_nat k <= p -> field (write m q (le_bytes k v)) n p = field m n p.
Proof. intros Hd. apply field_write_out. by rewrite length_le_bytes. Qed.

(** Fields behind the Ethernet addresses do not see them. *)
Lemma field_set_macs m a b n p :
  length a = 6%nat -> length b = 6%nat -> 12 <= p ->
  field (write (write m o_s_addr a) o_d_addr b) n p = field m n p.
Proof.
  intros Ha Hb Hp. rewrite !field_write_out; [done|rewrite Ha|rewrite Hb];
    offsets.
Qed.
End Packet.

(** ** Sample packets and MAC addresses for concrete runs *)
Module Sample.
Import Packet.

#[export] Instance demo_dpdk : Dpdk := {|
  RTE_ETH_IS_IPV4_HDR ty := nz (Z.land ty 16);
  rte_ipv4_cksum _ _ := 0;
  rte_ipv4_udptcp_cksum _ _ _ := 0
|}.
Definition demo_mac (i : Z) : list Z := [2; 0; 0; 0; 0; i].
Lemma demo_mac_ok i : 0 <= i < 4 -> mac_ok (demo_mac i).
Proof. intros Hi. split; [done|]. repeat constructor; unfold is_byte; lia. Qed.

(** A UDP packet: addresses and ports in network order. *)
Definition demo_bytes (src dst sport dport : list Z) : list Z :=
  replicate 12 0 ++ [8; 0] ++ [69; 0; 0; 40; 0; 0; 0; 0; 64; 17; 0; 0] ++ src ++ dst ++
  sport ++ dport ++ [0; 20; 0; 0] ++ replicate 52 0.
Definition demo_arrival (dev : Z) (src dst sport dport : list Z) : arrival :=
  Arrival dev (Mbuf 0 60) (mem_of 0 (demo_bytes src dst sport dport)).

Lemma demo_arrival_ok dev src dst sport dport :
  0 <= dev < 2 -> length src = 4%nat -> length dst = 4%nat -> length sport = 2%nat ->
  length dport = 2%nat -> Forall is_byte (src ++ dst ++ sport ++ dport) ->
  arrival_ok (demo_arrival dev src dst sport dport).
Proof.
  intros Hd H1 H2 H3 H4 Hf. rewrite !Forall_app in Hf. split; [done|]. split.
  - apply wf_mem_of. unfold demo_bytes.
    assert (Hz : forall n, Forall is_byte (replicate n 0)).
    { intros n. apply Forall_replicate. unfold is_byte. lia. }
    rewrite !Forall_app. split_and!; try tauto; try apply Hz; repeat constructor; lia.
  - apply accessible_of; [lia|]. unfold demo_bytes. rewrite !length_app, !length_replicate. simpl. lia.
Qed.

Ltac demo_ok := apply demo_arrival_ok; [simpl; lia|done..|repeat constructor; lia].
End Sample.
