(* ===== verification/NfNat.v ===== *)
(** * Network functions: the NAT

    [dispatch_packet] and the receive loop of examples/dpdk-nat-basichash, whose
    text dpdk-nat-hashring shares and dpdk-nat-tree repeats, over the flow table
    interface of NfTable. The abstract NAT is a finite map of flows; the
    refinement theorems relate the packet handler to it for every table that keeps
    the promises of the interface. *)
From stdpp Require Import base gmap list numbers.
From Stdlib Require Import ZArith Lia.
From S2P Require Import Prelude CMem NfTable NfPacket.

Module Nat.
Import Key Packet.

Record nf_config : Type := Config {
  device_macs : list (list Z);
  endpoint_macs : list (list Z);
  nat_ip : Z
}.

Definition with_dst_port (k : hash_key) (p : Z) : hash_key :=
  HKey (src_ip k) (dst_ip k) (proto k) (src_port k) p.

Section Handler.
Context `{Dpdk} {T : Type} {FT : FlowTable T hash_key hash_key}.

(** A statement on the table, a statement on the packet. *)
Definition on_table {A} (m : M T A) : M (T * mem) A := zoom fst (fun t s => (t, snd s)) m.
Definition on_packet {A} (m : M mem A) : M (T * mem) A := zoom snd (fun p s => (fst s, p)) m.

(** One round of the search for an unused port. *)
Definition port_round (s : hash_key * T) : (hash_key * T) + result (hash_key * T) :=
  let '(out_key, t) := s in
  match tprobe (V := hash_key) out_key t with
  | Ret (true, t') => inl (with_dst_port out_key (u16 (dst_port out_key + 1)), t')
  | Ret (false, t') => inr (Ret (out_key, t'))
  | Stop e => inr (Stop e)
  end.

(** [dst_port] wraps at 16 bits: after 65536 rounds the loop is where it started. *)
Definition find_port (out_key : hash_key) : M T hash_key := fun t =>
  match iter_Z port_round 65536 (out_key, t) with
  | inr r => r
  | inl _ => Stop OutOfFuel
  end.

Definition packet_key (sport dport : Z) : M mem hash_key :=
  s ← load_int 4 o_src_addr; d ← load_int 4 o_dst_addr; p ← load o_next_proto_id;
  mret (HKey s d p sport dport).

(** The lookup and, for a new outgoing connection, the state set up for it. *)
Definition new_connection (config : nf_config) (key : hash_key) : M T hash_key :=
  out_key ← find_port (HKey (dst_ip key) (nat_ip config) (proto key) (dst_port key) (src_port key));
  let translation := HKey (nat_ip config) (dst_ip key) (proto key) (dst_port out_key) (dst_port key) in
  tset key translation;;
  let out_translation :=
    HKey (src_ip out_key) (src_ip key) (proto out_key) (src_port out_key) (src_port key) in
  tset out_key out_translation;;
  mret translation.

Definition get_translation (config : nf_config) (key : hash_key) : M T (option hash_key) :=
  r ← tget key;
  match r with
  | Some translation => mret (Some translation)
  | None =>
      if dst_ip key =? nat_ip config then mret None
      else t ← new_connection config key; mret (Some t)
  end.

(** A case of the second [switch]: [ck] is the offset of the transport checksum. *)
Definition rewrite_headers (translation : hash_key) (ck : Z) : M mem unit :=
  l4 ← l4_offset;
  store_int 4 o_src_addr (src_ip translation);;
  store_int 4 o_dst_addr (dst_ip translation);;
  store o_next_proto_id (proto translation);;
  store_int 2 (l4 + o_src_port) (src_port translation);;
  store_int 2 (l4 + o_dst_port) (dst_port translation);;
  store_int 2 (l4 + ck) 0;;
  m ← get;
  store_int 2 (l4 + ck) (rte_ipv4_udptcp_cksum m o_ip l4).

Definition translate_packet (config : nf_config) (device : Z) (translation : hash_key) : M mem Z :=
  store_int 2 o_hdr_checksum 0;;
  p ← load o_next_proto_id;
  dst_dev ← (if p =? IPPROTO_TCP then
               rewrite_headers translation o_tcp_cksum;; mret (Z.lxor device 1)
             else if p =? IPPROTO_UDP then
               rewrite_headers translation o_dgram_cksum;; mret (Z.lxor device 1)
             else mret device);
  m ← get;
  store_int 2 o_hdr_checksum (rte_ipv4_cksum m o_ip);;
  (if dst_dev =? device then mret tt
   else set_macs (device_macs config) (endpoint_macs config) dst_dev);;
  mret dst_dev.

Definition dispatch_packet (config : nf_config) (device : Z) (mbuf : rte_mbuf) : M (T * mem) Z :=
  ports ← on_packet (parse_ports mbuf);
  match ports with
  | None => mret device
  | Some (sport, dport) =>
      key ← on_packet (packet_key sport dport);
      r ← on_table (get_translation config key);
      match r with
      | None => mret device
      | Some translation => on_packet (translate_packet config device translation)
      end
  end.

(** The receive loop on the packets that arrive, in order: the device a packet
    leaves by ([None]: freed) and its bytes. *)
Definition run_one (config : nf_config) (a : arrival) : M T (option Z * mem) := fun t =>
  match dispatch_packet config (a_device a) (a_mbuf a) (t, a_data a) with
  | Ret (dst_device, (t', data)) =>
      Ret ((if dst_device =? a_device a then None else Some dst_device, data), t')
  | Stop e => Stop e
  end.

Fixpoint run (config : nf_config) (l : list arrival) : M T (list (option Z * mem)) :=
  match l with
  | [] => mret []
  | a :: l => r ← run_one config a; rs ← run config l; mret (r :: rs)
  end.
End Handler.

(** ** The abstract NAT

    The state is a finite map from flows to flows. *)
Abbreviation flow_map := (gmap hash_key hash_key).

Definition first_free (m : flow_map) (k : hash_key) : option hash_key :=
  scan (fun d => let k' := with_dst_port k (u16 (dst_port k + d)) in
                 match m !! k' with None => Some k' | Some _ => None end) 65536.

(** The flow of the packets in the other direction. *)
Definition swap (k : hash_key) : hash_key :=
  HKey (dst_ip k) (src_ip k) (proto k) (dst_port k) (src_port k).

(** What an outgoing flow becomes when it is given port [p]. *)
Definition masquerade (ip : Z) (k : hash_key) (p : Z) : hash_key :=
  HKey ip (dst_ip k) (proto k) p (dst_port k).

Inductive verdict : Type :=
  | Dropped
  | Translated (t : hash_key) (m : flow_map)
  | NoPort.

Definition nat_step (ip : Z) (m : flow_map) (k : hash_key) : verdict :=
  match m !! k with
  | Some t => Translated t m
  | None =>
      if dst_ip k =? ip then Dropped
      else match first_free m (swap (masquerade ip k (src_port k))) with
           | Some o => let t := swap o in Translated t (<[o := swap k]> (<[k := t]> m))
           | None => NoPort
           end
  end.

(** ** The port search *)
Definition key_ok (k : hash_key) : Prop :=
  0 <= src_ip k < 2 ^ 32 /\ 0 <= dst_ip k < 2 ^ 32 /\ 0 <= proto k < 2 ^ 8 /\
  0 <= src_port k < 2 ^ 16 /\ 0 <= dst_port k < 2 ^ 16.

Lemma with_dst_port_same k : with_dst_port k (dst_port k) = k.
Proof. by destruct k. Qed.

Lemma first_free_some m k o :
  first_free m k = Some o ->
  m !! o = None /\ exists p, o = with_dst_port k p /\ 0 <= p < 65536.
Proof.
  intros E. apply scan_inv in E as (d & _ & Hf). cbv zeta in Hf.
  destruct (m !! _) eqn:Hm; [done|]. simplify_eq. split; [done|]. eexists. split; [done|].
  apply u16_range.
Qed.

(** The search fails only when every port is taken. *)
Lemma first_free_none m k p :
  first_free m k = None -> 0 <= p < 65536 -> is_Some (m !! with_dst_port k p).
Proof.
  intros E Hp. pose proof (scan_none_inv _ _ ((p - dst_port k) `mod` 65536) E
    (Z.mod_pos_bound _ 65536 ltac:(lia))) as Hf. cbv beta zeta in Hf.
  replace (u16 (dst_port k + (p - dst_port k) `mod` 65536)) with p in Hf.
  - destruct (m !! _); [eauto|done].
  - unfold u16. change (2 ^ 16) with 65536. rewrite Zplus_mod_idemp_r.
    replace (dst_port k + (p - dst_port k)) with p by lia. by rewrite Z.mod_small.
Qed.

Section Refine.
Context `{Dpdk} {T : Type} {FT : FlowTable T hash_key hash_key}
  {OK : FlowTableOk T hash_key hash_key} {PK : FlowProbeOk T hash_key hash_key}.

Lemma port_rounds (t : T) m k n d :
  represents t m ->
  iter_nat port_round n (with_dst_port k (u16 (dst_port k + d)), t) =
  match iter_nat (scan_step (fun d => let k' := with_dst_port k (u16 (dst_port k + d)) in
                 match m !! k' with None => Some k' | Some _ => None end)) n d with
  | inl d' => inl (with_dst_port k (u16 (dst_port k + d')), t)
  | inr o => inr (Ret (o, t))
  end.
Proof.
  intros Hr. revert d; induction n as [|n IH]; intros d; cbn [iter_nat]; [done|].
  unfold port_round at 1, scan_step at 1. rewrite (tprobe_ok t m) by done. cbv zeta.
  destruct (m !! _) eqn:Hm.
  - rewrite bool_decide_eq_true_2 by eauto. rewrite <- IH. do 2 f_equal. unfold with_dst_port. simpl.
    f_equal. unfold u16. rewrite Zplus_mod_idemp_l. f_equal. lia.
  - rewrite bool_decide_eq_false_2 by (by intros [? [=]]). done.
Qed.

(** The search returns the first free port, and runs forever exactly when there is none. *)
Lemma find_port_run (t : T) m k :
  represents t m -> 0 <= dst_port k < 65536 ->
  find_port k t = match first_free m k with Some o => Ret (o, t) | None => Stop OutOfFuel end.
Proof.
  intros Hr Hk. unfold find_port, first_free, scan. rewrite !iter_Z_nat.
  pose proof (port_rounds t m k (Z.to_nat 65536) 0 Hr) as E.
  rewrite Z.add_0_r, u16_small, with_dst_port_same in E by done. rewrite E.
  by destruct (iter_nat _ _ 0).
Qed.

(** ** The table part of the handler *)

(** The table takes the two entries of a new connection. *)
Definition room2 (m : flow_map) : Prop := room m /\ forall k v, room (<[k := v]> m).

Lemma new_connection_run cfg (t : T) m k :
  represents t m -> 0 <= src_port k < 65536 -> room2 m ->
  match first_free m (swap (masquerade (nat_ip cfg) k (src_port k))) with
  | Some o => exists t', new_connection cfg k t = Ret (swap o, t') /\
                represents t' (<[o := swap k]> (<[k := swap o]> m))
  | None => new_connection cfg k t = Stop OutOfFuel
  end.
Proof.
  intros Hr Hk [Hroom Hroom'].
  set (k0 := swap (masquerade (nat_ip cfg) k (src_port k))).
  pose proof (find_port_run t m k0 Hr Hk) as Hf. unfold new_connection.
  change (HKey (dst_ip k) (nat_ip cfg) (proto k) (dst_port k) (src_port k)) with k0.
  destruct (first_free m k0) as [o|] eqn:Eo; [|by apply mbind_stop].
  rewrite (mbind_run _ _ _ _ _ Hf). cbv beta zeta.
  apply first_free_some in Eo as (_ & p & -> & Hp).
  destruct (tset_ok t m k (swap (with_dst_port k0 p)) Hr (or_intror Hroom)) as (t1 & E1 & R1).
  rewrite (mbind_run _ _ _ _ _ E1). cbv beta.
  destruct (tset_ok t1 _ (with_dst_port k0 p) (swap k) R1 (or_intror (Hroom' _ _))) as (t2 & E2 & R2).
  rewrite (mbind_run _ _ _ _ _ E2). by exists t2.
Qed.

(** The table step refines the abstract NAT. *)
Lemma get_translation_run cfg (t : T) m k :
  represents t m -> 0 <= src_port k < 65536 -> room2 m ->
  match nat_step (nat_ip cfg) m k with
  | Dropped => get_translation cfg k t = Ret (None, t)
  | Translated tr m' => exists t', get_translation cfg k t = Ret (Some tr, t') /\ represents t' m'
  | NoPort => get_translation cfg k t = Stop OutOfFuel
  end.
Proof.
  intros Hr Hk Hroom. unfold nat_step, get_translation.
  rewrite (mbind_run _ _ _ _ _ (tget_ok t m k Hr)). destruct (m !! k) as [tr|]; [by exists t|].
  destruct (dst_ip k =? nat_ip cfg); [done|].
  pose proof (new_connection_run cfg t m k Hr Hk Hroom) as Hn.
  destruct (first_free _ _) as [o|]; [|by apply mbind_stop].
  destruct Hn as (t' & E & R). exists t'. by rewrite (mbind_run _ _ _ _ _ E).
Qed.
End Refine.

(** ** The packet part of the handler *)
Section Bytes.
Context `{Dpdk}.

(** The packet after a case of the second [switch]. *)
Definition rewritten (m : mem) (tr : hash_key) (ck : Z) : mem :=
  let l4 := l4_of m in
  let m1 := write m o_src_addr (le_bytes 4 (src_ip tr)) in
  let m2 := write m1 o_dst_addr (le_bytes 4 (dst_ip tr)) in
  let m3 := write m2 o_next_proto_id (le_bytes 1 (proto tr)) in
  let m4 := write m3 (l4 + o_src_port) (le_bytes 2 (src_port tr)) in
  let m5 := write m4 (l4 + o_dst_port) (le_bytes 2 (dst_port tr)) in
  let m6 := write m5 (l4 + ck) (le_bytes 2 0) in
  write m6 (l4 + ck) (le_bytes 2 (rte_ipv4_udptcp_cksum m6 o_ip l4)).

Lemma rewrite_headers_run m tr ck :
  buffer m -> 0 <= ck <= 16 -> rewrite_headers tr ck m = Ret (tt, rewritten m tr ck).
Proof.
  intros Hb Hck. unfold rewrite_headers, rewritten. rewrite (mbind_run _ _ _ _ _ (l4_run m Hb)).
  pose proof (ihl_range m) as Hi. set (l4 := l4_of m).
  assert (Hl4 : 14 <= l4 <= 74) by (unfold l4, l4_of; offsets).
  put_step. put_step. rewrite mbind_store_byte; [|repeat apply buffer_put; assumption|offsets].
  do 3 put_step. unfold get at 1. unfold mbind at 1, M_bind at 1.
  apply store_field, buffer_acc; [repeat apply buffer_put; assumption|offsets|offsets].
Qed.

Definition cksum_offset (m : mem) : Z :=
  if field m 1 o_next_proto_id =? IPPROTO_TCP then o_tcp_cksum else o_dgram_cksum.

(** The packet after [dispatch_packet] translated it to flow [tr], with the
    Ethernet addresses [s] and [d]. *)
Definition translated (m : mem) (tr : hash_key) (s d : list Z) : mem :=
  let m1 := rewritten (write m o_hdr_checksum (le_bytes 2 0)) tr (cksum_offset m) in
  let m2 := write m1 o_hdr_checksum (le_bytes 2 (rte_ipv4_cksum m1 o_ip)) in
  write (write m2 o_s_addr s) o_d_addr d.

Lemma valid_proto mb m :
  valid mb m = true ->
  field m 1 o_next_proto_id = IPPROTO_TCP \/ field m 1 o_next_proto_id = IPPROTO_UDP.
Proof.
  unfold valid. destruct (is_ipv4_b mb m); [|done]. cbn [andb].
  destruct (Z.eqb_spec (field m 1 o_next_proto_id) IPPROTO_TCP); [by left|].
  destruct (Z.eqb_spec (field m 1 o_next_proto_id) IPPROTO_UDP); [by right|done].
Qed.

Lemma cksum_offset_range m : 0 <= cksum_offset m <= 16.
Proof. unfold cksum_offset. case_match; offsets. Qed.

Lemma buffer_rewritten m tr ck : buffer m -> buffer (rewritten m tr ck).
Proof. intros Hb. unfold rewritten. by repeat apply buffer_put. Qed.

Definition config_ok (cfg : nf_config) : Prop :=
  macs_ok (device_macs cfg) /\ macs_ok (endpoint_macs cfg) /\ 0 <= nat_ip cfg < 2 ^ 32.

Lemma translate_packet_run cfg dev mb m tr :
  config_ok cfg -> 0 <= dev < 2 -> buffer m -> valid mb m = true ->
  exists s d, device_macs cfg !! Z.to_nat (1 - dev) = Some s /\
    endpoint_macs cfg !! Z.to_nat (1 - dev) = Some d /\ mac_ok s /\ mac_ok d /\
    translate_packet cfg dev tr m = Ret (1 - dev, translated m tr s d).
Proof.
  intros (Hdm & Hem & _) Hdev Hb Hv.
  assert (Hx : Z.lxor dev 1 = 1 - dev) by (assert (dev = 0 \/ dev = 1) as [-> | ->] by lia; done).
  set (m0 := write m o_hdr_checksum (le_bytes 2 0)).
  assert (Hb0 : buffer m0) by by apply buffer_put.
  set (m1 := rewritten m0 tr (cksum_offset m)).
  assert (Hb1 : buffer m1) by by apply buffer_rewritten.
  set (m2 := write m1 o_hdr_checksum (le_bytes 2 (rte_ipv4_cksum m1 o_ip))).
  assert (Hb2 : buffer m2) by by apply buffer_put.
  destruct (set_macs_run _ _ (1 - dev) m2 Hdm Hem ltac:(lia) Hb2)
    as (s & d & Es & Ed & Ms & Md & Hm). exists s, d. do 4 (split; [done|]).
  unfold translate_packet. put_step. fold m0.
  assert (Hp : field m0 1 o_next_proto_id = field m 1 o_next_proto_id)
    by (apply field_put_out; offsets).
  rewrite (mbind_run _ _ _ _ _ (load_byte m0 o_next_proto_id
    ltac:(apply buffer_acc; [done|offsets..]))), Hp.
  erewrite (mbind_run _ _ m0 (1 - dev) m1).
  - unfold get at 1. unfold mbind at 1, M_bind at 1. put_step. fold m2.
    rewrite (proj2 (Z.eqb_neq (1 - dev) dev)) by lia. by rewrite (mbind_run _ _ _ _ _ Hm).
  - pose proof (cksum_offset_range m) as Hck. unfold m1, cksum_offset in *.
    destruct (valid_proto mb m Hv) as [E|E]; rewrite E in *;
      change (IPPROTO_UDP =? IPPROTO_TCP) with false in *; rewrite Z.eqb_refl in *; cbv iota in *;
      by rewrite <- Hx, (mbind_run _ _ _ _ _ (rewrite_headers_run m0 tr _ Hb0 Hck)).
Qed.

(** ** What the translated packet says *)

(** The flow of a packet. *)
Definition flow_of (m : mem) : hash_key :=
  HKey (field m 4 o_src_addr) (field m 4 o_dst_addr) (field m 1 o_next_proto_id)
    (field m 2 (l4_of m + o_src_port)) (field m 2 (l4_of m + o_dst_port)).

Lemma flow_ok m : wf_mem m -> key_ok (flow_of m).
Proof. intros Hm. unfold key_ok, flow_of. simpl. split_and!; by apply packet_field_range. Qed.

Ltac fields := repeat (rewrite field_put_out by offsets); try rewrite field_write_same.

Lemma rewritten_fields m tr ck :
  34 <= l4_of m <= 74 -> 6 <= ck -> key_ok tr ->
  let m' := rewritten m tr ck in
  field m' 4 o_src_addr = src_ip tr /\ field m' 4 o_dst_addr = dst_ip tr /\
  field m' 1 o_next_proto_id = proto tr /\ field m' 2 (l4_of m + o_src_port) = src_port tr /\
  field m' 2 (l4_of m + o_dst_port) = dst_port tr.
Proof.
  intros Hl Hck (H1 & H2 & H3 & H4 & H5). cbv zeta. unfold rewritten. cbv zeta.
  set (c := rte_ipv4_udptcp_cksum _ _ _). generalize (l4_of m) Hl c. clear Hl c. intros l4 Hl c.
  split_and!; fields; by apply Z.mod_small.
Qed.

(** Bytes outside the rewritten fields. *)
Lemma rewritten_out m tr ck n p :
  12 <= p -> 34 <= l4_of m <= 74 ->
  p + Z.of_nat n <= 23 \/ 34 <= p /\ p + Z.of_nat n <= l4_of m \/
  l4_of m + 4 <= p /\ (p + Z.of_nat n <= l4_of m + ck \/ l4_of m + ck + 2 <= p) ->
  6 <= ck -> field (rewritten m tr ck) n p = field m n p.
Proof.
  intros Hp Hl Hd Hck. unfold rewritten. cbv zeta. set (c := rte_ipv4_udptcp_cksum _ _ _).
  generalize c. clear c. intros c. revert Hl Hd. generalize (l4_of m). intros l4 Hl Hd. fields. done.
Qed.

(** The packet that leaves has the flow of the translation, is still a valid packet
    and is unchanged outside the addresses, the ports and the checksums. *)
Lemma translated_flow mb m tr s d :
  20 <= ihl_of m -> valid mb m = true -> key_ok tr ->
  proto tr = field m 1 o_next_proto_id -> mac_ok s -> mac_ok d ->
  flow_of (translated m tr s d) = tr /\ valid mb (translated m tr s d) = true /\
  forall n p, 12 <= p ->
    p + Z.of_nat n <= 23 \/ 34 <= p /\ p + Z.of_nat n <= l4_of m \/
    l4_of m + 4 <= p /\ (p + Z.of_nat n <= l4_of m + cksum_offset m \/
                          l4_of m + cksum_offset m + 2 <= p) ->
    field (translated m tr s d) n p = field m n p.
Proof.
  intros Hi Hv Htr Hpr [Ls _] [Ld _]. pose proof (ihl_range m) as Hr.
  set (m0 := write m o_hdr_checksum (le_bytes 2 0)).
  assert (E0 : l4_of m0 = l4_of m) by (unfold l4_of, ihl_of, m0; by rewrite field_put_out by offsets).
  assert (Hl : 34 <= l4_of m <= 74) by (unfold l4_of; offsets).
  assert (Hck : 6 <= cksum_offset m <= 16) by (unfold cksum_offset; case_match; offsets).
  assert (Hout : forall n p, 12 <= p -> p + Z.of_nat n <= 24 \/ 26 <= p ->
    field (translated m tr s d) n p = field (rewritten m0 tr (cksum_offset m)) n p).
  { intros n p Hp Hd. unfold translated. cbv zeta. rewrite field_set_macs by done.
    apply field_put_out. offsets. }
  assert (Hframe : forall n p, 12 <= p ->
    p + Z.of_nat n <= 23 \/ 34 <= p /\ p + Z.of_nat n <= l4_of m \/
    l4_of m + 4 <= p /\ (p + Z.of_nat n <= l4_of m + cksum_offset m \/
                          l4_of m + cksum_offset m + 2 <= p) ->
    field (translated m tr s d) n p = field m n p).
  { intros n p Hp Hd. rewrite Hout by lia. rewrite rewritten_out by (rewrite ?E0; lia).
    apply field_put_out. offsets. }
  destruct (rewritten_fields m0 tr (cksum_offset m)) as (F1 & F2 & F3 & F4 & F5);
    [rewrite E0; lia|lia|done|]. rewrite E0 in *.
  destruct (valid_ext mb m (translated m tr s d)) as [Hvv Hll].
  - apply Hframe; offsets.
  - apply Hframe; offsets.
  - apply Hframe; offsets.
  - rewrite Hout by offsets. congruence.
  - apply Hframe; [offsets|]. unfold cksum_offset; case_match; offsets.
  - apply Hframe; [offsets|]. unfold cksum_offset; case_match; offsets.
  - rewrite Hvv. split_and!; [|done|done]. unfold flow_of. rewrite Hll.
    rewrite !Hout by offsets. rewrite F1, F2, F3, F4, F5. by destruct tr.
Qed.
End Bytes.

(** ** The handler refines the abstract NAT *)
Section Dispatch.
Context `{Dpdk} {T : Type} {FT : FlowTable T hash_key hash_key}
  {OK : FlowTableOk T hash_key hash_key} {PK : FlowProbeOk T hash_key hash_key}.

Lemma nat_on_packet {A} (f : M mem A) (t : T) m a m' :
  f m = Ret (a, m') -> on_packet f (t, m) = Ret (a, (t, m')).
Proof. intros E. unfold on_packet, zoom. simpl. by rewrite E. Qed.
Lemma nat_on_table {A} (f : M T A) (t : T) m a t' :
  f t = Ret (a, t') -> on_table f (t, m) = Ret (a, (t', m)).
Proof. intros E. unfold on_table, zoom. simpl. by rewrite E. Qed.

Lemma packet_key_run m :
  buffer m -> packet_key (field m 2 (l4_of m + o_src_port)) (field m 2 (l4_of m + o_dst_port)) m =
  Ret (flow_of m, m).
Proof.
  intros Hb. unfold packet_key.
  rewrite (mbind_run _ _ _ _ _ (load_field m 4 o_src_addr ltac:(apply buffer_acc; [done|offsets..]))).
  rewrite (mbind_run _ _ _ _ _ (load_field m 4 o_dst_addr ltac:(apply buffer_acc; [done|offsets..]))).
  by rewrite (mbind_run _ _ _ _ _ (load_byte m o_next_proto_id ltac:(apply buffer_acc; [done|offsets..]))).
Qed.

(** What one packet does, for every packet in a buffer and every table state. *)
Definition dispatch_spec (cfg : nf_config) (dev : Z) (mb : rte_mbuf) (t : T) (m : flow_map)
    (pkt : mem) (r : result (Z * (T * mem))) : Prop :=
  if valid mb pkt then
    match nat_step (nat_ip cfg) m (flow_of pkt) with
    | Dropped => r = Ret (dev, (t, pkt))
    | Translated tr m' =>
        exists t' s d, r = Ret (1 - dev, (t', translated pkt tr s d)) /\ represents t' m' /\
          device_macs cfg !! Z.to_nat (1 - dev) = Some s /\
          endpoint_macs cfg !! Z.to_nat (1 - dev) = Some d /\ mac_ok s /\ mac_ok d
    | NoPort => r = Stop OutOfFuel
    end
  else r = Ret (dev, (t, pkt)).

Lemma nat_dispatch_run cfg dev mb (t : T) m pkt :
  config_ok cfg -> 0 <= dev < 2 -> buffer pkt -> represents t m -> room2 m ->
  dispatch_spec cfg dev mb t m pkt (dispatch_packet cfg dev mb (t, pkt)).
Proof.
  intros Hc Hdev Hb Hr Hroom. unfold dispatch_spec, dispatch_packet.
  rewrite (mbind_run _ _ _ _ _ (nat_on_packet _ t _ _ _ (parse_ports_run mb pkt Hb))).
  destruct (valid mb pkt) eqn:Hv; [|done]. cbv iota beta.
  rewrite (mbind_run _ _ _ _ _ (nat_on_packet _ t _ _ _ (packet_key_run pkt Hb))).
  destruct (flow_ok pkt (proj1 Hb)) as (_ & _ & _ & Hp & _).
  pose proof (get_translation_run cfg t m (flow_of pkt) Hr Hp Hroom) as Hg.
  destruct (nat_step _ m _) as [|tr m'|].
  - by rewrite (mbind_run _ _ _ _ _ (nat_on_table _ t pkt _ _ Hg)).
  - destruct Hg as (t' & Hg & Hr'). rewrite (mbind_run _ _ _ _ _ (nat_on_table _ t pkt _ _ Hg)).
    destruct (translate_packet_run cfg dev mb pkt tr Hc Hdev Hb Hv) as (s & d & Es & Ed & Ms & Md & E).
    exists t', s, d. split; [|done]. by apply nat_on_packet.
  - unfold mbind, M_bind, on_table, zoom. simpl. by rewrite Hg.
Qed.

(** C31. One packet, on every branch: the handler refines the abstract NAT. An invalid
    packet, or an unknown flow to the NAT's own address, comes back with the device it
    arrived on, table and packet untouched; a known flow is rewritten to its entry; a
    new outgoing flow gets the first free port, its two entries and the rewriting; the
    handler loops exactly when no port is free. *)
Theorem nat_dispatch_refines cfg dev mb (t : T) m pkt :
  config_ok cfg -> 0 <= dev < 2 -> buffer pkt -> represents t m -> room2 m ->
  dispatch_spec cfg dev mb t m pkt (dispatch_packet cfg dev mb (t, pkt)).
Proof. exact (nat_dispatch_run cfg dev mb t m pkt). Qed.
End Dispatch.

(** ** Invariant of the abstract NAT

    Every entry has the entry of the other direction, keeps the protocol and is in
    range. *)
Definition nat_inv (m : flow_map) : Prop :=
  forall k t, m !! k = Some t ->
  m !! swap t = Some (swap k) /\ proto t = proto k /\ key_ok k /\ key_ok t.

Lemma swap_swap k : swap (swap k) = k.
Proof. by destruct k. Qed.
Lemma swap_ok k : key_ok k -> key_ok (swap k).
Proof. unfold key_ok. destruct k; simpl. tauto. Qed.

(** The entries of a new connection. *)
Lemma first_free_new ip m k o :
  first_free m (swap (masquerade ip k (src_port k))) = Some o -> 0 <= ip < 2 ^ 32 -> key_ok k ->
  m !! o = None /\ key_ok o /\ proto o = proto k /\ dst_ip o = ip /\ src_ip o = dst_ip k.
Proof.
  intros E Hip Hk. apply first_free_some in E as (Hm & p & -> & Hp). split; [done|].
  unfold key_ok in *. simpl. split_and!; try done; lia.
Qed.

Lemma nat_step_inv ip m k t m' :
  nat_inv m -> key_ok k -> 0 <= ip < 2 ^ 32 -> nat_step ip m k = Translated t m' ->
  nat_inv m' /\ m ⊆ m' /\ m' !! k = Some t /\ (base.size m' <= base.size m + 2)%nat.
Proof.
  intros Hinv Hk Hip E. unfold nat_step in E. destruct (m !! k) as [t0|] eqn:Hmk.
  { simplify_eq. split_and!; [done|done|done|lia]. }
  destruct (Z.eqb_spec (dst_ip k) ip) as [|Hdst]; [done|].
  destruct (first_free _ _) as [o|] eqn:Eo; [|done]. injection E as <- <-.
  destruct (first_free_new ip m k o Eo Hip Hk) as (Hmo & Ho & Po & Do & So).
  assert (Hne : o <> k) by (intros ->; done).
  assert (Hko : (<[k := swap o]> m) !! o = None) by (by rewrite lookup_insert_ne by congruence).
  assert (Hsub : m ⊆ <[o := swap k]> (<[k := swap o]> m)).
  { etrans; [by apply (insert_subseteq m k (swap o))|by apply insert_subseteq]. }
  assert (Hk' : <[o := swap k]> (<[k := swap o]> m) !! k = Some (swap o)).
  { by rewrite lookup_insert_ne, lookup_insert_eq by done. }
  split_and!; [|done|done|].
  - intros j t Hj. destruct (decide (j = o)) as [->|Hjo]; [|destruct (decide (j = k)) as [->|Hjk]].
    + rewrite lookup_insert_eq in Hj. simplify_eq. rewrite swap_swap.
      split_and!; [done|by destruct k|done|by apply swap_ok].
    + rewrite Hk' in Hj. simplify_eq. rewrite swap_swap, lookup_insert_eq.
      split_and!; [done|by rewrite <- Po; destruct o|done|by apply swap_ok].
    + rewrite !lookup_insert_ne in Hj by done. destruct (Hinv j t Hj) as (H1 & H2).
      split; [by eapply lookup_weaken|done].
  - rewrite !map_size_insert, Hko, Hmk. simpl. lia.
Qed.

(** The search for a port fails only with 65536 connections to the same server. *)
Lemma first_free_total m k : (base.size m < Z.to_nat 65536)%nat -> is_Some (first_free m k).
Proof.
  intros Hs. destruct (first_free m k) as [o|] eqn:E; [by eexists|]. exfalso.
  set (L := with_dst_port k <$> seqZ 0 65536).
  assert (HL : NoDup L).
  { apply NoDup_fmap_2; [|apply NoDup_seqZ]. by intros a b [= ->]. }
  assert (Hsub : list_to_set (C := gset hash_key) L ⊆ dom m).
  { intros j Hj. apply elem_of_list_to_set, list_elem_of_fmap in Hj as (p & -> & Hp).
    apply elem_of_seqZ in Hp. apply elem_of_dom. eapply first_free_none; [done|lia]. }
  apply subseteq_size in Hsub. rewrite size_list_to_set, size_dom in Hsub by done.
  unfold L in Hsub. rewrite length_fmap, length_seqZ in Hsub. lia.
Qed.
End Nat.
