(* ===== verification/NfNatRun.v ===== *)
(** * Network functions: the NAT on its tables

    The instances of the flow table interface the NATs use (dpdk-nat-basichash:
    chains; dpdk-nat-hashring: ring; dpdk-nat-tree: tree), the equivalence of the
    three tables, and the behaviour of the NAT on sequences of packets: it always
    answers while it has fewer entries than ports, its table stays symmetric, and
    the replies to a translated packet are translated back. *)
From stdpp Require Import base gmap list numbers.
From Stdlib Require Import ZArith Lia.
From S2P Require Import Prelude CMem NfTable NfChain NfRing NfTree NfPacket NfNat.

Module NatRun.
Import Key Packet Sample Nat.

(** ** The tables *)
Definition zero_key : hash_key := HKey 0 0 0 0 0.

Abbreviation chain_t := (carray (list (Chain.hash_entry hash_key hash_key))).
Abbreviation ring_t := (carray (Ring.hash_entry hash_key hash_key)).
Abbreviation tree_t := (Tree.tree_node hash_key).

#[export] Instance nat_chain : FlowTable chain_t hash_key hash_key :=
  Chain.chain_table hash_key_equals hash_function.
#[export] Instance nat_chain_ok : FlowTableOk chain_t hash_key hash_key :=
  Chain.chain_ok hash_key_equals hash_function hash_key_equals_spec.
#[export] Instance nat_chain_probe : FlowProbeOk chain_t hash_key hash_key :=
  Chain.chain_probe_ok hash_key_equals hash_function hash_key_equals_spec.

Lemma ring_size_pos : 0 < Ring.TABLE_SIZE.
Proof. reflexivity. Qed.

#[export] Instance nat_ring : FlowTable ring_t hash_key hash_key :=
  Ring.ring_table Ring.TABLE_SIZE hash_key_equals hash_function.
#[export] Instance nat_ring_ok : FlowTableOk ring_t hash_key hash_key :=
  Ring.ring_ok zero_key Ring.TABLE_SIZE hash_key_equals hash_function ring_size_pos hash_key_equals_spec.
#[export] Instance nat_ring_probe : FlowProbeOk ring_t hash_key hash_key :=
  Ring.ring_probe_ok zero_key Ring.TABLE_SIZE hash_key_equals hash_function ring_size_pos hash_key_equals_spec.

#[export] Instance nat_tree : FlowTable tree_t hash_key hash_key := Tree.tree_table.
#[export] Instance nat_tree_ok : FlowTableOk tree_t hash_key hash_key := Tree.tree_ok.

(** A sequence of [hash_set]s, and the map it leaves. *)
Section Sets.
Context {T : Type} {FT : FlowTable T hash_key hash_key} {OK : FlowTableOk T hash_key hash_key}.

Fixpoint sets (l : list (hash_key * hash_key)) : M T unit :=
  match l with
  | [] => mret tt
  | (k, v) :: l => tset k v;; sets l
  end.

Fixpoint map_of (l : list (hash_key * hash_key)) (m : flow_map) : flow_map :=
  match l with
  | [] => m
  | (k, v) :: l => map_of l (<[k := v]> m)
  end.

Definition room_for (m : flow_map) (n : nat) : Prop :=
  forall m' : flow_map, (base.size m' < base.size m + n)%nat -> room m'.

Lemma room_for_insert m k v n : room_for m (S n) -> room_for (<[k := v]> m) n.
Proof.
  intros Hr m' Hm'. apply Hr. rewrite map_size_insert in Hm'. destruct (m !! k); simpl in *; lia.
Qed.

Lemma sets_run l (t : T) m :
  represents t m -> room_for m (length l) ->
  exists t', sets l t = Ret (tt, t') /\ represents t' (map_of l m).
Proof.
  revert t m; induction l as [|[k v] l IH]; intros t m Hr Hroom; simpl; [by exists t|].
  destruct (tset_ok t m k v Hr) as (t1 & E1 & R1); [right; apply Hroom; simpl; lia|].
  rewrite (mbind_run _ _ _ _ _ E1). apply IH; [done|]. by apply room_for_insert.
Qed.

(** Lookup after a sequence of insertions. *)
Lemma sets_get l k (t : T) :
  represents t ∅ -> room_for ∅ (length l) ->
  exists t', sets l t = Ret (tt, t') /\ tget k t' = Ret (map_of l ∅ !! k, t').
Proof.
  intros Hr Hroom. destruct (sets_run l t ∅ Hr Hroom) as (t' & E & R).
  exists t'. split; [done|]. by apply tget_ok.
Qed.
End Sets.

(** The chained table, the hash ring (up to its number of slots) and the search
    tree are the same table: after the same sequence of [hash_set] calls on the
    empty table, [hash_get] of any key returns the same, the value of the last
    [hash_set] of that key. *)
Theorem tables_equivalent (l : list (hash_key * hash_key)) (k : hash_key) :
  (Z.of_nat (length l) <= Ring.TABLE_SIZE) ->
  exists tc tr tt',
    sets l (Chain.hash_init : chain_t) = Ret (tt, tc) /\ tget (V := hash_key) k tc = Ret (map_of l ∅ !! k, tc) /\
    sets l (Ring.hash_init zero_key zero_key Ring.TABLE_SIZE : ring_t) = Ret (tt, tr) /\
      tget (V := hash_key) k tr = Ret (map_of l ∅ !! k, tr) /\
    sets l (Tree.hash_init : tree_t) = Ret (tt, tt') /\ tget (V := hash_key) k tt' = Ret (map_of l ∅ !! k, tt').
Proof.
  intros Hl.
  destruct (sets_get (T := chain_t) l k Chain.hash_init) as (tc & C1 & C2);
    [apply Chain.chain_init_rep|by intros ? _|].
  destruct (sets_get (T := ring_t) l k (Ring.hash_init zero_key zero_key Ring.TABLE_SIZE)) as (tr & R1 & R2);
    [apply Ring.ring_init_rep|intros m Hm; rewrite map_size_empty in Hm; simpl; lia|].
  destruct (sets_get (T := tree_t) l k Tree.hash_init) as (tt' & T1 & T2);
    [apply Tree.tree_init_rep|by intros ? _|].
  exists tc, tr, tt'. done.
Qed.

Definition demo_key (p : Z) : hash_key := HKey 16777226 134744072 17 p 13568.

Lemma tables_equivalent_witness :
  exists tc tr tt',
    sets [(demo_key 1, demo_key 2); (demo_key 2, demo_key 1); (demo_key 1, demo_key 3)]
      (Chain.hash_init : chain_t) = Ret (tt, tc) /\
      tget (V := hash_key) (demo_key 1) tc = Ret (Some (demo_key 3), tc) /\
    sets [(demo_key 1, demo_key 2); (demo_key 2, demo_key 1); (demo_key 1, demo_key 3)]
      (Ring.hash_init zero_key zero_key Ring.TABLE_SIZE : ring_t) = Ret (tt, tr) /\
      tget (V := hash_key) (demo_key 1) tr = Ret (Some (demo_key 3), tr) /\
    sets [(demo_key 1, demo_key 2); (demo_key 2, demo_key 1); (demo_key 1, demo_key 3)]
      (Tree.hash_init : tree_t) = Ret (tt, tt') /\
      tget (V := hash_key) (demo_key 1) tt' = Ret (Some (demo_key 3), tt').
Proof.
  refine (tables_equivalent
    [(demo_key 1, demo_key 2); (demo_key 2, demo_key 1); (demo_key 1, demo_key 3)] (demo_key 1) _).
  change (Z.of_nat 3 <= 16777216). lia.
Defined.

(** ** Sequences of packets *)
Section Run.
Context `{Dpdk} {T : Type} {FT : FlowTable T hash_key hash_key}
  {OK : FlowTableOk T hash_key hash_key} {PK : FlowProbeOk T hash_key hash_key}.
Context (cfg : nf_config).
Hypothesis Hcfg : config_ok cfg.

(** The state of the NAT: the table holds a symmetric map. *)
Definition state_ok (t : T) (m : flow_map) : Prop := represents t m /\ nat_inv m.

Lemma room_for_room2 m n : room_for m (S (S n)) -> room2 m.
Proof.
  intros Hr. split; [apply Hr; lia|]. intros k v. apply Hr. rewrite map_size_insert.
  destruct (m !! k); simpl; lia.
Qed.

(** One packet: the handler answers, and what it forwards is what the map it leaves says. *)
Lemma run_one_total a (t : T) m :
  state_ok t m -> arrival_ok a -> room2 m -> (base.size m < Z.to_nat 65536)%nat ->
  exists r data t' m', run_one cfg a t = Ret ((r, data), t') /\ state_ok t' m' /\ m ⊆ m' /\
    (base.size m' <= base.size m + 2)%nat /\
    ((r = None /\ data = a_data a /\ m' = m /\
       (valid (a_mbuf a) (a_data a) = false \/
        m !! flow_of (a_data a) = None /\ dst_ip (flow_of (a_data a)) = nat_ip cfg)) \/
     (r = Some (1 - a_device a) /\ valid (a_mbuf a) (a_data a) = true /\
      exists tr s d, m' !! flow_of (a_data a) = Some tr /\ data = translated (a_data a) tr s d /\
        mac_ok s /\ mac_ok d)).
Proof.
  intros [Hr Hinv] [Hdev Hb] Hroom Hs. pose proof (flow_ok _ (proj1 Hb)) as Hk.
  pose proof (nat_dispatch_run cfg (a_device a) (a_mbuf a) t m (a_data a) Hcfg Hdev Hb Hr Hroom) as Hd.
  unfold dispatch_spec in Hd. unfold run_one. destruct (valid _ _) eqn:Hv.
  - destruct (nat_step _ m _) as [|tr m'|] eqn:Es.
    + rewrite Hd, Z.eqb_refl. exists None, (a_data a), t, m. do 3 (split; [done|]). split; [lia|].
      left. do 3 (split; [done|]). right. unfold nat_step in Es. destruct (m !! _); [done|].
      destruct (Z.eqb_spec (dst_ip (flow_of (a_data a))) (nat_ip cfg)); [done|]. by destruct (first_free _ _).
    + destruct Hd as (t' & s & d & -> & Hr' & _ & _ & Ms & Md).
      rewrite (proj2 (Z.eqb_neq (1 - a_device a) (a_device a))) by lia.
      destruct Hcfg as (_ & _ & Hip).
      destruct (nat_step_inv _ m _ tr m' Hinv Hk Hip Es) as (Hi & Hsub & Hm & Hsz).
      eexists _, _, t', m'. do 4 (split; [done|]). right. do 2 (split; [done|]).
      by exists tr, s, d.
    + unfold nat_step in Es. destruct (m !! _); [done|]. destruct (_ =? _); [done|].
      destruct (first_free_total m (swap (masquerade (nat_ip cfg) (flow_of (a_data a))
        (src_port (flow_of (a_data a))))) Hs) as [o Ho]. by rewrite Ho in Es.
  - rewrite Hd, Z.eqb_refl. exists None, (a_data a), t, m. do 3 (split; [done|]). split; [lia|].
    left. do 3 (split; [done|]). by left.
Qed.

Lemma nat_run_all l (t : T) m :
  state_ok t m -> Forall arrival_ok l -> room_for m (S (2 * length l)) ->
  (base.size m + 2 * length l <= Z.to_nat 65536)%nat ->
  exists outs t' m', run cfg l t = Ret (outs, t') /\ length outs = length l /\ state_ok t' m' /\
    m ⊆ m' /\ (base.size m' <= base.size m + 2 * length l)%nat.
Proof.
  intros Ht Hl. revert t m Ht. induction Hl as [|a l Ha Hl IH]; intros t m Ht Hroom Hs; simpl in *.
  { exists [], t, m. split_and!; try done; lia. }
  destruct (run_one_total a t m Ht Ha) as (r & data & t1 & m1 & E1 & H1 & Hsub & Hsz & _);
    [apply (room_for_room2 m (2 * length l)); intros m' Hm'; apply Hroom; lia|lia|].
  destruct (IH t1 m1 H1) as (outs & t2 & m2 & E2 & Hlen & H2 & Hsub2 & Hsz2);
    [intros m' Hm'; apply Hroom; lia|lia|].
  exists ((r, data) :: outs), t2, m2. rewrite (mbind_run _ _ _ _ _ E1), (mbind_run _ _ _ _ _ E2).
  split; [done|]. split; [simpl; lia|]. split; [done|]. split; [by etrans|lia].
Qed.

(** A flow that is in the map is translated by its entry. *)
Lemma run_known b (t : T) m tr :
  state_ok t m -> arrival_ok b -> room2 m -> (base.size m < Z.to_nat 65536)%nat ->
  valid (a_mbuf b) (a_data b) = true -> 20 <= ihl_of (a_data b) ->
  m !! flow_of (a_data b) = Some tr ->
  exists data t', run_one cfg b t = Ret ((Some (1 - a_device b), data), t') /\
    flow_of data = tr /\ valid (a_mbuf b) data = true.
Proof.
  intros Ht Hb Hroom Hs Hv Hi Hm.
  destruct (run_one_total b t m Ht Hb Hroom Hs) as (r & data & t' & m' & E & [Hr' Hinv] & Hsub & _ & Ho).
  destruct Ho as [(_ & _ & _ & [Hv'|[Hm' _]])|(-> & _ & tr' & s & d & Hm' & -> & Ms & Md)]; [congruence..|].
  eexists _, t'. split; [exact E|].
  assert (tr' = tr) as -> by (pose proof (lookup_weaken _ _ _ _ Hm Hsub); congruence).
  destruct (Hinv _ _ Hm') as (_ & Hp & _ & Hk).
  destruct (translated_flow (a_mbuf b) (a_data b) tr s d) as (F1 & F2 & _); done.
Qed.

Lemma forwarded_flow a (t : T) m dev data t1 :
  state_ok t m -> arrival_ok a -> room2 m -> (base.size m < Z.to_nat 65536)%nat ->
  20 <= ihl_of (a_data a) -> run_one cfg a t = Ret ((Some dev, data), t1) ->
  exists m1, state_ok t1 m1 /\ m ⊆ m1 /\ (base.size m1 <= base.size m + 2)%nat /\
    m1 !! flow_of (a_data a) = Some (flow_of data).
Proof.
  intros Ht Ha Hroom Hs Hi E.
  destruct (run_one_total a t m Ht Ha Hroom Hs) as (r & data' & t' & m' & E' & [Hr' Hinv] & Hsub & Hsz & Ho).
  rewrite E in E'. injection E' as <- <- <-. exists m'.
  destruct Ho as [([=] & _)|(_ & Hv & tr & s & d & Hm' & -> & Ms & Md)].
  destruct (Hinv _ _ Hm') as (_ & Hp & _ & Hk).
  destruct (translated_flow (a_mbuf a) (a_data a) tr s d) as (-> & _); try done.
Qed.

(** C23. Replies come back: once the NAT has forwarded a packet, and whatever packets
    it handles afterwards, a packet of the opposite flow of the forwarded one is
    forwarded to the opposite flow of the original packet, as long as the table has room
    and stays below 65536 entries with two for each of these packets, and headers have at
    least 20 bytes. The packets in between are all answered. *)
Theorem nat_reply_roundtrip a l (t : T) m dev pa t1 :
  state_ok t m -> arrival_ok a -> Forall arrival_ok l -> 20 <= ihl_of (a_data a) ->
  room_for m (2 * length l + 5) -> (base.size m + 2 * length l + 2 < Z.to_nat 65536)%nat ->
  run_one cfg a t = Ret ((Some dev, pa), t1) ->
  exists outs t2, run cfg l t1 = Ret (outs, t2) /\
    forall b, arrival_ok b -> 20 <= ihl_of (a_data b) -> valid (a_mbuf b) (a_data b) = true ->
      flow_of (a_data b) = swap (flow_of pa) ->
      exists pb t3, run_one cfg b t2 = Ret ((Some (1 - a_device b), pb), t3) /\
        flow_of pb = swap (flow_of (a_data a)) /\ valid (a_mbuf b) pb = true.
Proof.
  intros Ht Ha Hl Hi Hroom Hs E.
  destruct (forwarded_flow a t m dev pa t1 Ht Ha) as (m1 & H1 & _ & Hsz & Hm1);
    [apply (room_for_room2 m O); intros m' Hm'; apply Hroom; lia|lia|done|done|].
  destruct (nat_run_all l t1 m1 H1 Hl) as (outs & t2 & m2 & E2 & _ & H2 & Hsub & Hsz2);
    [intros m' Hm'; apply Hroom; lia|lia|].
  exists outs, t2. split; [done|]. intros b Hb Hib Hvb Hfb.
  apply (run_known b t2 m2); [done|done| |lia|done|done|].
  - apply (room_for_room2 m2 O). intros m' Hm'. apply Hroom. lia.
  - rewrite Hfb. destruct H2 as [_ Hinv]. by apply Hinv, (lookup_weaken _ _ _ _ Hm1).
Qed.

(** The NAT answers every packet of every sequence, with the table at most two
    entries larger per packet: it never stops, reads outside a buffer or searches
    forever while the table stays within 65536 entries; entries are never changed or
    removed, and every entry keeps the entry of the reverse flow. *)
Theorem nat_run_answers l (t : T) m :
  state_ok t m -> Forall arrival_ok l -> room_for m (S (2 * length l)) ->
  (base.size m + 2 * length l <= Z.to_nat 65536)%nat ->
  exists outs t' m', run cfg l t = Ret (outs, t') /\ length outs = length l /\ state_ok t' m' /\
    m ⊆ m' /\ (base.size m' <= base.size m + 2 * length l)%nat.
Proof. exact (nat_run_all l t m). Qed.
End Run.

(** ** Concrete runs *)
Definition demo_config : nf_config :=
  Config [demo_mac 0; demo_mac 1] [demo_mac 2; demo_mac 3] 67305985.
Definition out_packet : arrival := demo_arrival 0 [10; 0; 0; 1] [8; 8; 8; 8] [3; 232] [0; 53].
Definition other_packet : arrival := demo_arrival 0 [10; 0; 0; 2] [8; 8; 8; 8] [3; 232] [0; 53].
Definition reply_packet : arrival := demo_arrival 1 [8; 8; 8; 8] [1; 2; 3; 4] [0; 53] [3; 232].

Lemma nat_demo_config_ok : config_ok demo_config.
Proof.
  split_and!; simpl; try done; repeat constructor; try apply demo_mac_ok; lia.
Qed.

Lemma out_packet_ok : arrival_ok out_packet.
Proof. demo_ok. Qed.
Lemma other_packet_ok : arrival_ok other_packet.
Proof. demo_ok. Qed.
Lemma reply_packet_ok : arrival_ok reply_packet.
Proof. demo_ok. Qed.

Definition first_run : result ((option Z * mem) * chain_t) :=
  run_one demo_config out_packet (Chain.hash_init : chain_t).
Definition first_out : mem := match first_run with Ret ((_, d), _) => d | _ => ∅ end.
Definition first_table : chain_t := match first_run with Ret (_, t) => t | _ => Chain.hash_init end.
Lemma first_run_eq :
  run_one demo_config out_packet (Chain.hash_init : chain_t) = Ret ((Some 1, first_out), first_table).
Proof. vm_compute. reflexivity. Qed.
Lemma first_flow : flow_of first_out = HKey 67305985 134744072 17 59395 13568.
Proof. vm_compute. reflexivity. Qed.

Lemma empty_state : state_ok (Chain.hash_init : chain_t) ∅.
Proof.
  split; [apply Chain.chain_init_rep|]. intros k t. by rewrite lookup_empty.
Qed.

Lemma nat_reply_roundtrip_witness :
  exists outs t2, run demo_config [other_packet] first_table = Ret (outs, t2) /\
  exists pb t3, run_one demo_config reply_packet t2 = Ret ((Some 0, pb), t3) /\
    flow_of pb = HKey 134744072 16777226 17 13568 59395.
Proof.
  destruct (nat_reply_roundtrip demo_config nat_demo_config_ok out_packet [other_packet]
    (Chain.hash_init : chain_t) ∅ 1 first_out first_table empty_state out_packet_ok
    ltac:(constructor; [exact other_packet_ok|constructor]) ltac:(vm_compute; done)
    ltac:(by intros ? _) ltac:(rewrite map_size_empty; simpl; lia) first_run_eq)
    as (outs & t2 & E & Hb).
  exists outs, t2. split; [exact E|].
  destruct (Hb reply_packet reply_packet_ok) as (pb & t3 & Er & Hf & _);
    [vm_compute; done|vm_compute; done|rewrite first_flow; vm_compute; done|].
  exists pb, t3. split; [exact Er|]. rewrite Hf. vm_compute. reflexivity.
Defined.

Lemma nat_run_answers_witness :
  exists outs t' m', run demo_config [out_packet; other_packet; reply_packet] (Chain.hash_init : chain_t) =
    Ret (outs, t') /\ length outs = 3%nat /\ state_ok t' m' /\ (∅ : flow_map) ⊆ m' /\
    (base.size m' <= base.size (∅ : flow_map) + 2 * 3)%nat.
Proof.
  refine (nat_run_answers demo_config nat_demo_config_ok [out_packet; other_packet; reply_packet]
    (Chain.hash_init : chain_t) ∅ empty_state _ _ _).
  - constructor; [exact out_packet_ok|]. constructor; [exact other_packet_ok|].
    constructor; [exact reply_packet_ok|constructor].
  - by intros ? _.
  - rewrite map_size_empty. simpl. lia.
Defined.

Lemma nat_dispatch_refines_witness :
  dispatch_spec demo_config 0 (a_mbuf out_packet) (Chain.hash_init : chain_t) ∅ (a_data out_packet)
    (dispatch_packet demo_config 0 (a_mbuf out_packet) (Chain.hash_init : chain_t, a_data out_packet)).
Proof.
  refine (nat_dispatch_refines demo_config 0 (a_mbuf out_packet)
    (Chain.hash_init : chain_t) ∅ (a_data out_packet) nat_demo_config_ok _ _ _ _);
    [lia|apply out_packet_ok|apply Chain.chain_init_rep|by split; [|intros]].
Defined.

(** ** Where the handler does not do what it means to *)

(** When every port to a server is taken the search does not end: after 65536 rounds
    it is back at the first port with the same table. *)
Lemma nat_port_search_hangs {T} {FT : FlowTable T hash_key hash_key}
    {OK : FlowTableOk T hash_key hash_key} {PK : FlowProbeOk T hash_key hash_key} (t : T) m k :
  represents t m -> 0 <= dst_port k < 65536 ->
  (forall p, 0 <= p < 65536 -> is_Some (m !! with_dst_port k p)) ->
  find_port k t = Stop OutOfFuel.
Proof.
  intros Hr Hk Hall. rewrite (find_port_run t m k Hr Hk).
  destruct (first_free m k) as [o|] eqn:E; [|done].
  apply first_free_some in E as (Hm & p & -> & Hp). destruct (Hall p Hp). congruence.
Qed.

(** dpdk-nat-tree: the search stores through a null pointer as soon as the first port
    it tries is taken. *)
Lemma tree_port_search_faults (t : tree_t) m k :
  represents t m -> is_Some (m !! k) -> find_port k t = Stop MemError.
Proof.
  intros Hr Hk. unfold find_port. rewrite iter_Z_nat.
  replace (Z.to_nat 65536) with (S (Z.to_nat 65535)) by lia. cbn [iter_nat]. unfold port_round at 1.
  change (tprobe (FlowTable := nat_tree) (V := hash_key) k t)
    with (tprobe (FlowTable := Tree.tree_table) (V := hash_key) k t).
  rewrite (Tree.tree_probe t m k Hr). by rewrite decide_True.
Qed.

(** [total_length] is compared in network order: a correct 256-byte UDP datagram is
    taken for a truncated one and dropped. *)
Lemma nat_drops_256_byte_packet :
  parse_ports (Mbuf 0 270) (mem_of 0 (replicate 12 0 ++ [8; 0; 69; 0; 1; 0; 0; 0; 0; 0; 64; 17; 0; 0;
    10; 0; 0; 1; 8; 8; 8; 8; 3; 232; 0; 53; 0; 236; 0; 0])) =
  Ret (None, mem_of 0 (replicate 12 0 ++ [8; 0; 69; 0; 1; 0; 0; 0; 0; 0; 64; 17; 0; 0;
    10; 0; 0; 1; 8; 8; 8; 8; 3; 232; 0; 53; 0; 236; 0; 0])).
Proof. vm_compute. reflexivity. Qed.

(** [data_off] holds the header length in its high four bits, so the test accepts a
    TCP header that claims to be one word long. *)
Lemma nat_accepts_short_tcp_header m :
  m !! o_data_off = Some 16 -> tcp_truncated 0 m = Ret (false, m).
Proof. intros E. unfold tcp_truncated. by rewrite (mbind_load _ _ _ 16). Qed.
End NatRun.
