(* ===== verification/NfLb.v ===== *)
(** * Network functions: the load balancer

    [dispatch_packet] and the receive loop of examples/dpdk-lb-basichash over the
    flow table interface. A packet to the virtual address goes to the server of its
    client, chosen round robin when the client is new; a packet from a server leaves
    with the virtual address; everything else is dropped. *)
From stdpp Require Import base gmap list numbers.
From Stdlib Require Import ZArith Lia.
From S2P Require Import Prelude CMem NfTable NfChain NfPacket.

Module Lb.
Import Key Packet Sample.

Definition NUM_DIPS : Z := 2.

Record nf_config : Type := Config {
  device_macs : list (list Z);
  endpoint_macs : list (list Z);
  vip : Z;
  dips : list Z
}.

(** [hash_value_t] *)
Record lb_value : Type := LVal { lb_dst_ip : Z }.

(** [config->dips[i]] *)
Definition dip_at (config : nf_config) (i : Z) : option Z := dips config !! Z.to_nat i.

Section Handler.
Context `{Dpdk} {T : Type} {FT : FlowTable T lb_key lb_value}.

(** The table, the static [next_dip] and the packet. *)
Record state : Type := State { table : T; next_dip : Z; pkt : mem }.

Definition on_table {A} (m : M T A) : M state A :=
  zoom table (fun t s => State t (next_dip s) (pkt s)) m.
Definition on_packet {A} (m : M mem A) : M state A :=
  zoom pkt (fun p s => State (table s) (next_dip s) p) m.

(** [translation.dst_ip = config->dips[next_dip++]; if (...) next_dip = 0;] *)
Definition pick_dip (config : nf_config) : M state Z :=
  s ← get;
  dip ← of_option (dip_at config (next_dip s));
  let n := next_dip s + 1 in
  last ← (if n >=? NUM_DIPS then mret true
          else d ← of_option (dip_at config n); mret (d =? 0));
  put (State (table s) (if (last : bool) then 0 else n) (pkt s));;
  mret dip.

Definition incoming (config : nf_config) : M state unit :=
  src ← on_packet (load_int 4 o_src_addr);
  let key := LKey src in
  r ← on_table (tget key);
  translation ← match r with
                | Some v => mret v
                | None =>
                    dip ← pick_dip config;
                    on_table (tset key (LVal dip));;
                    mret (LVal dip)
                end;
  on_packet (store_int 4 o_dst_addr (lb_dst_ip translation)).

(** The search among the servers: [for (int i = 0; i < NUM_DIPS && config->dips[i]; i++)]. *)
Fixpoint found_dip (n : nat) (src : Z) (l : list Z) : option bool :=
  match n, l with
  | O, _ => Some false
  | S _, [] => None
  | S n, d :: l => if d =? 0 then Some false else if src =? d then Some true else found_dip n src l
  end.

Definition outgoing (config : nf_config) : M state bool :=
  src ← on_packet (load_int 4 o_src_addr);
  found ← of_option (found_dip (Z.to_nat NUM_DIPS) src (dips config));
  if (found : bool) then on_packet (store_int 4 o_src_addr (vip config));; mret true
  else mret false.

Definition dispatch_packet (config : nf_config) (device : Z) (mbuf : rte_mbuf) : M state Z :=
  sport ← on_packet (parse_sport mbuf);
  match sport with
  | None => mret device
  | Some _ =>
      let dst_dev := Z.lxor device 1 in
      on_packet (store_int 2 o_hdr_checksum 0);;
      dst ← on_packet (load_int 4 o_dst_addr);
      go ← (if dst =? vip config then incoming config;; mret true else outgoing config);
      if (go : bool) then
        on_packet (m ← get; store_int 2 o_hdr_checksum (rte_ipv4_cksum m o_ip));;
        (if dst_dev =? device then mret tt
         else on_packet (set_macs (device_macs config) (endpoint_macs config) dst_dev));;
        mret dst_dev
      else mret device
  end.

(** The receive loop on the packets that arrive, in order: the device a packet
    leaves by ([None]: freed) and its bytes. *)
Definition run_one (config : nf_config) (a : arrival) : M (T * Z) (option Z * mem) := fun '(t, n) =>
  match dispatch_packet config (a_device a) (a_mbuf a) (State t n (a_data a)) with
  | Ret (dst_device, s) =>
      Ret ((if dst_device =? a_device a then None else Some dst_device, pkt s), (table s, next_dip s))
  | Stop e => Stop e
  end.

Fixpoint run (config : nf_config) (l : list arrival) : M (T * Z) (list (option Z * mem)) :=
  match l with
  | [] => mret []
  | a :: l => r ← run_one config a; rs ← run config l; mret (r :: rs)
  end.
End Handler.
Arguments state : clear implicits.
Arguments State {T}.
Arguments table {T}.
Arguments next_dip {T}.
Arguments pkt {T}.

(** ** The abstract load balancer

    The assignment of clients to servers and the server of the next new client. *)
Record balancer : Type := Balancer { clients : gmap lb_key lb_value; next : Z }.

Fixpoint active (l : list Z) : list Z :=
  match l with
  | [] => []
  | d :: l => if d =? 0 then [] else d :: active l
  end.
Definition servers (cfg : nf_config) : list Z := active (dips cfg).
Definition n_servers (cfg : nf_config) : Z := Z.of_nat (length (servers cfg)).

(** The server of client [c], and the state after [c] was seen. *)
Definition assign (cfg : nf_config) (b : balancer) (c : lb_key) : Z * balancer :=
  match clients b !! c with
  | Some v => (lb_dst_ip v, b)
  | None =>
      let d := default 0 (servers cfg !! Z.to_nat (next b)) in
      (d, Balancer (<[c := LVal d]> (clients b)) ((next b + 1) `mod` n_servers cfg))
  end.

(** A configuration as the parser accepts it, with at least one server. *)
Definition config_ok (cfg : nf_config) : Prop :=
  macs_ok (device_macs cfg) /\ macs_ok (endpoint_macs cfg) /\ 0 <= vip cfg < 2 ^ 32 /\
  (exists a b, dips cfg = [a; b] /\ a <> 0 /\ 0 <= a < 2 ^ 32 /\ 0 <= b < 2 ^ 32).

Lemma servers_cases cfg :
  config_ok cfg ->
  exists a b, dips cfg = [a; b] /\ a <> 0 /\ 0 <= a < 2 ^ 32 /\ 0 <= b < 2 ^ 32 /\
    ((b = 0 /\ servers cfg = [a]) \/ (b <> 0 /\ servers cfg = [a; b])).
Proof.
  intros (_ & _ & _ & a & b & E & Ha & Ra & Rb). exists a, b. do 4 (split; [done|]).
  unfold servers. rewrite E. simpl. rewrite (proj2 (Z.eqb_neq a 0)) by done.
  destruct (Z.eqb_spec b 0); [left|right]; done.
Qed.

Lemma servers_range cfg d : config_ok cfg -> d ∈ servers cfg -> 0 <= d < 2 ^ 32 /\ d <> 0.
Proof.
  intros Hc Hd. destruct (servers_cases cfg Hc) as (a & b & _ & Ha & Ra & Rb & [[_ E]|[Hb E]]);
    rewrite E in Hd; set_unfold in Hd; intuition (subst; done || lia).
Qed.

Lemma found_dip_run cfg src :
  config_ok cfg -> found_dip (Z.to_nat NUM_DIPS) src (dips cfg) = Some (bool_decide (src ∈ servers cfg)).
Proof.
  intros Hc. destruct (servers_cases cfg Hc) as (a & b & E & Ha & _ & _ & H).
  change (Z.to_nat NUM_DIPS) with 2%nat. rewrite E. simpl. rewrite (proj2 (Z.eqb_neq a 0)) by done.
  destruct (Z.eqb_spec src a) as [->|Hsa].
  { rewrite bool_decide_eq_true_2; [done|]. destruct H as [[_ ->]|[_ ->]]; set_solver. }
  destruct H as [[-> ->]|[Hb ->]].
  - simpl. rewrite bool_decide_eq_false_2; [done|]. by intros ->%list_elem_of_singleton.
  - rewrite (proj2 (Z.eqb_neq b 0)) by done. destruct (Z.eqb_spec src b) as [->|Hsb].
    + rewrite bool_decide_eq_true_2; [done|]. set_solver.
    + rewrite bool_decide_eq_false_2; [done|]. set_unfold. intros [|[|]]; tauto.
Qed.

Section Refine.
Context `{Dpdk} {T : Type} {FT : FlowTable T lb_key lb_value} {OK : FlowTableOk T lb_key lb_value}.

Definition lb_rep (cfg : nf_config) (s : state T) (b : balancer) : Prop :=
  represents (table s) (clients b) /\ next_dip s = next b /\ 0 <= next b < n_servers cfg.

Lemma lb_on_packet {A} (f : M mem A) (s : state T) a m' :
  f (pkt s) = Ret (a, m') -> on_packet f s = Ret (a, State (table s) (next_dip s) m').
Proof. intros E. unfold on_packet, zoom. by rewrite E. Qed.
Lemma lb_on_table {A} (f : M T A) (s : state T) a t' :
  f (table s) = Ret (a, t') -> on_table f s = Ret (a, State t' (next_dip s) (pkt s)).
Proof. intros E. unfold on_table, zoom. by rewrite E. Qed.

(** Round robin: the next server in order, wrapping at the last configured one. *)
Lemma pick_dip_run cfg (s : state T) :
  config_ok cfg -> 0 <= next_dip s < n_servers cfg ->
  pick_dip cfg s =
  Ret (default 0 (servers cfg !! Z.to_nat (next_dip s)),
       State (table s) ((next_dip s + 1) `mod` n_servers cfg) (pkt s)).
Proof.
  intros Hc Hn. destruct (servers_cases cfg Hc) as (a & b & E & Ha & _ & _ & H0).
  unfold pick_dip, dip_at, n_servers in *. rewrite E. destruct s as [t n p]. cbn [table next_dip pkt] in *.
  destruct H0 as [[-> ES]|[Hb ES]]; rewrite ES in *; cbn [length] in *.
  - assert (n = 0) as -> by lia. done.
  - assert (n = 0 \/ n = 1) as [-> | ->] by lia; [|done].
    unfold get, mbind, M_bind, of_option, mret, M_ret, put. simpl.
    by rewrite (proj2 (Z.eqb_neq b 0)).
Qed.

Lemma store_dst m v :
  buffer m -> store_int 4 o_dst_addr v m = Ret (tt, write m o_dst_addr (le_bytes 4 v)).
Proof. intros Hb. apply store_field, buffer_acc; [done|offsets..]. Qed.

Lemma incoming_run cfg (s : state T) b :
  config_ok cfg -> lb_rep cfg s b -> room (clients b) -> buffer (pkt s) ->
  let '(d, b') := assign cfg b (LKey (field (pkt s) 4 o_src_addr)) in
  exists t', incoming cfg s =
      Ret (tt, State t' (next b') (write (pkt s) o_dst_addr (le_bytes 4 d))) /\
    represents t' (clients b') /\ 0 <= next b' < n_servers cfg.
Proof.
  intros Hc (Hr & Hn & Hrange) Hroom Hb. unfold incoming, assign.
  rewrite (mbind_run _ _ _ _ _ (lb_on_packet _ s _ _ (load_field (pkt s) 4 o_src_addr
    ltac:(apply buffer_acc; [done|offsets..])))). cbv zeta.
  set (c := LKey _).
  rewrite (mbind_run _ _ _ _ _ (lb_on_table _ (State (table s) (next_dip s) (pkt s)) _ _
    (tget_ok _ _ c Hr))).
  cbn [table next_dip pkt]. destruct (clients b !! c) as [v|] eqn:Hc'.
  - exists (table s). split; [|done].
    erewrite mbind_run by done. rewrite <- Hn.
    by apply (lb_on_packet _ (State (table s) (next_dip s) (pkt s)) tt), store_dst.
  - pose proof (pick_dip_run cfg (State (table s) (next_dip s) (pkt s)) Hc) as Hp.
    cbn [table next_dip pkt] in Hp. rewrite Hn in Hp |- *. specialize (Hp Hrange).
    set (d := default 0 _) in *. cbn [clients next].
    destruct (tset_ok (table s) (clients b) c (LVal d) Hr) as (t' & Et & Rt); [by right|].
    exists t'. split; [|split; [done|apply Z.mod_pos_bound; lia]].
    erewrite mbind_run; cycle 1.
    { rewrite (mbind_run _ _ _ _ _ Hp).
      rewrite (mbind_run _ _ _ _ _ (lb_on_table _ (State (table s) _ (pkt s)) _ _ Et)). done. }
    by apply (lb_on_packet _ (State t' _ (pkt s)) tt), store_dst.
Qed.

Lemma outgoing_run cfg (s : state T) :
  config_ok cfg -> buffer (pkt s) ->
  outgoing cfg s =
  if bool_decide (field (pkt s) 4 o_src_addr ∈ servers cfg) then
    Ret (true, State (table s) (next_dip s) (write (pkt s) o_src_addr (le_bytes 4 (vip cfg))))
  else Ret (false, s).
Proof.
  intros Hc Hb. unfold outgoing.
  rewrite (mbind_run _ _ _ _ _ (lb_on_packet _ s _ _ (load_field (pkt s) 4 o_src_addr
    ltac:(apply buffer_acc; [done|offsets..])))).
  rewrite (found_dip_run cfg _ Hc). erewrite mbind_run by done.
  destruct (bool_decide _); [|by destruct s].
  by rewrite (mbind_run _ _ _ _ _ (lb_on_packet _ (State (table s) (next_dip s) (pkt s)) tt _
    (store_field _ 4 o_src_addr _ ltac:(apply buffer_acc; [done|offsets..])))).
Qed.

(** ** The handler refines the abstract load balancer *)

(** The forwarded packet: address [v] at [off], Ethernet addresses [sm] and [dm]. *)
Definition forwarded (m : mem) (off v : Z) (sm dm : list Z) : mem :=
  let m1 := write (write m o_hdr_checksum (le_bytes 2 0)) off (le_bytes 4 v) in
  let m2 := write m1 o_hdr_checksum (le_bytes 2 (rte_ipv4_cksum m1 o_ip)) in
  write (write m2 o_s_addr sm) o_d_addr dm.

Definition macs_of (cfg : nf_config) (dev : Z) (sm dm : list Z) : Prop :=
  device_macs cfg !! Z.to_nat dev = Some sm /\ endpoint_macs cfg !! Z.to_nat dev = Some dm /\
  mac_ok sm /\ mac_ok dm.

Definition dispatch_spec (cfg : nf_config) (dev : Z) (mb : rte_mbuf) (s : state T) (b : balancer)
    (r : result (Z * state T)) : Prop :=
  let p := pkt s in
  if valid mb p then
    if field p 4 o_dst_addr =? vip cfg then
      let '(d, b') := assign cfg b (LKey (field p 4 o_src_addr)) in
      exists s' sm dm, r = Ret (1 - dev, s') /\ lb_rep cfg s' b' /\
        pkt s' = forwarded p o_dst_addr d sm dm /\ macs_of cfg (1 - dev) sm dm
    else if bool_decide (field p 4 o_src_addr ∈ servers cfg) then
      exists s' sm dm, r = Ret (1 - dev, s') /\ lb_rep cfg s' b /\
        pkt s' = forwarded p o_src_addr (vip cfg) sm dm /\ macs_of cfg (1 - dev) sm dm
    else exists s', r = Ret (dev, s') /\ lb_rep cfg s' b /\ pkt s' = write p o_hdr_checksum (le_bytes 2 0)
  else r = Ret (dev, s).

(** The end of the handler: checksum and Ethernet addresses. *)
Lemma finish_run cfg dev (t : T) n m off v :
  config_ok cfg -> 0 <= dev < 2 -> buffer m ->
  let m1 := write (write m o_hdr_checksum (le_bytes 2 0)) off (le_bytes 4 v) in
  exists sm dm, macs_of cfg (1 - dev) sm dm /\
  (on_packet (m ← get; store_int 2 o_hdr_checksum (rte_ipv4_cksum m o_ip));;
   (if Z.lxor dev 1 =? dev then mret tt
    else on_packet (set_macs (device_macs cfg) (endpoint_macs cfg) (Z.lxor dev 1)));;
   mret (Z.lxor dev 1)) (State t n m1) = Ret (1 - dev, State t n (forwarded m off v sm dm)).
Proof.
  intros (Hdm & Hem & _) Hdev Hb m1.
  assert (Hx : Z.lxor dev 1 = 1 - dev) by (assert (dev = 0 \/ dev = 1) as [-> | ->] by lia; done).
  assert (Hb1 : buffer m1) by by repeat apply buffer_put.
  set (m2 := write m1 o_hdr_checksum (le_bytes 2 (rte_ipv4_cksum m1 o_ip))).
  destruct (set_macs_run _ _ (1 - dev) m2 Hdm Hem ltac:(lia)) as (sm & dm & Es & Ed & Ms & Md & Hm);
    [by apply buffer_put|]. exists sm, dm. split; [done|].
  rewrite (mbind_run _ _ _ tt (State t n m2)); cycle 1.
  { apply (lb_on_packet _ (State t n m1) tt). unfold get at 1. unfold mbind at 1, M_bind at 1.
    apply store_field, buffer_acc; [done|offsets..]. }
  rewrite Hx, (proj2 (Z.eqb_neq (1 - dev) dev)) by lia.
  by rewrite (mbind_run _ _ _ _ _ (lb_on_packet _ (State t n m2) _ _ Hm)).
Qed.

Lemma lb_dispatch_run cfg dev mb (s : state T) b :
  config_ok cfg -> 0 <= dev < 2 -> buffer (pkt s) -> lb_rep cfg s b -> room (clients b) ->
  dispatch_spec cfg dev mb s b (dispatch_packet cfg dev mb s).
Proof.
  intros Hc Hdev Hb Hr Hroom. unfold dispatch_spec, dispatch_packet. cbv zeta.
  rewrite (mbind_run _ _ _ _ _ (lb_on_packet _ s _ _ (parse_sport_run mb (pkt s) Hb))).
  destruct (valid mb (pkt s)); [|by destruct s]. cbv iota beta.
  destruct s as [t n m]. cbn [table next_dip pkt] in *.
  set (m0 := write m o_hdr_checksum (le_bytes 2 0)). assert (Hb0 : buffer m0) by by apply buffer_put.
  rewrite (mbind_run _ _ _ _ _ (lb_on_packet _ (State t n m) tt m0 (store_field m 2 o_hdr_checksum 0
    ltac:(apply buffer_acc; [done|offsets..])))). cbn [table next_dip].
  rewrite (mbind_run _ _ _ _ _ (lb_on_packet _ (State t n m0) _ _ (load_field m0 4 o_dst_addr
    ltac:(apply buffer_acc; [done|offsets..])))). cbn [table next_dip].
  assert (F : forall p, 26 <= p -> field m0 4 p = field m 4 p) by (intros p Hp; apply field_put_out; offsets).
  rewrite F by offsets. destruct (field m 4 o_dst_addr =? vip cfg).
  - pose proof (incoming_run cfg (State t n m0) b Hc Hr Hroom Hb0) as Hi. cbn [pkt] in Hi.
    rewrite F in Hi by offsets. destruct (assign cfg b _) as [d b'].
    destruct Hi as (t' & Ei & Rt & Rn).
    destruct (finish_run cfg dev t' (next b') m o_dst_addr d Hc Hdev Hb) as (sm & dm & Hm & E).
    exists (State t' (next b') (forwarded m o_dst_addr d sm dm)), sm, dm. split; [|done].
    by rewrite (mbind_assoc_run _ _ _ _ _ _ Ei).
  - pose proof (outgoing_run cfg (State t n m0) Hc Hb0) as Ho. cbn [pkt table next_dip] in Ho.
    rewrite F in Ho by offsets. destruct (bool_decide _).
    + destruct (finish_run cfg dev t n m o_src_addr (vip cfg) Hc Hdev Hb) as (sm & dm & Hm & E).
      exists (State t n (forwarded m o_src_addr (vip cfg) sm dm)), sm, dm. split; [|done].
      by rewrite (mbind_run _ _ _ _ _ Ho).
    + eexists. rewrite (mbind_run _ _ _ _ _ Ho). done.
Qed.

(** The fields of a forwarded packet. *)
Lemma forwarded_field m off v sm dm :
  off = o_src_addr \/ off = o_dst_addr -> mac_ok sm -> mac_ok dm -> 0 <= v < 2 ^ 32 ->
  field (forwarded m off v sm dm) 4 off = v /\
  forall k p, 12 <= p -> p + Z.of_nat k <= 24 \/ 26 <= p ->
    p + Z.of_nat k <= off \/ off + 4 <= p -> field (forwarded m off v sm dm) k p = field m k p.
Proof.
  intros Hoff [Ls _] [Ld _] Hv. unfold forwarded. cbv zeta. set (c := rte_ipv4_cksum _ _). split.
  - rewrite field_set_macs, field_put_out by (done || destruct Hoff; subst off; offsets).
    rewrite field_write_same. by apply Z.mod_small.
  - intros k p Hp H1 H2. rewrite field_set_macs by done.
    rewrite !field_put_out by (destruct Hoff; subst off; offsets). done.
Qed.
End Refine.

(** ** Round robin

    [turns cfg b cs]: [cs] are the clients seen, in order of their first packet; the
    [j]-th has server [j] modulo the number of servers. *)
Record turns (cfg : nf_config) (b : balancer) (cs : list lb_key) : Prop := {
  turn_nodup : NoDup cs;
  turn_dom : forall c, is_Some (clients b !! c) <-> c ∈ cs;
  turn_next : next b = Z.of_nat (length cs) `mod` n_servers cfg;
  turn_srv : forall j c, cs !! j = Some c ->
    exists d, servers cfg !! (j `mod` length (servers cfg))%nat = Some d /\ clients b !! c = Some (LVal d)
}.

Lemma servers_nonempty cfg : config_ok cfg -> (0 < length (servers cfg))%nat.
Proof. intros Hc. destruct (servers_cases cfg Hc) as (a & b & _ & _ & _ & _ & [[_ ->]|[_ ->]]); simpl; lia. Qed.

Lemma next_server cfg (cs : list lb_key) :
  config_ok cfg ->
  exists d, servers cfg !! Z.to_nat (Z.of_nat (length cs) `mod` n_servers cfg) = Some d /\
    servers cfg !! (length cs `mod` length (servers cfg))%nat = Some d.
Proof.
  intros Hc. pose proof (servers_nonempty cfg Hc). unfold n_servers.
  rewrite <- Nat2Z.inj_mod, Nat2Z.id.
  destruct (lookup_lt_is_Some_2 (servers cfg) (length cs `mod` length (servers cfg))%nat) as [d Hd].
  { apply Nat.mod_upper_bound. lia. }
  by exists d.
Qed.

(** A packet of a known client changes nothing; a new client takes the next turn. The
    server is always one of the configured ones. *)
Lemma assign_turns cfg b cs c :
  config_ok cfg -> turns cfg b cs ->
  let '(d, b') := assign cfg b c in
  d ∈ servers cfg /\ clients b' !! c = Some (LVal d) /\
  ((is_Some (clients b !! c) /\ b' = b) \/ ((c ∉ cs) /\ turns cfg b' (cs ++ [c]))).
Proof.
  intros Hc [ND Hdom Hnext Hsrv]. unfold assign. destruct (clients b !! c) as [v|] eqn:E.
  - assert (Hin : c ∈ cs) by (apply Hdom; eauto).
    apply list_elem_of_lookup in Hin as [j Hj]. destruct (Hsrv j c Hj) as (d & Hd & Hc').
    rewrite E in Hc'. injection Hc' as ->. split; [by eapply list_elem_of_lookup_2|].
    split; [done|]. left. split; [by eexists|done].
  - assert (Hnin : c ∉ cs) by (rewrite <- Hdom, E; by intros [? [=]]).
    destruct (next_server cfg cs Hc) as (d & H1 & H2). rewrite Hnext, H1. simpl.
    split; [by eapply list_elem_of_lookup_2|]. split; [by rewrite lookup_insert_eq|].
    right. split; [done|]. split; simpl.
    + apply list.NoDup_app. split; [done|]. split; [|apply NoDup_singleton].
      intros x Hx ->%list_elem_of_singleton. done.
    + intros x. rewrite elem_of_app, list_elem_of_singleton, lookup_insert_is_Some, Hdom.
      destruct (decide (c = x)) as [->|]; intuition congruence.
    + rewrite length_app, Nat2Z.inj_add. simpl. by rewrite Zplus_mod_idemp_l.
    + intros j x Hj. apply lookup_app_Some in Hj as [Hj|[Hlen Hj]].
      * destruct (Hsrv j x Hj) as (d' & Hd' & Hx). exists d'. split; [done|].
        rewrite lookup_insert_ne; [done|]. intros ->. congruence.
      * apply list_lookup_singleton_Some in Hj as [Hj <-].
        assert (j = length cs) as -> by lia. exists d. by rewrite lookup_insert_eq.
Qed.

Section Run.
Context `{Dpdk} {T : Type} {FT : FlowTable T lb_key lb_value} {OK : FlowTableOk T lb_key lb_value}.
Context (cfg : nf_config).
Hypothesis Hcfg : config_ok cfg.
(** A table that never fills, as the chained one. *)
Hypothesis Hroom : forall m, room m.

(** The persistent state of the balancer represents [b]. *)
Definition state_ok (tn : T * Z) (b : balancer) (cs : list lb_key) : Prop :=
  represents tn.1 (clients b) /\ tn.2 = next b /\ 0 <= next b < n_servers cfg /\ turns cfg b cs.

(** What happens to a packet. *)
Inductive outcome (b : balancer) (a : arrival) : balancer -> option Z * mem -> Prop :=
  | out_invalid : valid (a_mbuf a) (a_data a) = false -> outcome b a b (None, a_data a)
  | out_client d b' sm dm :
      valid (a_mbuf a) (a_data a) = true -> field (a_data a) 4 o_dst_addr = vip cfg ->
      assign cfg b (LKey (field (a_data a) 4 o_src_addr)) = (d, b') ->
      macs_of cfg (1 - a_device a) sm dm ->
      outcome b a b' (Some (1 - a_device a), forwarded (a_data a) o_dst_addr d sm dm)
  | out_server sm dm :
      valid (a_mbuf a) (a_data a) = true -> field (a_data a) 4 o_dst_addr <> vip cfg ->
      field (a_data a) 4 o_src_addr ∈ servers cfg ->
      macs_of cfg (1 - a_device a) sm dm ->
      outcome b a b (Some (1 - a_device a), forwarded (a_data a) o_src_addr (vip cfg) sm dm)
  | out_other :
      valid (a_mbuf a) (a_data a) = true -> field (a_data a) 4 o_dst_addr <> vip cfg ->
      field (a_data a) 4 o_src_addr ∉ servers cfg ->
      outcome b a b (None, write (a_data a) o_hdr_checksum (le_bytes 2 0)).

Lemma run_one_outcome a tn b cs :
  state_ok tn b cs -> arrival_ok a ->
  exists r tn' b' cs', run_one cfg a tn = Ret (r, tn') /\ outcome b a b' r /\ state_ok tn' b' (cs ++ cs').
Proof.
  intros (Hr & Hn & Hrange & Ht) [Hdev Hb]. destruct tn as [t n]. simpl in *. subst n.
  pose proof (lb_dispatch_run cfg (a_device a) (a_mbuf a) (State t (next b) (a_data a)) b Hcfg Hdev Hb
    ltac:(done) (Hroom _)) as Hd.
  unfold dispatch_spec in Hd. cbn [pkt] in Hd. unfold run_one.
  assert (Hx : (1 - a_device a =? a_device a) = false) by (apply Z.eqb_neq; lia).
  destruct (valid _ _) eqn:Hv; [destruct (Z.eqb_spec (field (a_data a) 4 o_dst_addr) (vip cfg)) as [Ed|Ed]|].
  - pose proof (assign_turns cfg b cs (LKey (field (a_data a) 4 o_src_addr)) Hcfg Ht) as Ha.
    destruct (assign cfg b _) as [d b'] eqn:Eas.
    destruct Hd as (s' & sm & dm & -> & (Hr' & Hn' & Hrange') & Hp & Hm). rewrite Hx, Hp.
    destruct Ha as (_ & _ & [[_ ->]|[_ Ht']]).
    + eexists _, _, b, []. split; [done|]. split; [by eapply out_client|]. rewrite app_nil_r. done.
    + eexists _, _, b', [_]. split; [done|]. split; [by eapply out_client|]. done.
  - destruct (bool_decide _) eqn:Es.
    + apply bool_decide_eq_true in Es.
      destruct Hd as (s' & sm & dm & -> & (Hr' & Hn' & Hrange') & Hp & Hm). rewrite Hx, Hp.
      eexists _, _, b, []. split; [done|]. split; [by eapply out_server|]. rewrite app_nil_r. done.
    + apply bool_decide_eq_false in Es.
      destruct Hd as (s' & -> & (Hr' & Hn' & Hrange') & Hp). rewrite Z.eqb_refl, Hp.
      eexists _, _, b, []. split; [done|]. split; [by eapply out_other|]. rewrite app_nil_r. done.
  - rewrite Hd, Z.eqb_refl. eexists _, _, b, []. split; [done|]. split; [by eapply out_invalid|].
    rewrite app_nil_r. done.
Qed.

(** The outcomes of a sequence. *)
Inductive outcomes : balancer -> list arrival -> balancer -> list (option Z * mem) -> Prop :=
  | outs_nil b : outcomes b [] b []
  | outs_cons b a b' r l b'' rs :
      outcome b a b' r -> outcomes b' l b'' rs -> outcomes b (a :: l) b'' (r :: rs).

Lemma lb_run_all l tn b cs :
  state_ok tn b cs -> Forall arrival_ok l ->
  exists rs tn' b' cs', run cfg l tn = Ret (rs, tn') /\ outcomes b l b' rs /\
    state_ok tn' b' (cs ++ cs').
Proof.
  intros Ht Hl. revert tn b cs Ht. induction Hl as [|a l Ha Hl IH]; intros tn b cs Ht.
  { exists [], tn, b, []. rewrite app_nil_r. split; [done|]. split; [constructor|done]. }
  destruct (run_one_outcome a tn b cs Ht Ha) as (r & tn1 & b1 & cs1 & E1 & O1 & H1).
  destruct (IH tn1 b1 (cs ++ cs1) H1) as (rs & tn2 & b2 & cs2 & E2 & O2 & H2).
  exists (r :: rs), tn2, b2, (cs1 ++ cs2). rewrite app_assoc. split; [|split; [by econstructor|done]].
  simpl. rewrite (mbind_run _ _ _ _ _ E1). by rewrite (mbind_run _ _ _ _ _ E2).
Qed.

(** Clients keep their server. *)
Lemma outcome_mono b a b' r c v :
  outcome b a b' r -> clients b !! c = Some v -> clients b' !! c = Some v.
Proof.
  intros O Hc. destruct O as [|d b' sm dm _ _ E _| |]; try done. unfold assign in E.
  destruct (clients b !! LKey _) eqn:Ec; simplify_eq; [done|]. simpl.
  rewrite lookup_insert_ne; [done|]. intros <-. congruence.
Qed.
Lemma outcomes_mono b l b' rs c v :
  outcomes b l b' rs -> clients b !! c = Some v -> clients b' !! c = Some v.
Proof. induction 1; intros Hc; [done|]. eauto using outcome_mono. Qed.

(** The load balancer on any sequence of packets: every packet has its outcome of
    the abstract balancer (clients to their server, servers' packets out under the
    virtual address, the rest dropped); the clients seen so far keep their place, new
    clients are appended in order of arrival, and the j-th client overall is on server
    j modulo the number of servers. *)
Theorem lb_round_robin l tn b cs :
  state_ok tn b cs -> Forall arrival_ok l ->
  exists rs tn' b' cs', run cfg l tn = Ret (rs, tn') /\ outcomes b l b' rs /\
    state_ok tn' b' (cs ++ cs').
Proof. exact (lb_run_all l tn b cs). Qed.

(** The two directions of a session. *)
Lemma client_outcome a b b' r cs :
  outcome b a b' r -> turns cfg b cs -> valid (a_mbuf a) (a_data a) = true ->
  field (a_data a) 4 o_dst_addr = vip cfg ->
  exists d p, r = (Some (1 - a_device a), p) /\ d ∈ servers cfg /\ field p 4 o_dst_addr = d /\
    clients b' !! LKey (field (a_data a) 4 o_src_addr) = Some (LVal d).
Proof.
  intros O Ht Hv Hd. destruct O as [|d b' sm dm _ _ E (_ & _ & Ms & Md)|sm dm _ Hd'|_ Hd']; try congruence.
  pose proof (assign_turns cfg b cs (LKey (field (a_data a) 4 o_src_addr)) Hcfg Ht) as Ha.
  rewrite E in Ha. destruct Ha as (Hin & Hc & _). exists d. eexists. split; [done|]. split; [done|].
  split; [|done]. apply forwarded_field; [by right|done|done|]. by apply (servers_range cfg).
Qed.
Lemma server_outcome a b b' r :
  outcome b a b' r -> valid (a_mbuf a) (a_data a) = true ->
  field (a_data a) 4 o_dst_addr <> vip cfg -> field (a_data a) 4 o_src_addr ∈ servers cfg ->
  exists p, r = (Some (1 - a_device a), p) /\ field p 4 o_src_addr = vip cfg.
Proof.
  intros O Hv Hd Hs. destruct O as [|d b' sm dm _ Hd'|sm dm _ _ _ (_ & _ & Ms & Md)|_ _ Hs'];
    try congruence; try done.
  eexists. split; [done|]. apply forwarded_field; [by left|done|done|]. apply Hcfg.
Qed.

(** A session through the balancer: a valid packet of a client to the virtual
    address is forwarded, unchanged but for its destination, to one of the servers;
    every later packet of that client, whatever comes in between, goes to the same
    server; and the packets of that server to the client leave under the virtual
    address. *)
Theorem lb_session a l tn b cs :
  state_ok tn b cs -> arrival_ok a -> Forall arrival_ok l ->
  valid (a_mbuf a) (a_data a) = true -> field (a_data a) 4 o_dst_addr = vip cfg ->
  exists d p tn1 rs tn2, d ∈ servers cfg /\
    run_one cfg a tn = Ret ((Some (1 - a_device a), p), tn1) /\ field p 4 o_dst_addr = d /\
    run cfg l tn1 = Ret (rs, tn2) /\
    forall a', arrival_ok a' -> valid (a_mbuf a') (a_data a') = true ->
      (field (a_data a') 4 o_dst_addr = vip cfg ->
       field (a_data a') 4 o_src_addr = field (a_data a) 4 o_src_addr ->
       exists p' tn3, run_one cfg a' tn2 = Ret ((Some (1 - a_device a'), p'), tn3) /\
         field p' 4 o_dst_addr = d) /\
      (field (a_data a') 4 o_dst_addr <> vip cfg -> field (a_data a') 4 o_src_addr = d ->
       exists p' tn3, run_one cfg a' tn2 = Ret ((Some (1 - a_device a'), p'), tn3) /\
         field p' 4 o_src_addr = vip cfg).
Proof.
  intros Ht Ha Hl Hv Hd.
  destruct (run_one_outcome a tn b cs Ht Ha) as (r & tn1 & b1 & cs1 & E1 & O1 & H1).
  destruct (lb_run_all l tn1 b1 (cs ++ cs1) H1 Hl) as (rs & tn2 & b2 & cs2 & E2 & O2 & H2).
  destruct (client_outcome a b b1 r cs O1 (proj2 (proj2 (proj2 Ht))) Hv Hd) as (d & p & -> & Hin & Hp & Hb1).
  exists d, p, tn1, rs, tn2. do 4 (split; [done|]). intros a' Ha' Hv'.
  destruct (run_one_outcome a' tn2 b2 _ H2 Ha') as (r' & tn3 & b3 & cs3 & E3 & O3 & _). split.
  - intros Hd' Hs'. destruct (client_outcome a' b2 b3 r' _ O3 (proj2 (proj2 (proj2 H2))) Hv' Hd')
      as (d' & p' & -> & _ & Hp' & Hb3). exists p', tn3. split; [done|].
    pose proof (outcome_mono _ _ _ _ _ _ O3 (outcomes_mono _ _ _ _ _ _ O2 Hb1)) as Hk.
    rewrite Hs' in Hb3. congruence.
  - intros Hd' Hs'. destruct (server_outcome a' b2 b3 r' O3 Hv' Hd') as (p' & -> & Hp'); [by rewrite Hs'|].
    by exists p', tn3.
Qed.
End Run.

(** One packet, on every branch: the handler refines the abstract balancer. An
    invalid packet comes back with its device, untouched; a packet to the virtual
    address is sent to the server [assign] gives its client; a packet from a server
    leaves with the virtual address as source; any other packet is dropped. *)
Theorem lb_dispatch_refines `{Dpdk} {T} {FT : FlowTable T lb_key lb_value}
    {OK : FlowTableOk T lb_key lb_value} cfg dev mb (s : state T) b :
  config_ok cfg -> 0 <= dev < 2 -> buffer (pkt s) -> lb_rep cfg s b -> room (clients b) ->
  dispatch_spec cfg dev mb s b (dispatch_packet cfg dev mb s).
Proof. exact (lb_dispatch_run cfg dev mb s b). Qed.

(** ** The program of dpdk-lb-basichash, and a concrete run *)
Abbreviation chain_t := (carray (list (Chain.hash_entry lb_key lb_value))).

#[export] Instance lb_chain : FlowTable chain_t lb_key lb_value :=
  Chain.chain_table lb_key_equals lb_hash_function.
#[export] Instance lb_chain_ok : FlowTableOk chain_t lb_key lb_value :=
  Chain.chain_ok lb_key_equals lb_hash_function lb_key_equals_spec.

Lemma lb_chain_room (m : gmap lb_key lb_value) : room (T := chain_t) m.
Proof. exact I. Qed.

Definition demo_config : nf_config :=
  Config [demo_mac 0; demo_mac 1] [demo_mac 2; demo_mac 3] 16820416 [16777226; 33554442].
(** Two clients and a server. *)
Definition client_packet : arrival := demo_arrival 0 [10; 1; 0; 1] [192; 168; 0; 1] [3; 232] [0; 53].
Definition client2_packet : arrival := demo_arrival 0 [10; 1; 0; 2] [192; 168; 0; 1] [3; 232] [0; 53].
Definition server_packet : arrival := demo_arrival 1 [10; 0; 0; 1] [10; 1; 0; 1] [0; 53] [3; 232].

Lemma lb_demo_config_ok : config_ok demo_config.
Proof.
  split_and!; simpl; try done; try (repeat constructor; try apply demo_mac_ok; lia).
  eexists _, _. split; [done|]. lia.
Qed.
Lemma client_packet_ok : arrival_ok client_packet.
Proof. demo_ok. Qed.
Lemma client2_packet_ok : arrival_ok client2_packet.
Proof. demo_ok. Qed.
Lemma server_packet_ok : arrival_ok server_packet.
Proof. demo_ok. Qed.

Definition start : balancer := Balancer ∅ 0.
Lemma start_turns : turns demo_config start [].
Proof.
  split; simpl; [constructor| |done|done].
  intros c. rewrite lookup_empty. split; [by intros [? [=]]|by intros ?%not_elem_of_nil].
Qed.
Lemma start_ok : state_ok demo_config (Chain.hash_init : chain_t, 0) start [].
Proof.
  split; [apply Chain.chain_init_rep|]. split; [done|]. split; [vm_compute; split; done|].
  apply start_turns.
Qed.

Lemma lb_round_robin_witness :
  exists rs tn' b' cs',
    run demo_config [client_packet; server_packet; client2_packet] (Chain.hash_init : chain_t, 0) =
      Ret (rs, tn') /\
    outcomes demo_config start [client_packet; server_packet; client2_packet] b' rs /\
    state_ok demo_config tn' b' ([] ++ cs').
Proof.
  refine (lb_round_robin (T := chain_t) demo_config lb_demo_config_ok lb_chain_room
    [client_packet; server_packet; client2_packet] (Chain.hash_init : chain_t, 0) start [] start_ok _).
  constructor; [exact client_packet_ok|]. constructor; [exact server_packet_ok|].
  constructor; [exact client2_packet_ok|constructor].
Defined.

Lemma lb_session_witness :
  exists d p tn1 rs tn2, d ∈ servers demo_config /\
    run_one demo_config client_packet (Chain.hash_init : chain_t, 0) = Ret ((Some 1, p), tn1) /\
    field p 4 o_dst_addr = d /\ run demo_config [client2_packet] tn1 = Ret (rs, tn2) /\
    exists p' tn3, run_one demo_config client_packet tn2 = Ret ((Some 1, p'), tn3) /\
      field p' 4 o_dst_addr = d.
Proof.
  destruct (lb_session (T := chain_t) demo_config lb_demo_config_ok lb_chain_room client_packet [client2_packet]
    (Chain.hash_init : chain_t, 0) start [] start_ok client_packet_ok
    ltac:(constructor; [exact client2_packet_ok|constructor]) ltac:(vm_compute; reflexivity)
    ltac:(vm_compute; reflexivity)) as (d & p & tn1 & rs & tn2 & Hd & E1 & Hp & E2 & Hl).
  exists d, p, tn1, rs, tn2. split; [exact Hd|]. split; [exact E1|]. split; [exact Hp|].
  split; [exact E2|].
  destruct (Hl client_packet client_packet_ok ltac:(vm_compute; reflexivity)) as [Hc _].
  exact (Hc ltac:(vm_compute; reflexivity) eq_refl).
Defined.

Lemma lb_dispatch_refines_witness :
  dispatch_spec demo_config 0 (a_mbuf client_packet) (State (Chain.hash_init : chain_t) 0 (a_data client_packet))
    start (dispatch_packet demo_config 0 (a_mbuf client_packet)
             (State (Chain.hash_init : chain_t) 0 (a_data client_packet))).
Proof.
  refine (lb_dispatch_refines (T := chain_t) demo_config 0 (a_mbuf client_packet)
    (State (Chain.hash_init : chain_t) 0 (a_data client_packet)) start lb_demo_config_ok _ _ _ (lb_chain_room _));
    [lia|apply client_packet_ok|].
  split; [apply Chain.chain_init_rep|]. split; [done|]. vm_compute; split; done.
Defined.

(** The address changes, the transport checksum, which covers it, does not. *)
Lemma lb_keeps_transport_checksum `{Dpdk} m off v sm dm ck :
  off = o_src_addr \/ off = o_dst_addr -> mac_ok sm -> mac_ok dm -> 0 <= v < 2 ^ 32 ->
  20 <= ihl_of m -> 0 <= ck ->
  field (forwarded m off v sm dm) 4 off = v /\
  field (forwarded m off v sm dm) 2 (l4_of m + ck) = field m 2 (l4_of m + ck).
Proof.
  intros Hoff Hs Hd Hv Hi Hck. destruct (forwarded_field m off v sm dm Hoff Hs Hd Hv) as [H1 H2].
  split; [done|]. apply H2; unfold l4_of; destruct Hoff; subst off; offsets.
Qed.
End Lb.
