(* ===== verification/ReplayTool.v ===== *)
(** * Replaying a test case: tools/klee-replay

    A test case (.ktest) is the list of the objects the program made symbolic, with
    their bytes. [Module KReplay] is the part of klee-replay.c that answers the calls
    of [klee_make_symbolic] with the objects of a test case, one after the other.
    [Module Feeder] has the parts of klee-replay that give the native program its
    input files: the loop that writes a file through a pipe or a pseudo-terminal, the
    check of the files created (file-creator.c) and the exit status. The host's calls
    are arguments. *)
From stdpp Require Import base gmap list numbers strings.
From Stdlib Require Import ZArith Lia.
From S2P Require Import Prelude CMem PosixState.

(** [KTestObject]: [numBytes] is the number of bytes. *)
Record KTestObject : Type := KTO { ob_name : string; ob_bytes : list Z }.
Definition numBytes (o : KTestObject) : Z := Z.of_nat (length (ob_bytes o)).

(** What [klee_make_symbolic] stores, then the store. *)
Definition make_object {S} (on_mem : M mem unit -> M S unit) (input : M S (list Z)) (addr : Z) : M S unit :=
  l ← input; on_mem (store_bytes addr l).

(** ** klee-replay *)
Module KReplay.

(** [input->objects], [obj_index] and the memory of the replayed initialisation. *)
Record replay : Type := Replay { objects : list KTestObject; obj_index : Z; rmem : mem }.

Definition on_mem {A} (m : M mem A) : M replay A :=
  zoom rmem (fun x s => Replay (objects s) (obj_index s) x) m.
Definition numObjects (s : replay) : Z := Z.of_nat (length (objects s)).

Definition emit_error {A} : M replay A := halt (Exit 1).
Definition klee_report_error {A} : M replay A := emit_error.

(** The bytes of the next object; [model_version] may be missing in old test cases. *)
Definition next_input (nbytes : Z) (name : string) : M replay (list Z) :=
  s ← get;
  if obj_index s >=? numObjects s then
    if String.eqb "model_version" name then assert_ (nbytes =? 4);; mret (le_bytes 4 0)
    else emit_error
  else
    boo ← of_option (objects s !! Z.to_nat (obj_index s));
    if String.eqb "model_version" name && negb (String.eqb "model_version" (ob_name boo)) then
      assert_ (nbytes =? 4);; mret (le_bytes 4 0)
    else if negb (numBytes boo =? nbytes) then halt (Exit 1)
    else
      put (Replay (objects s) (u32 (obj_index s + 1)) (rmem s));;
      mret (ob_bytes boo).

Definition klee_make_symbolic (addr nbytes : Z) (name : string) : M replay unit :=
  make_object on_mem (next_input nbytes name) addr.

Definition klee_range (start end_ : Z) (name : string) : M replay Z :=
  if start >=? end_ then halt (Exit 1)
  else if start + 1 =? end_ then mret start
  else
    l ← next_input 4 name;
    let r := s32 (le_value l) in
    if (r <? start) || (r >=? end_) then halt (Exit 1) else mret r.

Definition klee_assume (x : Z) : Z := 0.
Definition klee_is_symbolic (x : Z) : Z := 0.
End KReplay.

(** ** The files of the native program *)
Module Feeder.

Definition EINTR : Z := 4.
(** What a [write] of the host returns: a count, or -1 with [errno]. *)
Inductive wres : Type := Wrote (n : Z) | Failed (e : Z).
(** The end of the loop: all written, left by [break], or still writing after the
    rounds given. *)
Inductive fed : Type := Done (sent : list Z) | Broken (sent : list Z) | Writing (sent : list Z).

Section Feed.
(** The answer of the host to the [write] of each round, given the bytes asked for. *)
Context (host : nat -> Z -> wres) (contents : list Z).
Abbreviation flen := (Z.of_nat (length contents)).

(** [while (pos < flen) { int res = write(fd, &contents[pos], flen - pos); ... }];
    [sent] is what went into the pipe so far. *)
Fixpoint feed (rounds r : nat) (pos : Z) (sent : list Z) : fed :=
  if pos <? flen then
    match rounds with
    | O => Writing sent
    | S rounds =>
        match host r (flen - pos) with
        | Failed e => if e =? EINTR then feed rounds (S r) pos sent else Broken sent
        | Wrote n =>
            if nz n then
              feed rounds (S r) (u32 (pos + n)) (sent ++ take (Z.to_nat n) (drop (Z.to_nat pos) contents))
            else feed rounds (S r) pos sent
        end
    end
  else Done sent.

(** [write] never takes more than it was given, nor more than an [int] holds. *)
Hypothesis host_count : forall r k n, 0 < k -> host r k = Wrote n -> 0 <= n <= k /\ n < 2 ^ 31.
Hypothesis len_u32 : flen < 2 ^ 32.

(** A round whose [write] takes something, or fails for good. *)
Definition productive (r : nat) : Prop := forall k, 0 < k ->
  (exists n, host r k = Wrote n /\ 0 < n) \/ (exists e, host r k = Failed e /\ e <> EINTR).
(** How the loop ends: all is sent, or a [write] failed with an error other than [EINTR], and
    what comes before it is sent. *)
Definition ends (o : fed) : Prop :=
  o = Done contents \/
  exists pos r e, 0 <= pos < flen /\ host r (flen - pos) = Failed e /\ e <> EINTR /\
    o = Broken (take (Z.to_nat pos) contents).

Lemma feed_done rounds r pos :
  flen <= pos -> ends (feed rounds r pos (take (Z.to_nat pos) contents)).
Proof.
  intros Hp. left. destruct rounds; simpl; rewrite (proj2 (Z.ltb_ge pos flen)) by done;
    by rewrite take_ge by lia.
Qed.

(** One round: the position moves by what was written, the bytes sent are the contents
    up to it; unless the write fails for good. *)
Lemma feed_round rounds r pos :
  0 <= pos < flen ->
  ends (feed (S rounds) r pos (take (Z.to_nat pos) contents)) \/
  exists pos', pos <= pos' <= flen /\ (productive r -> pos < pos') /\
    feed (S rounds) r pos (take (Z.to_nat pos) contents) =
    feed rounds (S r) pos' (take (Z.to_nat pos') contents).
Proof.
  intros Hp. cbn [feed]. rewrite (proj2 (Z.ltb_lt pos flen)) by lia.
  destruct (host r (flen - pos)) as [n|e] eqn:Hh.
  - right. destruct (host_count r (flen - pos) n ltac:(lia) Hh) as [Hn _]. destruct (nz n) eqn:En.
    + exists (pos + n). split; [lia|]. apply nz_true in En. split; [lia|].
      rewrite u32_small by lia. f_equal. rewrite Z2Nat.inj_add by lia. by rewrite take_take_drop.
    + exists pos. split; [lia|]. split; [|done]. apply nz_false in En. intros Hpr.
      destruct (Hpr (flen - pos)) as [(k & Hk & ?)|(k & Hk & ?)]; [lia| |congruence].
      rewrite Hh in Hk. injection Hk as <-. lia.
  - destruct (Z.eqb_spec e EINTR) as [->|Hne]; [|by left; right; exists pos, r, e].
    right. exists pos. split; [lia|]. split; [|done]. intros Hpr.
    destruct (Hpr (flen - pos)) as [(k & Hk & ?)|(k & Hk & ?)]; [lia|congruence|congruence].
Qed.

(** Waiting for the next productive round, [i] rounds away. *)
Lemma feed_wait (B k : nat) :
  (forall r pos rounds, 0 <= pos <= flen -> flen - pos <= Z.of_nat k -> (B * k <= rounds)%nat ->
     ends (feed rounds r pos (take (Z.to_nat pos) contents))) ->
  forall i r pos rounds, 0 <= pos <= flen -> flen - pos <= Z.of_nat (S k) -> productive (r + i) ->
    (B * k + i + 1 <= rounds)%nat -> ends (feed rounds r pos (take (Z.to_nat pos) contents)).
Proof.
  intros IH i. induction i as [|i IHi]; intros r pos rounds Hp Hk Hpr Hr;
    (destruct (Z_lt_le_dec pos flen) as [Hlt|]; [|by apply feed_done]); (destruct rounds as [|rounds]; [lia|]);
    (destruct (feed_round rounds r pos) as [?|(pos' & Hp' & Hadv & ->)]; [lia|done|]).
  - rewrite Nat.add_0_r in Hpr. specialize (Hadv Hpr). apply IH; lia.
  - apply IHi; [lia|lia| |lia]. by replace (S r + i)%nat with (r + S i)%nat by lia.
Qed.

Lemma feed_all (B : nat) :
  (forall r, exists i, (i < B)%nat /\ productive (r + i)) ->
  forall k r pos rounds, 0 <= pos <= flen -> flen - pos <= Z.of_nat k -> (B * k <= rounds)%nat ->
    ends (feed rounds r pos (take (Z.to_nat pos) contents)).
Proof.
  intros HB k. induction k as [|k IH]; intros r pos rounds Hp Hk Hr.
  - apply feed_done. lia.
  - destruct (HB r) as (i & Hi & Hpr). apply (feed_wait B k IH i); [done|done|done|lia].
Qed.

(** C34. The loops of [create_pipe] and [create_char_dev] deliver the file: whatever the
    sizes the host writes at a time, when at most [B - 1] interrupted or empty writes
    come in a row, the loop ends within [B] rounds per byte. It has then sent exactly the
    contents, in order; or a write failed with an error other than [EINTR], which ends the
    loop, and exactly the contents before that write are sent. *)
Theorem pipe_delivers (B : nat) :
  (forall r, exists i, (i < B)%nat /\ productive (r + i)) ->
  let o := feed (B * length contents) 0 0 [] in
  o = Done contents \/
  exists pos r e, 0 <= pos < flen /\ host r (flen - pos) = Failed e /\ e <> EINTR /\
    o = Broken (take (Z.to_nat pos) contents).
Proof.
  intros HB. apply (feed_all B HB (length contents) 0 0); lia.
Qed.
End Feed.

(** A host that interrupts every third write and otherwise takes up to two bytes. *)
Definition demo_host (r : nat) (k : Z) : wres :=
  if (r mod 3 =? 2)%nat then Failed EINTR else Wrote (Z.min k 2).
(** A host that breaks the pipe after three writes. *)
Definition EPIPE : Z := 32.
Definition broken_host (r : nat) (k : Z) : wres := if (r <? 3)%nat then demo_host r k else Failed EPIPE.

Lemma demo_host_count r k n : 0 < k -> demo_host r k = Wrote n -> 0 <= n <= k /\ n < 2 ^ 31.
Proof. unfold demo_host. case_match; [done|]. intros Hk [= <-]. lia. Qed.
Lemma demo_host_productive r : exists i, (i < 2)%nat /\ productive demo_host (r + i).
Proof.
  assert (Hp : forall q, (q mod 3 =? 2)%nat = false -> productive demo_host q).
  { intros q Hq k Hk. left. unfold demo_host. rewrite Hq. exists (Z.min k 2). split; [done|lia]. }
  destruct (r mod 3 =? 2)%nat eqn:Er.
  - exists 1%nat. split; [lia|]. apply Hp. apply Nat.eqb_eq in Er. apply Nat.eqb_neq.
    pose proof (Nat.div_mod_eq r 3). pose proof (Nat.div_mod_eq (r + 1) 3).
    pose proof (Nat.mod_upper_bound (r + 1) 3). lia.
  - exists 0%nat. split; [lia|]. apply Hp. by rewrite Nat.add_0_r.
Qed.

Lemma pipe_delivers_witness : feed demo_host [1; 2; 3; 4; 5] (2 * 5) 0 0 [] = Done [1; 2; 3; 4; 5].
Proof.
  destruct (pipe_delivers demo_host [1; 2; 3; 4; 5] demo_host_count ltac:(simpl; lia) 2 demo_host_productive)
    as [E|(pos & r & e & _ & E & Hne & _)]; [exact E|].
  exfalso. unfold demo_host in E. destruct (r mod 3 =? 2)%nat; [|discriminate E]. injection E as <-. by apply Hne.
Defined.
Example broken_pipe : feed broken_host [1; 2; 3; 4; 5] (2 * 5) 0 0 [] = Broken [1; 2; 3; 4].
Proof. vm_compute. reflexivity. Qed.

(** ** The check of the created files, and the exit status *)
Inductive warning : Type :=
  | StatFailure | DevMismatch | ModeMismatch | NlinkMismatch | UidMismatch | GidMismatch
  | RdevMismatch | SizeMismatch | BlksizeMismatch | BlocksMismatch.

(** [res] and [s]: what [stat] of the created file returned; [d]: the symbolic file. *)
Definition check_file (res : Z) (s d : stat64) : list warning :=
  if res <? 0 then [StatFailure]
  else
    (if negb (st_dev s =? st_dev d) then [DevMismatch] else []) ++
    (if negb (st_mode s =? st_mode d) then [ModeMismatch] else []) ++
    (if negb (st_nlink s =? st_nlink d) then [NlinkMismatch] else []) ++
    (if negb (st_uid s =? st_uid d) then [UidMismatch] else []) ++
    (if negb (st_gid s =? st_gid d) then [GidMismatch] else []) ++
    (if negb (st_rdev s =? st_rdev d) then [RdevMismatch] else []) ++
    (if negb (st_size s =? st_size d) then [SizeMismatch] else []) ++
    (if negb (st_blksize s =? st_blksize d) then [BlksizeMismatch] else []) ++
    (if negb (st_blocks s =? st_blocks d) then [BlocksMismatch] else []).

Lemma warn_nil (a b : Z) (w : warning) (l : list warning) :
  (if negb (a =? b) then [w] else []) ++ l = [] <-> a = b /\ l = [].
Proof. destruct (Z.eqb_spec a b); simpl; split; try (by intros [? ?]); done. Qed.

(** The check is silent exactly when the created file has the fields of the symbolic one. *)
Lemma check_file_silent res s d :
  check_file res s d = [] <->
  0 <= res /\ st_dev s = st_dev d /\ st_mode s = st_mode d /\ st_nlink s = st_nlink d /\
  st_uid s = st_uid d /\ st_gid s = st_gid d /\ st_rdev s = st_rdev d /\ st_size s = st_size d /\
  st_blksize s = st_blksize d /\ st_blocks s = st_blocks d.
Proof.
  unfold check_file. destruct (Z.ltb_spec res 0); [split; [done|lia]|].
  rewrite <- (app_nil_r (if negb (st_blocks s =? _) then _ else _)). rewrite !warn_nil. tauto.
Qed.

(** The wait status macros of <sys/wait.h>. *)
Definition WTERMSIG (status : Z) : Z := Z.land status 127.
Definition WIFEXITED (status : Z) : bool := WTERMSIG status =? 0.
Definition WIFSIGNALED (status : Z) : bool := 0 <? Z.shiftr (s8 (WTERMSIG status + 1)) 1.
Definition WEXITSTATUS (status : Z) : Z := Z.shiftr (Z.land status 65280) 8.

Definition process_status {S A} (status : Z) : M S A :=
  if WIFSIGNALED status then halt (Exit 77)
  else if WIFEXITED status then halt (Exit (WEXITSTATUS status))
  else halt (Exit 0).

(** klee-replay exits with the code of a program that exited, with 77 for one killed by
    a signal. *)
Lemma process_status_exited {S A} (s : S) rc :
  0 <= rc < 256 -> process_status (A := A) (Z.shiftl rc 8) s = Stop (Exit rc).
Proof.
  intros Hrc. unfold process_status, WIFSIGNALED, WIFEXITED, WTERMSIG, WEXITSTATUS.
  assert (E0 : Z.land (Z.shiftl rc 8) 127 = 0).
  { apply Z.bits_inj'. intros i Hi. rewrite Z.land_spec, Z.bits_0.
    destruct (Z.lt_ge_cases i 8); [by rewrite Z.shiftl_spec_low by lia|].
    change 127 with (Z.ones 7). rewrite Z.ones_spec_high by lia. apply andb_false_r. }
  rewrite E0. change (0 <? Z.shiftr (s8 (0 + 1)) 1) with false. cbv iota.
  change (0 =? 0) with true. cbv iota. unfold halt. do 2 f_equal.
  apply Z.bits_inj'. intros i Hi. rewrite Z.shiftr_spec, Z.land_spec, Z.shiftl_spec by lia.
  replace (i + 8 - 8) with i by lia. destruct (Z.lt_ge_cases i 8).
  - change 65280 with (Z.shiftl (Z.ones 8) 8). rewrite Z.shiftl_spec by lia.
    replace (i + 8 - 8) with i by lia. rewrite Z.ones_spec_low by lia. apply andb_true_r.
  - by rewrite (testbit_high 8 rc i) by lia.
Qed.

Lemma process_status_signaled {S A} (s : S) sig :
  1 <= sig < 127 -> process_status (A := A) sig s = Stop (Exit 77).
Proof.
  intros Hs. unfold process_status, WIFSIGNALED, WTERMSIG. change 127 with (Z.ones 7).
  rewrite Z.land_ones, Z.mod_small by lia. unfold s8. rewrite sext_small by lia.
  rewrite Z.shiftr_div_pow2 by lia. rewrite (proj2 (Z.ltb_lt 0 _)); [done|].
  apply Z.div_str_pos. lia.
Qed.
End Feeder.
