(* ===== verification/KTestFile.v ===== *)
(** * The test case file

    The .ktest files CASTAN and KLEE write for every path and the replayers read:
    lib/Basic/KTest.cpp, which is C in a C++ file. A file is a list of bytes; the
    reader consumes it from the front, the writer appends to it. [fread] and
    [fwrite] of one item of [n] bytes return 1 only if [n] is not 0 and all the bytes
    are there, as the C standard says; the host accepts what is written and memory
    can be allocated. *)
From stdpp Require Import base gmap list numbers strings.
From Stdlib Require Import ZArith Lia.
From S2P Require Import Prelude CMem.

Module KTestFile.

Definition KTEST_VERSION : Z := 3.
Definition KTEST_MAGIC_SIZE : Z := 5.
Definition KTEST_MAGIC : list Z := [75; 84; 69; 83; 84].
Definition BOUT_MAGIC : list Z := [66; 79; 85; 84; 10].

(** [numBytes], [numArgs] and [numObjects] are the lengths of the lists; a string is
    the bytes before its NUL. *)
Record KTestObject : Type := KObj { name : list Z; bytes : list Z }.
Record KTest : Type := KTest_ {
  version : Z;
  args : list (list Z);
  symArgvs : Z;
  symArgvLen : Z;
  objects : list KTestObject
}.

Abbreviation file := (list Z).
Abbreviation len l := (Z.of_nat (length l)).

(** ** Reading *)

(** [fread(buf, n, 1, f) == 1], with the bytes read. *)
Definition fread (n : Z) : M file (option (list Z)) := fun f =>
  if (n =? 0) || (len f <? n) then Ret (None, if n =? 0 then f else [])
  else Ret (Some (take (Z.to_nat n) f), drop (Z.to_nat n) f).

(** [if (!e) goto error;] *)
Definition try_ {A B} (m : M file (option A)) (k : A -> M file (option B)) : M file (option B) :=
  r ← m; match r with Some a => k a | None => mret None end.

Definition read_uint32 : M file (option Z) :=
  try_ (fread 4) (fun data =>
    match data with
    | [d0; d1; d2; d3] =>
        mret (Some (u32 (Z.shiftl (Z.shiftl (Z.shiftl d0 8 + d1) 8 + d2) 8 + d3)))
    | _ => mret None
    end).

(** The buffer of [malloc(len+1)] has [len+1] bytes modulo 2^32. *)
Definition read_string : M file (option (list Z)) :=
  try_ read_uint32 (fun n =>
    f ← get;
    if u32 (n + 1) <? Z.min n (len f) then halt MemError else fread n).

Definition kTest_checkHeader : M file (option unit) :=
  try_ (fread KTEST_MAGIC_SIZE) (fun header =>
    if bool_decide (header = KTEST_MAGIC) || bool_decide (header = BOUT_MAGIC)
    then mret (Some tt) else mret None).

(** [for (i=0; i<n; i++) if (!item) goto error;] *)
Fixpoint read_list {A} (n : nat) (item : M file (option A)) : M file (option (list A)) :=
  match n with
  | O => mret (Some [])
  | S n => try_ item (fun a => try_ (read_list n item) (fun l => mret (Some (a :: l))))
  end.

(** The number of items comes from the file, so the loop is bounded by the file: an
    item takes at least four bytes. *)
Definition read_items {A} (n : Z) (item : M file (option A)) : M file (option (list A)) :=
  f ← get;
  if len f <? n then r ← read_list (length f) item; mret None
  else read_list (Z.to_nat n) item.

Definition read_object : M file (option KTestObject) :=
  try_ read_string (fun nm =>
  try_ read_uint32 (fun numBytes =>
  try_ (fread numBytes) (fun b =>
  mret (Some (KObj nm b))))).

Definition kTest_fromFile : M file (option KTest) :=
  try_ kTest_checkHeader (fun _ =>
  try_ read_uint32 (fun version =>
  if version >? KTEST_VERSION then mret None else
  try_ read_uint32 (fun numArgs =>
  try_ (read_items numArgs read_string) (fun args =>
  try_ (if version >=? 2 then
          try_ read_uint32 (fun a => try_ read_uint32 (fun b => mret (Some (a, b))))
        else mret (Some (0, 0))) (fun sym =>
  try_ read_uint32 (fun numObjects =>
  try_ (read_items numObjects read_object) (fun objects =>
  mret (Some (KTest_ version args (fst sym) (snd sym) objects))))))))).

Definition kTest_isKTestFile (f : file) : bool :=
  match kTest_checkHeader f with Ret (Some _, _) => true | _ => false end.

(** ** Writing *)

(** [fwrite(l, len, 1, f) == 1] *)
Definition fwrite (l : list Z) : M file bool := fun f =>
  if len l =? 0 then Ret (false, f) else Ret (true, f ++ l).

(** [if (!e) goto error;] *)
Definition and_then (m k : M file bool) : M file bool :=
  b ← m; if (b : bool) then k else mret false.

Definition write_uint32 (v : Z) : M file bool :=
  fwrite [u8 (Z.shiftr v 24); u8 (Z.shiftr v 16); u8 (Z.shiftr v 8); u8 v].

Definition write_string (value : list Z) : M file bool :=
  and_then (write_uint32 (u32 (len value))) (fwrite value).

Fixpoint write_list {A} (item : A -> M file bool) (l : list A) : M file bool :=
  match l with
  | [] => mret true
  | a :: l => and_then (item a) (write_list item l)
  end.

Definition write_object (o : KTestObject) : M file bool :=
  and_then (write_string (name o))
  (and_then (write_uint32 (u32 (len (bytes o)))) (fwrite (bytes o))).

Definition kTest_toFile (bo : KTest) : M file bool :=
  and_then (fwrite KTEST_MAGIC)
  (and_then (write_uint32 KTEST_VERSION)
  (and_then (write_uint32 (u32 (len (args bo))))
  (and_then (write_list write_string (args bo))
  (and_then (write_uint32 (symArgvs bo))
  (and_then (write_uint32 (symArgvLen bo))
  (and_then (write_uint32 (u32 (len (objects bo))))
  (write_list write_object (objects bo)))))))).

Definition kTest_numBytes (bo : KTest) : Z :=
  foldl (fun res o => u32 (res + len (bytes o))) 0 (objects bo).

(** ** The format

    The bytes of each part, what the writer appends and what the reader takes off. *)
Definition enc_u32 (v : Z) : list Z := [u8 (Z.shiftr v 24); u8 (Z.shiftr v 16); u8 (Z.shiftr v 8); u8 v].
Definition enc_string (l : list Z) : list Z := enc_u32 (len l) ++ l.
Definition enc_object (o : KTestObject) : list Z := enc_string (name o) ++ enc_string (bytes o).
Definition enc_ktest (t : KTest) : list Z :=
  KTEST_MAGIC ++ enc_u32 KTEST_VERSION ++ enc_u32 (len (args t)) ++ concat (enc_string <$> args t) ++
  enc_u32 (symArgvs t) ++ enc_u32 (symArgvLen t) ++ enc_u32 (len (objects t)) ++
  concat (enc_object <$> objects t).

Definition is_u32 (z : Z) : Prop := 0 <= z < 2 ^ 32.
(** What a file can hold: no empty string, no empty object. *)
Definition string_ok (l : list Z) : Prop := 0 < len l < 2 ^ 32 - 1.
Definition object_ok (o : KTestObject) : Prop := string_ok (name o) /\ 0 < len (bytes o) < 2 ^ 32.
Definition ktest_ok (t : KTest) : Prop :=
  version t = KTEST_VERSION /\ is_u32 (len (args t)) /\ Forall string_ok (args t) /\
  is_u32 (symArgvs t) /\ is_u32 (symArgvLen t) /\ is_u32 (len (objects t)) /\
  Forall object_ok (objects t).

(** [writes m l]: the writer succeeds and appends [l]. [reads m l a]: the reader takes
    exactly [l] off any input that starts with it, and returns [a]. *)
Definition writes (m : M file bool) (l : list Z) : Prop := forall f, m f = Ret (true, f ++ l).
Definition reads {A} (m : M file (option A)) (l : list Z) (a : A) : Prop :=
  forall rest, m (l ++ rest) = Ret (Some a, rest).

Lemma writes_and m1 m2 l1 l2 : writes m1 l1 -> writes m2 l2 -> writes (and_then m1 m2) (l1 ++ l2).
Proof.
  intros H1 H2 f. unfold and_then. rewrite (mbind_run _ _ _ _ _ (H1 f)). cbv iota. rewrite H2.
  by rewrite app_assoc.
Qed.
Lemma writes_fwrite l : 0 < len l -> writes (fwrite l) l.
Proof. intros Hl f. unfold fwrite. by rewrite (proj2 (Z.eqb_neq _ _)) by lia. Qed.
Lemma writes_u32 v : writes (write_uint32 v) (enc_u32 v).
Proof. by apply writes_fwrite. Qed.
Lemma writes_list {A} (item : A -> M file bool) (enc : A -> list Z) l :
  Forall (fun a => writes (item a) (enc a)) l -> writes (write_list item l) (concat (enc <$> l)).
Proof.
  induction 1 as [|a l Ha Hl IH]; [intros f; by rewrite app_nil_r|]. by apply writes_and.
Qed.

Lemma reads_try {A B} (m : M file (option A)) (k : A -> M file (option B)) l1 l2 a b :
  reads m l1 a -> reads (k a) l2 b -> reads (try_ m k) (l1 ++ l2) b.
Proof.
  intros H1 H2 rest. unfold try_. rewrite <- app_assoc.
  rewrite (mbind_run _ _ _ _ _ (H1 (l2 ++ rest))). cbv iota. apply H2.
Qed.
Lemma reads_ret {A} (a : A) : reads (mret (Some a)) [] a.
Proof. by intros rest. Qed.
Lemma reads_try_ret {A B} (m : M file (option A)) (k : A -> M file (option B)) l a b :
  reads m l a -> reads (k a) [] b -> reads (try_ m k) l b.
Proof. intros H1 H2. rewrite <- (app_nil_r l). by apply (reads_try m k l [] a). Qed.

Lemma reads_fread l n : n = len l -> 0 < n -> reads (fread n) l l.
Proof.
  intros -> Hl rest. unfold fread. rewrite length_app.
  rewrite (proj2 (Z.eqb_neq _ _)), (proj2 (Z.ltb_ge _ _)) by lia. simpl.
  rewrite Nat2Z.id, take_app_length, drop_app_length. done.
Qed.

(** Big-endian digits. *)
Lemma u32_digits v : is_u32 v ->
  u32 (Z.shiftl (Z.shiftl (Z.shiftl (u8 (Z.shiftr v 24)) 8 + u8 (Z.shiftr v 16)) 8 + u8 (Z.shiftr v 8)) 8 + u8 v) = v.
Proof.
  unfold is_u32. intros Hv. unfold u8. rewrite !Z.shiftl_mul_pow2, !Z.shiftr_div_pow2 by lia.
  rewrite <- (u32_small v) at 5 by lia. f_equal.
  pose proof (Z.div_mod v (2 ^ 8) ltac:(lia)). pose proof (Z.div_mod (v / 2 ^ 8) (2 ^ 8) ltac:(lia)).
  pose proof (Z.div_mod (v / 2 ^ 8 / 2 ^ 8) (2 ^ 8) ltac:(lia)).
  pose proof (Z.div_lt_upper_bound (v / 2 ^ 8 / 2 ^ 8 / 2 ^ 8) 1 256 ltac:(lia)) as Hb.
  change (2 ^ 24) with (2 ^ 8 * 2 ^ 8 * 2 ^ 8). change (2 ^ 16) with (2 ^ 8 * 2 ^ 8).
  rewrite <- !Z.div_div by lia. rewrite (Z.mod_small (v / 2 ^ 8 / 2 ^ 8 / 2 ^ 8)); [lia|].
  rewrite !Z.div_div by lia. split; [apply Z.div_pos; lia|apply Z.div_lt_upper_bound; lia].
Qed.

Lemma reads_u32 v : is_u32 v -> reads read_uint32 (enc_u32 v) v.
Proof.
  intros Hv. unfold read_uint32. eapply reads_try_ret; [apply reads_fread; [done|lia]|].
  unfold enc_u32. rewrite u32_digits by done. apply reads_ret.
Qed.

Lemma reads_string l : string_ok l -> reads read_string (enc_string l) l.
Proof.
  intros Hl. unfold string_ok in Hl. unfold read_string. apply (reads_try _ _ _ _ (len l)).
  { apply reads_u32. unfold is_u32. lia. }
  intros rest. unfold get. cbv beta iota delta [mbind M_bind]. rewrite u32_small by lia.
  rewrite (proj2 (Z.ltb_ge _ _)) by lia. apply reads_fread; [done|lia].
Qed.

Lemma reads_object o : object_ok o -> reads read_object (enc_object o) o.
Proof.
  intros [Hn Hb]. unfold read_object, enc_object. apply (reads_try _ _ _ _ (name o)); [by apply reads_string|].
  unfold enc_string. apply (reads_try _ _ _ _ (len (bytes o))); [apply reads_u32; unfold is_u32; lia|].
  eapply reads_try_ret; [apply reads_fread; [done|lia]|]. destruct o. apply reads_ret.
Qed.

Lemma reads_list {A} (item : M file (option A)) (enc : A -> list Z) l :
  Forall (fun a => reads item (enc a) a) l -> reads (read_list (length l) item) (concat (enc <$> l)) l.
Proof.
  induction 1 as [|a l Ha Hl IH]; [apply reads_ret|]. cbn [length read_list fmap list_fmap concat].
  apply (reads_try _ _ _ _ a); [done|]. eapply reads_try_ret; [done|]. apply reads_ret.
Qed.

(** Every item takes at least one byte, so the bound of the loop is not reached. *)
Lemma concat_length {A} (enc : A -> list Z) l :
  Forall (fun a => 0 < len (enc a)) l -> len l <= len (concat (enc <$> l)).
Proof.
  induction 1 as [|a l Ha Hl IH]; [done|]. cbn [fmap list_fmap concat length].
  rewrite length_app. unfold fmap in *. lia.
Qed.

Lemma reads_items {A} (item : M file (option A)) (enc : A -> list Z) l :
  Forall (fun a => reads item (enc a) a /\ 0 < len (enc a)) l ->
  reads (read_items (len l) item) (concat (enc <$> l)) l.
Proof.
  intros Hl rest. unfold read_items, get. cbv beta iota delta [mbind M_bind].
  pose proof (concat_length enc l ltac:(eapply Forall_impl; [exact Hl|]; by intros a [_ ?])) as Hc.
  rewrite length_app. rewrite (proj2 (Z.ltb_ge _ _)) by lia. rewrite Nat2Z.id.
  apply (reads_list item enc l). eapply Forall_impl; [exact Hl|]. by intros a [? _].
Qed.

Lemma enc_string_pos l : 0 < len (enc_string l).
Proof. unfold enc_string. rewrite length_app. simpl. lia. Qed.

Lemma writes_string l : string_ok l -> writes (write_string l) (enc_string l).
Proof.
  unfold string_ok. intros Hl. unfold write_string. rewrite u32_small by lia.
  apply writes_and; [apply writes_u32|apply writes_fwrite; lia].
Qed.
Lemma writes_object o : object_ok o -> writes (write_object o) (enc_object o).
Proof.
  intros [Hn Hb]. unfold write_object. rewrite u32_small by lia.
  apply writes_and; [by apply writes_string|]. apply writes_and; [apply writes_u32|apply writes_fwrite; lia].
Qed.

Lemma writes_ktest t : ktest_ok t -> writes (kTest_toFile t) (enc_ktest t).
Proof.
  intros (_ & Ha & Hs & _ & _ & Ho & Hob). unfold kTest_toFile. unfold is_u32 in *.
  rewrite !u32_small by lia. unfold enc_ktest.
  apply writes_and; [by apply writes_fwrite|]. apply writes_and; [apply writes_u32|].
  apply writes_and; [apply writes_u32|].
  apply writes_and; [apply writes_list; eapply Forall_impl; [exact Hs|]; apply writes_string|].
  do 3 (apply writes_and; [apply writes_u32|]).
  apply writes_list. eapply Forall_impl; [exact Hob|]. apply writes_object.
Qed.

Lemma reads_header : reads kTest_checkHeader KTEST_MAGIC tt.
Proof. unfold kTest_checkHeader. eapply reads_try_ret; [by apply reads_fread|]. apply reads_ret. Qed.

Lemma reads_ktest t : ktest_ok t -> reads kTest_fromFile (enc_ktest t) t.
Proof.
  intros (Hv & Ha & Hs & H1 & H2 & Ho & Hob). unfold kTest_fromFile, enc_ktest.
  apply (reads_try _ _ _ _ tt); [apply reads_header|].
  apply (reads_try _ _ _ _ KTEST_VERSION); [by apply reads_u32|].
  change (KTEST_VERSION >? KTEST_VERSION) with false. cbv iota.
  apply (reads_try _ _ _ _ (len (args t))); [by apply reads_u32|].
  apply (reads_try _ _ _ _ (args t)).
  { apply reads_items. eapply Forall_impl; [exact Hs|]. intros l Hl.
    split; [by apply reads_string|apply enc_string_pos]. }
  change (KTEST_VERSION >=? 2) with true. cbv iota. rewrite (app_assoc (enc_u32 (symArgvs t))).
  apply (reads_try _ _ _ _ (symArgvs t, symArgvLen t)).
  { apply (reads_try _ _ _ _ (symArgvs t)); [by apply reads_u32|].
    eapply reads_try_ret; [by apply reads_u32|apply reads_ret]. }
  apply (reads_try _ _ _ _ (len (objects t))); [by apply reads_u32|].
  apply (reads_try_ret _ _ _ (objects t)); [|destruct t; simpl in *; subst; apply reads_ret].
  apply reads_items. eapply Forall_impl; [exact Hob|]. intros o Hoo. split; [by apply reads_object|].
  unfold enc_object. rewrite length_app. pose proof (enc_string_pos (name o)). lia.
Qed.

(** C40. A test case written to a file is read back the same: [kTest_toFile] succeeds on
    every test case without empty arguments, names or objects, and [kTest_fromFile]
    returns from the file exactly that test case, whatever follows it. *)
Theorem ktest_roundtrip (t : KTest) (rest : list Z) :
  ktest_ok t ->
  exists f, kTest_toFile t [] = Ret (true, f) /\ kTest_isKTestFile f = true /\
    kTest_fromFile (f ++ rest) = Ret (Some t, rest).
Proof.
  intros Ht. exists (enc_ktest t). split; [apply (writes_ktest t Ht)|].
  split; [|apply (reads_ktest t Ht)].
  unfold kTest_isKTestFile, enc_ktest. by rewrite reads_header.
Qed.

Definition demo_test : KTest :=
  KTest_ 3 [[97; 46; 111]; [45; 120]] 0 0 [KObj [110] [1; 2; 3; 4]; KObj [65; 45; 100] [7]].
Lemma ktest_roundtrip_witness :
  exists f, kTest_toFile demo_test [] = Ret (true, f) /\ kTest_isKTestFile f = true /\
    kTest_fromFile (f ++ [1; 2]) = Ret (Some demo_test, [1; 2]).
Proof.
  refine (ktest_roundtrip demo_test [1; 2] _).
  repeat split; simpl; unfold string_ok; repeat constructor; simpl; lia.
Defined.

(** An empty argument: [fwrite] of a zero-sized item returns 0, which the writer takes
    for an error, although the standard defines it. *)
Lemma empty_argument_not_written t pre post :
  Forall string_ok pre -> args t = pre ++ [] :: post -> is_u32 (len (args t)) ->
  exists f, kTest_toFile t [] = Ret (false, f).
Proof.
  intros Hpre Ha Hn. unfold kTest_toFile.
  assert (Hl : exists l, forall f, write_list write_string (args t) f = Ret (false, f ++ l)).
  { rewrite Ha. clear Ha. induction Hpre as [|x pre Hx Hpre [l IH]].
    - exists (enc_u32 0). intros f. done.
    - exists (enc_string x ++ l). intros f. cbn [app write_list]. unfold and_then.
      rewrite (mbind_run _ _ _ _ _ (writes_string x Hx f)). cbv iota. by rewrite IH, app_assoc. }
  destruct Hl as [l Hl]. unfold and_then at 1. rewrite (mbind_run _ _ _ _ _ (writes_fwrite KTEST_MAGIC ltac:(done) [])).
  cbv iota. unfold and_then at 1. rewrite (mbind_run _ _ _ _ _ (writes_u32 KTEST_VERSION _)). cbv iota.
  unfold and_then at 1. rewrite (mbind_run _ _ _ _ _ (writes_u32 _ _)). cbv iota.
  unfold and_then at 1. rewrite (mbind_run _ _ _ _ _ (Hl _)). by eexists.
Qed.
End KTestFile.
