(* ===== verification/ReplayFile.v ===== *)
(** * The replay library, recorded inputs and test case files

    The library a native program is linked with to run on a test case ([Runtest]), the two
    replayers on recorded inputs ([Inputs]), and a file in between ([ReplayFile]). *)
From stdpp Require Import base gmap list numbers strings.
From Stdlib Require Import ZArith Lia Ascii.
From S2P Require Import Prelude CMem ReplayTool KTestFile.

(** * Replaying a test case: runtime/Runtest

    The functions of runtime/Runtest/intrinsics.c. The environment variables, [rand] and the
    reader of .ktest files (C++) are arguments. *)
Module Runtest.

(** [getenv("KLEE_RANDOM")] is set; the values of successive [rand()] after seeding;
    the test case found through KTEST_FILE or the prompt and read by
    [kTest_fromFile], [None] where the program exits. *)
Class Env : Type := {
  KLEE_RANDOM : bool;
  rand : Z -> Z;
  find_ktest : option (list KTestObject)
}.

Record runtest : Type := Run {
  rand_init : Z;
  n_rand : Z;
  testData : option (list KTestObject);
  testPosition : Z;
  tmem : mem
}.
(** The static variables before the first call. *)
Definition initial (m : mem) : runtest := Run (-1) 0 None 0 m.

Section Run.
Context `{Env}.

Definition on_mem {A} (m : M mem A) : M runtest A :=
  zoom tmem (fun x s => Run (rand_init s) (n_rand s) (testData s) (testPosition s) x) m.

Definition next_rand : M runtest Z := fun s =>
  Ret (rand (n_rand s), Run (rand_init s) (n_rand s + 1) (testData s) (testPosition s) (tmem s)).

Definition rand_byte : M runtest Z :=
  r ← next_rand;
  let x := u32 r in
  let x := Z.lxor x (Z.shiftr x 16) in
  let x := Z.lxor x (Z.shiftr x 8) in
  mret (Z.land x 255).

Fixpoint rand_bytes (n : nat) : M runtest (list Z) :=
  match n with
  | O => mret []
  | S n => b ← rand_byte; l ← rand_bytes n; mret (b :: l)
  end.

Definition init_rand : M runtest unit := modify (fun s =>
  if rand_init s =? -1 then
    Run (if KLEE_RANDOM then 1 else 0) (n_rand s) (testData s) (testPosition s) (tmem s)
  else s).

Definition load_test : M runtest (list KTestObject) :=
  s ← get;
  match testData s with
  | Some d => mret d
  | None =>
      match find_ktest with
      | None => halt (Exit 1)
      | Some d => put (Run (rand_init s) (n_rand s) (Some d) (testPosition s) (tmem s));; mret d
      end
  end.

Definition zeros (n : Z) : list Z := replicate (Z.to_nat n) 0.

Definition next_input (nbytes : Z) (name : string) : M runtest (list Z) :=
  init_rand;;
  s ← get;
  if nz (rand_init s) then
    if String.eqb name "syscall_a0" then
      assert_ (nbytes =? 8);; r ← next_rand; mret (le_bytes 8 (Z.rem r 69))
    else rand_bytes (Z.to_nat nbytes)
  else
    d ← load_test;
    s ← get;
    if testPosition s >=? Z.of_nat (length d) then mret (zeros nbytes)
    else
      o ← of_option (d !! Z.to_nat (testPosition s));
      put (Run (rand_init s) (n_rand s) (testData s) (u32 (testPosition s + 1)) (tmem s));;
      mret (take (Z.to_nat nbytes) (ob_bytes o) ++ zeros (nbytes - numBytes o)).

Definition klee_make_symbolic (addr nbytes : Z) (name : string) : M runtest unit :=
  make_object on_mem (next_input nbytes name) addr.

Definition klee_silent_exit {A} (x : Z) : M runtest A := halt (Exit x).

Definition klee_choose (n : Z) : M runtest Z :=
  l ← next_input 8 "klee_choose";
  let x := le_value l in
  assert_ (x <? n);;
  mret x.

Definition klee_assume (x : Z) : M runtest unit := mret tt.
Definition klee_get_value (x : Z) : Z := x.

(** [abort()] is the failed assertion. *)
Definition klee_range (begin_ end_ : Z) (name : string) : M runtest Z :=
  l ← next_input 4 name;
  let x := s32 (le_value l) in
  if (x <? begin_) || (x >=? end_) then halt AssertFailed else mret x.
End Run.
End Runtest.

(** * Replaying a test case: the recorded inputs come back

    Both replayers give the program the inputs that were recorded, and the values they
    give for ranges and choices are checked. *)
Module Inputs.

(** A call of [klee_make_symbolic]. *)
Record call : Type := Call { c_addr : Z; c_nbytes : Z; c_name : string }.

(** A sequence of calls, with the [klee_make_symbolic] of either program. *)
Fixpoint play {S} (make : Z -> Z -> string -> M S unit) (l : list call) : M S unit :=
  match l with
  | [] => mret tt
  | c :: l => make (c_addr c) (c_nbytes c) (c_name c);; play make l
  end.

(** The memory with every object stored where its call says. *)
Fixpoint stored (m : mem) (l : list (KTestObject * call)) : mem :=
  match l with
  | [] => m
  | (o, c) :: l => stored (write m (c_addr c) (ob_bytes o)) l
  end.

(** The object was recorded by a call like this one, into an accessible object. *)
Definition recorded (m : mem) (oc : KTestObject * call) : Prop :=
  ob_name oc.1 = c_name oc.2 /\ numBytes oc.1 = c_nbytes oc.2 /\
  accessible m (c_addr oc.2) (c_nbytes oc.2) /\ Forall is_byte (ob_bytes oc.1).

Lemma recorded_write m p l x : recorded m x -> recorded (write m p l) x.
Proof. intros (H1 & H2 & H3 & H4). split_and!; [done|done|by apply accessible_write|done]. Qed.

Lemma Forall_recorded_write m p l xs : Forall (recorded m) xs -> Forall (recorded (write m p l)) xs.
Proof. intros Hx. eapply Forall_impl; [exact Hx|]. intros x. apply recorded_write. Qed.

Lemma store_object m o c :
  recorded m (o, c) -> store_bytes (c_addr c) (ob_bytes o) m = Ret (tt, write m (c_addr c) (ob_bytes o)).
Proof.
  intros (_ & Hn & Ha & Hb). simpl in *. apply store_bytes_run; [|done]. unfold numBytes in Hn.
  by rewrite Hn.
Qed.

(** The element a list has after a prefix. *)
Lemma lookup_at {A} (l1 : list A) x l2 : (l1 ++ x :: l2) !! Z.to_nat (Z.of_nat (length l1)) = Some x.
Proof. rewrite Nat2Z.id. by apply list_lookup_middle. Qed.

Lemma kreplay_call done o rest m c :
  recorded m (o, c) -> Z.of_nat (length (done ++ o :: rest)) < 2 ^ 32 ->
  KReplay.klee_make_symbolic (c_addr c) (c_nbytes c) (c_name c)
    (KReplay.Replay (done ++ o :: rest) (Z.of_nat (length done)) m) =
  Ret (tt, KReplay.Replay (done ++ o :: rest) (Z.of_nat (length (done ++ [o]))) (write m (c_addr c) (ob_bytes o))).
Proof.
  intros Hr Hl. pose proof Hr as (Hn & Hs & _ & _). simpl in Hn, Hs.
  unfold KReplay.klee_make_symbolic, make_object, KReplay.next_input, KReplay.numObjects, get, put.
  mred. cbn [KReplay.objects KReplay.obj_index KReplay.rmem].
  rewrite length_app in *. cbn [length] in *.
  assert (Hlt : (Z.of_nat (length done) >=? Z.of_nat (length done + S (length rest))) = false).
  { rewrite Z.geb_leb. apply Z.leb_gt. lia. }
  rewrite Hlt, lookup_at. cbn [of_option]. mred. rewrite Hn.
  assert (Hmv : String.eqb "model_version" (c_name c) && negb (String.eqb "model_version" (c_name c)) = false).
  { by destruct (String.eqb _ _). }
  rewrite Hmv, Hs, Z.eqb_refl. cbn [negb]. unfold KReplay.on_mem, zoom. cbn [KReplay.rmem].
  rewrite (store_object m o c Hr). cbn [KReplay.objects KReplay.obj_index].
  rewrite u32_small by lia. do 3 f_equal. rewrite length_app. simpl. lia.
Qed.

Lemma kreplay_play done objs calls m :
  length objs = length calls -> Forall (recorded m) (zip objs calls) ->
  Z.of_nat (length (done ++ objs)) < 2 ^ 32 ->
  play KReplay.klee_make_symbolic calls (KReplay.Replay (done ++ objs) (Z.of_nat (length done)) m) =
  Ret (tt, KReplay.Replay (done ++ objs) (Z.of_nat (length (done ++ objs))) (stored m (zip objs calls))).
Proof.
  revert done calls m. induction objs as [|o objs IH]; intros done [|c calls] m Hlen Hr Hl;
    try discriminate Hlen.
  { simpl. by rewrite app_nil_r. }
  apply Forall_cons_iff in Hr as [Ho Hr]. cbn [play].
  rewrite (mbind_run _ _ _ _ _ (kreplay_call done o objs m c Ho Hl)).
  replace (done ++ o :: objs) with ((done ++ [o]) ++ objs) in * by (by rewrite <- app_assoc).
  apply IH; [by injection Hlen|by apply Forall_recorded_write|done].
Qed.

Section Runtest.
Context `{Runtest.Env}.
Hypothesis no_random : Runtest.KLEE_RANDOM = false.

(** The state of the library once [k] objects have been given out: the test case is read
    by the first call. *)
Definition runs (objs : list KTestObject) (k : nat) (s : Runtest.runtest) (m : mem) : Prop :=
  (s = Runtest.initial m /\ k = O) \/ s = Runtest.Run 0 0 (Some objs) (Z.of_nat k) m.

Lemma runtest_call done o rest s m c :
  Runtest.find_ktest = Some (done ++ o :: rest) ->
  runs (done ++ o :: rest) (length done) s m ->
  recorded m (o, c) -> Z.of_nat (length (done ++ o :: rest)) < 2 ^ 32 ->
  exists s', Runtest.klee_make_symbolic (c_addr c) (c_nbytes c) (c_name c) s = Ret (tt, s') /\
    runs (done ++ o :: rest) (length (done ++ [o])) s' (write m (c_addr c) (ob_bytes o)).
Proof.
  intros Hf Hs Hr Hl. pose proof Hr as (_ & Hn & _ & _). simpl in Hn.
  exists (Runtest.Run 0 0 (Some (done ++ o :: rest)) (Z.of_nat (length (done ++ [o])))
    (write m (c_addr c) (ob_bytes o))). split; [|by right].
  set (objs := done ++ o :: rest) in *.
  assert (Hload : exists s0, (Runtest.init_rand s = Ret (tt, s0)) /\ Runtest.rand_init s0 = 0 /\
    Runtest.load_test s0 = Ret (objs, Runtest.Run 0 0 (Some objs) (Z.of_nat (length done)) m)).
  { destruct Hs as [[-> Hk] | ->]; unfold Runtest.init_rand, modify; cbn [Runtest.rand_init Runtest.initial].
    - change (-1 =? -1) with true. rewrite no_random. eexists. split; [done|]. split; [done|].
      unfold Runtest.load_test, get, put. mred. cbn. rewrite Hf. by rewrite Hk.
    - change (0 =? -1) with false. eexists. split; [done|]. split; done. }
  destruct Hload as (s0 & E0 & Hr0 & E1).
  unfold Runtest.klee_make_symbolic, make_object, Runtest.next_input.
  erewrite mbind_run; cycle 1.
  { rewrite (mbind_run _ _ _ _ _ E0), (mbind_run get _ s0 s0 s0) by done.
    rewrite Hr0. change (nz 0) with false. cbv iota. rewrite (mbind_run _ _ _ _ _ E1).
    unfold get, put. mred. cbn [Runtest.testPosition Runtest.rand_init Runtest.n_rand Runtest.testData Runtest.tmem].
    assert (Hlt : (Z.of_nat (length done) >=? Z.of_nat (length objs)) = false).
    { rewrite Z.geb_leb. apply Z.leb_gt. unfold objs. rewrite length_app. simpl. lia. }
    rewrite Hlt. unfold objs at 1. rewrite lookup_at. cbn [of_option]. mred. reflexivity. }
  unfold numBytes in Hn |- *. rewrite <- Hn, Z.sub_diag, Nat2Z.id, firstn_all. unfold Runtest.zeros.
  change (replicate (Z.to_nat 0) 0) with (@nil Z). rewrite app_nil_r.
  unfold Runtest.on_mem, zoom. cbn [Runtest.tmem]. rewrite (store_object m o c Hr).
  cbn [Runtest.rand_init Runtest.n_rand Runtest.testData Runtest.testPosition].
  unfold objs in Hl. rewrite length_app in *. cbn [length] in *. rewrite u32_small by lia.
  do 3 f_equal. rewrite ?length_app. simpl. lia.
Qed.

Lemma runtest_play done objs calls s m :
  Runtest.find_ktest = Some (done ++ objs) -> runs (done ++ objs) (length done) s m ->
  length objs = length calls -> Forall (recorded m) (zip objs calls) ->
  Z.of_nat (length (done ++ objs)) < 2 ^ 32 ->
  exists s', play Runtest.klee_make_symbolic calls s = Ret (tt, s') /\
    runs (done ++ objs) (length (done ++ objs)) s' (stored m (zip objs calls)).
Proof.
  revert done calls s m. induction objs as [|o objs IH]; intros done [|c calls] s m Hf Hs Hlen Hr Hl;
    try discriminate Hlen.
  { simpl. exists s. by rewrite app_nil_r in *. }
  apply Forall_cons_iff in Hr as [Ho Hr]. cbn [play].
  destruct (runtest_call done o objs s m c Hf Hs Ho Hl) as (s1 & E1 & H1).
  rewrite (mbind_run _ _ _ _ _ E1).
  replace (done ++ o :: objs) with ((done ++ [o]) ++ objs) in * by (by rewrite <- app_assoc).
  apply IH; [done|done|by injection Hlen|by apply Forall_recorded_write|done].
Qed.

(** Both replayers give the program back the inputs that were recorded: when the
    program makes the calls of [klee_make_symbolic] the test case was recorded from,
    every call of either replayer succeeds and leaves the recorded bytes at its address,
    so that both programs end with the same memory. *)
Theorem replay_roundtrip objs calls m :
  Runtest.find_ktest = Some objs -> length objs = length calls ->
  Forall (recorded m) (zip objs calls) -> Z.of_nat (length objs) < 2 ^ 32 ->
  play KReplay.klee_make_symbolic calls (KReplay.Replay objs 0 m) =
    Ret (tt, KReplay.Replay objs (Z.of_nat (length objs)) (stored m (zip objs calls))) /\
  exists s, play Runtest.klee_make_symbolic calls (Runtest.initial m) = Ret (tt, s) /\
    Runtest.tmem s = stored m (zip objs calls).
Proof.
  intros Hf Hlen Hr Hl. split; [exact (kreplay_play [] objs calls m Hlen Hr Hl)|].
  destruct (runtest_play [] objs calls (Runtest.initial m) m Hf) as (s & E & Hs);
    [by left|done|done|done|]. exists s. split; [done|]. by destruct Hs as [[-> _] | ->].
Qed.
End Runtest.

(** A test case of two objects and the calls it was recorded from. *)
Definition demo_objects : list KTestObject := [KTO "n_args" [2; 0; 0; 0]; KTO "A-data" [65; 66]].
Definition demo_calls : list call := [Call 100 4 "n_args"; Call 104 2 "A-data"].
#[export] Instance demo_env : Runtest.Env := {|
  Runtest.KLEE_RANDOM := false;
  Runtest.rand := fun _ => 0;
  Runtest.find_ktest := Some demo_objects
|}.
Definition demo_memory : mem := mem_of 100 [0; 0; 0; 0; 0; 0].

Lemma replay_roundtrip_witness :
  play KReplay.klee_make_symbolic demo_calls (KReplay.Replay demo_objects 0 demo_memory) =
    Ret (tt, KReplay.Replay demo_objects 2 (mem_of 100 [2; 0; 0; 0; 65; 66])) /\
  exists s, play Runtest.klee_make_symbolic demo_calls (Runtest.initial demo_memory) = Ret (tt, s) /\
    Runtest.tmem s = mem_of 100 [2; 0; 0; 0; 65; 66].
Proof.
  refine (replay_roundtrip eq_refl demo_objects demo_calls demo_memory eq_refl eq_refl _ _).
  - repeat constructor; try (apply accessible_of; simpl; lia); unfold is_byte; simpl; lia.
  - simpl. lia.
Defined.

(** The values replayed for [klee_range] are checked: only values of the range are
    returned, and the recorded value is when it is one. *)
Lemma kreplay_range_sound start end_ name s :
  post (KReplay.klee_range start end_ name) s (fun r _ => start <= r < end_).
Proof.
  apply post_if; intros H; [apply post_halt|]. rewrite Z.geb_leb in H. apply Z.leb_gt in H.
  apply post_if; intros H1; [apply post_ret; lia|]. apply post_bind. intros l s1 _.
  cbv zeta. apply post_if; intros H2; [apply post_halt|]. apply post_ret.
  apply orb_false_iff in H2 as [H2 H3]. rewrite Z.geb_leb in H3. lia.
Qed.

Lemma runtest_range_sound `{Runtest.Env} begin_ end_ name s :
  post (Runtest.klee_range begin_ end_ name) s (fun r _ => begin_ <= r < end_).
Proof.
  apply post_bind. intros l s1 _. cbv zeta. apply post_if; intros H2; [apply post_halt|].
  apply post_ret. apply orb_false_iff in H2 as [H2 H3]. rewrite Z.geb_leb in H3. lia.
Qed.

Lemma runtest_choose_sound `{Runtest.Env} n s :
  post (Runtest.klee_choose n) s (fun r _ => r < n).
Proof.
  apply post_bind. intros l s1 _. cbv zeta. apply post_bind. apply post_assert. intros Hx.
  apply post_ret. lia.
Qed.
End Inputs.

(** * From a recorded file to the replayed program

    The composition of the test case file (KTestFile) with the two replayers: a test
    case written by [kTest_toFile] and found again by [kTest_fromFile] gives the
    native program the recorded inputs. *)
Module ReplayFile.
Import Inputs.

(** A C string as the strings the calls use. *)
Definition string_of (l : list Z) : string :=
  foldr (fun b s => String (ascii_of_N (Z.to_N b)) s) EmptyString l.

Definition replay_objects (t : KTestFile.KTest) : list KTestObject :=
  (fun o => KTO (string_of (KTestFile.name o)) (KTestFile.bytes o)) <$> KTestFile.objects t.

(** The file KTEST_FILE names. *)
Definition open_ktest (f : list Z) : option (list KTestObject) :=
  match KTestFile.kTest_fromFile f with
  | Ret (Some t, _) => Some (replay_objects t)
  | _ => None
  end.
Definition file_env (f : list Z) : Runtest.Env := {|
  Runtest.KLEE_RANDOM := false;
  Runtest.rand := fun _ => 0;
  Runtest.find_ktest := open_ktest f
|}.

(** Recording and replay compose: the file written for a test case, handed to
    klee-replay or to a program linked with the replay library, makes every call of
    [klee_make_symbolic] the test case was recorded from store the recorded bytes. *)
Theorem file_replays (t : KTestFile.KTest) (calls : list call) (m : mem) :
  KTestFile.ktest_ok t -> length (KTestFile.objects t) = length calls ->
  Forall (recorded m) (zip (replay_objects t) calls) ->
  exists f, KTestFile.kTest_toFile t [] = Ret (true, f) /\ open_ktest f = Some (replay_objects t) /\
    play KReplay.klee_make_symbolic calls (KReplay.Replay (replay_objects t) 0 m) =
      Ret (tt, KReplay.Replay (replay_objects t) (Z.of_nat (length calls)) (stored m (zip (replay_objects t) calls))) /\
    exists s, play (Runtest.klee_make_symbolic (H := file_env f)) calls (Runtest.initial m) = Ret (tt, s) /\
      Runtest.tmem s = stored m (zip (replay_objects t) calls).
Proof.
  intros Ht Hlen Hr. pose proof (KTestFile.writes_ktest t Ht []) as Hw.
  pose proof (KTestFile.reads_ktest t Ht []) as Hrd. rewrite app_nil_r in Hrd. simpl in Hw.
  assert (Ho : open_ktest (KTestFile.enc_ktest t) = Some (replay_objects t)) by (unfold open_ktest; by rewrite Hrd).
  assert (Hlen' : length (replay_objects t) = length calls) by (unfold replay_objects; by rewrite length_fmap).
  assert (Hu : Z.of_nat (length (replay_objects t)) < 2 ^ 32).
  { destruct Ht as (_ & _ & _ & _ & _ & Hu & _). unfold KTestFile.is_u32 in Hu. rewrite Hlen', <- Hlen. lia. }
  exists (KTestFile.enc_ktest t). split; [done|]. split; [done|]. split.
  - rewrite <- Hlen'. exact (kreplay_play [] (replay_objects t) calls m Hlen' Hr Hu).
  - destruct (runtest_play (H := file_env (KTestFile.enc_ktest t)) eq_refl [] (replay_objects t) calls
      (Runtest.initial m) m Ho) as (s & E & Hs); [by left|done|done|done|].
    exists s. split; [done|]. by destruct Hs as [[-> _] | ->].
Qed.

Definition demo_test : KTestFile.KTest :=
  KTestFile.KTest_ 3 [[97]] 0 0 [KTestFile.KObj [110] [1; 2; 3; 4]; KTestFile.KObj [65] [7]].
Definition demo_calls : list call := [Call 100 4 "n"; Call 104 1 "A"].

Lemma file_replays_witness :
  exists f, KTestFile.kTest_toFile demo_test [] = Ret (true, f) /\
    open_ktest f = Some (replay_objects demo_test) /\
    play KReplay.klee_make_symbolic demo_calls
      (KReplay.Replay (replay_objects demo_test) 0 (mem_of 100 [0; 0; 0; 0; 0])) =
      Ret (tt, KReplay.Replay (replay_objects demo_test) 2 (mem_of 100 [1; 2; 3; 4; 7])) /\
    exists s, play (Runtest.klee_make_symbolic (H := file_env f)) demo_calls
        (Runtest.initial (mem_of 100 [0; 0; 0; 0; 0])) = Ret (tt, s) /\
      Runtest.tmem s = mem_of 100 [1; 2; 3; 4; 7].
Proof.
  refine (file_replays demo_test demo_calls (mem_of 100 [0; 0; 0; 0; 0]) _ eq_refl _).
  - repeat split; simpl; unfold KTestFile.string_ok; repeat constructor; simpl; lia.
  - repeat constructor; try (apply accessible_of; simpl; lia); unfold is_byte; simpl; lia.
Defined.
End ReplayFile.
