(* ===== verification/CacheModel.v ===== *)
(** * CASTAN's cache model

    lib/CASTAN/GenericCacheModel.cpp: the multi-level cache with which CASTAN charges
    the memory accesses of a path and looks for the accesses that cost most. A level
    is set-associative or given by contention sets; the last level is DRAM.
    Latencies are doubles in the source; the model keeps the integer part, which is
    what [getCost] returns. The choice of a concrete address for a symbolic pointer
    (the rest of [memoryOperation]) asks the solver and is not modelled. *)
From stdpp Require Import base gmap list numbers.
From Stdlib Require Import ZArith Lia.
From S2P Require Import Prelude.

Module Cache.

Definition BLOCK_BITS : Z := 6.
Definition UINT_MAX : Z := 4294967295.

(** [cache_entry_t] *)
Record cache_entry : Type := Entry { useTime : Z; dirty : bool }.

(** ** A [std::map<uint64_t, cache_entry_t>]: a list in increasing order of keys *)
Abbreviation line_t := (list (Z * cache_entry)).

Fixpoint mfind (l : line_t) (k : Z) : option cache_entry :=
  match l with
  | [] => None
  | (k', e) :: l => if k' =? k then Some e else mfind l k
  end.
Fixpoint mput (l : line_t) (k : Z) (e : cache_entry) : line_t :=
  match l with
  | [] => [(k, e)]
  | (k', e') :: l =>
      if k =? k' then (k, e) :: l
      else if k <? k' then (k, e) :: (k', e') :: l
      else (k', e') :: mput l k e
  end.
Fixpoint merase (l : line_t) (k : Z) : line_t :=
  match l with
  | [] => []
  | (k', e) :: l => if k' =? k then l else (k', e) :: merase l k
  end.

(** ** Configuration *)

(** An entry of [cacheConfig]; [contentionSets] has the addresses of each set in
    increasing order with its associativity. *)
Record level_config : Type := Level {
  size : Z;
  writeBack : bool;
  latency : Z;
  associativity : Z;
  contentionSets : list (list Z * Z)
}.

(** [contentionSetIdx]: filled in order, so the last set with the address wins. *)
Fixpoint index_sets (i : Z) (sets : list (list Z * Z)) (m : gmap Z Z) : gmap Z Z :=
  match sets with
  | [] => m
  | (addresses, _) :: sets => index_sets (i + 1) sets (foldl (fun m a => <[a := i]> m) m addresses)
  end.
Definition contentionSetIdx (cfg : level_config) : gmap Z Z := index_sets 0 (contentionSets cfg) ∅.

(** The [line] and [associativity] a block falls in; [other] is the line of a block in
    no contention set. *)
Definition locate (cfg : level_config) (other blockPtr : Z) : Z * Z :=
  if nz (associativity cfg) then
    (u32 (blockPtr `mod` (size cfg / associativity cfg / Z.shiftl 1 BLOCK_BITS)), associativity cfg)
  else
    match contentionSetIdx cfg !! s64 (u64 (Z.shiftl blockPtr BLOCK_BITS)) with
    | Some i =>
        match contentionSets cfg !! Z.to_nat i with
        | Some (a :: _, ways) => (u32 a, ways)
        | _ => (other, UINT_MAX)
        end
    | None => (other, UINT_MAX)
    end.

(** [updateCache] starts from [int64_t line = -1], which is the key 2^32 - 1. *)
Definition no_line : Z := u32 (-1).

(** ** The caches *)
Abbreviation cache_level := (gmap Z line_t).
Definition line_of (c : cache_level) (line : Z) : line_t := default [] (c !! line).
Definition set_line (c : cache_level) (line : Z) (l : line_t) : cache_level := <[line := l]> c.

(** [lruPtr]: the first key, then every later key used strictly earlier. *)
Fixpoint lru_from (best : Z * cache_entry) (l : line_t) : Z * cache_entry :=
  match l with
  | [] => best
  | (k, e) :: l => lru_from (if useTime e <? useTime best.2 then (k, e) else best) l
  end.
Definition lru (l : line_t) : option (Z * cache_entry) :=
  match l with [] => None | b :: l => Some (lru_from b l) end.

(** [updateCache] below level [level]: the caches from this level on, and the levels
    whose [hitCount] is increased, in order. [now] is [currentTime]. *)
Fixpoint updateCache (cfgs : list level_config) (level now address : Z) (isWrite : bool)
    (cs : list cache_level) : list cache_level * list Z :=
  match cfgs with
  | [] => (cs, [level])
  | cfg :: cfgs =>
      let c := default ∅ (cs !! O) in
      let next := drop 1 cs in
      let blockPtr := Z.shiftr address BLOCK_BITS in
      let '(line, ways) := locate cfg no_line blockPtr in
      let l := line_of c line in
      match mfind l blockPtr with
      | Some e =>
          let '(next, hits) :=
            if isWrite && negb (writeBack cfg) then updateCache cfgs (level + 1) now address isWrite next
            else (next, [level]) in
          let e' := Entry now (if isWrite then writeBack cfg else dirty e) in
          (set_line c line (mput l blockPtr e') :: next, hits)
      | None =>
          let '(l, next, hits) :=
            match (if ways <=? Z.of_nat (length l) then lru l else None) with
            | Some (lruPtr, old) =>
                let '(next, hits) :=
                  if dirty old
                  then updateCache cfgs (level + 1) now (u64 (Z.shiftl lruPtr BLOCK_BITS)) true next
                  else (next, []) in
                (merase l lruPtr, next, hits)
            | None => (l, next, [])
            end in
          let '(next, hits') :=
            if negb isWrite || negb (writeBack cfg)
            then updateCache cfgs (level + 1) now address isWrite next
            else (next, []) in
          (set_line c line (mput l blockPtr (Entry now (isWrite && writeBack cfg))) :: next, hits ++ hits')
      end
  end.

(** [getCost]; [latency0] is the latency of DRAM. The local [line] has no initial value:
    [junk] is what it holds for a block in no contention set. *)
Fixpoint getCost (latency0 junk : Z) (cfgs : list level_config) (address : Z) (isWrite : bool)
    (cs : list cache_level) : Z :=
  match cfgs with
  | [] => latency0
  | cfg :: cfgs =>
      let c := default ∅ (cs !! O) in
      let next := drop 1 cs in
      let blockPtr := Z.shiftr address BLOCK_BITS in
      let '(line, ways) := locate cfg junk blockPtr in
      let l := line_of c line in
      match mfind l blockPtr with
      | Some _ =>
          if isWrite && negb (writeBack cfg) then getCost latency0 junk cfgs address isWrite next
          else latency cfg
      | None =>
          let evict :=
            match (if ways <=? Z.of_nat (length l) then lru l else None) with
            | Some (lruPtr, old) =>
                if dirty old then getCost latency0 junk cfgs (u64 (Z.shiftl lruPtr BLOCK_BITS)) true next
                else 0
            | None => 0
            end in
          evict + (if negb isWrite || negb (writeBack cfg)
                   then getCost latency0 junk cfgs address isWrite next else latency cfg)
      end
  end.

(** [getMissCost]: as a miss at every level. Its local [associativity] is only assigned
    for contention sets. *)
Fixpoint getMissCost (latency0 junk : Z) (cfgs : list level_config) (address : Z) (isWrite : bool)
    (cs : list cache_level) : Z :=
  match cfgs with
  | [] => latency0
  | cfg :: cfgs =>
      let c := default ∅ (cs !! O) in
      let next := drop 1 cs in
      let blockPtr := Z.shiftr address BLOCK_BITS in
      let '(line, ways) := locate cfg junk blockPtr in
      let ways := if nz (associativity cfg) then UINT_MAX else ways in
      let l := line_of c line in
      let evict :=
        match (if ways <=? Z.of_nat (length l) then lru l else None) with
        | Some (lruPtr, old) =>
            if dirty old then getCost latency0 junk cfgs (u64 (Z.shiftl lruPtr BLOCK_BITS)) true next
            else 0
        | None => 0
        end in
      evict + (if negb isWrite || negb (writeBack cfg)
               then getMissCost latency0 junk cfgs address isWrite next else latency cfg)
  end.

(** ** The model of a path *)
Record loop_stats : Type := Stats {
  instructionCount : Z; readCount : Z; writeCount : Z; hitCount : gmap Z Z
}.
Definition new_stats : loop_stats := Stats 0 0 0 ∅.

(** [loopStats] has its last element first. *)
Record model : Type := Model {
  enabled : bool;
  cache : list cache_level;
  currentTime : Z;
  loopStats : list loop_stats
}.

Definition count_hit (m : gmap Z Z) (level : Z) : gmap Z Z :=
  <[level := u64 (default 0 (m !! level) + 1)]> m.

Section Model.
Context (cfgs : list level_config) (MaxLoops : Z).

(** [loopStats.back()] *)
Definition on_back (f : loop_stats -> loop_stats) : M model unit := fun m =>
  match loopStats m with
  | [] => Stop MemError
  | s :: l => Ret (tt, Model (enabled m) (cache m) (currentTime m) (f s :: l))
  end.

(** [memoryOperation] on a constant address. *)
Definition memoryOperation (address : Z) (isWrite : bool) : M model unit :=
  m ← get;
  let now := match cfgs with [] => currentTime m | _ => u64 (currentTime m + 1) end in
  let '(cs, hits) := updateCache cfgs 0 now address isWrite (cache m) in
  put (Model (enabled m) cs now (loopStats m));;
  on_back (fun s => Stats (instructionCount s) (readCount s) (writeCount s) (foldl count_hit (hitCount s) hits)).

Definition load (address : Z) : M model unit :=
  m ← get;
  if enabled m then
    on_back (fun s => Stats (instructionCount s) (u64 (readCount s + 1)) (writeCount s) (hitCount s));;
    memoryOperation address false
  else mret tt.
Definition store (address : Z) : M model unit :=
  m ← get;
  if enabled m then
    on_back (fun s => Stats (instructionCount s) (readCount s) (u64 (writeCount s + 1)) (hitCount s));;
    memoryOperation address true
  else mret tt.

Definition exec : M model unit :=
  m ← get;
  if enabled m then
    on_back (fun s => Stats (u64 (instructionCount s + 1)) (readCount s) (writeCount s) (hitCount s))
  else mret tt.

Definition loop : M model bool :=
  m ← get;
  if enabled m then
    if Z.of_nat (length (loopStats m)) >=? MaxLoops then mret false
    else put (Model true (cache m) (currentTime m) (new_stats :: loopStats m));; mret true
  else put (Model true (cache m) (currentTime m) (new_stats :: loopStats m));; mret true.

Definition getNumIterations (m : model) : Z := Z.of_nat (length (loopStats m)).
End Model.
End Cache.
