(* ===== verification/CacheLru.v ===== *)
(** * CASTAN's cache model: associativity and replacement

    A line never holds more blocks than it has ways, the block that leaves a full line
    is the least recently used one, and a block stays in the first level until as many
    other blocks of its line as the line has ways have been accessed. *)
From stdpp Require Import base gmap list numbers.
From Stdlib Require Import ZArith Lia.
From S2P Require Import Prelude CacheModel.

Module Lru.
Import Cache.

(** ** Ordered maps *)
Abbreviation keys l := (fst <$> (l : line_t)).

Fixpoint sorted (l : line_t) : Prop :=
  match l with
  | [] => True
  | (k, _) :: l => Forall (fun x => k < x.1) l /\ sorted l
  end.

Lemma mfind_mput l k e j : mfind (mput l k e) j = if decide (j = k) then Some e else mfind l j.
Proof.
  induction l as [|[k' e'] l IH]; simpl.
  - destruct (Z.eqb_spec k j); case_decide; congruence.
  - destruct (Z.eqb_spec k k') as [<-|Hk]; simpl.
    + destruct (Z.eqb_spec k j); case_decide; congruence.
    + destruct (k <? k') eqn:Hlt; simpl.
      * destruct (Z.eqb_spec k j); case_decide; congruence.
      * rewrite IH. destruct (Z.eqb_spec k' j); case_decide; congruence.
Qed.

Lemma mfind_elem l k e : mfind l k = Some e -> (k, e) ∈ l.
Proof.
  induction l as [|[k' e'] l IH]; simpl; [done|]. destruct (Z.eqb_spec k' k) as [->|].
  - intros [= ->]. left.
  - intros Hf. right. auto.
Qed.
Lemma mfind_none l k : mfind l k = None <-> k ∉ keys l.
Proof.
  induction l as [|[k' e'] l IH]; [split; [intros _ Hk; by apply not_elem_of_nil in Hk|done]|].
  cbn [mfind fmap list_fmap fst]. rewrite not_elem_of_cons, <- IH.
  destruct (Z.eqb_spec k' k) as [->|]; split; [done|tauto|intros; split; congruence|tauto].
Qed.

Lemma sorted_elem k e l x : sorted ((k, e) :: l) -> x ∈ l -> k < x.1.
Proof. intros [Hf _] Hx. rewrite Forall_forall in Hf. by apply Hf, list_elem_of_In. Qed.

Lemma elem_mfind l k e : sorted l -> (k, e) ∈ l -> mfind l k = Some e.
Proof.
  induction l as [|[k' e'] l IH]; [intros _ Hi; by apply not_elem_of_nil in Hi|].
  intros Hs Hi. simpl. apply elem_of_cons in Hi as [[= -> ->]|Hi]; [by rewrite Z.eqb_refl|].
  pose proof (sorted_elem _ _ _ _ Hs Hi) as Hlt. simpl in Hlt.
  rewrite (proj2 (Z.eqb_neq k' k)) by lia. apply IH; [apply Hs|done].
Qed.

Lemma sorted_unique l x y : sorted l -> x ∈ l -> y ∈ l -> x.1 = y.1 -> x = y.
Proof.
  intros Hs Hx Hy E. destruct x as [k e], y as [k' e']. simpl in E. subst k'.
  apply elem_mfind in Hx; [|done]. apply elem_mfind in Hy; [|done]. congruence.
Qed.

(** The entries after an insertion and a removal. *)
Lemma elem_mput l k e x : sorted l -> x ∈ mput l k e <-> x = (k, e) \/ (x ∈ l /\ x.1 <> k).
Proof.
  induction l as [|[k' e'] l IH]; intros Hs; simpl.
  { rewrite list_elem_of_singleton. split; [by left|].
    intros [|[H0 _]]; [done|by apply not_elem_of_nil in H0]. }
  destruct (Z.eqb_spec k k') as [<-|Hk]; [|destruct (Z.ltb_spec k k')].
  - rewrite !elem_of_cons. split.
    + intros [->|Hx]; [by left|]. right. split; [by right|]. pose proof (sorted_elem _ _ _ _ Hs Hx). lia.
    + intros [->|[[->|Hx] Hne]]; [by left|done|by right].
  - rewrite !elem_of_cons. split.
    + intros [->|[->|Hx]]; [by left|right; simpl; split; [by left|congruence]|].
      right. split; [by right|]. pose proof (sorted_elem _ _ _ _ Hs Hx). lia.
    + intros [->|[[->|Hx] Hne]]; tauto.
  - rewrite !elem_of_cons, IH by apply Hs. split.
    + intros [->|[->|[Hx Hne]]]; [right; simpl; split; [by left|congruence]|by left|tauto].
    + intros [->|[[->|Hx] Hne]]; tauto.
Qed.

Lemma elem_merase l k x : sorted l -> x ∈ merase l k <-> x ∈ l /\ x.1 <> k.
Proof.
  induction l as [|[k' e'] l IH]; intros Hs; simpl.
  { split; [intros H0; by apply not_elem_of_nil in H0|tauto]. }
  destruct (Z.eqb_spec k' k) as [->|Hk].
  - rewrite elem_of_cons. split.
    + intros Hx. split; [by right|]. pose proof (sorted_elem _ _ _ _ Hs Hx). lia.
    + intros [[->|Hx] Hne]; done.
  - rewrite !elem_of_cons, IH by apply Hs. split.
    + intros [->|[Hx Hne]]; [split; [by left|done]|tauto].
    + intros [[->|Hx] Hne]; tauto.
Qed.

Lemma sorted_intro k e l : (forall x, x ∈ l -> k < x.1) -> sorted l -> sorted ((k, e) :: l).
Proof. intros Hx Hs. split; [|done]. apply Forall_forall. intros x Hi. by apply Hx, list_elem_of_In. Qed.

Lemma sorted_mput l k e : sorted l -> sorted (mput l k e).
Proof.
  induction l as [|[k' e'] l IH]; intros Hs; simpl; [by split|].
  destruct (Z.eqb_spec k k') as [<-|Hk]; [done|]. destruct (Z.ltb_spec k k').
  - apply sorted_intro; [|done]. intros x [->|Hx]%elem_of_cons; [simpl; lia|].
    pose proof (sorted_elem _ _ _ _ Hs Hx). lia.
  - apply sorted_intro; [|apply IH, Hs]. intros x Hx. apply elem_mput in Hx; [|apply Hs].
    destruct Hx as [->|[Hx _]]; [simpl; lia|]. exact (sorted_elem k' e' l x Hs Hx).
Qed.

Lemma sorted_merase l k : sorted l -> sorted (merase l k).
Proof.
  induction l as [|[k' e'] l IH]; intros Hs; simpl; [done|].
  destruct (Z.eqb_spec k' k); [apply Hs|]. apply sorted_intro; [|apply IH, Hs].
  intros x Hx. apply elem_merase in Hx; [|apply Hs]. exact (sorted_elem k' e' l x Hs (proj1 Hx)).
Qed.

Lemma length_mput_new l k e : mfind l k = None -> length (mput l k e) = S (length l).
Proof.
  induction l as [|[k' e'] l IH]; simpl; [done|]. destruct (Z.eqb_spec k' k); [done|]. intros Hf.
  rewrite (proj2 (Z.eqb_neq k k')) by congruence. destruct (k <? k'); simpl; [done|]. by rewrite IH.
Qed.
Lemma length_mput_old l k e e0 : sorted l -> mfind l k = Some e0 -> length (mput l k e) = length l.
Proof.
  induction l as [|[k' e'] l IH]; intros Hs; simpl; [done|]. destruct (Z.eqb_spec k' k) as [->|Hk].
  - by rewrite Z.eqb_refl.
  - intros Hf. rewrite (proj2 (Z.eqb_neq k k')) by congruence.
    pose proof (sorted_elem _ _ _ _ Hs (mfind_elem _ _ _ Hf)) as Hlt. simpl in Hlt.
    rewrite (proj2 (Z.ltb_ge k k')) by lia. simpl. by rewrite IH by (done || apply Hs).
Qed.
Lemma length_merase l k e : (k, e) ∈ l -> S (length (merase l k)) = length l.
Proof.
  induction l as [|[k' e'] l IH]; simpl; [intros H0; by apply not_elem_of_nil in H0|].
  intros Hi. destruct (Z.eqb_spec k' k); [done|]. simpl. f_equal. apply IH.
  apply elem_of_cons in Hi as [[= -> _]|]; done.
Qed.

(** ** The least recently used entry *)
Lemma lru_from_spec b l :
  (lru_from b l = b \/ lru_from b l ∈ l) /\ useTime (lru_from b l).2 <= useTime b.2 /\
  forall x, x ∈ l -> useTime (lru_from b l).2 <= useTime x.2.
Proof.
  revert b; induction l as [|[k e] l IH]; intros b; simpl.
  { split; [by left|]. split; [lia|]. intros x H0. by apply not_elem_of_nil in H0. }
  destruct (IH (if useTime e <? useTime b.2 then (k, e) else b)) as (Hin & Hle & Hall).
  destruct (Z.ltb_spec (useTime e) (useTime b.2)) as [Hlt|Hge]; split_and!.
  - right. rewrite elem_of_cons. tauto.
  - simpl in Hle. lia.
  - intros x [->|Hx]%elem_of_cons; [done|auto].
  - rewrite elem_of_cons. tauto.
  - done.
  - intros x [->|Hx]%elem_of_cons; [simpl; lia|auto].
Qed.

Lemma lru_spec l x : lru l = Some x -> x ∈ l /\ forall y, y ∈ l -> useTime x.2 <= useTime y.2.
Proof.
  destruct l as [|b l]; [done|]. intros [= <-]. destruct (lru_from_spec b l) as (Hin & Hle & Hall).
  split; [destruct Hin as [->|Hin]; [left|by right]|].
  intros y [->|Hy]%elem_of_cons; [done|auto].
Qed.

(** ** A line *)

(** The line an access leaves, with the bits the access sets. *)
Definition victim (ways : Z) (l : line_t) : option (Z * cache_entry) :=
  if ways <=? Z.of_nat (length l) then lru l else None.
Definition evicted (ways : Z) (l : line_t) : line_t :=
  match victim ways l with Some (k, _) => merase l k | None => l end.
Definition touched (cfg : level_config) (ways now b : Z) (isWrite : bool) (l : line_t) : line_t :=
  match mfind l b with
  | Some e => mput l b (Entry now (if isWrite then writeBack cfg else dirty e))
  | None => mput (evicted ways l) b (Entry now (isWrite && writeBack cfg))
  end.

(** At most [ways] blocks, in order, used at different times that are over. *)
Record line_ok (ways now : Z) (l : line_t) : Prop := {
  lo_sorted : sorted l;
  lo_ways : Z.of_nat (length l) <= ways;
  lo_past : forall x, x ∈ l -> useTime x.2 <= now;
  lo_distinct : forall x y, x ∈ l -> y ∈ l -> useTime x.2 = useTime y.2 -> x = y
}.

Lemma line_ok_nil ways now : 0 <= ways -> line_ok ways now [].
Proof. intros Hw. split; [done|simpl; lia| |]; intros x; set_solver. Qed.

Lemma line_ok_later ways t now l : line_ok ways t l -> t <= now -> line_ok ways now l.
Proof. intros [H1 H2 H3 H4] Ht. split; try done. intros x Hx. specialize (H3 x Hx). lia. Qed.

Lemma victim_elem ways l k e : victim ways l = Some (k, e) -> (k, e) ∈ l.
Proof. unfold victim. case_match; [|done]. intros Hl. by apply lru_spec in Hl as [Hl _]. Qed.

Lemma evicted_elem ways l x : sorted l -> x ∈ evicted ways l -> x ∈ l.
Proof.
  intros Hs. unfold evicted. destruct (victim ways l) as [[k e]|]; [|done].
  by intros [Hx _]%elem_merase.
Qed.

Lemma evicted_sorted ways l : sorted l -> sorted (evicted ways l).
Proof. unfold evicted. destruct (victim ways l) as [[k e]|]; [apply sorted_merase|done]. Qed.

(** There is room for the new block after the eviction. *)
Lemma evicted_length ways now l : line_ok ways now l -> 1 <= ways -> Z.of_nat (length (evicted ways l)) < ways.
Proof.
  intros Hl Hw. pose proof (lo_ways _ _ _ Hl) as Hn. unfold evicted.
  destruct (victim ways l) as [[k e]|] eqn:Hv.
  - apply victim_elem in Hv. pose proof (length_merase _ _ _ Hv). lia.
  - unfold victim in Hv. destruct (Z.leb_spec ways (Z.of_nat (length l))); [|lia].
    destruct l; [simpl in *; lia|done].
Qed.

Lemma mput_ok ways t now l b e :
  sorted l -> t < now -> useTime e = now -> Z.of_nat (length (mput l b e)) <= ways ->
  (forall x, x ∈ l -> useTime x.2 <= t) ->
  (forall x y, x ∈ l -> y ∈ l -> useTime x.2 = useTime y.2 -> x = y) ->
  line_ok ways now (mput l b e).
Proof.
  intros Hs Ht He Hw Hp Hd. split; [by apply sorted_mput|done| |].
  - intros x [->|[Hx _]]%elem_mput; [simpl; lia| |done]. specialize (Hp x Hx). lia.
  - intros x y [->|[Hx _]]%elem_mput [->|[Hy _]]%elem_mput E; try done; simpl in E;
      [specialize (Hp y Hy); lia|specialize (Hp x Hx); lia|by apply Hd].
Qed.

(** An access keeps the line well-formed: a type invariant. *)
Lemma touched_ok cfg ways t now b w l :
  line_ok ways t l -> t < now -> 1 <= ways -> line_ok ways now (touched cfg ways now b w l).
Proof.
  intros Hl Ht Hw. pose proof Hl as [Hs Hn Hp Hd]. unfold touched. destruct (mfind l b) as [e|] eqn:Hf.
  - apply (mput_ok ways t); try done. by rewrite (length_mput_old l b _ e).
  - apply (mput_ok ways t); try done.
    + by apply evicted_sorted.
    + rewrite length_mput_new; [pose proof (evicted_length ways t l Hl Hw); lia|].
      apply mfind_none. intros Hk. apply list_elem_of_fmap in Hk as (x & -> & Hx).
      apply evicted_elem in Hx; [|done]. apply mfind_none in Hf. apply Hf, list_elem_of_fmap. eauto.
    + intros x Hx. apply Hp. by apply (evicted_elem ways).
    + intros x y Hx Hy. apply Hd; by apply (evicted_elem ways).
Qed.

Lemma touched_find cfg ways now b w l :
  exists e, mfind (touched cfg ways now b w l) b = Some e /\ useTime e = now.
Proof. unfold touched. destruct (mfind l b); rewrite mfind_mput, decide_True by done; eauto. Qed.

(** A block other than the accessed one: it was there before with the same time, and it
    stays unless it is the victim. *)
Lemma touched_other cfg ways now b w l k e :
  sorted l -> k <> b -> (k, e) ∈ touched cfg ways now b w l -> (k, e) ∈ l.
Proof.
  intros Hs Hk. unfold touched. destruct (mfind l b).
  - intros [[= -> _]|[Hx _]]%elem_mput; done.
  - intros [[= -> _]|[Hx _]]%elem_mput; [done| |by apply evicted_sorted]. by apply (evicted_elem ways).
Qed.
Lemma touched_stays cfg ways now b w l k e :
  sorted l -> k <> b -> (k, e) ∈ l -> (mfind l b = None -> forall e', victim ways l <> Some (k, e')) ->
  (k, e) ∈ touched cfg ways now b w l.
Proof.
  intros Hs Hk Hi Hv. unfold touched. destruct (mfind l b).
  - apply elem_mput; [done|]. by right.
  - apply elem_mput; [by apply evicted_sorted|]. right. split; [|done]. unfold evicted.
    destruct (victim ways l) as [[k' e']|] eqn:Ev; [|done]. apply elem_merase; [done|].
    split; [done|]. simpl. intros ->. by apply (Hv eq_refl e').
Qed.

(** ** How long a block stays

    [recent l b S]: block [b] is in the line and only blocks of [S] were used since. *)
Definition recent (l : line_t) (b : Z) (S : gset Z) : Prop :=
  exists e, (b, e) ∈ l /\ forall x, x ∈ l -> useTime e < useTime x.2 -> x.1 ∈ S.

Lemma sorted_nodup l : sorted l -> NoDup (keys l).
Proof.
  induction l as [|[k e] l IH]; intros Hs; [apply NoDup_nil_2|]. cbn [fmap list_fmap fst].
  apply list.NoDup_cons. split; [|apply IH, Hs]. intros Hk.
  apply list_elem_of_fmap in Hk as (x & Ex & Hx). pose proof (sorted_elem _ _ _ _ Hs Hx). lia.
Qed.

(** When [b] is the victim of a full line, every other block of the line was used since. *)
Lemma victim_full ways now l b e k S :
  line_ok ways now l -> recent l b S -> victim ways l = Some (b, e) -> mfind l k = None -> k <> b ->
  ways <= Z.of_nat (base.size (S ∪ {[k]})).
Proof.
  intros Hl (e' & Hb & Hrec) Hv Hk Hne. pose proof (lo_sorted _ _ _ Hl) as Hs.
  unfold victim in Hv. destruct (Z.leb_spec ways (Z.of_nat (length l))) as [Hw|]; [|done].
  apply lru_spec in Hv as [Hbe Hmin].
  assert (e' = e) as -> by (pose proof (sorted_unique l _ _ Hs Hb Hbe eq_refl); congruence).
  assert (Hsub : list_to_set (C := gset Z) (keys l) ∪ {[k]} ⊆ {[b]} ∪ (S ∪ {[k]})).
  { intros j. rewrite !elem_of_union, elem_of_list_to_set, !elem_of_singleton. intros [Hj|Hj]; [|tauto].
    apply list_elem_of_fmap in Hj as (x & -> & Hx).
    destruct (decide (x.1 = b)); [tauto|]. right. left. apply Hrec; [done|].
    specialize (Hmin x Hx). simpl in Hmin. destruct (Z.eq_dec (useTime e) (useTime x.2)) as [Eq|]; [|lia].
    pose proof (lo_distinct _ _ _ Hl (b, e) x Hb Hx Eq) as <-. done. }
  apply subseteq_size in Hsub. rewrite size_union, size_singleton in Hsub.
  - rewrite size_list_to_set, length_fmap in Hsub by (by apply sorted_nodup).
    pose proof (size_union_alt {[b]} (S ∪ {[k]})) as Hu. rewrite size_singleton in Hu.
    pose proof (subseteq_size ((S ∪ {[k]}) ∖ {[b]}) (S ∪ {[k]}) ltac:(set_solver)). lia.
  - intros j Hj1 Hj2. apply elem_of_singleton in Hj2 as ->. apply elem_of_list_to_set in Hj1.
    by apply mfind_none in Hk.
Qed.

Lemma recent_weaken l b S S' : recent l b S -> S ⊆ S' -> recent l b S'.
Proof. intros (e & H1 & H2) Hsub. exists e. split; [done|]. intros x Hx Ht. by apply Hsub, H2. Qed.

(** An access to the block itself, or to another one while fewer than [ways] blocks have
    been used. *)
Lemma touched_same cfg ways t now b w l S :
  line_ok ways t l -> t < now -> 1 <= ways -> recent (touched cfg ways now b w l) b S.
Proof.
  intros Hl Ht Hw. pose proof (touched_ok cfg ways t now b w l Hl Ht Hw) as Hl'.
  destruct (touched_find cfg ways now b w l) as (e & He & Hu). exists e. split; [by apply mfind_elem|].
  intros x Hx Hlt. pose proof (lo_past _ _ _ Hl' x Hx). lia.
Qed.
Lemma touched_recent cfg ways t now b k w l S :
  line_ok ways t l -> t < now -> 1 <= ways -> recent l b S -> k <> b ->
  Z.of_nat (base.size (S ∪ {[k]})) < ways -> recent (touched cfg ways now k w l) b (S ∪ {[k]}).
Proof.
  intros Hl Ht Hw Hr Hne Hs. pose proof Hr as (e & Hb & Hrec). pose proof (lo_sorted _ _ _ Hl) as Hso.
  exists e. split.
  - apply touched_stays; [done|congruence|done|]. intros Hk e' Hv.
    pose proof (victim_full ways t l b e' k S Hl Hr Hv Hk Hne). lia.
  - intros [j f] Hx Hlt. simpl in *. destruct (decide (j = k)) as [->|Hj]; [set_solver|].
    apply touched_other in Hx; [|done|done]. apply elem_of_union_l. by apply (Hrec (j, f)).
Qed.

(** ** One access, level by level *)

(** The accesses one access makes to the next level: the write of a dirty victim, and
    the access itself where it is not served here. *)
Definition below (cfg : level_config) (a : Z) (w : bool) (c : cache_level) : list (Z * bool) :=
  let b := Z.shiftr a BLOCK_BITS in
  let '(line, ways) := locate cfg no_line b in
  let l := line_of c line in
  match mfind l b with
  | Some _ => if w && negb (writeBack cfg) then [(a, w)] else []
  | None =>
      match victim ways l with
      | Some (k, old) => if dirty old then [(u64 (Z.shiftl k BLOCK_BITS), true)] else []
      | None => []
      end ++ (if negb w || negb (writeBack cfg) then [(a, w)] else [])
  end.

Fixpoint updates (cfgs : list level_config) (level now : Z) (l : list (Z * bool)) (cs : list cache_level)
    : list cache_level * list Z :=
  match l with
  | [] => (cs, [])
  | (a, w) :: l =>
      let '(cs, hits) := updateCache cfgs level now a w cs in
      let '(cs, hits') := updates cfgs level now l cs in (cs, hits ++ hits')
  end.

Definition served (cfg : level_config) (level a : Z) (w : bool) (c : cache_level) : list Z :=
  let b := Z.shiftr a BLOCK_BITS in
  let l := line_of c (locate cfg no_line b).1 in
  match mfind l b with Some _ => if w && negb (writeBack cfg) then [] else [level] | None => [] end.

Definition touch (cfg : level_config) (now a : Z) (w : bool) (c : cache_level) : cache_level :=
  let b := Z.shiftr a BLOCK_BITS in
  let '(line, ways) := locate cfg no_line b in
  set_line c line (touched cfg ways now b w (line_of c line)).

(** [updateCache] is: touch this level, then make the accesses [below] to the next. *)
Lemma updateCache_eq cfg cfgs level now a w cs :
  updateCache (cfg :: cfgs) level now a w cs =
  let c := default ∅ (cs !! O) in
  let '(next, hits) := updates cfgs (level + 1) now (below cfg a w c) (drop 1 cs) in
  (touch cfg now a w c :: next, served cfg level a w c ++ hits).
Proof.
  cbn [updateCache]. cbv zeta. set (c := default ∅ (cs !! O)). unfold below, served, touch, touched, evicted.
  cbv zeta. destruct (locate cfg no_line _) as [line ways]. cbn [fst].
  destruct (mfind (line_of c line) _) as [e|].
  - destruct (w && negb (writeBack cfg)); simpl; [|done].
    destruct (updateCache cfgs _ now a w _) as [n h]. by rewrite app_nil_r.
  - fold (victim ways (line_of c line)). destruct (victim ways _) as [[k old]|]; [destruct (dirty old)|];
      destruct (negb w || negb (writeBack cfg)); simpl;
      repeat match goal with |- context [updateCache ?x ?y ?z ?u ?v ?t] => destruct (updateCache x y z u v t) end;
      simpl; rewrite ?app_nil_r; done.
Qed.

(** ** Every line of every level stays within its associativity *)
Definition config_ok (cfg : level_config) : Prop :=
  (forall b, 1 <= (locate cfg no_line b).2) /\
  (forall b b', (locate cfg no_line b).1 = (locate cfg no_line b').1 ->
     (locate cfg no_line b).2 = (locate cfg no_line b').2).

Definition level_ok (cfg : level_config) (c : cache_level) : Prop :=
  forall b, let '(line, ways) := locate cfg no_line b in
  sorted (line_of c line) /\ Z.of_nat (length (line_of c line)) <= ways.

Fixpoint caches_ok (cfgs : list level_config) (cs : list cache_level) : Prop :=
  match cfgs with
  | [] => True
  | cfg :: cfgs => level_ok cfg (default ∅ (cs !! O)) /\ caches_ok cfgs (drop 1 cs)
  end.

Lemma touched_bounded cfg ways now b w l :
  sorted l -> Z.of_nat (length l) <= ways -> 1 <= ways ->
  sorted (touched cfg ways now b w l) /\ Z.of_nat (length (touched cfg ways now b w l)) <= ways.
Proof.
  intros Hs Hn Hw. unfold touched. destruct (mfind l b) as [e|] eqn:Hf.
  - split; [by apply sorted_mput|]. by rewrite (length_mput_old l b _ e).
  - split; [by apply sorted_mput, evicted_sorted|].
    rewrite length_mput_new.
    + unfold evicted. destruct (victim ways l) as [[k e]|] eqn:Hv.
      * apply victim_elem in Hv. pose proof (length_merase _ _ _ Hv). lia.
      * unfold victim in Hv. destruct (Z.leb_spec ways (Z.of_nat (length l))); [|lia].
        destruct l; [simpl in *; lia|done].
    + apply mfind_none. intros Hk. apply list_elem_of_fmap in Hk as (x & -> & Hx).
      apply evicted_elem in Hx; [|done]. apply mfind_none in Hf. apply Hf, list_elem_of_fmap. eauto.
Qed.

Lemma line_of_set c line l line' :
  line_of (set_line c line l) line' = if decide (line' = line) then l else line_of c line'.
Proof.
  unfold line_of, set_line. rewrite lookup_insert. destruct (decide (line = line')), (decide (line' = line)); simpl; congruence.
Qed.

Lemma touch_level_ok cfg now a w c : config_ok cfg -> level_ok cfg c -> level_ok cfg (touch cfg now a w c).
Proof.
  intros [Hw Hcons] Hc b. pose proof (Hc b) as Hb. pose proof (Hc (Z.shiftr a BLOCK_BITS)) as Ha.
  unfold touch. cbv zeta. specialize (Hcons b (Z.shiftr a BLOCK_BITS)).
  specialize (Hw (Z.shiftr a BLOCK_BITS)).
  destruct (locate cfg no_line b) as [line ways], (locate cfg no_line (Z.shiftr a BLOCK_BITS)) as [line' ways'].
  simpl in *. rewrite line_of_set. case_decide as E; [|done]. specialize (Hcons E). subst.
  destruct Ha as [Ha1 Ha2]. apply touched_bounded; [exact Ha1|exact Ha2|exact Hw].
Qed.

Lemma updates_ok cfgs level now l cs :
  (forall a w cs, caches_ok cfgs cs -> caches_ok cfgs (updateCache cfgs level now a w cs).1) ->
  caches_ok cfgs cs -> caches_ok cfgs (updates cfgs level now l cs).1.
Proof.
  intros IH. revert cs. induction l as [|[a w] l IHl]; intros cs Hc; simpl; [done|].
  specialize (IH a w cs Hc). destruct (updateCache cfgs level now a w cs) as [cs1 h1].
  specialize (IHl cs1 IH). by destruct (updates cfgs level now l cs1).
Qed.

Lemma updateCache_ok cfgs level now a w cs :
  Forall config_ok cfgs -> caches_ok cfgs cs -> caches_ok cfgs (updateCache cfgs level now a w cs).1.
Proof.
  intros Hcfg. revert level a w cs. induction Hcfg as [|cfg cfgs H1 Hcfg IH]; intros level a w cs Hc; [done|].
  rewrite updateCache_eq. cbv zeta. destruct Hc as [H0 Hc].
  pose proof (updates_ok cfgs (level + 1) now (below cfg a w (default ∅ (cs !! O))) (drop 1 cs)
    (fun a w cs Hcs => IH (level + 1) a w cs Hcs) Hc) as Hn.
  destruct (updates _ _ _ _ _) as [next hits]. split; [by apply touch_level_ok|]. exact Hn.
Qed.
End Lru.
