(* ===== verification/CacheRun.v ===== *)
(** * CASTAN's cache model: sequences of accesses

    The model over the operations of a path: the invariant of every reachable state,
    the guarantee of the replacement policy, and the cost prediction against the hits
    that are counted. *)
From stdpp Require Import base gmap list numbers.
From Stdlib Require Import ZArith Lia.
From S2P Require Import Prelude CacheModel CacheLru.

Module CacheRun.
Import Cache Lru.

(** What the executor calls the model for. *)
Inductive op : Type := OLoad (a : Z) | OStore (a : Z) | OExec | OLoop.

Section Run.
Context (cfgs : list level_config) (MaxLoops : Z).

Definition step (o : op) : M model unit :=
  match o with
  | OLoad a => load cfgs a
  | OStore a => store cfgs a
  | OExec => exec
  | OLoop => loop MaxLoops;; mret tt
  end.
Fixpoint run (l : list op) : M model unit :=
  match l with
  | [] => mret tt
  | o :: l => step o;; run l
  end.
(** A new model. *)
Definition start : model := Model false [] 0 [].

Definition access (aw : Z * bool) : op := if aw.2 then OStore aw.1 else OLoad aw.1.

(** The first level: every line is well-formed in time as well. *)
Definition level0_ok (cfg : level_config) (now : Z) (c : cache_level) : Prop :=
  forall b, let '(line, ways) := locate cfg no_line b in line_ok ways now (line_of c line).
Definition first_ok (m : model) : Prop :=
  match cfgs with [] => True | cfg :: _ => level0_ok cfg (currentTime m) (default ∅ (cache m !! O)) end.

Record model_ok (m : model) : Prop := {
  mo_caches : caches_ok cfgs (cache m);
  mo_first : first_ok m;
  mo_time : 0 <= currentTime m;
  mo_stats : enabled m = true -> loopStats m <> []
}.

Hypothesis Hcfgs : Forall config_ok cfgs.

Lemma on_back_run f m :
  loopStats m <> [] ->
  exists s l, loopStats m = s :: l /\
    on_back f m = Ret (tt, Model (enabled m) (cache m) (currentTime m) (f s :: l)).
Proof. intros Hs. unfold on_back. destruct (loopStats m) as [|s l]; [done|]. by exists s, l. Qed.

Lemma touch_level0_ok cfg t now a w c :
  config_ok cfg -> level0_ok cfg t c -> t < now -> level0_ok cfg now (touch cfg now a w c).
Proof.
  intros [Hw Hcons] Hc Ht b. pose proof (Hc b) as Hb. pose proof (Hc (Z.shiftr a BLOCK_BITS)) as Ha.
  unfold touch. cbv zeta. specialize (Hcons b (Z.shiftr a BLOCK_BITS)).
  specialize (Hw (Z.shiftr a BLOCK_BITS)).
  destruct (locate cfg no_line b) as [line ways], (locate cfg no_line (Z.shiftr a BLOCK_BITS)) as [line' ways'].
  simpl in *. rewrite line_of_set. case_decide as E.
  - specialize (Hcons E). subst. by apply (touched_ok cfg ways' t).
  - apply (line_ok_later ways t); [done|lia].
Qed.

(** The caches after a memory operation; time moves by at most one. *)
Lemma memory_run m a w :
  model_ok m -> enabled m = true -> currentTime m + 1 < 2 ^ 64 ->
  exists m', memoryOperation cfgs a w m = Ret (tt, m') /\ model_ok m' /\ enabled m' = true /\
    currentTime m <= currentTime m' <= currentTime m + 1 /\ loopStats m' <> [] /\
    (forall cfg rest, cfgs = cfg :: rest -> currentTime m' = currentTime m + 1 /\
       default ∅ (cache m' !! O) = touch cfg (currentTime m + 1) a w (default ∅ (cache m !! O))).
Proof.
  intros [Hc Hf Ht Hs] He Hb. unfold memoryOperation, get, put. cbv beta iota delta [mbind M_bind].
  set (now := match cfgs with [] => currentTime m | _ => u64 (currentTime m + 1) end).
  pose proof (updateCache_ok cfgs 0 now a w (cache m) Hcfgs Hc) as Hc'.
  destruct (updateCache cfgs 0 now a w (cache m)) as [cs hits] eqn:E. simpl in Hc'. cbv beta iota.
  unfold on_back. cbn [loopStats enabled cache currentTime].
  specialize (Hs He). destruct (loopStats m) as [|s l] eqn:El; [done|].
  eexists. split; [done|]. cbn [enabled currentTime cache loopStats].
  assert (Hnow : forall cfg rest, cfgs = cfg :: rest -> now = currentTime m + 1 /\
    default ∅ (cs !! O) = touch cfg now a w (default ∅ (cache m !! O))).
  { intros cfg rest ->. split; [unfold now; apply u64_small; lia|].
    rewrite updateCache_eq in E. cbv zeta in E. destruct (updates _ _ _ _ _) as [next h].
    injection E as <- _. done. }
  assert (Hr : currentTime m <= now <= currentTime m + 1).
  { unfold now. destruct cfgs as [|cfg rest]; [lia|]. rewrite u64_small by lia. lia. }
  split; [|split; [done|split; [done|split; [done|]]]].
  - split; cbn [cache currentTime enabled loopStats]; [done| |lia|done].
    unfold first_ok in *. cbn [cache currentTime]. destruct cfgs as [|cfg rest] eqn:Ec; [done|].
    destruct (Hnow cfg rest eq_refl) as [Hn Hd]. rewrite Hd.
    apply (touch_level0_ok cfg (currentTime m)); [by apply Forall_cons_iff in Hcfgs as [? _]|done|lia].
  - intros cfg rest Ec. destruct (Hnow cfg rest Ec) as [Hn Hd]. split; [done|]. by rewrite <- Hn.
Qed.

Lemma model_ok_back m s l :
  model_ok m -> model_ok (Model (enabled m) (cache m) (currentTime m) (s :: l)).
Proof. intros [H1 H2 H3 H4]. by split. Qed.

(** A load or a store of an enabled model. *)
Lemma access_run m aw :
  model_ok m -> enabled m = true -> currentTime m + 1 < 2 ^ 64 ->
  exists m', step (access aw) m = Ret (tt, m') /\ model_ok m' /\ enabled m' = true /\
    currentTime m' <= currentTime m + 1 /\
    (forall cfg rest, cfgs = cfg :: rest -> currentTime m' = currentTime m + 1 /\
       default ∅ (cache m' !! O) = touch cfg (currentTime m + 1) aw.1 aw.2 (default ∅ (cache m !! O))).
Proof.
  intros Hm He Hb. destruct aw as [a w].
  assert (Hgo : forall f, exists m', (on_back f;; memoryOperation cfgs a w) m = Ret (tt, m') /\
    model_ok m' /\ enabled m' = true /\ currentTime m' <= currentTime m + 1 /\
    (forall cfg rest, cfgs = cfg :: rest -> currentTime m' = currentTime m + 1 /\
       default ∅ (cache m' !! O) = touch cfg (currentTime m + 1) a w (default ∅ (cache m !! O)))).
  { intros f. destruct (on_back_run f m (mo_stats _ Hm He)) as (s & l & Es & Eb).
    rewrite (mbind_run _ _ _ _ _ Eb).
    destruct (memory_run (Model (enabled m) (cache m) (currentTime m) (f s :: l)) a w)
      as (m' & E & Hm' & He' & Ht & _ & Hd); [by apply model_ok_back|done|done|].
    exists m'. split; [done|]. split; [done|]. split; [done|]. split; [simpl in Ht; lia|]. exact Hd. }
  unfold access, step, load, store. cbn [fst snd].
  destruct w; (rewrite (mbind_run get _ m m m) by done); rewrite He; apply Hgo.
Qed.

Lemma model_ok_loop m s l : model_ok m -> model_ok (Model true (cache m) (currentTime m) (s :: l)).
Proof. intros [H1 H2 H3 H4]. by split. Qed.

(** Every operation returns and keeps the state well-formed. *)
Lemma step_run m o :
  model_ok m -> currentTime m + 1 < 2 ^ 64 ->
  exists m', step o m = Ret (tt, m') /\ model_ok m' /\ currentTime m' <= currentTime m + 1.
Proof.
  intros Hm Hb. destruct (enabled m) eqn:He.
  - destruct o as [a|a| |].
    + destruct (access_run m (a, false) Hm He Hb) as (m' & E & Hm' & _ & Ht & _). by exists m'.
    + destruct (access_run m (a, true) Hm He Hb) as (m' & E & Hm' & _ & Ht & _). by exists m'.
    + cbn [step]. unfold exec. rewrite (mbind_run get _ m m m) by done. rewrite He.
      match goal with |- context [on_back ?f] =>
        destruct (on_back_run f m (mo_stats _ Hm He)) as (s & l & Es & ->) end.
      eexists. split; [done|]. split; [by apply model_ok_back|simpl; lia].
    + cbn [step]. unfold loop. rewrite (mbind_assoc_run get _ _ m m m) by done. rewrite He.
      destruct (_ >=? _); unfold put, mbind, M_bind, mret, M_ret; simpl.
      * exists m. split; [done|]. split; [done|lia].
      * eexists. split; [done|]. split; [by apply model_ok_loop|simpl; lia].
  - destruct o as [a|a| |]; cbn [step].
    + exists m. unfold load. rewrite (mbind_run get _ m m m) by done. rewrite He. split; [done|]. split; [done|lia].
    + exists m. unfold store. rewrite (mbind_run get _ m m m) by done. rewrite He. split; [done|]. split; [done|lia].
    + exists m. unfold exec. rewrite (mbind_run get _ m m m) by done. rewrite He. split; [done|]. split; [done|lia].
    + unfold loop. rewrite (mbind_assoc_run get _ _ m m m) by done. rewrite He.
      unfold put, mbind, M_bind, mret, M_ret; simpl.
      eexists. split; [done|]. split; [by apply model_ok_loop|simpl; lia].
Qed.

Lemma run_ok l m :
  model_ok m -> currentTime m + Z.of_nat (length l) < 2 ^ 64 ->
  exists m', run l m = Ret (tt, m') /\ model_ok m' /\ currentTime m' <= currentTime m + Z.of_nat (length l).
Proof.
  revert m; induction l as [|o l IH]; intros m Hm Hb; simpl.
  { exists m. split; [done|]. split; [done|lia]. }
  cbn [length] in Hb. destruct (step_run m o Hm) as (m1 & E1 & H1 & Ht1); [lia|].
  rewrite (mbind_run _ _ _ _ _ E1). destruct (IH m1 H1) as (m2 & E2 & H2 & Ht2); [lia|].
  exists m2. split; [done|]. split; [done|lia].
Qed.

Lemma cache_start_ok : model_ok start.
Proof.
  split; [| |done|done].
  - unfold start. cbn [cache]. induction Hcfgs as [|cfg rest [Hw _] Hr IH]; [done|]. split; [|exact (IH Hr)].
    intros b. specialize (Hw b). destruct (locate cfg no_line b) as [line ways]. unfold line_of.
    simpl. rewrite lookup_empty. simpl in *. split; [done|lia].
  - unfold first_ok, start. cbn [cache currentTime]. destruct Hcfgs as [|cfg rest [Hw _] Hr]; [done|].
    intros b. specialize (Hw b). destruct (locate cfg no_line b) as [line ways]. unfold line_of.
    simpl. rewrite lookup_empty. apply line_ok_nil. simpl in Hw. lia.
Qed.

(** Whatever loads, stores, instructions and loop marks a path executes, the cache
    model answers each of them, and in every state no line of any level holds more
    blocks than its ways. *)
Theorem cache_bounded (l : list op) :
  Z.of_nat (length l) < 2 ^ 64 ->
  exists m, run l start = Ret (tt, m) /\ caches_ok cfgs (cache m).
Proof.
  intros Hb. destruct (run_ok l start cache_start_ok) as (m & E & Hm & _); [simpl; lia|].
  exists m. split; [done|]. apply Hm.
Qed.

(** ** The replacement guarantee *)

(** The blocks of a list of accesses that share the line of [b] at level [cfg]. *)
Definition rivals (cfg : level_config) (b : Z) (l : list (Z * bool)) : gset Z :=
  list_to_set (filter (fun k => k <> b /\ (locate cfg no_line k).1 = (locate cfg no_line b).1)
    ((fun aw => Z.shiftr aw.1 BLOCK_BITS) <$> l)).

Lemma rivals_cons cfg b aw l :
  rivals cfg b (aw :: l) =
  (if decide (Z.shiftr aw.1 BLOCK_BITS <> b /\
              (locate cfg no_line (Z.shiftr aw.1 BLOCK_BITS)).1 = (locate cfg no_line b).1)
   then {[Z.shiftr aw.1 BLOCK_BITS]} else ∅) ∪ rivals cfg b l.
Proof.
  unfold rivals. cbn [fmap list_fmap]. rewrite filter_cons.
  destruct (decide _); [done|]. by rewrite (left_id_L ∅ (∪)).
Qed.

(** One access at the first level, seen from the line of [b]. *)
Lemma touch_recent cfg t now a w c b S :
  config_ok cfg -> level0_ok cfg t c -> t < now ->
  recent (line_of c (locate cfg no_line b).1) b S ->
  Z.of_nat (base.size (S ∪ rivals cfg b [(a, w)])) < (locate cfg no_line b).2 ->
  recent (line_of (touch cfg now a w c) (locate cfg no_line b).1) b (S ∪ rivals cfg b [(a, w)]).
Proof.
  intros Hcfg Hc Ht Hr Hs. pose proof (Hc b) as Hb. destruct Hcfg as [Hw Hcons].
  set (k := Z.shiftr a BLOCK_BITS). specialize (Hcons b k). specialize (Hw b).
  rewrite rivals_cons in *. cbn [fst] in *. fold k in Hs |- *. unfold touch. fold k. cbv zeta.
  destruct (locate cfg no_line b) as [line ways] eqn:Eb, (locate cfg no_line k) as [line' ways'] eqn:Ek.
  cbn [fst snd] in *. rewrite line_of_set.
  unfold rivals in *. cbn [fmap list_fmap filter list_filter list_to_set] in *.
  rewrite (right_id_L ∅ (∪)) in *.
  destruct (decide (line = line')) as [<-|Hl].
  - specialize (Hcons eq_refl). subst ways'. destruct (decide (k = b)) as [Hkb|Hkb].
    + rewrite Hkb. by apply (touched_same cfg ways t).
    + rewrite decide_True in * by done. by apply (touched_recent cfg ways t).
  - rewrite decide_False in * by (intros [_ E0]; congruence). by rewrite (right_id_L ∅ (∪)).
Qed.

Lemma run_recent cfg rest l m b S :
  cfgs = cfg :: rest -> model_ok m -> enabled m = true ->
  currentTime m + Z.of_nat (length l) < 2 ^ 64 ->
  recent (line_of (default ∅ (cache m !! O)) (locate cfg no_line b).1) b S ->
  Z.of_nat (base.size (S ∪ rivals cfg b l)) < (locate cfg no_line b).2 ->
  exists m', run (access <$> l) m = Ret (tt, m') /\
    recent (line_of (default ∅ (cache m' !! O)) (locate cfg no_line b).1) b (S ∪ rivals cfg b l).
Proof.
  intros Ec. assert (Hcfg : config_ok cfg) by (rewrite Ec in Hcfgs; by apply Forall_cons_iff in Hcfgs as [? _]).
  revert m S. induction l as [|aw l IH]; intros m S Hm He Hb Hr Hs.
  { exists m. split; [done|]. eapply recent_weaken; [done|apply union_subseteq_l]. }
  cbn [length] in Hb. cbn [fmap list_fmap run].
  destruct (access_run m aw Hm He) as (m1 & E1 & H1 & He1 & Ht1 & Hd); [lia|].
  destruct (Hd cfg rest Ec) as [Ht Hc]. rewrite (mbind_run _ _ _ _ _ E1).
  assert (Hspl : S ∪ rivals cfg b (aw :: l) = (S ∪ rivals cfg b [aw]) ∪ rivals cfg b l).
  { rewrite (rivals_cons cfg b aw l), (rivals_cons cfg b aw []). change (rivals cfg b []) with (∅ : gset Z).
    rewrite (right_id_L ∅ (∪)). apply (assoc_L (∪)). }
  rewrite Hspl in *. apply IH; [done|done|lia| |done].
  rewrite Hc. destruct aw as [a w]. apply (touch_recent cfg (currentTime m)); [done| |lia|done|].
  - pose proof (mo_first _ Hm) as Hf. unfold first_ok in Hf. by rewrite Ec in Hf.
  - pose proof (subseteq_size (S ∪ rivals cfg b [(a, w)]) (S ∪ rivals cfg b [(a, w)] ∪ rivals cfg b l)
      ltac:(apply union_subseteq_l)). lia.
Qed.

(** A block that is in the line is a hit of a read, at the latency of the first level. *)
Lemma hit_cost lat0 junk cfg rest cs a e :
  locate cfg junk (Z.shiftr a BLOCK_BITS) = locate cfg no_line (Z.shiftr a BLOCK_BITS) ->
  mfind (line_of (default ∅ (cs !! O)) (locate cfg no_line (Z.shiftr a BLOCK_BITS)).1)
    (Z.shiftr a BLOCK_BITS) = Some e ->
  getCost lat0 junk (cfg :: rest) a false cs = latency cfg.
Proof.
  intros Hj Hf. cbn [getCost]. cbv zeta. rewrite Hj. destruct (locate cfg no_line _) as [line ways].
  simpl in Hf. by rewrite Hf.
Qed.

(** C36. Least recently used: after an access, a block of the first level is still a hit,
    at the latency of that level, as long as the accesses that follow are to fewer
    other blocks of its line than the line has ways, however many accesses they are. *)
Theorem lru_guarantee lat0 junk cfg rest (a : Z) (w : bool) (l : list (Z * bool)) m :
  cfgs = cfg :: rest -> associativity cfg <> 0 -> model_ok m -> enabled m = true ->
  currentTime m + Z.of_nat (S (length l)) < 2 ^ 64 ->
  Z.of_nat (base.size (rivals cfg (Z.shiftr a BLOCK_BITS) l)) < (locate cfg no_line (Z.shiftr a BLOCK_BITS)).2 ->
  exists m', run (access <$> (a, w) :: l) m = Ret (tt, m') /\
    forall a', Z.shiftr a' BLOCK_BITS = Z.shiftr a BLOCK_BITS ->
      getCost lat0 junk cfgs a' false (cache m') = latency cfg.
Proof.
  intros Ec Ha Hm He Hb Hs. assert (Hcfg : config_ok cfg) by (rewrite Ec in Hcfgs; by apply Forall_cons_iff in Hcfgs as [? _]).
  set (b := Z.shiftr a BLOCK_BITS) in *. cbn [fmap list_fmap run].
  destruct (access_run m (a, w) Hm He) as (m1 & E1 & H1 & He1 & _ & Hd); [lia|].
  destruct (Hd cfg rest Ec) as [Ht Hc]. rewrite (mbind_run _ _ _ _ _ E1).
  destruct (run_recent cfg rest l m1 b ∅ Ec H1 He1) as (m2 & E2 & (e & Hin & _)); [lia| | |].
  - rewrite Hc. pose proof (mo_first _ Hm) as Hf. unfold first_ok in Hf. rewrite Ec in Hf.
    specialize (Hf b). unfold touch. cbn [fst snd]. fold b. cbv zeta. destruct Hcfg as [Hw _]. specialize (Hw b).
    destruct (locate cfg no_line b) as [line ways]. cbn [fst snd] in *. rewrite line_of_set, decide_True by done.
    apply (touched_same cfg ways (currentTime m)); [done|lia|done].
  - by rewrite (left_id_L ∅ (∪)).
  - exists m2. split; [done|]. intros a' Ea. rewrite Ec. pose proof (mo_caches _ H1) as _.
    destruct (run_ok (access <$> l) m1 H1) as (m2' & E2' & H2 & _); [rewrite length_fmap; lia|].
    rewrite E2 in E2'. injection E2' as <-.
    apply (hit_cost _ _ _ _ _ _ e); rewrite Ea; fold b.
    + unfold locate. by rewrite (proj2 (nz_true _)).
    + apply elem_mfind; [|done]. pose proof (mo_first _ H2) as Hf. unfold first_ok in Hf. rewrite Ec in Hf.
      specialize (Hf b). destruct (locate cfg no_line b). by destruct Hf.
Qed.
End Run.

(** ** Predicted and counted cost

    [clean]: no entry is dirty. [covered]: the block is in a line at every level, so
    that the uninitialised local of [getCost] is not used. *)
Definition clean_level (c : cache_level) : Prop :=
  forall line k e, mfind (line_of c line) k = Some e -> dirty e = false.
Definition clean (cs : list cache_level) : Prop := Forall clean_level cs.
Definition covered (cfg : level_config) (b : Z) : Prop :=
  forall j, locate cfg j b = locate cfg no_line b.

Lemma clean_head cs : clean cs -> clean_level (default ∅ (cs !! O)) /\ clean (drop 1 cs).
Proof.
  intros Hc. destruct Hc as [|c cs Hc Hcs]; [|by split].
  split; [|by constructor]. intros line k e. unfold line_of. simpl. by rewrite lookup_empty.
Qed.

(** A clean victim costs nothing. *)
Lemma clean_victim c ways line k e :
  sorted (line_of c line) -> clean_level c -> victim ways (line_of c line) = Some (k, e) -> dirty e = false.
Proof. intros Hs Hc Hv. apply victim_elem in Hv. eapply Hc. by apply elem_mfind. Qed.

Lemma clean_below cfg a c :
  level_ok cfg c -> clean_level c ->
  below cfg a false c =
  match mfind (line_of c (locate cfg no_line (Z.shiftr a BLOCK_BITS)).1) (Z.shiftr a BLOCK_BITS) with
  | Some _ => [] | None => [(a, false)]
  end.
Proof.
  intros Hl Hc. unfold below. cbv zeta. specialize (Hl (Z.shiftr a BLOCK_BITS)).
  destruct (locate cfg no_line _) as [line ways]. destruct Hl as [Hs _]. simpl.
  destruct (mfind _ _); [done|]. destruct (victim ways _) as [[k e]|] eqn:Hv; [|done].
  by rewrite (clean_victim c ways line k e).
Qed.

(** For the reads of a path that has not written, the cost [getCost] predicts is the
    latency of the one level whose hit [updateCache] counts. *)
Theorem read_cost_exact lat0 junk cfgs level now a cs :
  caches_ok cfgs cs -> clean cs -> Forall (fun cfg => covered cfg (Z.shiftr a BLOCK_BITS)) cfgs ->
  exists k, (updateCache cfgs level now a false cs).2 = [level + Z.of_nat k] /\
    getCost lat0 junk cfgs a false cs = default lat0 (latency <$> cfgs !! k) /\ (k <= length cfgs)%nat.
Proof.
  intros Hok Hcl Hcov. revert level cs Hok Hcl.
  induction Hcov as [|cfg cfgs Hc Hcov IH]; intros level cs Hok Hcl.
  { exists O. simpl. rewrite Z.add_0_r. split; [done|]. split; [done|lia]. }
  destruct Hok as [Hl Hok]. destruct (clean_head cs Hcl) as [Hc0 Hc1].
  rewrite updateCache_eq. cbv zeta. rewrite (clean_below cfg a _ Hl Hc0).
  unfold served. cbn [getCost]. cbv zeta. rewrite (Hc junk).
  specialize (Hl (Z.shiftr a BLOCK_BITS)). destruct (locate cfg no_line _) as [line ways].
  destruct Hl as [Hs _]. cbn [fst]. destruct (mfind _ _) as [e|].
  - exists O. simpl. rewrite Z.add_0_r. split; [done|]. split; [done|lia].
  - destruct (IH (level + 1) (drop 1 cs) Hok Hc1) as (k & Hk & Hg & Hle). exists (S k).
    cbn [updates]. destruct (updateCache cfgs _ _ _ _ _) as [next hits]. cbn [snd] in *. subst hits.
    split; [simpl; f_equal; lia|]. split; [|simpl; lia]. cbn [negb orb]. rewrite Hg.
    fold (victim ways (line_of (default ∅ (cs !! O)) line)).
    destruct (victim ways _) as [[p old]|] eqn:Hv; [|done].
    by rewrite (clean_victim _ ways line p old Hs Hc0 Hv).
Qed.

(** ** The modelled machine *)

(** A set-associative level. *)
Lemma set_associative_ok cfg : 1 <= associativity cfg -> config_ok cfg.
Proof.
  intros Ha. unfold config_ok, locate. rewrite (proj2 (nz_true (associativity cfg))) by lia. done.
Qed.

(** The Xeon of GenericCacheModel.h, with two contention sets in place of the file. *)
Definition L1 : level_config := Level 32768 true 0 8 [].
Definition L2 : level_config := Level 262144 true 2 8 [].
Definition L3 : level_config := Level 26214400 true 6 0 [([0; 64], 2); ([128; 192], 2)].
Definition xeon : list level_config := [L1; L2; L3].

Lemma L3_ok : config_ok L3.
Proof.
  assert (Hc : forall b, locate L3 no_line b = (no_line, UINT_MAX) \/ locate L3 no_line b = (0, 2) \/
                         locate L3 no_line b = (128, 2)).
  { intros b. unfold locate. change (nz (associativity L3)) with false. cbv iota.
    generalize (s64 (u64 (Z.shiftl b BLOCK_BITS))). intros x.
    unfold contentionSetIdx. cbn [contentionSets L3 index_sets foldl]. rewrite !lookup_insert.
    repeat case_decide; subst; rewrite ?lookup_empty; vm_compute; tauto. }
  assert (H0 : no_line <> 0) by (vm_compute; done). assert (H1 : no_line <> 128) by (vm_compute; done).
  split.
  - intros b. destruct (Hc b) as [->|[->| ->]]; vm_compute; done.
  - intros b b'. destruct (Hc b) as [->|[->| ->]], (Hc b') as [->|[->| ->]]; simpl; congruence.
Qed.
Lemma xeon_ok : Forall config_ok xeon.
Proof.
  constructor; [by apply set_associative_ok|]. constructor; [by apply set_associative_ok|].
  constructor; [apply L3_ok|constructor].
Qed.

Lemma cache_bounded_witness :
  exists m, run xeon 4 [OLoop; OStore 0; OLoad 64; OExec; OLoad 4096] start = Ret (tt, m) /\
    caches_ok xeon (cache m).
Proof.
  refine (cache_bounded xeon 4 xeon_ok [OLoop; OStore 0; OLoad 64; OExec; OLoad 4096] _).
  change (Z.of_nat 5 < 2 ^ 64). lia.
Defined.

(** Nine blocks of line 0 of L1, of which the first eight are accessed; the first one is
    still there after the other seven have been accessed twice. *)
Definition same_line (n : nat) : list (Z * bool) := (fun i => (4096 * Z.of_nat i, false)) <$> seq 1 n.
Definition enabled_start : model := Model true [] 0 [new_stats].
Lemma enabled_ok : model_ok xeon enabled_start.
Proof. destruct (cache_start_ok xeon xeon_ok) as [H1 H2 H3 H4]. by split. Qed.

Lemma lru_guarantee_witness :
  exists m', run xeon 4 (access <$> (0, true) :: same_line 7 ++ same_line 7) enabled_start = Ret (tt, m') /\
    getCost 62 5 xeon 63 false (cache m') = 0.
Proof.
  destruct (lru_guarantee xeon 4 xeon_ok 62 5 L1 [L2; L3] 0 true (same_line 7 ++ same_line 7) enabled_start
    eq_refl ltac:(discriminate) enabled_ok eq_refl ltac:(vm_compute; reflexivity) ltac:(vm_compute; reflexivity))
    as (m' & E & Hc).
  exists m'. split; [exact E|]. exact (Hc 63 eq_refl).
Defined.

Lemma empty_caches_ok : caches_ok xeon [].
Proof. exact (mo_caches _ _ (cache_start_ok xeon xeon_ok)). Qed.

Lemma read_cost_exact_witness :
  exists k, (updateCache xeon 0 1 64 false []).2 = [0 + Z.of_nat k] /\
    getCost 62 5 xeon 64 false [] = default 62 (latency <$> xeon !! k) /\ (k <= 3)%nat.
Proof.
  refine (read_cost_exact 62 5 xeon 0 1 64 [] empty_caches_ok ltac:(constructor) _).
  repeat constructor; intros j; vm_compute; reflexivity.
Defined.

(** ** Where prediction and count part *)

(** A write that misses a write-back level is charged by [getCost] but counted nowhere by
    [updateCache]. *)
Lemma write_miss_not_counted lat0 junk now cfg rest a :
  writeBack cfg = true ->
  (updateCache (cfg :: rest) 0 now a true []).2 = [] /\
  getCost lat0 junk (cfg :: rest) a true [] = latency cfg.
Proof.
  intros Hw. cbn [updateCache getCost]. cbv zeta. unfold line_of. simpl. rewrite Hw.
  destruct (locate cfg no_line _) as [l1 w1], (locate cfg junk _) as [l2 w2].
  rewrite !lookup_empty. simpl. destruct (w1 <=? Z.of_nat 0), (w2 <=? Z.of_nat 0); done.
Qed.

(** [getMissCost] leaves its [associativity] at UINT_MAX on set-associative levels, so a
    dirty block that the miss would write back is not charged: eight dirty blocks fill line 0
    of L1, where [getCost] charges the write-back of the victim and [getMissCost] does not. *)
Lemma miss_cost_ignores_eviction :
  exists m, run [L1; L2] 4 (OLoop :: ((fun i => OStore (4096 * Z.of_nat i)) <$> seq 1 8)) start = Ret (tt, m) /\
    getMissCost 62 0 [L1; L2] 0 true (cache m) < getCost 62 0 [L1; L2] 0 true (cache m).
Proof. eexists. split; [vm_compute; reflexivity|]. vm_compute. reflexivity. Qed.
End CacheRun.
