(* ===== verification/ExprData.v ===== *)
(** * Expressions of the executor: data, widths, meaning

    include/klee/Expr.h: the expressions over bit vectors and arrays in which the
    executor keeps symbolic values and path constraints. An expression has a width in
    bits; a read has the list of updates made to its array, most recent first.
    [width_ok] is the typing the constructors rely on, [eval] the meaning of an
    expression for given contents of the symbolic arrays: it has a value when all its
    parts have one, which only a division by zero or a missing cell prevents. Widths are mathematical
    integers: none comes near the 2^32 where [unsigned] wraps around. Reference
    counts and cached hashes have no influence on results and are not kept. *)
From stdpp Require Import base gmap list strings numbers.
From Stdlib Require Import ZArith Lia.
From S2P Require Import Prelude.

Module Expr.

(** The kinds of the binary expressions, in the order of [Expr::Kind]. *)
Inductive kind : Type :=
  | Add | Sub | Mul | UDiv | SDiv | URem | SRem
  | And | Or | Xor | Shl | LShr | AShr
  | Eq | Ne | Ult | Ule | Ugt | Uge | Slt | Sle | Sgt | Sge.

#[export] Instance kind_eq_dec : EqDecision kind.
Proof. solve_decision. Defined.

(** [CmpKindFirst <= k && k <= CmpKindLast] *)
Definition is_cmp (k : kind) : bool :=
  match k with
  | Eq | Ne | Ult | Ule | Ugt | Uge | Slt | Sle | Sgt | Sge => true
  | _ => false
  end.
Definition is_div (k : kind) : bool :=
  match k with UDiv | SDiv | URem | SRem => true | _ => false end.

(** [class Array]; [identity] is the address of the object. *)
Record array : Type := Array {
  identity : Z;
  name : string;
  size : Z;
  domain : Z;
  range : Z;
  constantValues : list Z
}.

#[export] Instance array_eq_dec : EqDecision array.
Proof. solve_decision. Defined.

Definition isSymbolicArray (a : array) : bool :=
  match constantValues a with [] => true | _ => false end.
Definition isConstantArray (a : array) : bool := negb (isSymbolicArray a).

(** [Expr] and its subclasses; an [UpdateList] is the array with the first node. *)
Inductive expr : Type :=
  | Constant (width value : Z)
  | NotOptimized (src : expr)
  | Read (root : array) (head : update_node) (index : expr)
  | Select (cond trueExpr falseExpr : expr)
  | Concat (left right : expr)
  | Extract (e : expr) (offset width : Z)
  | ZExt (src : expr) (width : Z)
  | SExt (src : expr) (width : Z)
  | Not (e : expr)
  | Binary (k : kind) (left right : expr)
with update_node : Type :=
  | Null
  | UpdateNode (next : update_node) (index value : expr).

Scheme expr_mut := Induction for expr Sort Prop
  with node_mut := Induction for update_node Sort Prop.
Combined Scheme expr_node_ind from expr_mut, node_mut.

Definition isConstant (e : expr) : bool := match e with Constant _ _ => true | _ => false end.

Abbreviation Bool := 1.

Fixpoint getWidth (e : expr) : Z :=
  match e with
  | Constant w _ => w
  | NotOptimized src => getWidth src
  | Read root _ _ => range root
  | Select _ t _ => getWidth t
  | Concat l r => getWidth l + getWidth r
  | Extract _ _ w | ZExt _ w | SExt _ w => w
  | Not e => getWidth e
  | Binary k l _ => if is_cmp k then Bool else getWidth l
  end.

(** [UpdateNode::getSize] *)
Fixpoint getSize (un : update_node) : Z :=
  match un with Null => 0 | UpdateNode next _ _ => 1 + getSize next end.

(** [compare(b) == 0]: structural equality, arrays by identity. *)
Fixpoint expr_eqb (a b : expr) : bool :=
  match a, b with
  | Constant w v, Constant w' v' => (w =? w') && (v =? v')
  | NotOptimized a, NotOptimized b => expr_eqb a b
  | Read r u i, Read r' u' i' => bool_decide (r = r') && node_eqb u u' && expr_eqb i i'
  | Select c t f, Select c' t' f' => expr_eqb c c' && expr_eqb t t' && expr_eqb f f'
  | Concat l r, Concat l' r' => expr_eqb l l' && expr_eqb r r'
  | Extract e o w, Extract e' o' w' => (o =? o') && (w =? w') && expr_eqb e e'
  | ZExt e w, ZExt e' w' | SExt e w, SExt e' w' => (w =? w') && expr_eqb e e'
  | Not e, Not e' => expr_eqb e e'
  | Binary k l r, Binary k' l' r' => bool_decide (k = k') && expr_eqb l l' && expr_eqb r r'
  | _, _ => false
  end
with node_eqb (a b : update_node) : bool :=
  match a, b with
  | Null, Null => true
  | UpdateNode n i v, UpdateNode n' i' v' => expr_eqb i i' && expr_eqb v v' && node_eqb n n'
  | _, _ => false
  end.

(** ** Meaning *)

(** The bit-vector operations: [None] for a division by zero, which has no meaning. *)
Definition bv_binary (k : kind) (w a b : Z) : option Z :=
  match k with
  | Add => Some ((a + b) `mod` 2 ^ w)
  | Sub => Some ((a - b) `mod` 2 ^ w)
  | Mul => Some ((a * b) `mod` 2 ^ w)
  | UDiv => if b =? 0 then None else Some (a / b)
  | SDiv => if b =? 0 then None else Some (Z.quot (sext w a) (sext w b) `mod` 2 ^ w)
  | URem => if b =? 0 then None else Some (a `mod` b)
  | SRem => if b =? 0 then None else Some (Z.rem (sext w a) (sext w b) `mod` 2 ^ w)
  | And => Some (Z.land a b)
  | Or => Some (Z.lor a b)
  | Xor => Some (Z.lxor a b)
  | Shl => Some (if w <=? b then 0 else (a * 2 ^ b) `mod` 2 ^ w)
  | LShr => Some (if w <=? b then 0 else a / 2 ^ b)
  | AShr => Some ((sext w a / 2 ^ (Z.min b w)) `mod` 2 ^ w)
  | Eq => Some (b2z (a =? b))
  | Ne => Some (b2z (negb (a =? b)))
  | Ult => Some (b2z (a <? b))
  | Ule => Some (b2z (a <=? b))
  | Ugt => Some (b2z (b <? a))
  | Uge => Some (b2z (b <=? a))
  | Slt => Some (b2z (sext w a <? sext w b))
  | Sle => Some (b2z (sext w a <=? sext w b))
  | Sgt => Some (b2z (sext w b <? sext w a))
  | Sge => Some (b2z (sext w b <=? sext w a))
  end.

Section Eval.
(** The contents of the arrays where nothing has been written: [None] for a cell that
    does not exist. *)
Context (init : array -> Z -> option Z).

Definition initial (root : array) (i : Z) : option Z :=
  if isConstantArray root && (i <? size root) then constantValues root !! Z.to_nat i
  else init root i.

Fixpoint eval (e : expr) : option Z :=
  match e with
  | Constant _ v => Some v
  | NotOptimized src => eval src
  | Read root head index => i ← eval index; eval_updates root head i
  | Select c t f => b ← eval c; x ← eval t; y ← eval f; Some (if b =? 1 then x else y)
  | Concat l r => a ← eval l; b ← eval r; Some (a * 2 ^ getWidth r + b)
  | Extract e off w => a ← eval e; Some ((a / 2 ^ off) `mod` 2 ^ w)
  | ZExt src _ => eval src
  | SExt src w => a ← eval src; Some (sext (getWidth src) a `mod` 2 ^ w)
  | Not e => a ← eval e; Some (2 ^ getWidth e - 1 - a)
  | Binary k l r => a ← eval l; b ← eval r; bv_binary k (getWidth l) a b
  end
with eval_updates (root : array) (un : update_node) (i : Z) : option Z :=
  match un with
  | Null => initial root i
  | UpdateNode next index value =>
      j ← eval index; if i =? j then eval value else eval_updates root next i
  end.
End Eval.

(** ** Typing *)
Definition fits (w v : Z) : bool := (0 <=? v) && (v <? 2 ^ w).

(** The assertions of the constructor of [Array], and indices that fit the domain. *)
Definition array_ok (a : array) : bool :=
  (0 <? domain a) && (domain a <=? 32) && (0 <? range a) && (0 <=? size a) && (size a <=? 2 ^ domain a) && (size a <? 2 ^ 32) &&
  (isSymbolicArray a || (Z.of_nat (length (constantValues a)) =? size a)) &&
  forallb (fits (range a)) (constantValues a).

Fixpoint width_ok (e : expr) : bool :=
  match e with
  | Constant w v => (0 <? w) && fits w v
  | NotOptimized src => width_ok src
  | Read root head index =>
      array_ok root && nodes_ok root head && width_ok index && (getWidth index =? domain root)
  | Select c t f =>
      width_ok c && width_ok t && width_ok f && (getWidth c =? Bool) && (getWidth t =? getWidth f)
  | Concat l r => width_ok l && width_ok r
  | Extract e off w => width_ok e && (0 <? w) && (0 <=? off) && (off + w <=? getWidth e)
  | ZExt src w | SExt src w => width_ok src && (getWidth src <=? w)
  | Not e => width_ok e
  | Binary _ l r => width_ok l && width_ok r && (getWidth l =? getWidth r)
  end
with nodes_ok (root : array) (un : update_node) : bool :=
  match un with
  | Null => true
  | UpdateNode next index value =>
      nodes_ok root next && width_ok index && width_ok value &&
      (getWidth index =? domain root) && (getWidth value =? range root)
  end.

(** The contents of the arrays fit their ranges. *)
Definition init_ok (init : array -> Z -> option Z) : Prop :=
  forall a i v, init a i = Some v -> fits (range a) v = true.

(** [e'] may stand for [e]: it has every value that [e] has. *)
Definition refines (init : array -> Z -> option Z) (e e' : expr) : Prop :=
  forall v, eval init e = Some v -> eval init e' = Some v.

(** ** Number of nodes *)
Fixpoint nodes (e : expr) : nat :=
  match e with
  | Constant _ _ => 1
  | NotOptimized e | Extract e _ _ | ZExt e _ | SExt e _ | Not e => S (nodes e)
  | Read _ u i => S (nodes_of u + nodes i)
  | Select c t f => S (nodes c + nodes t + nodes f)
  | Concat l r | Binary _ l r => S (nodes l + nodes r)
  end
with nodes_of (u : update_node) : nat :=
  match u with Null => O | UpdateNode n i v => S (nodes_of n + nodes i + nodes v) end.

End Expr.
