(* ===== verification/ExprFacts.v ===== *)
(** * Expressions: facts

    Structural comparison decides equality; a well-typed expression has a positive width
    and its value fits it. *)
From stdpp Require Import base gmap list strings numbers.
From Stdlib Require Import ZArith Lia.
From S2P Require Import Prelude ExprData.

Module ExprFacts.
Import Expr.

(** Boolean conjunctions of a typing hypothesis as propositions. *)
Ltac split_ok :=
  repeat match goal with
  | H : (_ && _)%bool = true |- _ => apply andb_prop in H; destruct H
  | H : (_ =? _) = true |- _ => apply Z.eqb_eq in H
  | H : (_ <? _) = true |- _ => apply Z.ltb_lt in H
  | H : (_ <=? _) = true |- _ => apply Z.leb_le in H
  end.
(** The converse for goals. *)
Ltac prove_ok :=
  repeat match goal with
  | |- (_ && _)%bool = true => apply andb_true_intro; split
  | |- (_ =? _) = true => apply Z.eqb_eq
  | |- (_ <? _) = true => apply Z.ltb_lt
  | |- (_ <=? _) = true => apply Z.leb_le
  end.

Lemma fits_iff w v : fits w v = true <-> 0 <= v < 2 ^ w.
Proof. unfold fits. rewrite andb_true_iff, Z.leb_le, Z.ltb_lt. tauto. Qed.
Lemma fits_mod w v : 0 <= w -> fits w (v `mod` 2 ^ w) = true.
Proof. intros Hw. apply fits_iff, Z.mod_pos_bound. lia. Qed.
Lemma fits_0 w : 0 <= w -> fits w 0 = true.
Proof. intros Hw. apply fits_iff. lia. Qed.
Lemma fits_bool b : fits 1 (b2z b) = true.
Proof. by destruct b. Qed.
Lemma fits_1 v : fits 1 v = true -> v = 0 \/ v = 1.
Proof. rewrite fits_iff. change (2 ^ 1) with 2. lia. Qed.

(** ** Structural comparison *)
Lemma eqb_both :
  (forall a b, expr_eqb a b = true -> a = b) /\ (forall a b, node_eqb a b = true -> a = b).
Proof.
  apply expr_node_ind; intros; destruct b; simpl in *; try done; split_ok; subst;
    repeat match goal with
    | H : bool_decide _ = true |- _ => apply bool_decide_eq_true in H
    | IH : forall b, ?f ?a b = true -> _, H : ?f ?a _ = true |- _ => apply IH in H
    end; congruence.
Qed.
Lemma expr_eqb_eq a b : expr_eqb a b = true -> a = b.
Proof. apply eqb_both. Qed.
Lemma eqb_refl_both : (forall a, expr_eqb a a = true) /\ (forall a, node_eqb a a = true).
Proof.
  apply expr_node_ind; intros; simpl; rewrite ?Z.eqb_refl, ?bool_decide_true by done; simpl;
    repeat match goal with H : _ = true |- _ => rewrite H end; done.
Qed.
#[export] Instance expr_eq_dec : EqDecision expr.
Proof.
  refine (fun a b => match expr_eqb a b as c return expr_eqb a b = c -> Decision (a = b) with
                     | true => fun H => left (expr_eqb_eq a b H)
                     | false => fun H => right _
                     end eq_refl).
  intros ->. by rewrite (proj1 eqb_refl_both b) in H.
Defined.
Lemma expr_eqb_spec a b : expr_eqb a b = bool_decide (a = b).
Proof.
  case_bool_decide as H; [subst; apply eqb_refl_both|].
  destruct (expr_eqb a b) eqn:E; [|done]. by apply expr_eqb_eq in E.
Qed.

(** ** Widths *)
Lemma width_pos e : width_ok e = true -> 0 < getWidth e.
Proof.
  induction e; simpl; intros H; unfold array_ok in *; split_ok; auto; try lia.
  - apply IHe1 in H. apply IHe2 in H0. lia.
  - apply IHe in H. lia.
  - apply IHe in H. lia.
  - destruct (is_cmp k); [lia|auto].
Qed.

(** ** Values *)
Lemma sext_bounds w a : 0 < w -> - 2 ^ (w - 1) <= sext w a < 2 ^ (w - 1).
Proof. apply sext_range. Qed.
Lemma pow2_half w : 0 < w -> 2 ^ w = 2 * 2 ^ (w - 1).
Proof. intros Hw. rewrite <- Z.pow_succ_r by lia. f_equal. lia. Qed.
Lemma sext_mod w a : 0 < w -> sext w a `mod` 2 ^ w = a `mod` 2 ^ w.
Proof.
  intros Hw. unfold sext. destruct (_ <? _); [apply Z.mod_mod; lia|].
  replace (a `mod` 2 ^ w - 2 ^ w) with (a `mod` 2 ^ w + (-1) * 2 ^ w) by lia.
  rewrite Z_mod_plus_full. apply Z.mod_mod. lia.
Qed.
Lemma sext_mod_fits w a : 0 < w -> fits w a = true -> sext w a `mod` 2 ^ w = a.
Proof. intros Hw Ha. apply fits_iff in Ha. rewrite sext_mod by done. by apply Z.mod_small. Qed.
Lemma sext_inj w a b : 0 < w -> fits w a = true -> fits w b = true -> sext w a = sext w b -> a = b.
Proof.
  intros Hw Ha Hb E. rewrite <- (sext_mod_fits w a), <- (sext_mod_fits w b) by done. by rewrite E.
Qed.

Lemma bits_fits w a : 0 <= w -> 0 <= a -> (forall i, w <= i -> Z.testbit a i = false) -> fits w a = true.
Proof.
  intros Hw Ha H. apply fits_iff. split; [done|]. destruct (Z.lt_ge_cases a (2 ^ w)) as [|Hge]; [done|]. exfalso.
  assert (Hl : w <= Z.log2 a) by (apply Z.log2_le_pow2; lia).
  specialize (H _ Hl). rewrite Z.bit_log2 in H by lia. done.
Qed.
Lemma land_fits w a b : 0 <= w -> fits w a = true -> fits w b = true -> fits w (Z.land a b) = true.
Proof.
  intros Hw Ha%fits_iff Hb%fits_iff. apply bits_fits; [done|apply Z.land_nonneg; lia|].
  intros i Hi. by rewrite Z.land_spec, !(testbit_high w).
Qed.
Lemma lor_fits w a b : 0 <= w -> fits w a = true -> fits w b = true -> fits w (Z.lor a b) = true.
Proof.
  intros Hw Ha%fits_iff Hb%fits_iff. apply bits_fits; [done|apply Z.lor_nonneg; lia|].
  intros i Hi. by rewrite Z.lor_spec, !(testbit_high w).
Qed.
Lemma lxor_fits w a b : 0 <= w -> fits w a = true -> fits w b = true -> fits w (Z.lxor a b) = true.
Proof.
  intros Hw Ha%fits_iff Hb%fits_iff. apply bits_fits; [done|apply Z.lxor_nonneg; lia|].
  intros i Hi. by rewrite Z.lxor_spec, !(testbit_high w).
Qed.

Lemma bv_binary_fits k w a b c :
  0 < w -> fits w a = true -> fits w b = true -> bv_binary k w a b = Some c ->
  fits (if is_cmp k then 1 else w) c = true.
Proof.
  intros Hw Ha Hb E. pose proof (proj1 (fits_iff _ _) Ha). pose proof (proj1 (fits_iff _ _) Hb).
  destruct k; simpl in *; try (destruct (Z.eqb_spec b 0); [done|]); simplify_eq;
    try (apply fits_mod; lia); try apply fits_bool;
    try (apply land_fits || apply lor_fits || apply lxor_fits; [lia|done|done]).
  - apply fits_iff. split; [apply Z.div_pos; lia|]. apply Z.div_lt_upper_bound; nia.
  - apply fits_iff. pose proof (Z.mod_pos_bound a b). lia.
  - destruct (w <=? b); [apply fits_0; lia|apply fits_mod; lia].
  - destruct (w <=? b); [apply fits_0; lia|]. apply fits_iff.
    assert (0 < 2 ^ b) by (apply Z.pow_pos_nonneg; lia).
    split; [apply Z.div_pos; lia|]. apply Z.div_lt_upper_bound; nia.
Qed.

Section Values.
Context (init : array -> Z -> option Z) (Hinit : init_ok init).

Lemma initial_fits root i v :
  array_ok root = true -> initial init root i = Some v -> fits (range root) v = true.
Proof.
  unfold array_ok, initial. intros Hr E. split_ok. destruct (_ && _); [|by eapply Hinit].
  rewrite forallb_forall in *. apply list_elem_of_lookup_2, list_elem_of_In in E. auto.
Qed.

Lemma eval_fits_both :
  (forall e, width_ok e = true -> forall v, eval init e = Some v -> fits (getWidth e) v = true) /\
  (forall u root, array_ok root = true -> nodes_ok root u = true ->
     forall i v, eval_updates init root u i = Some v -> fits (range root) v = true).
Proof.
  apply expr_node_ind; simpl; intros; split_ok; simplify_option_eq; eauto.
  - destruct (_ =? 1); [eauto|]. match goal with H : getWidth _ = getWidth _ |- _ => rewrite H end. eauto.
  - rename select (width_ok left = true) into Hl. rename select (width_ok right = true) into Hr.
    match goal with |- fits _ (?x * _ + ?y) = true =>
      assert (fits (getWidth left) x = true) as Hx%fits_iff by eauto;
      assert (fits (getWidth right) y = true) as Hy%fits_iff by eauto end.
    pose proof (width_pos _ Hl). pose proof (width_pos _ Hr).
    apply fits_iff. rewrite Z.pow_add_r by lia. nia.
  - apply fits_mod. lia.
  - match goal with |- fits _ ?x = true => assert (fits (getWidth src) x = true) as Hx%fits_iff by eauto end.
    apply fits_iff. pose proof (Z.pow_le_mono_r 2 (getWidth src) width). lia.
  - apply fits_mod. pose proof (width_pos src). intuition lia.
  - match goal with |- fits _ (_ - ?x) = true => assert (fits (getWidth e) x = true) as Hx%fits_iff by eauto end.
    apply fits_iff. lia.
  - match goal with H : bv_binary _ _ ?x ?y = _ |- _ =>
      apply (bv_binary_fits k (getWidth left) x y) end; [by apply width_pos|eauto| |done].
    match goal with H : getWidth _ = getWidth _ |- _ => rewrite H end. eauto.
  - by eapply initial_fits.
  - destruct (_ =? _); [|eauto].
    match goal with H : getWidth _ = range _ |- _ => rewrite <- H end. eauto.
Qed.

Lemma eval_fits e v : width_ok e = true -> eval init e = Some v -> 0 <= v < 2 ^ getWidth e.
Proof. intros Hw Hv. apply fits_iff. by eapply eval_fits_both. Qed.
End Values.
End ExprFacts.
