(* ===== verification/ExprCreate.v ===== *)
(** * Expressions: the simplifying constructors

    lib/Expr/Expr.cpp: the functions [XExpr::create] through which every expression is
    built. They fold constants, move constants to the left and apply algebraic laws.
    [create_X] is the method [XExpr::create]; the static functions of the file keep their
    names. A failed assertion is [Stop AssertFailed]. LLVM's [APInt], in which constants
    are kept, is an interface. [ConstArrayOpt] is the command line option. *)
From stdpp Require Import base gmap list strings numbers.
From Stdlib Require Import ZArith Lia.
From S2P Require Import Prelude ExprData.

Module Create.
Import Expr.

(** ** LLVM's [APInt]

    A value is its unsigned reading; the first argument is its width. [ap_binary] has
    the operators and the methods udiv, sdiv, urem, srem, shl, lshr, ashr, ult, ule and so
    on; it is [None] where they assert, which is a division by zero. *)
Class APInt : Type := {
  ap_binary : kind -> Z -> Z -> Z -> option Z;
  ap_not : Z -> Z -> Z;
  ap_zextOrTrunc : Z -> Z -> Z -> Z;
  ap_sextOrTrunc : Z -> Z -> Z -> Z
}.

Class APIntOk `{APInt} : Prop := {
  ap_binary_ok k w a b c :
    0 < w -> fits w a = true -> fits w b = true -> bv_binary k w a b = Some c ->
    ap_binary k w a b = Some c;
  ap_binary_zero k w a : is_div k = true -> ap_binary k w a 0 = None;
  ap_not_ok w a : 0 < w -> fits w a = true -> ap_not w a = 2 ^ w - 1 - a;
  ap_zext_ok w a w' : 0 < w -> fits w a = true -> ap_zextOrTrunc w a w' = a `mod` 2 ^ w';
  ap_sext_ok w a w' : 0 < w -> fits w a = true -> ap_sextOrTrunc w a w' = sext w a `mod` 2 ^ w'
}.

Section Create.
Context {ap : APInt} (ConstArrayOpt : bool).

(** ** Constants *)

(** [ConstantExpr::Add] and the other binary operations *)
Definition const_binary (k : kind) (w a b : Z) : result expr :=
  match ap_binary k w a b with
  | Some c => Ret (Constant (if is_cmp k then Bool else w) c)
  | None => Stop AssertFailed
  end.

(** [ConstantExpr::Concat], [Extract], [ZExt], [SExt], [Not] *)
Definition const_concat (w a w' b : Z) : result expr :=
  let W := w + w' in
  t ← const_binary Shl W (ap_zextOrTrunc w a W) w';
  match t with
  | Constant _ t => const_binary Or W t (ap_zextOrTrunc w' b W)
  | _ => Stop AssertFailed
  end.
Definition const_extract (w a off w' : Z) : result expr :=
  match ap_binary AShr w a off with
  | Some t => Ret (Constant w' (ap_zextOrTrunc w t w'))
  | None => Stop AssertFailed
  end.
Definition const_zext (w a w' : Z) : expr := Constant w' (ap_zextOrTrunc w a w').
Definition const_sext (w a w' : Z) : expr := Constant w' (ap_sextOrTrunc w a w').
Definition const_not (w a : Z) : expr := Constant w (ap_not w a).
(** [ConstantExpr::alloc(uint64_t, Width)] *)
Definition const_alloc (v w : Z) : Z := ap_zextOrTrunc 64 v w.

(** [ConstantExpr::create] *)
Definition create_Constant (v w : Z) : result expr := if v =? v `mod` 2 ^ w then Ret (Constant w v) else Stop AssertFailed.
Definition isTrue (w v : Z) : bool := (w =? Bool) && nz v.
Definition isAllOnes (w v : Z) : bool := v =? 2 ^ w - 1.

(** ** The macros BCREATE_R, CMPCREATE_T, BCREATE and CMPCREATE *)
Definition bcreate_r (k : kind) (partialL : expr -> Z -> Z -> result expr)
    (partialR : Z -> Z -> expr -> result expr) (full : expr -> expr -> result expr)
    (l r : expr) : result expr :=
  if negb (getWidth l =? getWidth r) then Stop AssertFailed
  else match l, r with
  | Constant w a, Constant _ b => const_binary k w a b
  | Constant w a, _ => partialR w a r
  | _, Constant w b => partialL l w b
  | _, _ => full l r
  end.
Definition bcreate (k : kind) (full : expr -> expr -> result expr) (l r : expr) : result expr :=
  if negb (getWidth l =? getWidth r) then Stop AssertFailed
  else match l, r with
  | Constant w a, Constant _ b => const_binary k w a b
  | _, _ => full l r
  end.

(** ** And, Or *)
Definition AndExpr_createPartial (l : expr) (w v : Z) : result expr :=
  Ret (if isAllOnes w v then l else if v =? 0 then Constant w v else Binary And l (Constant w v)).
Definition AndExpr_createPartialR (w v : Z) (r : expr) : result expr := AndExpr_createPartial r w v.
Definition AndExpr_create (l r : expr) : result expr := Ret (Binary And l r).
Definition create_And : expr -> expr -> result expr :=
  bcreate_r And AndExpr_createPartial AndExpr_createPartialR AndExpr_create.

Definition OrExpr_createPartial (l : expr) (w v : Z) : result expr :=
  Ret (if isAllOnes w v then Constant w v else if v =? 0 then l else Binary Or l (Constant w v)).
Definition OrExpr_createPartialR (w v : Z) (r : expr) : result expr := OrExpr_createPartial r w v.
Definition OrExpr_create (l r : expr) : result expr := Ret (Binary Or l r).
Definition create_Or : expr -> expr -> result expr :=
  bcreate_r Or OrExpr_createPartial OrExpr_createPartialR OrExpr_create.

(** ** Eq *)
Definition EqExpr_create (l r : expr) : expr :=
  if expr_eqb l r then Constant Bool 1 else Binary Eq l r.

(** [EqExpr::create(e, c)] for a constant [c], by the partial version [rec]. *)
Definition eq_const (rec : Z -> Z -> expr -> result expr) (e : expr) (w v : Z) : result expr :=
  if negb (getWidth e =? w) then Stop AssertFailed
  else match e with
  | Constant _ a => const_binary Eq w a v
  | _ => rec w v e
  end.

(** The loop of [TryConstArrayOpt]; [None] when there are more than 100 matches. *)
Fixpoint const_array_loop (mayBe : Z -> result expr) (value : Z) (values : list Z)
    (i numMatches : Z) (res : expr) : result (option expr) :=
  match values with
  | [] => Ret (Some res)
  | v :: values =>
      if value =? v then
        if 100 <? numMatches + 1 then Ret None
        else e ← mayBe i; res ← create_Or res e;
             const_array_loop mayBe value values (i + 1) (numMatches + 1) res
      else const_array_loop mayBe value values (i + 1) numMatches res
  end.
Definition TryConstArrayOpt (mayBe : Z -> result expr) (w v : Z) (root : array)
    (head : update_node) (index : expr) : result expr :=
  let rd := Read root head index in
  if isSymbolicArray root || nz (getSize head) then Ret (EqExpr_create (Constant w v) rd)
  else
    res ← const_array_loop mayBe v (constantValues root) 0 0 (Constant Bool 0);
    Ret (default (EqExpr_create (Constant w v) rd) res).

Fixpoint EqExpr_createPartialR (width value : Z) (r : expr) {struct r} : result expr :=
  let cl := Constant width value in
  if width =? Bool then
    if isTrue width value then Ret r
    else match r with
    | Binary Eq x y =>
        match x with
        | Constant w v => Ret (if (w =? Bool) && (v =? 0) then y else EqExpr_create cl r)
        | _ => Ret (EqExpr_create cl r)
        end
    | Binary Or x y =>
        a ← eq_const EqExpr_createPartialR x (getWidth x) 0;
        b ← eq_const EqExpr_createPartialR y (getWidth y) 0;
        create_And a b
    | _ => Ret (EqExpr_create cl r)
    end
  else match r with
  | SExt src _ =>
      let fromBits := getWidth src in
      let trunc := ap_zextOrTrunc width value fromBits in
      if value =? ap_sextOrTrunc fromBits trunc width
      then eq_const EqExpr_createPartialR src fromBits trunc
      else Ret (Constant Bool 0)
  | ZExt src _ =>
      let fromBits := getWidth src in
      let trunc := ap_zextOrTrunc width value fromBits in
      if value =? ap_zextOrTrunc fromBits trunc width
      then eq_const EqExpr_createPartialR src fromBits trunc
      else Ret (Constant Bool 0)
  | Binary Add x y =>
      match x with
      | Constant w c =>
          if negb (width =? w) then Stop AssertFailed
          else match ap_binary Sub width value c with
          | Some d => EqExpr_createPartialR width d y
          | None => Stop AssertFailed
          end
      | _ => Ret (EqExpr_create cl r)
      end
  | Binary Sub x y =>
      match x with
      | Constant w c =>
          if negb (w =? width) then Stop AssertFailed
          else match ap_binary Sub width c value with
          | Some d => EqExpr_createPartialR width d y
          | None => Stop AssertFailed
          end
      | _ => Ret (EqExpr_create cl r)
      end
  | Read root head index =>
      if ConstArrayOpt then
        TryConstArrayOpt (fun i => eq_const EqExpr_createPartialR index (getWidth index)
                                     (const_alloc i (getWidth index)))
          width value root head index
      else Ret (EqExpr_create cl r)
  | _ => Ret (EqExpr_create cl r)
  end.
Definition EqExpr_createPartial (l : expr) (w v : Z) : result expr := EqExpr_createPartialR w v l.
Definition create_Eq : expr -> expr -> result expr :=
  bcreate_r Eq EqExpr_createPartial EqExpr_createPartialR (fun l r => Ret (EqExpr_create l r)).

Definition createIsZero (e : expr) : result expr := create_Eq e (Constant (getWidth e) 0).
Definition createImplies (hyp conc : expr) : result expr := h ← createIsZero hyp; create_Or h conc.

(** ** Xor, Add, Sub *)
Definition XorExpr_createPartialR (w v : Z) (r : expr) : result expr :=
  if v =? 0 then Ret r
  else if w =? Bool then EqExpr_createPartial r Bool 0
  else Ret (Binary Xor (Constant w v) r).
Definition XorExpr_createPartial (l : expr) (w v : Z) : result expr := XorExpr_createPartialR w v l.
Definition XorExpr_create (l r : expr) : result expr := Ret (Binary Xor l r).
Definition create_Xor : expr -> expr -> result expr :=
  bcreate_r Xor XorExpr_createPartial XorExpr_createPartialR XorExpr_create.

(** [XExpr::create] of two constants, and of a constant with any expression. *)
Definition const_pair (k : kind) (w a w' b : Z) : result Z :=
  if negb (w =? w') then Stop AssertFailed
  else match ap_binary k w a b with Some c => Ret c | None => Stop AssertFailed end.
Definition with_const (k : kind) (partialR : Z -> Z -> expr -> result expr) (w v : Z) (e : expr)
    : result expr :=
  if negb (w =? getWidth e) then Stop AssertFailed
  else match e with Constant _ b => const_binary k w v b | _ => partialR w v e end.

Fixpoint AddExpr_createPartialR (w v : Z) (r : expr) {struct r} : result expr :=
  if w =? Bool then XorExpr_createPartialR w v r
  else if v =? 0 then Ret r
  else match r with
  | Binary Add (Constant w' c) e =>
      s ← const_pair Add w v w' c; with_const Add AddExpr_createPartialR w s e
  | Binary Sub (Constant w' c) e =>
      s ← const_pair Add w v w' c; with_const Sub SubExpr_createPartialR w s e
  | _ => Ret (Binary Add (Constant w v) r)
  end
with SubExpr_createPartialR (w v : Z) (r : expr) {struct r} : result expr :=
  if w =? Bool then XorExpr_createPartialR w v r
  else match r with
  | Binary Add (Constant w' c) e =>
      s ← const_pair Sub w v w' c; with_const Sub SubExpr_createPartialR w s e
  | Binary Sub (Constant w' c) e =>
      s ← const_pair Sub w v w' c; with_const Add AddExpr_createPartialR w s e
  | _ => Ret (Binary Sub (Constant w v) r)
  end.
Definition AddExpr_createPartial (l : expr) (w v : Z) : result expr := AddExpr_createPartialR w v l.
Definition SubExpr_createPartial (l : expr) (w v : Z) : result expr :=
  match ap_binary Sub w 0 v with
  | Some c => AddExpr_createPartial l w c
  | None => Stop AssertFailed
  end.

(** A node of the given kind whose left kid is a constant. *)
Definition const_left (k : kind) (e : expr) : option (expr * expr) :=
  match e with
  | Binary k' (Constant w c) x => if bool_decide (k = k') then Some (Constant w c, x) else None
  | _ => None
  end.

(** The two functions call each other with fewer nodes each time. *)
Fixpoint AddExpr_create (n : nat) (l r : expr) {struct n} : result expr :=
  match n with
  | O => Stop OutOfFuel
  | S n =>
      let add := bcreate_r Add AddExpr_createPartial AddExpr_createPartialR (AddExpr_create n) in
      let sub := bcreate_r Sub SubExpr_createPartial SubExpr_createPartialR (SubExpr_create n) in
      if getWidth l =? Bool then XorExpr_create l r
      else match const_left Add l with
      | Some (k, a) => x ← add a r; add k x
      | None => match const_left Sub l with
      | Some (k, a) => x ← sub r a; add k x
      | None => match const_left Add r with
      | Some (k, b) => x ← add l b; add k x
      | None => match const_left Sub r with
      | Some (k, b) => x ← sub l b; add k x
      | None => Ret (Binary Add l r)
      end end end end
  end
with SubExpr_create (n : nat) (l r : expr) {struct n} : result expr :=
  match n with
  | O => Stop OutOfFuel
  | S n =>
      let add := bcreate_r Add AddExpr_createPartial AddExpr_createPartialR (AddExpr_create n) in
      let sub := bcreate_r Sub SubExpr_createPartial SubExpr_createPartialR (SubExpr_create n) in
      if getWidth l =? Bool then XorExpr_create l r
      else if expr_eqb l r then Ret (Constant (getWidth l) 0)
      else match const_left Add l with
      | Some (k, a) => x ← sub a r; add k x
      | None => match const_left Sub l with
      | Some (k, a) => x ← add a r; sub k x
      | None => match const_left Add r with
      | Some (k, b) => x ← sub l b; sub x k
      | None => match const_left Sub r with
      | Some (k, b) => x ← add l b; sub x k
      | None => Ret (Binary Sub l r)
      end end end end
  end.

Definition create_Add_n (n : nat) : expr -> expr -> result expr :=
  bcreate_r Add AddExpr_createPartial AddExpr_createPartialR (AddExpr_create n).
Definition create_Sub_n (n : nat) : expr -> expr -> result expr :=
  bcreate_r Sub SubExpr_createPartial SubExpr_createPartialR (SubExpr_create n).
Definition create_Add (l r : expr) : result expr := create_Add_n (nodes l + nodes r) l r.
Definition create_Sub (l r : expr) : result expr := create_Sub_n (nodes l + nodes r) l r.

(** ** Mul and the operators without partial versions *)
Definition MulExpr_createPartialR (w v : Z) (r : expr) : result expr :=
  if w =? Bool then AndExpr_createPartialR w v r
  else Ret (if v =? 1 then r else if v =? 0 then Constant w v else Binary Mul (Constant w v) r).
Definition MulExpr_createPartial (l : expr) (w v : Z) : result expr := MulExpr_createPartialR w v l.
Definition MulExpr_create (l r : expr) : result expr :=
  Ret (if getWidth l =? Bool then Binary And l r else Binary Mul l r).
Definition create_Mul : expr -> expr -> result expr :=
  bcreate_r Mul MulExpr_createPartial MulExpr_createPartialR MulExpr_create.

Definition UDivExpr_create (l r : expr) : result expr :=
  Ret (if getWidth l =? Bool then l else Binary UDiv l r).
Definition SDivExpr_create (l r : expr) : result expr :=
  Ret (if getWidth l =? Bool then l else Binary SDiv l r).
Definition URemExpr_create (l r : expr) : result expr :=
  Ret (if getWidth l =? Bool then Constant Bool 0 else Binary URem l r).
Definition SRemExpr_create (l r : expr) : result expr :=
  Ret (if getWidth l =? Bool then Constant Bool 0 else Binary SRem l r).
Definition ShlExpr_create (l r : expr) : result expr :=
  if getWidth l =? Bool then z ← createIsZero r; create_And l z else Ret (Binary Shl l r).
Definition LShrExpr_create (l r : expr) : result expr :=
  if getWidth l =? Bool then z ← createIsZero r; create_And l z else Ret (Binary LShr l r).
Definition AShrExpr_create (l r : expr) : result expr :=
  Ret (if getWidth l =? Bool then l else Binary AShr l r).
Definition UltExpr_create (l r : expr) : result expr :=
  if getWidth l =? Bool then z ← createIsZero l; create_And z r else Ret (Binary Ult l r).
Definition UleExpr_create (l r : expr) : result expr :=
  if getWidth l =? Bool then z ← createIsZero l; create_Or z r else Ret (Binary Ule l r).
Definition SltExpr_create (l r : expr) : result expr :=
  if getWidth l =? Bool then z ← createIsZero r; create_And l z else Ret (Binary Slt l r).
Definition SleExpr_create (l r : expr) : result expr :=
  if getWidth l =? Bool then z ← createIsZero r; create_Or l z else Ret (Binary Sle l r).

(** [XExpr::create] of the kind [k]. *)
Definition create_binary (k : kind) (l r : expr) : result expr :=
  match k with
  | Add => create_Add l r
  | Sub => create_Sub l r
  | Mul => create_Mul l r
  | UDiv => bcreate UDiv UDivExpr_create l r
  | SDiv => bcreate SDiv SDivExpr_create l r
  | URem => bcreate URem URemExpr_create l r
  | SRem => bcreate SRem SRemExpr_create l r
  | And => create_And l r
  | Or => create_Or l r
  | Xor => create_Xor l r
  | Shl => bcreate Shl ShlExpr_create l r
  | LShr => bcreate LShr LShrExpr_create l r
  | AShr => bcreate AShr AShrExpr_create l r
  | Eq => create_Eq l r
  | Ne => e ← create_Eq l r; create_Eq (Constant Bool 0) e
  | Ult => bcreate Ult UltExpr_create l r
  | Ule => bcreate Ule UleExpr_create l r
  | Ugt => bcreate Ult UltExpr_create r l
  | Uge => bcreate Ule UleExpr_create r l
  | Slt => bcreate Slt SltExpr_create l r
  | Sle => bcreate Sle SleExpr_create l r
  | Sgt => bcreate Slt SltExpr_create r l
  | Sge => bcreate Sle SleExpr_create r l
  end.

(** ** Read, Select, Concat, Extract, casts *)

(** The scan of the updates in [ReadExpr::create]: the value of the first update whose
    index is the index read, as long as the comparisons are decided. *)
Fixpoint read_scan (un : update_node) (index : expr) : result (option expr) :=
  match un with
  | Null => Ret None
  | UpdateNode next i value =>
      cond ← create_Eq index i;
      match cond with
      | Constant w v => if isTrue w v then Ret (Some value) else read_scan next index
      | _ => Ret None
      end
  end.
Definition create_Read (root : array) (head : update_node) (index : expr) : result expr :=
  found ← read_scan head index; Ret (default (Read root head index) found).

Definition create_Select (c t f : expr) : result expr :=
  let kt := getWidth t in
  if negb (getWidth c =? Bool) then Stop AssertFailed
  else if negb (kt =? getWidth f) then Stop AssertFailed
  else match c with
  | Constant w v => Ret (if isTrue w v then t else f)
  | _ =>
      if expr_eqb t f then Ret t
      else if kt =? Bool then
        match t, f with
        | Constant w v, _ =>
            if isTrue w v then create_Or c f else z ← createIsZero c; create_And z f
        | _, Constant w v =>
            if isTrue w v then z ← createIsZero c; create_Or z t else create_And c t
        | _, _ => Ret (Select c t f)
        end
      else Ret (Select c t f)
  end.

(** [ConcatExpr::create], given [ExtractExpr::create] *)
Definition concat_with (extract : expr -> Z -> Z -> result expr) (l r : expr) : result expr :=
  let w := getWidth l + getWidth r in
  match l, r with
  | Constant wl a, Constant wr b => const_concat wl a wr b
  | Extract e ol wl, Extract e' or wr =>
      if expr_eqb e e' && (or + wr =? ol) then extract e or w else Ret (Concat l r)
  | _, _ => Ret (Concat l r)
  end.

(** [ExtractExpr::create]; every call is on an expression with fewer nodes. *)
Fixpoint ExtractExpr_create (n : nat) (e : expr) (off w : Z) {struct n} : result expr :=
  match n with
  | O => Stop OutOfFuel
  | S n =>
      let kw := getWidth e in
      if negb ((0 <? w) && (off + w <=? kw)) then Stop AssertFailed
      else if w =? kw then Ret e
      else match e with
      | Constant we v => const_extract we v off w
      | Concat l r =>
          if getWidth r <=? off then ExtractExpr_create n l (off - getWidth r) w
          else if off + w <=? getWidth r then ExtractExpr_create n r off w
          else
            a ← ExtractExpr_create n l 0 (w - getWidth r + off);
            b ← ExtractExpr_create n r off (getWidth r - off);
            concat_with (ExtractExpr_create n) a b
      | _ => Ret (Extract e off w)
      end
  end.
Definition create_Extract (e : expr) (off w : Z) : result expr := ExtractExpr_create (nodes e) e off w.
Definition create_Concat (l r : expr) : result expr := concat_with create_Extract l r.

(** [ConcatExpr::createN]; the kids in order. *)
Fixpoint create_ConcatN (kids : list expr) : result expr :=
  match kids with
  | [] => Stop AssertFailed
  | [k] => Ret k
  | k :: kids => r ← create_ConcatN kids; create_Concat k r
  end.

Definition create_Not (e : expr) : result expr :=
  Ret (match e with Constant w v => const_not w v | _ => Not e end).
Definition create_ZExt (e : expr) (w : Z) : result expr :=
  let kBits := getWidth e in
  if w =? kBits then Ret e
  else if w <? kBits then create_Extract e 0 w
  else Ret (match e with Constant we v => const_zext we v w | _ => ZExt e w end).
Definition create_SExt (e : expr) (w : Z) : result expr :=
  let kBits := getWidth e in
  if w =? kBits then Ret e
  else if w <? kBits then create_Extract e 0 w
  else Ret (match e with Constant we v => const_sext we v w | _ => SExt e w end).
Definition create_NotOptimized (src : expr) : result expr := Ret (NotOptimized src).

(** [Expr::createTempRead]: the bytes of the array, the last one first. *)
Definition createTempRead (a : array) (w : Z) : result expr :=
  let rd i := create_Read a Null (Constant 32 i) in
  if w =? 1 then b ← rd 0; create_ZExt b Bool
  else if w =? 8 then rd 0
  else if w =? 16 then x1 ← rd 1; x0 ← rd 0; create_Concat x1 x0
  else if w =? 32 then
    x3 ← rd 3; x2 ← rd 2; x1 ← rd 1; x0 ← rd 0; create_ConcatN [x3; x2; x1; x0]
  else if w =? 64 then
    x7 ← rd 7; x6 ← rd 6; x5 ← rd 5; x4 ← rd 4; x3 ← rd 3; x2 ← rd 2; x1 ← rd 1; x0 ← rd 0;
    create_ConcatN [x7; x6; x5; x4; x3; x2; x1; x0]
  else Stop AssertFailed.

(** [rebuild]: the same expression on new kids. *)
Definition rebuild (e : expr) (kids : list expr) : result expr :=
  match e, kids with
  | NotOptimized _, [k] => create_NotOptimized k
  | Read root head _, [k] => create_Read root head k
  | Select _ _ _, [c; t; f] => create_Select c t f
  | Concat _ _, [l; r] => create_Concat l r
  | Extract _ off w, [k] => create_Extract k off w
  | ZExt _ w, [k] => create_ZExt k w
  | SExt _ w, [k] => create_SExt k w
  | Not _, [k] => create_Not k
  | Binary k _ _, [l; r] => create_binary k l r
  | _, _ => Stop AssertFailed
  end.
End Create.
End Create.
