(* ===== verification/ExprSound.v ===== *)
(** * Expressions: the constructors are correct

    For every constructor of Expr.cpp: on well-typed kids it returns (no assertion fails,
    the recursion ends), and what it returns is well typed, has the width of the plain
    expression and has its value for every content of the arrays. *)
From stdpp Require Import base gmap list strings numbers.
From Stdlib Require Import ZArith Lia.
From S2P Require Import Prelude ExprData ExprFacts ExprCreate.

Module Sound.
Import Expr ExprFacts Create.

Section Sound.
Context {ap : APInt} {ap_ok : APIntOk} (ConstArrayOpt : bool).
Context (init : array -> Z -> option Z) (Hinit : init_ok init).
(** With the optimisation of constant arrays there is nothing beyond their end. *)
Context (Hopt : ConstArrayOpt = true ->
  forall a i, isConstantArray a = true -> size a <= i -> init a i = None).

Abbreviation ev := (eval init).
Local Notation "e ≼ e'" := (refines init e e') (at level 70).

(** The constructor's result [r] stands for [e]. *)
Definition implements (e : expr) (r : result expr) : Prop :=
  exists e', r = Ret e' /\ width_ok e' = true /\ getWidth e' = getWidth e /\ e ≼ e'.

Lemma refines_refl e : e ≼ e.
Proof. by intros v. Qed.
Lemma refines_trans e e' e'' : e ≼ e' -> e' ≼ e'' -> e ≼ e''.
Proof. intros H1 H2 v Hv. by apply H2, H1. Qed.
Hint Resolve refines_refl : core.

Lemma impl_ret e e' : width_ok e' = true -> getWidth e' = getWidth e -> e ≼ e' -> implements e (Ret e').
Proof. intros. by exists e'. Qed.
Lemma impl_same e : width_ok e = true -> implements e (Ret e).
Proof. intros. by apply impl_ret. Qed.
Lemma impl_trans e e2 r : implements e2 r -> getWidth e2 = getWidth e -> e ≼ e2 -> implements e r.
Proof.
  intros (e' & -> & Hw & Hg & Hr) Hg2 Hr2. exists e'. split_and!; [done|done|congruence|].
  by eapply refines_trans.
Qed.
Lemma impl_bind e e1 (r1 : result expr) f :
  implements e1 r1 ->
  (forall x, width_ok x = true -> getWidth x = getWidth e1 -> e1 ≼ x -> implements e (f x)) ->
  implements e (r1 ≫= f).
Proof. intros (x & -> & Hw & Hg & Hr) Hf. by apply Hf. Qed.

(** ** Binary expressions *)
Lemma ev_binary k l r v :
  ev (Binary k l r) = Some v ->
  exists a b, ev l = Some a /\ ev r = Some b /\ bv_binary k (getWidth l) a b = Some v.
Proof. simpl. intros H. simplify_option_eq. eauto. Qed.
Lemma ev_binary_intro k l r a b v :
  ev l = Some a -> ev r = Some b -> bv_binary k (getWidth l) a b = Some v -> ev (Binary k l r) = Some v.
Proof. intros Ha Hb Hv. simpl. by rewrite Ha, Hb. Qed.

(** It is enough to look at the values of the kids, which fit. *)
Lemma refines_binary k l r e' :
  width_ok l = true -> width_ok r = true -> getWidth l = getWidth r ->
  (forall a b v, ev l = Some a -> ev r = Some b -> 0 <= a < 2 ^ getWidth l -> 0 <= b < 2 ^ getWidth l ->
     bv_binary k (getWidth l) a b = Some v -> ev e' = Some v) ->
  Binary k l r ≼ e'.
Proof.
  intros Hl Hr Hw H v Hv. apply ev_binary in Hv as (a & b & Ha & Hb & Hv).
  apply (H a b v); [done|done| | |done].
  - exact (eval_fits init Hinit l a Hl Ha).
  - rewrite Hw. exact (eval_fits init Hinit r b Hr Hb).
Qed.
Lemma refines_cong k l r l' r' :
  l ≼ l' -> r ≼ r' -> getWidth l' = getWidth l -> Binary k l r ≼ Binary k l' r'.
Proof.
  intros Hl Hr Hw v Hv. apply ev_binary in Hv as (a & b & Ha & Hb & Hv).
  eapply ev_binary_intro; [by apply Hl|by apply Hr|by rewrite Hw].
Qed.
Lemma impl_cong k l r l' r' e :
  implements (Binary k l' r') e -> l ≼ l' -> r ≼ r' -> getWidth l' = getWidth l ->
  implements (Binary k l r) e.
Proof.
  intros H Hl Hr Hw. eapply impl_trans; [exact H| |by apply refines_cong].
  simpl. by rewrite Hw.
Qed.

Lemma binary_ok k l r :
  width_ok l = true -> width_ok r = true -> getWidth l = getWidth r -> width_ok (Binary k l r) = true.
Proof. intros Hl Hr Hw. simpl. by rewrite Hl, Hr, Hw, Z.eqb_refl. Qed.
Lemma constant_ok w v : 0 < w -> 0 <= v < 2 ^ w -> width_ok (Constant w v) = true.
Proof. intros Hw Hv. simpl. prove_ok; [done|by apply fits_iff]. Qed.
Lemma constant_inv w v : width_ok (Constant w v) = true -> 0 < w /\ 0 <= v < 2 ^ w.
Proof. simpl. intros H. split_ok. by rewrite <- fits_iff. Qed.

Lemma const_binary_impl k w a b :
  0 < w -> 0 <= a < 2 ^ w -> 0 <= b < 2 ^ w -> is_div k = false \/ b <> 0 ->
  implements (Binary k (Constant w a) (Constant w b)) (const_binary k w a b).
Proof.
  intros Hw Ha Hb Hd. unfold const_binary.
  assert (exists c, bv_binary k w a b = Some c) as [c Hc].
  { destruct k; simpl in Hd |- *; try (by eexists); destruct Hd as [|Hd]; try done;
      rewrite (proj2 (Z.eqb_neq b 0) Hd); by eexists. }
  rewrite <- fits_iff in Ha, Hb. rewrite (ap_binary_ok k w a b c) by done.
  apply impl_ret; simpl.
  - prove_ok; [by destruct (is_cmp k)|]. by apply (bv_binary_fits k w a b c).
  - done.
  - intros v. simpl. by rewrite Hc.
Qed.

Lemma bcreate_r_impl k partialL partialR full l r :
  is_div k = false -> width_ok l = true -> width_ok r = true -> getWidth l = getWidth r ->
  (forall w v, l = Constant w v -> isConstant r = false -> implements (Binary k l r) (partialR w v r)) ->
  (forall w v, r = Constant w v -> isConstant l = false -> implements (Binary k l r) (partialL l w v)) ->
  (isConstant l = false -> isConstant r = false -> implements (Binary k l r) (full l r)) ->
  implements (Binary k l r) (bcreate_r k partialL partialR full l r).
Proof.
  intros Hk Hl Hr Hw HR HL HF. unfold bcreate_r. rewrite (proj2 (Z.eqb_eq _ _) Hw).
  change (negb true) with false. cbv iota.
  assert (HC : forall w a w' b, l = Constant w a -> r = Constant w' b ->
    implements (Binary k l r) (const_binary k w a b)).
  { intros w a w' b -> ->. simpl in Hw. subst w'. apply constant_inv in Hl as [? ?], Hr as [? ?].
    apply const_binary_impl; auto. }
  destruct l, r; try (apply HF; done); try (by eapply HL); try (by eapply HR).
  by eapply HC.
Qed.

Lemma bcreate_impl k full l r :
  width_ok l = true -> width_ok r = true -> getWidth l = getWidth r ->
  is_div k = false \/ (forall w, r <> Constant w 0) \/ isConstant l = false ->
  implements (Binary k l r) (full l r) ->
  implements (Binary k l r) (bcreate k full l r).
Proof.
  intros Hl Hr Hw Hk HF. unfold bcreate. rewrite (proj2 (Z.eqb_eq _ _) Hw).
  change (negb true) with false. cbv iota.
  assert (HC : forall w a w' b, l = Constant w a -> r = Constant w' b ->
    implements (Binary k l r) (const_binary k w a b)).
  { intros w a w' b -> ->. simpl in Hw. subst w'. apply constant_inv in Hl as [? ?], Hr as [? ?].
    apply const_binary_impl; [done..|]. destruct Hk as [|[Hk|Hk]]; [by left| |done].
    right. intros ->. by apply (Hk w). }
  destruct l, r; try exact HF. by eapply HC.
Qed.

(** ** And, Or *)
Lemma land_ones_r w a : 0 <= w -> 0 <= a < 2 ^ w -> Z.land a (2 ^ w - 1) = a.
Proof.
  intros Hw Ha. replace (2 ^ w - 1) with (Z.ones w) by (rewrite Z.ones_equiv; lia).
  rewrite Z.land_ones by done. by apply Z.mod_small.
Qed.
Lemma lor_ones_r w a : 0 < w -> 0 <= a < 2 ^ w -> Z.lor a (2 ^ w - 1) = 2 ^ w - 1.
Proof.
  intros Hw Ha. replace (2 ^ w - 1) with (Z.ones w) by (rewrite Z.ones_equiv; lia).
  apply Z.lor_ones_low; [lia|]. destruct (Z.eq_dec a 0) as [->|]; [done|].
  apply Z.log2_lt_pow2; lia.
Qed.

(** The plain binary expression, and one with its kids exchanged. *)
Lemma impl_plain k l r :
  width_ok l = true -> width_ok r = true -> getWidth l = getWidth r ->
  implements (Binary k l r) (Ret (Binary k l r)).
Proof. intros. by apply impl_same, binary_ok. Qed.

Definition commutes (k : kind) : bool :=
  match k with Add | Mul | And | Or | Xor | Eq | Ne => true | _ => false end.
Lemma bv_binary_comm k w a b : commutes k = true -> bv_binary k w a b = bv_binary k w b a.
Proof.
  destruct k; simpl; intros H; try done; f_equal;
    [by rewrite Z.add_comm|by rewrite Z.mul_comm|apply Z.land_comm|apply Z.lor_comm|apply Z.lxor_comm
    |by rewrite Z.eqb_sym|by rewrite Z.eqb_sym].
Qed.
Lemma impl_comm k l r e :
  commutes k = true -> getWidth l = getWidth r ->
  implements (Binary k l r) e -> implements (Binary k r l) e.
Proof.
  intros Hk Hw H. eapply impl_trans; [exact H|simpl; by rewrite Hw|].
  intros v Hv. apply ev_binary in Hv as (a & b & Ha & Hb & Hv).
  eapply ev_binary_intro; [done|done|]. by rewrite bv_binary_comm, Hw.
Qed.

Section Partial.
(** A constant and an expression of its width. *)
Context (w v : Z) (e : expr) (He : width_ok e = true) (Hw : w = getWidth e) (Hv : 0 <= v < 2 ^ w).

Lemma w_pos : 0 < w.
Proof. rewrite Hw. by apply width_pos. Qed.
Lemma const_ok : width_ok (Constant w v) = true.
Proof. apply constant_ok; [apply w_pos|done]. Qed.

(** The value of the constant with one of the expression. *)
Lemma refines_const k e' :
  (forall a c, ev e = Some a -> 0 <= a < 2 ^ w -> bv_binary k w v a = Some c -> ev e' = Some c) ->
  Binary k (Constant w v) e ≼ e'.
Proof.
  intros H. apply refines_binary; [apply const_ok|done|done|]. simpl.
  intros a b c [= <-] Hb _ Hb'. by apply H.
Qed.
End Partial.

Lemma And_partial_impl w v e (He : width_ok e = true) (Hw : w = getWidth e) (Hv : 0 <= v < 2 ^ w) :
  implements (Binary And e (Constant w v)) (AndExpr_createPartial e w v).
Proof.
  apply (impl_comm And (Constant w v) e); [done|done|].
  unfold AndExpr_createPartial, isAllOnes. pose proof (w_pos w e He Hw).
  destruct (Z.eqb_spec v (2 ^ w - 1)) as [->|]; [|destruct (Z.eqb_spec v 0) as [->|]].
  - apply impl_ret; [done|by simpl|]. apply refines_const; [done..|]. simpl. intros a c Ha Hr [= <-].
    by rewrite Z.land_comm, land_ones_r by lia.
  - apply impl_ret; [by apply constant_ok|done|]. apply refines_const; [done..|]. simpl.
    intros a c Ha Hr [= <-]. by rewrite Z.land_0_l.
  - apply (impl_comm And e (Constant w v)); [done|done|]. apply impl_plain; [done|by apply (const_ok w v e)|done].
Qed.
Lemma Or_partial_impl w v e (He : width_ok e = true) (Hw : w = getWidth e) (Hv : 0 <= v < 2 ^ w) :
  implements (Binary Or e (Constant w v)) (OrExpr_createPartial e w v).
Proof.
  apply (impl_comm Or (Constant w v) e); [done|done|].
  unfold OrExpr_createPartial, isAllOnes. pose proof (w_pos w e He Hw).
  destruct (Z.eqb_spec v (2 ^ w - 1)) as [->|]; [|destruct (Z.eqb_spec v 0) as [->|]].
  - apply impl_ret; [by apply constant_ok|done|]. apply refines_const; [done..|]. simpl. intros a c Ha Hr [= <-].
    by rewrite Z.lor_comm, lor_ones_r by lia.
  - apply impl_ret; [done|by simpl|]. apply refines_const; [done..|]. simpl.
    intros a c Ha Hr [= <-]. by rewrite Z.lor_0_l.
  - apply (impl_comm Or e (Constant w v)); [done|done|]. apply impl_plain; [done|by apply (const_ok w v e)|done].
Qed.

Lemma create_And_impl l r :
  width_ok l = true -> width_ok r = true -> getWidth l = getWidth r ->
  implements (Binary And l r) (create_And l r).
Proof.
  intros Hl Hr Hw. apply bcreate_r_impl; [done..| | |intros _ _; by apply impl_plain].
  - intros w v -> _. apply (impl_comm And r (Constant w v)); [done|done|].
    apply And_partial_impl; [done|done|]. exact (proj2 (constant_inv _ _ Hl)).
  - intros w v -> _. apply And_partial_impl; [done|done|]. exact (proj2 (constant_inv _ _ Hr)).
Qed.
Lemma create_Or_impl l r :
  width_ok l = true -> width_ok r = true -> getWidth l = getWidth r ->
  implements (Binary Or l r) (create_Or l r).
Proof.
  intros Hl Hr Hw. apply bcreate_r_impl; [done..| | |intros _ _; by apply impl_plain].
  - intros w v -> _. apply (impl_comm Or r (Constant w v)); [done|done|].
    apply Or_partial_impl; [done|done|]. exact (proj2 (constant_inv _ _ Hl)).
  - intros w v -> _. apply Or_partial_impl; [done|done|]. exact (proj2 (constant_inv _ _ Hr)).
Qed.

(** ** Eq *)
Lemma eq_iff_bool (a b c d : Z) : (a = b <-> c = d) -> b2z (a =? b) = b2z (c =? d).
Proof. intros H. destruct (Z.eqb_spec a b), (Z.eqb_spec c d); tauto. Qed.

Lemma EqExpr_create_impl l r :
  width_ok l = true -> width_ok r = true -> getWidth l = getWidth r ->
  implements (Binary Eq l r) (Ret (EqExpr_create l r)).
Proof.
  intros Hl Hr Hw. unfold EqExpr_create. destruct (expr_eqb l r) eqn:E; [|by apply impl_plain].
  apply expr_eqb_eq in E as <-. apply impl_ret; [done|done|].
  intros v Hv. apply ev_binary in Hv as (a & b & Ha & Hb & Hv). simplify_eq.
  simpl in Hv. rewrite Z.eqb_refl in Hv. done.
Qed.

(** What the partial version promises for the expressions below [e]. *)
Definition eq_partial_spec (e : expr) : Prop :=
  forall w v, w = getWidth e -> 0 <= v < 2 ^ w ->
    implements (Binary Eq (Constant w v) e) (EqExpr_createPartialR ConstArrayOpt w v e).

Lemma eq_const_impl e w v :
  eq_partial_spec e -> width_ok e = true -> w = getWidth e -> 0 <= v < 2 ^ w ->
  implements (Binary Eq (Constant w v) e) (eq_const (EqExpr_createPartialR ConstArrayOpt) e w v).
Proof.
  intros Hs He Hw Hv. unfold eq_const. rewrite <- Hw, Z.eqb_refl. change (negb true) with false.
  cbv iota. assert (Hp : 0 < w) by (rewrite Hw; by apply width_pos).
  destruct e; try (by apply Hs). simpl in Hw. subst w. apply constant_inv in He as [? ?].
  apply (impl_comm Eq (Constant width value) (Constant width v)); [done|done|].
  apply const_binary_impl; auto.
Qed.

(** Equations solved for the unknown, modulo [2 ^ w]. *)
Lemma mod_sub_iff n v c b : 0 <= v < n -> 0 <= b < n -> v = (c + b) `mod` n <-> (v - c) `mod` n = b.
Proof.
  intros Hv Hb. split.
  - intros ->. rewrite Zminus_mod_idemp_l. replace (c + b - c) with b by lia. by apply Z.mod_small.
  - intros <-. rewrite Zplus_mod_idemp_r. replace (c + (v - c)) with v by lia.
    by rewrite Z.mod_small.
Qed.
Lemma mod_sub_iff' n v c b : 0 <= v < n -> 0 <= b < n -> v = (c - b) `mod` n <-> (c - v) `mod` n = b.
Proof.
  intros Hv Hb. split.
  - intros ->. rewrite Zminus_mod_idemp_r. replace (c - (c - b)) with b by lia. by apply Z.mod_small.
  - intros <-. rewrite Zminus_mod_idemp_r. replace (c - (c - v)) with v by lia.
    by rewrite Z.mod_small.
Qed.
Lemma mod_pow_mod a m n : 0 <= m <= n -> (a `mod` 2 ^ n) `mod` 2 ^ m = a `mod` 2 ^ m.
Proof.
  intros H. apply Z.mod_mod_divide. exists (2 ^ (n - m)). rewrite <- Z.pow_add_r by lia. f_equal. lia.
Qed.

(** [(sext(a) == v)] is [(a == trunc v)] when [v] is a sign-extended value, else false. *)
Lemma sext_eq_iff m n a v :
  0 < m <= n -> fits m a = true -> 0 <= v < 2 ^ n ->
  v = sext m a `mod` 2 ^ n <-> v = sext m (v `mod` 2 ^ m) `mod` 2 ^ n /\ v `mod` 2 ^ m = a.
Proof.
  intros Hm Ha Hv. split.
  - intros E. assert (Ht : v `mod` 2 ^ m = a).
    { rewrite E, mod_pow_mod, sext_mod by lia. apply Z.mod_small. by apply fits_iff. }
    by rewrite Ht.
  - by intros [E <-].
Qed.
Lemma zext_eq_iff m n a v :
  0 < m <= n -> fits m a = true -> 0 <= v < 2 ^ n ->
  v = a <-> v = (v `mod` 2 ^ m) `mod` 2 ^ n /\ v `mod` 2 ^ m = a.
Proof.
  intros Hm Ha%fits_iff Hv. pose proof (Z.pow_le_mono_r 2 m n).
  rewrite (Z.mod_small (v `mod` 2 ^ m) (2 ^ n)) by (pose proof (Z.mod_pos_bound v (2 ^ m)); lia). split.
  - intros ->. by rewrite Z.mod_small.
  - by intros [E <-].
Qed.

Lemma eq_zero_const e v : ev e = Some v -> ev (Binary Eq (Constant (getWidth e) 0) e) = Some (b2z (0 =? v)).
Proof. intros Hv. simpl. by rewrite Hv. Qed.

(** Not(or(a, b)) is and(not a, not b). *)
Lemma not_or_refines l r :
  width_ok l = true -> width_ok r = true -> getWidth l = 1 -> getWidth r = 1 ->
  Binary Eq (Constant 1 0) (Binary Or l r) ≼
  Binary And (Binary Eq (Constant 1 0) l) (Binary Eq (Constant 1 0) r).
Proof.
  intros Hl Hr Wl Wr v Hv. apply ev_binary in Hv as (z & b & [= <-] & Hb & Hv).
  apply ev_binary in Hb as (x & y & Hx & Hy & Hb). simpl in *. simplify_eq.
  rewrite Hx, Hy. simpl. f_equal.
  assert (x = 0 \/ x = 1) as Hx1 by (apply fits_1, fits_iff; rewrite <- Wl; eapply eval_fits; eauto).
  assert (y = 0 \/ y = 1) as Hy1 by (apply fits_1, fits_iff; rewrite <- Wr; eapply eval_fits; eauto).
  by destruct Hx1 as [-> | ->], Hy1 as [-> | ->].
Qed.

Lemma eq_true_refines e : width_ok e = true -> getWidth e = 1 -> Binary Eq (Constant 1 1) e ≼ e.
Proof.
  intros He Hw. apply refines_const; [done|done|by split|]. simpl. intros a c Ha Hr [= <-].
  rewrite Ha. assert (a = 0 \/ a = 1) as [-> | ->] by (apply fits_1; by apply fits_iff); done.
Qed.
Lemma double_negation_refines e :
  width_ok e = true -> getWidth e = 1 -> Binary Eq (Constant 1 0) (Binary Eq (Constant 1 0) e) ≼ e.
Proof.
  intros He Hw v Hv. apply ev_binary in Hv as (z & b & [= <-] & Hb & Hv).
  apply ev_binary in Hb as (x & y & [= <-] & Hy & Hb). simpl in *. simplify_eq. rewrite Hy. f_equal.
  assert (y = 0 \/ y = 1) as [-> | ->] by (apply fits_1, fits_iff; rewrite <- Hw; eapply eval_fits; eauto);
    done.
Qed.

Lemma eq_sext_impl src w v :
  eq_partial_spec src -> width_ok src = true -> getWidth src <= w -> 0 <= v < 2 ^ w ->
  implements (Binary Eq (Constant w v) (SExt src w))
    (let trunc := ap_zextOrTrunc w v (getWidth src) in
     if v =? ap_sextOrTrunc (getWidth src) trunc w
     then eq_const (EqExpr_createPartialR ConstArrayOpt) src (getWidth src) trunc
     else Ret (Constant Bool 0)).
Proof.
  intros IH Hs Hw Hv. pose proof (width_pos _ Hs). cbv zeta.
  rewrite ap_zext_ok by (done || lia || by apply fits_iff).
  rewrite ap_sext_ok by (done || apply fits_mod; lia).
  set (t := v `mod` 2 ^ getWidth src). assert (Ht : 0 <= t < 2 ^ getWidth src) by (apply Z.mod_pos_bound; lia).
  assert (Hok : width_ok (SExt src w) = true) by (simpl; rewrite Hs; by apply Z.leb_le).
  assert (Href : forall e', (forall a, ev src = Some a -> fits (getWidth src) a = true ->
     ev e' = Some (b2z (v =? sext (getWidth src) a `mod` 2 ^ w))) -> Binary Eq (Constant w v) (SExt src w) ≼ e').
  { intros e' He'. apply refines_const; [done|done|done|]. simpl. intros a c Ha _ [= <-].
    simplify_option_eq. apply He'; [done|]. by eapply eval_fits_both. }
  destruct (Z.eqb_spec v (sext (getWidth src) t `mod` 2 ^ w)) as [E|E].
  - eapply impl_trans; [by apply eq_const_impl|done|]. apply Href. intros a Ha Hf. simpl. rewrite Ha. simpl.
    f_equal. apply eq_iff_bool. rewrite sext_eq_iff by (done || lia). fold t. tauto.
  - apply impl_ret; [done|done|]. apply Href. intros a Ha Hf. simpl. f_equal. symmetry.
    rewrite (proj2 (Z.eqb_neq _ _)); [done|]. rewrite sext_eq_iff by (done || lia). fold t. tauto.
Qed.
Lemma eq_zext_impl src w v :
  eq_partial_spec src -> width_ok src = true -> getWidth src <= w -> 0 <= v < 2 ^ w ->
  implements (Binary Eq (Constant w v) (ZExt src w))
    (let trunc := ap_zextOrTrunc w v (getWidth src) in
     if v =? ap_zextOrTrunc (getWidth src) trunc w
     then eq_const (EqExpr_createPartialR ConstArrayOpt) src (getWidth src) trunc
     else Ret (Constant Bool 0)).
Proof.
  intros IH Hs Hw Hv. pose proof (width_pos _ Hs). cbv zeta.
  rewrite (ap_zext_ok w) by (done || lia || by apply fits_iff).
  rewrite ap_zext_ok by (done || apply fits_mod; lia).
  set (t := v `mod` 2 ^ getWidth src). assert (Ht : 0 <= t < 2 ^ getWidth src) by (apply Z.mod_pos_bound; lia).
  assert (Hok : width_ok (ZExt src w) = true) by (simpl; rewrite Hs; by apply Z.leb_le).
  assert (Href : forall e', (forall a, ev src = Some a -> fits (getWidth src) a = true ->
     ev e' = Some (b2z (v =? a))) -> Binary Eq (Constant w v) (ZExt src w) ≼ e').
  { intros e' He'. apply refines_const; [done|done|done|]. simpl. intros a c Ha _ [= <-].
    apply He'; [done|]. by eapply eval_fits_both. }
  destruct (Z.eqb_spec v (t `mod` 2 ^ w)) as [E|E].
  - eapply impl_trans; [by apply eq_const_impl|done|]. apply Href. intros a Ha Hf. simpl. rewrite Ha. simpl.
    f_equal. apply eq_iff_bool. rewrite (zext_eq_iff (getWidth src) w a v) by (done || lia). fold t. tauto.
  - apply impl_ret; [done|done|]. apply Href. intros a Ha Hf. simpl. f_equal. symmetry.
    rewrite (proj2 (Z.eqb_neq _ _)); [done|]. rewrite (zext_eq_iff (getWidth src) w a v) by (done || lia).
    fold t. tauto.
Qed.

Lemma ap_sub w a b :
  0 < w -> 0 <= a < 2 ^ w -> 0 <= b < 2 ^ w -> ap_binary Sub w a b = Some ((a - b) `mod` 2 ^ w).
Proof. intros Hw Ha Hb. apply ap_binary_ok; [done|by apply fits_iff..|done]. Qed.
Lemma ap_add w a b :
  0 < w -> 0 <= a < 2 ^ w -> 0 <= b < 2 ^ w -> ap_binary Add w a b = Some ((a + b) `mod` 2 ^ w).
Proof. intros Hw Ha Hb. apply ap_binary_ok; [done|by apply fits_iff..|done]. Qed.

(** [c0 == c1 + b] is [c0 - c1 == b], and [c0 == c1 - b] is [c1 - c0 == b]. *)
Lemma eq_add_refines w v c e :
  width_ok e = true -> w = getWidth e -> 0 <= v < 2 ^ w -> 0 <= c < 2 ^ w -> w <> 1 ->
  Binary Eq (Constant w v) (Binary Add (Constant w c) e) ≼
  Binary Eq (Constant w ((v - c) `mod` 2 ^ w)) e.
Proof.
  intros He Hw Hv Hc H1 x Hx. apply ev_binary in Hx as (z & b & [= <-] & Hb & Hx).
  apply ev_binary in Hb as (c' & y & [= <-] & Hy & Hb). simpl in *. simplify_eq. rewrite Hy. simpl. f_equal.
  symmetry. apply eq_iff_bool, mod_sub_iff; [done|]. by eapply eval_fits.
Qed.
Lemma eq_sub_refines w v c e :
  width_ok e = true -> w = getWidth e -> 0 <= v < 2 ^ w -> 0 <= c < 2 ^ w -> w <> 1 ->
  Binary Eq (Constant w v) (Binary Sub (Constant w c) e) ≼
  Binary Eq (Constant w ((c - v) `mod` 2 ^ w)) e.
Proof.
  intros He Hw Hv Hc H1 x Hx. apply ev_binary in Hx as (z & b & [= <-] & Hb & Hx).
  apply ev_binary in Hb as (c' & y & [= <-] & Hy & Hb). simpl in *. simplify_eq. rewrite Hy. simpl. f_equal.
  symmetry. apply eq_iff_bool, mod_sub_iff'; [done|]. by eapply eval_fits.
Qed.

(** ** Equality with a read of a constant array *)
Lemma const_array_loop_spec index value values :
  eq_partial_spec index -> width_ok index = true ->
  forall i m res, 0 <= i -> i + Z.of_nat (length values) <= 2 ^ getWidth index ->
  i + Z.of_nat (length values) <= 2 ^ 32 -> width_ok res = true -> getWidth res = 1 ->
  exists o, const_array_loop (fun i => eq_const (EqExpr_createPartialR ConstArrayOpt) index (getWidth index)
              (const_alloc i (getWidth index))) value values i m res = Ret o /\
    forall e, o = Some e -> width_ok e = true /\ getWidth e = 1 /\
      forall j b, ev index = Some j -> ev res = Some (b2z b) ->
        ev e = Some (b2z (b || bool_decide (i <= j /\ values !! Z.to_nat (j - i) = Some value))).
Proof.
  intros IH Hi. induction values as [|v values IHv]; intros i m res H0 Hd H32 Hr Hw; simpl.
  { eexists. split; [done|]. intros e [= <-]. split_and!; [done|done|]. intros j b _ Hb. rewrite Hb.
    rewrite bool_decide_false by (intros [_ ?]; done). by rewrite orb_false_r. }
  cbn [length] in Hd, H32.
  assert (Hlook : forall j, bool_decide (i <= j /\ (v :: values) !! Z.to_nat (j - i) = Some value) =
     (bool_decide (i = j) && bool_decide (value = v)) ||
     bool_decide (i + 1 <= j /\ values !! Z.to_nat (j - (i + 1)) = Some value)).
  { intros j. destruct (decide (i = j)) as [->|Hne].
    - rewrite (bool_decide_true (j = j)), Z.sub_diag by done. simpl.
      rewrite (bool_decide_false (j + 1 <= j /\ _)) by lia. rewrite orb_false_r.
      apply bool_decide_ext. split; [by intros [_ [= ->]]|intros ->; split; [lia|done]].
    - rewrite (bool_decide_false (i = j)) by done. simpl. apply bool_decide_ext.
      destruct (Z_lt_le_dec j i); [lia|].
      replace (Z.to_nat (j - i)) with (S (Z.to_nat (j - (i + 1)))) by lia. simpl. intuition lia. }
  destruct (Z.eqb_spec value v) as [->|Hv].
  - destruct (100 <? m + 1); [by eexists|].
    assert (Hal : const_alloc i (getWidth index) = i).
    { unfold const_alloc. rewrite ap_zext_ok by (lia || apply fits_iff; lia). apply Z.mod_small. lia. }
    rewrite Hal.
    destruct (eq_const_impl index (getWidth index) i IH Hi eq_refl ltac:(lia)) as (x & Ex & Hx & Wx & Rx).
    rewrite Ex. cbn [mbind result_bind].
    destruct (create_Or_impl res x Hr Hx) as (y & Ey & Hy & Wy & Ry); [by rewrite Hw, Wx|].
    rewrite Ey. cbn [mbind result_bind].
    destruct (IHv (i + 1) (m + 1) y) as (o & Eo & Ho); [lia|lia|lia|done|by rewrite Wy|].
    exists o. split; [done|]. intros e He. destruct (Ho e He) as (H1 & H2 & H3). split_and!; [done|done|].
    intros j b Hj Hb. rewrite Hlook, (bool_decide_true (v = v)), andb_true_r, orb_assoc by done. apply H3; [done|].
    apply Ry. assert (ev x = Some (b2z (i =? j))) as Hxe by (apply Rx; simpl; by rewrite Hj).
    simpl. rewrite Hb, Hxe. simpl. f_equal.
    destruct (Z.eqb_spec i j); [rewrite (bool_decide_true (i = j)) by done|rewrite (bool_decide_false (i = j)) by done];
      by destruct b.
  - destruct (IHv (i + 1) m res) as (o & Eo & Ho); [lia|lia|lia|done|done|].
    exists o. split; [done|]. intros e He. destruct (Ho e He) as (H1 & H2 & H3). split_and!; [done|done|].
    intros j b Hj Hb. rewrite Hlook, (bool_decide_false (value = v)), andb_false_r by done. by apply H3.
Qed.

Lemma eq_read_impl root head index w v :
  eq_partial_spec index -> width_ok (Read root head index) = true -> w = range root -> 0 <= v < 2 ^ w ->
  ConstArrayOpt = true ->
  implements (Binary Eq (Constant w v) (Read root head index))
    (TryConstArrayOpt (fun i => eq_const (EqExpr_createPartialR ConstArrayOpt) index (getWidth index)
                                  (const_alloc i (getWidth index))) w v root head index).
Proof.
  intros IH Hr Hw Hv Ho. unfold TryConstArrayOpt.
  assert (Hp : implements (Binary Eq (Constant w v) (Read root head index))
                 (Ret (EqExpr_create (Constant w v) (Read root head index)))).
  { apply EqExpr_create_impl; [|done|done]. apply constant_ok; [|done]. rewrite Hw. by apply width_pos in Hr. }
  destruct (isSymbolicArray root || nz (getSize head)) eqn:Hc; [done|].
  apply orb_false_iff in Hc as [Hsym Hsz]. apply nz_false in Hsz.
  assert (head = Null) as ->.
  { destruct head as [|n x y]; [done|]. exfalso. simpl in Hsz. assert (0 <= getSize n); [|lia].
    clear. induction n; simpl; lia. }
  pose proof Hr as Hr'. simpl in Hr'. unfold array_ok in Hr'. rewrite Hsym in Hr'. simpl in Hr'. split_ok.
  destruct (const_array_loop_spec index v (constantValues root) IH) with (i := 0) (m := 0) (res := Constant 1 0)
    as (o & Eo & Hspec);
    [done|done|match goal with H : getWidth index = _ |- _ => rewrite H end; lia|lia|done|done|].
  rewrite Eo. cbn [mbind result_bind]. destruct o as [e|]; [|done]. simpl.
  destruct (Hspec e eq_refl) as (He & He1 & Hev). apply impl_ret; [done|done|].
  apply refines_const; [done|done|done|]. intros a c Ha _ [= <-]. simpl in Ha.
  destruct (ev index) as [j|] eqn:Hj; [simpl in Ha|done].
  rewrite (Hev j false) by done. simpl. do 2 f_equal.
  assert (Hj' : 0 <= j < 2 ^ getWidth index) by (by eapply eval_fits).
  unfold initial, isConstantArray in Ha. rewrite Hsym in Ha. simpl in Ha. rewrite Z.sub_0_r.
  destruct (Z.ltb_spec j (size root)).
  - rewrite Ha. destruct (Z.eqb_spec v a) as [->|]; [apply bool_decide_true; by split; [lia|]|].
    apply bool_decide_false. intros [_ ?]. congruence.
  - rewrite (Hopt Ho) in Ha; [done| |done]. unfold isConstantArray. by rewrite Hsym.
Qed.

(** [0 == (a or b)] *)
Lemma eq_or_impl l r :
  eq_partial_spec l -> eq_partial_spec r -> width_ok (Binary Or l r) = true -> getWidth l = 1 ->
  implements (Binary Eq (Constant 1 0) (Binary Or l r))
    (a ← eq_const (EqExpr_createPartialR ConstArrayOpt) l (getWidth l) 0;
     b ← eq_const (EqExpr_createPartialR ConstArrayOpt) r (getWidth r) 0;
     create_And a b).
Proof.
  intros IHl IHr Ho Wl. simpl in Ho. split_ok. assert (Wr : getWidth r = 1) by congruence.
  rewrite Wl, Wr. eapply impl_bind; [by apply eq_const_impl|]. intros a Ha Wa Ra.
  eapply impl_bind; [by apply eq_const_impl|]. intros b Hb Wb Rb. simpl in Wa, Wb.
  eapply impl_trans; [apply create_And_impl; [done|done|congruence]|by simpl|].
  eapply refines_trans; [by apply not_or_refines|]. by apply refines_cong.
Qed.

(** [c0 == c1 + e] and [c0 == c1 - e] *)
Lemma eq_shift_impl k w v c e d :
  eq_partial_spec e -> width_ok e = true -> w = getWidth e -> 0 <= v < 2 ^ w -> 0 <= c < 2 ^ w -> w <> 1 ->
  (k = Add /\ d = ap_binary Sub w v c) \/ (k = Sub /\ d = ap_binary Sub w c v) ->
  implements (Binary Eq (Constant w v) (Binary k (Constant w c) e))
    match d with Some d => EqExpr_createPartialR ConstArrayOpt w d e | None => Stop AssertFailed end.
Proof.
  intros IH He Hw Hv Hc H1 Hd. assert (Hp : 0 < w) by (rewrite Hw; by apply width_pos).
  assert (Hm : forall x, 0 <= x `mod` 2 ^ w < 2 ^ w) by (intros; apply Z.mod_pos_bound; lia).
  destruct Hd as [[-> ->]|[-> ->]]; rewrite ap_sub by done;
    (eapply impl_trans; [by apply IH|done|]); [by apply eq_add_refines|by apply eq_sub_refines].
Qed.

Lemma EqPartialR_impl e : width_ok e = true -> eq_partial_spec e.
Proof.
  induction e as [w0 v0|src _|root head index IHi|c _ t _ f _|l _ r _|e _ o w0|src IH w0|src IH w0|e _|k l IHl r IHr];
    intros He w v Hw Hv;
    assert (Hp : 0 < w) by (rewrite Hw; by apply width_pos);
    assert (Hc : width_ok (Constant w v) = true) by (by apply constant_ok);
    assert (Hplain := EqExpr_create_impl (Constant w v) _ Hc He Hw); cbn [EqExpr_createPartialR];
    (destruct (Z.eqb_spec w 1) as [Hw1|Hw1];
      [unfold isTrue; destruct (nz v) eqn:Hnz;
        [subst w; rewrite Hw1 in *; rewrite Z.eqb_refl; apply nz_true in Hnz;
         assert (v = 1) as -> by (change (2 ^ 1) with 2 in Hv; lia);
         apply impl_ret; [done|by rewrite <- Hw1|by apply eq_true_refines]
        |rewrite andb_false_r]|]);
    try exact Hplain.
  - assert (Hix : width_ok index = true) by (simpl in He; by split_ok).
    pose proof (eq_read_impl root head index w v (IHi Hix) He Hw Hv) as Hread.
    destruct ConstArrayOpt; [by apply Hread|exact Hplain].
  - simpl in Hw, He. subst w0. split_ok. apply eq_zext_impl; [by apply IH|done|lia|done].
  - simpl in Hw, He. subst w0. split_ok. apply eq_sext_impl; [by apply IH|done|lia|done].
  - subst w. rewrite Hw1 in *. apply nz_false in Hnz as ->. pose proof He as He'. simpl in He'. split_ok.
    destruct k; try exact Hplain.
    + apply eq_or_impl; [by apply IHl|by apply IHr|done|done].
    + destruct l as [w0 v0| | | | | | | | |]; try exact Hplain.
      destruct ((w0 =? 1) && (v0 =? 0)) eqn:E; [|exact Hplain]. split_ok. subst w0 v0.
      apply impl_ret; [done|simpl in *; congruence|]. apply double_negation_refines; simpl in *; congruence.
  - pose proof He as He'. simpl in He'. split_ok.
    destruct k; try exact Hplain; destruct l as [w0 c| | | | | | | | |]; try exact Hplain;
      simpl in Hw; subst w0; rewrite Z.eqb_refl; change (negb true) with false; cbv iota;
      (match goal with H : width_ok (Constant _ _) = true, H' : getWidth (Constant _ _) = _ |- _ =>
        apply constant_inv in H as [? ?]; simpl in H' end);
      (apply eq_shift_impl; [by apply IHr|done..|by auto]).
Qed.

Lemma create_Eq_impl l r :
  width_ok l = true -> width_ok r = true -> getWidth l = getWidth r ->
  implements (Binary Eq l r) (create_Eq ConstArrayOpt l r).
Proof.
  intros Hl Hr Hw. apply bcreate_r_impl; [done..| | |intros _ _; by apply EqExpr_create_impl].
  - intros w v -> _. apply EqPartialR_impl; [done|done|exact (proj2 (constant_inv _ _ Hl))].
  - intros w v -> _. apply (impl_comm Eq (Constant w v) l); [done|done|].
    apply EqPartialR_impl; [done|done|exact (proj2 (constant_inv _ _ Hr))].
Qed.

Lemma createIsZero_impl e :
  width_ok e = true -> implements (Binary Eq (Constant (getWidth e) 0) e) (createIsZero ConstArrayOpt e).
Proof.
  intros He. pose proof (width_pos _ He).
  apply (impl_comm Eq e (Constant (getWidth e) 0)); [done|done|].
  apply create_Eq_impl; [done|apply constant_ok; lia|done].
Qed.

(** ** Xor, Add, Sub *)
Lemma lxor_1 a : a = 0 \/ a = 1 -> Z.lxor 1 a = b2z (0 =? a).
Proof. by intros [-> | ->]. Qed.

Lemma Xor_partial_impl w v e :
  width_ok e = true -> w = getWidth e -> 0 <= v < 2 ^ w ->
  implements (Binary Xor (Constant w v) e) (XorExpr_createPartialR ConstArrayOpt w v e).
Proof.
  intros He Hw Hv. unfold XorExpr_createPartialR. destruct (Z.eqb_spec v 0) as [->|Hv0].
  - apply impl_ret; [done|by rewrite <- Hw|]. apply refines_const; [done..|]. simpl.
    intros a c Ha _ [= <-]. by rewrite Z.lxor_0_l.
  - destruct (Z.eqb_spec w 1) as [->|Hw1]; [|apply impl_plain; [by apply (const_ok w v e)|done|done]].
    assert (v = 1) as -> by (change (2 ^ 1) with 2 in Hv; lia).
    eapply impl_trans; [by apply EqPartialR_impl|done|]. apply refines_const; [done..|]. simpl.
    intros a c Ha Hr [= <-]. rewrite Ha. simpl. f_equal. symmetry. by apply lxor_1, fits_1, fits_iff.
Qed.
Lemma create_Xor_impl l r :
  width_ok l = true -> width_ok r = true -> getWidth l = getWidth r ->
  implements (Binary Xor l r) (create_Xor ConstArrayOpt l r).
Proof.
  intros Hl Hr Hw. apply bcreate_r_impl; [done..| | |intros _ _; by apply impl_plain].
  - intros w v -> _. apply Xor_partial_impl; [done|done|exact (proj2 (constant_inv _ _ Hl))].
  - intros w v -> _. apply (impl_comm Xor (Constant w v) l); [done|done|].
    apply Xor_partial_impl; [done|done|exact (proj2 (constant_inv _ _ Hr))].
Qed.

(** One bit: addition and subtraction are exclusive or, multiplication is and. *)
Lemma bit_ops a b :
  fits 1 a = true -> fits 1 b = true ->
  (a + b) `mod` 2 ^ 1 = Z.lxor a b /\ (a - b) `mod` 2 ^ 1 = Z.lxor a b /\ (a * b) `mod` 2 ^ 1 = Z.land a b.
Proof. intros [-> | ->]%fits_1 [-> | ->]%fits_1; done. Qed.
Lemma bit_refines k l r :
  width_ok l = true -> width_ok r = true -> getWidth l = getWidth r -> getWidth l = 1 ->
  k = Add \/ k = Sub -> Binary k l r ≼ Binary Xor l r.
Proof.
  intros Hl Hr Hw H1 Hk. apply refines_binary; [done..|]. intros a b v Ha Hb Ra Rb Hv.
  rewrite H1 in *. destruct (bit_ops a b) as (E1 & E2 & _); [by apply fits_iff..|].
  simpl. rewrite Ha, Hb. simpl. destruct Hk as [-> | ->]; simpl in Hv; congruence.
Qed.

(** [const_pair] and [with_const] on arguments of one width. *)
Lemma const_pair_ok k w a b c :
  ap_binary k w a b = Some c -> const_pair k w a w b = Ret c.
Proof. intros H. unfold const_pair. rewrite Z.eqb_refl. simpl. by rewrite H. Qed.
Lemma with_const_impl k partialR w v e :
  is_div k = false -> width_ok e = true -> w = getWidth e -> 0 <= v < 2 ^ w ->
  implements (Binary k (Constant w v) e) (partialR w v e) ->
  implements (Binary k (Constant w v) e) (with_const k partialR w v e).
Proof.
  intros Hk He Hw Hv Hp. unfold with_const. rewrite (proj2 (Z.eqb_eq _ _) Hw). change (negb true) with false.
  cbv iota. destruct e; try exact Hp. simpl in Hw. subst width. apply constant_inv in He as [? ?].
  apply const_binary_impl; auto.
Qed.

(** The laws the partial versions apply, with the sign of the inner constant. *)
Definition sgn (k : kind) : Z := match k with Sub => -1 | _ => 1 end.
Definition addsub (k : kind) : bool := match k with Add | Sub => true | _ => false end.
(** The kind of [k0 (k1 e)]: two subtractions cancel. *)
Definition comp (k0 k1 : kind) : kind := match k0, k1 with Add, Sub | Sub, Add => Sub | _, _ => Add end.

Lemma bv_addsub k w a b : addsub k = true -> bv_binary k w a b = Some ((a + sgn k * b) `mod` 2 ^ w).
Proof. destruct k; simpl; intros H; try done; do 2 f_equal; lia. Qed.
Lemma sgn_comp k0 k1 : addsub k0 = true -> addsub k1 = true -> sgn (comp k0 k1) = sgn k0 * sgn k1.
Proof. by destruct k0, k1. Qed.
Lemma comp_addsub k0 k1 : addsub (comp k0 k1) = true.
Proof. by destruct k0, k1. Qed.
Lemma addsub_width k l r : addsub k = true -> getWidth (Binary k l r) = getWidth l.
Proof. by destruct k. Qed.
Lemma addsub_div k : addsub k = true -> is_div k = false.
Proof. by destruct k. Qed.

Lemma ev_addsub k l r a b :
  addsub k = true -> ev l = Some a -> ev r = Some b ->
  ev (Binary k l r) = Some ((a + sgn k * b) `mod` 2 ^ getWidth l).
Proof. intros Hk Ha Hb. eapply ev_binary_intro; [done|done|]. by apply bv_addsub. Qed.
Lemma ev_addsub_inv k l r v :
  addsub k = true -> ev (Binary k l r) = Some v ->
  exists a b, ev l = Some a /\ ev r = Some b /\ v = (a + sgn k * b) `mod` 2 ^ getWidth l.
Proof.
  intros Hk Hv. apply ev_binary in Hv as (a & b & Ha & Hb & Hv). rewrite bv_addsub in Hv by done.
  simplify_eq. eauto.
Qed.

(** [v k0 (c k1 e)] is [(v k0 c) (k0 k1) e]. *)
Lemma addsub_assoc k0 k1 w v c e :
  addsub k0 = true -> addsub k1 = true ->
  Binary k0 (Constant w v) (Binary k1 (Constant w c) e) ≼
  Binary (comp k0 k1) (Constant w ((v + sgn k0 * c) `mod` 2 ^ w)) e.
Proof.
  intros H0 H1 x Hx. apply ev_addsub_inv in Hx as (a & b & [= <-] & Hb & ->); [|done].
  apply ev_addsub_inv in Hb as (c' & y & [= <-] & Hy & ->); [|done].
  erewrite ev_addsub; [|apply comp_addsub|done|exact Hy]. f_equal. simpl getWidth.
  rewrite sgn_comp, Zplus_mod_idemp_l by done.
  rewrite <- (Zplus_mod_idemp_r (sgn k0 * _)), Zmult_mod_idemp_r, Zplus_mod_idemp_r. f_equal. lia.
Qed.

Lemma ap_addsub k w a b :
  addsub k = true -> 0 < w -> 0 <= a < 2 ^ w -> 0 <= b < 2 ^ w ->
  ap_binary k w a b = Some ((a + sgn k * b) `mod` 2 ^ w).
Proof. intros Hk Hw Ha Hb. apply ap_binary_ok; [done|by apply fits_iff..|by apply bv_addsub]. Qed.

(** The partial version of each of the two kinds. *)
Definition addsub_partialR (k : kind) : Z -> Z -> expr -> result expr :=
  match k with Sub => SubExpr_createPartialR ConstArrayOpt | _ => AddExpr_createPartialR ConstArrayOpt end.
Definition addsub_partial_spec (e : expr) : Prop :=
  forall k w v, addsub k = true -> w = getWidth e -> 0 <= v < 2 ^ w ->
    implements (Binary k (Constant w v) e) (addsub_partialR k w v e).

Lemma addsub_step k0 k1 w v w' c x :
  addsub_partial_spec x -> addsub k0 = true -> addsub k1 = true -> 0 <= v < 2 ^ w ->
  width_ok (Binary k1 (Constant w' c) x) = true -> w = getWidth (Binary k1 (Constant w' c) x) ->
  implements (Binary k0 (Constant w v) (Binary k1 (Constant w' c) x))
    (s ← const_pair k0 w v w' c; with_const (comp k0 k1) (addsub_partialR (comp k0 k1)) w s x).
Proof.
  intros IH H0 H1 Hv He Hw. rewrite addsub_width in Hw by done. simpl in Hw. subst w'.
  simpl in He. split_ok. match goal with H : fits w c = true |- _ => apply fits_iff in H end.
  rewrite (const_pair_ok k0 w v c _ (ap_addsub k0 w v c H0 ltac:(lia) Hv ltac:(lia))).
  cbn [mbind result_bind]. assert (Hm : 0 <= (v + sgn k0 * c) `mod` 2 ^ w < 2 ^ w) by (apply Z.mod_pos_bound; lia).
  apply (impl_trans _ (Binary (comp k0 k1) (Constant w ((v + sgn k0 * c) `mod` 2 ^ w)) x));
    [|by rewrite !addsub_width by (done || apply comp_addsub)|by apply addsub_assoc].
  apply with_const_impl; [apply addsub_div, comp_addsub|done|done|done|].
  apply IH; [apply comp_addsub|done|done].
Qed.

Lemma addsub_bit k w v e :
  addsub k = true -> width_ok e = true -> w = getWidth e -> 0 <= v < 2 ^ w -> w = 1 ->
  implements (Binary k (Constant w v) e) (XorExpr_createPartialR ConstArrayOpt w v e).
Proof.
  intros Hk He Hw Hv H1. eapply impl_trans; [by apply Xor_partial_impl|by destruct k|].
  apply bit_refines; [by apply (const_ok w v e)|done..|destruct k; auto; done].
Qed.
Lemma add_zero w e : width_ok e = true -> w = getWidth e -> implements (Binary Add (Constant w 0) e) (Ret e).
Proof.
  intros He Hw. assert (0 < w) by (rewrite Hw; by apply width_pos). apply impl_ret; [done|by simpl|].
  apply refines_const; [done|done|lia|]. simpl. intros a c Ha Hr [= <-]. by rewrite Z.mod_small.
Qed.

Lemma addsub_partial_impl e : width_ok e = true -> addsub_partial_spec e.
Proof.
  induction e as [w0 v0|src _|root head index _|c _ t _ f _|l _ r _|e _ o w0|src _ w0|src _ w0|e _|k l _ r IHr];
    intros He k0 w v Hk Hw Hv;
    assert (Hplain := impl_plain k0 (Constant w v) _ (const_ok w v _ He Hw Hv) He Hw);
    destruct k0; try done; cbn [addsub_partialR AddExpr_createPartialR SubExpr_createPartialR];
    (destruct (Z.eqb_spec w 1) as [Hw1|Hw1]; [by apply addsub_bit|]);
    try (destruct (Z.eqb_spec v 0) as [->|Hv0]; [by apply add_zero|]);
    try exact Hplain.
  all: assert (Hs : addsub_partial_spec r) by (apply IHr; simpl in He; by split_ok).
  all: destruct k; try exact Hplain; destruct l as [w0 v0| | | | | | | | |]; try exact Hplain.
  - by apply (addsub_step Add Add).
  - by apply (addsub_step Add Sub).
  - by apply (addsub_step Sub Add).
  - by apply (addsub_step Sub Sub).
Qed.

Lemma Sub_partial_impl l w v :
  width_ok l = true -> w = getWidth l -> 0 <= v < 2 ^ w ->
  implements (Binary Sub l (Constant w v)) (SubExpr_createPartial ConstArrayOpt l w v).
Proof.
  intros Hl Hw Hv. assert (Hp : 0 < w) by (rewrite Hw; by apply width_pos).
  unfold SubExpr_createPartial. rewrite ap_sub by lia.
  assert (Hm : 0 <= (0 - v) `mod` 2 ^ w < 2 ^ w) by (apply Z.mod_pos_bound; lia).
  eapply impl_trans; [exact (addsub_partial_impl l Hl Add w _ eq_refl Hw Hm)|by simpl|].
  apply refines_binary; [done|apply constant_ok; lia|done|]. intros a b x Ha [= <-] _ _ Hx.
  erewrite ev_addsub; [|done|done|exact Ha]. rewrite bv_addsub in Hx by done. injection Hx as <-. f_equal.
  rewrite <- Hw. cbn [getWidth sgn]. rewrite Z.mul_1_l, Zplus_mod_idemp_l. f_equal. lia.
Qed.

(** The constructor of each of the two kinds, with fuel. *)
Definition create_addsub (n : nat) (k : kind) : expr -> expr -> result expr :=
  match k with Sub => create_Sub_n ConstArrayOpt n | _ => create_Add_n ConstArrayOpt n end.
Definition full_addsub (n : nat) (k : kind) : expr -> expr -> result expr :=
  match k with Sub => SubExpr_create ConstArrayOpt n | _ => AddExpr_create ConstArrayOpt n end.

Lemma create_addsub_impl n k l r :
  addsub k = true -> width_ok l = true -> width_ok r = true -> getWidth l = getWidth r ->
  (isConstant l = false -> isConstant r = false -> implements (Binary k l r) (full_addsub n k l r)) ->
  implements (Binary k l r) (create_addsub n k l r).
Proof.
  intros Hk Hl Hr Hw Hf.
  assert (HR : forall w v, l = Constant w v -> implements (Binary k l r) (addsub_partialR k w v r)).
  { intros w v ->. apply addsub_partial_impl; [done|done|done|exact (proj2 (constant_inv _ _ Hl))]. }
  destruct k; try done; (apply bcreate_r_impl; [done..|intros w v E _; by apply HR| |exact Hf]); intros w v -> _.
  - apply (impl_comm Add (Constant w v) l); [done|done|].
    apply (addsub_partial_impl l Hl Add); [done|done|exact (proj2 (constant_inv _ _ Hr))].
  - apply Sub_partial_impl; [done|done|exact (proj2 (constant_inv _ _ Hr))].
Qed.

(** The laws of the full versions. *)
Lemma addsub_laws w c a b :
  getWidth c = w -> getWidth a = w -> getWidth b = w ->
  (Binary Add (Binary Add c a) b ≼ Binary Add c (Binary Add a b)) /\
  (Binary Add (Binary Sub c a) b ≼ Binary Add c (Binary Sub b a)) /\
  (Binary Add b (Binary Add c a) ≼ Binary Add c (Binary Add b a)) /\
  (Binary Add b (Binary Sub c a) ≼ Binary Add c (Binary Sub b a)) /\
  (Binary Sub (Binary Add c a) b ≼ Binary Add c (Binary Sub a b)) /\
  (Binary Sub (Binary Sub c a) b ≼ Binary Sub c (Binary Add a b)) /\
  (Binary Sub b (Binary Add c a) ≼ Binary Sub (Binary Sub b a) c) /\
  (Binary Sub b (Binary Sub c a) ≼ Binary Sub (Binary Add b a) c).
Proof.
  intros Hc Ha Hb. split_and!; intros v Hv; simpl in *;
    destruct (ev c) as [x|] eqn:Ec, (ev a) as [y|] eqn:Ea, (ev b) as [z|] eqn:Eb; simpl in *; try done;
    rewrite Hc, ?Ha, ?Hb in *; injection Hv as <-; f_equal;
    rewrite ?Zplus_mod_idemp_l, ?Zplus_mod_idemp_r, ?Zminus_mod_idemp_l, ?Zminus_mod_idemp_r;
    f_equal; lia.
Qed.

Lemma const_left_some k e c x : const_left k e = Some (c, x) -> e = Binary k c x /\ isConstant c = true.
Proof.
  destruct e as [| | | | | | | | |k' [w v| | | | | | | | |] y]; simpl; try done.
  case_bool_decide as E; [|done]. intros [= <- <-]. by subst k'.
Qed.
Lemma sub_self e : width_ok e = true -> implements (Binary Sub e e) (Ret (Constant (getWidth e) 0)).
Proof.
  intros He. pose proof (width_pos _ He). apply impl_ret; [apply constant_ok; lia|done|].
  intros v Hv. apply ev_binary in Hv as (a & b & Ha & Hb & Hv). simplify_eq. simpl in *.
  by rewrite Z.sub_diag, Zmod_0_l in Hv.
Qed.

Lemma nodes_pos e : (1 <= nodes e)%nat.
Proof. destruct e; simpl; lia. Qed.

(** One rewriting step: the inner expression [k1 a b] is built first, then [k0] of it and
    the constant [c], on either side. *)
Lemma addsub_chain_left n k0 k1 c a b e :
  addsub k0 = true -> addsub k1 = true -> isConstant c = true ->
  width_ok c = true -> width_ok a = true -> width_ok b = true ->
  getWidth a = getWidth b -> getWidth c = getWidth a -> getWidth e = getWidth c ->
  implements (Binary k1 a b) (full_addsub n k1 a b) ->
  e ≼ Binary k0 c (Binary k1 a b) ->
  implements e (x ← create_addsub n k1 a b; create_addsub n k0 c x).
Proof.
  intros H0 H1 Hc Hcw Ha Hb Wab Wca We IH He. eapply impl_bind; [by apply create_addsub_impl|].
  intros x Hx Wx Rx. rewrite addsub_width in Wx by done.
  apply (impl_trans _ (Binary k0 c x)); [|by rewrite addsub_width|eapply refines_trans; [exact He|by apply refines_cong]].
  apply create_addsub_impl; [done..|congruence|]. intros Hc' _. congruence.
Qed.
Lemma addsub_chain_right n k0 k1 c a b e :
  addsub k0 = true -> addsub k1 = true -> isConstant c = true ->
  width_ok c = true -> width_ok a = true -> width_ok b = true ->
  getWidth a = getWidth b -> getWidth c = getWidth a -> getWidth e = getWidth c ->
  implements (Binary k1 a b) (full_addsub n k1 a b) ->
  e ≼ Binary k0 (Binary k1 a b) c ->
  implements e (x ← create_addsub n k1 a b; create_addsub n k0 x c).
Proof.
  intros H0 H1 Hc Hcw Ha Hb Wab Wca We IH He. eapply impl_bind; [by apply create_addsub_impl|].
  intros x Hx Wx Rx. rewrite addsub_width in Wx by done.
  apply (impl_trans _ (Binary k0 x c)); [|by rewrite addsub_width by done; congruence|].
  - apply create_addsub_impl; [done..|congruence|]. intros _ Hc'. congruence.
  - eapply refines_trans; [exact He|]. apply refines_cong; [done|done|by rewrite addsub_width].
Qed.

Lemma full_addsub_impl n :
  forall k l r, addsub k = true -> width_ok l = true -> width_ok r = true -> getWidth l = getWidth r ->
    (nodes l + nodes r <= n)%nat -> implements (Binary k l r) (full_addsub n k l r).
Proof.
  induction n as [|n IH]; intros k l r Hk Hl Hr Hw Hn; [pose proof (nodes_pos l); lia|].
  assert (Hplain := impl_plain k l r Hl Hr Hw).
  assert (Hx : getWidth l = 1 -> implements (Binary k l r) (XorExpr_create l r)).
  { intros H1. eapply impl_trans; [apply impl_plain; done|by destruct k|].
    apply bit_refines; [done..|destruct k; auto; done]. }
  destruct k; try done; cbn [full_addsub AddExpr_create SubExpr_create];
    (destruct (Z.eqb_spec (getWidth l) 1) as [H1|H1]; [by apply Hx|]).
  2: destruct (expr_eqb l r) eqn:Elr; [apply expr_eqb_eq in Elr as <-; by apply sub_self|].
  all: repeat match goal with
    | |- context [const_left ?k ?e] =>
        let E := fresh "E" in destruct (const_left k e) as [[c x]|] eqn:E;
        [apply const_left_some in E as [-> Hc]; simpl in Hl, Hr, Hw, Hn; split_ok|]
    end; try exact Hplain.
  - apply (addsub_chain_left n Add Add c x r); try done; try congruence; [apply IH; (done || congruence || lia)|].
    by apply (addsub_laws (getWidth c)).
  - apply (addsub_chain_left n Add Sub c r x); try done; try congruence; [apply IH; (done || congruence || lia)|].
    by apply (addsub_laws (getWidth c)).
  - apply (addsub_chain_left n Add Add c l x); try done; try congruence; [apply IH; (done || congruence || lia)|].
    by apply (addsub_laws (getWidth c)).
  - apply (addsub_chain_left n Add Sub c l x); try done; try congruence; [apply IH; (done || congruence || lia)|].
    by apply (addsub_laws (getWidth c)).
  - apply (addsub_chain_left n Add Sub c x r); try done; try congruence; [apply IH; (done || congruence || lia)|].
    by apply (addsub_laws (getWidth c)).
  - apply (addsub_chain_left n Sub Add c x r); try done; try congruence; [apply IH; (done || congruence || lia)|].
    by apply (addsub_laws (getWidth c)).
  - apply (addsub_chain_right n Sub Sub c l x); try done; try congruence; [apply IH; (done || congruence || lia)|].
    by apply (addsub_laws (getWidth c)).
  - apply (addsub_chain_right n Sub Add c l x); try done; try congruence; [apply IH; (done || congruence || lia)|].
    by apply (addsub_laws (getWidth c)).
Qed.

Lemma create_Add_impl l r :
  width_ok l = true -> width_ok r = true -> getWidth l = getWidth r ->
  implements (Binary Add l r) (create_Add ConstArrayOpt l r).
Proof.
  intros Hl Hr Hw. apply (create_addsub_impl _ Add); [done..|]. intros _ _. by apply full_addsub_impl.
Qed.
Lemma create_Sub_impl l r :
  width_ok l = true -> width_ok r = true -> getWidth l = getWidth r ->
  implements (Binary Sub l r) (create_Sub ConstArrayOpt l r).
Proof.
  intros Hl Hr Hw. apply (create_addsub_impl _ Sub); [done..|]. intros _ _. by apply full_addsub_impl.
Qed.

(** ** The other binary operators *)
Lemma mul_bit_refines l r :
  width_ok l = true -> width_ok r = true -> getWidth l = getWidth r -> getWidth l = 1 ->
  Binary Mul l r ≼ Binary And l r.
Proof.
  intros Hl Hr Hw H1. apply refines_binary; [done..|]. intros a b v Ha Hb Ra Rb Hv.
  rewrite H1 in *. destruct (bit_ops a b) as (_ & _ & E); [by apply fits_iff..|].
  simpl. rewrite Ha, Hb. simpl in *. congruence.
Qed.
Lemma Mul_partial_impl w v e :
  width_ok e = true -> w = getWidth e -> 0 <= v < 2 ^ w ->
  implements (Binary Mul (Constant w v) e) (MulExpr_createPartialR w v e).
Proof.
  intros He Hw Hv. pose proof (const_ok w v e He Hw Hv) as Hc. unfold MulExpr_createPartialR.
  destruct (Z.eqb_spec w 1) as [H1|H1].
  { eapply impl_trans; [apply (impl_comm And e (Constant w v)); [done|done|by apply And_partial_impl]|done|].
    by apply mul_bit_refines. }
  destruct (Z.eqb_spec v 1) as [->|]; [|destruct (Z.eqb_spec v 0) as [->|]].
  - apply impl_ret; [done|by simpl|]. apply refines_const; [done..|]. intros a c Ha Hr [= <-].
    by rewrite Z.mul_1_l, Z.mod_small.
  - apply impl_ret; [done|done|]. apply refines_const; [done..|]. intros a c Ha Hr [= <-]. done.
  - by apply impl_plain.
Qed.
Lemma create_Mul_impl l r :
  width_ok l = true -> width_ok r = true -> getWidth l = getWidth r ->
  implements (Binary Mul l r) (create_Mul l r).
Proof.
  intros Hl Hr Hw. apply bcreate_r_impl; [done..| | |].
  - intros w v -> _. apply Mul_partial_impl; [done|done|exact (proj2 (constant_inv _ _ Hl))].
  - intros w v -> _. apply (impl_comm Mul (Constant w v) l); [done|done|].
    apply Mul_partial_impl; [done|done|exact (proj2 (constant_inv _ _ Hr))].
  - intros _ _. unfold MulExpr_create. destruct (Z.eqb_spec (getWidth l) 1); [|by apply impl_plain].
    eapply impl_trans; [by apply impl_plain|done|by apply mul_bit_refines].
Qed.

(** An operator that has a special case for one bit. *)
Lemma bit_case_impl k l r (special : result expr) (b : bool) :
  width_ok l = true -> width_ok r = true -> getWidth l = getWidth r ->
  b = (getWidth l =? 1) ->
  (getWidth l = 1 -> implements (Binary k l r) special) ->
  implements (Binary k l r) (if b then special else Ret (Binary k l r)).
Proof.
  intros Hl Hr Hw -> Hs. destruct (Z.eqb_spec (getWidth l) 1); [by apply Hs|by apply impl_plain].
Qed.

(** All values of one bit. *)
Lemma bit_values_refines k l r e' :
  width_ok l = true -> width_ok r = true -> getWidth l = getWidth r -> getWidth l = 1 ->
  (forall a b v, ev l = Some a -> ev r = Some b -> (a = 0 \/ a = 1) -> (b = 0 \/ b = 1) ->
     bv_binary k 1 a b = Some v -> ev e' = Some v) ->
  Binary k l r ≼ e'.
Proof.
  intros Hl Hr Hw H1 H. apply refines_binary; [done..|]. rewrite H1. intros a b v Ha Hb Ra Rb Hv.
  apply (H a b v); [done|done|by apply fits_1, fits_iff|by apply fits_1, fits_iff|done].
Qed.

Lemma bit_first_impl k l r :
  k = UDiv \/ k = SDiv \/ k = AShr ->
  width_ok l = true -> width_ok r = true -> getWidth l = getWidth r -> getWidth l = 1 ->
  implements (Binary k l r) (Ret l).
Proof.
  intros Hk Hl Hr Hw H1. apply impl_ret; [done|by destruct Hk as [-> |[-> | ->]]|].
  apply bit_values_refines; [done..|]. intros a b v Ha Hb Ra Rb Hv. rewrite Ha.
  destruct Hk as [-> |[-> | ->]], Ra as [-> | ->], Rb as [-> | ->]; try done; by vm_compute in Hv; simplify_eq.
Qed.
Lemma bit_zero_impl k l r :
  k = URem \/ k = SRem ->
  width_ok l = true -> width_ok r = true -> getWidth l = getWidth r -> getWidth l = 1 ->
  implements (Binary k l r) (Ret (Constant 1 0)).
Proof.
  intros Hk Hl Hr Hw H1. apply impl_ret; [done|by destruct Hk as [-> | ->]|].
  apply bit_values_refines; [done..|]. intros a b v Ha Hb Ra Rb Hv.
  destruct Hk as [-> | ->], Ra as [-> | ->], Rb as [-> | ->]; try done; by vm_compute in Hv; simplify_eq.
Qed.

(** Boolean combinations of one operand and the negation of the other. *)
Lemma bit_combine_impl k k' (neg_l : bool) l r (z : result expr) (f : expr -> result expr) :
  k' = And \/ k' = Or ->
  width_ok l = true -> width_ok r = true -> getWidth l = getWidth r -> getWidth l = 1 ->
  getWidth (Binary k l r) = 1 ->
  z = createIsZero ConstArrayOpt (if neg_l then l else r) ->
  (forall x, width_ok x = true -> getWidth x = 1 ->
     implements (if neg_l then Binary k' x r else Binary k' l x) (f x)) ->
  (forall a b v, (a = 0 \/ a = 1) -> (b = 0 \/ b = 1) -> bv_binary k 1 a b = Some v ->
     (if neg_l then bv_binary k' 1 (b2z (0 =? a)) b else bv_binary k' 1 a (b2z (0 =? b))) = Some v) ->
  implements (Binary k l r) (z ≫= f).
Proof.
  intros Hk' Hl Hr Hw H1 Hkw -> Hf Hv. eapply impl_bind; [apply createIsZero_impl; by destruct neg_l|].
  intros x Hx Wx Rx. simpl in Wx. eapply impl_trans; [by apply Hf| |].
  - rewrite Hkw. destruct neg_l, Hk' as [-> | ->]; simpl; congruence.
  - apply bit_values_refines; [done..|]. intros a b v Ha Hb Ra Rb E. specialize (Hv a b v Ra Rb E).
    destruct neg_l; (eapply ev_binary_intro; [eauto..|]); simpl getWidth; rewrite ?Wx, ?H1; try exact Hv;
      apply Rx; simpl; by rewrite ?Ha, ?Hb.
Qed.

(** No constant divided by the constant zero. *)
Definition isZero (e : expr) : bool := match e with Constant _ v => v =? 0 | _ => false end.
Definition div_ok (k : kind) (l r : expr) : bool := negb (is_div k && isConstant l && isZero r).

Lemma div_ok_cond k l r :
  div_ok k l r = true -> is_div k = false \/ (forall w, r <> Constant w 0) \/ isConstant l = false.
Proof.
  unfold div_ok. destruct (is_div k); [|by left]. destruct (isConstant l); [|by auto]. simpl.
  intros H. right. left. intros w ->. done.
Qed.

Lemma bit_table k k' (neg_l : bool) :
  In (k, k', neg_l) [(Shl, And, false); (LShr, And, false); (Ult, And, true); (Ule, Or, true);
                     (Slt, And, false); (Sle, Or, false)] ->
  forall a b v, (a = 0 \/ a = 1) -> (b = 0 \/ b = 1) -> bv_binary k 1 a b = Some v ->
     (if neg_l then bv_binary k' 1 (b2z (0 =? a)) b else bv_binary k' 1 a (b2z (0 =? b))) = Some v.
Proof.
  intros Hin a b v Ha Hb. simpl in Hin.
  repeat (destruct Hin as [Hin|Hin]; [injection Hin as <- <- <-;
    destruct Ha as [-> | ->], Hb as [-> | ->]; vm_compute; done|]). done.
Qed.

(** The comparisons that are built with their operands exchanged. *)
Lemma swap_impl k k' l r e :
  In (k, k') [(Ugt, Ult); (Uge, Ule); (Sgt, Slt); (Sge, Sle)] -> getWidth l = getWidth r ->
  implements (Binary k' r l) e -> implements (Binary k l r) e.
Proof.
  intros Hin Hw H. eapply impl_trans; [exact H| |].
  - simpl in Hin. by repeat (destruct Hin as [Hin|Hin]; [injection Hin as <- <-; done|]).
  - intros v Hv. apply ev_binary in Hv as (a & b & Ha & Hb & Hv). eapply ev_binary_intro; [done|done|].
    rewrite <- Hw, <- Hv. simpl in Hin.
    by repeat (destruct Hin as [Hin|Hin]; [injection Hin as <- <-; done|]).
Qed.

Ltac bit_case k' neg_l lem :=
  match goal with |- implements (Binary ?k ?l ?r) _ =>
    apply bit_case_impl; [done..|]; intros Hw1;
    apply (bit_combine_impl k k' neg_l);
      [auto|done..|by rewrite ?Hw1|done|intros x Hx Wx; apply lem; (done || congruence)
      |apply (bit_table k k' neg_l); simpl; tauto]
  end.

Lemma full_binary_impl k l r :
  width_ok l = true -> width_ok r = true -> getWidth l = getWidth r ->
  implements (Binary k l r)
    match k with
    | UDiv => UDivExpr_create l r | SDiv => SDivExpr_create l r
    | URem => URemExpr_create l r | SRem => SRemExpr_create l r
    | Shl => ShlExpr_create ConstArrayOpt l r | LShr => LShrExpr_create ConstArrayOpt l r
    | AShr => AShrExpr_create l r
    | Ult => UltExpr_create ConstArrayOpt l r | Ule => UleExpr_create ConstArrayOpt l r
    | Slt => SltExpr_create ConstArrayOpt l r | Sle => SleExpr_create ConstArrayOpt l r
    | _ => Ret (Binary k l r)
    end.
Proof.
  intros Hl Hr Hw.
  assert (Hif : forall (b : bool) (x y : expr), Ret (if b then x else y) = if b then Ret x else Ret y)
    by (by intros []).
  destruct k; try (by apply impl_plain);
    unfold UDivExpr_create, SDivExpr_create, URemExpr_create, SRemExpr_create, AShrExpr_create; rewrite ?Hif.
  - apply bit_case_impl; [done..|]. intros. apply bit_first_impl; auto.
  - apply bit_case_impl; [done..|]. intros. apply bit_first_impl; auto.
  - apply bit_case_impl; [done..|]. intros. apply bit_zero_impl; auto.
  - apply bit_case_impl; [done..|]. intros. apply bit_zero_impl; auto.
  - bit_case And false create_And_impl.
  - bit_case And false create_And_impl.
  - apply bit_case_impl; [done..|]. intros. apply bit_first_impl; auto.
  - bit_case And true create_And_impl.
  - bit_case Or true create_Or_impl.
  - bit_case And false create_And_impl.
  - bit_case Or false create_Or_impl.
Qed.

Lemma create_Ne_impl l r :
  width_ok l = true -> width_ok r = true -> getWidth l = getWidth r ->
  implements (Binary Ne l r)
    (e ← create_Eq ConstArrayOpt l r; create_Eq ConstArrayOpt (Constant Bool 0) e).
Proof.
  intros Hl Hr Hw. eapply impl_bind; [by apply create_Eq_impl|]. intros x Hx Wx Rx. simpl in Wx.
  eapply impl_trans; [apply create_Eq_impl; [done|done|by rewrite Wx]|done|].
  intros v Hv. apply ev_binary in Hv as (a & b & Ha & Hb & Hv).
  assert (ev x = Some (b2z (a =? b))) as Ex by (apply Rx; by eapply ev_binary_intro).
  eapply ev_binary_intro; [done|exact Ex|]. rewrite <- Hv. simpl. f_equal. by destruct (a =? b).
Qed.

Lemma create_binary_impl k l r :
  width_ok l = true -> width_ok r = true -> getWidth l = getWidth r -> div_ok k l r = true ->
  implements (Binary k l r) (create_binary ConstArrayOpt k l r).
Proof.
  intros Hl Hr Hw Hd. pose proof (div_ok_cond k l r Hd) as Hd'.
  pose proof (full_binary_impl k l r Hl Hr Hw) as Hf.
  destruct k; cbn [create_binary];
    try (apply bcreate_impl; [done..|exact Hf]);
    [by apply create_Add_impl|by apply create_Sub_impl|by apply create_Mul_impl|by apply create_And_impl
    |by apply create_Or_impl|by apply create_Xor_impl|by apply create_Eq_impl|by apply create_Ne_impl|..].
  - apply (swap_impl Ugt Ult); [simpl; tauto|done|].
    apply bcreate_impl; [done..|by left|by apply (full_binary_impl Ult)].
  - apply (swap_impl Uge Ule); [simpl; tauto|done|].
    apply bcreate_impl; [done..|by left|by apply (full_binary_impl Ule)].
  - apply (swap_impl Sgt Slt); [simpl; tauto|done|].
    apply bcreate_impl; [done..|by left|by apply (full_binary_impl Slt)].
  - apply (swap_impl Sge Sle); [simpl; tauto|done|].
    apply bcreate_impl; [done..|by left|by apply (full_binary_impl Sle)].
Qed.

(** ** Extract and Concat *)

(** The bits of an extraction and of a concatenation. *)
Lemma extract_bit a off w i :
  0 <= off -> 0 <= w -> 0 <= i -> Z.testbit ((a / 2 ^ off) `mod` 2 ^ w) i = (i <? w) && Z.testbit a (i + off).
Proof.
  intros Ho Hw Hi. destruct (Z.ltb_spec i w).
  - rewrite Z.mod_pow2_bits_low by lia. by rewrite Z.div_pow2_bits.
  - by rewrite Z.mod_pow2_bits_high.
Qed.
Lemma concat_bit a n b i :
  0 <= n -> 0 <= b < 2 ^ n -> 0 <= i ->
  Z.testbit (a * 2 ^ n + b) i = if i <? n then Z.testbit b i else Z.testbit a (i - n).
Proof.
  intros Hn Hb Hi. rewrite Z.add_comm, <- lor_shiftl_add, Z.lor_spec, Z.shiftl_spec by done.
  destruct (Z.ltb_spec i n).
  - by rewrite (Z.testbit_neg_r a), orb_false_r by lia.
  - by rewrite (testbit_high n b).
Qed.
Lemma sext_bit w a i : 0 < w -> fits w a = true -> 0 <= i < w -> Z.testbit (sext w a) i = Z.testbit a i.
Proof.
  intros Hw Ha Hi. rewrite <- (sext_mod_fits w a) at 2 by done. by rewrite Z.mod_pow2_bits_low by lia.
Qed.
Lemma mod_fits_bounds a w : 0 <= w -> 0 <= a `mod` 2 ^ w < 2 ^ w.
Proof. intros Hw. apply Z.mod_pos_bound. lia. Qed.

Section Slices.
Context (wl wr a b : Z) (Hwl : 0 < wl) (Hwr : 0 < wr) (Ha : 0 <= a < 2 ^ wl) (Hb : 0 <= b < 2 ^ wr).

(** A slice of a concatenation: in the left part, in the right part, across. *)
Lemma slice_left off w :
  wr <= off -> 0 < w ->
  ((a * 2 ^ wr + b) / 2 ^ off) `mod` 2 ^ w = (a / 2 ^ (off - wr)) `mod` 2 ^ w.
Proof.
  intros Ho Hw. apply Z.bits_inj'. intros i Hi. rewrite !extract_bit, concat_bit by lia.
  destruct (i <? w); simpl; [|done]. rewrite (proj2 (Z.ltb_ge (i + off) wr)) by lia. f_equal. lia.
Qed.
Lemma slice_right off w :
  0 <= off -> 0 < w -> off + w <= wr ->
  ((a * 2 ^ wr + b) / 2 ^ off) `mod` 2 ^ w = (b / 2 ^ off) `mod` 2 ^ w.
Proof.
  intros Ho Hw Hs. apply Z.bits_inj'. intros i Hi. rewrite !extract_bit, concat_bit by lia.
  destruct (Z.ltb_spec i w); simpl; [|done]. by rewrite (proj2 (Z.ltb_lt (i + off) wr)) by lia.
Qed.
Lemma slice_across off w :
  0 <= off < wr -> wr < off + w ->
  ((a * 2 ^ wr + b) / 2 ^ off) `mod` 2 ^ w =
  (a / 2 ^ 0) `mod` 2 ^ (w - wr + off) * 2 ^ (wr - off) + (b / 2 ^ off) `mod` 2 ^ (wr - off).
Proof.
  intros Ho Hs. apply Z.bits_inj'. intros i Hi.
  rewrite concat_bit by (lia || apply mod_fits_bounds; lia). rewrite extract_bit, concat_bit by lia.
  destruct (Z.ltb_spec i (wr - off)).
  - rewrite extract_bit, !(proj2 (Z.ltb_lt _ _)) by lia. done.
  - rewrite extract_bit, (proj2 (Z.ltb_ge (i + off) wr)) by lia.
    destruct (Z.ltb_spec i w); [rewrite (proj2 (Z.ltb_lt _ _)) by lia|rewrite (proj2 (Z.ltb_ge _ _)) by lia];
      simpl; [f_equal; lia|done].
Qed.
End Slices.

(** Two adjacent slices. *)
Lemma slice_merge a off wr wl :
  0 <= off -> 0 < wr -> 0 < wl ->
  (a / 2 ^ (off + wr)) `mod` 2 ^ wl * 2 ^ wr + (a / 2 ^ off) `mod` 2 ^ wr = (a / 2 ^ off) `mod` 2 ^ (wl + wr).
Proof.
  intros Ho Hr Hl. apply Z.bits_inj'. intros i Hi.
  rewrite concat_bit by (lia || apply mod_fits_bounds; lia).
  destruct (Z.ltb_spec i wr); rewrite !extract_bit by lia.
  - by rewrite !(proj2 (Z.ltb_lt _ _)) by lia.
  - destruct (Z.ltb_spec i (wl + wr)); [rewrite (proj2 (Z.ltb_lt _ _)) by lia|rewrite (proj2 (Z.ltb_ge _ _)) by lia];
      simpl; [f_equal; lia|done].
Qed.

Lemma const_extract_eq we v off w :
  0 <= v < 2 ^ we -> 0 < w -> 0 <= off -> off + w <= we ->
  const_extract we v off w = Ret (Constant w ((v / 2 ^ off) `mod` 2 ^ w)).
Proof.
  intros Hv Hw Ho Hs. assert (Hf : fits we v = true) by (by apply fits_iff). unfold const_extract.
  assert (Hoff : off < 2 ^ we) by (pose proof (Z.pow_gt_lin_r 2 we); lia).
  rewrite (ap_binary_ok AShr we v off ((sext we v / 2 ^ off) `mod` 2 ^ we));
    [|lia|done|apply fits_iff; lia|simpl; by rewrite Z.min_l by lia].
  rewrite ap_zext_ok by (lia || apply fits_mod; lia). rewrite mod_pow_mod by lia.
  assert (E : (sext we v / 2 ^ off) `mod` 2 ^ w = (v / 2 ^ off) `mod` 2 ^ w).
  { apply Z.bits_inj'. intros i Hi. rewrite !extract_bit by lia.
    destruct (Z.ltb_spec i w); [|done]. by rewrite sext_bit by (done || lia). }
  by rewrite E.
Qed.
Lemma const_concat_eq w a w' b :
  0 < w -> 0 < w' -> 0 <= a < 2 ^ w -> 0 <= b < 2 ^ w' ->
  const_concat w a w' b = Ret (Constant (w + w') (a * 2 ^ w' + b)) /\ a * 2 ^ w' + b < 2 ^ (w + w').
Proof.
  intros Hw Hw' Ha Hb. unfold const_concat, const_binary.
  assert (P : 2 ^ (w + w') = 2 ^ w * 2 ^ w') by (apply Z.pow_add_r; lia).
  assert (0 < 2 ^ w) by lia. assert (0 < 2 ^ w') by lia.
  rewrite !ap_zext_ok by (done || by apply fits_iff).
  rewrite (Z.mod_small a), (Z.mod_small b) by nia.
  assert (w' < 2 ^ (w + w')) by (pose proof (Z.pow_gt_lin_r 2 (w + w')); lia).
  rewrite (ap_binary_ok Shl (w + w') a w' (a * 2 ^ w')); [|lia|apply fits_iff; nia|apply fits_iff; lia|].
  2: { simpl. rewrite (proj2 (Z.leb_gt (w + w') w')) by lia. f_equal. apply Z.mod_small. nia. }
  cbn [mbind result_bind is_cmp].
  rewrite (ap_binary_ok Or (w + w') (a * 2 ^ w') b (a * 2 ^ w' + b));
    [|lia|apply fits_iff; nia|apply fits_iff; nia|].
  2: { simpl. f_equal. rewrite Z.lor_comm, <- Z.shiftl_mul_pow2, lor_shiftl_add by lia.
       rewrite Z.shiftl_mul_pow2 by lia. lia. }
  split; [done|nia].
Qed.

(** A slice on the top of [e] is a slice of something no larger than [n]. *)
Definition top_slice_le (e : expr) (n : nat) : Prop :=
  match e with Extract x _ _ => (nodes x <= n)%nat | _ => True end.
Definition extract_spec (e : expr) (off w : Z) (r : result expr) : Prop :=
  exists e', r = Ret e' /\ width_ok e' = true /\ getWidth e' = w /\ Extract e off w ≼ e' /\
    top_slice_le e' (nodes e).

Lemma concat_refines l r l' r' : l ≼ l' -> r ≼ r' -> getWidth r' = getWidth r -> Concat l r ≼ Concat l' r'.
Proof.
  intros Hl Hr Hw v. simpl. destruct (ev l) as [a|] eqn:Ea; [|done]. destruct (ev r) as [b|] eqn:Eb; [|done].
  rewrite (Hl a Ea), (Hr b Eb), Hw. done.
Qed.
Lemma concat_ok l r : width_ok l = true -> width_ok r = true -> width_ok (Concat l r) = true.
Proof. simpl. by intros -> ->. Qed.
Lemma merge_refines e ol wl or wr :
  0 <= or -> 0 < wr -> 0 < wl -> or + wr = ol ->
  Concat (Extract e ol wl) (Extract e or wr) ≼ Extract e or (wl + wr).
Proof.
  intros Ho Hr Hl <- v. simpl. destruct (ev e) as [a|]; [|done]. simpl. by rewrite slice_merge.
Qed.

(** [ConcatExpr::create] over a correct [ExtractExpr::create] *)
Lemma concat_with_spec extract n l r :
  (forall e off w, (nodes e <= n)%nat -> width_ok e = true -> 0 < w -> 0 <= off -> off + w <= getWidth e ->
     extract_spec e off w (extract e off w)) ->
  top_slice_le l n -> width_ok l = true -> width_ok r = true ->
  exists e', concat_with extract l r = Ret e' /\ width_ok e' = true /\
    getWidth e' = getWidth l + getWidth r /\ Concat l r ≼ e' /\ top_slice_le e' n.
Proof.
  intros Hx Ht Hl Hr.
  assert (Hplain : exists e', Ret (Concat l r) = Ret e' /\ width_ok e' = true /\
    getWidth e' = getWidth l + getWidth r /\ Concat l r ≼ e' /\ top_slice_le e' n).
  { exists (Concat l r). split_and!; [done|by apply concat_ok|done|done|done]. }
  destruct l as [wl a| | | | |e ol wl| | | |]; try exact Hplain;
    destruct r as [wr b| | | | |e' or wr| | | |]; try exact Hplain; cbn [concat_with].
  - apply constant_inv in Hl as [? ?], Hr as [? ?].
    destruct (const_concat_eq wl a wr b) as [-> Hlt]; [done..|]. eexists. split; [done|].
    split_and!; [apply constant_ok; [lia|nia]|done|by intros x|done].
  - destruct (expr_eqb e e' && (or + wr =? ol)) eqn:E; [|exact Hplain]. split_ok.
    match goal with H : expr_eqb _ _ = true |- _ => apply expr_eqb_eq in H as <- end.
    simpl in Hl, Hr. split_ok.
    destruct (Hx e or (wl + wr)) as (e' & E' & Hok & Hwd & Href & Htop); [done|done|lia|lia|lia|].
    simpl getWidth. exists e'. split_and!; [done|done|done| |].
    + eapply refines_trans; [by apply merge_refines|done].
    + revert Htop Ht. unfold top_slice_le. destruct e'; try done. lia.
Qed.

Lemma extract_spec_trans e off w e1 off1 r :
  Extract e off w ≼ Extract e1 off1 w -> (nodes e1 <= nodes e)%nat ->
  extract_spec e1 off1 w r -> extract_spec e off w r.
Proof.
  intros Href Hn (e' & -> & H1 & H2 & H3 & H4). exists e'. split_and!; [done..| |].
  - by eapply refines_trans.
  - revert H4. unfold top_slice_le. destruct e'; try done. lia.
Qed.
Lemma extract_whole e : width_ok e = true -> Extract e 0 (getWidth e) ≼ e.
Proof.
  intros He v. simpl. destruct (ev e) as [a|] eqn:Ea; [|done]. simpl. intros [= <-]. f_equal.
  rewrite Z.div_1_r. symmetry. apply Z.mod_small. by eapply eval_fits.
Qed.

(** The three places of a slice of a concatenation. *)
Lemma extract_concat_refines l r off w :
  width_ok l = true -> width_ok r = true -> 0 < w -> 0 <= off ->
  (getWidth r <= off -> Extract (Concat l r) off w ≼ Extract l (off - getWidth r) w) /\
  (off + w <= getWidth r -> Extract (Concat l r) off w ≼ Extract r off w) /\
  (off < getWidth r < off + w ->
    Extract (Concat l r) off w ≼
    Concat (Extract l 0 (w - getWidth r + off)) (Extract r off (getWidth r - off))).
Proof.
  intros Hl Hr Hw Ho. pose proof (width_pos _ Hl). pose proof (width_pos _ Hr).
  split_and!; intros Hs v; simpl; (destruct (ev l) as [a|] eqn:Ea; [|done]); (destruct (ev r) as [b|] eqn:Eb; [|done]);
    simpl; intros [= <-]; f_equal;
    pose proof (eval_fits init Hinit l a Hl Ea); pose proof (eval_fits init Hinit r b Hr Eb); symmetry.
  - by eapply slice_left.
  - by eapply slice_right.
  - eapply slice_across; (done || lia).
Qed.

Lemma extract_alloc_spec e off w :
  width_ok e = true -> 0 < w -> 0 <= off -> off + w <= getWidth e ->
  extract_spec e off w (Ret (Extract e off w)).
Proof.
  intros He Hw Ho Hs. eexists. split; [done|]. split_and!; [|done|done|simpl; lia].
  simpl. rewrite He. by prove_ok.
Qed.

Lemma ExtractExpr_create_spec n :
  forall e off w, (nodes e <= n)%nat -> width_ok e = true -> 0 < w -> 0 <= off -> off + w <= getWidth e ->
    extract_spec e off w (ExtractExpr_create n e off w).
Proof.
  induction n as [|n IH]; intros e off w Hn He Hw Ho Hs; [pose proof (nodes_pos e); lia|].
  cbn [ExtractExpr_create]. rewrite (proj2 (Z.ltb_lt 0 w) Hw), (proj2 (Z.leb_le _ _) Hs). cbn [andb negb].
  destruct (Z.eqb_spec w (getWidth e)) as [->|Hne].
  { assert (off = 0) as -> by lia. exists e. split_and!; [done..|by apply extract_whole|].
    unfold top_slice_le. destruct e; try done. simpl. lia. }
  pose proof (extract_alloc_spec e off w He Hw Ho Hs) as Hplain.
  destruct e as [we v| | | |l r| | | | |]; try exact Hplain.
  - apply constant_inv in He as [? ?]. simpl in Hs. rewrite const_extract_eq by done.
    eexists. split; [done|]. split_and!; [|done|by intros x|done]. apply constant_ok; [done|apply mod_fits_bounds; lia].
  - simpl in He, Hs, Hn, Hne. split_ok.
    pose proof (width_pos l ltac:(done)). pose proof (width_pos r ltac:(done)).
    destruct (extract_concat_refines l r off w) as (R1 & R2 & R3); [done..|].
    destruct (Z.leb_spec (getWidth r) off) as [Hc|Hc]; [|destruct (Z.leb_spec (off + w) (getWidth r)) as [Hc'|Hc']].
    + eapply extract_spec_trans; [by apply R1|simpl; lia|apply IH; (done || lia)].
    + eapply extract_spec_trans; [by apply R2|simpl; lia|apply IH; (done || lia)].
    + destruct (IH l 0 (w - getWidth r + off)) as (a & -> & A1 & A2 & A3 & A4); [lia|done|lia|lia|lia|].
      destruct (IH r off (getWidth r - off)) as (b & -> & B1 & B2 & B3 & B4); [lia|done|lia|lia|lia|].
      cbn [mbind result_bind].
      destruct (concat_with_spec (ExtractExpr_create n) (nodes l) a b) as (e' & -> & C1 & C2 & C3 & C4);
        [intros; apply IH; (done || lia)|done|done|done|].
      exists e'. split_and!; [done|done|lia| |].
      * eapply refines_trans; [by apply R3|]. eapply refines_trans; [|exact C3].
        apply concat_refines; [done|done|simpl; lia].
      * revert C4. unfold top_slice_le. destruct e'; try done. simpl. lia.
Qed.

Lemma create_Extract_impl e off w :
  width_ok e = true -> 0 < w -> 0 <= off -> off + w <= getWidth e ->
  implements (Extract e off w) (create_Extract e off w).
Proof.
  intros He Hw Ho Hs. destruct (ExtractExpr_create_spec (nodes e) e off w) as (e' & E & H1 & H2 & H3 & _); [done..|].
  by exists e'.
Qed.
Lemma create_Concat_impl l r :
  width_ok l = true -> width_ok r = true -> implements (Concat l r) (create_Concat l r).
Proof.
  intros Hl Hr.
  destruct (concat_with_spec create_Extract (nodes l) l r) as (e' & E & H1 & H2 & H3 & _); [|..|done|done|].
  - intros. by apply ExtractExpr_create_spec.
  - unfold top_slice_le. destruct l; try done. simpl. lia.
  - by exists e'.
Qed.

(** ** Not and the casts *)
Lemma create_Not_impl e : width_ok e = true -> implements (Not e) (create_Not e).
Proof.
  intros He. unfold create_Not. destruct e; try (by apply impl_same). apply constant_inv in He as [Hw Hv].
  unfold const_not. rewrite ap_not_ok by (done || by apply fits_iff).
  apply impl_ret; [apply constant_ok; lia|done|by intros x].
Qed.
Lemma extract_low e w : 0 < w <= getWidth e -> width_ok e = true -> implements (Extract e 0 w) (create_Extract e 0 w).
Proof. intros Hw He. apply create_Extract_impl; (done || lia). Qed.

(** A cast to a smaller width is an extraction. *)
Definition cast_plain (signed : bool) (e : expr) (w : Z) : expr :=
  if w <? getWidth e then Extract e 0 w else if signed then SExt e w else ZExt e w.
Lemma create_ZExt_impl e w :
  width_ok e = true -> 0 < w -> implements (cast_plain false e w) (create_ZExt e w).
Proof.
  intros He Hw. unfold cast_plain, create_ZExt. destruct (Z.eqb_spec w (getWidth e)) as [->|Hne].
  { rewrite Z.ltb_irrefl. apply impl_ret; [done|done|by intros x]. }
  destruct (Z.ltb_spec w (getWidth e)); [apply extract_low; (done || lia)|].
  destruct e; try (apply impl_same; simpl in *; rewrite He; apply Z.leb_le; lia).
  apply constant_inv in He as [Hp Hv]. simpl in *. unfold const_zext.
  rewrite ap_zext_ok by (done || by apply fits_iff).
  pose proof (Z.pow_le_mono_r 2 width w). rewrite Z.mod_small by lia.
  apply impl_ret; [apply constant_ok; lia|done|by intros x].
Qed.
Lemma create_SExt_impl e w :
  width_ok e = true -> 0 < w -> implements (cast_plain true e w) (create_SExt e w).
Proof.
  intros He Hw. pose proof (width_pos _ He). unfold cast_plain, create_SExt.
  destruct (Z.eqb_spec w (getWidth e)) as [->|Hne].
  { rewrite Z.ltb_irrefl. apply impl_ret; [done|done|]. intros x. simpl.
    destruct (ev e) as [a|] eqn:Ea; [|done]. simpl. intros [= <-]. f_equal. symmetry.
    apply sext_mod_fits; [done|]. by eapply eval_fits_both. }
  destruct (Z.ltb_spec w (getWidth e)); [apply extract_low; (done || lia)|].
  destruct e; try (apply impl_same; simpl in *; rewrite He; apply Z.leb_le; lia).
  apply constant_inv in He as [Hp Hv]. simpl in *. unfold const_sext.
  rewrite ap_sext_ok by (done || by apply fits_iff).
  apply impl_ret; [apply constant_ok; [lia|apply mod_fits_bounds; lia]|done|by intros x].
Qed.

(** ** Select *)
Lemma select_refines c t f e' :
  width_ok c = true -> getWidth c = 1 ->
  (forall a x y, ev c = Some a -> (a = 0 \/ a = 1) -> ev t = Some x -> ev f = Some y ->
     ev e' = Some (if a =? 1 then x else y)) ->
  Select c t f ≼ e'.
Proof.
  intros Hc Hw H v. simpl. destruct (ev c) as [a|] eqn:Ea, (ev t) as [x|] eqn:Et, (ev f) as [y|] eqn:Ef;
    try done. simpl. intros [= <-]. apply H; [done| |done|done].
  apply fits_1, fits_iff. rewrite <- Hw. by eapply eval_fits.
Qed.

Section SelectBool.
Context (c t f : expr) (Hc : width_ok c = true) (Wc : getWidth c = 1).
Context (Ht : width_ok t = true) (Hf : width_ok f = true) (Wt : getWidth t = 1) (Wf : getWidth f = 1).

(** The operators on one bit. *)
Lemma select_values e' :
  (forall a x y, (a = 0 \/ a = 1) -> (x = 0 \/ x = 1) -> (y = 0 \/ y = 1) ->
     ev c = Some a -> ev t = Some x -> ev f = Some y -> ev e' = Some (if a =? 1 then x else y)) ->
  Select c t f ≼ e'.
Proof.
  intros H. apply select_refines; [done|done|]. intros a x y Ha Ra Hx Hy.
  apply H; [done|..|done|done|done]; apply fits_1, fits_iff; [rewrite <- Wt|rewrite <- Wf]; by eapply eval_fits.
Qed.
Lemma neg_value x a :
  Binary Eq (Constant 1 0) c ≼ x -> ev c = Some a -> ev x = Some (b2z (0 =? a)).
Proof. intros Hx Ha. apply Hx. simpl. by rewrite Ha. Qed.

Lemma select_t_impl w v :
  t = Constant w v ->
  implements (Select c t f)
    (if isTrue w v then create_Or c f else z ← createIsZero ConstArrayOpt c; create_And z f).
Proof.
  intros Et. assert (w = 1) as -> by (by rewrite Et in Wt).
  unfold isTrue. rewrite Z.eqb_refl. destruct (nz v) eqn:Hn; cbn [andb].
  - apply nz_true in Hn. eapply impl_trans; [apply create_Or_impl; [done|done|congruence]|simpl; congruence|].
    apply select_values. intros a x y Ra Rx Ry Ha Hx Hy. rewrite Et in Hx. simpl in Hx. simplify_eq.
    simpl. rewrite Ha, Hy. simpl. f_equal. destruct Rx as [-> | ->]; [done|].
    by destruct Ra as [-> | ->], Ry as [-> | ->].
  - apply nz_false in Hn as ->. eapply impl_bind; [by apply createIsZero_impl|]. rewrite Wc. intros z Hz Wz Rz.
    simpl in Wz. eapply impl_trans; [apply create_And_impl; [done|done|congruence]|simpl; congruence|].
    apply select_values. intros a x y Ra Rx Ry Ha Hx Hy. rewrite Et in Hx. simpl in Hx. simplify_eq.
    simpl. rewrite (neg_value z a Rz Ha), Hy. simpl. f_equal. by destruct Ra as [-> | ->], Ry as [-> | ->].
Qed.
Lemma select_f_impl w v :
  f = Constant w v ->
  implements (Select c t f)
    (if isTrue w v then z ← createIsZero ConstArrayOpt c; create_Or z t else create_And c t).
Proof.
  intros Ef. assert (w = 1) as -> by (by rewrite Ef in Wf).
  unfold isTrue. rewrite Z.eqb_refl. destruct (nz v) eqn:Hn; cbn [andb].
  - apply nz_true in Hn. eapply impl_bind; [by apply createIsZero_impl|]. rewrite Wc. intros z Hz Wz Rz.
    simpl in Wz. eapply impl_trans; [apply create_Or_impl; [done|done|congruence]|simpl; congruence|].
    apply select_values. intros a x y Ra Rx Ry Ha Hx Hy. rewrite Ef in Hy. simpl in Hy. simplify_eq.
    simpl. rewrite (neg_value z a Rz Ha), Hx. simpl. f_equal. destruct Ry as [-> | ->]; [done|].
    by destruct Ra as [-> | ->], Rx as [-> | ->].
  - apply nz_false in Hn as ->. eapply impl_trans; [apply create_And_impl; [done|done|congruence]|simpl; congruence|].
    apply select_values. intros a x y Ra Rx Ry Ha Hx Hy. rewrite Ef in Hy. simpl in Hy. simplify_eq.
    simpl. rewrite Ha, Hx. simpl. f_equal. by destruct Ra as [-> | ->], Rx as [-> | ->].
Qed.
End SelectBool.

Lemma create_Select_impl c t f :
  width_ok c = true -> width_ok t = true -> width_ok f = true -> getWidth c = 1 -> getWidth t = getWidth f ->
  implements (Select c t f) (create_Select ConstArrayOpt c t f).
Proof.
  intros Hc Ht Hf Wc Wtf. unfold create_Select. rewrite Wc, Z.eqb_refl, (proj2 (Z.eqb_eq _ _) Wtf).
  cbn [negb]. assert (Hplain : implements (Select c t f) (Ret (Select c t f))).
  { apply impl_same. simpl. rewrite Hc, Ht, Hf, Wc, Wtf, !Z.eqb_refl. done. }
  assert (Hgen : implements (Select c t f)
    (if expr_eqb t f then Ret t
     else if getWidth t =? Bool then
       match t, f with
       | Constant w v, _ => if isTrue w v then create_Or c f else z ← createIsZero ConstArrayOpt c; create_And z f
       | _, Constant w v => if isTrue w v then z ← createIsZero ConstArrayOpt c; create_Or z t else create_And c t
       | _, _ => Ret (Select c t f)
       end
     else Ret (Select c t f))).
  { destruct (expr_eqb t f) eqn:E.
    { apply expr_eqb_eq in E as <-. apply impl_ret; [done|done|]. apply select_refines; [done|done|].
      intros a x y _ _ Hx Hy. rewrite Hx. simplify_eq. by destruct (a =? 1). }
    destruct (Z.eqb_spec (getWidth t) 1) as [Wt|]; [|done].
    assert (Wf : getWidth f = 1) by congruence.
    pose proof (select_t_impl c t f Hc Wc Ht Hf Wt Wf) as H1.
    pose proof (select_f_impl c t f Hc Wc Ht Hf Wt Wf) as H2.
    destruct t; try (by apply H1); destruct f; try (by apply H2); exact Hplain. }
  destruct c as [w v| | | | | | | | |]; try exact Hgen. simpl in Wc. subst w. clear Hgen.
  apply constant_inv in Hc as [_ Hv]. unfold isTrue. rewrite Z.eqb_refl. cbn [andb].
  destruct (nz v) eqn:Hn; (apply impl_ret; [done|simpl; congruence|]); intros x; simpl;
    (destruct (ev t) as [a|] eqn:Ea, (ev f) as [b|] eqn:Eb; try done); simpl; intros [= <-].
  - apply nz_true in Hn. change (2 ^ 1) with 2 in Hv. by rewrite (proj2 (Z.eqb_eq v 1)) by lia.
  - by apply nz_false in Hn as ->.
Qed.

(** ** Read *)
Lemma read_scan_spec root index un :
  width_ok index = true -> getWidth index = domain root -> nodes_ok root un = true ->
  exists o, read_scan ConstArrayOpt un index = Ret o /\
    forall value, o = Some value -> width_ok value = true /\ getWidth value = range root /\
      forall i v, ev index = Some i -> eval_updates init root un i = Some v -> ev value = Some v.
Proof.
  intros Hi Wi. induction un as [|next IH ui uv]; intros Hn; simpl.
  { by eexists. }
  simpl in Hn. split_ok.
  destruct (create_Eq_impl index ui) as (cond & -> & Hc & Wc & Rc); [done|done|congruence|].
  cbn [mbind result_bind]. destruct cond as [w b| | | | | | | | |]; try (by eexists). simpl in Wc. subst w.
  assert (Hb : forall i j, ev index = Some i -> ev ui = Some j -> b = b2z (i =? j)).
  { intros i j Ei Ej. assert (Some b = Some (b2z (i =? j))) as [= ->]; [|done].
    apply (Rc (b2z (i =? j))). simpl. by rewrite Ei, Ej. }
  unfold isTrue. rewrite Z.eqb_refl. destruct (nz b) eqn:Hnz; cbn [andb].
  - apply nz_true in Hnz. eexists. split; [done|]. intros value [= <-]. split_and!; [done|done|].
    intros i v Ei Hv. destruct (ev ui) as [j|] eqn:Ej; [|done]. simpl in Hv.
    specialize (Hb i j Ei eq_refl). destruct (i =? j); [done|]. by subst b.
  - apply nz_false in Hnz. destruct IH as (o & Eo & Ho); [done|]. exists o. split; [done|].
    intros value Ev. destruct (Ho value Ev) as (H1' & H2' & H3'). split_and!; [done|done|].
    intros i v Ei Hv. destruct (ev ui) as [j|] eqn:Ej; [|done]. simpl in Hv.
    specialize (Hb i j Ei eq_refl). destruct (i =? j); [by subst b|by apply (H3' i)].
Qed.
Lemma create_Read_impl root head index :
  width_ok (Read root head index) = true ->
  implements (Read root head index) (create_Read ConstArrayOpt root head index).
Proof.
  intros Hr. pose proof Hr as Hr'. simpl in Hr'. split_ok. unfold create_Read.
  destruct (read_scan_spec root index head) as (o & -> & Ho); [done..|]. cbn [mbind result_bind].
  destruct o as [value|]; [|by apply impl_same]. simpl. destruct (Ho value eq_refl) as (Hv & Wv & Ev).
  apply impl_ret; [done|done|]. intros v. simpl. destruct (ev index) as [i|] eqn:Ei; [|done]. simpl. by apply Ev.
Qed.

(** ** Concatenations of several kids, the most significant first *)
Fixpoint concat_all (k : expr) (kids : list expr) : expr :=
  match kids with [] => k | k' :: kids => Concat k (concat_all k' kids) end.
Lemma create_ConcatN_impl k kids :
  Forall (fun e => width_ok e = true) (k :: kids) -> implements (concat_all k kids) (create_ConcatN (k :: kids)).
Proof.
  revert k. induction kids as [|k' kids IH]; intros k H; apply Forall_cons_iff in H as [Hk Hks].
  - by apply impl_same.
  - change (create_ConcatN (k :: k' :: kids)) with (create_ConcatN (k' :: kids) ≫= create_Concat k).
    eapply impl_bind; [by apply IH|]. intros x Hx Wx Rx.
    apply (impl_trans _ (Concat k x)); [by apply create_Concat_impl|cbn [concat_all getWidth]; by rewrite Wx|].
    apply concat_refines; [done|done|by rewrite Wx].
Qed.

(** ** Rebuilding *)

(** The same expression on other kids. *)
Definition with_kids (e : expr) (kids : list expr) : option expr :=
  match e, kids with
  | NotOptimized _, [k] => Some (NotOptimized k)
  | Read root head _, [k] => Some (Read root head k)
  | Select _ _ _, [c; t; f] => Some (Select c t f)
  | Concat _ _, [l; r] => Some (Concat l r)
  | Extract _ off w, [k] => Some (Extract k off w)
  | ZExt _ w, [k] => Some (ZExt k w)
  | SExt _ w, [k] => Some (SExt k w)
  | Not _, [k] => Some (Not k)
  | Binary k _ _, [l; r] => Some (Binary k l r)
  | _, _ => None
  end.

Lemma cast_plain_wide s k w : getWidth k <= w -> cast_plain s k w = if s then SExt k w else ZExt k w.
Proof. intros H. unfold cast_plain. by rewrite (proj2 (Z.ltb_ge w (getWidth k))) by lia. Qed.

Lemma rebuild_impl e kids e1 :
  with_kids e kids = Some e1 -> width_ok e1 = true ->
  match e1 with Binary k l r => div_ok k l r = true | _ => True end ->
  implements e1 (rebuild ConstArrayOpt e kids).
Proof.
  intros Hk Hok Hd.
  destruct e; destruct kids as [|k0 [|k1 [|k2 [|? ?]]]]; try done; simpl in Hk; injection Hk as <-;
    pose proof Hok as Hok'; simpl in Hok'; split_ok; cbn [rebuild].
  - by apply impl_same.
  - by apply create_Read_impl.
  - by apply create_Select_impl.
  - by apply create_Concat_impl.
  - by apply create_Extract_impl.
  - rewrite <- (cast_plain_wide false) by done. apply create_ZExt_impl; [done|].
    pose proof (width_pos k0 ltac:(done)). lia.
  - rewrite <- (cast_plain_wide true) by done. apply create_SExt_impl; [done|].
    pose proof (width_pos k0 ltac:(done)). lia.
  - by apply create_Not_impl.
  - by apply create_binary_impl.
Qed.
End Sound.
End Sound.
