(* ===== verification/ExprEval.v ===== *)
(** * Expressions: evaluation under an assignment

    lib/Expr/ExprEvaluator.cpp and include/klee/util/Assignment.h over the visitor of
    lib/Expr/ExprVisitor.cpp: the evaluation with which the solvers check a
    counterexample and the executor replays a seed. The visitor's table of visited
    expressions has no influence on results and is not kept. *)
From stdpp Require Import base gmap list strings numbers.
From Stdlib Require Import ZArith Lia.
From S2P Require Import Prelude ExprData ExprFacts ExprCreate ExprSound.

Module Evaluator.
Import Expr ExprFacts Create Sound.

Section Visit.
Context {ap : APInt} (ConstArrayOpt : bool).
(** The virtual [getInitialValue]: the first content of a cell. *)
Context (getInitialValue : array -> Z -> result expr).

(** [visitExprPost] *)
Definition visitExprPost (e : expr) : expr :=
  match e with NotOptimized src => src | _ => e end.
(** The case [DoChildren] of [visitActual], given the visited kids. *)
Definition do_children (e : expr) (kids visited : list expr) : result expr :=
  e' ← (if bool_decide (kids = visited) then Ret e else rebuild ConstArrayOpt e visited);
  Ret (visitExprPost e').
(** [protectedDivOperation], given the visited kids. *)
Definition protectedDivOperation (e l r l' r' : expr) : result expr :=
  let r' := if isZero r' then r else r' in
  if bool_decide (l' = l) && bool_decide (r' = r) then Ret e else rebuild ConstArrayOpt e [l'; r'].
(** [getZExtValue], as [unsigned] *)
Definition getZExtValue (w v : Z) : result Z := if 64 <? w then Stop AssertFailed else Ret v.

(** [visit] with the overridden methods [visitExpr], [visitRead] and [visitUDiv] ...
    [visitSRem] of [ExprEvaluator], and [evalRead]. *)
Fixpoint visit (e : expr) {struct e} : result expr :=
  match e with
  | Constant _ _ => Ret e
  | NotOptimized src =>
      if isConstant src then rebuild ConstArrayOpt e [src]
      else s ← visit src; do_children e [src] [s]
  | Read root head index =>
      v ← visit index;
      match v with
      | Constant w c => i ← getZExtValue w c; evalRead root head (u32 i)
      | _ => do_children e [index] [v]
      end
  | Select c t f =>
      if isConstant c && isConstant t && isConstant f then rebuild ConstArrayOpt e [c; t; f]
      else c' ← visit c; t' ← visit t; f' ← visit f; do_children e [c; t; f] [c'; t'; f']
  | Concat l r =>
      if isConstant l && isConstant r then rebuild ConstArrayOpt e [l; r]
      else l' ← visit l; r' ← visit r; do_children e [l; r] [l'; r']
  | Extract x _ _ | ZExt x _ | SExt x _ | Not x =>
      if isConstant x then rebuild ConstArrayOpt e [x] else x' ← visit x; do_children e [x] [x']
  | Binary k l r =>
      if isConstant l && isConstant r then rebuild ConstArrayOpt e [l; r]
      else
        l' ← visit l; r' ← visit r;
        if is_div k then protectedDivOperation e l r l' r' else do_children e [l; r] [l'; r']
  end
with evalRead (root : array) (un : update_node) (index : Z) {struct un} : result expr :=
  match un with
  | Null =>
      if isConstantArray root && (index <? size root)
      then match constantValues root !! Z.to_nat index with
           | Some v => Ret (Constant (range root) v)
           | None => Stop MemError
           end
      else getInitialValue root index
  | UpdateNode next i value =>
      ui ← visit i;
      match ui with
      | Constant w c =>
          c ← getZExtValue w c; if c =? index then visit value else evalRead root next index
      | _ => create_Read ConstArrayOpt root un (Constant (domain root) (const_alloc index (domain root)))
      end
  end.
End Visit.

(** ** [class Assignment] *)
Record Assignment : Type := MkAssignment {
  allowFreeValues : bool;
  bindings : array -> option (list Z)
}.

(** The constructor from objects and their values; the first binding of an array counts. *)
Fixpoint bind (objects : list array) (values : list (list Z)) (arr : array) : option (list Z) :=
  match objects, values with
  | o :: objects, v :: values => if bool_decide (o = arr) then Some v else bind objects values arr
  | _, _ => None
  end.
Definition new_Assignment (objects : list array) (values : list (list Z)) (allowFree : bool) : Assignment :=
  MkAssignment allowFree (bind objects values).

Section Assign.
Context {ap : APInt} (ConstArrayOpt : bool) (a : Assignment).

(** [evaluate(const Array *, unsigned)] *)
Definition evaluate_cell (arr : array) (index : Z) : result expr :=
  match bindings a arr ≫= fun bytes => bytes !! Z.to_nat index with
  | Some b => Ret (Constant (range arr) (const_alloc b (range arr)))
  | None =>
      if allowFreeValues a
      then create_Read ConstArrayOpt arr Null (Constant (domain arr) (const_alloc index (domain arr)))
      else Ret (Constant (range arr) 0)
  end.
(** [evaluate(ref<Expr>)] *)
Definition evaluate (e : expr) : result expr := visit ConstArrayOpt evaluate_cell e.
(** [satisfies] *)
Fixpoint satisfies (es : list expr) : result bool :=
  match es with
  | [] => Ret true
  | e :: es =>
      v ← evaluate e;
      if negb (getWidth v =? Bool) then Stop AssertFailed
      else match v with
      | Constant w b => if isTrue w b then satisfies es else Ret false
      | _ => Ret false
      end
  end.
End Assign.

(** The contents an assignment without free values gives the arrays. *)
Definition cells (a : Assignment) (arr : array) (i : Z) : Z :=
  match bindings a arr ≫= fun bytes => bytes !! Z.to_nat i with
  | Some b => b `mod` 2 ^ range arr
  | None => 0
  end.
Definition bytes_ok (a : Assignment) : Prop :=
  forall arr bytes, bindings a arr = Some bytes -> Forall (fun b => 0 <= b < 256) bytes.

(** No [NotOptimized] directly above a constant. *)
Fixpoint foldable (e : expr) : bool :=
  match e with
  | Constant _ _ => true
  | NotOptimized src => negb (isConstant src) && foldable src
  | Read _ head index => foldable_nodes head && foldable index
  | Select c t f => foldable c && foldable t && foldable f
  | Concat l r | Binary _ l r => foldable l && foldable r
  | Extract e _ _ | ZExt e _ | SExt e _ | Not e => foldable e
  end
with foldable_nodes (un : update_node) : bool :=
  match un with
  | Null => true
  | UpdateNode next i v => foldable_nodes next && foldable i && foldable v
  end.

(** A cell with a byte, or any cell when there are no free values. *)
Lemma evaluate_cell_value {ap : APInt} {ap_ok : APIntOk} opt a arr i :
  bytes_ok a -> allowFreeValues a = false \/ is_Some (bindings a arr ≫= fun bytes => bytes !! Z.to_nat i) ->
  evaluate_cell opt a arr i = Ret (Constant (range arr) (cells a arr i)).
Proof.
  intros Hbytes H. unfold evaluate_cell, cells. destruct (bindings a arr) as [bytes|] eqn:Eb; simpl in *.
  - destruct (bytes !! Z.to_nat i) as [b|] eqn:Ei; [|destruct H as [-> |[? ?]]; done].
    unfold const_alloc. rewrite ap_zext_ok; [done|lia|]. apply fits_iff.
    pose proof (Hbytes arr bytes Eb) as Hb. rewrite list.Forall_lookup in Hb. specialize (Hb _ _ Ei). lia.
  - by destruct H as [-> |[? ?]].
Qed.

Section Correct.
Context {ap : APInt} {ap_ok : APIntOk} (ConstArrayOpt : bool) (a : Assignment).
(** [init] is part of what the assignment says. *)
Context (init : array -> Z -> option Z) (Hinit : init_ok init).
Context (Hcell : forall arr i v, array_ok arr = true -> 0 <= i < 2 ^ domain arr -> init arr i = Some v ->
  evaluate_cell ConstArrayOpt a arr i = Ret (Constant (range arr) v)).
Context (Hopt : ConstArrayOpt = true ->
  forall arr i, isConstantArray arr = true -> size arr <= i -> init arr i = None).

(** ** Constant kids give constants *)
Lemma const_binary_constant k w x y e : const_binary k w x y = Ret e -> isConstant e = true.
Proof. unfold const_binary. destruct (ap_binary _ _ _ _); [|done]. by intros [= <-]. Qed.

Lemma create_binary_constant k w x w' y e :
  create_binary ConstArrayOpt k (Constant w x) (Constant w' y) = Ret e -> isConstant e = true.
Proof.
  assert (Hr : forall k w x w' y pl pr full e, bcreate_r k pl pr full (Constant w x) (Constant w' y) = Ret e ->
    isConstant e = true).
  { unfold bcreate_r. intros. destruct (negb _); [done|]. by eapply const_binary_constant. }
  assert (Hb : forall k w x w' y full e, bcreate k full (Constant w x) (Constant w' y) = Ret e ->
    isConstant e = true).
  { unfold bcreate. intros. destruct (negb _); [done|]. by eapply const_binary_constant. }
  destruct k; cbn [create_binary]; eauto.
  destruct (create_Eq ConstArrayOpt (Constant w x) (Constant w' y)) as [c|] eqn:E; [|done].
  apply Hr in E. destruct c; try done. apply Hr.
Qed.
Lemma create_Extract_constant w x off w' e :
  create_Extract (Constant w x) off w' = Ret e -> isConstant e = true.
Proof.
  unfold create_Extract. cbn [nodes ExtractExpr_create]. destruct (negb _); [done|].
  destruct (_ =? _); [by intros [= <-]|]. unfold const_extract. destruct (ap_binary _ _ _ _); [|done].
  by intros [= <-].
Qed.

Lemma rebuild_constant e kids e' :
  forallb isConstant kids = true -> rebuild ConstArrayOpt e kids = Ret e' ->
  match e with NotOptimized _ | Read _ _ _ => False | _ => True end -> isConstant e' = true.
Proof.
  intros Hk He Hcase.
  destruct e; destruct kids as [|k0 [|k1 [|k2 [|? ?]]]]; try done; cbn [rebuild] in He; simpl in Hk; split_ok;
    repeat match goal with H : isConstant ?x = true |- _ => destruct x; try done; clear H end.
  - unfold create_Select in He. destruct (negb _); [done|]. destruct (negb _); [done|].
    injection He as <-. by destruct (isTrue _ _).
  - unfold create_Concat, concat_with, const_concat in He. destruct (const_binary Shl _ _ _) as [c|]; [|done].
    cbn [mbind result_bind] in He. destruct c; try done. by eapply const_binary_constant.
  - by eapply create_Extract_constant.
  - unfold create_ZExt in He. destruct (_ =? _); [by injection He as <-|]. destruct (_ <? _);
      [by eapply create_Extract_constant|by injection He as <-].
  - unfold create_SExt in He. destruct (_ =? _); [by injection He as <-|]. destruct (_ <? _);
      [by eapply create_Extract_constant|by injection He as <-].
  - unfold create_Not in He. by injection He as <-.
  - by eapply create_binary_constant.
Qed.

Definition folds (e : expr) : Prop :=
  match e with NotOptimized _ | Read _ _ _ => False | _ => True end.

Lemma rebuild_value e kids e1 v :
  with_kids e kids = Some e1 -> forallb isConstant kids = true -> folds e -> width_ok e1 = true ->
  eval init e1 = Some v -> rebuild ConstArrayOpt e kids = Ret (Constant (getWidth e1) v).
Proof.
  intros Hk Hc Hf Hok Hv.
  destruct (rebuild_impl ConstArrayOpt init Hinit Hopt e kids e1 Hk Hok) as (e' & He & Hok' & Hw & Hr).
  { destruct e1; try done. unfold div_ok. destruct (is_div k) eqn:Hd; [|done].
    destruct e1_2; try (by destruct (isConstant e1_1)). simpl in Hv |- *.
    destruct (eval init e1_1); [|done]. simpl in Hv. destruct (Z.eqb_spec value 0); [|by destruct (isConstant e1_1)].
    subst value. by destruct k. }
  pose proof (rebuild_constant e kids e' Hc He Hf) as Hc'. rewrite He. specialize (Hr v Hv).
  destruct e' as [w c| | | | | | | | |]; try done. simpl in Hw, Hr. by simplify_eq.
Qed.
Lemma do_children_value e kids visited e1 v :
  with_kids e visited = Some e1 -> forallb isConstant visited = true -> forallb isConstant kids = false ->
  folds e -> width_ok e1 = true -> eval init e1 = Some v ->
  do_children ConstArrayOpt e kids visited = Ret (Constant (getWidth e1) v).
Proof.
  intros Hk Hc Hnc Hf Hok Hv. unfold do_children. rewrite bool_decide_false by congruence.
  by rewrite (rebuild_value e visited e1 v).
Qed.

Lemma constant_value e v : width_ok e = true -> eval init e = Some v -> width_ok (Constant (getWidth e) v) = true.
Proof.
  intros He Hv. apply constant_ok; [by apply width_pos|by eapply eval_fits].
Qed.

Abbreviation visit_ := (visit ConstArrayOpt (evaluate_cell ConstArrayOpt a)).
Abbreviation evalRead_ := (evalRead ConstArrayOpt (evaluate_cell ConstArrayOpt a)).

Definition visit_spec (e : expr) : Prop :=
  width_ok e = true -> foldable e = true -> forall v, eval init e = Some v -> visit_ e = Ret (Constant (getWidth e) v).
Definition read_spec (un : update_node) : Prop :=
  forall root i v, array_ok root = true -> nodes_ok root un = true -> foldable_nodes un = true ->
    0 <= i < 2 ^ domain root -> eval_updates init root un i = Some v ->
    evalRead_ root un i = Ret (Constant (range root) v).

(** The result of one level, from the results for the kids: [ok] says that [e1] is [e]
    on the values of its kids. *)
Lemma level e kids visited e1 v :
  with_kids e kids = Some e -> with_kids e visited = Some e1 -> forallb isConstant visited = true -> folds e ->
  width_ok e = true -> width_ok e1 = true -> eval init e = Some v -> eval init e1 = Some v ->
  getWidth e1 = getWidth e ->
  (if forallb isConstant kids then rebuild ConstArrayOpt e kids else do_children ConstArrayOpt e kids visited) =
  Ret (Constant (getWidth e) v).
Proof.
  intros Hk Hk1 Hc Hf He He1 Hv Hv1 Hw. destruct (forallb isConstant kids) eqn:Hkc.
  - by apply rebuild_value.
  - rewrite <- Hw. by apply do_children_value.
Qed.

Lemma visit_unary e x w v :
  visit_spec x -> with_kids e [x] = Some e -> folds e ->
  width_ok e = true -> width_ok x = true -> foldable x = true -> eval init x = Some w -> eval init e = Some v ->
  (exists e1, with_kids e [Constant (getWidth x) w] = Some e1 /\ width_ok e1 = true /\
     eval init e1 = Some v /\ getWidth e1 = getWidth e) ->
  (if isConstant x then rebuild ConstArrayOpt e [x] else x' ← visit_ x; do_children ConstArrayOpt e [x] [x']) =
  Ret (Constant (getWidth e) v).
Proof.
  intros IH Hk Hf He Hx Hxf Hw Hv (e1 & H1 & H2 & H3 & H4).
  rewrite (IH Hx Hxf w Hw). cbn [mbind result_bind].
  rewrite <- (andb_true_r (isConstant x)). by apply (level e [x] [Constant (getWidth x) w] e1).
Qed.

Lemma visit_binary_kids e l r x y v (b : bool) :
  visit_spec l -> visit_spec r -> with_kids e [l; r] = Some e -> folds e -> width_ok e = true ->
  width_ok l = true -> foldable l = true -> eval init l = Some x ->
  width_ok r = true -> foldable r = true -> eval init r = Some y -> eval init e = Some v ->
  (exists e1, with_kids e [Constant (getWidth l) x; Constant (getWidth r) y] = Some e1 /\ width_ok e1 = true /\
     eval init e1 = Some v /\ getWidth e1 = getWidth e) ->
  (b = true -> y <> 0) ->
  (if isConstant l && isConstant r then rebuild ConstArrayOpt e [l; r]
   else l' ← visit_ l; r' ← visit_ r;
        if b then protectedDivOperation ConstArrayOpt e l r l' r' else do_children ConstArrayOpt e [l; r] [l'; r']) =
  Ret (Constant (getWidth e) v).
Proof.
  intros IHl IHr Hk Hf He Hl Hlf Hx Hr Hrf Hy Hv (e1 & H1 & H2 & H3 & H4) Hb.
  rewrite (IHl Hl Hlf x Hx), (IHr Hr Hrf y Hy). cbn [mbind result_bind].
  pose proof (level e [l; r] [Constant (getWidth l) x; Constant (getWidth r) y] e1 v
    Hk H1 eq_refl Hf He H2 Hv H3 H4) as L.
  cbn [forallb] in L. rewrite andb_true_r in L. destruct b; [|done]. specialize (Hb eq_refl).
  destruct (isConstant l && isConstant r) eqn:Hc; [done|]. unfold protectedDivOperation. cbn [isZero].
  rewrite (proj2 (Z.eqb_neq y 0) Hb).
  assert (bool_decide (Constant (getWidth l) x = l) && bool_decide (Constant (getWidth r) y = r) = false) as ->.
  { apply not_true_is_false. intros E. apply andb_prop in E as [E1 E2].
    apply bool_decide_eq_true in E1, E2. by rewrite <- E1, <- E2 in Hc. }
  rewrite <- H4. by apply rebuild_value.
Qed.

Lemma visit_select c t f x y z v :
  visit_spec c -> visit_spec t -> visit_spec f -> width_ok (Select c t f) = true ->
  foldable (Select c t f) = true ->
  eval init c = Some x -> eval init t = Some y -> eval init f = Some z -> eval init (Select c t f) = Some v ->
  visit_ (Select c t f) = Ret (Constant (getWidth t) v).
Proof.
  intros IHc IHt IHf He Hfo Hx Hy Hz Hv. pose proof He as He'. simpl in He', Hfo. split_ok. cbn [visit].
  rewrite (IHc ltac:(done) ltac:(done) x Hx), (IHt ltac:(done) ltac:(done) y Hy), (IHf ltac:(done) ltac:(done) z Hz).
  cbn [mbind result_bind]. rewrite <- (andb_true_r (isConstant f)), <- andb_assoc.
  apply (level (Select c t f) [c; t; f] [Constant (getWidth c) x; Constant (getWidth t) y; Constant (getWidth f) z]
    (Select (Constant (getWidth c) x) (Constant (getWidth t) y) (Constant (getWidth f) z))); try done.
  - change ((width_ok (Constant (getWidth c) x) && width_ok (Constant (getWidth t) y) &&
       width_ok (Constant (getWidth f) z) && (getWidth c =? 1) && (getWidth t =? getWidth f))%bool = true).
    rewrite !constant_value by done. by prove_ok.
  - rewrite <- Hv. simpl. by rewrite Hx, Hy, Hz.
Qed.

Lemma evalRead_null root i v :
  array_ok root = true -> 0 <= i < 2 ^ domain root -> initial init root i = Some v ->
  evalRead_ root Null i = Ret (Constant (range root) v).
Proof.
  intros Hr Hi Hv. cbn [evalRead]. unfold initial in Hv. destruct (_ && _); [by rewrite Hv|by apply Hcell].
Qed.

Lemma evalRead_cons root next ui uv i :
  evalRead_ root (UpdateNode next ui uv) i =
  (x ← visit_ ui;
   match x with
   | Constant w c => c ← getZExtValue w c; if c =? i then visit_ uv else evalRead_ root next i
   | _ => create_Read ConstArrayOpt root (UpdateNode next ui uv)
            (Constant (domain root) (const_alloc i (domain root)))
   end).
Proof. reflexivity. Qed.

Lemma visit_both : (forall e, visit_spec e) /\ (forall un, read_spec un).
Proof.
  apply expr_node_ind.
  - intros w c He Hf v [= <-]. done.
  - intros src IH He Hf v Hv. simpl in He, Hf, Hv. split_ok. cbn [visit].
    destruct (isConstant src) eqn:Hc; [done|]. rewrite (IH He ltac:(done) v Hv). cbn [mbind result_bind].
    unfold do_children. rewrite bool_decide_false; [done|]. intros [= E]. by rewrite E in Hc.
  - intros root head IHh index IHi He Hf v Hv. simpl in He, Hf, Hv. split_ok. cbn [visit].
    destruct (eval init index) as [i|] eqn:Ei; [|done]. simpl in Hv.
    rewrite (IHi ltac:(done) ltac:(done) i Ei). cbn [mbind result_bind].
    assert (Hi : 0 <= i < 2 ^ getWidth index) by (by eapply eval_fits).
    assert (Hd : domain root <= 32) by (unfold array_ok in *; split_ok; lia).
    unfold getZExtValue. rewrite (proj2 (Z.ltb_ge 64 _)) by lia. cbn [mbind result_bind].
    match goal with H : getWidth index = domain root |- _ => rewrite H in Hi end.
    pose proof (Z.pow_le_mono_r 2 (domain root) 32).
    rewrite u32_small by lia. by apply IHh.
  - intros c IHc t IHt f IHf He Hf v Hv. pose proof Hv as Hv'. simpl in Hv'.
    destruct (eval init c) as [x|] eqn:Ex, (eval init t) as [y|] eqn:Ey, (eval init f) as [z|] eqn:Ez; try done.
    exact (visit_select c t f x y z v IHc IHt IHf He Hf Ex Ey Ez Hv).
  - intros l IHl r IHr He Hf v Hv. pose proof Hv as Hv'. simpl in Hv'. pose proof He as He'.
    simpl in He', Hf. split_ok. destruct (eval init l) as [x|] eqn:Ex, (eval init r) as [y|] eqn:Ey; try done.
    apply (visit_binary_kids (Concat l r) l r x y v false); try done. eexists. split; [done|].
    split_and!; [|done|done]. apply concat_ok; by apply constant_value.
  - intros x IH off w He Hf v Hv. pose proof Hv as Hv'. simpl in Hv'. pose proof He as He'. simpl in He', Hf. split_ok.
    destruct (eval init x) as [c|] eqn:Ex; [|done]. apply (visit_unary (Extract x off w) x c); try done.
    eexists. split; [done|]. split_and!; [|done|done].
    change ((width_ok (Constant (getWidth x) c) && (0 <? w) && (0 <=? off) && (off + w <=? getWidth x))%bool = true).
    rewrite constant_value by done. by prove_ok.
  - intros x IH w He Hf v Hv. pose proof Hv as Hv'. simpl in Hv'. pose proof He as He'. simpl in He', Hf. split_ok.
    apply (visit_unary (ZExt x w) x v); try done. eexists. split; [done|]. split_and!; [|done|done].
    change ((width_ok (Constant (getWidth x) v) && (getWidth x <=? w))%bool = true).
    rewrite constant_value by done. by prove_ok.
  - intros x IH w He Hf v Hv. pose proof Hv as Hv'. simpl in Hv'. pose proof He as He'. simpl in He', Hf. split_ok.
    destruct (eval init x) as [c|] eqn:Ex; [|done]. apply (visit_unary (SExt x w) x c); try done.
    eexists. split; [done|]. split_and!; [|done|done].
    change ((width_ok (Constant (getWidth x) c) && (getWidth x <=? w))%bool = true).
    rewrite constant_value by done. by prove_ok.
  - intros x IH He Hf v Hv. pose proof Hv as Hv'. simpl in Hv'. pose proof He as He'. simpl in He', Hf.
    destruct (eval init x) as [c|] eqn:Ex; [|done]. apply (visit_unary (Not x) x c); try done.
    eexists. split; [done|]. split_and!; [by apply constant_value|done|done].
  - intros k l IHl r IHr He Hf v Hv. pose proof Hv as Hv'. simpl in Hv'. pose proof He as He'.
    simpl in He', Hf. split_ok. destruct (eval init l) as [x|] eqn:Ex, (eval init r) as [y|] eqn:Ey; try done.
    apply (visit_binary_kids (Binary k l r) l r x y v (is_div k)); try done.
    + eexists. split; [done|]. split_and!; [|done|done]. apply binary_ok; [by apply constant_value..|done].
    + intros Hd ->. by destruct k.
  - intros root i v Hr _ _ Hi Hv. by apply evalRead_null.
  - intros next IHn ui IHi uv IHv root i v Hr Hn Hf Hi Hv. simpl in Hn, Hf, Hv. split_ok. rewrite evalRead_cons.
    destruct (eval init ui) as [j|] eqn:Ej; [|done]. simpl in Hv.
    rewrite (IHi ltac:(done) ltac:(done) j Ej). cbn [mbind result_bind].
    assert (Hd : domain root <= 32) by (unfold array_ok in *; split_ok; lia).
    unfold getZExtValue. rewrite (proj2 (Z.ltb_ge 64 _)) by lia. cbn [mbind result_bind]. rewrite Z.eqb_sym.
    destruct (i =? j); [|by apply IHn].
    match goal with H : getWidth uv = range root |- _ => rewrite <- H end. by apply IHv.
Qed.
End Correct.
End Evaluator.
