(* ===== verification/ExprMain.v ===== *)
(** * Expressions: what the constructors and the evaluation promise

    The statements for clients: simplification keeps the meaning of expressions for every
    content of the arrays, and the evaluation under an assignment computes that meaning. *)
From stdpp Require Import base gmap list strings numbers.
From Stdlib Require Import ZArith Lia.
From S2P Require Import Prelude ExprData ExprFacts ExprCreate ExprSound ExprEval.

Module ExprMain.
Import Expr ExprFacts Create Sound Evaluator.

(** Nothing is stored beyond the end of a constant array. *)
Definition ends (init : array -> Z -> option Z) : Prop :=
  forall a i, isConstantArray a = true -> size a <= i -> init a i = None.

(** The contents of the arrays that count: with the optimisation of constant arrays, only
    those without cells beyond their end. *)
Definition admissible (opt : bool) (init : array -> Z -> option Z) : Prop :=
  init_ok init /\ (opt = true -> ends init).

(** ** [APInt], computed *)
#[export] Instance bv_apint : APInt := {
  ap_binary := bv_binary;
  ap_not w a := 2 ^ w - 1 - a;
  ap_zextOrTrunc w a w' := a `mod` 2 ^ w';
  ap_sextOrTrunc w a w' := sext w a `mod` 2 ^ w'
}.
#[export] Instance bv_apint_ok : APIntOk.
Proof. split; simpl; try done. by intros [] w a. Qed.

Lemma nothing_admissible opt : admissible opt (fun _ _ => None).
Proof. by split. Qed.

(** From each content of the arrays to all of them: the result is the same. *)
Lemma implements_all opt e r :
  (forall init, admissible opt init -> implements init e r) ->
  exists e', r = Ret e' /\ width_ok e' = true /\ getWidth e' = getWidth e /\
    forall init, admissible opt init -> refines init e e'.
Proof.
  intros H. destruct (H _ (nothing_admissible opt)) as (e' & -> & Hok & Hw & _).
  exists e'. split_and!; [done..|]. intros init Hi. by destruct (H init Hi) as (e'' & [= <-] & _ & _ & Hr).
Qed.

Section Claims.
Context {ap : APInt} {ap_ok : APIntOk} (opt : bool).

(** C7. The constructors of the binary expressions (all kinds): on operands of one width,
    except a constant divided by the constant zero, no assertion fails, the mutual
    recursion of addition and subtraction ends, and the simplified expression is well
    typed, has the width of the plain one, and has its value wherever that has one, for
    all contents of the arrays. *)
Theorem create_binary_sound k l r :
  width_ok l = true -> width_ok r = true -> getWidth l = getWidth r -> div_ok k l r = true ->
  exists e, create_binary opt k l r = Ret e /\ width_ok e = true /\ getWidth e = getWidth (Binary k l r) /\
    forall init, admissible opt init -> refines init (Binary k l r) e.
Proof.
  intros Hl Hr Hw Hd. apply implements_all. intros init [Hi Ho]. by apply create_binary_impl.
Qed.

(** C27. [rebuild], which every visitor uses, and through it the constructors of all classes
    (reads that look through the updates, selections, merged concatenations and
    extractions, casts): the expression on new kids keeps its width and its meaning. *)
Theorem rebuild_sound e kids e1 :
  with_kids e kids = Some e1 -> width_ok e1 = true ->
  match e1 with Binary k l r => div_ok k l r = true | _ => True end ->
  exists e', rebuild opt e kids = Ret e' /\ width_ok e' = true /\ getWidth e' = getWidth e1 /\
    forall init, admissible opt init -> refines init e1 e'.
Proof.
  intros Hk Hok Hd. apply implements_all. intros init [Hi Ho]. by apply rebuild_impl.
Qed.

(** A concatenation of bytes, as the executor builds it for a load of several bytes, has
    the bytes in its value, the first one most significant. *)
Theorem create_ConcatN_sound k kids :
  Forall (fun e => width_ok e = true) (k :: kids) ->
  exists e', create_ConcatN (k :: kids) = Ret e' /\ width_ok e' = true /\
    getWidth e' = getWidth (concat_all k kids) /\
    forall init, admissible opt init -> refines init (concat_all k kids) e'.
Proof. intros Hk. apply implements_all. intros init [Hi _]. by apply create_ConcatN_impl. Qed.

(** ** Evaluation *)

(** What an assignment says of the arrays. *)
Definition assigned (a : Assignment) (arr : array) (i : Z) : option Z :=
  if (0 <? range arr) && negb (opt && isConstantArray arr && (size arr <=? i)) then Some (cells a arr i) else None.

Lemma assigned_admissible a : admissible opt (assigned a).
Proof.
  split.
  - intros arr i v. unfold assigned. destruct (Z.ltb_spec 0 (range arr)); [|done]. simpl.
    destruct (negb _); [|done]. intros [= <-]. unfold cells.
    destruct (bindings a arr ≫= _); [apply fits_mod; lia|apply fits_0; lia].
  - intros Ho arr i Hc Hs. unfold assigned. rewrite Ho, Hc, (proj2 (Z.leb_le _ _) Hs). simpl.
    by rewrite andb_false_r.
Qed.
Lemma assigned_cells a arr i v : assigned a arr i = Some v -> cells a arr i = v.
Proof. unfold assigned. destruct (_ && _); [|done]. by intros [= ->]. Qed.

Lemma evaluate_value a e v :
  allowFreeValues a = false -> bytes_ok a -> width_ok e = true -> foldable e = true ->
  eval (assigned a) e = Some v -> evaluate opt a e = Ret (Constant (getWidth e) v).
Proof.
  intros Hf Hb He Hfo Hv. destruct (assigned_admissible a) as [Hi Ho].
  refine (proj1 (visit_both opt a (assigned a) Hi _ Ho) e He Hfo v Hv). intros arr i x _ _ Hx.
  rewrite evaluate_cell_value by (done || by left). by rewrite (assigned_cells a arr i x Hx).
Qed.

(** C28. [Assignment::evaluate] without free values computes the meaning of an expression that
    has one, with no [NotOptimized] directly above a constant ([foldable]; see
    [not_optimized_constant_stays]): the constant with its value in the arrays the assignment
    gives. *)
Theorem evaluate_correct a e v :
  allowFreeValues a = false -> bytes_ok a -> width_ok e = true -> foldable e = true ->
  eval (assigned a) e = Some v -> evaluate opt a e = Ret (Constant (getWidth e) v).
Proof. apply evaluate_value. Qed.

(** [Assignment::satisfies] on constraints that have a value decides whether all of them
    are true. *)
Theorem satisfies_correct a es vs :
  allowFreeValues a = false -> bytes_ok a ->
  Forall (fun e => width_ok e = true /\ foldable e = true /\ getWidth e = 1) es ->
  mapM (eval (assigned a)) es = Some vs ->
  satisfies opt a es = Ret (forallb (fun v => v =? 1) vs).
Proof.
  intros Hf Hb. revert vs. induction es as [|e es IH]; intros vs Hes Hvs; [by injection Hvs as <-|].
  apply Forall_cons_iff in Hes as [(He & Hfo & Hw) Hes]. simpl in Hvs.
  destruct (eval (assigned a) e) as [v|] eqn:Ev; [|done]. simpl in Hvs.
  destruct (mapM (eval (assigned a)) es) as [vs'|] eqn:Evs; [|done]. injection Hvs as <-. cbn [satisfies].
  rewrite (evaluate_value a e v) by done. cbn [mbind result_bind getWidth]. rewrite Hw, Z.eqb_refl. cbn [negb].
  destruct (assigned_admissible a) as [Hi _]. pose proof (eval_fits _ Hi e v He Ev) as Hv. rewrite Hw in Hv.
  unfold isTrue. rewrite Z.eqb_refl. change (2 ^ 1) with 2 in Hv. simpl.
  destruct (Z.eqb_spec v 1) as [->|]; [by apply IH|]. by assert (v = 0) as -> by lia.
Qed.
End Claims.

(** ** Concrete expressions *)
Definition arr : array := Array 4096 "x" 4 32 8 [].
Definition byte (i : Z) : expr := Read arr Null (Constant 32 i).
Definition asg : Assignment := MkAssignment false (fun _ => Some [7; 2; 0; 255]).

Lemma asg_bytes : bytes_ok asg.
Proof. intros a bytes [= <-]. repeat (constructor; [lia|]). constructor. Qed.

(** [(3 + x) + 5] becomes [8 + x]. *)
Lemma create_binary_sound_witness :
  create_binary false Add (Binary Add (Constant 8 3) (byte 0)) (Constant 8 5) =
    Ret (Binary Add (Constant 8 8) (byte 0)) /\
  refines (assigned false asg) (Binary Add (Binary Add (Constant 8 3) (byte 0)) (Constant 8 5))
    (Binary Add (Constant 8 8) (byte 0)).
Proof.
  split; [vm_compute; reflexivity|].
  destruct (create_binary_sound false Add (Binary Add (Constant 8 3) (byte 0)) (Constant 8 5))
    as (e & He & _ & _ & Hr); [vm_compute; reflexivity..|].
  assert (E : e = Binary Add (Constant 8 8) (byte 0)) by (vm_compute in He |- *; congruence).
  rewrite <- E. apply Hr, assigned_admissible.
Defined.

(** Two adjacent slices are merged. *)
Definition word : expr := Concat (byte 1) (byte 0).
Lemma rebuild_sound_witness :
  rebuild false (Concat word word) [Extract (Not word) 8 4; Extract (Not word) 4 4] = Ret (Extract (Not word) 4 8) /\
  refines (assigned false asg) (Concat (Extract (Not word) 8 4) (Extract (Not word) 4 4)) (Extract (Not word) 4 8).
Proof.
  split; [vm_compute; reflexivity|].
  destruct (rebuild_sound false (Concat word word) [Extract (Not word) 8 4; Extract (Not word) 4 4]
    (Concat (Extract (Not word) 8 4) (Extract (Not word) 4 4))) as (e & He & _ & _ & Hr);
    [vm_compute; reflexivity|vm_compute; reflexivity|exact I|].
  assert (E : e = Extract (Not word) 4 8) by (vm_compute in He |- *; congruence).
  rewrite <- E. apply Hr, assigned_admissible.
Defined.

Lemma create_ConcatN_sound_witness :
  exists e, create_ConcatN [byte 1; byte 0] = Ret e /\ eval (assigned false asg) e = Some 519.
Proof.
  destruct (create_ConcatN_sound false (byte 1) [byte 0]) as (e & He & _ & _ & Hr).
  - repeat (constructor; [vm_compute; reflexivity|]). constructor.
  - exists e. split; [exact He|]. apply Hr; [apply assigned_admissible|vm_compute; reflexivity].
Defined.

(** [x[0] + (x[3] == 255)] *)
Definition sum : expr :=
  Binary Add (byte 0) (ZExt (Binary Eq (byte 3) (Constant 8 255)) 8).
Lemma evaluate_correct_witness : evaluate false asg sum = Ret (Constant 8 8).
Proof.
  apply (evaluate_correct false asg sum 8);
    [reflexivity|exact asg_bytes|vm_compute; reflexivity|vm_compute; reflexivity|vm_compute; reflexivity].
Defined.

Lemma satisfies_correct_witness :
  satisfies false asg [Binary Ult (byte 1) (byte 0); Binary Eq (byte 2) (byte 3)] = Ret false.
Proof.
  apply (satisfies_correct false asg [Binary Ult (byte 1) (byte 0); Binary Eq (byte 2) (byte 3)] [1; 0]);
    [reflexivity|exact asg_bytes| |vm_compute; reflexivity].
  repeat (constructor; [split_and!; vm_compute; reflexivity|]). constructor.
Defined.

(** ** Two gaps of the evaluation *)

(** A [NotOptimized] directly above a constant is not folded: [visitExpr] rebuilds it from
    its constant kid before [visitExprPost] could take it away. *)
Theorem not_optimized_constant_stays :
  evaluate false asg (NotOptimized (Constant 1 1)) = Ret (NotOptimized (Constant 1 1)) /\
  satisfies false asg [NotOptimized (Constant 1 1)] = Ret false.
Proof. split; vm_compute; reflexivity. Qed.

(** The protection against division by zero keeps the original divisor; if that is the
    constant zero, the constants are divided after all. *)
Theorem literal_zero_divisor_divides :
  evaluate false asg (Binary UDiv (byte 0) (Constant 8 0)) = Stop AssertFailed.
Proof. vm_compute. reflexivity. Qed.
End ExprMain.
