(* ===== verification/Constraints.v ===== *)
(** * Path constraints

The weight of expressions that the visitors decrease ([Weight]), and
    src/lib/Expr/Constraints.cpp ([Constraints]). *)
From stdpp Require Import base gmap list strings numbers.
From Stdlib Require Import ZArith Lia.
From S2P Require Import Prelude ExprData ExprFacts ExprCreate ExprSound ExprEval.

(** * Expressions: the constructors do not grow their arguments

    A measure that no constructor increases, in two instances: the number of divisions,
    and a weight that every replacement of an expression by a constant decreases, which
    gives the termination of the rewriting of constraints. The optimisation of constant
    arrays, which copies an index, is off. *)
Module Weight.
Import Expr ExprFacts Create Sound Evaluator.

Section Weight.
(** The least weight of an expression that is not constant, the weight of a division and
    that of a read. *)
Context {ap : APInt} (least div rd : nat) (Hrd : (least <= rd)%nat).

Definition node (n : nat) : nat := Nat.max least n.
Definition dk (k : kind) : nat := if is_div k then div else O.

Fixpoint weight (e : expr) : nat :=
  match e with
  | Constant _ _ => O
  | NotOptimized src => rd + weight src
  | Read _ head index => rd + weights head + weight index
  | Select c t f => node (weight c + weight t + weight f)
  | Concat l r => node (weight l + weight r)
  | Extract e _ _ | ZExt e _ | SExt e _ | Not e => node (weight e)
  | Binary k l r => node (dk k + weight l + weight r)
  end
with weights (un : update_node) : nat :=
  match un with Null => O | UpdateNode next i v => weights next + weight i + weight v end.

Lemma weight_least e : isConstant e = false -> (least <= weight e)%nat.
Proof. destruct e; simpl; unfold node; try done; lia. Qed.

(** Every expression [r] returns weighs at most [n]. *)
Definition light (n : nat) (r : result expr) : Prop := forall e, r = Ret e -> (weight e <= n)%nat.

Lemma light_ret n e : (weight e <= n)%nat -> light n (Ret e).
Proof. by intros H x [= <-]. Qed.
Lemma light_stop n e : light n (Stop e).
Proof. by intros x. Qed.
Lemma light_mono n m r : light n r -> (n <= m)%nat -> light m r.
Proof. intros H Hn e He. specialize (H e He). lia. Qed.
Lemma light_bind n m (r : result expr) f :
  light n r -> (forall x, (weight x <= n)%nat -> light m (f x)) -> light m (r ≫= f).
Proof. intros H Hf. destruct r as [x|]; [|by intros y]. apply Hf. by apply H. Qed.
Lemma light_const_binary n k w a b : light n (const_binary k w a b).
Proof. unfold const_binary. destruct (ap_binary _ _ _ _); [apply light_ret; simpl; lia|apply light_stop]. Qed.

(** A binary expression of which not both kids are constant. *)
Lemma weight_binary k l r :
  isConstant l = false \/ isConstant r = false -> (weight (Binary k l r) <= dk k + weight l + weight r)%nat.
Proof. intros [H|H]; apply weight_least in H; simpl; unfold node; lia. Qed.

Lemma bcreate_r_light k partialL partialR full l r n :
  (forall w v, isConstant r = false -> light n (partialR w v r)) ->
  (forall w v, isConstant l = false -> light n (partialL l w v)) ->
  (isConstant l = false -> isConstant r = false -> light n (full l r)) ->
  light n (bcreate_r k partialL partialR full l r).
Proof.
  intros HR HL HF. unfold bcreate_r. destruct (negb _); [apply light_stop|].
  destruct l, r; try (by apply HF); try (by apply HR); try (by apply HL). apply light_const_binary.
Qed.
Lemma bcreate_light k full l r n :
  (isConstant l = false \/ isConstant r = false -> light n (full l r)) -> light n (bcreate k full l r).
Proof.
  intros HF. unfold bcreate. destruct (negb _); [apply light_stop|].
  destruct l, r; try (apply HF; simpl; tauto). apply light_const_binary.
Qed.

(** ** And, Or, Eq, Xor *)
Lemma And_partial_light l w v : isConstant l = false -> light (weight l) (AndExpr_createPartial l w v).
Proof.
  intros H. apply light_ret. destruct (isAllOnes w v); [lia|]. destruct (v =? 0); [simpl; lia|].
  apply weight_least in H. simpl. unfold node. lia.
Qed.
Lemma Or_partial_light l w v : isConstant l = false -> light (weight l) (OrExpr_createPartial l w v).
Proof.
  intros H. apply light_ret. destruct (isAllOnes w v); [simpl; lia|]. destruct (v =? 0); [lia|].
  apply weight_least in H. simpl. unfold node. lia.
Qed.
Lemma create_And_light l r : light (weight l + weight r) (create_And l r).
Proof.
  apply bcreate_r_light; intros.
  - eapply light_mono; [by apply And_partial_light|lia].
  - eapply light_mono; [by apply And_partial_light|lia].
  - apply light_ret, (weight_binary And). by left.
Qed.
Lemma create_Or_light l r : light (weight l + weight r) (create_Or l r).
Proof.
  apply bcreate_r_light; intros.
  - eapply light_mono; [by apply Or_partial_light|lia].
  - eapply light_mono; [by apply Or_partial_light|lia].
  - apply light_ret, (weight_binary Or). by left.
Qed.

Lemma EqExpr_create_weight l r : (weight (EqExpr_create l r) <= node (weight l + weight r))%nat.
Proof. unfold EqExpr_create. destruct (expr_eqb l r); simpl; lia. Qed.
Lemma node_idem n : node (node n) = node n.
Proof. unfold node. lia. Qed.

Lemma eq_const_light e w v :
  (forall w v, light (node (weight e)) (EqExpr_createPartialR false w v e)) ->
  light (weight e) (eq_const (EqExpr_createPartialR false) e w v).
Proof.
  intros H. unfold eq_const. destruct (negb _); [apply light_stop|].
  destruct e; try apply light_const_binary;
    (eapply light_mono; [apply H|]; match goal with |- (node (weight ?x) <= _)%nat =>
       pose proof (weight_least x eq_refl); unfold node at 1; lia end).
Qed.

Lemma EqPartialR_light e : forall w v, light (node (weight e)) (EqExpr_createPartialR false w v e).
Proof.
  assert (Hpl : forall w v e, light (node (weight e)) (Ret (EqExpr_create (Constant w v) e))).
  { intros w v x. apply light_ret. apply (EqExpr_create_weight (Constant w v) x). }
  assert (Hn : forall n, (n <= node n)%nat) by (unfold node; lia).
  induction e as [w0 v0|src _|root head index IHi|c _ t _ f _|l _ r _|e _ o w0|src IH w0|src IH w0|e _|k l IHl r IHr];
    intros w v; cbn [EqExpr_createPartialR];
    (destruct (w =? 1); [destruct (isTrue w v); [apply light_ret; apply Hn|]|]); try apply Hpl.
  - destruct (v =? _); [|apply light_ret; simpl; lia].
    eapply light_mono; [by apply eq_const_light|]. simpl. rewrite node_idem. apply Hn.
  - destruct (v =? _); [|apply light_ret; simpl; lia].
    eapply light_mono; [by apply eq_const_light|]. simpl. rewrite node_idem. apply Hn.
  - destruct k; try apply Hpl.
    + eapply light_bind; [by apply eq_const_light|]. intros x Hx.
      eapply light_bind; [by apply eq_const_light|]. intros y Hy.
      eapply light_mono; [apply create_And_light|]. simpl. unfold node. lia.
    + destruct l; try apply Hpl. apply light_ret. destruct (_ && _); [simpl; unfold node; lia|].
      apply (EqExpr_create_weight (Constant w v)).
  - destruct k; try apply Hpl; destruct l; try apply Hpl; (destruct (negb _); [apply light_stop|]);
      (destruct (ap_binary _ _ _ _); [|apply light_stop]); (eapply light_mono; [apply IHr|]);
      simpl; unfold node; lia.
Qed.
Lemma create_Eq_light l r : light (weight l + weight r) (create_Eq false l r).
Proof.
  apply bcreate_r_light.
  - intros w v H. eapply light_mono; [apply EqPartialR_light|]. apply weight_least in H. unfold node. lia.
  - intros w v H. eapply light_mono; [apply EqPartialR_light|]. apply weight_least in H. unfold node. lia.
  - intros H _. apply light_ret. etransitivity; [apply EqExpr_create_weight|].
    apply weight_least in H. unfold node. lia.
Qed.
Lemma createIsZero_light e : light (weight e) (createIsZero false e).
Proof. eapply light_mono; [apply create_Eq_light|]. simpl. lia. Qed.

Lemma Xor_partial_light w v e : light (node (weight e)) (XorExpr_createPartialR false w v e).
Proof.
  unfold XorExpr_createPartialR. destruct (v =? 0); [apply light_ret; unfold node; lia|].
  destruct (w =? 1); [apply EqPartialR_light|]. apply light_ret. simpl. unfold node. lia.
Qed.

(** ** Add, Sub *)
Lemma with_const_light k partialR w v e :
  light (node (weight e)) (partialR w v e) -> light (weight e) (with_const k partialR w v e).
Proof.
  intros H. unfold with_const. destruct (negb _); [apply light_stop|].
  destruct e; try apply light_const_binary;
    (eapply light_mono; [apply H|]; match goal with |- (node (weight ?x) <= _)%nat =>
       pose proof (weight_least x eq_refl); unfold node at 1; lia end).
Qed.
Lemma const_pair_light k w a w' b f n : (forall s, light n (f s)) -> light n (const_pair k w a w' b ≫= f).
Proof.
  intros H. unfold const_pair. destruct (negb _); [apply light_stop|].
  destruct (ap_binary _ _ _ _); [apply H|apply light_stop].
Qed.

Lemma addsub_partial_light e :
  forall w v, light (node (weight e)) (AddExpr_createPartialR false w v e) /\
              light (node (weight e)) (SubExpr_createPartialR false w v e).
Proof.
  assert (Hpl : forall k w v e, is_div k = false -> light (node (weight e)) (Ret (Binary k (Constant w v) e))).
  { intros k w v x Hk. apply light_ret. simpl. unfold dk. rewrite Hk. simpl. lia. }
  assert (Hn : forall e, light (node (weight e)) (Ret e)) by (intros; apply light_ret; unfold node; lia).
  induction e as [w0 v0|src _|root head index _|c _ t _ f _|l _ r _|e _ o w0|src _ w0|src _ w0|e _|k l _ r IHr];
    intros w v; (split; cbn [AddExpr_createPartialR SubExpr_createPartialR];
      (destruct (w =? 1); [apply Xor_partial_light|]); try (destruct (v =? 0); [apply Hn|]));
    try (by apply Hpl); destruct k; try (by apply Hpl); destruct l; try (by apply Hpl);
    (apply const_pair_light; intros s; eapply light_mono; [apply with_const_light, IHr|]);
    simpl; unfold node; lia.
Qed.
Lemma Add_partial_light w v e : isConstant e = false -> light (weight e) (AddExpr_createPartialR false w v e).
Proof. intros H. eapply light_mono; [apply addsub_partial_light|]. apply weight_least in H. unfold node. lia. Qed.
Lemma SubR_partial_light w v e : isConstant e = false -> light (weight e) (SubExpr_createPartialR false w v e).
Proof. intros H. eapply light_mono; [apply addsub_partial_light|]. apply weight_least in H. unfold node. lia. Qed.
Lemma SubL_partial_light w v e : isConstant e = false -> light (weight e) (SubExpr_createPartial false e w v).
Proof.
  intros H. unfold SubExpr_createPartial. destruct (ap_binary _ _ _ _); [by apply Add_partial_light|apply light_stop].
Qed.

Lemma addsub_create_light n l r m :
  (isConstant l = false -> isConstant r = false -> light m (AddExpr_create false n l r)) ->
  (isConstant l = false -> isConstant r = false -> light m (SubExpr_create false n l r)) ->
  (weight l + weight r <= m)%nat ->
  light m (create_Add_n false n l r) /\ light m (create_Sub_n false n l r).
Proof.
  intros HA HS Hm. split; apply bcreate_r_light; try done; intros w v H;
    (eapply light_mono; [(by apply Add_partial_light) || (by apply SubR_partial_light) || (by apply SubL_partial_light)|lia]).
Qed.

Lemma const_left_weight k e c x :
  const_left k e = Some (c, x) -> is_div k = false -> isConstant c = true /\ weight c = O /\ (weight x <= weight e)%nat.
Proof.
  intros H Hk. apply const_left_some in H as [-> Hc]. destruct c; try done. split_and!; [done..|].
  simpl. unfold dk, node. rewrite Hk. lia.
Qed.

Lemma addsub_full_light n :
  forall l r, (isConstant l = false \/ isConstant r = false) ->
    light (weight l + weight r) (AddExpr_create false n l r) /\
    light (weight l + weight r) (SubExpr_create false n l r).
Proof.
  induction n as [|n IH]; intros l r Hc; [split; apply light_stop|].
  assert (IH' : forall l r, light (weight l + weight r) (create_Add_n false n l r) /\
                            light (weight l + weight r) (create_Sub_n false n l r)).
  { intros a b. apply addsub_create_light; [intros H _|intros H _|done]; by apply IH; left. }
  assert (Hchain : forall (add sub : expr -> expr -> result expr) a b c m,
    light (weight a + weight b) (sub a b) -> (forall x, light (weight c + weight x) (add c x)) -> weight c = O ->
    (weight a + weight b <= m)%nat -> light m (x ← sub a b; add c x)).
  { intros add sub a b c m H1 H2 H0 Hm. eapply light_bind; [exact H1|]. intros x Hx.
    eapply light_mono; [apply H2|]. lia. }
  assert (Hchain' : forall (add sub : expr -> expr -> result expr) a b c m,
    light (weight a + weight b) (sub a b) -> (forall x, light (weight x + weight c) (add x c)) -> weight c = O ->
    (weight a + weight b <= m)%nat -> light m (x ← sub a b; add x c)).
  { intros add sub a b c m H1 H2 H0 Hm. eapply light_bind; [exact H1|]. intros x Hx.
    eapply light_mono; [apply H2|]. lia. }
  assert (Hp : forall k, is_div k = false -> light (weight l + weight r) (Ret (Binary k l r))).
  { intros k Hk. apply light_ret. pose proof (weight_binary k l r Hc) as H. unfold dk in H. by rewrite Hk in H. }
  split; cbn [AddExpr_create SubExpr_create];
    (destruct (getWidth l =? 1); [by apply (Hp Xor)|]);
    try (destruct (expr_eqb l r); [apply light_ret; simpl; lia|]);
    (destruct (const_left Add l) as [[c x]|] eqn:E1; [|destruct (const_left Sub l) as [[c x]|] eqn:E2;
      [|destruct (const_left Add r) as [[c x]|] eqn:E3; [|destruct (const_left Sub r) as [[c x]|] eqn:E4]]]);
    try (by apply Hp);
    repeat match goal with H : const_left _ _ = Some _ |- _ => apply const_left_weight in H as (_ & ? & ?); [|done] end;
    (apply Hchain || apply Hchain'); try (intros; apply IH'); try done; lia.
Qed.
Lemma create_Add_light l r : light (weight l + weight r) (create_Add false l r).
Proof. apply addsub_create_light; [intros H _; by apply addsub_full_light; left..|done]. Qed.
Lemma create_Sub_light l r : light (weight l + weight r) (create_Sub false l r).
Proof. apply addsub_create_light; [intros H _; by apply addsub_full_light; left..|done]. Qed.

(** ** The other binary expressions *)
Lemma create_Xor_light l r : light (weight l + weight r) (create_Xor false l r).
Proof.
  apply bcreate_r_light.
  - intros w v H. eapply light_mono; [apply Xor_partial_light|]. apply weight_least in H. unfold node. lia.
  - intros w v H. eapply light_mono; [apply Xor_partial_light|]. apply weight_least in H. unfold node. lia.
  - intros H _. apply light_ret, (weight_binary Xor). by left.
Qed.
Lemma create_Mul_light l r : light (weight l + weight r) (create_Mul l r).
Proof.
  assert (HR : forall w v e, isConstant e = false -> light (weight e) (MulExpr_createPartialR w v e)).
  { intros w v e H. unfold MulExpr_createPartialR. destruct (w =? 1); [by apply And_partial_light|].
    apply light_ret. destruct (v =? 1); [lia|]. destruct (v =? 0); [simpl; lia|].
    apply weight_least in H. simpl. unfold node. lia. }
  apply bcreate_r_light.
  - intros w v H. eapply light_mono; [by apply HR|lia].
  - intros w v H. eapply light_mono; [by apply HR|lia].
  - intros H _. apply light_ret. destruct (_ =? _); [apply (weight_binary And)|apply (weight_binary Mul)]; by left.
Qed.
Lemma combine_light (op : expr -> expr -> result expr) a b z :
  (forall x y, light (weight x + weight y) (op x y)) -> light (weight b) z ->
  light (weight a + weight b) (x ← z; op a x) /\ light (weight a + weight b) (x ← z; op x a).
Proof.
  intros Hop Hz. split; (eapply light_bind; [exact Hz|]; intros x Hx; eapply light_mono; [apply Hop|]); lia.
Qed.

Lemma create_binary_light k l r : light (dk k + weight l + weight r) (create_binary false k l r).
Proof.
  assert (Hif : forall (b : bool) (x y : expr), Ret (if b then x else y) = if b then Ret x else Ret y) by (by intros []).
  assert (Hp : forall k l r, isConstant l = false \/ isConstant r = false ->
    light (dk k + weight l + weight r) (Ret (Binary k l r))) by (intros; by apply light_ret, weight_binary).
  assert (HA := fun a b => combine_light create_And a b (createIsZero false b) create_And_light (createIsZero_light b)).
  assert (HO := fun a b => combine_light create_Or a b (createIsZero false b) create_Or_light (createIsZero_light b)).
  destruct k; cbn [create_binary];
    unfold UDivExpr_create, SDivExpr_create, URemExpr_create, SRemExpr_create, AShrExpr_create;
    try (apply bcreate_light; intros Hc; unfold ShlExpr_create, LShrExpr_create, UltExpr_create, UleExpr_create,
           SltExpr_create, SleExpr_create; rewrite ?Hif; destruct (_ =? _);
         [|first [by apply Hp|eapply light_mono; [by apply Hp|simpl; lia]]]);
    try (apply light_ret; simpl; lia).
  - apply create_Add_light.
  - apply create_Sub_light.
  - apply create_Mul_light.
  - apply create_And_light.
  - apply create_Or_light.
  - apply create_Xor_light.
  - apply HA.
  - apply HA.
  - apply create_Eq_light.
  - eapply light_bind; [apply create_Eq_light|]. intros x Hx. eapply light_mono; [apply create_Eq_light|]. simpl. lia.
  - eapply light_mono; [apply (HA r l)|]. simpl. lia.
  - eapply light_mono; [apply (HO r l)|]. simpl. lia.
  - eapply light_mono; [apply (HA l r)|]. simpl. lia.
  - eapply light_mono; [apply (HO l r)|]. simpl. lia.
  - apply HA.
  - apply HO.
  - eapply light_mono; [apply (HA r l)|]. simpl. lia.
  - eapply light_mono; [apply (HO r l)|]. simpl. lia.
Qed.

(** ** Concat, Extract, casts, Select, Read *)
Lemma const_concat_light w a w' b n : light n (const_concat w a w' b).
Proof.
  unfold const_concat. eapply light_bind; [apply (light_const_binary n)|]. intros x _.
  destruct x; try apply light_stop. apply light_const_binary.
Qed.
Lemma concat_with_light extract l r :
  (forall e off w, light (weight e) (extract e off w)) -> light (weight l + weight r) (concat_with extract l r).
Proof.
  intros Hx. assert (Hp : isConstant l = false \/ isConstant r = false -> light (weight l + weight r) (Ret (Concat l r))).
  { intros [H|H]; apply weight_least in H; apply light_ret; simpl; unfold node; lia. }
  unfold concat_with. destruct l; destruct r; try (apply Hp; simpl; tauto).
  - apply const_concat_light.
  - destruct (_ && _); [|apply Hp; simpl; tauto]. eapply light_mono; [apply Hx|]. simpl. unfold node. lia.
Qed.
Lemma ExtractExpr_create_light n : forall e off w, light (weight e) (ExtractExpr_create n e off w).
Proof.
  induction n as [|n IH]; intros e off w; [apply light_stop|]. cbn [ExtractExpr_create].
  destruct (negb _); [apply light_stop|]. destruct (_ =? _); [by apply light_ret|].
  destruct e; try (apply light_ret; simpl; unfold node; lia).
  - unfold const_extract. destruct (ap_binary _ _ _ _); [apply light_ret; simpl; lia|apply light_stop].
  - destruct (_ <=? _); [eapply light_mono; [apply IH|]; simpl; unfold node; lia|].
    destruct (_ <=? _); [eapply light_mono; [apply IH|]; simpl; unfold node; lia|].
    eapply light_bind; [apply IH|]. intros a Ha. eapply light_bind; [apply IH|]. intros b Hb.
    eapply light_mono; [by apply concat_with_light|]. simpl. unfold node. lia.
Qed.
Lemma create_ext_light (cast : Z -> Z -> Z -> expr) (plain : expr -> Z -> expr) e w :
  (forall w v w', weight (cast w v w') = O) -> (forall e w, weight (plain e w) = node (weight e)) ->
  light (weight e) (if w =? getWidth e then Ret e else if w <? getWidth e then create_Extract e 0 w
    else Ret (match e with Constant we v => cast we v w | _ => plain e w end)).
Proof.
  intros Hc Hp. destruct (w =? _); [by apply light_ret|]. destruct (w <? _); [apply ExtractExpr_create_light|].
  apply light_ret. destruct e; rewrite ?Hc, ?Hp; try (simpl; lia);
    match goal with |- (node (weight ?x) <= _)%nat => pose proof (weight_least x eq_refl); unfold node at 1; lia end.
Qed.
Lemma create_Select_light c t f : light (weight c + weight t + weight f) (create_Select false c t f).
Proof.
  unfold create_Select. destruct (negb _); [apply light_stop|]. destruct (negb _); [apply light_stop|].
  assert (Hp : isConstant c = false -> light (weight c + weight t + weight f) (Ret (Select c t f))).
  { intros H. apply weight_least in H. apply light_ret. simpl. unfold node. lia. }
  assert (HA := fun a b => combine_light create_And a b (createIsZero false b) create_And_light (createIsZero_light b)).
  assert (HO := fun a b => combine_light create_Or a b (createIsZero false b) create_Or_light (createIsZero_light b)).
  assert (Hg : isConstant c = false -> light (weight c + weight t + weight f)
    (if expr_eqb t f then Ret t
     else if getWidth t =? Bool then
       match t, f with
       | Constant w v, _ => if isTrue w v then create_Or c f else z ← createIsZero false c; create_And z f
       | _, Constant w v => if isTrue w v then z ← createIsZero false c; create_Or z t else create_And c t
       | _, _ => Ret (Select c t f)
       end
     else Ret (Select c t f))).
  { intros Hc. destruct (expr_eqb t f); [apply light_ret; lia|]. destruct (_ =? _); [|by apply Hp].
    assert (H1 : forall b : bool, light (weight c + weight t + weight f)
       (if b then create_Or c f else z ← createIsZero false c; create_And z f)).
    { intros []; (eapply light_mono; [apply create_Or_light || apply (HA f c)|lia]). }
    assert (H2 : forall b : bool, light (weight c + weight t + weight f)
       (if b then z ← createIsZero false c; create_Or z t else create_And c t)).
    { intros []; (eapply light_mono; [apply create_And_light || apply (HO t c)|lia]). }
    destruct t; try apply H1; destruct f; try apply H2; by apply Hp. }
  destruct c; try (by apply Hg). apply light_ret. destruct (isTrue _ _); simpl; lia.
Qed.
Lemma create_Read_light root head index : light (rd + weights head + weight index) (create_Read false root head index).
Proof.
  assert (H : forall un o, read_scan false un index = Ret o -> forall v, o = Some v -> (weight v <= weights un)%nat).
  { induction un as [|next IH i value]; intros o; cbn [read_scan]; [intros [= <-]; done|].
    destruct (create_Eq false index i) as [cond|]; [|done]. cbn [mbind result_bind].
    destruct cond; try (intros [= <-]; done). destruct (isTrue _ _).
    - intros [= <-] v [= <-]. simpl. lia.
    - intros Ho v Hv. specialize (IH o Ho v Hv). simpl. lia. }
  unfold create_Read. destruct (read_scan false head index) as [o|] eqn:E; [|apply light_stop].
  apply light_ret. destruct o as [v|]; simpl; [specialize (H head _ E v eq_refl); lia|lia].
Qed.

(** ** Rebuilding *)

(** The weight of an expression apart from its kids. *)
Definition own (e : expr) : nat :=
  match e with
  | NotOptimized _ => rd
  | Read _ head _ => rd + weights head
  | Binary k _ _ => dk k
  | _ => O
  end.
Fixpoint total (kids : list expr) : nat :=
  match kids with [] => O | k :: kids => weight k + total kids end.
Lemma rebuild_light e kids : light (own e + total kids) (rebuild false e kids).
Proof.
  destruct e; destruct kids as [|k0 [|k1 [|k2 [|? ?]]]]; try apply light_stop; cbn [rebuild total own]; rewrite ?Nat.add_0_r.
  - by apply light_ret.
  - apply create_Read_light.
  - eapply light_mono; [apply create_Select_light|lia].
  - eapply light_mono; [apply concat_with_light; intros; apply ExtractExpr_create_light|lia].
  - apply ExtractExpr_create_light.
  - by apply (create_ext_light const_zext ZExt).
  - by apply (create_ext_light const_sext SExt).
  - apply light_ret. destruct k0; simpl; unfold node; try lia.
  - eapply light_mono; [apply create_binary_light|lia].
Qed.
End Weight.
End Weight.

(** * Path constraints

    lib/Expr/Constraints.cpp: the constraints of a path. A new constraint is simplified
    with the equalities already known, split at its conjunctions, and an equality with a
    constant rewrites the constraints that are there. The visitors are those of
    lib/Expr/ExprVisitor.cpp; their table of visited expressions has no influence on
    results and is not kept. *)
Module Constraints.
Import Expr ExprFacts Create.

Section Visitors.
Context {ap : APInt} (ConstArrayOpt : bool).

(** [ExprVisitor::visitActual] for a visitor that overrides [visitExpr] ([pre]: the
    expression to change to) and [visitExprPost] ([post]: what it returns). [again] is
    applied to a rebuilt expression: the visitor itself if it is [recursive]. *)
Section Visit.
Context (pre : expr -> option expr) (post : expr -> expr) (again : expr -> result expr).

(** From the kids to the expression. *)
Definition finish (e : expr) (kids visited : list expr) : result expr :=
  e' ← (if bool_decide (kids = visited) then Ret e else x ← rebuild ConstArrayOpt e visited; again x);
  Ret (if isConstant e' then e' else post e').

Fixpoint visit_with (e : expr) : result expr :=
  match e with
  | Constant _ _ => Ret e
  | NotOptimized k | Read _ _ k | Extract k _ _ | ZExt k _ | SExt k _ | Not k =>
      match pre e with
      | Some x => Ret x
      | None => k' ← visit_with k; finish e [k] [k']
      end
  | Concat l r | Binary _ l r =>
      match pre e with
      | Some x => Ret x
      | None => l' ← visit_with l; r' ← visit_with r; finish e [l; r] [l'; r']
      end
  | Select c t f =>
      match pre e with
      | Some x => Ret x
      | None =>
          c' ← visit_with c; t' ← visit_with t; f' ← visit_with f; finish e [c; t; f] [c'; t'; f']
      end
  end.
End Visit.

(** [ExprReplaceVisitor] *)
Definition replace_visit (src dst : expr) : expr -> result expr :=
  visit_with (fun e => if expr_eqb e src then Some dst else None)
    (fun e => if expr_eqb e src then dst else e) Ret.

(** [ExprReplaceVisitor2]; [replacements] in the order of insertion, the first of equal
    keys counts. *)
Fixpoint find_replacement (replacements : list (expr * expr)) (e : expr) : option expr :=
  match replacements with
  | [] => None
  | (k, v) :: l => if expr_eqb k e then Some v else find_replacement l e
  end.
Fixpoint replace_visit2 (n : nat) (replacements : list (expr * expr)) (e : expr) : result expr :=
  match n with
  | O => Stop OutOfFuel
  | S n =>
      visit_with (fun _ => None) (fun e => default e (find_replacement replacements e))
        (replace_visit2 n replacements) e
  end.
End Visitors.

(** ** [class ConstraintManager] *)
Section Manager.
Context {ap : APInt} (ConstArrayOpt RewriteEqualities : bool).

(** The map [equalities] of [simplifyExpr] *)
Definition equality (c : expr) : expr * expr :=
  match c with
  | Binary Eq l r => if isConstant l then (r, l) else (c, Constant Bool 1)
  | _ => (c, Constant Bool 1)
  end.
Definition simplifyExpr (n : nat) (constraints : list expr) (e : expr) : result expr :=
  if isConstant e then Ret e else replace_visit2 ConstArrayOpt n (equality <$> constraints) e.

(** The loop of [rewriteConstraints]: [old] is what is left of the old constraints,
    [constraints] the new ones. *)
Fixpoint rewriteConstraints (add : expr -> list expr -> result (list expr)) (src dst : expr)
    (old constraints : list expr) : result (list expr) :=
  match old with
  | [] => Ret constraints
  | ce :: old =>
      e ← replace_visit ConstArrayOpt src dst ce;
      if expr_eqb e ce then rewriteConstraints add src dst old (constraints ++ [ce])
      else cs ← add e constraints; rewriteConstraints add src dst old cs
  end.

Fixpoint addConstraintInternal (n : nat) (e : expr) (constraints : list expr) : result (list expr) :=
  match n with
  | O => Stop OutOfFuel
  | S n =>
      match e with
      | Constant w v => if isTrue w v then Ret constraints else Stop AssertFailed
      | Binary And l r => cs ← addConstraintInternal n l constraints; addConstraintInternal n r cs
      | Binary Eq l r =>
          cs ← (if RewriteEqualities && isConstant l
                then rewriteConstraints (addConstraintInternal n) r l constraints []
                else Ret constraints);
          Ret (cs ++ [e])
      | _ => Ret (constraints ++ [e])
      end
  end.

(** [n]: a bound on the number of revisited expressions, and on the depth of the calls. *)
Definition addConstraint (n : nat) (e : expr) (constraints : list expr) : result (list expr) :=
  e ← simplifyExpr n constraints e; addConstraintInternal n e constraints.
End Manager.
End Constraints.
