(* ===== verification/ConstraintsOk.v ===== *)
(** * Path constraints: the visitors keep meanings and make expressions lighter

    Values under a given content of the arrays, well-typedness, and the weight that bounds
    the number of times an expression is visited again. *)
From stdpp Require Import base gmap list strings numbers.
From Stdlib Require Import ZArith Lia.
From S2P Require Import Prelude ExprData ExprFacts ExprCreate ExprSound ExprEval Constraints.

#[local] Arguments Nat.max : simpl never.

Module ConstraintsOk.
Import Expr ExprFacts Create Sound Evaluator Weight Constraints.

(** The weight that a replacement by a constant decreases, and the number of divisions. *)
Abbreviation mass := (weight 1 0 1).
Abbreviation divisions := (weight 0 1 0).

Lemma mass_zero e : mass e = O <-> isConstant e = true.
Proof.
  split; [|by destruct e]. intros H. destruct (isConstant e) eqn:Hc; [done|].
  pose proof (weight_least 1 0 1 ltac:(lia) e Hc). lia.
Qed.

Section Visit.
Context {ap : APInt} {ap_ok : APIntOk}.
Context (init : array -> Z -> option Z) (Hinit : init_ok init).

(** [e'] is well typed, has the width of [e] and the value [v]. *)
Definition keeps (e e' : expr) (v : Z) : Prop :=
  width_ok e' = true /\ getWidth e' = getWidth e /\ eval init e' = Some v.

(** ** One level *)
Lemma rebuild_keeps e kids e1 v :
  with_kids e kids = Some e1 -> width_ok e1 = true -> eval init e1 = Some v ->
  exists e', rebuild false e kids = Ret e' /\ keeps e1 e' v.
Proof.
  intros Hk Hok Hv. destruct (rebuild_impl false init Hinit ltac:(done) e kids e1 Hk Hok) as (e' & He & Hok' & Hw & Hr).
  - destruct e1; try done. unfold div_ok. destruct (is_div k) eqn:Hd; [|done].
    destruct (isConstant e1_1); [|done]. simpl. apply negb_true_iff.
    destruct e1_2; try done. simpl in Hv |- *. destruct (eval init e1_1); [|done]. simpl in Hv.
    apply Z.eqb_neq. intros ->. by destruct k.
  - exists e'. split_and!; [done|]. split_and!; [done|done|by apply Hr].
Qed.

(** The kids of an expression, in the order they are visited. *)
Definition kids_of (e : expr) : list expr :=
  match e with
  | Constant _ _ => []
  | NotOptimized k | Read _ _ k | Extract k _ _ | ZExt k _ | SExt k _ | Not k => [k]
  | Concat l r | Binary _ l r => [l; r]
  | Select c t f => [c; t; f]
  end.

(** Kids of the same widths and values can take the place of the kids. *)
Lemma kids_defined e v :
  width_ok e = true -> eval init e = Some v ->
  Forall (fun k => width_ok k = true /\ exists x, eval init k = Some x) (kids_of e).
Proof.
  intros He Hv. destruct e; simpl in *; split_ok;
    repeat (match type of Hv with context [eval init ?k ≫= _] => destruct (eval init k) eqn:? end; try done;
            cbn [mbind option_bind] in Hv);
    repeat (constructor; [split; [done|by eexists]|]); by constructor.
Qed.
Lemma with_kids_keeps e v visited :
  width_ok e = true -> eval init e = Some v -> isConstant e = false ->
  Forall2 (fun k k' => forall x, eval init k = Some x -> keeps k k' x) (kids_of e) visited ->
  exists e1, with_kids e visited = Some e1 /\ width_ok e1 = true /\ getWidth e1 = getWidth e /\
    eval init e1 = Some v.
Proof.
  intros He Hv Hc Hk. pose proof (kids_defined e v He Hv) as Hd.
  destruct e; try done; simpl in Hk, Hd;
    repeat match goal with
    | H : Forall _ (_ :: _) |- _ => apply Forall_cons_iff in H as [[? [? ?]] H]
    | H : Forall2 _ (_ :: _) ?l |- _ => apply Forall2_cons_inv_l in H as (? & ? & ? & ? & ->)
    | H : Forall2 _ [] ?l |- _ => apply Forall2_nil_inv_l in H as ->
    | H : forall x, eval init ?k = Some x -> keeps ?k _ x, E : eval init ?k = Some _ |- _ =>
        specialize (H _ E) as (? & ? & ?)
    end;
    (eexists; split; [simpl; reflexivity|]); simpl in He, Hv |- *; split_ok;
    (split_and!; [| |first [congruence|rewrite <- Hv;
       repeat match goal with E : eval init ?k = Some _ |- context [eval init ?k] => rewrite E end]]);
    repeat match goal with H : getWidth _ = getWidth _ |- _ => rewrite H end;
    repeat match goal with H : _ = true |- _ => rewrite H end; prove_ok; done.
Qed.

(** ** Weights of one level *)
Abbreviation masses := (total 1 0 1).

Lemma mass_kids e :
  mass e = match e with
           | NotOptimized _ | Read _ _ _ => (own 1 0 1 e + masses (kids_of e))%nat
           | Constant _ _ => O
           | _ => Nat.max 1 (masses (kids_of e))
           end.
Proof.
  destruct e; cbn [weight kids_of total own]; unfold node, dk; try lia;
    match goal with k : kind |- _ => destruct (is_div k); lia end.
Qed.

Lemma masses_zero kids : masses kids = O -> forallb isConstant kids = true.
Proof.
  induction kids as [|k kids IH]; simpl; [done|]. intros H. assert (mass k = O) as Hk by lia.
  apply mass_zero in Hk. rewrite Hk. apply IH. lia.
Qed.

Lemma rebuild_lighter e visited x :
  rebuild false e visited = Ret x -> isConstant e = false -> (masses visited < masses (kids_of e))%nat ->
  (mass x < mass e)%nat.
Proof.
  intros Hr Hc Hlt. pose proof (rebuild_light 1 0 1 ltac:(lia) e visited x Hr) as Hx. rewrite (mass_kids e).
  assert (Hd : forall k, dk 0 k = O) by (intros k; unfold dk; by destruct (is_div k)).
  destruct (Nat.eq_dec (masses visited) 0) as [H0|H0].
  - pose proof (rebuild_constant false e visited x (masses_zero _ H0) Hr) as Hk.
    destruct e; try done; simpl own in *; rewrite ?Hd in *; try lia; rewrite (proj2 (mass_zero x) (Hk I)); lia.
  - destruct e; try done; simpl own in *; rewrite ?Hd in *; lia.
Qed.

(** ** A visitor *)
Section Visitor.
Context (pre : expr -> option expr) (post : expr -> expr) (again : expr -> result expr) (M : nat).
Context (Hpre : forall x y v, isConstant x = false -> pre x = Some y -> width_ok x = true -> eval init x = Some v ->
  keeps x y v /\ isConstant y = true).
Context (Hpost : forall x v, width_ok x = true -> eval init x = Some v ->
  keeps x (post x) v /\ (post x = x \/ isConstant (post x) = true)).
Context (Hagain : forall x v, (mass x < M)%nat -> width_ok x = true -> eval init x = Some v ->
  exists y, again x = Ret y /\ keeps x y v /\ (mass y <= mass x)%nat).

(** What the visit of an expression gives. *)
Definition visited_ok (e e' : expr) : Prop :=
  (forall v, eval init e = Some v -> keeps e e' v) /\ (e' = e \/ (mass e' < mass e)%nat).

Lemma masses_visited kids visited :
  Forall2 visited_ok kids visited -> kids = visited \/ (masses visited < masses kids)%nat.
Proof.
  induction 1 as [|k k' kids visited [_ Hk] _ IH]; [by left|]. simpl.
  destruct Hk as [->|Hk], IH as [->|IH]; [by left|right; lia..].
Qed.

Lemma finish_ok e v visited :
  isConstant e = false -> (mass e <= M)%nat -> width_ok e = true -> eval init e = Some v ->
  Forall2 visited_ok (kids_of e) visited ->
  exists e', finish false post again e (kids_of e) visited = Ret e' /\ keeps e e' v /\
    (e' = e \/ (mass e' < mass e)%nat).
Proof.
  intros Hc HM He Hv Hk. unfold finish.
  assert (Hlast : forall y, keeps e y v -> (y = e \/ (mass y < mass e)%nat) ->
    exists e', Ret (if isConstant y then y else post y) = Ret e' /\ keeps e e' v /\ (e' = e \/ (mass e' < mass e)%nat)).
  { intros y (Hy1 & Hy2 & Hy3) Hm. eexists. split; [done|]. destruct (isConstant y) eqn:Hyc; [done|].
    destruct (Hpost y v Hy1 Hy3) as [(Hp1 & Hp2 & Hp3) Hp]. split; [split_and!; [done|congruence|done]|].
    destruct Hp as [->|Hp]; [done|]. apply mass_zero in Hp. right. rewrite Hp.
    pose proof (weight_least 1 0 1 ltac:(lia) e Hc). lia. }
  case_bool_decide as Heq; [apply Hlast; [by split_and!|by left]|].
  destruct (masses_visited _ _ Hk) as [|Hlt]; [done|].
  destruct (with_kids_keeps e v visited He Hv Hc) as (e1 & Hw1 & Hok1 & Hwd1 & Hv1).
  { eapply list.Forall2_impl; [exact Hk|]. by intros k k' [H _]. }
  destruct (rebuild_keeps e visited e1 v Hw1 Hok1 Hv1) as (x & Hx & Hx1 & Hx2 & Hx3).
  pose proof (rebuild_lighter e visited x Hx Hc Hlt) as Hm. rewrite Hx. cbn [mbind result_bind].
  destruct (Hagain x v) as (y & -> & (Hy1 & Hy2 & Hy3) & Hym); [lia|done|done|]. cbn [mbind result_bind].
  apply Hlast; [split_and!; [done|congruence|done]|right; lia].
Qed.

Lemma kids_lighter e : isConstant e = false -> Forall (fun k => (mass k <= mass e)%nat) (kids_of e).
Proof.
  intros Hc. rewrite (mass_kids e).
  destruct e; simpl in *; try done; repeat (constructor; [lia|]); constructor.
Qed.

Definition visit_good (e : expr) : Prop :=
  forall v, (mass e <= M)%nat -> width_ok e = true -> eval init e = Some v ->
    exists e', visit_with false pre post again e = Ret e' /\ keeps e e' v /\ (e' = e \/ (mass e' < mass e)%nat).

Lemma visited_intro k k' x :
  eval init k = Some x -> keeps k k' x -> (k' = k \/ (mass k' < mass k)%nat) -> visited_ok k k'.
Proof. intros Hx Hk Hm. split; [|done]. intros v Hv. by assert (v = x) as -> by congruence. Qed.

(** The visit of a list of kids, one after the other. *)
Fixpoint visit_list (kids : list expr) : result (list expr) :=
  match kids with
  | [] => Ret []
  | k :: kids => k' ← visit_with false pre post again k; ks ← visit_list kids; Ret (k' :: ks)
  end.
Lemma visit_with_eq e :
  isConstant e = false ->
  visit_with false pre post again e =
  match pre e with
  | Some x => Ret x
  | None => ks ← visit_list (kids_of e); finish false post again e (kids_of e) ks
  end.
Proof.
  destruct e; try done; intros _; cbn [visit_with kids_of visit_list]; destruct (pre _); try done;
    repeat match goal with
    | |- context [visit_with false pre post again ?k ≫= _] =>
        destruct (visit_with false pre post again k); cbn [mbind result_bind]; [|done]
    end; done.
Qed.
Lemma visit_list_ok kids :
  Forall visit_good kids -> Forall (fun k => (mass k <= M)%nat) kids ->
  Forall (fun k => width_ok k = true /\ exists x, eval init k = Some x) kids ->
  exists ks, visit_list kids = Ret ks /\ Forall2 visited_ok kids ks.
Proof.
  induction kids as [|k kids IH]; intros Hg Hm Hd; [by exists []|].
  apply Forall_cons_iff in Hg as [Hg Hgs], Hm as [Hm Hms], Hd as [[Hw [x Hx]] Hds].
  destruct (Hg x Hm Hw Hx) as (k' & E & Hk & Hk'). destruct (IH Hgs Hms Hds) as (ks & Es & Hks).
  cbn [visit_list]. rewrite E. cbn [mbind result_bind]. rewrite Es. cbn [mbind result_bind].
  exists (k' :: ks). split; [done|]. constructor; [by eapply visited_intro|done].
Qed.

Lemma visit_level e : isConstant e = false -> Forall visit_good (kids_of e) -> visit_good e.
Proof.
  intros Hc Hg v HM He Hv. rewrite visit_with_eq by done. destruct (pre e) as [y|] eqn:Hp.
  - destruct (Hpre e y v Hc Hp He Hv) as [Hy Hyc]. exists y. split_and!; [done|done|].
    right. apply mass_zero in Hyc. rewrite Hyc. pose proof (weight_least 1 0 1 ltac:(lia) e Hc). lia.
  - destruct (visit_list_ok (kids_of e)) as (ks & Es & Hks); [done| |by eapply kids_defined|].
    + pose proof (kids_lighter e Hc) as Hl. eapply Forall_impl; [|exact Hl]. simpl. lia.
    + rewrite Es. cbn [mbind result_bind]. by apply finish_ok.
Qed.
Lemma visit_with_ok e : visit_good e.
Proof.
  induction e; [|(apply visit_level; [done|]; simpl; repeat (constructor; [done|]); constructor)..].
  intros v HM He Hv. exists (Constant width value). split; [done|]. split; [by split_and!|by left].
Qed.
End Visitor.

(** ** The two visitors *)

(** [k] may be replaced by [c] under [init]. *)
Definition replaceable (k c : expr) : Prop :=
  isConstant c = true /\ width_ok c = true /\ getWidth c = getWidth k /\
  forall v, eval init k = Some v -> eval init c = Some v.

Lemma replace_visit_ok src dst e v :
  replaceable src dst -> width_ok e = true -> eval init e = Some v ->
  exists e', replace_visit false src dst e = Ret e' /\ keeps e e' v /\ (e' = e \/ (mass e' < mass e)%nat).
Proof.
  intros (Hc & Hw & Hwd & Hval) He Hv. unfold replace_visit. apply (visit_with_ok _ _ _ (mass e)); [| | |done|done|done].
  - intros x y u _ Hp Hx Hu. destruct (expr_eqb x src) eqn:E; [|done]. injection Hp as <-.
    apply expr_eqb_eq in E as ->. by split; [split_and!; [done|done|apply Hval]|].
  - intros x u Hx Hu. destruct (expr_eqb x src) eqn:E; [|split; [by split_and!|by left]].
    apply expr_eqb_eq in E as ->. split; [split_and!; [done|done|by apply Hval]|by right].
  - intros x u _ Hx Hu. exists x. split_and!; [done|by split_and!|done].
Qed.

Lemma find_replacement_in l e c : find_replacement l e = Some c -> (e, c) ∈ l.
Proof.
  induction l as [|[k v] l IH]; simpl; [done|]. destruct (expr_eqb k e) eqn:E.
  - apply expr_eqb_eq in E as ->. intros [= ->]. left.
  - intros H. right. auto.
Qed.

(** The number of expressions visited again is bounded by the weight. *)
Lemma replace_visit2_ok l n :
  (forall k c, (k, c) ∈ l -> replaceable k c) ->
  forall e v, (mass e < n)%nat -> width_ok e = true -> eval init e = Some v ->
  exists e', replace_visit2 false n l e = Ret e' /\ keeps e e' v /\ (e' = e \/ (mass e' < mass e)%nat).
Proof.
  intros Hl. induction n as [|n IH]; intros e v Hm He Hv; [lia|]. cbn [replace_visit2].
  apply (visit_with_ok _ _ _ (mass e)); [done| | |done|done|done].
  - intros x u Hx Hu. destruct (find_replacement l x) as [c|] eqn:E; simpl; [|split; [by split_and!|by left]].
    apply find_replacement_in, Hl in E as (Hc & Hw & Hwd & Hval). split; [split_and!; [done|done|by apply Hval]|by right].
  - intros x u Hxm Hx Hu. destruct (IH x u) as (y & Hy & Hk & Hym); [lia|done|done|].
    exists y. split_and!; [done|done|]. destruct Hym as [->|]; lia.
Qed.
End Visit.

(** ** Divisions *)
Section Divisions.
Context {ap : APInt}.
Abbreviation no_growth f := (forall e e', f e = Ret e' -> (divisions e' <= divisions e)%nat).

Lemma divisions_kids e : isConstant e = false -> divisions e = (own 0 1 0 e + total 0 1 0 (kids_of e))%nat.
Proof. destruct e; simpl; unfold node; try done; lia. Qed.

Lemma visit_with_divisions pre post again :
  (forall x y, pre x = Some y -> isConstant y = true) -> (forall x, post x = x \/ isConstant (post x) = true) ->
  no_growth again -> no_growth (visit_with false pre post again).
Proof.
  intros Hpre Hpost Hagain.
  assert (Hconst : forall x, isConstant x = true -> divisions x = O) by (by intros []).
  assert (Hlist : forall kids ks, Forall (fun k => forall k', visit_with false pre post again k = Ret k' ->
     (divisions k' <= divisions k)%nat) kids ->
     visit_list pre post again kids = Ret ks -> (total 0 1 0 ks <= total 0 1 0 kids)%nat).
  { induction kids as [|k kids IH]; intros ks Hk Hv; [by injection Hv as <-|].
    apply Forall_cons_iff in Hk as [Hk Hks]. cbn [visit_list] in Hv.
    destruct (visit_with false pre post again k) as [k'|] eqn:E; [|done]. cbn [mbind result_bind] in Hv.
    destruct (visit_list pre post again kids) as [ks'|] eqn:Es; [|done]. injection Hv as <-.
    specialize (Hk k' eq_refl). specialize (IH ks' Hks eq_refl). simpl. lia. }
  assert (Hlevel : forall e, isConstant e = false -> Forall (fun k => forall k', visit_with false pre post again k = Ret k' ->
     (divisions k' <= divisions k)%nat) (kids_of e) -> forall e', visit_with false pre post again e = Ret e' ->
     (divisions e' <= divisions e)%nat).
  { intros e Hc Hk e' He. rewrite visit_with_eq in He by done. destruct (pre e) as [y|] eqn:Hp.
    { injection He as <-. rewrite Hconst by (by eapply Hpre). lia. }
    destruct (visit_list pre post again (kids_of e)) as [ks|] eqn:Es; [|done]. cbn [mbind result_bind] in He.
    specialize (Hlist _ _ Hk Es). unfold finish in He.
    assert (Hx : forall x, (divisions x <= divisions e)%nat ->
      (divisions (if isConstant x then x else post x) <= divisions e)%nat).
    { intros x Hx. destruct (isConstant x); [done|]. destruct (Hpost x) as [->|Hc']; [done|].
      rewrite Hconst by done. lia. }
    destruct (bool_decide _); [injection He as <-; by apply Hx|].
    destruct (rebuild false e ks) as [x|] eqn:Er; [|done]. cbn [mbind result_bind] in He.
    pose proof (rebuild_light 0 1 0 ltac:(lia) e ks x Er) as Hr. rewrite (divisions_kids e Hc) in *.
    destruct (again x) as [y|] eqn:Ea; [|done]. injection He as <-. apply Hx. apply Hagain in Ea. lia. }
  intros e. induction e; [by intros e' [= <-]|(apply Hlevel; [done|]; simpl; repeat (constructor; [done|]); constructor)..].
Qed.

Lemma replace_visit_divisions src dst : isConstant dst = true -> no_growth (replace_visit false src dst).
Proof.
  intros Hd. apply visit_with_divisions.
  - intros x y. destruct (expr_eqb x src); [by intros [= <-]|done].
  - intros x. destruct (expr_eqb x src); [by right|by left].
  - by intros x y [= <-].
Qed.
Lemma replace_visit2_divisions l n :
  (forall k c, (k, c) ∈ l -> isConstant c = true) -> no_growth (replace_visit2 false n l).
Proof.
  intros Hl. induction n as [|n IH]; [done|]. apply visit_with_divisions; [done| |done].
  intros x. destruct (find_replacement l x) as [c|] eqn:E; [|by left]. right. simpl.
  by eapply Hl, find_replacement_in.
Qed.
End Divisions.
End ConstraintsOk.
