(* ===== verification/ConstraintsMain.v ===== *)
(** * Path constraints: what adding a constraint does

    Simplification under the constraints keeps the value of an expression wherever the
    constraints hold, and adding a constraint to satisfiable constraints returns
    constraints with the same solutions. *)
From stdpp Require Import base gmap list strings numbers.
From Stdlib Require Import ZArith Lia.
From S2P Require Import Prelude ExprData ExprFacts ExprCreate ExprSound Constraints ConstraintsOk.
From S2P Require Import ExprMain.

Module ConstraintsMain.
Import Expr ExprFacts Create Sound Weight Constraints ConstraintsOk.

(** A constraint holds for a content of the arrays. *)
Definition holds (init : array -> Z -> option Z) (e : expr) : Prop := eval init e = Some 1.
(** The constraints of a path are boolean expressions. *)
Definition bool_ok (e : expr) : Prop := width_ok e = true /\ getWidth e = 1.
(** Every cell has a content. *)
Definition full (init : array -> Z -> option Z) : Prop := forall a i, 0 < range a -> exists v, init a i = Some v.

Abbreviation masses := (total 1 0 1).
Abbreviation divs := (total 0 1 0).

Lemma total_app a b c l l' : total a b c (l ++ l') = (total a b c l + total a b c l')%nat.
Proof. induction l as [|e l IH]; simpl; lia. Qed.

(** ** Expressions without divisions have values *)
Section Defined.
Context (init : array -> Z -> option Z) (Hinit : init_ok init) (Hfull : full init).

Lemma initial_defined root i : array_ok root = true -> 0 <= i -> exists v, initial init root i = Some v.
Proof.
  unfold array_ok, initial, isConstantArray. intros Hr Hi. split_ok.
  destruct (isSymbolicArray root) eqn:Hs; simpl; [apply Hfull; lia|].
  destruct (Z.ltb_spec i (size root)); [|apply Hfull; lia].
  simpl in *. split_ok. apply lookup_lt_is_Some. lia.
Qed.

Lemma defined_both :
  (forall e, width_ok e = true -> divisions e = O -> exists v, eval init e = Some v) /\
  (forall u root i, array_ok root = true -> nodes_ok root u = true -> weights 0 1 0 u = O -> 0 <= i ->
     exists v, eval_updates init root u i = Some v).
Proof.
  apply expr_node_ind; simpl; unfold node.
  - by eexists.
  - intros src IH Hw Hd. apply IH; [done|lia].
  - intros root head IHh index IHi Hw Hd. split_ok. destruct IHi as [i Hi]; [done|lia|]. rewrite Hi. simpl.
    apply IHh; [done|done|lia|]. pose proof (eval_fits init Hinit index i). intuition lia.
  - intros c IHc t IHt f IHf Hw Hd. split_ok.
    destruct IHc as [x ->]; [done|lia|]. destruct IHt as [y ->]; [done|lia|]. destruct IHf as [z ->]; [done|lia|].
    by eexists.
  - intros l IHl r IHr Hw Hd. split_ok. destruct IHl as [x ->]; [done|lia|]. destruct IHr as [y ->]; [done|lia|].
    by eexists.
  - intros e IH off w Hw Hd. split_ok. destruct IH as [x ->]; [done|lia|]. by eexists.
  - intros e IH w Hw Hd. split_ok. apply IH; [done|lia].
  - intros e IH w Hw Hd. split_ok. destruct IH as [x ->]; [done|lia|]. by eexists.
  - intros e IH Hw Hd. destruct IH as [x ->]; [done|lia|]. by eexists.
  - intros k l IHl r IHr Hw Hd. split_ok. destruct IHl as [x ->]; [done|lia|]. destruct IHr as [y ->]; [done|lia|].
    simpl. unfold dk in Hd. destruct k; simpl in Hd |- *; (lia || by eexists).
  - intros root i Hr _ _ Hi. by apply initial_defined.
  - intros next IHn ui IHi uv IHv root i Hr Hn Hd Hi. split_ok. destruct IHi as [j ->]; [done|lia|]. simpl.
    destruct (i =? j); [apply IHv; [done|lia]|apply IHn; (done || lia)].
Qed.
Lemma eval_defined e : width_ok e = true -> divisions e = O -> exists v, eval init e = Some v.
Proof. apply defined_both. Qed.
End Defined.

Section Manager.
Context {ap : APInt} {ap_ok : APIntOk} (RewriteEqualities : bool).
Abbreviation add_ := (addConstraintInternal false RewriteEqualities).

(** ** Equalities that hold *)
Lemma eq_replaceable init l r :
  bool_ok (Binary Eq l r) -> isConstant l = true -> holds init (Binary Eq l r) -> replaceable init r l.
Proof.
  intros [Hw _] Hc Hh. simpl in Hw. split_ok. split_and!; [done|done|done|]. intros v Hv.
  unfold holds in Hh. simpl in Hh. rewrite Hv in Hh. destruct l as [w c| | | | | | | | |]; try done.
  simpl in *. destruct (Z.eqb_spec c v) as [->|]; [done|]. by injection Hh.
Qed.
Lemma equality_replaceable init c k d :
  bool_ok c -> holds init c -> equality c = (k, d) -> replaceable init k d.
Proof.
  intros Hb Hh E. assert (Hd : equality c = (c, Constant 1 1) -> replaceable init k d).
  { intros E'. rewrite E' in E. injection E as <- <-. destruct Hb as [Hw Hwd].
    split_and!; [done|done|done|]. intros v Hv. unfold holds in Hh. by simplify_eq. }
  destruct c; try (by apply Hd). destruct k0; try (by apply Hd). cbn [equality] in *.
  destruct (isConstant c1) eqn:Hc; [|by apply Hd]. injection E as <- <-. by apply eq_replaceable.
Qed.

(** Conjunctions of bits. *)
Lemma and_holds init l r :
  init_ok init -> bool_ok (Binary And l r) ->
  holds init (Binary And l r) <-> holds init l /\ holds init r.
Proof.
  intros Hi [Hw Hwd]. simpl in Hw, Hwd. split_ok. unfold holds. simpl.
  destruct (eval init l) as [a|] eqn:Ea; [|split; [done|by intros [? _]]].
  destruct (eval init r) as [b|] eqn:Eb; [|split; [done|by intros [_ ?]]].
  assert (a = 0 \/ a = 1) as Ha by (apply fits_1, fits_iff; rewrite <- Hwd; by eapply eval_fits).
  assert (b = 0 \/ b = 1) as Hb by (apply fits_1, fits_iff; rewrite <- Hwd, H0; by eapply eval_fits).
  simpl. destruct Ha as [-> | ->], Hb as [-> | ->]; vm_compute; intuition congruence.
Qed.
Lemma and_bool_ok l r : bool_ok (Binary And l r) -> bool_ok l /\ bool_ok r.
Proof. intros [Hw Hwd]. simpl in Hw, Hwd. split_ok. split; split; congruence. Qed.

(** ** Simplification *)
Lemma simplify_ok init cs e v n :
  init_ok init -> Forall bool_ok cs -> Forall (holds init) cs -> width_ok e = true -> eval init e = Some v ->
  (mass e < n)%nat ->
  exists e', simplifyExpr false n cs e = Ret e' /\ keeps init e e' v /\ (mass e' <= mass e)%nat.
Proof.
  intros Hi Hb Hh He Hv Hn. unfold simplifyExpr. destruct (isConstant e) eqn:Hc.
  { exists e. split_and!; [done|by split_and!|done]. }
  destruct (replace_visit2_ok init Hi (equality <$> cs) n) with (e := e) (v := v) as (e' & H1 & H2 & H3); [|done..|].
  - intros k c Hin. apply list_elem_of_fmap in Hin as (x & Heq & Hx). apply list_elem_of_In in Hx.
    rewrite Forall_forall in Hb, Hh. by apply (equality_replaceable init x); [apply Hb|apply Hh|].
  - exists e'. split_and!; [done|done|]. destruct H3 as [->|]; lia.
Qed.
Lemma simplify_divisions n cs e e' : simplifyExpr false n cs e = Ret e' -> (divisions e' <= divisions e)%nat.
Proof.
  unfold simplifyExpr. destruct (isConstant e); [by intros [= <-]|]. apply replace_visit2_divisions.
  intros k c Hin. apply list_elem_of_fmap in Hin as (x & Heq & _).
  assert (H : forall x k c, (k, c) = equality x -> isConstant c = true); [|by eapply H].
  clear. intros x k c E. destruct x; try (by injection E as -> ->). destruct k0; try (by injection E as -> ->).
  cbn [equality] in E. destruct (isConstant x1) eqn:Hc; by injection E as -> ->.
Qed.

(** More fuel gives the same result. *)
Lemma visit_with_more pre post again again' :
  (forall x y, again x = Ret y -> again' x = Ret y) ->
  forall e y, visit_with false pre post again e = Ret y -> visit_with false pre post again' e = Ret y.
Proof.
  intros Ha. assert (Hf : forall e ks vs y, finish false post again e ks vs = Ret y -> finish false post again' e ks vs = Ret y).
  { intros e ks vs y. unfold finish. destruct (bool_decide _); [done|].
    destruct (rebuild false e vs) as [x|]; cbn [mbind result_bind]; [|done].
    destruct (again x) as [z|] eqn:E; cbn [mbind result_bind]; [|done]. by rewrite (Ha _ _ E). }
  induction e; intros y; cbn [visit_with]; try done; (destruct (pre _); [done|]);
    repeat match goal with
    | IH : forall y, visit_with _ _ _ again ?k = Ret y -> _ |- context [visit_with _ _ _ again ?k ≫= _] =>
        let E := fresh in destruct (visit_with false pre post again k) eqn:E; cbn [mbind result_bind]; [|done];
        rewrite (IH _ eq_refl); clear IH; cbn [mbind result_bind]
    end; apply Hf.
Qed.
Lemma replace_visit2_more l n m e y :
  (n <= m)%nat -> replace_visit2 false n l e = Ret y -> replace_visit2 false m l e = Ret y.
Proof.
  revert m e y. induction n as [|n IH]; [done|]. intros [|m] e y Hm; [lia|]. cbn [replace_visit2].
  apply visit_with_more. intros x z. apply IH. lia.
Qed.
Lemma simplify_more cs n m e y : (n <= m)%nat -> simplifyExpr false n cs e = Ret y -> simplifyExpr false m cs e = Ret y.
Proof. intros Hm. unfold simplifyExpr. destruct (isConstant e); [done|by apply replace_visit2_more]. Qed.

(** ** Adding a constraint *)

(** [cs'] stands for [cs] with the assumptions [asms]. *)
Record extends (cs asms cs' : list expr) : Prop := {
  ex_ok : Forall bool_ok cs';
  ex_mass : (masses cs' <= masses asms + masses cs)%nat;
  ex_divs : (divs cs' <= divs asms + divs cs)%nat;
  ex_fwd init : init_ok init -> Forall (holds init) cs -> Forall (holds init) asms -> Forall (holds init) cs';
  ex_bwd init : init_ok init -> full init -> divs cs = O -> divs asms = O ->
    Forall (holds init) cs' -> Forall (holds init) cs /\ Forall (holds init) asms
}.

(** The call [run m] with enough fuel [m] gives [cs']. *)
Definition gives {A} (run : nat -> result A) (a : A) : Prop := exists n, forall m, (n <= m)%nat -> run m = Ret a.

Lemma gives_bind {A B} (r : nat -> result A) (f : nat -> A -> result B) a b :
  gives r a -> gives (fun m => f m a) b -> gives (fun m => r m ≫= f m) b.
Proof.
  intros [n Hn] [n' Hn']. exists (Nat.max n n'). intros m Hm. rewrite Hn by lia. apply Hn'. lia.
Qed.
Lemma gives_ret {A} (a : A) : gives (fun _ => Ret a) a.
Proof. by exists O. Qed.
Lemma gives_S {A} (r : nat -> result A) r' a :
  gives r' a -> (forall m, r (S m) = r' m) -> gives r a.
Proof. intros [n Hn] Hr. exists (S n). intros [|m] Hm; [lia|]. rewrite Hr. apply Hn. lia. Qed.

Lemma extends_push cs e : Forall bool_ok cs -> bool_ok e -> extends cs [e] (cs ++ [e]).
Proof.
  intros Hcs He. split.
  - by apply Forall_app; split; [|constructor].
  - rewrite total_app. lia.
  - rewrite total_app. lia.
  - intros init _ H1 H2. by apply Forall_app.
  - intros init _ _ _ _ H. by apply Forall_app in H.
Qed.

Section Model.
(** A solution of the constraints. *)
Context (init0 : array -> Z -> option Z) (Hinit0 : init_ok init0).

Definition add_spec (e : expr) (cs : list expr) : Prop :=
  bool_ok e -> holds init0 e -> Forall bool_ok cs -> Forall (holds init0) cs ->
  exists cs', gives (fun m => add_ m e cs) cs' /\ extends cs [e] cs'.

(** The loop of [rewriteConstraints] for the equality [l == r]. *)
Lemma rewrite_spec l r :
  isConstant l = true -> bool_ok (Binary Eq l r) -> holds init0 (Binary Eq l r) ->
  forall old cs B, (masses old + masses cs <= B)%nat ->
  (forall e cs, (mass e + masses cs < B)%nat -> add_spec e cs) ->
  Forall bool_ok old -> Forall (holds init0) old -> Forall bool_ok cs -> Forall (holds init0) cs ->
  exists cs', gives (fun m => rewriteConstraints false (add_ m) r l old cs) cs' /\
    Forall bool_ok cs' /\ (masses cs' <= masses old + masses cs)%nat /\ (divs cs' <= divs old + divs cs)%nat /\
    (forall init, init_ok init -> holds init (Binary Eq l r) -> Forall (holds init) (old ++ cs) -> Forall (holds init) cs') /\
    (forall init, init_ok init -> full init -> holds init (Binary Eq l r) -> divs old = O -> divs cs = O ->
       Forall (holds init) cs' -> Forall (holds init) (old ++ cs)).
Proof.
  intros Hl Heq Hh0. induction old as [|ce old IH]; intros cs B HB IHB Hold Hold0 Hcs Hcs0.
  { exists cs. split_and!; [apply gives_ret|done|simpl; lia|simpl; lia|done|done]. }
  apply Forall_cons_iff in Hold as [[Hce Hce1] Hold], Hold0 as [Hce0 Hold0]. simpl in HB.
  destruct (replace_visit_ok init0 Hinit0 r l ce 1) as (e' & Hv & (He' & He'1 & He'0) & Hm);
    [by apply eq_replaceable|done|done|].
  (** What the visitor does for another content of the arrays. *)
  assert (Hsame : forall init v, init_ok init -> holds init (Binary Eq l r) -> eval init ce = Some v -> eval init e' = Some v).
  { intros init v Hi Hq Hcv. destruct (replace_visit_ok init Hi r l ce v) as (e'' & Hv' & (_ & _ & Hv'') & _);
      [by apply eq_replaceable|done|done|]. rewrite Hv in Hv'. by injection Hv' as ->. }
  pose proof (replace_visit_divisions r l Hl ce e' Hv) as Hdiv.
  destruct (expr_eqb e' ce) eqn:E.
  - apply expr_eqb_eq in E as ->.
    destruct (IH (cs ++ [ce]) B) as (cs' & Hg & H1 & H2 & H3 & H4 & H5).
    1: rewrite total_app; simpl; lia.
    1-3: done.
    1-2: by apply Forall_app; split; [|constructor].
    rewrite !total_app in *. simpl in *.
    exists cs'. split_and!; [|done|lia|lia| |].
    + destruct Hg as [n Hn]. exists n. intros m Hm'. cbn [rewriteConstraints]. rewrite Hv. cbn [mbind result_bind].
      rewrite (proj1 eqb_refl_both). by apply Hn.
    + intros init Hi Hq Hall. apply H4; [done|done|]. rewrite app_assoc. apply Forall_cons_iff in Hall as [? Hall].
      apply Forall_app. split; [done|by constructor].
    + intros init Hi Hf Hq Hd1 Hd2 Hall. assert (Forall (holds init) (old ++ cs ++ [ce])) as Hx by (apply H5; (done || lia)).
      rewrite app_assoc in Hx. apply Forall_app in Hx as [Hx Hy]. apply Forall_cons_iff in Hy as [Hy _]. by constructor.
  - assert (Hlt : (mass e' < mass ce)%nat).
    { destruct Hm as [->|]; [|done]. by rewrite (proj1 eqb_refl_both) in E. }
    destruct (IHB e' cs) as (cs1 & Hg1 & [G1 G2 G3 G4 G5]); [lia|split; [done|congruence]|done|done|done|].
    simpl in G2, G3.
    destruct (IH cs1 B) as (cs' & Hg & H1 & H2 & H3 & H4 & H5);
      [lia|done|done|done|done|apply G4; [done|done|by constructor]|].
    exists cs'. simpl. split_and!; [|done|lia|lia| |].
    + destruct Hg1 as [n1 Hn1], Hg as [n Hn]. exists (Nat.max n1 n). intros m Hm'. cbn [rewriteConstraints].
      rewrite Hv. cbn [mbind result_bind]. rewrite E, Hn1 by lia. cbn [mbind result_bind]. apply Hn. lia.
    + intros init Hi Hq Hall. apply Forall_cons_iff in Hall as [Hc Hall]. apply Forall_app in Hall as [Ho Hc'].
      apply H4; [done|done|]. apply Forall_app. split; [done|]. apply G4; [done|done|]. constructor; [|constructor].
      by apply Hsame.
    + intros init Hi Hf Hq Hd1 Hd2 Hall.
      assert (Hx : Forall (holds init) (old ++ cs1)) by (apply H5; (done || lia)).
      apply Forall_app in Hx as [Ho Hc1]. destruct (G5 init) as [Gc Ge]; [done|done|done|simpl; lia|done|].
      apply Forall_cons_iff in Ge as [Ge _]. constructor; [|by apply Forall_app].
      destruct (eval_defined init Hi Hf ce Hce) as [v Hcv]; [lia|].
      pose proof (Hsame init v Hi Hq Hcv) as Hev. unfold holds in *. congruence.
Qed.

Lemma extends_and cs l r cs1 cs2 :
  bool_ok (Binary And l r) -> extends cs [l] cs1 -> extends cs1 [r] cs2 -> extends cs [Binary And l r] cs2.
Proof.
  intros Hb [A1 A2 A3 A4 A5] [B1 B2 B3 B4 B5]. cbn [total] in *.
  assert (Hm : mass (Binary And l r) = Nat.max 1 (mass l + mass r)) by done.
  assert (Hd : divisions (Binary And l r) = (divisions l + divisions r)%nat) by done.
  split; cbn [total]; [done|lia|lia| |].
  - intros init Hi Hcs Ha. apply Forall_cons_iff in Ha as [Ha _]. apply and_holds in Ha as [Hl Hr]; [|done|done].
    apply B4; [done| |by constructor]. apply A4; [done|done|by constructor].
  - intros init Hi Hf Hd1 Hd2 Hcs2. destruct (B5 init) as [Hcs1 Hr]; [done|done|lia|lia|done|].
    destruct (A5 init) as [Hcs Hl]; [done|done|lia|lia|done|]. split; [done|]. constructor; [|constructor].
    apply Forall_cons_iff in Hl as [Hl _], Hr as [Hr _]. by apply and_holds.
Qed.

Lemma add_push e cs :
  (forall m, add_ (S m) e cs = Ret (cs ++ [e])) -> bool_ok e -> Forall bool_ok cs ->
  exists cs', gives (fun m => add_ m e cs) cs' /\ extends cs [e] cs'.
Proof.
  intros Hm He Hcs. exists (cs ++ [e]). split; [|by apply extends_push].
  by apply (gives_S _ (fun _ => Ret (cs ++ [e]))); [apply gives_ret|].
Qed.

(** Induction on the weight of the constraints involved, and on the size of the new one. *)
Lemma add_ok B : forall e cs, (mass e + masses cs < B)%nat -> add_spec e cs.
Proof.
  induction B as [|B IHB]; [lia|]. intros e.
  induction e as [w v|src _|root head index _|c _ t _ f _|l _ r _|e _ o w0|src _ w0|src _ w0|e _|k l IHl r IHr];
    intros cs HB Hb Hh Hcs Hcs0;
    try (apply add_push; [intros; reflexivity|done|done]).
  - exists cs. split.
    + apply (gives_S _ (fun _ => Ret cs)); [apply gives_ret|]. intros m. cbn [addConstraintInternal].
      destruct Hb as [_ Hw]. simpl in Hw. subst w. injection Hh as ->. done.
    + split; simpl; [done|lia|lia|done|]. intros init _ _ _ _ H. split; [done|]. constructor; [exact Hh|constructor].
  - destruct k; try (apply add_push; [intros; reflexivity|done|done]).
    + destruct (and_bool_ok l r Hb) as [Hbl Hbr]. apply and_holds in Hh as [Hhl Hhr]; [|done|done].
      assert (Hm : (mass l + mass r <= mass (Binary And l r))%nat) by (change (mass (Binary And l r)) with (Nat.max 1 (mass l + mass r)); lia).
      destruct (IHl cs) as (cs1 & Hg1 & Hx1); [lia|done|done|done|done|].
      destruct (IHr cs1) as (cs2 & Hg2 & Hx2); [pose proof (ex_mass _ _ _ Hx1) as H1; simpl in H1; lia|done|done| | |].
      * by apply (ex_ok _ _ _ Hx1).
      * apply (ex_fwd _ _ _ Hx1); [done|done|by constructor].
      * exists cs2. split; [|by eapply extends_and].
        eapply gives_S; [|intros m; cbn [addConstraintInternal]; reflexivity]. by eapply (gives_bind _ _ cs1).
    + destruct (RewriteEqualities && isConstant l) eqn:Hrw;
        [|apply add_push; [intros; cbn [addConstraintInternal]; by rewrite Hrw|done|done]].
      apply andb_prop in Hrw as [HR Hl].
      assert (Hpos : (1 <= mass (Binary Eq l r))%nat) by (by apply (weight_least 1 0 1)).
      destruct (rewrite_spec l r Hl Hb Hh cs [] (masses cs)) as (cs' & Hg & H1 & H2 & H3 & H4 & H5);
        [simpl; lia|intros e' cs'' Hm; apply IHB; lia|done|done|constructor|constructor|].
      rewrite app_nil_r in *. simpl in H2, H3.
      exists (cs' ++ [Binary Eq l r]). split.
      * apply (gives_S _ (fun m => cs ← rewriteConstraints false (add_ m) r l cs []; Ret (cs ++ [Binary Eq l r])));
          [|intros m; cbn [addConstraintInternal]; by rewrite (andb_true_intro (conj HR Hl))].
        apply (gives_bind _ (fun _ cs => Ret (cs ++ [Binary Eq l r])) cs'); [done|apply gives_ret].
      * split.
        -- apply Forall_app. split; [done|by constructor].
        -- rewrite total_app. simpl. lia.
        -- rewrite total_app. simpl. lia.
        -- intros init Hi Hc He. apply Forall_app. split; [|done]. apply Forall_cons_iff in He as [He _]. by apply H4.
        -- intros init Hi Hf Hd Hd' Hall. apply Forall_app in Hall as [Hc He]. split; [|done].
           apply Forall_cons_iff in He as [He _]. by apply H5.
Qed.
End Model.

(** C30. Simplification under the constraints of a path: where the constraints hold and the
    expression has a value, the visitor that starts again after each replacement ends (with
    fuel for the weight of the expression), and the simplified expression is well typed, of
    the same width and value, and not heavier. *)
Theorem simplify_correct init cs e v n :
  init_ok init -> Forall bool_ok cs -> Forall (holds init) cs -> width_ok e = true -> eval init e = Some v ->
  (mass e < n)%nat ->
  exists e', simplifyExpr false n cs e = Ret e' /\ width_ok e' = true /\ getWidth e' = getWidth e /\
    eval init e' = Some v /\ (mass e' <= mass e)%nat.
Proof.
  intros Hi Hb Hh He Hv Hn. destruct (simplify_ok init cs e v n) as (e' & H1 & (H2 & H3 & H4) & H5); try done.
  by exists e'.
Qed.

(** Adding a constraint, with the number of divisions. *)
Lemma addConstraint_extends init0 cs e :
  init_ok init0 -> Forall bool_ok cs -> bool_ok e -> Forall (holds init0) cs -> holds init0 e ->
  exists cs', gives (fun n => addConstraint false RewriteEqualities n e cs) cs' /\ Forall bool_ok cs' /\
    (divs cs' <= divisions e + divs cs)%nat /\
    (forall init, init_ok init -> Forall (holds init) cs -> holds init e -> Forall (holds init) cs') /\
    (forall init, init_ok init -> full init -> divs cs = O -> divisions e = O ->
       Forall (holds init) cs' -> Forall (holds init) cs /\ holds init e).
Proof.
  intros Hi0 Hcs [He Hw] Hcs0 He0.
  destruct (simplify_ok init0 cs e 1 (S (mass e)) Hi0 Hcs Hcs0 He He0 ltac:(lia)) as (e1 & Hs & (K1 & K2 & K3) & _).
  assert (Hsame : forall init v, init_ok init -> Forall (holds init) cs -> eval init e = Some v -> eval init e1 = Some v).
  { intros init v Hi Hh Hv. destruct (simplify_ok init cs e v (S (mass e)) Hi Hcs Hh He Hv ltac:(lia)) as (e2 & Hs2 & (_ & _ & K) & _).
    rewrite Hs in Hs2. by injection Hs2 as <-. }
  pose proof (simplify_divisions _ _ _ _ Hs) as Hdiv.
  destruct (add_ok init0 Hi0 (S (mass e1 + masses cs)) e1 cs) as (cs' & Hg & [X1 _ X3 X4 X5]);
    [lia|split; [done|congruence]|done|done|done|].
  exists cs'. split_and!; [|done|simpl in X3; lia| |].
  - apply (gives_bind _ (fun n e => addConstraintInternal false RewriteEqualities n e cs) e1); [|done].
    exists (S (mass e)). intros m Hm. by eapply simplify_more.
  - intros init Hi Hh Hhe. apply X4; [done|done|]. constructor; [by apply Hsame|done].
  - intros init Hi Hf Hd Hde Hall. destruct (X5 init) as [Hc H1]; [done|done|done|simpl; lia|done|].
    split; [done|]. apply Forall_cons_iff in H1 as [H1 _]. destruct (eval_defined init Hi Hf e He Hde) as [v Hv].
    pose proof (Hsame init v Hi Hc Hv) as H2. unfold holds in *. congruence.
Qed.

(** C11. Adding a constraint to the constraints of a path, when both have a common solution:
    no assertion fails and the calls end; the new constraints are boolean expressions;
    every solution of the old ones and the added one is a solution; and without divisions
    every solution, for a content of all arrays, is one of the old ones and the added one. *)
Theorem addConstraint_correct init0 cs e :
  init_ok init0 -> Forall bool_ok cs -> bool_ok e -> Forall (holds init0) cs -> holds init0 e ->
  exists cs', gives (fun n => addConstraint false RewriteEqualities n e cs) cs' /\ Forall bool_ok cs' /\
    (forall init, init_ok init -> Forall (holds init) cs -> holds init e -> Forall (holds init) cs') /\
    (forall init, init_ok init -> full init -> divs cs = O -> divisions e = O ->
       Forall (holds init) cs' -> Forall (holds init) cs /\ holds init e).
Proof.
  intros Hi0 Hcs He Hcs0 He0. destruct (addConstraint_extends init0 cs e) as (cs' & H1 & H2 & _ & H3 & H4); try done. by exists cs'.
Qed.
End Manager.

(** ** On concrete constraints *)
Import ExprMain.
(** The first byte is less than the last one, the second is 2. *)
Definition path : list expr := [Binary Ult (byte 0) (byte 3); Binary Eq (Constant 8 2) (byte 1)].
Definition first_is_7 : expr := Binary Eq (Constant 8 7) (byte 0).
Lemma asg_init : init_ok (assigned false asg).
Proof. apply assigned_admissible. Qed.
Lemma asg_full : full (assigned false asg).
Proof. intros a i Hr. unfold assigned. rewrite (proj2 (Z.ltb_lt _ _) Hr). by eexists. Qed.
Lemma path_ok : Forall bool_ok path.
Proof. by repeat constructor. Qed.
Lemma path_holds : Forall (holds (assigned false asg)) path.
Proof. by repeat constructor. Qed.

Lemma simplify_correct_witness :
  exists e', simplifyExpr false 20 path (Binary Add (byte 0) (byte 1)) = Ret e' /\
    eval (assigned false asg) e' = Some 9.
Proof.
  destruct (simplify_correct (assigned false asg) path (Binary Add (byte 0) (byte 1)) 9 20)
    as (e' & H1 & _ & _ & H2 & _);
    [exact asg_init|exact path_ok|exact path_holds|reflexivity|vm_compute; reflexivity|vm_compute; lia|].
  by exists e'.
Defined.

(** The constant takes the place of the byte in the other constraint. *)
Lemma addConstraint_correct_witness :
  addConstraint false true 40 first_is_7 path =
    Ret [Binary Ult (Constant 8 7) (byte 3); Binary Eq (Constant 8 2) (byte 1); first_is_7] /\
  exists cs', gives (fun n => addConstraint false true n first_is_7 path) cs' /\ Forall bool_ok cs' /\
    (Forall (holds (assigned false asg)) cs' <-> Forall (holds (assigned false asg)) path /\ holds (assigned false asg) first_is_7).
Proof.
  split; [vm_compute; reflexivity|].
  destruct (addConstraint_correct true (assigned false asg) path first_is_7) as (cs' & H1 & H2 & H3 & H4);
    [exact asg_init|exact path_ok|by split|exact path_holds|vm_compute; reflexivity|].
  exists cs'. split; [exact H1|]. split; [exact H2|]. split.
  - apply H4; [exact asg_init|exact asg_full|reflexivity|reflexivity].
  - intros [Hp Hf]. by apply H3; [exact asg_init|..].
Defined.
End ConstraintsMain.
