(* ===== verification/ImmTree.v ===== *)
(** * Immutable trees

    include/klee/Internal/ADT/ImmutableTree.h: height-balanced search trees that share
    their nodes, with iterators that keep the path from the root. They hold the address
    space of a state. Reference counts have no influence on what the operations compute
    and are not kept. *)
From stdpp Require Import base list.
From Stdlib Require Import Lia.
From S2P Require Import Prelude.

Module ImmTree.

(** [class ImmutableTree::Node]; there is one [terminator]. *)
Inductive Node (V : Type) : Type :=
| terminator
| MkNode (left right : Node V) (value : V) (height : nat).
Arguments terminator {V}.
Arguments MkNode {V} left right value height.

#[export] Instance Node_eq_dec {V} `{EqDecision V} : EqDecision (Node V).
Proof. solve_decision. Defined.

(** ** Nodes *)
Section Nodes.
Context {K V : Type} (key_of_value : V -> K) (key_compare : K -> K -> bool).
(** The value of the terminator, which the default constructor made. *)
Context (no_value : V).
Implicit Types n l r : Node V.

Definition isTerminator n : bool := match n with terminator => true | _ => false end.
(** The fields of a node; the kids of the terminator are the terminator. *)
Definition left n : Node V := match n with terminator => terminator | MkNode l _ _ _ => l end.
Definition right n : Node V := match n with terminator => terminator | MkNode _ r _ _ => r end.
Definition value n : V := match n with terminator => no_value | MkNode _ _ v _ => v end.
Definition height n : nat := match n with terminator => O | MkNode _ _ _ h => h end.

Definition new_Node l r (v : V) : Node V := MkNode l r v (Nat.max (height l) (height r) + 1).

Definition balance l (v : V) r : Node V :=
  if (height r + 2 <? height l)%nat then
    let ll := left l in
    let lr := right l in
    if (height lr <=? height ll)%nat then new_Node ll (new_Node lr r v) (value l)
    else new_Node (new_Node ll (left lr) (value l)) (new_Node (right lr) r v) (value lr)
  else if (height l + 2 <? height r)%nat then
    let rl := left r in
    let rr := right r in
    if (height rl <=? height rr)%nat then new_Node (new_Node l rl v) rr (value r)
    else new_Node (new_Node l (left rl) v) (new_Node (right rl) rr (value r)) (value rl)
  else new_Node l r v.

Fixpoint size n : nat :=
  match n with terminator => O | MkNode l r _ _ => size l + 1 + size r end.

(** The value that goes to [valueOut], and the tree without it. *)
Fixpoint popMin n : V * Node V :=
  match n with
  | terminator => (no_value, terminator)
  | MkNode l r v _ => if isTerminator l then (v, r) else let (m, l') := popMin l in (m, balance l' v r)
  end.
Fixpoint popMax n : V * Node V :=
  match n with
  | terminator => (no_value, terminator)
  | MkNode l r v _ => if isTerminator r then (v, l) else let (m, r') := popMax r in (m, balance l v r')
  end.

Fixpoint insert (v : V) n : Node V :=
  match n with
  | terminator => new_Node terminator terminator v
  | MkNode l r x _ =>
      if key_compare (key_of_value v) (key_of_value x) then balance (insert v l) x r
      else if key_compare (key_of_value x) (key_of_value v) then balance l x (insert v r)
      else n
  end.
Fixpoint replace (v : V) n : Node V :=
  match n with
  | terminator => new_Node terminator terminator v
  | MkNode l r x _ =>
      if key_compare (key_of_value v) (key_of_value x) then balance (replace v l) x r
      else if key_compare (key_of_value x) (key_of_value v) then balance l x (replace v r)
      else new_Node l r v
  end.
Fixpoint remove (k : K) n : Node V :=
  match n with
  | terminator => terminator
  | MkNode l r x _ =>
      if key_compare k (key_of_value x) then balance (remove k l) x r
      else if key_compare (key_of_value x) k then balance l x (remove k r)
      else if isTerminator l then r
      else if isTerminator r then l
      else let (min, nr) := popMin r in balance l min nr
  end.

Fixpoint count (k : K) n : nat :=
  match n with
  | terminator => 0
  | MkNode l r x _ =>
      if key_compare k (key_of_value x) then count k l
      else if key_compare (key_of_value x) k then count k r
      else 1
  end.
Fixpoint lookup (k : K) n : option V :=
  match n with
  | terminator => None
  | MkNode l r x _ =>
      if key_compare k (key_of_value x) then lookup k l
      else if key_compare (key_of_value x) k then lookup k r
      else Some x
  end.
(** The loop of [lookup_previous], with its variable [result]. *)
Fixpoint previous_from (result : option V) (k : K) n : option V :=
  match n with
  | terminator => result
  | MkNode l r x _ =>
      if key_compare k (key_of_value x) then previous_from result k l
      else if key_compare (key_of_value x) k then previous_from (Some x) k r
      else Some x
  end.
Definition lookup_previous : K -> Node V -> option V := previous_from None.

Fixpoint leftmost (v : V) n : V := match n with terminator => v | MkNode l _ x _ => leftmost x l end.
Fixpoint rightmost (v : V) n : V := match n with terminator => v | MkNode _ r x _ => rightmost x r end.
Definition min n : result V :=
  match n with terminator => Stop AssertFailed | MkNode l _ x _ => Ret (leftmost x l) end.
Definition max n : result V :=
  match n with terminator => Stop AssertFailed | MkNode _ r x _ => Ret (rightmost x r) end.
End Nodes.

(** ** Iterators *)
Section Iterators.
Context {K V : Type} `{EqDecision V} (key_of_value : V -> K) (key_compare : K -> K -> bool).
Implicit Types n : Node V.

(** [class FixedStack]: an array of [max] elements of which the first are used; here the
    used ones, the last first. *)
Record FixedStack : Type := MkStack { smax : nat; elts : list (Node V) }.
Definition push_back n (s : FixedStack) : result FixedStack :=
  if (length (elts s) <? smax s)%nat then Ret (MkStack (smax s) (n :: elts s)) else Stop MemError.
Definition back (s : FixedStack) : result (Node V) :=
  match elts s with [] => Stop MemError | n :: _ => Ret n end.

(** [class iterator]. Nodes of one tree have different keys: comparing nodes is comparing
    pointers. *)
Record iterator : Type := MkIter { root : Node V; stack : FixedStack }.

Fixpoint push_left n (s : FixedStack) : result FixedStack :=
  match n with terminator => Ret s | MkNode l _ _ _ => s ← push_back n s; push_left l s end.
Fixpoint push_right n (s : FixedStack) : result FixedStack :=
  match n with terminator => Ret s | MkNode _ r _ _ => s ← push_back n s; push_right r s end.

Definition iterator_new (_root : Node V) (atBeginning : bool) : result iterator :=
  let s := MkStack (height _root) [] in
  s ← (if atBeginning then push_left _root s else Ret s);
  Ret (MkIter _root s).

Definition deref (it : iterator) : result V :=
  n ← back (stack it); match n with terminator => Stop MemError | MkNode _ _ v _ => Ret v end.

Definition iterator_eqb (a b : iterator) : bool := bool_decide (elts (stack a) = elts (stack b)).

(** The loops that leave a finished subtree: [prev] was popped from above [st]. *)
Fixpoint pop_right prev (st : list (Node V)) : list (Node V) :=
  match st with
  | [] => []
  | n :: st' => if bool_decide (prev = right n) then st else pop_right n st'
  end.
Fixpoint pop_left prev (st : list (Node V)) : list (Node V) :=
  match st with
  | [] => []
  | n :: st' => if bool_decide (prev = left n) then st else pop_left n st'
  end.

Definition iterator_prev (it : iterator) : result iterator :=
  let s := stack it in
  s' ← match elts s with
       | [] => push_right (root it) s
       | n :: st =>
           if isTerminator (left n) then Ret (MkStack (smax s) (pop_right n st))
           else s ← push_back (left n) s; push_right (right (left n)) s
       end;
  Ret (MkIter (root it) s').
Definition iterator_next (it : iterator) : result iterator :=
  let s := stack it in
  s' ← match elts s with
       | [] => Stop AssertFailed
       | n :: st =>
           if isTerminator (right n) then Ret (MkStack (smax s) (pop_left n st))
           else s ← push_back (right n) s; push_left (left (right n)) s
       end;
  Ret (MkIter (root it) s').

Definition begin_ n : result iterator := iterator_new n true.
Definition end_ n : result iterator := iterator_new n false.

(** The loop of [lower_bound]; [true]: the key was found. *)
Fixpoint descend (k : K) n (s : FixedStack) : result (bool * FixedStack) :=
  match n with
  | terminator => Ret (false, s)
  | MkNode l r x _ =>
      s ← push_back n s;
      if key_compare k (key_of_value x) then descend k l s
      else if key_compare (key_of_value x) k then descend k r s
      else Ret (true, s)
  end.
Definition lower_bound (k : K) n : result iterator :=
  it ← iterator_new n false;
  fs ← descend k n (stack it);
  let it := MkIter n fs.2 in
  if fs.1 : bool then Ret it
  else match elts fs.2 with
       | [] => Ret it
       | last :: _ =>
           v ← deref it;
           if key_compare (key_of_value v) k then iterator_next it else Ret it
       end.
Definition find (k : K) n : result iterator :=
  e ← iterator_new n false;
  it ← lower_bound k n;
  if iterator_eqb it e then Ret e
  else v ← deref it; if key_compare k (key_of_value v) then Ret e else Ret it.
Definition upper_bound (k : K) n : result iterator :=
  e ← iterator_new n false;
  it ← lower_bound k n;
  if iterator_eqb it e then Ret it
  else v ← deref it; if key_compare k (key_of_value v) then Ret it else iterator_next it.
End Iterators.
Arguments FixedStack V : clear implicits.
Arguments iterator V : clear implicits.
End ImmTree.
