(* ===== verification/ImmTreeOk.v ===== *)
(** * Immutable trees: the operations on sorted sequences

    The abstract value of a tree is the sequence of its values in order. Every operation
    is one on sorted sequences, and keeps the trees ordered and balanced. *)
From stdpp Require Import base list.
From Stdlib Require Import Lia Sorting.Sorted.
From S2P Require Import Prelude ImmTree.

Module ImmTreeOk.
Import ImmTree.

(** What the comparison of keys has to be. *)
Class StrictWeakOrder {K} (key_compare : K -> K -> bool) : Prop := {
  cmp_irrefl a : key_compare a a = false;
  cmp_trans a b c : key_compare a b = true -> key_compare b c = true -> key_compare a c = true;
  cmp_weak a b c : key_compare a c = true -> key_compare a b = true \/ key_compare b c = true
}.

(** The values of a tree in order. *)
Fixpoint elements {V} (n : Node V) : list V :=
  match n with terminator => [] | MkNode l r v _ => elements l ++ v :: elements r end.

(** Stored heights are right, and kids differ by at most two. *)
Fixpoint balanced {V} (n : Node V) : Prop :=
  match n with
  | terminator => True
  | MkNode l r _ h =>
      balanced l /\ balanced r /\ h = (Nat.max (height l) (height r) + 1)%nat /\
      (height l <= height r + 2 /\ height r <= height l + 2)%nat
  end.

Section Ok.
Context {K V : Type} (key_of_value : V -> K) (key_compare : K -> K -> bool) {swo : StrictWeakOrder key_compare}.
Context (no_value : V).
Implicit Types n : Node V.

Abbreviation key := key_of_value.
Abbreviation lt := key_compare.

(** ** Sequences in order *)
Definition before (a b : V) : Prop := lt (key a) (key b) = true.
Definition ordered (l : list V) : Prop := StronglySorted before l.

(** The part of a sequence below a key, at it, and above it. *)
Definition below (k : K) (l : list V) : list V := List.filter (fun x => lt (key x) k) l.
Definition at_key (k : K) (l : list V) : list V := List.filter (fun x => negb (lt (key x) k) && negb (lt k (key x))) l.
Definition above (k : K) (l : list V) : list V := List.filter (fun x => lt k (key x)) l.

Lemma lt_asym a b : lt a b = true -> lt b a = false.
Proof. intros H. destruct (lt b a) eqn:E; [|done]. pose proof (cmp_trans a b a H E) as Ha. by rewrite cmp_irrefl in Ha. Qed.

Lemma ordered_app l l' :
  ordered (l ++ l') <-> ordered l /\ ordered l' /\ Forall (fun a => Forall (before a) l') l.
Proof.
  unfold ordered. induction l as [|a l IH]; simpl.
  - split; [intros H; split_and!; [constructor|done|constructor]|by intros (_ & ? & _)].
  - split.
    + intros H. apply StronglySorted_inv in H as [H1 H2]. apply IH in H1 as (H3 & H4 & H5).
      apply Forall_app in H2 as [H6 H7]. split_and!; [by constructor|done|by constructor].
    + intros (H1 & H2 & H3). apply StronglySorted_inv in H1 as [H4 H5]. apply Forall_cons_iff in H3 as [H6 H7].
      constructor; [by apply IH|by apply Forall_app].
Qed.
Lemma ordered_mid l v l' :
  ordered (l ++ v :: l') <->
  ordered l /\ ordered l' /\ Forall (fun a => before a v) l /\ Forall (before v) l'.
Proof.
  rewrite ordered_app. split.
  - intros (H1 & H2 & H3). apply StronglySorted_inv in H2 as [H2 H4]. split_and!; [done|done| |done].
    eapply Forall_impl; [exact H3|]. simpl. intros a Ha. by apply Forall_cons_iff in Ha as [? _].
  - intros (H1 & H2 & H3 & H4). split_and!; [done|by constructor|].
    eapply Forall_impl; [exact H3|]. simpl. intros a Ha. constructor; [done|].
    eapply Forall_impl; [exact H4|]. simpl. intros b Hb. by eapply cmp_trans.
Qed.

(** *** Parts of [l ++ v :: r], by the place of the key *)
Lemma filter_all (f : V -> bool) l : Forall (fun x => f x = true) l -> List.filter f l = l.
Proof. induction 1 as [|x l Hx _ IH]; simpl; [done|]. by rewrite Hx, IH. Qed.
Lemma filter_none (f : V -> bool) l : Forall (fun x => f x = false) l -> List.filter f l = [].
Proof. induction 1 as [|x l Hx _ IH]; simpl; [done|]. by rewrite Hx, IH. Qed.

(** All of the sequence is above the key, or below. *)
Lemma parts_high k l :
  Forall (fun x => lt k (key x) = true) l -> below k l = [] /\ at_key k l = [] /\ above k l = l.
Proof.
  intros H. unfold below, at_key, above. split_and!; [apply filter_none|apply filter_none|by apply filter_all];
    (eapply Forall_impl; [exact H|]); simpl; intros x Hx.
  - by apply lt_asym.
  - by rewrite Hx, andb_false_r.
Qed.
Lemma parts_low k l :
  Forall (fun x => lt (key x) k = true) l -> below k l = l /\ at_key k l = [] /\ above k l = [].
Proof.
  intros H. unfold below, at_key, above. split_and!; [by apply filter_all|apply filter_none|apply filter_none];
    (eapply Forall_impl; [exact H|]); simpl; intros x Hx.
  - by rewrite Hx.
  - by apply lt_asym.
Qed.
Lemma parts_app k l l' :
  below k (l ++ l') = below k l ++ below k l' /\ at_key k (l ++ l') = at_key k l ++ at_key k l' /\
  above k (l ++ l') = above k l ++ above k l'.
Proof. unfold below, at_key, above. by rewrite !List.filter_app. Qed.

Section Mid.
Context (l : list V) (v : V) (r : list V) (Hord : ordered (l ++ v :: r)) (k : K).

Lemma mid_less :
  lt k (key v) = true ->
  below k (l ++ v :: r) = below k l /\ at_key k (l ++ v :: r) = at_key k l /\
  above k (l ++ v :: r) = above k l ++ v :: r.
Proof.
  intros H. apply ordered_mid in Hord as (_ & _ & _ & Hr).
  destruct (parts_high k (v :: r)) as (B & A & C).
  { constructor; [done|]. eapply Forall_impl; [exact Hr|]. simpl. intros x Hx. by eapply cmp_trans. }
  destruct (parts_app k l (v :: r)) as (-> & -> & ->). by rewrite A, B, C, !app_nil_r.
Qed.
Lemma mid_greater :
  lt (key v) k = true ->
  below k (l ++ v :: r) = l ++ v :: below k r /\ at_key k (l ++ v :: r) = at_key k r /\
  above k (l ++ v :: r) = above k r.
Proof.
  intros H. apply ordered_mid in Hord as (_ & _ & Hl & _).
  destruct (parts_low k (l ++ [v])) as (B & A & C).
  { apply Forall_app. split; [|by constructor]. eapply Forall_impl; [exact Hl|]. simpl.
    intros x Hx. by eapply cmp_trans. }
  assert (E : l ++ v :: r = (l ++ [v]) ++ r) by (by rewrite <- app_assoc). rewrite E.
  destruct (parts_app k (l ++ [v]) r) as (-> & -> & ->). rewrite A, B, C. by rewrite <- app_assoc.
Qed.
Lemma mid_equal :
  lt k (key v) = false -> lt (key v) k = false ->
  below k (l ++ v :: r) = l /\ at_key k (l ++ v :: r) = [v] /\ above k (l ++ v :: r) = r.
Proof.
  intros H1 H2. apply ordered_mid in Hord as (_ & _ & Hl & Hr).
  destruct (parts_low k l) as (B & A & C).
  { eapply Forall_impl; [exact Hl|]. simpl. intros x Hx. destruct (cmp_weak _ k _ Hx); congruence. }
  destruct (parts_high k r) as (B' & A' & C').
  { eapply Forall_impl; [exact Hr|]. simpl. intros x Hx. destruct (cmp_weak _ k _ Hx); congruence. }
  destruct (parts_app k l (v :: r)) as (-> & -> & ->). rewrite A, B, C.
  unfold below, at_key, above in *. simpl. rewrite H1, H2. simpl. by rewrite A', B', C', app_nil_r.
Qed.
End Mid.

(** A sequence in order is its parts, and has one value at most at a key. *)
Lemma parts_ordered k l :
  ordered l -> l = below k l ++ at_key k l ++ above k l /\ (length (at_key k l) <= 1)%nat.
Proof.
  induction l as [|v l IH]; intros Ho; [by split; [|simpl; lia]|].
  pose proof (mid_less [] v l Ho k) as HL. pose proof (mid_greater [] v l Ho k) as HG.
  pose proof (mid_equal [] v l Ho k) as HE. cbn [app] in *.
  apply StronglySorted_inv in Ho as [Ho _]. destruct (IH Ho) as [E Hn].
  destruct (lt k (key v)) eqn:H1; [|destruct (lt (key v) k) eqn:H2].
  - destruct HL as (-> & -> & ->); [done|]. by split; simpl; [|lia].
  - destruct HG as (-> & -> & ->); [done|]. simpl. by rewrite <- E.
  - destruct HE as (-> & -> & ->); [done|done|]. by split; simpl; [|lia].
Qed.
(** ** Balancing *)
Abbreviation balance_ := (balance no_value).
Abbreviation popMin_ := (popMin no_value).
Abbreviation popMax_ := (popMax no_value).

Lemma elements_left_right n : isTerminator n = false -> elements n = elements (left n) ++ value no_value n :: elements (right n).
Proof. by destruct n. Qed.
Lemma height_zero n : balanced n -> height n = O -> n = terminator.
Proof. destruct n as [|l r v h]; [done|]. simpl. intros (_ & _ & -> & _) H. lia. Qed.

(** Rotations do not change the sequence. Where the code looks into a kid, it is there. *)
Lemma balance_elements l v r :
  balanced l -> balanced r -> elements (balance_ l v r) = elements l ++ v :: elements r.
Proof.
  intros Hl Hr. unfold balance. destruct (Nat.ltb_spec (height r + 2) (height l)).
  - destruct l as [|ll lr x h]; simpl in *; [lia|]. destruct Hl as (Hll & Hlr & -> & Hd).
    destruct (Nat.leb_spec (height lr) (height ll)); simpl; [by rewrite <- app_assoc|].
    destruct lr as [|a b y h]; simpl in *; [lia|]. by repeat (rewrite <- app_assoc; simpl).
  - destruct (Nat.ltb_spec (height l + 2) (height r)); [|done].
    destruct r as [|rl rr x h']; simpl in *; [lia|]. destruct Hr as (Hrl & Hrr & -> & Hd).
    destruct (Nat.leb_spec (height rl) (height rr)); simpl; [by rewrite <- app_assoc|].
    destruct rl as [|a b y h']; simpl in *; [lia|]. by repeat (rewrite <- app_assoc; simpl).
Qed.

(** Kids that differ by three at most give a balanced tree, one higher than the higher kid
    or not at all. *)
Lemma balance_balanced l v r :
  balanced l -> balanced r -> (height l <= height r + 3)%nat -> (height r <= height l + 3)%nat ->
  balanced (balance_ l v r) /\
  (Nat.max (height l) (height r) <= height (balance_ l v r) <= Nat.max (height l) (height r) + 1)%nat /\
  ((height l <= height r + 2)%nat -> (height r <= height l + 2)%nat ->
    height (balance_ l v r) = (Nat.max (height l) (height r) + 1)%nat).
Proof.
  intros Hl Hr H1 H2. unfold balance. destruct (Nat.ltb_spec (height r + 2) (height l)).
  - destruct l as [|ll lr x h]; cbn [height balanced left right value] in *; [lia|]. destruct Hl as (Hll & Hlr & -> & Hd).
    destruct (Nat.leb_spec (height lr) (height ll)); cbn [new_Node height balanced]; [split_and!; (done || lia)|].
    destruct lr as [|a b y h]; cbn [height balanced left right value] in *; [lia|]. destruct Hlr as (Ha & Hb & -> & Hd').
    split_and!; (done || lia).
  - destruct (Nat.ltb_spec (height l + 2) (height r)); [|cbn [new_Node height balanced]; split_and!; (done || lia)].
    destruct r as [|rl rr x h']; cbn [height balanced left right value] in *; [lia|]. destruct Hr as (Hrl & Hrr & -> & Hd).
    destruct (Nat.leb_spec (height rl) (height rr)); cbn [new_Node height balanced]; [split_and!; (done || lia)|].
    destruct rl as [|a b y h']; cbn [height balanced left right value] in *; [lia|]. destruct Hrl as (Ha & Hb & -> & Hd').
    split_and!; (done || lia).
Qed.

(** [n'] is a balanced tree for the sequence [l], of the height of [n] or [d] from it. *)
Definition grows n n' (l : list V) : Prop :=
  balanced n' /\ elements n' = l /\ (height n <= height n' <= height n + 1)%nat.
Definition shrinks n n' (l : list V) : Prop :=
  balanced n' /\ elements n' = l /\ (height n' <= height n <= height n' + 1)%nat.

(** A kid that has grown or shrunk by one. *)
Lemma balance_left l v r h l' s :
  balanced (MkNode l r v h) -> (grows l l' s -> grows (MkNode l r v h) (balance_ l' v r) (s ++ v :: elements r)) /\
  (shrinks l l' s -> shrinks (MkNode l r v h) (balance_ l' v r) (s ++ v :: elements r)).
Proof.
  intros (Hl & Hr & -> & Hd). unfold grows, shrinks. split; intros (Hb & He & Hh).
  - destruct (balance_balanced l' v r) as (A & B & C); [done|done|lia|lia|]. rewrite balance_elements, He by done.
    cbn [height]. split_and!; [done|done|lia|lia].
  - destruct (balance_balanced l' v r) as (A & B & C); [done|done|lia|lia|]. rewrite balance_elements, He by done.
    cbn [height]. split_and!; [done|done|lia|lia].
Qed.
Lemma balance_right l v r h r' s :
  balanced (MkNode l r v h) -> (grows r r' s -> grows (MkNode l r v h) (balance_ l v r') (elements l ++ v :: s)) /\
  (shrinks r r' s -> shrinks (MkNode l r v h) (balance_ l v r') (elements l ++ v :: s)).
Proof.
  intros (Hl & Hr & -> & Hd). unfold grows, shrinks. split; intros (Hb & He & Hh).
  - destruct (balance_balanced l v r') as (A & B & C); [done|done|lia|lia|]. rewrite balance_elements, He by done.
    cbn [height]. split_and!; [done|done|lia|lia].
  - destruct (balance_balanced l v r') as (A & B & C); [done|done|lia|lia|]. rewrite balance_elements, He by done.
    cbn [height]. split_and!; [done|done|lia|lia].
Qed.
(** ** The operations on sequences *)
Definition seq_insert (v : V) (l : list V) : list V :=
  below (key v) l ++ (match at_key (key v) l with [] => [v] | m => m end) ++ above (key v) l.
Definition seq_replace (v : V) (l : list V) : list V := below (key v) l ++ v :: above (key v) l.
Definition seq_remove (k : K) (l : list V) : list V := below k l ++ above k l.

(** The case analysis of a search in [MkNode l r v h]: rewrites the parts of the sequence. *)
Ltac search_step Ho k :=
  match type of Ho with ordered (elements ?l ++ ?v :: elements ?r) =>
    let HL := fresh in let HG := fresh in let HE := fresh in
    let A := fresh in let B := fresh in let C := fresh in
    pose proof (mid_less (elements l) v (elements r) Ho k) as HL;
    pose proof (mid_greater (elements l) v (elements r) Ho k) as HG;
    pose proof (mid_equal (elements l) v (elements r) Ho k) as HE;
    destruct (lt k (key v)) eqn:?;
      [destruct (HL eq_refl) as (A & B & C)
      |destruct (lt (key v) k) eqn:?;
        [destruct (HG eq_refl) as (A & B & C)|destruct (HE eq_refl eq_refl) as (A & B & C)]];
    rewrite ?A, ?B, ?C; clear A B C HL HG HE
  end.

Lemma ordered_kids l v r : ordered (elements l ++ v :: elements r) -> ordered (elements l) /\ ordered (elements r).
Proof. intros H. apply ordered_mid in H. tauto. Qed.

Lemma insert_ok v n :
  ordered (elements n) -> balanced n ->
  grows n (insert key lt no_value v n) (seq_insert v (elements n)).
Proof.
  unfold seq_insert. induction n as [|l IHl r IHr x h]; intros Ho Hb; [by split_and!; simpl; try lia|].
  cbn [insert elements] in *. destruct (ordered_kids _ _ _ Ho) as [Hol Hor]. destruct (Hb) as (Hbl & Hbr & _).
  search_step Ho (key v).
  - specialize (IHl Hol Hbl). apply (proj1 (balance_left _ _ _ _ _ _ Hb)) in IHl. by rewrite <- !app_assoc in IHl.
  - specialize (IHr Hor Hbr). apply (proj1 (balance_right _ _ _ _ _ _ Hb)) in IHr. by rewrite <- app_assoc.
  - split_and!; [done|done|lia|lia].
Qed.
Lemma replace_ok v n :
  ordered (elements n) -> balanced n ->
  grows n (replace key lt no_value v n) (seq_replace v (elements n)).
Proof.
  unfold seq_replace. induction n as [|l IHl r IHr x h]; intros Ho Hb; [by split_and!; simpl; try lia|].
  cbn [replace elements] in *. destruct (ordered_kids _ _ _ Ho) as [Hol Hor]. destruct (Hb) as (Hbl & Hbr & -> & Hd).
  search_step Ho (key v).
  - specialize (IHl Hol Hbl). apply (proj1 (balance_left _ _ _ _ _ _ Hb)) in IHl. by rewrite <- app_assoc in IHl.
  - specialize (IHr Hor Hbr). apply (proj1 (balance_right _ _ _ _ _ _ Hb)) in IHr. by rewrite <- app_assoc.
  - split_and!; cbn [height new_Node balanced]; (done || lia).
Qed.

Lemma popMin_ok n :
  balanced n -> isTerminator n = false ->
  exists v l, elements n = v :: l /\ (popMin_ n).1 = v /\ shrinks n (popMin_ n).2 l.
Proof.
  induction n as [|l IHl r _ x h]; intros Hb Ht; [done|]. destruct (Hb) as (Hbl & Hbr & Hh & Hd). cbn [popMin elements].
  destruct (isTerminator l) eqn:E.
  - destruct l; [|done]. exists x, (elements r). cbn [height] in *. split_and!; [done|done|split_and!; cbn; (done || lia)].
  - destruct (IHl Hbl eq_refl) as (v & s & -> & Hv & Hs). destruct (popMin_ l) as [m l']. simpl in Hv. subst m.
    exists v, (s ++ x :: elements r). split; [done|]. split; [done|]. by apply (proj2 (balance_left _ _ _ _ _ _ Hb)).
Qed.
Lemma popMax_ok n :
  balanced n -> isTerminator n = false ->
  exists v l, elements n = l ++ [v] /\ (popMax_ n).1 = v /\ shrinks n (popMax_ n).2 l.
Proof.
  induction n as [|l _ r IHr x h]; intros Hb Ht; [done|]. destruct (Hb) as (Hbl & Hbr & Hh & Hd). cbn [popMax elements].
  destruct (isTerminator r) eqn:E.
  - destruct r; [|done]. exists x, (elements l). cbn [height] in *. split_and!; [done|done|split_and!; cbn; (done || lia)].
  - destruct (IHr Hbr eq_refl) as (v & s & -> & Hv & Hs). destruct (popMax_ r) as [m r']. simpl in Hv. subst m.
    exists v, (elements l ++ x :: s). split; [by rewrite <- app_assoc|]. split; [done|]. by apply (proj2 (balance_right _ _ _ _ _ _ Hb)).
Qed.

Lemma remove_ok k n :
  ordered (elements n) -> balanced n ->
  shrinks n (remove key lt no_value k n) (seq_remove k (elements n)).
Proof.
  unfold seq_remove. induction n as [|l IHl r IHr x h]; intros Ho Hb; [by split_and!; simpl; try lia|].
  cbn [remove elements] in *. destruct (ordered_kids _ _ _ Ho) as [Hol Hor]. destruct (Hb) as (Hbl & Hbr & Hh & Hd).
  search_step Ho k.
  - specialize (IHl Hol Hbl). apply (proj2 (balance_left _ _ _ _ _ _ Hb)) in IHl. by rewrite <- app_assoc in IHl.
  - specialize (IHr Hor Hbr). apply (proj2 (balance_right _ _ _ _ _ _ Hb)) in IHr. by rewrite <- app_assoc.
  - destruct (isTerminator l) eqn:E1; [|destruct (isTerminator r) eqn:E2].
    + destruct l; [|done]. cbn [height elements app] in *. split_and!; [done|done|simpl; lia|simpl; lia].
    + destruct r; [|done]. cbn [height elements app] in *. split_and!; [done|by rewrite app_nil_r|simpl; lia|simpl; lia].
    + destruct (popMin_ok r Hbr E2) as (v & s & -> & Hv & Hs). destruct (popMin_ r) as [m r']. simpl in Hv. subst m.
      apply (proj2 (balance_right l v r h r' s ltac:(done))) in Hs as (A & B & C). split_and!; [done|done|apply C|apply C].
Qed.

Lemma lookup_ok k n : ordered (elements n) -> lookup key lt k n = head (at_key k (elements n)).
Proof.
  induction n as [|l IHl r IHr x h]; intros Ho; [done|]. cbn [lookup elements] in *.
  destruct (ordered_kids _ _ _ Ho) as [Hol Hor]. search_step Ho k; [by apply IHl|by apply IHr|done].
Qed.
Lemma count_ok k n : ordered (elements n) -> count key lt k n = length (at_key k (elements n)).
Proof.
  induction n as [|l IHl r IHr x h]; intros Ho; [done|]. cbn [count elements] in *.
  destruct (ordered_kids _ _ _ Ho) as [Hol Hor]. search_step Ho k; [by apply IHl|by apply IHr|done].
Qed.
Lemma previous_ok k n result :
  ordered (elements n) ->
  previous_from key lt result k n =
  match last (below k (elements n) ++ at_key k (elements n)) with Some v => Some v | None => result end.
Proof.
  revert result. induction n as [|l IHl r IHr x h]; intros result Ho; [done|]. cbn [previous_from elements] in *.
  destruct (ordered_kids _ _ _ Ho) as [Hol Hor]. search_step Ho k; [by apply IHl| |].
  - rewrite IHr by done. rewrite <- app_assoc. cbn [app]. rewrite last_app_cons.
    rewrite last_cons. by destruct (last (below k (elements r) ++ at_key k (elements r))).
  - by rewrite last_app_cons.
Qed.
(** ** Sequences as maps *)
Definition equiv (a b : K) : bool := negb (lt a b) && negb (lt b a).

Lemma equiv_iff a b : equiv a b = true <-> lt a b = false /\ lt b a = false.
Proof. unfold equiv. by rewrite andb_true_iff, !negb_true_iff. Qed.
Lemma equiv_sym a b : equiv a b = equiv b a.
Proof. unfold equiv. apply andb_comm. Qed.
Lemma equiv_lt a b c : equiv a b = true -> lt a c = lt b c /\ lt c a = lt c b.
Proof.
  intros [H1 H2]%equiv_iff. split.
  - destruct (lt a c) eqn:E1, (lt b c) eqn:E2; try done.
    + destruct (cmp_weak _ b _ E1); congruence.
    + destruct (cmp_weak _ a _ E2); congruence.
  - destruct (lt c a) eqn:E1, (lt c b) eqn:E2; try done.
    + destruct (cmp_weak _ b _ E1); congruence.
    + destruct (cmp_weak _ a _ E2); congruence.
Qed.
Lemma equiv_at a b l : equiv a b = true -> at_key a l = at_key b l.
Proof. intros H. apply filter_ext. intros x. by destruct (equiv_lt a b (key x) H) as [-> ->]. Qed.

Lemma at_below k l : at_key k (below k l) = [].
Proof.
  apply filter_none, Forall_forall. intros x [_ Hx]%list_elem_of_In%filter_In. by rewrite Hx.
Qed.
Lemma at_above k l : at_key k (above k l) = [].
Proof.
  apply filter_none, Forall_forall. intros x [_ Hx]%list_elem_of_In%filter_In. by rewrite Hx, andb_false_r.
Qed.
Lemma at_other k k' l : equiv k k' = false -> at_key k (at_key k' l) = [].
Proof.
  intros H. apply filter_none, Forall_forall. intros x [_ Hx]%list_elem_of_In%filter_In.
  assert (He : equiv (key x) k' = true) by (unfold equiv; done).
  destruct (equiv_lt _ _ k He) as [-> ->]. by rewrite andb_comm, <- H.
Qed.
Lemma at_single k v : at_key k [v] = if equiv (key v) k then [v] else [].
Proof. done. Qed.

(** Lookups after each operation. *)
Lemma at_other_split k k' l :
  ordered l -> equiv k k' = false -> at_key k l = at_key k (below k' l) ++ at_key k (above k' l).
Proof.
  intros Ho H. rewrite (proj1 (parts_ordered k' l Ho)) at 1.
  destruct (parts_app k (below k' l) (at_key k' l ++ above k' l)) as (_ & -> & _).
  destruct (parts_app k (at_key k' l) (above k' l)) as (_ & -> & _). by rewrite at_other.
Qed.
Lemma at_middle k k' l m :
  at_key k (below k' l ++ m ++ above k' l) = at_key k (below k' l) ++ at_key k m ++ at_key k (above k' l).
Proof.
  destruct (parts_app k (below k' l) (m ++ above k' l)) as (_ & -> & _). by destruct (parts_app k m (above k' l)) as (_ & -> & _).
Qed.
Lemma at_replace k v l :
  ordered l -> at_key k (seq_replace v l) = if equiv k (key v) then [v] else at_key k l.
Proof.
  intros Ho. unfold seq_replace. change (v :: above (key v) l) with ([v] ++ above (key v) l). rewrite at_middle, at_single, equiv_sym.
  destruct (equiv k (key v)) eqn:E; [|by rewrite (at_other_split k (key v) l)].
  by rewrite !(equiv_at _ _ _ E), at_below, at_above.
Qed.
Lemma at_insert k v l :
  ordered l ->
  at_key k (seq_insert v l) =
  if equiv k (key v) then match at_key (key v) l with [] => [v] | m => m end else at_key k l.
Proof.
  intros Ho. unfold seq_insert. rewrite at_middle. destruct (equiv k (key v)) eqn:E.
  - rewrite !(equiv_at _ _ _ E), at_below, at_above, app_nil_r. simpl.
    destruct (parts_ordered (key v) l Ho) as [_ Hn]. destruct (at_key (key v) l) as [|x [|y m]] eqn:Em; simpl in Hn; [| |lia].
    + by rewrite at_single, (proj2 (equiv_iff _ _)); [|rewrite cmp_irrefl].
    + rewrite at_single. assert (Hx : x ∈ at_key (key v) l) by (rewrite Em; left).
      apply list_elem_of_In, filter_In in Hx as [_ Hx]. by unfold equiv; rewrite Hx.
  - rewrite (at_other_split k (key v) l) by done. f_equal.
    destruct (at_key (key v) l) as [|x m] eqn:Em; [by rewrite at_single, equiv_sym, E|].
    by rewrite <- Em, at_other.
Qed.
Lemma at_remove k k' l :
  ordered l -> at_key k (seq_remove k' l) = if equiv k k' then [] else at_key k l.
Proof.
  intros Ho. unfold seq_remove. destruct (parts_app k (below k' l) (above k' l)) as (_ & -> & _).
  destruct (equiv k k') eqn:E; [|by rewrite (at_other_split k k' l)].
  by rewrite !(equiv_at _ _ _ E), at_below, at_above.
Qed.

(** The operations keep the order. *)
Lemma ordered_parts k l :
  ordered l -> ordered (below k l) /\ ordered (above k l) /\
  Forall (fun x => lt (key x) k = true) (below k l) /\ Forall (fun x => lt k (key x) = true) (above k l).
Proof.
  intros Ho. destruct (parts_ordered k l Ho) as [E _]. rewrite E in Ho.
  apply ordered_app in Ho as (H1 & H2 & _). apply ordered_app in H2 as (_ & H2 & _).
  split_and!; [done|done| |]; apply Forall_forall; by intros x [_ Hx]%list_elem_of_In%filter_In.
Qed.
Lemma ordered_replace v l : ordered l -> ordered (seq_replace v l).
Proof. intros Ho. destruct (ordered_parts (key v) l Ho) as (A & B & C & D). apply ordered_mid. by split_and!. Qed.
Lemma ordered_remove k l : ordered l -> ordered (seq_remove k l).
Proof.
  intros Ho. destruct (ordered_parts k l Ho) as (A & B & C & D). apply ordered_app. split_and!; [done|done|].
  eapply Forall_impl; [exact C|]. simpl. intros x Hx. eapply Forall_impl; [exact D|]. simpl. intros y Hy. by eapply cmp_trans.
Qed.
Lemma ordered_insert v l : ordered l -> ordered (seq_insert v l).
Proof.
  intros Ho. unfold seq_insert. destruct (at_key (key v) l) as [|x m] eqn:E.
  - by apply ordered_replace.
  - rewrite <- E. by rewrite <- (proj1 (parts_ordered (key v) l Ho)).
Qed.
End Ok.
End ImmTreeOk.
