(* ===== verification/ImmTreeMain.v ===== *)
(** * Immutable trees: statements

Trees as sorted sequences and as maps ([ImmTreeMain]), and their iterators and searches
    ([ImmTreeIter]). *)
From stdpp Require Import base list sets.
From Stdlib Require Import ZArith Lia Sorting.Sorted.
From S2P Require Import Prelude ImmTree ImmTreeOk.

(** * Immutable trees: what a client sees

    Any sequence of operations from the empty tree answers as sorted sequences do, the
    trees are maps, and their height is logarithmic. *)
Module ImmTreeMain.
Import ImmTree ImmTreeOk.

(** The operations of the class. *)
Inductive op (K V : Type) : Type :=
| Insert (v : V) | Replace (v : V) | Remove (k : K) | PopMin | PopMax
| Lookup (k : K) | LookupPrevious (k : K) | Min | Max.
Arguments Insert {K V}. Arguments Replace {K V}. Arguments Remove {K V}. Arguments PopMin {K V}.
Arguments PopMax {K V}. Arguments Lookup {K V}. Arguments LookupPrevious {K V}. Arguments Min {K V}. Arguments Max {K V}.

Section Main.
Context {K V : Type} (key_of_value : V -> K) (key_compare : K -> K -> bool) (no_value : V).
Implicit Types n : Node V.

(** An operation on a tree: its answer and the new tree. *)
Definition run_op (o : op K V) n : result (option V) * Node V :=
  match o with
  | Insert v => (Ret None, insert key_of_value key_compare no_value v n)
  | Replace v => (Ret None, replace key_of_value key_compare no_value v n)
  | Remove k => (Ret None, remove key_of_value key_compare no_value k n)
  | PopMin => let (v, n') := popMin no_value n in (Ret (Some v), n')
  | PopMax => let (v, n') := popMax no_value n in (Ret (Some v), n')
  | Lookup k => (Ret (lookup key_of_value key_compare k n), n)
  | LookupPrevious k => (Ret (lookup_previous key_of_value key_compare k n), n)
  | Min => (v ← min n; Ret (Some v), n)
  | Max => (v ← max n; Ret (Some v), n)
  end.
(** The same on a sorted sequence. *)
Definition seq_op (o : op K V) (l : list V) : result (option V) * list V :=
  match o with
  | Insert v => (Ret None, seq_insert key_of_value key_compare v l)
  | Replace v => (Ret None, seq_replace key_of_value key_compare v l)
  | Remove k => (Ret None, seq_remove key_of_value key_compare k l)
  | PopMin => (Ret (Some (default no_value (head l))), tail l)
  | PopMax => (Ret (Some (default no_value (last l))), removelast l)
  | Lookup k => (Ret (head (at_key key_of_value key_compare k l)), l)
  | LookupPrevious k => (Ret (last (below key_of_value key_compare k l ++ at_key key_of_value key_compare k l)), l)
  | Min => (match l with [] => Stop AssertFailed | v :: _ => Ret (Some v) end, l)
  | Max => (match last l with None => Stop AssertFailed | Some v => Ret (Some v) end, l)
  end.
(** Sequences of operations, with the answers. *)
Fixpoint run {S} (f : op K V -> S -> result (option V) * S) (ops : list (op K V)) (s : S) : list (result (option V)) * S :=
  match ops with
  | [] => ([], s)
  | o :: ops => let (a, s) := f o s in let (l, s) := run f ops s in (a :: l, s)
  end.
(** The tree after the operations. *)
Definition tree_after (ops : list (op K V)) : Node V := (run run_op ops terminator).2.

Context {swo : StrictWeakOrder key_compare}.
Abbreviation ord := (ordered key_of_value key_compare).

(** The invariant of the class. *)
Definition ok n : Prop := ord (elements n) /\ balanced n.

Lemma leftmost_head v n : leftmost v n = default v (head (elements n)).
Proof.
  revert v. induction n as [|l IHl r _ x h]; intros v; [done|]. simpl. rewrite IHl. by destruct (elements l).
Qed.
Lemma rightmost_last v n : rightmost v n = default v (last (elements n)).
Proof.
  revert v. induction n as [|l _ r IHr x h]; intros v; [done|]. cbn [rightmost elements]. rewrite IHr, last_app_cons, last_cons. by destruct (last (elements r)).
Qed.
Lemma elements_nil n : elements n = [] -> n = terminator.
Proof. destruct n as [|l r v h]; [done|]. simpl. by destruct (elements l). Qed.

Lemma min_head n : min n = match elements n with [] => Stop AssertFailed | v :: _ => Ret v end.
Proof. destruct n as [|l r v h]; [done|]. simpl. rewrite leftmost_head. by destruct (elements l). Qed.
Lemma max_last n : max n = match last (elements n) with None => Stop AssertFailed | Some v => Ret v end.
Proof. destruct n as [|l r v h]; [done|]. simpl. cbn [max elements]. rewrite rightmost_last, last_app_cons, last_cons. by destruct (last (elements r)). Qed.

(** One operation. *)
Lemma op_refines o n :
  ok n -> (run_op o n).1 = (seq_op o (elements n)).1 /\ elements (run_op o n).2 = (seq_op o (elements n)).2 /\ ok (run_op o n).2.
Proof.
  intros [Ho Hb]. destruct o as [v|v|k| | |k|k| |]; simpl.
  - destruct (insert_ok key_of_value key_compare no_value v n Ho Hb) as (A & B & _).
    split_and!; [done|done|]. split; [rewrite B; by apply ordered_insert|done].
  - destruct (replace_ok key_of_value key_compare no_value v n Ho Hb) as (A & B & _).
    split_and!; [done|done|]. split; [rewrite B; by apply ordered_replace|done].
  - destruct (remove_ok key_of_value key_compare no_value k n Ho Hb) as (A & B & _).
    split_and!; [done|done|]. split; [rewrite B; by apply ordered_remove|done].
  - destruct (isTerminator n) eqn:E; [destruct n; [by split_and!|done]|].
    destruct (popMin_ok no_value n Hb E) as (v & l & El & Hv & A & B & _). destruct (popMin no_value n) as [m n']. simpl in *.
    rewrite El in *. subst m. split_and!; [done|done|]. split; [|done]. rewrite B. by apply StronglySorted_inv in Ho as [? _].
  - destruct (isTerminator n) eqn:E; [destruct n; [by split_and!|done]|].
    destruct (popMax_ok no_value n Hb E) as (v & l & El & Hv & A & B & _). destruct (popMax no_value n) as [m n']. simpl in *.
    rewrite El in *. subst m. rewrite last_snoc, removelast_last. split_and!; [done|done|]. split; [|done].
    rewrite B. by apply ordered_app in Ho as [? _].
  - by rewrite lookup_ok.
  - unfold lookup_previous. rewrite previous_ok by done. split_and!; [by destruct (last _)|done|done].
  - rewrite min_head. split_and!; [by destruct (elements n)|done|done].
  - rewrite max_last. split_and!; [by destruct (last (elements n))|done|done].
Qed.

Lemma run_refines ops n :
  ok n -> (run run_op ops n).1 = (run seq_op ops (elements n)).1 /\
  elements (run run_op ops n).2 = (run seq_op ops (elements n)).2 /\ ok (run run_op ops n).2.
Proof.
  revert n. induction ops as [|o ops IH]; intros n Hok; [done|]. cbn [run].
  destruct (op_refines o n Hok) as (A & B & C). destruct (run_op o n) as [a n'], (seq_op o (elements n)) as [a' l].
  simpl in A, B, C. subst a' l. destruct (IH n' C) as (A' & B' & C').
  destruct (run run_op ops n') as [as_ n''], (run seq_op ops (elements n')) as [as' l]. simpl in *. by subst.
Qed.
Lemma empty_ok : ok terminator.
Proof. split; [constructor|done]. Qed.
Lemma tree_after_ok ops : ok (tree_after ops).
Proof. apply run_refines, empty_ok. Qed.

(** C12. For every sequence of operations from the empty tree: each answer (of the lookups,
    of the previous value, of the smallest and the largest one and of those taken out) is
    the answer of the sorted sequence, failed assertions included; the tree holds that
    sequence, in order, and is balanced, with the stored heights right. *)
Theorem tree_refines ops :
  (run run_op ops terminator).1 = (run seq_op ops []).1 /\
  elements (tree_after ops) = (run seq_op ops []).2 /\ ok (tree_after ops).
Proof. exact (run_refines ops terminator empty_ok). Qed.

(** A tree is a map from keys to values: a lookup after [insert] finds the older value
    if there was one, after [replace] the new one, after [remove] none, and other keys
    are not affected. Keys that do not compare are the same key. *)
Theorem tree_is_map ops k k' v :
  let n := tree_after ops in
  let get k n := lookup key_of_value key_compare k n in
  get k (insert key_of_value key_compare no_value v n) =
    (if equiv key_compare k (key_of_value v) then Some (default v (get (key_of_value v) n)) else get k n) /\
  get k (replace key_of_value key_compare no_value v n) =
    (if equiv key_compare k (key_of_value v) then Some v else get k n) /\
  get k (remove key_of_value key_compare no_value k' n) = (if equiv key_compare k k' then None else get k n).
Proof.
  intros n get. destruct (tree_after_ok ops) as [Ho Hb].
  destruct (op_refines (Insert v) n) as (_ & EI & [OI _]); [done|].
  destruct (op_refines (Replace v) n) as (_ & ER & [OR _]); [done|].
  destruct (op_refines (Remove k') n) as (_ & ED & [OD _]); [done|].
  cbn [run_op seq_op snd] in *. unfold get. rewrite !lookup_ok by done. rewrite EI, ER, ED.
  rewrite at_insert, at_replace, at_remove by done.
  split_and!; (destruct (equiv _ _ _); [|done]); [|done..]. by destruct (at_key _ _ _ _).
Qed.

(** ** Height *)
Lemma size_elements n : size n = length (elements n).
Proof. induction n as [|l IHl r IHr v h]; simpl; [done|]. rewrite length_app. simpl. lia. Qed.

(** Each third level doubles the number of values. *)
Lemma balanced_size h : forall n, balanced n -> height n = h -> (2 ^ (h / 3) <= size n + 1)%nat.
Proof.
  induction h as [h IH] using (well_founded_induction lt_wf). intros [|l r v h'] Hb Hh.
  { simpl in Hh. subst. simpl. lia. }
  destruct Hb as (Hl & Hr & -> & Hd). cbn [height size] in *.
  assert (Hs : forall m : Node V, balanced m -> (h <= height m + 3)%nat -> (height m < h)%nat -> (2 ^ (h / 3) <= 2 * (size m + 1))%nat).
  { intros m Hm H1 H2. pose proof (IH (height m) H2 m Hm eq_refl) as H3.
    assert (h / 3 <= height m / 3 + 1)%nat.
    { pose proof (Nat.div_mod_eq h 3). pose proof (Nat.div_mod_eq (height m) 3).
      pose proof (Nat.mod_upper_bound h 3). pose proof (Nat.mod_upper_bound (height m) 3). lia. }
    assert (2 ^ (h / 3) <= 2 ^ (height m / 3 + 1))%nat by (apply Nat.pow_le_mono_r; lia).
    rewrite Nat.pow_add_r in *. simpl (2 ^ 1)%nat in *. lia. }
  pose proof (Hs l Hl ltac:(lia) ltac:(lia)). pose proof (Hs r Hr ltac:(lia) ltac:(lia)). lia.
Qed.

(** A tree that operations made has at least [2^(height/3) - 1] values: its height is at
    most three times the logarithm of their number, and with fewer than 2^64 values far
    below the range of the field [height]. *)
Theorem tree_height ops :
  let n := tree_after ops in
  size n = length (elements n) /\ (2 ^ (height n / 3) <= size n + 1)%nat.
Proof.
  intros n. split; [apply size_elements|]. apply (balanced_size (height n)); [|done]. apply tree_after_ok.
Qed.
End Main.

(** ** Numbers as keys *)
#[export] Instance ltb_order : StrictWeakOrder Z.ltb.
Proof.
  split; intros *; rewrite ?Z.ltb_lt; [apply Z.ltb_irrefl|lia|lia].
Qed.
Definition demo : list (op Z (Z * Z)) :=
  [Insert (3, 30); Insert (1, 10); Insert (2, 20); Insert (3, 31); Replace (1, 11); Insert (9, 90); Insert (8, 80);
   Lookup 1; LookupPrevious 7; Remove 2; Lookup 2; PopMin; Min; Max].
Lemma tree_refines_witness :
  (run (run_op fst Z.ltb (0, 0)) demo terminator).1 =
    [Ret None; Ret None; Ret None; Ret None; Ret None; Ret None; Ret None; Ret (Some (1, 11)); Ret (Some (3, 30));
     Ret None; Ret None; Ret (Some (1, 11)); Ret (Some (3, 30)); Ret (Some (9, 90))] /\
  elements (tree_after fst Z.ltb (0, 0) demo) = [(3, 30); (8, 80); (9, 90)].
Proof.
  destruct (tree_refines fst Z.ltb (0, 0) demo) as (-> & -> & _). split; vm_compute; reflexivity.
Defined.
Lemma tree_is_map_witness :
  lookup fst Z.ltb 8 (replace fst Z.ltb (0, 0) (8, 81) (tree_after fst Z.ltb (0, 0) demo)) = Some (8, 81).
Proof. destruct (tree_is_map fst Z.ltb (0, 0) demo 8 8 (8, 81)) as (_ & -> & _). vm_compute. reflexivity. Defined.
Lemma tree_height_witness :
  let n := tree_after fst Z.ltb (0, 0) demo in height n = 3%nat /\ (2 ^ (height n / 3) <= size n + 1)%nat.
Proof. split; [vm_compute; reflexivity|]. apply (tree_height fst Z.ltb (0, 0) demo). Defined.
End ImmTreeMain.

(** * Immutable trees: iterators

    An iterator keeps the path from the root to its node. It stands for a position in the
    sequence of values; the stack, which has room for the height of the tree, never
    overflows. *)
Module ImmTreeIter.
Import ImmTree ImmTreeOk ImmTreeMain.

Section Iter.
Context {K V : Type} {V_eq : EqDecision V} (key_of_value : V -> K) (key_compare : K -> K -> bool) {swo : StrictWeakOrder key_compare}.
Context (no_value : V).
Implicit Types n m p c rt : Node V.
Implicit Types st : list (Node V).

Abbreviation key := key_of_value.
Abbreviation lt := key_compare.
Abbreviation ord := (ordered key lt).
Abbreviation val := (value no_value).

(** ** Paths *)
Inductive chain rt : list (Node V) -> Prop :=
| chain_root : isTerminator rt = false -> chain rt [rt]
| chain_left p st : chain rt (p :: st) -> isTerminator (left p) = false -> chain rt (left p :: p :: st)
| chain_right p st : chain rt (p :: st) -> isTerminator (right p) = false -> chain rt (right p :: p :: st).

(** The values after and before the subtree [c], which hangs below [st]. *)
Fixpoint after c st : list V :=
  match st with
  | [] => []
  | p :: st => (if bool_decide (c = left p) then val p :: elements (right p) else []) ++ after p st
  end.
Fixpoint ahead c st : list V :=
  match st with
  | [] => []
  | p :: st => ahead p st ++ (if bool_decide (c = left p) then [] else elements (left p) ++ [val p])
  end.
(** The values from the node of the iterator on, and those before. *)
Definition remaining st : list V :=
  match st with [] => [] | n :: st => val n :: elements (right n) ++ after n st end.
Definition passed rt st : list V :=
  match st with [] => elements rt | n :: st => ahead n st ++ elements (left n) end.

Lemma kids_differ p : ord (elements p) -> isTerminator (left p) = false -> left p <> right p.
Proof.
  destruct p as [|l r v h]; [done|]. cbn [left right elements]. intros Ho Hl E. subst r.
  apply ordered_mid in Ho as (_ & _ & H1 & H2); [|done]. destruct l as [|a b x h']; [done|]. cbn [elements] in *.
  apply Forall_app in H1 as [_ H1]. apply Forall_app in H2 as [_ H2].
  apply Forall_cons_iff in H1 as [H1 _], H2 as [H2 _]. unfold before in *. apply (lt_asym lt) in H1. congruence.
Qed.

(** What is known of the top of a path. *)
Record top_ok rt n st : Prop := {
  top_node : isTerminator n = false;
  top_balanced : balanced n;
  top_room : (length (n :: st) + height n <= height rt + 1)%nat;
  top_ordered : ord (elements n);
  top_split : elements rt = ahead n st ++ elements n ++ after n st
}.
Lemma chain_top rt n st : ok key lt rt -> chain rt (n :: st) -> top_ok rt n st.
Proof.
  intros [Ho Hb]. remember (n :: st) as s eqn:E. intros H. revert n st E.
  induction H as [Ht|p st Hc IH Ht|p st Hc IH Ht]; intros n st' [= <- <-].
  - split; [done|done|simpl; lia|done|by rewrite app_nil_r].
  - destruct (IH p st eq_refl) as [A B C D E]. destruct p as [|l r v h]; [done|]. cbn [left] in *.
    destruct B as (Bl & Br & -> & _). cbn [height elements length] in *.
    apply ordered_mid in D as (D1 & _); [|done]. split; [done|done|simpl; lia|done|].
    cbn [ahead after]. rewrite bool_decide_true by done. cbn [value right]. rewrite app_nil_r, E. by rewrite <- !app_assoc.
  - destruct (IH p st eq_refl) as [A B C D E]. assert (Hd : right p <> left p).
    { intros Heq. symmetry in Heq. apply kids_differ in Heq; [done|done|by rewrite Heq]. }
    destruct p as [|l r v h]; [done|]. cbn [right left] in *.
    destruct B as (Bl & Br & -> & _). cbn [height elements length] in *.
    apply ordered_mid in D as (_ & D1 & _); [|done]. split; [done|done|simpl; lia|done|].
    cbn [ahead after]. rewrite bool_decide_false by done. cbn [value left app]. rewrite E. by rewrite <- !app_assoc.
Qed.

(** The two sides of a position. *)
Definition path rt st : Prop := st = [] \/ chain rt st.
Lemma path_split rt st : ok key lt rt -> path rt st -> elements rt = passed rt st ++ remaining st.
Proof.
  intros Hok [->|Hc]; [by rewrite app_nil_r|]. destruct st as [|n st]; [inversion Hc|].
  destruct (chain_top rt n st Hok Hc) as [A _ _ _ E]. rewrite E. destruct n as [|l r v h]; [done|].
  cbn [passed remaining elements left right value]. by rewrite <- !app_assoc.
Qed.
Lemma chain_tail rt n p st : chain rt (n :: p :: st) -> chain rt (p :: st).
Proof. by inversion 1. Qed.

(** ** Steps *)
Lemma pop_left_ok rt n st : chain rt (n :: st) -> path rt (pop_left n st) /\ remaining (pop_left n st) = after n st.
Proof.
  revert n. induction st as [|p st IH]; intros n Hc; [by split; [left|]|]. cbn [pop_left after].
  apply chain_tail in Hc. destruct (bool_decide_reflect (n = left p)); [by split; [right|]|]. by apply IH.
Qed.
(** The values up to the node of the iterator. *)
Definition upto st : list V := match st with [] => [] | n :: st => ahead n st ++ elements (left n) ++ [val n] end.
Lemma pop_right_ok rt n st :
  ok key lt rt -> chain rt (n :: st) -> path rt (pop_right n st) /\ upto (pop_right n st) = ahead n st.
Proof.
  intros Hok. revert n. induction st as [|p st IH]; intros n Hc; [by split; [left|]|]. cbn [pop_right ahead].
  pose proof (chain_tail _ _ _ _ Hc) as Hc'. destruct (chain_top rt p st Hok Hc') as [_ _ _ D _].
  destruct (bool_decide_reflect (n = right p)) as [E|E].
  - rewrite bool_decide_false; [by split; [right|]|]. intros E'. destruct (chain_top _ _ _ Hok Hc) as [A _ _ _ _].
    apply (kids_differ p D); congruence.
  - assert (n = left p) as -> by (inversion Hc; subst; (done || congruence)). rewrite bool_decide_true, app_nil_r by done. by apply IH.
Qed.

Lemma push_back_ok rt n st :
  ok key lt rt -> chain rt (n :: st) -> push_back n (MkStack (height rt) st) = Ret (MkStack (height rt) (n :: st)).
Proof.
  intros Hok Hc. destruct (chain_top _ _ _ Hok Hc) as [A B C _ _]. unfold push_back. cbn [elts smax].
  destruct n as [|l r v h]; [done|]. destruct B as (_ & _ & -> & _). cbn [length height] in *.
  by rewrite (proj2 (Nat.ltb_lt _ _)) by lia.
Qed.
Lemma push_left_ok rt n st :
  ok key lt rt -> chain rt (n :: st) ->
  exists st', push_left n (MkStack (height rt) st) = Ret (MkStack (height rt) st') /\ chain rt st' /\
    remaining st' = elements n ++ after n st.
Proof.
  intros Hok. revert st. induction n as [|l IHl r _ v h]; intros st Hc; [by destruct (chain_top _ _ _ Hok Hc)|].
  cbn [push_left]. rewrite (push_back_ok rt) by done. cbn [mbind result_bind].
  destruct (isTerminator l) eqn:E.
  - destruct l; [|done]. by eexists.
  - destruct (IHl (MkNode l r v h :: st)) as (st' & A & B & C); [by apply (chain_left rt (MkNode l r v h))|].
    exists st'. split_and!; [done|done|]. rewrite C. cbn [after left]. rewrite bool_decide_true by done.
    cbn [value right elements]. by rewrite <- app_assoc.
Qed.
Lemma push_right_ok rt n st :
  ok key lt rt -> chain rt (n :: st) ->
  exists st', push_right n (MkStack (height rt) st) = Ret (MkStack (height rt) st') /\ chain rt st' /\
    upto st' = ahead n st ++ elements n.
Proof.
  intros Hok. revert st. induction n as [|l _ r IHr v h]; intros st Hc; [by destruct (chain_top _ _ _ Hok Hc)|].
  cbn [push_right]. rewrite (push_back_ok rt) by done. cbn [mbind result_bind].
  destruct (isTerminator r) eqn:E.
  - destruct r; [|done]. by eexists.
  - assert (Hc' : chain rt (r :: MkNode l r v h :: st)) by (by apply (chain_right rt (MkNode l r v h))).
    destruct (IHr _ Hc') as (st' & A & B & C). exists st'. split_and!; [done|done|]. rewrite C. cbn [ahead left].
    destruct (chain_top _ _ _ Hok Hc) as [_ _ _ D _].
    rewrite bool_decide_false.
    + cbn [value elements]. by rewrite <- !app_assoc.
    + intros Heq. apply (kids_differ _ D); cbn [left right]; congruence.
Qed.
(** ** Iterators as positions *)

(** [it] is before the values [r] of the tree [n]. *)
Record stands n (it : iterator V) (r : list V) : Prop := {
  st_root : root it = n;
  st_max : smax (stack it) = height n;
  st_path : path n (elts (stack it));
  st_rest : remaining (elts (stack it)) = r
}.
Lemma stands_intro n st r :
  path n st -> remaining st = r -> stands n (MkIter n (MkStack (height n) st)) r.
Proof. by intros. Qed.
(** The form of an iterator. *)
Lemma stands_form n it r : stands n it r -> it = MkIter n (MkStack (height n) (elts (stack it))).
Proof. destruct it as [rt [mx st]]. intros [<- E _ _]. simpl in *. by subst. Qed.

Lemma begin_stands n : ok key lt n -> exists it, begin_ n = Ret it /\ stands n it (elements n).
Proof.
  intros Hok. unfold begin_, iterator_new. destruct (isTerminator n) eqn:E.
  - destruct n; [|done]. eexists. split; [reflexivity|]. apply stands_intro; [by left|done].
  - destruct (push_left_ok n n [] Hok) as (st & A & B & C); [by constructor|]. rewrite A.
    eexists. split; [reflexivity|]. apply stands_intro; [by right|]. by rewrite C, app_nil_r.
Qed.
Lemma end_stands n : exists it, end_ n = Ret it /\ stands n it [].
Proof. eexists. split; [reflexivity|]. apply stands_intro; [by left|done]. Qed.

Lemma next_stands n it v r :
  ok key lt n -> stands n it (v :: r) ->
  deref it = Ret v /\ exists it', iterator_next it = Ret it' /\ stands n it' r.
Proof.
  intros Hok Hs. rewrite (stands_form _ _ _ Hs). destruct Hs as [_ _ Hp Hr].
  destruct (elts (stack it)) as [|m st]; [done|]. destruct Hp as [|Hc]; [done|]. injection Hr as Hv Hr.
  destruct (chain_top _ _ _ Hok Hc) as [A _ _ D _]. destruct m as [|l rr x h]; [done|]. cbn [value right] in *.
  split; [by rewrite <- Hv|]. unfold iterator_next. cbn [stack elts right root smax].
  destruct (isTerminator rr) eqn:E.
  - destruct rr; [|done]. eexists. split; [reflexivity|]. destruct (pop_left_ok _ _ _ Hc) as [Hp' Hr'].
    apply stands_intro; [done|]. by rewrite Hr'.
  - assert (Hc' : chain n (rr :: MkNode l rr x h :: st)) by (by apply (chain_right n (MkNode l rr x h))).
    destruct (push_left_ok _ _ _ Hok Hc') as (st' & P & Q & R).
    destruct rr as [|a b y h']; [done|]. cbn [push_left left] in P |- *. rewrite P.
    eexists. split; [reflexivity|]. apply stands_intro; [by right|]. rewrite R, <- Hr. f_equal. cbn [after left].
    rewrite bool_decide_false; [done|]. intros Heq. apply (kids_differ _ D); cbn [left right]; [by rewrite <- Heq|done].
Qed.

Lemma upto_rest n st (p : list V) v r :
  ok key lt n -> path n st -> upto st = p ++ [v] -> elements n = p ++ v :: r -> remaining st = v :: r.
Proof.
  intros Hok Hp Hu He. destruct st as [|m st]; [by destruct p|]. rewrite (path_split n _ Hok Hp) in He.
  cbn [upto passed] in *. rewrite app_assoc in Hu. apply app_inj_tail in Hu as [<- _]. by apply app_inv_head in He.
Qed.
Lemma prev_stands n it (p : list V) v r :
  ok key lt n -> stands n it r -> elements n = p ++ v :: r ->
  exists it', iterator_prev it = Ret it' /\ stands n it' (v :: r).
Proof.
  intros Hok Hs He. rewrite (stands_form _ _ _ Hs). destruct Hs as [_ _ Hp Hr].
  assert (Hps : passed n (elts (stack it)) = p ++ [v]).
  { pose proof (path_split n _ Hok Hp) as E. rewrite Hr, He in E. change (v :: r) with ([v] ++ r) in E.
    rewrite app_assoc in E. by apply app_inv_tail in E. }
  unfold iterator_prev. cbn [stack elts root smax]. destruct (elts (stack it)) as [|m st].
  - cbn [passed] in Hps. destruct (push_right_ok n n [] Hok) as (st' & A & B & C).
    { constructor. destruct n; [by destruct p|done]. }
    rewrite A. eexists. split; [reflexivity|]. apply stands_intro; [by right|].
    apply (upto_rest n _ p); [done|by right|by rewrite C|done].
  - destruct Hp as [|Hc]; [done|]. destruct (chain_top _ _ _ Hok Hc) as [A _ _ D _].
    destruct m as [|l rr x h]; [done|]. cbn [left passed] in *. destruct (isTerminator l) eqn:E.
    + destruct l; [|done]. cbn [elements] in Hps. rewrite app_nil_r in Hps.
      eexists. split; [reflexivity|]. destruct (pop_right_ok _ _ _ Hok Hc) as [Hp' Hu].
      apply stands_intro; [done|]. apply (upto_rest n _ p); [done|done|by rewrite Hu|done].
    + assert (Hc' : chain n (l :: MkNode l rr x h :: st)) by (by apply (chain_left n (MkNode l rr x h))).
      destruct (push_right_ok _ _ _ Hok Hc') as (st' & P & Q & R).
      destruct l as [|a b y h']; [done|]. cbn [push_right right] in P |- *. rewrite P.
      eexists. split; [reflexivity|]. apply stands_intro; [by right|]. apply (upto_rest n _ p); [done|by right| |done].
      rewrite R, <- Hps. cbn [ahead left]. rewrite bool_decide_true by done. by rewrite app_nil_r.
Qed.

(** ** Comparison of iterators *)
(** The nodes on the way to a key, the last first. *)
Fixpoint way (k : K) n st : list (Node V) :=
  match n with
  | terminator => st
  | MkNode l r x _ => if lt k (key x) then way k l (n :: st) else if lt (key x) k then way k r (n :: st) else n :: st
  end.
Lemma chain_way rt n st x : ok key lt rt -> chain rt (n :: st) -> x ∈ elements n -> way (key x) rt [] = way (key x) n st.
Proof.
  intros Hok. remember (n :: st) as s eqn:E. intros H. revert n st E.
  induction H as [Ht|p st Hc IH Ht|p st Hc IH Ht]; intros n st' [= <- <-] Hx; [done|..].
  - destruct (chain_top _ _ _ Hok Hc) as [_ _ _ D _]. destruct p as [|l r v h]; [done|]. cbn [left elements] in *.
    rewrite (IH _ _ eq_refl) by (cbn [elements]; set_solver). apply ordered_mid in D as (_ & _ & D & _); [|done].
    apply list.Forall_forall with (x := x) in D; [|done]. cbn [way]. unfold before in D. by rewrite D.
  - destruct (chain_top _ _ _ Hok Hc) as [_ _ _ D _]. destruct p as [|l r v h]; [done|]. cbn [right elements] in *.
    rewrite (IH _ _ eq_refl) by (cbn [elements]; set_solver). apply ordered_mid in D as (_ & _ & _ & D); [|done].
    apply list.Forall_forall with (x := x) in D; [|done]. cbn [way]. unfold before in D. by rewrite D, (lt_asym lt _ _ D).
Qed.
Lemma path_unique rt st st' :
  ok key lt rt -> path rt st -> path rt st' -> remaining st = remaining st' -> st = st'.
Proof.
  assert (H : forall n st, ok key lt rt -> chain rt (n :: st) -> way (key (val n)) rt [] = n :: st).
  { intros n s Hok Hc. destruct (chain_top _ _ _ Hok Hc) as [A _ _ _ _]. destruct n as [|l r v h]; [done|].
    cbn [value]. rewrite (chain_way rt (MkNode l r v h) s v); [|done|done|cbn [elements]; set_solver].
    cbn [way]. by rewrite cmp_irrefl. }
  intros Hok [->|Hc] [->|Hc'] E; [done|..].
  - destruct st'; [done|done].
  - destruct st; [done|done].
  - destruct st as [|n st], st' as [|n' st']; [done|done|done|]. injection E as Ev _.
    by rewrite <- (H n st), <- (H n' st'), Ev.
Qed.
Lemma stands_eqb n a b r r' :
  ok key lt n -> stands n a r -> stands n b r' -> iterator_eqb a b = true <-> r = r'.
Proof.
  intros Hok [_ _ Pa Ra] [_ _ Pb Rb]. unfold iterator_eqb. rewrite bool_decide_eq_true. split; [congruence|].
  intros ->. apply (path_unique n); [done|done|done|congruence].
Qed.
(** ** Searching *)
Abbreviation less k := (fun x : V => lt (key x) k = true).
Abbreviation not_less k := (fun x : V => lt (key x) k = false).

Lemma descend_ok rt k n st :
  ok key lt rt -> chain rt (n :: st) -> Forall (less k) (ahead n st) -> Forall (not_less k) (after n st) ->
  exists b st' v r, descend key lt k n (MkStack (height rt) st) = Ret (b, MkStack (height rt) st') /\ chain rt st' /\
    remaining st' = v :: r /\ Forall (less k) (passed rt st') /\ Forall (not_less k) r /\ (b = true -> lt (key v) k = false).
Proof.
  intros Hok. revert st. induction n as [|l IHl r IHr x h]; intros st Hc Ha Hb; [by destruct (chain_top _ _ _ Hok Hc)|].
  destruct (chain_top _ _ _ Hok Hc) as [_ _ _ D _]. pose proof (kids_differ _ D) as Hd. cbn [left right elements] in *.
  apply ordered_mid in D as (_ & _ & Dl & Dr); [|done].
  cbn [descend]. rewrite (push_back_ok rt) by done. cbn [mbind result_bind].
  destruct (lt k (key x)) eqn:E1; [|destruct (lt (key x) k) eqn:E2].
  - assert (Hr : Forall (not_less k) (elements r ++ after (MkNode l r x h) st)).
    { apply Forall_app. split; [|done]. eapply Forall_impl; [exact Dr|]. simpl. intros y Hy. apply (lt_asym lt). by eapply cmp_trans. }
    destruct (isTerminator l) eqn:El.
    + destruct l; [|done]. do 4 eexists. split; [reflexivity|]. split; [done|]. split; [reflexivity|].
      split_and!; [by cbn [passed left elements]; rewrite app_nil_r|done|done].
    + apply IHl; [by apply (chain_left rt (MkNode l r x h))| |]; cbn [ahead after left]; rewrite bool_decide_true by done.
      * by rewrite app_nil_r.
      * cbn [value right]. constructor; [by apply (lt_asym lt)|done].
  - assert (Hl : Forall (less k) (elements l ++ [x])).
    { apply Forall_app. split; [|by constructor]. eapply Forall_impl; [exact Dl|]. simpl. intros y Hy. by eapply cmp_trans. }
    destruct (isTerminator r) eqn:Er.
    + destruct r; [|done]. do 4 eexists. split; [reflexivity|]. split; [done|]. split; [reflexivity|].
      apply Forall_app in Hl as [Hl _]. split_and!; [by apply Forall_app|done|done].
    + assert (Hn : r <> l) by (intros ->; by apply Hd). apply IHr; [by apply (chain_right rt (MkNode l r x h))| |];
        cbn [ahead after left]; rewrite bool_decide_false by done; cbn [value]; [by apply Forall_app|done].
  - do 4 eexists. split; [reflexivity|]. split; [done|]. split; [reflexivity|]. split_and!; [|  |done].
    + apply Forall_app. split; [done|]. eapply Forall_impl; [exact Dl|]. simpl. intros y Hy.
      destruct (cmp_weak _ k _ Hy); [done|congruence].
    + apply Forall_app. split; [|done]. eapply Forall_impl; [exact Dr|]. simpl. intros y Hy.
      destruct (cmp_weak _ k _ Hy); [congruence|]. by apply (lt_asym lt).
Qed.

(** The position of a key in a sequence. *)
Lemma rest_parts k (l p r : list V) :
  ord l -> l = p ++ r -> Forall (less k) p -> Forall (not_less k) r -> r = at_key key lt k l ++ above key lt k l.
Proof.
  intros Ho E Hp Hr. pose proof (proj1 (parts_ordered key lt k l Ho)) as E'.
  assert (Hb : below key lt k l = p).
  { rewrite E. unfold below. rewrite List.filter_app, filter_all, filter_none by done. apply app_nil_r. }
  rewrite Hb in E'. rewrite E in E' at 1. by apply app_inv_head in E'.
Qed.

Lemma lower_bound_stands k n :
  ok key lt n -> exists it, lower_bound key lt k n = Ret it /\
    stands n it (at_key key lt k (elements n) ++ above key lt k (elements n)).
Proof.
  intros Hok. unfold lower_bound, iterator_new. cbn [mbind result_bind stack]. destruct (isTerminator n) eqn:E.
  { destruct n; [|done]. eexists. split; [reflexivity|]. apply stands_intro; [by left|done]. }
  destruct (descend_ok n k n [] Hok) as (b & st & v & r & A & B & C & D & F & G); [by constructor|constructor|constructor|].
  rewrite A. cbn [mbind result_bind fst snd elts].
  pose proof (path_split n st Hok (or_intror B)) as Hs. rewrite C in Hs. destruct Hok as [Ho Hb].
  assert (Hst : stands n (MkIter n (MkStack (height n) st)) (v :: r)) by (apply stands_intro; [by right|done]).
  destruct (next_stands n _ v r (conj Ho Hb) Hst) as (Hd & it' & Hn & Hst').
  destruct (lt (key v) k) eqn:Ev.
  - destruct b; [by discriminate (G eq_refl)|]. destruct st as [|m st]; [done|]. rewrite Hd. cbn [mbind result_bind]. rewrite Ev.
    exists it'. split; [done|]. change (v :: r) with ([v] ++ r) in Hs. rewrite app_assoc in Hs.
    rewrite <- (rest_parts k _ _ _ Ho Hs); [done| |done]. apply Forall_app. split; [done|by constructor].
  - exists (MkIter n (MkStack (height n) st)). split.
    + destruct b; [done|]. destruct st as [|m st]; [done|]. rewrite Hd. cbn [mbind result_bind]. by rewrite Ev.
    + rewrite <- (rest_parts k _ _ _ Ho Hs); [done|done|by constructor].
Qed.

(** The head of what is left at a key. *)
Lemma at_above_head k l v r :
  ord l -> at_key key lt k l ++ above key lt k l = v :: r ->
  (lt k (key v) = true /\ at_key key lt k l = [] /\ above key lt k l = v :: r) \/
  (lt k (key v) = false /\ at_key key lt k l = [v] /\ above key lt k l = r).
Proof.
  intros Ho E. destruct (parts_ordered key lt k l Ho) as [_ Hn].
  destruct (at_key key lt k l) as [|x [|y m]] eqn:Ea; simpl in Hn; [| |lia].
  - left. split_and!; [|done|done]. assert (Hv : v ∈ above key lt k l) by (simpl in E; rewrite E; left).
    by apply list_elem_of_In, filter_In in Hv as [_ Hv].
  - right. injection E as <- <-. split_and!; [|done|done]. assert (Hx : x ∈ at_key key lt k l) by (rewrite Ea; left).
    apply list_elem_of_In, filter_In in Hx as [_ Hx]. apply andb_prop in Hx as [_ Hx]. by apply negb_true_iff in Hx.
Qed.
Lemma upper_bound_stands k n :
  ok key lt n -> exists it, upper_bound key lt k n = Ret it /\ stands n it (above key lt k (elements n)).
Proof.
  intros Hok. destruct (lower_bound_stands k n Hok) as (it & A & B). destruct (end_stands n) as (e & Ee & Se).
  unfold upper_bound. unfold end_ in Ee. rewrite Ee. cbn [mbind result_bind]. rewrite A. cbn [mbind result_bind].
  pose proof (stands_eqb n it e _ _ Hok B Se) as Heq.
  destruct (at_key key lt k (elements n) ++ above key lt k (elements n)) as [|v r] eqn:E.
  - rewrite (proj2 Heq eq_refl). exists it. split; [done|]. by apply app_eq_nil in E as [_ ->].
  - destruct (iterator_eqb it e); [by discriminate (proj1 Heq eq_refl)|].
    destruct (next_stands n it v r Hok B) as (Hd & it' & Hn & Hst). rewrite Hd. cbn [mbind result_bind].
    destruct (at_above_head k (elements n) v r (proj1 Hok) E) as [(-> & _ & ->)|(-> & _ & ->)]; [by exists it|by exists it'].
Qed.
Lemma find_stands k n :
  ok key lt n -> exists it, find key lt k n = Ret it /\
    stands n it (if bool_decide (at_key key lt k (elements n) = []) then []
                 else at_key key lt k (elements n) ++ above key lt k (elements n)).
Proof.
  intros Hok. destruct (lower_bound_stands k n Hok) as (it & A & B). destruct (end_stands n) as (e & Ee & Se).
  unfold find. unfold end_ in Ee. rewrite Ee. cbn [mbind result_bind]. rewrite A. cbn [mbind result_bind].
  pose proof (stands_eqb n it e _ _ Hok B Se) as Heq.
  destruct (at_key key lt k (elements n) ++ above key lt k (elements n)) as [|v r] eqn:E.
  - rewrite (proj2 Heq eq_refl). exists e. split; [done|]. by destruct (bool_decide _).
  - destruct (iterator_eqb it e); [by discriminate (proj1 Heq eq_refl)|].
    destruct (next_stands n it v r Hok B) as (Hd & _). rewrite Hd. cbn [mbind result_bind].
    destruct (at_above_head k (elements n) v r (proj1 Hok) E) as [(-> & -> & _)|(-> & -> & _)]; [by exists e|by exists it].
Qed.
(** ** Loops over a tree *)

(** [for (; it != e; ++it)], with the values seen. *)
Fixpoint collect (fuel : nat) (e it : iterator V) : result (list V) :=
  match fuel with
  | O => Stop OutOfFuel
  | S fuel =>
      if iterator_eqb it e then Ret []
      else v ← deref it; it ← iterator_next it; l ← collect fuel e it; Ret (v :: l)
  end.
(** [while (it != b) { --it; ... }] *)
Fixpoint collect_back (fuel : nat) (b it : iterator V) : result (list V) :=
  match fuel with
  | O => Stop OutOfFuel
  | S fuel =>
      if iterator_eqb it b then Ret []
      else it ← iterator_prev it; v ← deref it; l ← collect_back fuel b it; Ret (v :: l)
  end.

Lemma collect_ok n e it r fuel :
  ok key lt n -> stands n e [] -> stands n it r -> (length r < fuel)%nat -> collect fuel e it = Ret r.
Proof.
  intros Hok He. revert it r. induction fuel as [|fuel IH]; intros it r Hs Hf; [lia|]. cbn [collect].
  pose proof (stands_eqb n it e r [] Hok Hs He) as Heq. destruct r as [|v r]; [by rewrite (proj2 Heq eq_refl)|].
  destruct (iterator_eqb it e); [by discriminate (proj1 Heq eq_refl)|].
  destruct (next_stands n it v r Hok Hs) as (-> & it' & -> & Hs'). cbn [mbind result_bind].
  rewrite (IH it' r Hs'); [done|]. simpl in Hf. lia.
Qed.
Lemma collect_back_ok n b it (p : list V) r fuel :
  ok key lt n -> stands n b (elements n) -> stands n it r -> elements n = p ++ r -> (length p < fuel)%nat ->
  collect_back fuel b it = Ret (rev p).
Proof.
  intros Hok Hb. revert it p r. induction fuel as [|fuel IH]; intros it p r Hs Hp Hf; [lia|]. cbn [collect_back].
  pose proof (stands_eqb n it b r (elements n) Hok Hs Hb) as Heq.
  destruct p as [|v p _] using rev_ind; [by rewrite (proj2 Heq (eq_sym Hp))|].
  rewrite <- app_assoc in Hp. cbn [app] in Hp. rewrite length_app in Hf. simpl in Hf. destruct (iterator_eqb it b).
  { assert (Hl : length r = length (elements n)) by (by rewrite (proj1 Heq eq_refl)).
    rewrite Hp, length_app in Hl. simpl in Hl. lia. }
  destruct (prev_stands n it p v r Hok Hs Hp) as (it' & -> & Hs'). cbn [mbind result_bind].
  destruct (next_stands n it' v r Hok Hs') as (-> & _). cbn [mbind result_bind].
  rewrite (IH it' p (v :: r)); [|done|done|lia]. cbn [mbind result_bind]. by rewrite rev_app_distr.
Qed.

(** C32. The loop from [begin] to [end] sees the values of the tree in order, each once, and
    the loop from [end] back to [begin] sees them in the opposite order; no access
    leaves the stack of an iterator, which has as many places as the tree is high. *)
Theorem iterators_enumerate ops fuel :
  let n := tree_after key lt no_value ops in
  (size n < fuel)%nat ->
  (b ← begin_ n; e ← end_ n; collect fuel e b) = Ret (elements n) /\
  (b ← begin_ n; e ← end_ n; collect_back fuel b e) = Ret (rev (elements n)).
Proof.
  intros n Hf. pose proof (tree_after_ok key lt no_value ops) as Hok.
  destruct (begin_stands n Hok) as (b & -> & Hb). destruct (end_stands n) as (e & -> & He). cbn [mbind result_bind].
  rewrite size_elements in Hf. rewrite (collect_ok n e b (elements n)) by done.
  by rewrite (collect_back_ok n b e (elements n) [] fuel Hok Hb He) by (done || by rewrite app_nil_r).
Qed.

(** [lower_bound] stands before the values that are not below the key, [upper_bound]
    before those above it, and [find] at the value with the key, or at the end: what the
    loop from there sees. *)
Theorem searches_position ops k fuel :
  let n := tree_after key lt no_value ops in
  (size n < fuel)%nat ->
  (e ← end_ n; it ← lower_bound key lt k n; collect fuel e it) =
    Ret (at_key key lt k (elements n) ++ above key lt k (elements n)) /\
  (e ← end_ n; it ← upper_bound key lt k n; collect fuel e it) = Ret (above key lt k (elements n)) /\
  (e ← end_ n; it ← find key lt k n; collect fuel e it) =
    Ret (match lookup key lt k n with None => [] | Some v => v :: above key lt k (elements n) end).
Proof.
  intros n Hf. pose proof (tree_after_ok key lt no_value ops) as Hok. destruct (Hok) as [Ho _].
  destruct (end_stands n) as (e & -> & He). cbn [mbind result_bind].
  destruct (lower_bound_stands k n Hok) as (i1 & -> & H1). destruct (upper_bound_stands k n Hok) as (i2 & -> & H2).
  destruct (find_stands k n Hok) as (i3 & -> & H3). cbn [mbind result_bind].
  rewrite size_elements in Hf. rewrite lookup_ok by done.
  destruct (parts_ordered key lt k (elements n) Ho) as [E Hn]. fold n in E, Hn.
  assert (Hlen : length (elements n) = (length (below key lt k (elements n)) + (length (at_key key lt k (elements n)) +
    length (above key lt k (elements n))))%nat) by (rewrite E at 1; by rewrite !length_app).
  rewrite (collect_ok n e i1 _ fuel Hok He H1) by (rewrite length_app; lia).
  rewrite (collect_ok n e i2 _ fuel Hok He H2) by lia.
  rewrite (collect_ok n e i3 _ fuel Hok He H3) by (destruct (bool_decide _); [simpl; lia|rewrite length_app; lia]).
  destruct (at_key key lt k (elements n)) as [|x [|y m]]; simpl in Hn; [done|done|lia].
Qed.
End Iter.

Lemma iterators_enumerate_witness :
  let n := tree_after fst Z.ltb (0, 0) demo in
  (b ← begin_ n; e ← end_ n; collect 4 e b) = Ret [(3, 30); (8, 80); (9, 90)] /\
  (b ← begin_ n; e ← end_ n; collect_back 4 b e) = Ret [(9, 90); (8, 80); (3, 30)].
Proof.
  intros n. destruct (iterators_enumerate fst Z.ltb (0, 0) demo 4) as [A B]; [vm_compute; lia|].
  split; [exact A|exact B].
Defined.
Lemma searches_position_witness :
  let n := tree_after fst Z.ltb (0, 0) demo in
  (e ← end_ n; it ← lower_bound fst Z.ltb 5 n; collect 4 e it) = Ret [(8, 80); (9, 90)].
Proof. intros n. destruct (searches_position fst Z.ltb (0, 0) demo 5 4) as [A _]; [vm_compute; lia|exact A]. Defined.
End ImmTreeIter.
