(* ===== verification/BitArray.v ===== *)
(** * Bit arrays

    include/klee/util/BitArray.h: bits kept in words of 32, and that they are what an array
    of booleans is. *)
From stdpp Require Import base list.
From Stdlib Require Import ZArith Lia.
From S2P Require Import Prelude.

Module BitArray.

(** The words [bits]. *)
Abbreviation BitArray := (list Z).

Definition words (size : Z) : Z := (size + 31) / 32.
Definition new_BitArray (size : Z) (value : bool) : BitArray :=
  replicate (Z.to_nat (words size)) (if value then 2 ^ 32 - 1 else 0).
(** The copy constructor; [size] is the one of both. *)
Definition copy (b : BitArray) (size : Z) : BitArray := take (Z.to_nat (words size)) b.

Definition word_at (b : BitArray) (idx : Z) : result Z :=
  match b !! Z.to_nat (idx / 32) with Some w => Ret w | None => Stop MemError end.
Definition get (b : BitArray) (idx : Z) : result bool :=
  w ← word_at b idx; Ret (nz (Z.land (Z.shiftr w (Z.land idx 31)) 1)).
Definition set (b : BitArray) (idx : Z) : result BitArray :=
  w ← word_at b idx; Ret (<[Z.to_nat (idx / 32) := Z.lor w (Z.shiftl 1 (Z.land idx 31))]> b).
Definition unset (b : BitArray) (idx : Z) : result BitArray :=
  w ← word_at b idx; Ret (<[Z.to_nat (idx / 32) := Z.land w (u32 (Z.lnot (Z.shiftl 1 (Z.land idx 31))))]> b).

(** ** As an array of booleans *)

(** The bit at an index. *)
Definition bit (b : BitArray) (idx : Z) : bool :=
  match b !! Z.to_nat (idx / 32) with Some w => Z.testbit w (idx `mod` 32) | None => false end.
(** There are words for [size] bits. *)
Definition sized (b : BitArray) (size : Z) : Prop := Z.of_nat (length b) = words size.

Lemma land_31 i : Z.land i 31 = i `mod` 32.
Proof. change 31 with (Z.ones 5). by rewrite Z.land_ones. Qed.
Lemma low_bit w i : 0 <= i -> nz (Z.land (Z.shiftr w i) 1) = Z.testbit w i.
Proof.
  intros Hi. change 1 with (Z.ones 1). rewrite Z.land_ones by lia. change (2 ^ 1) with 2. rewrite Zmod_odd.
  rewrite <- Z.bit0_odd, Z.shiftr_spec, Z.add_0_l by lia. by destruct (Z.testbit w i).
Qed.

Section Sized.
Context (size : Z) (Hsize : 0 <= size).

Lemma word_lookup b i : sized b size -> 0 <= i < size -> exists w, b !! Z.to_nat (i / 32) = Some w.
Proof.
  unfold sized, words. intros Hb Hi. apply lookup_lt_is_Some. apply Nat2Z.inj_lt. rewrite Hb, Z2Nat.id by (apply Z.div_pos; lia).
  pose proof (Z.div_mod i 32). pose proof (Z.mod_pos_bound i 32). pose proof (Z.div_mod (size + 31) 32).
  pose proof (Z.mod_pos_bound (size + 31) 32). lia.
Qed.
Lemma new_sized value : sized (new_BitArray size value) size.
Proof.
  unfold sized, new_BitArray. rewrite length_replicate, Z2Nat.id; [done|]. apply Z.div_pos; lia.
Qed.
Lemma new_bit value i : 0 <= i < size -> bit (new_BitArray size value) i = value.
Proof.
  intros Hi. destruct (word_lookup _ i (new_sized value) Hi) as [w Hw]. unfold bit. rewrite Hw.
  apply lookup_replicate in Hw as [-> _]. pose proof (Z.mod_pos_bound i 32 ltac:(lia)).
  destruct value; [|apply Z.testbit_0_l]. change (2 ^ 32 - 1) with (Z.ones 32). apply Z.ones_spec_low. lia.
Qed.
Lemma copy_same b : sized b size -> copy b size = b.
Proof. unfold sized, copy. intros <-. rewrite Nat2Z.id. apply firstn_all. Qed.

Lemma get_ok b i : sized b size -> 0 <= i < size -> get b i = Ret (bit b i).
Proof.
  intros Hb Hi. destruct (word_lookup b i Hb Hi) as [w Hw]. unfold get, word_at, bit. rewrite Hw. cbn [mbind result_bind].
  rewrite land_31, low_bit; [done|]. apply Z.mod_pos_bound. lia.
Qed.

(** Indices with the same word and the same place are the same. *)
Lemma same_index i j : 0 <= i -> 0 <= j -> Z.to_nat (i / 32) = Z.to_nat (j / 32) -> i `mod` 32 = j `mod` 32 -> i = j.
Proof.
  intros Hi Hj H1 H2. apply Z2Nat.inj in H1; [|apply Z.div_pos; lia..].
  pose proof (Z.div_mod i 32). pose proof (Z.div_mod j 32). lia.
Qed.
(** A write to one word that changes the one bit. *)
Lemma write_bit b i w w' v j :
  0 <= i -> 0 <= j -> b !! Z.to_nat (i / 32) = Some w ->
  (forall k, 0 <= k < 32 -> Z.testbit w' k = if k =? i `mod` 32 then v else Z.testbit w k) ->
  bit (<[Z.to_nat (i / 32) := w']> b) j = if i =? j then v else bit b j.
Proof.
  intros Hi Hj Hw Hk. unfold bit. destruct (decide (Z.to_nat (i / 32) = Z.to_nat (j / 32))) as [E|E].
  - rewrite <- E, list_lookup_insert_eq, Hw by (by eapply lookup_lt_Some). rewrite Hk by (apply Z.mod_pos_bound; lia).
    destruct (Z.eqb_spec (j `mod` 32) (i `mod` 32)) as [E'|E'], (Z.eqb_spec i j) as [->|Hne]; try done.
    by destruct Hne; apply same_index.
  - rewrite list_lookup_insert_ne by done. destruct (Z.eqb_spec i j) as [->|]; done.
Qed.
Lemma set_ok b i :
  sized b size -> 0 <= i < size ->
  exists b', set b i = Ret b' /\ sized b' size /\ forall j, 0 <= j -> bit b' j = if i =? j then true else bit b j.
Proof.
  intros Hb Hi. destruct (word_lookup b i Hb Hi) as [w Hw]. unfold set, word_at. rewrite Hw. cbn [mbind result_bind].
  eexists. split_and!; [reflexivity|by unfold sized; rewrite length_insert|]. intros j Hj.
  apply (write_bit b i w); [lia|done|done|]. intros k Hk.
  pose proof (Z.mod_pos_bound i 32 ltac:(lia)).
  rewrite Z.lor_spec, Z.shiftl_1_l, land_31, Z.pow2_bits_eqb by lia. rewrite (Z.eqb_sym k). destruct (Z.eqb_spec (i `mod` 32) k); [apply orb_true_r|apply orb_false_r].
Qed.
Lemma unset_ok b i :
  sized b size -> 0 <= i < size ->
  exists b', unset b i = Ret b' /\ sized b' size /\ forall j, 0 <= j -> bit b' j = if i =? j then false else bit b j.
Proof.
  intros Hb Hi. destruct (word_lookup b i Hb Hi) as [w Hw]. unfold unset, word_at. rewrite Hw. cbn [mbind result_bind].
  eexists. split_and!; [reflexivity|by unfold sized; rewrite length_insert|]. intros j Hj.
  apply (write_bit b i w); [lia|done|done|]. intros k Hk.
  pose proof (Z.mod_pos_bound i 32 ltac:(lia)).
  rewrite Z.land_spec. unfold u32. rewrite Z.mod_pow2_bits_low, Z.lnot_spec by lia.
  rewrite Z.shiftl_1_l, land_31, Z.pow2_bits_eqb by lia. rewrite (Z.eqb_sym k).
  destruct (Z.eqb_spec (i `mod` 32) k); [apply andb_false_r|apply andb_true_r].
Qed.
End Sized.
End BitArray.
