(* ===== verification/Memory.v ===== *)
(** * Objects of the executor's memory

    lib/Core/Memory.cpp and Memory.h: the content of a memory object. A byte is held in up
    to two places: a cache, with a concrete byte or a symbolic expression, and the list of
    updates of an array; three masks say which of them is valid. Reads at a symbolic
    offset first flush the cache to the updates. The array behind the updates of an
    object that was concrete is made when it is first read. *)
From stdpp Require Import base gmap list strings numbers pretty.
From Stdlib Require Import ZArith Lia.
From S2P Require Import Prelude ExprData ExprCreate BitArray.

Module Memory.
Import Expr Create.


(** [class MemoryObject], the fields that say where it is; [mo_id] stands for its address
    as an object of the executor. *)
Record MemoryObject : Type := MkMO {
  mo_id : Z;
  address : Z;
  mo_size : Z;
  isUserSpecified : bool
}.
#[export] Instance MemoryObject_eq_dec : EqDecision MemoryObject.
Proof. solve_decision. Defined.

(** [class ObjectState]; null pointers are [None]. [updates] is the root and the head. *)
Record ObjectState : Type := MkOS {
  copyOnWriteOwner : Z;
  object : MemoryObject;
  concreteStore : list Z;
  concreteMask : option BitArray.BitArray;
  flushMask : option BitArray.BitArray;
  knownSymbolics : option (list (option expr));
  root : option array;
  head : update_node;
  osize : Z;
  readOnly : bool
}.
Definition set_store (x : list Z) (o : ObjectState) : ObjectState :=
  MkOS (copyOnWriteOwner o) (object o) x (concreteMask o) (flushMask o) (knownSymbolics o) (root o) (head o) (osize o) (readOnly o).
Definition set_concreteMask (x : option BitArray.BitArray) (o : ObjectState) : ObjectState :=
  MkOS (copyOnWriteOwner o) (object o) (concreteStore o) x (flushMask o) (knownSymbolics o) (root o) (head o) (osize o) (readOnly o).
Definition set_flushMask (x : option BitArray.BitArray) (o : ObjectState) : ObjectState :=
  MkOS (copyOnWriteOwner o) (object o) (concreteStore o) (concreteMask o) x (knownSymbolics o) (root o) (head o) (osize o) (readOnly o).
Definition set_knownSymbolics (x : option (list (option expr))) (o : ObjectState) : ObjectState :=
  MkOS (copyOnWriteOwner o) (object o) (concreteStore o) (concreteMask o) (flushMask o) x (root o) (head o) (osize o) (readOnly o).
Definition set_updates (r : option array) (h : update_node) (o : ObjectState) : ObjectState :=
  MkOS (copyOnWriteOwner o) (object o) (concreteStore o) (concreteMask o) (flushMask o) (knownSymbolics o) r h (osize o) (readOnly o).
Definition set_owner (x : Z) (o : ObjectState) : ObjectState :=
  MkOS x (object o) (concreteStore o) (concreteMask o) (flushMask o) (knownSymbolics o) (root o) (head o) (osize o) (readOnly o).
Definition setReadOnly (x : bool) (o : ObjectState) : ObjectState :=
  MkOS (copyOnWriteOwner o) (object o) (concreteStore o) (concreteMask o) (flushMask o) (knownSymbolics o) (root o) (head o) (osize o) x.

Abbreviation Int8 := 8.
Abbreviation Int32 := 32.

(** Access to a cell of a C array. *)
Definition cell {A} (l : list A) (i : Z) : result A :=
  match l !! Z.to_nat i with Some x => Ret x | None => Stop MemError end.

(** ** The masks *)
Definition isByteConcrete (offset : Z) : M ObjectState bool :=
  o ← get; match concreteMask o with None => mret true | Some b => lift (BitArray.get b offset) end.
Definition isByteFlushed (offset : Z) : M ObjectState bool :=
  o ← get; match flushMask o with None => mret false | Some b => v ← lift (BitArray.get b offset); mret (negb v) end.
(** The expression [knownSymbolics[offset]], if there is one. *)
Definition known (offset : Z) : M ObjectState (option expr) :=
  o ← get; match knownSymbolics o with None => mret None | Some l => lift (cell l offset) end.
Definition isByteKnownSymbolic (offset : Z) : M ObjectState bool :=
  e ← known offset; mret (match e with None => false | Some _ => true end).
Definition markByteConcrete (offset : Z) : M ObjectState unit :=
  o ← get;
  match concreteMask o with
  | None => mret tt
  | Some b => b ← lift (BitArray.set b offset); modify (set_concreteMask (Some b))
  end.
Definition markByteSymbolic (offset : Z) : M ObjectState unit :=
  o ← get;
  let b := match concreteMask o with None => BitArray.new_BitArray (osize o) true | Some b => b end in
  b ← lift (BitArray.unset b offset); modify (set_concreteMask (Some b)).
Definition markByteUnflushed (offset : Z) : M ObjectState unit :=
  o ← get;
  match flushMask o with
  | None => mret tt
  | Some b => b ← lift (BitArray.set b offset); modify (set_flushMask (Some b))
  end.
Definition markByteFlushed (offset : Z) : M ObjectState unit :=
  o ← get;
  match flushMask o with
  | None => modify (set_flushMask (Some (BitArray.new_BitArray (osize o) false)))
  | Some b => b ← lift (BitArray.unset b offset); modify (set_flushMask (Some b))
  end.
Definition set_cell {A} (l : list A) (i : Z) (x : A) : result (list A) :=
  _ ← cell l i; Ret (<[Z.to_nat i := x]> l).
Definition setKnownSymbolic (offset : Z) (value : option expr) : M ObjectState unit :=
  o ← get;
  match knownSymbolics o, value with
  | Some l, _ => l ← lift (set_cell l offset value); modify (set_knownSymbolics (Some l))
  | None, Some _ =>
      l ← lift (set_cell (replicate (Z.to_nat (osize o)) None) offset value); modify (set_knownSymbolics (Some l))
  | None, None => mret tt
  end.

(** ** Construction *)
Definition makeConcrete : M ObjectState unit :=
  modify (fun o => set_knownSymbolics None (set_flushMask None (set_concreteMask None o))).
Fixpoint makeSymbolic_from (n : nat) (i : Z) : M ObjectState unit :=
  match n with
  | O => mret tt
  | S n => markByteSymbolic i;; setKnownSymbolic i None;; markByteFlushed i;; makeSymbolic_from n (i + 1)
  end.
Definition makeSymbolic : M ObjectState unit :=
  o ← get;
  assert_ (match head o with Null => true | _ => false end);;
  makeSymbolic_from (Z.to_nat (osize o)) 0.
Definition zeros (n : Z) : list Z := replicate (Z.to_nat n) 0.
Definition initializeToZero : M ObjectState unit := makeConcrete;; modify (fun o => set_store (zeros (osize o)) o).
Definition initializeToRandom : M ObjectState unit :=
  makeConcrete;; modify (fun o => set_store (replicate (Z.to_nat (osize o)) 171) o).

Section Constructors.
(** The option [UseConstantArrays]. *)
Context (UseConstantArrays : bool).
(** The constructor for concrete objects; [id] is the next number of a temporary array,
    and stands for its address, too. *)
Definition new_ObjectState (id : Z) (mo : MemoryObject) : ObjectState :=
  let root := if UseConstantArrays then None
              else Some (Array id ("tmp_arr" +:+ pretty id) (mo_size mo) Int32 Int8 []) in
  MkOS 0 mo (zeros (mo_size mo)) None None None root Null (mo_size mo) false.
End Constructors.
(** The constructor for symbolic objects *)
Definition symbolic_ObjectState (mo : MemoryObject) (a : array) : result ObjectState :=
  r ← makeSymbolic (MkOS 0 mo (zeros (mo_size mo)) None None None (Some a) Null (mo_size mo) false);
  Ret (set_store (zeros (mo_size mo)) r.2).
(** The copy constructor *)
Definition copy_ObjectState (o : ObjectState) : result ObjectState :=
  if readOnly o then Stop AssertFailed
  else Ret (MkOS 0 (object o) (take (Z.to_nat (osize o)) (concreteStore o))
              ((fun b => BitArray.copy b (osize o)) <$> concreteMask o)
              ((fun b => BitArray.copy b (osize o)) <$> flushMask o)
              (take (Z.to_nat (osize o)) <$> knownSymbolics o) (root o) (head o) (osize o) false).

(** ** Updates *)
(** [UpdateList::extend], with its assertions. *)
Definition extend_ok (root : option array) (index value : expr) : bool :=
  match root with None => true | Some a => (domain a =? getWidth index) && (range a =? getWidth value) end.
Definition extend (index value : expr) : M ObjectState unit :=
  o ← get;
  assert_ (extend_ok (root o) index value);;
  modify (fun o => set_updates (root o) (UpdateNode (head o) index value) o).

(** [Writes]: the updates, the oldest first. *)
Fixpoint writes (un : update_node) : list (expr * expr) :=
  match un with Null => [] | UpdateNode next i v => writes next ++ [(i, v)] end.
(** The loop that puts the first, constant writes into [Contents]; what is left. *)
Fixpoint pull (Contents : list Z) (l : list (expr * expr)) : result (list Z * list (expr * expr)) :=
  match l with
  | (Constant _ i, Constant _ v) :: l' => Contents ← set_cell Contents i v; pull Contents l'
  | _ => Ret (Contents, l)
  end.
Fixpoint extend_all (un : update_node) (l : list (expr * expr)) : update_node :=
  match l with [] => un | (i, v) :: l => extend_all (UpdateNode un i v) l end.
(** [getUpdates]; [id]: the number of the array, if one is made. *)
Definition getUpdates (id : Z) : M ObjectState (array * update_node) :=
  o ← get;
  match root o with
  | Some a => mret (a, head o)
  | None =>
      r ← lift (pull (zeros (osize o)) (writes (head o)));
      let a := Array id ("const_arr" +:+ pretty id) (osize o) Int32 Int8 r.1 in
      let h := extend_all Null r.2 in
      assert_ (forallb (fun w => extend_ok (Some a) w.1 w.2) r.2);;
      modify (set_updates (Some a) h);; mret (a, h)
  end.

Definition fastRangeCheckOffset (offset : expr) : M ObjectState (Z * Z) :=
  o ← get; mret (0, osize o).

(** What both kinds of flush write to the updates. *)
Definition flush_byte (offset : Z) : M ObjectState unit :=
  c ← isByteConcrete offset;
  if c : bool then
    o ← get; v ← lift (cell (concreteStore o) offset);
    extend (Constant Int32 offset) (Constant Int8 v)
  else
    e ← known offset;
    match e with
    | None => halt AssertFailed
    | Some e => extend (Constant Int32 offset) e
    end.
Definition unset_flush (offset : Z) : M ObjectState unit :=
  o ← get;
  match flushMask o with
  | None => halt MemError
  | Some b => b ← lift (BitArray.unset b offset); modify (set_flushMask (Some b))
  end.
Definition ensure_flushMask : M ObjectState unit :=
  o ← get;
  match flushMask o with
  | None => modify (set_flushMask (Some (BitArray.new_BitArray (osize o) true)))
  | Some _ => mret tt
  end.
Fixpoint flush_read_from (n : nat) (offset : Z) : M ObjectState unit :=
  match n with
  | O => mret tt
  | S n =>
      f ← isByteFlushed offset;
      (if f : bool then mret tt else flush_byte offset;; unset_flush offset);;
      flush_read_from n (offset + 1)
  end.
Definition flushRangeForRead (rangeBase rangeSize : Z) : M ObjectState unit :=
  ensure_flushMask;; flush_read_from (Z.to_nat rangeSize) rangeBase.
(** What marks a byte that will be overwritten. *)
Definition forget_byte (offset : Z) : M ObjectState unit :=
  c ← isByteConcrete offset;
  if c : bool then markByteSymbolic offset
  else k ← isByteKnownSymbolic offset; if k : bool then setKnownSymbolic offset None else mret tt.
Fixpoint flush_write_from (n : nat) (offset : Z) : M ObjectState unit :=
  match n with
  | O => mret tt
  | S n =>
      f ← isByteFlushed offset;
      (if f : bool then forget_byte offset else flush_byte offset;; forget_byte offset;; unset_flush offset);;
      flush_write_from n (offset + 1)
  end.
Definition flushRangeForWrite (rangeBase rangeSize : Z) : M ObjectState unit :=
  ensure_flushMask;; flush_write_from (Z.to_nat rangeSize) rangeBase.

(** ** Bytes *)
Section Bytes.
Context {ap : APInt} (ConstArrayOpt : bool) (id : Z).

(** [read8(unsigned)] *)
Definition read8 (offset : Z) : M ObjectState expr :=
  c ← isByteConcrete offset;
  if c : bool then o ← get; v ← lift (cell (concreteStore o) offset); mret (Constant Int8 v)
  else
    k ← known offset;
    match k with
    | Some e => mret e
    | None =>
        f ← isByteFlushed offset;
        assert_ f;;
        u ← getUpdates id;
        lift (create_Read ConstArrayOpt u.1 u.2 (Constant Int32 offset))
    end.
(** [read8(ref<Expr>)] *)
Definition read8_expr (offset : expr) : M ObjectState expr :=
  assert_ (negb (isConstant offset));;
  bs ← fastRangeCheckOffset offset;
  flushRangeForRead bs.1 bs.2;;
  u ← getUpdates id;
  i ← lift (create_ZExt offset Int32);
  lift (create_Read ConstArrayOpt u.1 u.2 i).

(** [write8(unsigned, uint8_t)] *)
Definition write8 (offset value : Z) : M ObjectState unit :=
  o ← get;
  l ← lift (set_cell (concreteStore o) offset value);
  modify (set_store l);;
  setKnownSymbolic offset None;;
  markByteConcrete offset;;
  markByteUnflushed offset.
(** [write8(unsigned, ref<Expr>)] *)
Definition write8_value (offset : Z) (value : expr) : M ObjectState unit :=
  match value with
  | Constant _ v => write8 offset (u8 v)
  | _ =>
      setKnownSymbolic offset (Some value);;
      markByteSymbolic offset;;
      markByteUnflushed offset
  end.
(** [write8(ref<Expr>, ref<Expr>)] *)
Definition write8_expr (offset value : expr) : M ObjectState unit :=
  assert_ (negb (isConstant offset));;
  bs ← fastRangeCheckOffset offset;
  flushRangeForWrite bs.1 bs.2;;
  i ← lift (create_ZExt offset Int32);
  extend i value.

(** ** Values *)
Context (isLittleEndian : bool).

Definition byte_index (NumBytes i : Z) : Z := if isLittleEndian then i else NumBytes - i - 1.

(** The loops of [read]: [n] bytes are left, from [i] on; [Res] is null first. *)
Fixpoint read_from (byte : Z -> M ObjectState expr) (NumBytes : Z) (n : nat) (i : Z) (Res : option expr) :
    M ObjectState (option expr) :=
  match n with
  | O => mret Res
  | S n =>
      b ← byte (byte_index NumBytes i);
      r ← match Res with None => mret b | Some Res => lift (create_Concat b Res) end;
      read_from byte NumBytes n (i + 1) (Some r)
  end.
(** [Res]; a null pointer would be the result for a width of 0. *)
Definition non_null (r : option expr) : M ObjectState expr :=
  match r with Some e => mret e | None => halt MemError end.
Definition read_bytes (byte : Z -> M ObjectState expr) (width : Z) : M ObjectState expr :=
  let NumBytes := width / 8 in
  assert_ (width =? NumBytes * 8);;
  r ← read_from byte NumBytes (Z.to_nat NumBytes) 0 None; non_null r.

(** [read(unsigned, Width)] *)
Definition read_at (offset width : Z) : M ObjectState expr :=
  if width =? Bool then b ← read8 offset; lift (create_Extract b 0 Bool)
  else read_bytes (fun idx => read8 (u32 (offset + idx))) width.
(** [read(ref<Expr>, Width)] *)
Definition read (offset : expr) (width : Z) : M ObjectState expr :=
  offset ← lift (create_ZExt offset Int32);
  match offset with
  | Constant _ off => read_at off width
  | _ =>
      if width =? Bool then b ← read8_expr offset; lift (create_Extract b 0 Bool)
      else read_bytes (fun idx => o ← lift (create_Add ConstArrayOpt offset (Constant Int32 idx)); read8_expr o) width
  end.

(** The loops of [write16], [write32] and [write64]. *)
Fixpoint write_const_from (offset value NumBytes : Z) (n : nat) (i : Z) : M ObjectState unit :=
  match n with
  | O => mret tt
  | S n =>
      write8 (u32 (offset + byte_index NumBytes i)) (u8 (Z.shiftr value (8 * i)));;
      write_const_from offset value NumBytes n (i + 1)
  end.
Definition write16 (offset value : Z) : M ObjectState unit := write_const_from offset value 2 2 0.
Definition write32 (offset value : Z) : M ObjectState unit := write_const_from offset value 4 4 0.
Definition write64 (offset value : Z) : M ObjectState unit := write_const_from offset value 8 8 0.

(** The loops of [write]. *)
Fixpoint write_from (byte : Z -> expr -> M ObjectState unit) (value : expr) (NumBytes : Z) (n : nat) (i : Z) :
    M ObjectState unit :=
  match n with
  | O => mret tt
  | S n =>
      b ← lift (create_Extract value (8 * i) Int8);
      byte (byte_index NumBytes i) b;;
      write_from byte value NumBytes n (i + 1)
  end.
Definition write_bytes (byte : Z -> expr -> M ObjectState unit) (value : expr) : M ObjectState unit :=
  let NumBytes := getWidth value / 8 in
  assert_ (getWidth value =? NumBytes * 8);;
  write_from byte value NumBytes (Z.to_nat NumBytes) 0.

(** [bits64::isPowerOfTwo] *)
Definition isPowerOfTwo (w : Z) : bool := negb (w =? 0) && (Z.land w (w - 1) =? 0).

(** The general part of [write(unsigned, ref<Expr>)]. *)
Definition write_general (offset : Z) (value : expr) : M ObjectState unit :=
  if getWidth value =? Bool then b ← lift (create_ZExt value Int8); write8_value offset b
  else write_bytes (fun idx b => write8_value (u32 (offset + idx)) b) value.
(** [write(unsigned, ref<Expr>)] *)
Definition write_at (offset : Z) (value : expr) : M ObjectState unit :=
  match value with
  | Constant w val =>
      if (w <=? 64) && isPowerOfTwo w then
        if (w =? 1) || (w =? 8) then write8 offset (u8 val)
        else if w =? 16 then write16 offset (u16 val)
        else if w =? 32 then write32 offset (u32 val)
        else if w =? 64 then write64 offset (u64 val)
        else halt AssertFailed
      else write_general offset value
  | _ => write_general offset value
  end.
(** [write(ref<Expr>, ref<Expr>)] *)
Definition write (offset value : expr) : M ObjectState unit :=
  offset ← lift (create_ZExt offset Int32);
  match offset with
  | Constant _ off => write_at off value
  | _ =>
      if getWidth value =? Bool then b ← lift (create_ZExt value Int8); write8_expr offset b
      else write_bytes (fun idx b => o ← lift (create_Add ConstArrayOpt offset (Constant Int32 idx)); write8_expr o b) value
  end.
End Bytes.
End Memory.
