(* ===== verification/MemoryOk.v ===== *)
(** * Objects of the executor's memory: the masks as functions

    The masks and arrays of an object are functions from offsets; each operation updates
    them. The cache invariants of Memory.cpp, and what a byte of the object is. *)
From stdpp Require Import base gmap list strings numbers pretty.
From Stdlib Require Import ZArith Lia.
From S2P Require Import Prelude ExprData ExprFacts ExprCreate ExprSound ExprMain BitArray Memory.

Module MemoryOk.
Import Expr ExprFacts Create Sound ExprMain Memory.

(** ** Functions from offsets *)
Definition upd {A} (f : Z -> A) (i : Z) (v : A) : Z -> A := fun j => if j =? i then v else f j.
Lemma upd_same {A} (f : Z -> A) i v : upd f i v i = v.
Proof. unfold upd. by rewrite Z.eqb_refl. Qed.
Lemma upd_other {A} (f : Z -> A) i v j : j <> i -> upd f i v j = f j.
Proof. unfold upd. by destruct (Z.eqb_spec j i). Qed.

(** The state of an object: is a byte concrete, is it not flushed, its symbolic value, its
    concrete value; the updates. *)
Record desc : Type := Desc {
  dc : Z -> bool;
  du : Z -> bool;
  dk : Z -> option expr;
  ds : Z -> Z;
  dr : option array;
  dh : update_node
}.
Definition with_c (c : Z -> bool) (d : desc) : desc := Desc c (du d) (dk d) (ds d) (dr d) (dh d).
Definition with_u (u : Z -> bool) (d : desc) : desc := Desc (dc d) u (dk d) (ds d) (dr d) (dh d).
Definition with_k (k : Z -> option expr) (d : desc) : desc := Desc (dc d) (du d) k (ds d) (dr d) (dh d).
Definition with_s (s : Z -> Z) (d : desc) : desc := Desc (dc d) (du d) (dk d) s (dr d) (dh d).
Definition with_h (h : update_node) (d : desc) : desc := Desc (dc d) (du d) (dk d) (ds d) (dr d) h.
Definition with_r (r : option array) (h : update_node) (d : desc) : desc := Desc (dc d) (du d) (dk d) (ds d) r h.

Section Object.
(** The size of the object. *)
Context (n : Z) (Hn : 0 <= n < 2 ^ 32).

Definition mask_is (m : option BitArray.BitArray) (f : Z -> bool) : Prop :=
  match m with
  | None => forall i, 0 <= i < n -> f i = true
  | Some b => BitArray.sized b n /\ forall i, 0 <= i < n -> f i = BitArray.bit b i
  end.
Definition array_is {A} (l : list A) (f : Z -> A) : Prop :=
  Z.of_nat (length l) = n /\ forall i, 0 <= i < n -> l !! Z.to_nat i = Some (f i).
Record looks (o : ObjectState) (d : desc) : Prop := {
  lk_size : osize o = n;
  lk_store : array_is (concreteStore o) (ds d);
  lk_conc : mask_is (concreteMask o) (dc d);
  lk_unfl : mask_is (flushMask o) (du d);
  lk_known : match knownSymbolics o with None => forall i, 0 <= i < n -> dk d i = None | Some l => array_is l (dk d) end;
  lk_root : root o = dr d;
  lk_head : head o = dh d
}.

Lemma cell_is {A} (l : list A) f i : array_is l f -> 0 <= i < n -> cell l i = Ret (f i).
Proof. intros [_ H] Hi. unfold cell. by rewrite H. Qed.
Lemma set_cell_is {A} (l : list A) f i v :
  array_is l f -> 0 <= i < n -> exists l', set_cell l i v = Ret l' /\ array_is l' (upd f i v).
Proof.
  intros Hl Hi. unfold set_cell. rewrite (cell_is l f) by done. eexists. split; [reflexivity|].
  destruct Hl as [Hl Hf]. split; [by rewrite length_insert|]. intros j Hj. unfold upd.
  destruct (Z.eqb_spec j i) as [->|Hne]; [apply list_lookup_insert_eq; lia|].
  rewrite list_lookup_insert_ne by lia. by apply Hf.
Qed.
Lemma replicate_is {A} (v : A) : array_is (replicate (Z.to_nat n) v) (fun _ => v).
Proof. split; [rewrite length_replicate; lia|]. intros i Hi. apply lookup_replicate. split; [done|lia]. Qed.

Lemma mask_get m f i : mask_is m f -> 0 <= i < n ->
  match m with None => f i = true | Some b => BitArray.get b i = Ret (f i) end.
Proof.
  destruct m as [b|]; [|auto]. intros [Hs Hb] Hi. rewrite (BitArray.get_ok n) by (done || lia). by rewrite Hb.
Qed.
(** Setting or clearing a bit of a mask. *)
Lemma mask_write (v : bool) b f i :
  mask_is (Some b) f -> 0 <= i < n ->
  exists b', (if v then BitArray.set b i else BitArray.unset b i) = Ret b' /\ mask_is (Some b') (upd f i v).
Proof.
  intros [Hs Hb] Hi.
  assert (H : exists b', (if v then BitArray.set b i else BitArray.unset b i) = Ret b' /\ BitArray.sized b' n /\
    forall j, 0 <= j -> BitArray.bit b' j = if i =? j then v else BitArray.bit b j).
  { destruct v; [apply BitArray.set_ok|apply BitArray.unset_ok]; (done || lia). }
  destruct H as (b' & E & Hs' & Hb'). exists b'. split; [done|]. split; [done|]. intros j Hj. rewrite Hb' by lia.
  unfold upd. rewrite (Z.eqb_sym i). destruct (j =? i); [done|by apply Hb].
Qed.
Lemma mask_new v : mask_is (Some (BitArray.new_BitArray n v)) (fun _ => v).
Proof. split; [apply BitArray.new_sized; lia|]. intros i Hi. symmetry. apply BitArray.new_bit; lia. Qed.
Lemma mask_ext m f g : mask_is m f -> (forall i, 0 <= i < n -> f i = g i) -> mask_is m g.
Proof.
  destruct m as [b|]; simpl; [intros [Hs Hb] H; split; [done|]|intros Hb H]; intros i Hi; by rewrite <- H by done; apply Hb.
Qed.

(** Only the offsets inside matter. *)
Definition same (d d' : desc) : Prop :=
  (forall i, 0 <= i < n -> dc d i = dc d' i /\ du d i = du d' i /\ dk d i = dk d' i /\ ds d i = ds d' i) /\
  dr d = dr d' /\ dh d = dh d'.
Lemma array_ext {A} (l : list A) f g : array_is l f -> (forall i, 0 <= i < n -> f i = g i) -> array_is l g.
Proof. intros [Hl Hf] H. split; [done|]. intros i Hi. by rewrite <- H by done; apply Hf. Qed.
Lemma looks_ext o d d' : looks o d -> same d d' -> looks o d'.
Proof.
  intros [L1 L2 L3 L4 L5 L6 L7] (H & Hr & Hh). split; [done| | | | |congruence|congruence].
  - eapply array_ext; [exact L2|]. intros i Hi. by apply H.
  - eapply mask_ext; [exact L3|]. intros i Hi. by apply H.
  - eapply mask_ext; [exact L4|]. intros i Hi. by apply H.
  - destruct (knownSymbolics o); [eapply array_ext; [exact L5|]|]; intros i Hi; [by apply H|].
    destruct (H i Hi) as (_ & _ & <- & _). by apply L5.
Qed.

(** ** The primitive operations *)
Section Prims.
Context (i : Z) (Hi : 0 <= i < n).

Lemma isByteConcrete_run o d : looks o d -> runs (isByteConcrete i) o (fun c o' => c = dc d i /\ o' = o).
Proof.
  intros H. unfold isByteConcrete. apply runs_bind, runs_get. pose proof (mask_get _ _ i (lk_conc _ _ H) Hi) as Hg.
  destruct (concreteMask o); [by eapply runs_lift|by apply runs_ret].
Qed.
Lemma isByteFlushed_run o d : looks o d -> runs (isByteFlushed i) o (fun f o' => f = negb (du d i) /\ o' = o).
Proof.
  intros H. unfold isByteFlushed. apply runs_bind, runs_get. pose proof (mask_get _ _ i (lk_unfl _ _ H) Hi) as Hg.
  destruct (flushMask o); [apply runs_bind; by eapply runs_lift|by rewrite Hg; apply runs_ret].
Qed.
Lemma known_run o d : looks o d -> runs (known i) o (fun k o' => k = dk d i /\ o' = o).
Proof.
  intros H. unfold known. apply runs_bind, runs_get. pose proof (lk_known _ _ H) as Hk.
  destruct (knownSymbolics o); [by eapply runs_lift; [apply cell_is|]|rewrite Hk by done; by apply runs_ret].
Qed.
Lemma markByteConcrete_run o d :
  looks o d -> runs (markByteConcrete i) o (fun _ o' => looks o' (with_c (upd (dc d) i true) d)).
Proof.
  intros H. unfold markByteConcrete. apply runs_bind, runs_get. pose proof (lk_conc _ _ H) as Hc.
  destruct (concreteMask o) as [b|] eqn:E.
  - destruct (mask_write true b _ i Hc Hi) as (b' & E' & Hb'). apply runs_bind. eapply runs_lift; [exact E'|].
    apply runs_modify. destruct H. by split.
  - apply runs_ret. destruct H. split; try done. rewrite E. simpl. intros j Hj. unfold upd. destruct (j =? i); [done|by apply Hc].
Qed.
Lemma markByteSymbolic_run o d :
  looks o d -> runs (markByteSymbolic i) o (fun _ o' => looks o' (with_c (upd (dc d) i false) d) /\ flushMask o' = flushMask o).
Proof.
  intros H. unfold markByteSymbolic. apply runs_bind, runs_get. pose proof (lk_conc _ _ H) as Hc.
  assert (Hm : mask_is (Some (match concreteMask o with None => BitArray.new_BitArray (osize o) true | Some b => b end)) (dc d)).
  { destruct (concreteMask o) as [b|]; [done|]. rewrite (lk_size _ _ H). eapply mask_ext; [apply mask_new|].
    intros j Hj. by rewrite Hc. }
  destruct (mask_write false _ _ i Hm Hi) as (b' & E' & Hb'). apply runs_bind. eapply runs_lift; [exact E'|].
  apply runs_modify. split; [|done]. destruct H. by split.
Qed.
Lemma markByteUnflushed_run o d :
  looks o d -> runs (markByteUnflushed i) o (fun _ o' => looks o' (with_u (upd (du d) i true) d)).
Proof.
  intros H. unfold markByteUnflushed. apply runs_bind, runs_get. pose proof (lk_unfl _ _ H) as Hc.
  destruct (flushMask o) as [b|] eqn:E.
  - destruct (mask_write true b _ i Hc Hi) as (b' & E' & Hb'). apply runs_bind. eapply runs_lift; [exact E'|].
    apply runs_modify. destruct H. by split.
  - apply runs_ret. destruct H. split; try done. rewrite E. simpl. intros j Hj. unfold upd. destruct (j =? i); [done|by apply Hc].
Qed.
Lemma setKnownSymbolic_run o d v :
  looks o d -> runs (setKnownSymbolic i v) o (fun _ o' => looks o' (with_k (upd (dk d) i v) d) /\ flushMask o' = flushMask o).
Proof.
  intros H. unfold setKnownSymbolic. apply runs_bind, runs_get. pose proof (lk_known _ _ H) as Hk.
  destruct (knownSymbolics o) as [l|] eqn:E.
  - destruct (set_cell_is l (dk d) i v Hk Hi) as (l' & E' & Hl'). apply runs_bind. eapply runs_lift; [exact E'|].
    apply runs_modify. split; [|done]. destruct H. by split.
  - destruct v as [e|].
    + rewrite (lk_size _ _ H). destruct (set_cell_is _ _ i (Some e) (replicate_is None) Hi) as (l' & E' & Hl').
      apply runs_bind. eapply runs_lift; [exact E'|]. apply runs_modify. split; [|done]. destruct H. split; try done. simpl.
      destruct Hl' as [L1 L2]. split; [done|]. intros j Hj. rewrite L2 by done. unfold upd. destruct (j =? i); [done|by rewrite Hk].
    + apply runs_ret. split; [|done]. destruct H. split; try done. rewrite E. simpl. intros j Hj. unfold upd. destruct (j =? i); [done|by apply Hk].
Qed.
Lemma unset_flush_run o d b :
  looks o d -> flushMask o = Some b ->
  runs (unset_flush i) o (fun _ o' => looks o' (with_u (upd (du d) i false) d) /\ exists b', flushMask o' = Some b').
Proof.
  intros H E. unfold unset_flush. apply runs_bind, runs_get. pose proof (lk_unfl _ _ H) as Hc. rewrite E in *.
  destruct (mask_write false b _ i Hc Hi) as (b' & E' & Hb'). apply runs_bind. eapply runs_lift; [exact E'|].
  apply runs_modify. split; [|by eexists]. destruct H. by split.
Qed.
End Prims.
Lemma extend_run o d i v :
  looks o d -> extend_ok (dr d) i v = true -> runs (extend i v) o (fun _ o' => looks o' (with_h (UpdateNode (dh d) i v) d) /\ flushMask o' = flushMask o).
Proof.
  intros H Ha. unfold extend. apply runs_bind, runs_get, runs_bind, runs_assert; [by rewrite (lk_root _ _ H)|].
  apply runs_modify. split; [|done]. destruct H. split; try done. simpl. by rewrite lk_head0.
Qed.
(** ** What the bytes are *)
Section Meaning.
Context (init : array -> Z -> option Z) (Hinit : init_ok init).

(** The value of a cell after updates of the content [base]. *)
Fixpoint nodes_value (base : Z -> option Z) (un : update_node) (i : Z) : option Z :=
  match un with
  | Null => base i
  | UpdateNode next index value =>
      j ← eval init index; if i =? j then eval init value else nodes_value base next i
  end.
Lemma eval_updates_value a un i : eval_updates init a un i = nodes_value (initial init a) un i.
Proof.
  induction un as [|next IH index value]; [done|]. cbn [eval_updates nodes_value].
  destruct (eval init index); [|done]. simpl. by rewrite IH.
Qed.
Lemma nodes_value_ext base base' un i : base i = base' i -> nodes_value base un i = nodes_value base' un i.
Proof.
  intros H. induction un as [|next IH index value]; [done|]. simpl. destruct (eval init index); [|done]. simpl. by rewrite IH.
Qed.

(** Updates with indices of 32 bits and values of 8. *)
Fixpoint typed (un : update_node) : bool :=
  match un with
  | Null => true
  | UpdateNode next i v =>
      typed next && width_ok i && width_ok v && (getWidth i =? 32) && (getWidth v =? 8)
  end.
Lemma typed_nodes a un : domain a = 32 -> range a = 8 -> typed un = true -> nodes_ok a un = true.
Proof.
  intros Hd Hr. induction un as [|next IH i v]; [done|]. simpl. intros H. split_ok.
  rewrite IH, Hd, Hr by done. repeat (apply andb_true_intro; split); (done || by apply Z.eqb_eq).
Qed.

(** Constant writes are inside. *)
Fixpoint inside (un : update_node) : Prop :=
  match un with
  | Null => True
  | UpdateNode next (Constant _ i) (Constant _ _) => 0 <= i < n /\ inside next
  | UpdateNode next _ _ => inside next
  end.

Definition base (d : desc) (i : Z) : option Z :=
  match dr d with None => Some 0 | Some a => initial init a i end.
(** The value of a byte in the updates, and the value of the byte. *)
Definition flushed (d : desc) (i : Z) : option Z := nodes_value (base d) (dh d) i.
Definition content (d : desc) (i : Z) : option Z :=
  if dc d i then Some (ds d i) else match dk d i with Some e => eval init e | None => flushed d i end.

(** The invariants in the comment of Memory.cpp, types, and that the cache and the updates
    agree on the bytes that are in both. *)
Record inv (d : desc) : Prop := {
  inv_known i e : 0 <= i < n -> dk d i = Some e -> dc d i = false /\ width_ok e = true /\ getWidth e = 8;
  inv_cached i : 0 <= i < n -> du d i = true -> dc d i = true \/ dk d i <> None;
  inv_byte i : 0 <= i < n -> 0 <= ds d i < 256;
  inv_root a : dr d = Some a -> array_ok a = true /\ domain a = 32 /\ range a = 8;
  inv_nodes : typed (dh d) = true;
  inv_inside : dr d = None -> inside (dh d);
  inv_agree i : 0 <= i < n -> du d i = false -> dc d i = true \/ dk d i <> None -> flushed d i = content d i
}.

Lemma inv_extend d i v : inv d -> getWidth i = 32 -> getWidth v = 8 -> extend_ok (dr d) i v = true.
Proof.
  intros Hd Hi Hv. unfold extend_ok. destruct (dr d) as [a|] eqn:E; [|done].
  destruct (inv_root d Hd a E) as (_ & -> & ->). by rewrite Hi, Hv.
Qed.

(** *** Writes to the cache *)
Lemma content_write d i c u k s :
  forall j, content (Desc (upd (dc d) i c) u (upd (dk d) i k) s (dr d) (dh d)) j =
    if j =? i then (if c then Some (s i) else match k with Some e => eval init e | None => flushed d i end)
    else if dc d j then Some (s j) else match dk d j with Some e => eval init e | None => flushed d j end.
Proof. intros j. unfold content, upd. simpl. by destruct (Z.eqb_spec j i) as [->|]. Qed.

Lemma inv_write8 d i v :
  inv d -> 0 <= i < n -> 0 <= v < 256 ->
  let d' := with_u (upd (du d) i true) (with_c (upd (dc d) i true) (with_k (upd (dk d) i None) (with_s (upd (ds d) i v) d))) in
  inv d' /\ forall j, content d' j = upd (content d) i (Some v) j.
Proof.
  intros [H1 H2 H3 H4 H5 H6 H7] Hi Hv d'. split.
  - split; try done; unfold d'; simpl; unfold upd.
    + intros j e Hj. destruct (Z.eqb_spec j i); [done|]. by apply H1.
    + intros j Hj. destruct (Z.eqb_spec j i); [by left|]. by apply H2.
    + intros j Hj. destruct (Z.eqb_spec j i); [done|]. by apply H3.
    + intros j Hj. destruct (Z.eqb_spec j i) as [|Hne]; [done|]. intros Hu Hc. pose proof (H7 j Hj Hu Hc) as E.
      unfold content in *. simpl. unfold upd. by destruct (Z.eqb_spec j i).
  - intros j. unfold content, upd. simpl. unfold upd. by destruct (Z.eqb_spec j i).
Qed.
Lemma inv_write8_value d i e :
  inv d -> 0 <= i < n -> width_ok e = true -> getWidth e = 8 ->
  let d' := with_u (upd (du d) i true) (with_c (upd (dc d) i false) (with_k (upd (dk d) i (Some e)) d)) in
  inv d' /\ forall j, content d' j = upd (content d) i (eval init e) j.
Proof.
  intros [H1 H2 H3 H4 H5 H6 H7] Hi He Hw d'. split.
  - split; try done; unfold d'; simpl; unfold upd.
    + intros j e' Hj. destruct (Z.eqb_spec j i); [by intros [= <-]|]. by apply H1.
    + intros j Hj. destruct (Z.eqb_spec j i); [by right|]. by apply H2.
    + intros j Hj. destruct (Z.eqb_spec j i) as [|Hne]; [done|]. intros Hu Hc. pose proof (H7 j Hj Hu Hc) as E.
      unfold content in *. simpl. unfold upd. by destruct (Z.eqb_spec j i).
  - intros j. unfold content, upd. simpl. unfold upd. by destruct (Z.eqb_spec j i).
Qed.

(** *** Flushing *)
(** The expression for a cached byte. *)
Definition cached (d : desc) (i : Z) : option expr := if dc d i then Some (Constant 8 (ds d i)) else dk d i.
Lemma cached_ok d i : inv d -> 0 <= i < n -> du d i = true ->
  exists e, cached d i = Some e /\ width_ok e = true /\ getWidth e = 8 /\ eval init e = content d i.
Proof.
  intros Hd Hi Hu. unfold cached, content. destruct (dc d i) eqn:Hc.
  - eexists. split; [done|]. split_and!; [|done|done]. apply constant_ok; [lia|]. by apply (inv_byte d Hd).
  - destruct (inv_cached d Hd i Hi Hu) as [|Hk]; [congruence|]. destruct (dk d i) as [e|] eqn:E; [|done].
    destruct (inv_known d Hd i e Hi E) as (_ & ? & ?). by eexists.
Qed.
(** Writing a cached byte to the updates. *)
Lemma inv_flush d i e :
  inv d -> 0 <= i < n -> du d i = true -> cached d i = Some e ->
  let d' := with_h (UpdateNode (dh d) (Constant 32 i) e) d in
  inv d' /\ (forall j, 0 <= j < n -> content d' j = content d j) /\ flushed d' i = content d i.
Proof.
  intros Hd Hi Hu He d'. destruct (cached_ok d i Hd Hi Hu) as (e' & E & Hw & Hwd & Hv). assert (e' = e) as -> by congruence.
  assert (Hf : forall j, flushed d' j = if j =? i then content d i else flushed d j).
  { intros j. unfold flushed, d'. simpl. rewrite Hv. by destruct (j =? i). }
  assert (Hc : forall j, 0 <= j < n -> content d' j = content d j).
  { intros j Hj. unfold content. simpl. rewrite Hf. destruct (Z.eqb_spec j i) as [->|]; [|done].
    destruct (dc d i) eqn:Ec; [done|]. destruct (dk d i) eqn:Ek; [done|].
    destruct (inv_cached d Hd i Hi Hu); congruence. }
  split_and!; [|done|by rewrite Hf, Z.eqb_refl]. destruct Hd as [H1 H2 H3 H4 H5 H6 H7]. split; try done.
  - simpl. rewrite H5, Hw, Hwd. by rewrite (proj2 (fits_iff 32 i)) by lia.
  - simpl. intros Hr. destruct e; (done || by apply H6 || (split; [done|by apply H6])).
  - intros j Hj Hu' Hck. rewrite Hf, Hc by done. destruct (Z.eqb_spec j i) as [->|]; [done|by apply H7].
Qed.
(** Marking a byte as flushed, when the updates have it. *)
Lemma inv_unset d i :
  inv d -> 0 <= i < n -> flushed d i = content d i -> inv (with_u (upd (du d) i false) d).
Proof.
  intros [H1 H2 H3 H4 H5 H6 H7] Hi Hf. split; try done; simpl; unfold upd; intros j Hj.
  - destruct (Z.eqb_spec j i); [done|]. by apply H2.
  - destruct (Z.eqb_spec j i) as [->|]; [done|]. by apply H7.
Qed.
(** Dropping a byte from the cache, when the updates have it. *)
Lemma inv_forget d i :
  inv d -> 0 <= i < n -> flushed d i = content d i ->
  let d' := with_u (upd (du d) i false) (with_k (upd (dk d) i None) (with_c (upd (dc d) i false) d)) in
  inv d' /\ (forall j, 0 <= j < n -> content d' j = content d j).
Proof.
  intros [H1 H2 H3 H4 H5 H6 H7] Hi Hf d'.
  assert (Hc : forall j, 0 <= j < n -> content d' j = content d j).
  { intros j Hj. unfold content at 1. unfold d'. simpl. unfold upd. by destruct (Z.eqb_spec j i) as [->|]. }
  split; [|done]. split; try done; unfold d'; simpl; unfold upd; intros j.
  - intros e Hj. destruct (Z.eqb_spec j i); [done|]. by apply H1.
  - intros Hj. destruct (Z.eqb_spec j i); [done|]. by apply H2.
  - intros Hj. destruct (Z.eqb_spec j i) as [->|]; [by intros _ [|]|]. intros Hu Hck.
    change (flushed d j = content d' j). rewrite Hc by done. by apply H7.
Qed.
End Meaning.
End Object.
End MemoryOk.
