(* ===== verification/MemoryBytes.v ===== *)
(** * Objects of the executor's memory: single bytes

    The operations on one byte, at a concrete or a symbolic offset, are those on an array
    of bytes, for every content of the symbolic arrays. *)
From stdpp Require Import base gmap list strings numbers pretty.
From Stdlib Require Import ZArith Lia.
From S2P Require Import Prelude ExprData ExprFacts ExprCreate ExprSound ExprMain BitArray Memory MemoryOk.

Module MemoryBytes.
Import Expr ExprFacts Create Sound ExprMain Memory MemoryOk.

Section Bytes.
Context {ap : APInt} {ap_ok : APIntOk} (opt : bool).
Context (init : array -> Z -> option Z) (Hadm : admissible opt init).
Context (n : Z) (Hn : 0 <= n < 2 ^ 32).

Abbreviation looks_ := (looks n).
Abbreviation inv_ := (inv n init).
Abbreviation content_ := (content init).
Abbreviation flushed_ := (flushed init).
Abbreviation inside i := (0 <= i < n).
Abbreviation has_mask o := (exists b, flushMask o = Some b).

(** ** Flushing *)
Lemma flush_byte_run o d i :
  looks_ o d -> inv_ d -> inside i -> du d i = true ->
  runs (flush_byte i) o (fun _ o' => exists e, cached d i = Some e /\
    looks_ o' (with_h (UpdateNode (dh d) (Constant 32 i) e) d) /\ flushMask o' = flushMask o).
Proof.
  intros Hl Hd Hi Hu. unfold flush_byte. eapply runs_step; [by apply (isByteConcrete_run n)|]. intros c o' [-> ->].
  unfold cached. destruct (dc d i) eqn:Hc.
  - apply runs_bind, runs_get. apply runs_bind. eapply runs_lift; [apply (cell_is n _ _ i (lk_store _ _ _ Hl) Hi)|].
    eapply runs_mono; [apply (extend_run n); [done|by apply (inv_extend n init)]|]. intros _ o'' [L E]. by eexists.
  - eapply runs_step; [by apply (known_run n)|]. intros k o' [-> ->]. destruct (dk d i) as [e|] eqn:Ek.
    + destruct (inv_known _ _ d Hd i e Hi Ek) as (_ & _ & We).
      eapply runs_mono; [apply (extend_run n); [done|by apply (inv_extend n init)]|]. intros _ o'' [L E]. by eexists.
    + destruct (inv_cached _ _ d Hd i Hi Hu); congruence.
Qed.
Lemma forget_byte_run o d i :
  looks_ o d -> inv_ d -> inside i ->
  runs (forget_byte i) o (fun _ o' =>
    looks_ o' (with_k (upd (dk d) i None) (with_c (upd (dc d) i false) d)) /\ flushMask o' = flushMask o).
Proof.
  intros Hl Hd Hi. unfold forget_byte. eapply runs_step; [by apply (isByteConcrete_run n)|]. intros c o' [-> ->].
  destruct (dc d i) eqn:Hc.
  - eapply runs_mono; [by apply (markByteSymbolic_run n)|]. intros _ o' [L E]. split; [|done].
    eapply looks_ext; [exact L|]. split; [|done]. intros j Hj. simpl. unfold upd. split_and!; [done|done| |done].
    destruct (Z.eqb_spec j i) as [->|]; [|done]. destruct (dk d i) as [e|] eqn:Ek; [|done].
    destruct (inv_known _ _ d Hd i e Hi Ek). congruence.
  - unfold isByteKnownSymbolic. apply runs_bind. eapply runs_step; [by apply (known_run n)|]. intros k o' [-> ->].
    apply runs_ret. assert (Hs : same n (with_k (upd (dk d) i None) d) (with_k (upd (dk d) i None) (with_c (upd (dc d) i false) d))).
    { split; [|done]. intros j Hj. simpl. split_and!; [|done..]. unfold upd. by destruct (Z.eqb_spec j i) as [->|]. }
    destruct (dk d i) as [e|] eqn:Ek.
    + eapply runs_mono; [by apply (setKnownSymbolic_run n)|]. intros _ o' [L E]. split; [|done]. by eapply looks_ext.
    + apply runs_ret. split; [|done]. eapply looks_ext; [exact Hl|]. split; [|done]. intros j Hj. simpl. unfold upd.
      destruct (Z.eqb_spec j i) as [->|]; by split_and!.
Qed.
Lemma ensure_flushMask_run o d :
  looks_ o d -> runs ensure_flushMask o (fun _ o' => looks_ o' d /\ has_mask o').
Proof.
  intros Hl. unfold ensure_flushMask. apply runs_bind, runs_get. pose proof (lk_unfl _ _ _ Hl) as Hu.
  pose proof (lk_size _ _ _ Hl) as Hs.
  destruct (flushMask o) as [b|] eqn:E; [apply runs_ret; split; [done|by eexists]|].
  apply runs_modify. split; [|by eexists]. destruct Hl. split; try done. cbn [set_flushMask flushMask]. rewrite Hs.
  eapply mask_ext; [by apply mask_new|]. intros i Hi. by rewrite Hu.
Qed.

(** The loop of [flushRangeForRead]: the bytes from [off] on are in the updates. *)
Lemma flush_read_run k : forall off o d,
  0 <= off -> off + Z.of_nat k <= n -> looks_ o d -> inv_ d -> has_mask o ->
  runs (flush_read_from k off) o (fun _ o' => exists d', looks_ o' d' /\ inv_ d' /\
    (forall j, inside j -> content_ d' j = content_ d j) /\
    (forall j, inside j -> du d j = false \/ off <= j < off + Z.of_nat k -> du d' j = false)).
Proof.
  induction k as [|k IH]; intros off o d Ho Hk Hl Hd [b Hm].
  { apply runs_ret. exists d. split_and!; [done..|]. intros j Hj [|]; [done|lia]. }
  cbn [flush_read_from]. eapply runs_step; [apply (isByteFlushed_run n); [lia|done]|]. intros f o' [-> ->].
  assert (Hstep : runs (if negb (du d off) then mret tt else flush_byte off;; unset_flush off) o
    (fun _ o' => exists d', looks_ o' d' /\ inv_ d' /\ has_mask o' /\
      (forall j, inside j -> content_ d' j = content_ d j) /\
      (forall j, inside j -> du d j = false \/ j = off -> du d' j = false))).
  { destruct (du d off) eqn:Hu; simpl.
    - eapply runs_step; [apply flush_byte_run; (done || lia)|]. intros _ o1 (e & Ec & L1 & Em).
      destruct (inv_flush n Hn init d off e Hd) as (I1 & C1 & F1); [lia|done|done|].
      eapply runs_mono; [eapply (unset_flush_run n); [lia|exact L1|by rewrite Em]|].
      intros _ o2 [L2 M2]. eexists. split; [exact L2|]. split_and!; [|done|done|].
      + apply inv_unset; [done|lia|]. rewrite C1 by lia. done.
      + intros j Hj Hor. simpl. unfold upd. destruct (Z.eqb_spec j off); [done|]. by destruct Hor.
    - apply runs_ret. exists d. split_and!; [done|done|by exists b|done|]. intros j Hj [ | ->]; done. }
  eapply runs_step; [exact Hstep|]. intros _ o1 (d1 & L1 & I1 & M1 & C1 & U1).
  eapply runs_mono; [apply IH; [lia|lia|exact L1|exact I1|exact M1]|].
  intros _ o2 (d2 & L2 & I2 & C2 & U2). exists d2. split_and!; [done|done| |].
  - intros j Hj. by rewrite C2, C1.
  - intros j Hj Hor. apply U2; [done|]. destruct (decide (off + 1 <= j < off + 1 + Z.of_nat k)); [by right|left].
    apply U1; [done|]. destruct Hor; [by left|right; lia].
Qed.

(** A byte that is only in the updates. *)
Definition clean (d : desc) (j : Z) : Prop := du d j = false /\ dc d j = false /\ dk d j = None.
(** What a step of [flushRangeForWrite] does. *)
Definition cleaned (d : desc) (i : Z) (o' : ObjectState) : Prop :=
  exists d', looks_ o' d' /\ inv_ d' /\ has_mask o' /\ (forall j, inside j -> content_ d' j = content_ d j) /\
    (forall j, inside j -> clean d j \/ j = i -> clean d' j).
Lemma clean_forget d i j :
  clean d j \/ j = i ->
  clean (with_u (upd (du d) i false) (with_k (upd (dk d) i None) (with_c (upd (dc d) i false) d))) j.
Proof. unfold clean. simpl. unfold upd. destruct (Z.eqb_spec j i); [done|]. by intros [|]. Qed.

Lemma forget_flushed_run o d i :
  looks_ o d -> inv_ d -> has_mask o -> inside i -> du d i = false -> runs (forget_byte i) o (fun _ => cleaned d i).
Proof.
  intros Hl Hd [b Hm] Hi Hu. eapply runs_mono; [by apply forget_byte_run|]. intros _ o1 [L1 Em].
  destruct (decide (dc d i = true \/ dk d i <> None)) as [Hc|Hc].
  - destruct (inv_forget n init d i Hd Hi (inv_agree _ _ d Hd i Hi Hu Hc)) as [I2 C2].
    eexists. split; [|split; [exact I2|]].
    + eapply looks_ext; [exact L1|]. split; [|done]. intros j Hj. simpl. split_and!; [done| |done..].
      unfold upd. by destruct (Z.eqb_spec j i) as [->|].
    + split_and!; [by exists b; rewrite Em|done|]. intros j Hj. apply clean_forget.
  - assert (Hcl : dc d i = false /\ dk d i = None).
    { destruct (dc d i); [by destruct Hc; left|]. destruct (dk d i); [by destruct Hc; right|done]. }
    destruct Hcl as [Hc1 Hc2]. exists d. split_and!; [|done|by exists b; rewrite Em|done|by intros j Hj [ | ->]].
    eapply looks_ext; [exact L1|]. split; [|done]. intros j Hj. simpl. unfold upd.
    destruct (Z.eqb_spec j i) as [->|]; by split_and!.
Qed.
Lemma flush_forget_run o d i :
  looks_ o d -> inv_ d -> has_mask o -> inside i -> du d i = true ->
  runs (flush_byte i;; forget_byte i;; unset_flush i) o (fun _ => cleaned d i).
Proof.
  intros Hl Hd [b Hm] Hi Hu. eapply runs_step; [by apply flush_byte_run|]. intros _ o1 (e & Ec & L1 & Em).
  destruct (inv_flush n Hn init d i e Hd Hi Hu Ec) as (I1 & C1 & F1).
  eapply runs_step; [by apply forget_byte_run|]. intros _ o2 [L2 Em2].
  eapply runs_mono; [eapply (unset_flush_run n); [lia|exact L2|by rewrite Em2, Em]|].
  intros _ o3 [L3 M3]. eexists. split; [exact L3|].
  destruct (inv_forget n init _ i I1 Hi) as [I2 C2]; [by rewrite C1|]. split_and!; [done|done| |].
  - intros j Hj. rewrite <- C1 by done. by apply C2.
  - intros j Hj. apply clean_forget.
Qed.
Lemma flush_write_run k : forall off o d,
  0 <= off -> off + Z.of_nat k <= n -> looks_ o d -> inv_ d -> has_mask o ->
  runs (flush_write_from k off) o (fun _ o' => exists d', looks_ o' d' /\ inv_ d' /\
    (forall j, inside j -> content_ d' j = content_ d j) /\
    (forall j, inside j -> clean d j \/ off <= j < off + Z.of_nat k -> clean d' j)).
Proof.
  induction k as [|k IH]; intros off o d Ho Hk Hl Hd Hm.
  { apply runs_ret. exists d. split_and!; [done..|]. intros j Hj [|]; [done|lia]. }
  cbn [flush_write_from]. eapply runs_step; [apply (isByteFlushed_run n); [lia|done]|]. intros f o' [-> ->].
  eapply (runs_step _ _ _ (fun _ => cleaned d off)).
  { destruct (du d off) eqn:Hu; [apply flush_forget_run|apply forget_flushed_run]; (done || lia). }
  intros _ o1 (d1 & L1 & I1 & M1 & C1 & U1).
  eapply runs_mono; [apply IH; [lia|lia|exact L1|exact I1|exact M1]|].
  intros _ o2 (d2 & L2 & I2 & C2 & U2). exists d2. split_and!; [done|done| |].
  - intros j Hj. by rewrite C2, C1.
  - intros j Hj Hor. apply U2; [done|]. destruct (decide (off + 1 <= j < off + 1 + Z.of_nat k)); [by right|left].
    apply U1; [done|]. destruct Hor; [by left|right; lia].
Qed.

(** ** The array behind the updates *)
Abbreviation value_ := (nodes_value init).

Lemma extend_all_app un l l' : extend_all un (l ++ l') = extend_all (extend_all un l) l'.
Proof. revert un. induction l as [|[i v] l IH]; intros un; [done|]. simpl. apply IH. Qed.
Lemma extend_writes un : extend_all Null (writes un) = un.
Proof. induction un as [|next IH i v]; [done|]. simpl. by rewrite extend_all_app, IH. Qed.
(** Updates after others. *)
Lemma value_extend_all base un l i : value_ base (extend_all un l) i = value_ (value_ base un) (extend_all Null l) i.
Proof.
  revert base un. induction l as [|[x v] l IH]; intros base un; [done|]. cbn [extend_all].
  rewrite IH, (IH _ (UpdateNode Null x v)). by apply nodes_value_ext.
Qed.

(** The writes are typed, the constant ones inside. *)
Definition writes_ok (l : list (expr * expr)) : Prop :=
  Forall (fun p => width_ok p.1 = true /\ width_ok p.2 = true /\ getWidth p.1 = 32 /\ getWidth p.2 = 8 /\
    match p with (Constant _ i, Constant _ _) => inside i | _ => True end) l.
Lemma writes_typed un : typed un = true -> MemoryOk.inside n un -> writes_ok (writes un).
Proof.
  induction un as [|next IH i v]; [intros; constructor|]. cbn [typed writes]. intros Ht Hin. split_ok.
  apply Forall_app. split.
  - apply IH; [done|]. destruct i; try exact Hin. destruct v; try exact Hin. apply Hin.
  - constructor; [|constructor]. cbn [fst snd]. split_and!; [done..|]. destruct i; try exact I. destruct v; try exact I. apply Hin.
Qed.
Lemma extend_typed l un : writes_ok l -> typed un = true -> typed (extend_all un l) = true.
Proof.
  revert un. induction l as [|[i v] l IH]; intros un Hl Hu; [done|]. apply Forall_cons_iff in Hl as [(A & B & C & D & _) Hl].
  cbn [extend_all]. apply IH; [done|]. cbn [fst snd] in *. simpl. by rewrite Hu, A, B, C, D.
Qed.

(** Pulling off constant writes does not change the cells. *)
Lemma pull_ok l : forall C f,
  array_is n C f -> (forall i, inside i -> 0 <= f i < 256) -> writes_ok l ->
  exists C' f' l', pull C l = Ret (C', l') /\ array_is n C' f' /\ (forall i, inside i -> 0 <= f' i < 256) /\ writes_ok l' /\
    forall i, inside i ->
      value_ (fun i => Some (f' i)) (extend_all Null l') i = value_ (fun i => Some (f i)) (extend_all Null l) i.
Proof.
  induction l as [|[x v] l IH]; intros C f HC Hf Hl; [by exists C, f, []|].
  assert (Hstop : exists C' f' l', Ret (C, (x, v) :: l) = Ret (C', l') /\ array_is n C' f' /\
    (forall i, inside i -> 0 <= f' i < 256) /\ writes_ok l' /\
    forall i, inside i -> value_ (fun i => Some (f' i)) (extend_all Null l') i =
      value_ (fun i => Some (f i)) (extend_all Null ((x, v) :: l)) i) by (by exists C, f, ((x, v) :: l)).
  destruct x as [wx x| | | | | | | | |]; try exact Hstop. destruct v as [wv v| | | | | | | | |]; try exact Hstop. clear Hstop.
  apply Forall_cons_iff in Hl as [(A & B & _ & D & E) Hl]. cbn [fst snd getWidth] in *.
  apply constant_inv in B as [_ B]. subst wv. destruct (set_cell_is n C f x v HC E) as (C1 & E1 & HC1).
  cbn [pull]. rewrite E1. cbn [mbind result_bind].
  destruct (IH C1 (upd f x v) HC1) as (C' & f' & l' & P1 & P2 & P3 & P4 & P5); [|done|].
  { intros i Hi. unfold upd. destruct (i =? x); [done|by apply Hf]. }
  exists C', f', l'. split_and!; [done..|]. intros i Hi. rewrite P5 by done. cbn [extend_all].
  rewrite (value_extend_all _ (UpdateNode Null (Constant wx x) (Constant 8 v))). apply nodes_value_ext.
  simpl. unfold upd. by destruct (i =? x).
Qed.

Lemma const_array_ok id C f :
  array_is n C f -> (forall i, inside i -> 0 <= f i < 256) ->
  let a := Array id ("const_arr" +:+ pretty id) n 32 8 C in
  array_ok a = true /\ forall i, inside i -> initial init a i = Some (f i).
Proof.
  intros [Hl Hf] Hb a. split.
  - unfold array_ok, a. cbn [domain range size constantValues isSymbolicArray].
    assert (forallb (fits 8) C = true) as ->.
    { apply forallb_forall. intros x Hx. apply list_elem_of_In, list_elem_of_lookup in Hx as [j Hj].
      pose proof (lookup_lt_Some _ _ _ Hj). specialize (Hf (Z.of_nat j) ltac:(lia)). rewrite Nat2Z.id in Hf.
      apply fits_iff. replace x with (f (Z.of_nat j)) by congruence. apply Hb. lia. }
    rewrite (proj2 (Z.leb_le 0 n)), (proj2 (Z.leb_le n (2 ^ 32))), (proj2 (Z.ltb_lt n (2 ^ 32))), (proj2 (Z.eqb_eq _ _) Hl) by lia.
    by rewrite orb_true_r.
  - intros i Hi. unfold initial, a, isConstantArray, isSymbolicArray. cbn [constantValues size].
    destruct C as [|c C]; [simpl in Hl; lia|]. rewrite (proj2 (Z.ltb_lt i n)) by lia. simpl. by apply Hf.
Qed.

Lemma getUpdates_run id o d :
  looks_ o d -> inv_ d ->
  runs (getUpdates id) o (fun u o' => exists d', looks_ o' d' /\ inv_ d' /\ dr d' = Some u.1 /\ dh d' = u.2 /\
    (forall i, inside i -> flushed_ d' i = flushed_ d i /\ content_ d' i = content_ d i)).
Proof.
  intros Hl Hd. unfold getUpdates. apply runs_bind, runs_get. pose proof (lk_root _ _ _ Hl) as Hr.
  pose proof (lk_head _ _ _ Hl) as Hh. destruct (root o) as [a|] eqn:E.
  { apply runs_ret. exists d. by split_and!. }
  destruct (pull_ok (writes (head o)) (zeros (osize o)) (fun _ => 0)) as (C & f & l & P1 & P2 & P3 & P4 & P5).
  { rewrite (lk_size _ _ _ Hl). by apply replicate_is. }
  { lia. }
  { rewrite Hh. apply writes_typed; [apply Hd|by apply (inv_inside _ _ d Hd)]. }
  apply runs_bind. eapply runs_lift; [exact P1|]. cbn [fst snd]. rewrite (lk_size _ _ _ Hl).
  destruct (const_array_ok id C f P2 P3) as [Ha Hv].
  set (a := Array id ("const_arr" +:+ pretty id) n 32 8 C) in *. apply runs_bind, runs_assert.
  { apply forallb_forall. intros [i v] Hin. unfold writes_ok in P4. rewrite Forall_forall in P4.
    apply list_elem_of_In in Hin. destruct (P4 _ Hin) as (_ & _ & A & B & _). cbn [fst snd] in *. unfold extend_ok, a. by rewrite A, B. }
  apply runs_bind, runs_modify, runs_ret.
  exists (with_r (Some a) (extend_all Null l) d).
  assert (Hf : forall i, inside i -> flushed_ (with_r (Some a) (extend_all Null l) d) i = flushed_ d i).
  { intros i Hi. unfold flushed. simpl. rewrite (nodes_value_ext init _ (fun i => Some (f i)) _ i (Hv i Hi)), P5 by done.
    rewrite extend_writes, Hh. apply nodes_value_ext. unfold base. by rewrite <- Hr. }
  assert (Hc : forall i, inside i -> content_ (with_r (Some a) (extend_all Null l) d) i = content_ d i).
  { intros i Hi. unfold content. simpl. destruct (dc d i); [done|]. destruct (dk d i); [done|by apply Hf]. }
  split; [by destruct Hl|]. split; [|split_and!; [done|done|]; intros i Hi; split; [by apply Hf|by apply Hc]].
  destruct Hd as [H1 H2 H3 H4 H5 H6 H7]. split; try done.
  - intros a' [= <-]. done.
  - by apply extend_typed.
  - intros i Hi Hu Hck. rewrite Hf, Hc by done. by apply H7.
Qed.

(** ** Bytes *)

(** The object holds the bytes [mem]. *)
Definition represents (o : ObjectState) (mem : Z -> option Z) : Prop :=
  exists d, looks_ o d /\ inv_ d /\ forall i, inside i -> content_ d i = mem i.
(** An expression of [w] bits that has the value [v], if there is one. *)
Definition denotes (e : expr) (w : Z) (v : option Z) : Prop :=
  width_ok e = true /\ getWidth e = w /\ forall x, v = Some x -> eval init e = Some x.

Lemma represents_ext o mem mem' : represents o mem -> (forall i, inside i -> mem i = mem' i) -> represents o mem'.
Proof. intros (d & L & I & C) H. exists d. split_and!; [done|done|]. intros i Hi. by rewrite C, H. Qed.

(** Reading the updates. *)
Lemma create_Read_denotes d a h index i :
  inv_ d -> dr d = Some a -> dh d = h -> width_ok index = true -> getWidth index = 32 -> eval init index = Some i ->
  exists e, create_Read opt a h index = Ret e /\ denotes e 8 (flushed_ d i).
Proof.
  intros Hd Hr Hh Hx Hw Hv. destruct (inv_root _ _ d Hd a Hr) as (Ha & Hdom & Hrng).
  destruct (create_Read_impl opt init (proj1 Hadm) (proj2 Hadm) a h index) as (e & E & He & We & Re).
  { simpl. rewrite Ha, Hx, Hw, Hdom, <- Hh, typed_nodes; [done|done|done|apply Hd]. }
  exists e. split; [done|]. split_and!; [done|by rewrite We|]. intros x Hx'. apply Re. simpl. rewrite Hv. simpl.
  rewrite eval_updates_value. unfold flushed, base in Hx'. by rewrite Hr, Hh in Hx'.
Qed.

Lemma read8_run id i o mem :
  represents o mem -> inside i ->
  runs (read8 opt id i) o (fun e o' => represents o' mem /\ denotes e 8 (mem i)).
Proof.
  intros (d & L & Hd & C) Hi. unfold read8. eapply runs_step; [by apply (isByteConcrete_run n)|]. intros c o' [-> ->].
  pose proof (C i Hi) as Ci. unfold content in Ci. destruct (dc d i) eqn:Hc.
  - apply runs_bind, runs_get. apply runs_bind. eapply runs_lift; [apply (cell_is n _ _ i (lk_store _ _ _ L) Hi)|].
    apply runs_ret. split; [by exists d|]. split_and!; [|done|by rewrite <- Ci].
    apply constant_ok; [lia|]. by apply (inv_byte _ _ d Hd).
  - eapply runs_step; [by apply (known_run n)|]. intros k o' [-> ->]. destruct (dk d i) as [e|] eqn:Ek.
    + apply runs_ret. split; [by exists d|]. destruct (inv_known _ _ d Hd i e Hi Ek) as (_ & He & Hw).
      split_and!; [done|done|by rewrite <- Ci].
    + eapply runs_step; [by apply (isByteFlushed_run n)|]. intros f o' [-> ->].
      apply runs_bind, runs_assert.
      { destruct (du d i) eqn:Hu; [|done]. destruct (inv_cached _ _ d Hd i Hi Hu); congruence. }
      eapply runs_step; [by apply getUpdates_run|]. intros [a h] o1 (d1 & L1 & I1 & R1 & H1 & F1). cbn [fst snd] in *.
      destruct (create_Read_denotes d1 a h (Constant 32 i) i I1 R1 H1) as (e & E & He);
        [apply constant_ok; lia|done|done|].
      eapply runs_lift; [exact E|]. destruct (F1 i Hi) as [Fi _]. rewrite Fi, Ci in He. split; [|done].
      exists d1. split_and!; [done|done|]. intros j Hj. destruct (F1 j Hj) as [_ ->]. by apply C.
Qed.

Lemma read8_expr_run id offset i o mem :
  represents o mem -> isConstant offset = false -> width_ok offset = true -> getWidth offset = 32 ->
  eval init offset = Some i -> inside i ->
  runs (read8_expr opt id offset) o (fun e o' => represents o' mem /\ denotes e 8 (mem i)).
Proof.
  intros (d & L & Hd & C) Hc Ho Hw Hv Hi. unfold read8_expr. apply runs_bind, runs_assert; [by rewrite Hc|].
  unfold fastRangeCheckOffset. apply runs_bind, runs_bind, runs_get, runs_ret. cbn [fst snd]. rewrite (lk_size _ _ _ L).
  unfold flushRangeForRead. apply runs_bind. eapply runs_step; [by apply ensure_flushMask_run|]. intros _ o1 [L1 M1].
  eapply runs_mono; [apply (flush_read_run (Z.to_nat n) 0 o1 d); (done || lia)|]. intros _ o2 (d2 & L2 & I2 & C2 & U2).
  eapply runs_step; [by apply getUpdates_run|]. intros [a h] o3 (d3 & L3 & I3 & R3 & H3 & F3). cbn [fst snd] in *.
  apply runs_bind. apply (runs_lift _ _ _ offset); [by unfold create_ZExt; rewrite Hw|].
  destruct (create_Read_denotes d3 a h offset i I3 R3 H3 Ho Hw Hv) as (e & E & He). eapply runs_lift; [exact E|]. split.
  - exists d3. split_and!; [done|done|]. intros j Hj. destruct (F3 j Hj) as [_ ->]. by rewrite C2, C.
  - destruct (F3 i Hi) as [Fi _]. rewrite Fi in He. assert (Hfc : flushed_ d2 i = content_ d2 i).
    { assert (Hu : du d2 i = false) by (apply U2; [done|right; lia]).
      destruct (dc d2 i) eqn:E1; [apply (inv_agree _ _ d2 I2); [done|done|by left]|].
      destruct (dk d2 i) as [k|] eqn:E2; [apply (inv_agree _ _ d2 I2); [done|done|by right; rewrite E2]|].
      unfold content. by rewrite E1, E2. }
    by rewrite Hfc, C2, C in He.
Qed.

Lemma write8_run i v o mem :
  represents o mem -> inside i -> 0 <= v < 256 ->
  runs (write8 i v) o (fun _ o' => represents o' (upd mem i (Some v))).
Proof.
  intros (d & L & Hd & C) Hi Hv. unfold write8. apply runs_bind, runs_get.
  destruct (set_cell_is n _ _ i v (lk_store _ _ _ L) Hi) as (l & El & Hl). apply runs_bind. eapply runs_lift; [exact El|].
  apply runs_bind, runs_modify.
  assert (L1 : looks_ (set_store l o) (with_s (upd (ds d) i v) d)) by (by destruct L).
  eapply runs_step; [by apply (setKnownSymbolic_run n)|]. intros _ o2 [L2 _].
  eapply runs_step; [by apply (markByteConcrete_run n)|]. intros [] o3 L3.
  eapply runs_mono; [by apply (markByteUnflushed_run n)|]. intros [] o4 L4.
  destruct (inv_write8 n init d i v Hd Hi Hv) as [I4 C4].
  eexists. split; [exact L4|]. split; [exact I4|]. intros j Hj. etransitivity; [apply C4|]. unfold upd.
  destruct (j =? i); [done|by apply C].
Qed.
Lemma write8_value_run i e o mem :
  represents o mem -> inside i -> width_ok e = true -> getWidth e = 8 ->
  runs (write8_value i e) o (fun _ o' => represents o' (upd mem i (eval init e))).
Proof.
  intros Hr Hi He Hw. unfold write8_value. destruct (isConstant e) eqn:Hc.
  { destruct e as [w v| | | | | | | | |]; try done. apply constant_inv in He as [_ He]. simpl in Hw. subst w.
    change (2 ^ 8) with 256 in He. rewrite u8_small by done. by apply write8_run. }
  assert (Hrun : runs (setKnownSymbolic i (Some e);; markByteSymbolic i;; markByteUnflushed i) o
    (fun _ o' => represents o' (upd mem i (eval init e)))).
  { destruct Hr as (d & L & Hd & C). eapply runs_step; [by apply (setKnownSymbolic_run n)|]. intros _ o2 [L2 _].
    eapply runs_step; [by apply (markByteSymbolic_run n)|]. intros _ o3 [L3 _].
    eapply runs_mono; [by apply (markByteUnflushed_run n)|]. intros [] o4 L4.
    destruct (inv_write8_value n init d i e Hd Hi He Hw) as [I4 C4].
    eexists. split; [exact L4|]. split; [exact I4|]. intros j Hj. etransitivity; [apply C4|]. unfold upd.
    destruct (j =? i); [done|by apply C]. }
  destruct e; done.
Qed.
Lemma write8_expr_run offset i e o mem :
  represents o mem -> isConstant offset = false -> width_ok offset = true -> getWidth offset = 32 ->
  eval init offset = Some i -> width_ok e = true -> getWidth e = 8 ->
  runs (write8_expr offset e) o (fun _ o' => represents o' (upd mem i (eval init e))).
Proof.
  intros (d & L & Hd & C) Hc Ho Hw Hv He We. unfold write8_expr. apply runs_bind, runs_assert; [by rewrite Hc|].
  unfold fastRangeCheckOffset. apply runs_bind, runs_bind, runs_get, runs_ret. cbn [fst snd]. rewrite (lk_size _ _ _ L).
  unfold flushRangeForWrite. apply runs_bind. eapply runs_step; [by apply ensure_flushMask_run|]. intros _ o1 [L1 M1].
  eapply runs_mono; [apply (flush_write_run (Z.to_nat n) 0 o1 d); (done || lia)|]. intros _ o2 (d2 & L2 & I2 & C2 & U2).
  apply runs_bind. apply (runs_lift _ _ _ offset); [by unfold create_ZExt; rewrite Hw|].
  eapply runs_mono; [apply (extend_run n); [done|by apply (inv_extend n init)]|]. intros _ o3 [L3 _].
  assert (Hcl : forall j, inside j -> clean d2 j) by (intros j Hj; apply U2; [done|right; lia]).
  eexists. split; [exact L3|]. split.
  - destruct I2 as [H1 H2 H3 H4 H5 H6 H7]. split; try done; simpl.
    + by rewrite H5, Ho, Hw, He, We.
    + intros Hr. destruct offset; (done || by apply H6).
    + intros j Hj _ Hck. destruct (Hcl j Hj) as (_ & A & B). rewrite A, B in Hck. by destruct Hck.
  - intros j Hj. destruct (Hcl j Hj) as (_ & A & B). unfold content. simpl. rewrite A, B. unfold flushed. simpl.
    rewrite Hv. simpl. unfold upd. destruct (j =? i); [done|]. rewrite <- C, <- C2 by done. unfold content. by rewrite A, B.
Qed.
End Bytes.
End MemoryBytes.
