(* ===== verification/MemoryMain.v ===== *)
(** * Objects of the executor's memory: reading and writing values

    Reads and writes of any width, at concrete and symbolic offsets, are those of an array
    of bytes in the byte order of the target, for every content of the symbolic arrays. *)
From stdpp Require Import base gmap list strings numbers pretty.
From Stdlib Require Import ZArith Lia.
From S2P Require Import Prelude ExprData ExprFacts ExprCreate ExprSound ExprMain BitArray Memory MemoryOk MemoryBytes.

Module MemoryMain.
Import Expr ExprFacts Create Sound ExprMain Memory MemoryOk MemoryBytes.

(** ** Memory as bytes *)
Section Bytes.
Context (isLittleEndian : bool).

(** The value of [k] bytes from the [i]-th on, the [i]-th the lowest; [addr] has their places. *)
Fixpoint gather (mem : Z -> option Z) (addr : Z -> Z) (k : nat) (i : Z) : option Z :=
  match k with
  | O => Some 0
  | S k => b ← mem (addr i); r ← gather mem addr k (i + 1); Some (b + 256 * r)
  end.
Fixpoint scatter (mem : Z -> option Z) (addr : Z -> Z) (x : Z) (k : nat) (i : Z) : Z -> option Z :=
  match k with
  | O => mem
  | S k => scatter (upd mem (addr i) (Some ((x / 2 ^ (8 * i)) `mod` 2 ^ 8))) addr x k (i + 1)
  end.
Definition bytes (w : Z) : Z := if w =? 1 then 1 else w / 8.
Definition places (a N i : Z) : Z := a + byte_index isLittleEndian N i.

(** A load and a store of [w] bits at [a]; a truth value takes a byte. *)
Definition load (mem : Z -> option Z) (a w : Z) : option Z :=
  if w =? 1 then b ← mem a; Some (b `mod` 2) else gather mem (places a (w / 8)) (Z.to_nat (w / 8)) 0.
Definition store (mem : Z -> option Z) (a w x : Z) : Z -> option Z :=
  if w =? 1 then upd mem a (Some x) else scatter mem (places a (w / 8)) x (Z.to_nat (w / 8)) 0.
(** The widths of values in memory. *)
Definition width_in_memory (w : Z) : Prop := w = 1 \/ (0 < w /\ w `mod` 8 = 0).

(** *** What was stored can be loaded *)
Lemma scatter_other mem addr x k i j :
  (forall l, i <= l < i + Z.of_nat k -> addr l <> j) -> scatter mem addr x k i j = mem j.
Proof.
  revert mem i. induction k as [|k IH]; intros mem i H; [done|]. cbn [scatter]. rewrite IH by (intros l Hl; apply H; lia).
  apply upd_other. intros ->. apply (H i); [lia|done].
Qed.
Lemma gather_ext mem mem' addr k i :
  (forall l, i <= l < i + Z.of_nat k -> mem (addr l) = mem' (addr l)) -> gather mem addr k i = gather mem' addr k i.
Proof.
  revert i. induction k as [|k IH]; intros i H; [done|]. cbn [gather]. rewrite H, (IH (i + 1)) by (intros; try apply H; lia). done.
Qed.
Lemma gather_scatter mem addr x k i :
  0 <= i -> (forall l l', i <= l < i + Z.of_nat k -> i <= l' < i + Z.of_nat k -> addr l = addr l' -> l = l') ->
  gather (scatter mem addr x k i) addr k i = Some ((x / 2 ^ (8 * i)) `mod` 2 ^ (8 * Z.of_nat k)).
Proof.
  revert mem i. induction k as [|k IH]; intros mem i Hi Hinj; [by rewrite Z.mod_1_r|]. cbn [gather scatter].
  rewrite scatter_other, upd_same by (intros l Hl E; apply Hinj in E; lia). cbn [mbind option_bind].
  rewrite IH; [|lia|intros l l' Hl Hl'; apply Hinj; lia]. cbn [mbind option_bind]. f_equal.
  replace (8 * (i + 1)) with (8 * i + 8) by lia. rewrite Z.pow_add_r, <- Z.div_div by lia.
  set (y := x / 2 ^ (8 * i)). replace (8 * Z.of_nat (S k)) with (8 + 8 * Z.of_nat k) by lia.
  rewrite Z.pow_add_r, Z.rem_mul_r by lia. done.
Qed.
Lemma places_inj a N l l' : 0 <= l < N -> 0 <= l' < N -> places a N l = places a N l' -> l = l'.
Proof. unfold places, byte_index. destruct isLittleEndian; lia. Qed.
Lemma places_range a N l : 0 <= l < N -> a <= places a N l < a + N.
Proof. unfold places, byte_index. destruct isLittleEndian; lia. Qed.
Lemma width_bytes w : width_in_memory w -> w <> 1 -> 0 < w / 8 /\ w = w / 8 * 8.
Proof. intros [|[H1 H2]] Hne; [done|]. pose proof (Z.div_mod w 8 ltac:(lia)). split; [|lia]. apply Z.div_str_pos. pose proof (Z.div_pos w 8). lia. Qed.

Lemma load_store mem a w x :
  width_in_memory w -> 0 <= x < 2 ^ w -> load (store mem a w x) a w = Some x.
Proof.
  intros Hw Hx. unfold load, store. destruct (Z.eqb_spec w 1) as [->|Hne].
  - rewrite upd_same. simpl. by rewrite Z.mod_small.
  - destruct (width_bytes w Hw Hne) as [Hp He].
    rewrite gather_scatter; [|done|intros l l' Hl Hl'; apply places_inj; lia].
    rewrite Z.div_1_r, Z.mod_small; [done|]. rewrite Z2Nat.id by lia. replace (8 * (w / 8)) with w by lia. done.
Qed.
Lemma store_other mem a w x j :
  width_in_memory w -> j < a \/ a + bytes w <= j -> store mem a w x j = mem j.
Proof.
  intros Hw Hj. unfold store, bytes in *. destruct (Z.eqb_spec w 1) as [->|Hne]; [apply upd_other; lia|].
  destruct (width_bytes w Hw Hne) as [Hp _]. apply scatter_other. intros l Hl E.
  pose proof (places_range a (w / 8) l ltac:(lia)). lia.
Qed.
End Bytes.

(** ** Sums that stay symbolic *)

(** Constructed sums have at most one constant, on the left: [AddExpr::create] of such a
    symbolic expression and a constant is not a constant. *)
Fixpoint variable_sum (e : expr) : bool :=
  match e with
  | Constant _ _ => false
  | Binary Add (Constant _ _) x | Binary Sub (Constant _ _) x => variable_sum x
  | _ => true
  end.
Section Sums.
Context {ap : APInt} {ap_ok : APIntOk} (opt : bool).

Lemma variable_not_constant e : variable_sum e = true -> isConstant e = false.
Proof. by destruct e. Qed.
Lemma with_const_variable k f w v e x :
  variable_sum e = true -> (f w v e = Ret x -> isConstant x = false) ->
  with_const k f w v e = Ret x -> isConstant x = false.
Proof. intros He Hf. unfold with_const. destruct (negb _); [done|]. by destruct e. Qed.
Lemma partial_variable e : forall w v x, w <> 1 -> variable_sum e = true ->
  AddExpr_createPartialR opt w v e = Ret x \/ SubExpr_createPartialR opt w v e = Ret x -> isConstant x = false.
Proof.
  induction e as [| | | | | | | | |k l _ r IHr]; intros w v x Hw He;
    cbn [AddExpr_createPartialR SubExpr_createPartialR]; rewrite (proj2 (Z.eqb_neq w 1) Hw); try done.
  all: try (destruct (v =? 0); by intros [[= <-]|[= <-]]).
  assert (Hplain : Ret (Binary Add (Constant w v) (Binary k l r)) = Ret x \/ Ret (Binary Sub (Constant w v) (Binary k l r)) = Ret x ->
    isConstant x = false) by (by intros [[= <-]|[= <-]]).
  assert (Hwc : variable_sum r = true -> forall k' w' s, w' <> 1 ->
    (with_const k' (AddExpr_createPartialR opt) w' s r = Ret x \/ with_const k' (SubExpr_createPartialR opt) w' s r = Ret x) ->
    isConstant x = false).
  { intros Hr k' w' s Hw' [H|H]; (eapply with_const_variable; [exact Hr| |exact H]); intros H'; eapply IHr; eauto. }
  assert (Hz : forall y z, (if v =? 0 then Ret (Binary k l r) else y) = Ret x \/ z = Ret x ->
    Ret (Binary k l r) = Ret x \/ y = Ret x \/ z = Ret x) by (intros y z; destruct (v =? 0); tauto).
  intros H. apply Hz in H as [[= <-]|H]; [done|]. clear Hz.
  destruct k; try (by apply Hplain). all: destruct l; try (by apply Hplain).
  all: cbn [variable_sum] in He; destruct H as [H|H].
  all: match type of H with (const_pair ?k ?a ?b ?c ?d ≫= _) = _ => destruct (const_pair k a b c d); [|done] end.
  all: cbn [mbind result_bind] in H; eapply (Hwc He); eauto.
Qed.
Lemma create_Add_variable e w v x :
  w <> 1 -> variable_sum e = true -> create_Add opt e (Constant w v) = Ret x -> isConstant x = false.
Proof.
  intros Hw He. unfold create_Add, create_Add_n, bcreate_r. destruct (negb _); [done|]. intros H.
  eapply partial_variable; [exact Hw|exact He|left]. unfold AddExpr_createPartial in H. by destruct e.
Qed.
End Sums.

(** ** Loops over bytes *)
Section Values.
Context {ap : APInt} {ap_ok : APIntOk} (opt : bool).
Context (init : array -> Z -> option Z) (Hadm : admissible opt init).
Context (n : Z) (Hn : 0 <= n < 2 ^ 32).
Context (id : Z) (isLittleEndian : bool).

Abbreviation represents_ := (represents init n).
Abbreviation denotes_ := (denotes init).
Abbreviation index := (byte_index isLittleEndian).
Abbreviation places_ := (places isLittleEndian).

Lemma index_range N i : 0 <= i < N -> 0 <= index N i < N.
Proof. unfold byte_index. destruct isLittleEndian; lia. Qed.

Section Loops.
(** [N] bytes from [a] on, and a way to reach each of them. *)
Context (a N : Z).

(** What is read so far, and the rest. *)
Definition join (i : Z) (low high : option Z) : option Z := l ← low; h ← high; Some (l + 2 ^ (8 * i) * h).
Lemma concat_join b low i bv lv rest :
  0 <= i -> denotes_ b 8 bv -> denotes_ low (8 * i) lv ->
  exists e, create_Concat b low = Ret e /\ denotes_ e (8 * (i + 1)) (l ← lv; x ← bv; Some (l + 2 ^ (8 * i) * x)) /\
    join (i + 1) (l ← lv; x ← bv; Some (l + 2 ^ (8 * i) * x)) rest = join i lv (x ← bv; r ← rest; Some (x + 256 * r)).
Proof.
  intros Hi (Hb & Wb & Vb) (Hl & Wl & Vl).
  destruct (create_Concat_impl init (proj1 Hadm) b low Hb Hl) as (e & E & He & We & Re). exists e. split; [done|]. split.
  - split_and!; [done|rewrite We; simpl; lia|]. intros x Hx. destruct lv as [l|], bv as [y|]; try done. injection Hx as <-.
    apply Re. simpl. rewrite (Vb y), (Vl l) by done. simpl. rewrite Wl. f_equal. lia.
  - unfold join. destruct lv as [l|], bv as [y|], rest as [r|]; try done. simpl. f_equal.
    replace (8 * (i + 1)) with (8 * i + 8) by lia. rewrite Z.pow_add_r by lia. change (2 ^ 8) with 256. lia.
Qed.

Section Read.
Context (mem : Z -> option Z) (byte : Z -> M ObjectState expr).
Context (Hbyte : forall idx o, 0 <= idx < N -> represents_ o mem ->
  runs (byte idx) o (fun e o' => represents_ o' mem /\ denotes_ e 8 (mem (a + idx)))).

Lemma read_from_run k : forall i o low lv,
  0 < i -> i + Z.of_nat k = N -> represents_ o mem -> denotes_ low (8 * i) lv ->
  runs (read_from isLittleEndian byte N k i (Some low)) o (fun r o' => represents_ o' mem /\
    exists e, r = Some e /\ denotes_ e (8 * N) (join i lv (gather mem (places_ a N) k i))).
Proof.
  induction k as [|k IH]; intros i o low lv Hi Hk Hr Hl.
  { apply runs_ret. split; [done|]. exists low. split; [done|]. assert (i = N) as -> by lia.
    destruct Hl as (A & B & C). split_and!; [done|done|]. intros x. unfold join. destruct lv as [l|]; [|done]. simpl.
    intros [= <-]. rewrite (C l) by done. f_equal. lia. }
  cbn [read_from gather]. eapply runs_step; [apply (Hbyte (index N i) o); [apply index_range; lia|done]|].
  intros b o1 [R1 D1]. destruct (concat_join b low i _ lv (gather mem (places_ a N) k (i + 1)) ltac:(lia) D1 Hl) as (e & E & De & J).
  apply runs_bind. eapply runs_lift; [exact E|].
  eapply runs_mono; [apply (IH (i + 1) o1 e); [lia|lia|exact R1|exact De]|].
  intros r o2 (R2 & e2 & -> & D2). split; [done|]. exists e2. split; [done|]. rewrite J in D2. exact D2.
Qed.
Lemma read_bytes_run w o :
  N = w / 8 -> 0 < N -> w = N * 8 -> represents_ o mem ->
  runs (read_bytes isLittleEndian byte w) o (fun e o' => represents_ o' mem /\
    denotes_ e w (gather mem (places_ a N) (Z.to_nat N) 0)).
Proof.
  intros HN Hp He Hr. unfold read_bytes. rewrite <- HN. apply runs_bind, runs_assert; [by apply Z.eqb_eq|].
  destruct (Z.to_nat N) as [|k] eqn:Ek; [lia|]. cbn [read_from gather].
  apply runs_bind. eapply runs_step; [apply (Hbyte (index N 0) o); [apply index_range; lia|done]|]. intros b o1 [R1 D1].
  apply runs_bind, runs_ret. eapply runs_mono; [apply (read_from_run k (0 + 1) o1 b); [lia|lia|exact R1|exact D1]|].
  intros r o2 (R2 & e & -> & D2). apply runs_ret. split; [done|]. destruct D2 as (A & B & C). split_and!; [done|lia|].
  intros x Hx. apply C. rewrite <- Hx. unfold join. change (2 ^ (8 * (0 + 1))) with 256.
  change (mem (places_ a N 0)) with (mem (a + index N 0)).
  by destruct (mem (a + index N 0)), (gather mem (places_ a N) k (0 + 1)).
Qed.
End Read.

Section Write.
Context (value : expr) (x : Z) (Hval : width_ok value = true) (Hx : eval init value = Some x).
Context (byte : Z -> expr -> M ObjectState unit).
Context (Hbyte : forall idx b o mem, 0 <= idx < N -> width_ok b = true -> getWidth b = 8 -> represents_ o mem ->
  runs (byte idx b) o (fun _ o' => represents_ o' (upd mem (a + idx) (eval init b)))).

Lemma write_from_run k : forall i o mem,
  0 <= i -> i + Z.of_nat k = N -> getWidth value = N * 8 -> represents_ o mem ->
  runs (write_from isLittleEndian byte value N k i) o (fun _ o' => represents_ o' (scatter mem (places_ a N) x k i)).
Proof.
  induction k as [|k IH]; intros i o mem Hi Hk Hw Hr; [by apply runs_ret|]. cbn [write_from scatter].
  destruct (create_Extract_impl init (proj1 Hadm) value (8 * i) 8 Hval) as (b & E & Hb & Wb & Rb); [lia|lia|lia|].
  apply runs_bind. eapply runs_lift; [exact E|].
  eapply runs_step; [apply (Hbyte (index N i) b o mem); [apply index_range; lia|done|done|done]|]. intros [] o1 R1.
  apply IH; [lia|lia|done|]. rewrite (Rb ((x / 2 ^ (8 * i)) `mod` 2 ^ 8)) in R1; [exact R1|]. simpl. by rewrite Hx.
Qed.
Lemma write_bytes_run o mem :
  0 < N -> getWidth value = N * 8 -> represents_ o mem ->
  runs (write_bytes isLittleEndian byte value) o (fun _ o' => represents_ o' (scatter mem (places_ a N) x (Z.to_nat N) 0)).
Proof.
  intros Hp Hw Hr. assert (HN : getWidth value / 8 = N) by (rewrite Hw; apply Z.div_mul; lia).
  unfold write_bytes. rewrite HN. apply runs_bind, runs_assert; [by apply Z.eqb_eq|]. apply write_from_run; (done || lia).
Qed.
End Write.
End Loops.

(** ** Values *)
Abbreviation load_ := (load isLittleEndian).
Abbreviation store_ := (store isLittleEndian).

(** The lowest bit of a byte. *)
Lemma low_bit_denotes b bv :
  denotes_ b 8 bv -> exists e, create_Extract b 0 1 = Ret e /\ denotes_ e 1 (x ← bv; Some (x `mod` 2)).
Proof.
  intros (Hb & Wb & Vb). destruct (create_Extract_impl init (proj1 Hadm) b 0 1 Hb) as (e & E & He & We & Re); [lia|lia|lia|].
  exists e. split; [done|]. split_and!; [done|done|]. intros x Hx. destruct bv as [y|]; [|done]. injection Hx as <-.
  apply Re. simpl. rewrite (Vb y) by done. simpl. by rewrite Z.div_1_r.
Qed.
(** A truth value as a byte. *)
Lemma bool_byte value x :
  width_ok value = true -> getWidth value = 1 -> eval init value = Some x ->
  exists b, create_ZExt value 8 = Ret b /\ width_ok b = true /\ getWidth b = 8 /\ eval init b = Some x.
Proof.
  intros Hv Hw Hx. destruct (create_ZExt_impl init (proj1 Hadm) value 8 Hv ltac:(lia)) as (b & E & Hb & Wb & Rb).
  unfold cast_plain in *. rewrite Hw in *. simpl in Wb. exists b. split_and!; [done..|]. by apply Rb.
Qed.

Section At.
Context (a w : Z) (Ha : 0 <= a) (Hw : width_in_memory w) (Hin : a + bytes w <= n).

Lemma byte_in idx : w <> 1 -> 0 <= idx < w / 8 -> u32 (a + idx) = a + idx /\ 0 <= a + idx < n.
Proof.
  intros Hne Hidx. unfold bytes in Hin. rewrite (proj2 (Z.eqb_neq w 1) Hne) in Hin.
  change (2 ^ 32) with 4294967296 in Hn. rewrite u32_small; lia.
Qed.
Lemma first_in : w = 1 -> 0 <= a < n.
Proof. intros ->. unfold bytes in Hin. simpl in Hin. lia. Qed.

Lemma read_at_run o mem :
  represents_ o mem ->
  runs (read_at opt id isLittleEndian a w) o (fun e o' => represents_ o' mem /\ denotes_ e w (load_ mem a w)).
Proof.
  intros Hr. unfold read_at, load. destruct (Z.eqb_spec w 1) as [E1|Hne].
  - eapply runs_step; [apply (read8_run opt init Hadm n Hn); [done|by apply first_in]|]. intros b o1 [R1 D1].
    destruct (low_bit_denotes b _ D1) as (e & E & De). eapply runs_lift; [exact E|]. by rewrite E1.
  - destruct (width_bytes w Hw Hne) as [Hp He]. apply (read_bytes_run a (w / 8)); [|done|done|done|done].
    intros idx o1 Hidx R1. destruct (byte_in idx Hne Hidx) as [-> Hi]. by apply (read8_run opt init Hadm n Hn).
Qed.

Lemma write_const_run v N k : forall i o mem,
  a + N <= n -> 0 <= i -> i + Z.of_nat k = N -> represents_ o mem ->
  runs (write_const_from isLittleEndian a v N k i) o (fun _ o' => represents_ o' (scatter mem (places_ a N) v k i)).
Proof.
  induction k as [|k IH]; intros i o mem HN Hi Hk Hr; [by apply runs_ret|]. cbn [write_const_from scatter].
  pose proof (index_range N i ltac:(lia)). change (2 ^ 32) with 4294967296 in Hn. rewrite u32_small by lia.
  eapply runs_step; [apply (write8_run init n Hn); [done|lia|apply u8_range]|]. intros [] o1 R1.
  apply IH; [done|lia|lia|]. unfold u8 in R1. rewrite Z.shiftr_div_pow2 in R1 by lia. exact R1.
Qed.

Section Write.
Context (value : expr) (x : Z) (Hval : width_ok value = true) (Hwd : getWidth value = w) (Hx : eval init value = Some x).

Lemma write_general_run o mem :
  represents_ o mem -> runs (write_general isLittleEndian a value) o (fun _ o' => represents_ o' (store_ mem a w x)).
Proof.
  intros Hr. unfold write_general, store. rewrite Hwd. destruct (Z.eqb_spec w 1) as [E1|Hne].
  - destruct (bool_byte value x Hval ltac:(congruence) Hx) as (b & E & Hb & Wb & Vb).
    apply runs_bind. eapply runs_lift; [exact E|]. rewrite <- Vb.
    apply (write8_value_run init n Hn); [done|by apply first_in|done|done].
  - destruct (width_bytes w Hw Hne) as [Hp He]. apply (write_bytes_run a (w / 8) value x Hval Hx); [|done|congruence|done].
    intros idx b o1 mem1 Hidx Hb Wb R1. destruct (byte_in idx Hne Hidx) as [-> Hi]. by apply (write8_value_run init n Hn).
Qed.

(** The widths of the switch: a power of two that is a width in memory. *)
Lemma power_widths : (w <=? 64) && isPowerOfTwo w = true -> In w [1; 8; 16; 32; 64].
Proof.
  intros H. apply andb_prop in H as [H1 H2]. apply Z.leb_le in H1.
  destruct Hw as [->|[H3 H4]]; [by left|]. destruct (width_bytes w Hw ltac:(intros ->; done)) as [H5 H6].
  assert (Hq : w / 8 = 1 \/ w / 8 = 2 \/ w / 8 = 3 \/ w / 8 = 4 \/ w / 8 = 5 \/ w / 8 = 6 \/ w / 8 = 7 \/ w / 8 = 8) by lia.
  destruct Hq as [E|[E|[E|[E|[E|[E|[E|E]]]]]]]; rewrite E in H6; simpl in H6; rewrite H6 in H2 |- *;
    first [discriminate H2|simpl; tauto].
Qed.
Lemma write_at_run o mem :
  represents_ o mem -> runs (write_at isLittleEndian a value) o (fun _ o' => represents_ o' (store_ mem a w x)).
Proof.
  intros Hr. pose proof (write_general_run o mem Hr) as Hg. pose proof power_widths as Hpw. pose proof first_in as Hf.
  assert (Hwc : forall k, bytes w = Z.of_nat k ->
    runs (write_const_from isLittleEndian a x (Z.of_nat k) k 0) o (fun _ o' => represents_ o' (scatter mem (places_ a (Z.of_nat k)) x k 0))).
  { intros k Hk. apply write_const_run; [lia|done|done|done]. }
  assert (Hv : 0 <= x < 2 ^ w) by (rewrite <- Hwd; exact (eval_fits init (proj1 Hadm) value x Hval Hx)).
  assert (Hc : forall w' v, value = Constant w' v -> w' = w /\ v = x).
  { intros w' v ->. simpl in Hwd, Hx. by simplify_eq. }
  unfold write_at. destruct value as [w' v| | | | | | | | |]; try exact Hg. destruct (Hc w' v eq_refl) as [-> ->].
  destruct ((w <=? 64) && isPowerOfTwo w) eqn:Hp; [|exact Hg].
  clear Hp. pose proof (Hpw eq_refl) as Hp. unfold store.
  unfold bytes in *. destruct Hp as [E|[E|[E|[E|[E|[]]]]]]; rewrite <- E in Hin, Hwc, Hv, Hf |- *.
  - simpl. rewrite u8_small by (simpl in *; lia). apply (write8_run init n Hn); [done|by apply Hf|simpl in *; lia].
  - eapply runs_mono; [apply (write8_run init n Hn); [done|assert (a + 1 <= n) by exact Hin; lia|apply u8_range]|]. intros [] o1 R1.
    eapply represents_ext; [exact R1|]. intros j Hj. simpl. unfold places, byte_index, u8. rewrite Z.div_1_r.
    by destruct isLittleEndian; rewrite Z.add_0_r.
  - simpl. rewrite u16_small by (simpl in *; lia). by apply (Hwc 2%nat).
  - simpl. rewrite u32_small by (simpl in *; lia). by apply (Hwc 4%nat).
  - simpl. rewrite u64_small by (simpl in *; lia). by apply (Hwc 8%nat).
Qed.
End Write.
End At.

(** ** Symbolic offsets *)

(** The offset in 32 bits is a constant or a sum that stays symbolic. *)
Definition offset_form (offset : expr) : bool :=
  match create_ZExt offset 32 with Ret e => isConstant e || variable_sum e | Stop _ => false end.

Lemma offset_32 offset p :
  width_ok offset = true -> eval init offset = Some p ->
  exists e, create_ZExt offset 32 = Ret e /\ width_ok e = true /\ getWidth e = 32 /\ eval init e = Some (p `mod` 2 ^ 32).
Proof.
  intros Ho Hp. destruct (create_ZExt_impl init (proj1 Hadm) offset 32 Ho ltac:(lia)) as (e & E & He & We & Re).
  exists e. split; [done|]. split; [done|]. pose proof (eval_fits init (proj1 Hadm) offset p Ho Hp) as Hb.
  unfold cast_plain in *. destruct (Z.ltb_spec 32 (getWidth offset)).
  - split; [done|]. apply Re. simpl. rewrite Hp. simpl. by rewrite Z.div_1_r.
  - split; [done|]. apply Re. simpl. rewrite Hp, Z.mod_small; [done|].
    assert (2 ^ getWidth offset <= 2 ^ 32) by (apply Z.pow_le_mono_r; lia). lia.
Qed.
Lemma sum_32 e a idx :
  width_ok e = true -> getWidth e = 32 -> variable_sum e = true -> eval init e = Some a -> 0 <= idx -> 0 <= a -> a + idx < n ->
  exists x, create_Add opt e (Constant 32 idx) = Ret x /\ isConstant x = false /\ width_ok x = true /\ getWidth x = 32 /\
    eval init x = Some (a + idx).
Proof.
  intros He We Hs Ha Hidx H0 Hin.
  destruct (create_Add_impl opt init (proj1 Hadm) (proj2 Hadm) e (Constant 32 idx)) as (x & E & Hx & Wx & Rx); [done| |done|].
  { apply constant_ok; lia. }
  exists x. split_and!; [done|by apply (create_Add_variable opt e 32 idx)|done|by rewrite Wx|].
  apply Rx. simpl. rewrite Ha. simpl. rewrite We, Z.mod_small by lia. done.
Qed.

Section Symbolic.
Context (offset : expr) (p w : Z) (Hoff : width_ok offset = true) (Hp : eval init offset = Some p).
Context (Hform : offset_form offset = true).
Context (Hw : width_in_memory w) (Hin : p `mod` 2 ^ 32 + bytes w <= n).
Abbreviation a := (p `mod` 2 ^ 32).

Lemma a_pos : 0 <= a.
Proof. apply Z.mod_pos_bound. lia. Qed.

(** The two cases of an offset. *)
Lemma offset_cases :
  (create_ZExt offset 32 = Ret (Constant 32 a)) \/
  (exists e, create_ZExt offset 32 = Ret e /\ isConstant e = false /\ width_ok e = true /\ getWidth e = 32 /\
    eval init e = Some a /\ variable_sum e = true).
Proof.
  destruct (offset_32 offset p Hoff Hp) as (e & E & He & We & Ve). unfold offset_form in Hform. rewrite E in Hform.
  destruct (isConstant e) eqn:Hc; [left|right; by exists e].
  destruct e as [we ve| | | | | | | | |]; try done. simpl in We, Ve. subst we. injection Ve as ->. done.
Qed.

Lemma read_run o mem :
  represents_ o mem ->
  runs (read opt id isLittleEndian offset w) o (fun e o' => represents_ o' mem /\ denotes_ e w (load_ mem a w)).
Proof.
  intros Hr. pose proof a_pos as Ha. unfold read. apply runs_bind.
  destruct offset_cases as [E|(e & E & Hc & He & We & Ve & Vs)]; (eapply runs_lift; [exact E|]); [by apply read_at_run|].
  assert (Hrun : runs (if w =? 1 then b ← read8_expr opt id e; lift (create_Extract b 0 1)
      else read_bytes isLittleEndian (fun idx => o ← lift (create_Add opt e (Constant 32 idx)); read8_expr opt id o) w) o
    (fun e o' => represents_ o' mem /\ denotes_ e w (load_ mem a w))).
  { unfold load. destruct (Z.eqb_spec w 1) as [E1|Hne].
    - eapply runs_step; [apply (read8_expr_run opt init Hadm n Hn id e a); (done || by apply (first_in a w))|].
      intros b o1 [R1 D1]. destruct (low_bit_denotes b _ D1) as (x & Ex & Dx). eapply runs_lift; [exact Ex|]. by rewrite E1.
    - destruct (width_bytes w Hw Hne) as [Hp' He']. apply (read_bytes_run a (w / 8)); [|done|done|done|done].
      intros idx o1 Hidx R1. destruct (byte_in a w Ha Hin idx Hne Hidx) as [_ Hi].
      destruct (sum_32 e a idx He We Vs Ve) as (x & Ex & Cx & Hx & Wx & Vx); [lia|lia|lia|].
      apply runs_bind. eapply runs_lift; [exact Ex|]. by apply (read8_expr_run opt init Hadm n Hn id x). }
  by destruct e.
Qed.

Lemma write_run value x o mem :
  width_ok value = true -> getWidth value = w -> eval init value = Some x -> represents_ o mem ->
  runs (write opt isLittleEndian offset value) o (fun _ o' => represents_ o' (store_ mem a w x)).
Proof.
  intros Hval Hwd Hx Hr. pose proof a_pos as Ha. unfold write. apply runs_bind.
  destruct offset_cases as [E|(e & E & Hc & He & We & Ve & Vs)]; (eapply runs_lift; [exact E|]); [by apply write_at_run|].
  assert (Hrun : runs (if getWidth value =? 1 then b ← lift (create_ZExt value 8); write8_expr e b
      else write_bytes isLittleEndian (fun idx b => o ← lift (create_Add opt e (Constant 32 idx)); write8_expr o b) value) o
    (fun _ o' => represents_ o' (store_ mem a w x))).
  { unfold store. rewrite Hwd. destruct (Z.eqb_spec w 1) as [E1|Hne].
    - destruct (bool_byte value x Hval ltac:(congruence) Hx) as (b & Eb & Hb & Wb & Vb).
      apply runs_bind. eapply runs_lift; [exact Eb|]. rewrite <- Vb. by apply (write8_expr_run init n Hn).
    - destruct (width_bytes w Hw Hne) as [Hp' He']. apply (write_bytes_run a (w / 8) value x Hval Hx); [|done|congruence|done].
      intros idx b o1 mem1 Hidx Hb Wb R1. destruct (byte_in a w Ha Hin idx Hne Hidx) as [_ Hi].
      destruct (sum_32 e a idx He We Vs Ve) as (y & Ey & Cy & Hy & Wy & Vy); [lia|lia|lia|].
      apply runs_bind. eapply runs_lift; [exact Ey|]. by apply (write8_expr_run init n Hn y (a + idx)). }
  by destruct e.
Qed.
End Symbolic.
End Values.
End MemoryMain.
