(* ===== verification/MemorySys.v ===== *)
(** * Objects of the executor's memory: construction, and sequences of accesses

    What a client of an object may rely on: an object is an array of bytes, for every
    content of the symbolic arrays, whatever mixture of concrete and symbolic reads and
    writes was made. *)
From stdpp Require Import base gmap list strings numbers pretty.
From Stdlib Require Import ZArith Lia.
From S2P Require Import Prelude ExprData ExprFacts ExprCreate ExprSound ExprMain BitArray.
From S2P Require Import Memory MemoryOk MemoryBytes MemoryMain.

Module MemorySys.
Import Expr ExprFacts Create Sound ExprMain Memory MemoryOk MemoryBytes MemoryMain.

(** ** Construction *)
Section Construct.
Context (init : array -> Z -> option Z) (n : Z) (Hn : 0 <= n < 2 ^ 32).
Abbreviation represents_ := (represents init n).

(** An object all of whose bytes are concrete and not flushed. *)
Lemma concrete_represents o f :
  osize o = n -> concreteMask o = None -> flushMask o = None -> knownSymbolics o = None ->
  array_is n (concreteStore o) f -> (forall i, 0 <= i < n -> 0 <= f i < 256) ->
  (forall a, root o = Some a -> array_ok a = true /\ domain a = 32 /\ range a = 8) ->
  typed (head o) = true -> (root o = None -> MemoryOk.inside n (head o)) ->
  represents_ o (fun i => Some (f i)).
Proof.
  intros H1 H2 H3 H4 H5 H6 H7 H8 H9. exists (Desc (fun _ => true) (fun _ => true) (fun _ => None) f (root o) (head o)).
  split; [|split; [|done]].
  - split; simpl; rewrite ?H2, ?H3, ?H4; done.
  - split; simpl; try done. intros i Hi _. by left.
Qed.

Lemma new_represents UseConstantArrays id mo :
  mo_size mo = n -> represents_ (new_ObjectState UseConstantArrays id mo) (fun _ => Some 0).
Proof.
  intros Hs. apply (concrete_represents _ (fun _ => 0)); try done; unfold new_ObjectState; cbn [osize concreteStore root].
  - unfold zeros. rewrite Hs. by apply replicate_is.
  - intros a Ha. destruct UseConstantArrays; [done|]. injection Ha as <-. split_and!; [|done|done].
    unfold array_ok. cbn [domain range size constantValues isSymbolicArray].
    by rewrite Hs, (proj2 (Z.leb_le 0 n)), (proj2 (Z.leb_le n (2 ^ 32))), (proj2 (Z.ltb_lt n (2 ^ 32))) by lia.
Qed.

Lemma copy_represents o mem :
  represents_ o mem -> readOnly o = false -> exists o', copy_ObjectState o = Ret o' /\ represents_ o' mem.
Proof.
  intros (d & L & I & C) Hr. unfold copy_ObjectState. rewrite Hr. eexists. split; [reflexivity|]. exists d.
  split; [|done]. destruct L as [L1 L2 L3 L4 L5 L6 L7]. rewrite L1.
  assert (Htake : forall A (l : list A) (f : Z -> A), array_is n l f -> take (Z.to_nat n) l = l).
  { intros A l f [Hl _]. apply take_ge. lia. }
  split; cbn [osize concreteStore concreteMask flushMask knownSymbolics root head]; try done.
  - by rewrite (Htake _ _ _ L2).
  - destruct (concreteMask o) as [b|]; [|done]. simpl. destruct L3 as [Hs Hb]. by rewrite BitArray.copy_same.
  - destruct (flushMask o) as [b|]; [|done]. simpl. destruct L4 as [Hs Hb]. by rewrite BitArray.copy_same.
  - destruct (knownSymbolics o) as [l|]; [|done]. simpl. by rewrite (Htake _ _ _ L5).
Qed.

Lemma initialize_represents (v : Z) o mem :
  0 <= v < 256 -> represents_ o mem ->
  runs (makeConcrete;; modify (fun o => set_store (replicate (Z.to_nat (osize o)) v) o)) o
    (fun _ o' => represents_ o' (fun _ => Some v)).
Proof.
  intros Hv (d & L & I & C). apply runs_bind, runs_modify, runs_modify. cbn [osize].
  apply (concrete_represents _ (fun _ => v)); try done; cbn [osize set_store set_concreteMask set_flushMask set_knownSymbolics concreteStore root head].
  - by apply (lk_size _ _ _ L).
  - rewrite (lk_size _ _ _ L). by apply replicate_is.
  - intros a Ha. rewrite (lk_root _ _ _ L) in Ha. by apply (inv_root _ _ _ I).
  - rewrite (lk_head _ _ _ L). apply I.
  - rewrite (lk_root _ _ _ L), (lk_head _ _ _ L). apply I.
Qed.

Lemma markByteFlushed_run i o d :
  0 <= i < n -> looks n o d ->
  runs (markByteFlushed i) o (fun _ o' => exists u, looks n o' (with_u u d) /\
    forall j, 0 <= j < n -> du d j = false \/ j = i -> u j = false).
Proof.
  intros Hi L. unfold markByteFlushed. apply runs_bind, runs_get. pose proof (lk_unfl _ _ _ L) as Hu.
  pose proof (lk_size _ _ _ L) as Hs. destruct (flushMask o) as [b|].
  - destruct (mask_write n false b (du d) i Hu Hi) as (b' & E' & Hb'). apply runs_bind. eapply runs_lift; [exact E'|].
    apply runs_modify. exists (upd (du d) i false). split; [by destruct L|]. intros j Hj. unfold upd.
    destruct (Z.eqb_spec j i); [done|]. by intros [|].
  - apply runs_modify. exists (fun _ => false). split; [|done]. rewrite Hs. destruct L. split; try done. by apply mask_new.
Qed.
(** The loop of [makeSymbolic]. *)
Lemma makeSymbolic_run k : forall i o d,
  0 <= i -> i + Z.of_nat k = n -> looks n o d ->
  (forall j, 0 <= j < i -> dk d j = None /\ dc d j = false /\ du d j = false) ->
  runs (makeSymbolic_from k i) o (fun _ o' => exists d', looks n o' d' /\ dr d' = dr d /\ dh d' = dh d /\
    forall j, 0 <= j < n -> dk d' j = None /\ dc d' j = false /\ du d' j = false).
Proof.
  induction k as [|k IH]; intros i o d Hi Hk L C.
  { apply runs_ret. exists d. split_and!; [done..|]. intros j Hj. apply C. lia. }
  cbn [makeSymbolic_from]. eapply runs_step; [apply (markByteSymbolic_run n Hn i); [lia|exact L]|]. intros _ o1 [L1 _].
  eapply runs_step; [apply (setKnownSymbolic_run n Hn i); [lia|exact L1]|]. intros _ o2 [L2 _].
  eapply runs_step; [apply (markByteFlushed_run i); [lia|exact L2]|]. intros _ o3 (u & L3 & U3).
  eapply runs_mono; [eapply (IH (i + 1) o3); [lia|lia|exact L3|]|].
  - intros j Hj. simpl in *. unfold upd in *. destruct (Z.eqb_spec j i) as [->|].
    + split_and!; [done|done|]. apply U3; [lia|by right].
    + destruct (C j ltac:(lia)) as (A & B & D). split_and!; [done|done|]. apply U3; [lia|by left].
  - intros _ o' (d' & A & B & D & E). by exists d'.
Qed.
Lemma symbolic_represents mo a :
  mo_size mo = n -> array_ok a = true -> domain a = 32 -> range a = 8 ->
  exists o, symbolic_ObjectState mo a = Ret o /\ represents_ o (initial init a).
Proof.
  intros Hs Ha Hd Hr. unfold symbolic_ObjectState, makeSymbolic.
  set (o0 := MkOS 0 mo (zeros (mo_size mo)) None None None (Some a) Null (mo_size mo) false).
  assert (L0 : looks n o0 (Desc (fun _ => true) (fun _ => true) (fun _ => None) (fun _ => 0) (Some a) Null)).
  { split; simpl; try done. rewrite Hs. by apply replicate_is. }
  assert (Hrun : runs (o ← get; assert_ (match head o with Null => true | _ => false end);; makeSymbolic_from (Z.to_nat (osize o)) 0) o0
    (fun _ o' => exists d', looks n o' d' /\ dr d' = Some a /\ dh d' = Null /\
      forall j, 0 <= j < n -> dk d' j = None /\ dc d' j = false /\ du d' j = false)).
  { apply runs_bind, runs_get, runs_bind, runs_assert; [done|]. cbn [osize o0]. rewrite Hs.
    apply (makeSymbolic_run (Z.to_nat n) 0 o0 _ ltac:(done) ltac:(lia) L0). lia. }
  apply runs_out in Hrun as ([] & o1 & -> & d & L1 & R1 & H1 & E1). cbn [mbind result_bind snd].
  eexists. split; [reflexivity|]. exists (with_s (fun _ => 0) d). split; [|split].
  - destruct L1. split; try done. simpl. rewrite Hs. by apply replicate_is.
  - split; simpl; try done.
    + intros i e Hi. by destruct (E1 i Hi) as (-> & _).
    + intros i Hi. by destruct (E1 i Hi) as (_ & _ & ->).
    + intros a'. rewrite R1. by intros [= <-].
    + by rewrite H1.
    + by rewrite H1.
    + intros i Hi _. destruct (E1 i Hi) as (-> & -> & _). by intros [|].
  - intros i Hi. unfold content, flushed, base. simpl. destruct (E1 i Hi) as (-> & -> & _). by rewrite R1, H1.
Qed.
End Construct.

(** ** Sequences of accesses *)
Inductive access : Type :=
| ReadAt (offset : expr) (width : Z)
| WriteAt (offset value : expr).

Section Sessions.
Context {ap : APInt} {ap_ok : APIntOk} (opt : bool) (id : Z) (isLittleEndian : bool).

(** The accesses, with the expressions that were read. *)
Fixpoint run_accesses (l : list access) : M ObjectState (list expr) :=
  match l with
  | [] => mret []
  | ReadAt offset w :: l => e ← read opt id isLittleEndian offset w; es ← run_accesses l; mret (e :: es)
  | WriteAt offset value :: l => write opt isLittleEndian offset value;; run_accesses l
  end.

Context (init : array -> Z -> option Z) (Hadm : admissible opt init).
Context (n : Z) (Hn : 0 <= n < 2 ^ 32).
Abbreviation represents_ := (represents init n).

(** An offset stands for an address inside, with room for [w] bits. *)
Definition points (offset : expr) (w a : Z) : Prop :=
  width_ok offset = true /\ offset_form offset = true /\ width_in_memory w /\ a + bytes w <= n /\
  exists p, eval init offset = Some p /\ a = p `mod` 2 ^ 32.

(** The same accesses on an array of bytes; the widths and values that are read. *)
Inductive on_bytes : list access -> (Z -> option Z) -> list (Z * option Z) -> (Z -> option Z) -> Prop :=
| bytes_nil mem : on_bytes [] mem [] mem
| bytes_read offset w a l mem out mem' :
    points offset w a -> on_bytes l mem out mem' ->
    on_bytes (ReadAt offset w :: l) mem ((w, load isLittleEndian mem a w) :: out) mem'
| bytes_write offset value a x l mem out mem' :
    points offset (getWidth value) a -> width_ok value = true -> eval init value = Some x ->
    on_bytes l (store isLittleEndian mem a (getWidth value) x) out mem' ->
    on_bytes (WriteAt offset value :: l) mem out mem'.

Lemma accesses_run l mem out mem' :
  on_bytes l mem out mem' -> forall o, represents_ o mem ->
  runs (run_accesses l) o (fun es o' => represents_ o' mem' /\ Forall2 (fun e wv => denotes init e wv.1 wv.2) es out).
Proof.
  induction 1 as [mem|offset w a l mem out mem' (Ho & Hf & Hw & Hin & p & Hp & ->) _ IH
                 |offset value a x l mem out mem' (Ho & Hf & Hw & Hin & p & Hp & ->) Hval Hx _ IH]; intros o Hr; cbn [run_accesses].
  - apply runs_ret. split; [done|constructor].
  - eapply runs_step; [by apply (read_run opt init Hadm n Hn id isLittleEndian offset p w)|]. intros e o1 [R1 D1].
    eapply runs_step; [by apply IH|]. intros es o2 [R2 D2]. apply runs_ret. split; [done|by constructor].
  - eapply runs_step; [by apply (write_run opt init Hadm n Hn isLittleEndian offset p (getWidth value) Ho Hp Hf Hw Hin value x)|].
    intros [] o1 R1. by apply IH.
Qed.

(** C4. An object of the executor's memory refines an array of bytes: for every content of
    the symbolic arrays and every sequence of reads and writes inside it, at constant
    and at symbolic offsets, of constant and symbolic values and of any width, no
    assertion fails and no access leaves its arrays; each expression that is read has
    the width asked for and denotes what the array of bytes holds, in the byte order of
    the target; and the object holds the bytes after the accesses. *)
Theorem object_refines o l mem out mem' :
  represents_ o mem -> on_bytes l mem out mem' ->
  exists es o', run_accesses l o = Ret (es, o') /\ represents_ o' mem' /\
    Forall2 (fun e wv => denotes init e wv.1 wv.2) es out.
Proof. intros Hr Hl. destruct (runs_out _ _ _ (accesses_run l mem out mem' Hl o Hr)) as (es & o' & E & H). eauto. Qed.

(** C22. What was written is read back: after a write of a value, a read of its width at the
    same address, by the same or another expression for it, denotes the value; a read
    at an address that does not overlap denotes what it did before. *)
Theorem read_after_write o mem offset value x a offset' w a' :
  represents_ o mem -> points offset (getWidth value) a -> width_ok value = true -> eval init value = Some x ->
  points offset' w a' ->
  exists e o', run_accesses [WriteAt offset value; ReadAt offset' w] o = Ret ([e], o') /\ getWidth e = w /\
    (a' = a -> w = getWidth value -> eval init e = Some x) /\
    (a' + bytes w <= a \/ a + bytes (getWidth value) <= a' -> denotes init e w (load isLittleEndian mem a' w)).
Proof.
  intros Hr Hp Hval Hx Hp'.
  assert (Hl : on_bytes [WriteAt offset value; ReadAt offset' w] mem
    [(w, load isLittleEndian (store isLittleEndian mem a (getWidth value) x) a' w)]
    (store isLittleEndian mem a (getWidth value) x)) by (repeat (econstructor; try done)).
  destruct (runs_out _ _ _ (accesses_run _ _ _ _ Hl o Hr)) as (es & o' & E & R & F).
  inversion F as [|e wv es' out' (D1 & D2 & D3) F' ]; subst. inversion F'; subst. exists e, o'. cbn [fst snd] in *.
  split_and!; [done|done| |].
  - intros -> ->. apply D3. apply load_store; [apply Hp|]. by apply (eval_fits init (proj1 Hadm)).
  - intros Hd. split_and!; [done|done|]. intros y Hy. apply D3. rewrite <- Hy. unfold load. destruct Hp as (_ & _ & Hw & _).
    destruct Hp' as (_ & _ & Hw' & _). unfold bytes in Hd at 1.
    destruct (Z.eqb_spec w 1) as [->|Hne]; [rewrite store_other; [done|done|lia]|].
    destruct (width_bytes w Hw' Hne) as [Hpos _]. apply gather_ext. intros i Hi.
    pose proof (places_range isLittleEndian a' (w / 8) i ltac:(lia)). apply store_other; [done|]. lia.
Qed.

(** Objects start as they should: a new object holds zeros, an object made symbolic holds
    the cells of its array, a copy holds the bytes of the original, and the two ways to
    initialise an object fill it with 0 and with 171. *)
Theorem objects_start UseConstantArrays mo a o mem :
  mo_size mo = n -> array_ok a = true -> domain a = 32 -> range a = 8 -> represents_ o mem -> readOnly o = false ->
  represents_ (new_ObjectState UseConstantArrays id mo) (fun _ => Some 0) /\
  (exists o', symbolic_ObjectState mo a = Ret o' /\ represents_ o' (initial init a)) /\
  (exists o', copy_ObjectState o = Ret o' /\ represents_ o' mem) /\
  runs initializeToZero o (fun _ o' => represents_ o' (fun _ => Some 0)) /\
  runs initializeToRandom o (fun _ o' => represents_ o' (fun _ => Some 171)).
Proof.
  intros Hs Ha Hd Hr Ho Hro. split; [by apply new_represents|]. split; [by apply symbolic_represents|].
  split; [by apply copy_represents|]. split; by eapply initialize_represents.
Qed.
End Sessions.

(** ** A concrete session *)

(** An object of 8 bytes; a symbolic offset that is 0 for [asg]. *)
Definition eight : ObjectState := new_ObjectState true 0 (MkMO 1 4096 8 false).
Definition somewhere : expr := ZExt (byte 2) 32.
Lemma eight_zero : represents (assigned false asg) 8 eight (fun _ => Some 0).
Proof. by apply new_represents. Qed.
Lemma somewhere_points w : width_in_memory w -> bytes w <= 8 -> points (assigned false asg) 8 somewhere w 0.
Proof. intros Hw Hb. split_and!; [done|done|done|lia|]. by exists 0. Qed.
Lemma one_points w : width_in_memory w -> 1 + bytes w <= 8 -> points (assigned false asg) 8 (Constant 64 1) w 1.
Proof. intros Hw Hb. split_and!; [done|done|done|lia|]. by exists 1. Qed.
Lemma bytes_32 : width_in_memory 32 /\ 1 + bytes 32 <= 8.
Proof. split; [right; split; [lia|done]|vm_compute; done]. Qed.
Lemma bytes_8 : width_in_memory 8 /\ 1 + bytes 8 <= 8.
Proof. split; [right; split; [lia|done]|vm_compute; done]. Qed.

(** A constant, then a symbolic byte at the symbolic offset; both are read. *)
Definition session : list access :=
  [WriteAt (Constant 64 1) (Constant 32 305419896); WriteAt somewhere (byte 1); ReadAt somewhere 8; ReadAt (Constant 64 1) 32].
Lemma session_bytes :
  on_bytes true (assigned false asg) 8 session (fun _ => Some 0) [(8, Some 2); (32, Some 305419896)]
    (upd (store true (fun _ => Some 0) 1 32 305419896) 0 (Some 2)).
Proof.
  unfold session. eapply bytes_write; [apply one_points; apply bytes_32|done|done|].
  eapply bytes_write; [apply somewhere_points; [apply bytes_8|vm_compute; done]|done|vm_compute; done|].
  change (Some 2) with (load true (store true (store true (fun _ => Some 0) 1 32 305419896) 0 8 2) 0 8) at 1.
  eapply bytes_read; [apply somewhere_points; [apply bytes_8|vm_compute; done]|].
  change (Some 305419896) with (load true (store true (store true (fun _ => Some 0) 1 32 305419896) 0 8 2) 1 32) at 1.
  eapply bytes_read; [apply one_points; apply bytes_32|]. constructor.
Qed.
Lemma object_refines_witness :
  exists es o', run_accesses false 7 true session eight = Ret (es, o') /\
    eval (assigned false asg) <$> es = [Some 2; Some 305419896].
Proof.
  destruct (object_refines false 7 true (assigned false asg) (assigned_admissible false asg) 8 ltac:(lia) eight session
    _ _ _ eight_zero session_bytes) as (es & o' & E & _ & F).
  exists es, o'. split; [exact E|]. inversion F as [|e1 w1 es1 out1 (_ & _ & D1) F1]; subst.
  inversion F1 as [|e2 w2 es2 out2 (_ & _ & D2) F2]; subst. inversion F2; subst. simpl.
  by rewrite (D1 2 eq_refl), (D2 305419896 eq_refl).
Defined.
Lemma read_after_write_witness :
  exists e o', run_accesses false 7 true [WriteAt somewhere (byte 1); ReadAt (ZExt (byte 2) 64) 8] eight = Ret ([e], o') /\
    eval (assigned false asg) e = Some 2.
Proof.
  destruct (read_after_write false 7 true (assigned false asg) (assigned_admissible false asg) 8 ltac:(lia) eight
    (fun _ => Some 0) somewhere (byte 1) 2 0 (ZExt (byte 2) 64) 8 0) as (e & o' & E & _ & V & _).
  - exact eight_zero.
  - apply somewhere_points; [apply bytes_8|vm_compute; discriminate].
  - reflexivity.
  - vm_compute. reflexivity.
  - split_and!; [reflexivity|vm_compute; reflexivity|apply bytes_8|vm_compute; discriminate|]. by exists 0.
  - exists e, o'. split; [exact E|]. by apply V.
Defined.
Lemma objects_start_witness :
  represents (assigned false asg) 8 (new_ObjectState true 0 (MkMO 1 4096 8 false)) (fun _ => Some 0).
Proof.
  apply (objects_start 0 (assigned false asg) 8 ltac:(lia) true (MkMO 1 4096 8 false) arr eight (fun _ => Some 0));
    try reflexivity. exact eight_zero.
Defined.
End MemorySys.
