(* ===== verification/AddressSpace.v ===== *)
(** * Address spaces

    lib/Core/AddressSpace.cpp and AddressSpace.h: the memory of a path is an immutable tree
    from memory objects, ordered by address, to their states. Forked paths share the
    states; the key [cowKey] tells which of them a path may write in place. A pointer is
    resolved to the objects it may point to by asking the solver. *)
From stdpp Require Import base gmap list strings numbers.
From Stdlib Require Import ZArith Lia.
From S2P Require Import Prelude ExprData ExprCreate Memory ImmTree.

Module AddressSpace.
Import Expr Create Memory.

(** ** Data *)
(** An [ObjectHolder] is the address of an [ObjectState] in the heap of the executor. *)
Abbreviation ObjectPair := (MemoryObject * Z)%type.
Definition MemoryObjectLT (a b : MemoryObject) : bool := address a <? address b.
(** The object that stands for an address in searches, [MemoryObject(uint64_t)]. *)
Definition hack (a : Z) : MemoryObject := MkMO 0 a 0 false.
Definition no_pair : ObjectPair := (hack 0, 0).

Record AddressSpace : Type := MkSpace {
  cowKey : Z;
  objects : ImmTree.Node ObjectPair
}.
(** The object states in use, and the next address. *)
Record Heap : Type := MkHeap { states : gmap Z ObjectState; next : Z }.

Definition deref_state (h : Heap) (p : Z) : result ObjectState :=
  match states h !! p with Some o => Ret o | None => Stop MemError end.
Definition put_state (h : Heap) (p : Z) (o : ObjectState) : Heap := MkHeap (<[p := o]> (states h)) (next h).
(** [new ObjectState] *)
Definition new_state (h : Heap) (o : ObjectState) : Z * Heap := (next h, MkHeap (<[next h := o]> (states h)) (next h + 1)).

Definition map_replace : ObjectPair -> ImmTree.Node ObjectPair -> ImmTree.Node ObjectPair :=
  ImmTree.replace fst MemoryObjectLT no_pair.
Definition map_remove : MemoryObject -> ImmTree.Node ObjectPair -> ImmTree.Node ObjectPair :=
  ImmTree.remove fst MemoryObjectLT no_pair.
Definition map_lookup : MemoryObject -> ImmTree.Node ObjectPair -> option ObjectPair := ImmTree.lookup fst MemoryObjectLT.
Definition map_previous : MemoryObject -> ImmTree.Node ObjectPair -> option ObjectPair :=
  ImmTree.lookup_previous fst MemoryObjectLT.

(** ** Bindings *)
Definition empty_space : AddressSpace := MkSpace 1 ImmTree.terminator.
(** The copy constructor: the key of the original changes, too. *)
Definition copy_space (b : AddressSpace) : AddressSpace * AddressSpace :=
  let key := u32 (cowKey b + 1) in (MkSpace key (objects b), MkSpace key (objects b)).

Definition bindObject (h : Heap) (s : AddressSpace) (mo : MemoryObject) (os : Z) : result (Heap * AddressSpace) :=
  o ← deref_state h os;
  if negb (copyOnWriteOwner o =? 0) then Stop AssertFailed
  else Ret (put_state h os (set_owner (cowKey s) o), MkSpace (cowKey s) (map_replace (mo, os) (objects s))).
Definition unbindObject (s : AddressSpace) (mo : MemoryObject) : AddressSpace :=
  MkSpace (cowKey s) (map_remove mo (objects s)).
Definition findObject (s : AddressSpace) (mo : MemoryObject) : option Z := snd <$> map_lookup mo (objects s).
(** The writable state, and what changed. *)
Definition getWriteable (h : Heap) (s : AddressSpace) (mo : MemoryObject) (os : Z) : result (Z * Heap * AddressSpace) :=
  o ← deref_state h os;
  if readOnly o then Stop AssertFailed
  else if cowKey s =? copyOnWriteOwner o then Ret (os, h, s)
  else
    n ← copy_ObjectState o;
    let (p, h) := new_state h (set_owner (cowKey s) n) in
    Ret (p, h, MkSpace (cowKey s) (map_replace (mo, p) (objects s))).

(** ** Constant addresses *)
Definition resolveOne_const (s : AddressSpace) (address : Z) : option ObjectPair :=
  match map_previous (hack address) (objects s) with
  | Some res =>
      let mo := res.1 in
      if ((mo_size mo =? 0) && (address =? Memory.address mo)) || (u64 (address - Memory.address mo) <? mo_size mo)
      then Some res else None
  | None => None
  end.

(** ** Symbolic addresses *)
Section Resolve.
Context {ap : APInt} (ConstArrayOpt : bool) (pointerWidth : Z).

Definition getBaseExpr (mo : MemoryObject) : result expr := create_Constant (address mo) pointerWidth.
Definition getSizeExpr (mo : MemoryObject) : result expr := create_Constant (mo_size mo) pointerWidth.
Definition getOffsetExpr (mo : MemoryObject) (pointer : expr) : result expr :=
  b ← getBaseExpr mo; create_binary ConstArrayOpt Sub pointer b.
Definition getBoundsCheckOffset (mo : MemoryObject) (offset : expr) : result expr :=
  if mo_size mo =? 0 then create_binary ConstArrayOpt Eq offset (Constant pointerWidth 0)
  else s ← getSizeExpr mo; create_binary ConstArrayOpt Ult offset s.
Definition getBoundsCheckPointer (mo : MemoryObject) (pointer : expr) : result expr :=
  o ← getOffsetExpr mo pointer; getBoundsCheckOffset mo o.

(** The solver under the constraints of the state: [None] if a query fails. *)
Context (getValue : expr -> option Z) (mayBeTrue mustBeTrue : expr -> option bool).

(** *** [resolveOne]: the answer ([None]: a query failed), with [success] and [result] *)
Abbreviation iter := (ImmTree.iterator ObjectPair).

Fixpoint resolveOne_back (fuel : nat) (pointer : expr) (begin oi : iter) : result (option (option ObjectPair)) :=
  match fuel with
  | O => Stop OutOfFuel
  | S fuel =>
      if ImmTree.iterator_eqb oi begin then Ret (Some None)
      else
        oi ← ImmTree.iterator_prev oi;
        v ← ImmTree.deref oi;
        inBounds ← getBoundsCheckPointer v.1 pointer;
        match mayBeTrue inBounds with
        | None => Ret None
        | Some true => Ret (Some (Some v))
        | Some false =>
            b ← getBaseExpr v.1;
            above ← create_binary ConstArrayOpt Uge pointer b;
            match mustBeTrue above with
            | None => Ret None
            | Some true => Ret (Some None)
            | Some false => resolveOne_back fuel pointer begin oi
            end
        end
  end.
Fixpoint resolveOne_forth (fuel : nat) (pointer : expr) (end_ oi : iter) : result (option (option ObjectPair)) :=
  match fuel with
  | O => Stop OutOfFuel
  | S fuel =>
      if ImmTree.iterator_eqb oi end_ then Ret (Some None)
      else
        v ← ImmTree.deref oi;
        b ← getBaseExpr v.1;
        below ← create_binary ConstArrayOpt Ult pointer b;
        match mustBeTrue below with
        | None => Ret None
        | Some true => Ret (Some None)
        | Some false =>
            inBounds ← getBoundsCheckPointer v.1 pointer;
            match mayBeTrue inBounds with
            | None => Ret None
            | Some true => Ret (Some (Some v))
            | Some false => oi ← ImmTree.iterator_next oi; resolveOne_forth fuel pointer end_ oi
            end
        end
  end.
Definition resolveOne (fuel : nat) (s : AddressSpace) (pointer : expr) : result (option (option ObjectPair)) :=
  match pointer with
  | Constant _ a => Ret (Some (resolveOne_const s a))
  | _ =>
      match getValue pointer with
      | None => Ret None
      | Some example =>
          let search :=
            oi ← ImmTree.upper_bound fst MemoryObjectLT (hack example) (objects s);
            begin ← ImmTree.begin_ (objects s);
            end_ ← ImmTree.end_ (objects s);
            r ← resolveOne_back fuel pointer begin oi;
            match r with
            | Some None => resolveOne_forth fuel pointer end_ oi
            | _ => Ret r
            end in
          match map_previous (hack example) (objects s) with
          | Some res => if u64 (example - address res.1) <? mo_size res.1 then Ret (Some (Some res)) else search
          | None => search
          end
      end
  end.

(** *** [resolve]: is the list incomplete, and the list *)
Context (maxResolutions : Z).
(** Has the time run out, at the n-th check? *)
Context (expired : nat -> bool).

(** An object is added to [rl]; [Some b]: the function returns [b]. *)
Definition add_resolution (v : ObjectPair) (inBounds : expr) (rl : list ObjectPair) : option bool * list ObjectPair :=
  let rl := rl ++ [v] in
  let size := Z.of_nat (length rl) in
  (if size =? 1 then
     match mustBeTrue inBounds with
     | None => Some true
     | Some true => Some false
     | Some false => None
     end
   else if size =? maxResolutions then Some true else None, rl).

Fixpoint resolve_back (fuel k : nat) (pointer : expr) (begin oi : iter) (rl : list ObjectPair) :
    result (option bool * nat * list ObjectPair) :=
  match fuel with
  | O => Stop OutOfFuel
  | S fuel =>
      if ImmTree.iterator_eqb oi begin then Ret (None, k, rl)
      else
        oi ← ImmTree.iterator_prev oi;
        v ← ImmTree.deref oi;
        if expired k then Ret (Some true, k, rl)
        else
          inBounds ← getBoundsCheckPointer v.1 pointer;
          match mayBeTrue inBounds with
          | None => Ret (Some true, k, rl)
          | Some may =>
              let (ret, rl) := if may : bool then add_resolution v inBounds rl else (None, rl) in
              match ret with
              | Some b => Ret (Some b, k, rl)
              | None =>
                  b ← getBaseExpr v.1;
                  above ← create_binary ConstArrayOpt Uge pointer b;
                  match mustBeTrue above with
                  | None => Ret (Some true, k, rl)
                  | Some true => Ret (None, S k, rl)
                  | Some false => resolve_back fuel (S k) pointer begin oi rl
                  end
              end
          end
  end.
Fixpoint resolve_forth (fuel k : nat) (pointer : expr) (end_ oi : iter) (rl : list ObjectPair) :
    result (bool * list ObjectPair) :=
  match fuel with
  | O => Stop OutOfFuel
  | S fuel =>
      if ImmTree.iterator_eqb oi end_ then Ret (false, rl)
      else
        v ← ImmTree.deref oi;
        if expired k then Ret (true, rl)
        else
          b ← getBaseExpr v.1;
          below ← create_binary ConstArrayOpt Ult pointer b;
          match mustBeTrue below with
          | None => Ret (true, rl)
          | Some true => Ret (false, rl)
          | Some false =>
              inBounds ← getBoundsCheckPointer v.1 pointer;
              match mayBeTrue inBounds with
              | None => Ret (true, rl)
              | Some may =>
                  let (ret, rl) := if may : bool then add_resolution v inBounds rl else (None, rl) in
                  match ret with
                  | Some b => Ret (b, rl)
                  | None => oi ← ImmTree.iterator_next oi; resolve_forth fuel (S k) pointer end_ oi rl
                  end
              end
          end
  end.
Definition resolve (fuel : nat) (s : AddressSpace) (pointer : expr) : result (bool * list ObjectPair) :=
  match pointer with
  | Constant _ a => Ret (false, match resolveOne_const s a with Some res => [res] | None => [] end)
  | _ =>
      match getValue pointer with
      | None => Ret (true, [])
      | Some example =>
          oi ← ImmTree.upper_bound fst MemoryObjectLT (hack example) (objects s);
          begin ← ImmTree.begin_ (objects s);
          end_ ← ImmTree.end_ (objects s);
          r ← resolve_back fuel 0 pointer begin oi [];
          match r with
          | (Some b, _, rl) => Ret (b, rl)
          | (None, k, rl) => resolve_forth fuel k pointer end_ oi rl
          end
      end
  end.
End Resolve.

(** ** Several address spaces *)
Record World : Type := MkWorld { heap : Heap; spaces : list AddressSpace }.
Inductive operation : Type :=
| NewSpace
| Fork (s : nat)
| Bind (s : nat) (mo : MemoryObject) (os : ObjectState)
| Unbind (s : nat) (mo : MemoryObject)
| Write (s : nat) (mo : MemoryObject) (f : ObjectState -> ObjectState).

Definition space_at (w : World) (i : nat) : result AddressSpace :=
  match spaces w !! i with Some s => Ret s | None => Stop MemError end.
(** A change of an object's content; the owner is the address space's affair. *)
Definition change (f : ObjectState -> ObjectState) (o : ObjectState) : ObjectState :=
  set_owner (copyOnWriteOwner o) (f (set_owner 0 o)).

Definition run_operation (op : operation) (w : World) : result World :=
  match op with
  | NewSpace => Ret (MkWorld (heap w) (spaces w ++ [empty_space]))
  | Fork i =>
      s ← space_at w i;
      let (b, s) := copy_space s in
      Ret (MkWorld (heap w) (<[i := b]> (spaces w) ++ [s]))
  | Bind i mo os =>
      s ← space_at w i;
      let (p, h) := new_state (heap w) os in
      hs ← bindObject h s mo p;
      Ret (MkWorld hs.1 (<[i := hs.2]> (spaces w)))
  | Unbind i mo =>
      s ← space_at w i;
      Ret (MkWorld (heap w) (<[i := unbindObject s mo]> (spaces w)))
  | Write i mo f =>
      s ← space_at w i;
      match map_lookup mo (objects s) with
      | None => Stop MemError
      | Some (mo, p) =>
          phs ← getWriteable (heap w) s mo p;
          let '(p, h, s) := phs in
          o ← deref_state h p;
          Ret (MkWorld (put_state h p (change f o)) (<[i := s]> (spaces w)))
      end
  end.
Fixpoint run_operations (ops : list operation) (w : World) : result World :=
  match ops with [] => Ret w | op :: ops => w ← run_operation op w; run_operations ops w end.
Definition no_spaces : World := MkWorld (MkHeap ∅ 1) [].
End AddressSpace.
