(* ===== verification/AddressSpaceCow.v ===== *)
(** * Address spaces: copy on write cannot be observed

    Forked address spaces share the states of their objects until one of them writes. The
    abstract memory of a path is a sequence of objects with their contents; every sequence
    of forks, bindings and writes over several paths does to it what separate memories
    would do. *)
From stdpp Require Import base gmap list sets strings numbers.
From Stdlib Require Import ZArith Lia Sorting.Sorted.
From S2P Require Import Prelude ExprData ExprFacts ExprCreate ExprMain Memory MemoryOk MemoryBytes MemoryMain MemorySys.
From S2P Require Import ImmTree ImmTreeOk ImmTreeMain AddressSpace.

Module AddressSpaceCow.
Import Memory AddressSpace.
Import ImmTreeOk.

#[export] Instance MemoryObjectLT_order : StrictWeakOrder MemoryObjectLT.
Proof. split; unfold MemoryObjectLT; intros *; rewrite ?Z.ltb_lt; [apply Z.ltb_irrefl|lia|lia]. Qed.

Abbreviation elements := ImmTreeOk.elements.
Abbreviation tree_ok := (ImmTreeMain.ok fst MemoryObjectLT).
Abbreviation replace_in := (seq_replace fst MemoryObjectLT).
Abbreviation remove_from := (seq_remove fst MemoryObjectLT).

(** ** Memories that share nothing *)
(** The memory of a path: objects in the order of their addresses, with their contents. *)
Definition PathMemory : Type := list (MemoryObject * ObjectState).

Definition memory_at (ms : list PathMemory) (i : nat) : result PathMemory :=
  match ms !! i with Some m => Ret m | None => Stop MemError end.
Definition abs_operation (op : operation) (ms : list PathMemory) : result (list PathMemory) :=
  match op with
  | NewSpace => Ret (ms ++ [[]])
  | Fork i => m ← memory_at ms i; Ret (ms ++ [m])
  | Bind i mo o =>
      m ← memory_at ms i;
      if negb (copyOnWriteOwner o =? 0) then Stop AssertFailed else Ret (<[i := replace_in (mo, o) m]> ms)
  | Unbind i mo => m ← memory_at ms i; Ret (<[i := remove_from mo m]> ms)
  | Write i mo f =>
      m ← memory_at ms i;
      match hd_error (at_key fst MemoryObjectLT mo m) with
      | None => Stop MemError
      | Some (mo, o) => if readOnly o then Stop AssertFailed else Ret (<[i := replace_in (mo, change f o) m]> ms)
      end
  end.
Fixpoint abs_operations (ops : list operation) (ms : list PathMemory) : result (list PathMemory) :=
  match ops with [] => Ret ms | op :: ops => ms ← abs_operation op ms; abs_operations ops ms end.

(** ** What a path sees *)
(** The content of a state, without its owner. *)
Definition data (o : ObjectState) : ObjectState := set_owner 0 o.
Definition entry (h : Heap) (v : ObjectPair) (e : MemoryObject * ObjectState) : Prop :=
  v.1 = e.1 /\ exists o, states h !! v.2 = Some o /\ data o = e.2.
Definition sees (h : Heap) (s : AddressSpace) (m : PathMemory) : Prop := Forall2 (entry h) (elements (objects s)) m.

Lemma entries_ext h h' l m :
  Forall2 (entry h) l m -> (forall v, v ∈ l -> states h' !! v.2 = states h !! v.2) -> Forall2 (entry h') l m.
Proof.
  induction 1 as [|v e l m [Hv (o & Ho & Hd)] _ IH]; intros H; constructor.
  - split; [done|]. exists o. split; [|done]. by rewrite H by left.
  - apply IH. intros w Hw. apply H. by right.
Qed.
(** The parts of sequences with the same keys. *)
Lemma entries_filter h (p : MemoryObject -> bool) l m :
  Forall2 (entry h) l m -> Forall2 (entry h) (List.filter (fun v => p v.1) l) (List.filter (fun e => p e.1) m).
Proof.
  induction 1 as [|v e l m He _ IH]; [constructor|]. simpl. destruct He as [Hv Ho]. rewrite Hv.
  destruct (p e.1); [|done]. by constructor.
Qed.
Lemma entries_below h k l m : Forall2 (entry h) l m -> Forall2 (entry h) (below fst MemoryObjectLT k l) (below fst MemoryObjectLT k m).
Proof. apply (entries_filter h (fun x => MemoryObjectLT x k)). Qed.
Lemma entries_above h k l m : Forall2 (entry h) l m -> Forall2 (entry h) (above fst MemoryObjectLT k l) (above fst MemoryObjectLT k m).
Proof. apply (entries_filter h (fun x => MemoryObjectLT k x)). Qed.
Lemma entries_at h k l m : Forall2 (entry h) l m -> Forall2 (entry h) (at_key fst MemoryObjectLT k l) (at_key fst MemoryObjectLT k m).
Proof. apply (entries_filter h (fun x => negb (MemoryObjectLT x k) && negb (MemoryObjectLT k x))). Qed.
Lemma entries_ordered h l m :
  Forall2 (entry h) l m -> ordered fst MemoryObjectLT l -> ordered fst MemoryObjectLT m.
Proof.
  induction 1 as [|v e l m He Hl IH]; intros Ho; [constructor|]. apply StronglySorted_inv in Ho as [Ho Hv].
  constructor; [by apply IH|]. clear IH Ho. induction Hl as [|w e' l m He' _ IH]; [constructor|].
  apply Forall_cons_iff in Hv as [Hw Hv]. constructor; [|by apply IH].
  unfold before in *. destruct He as [<- _], He' as [<- _]. done.
Qed.

Section Cow.
(** What holds of the contents of all objects; it makes copies exact. *)
Context (P : ObjectState -> Prop).
Context (P_owner : forall k o, P o -> P (set_owner k o)).
Context (P_copy : forall o, P o -> readOnly o = false -> copy_ObjectState o = Ret (data o)).

(** ** The invariant *)
Record space_ok (h : Heap) (s : AddressSpace) : Prop := {
  sp_tree : tree_ok (objects s);
  sp_live v : v ∈ elements (objects s) -> exists o, states h !! v.2 = Some o /\ P o /\ copyOnWriteOwner o <= cowKey s;
  sp_nodup : NoDup (snd <$> elements (objects s))
}.
(** A state that two paths share belongs to neither. *)
Definition separate (h : Heap) (s s' : AddressSpace) : Prop :=
  forall v v' o, v ∈ elements (objects s) -> v' ∈ elements (objects s') -> v.2 = v'.2 -> states h !! v.2 = Some o ->
    copyOnWriteOwner o < cowKey s.
Record world_ok (K : Z) (w : World) : Prop := {
  w_space i s : spaces w !! i = Some s -> space_ok (heap w) s /\ 1 <= cowKey s <= K;
  w_separate i j s s' : i <> j -> spaces w !! i = Some s -> spaces w !! j = Some s' -> separate (heap w) s s';
  w_next p : is_Some (states (heap w) !! p) -> p < next (heap w)
}.
Definition views (w : World) (ms : list PathMemory) : Prop := Forall2 (sees (heap w)) (spaces w) ms.

Lemma world_ok_mono K K' w : world_ok K w -> K <= K' -> world_ok K' w.
Proof. intros [H1 H2 H3] HK. split; [|done|done]. intros i s Hi. destruct (H1 i s Hi). split; [done|lia]. Qed.

Lemma live_next K w i s v : world_ok K w -> spaces w !! i = Some s -> v ∈ elements (objects s) -> v.2 < next (heap w).
Proof.
  intros Hw Hi Hv. destruct (w_space _ _ Hw i s Hi) as [Hs _]. destruct (sp_live _ _ Hs v Hv) as (o & Ho & _).
  apply (w_next _ _ Hw). by rewrite Ho.
Qed.
Lemma views_at w ms i s m : views w ms -> spaces w !! i = Some s -> ms !! i = Some m -> sees (heap w) s m.
Proof. intros Hv Hs Hm. by eapply Forall2_lookup_lr in Hv. Qed.

(** ** The two ways the heap changes *)
(** A heap that has the states of the other paths as before. *)
Lemma views_update w ms i s' h' m' :
  views w ms -> sees h' s' m' ->
  (forall j s v, j <> i -> spaces w !! j = Some s -> v ∈ elements (objects s) -> states h' !! v.2 = states (heap w) !! v.2) ->
  views (MkWorld h' (<[i := s']> (spaces w))) (<[i := m']> ms).
Proof.
  intros Hv Hs Hh. unfold views in *. cbn [heap spaces]. apply Forall2_same_length_lookup_2.
  { rewrite !length_insert. by eapply Forall2_length. }
  intros j s m Hj Hm. apply list_lookup_insert_Some in Hj as [(-> & <- & Hlt)|(Hne & Hj)].
  - rewrite list_lookup_insert_eq in Hm; [by simplify_eq|]. erewrite <- Forall2_length; [exact Hlt|exact Hv].
  - rewrite list_lookup_insert_ne in Hm by done. eapply entries_ext; [by eapply views_at|].
    intros v Hin. eapply Hh; [|exact Hj|exact Hin]. done.
Qed.

(** One path gets a new tree; a pointer in it is one of its old ones, or nobody else's. *)
Lemma world_ok_update K w i s s' h' :
  world_ok K w -> spaces w !! i = Some s -> cowKey s' = cowKey s -> space_ok h' s' ->
  (forall j s2 v, j <> i -> spaces w !! j = Some s2 -> v ∈ elements (objects s2) -> states h' !! v.2 = states (heap w) !! v.2) ->
  (forall v, v ∈ elements (objects s') ->
     (exists v0, v0 ∈ elements (objects s) /\ v0.2 = v.2) \/
     (forall j s2 v2, j <> i -> spaces w !! j = Some s2 -> v2 ∈ elements (objects s2) -> v.2 <> v2.2)) ->
  (forall p, is_Some (states h' !! p) -> p < next h') ->
  world_ok K (MkWorld h' (<[i := s']> (spaces w))).
Proof.
  intros Hw Hi Hk Hs' Hh Hp Hn. assert (Hlt : (i < length (spaces w))%nat) by (by eapply lookup_lt_Some).
  split; cbn [heap spaces]; [| |done].
  - intros j s2 Hj. destruct (decide (j = i)) as [->|Hne].
    + rewrite list_lookup_insert_eq in Hj by done. simplify_eq. rewrite Hk. split; [done|]. by apply (w_space _ _ Hw i).
    + rewrite list_lookup_insert_ne in Hj by done. destruct (w_space _ _ Hw j s2 Hj) as [[T L N] K2].
      split; [|done]. split; [done| |done]. intros v Hv. rewrite (Hh j s2) by done. by apply L.
  - intros j j' s2 s2' Hne Hj Hj' v v' o Hv Hv' Hvv Ho.
    destruct (decide (j = i)) as [->|Hji], (decide (j' = i)) as [->|Hji']; [done| | |].
    + rewrite list_lookup_insert_eq in Hj by done. rewrite list_lookup_insert_ne in Hj' by done. simplify_eq.
      rewrite Hvv, (Hh j' s2') in Ho by done. destruct (Hp v Hv) as [(v0 & Hv0 & E)|Hfree]; [|by destruct (Hfree j' s2' v')].
      rewrite Hk. apply (w_separate _ _ Hw i j' s s2' Hne Hi Hj' v0 v' o Hv0 Hv'); congruence.
    + rewrite list_lookup_insert_ne in Hj by done. rewrite list_lookup_insert_eq in Hj' by done. simplify_eq.
      rewrite (Hh j s2) in Ho by done. destruct (Hp v' Hv') as [(v0 & Hv0 & E)|Hfree]; [|by destruct (Hfree j s2 v)].
      apply (w_separate _ _ Hw j i s2 s Hne Hj Hi v v0 o Hv Hv0); congruence.
    + rewrite list_lookup_insert_ne in Hj, Hj' by done. rewrite (Hh j s2) in Ho by done.
      by apply (w_separate _ _ Hw j j' s2 s2' Hne Hj Hj' v v' o).
Qed.

(** The values of a sequence after [replace]. *)
Lemma in_replace (x v : ObjectPair) l : v ∈ replace_in x l -> v = x \/ v ∈ l.
Proof.
  unfold seq_replace. rewrite elem_of_app, elem_of_cons. unfold below, above.
  rewrite !list_elem_of_In, !filter_In. tauto.
Qed.
Lemma nodup_parts (x : ObjectPair) l :
  ordered fst MemoryObjectLT l -> NoDup (snd <$> l) -> (forall v, v ∈ l -> v.2 <> x.2) -> NoDup (snd <$> replace_in x l).
Proof.
  intros Ho Hn Hx. unfold seq_replace. rewrite fmap_app, fmap_cons. apply NoDup_Permutation_proper with (snd <$> (x :: below fst MemoryObjectLT x.1 l ++ above fst MemoryObjectLT x.1 l)).
  { rewrite fmap_cons, fmap_app. symmetry. apply Permutation_middle. }
  rewrite fmap_cons. constructor.
  - intros Hin. apply list_elem_of_fmap in Hin as (v & Hv & Hin). apply (Hx v); [|done].
    revert Hin. rewrite elem_of_app. unfold below, above. rewrite !list_elem_of_In, !filter_In. tauto.
  - destruct (parts_ordered fst MemoryObjectLT x.1 l Ho) as [E _]. rewrite E in Hn. eapply sublist_NoDup; [exact Hn|].
    apply fmap_sublist. apply sublist_app; [done|]. by apply sublist_inserts_l.
Qed.

(** A new state is bound. *)
Lemma rebind_ok K w ms i s m mo o :
  world_ok K w -> views w ms -> spaces w !! i = Some s -> ms !! i = Some m -> P o -> copyOnWriteOwner o = cowKey s ->
  let p := next (heap w) in
  let w' := MkWorld (MkHeap (<[p := o]> (states (heap w))) (p + 1))
    (<[i := MkSpace (cowKey s) (map_replace (mo, p) (objects s))]> (spaces w)) in
  world_ok K w' /\ views w' (<[i := replace_in (mo, data o) m]> ms) /\
  (forall v, v ∈ elements (map_replace (mo, p) (objects s)) -> v = (mo, p) \/ v ∈ elements (objects s)) /\
  (mo, p) ∈ elements (map_replace (mo, p) (objects s)).
Proof.
  intros Hw Hv Hi Hm HP Hown p w'. destruct (w_space _ _ Hw i s Hi) as [Hs HK]. destruct (sp_tree _ _ Hs) as [Ho Hb].
  destruct (replace_ok fst MemoryObjectLT no_pair (mo, p) (objects s) Ho Hb) as (Hb' & He & _).
  change (elements (map_replace (mo, p) (objects s)) = replace_in (mo, p) (elements (objects s))) in He.
  assert (Ho' : ordered fst MemoryObjectLT (elements (map_replace (mo, p) (objects s)))).
  { rewrite He. by apply (ordered_replace fst MemoryObjectLT). }
  assert (Hlt : forall j s2 v, spaces w !! j = Some s2 -> v ∈ elements (objects s2) -> v.2 < p) by (intros; by eapply live_next).
  assert (Hin : forall v, v ∈ elements (map_replace (mo, p) (objects s)) -> v = (mo, p) \/ v ∈ elements (objects s)).
  { intros v Hv'. rewrite He in Hv'. by apply in_replace. }
  assert (Hold : forall j s2 v, spaces w !! j = Some s2 -> v ∈ elements (objects s2) -> <[p := o]> (states (heap w)) !! v.2 = states (heap w) !! v.2).
  { intros j s2 v Hj Hv'. apply lookup_insert_ne. pose proof (Hlt j s2 v Hj Hv'). lia. }
  split_and!; [| |exact Hin|].
  - apply (world_ok_update K w i s); [done|done|done| | | |].
    + split; [by split| |].
      * intros v Hv'. cbn [objects cowKey states]. destruct (Hin v Hv') as [->|Hv0].
        -- cbn [snd]. rewrite lookup_insert_eq. exists o. split_and!; [done|done|lia].
        -- rewrite (Hold i s v Hi Hv0). by apply (sp_live _ _ Hs).
      * cbn [objects]. rewrite He. apply nodup_parts; [done|apply Hs|]. intros v Hv'. pose proof (Hlt i s v Hi Hv'). simpl. lia.
    + intros j s2 v _ Hj Hv'. by apply (Hold j s2).
    + intros v Hv'. destruct (Hin v Hv') as [->|Hv0]; [right|left; by exists v].
      intros j s2 v2 _ Hj Hv2. pose proof (Hlt j s2 v2 Hj Hv2). simpl. lia.
    + intros q. cbn [states next]. destruct (decide (q = p)) as [->|Hne]; [lia|]. rewrite lookup_insert_ne by done.
      intros Hq. pose proof (w_next _ _ Hw q Hq). unfold p. lia.
  - apply views_update; [done| |intros j s2 v _ Hj Hv'; by apply (Hold j s2)].
    unfold sees. cbn [objects]. rewrite He. unfold seq_replace. cbn [fst].
    assert (Hs' : sees (MkHeap (<[p := o]> (states (heap w))) (p + 1)) s m).
    { eapply entries_ext; [by eapply views_at|]. intros v Hv'. by apply (Hold i s). }
    apply Forall2_app; [by apply entries_below|]. constructor; [|by apply entries_above].
    split; [done|]. exists o. split; [|done]. cbn [snd states]. by rewrite lookup_insert_eq.
  - rewrite He. unfold seq_replace. apply elem_of_app. right. left.
Qed.

(** A state that the path owns is changed. *)
Lemma at_member (v : ObjectPair) l :
  ordered fst MemoryObjectLT l -> v ∈ l ->
  l = below fst MemoryObjectLT v.1 l ++ v :: above fst MemoryObjectLT v.1 l.
Proof.
  intros Ho Hv. destruct (parts_ordered fst MemoryObjectLT v.1 l Ho) as [E Hn].
  assert (Hin : v ∈ at_key fst MemoryObjectLT v.1 l).
  { apply list_elem_of_In, filter_In. split; [by apply list_elem_of_In|]. unfold MemoryObjectLT. by rewrite Z.ltb_irrefl. }
  destruct (at_key fst MemoryObjectLT v.1 l) as [|x [|y r]]; [by apply elem_of_nil in Hin| |simpl in Hn; lia].
  apply list_elem_of_singleton in Hin as ->. exact E.
Qed.
Lemma update_owned_ok K w ms i s m mo p o o' :
  world_ok K w -> views w ms -> spaces w !! i = Some s -> ms !! i = Some m -> (mo, p) ∈ elements (objects s) ->
  states (heap w) !! p = Some o -> copyOnWriteOwner o = cowKey s -> P o' -> copyOnWriteOwner o' = copyOnWriteOwner o ->
  let w' := MkWorld (put_state (heap w) p o') (<[i := s]> (spaces w)) in
  world_ok K w' /\ views w' (<[i := replace_in (mo, data o') m]> ms).
Proof.
  intros Hw Hv Hi Hm Hin Hp Hown HP Hown' w'. destruct (w_space _ _ Hw i s Hi) as [Hs HK].
  destruct (sp_tree _ _ Hs) as [Ho Hb]. pose proof (at_member (mo, p) _ Ho Hin) as E. cbn [fst] in E.
  assert (Hothers : forall j s2 v, j <> i -> spaces w !! j = Some s2 -> v ∈ elements (objects s2) -> v.2 <> p).
  { intros j s2 v Hne Hj Hv2 Heq. pose proof (w_separate _ _ Hw i j s s2 ltac:(done) Hi Hj (mo, p) v o Hin Hv2) as Hlt.
    cbn [snd] in Hlt. specialize (Hlt ltac:(done) Hp). lia. }
  assert (Hmine : forall v, v ∈ below fst MemoryObjectLT mo (elements (objects s)) \/ v ∈ above fst MemoryObjectLT mo (elements (objects s)) -> v.2 <> p).
  { intros v Hor Heq. pose proof (sp_nodup _ _ Hs) as Hn. rewrite E, fmap_app, fmap_cons in Hn. apply list.NoDup_app in Hn as (_ & H1 & H2).
    apply list.NoDup_cons in H2 as [H2 _]. destruct Hor as [Hb'|Ha]; [apply (H1 v.2)|apply H2].
    - apply list_elem_of_fmap. by exists v.
    - rewrite Heq. left.
    - rewrite <- Heq. apply list_elem_of_fmap. by exists v. }
  split.
  - apply (world_ok_update K w i s); [done|done|done| | | |].
    + destruct Hs as [T L N]. split; [done| |done]. intros v Hv'. unfold put_state. cbn [states].
      destruct (decide (v.2 = p)) as [->|Hne]; [|rewrite lookup_insert_ne by done; by apply L].
      rewrite lookup_insert_eq. exists o'. split_and!; [done|done|lia].
    + intros j s2 v Hne Hj Hv'. apply lookup_insert_ne. intros Heq. by apply (Hothers j s2 v).
    + intros v Hv'. left. by exists v.
    + intros q. unfold put_state. cbn [states next]. destruct (decide (q = p)) as [->|Hne]; [|rewrite lookup_insert_ne by done; apply (w_next _ _ Hw)].
      intros _. apply (w_next _ _ Hw). by rewrite Hp.
  - pose proof (views_at _ _ _ _ _ Hv Hi Hm) as Hsees. apply views_update; [done| |].
    + unfold sees. rewrite E. unfold seq_replace. cbn [fst]. apply Forall2_app; [|constructor].
      * eapply entries_ext; [by apply entries_below|]. intros v Hv'. apply lookup_insert_ne. intros Heq. apply (Hmine v); [by left|done].
      * split; [done|]. exists o'. split; [|done]. apply lookup_insert_eq.
      * eapply entries_ext; [by apply entries_above|]. intros v Hv'. apply lookup_insert_ne. intros Heq. apply (Hmine v); [by right|done].
    + intros j s2 v Hne Hj Hv'. apply lookup_insert_ne. intros Heq. by apply (Hothers j s2 v).
Qed.

(** ** Operations *)
Definition op_ok (op : operation) : Prop :=
  match op with Bind _ _ o => P o | Write _ _ f => forall o, P o -> P (f o) | _ => True end.

Lemma replace_twice {A} (mo : MemoryObject) (x y : A) (m : list (MemoryObject * A)) :
  ordered fst MemoryObjectLT m -> replace_in (mo, x) (replace_in (mo, y) m) = replace_in (mo, x) m.
Proof.
  intros Ho. pose proof (ordered_replace fst MemoryObjectLT (mo, y) m Ho) as Ho'. unfold seq_replace in *. cbn [fst] in *.
  destruct (mid_equal fst MemoryObjectLT _ (mo, y) _ Ho' mo) as (-> & _ & ->); [apply Z.ltb_irrefl|apply Z.ltb_irrefl|done].
Qed.
Lemma space_memory w ms i s :
  views w ms -> spaces w !! i = Some s -> exists m, ms !! i = Some m /\ sees (heap w) s m.
Proof. intros Hv Hi. by eapply Forall2_lookup_l in Hv. Qed.
Lemma no_memory w ms i : views w ms -> spaces w !! i = None -> ms !! i = None.
Proof. intros Hv Hi. apply lookup_ge_None. apply lookup_ge_None in Hi. by rewrite <- (Forall2_length Hv). Qed.

(** The runs agree: both end, in worlds that agree, or stop alike. *)
Definition agree (K : Z) (r : result World) (a : result (list PathMemory)) : Prop :=
  match r, a with
  | Ret w, Ret ms => world_ok K w /\ views w ms
  | Stop e, Stop e' => e = e'
  | _, _ => False
  end.

Lemma new_agrees K w ms : world_ok K w -> views w ms -> 1 <= K -> agree K (run_operation NewSpace w) (abs_operation NewSpace ms).
Proof.
  intros Hw Hv HK. split.
  - split; cbn [heap spaces]; [| |apply (w_next _ _ Hw)].
    + intros i s Hi. apply lookup_app_Some in Hi as [Hi|[_ Hi]]; [by apply (w_space _ _ Hw i)|].
      apply list_lookup_singleton_Some in Hi as [_ <-]. split; [|simpl; lia].
      split; [apply ImmTreeMain.empty_ok|intros v Hv'; by apply elem_of_nil in Hv'|constructor].
    + intros i j s s' Hne Hi Hj v v' o Hv1 Hv2.
      apply lookup_app_Some in Hi as [Hi|[_ Hi]]; apply lookup_app_Some in Hj as [Hj|[_ Hj]].
      * by apply (w_separate _ _ Hw i j s s' Hne Hi Hj v v' o).
      * apply list_lookup_singleton_Some in Hj as [_ <-]. by apply elem_of_nil in Hv2.
      * apply list_lookup_singleton_Some in Hi as [_ <-]. by apply elem_of_nil in Hv1.
      * apply list_lookup_singleton_Some in Hi as [_ <-]. by apply elem_of_nil in Hv1.
  - apply Forall2_app; [done|]. constructor; [constructor|constructor].
Qed.

(** After a fork both paths have a key that no state has. *)
Lemma fork_agrees i K w ms :
  world_ok K w -> views w ms -> K + 1 < 2 ^ 32 -> agree (K + 1) (run_operation (Fork i) w) (abs_operation (Fork i) ms).
Proof.
  intros Hw Hv HK. cbn [run_operation abs_operation]. unfold space_at, memory_at.
  destruct (spaces w !! i) as [s|] eqn:Hi; [|by rewrite (no_memory w ms i)].
  destruct (space_memory w ms i s Hv Hi) as (m & -> & Hs). cbn [mbind result_bind]. unfold copy_space.
  destruct (w_space _ _ Hw i s Hi) as [Hok Hk]. change (2 ^ 32) with 4294967296 in HK. rewrite u32_small by lia.
  set (s' := MkSpace (cowKey s + 1) (objects s)). assert (Hlt : (i < length (spaces w))%nat) by (by eapply lookup_lt_Some).
  assert (Hcase : forall j t, (<[i := s']> (spaces w) ++ [s']) !! j = Some t ->
    (t = s' /\ (j = i \/ j = length (spaces w))) \/ (spaces w !! j = Some t /\ j <> i /\ (j < length (spaces w))%nat)).
  { intros j t Hj. apply lookup_app_Some in Hj as [Hj|[Hlen Hj]].
    - apply list_lookup_insert_Some in Hj as [(-> & <- & _)|(Hne & Hj)]; [by left; split; [|left]|right].
      split_and!; [done|done|by eapply lookup_lt_Some].
    - apply list_lookup_singleton_Some in Hj as [Hz <-]. rewrite length_insert in Hlen, Hz. left. split; [done|right; lia]. }
  assert (Hlow : forall v o, v ∈ elements (objects s) -> states (heap w) !! v.2 = Some o -> copyOnWriteOwner o < cowKey s + 1).
  { intros v o Hin Ho. destruct (sp_live _ _ Hok v Hin) as (o' & Ho' & _ & Hle). simplify_eq. lia. }
  split.
  - split; cbn [heap spaces]; [| |apply (w_next _ _ Hw)].
    + intros j t Hj. apply Hcase in Hj as [[-> _]|(Hj & _)].
      * split; [|cbn [cowKey s']; lia]. destruct Hok as [T L N]. split; [done| |done]. intros v Hin.
        destruct (L v Hin) as (o & A & B & C). exists o. split_and!; [done|done|cbn [cowKey s']; lia].
      * destruct (w_space _ _ Hw j t Hj). split; [done|lia].
    + intros j j' t t' Hne Hj Hj' v v' o Hin Hin' Hvv Ho.
      apply Hcase in Hj as [[-> _]|(Hj & Hji & _)]; [by apply (Hlow v)|].
      apply Hcase in Hj' as [[-> _]|(Hj' & _)].
      * by apply (w_separate _ _ Hw j i t s Hji Hj Hi v v' o).
      * by apply (w_separate _ _ Hw j j' t t' Hne Hj Hj' v v' o).
  - apply Forall2_app; [|by constructor; [exact Hs|constructor]].
    apply Forall2_same_length_lookup_2; [cbn [spaces]; rewrite length_insert; by eapply Forall2_length|].
    intros j t m' Hj Hm'. apply list_lookup_insert_Some in Hj as [(-> & <- & _)|(_ & Hj)]; [|exact (views_at w ms j t m' Hv Hj Hm')].
    exact (views_at w ms j s m' Hv Hi Hm').
Qed.

Lemma bind_agrees i mo o K w ms :
  world_ok K w -> views w ms -> P o -> agree K (run_operation (Bind i mo o) w) (abs_operation (Bind i mo o) ms).
Proof.
  intros Hw Hv HP. cbn [run_operation abs_operation]. unfold space_at, memory_at.
  destruct (spaces w !! i) as [s|] eqn:Hi; [|by rewrite (no_memory w ms i)].
  destruct (space_memory w ms i s Hv Hi) as (m & Hm & Hs). rewrite Hm. cbn [mbind result_bind].
  unfold new_state, bindObject, deref_state. cbn [states]. rewrite lookup_insert_eq. cbn [mbind result_bind].
  destruct (Z.eqb_spec (copyOnWriteOwner o) 0) as [E|]; [|done]. cbn [negb mbind result_bind agree fst snd].
  unfold put_state. cbn [states next]. rewrite insert_insert_eq.
  destruct (rebind_ok K w ms i s m mo (set_owner (cowKey s) o) Hw Hv Hi Hm (P_owner _ _ HP) eq_refl) as (A & B & _).
  split; [exact A|]. replace (data (set_owner (cowKey s) o)) with o in B; [exact B|]. destruct o. cbn in E. by subst.
Qed.

Lemma unbind_agrees i mo K w ms :
  world_ok K w -> views w ms -> agree K (run_operation (Unbind i mo) w) (abs_operation (Unbind i mo) ms).
Proof.
  intros Hw Hv. cbn [run_operation abs_operation]. unfold space_at, memory_at.
  destruct (spaces w !! i) as [s|] eqn:Hi; [|by rewrite (no_memory w ms i)].
  destruct (space_memory w ms i s Hv Hi) as (m & Hm & Hs). rewrite Hm. cbn [mbind result_bind].
  destruct (w_space _ _ Hw i s Hi) as [[[Ho Hb] L N] HK].
  destruct (remove_ok fst MemoryObjectLT no_pair mo (objects s) Ho Hb) as (Hb' & He & _).
  change (elements (map_remove mo (objects s)) = remove_from mo (elements (objects s))) in He.
  assert (Hin : forall v, v ∈ elements (map_remove mo (objects s)) -> v ∈ elements (objects s)).
  { intros v. rewrite He. unfold seq_remove. rewrite elem_of_app. unfold below, above. rewrite !list_elem_of_In, !filter_In. tauto. }
  split.
  - apply (world_ok_update K w i s); [done|done|done| |done| |apply (w_next _ _ Hw)].
    + split; cbn [objects unbindObject].
      * split; [|done]. rewrite He. by apply (ordered_remove fst MemoryObjectLT).
      * intros v Hv'. apply L. by apply Hin.
      * rewrite He. unfold seq_remove. destruct (parts_ordered fst MemoryObjectLT mo _ Ho) as [E _]. rewrite E in N.
        eapply sublist_NoDup; [exact N|]. apply fmap_sublist. apply sublist_app; [done|]. by apply sublist_inserts_l.
    + intros v Hv'. left. exists v. split; [by apply Hin|done].
  - apply views_update; [done| |done]. unfold sees. cbn [objects unbindObject]. rewrite He. unfold seq_remove.
    apply Forall2_app; [by apply entries_below|by apply entries_above].
Qed.

(** Changing the state that was found; the path owns it now. *)
Lemma write_agrees i mo f K w ms :
  world_ok K w -> views w ms -> (forall o, P o -> P (f o)) ->
  agree K (run_operation (Write i mo f) w) (abs_operation (Write i mo f) ms).
Proof.
  intros Hw Hv Hf. cbn [run_operation abs_operation]. unfold space_at, memory_at.
  destruct (spaces w !! i) as [s|] eqn:Hi; [|by rewrite (no_memory w ms i)].
  destruct (space_memory w ms i s Hv Hi) as (m & Hm & Hs). rewrite Hm. cbn [mbind result_bind].
  destruct (w_space _ _ Hw i s Hi) as [Hok HK]. destruct (sp_tree _ _ Hok) as [Ho Hb].
  pose proof (lookup_ok fst MemoryObjectLT mo (objects s) Ho) as El.
  change (map_lookup mo (objects s) = hd_error (at_key fst MemoryObjectLT mo (elements (objects s)))) in El. rewrite El.
  pose proof (entries_at (heap w) mo _ _ Hs) as Hat.
  destruct (at_key fst MemoryObjectLT mo (elements (objects s))) as [|[mo' p] r] eqn:Ea;
    [apply Forall2_nil_inv_l in Hat as ->; done|].
  apply Forall2_cons_inv_l in Hat as ([mo1 d] & r' & [Emo (o & Hp & Hd)] & _ & ->). cbn [fst snd] in *. subst mo1 d. cbn [hd_error].
  assert (Hin : (mo', p) ∈ elements (objects s)).
  { assert (Hx : (mo', p) ∈ at_key fst MemoryObjectLT mo (elements (objects s))) by (rewrite Ea; left).
    apply list_elem_of_In, filter_In in Hx as [Hx _]. by apply list_elem_of_In. }
  destruct (sp_live _ _ Hok _ Hin) as (o1 & Hp1 & HP & Hle). cbn [snd] in Hp1. rewrite Hp in Hp1. injection Hp1 as <-.
  unfold getWriteable, deref_state. rewrite Hp. cbn [mbind result_bind]. change (readOnly (data o)) with (readOnly o).
  destruct (readOnly o) eqn:Hro; [done|]. assert (HPc : forall k, P (change f (set_owner k o))).
  { intros k. unfold change. by apply P_owner, Hf, P_owner, P_owner. }
  assert (Hchange : forall k, data (change f (set_owner k o)) = change f (data o)) by done.
  destruct (Z.eqb_spec (cowKey s) (copyOnWriteOwner o)) as [Eo|Eo].
  - cbn [mbind result_bind]. rewrite Hp. cbn [mbind result_bind].
    pose proof (HPc (copyOnWriteOwner o)) as HPo. replace (set_owner (copyOnWriteOwner o) o) with o in HPo by (by destruct o).
    destruct (update_owned_ok K w ms i s m mo' p o (change f o) Hw Hv Hi Hm Hin Hp) as [A B]; [done|done|done|].
    split; [exact A|exact B].
  - rewrite (P_copy o HP Hro). cbn [mbind result_bind]. unfold new_state. cbn [mbind result_bind states next]. rewrite lookup_insert_eq. cbn [mbind result_bind].
    destruct (rebind_ok K w ms i s m mo' (set_owner (cowKey s) (data o)) Hw Hv Hi Hm) as (A & B & _ & D);
      [by apply P_owner, P_owner|done|].
    assert (Hlt : (i < length (spaces w))%nat) by (by eapply lookup_lt_Some).
    assert (Hltm : (i < length ms)%nat) by (by eapply lookup_lt_Some).
    match type of A with world_ok _ ?w1 => destruct (update_owned_ok K w1 _ i (MkSpace (cowKey s) (map_replace (mo', next (heap w)) (objects s)))
      (replace_in (mo', data (set_owner (cowKey s) (data o))) m) mo' (next (heap w)) (set_owner (cowKey s) (data o))
      (change f (set_owner (cowKey s) (data o))) A B) as [A' B'] end.
    + cbn [spaces]. by apply list_lookup_insert_eq.
    + by apply list_lookup_insert_eq.
    + exact D.
    + cbn [heap states]. apply lookup_insert_eq.
    + done.
    + apply HPc.
    + done.
    + cbn [heap spaces] in A', B'. rewrite !list_insert_insert_eq in A', B'. split; [exact A'|].
      rewrite replace_twice, list_insert_insert_eq in B'; [exact B'|by eapply entries_ordered].
Qed.

Lemma operation_agrees op K w ms :
  world_ok K w -> views w ms -> op_ok op -> 1 <= K -> K + 1 < 2 ^ 32 ->
  agree (K + 1) (run_operation op w) (abs_operation op ms).
Proof.
  intros Hw Hv Hop H1 HK.
  assert (Hmono : agree K (run_operation op w) (abs_operation op ms) -> agree (K + 1) (run_operation op w) (abs_operation op ms)).
  { unfold agree. destruct (run_operation op w), (abs_operation op ms); try done. intros [A B]. split; [|done].
    eapply world_ok_mono; [exact A|lia]. }
  destruct op as [|i|i mo o|i mo|i mo f]; [apply Hmono; by apply new_agrees|by apply fork_agrees|apply Hmono; by apply bind_agrees
    |apply Hmono; by apply unbind_agrees|apply Hmono; by apply write_agrees].
Qed.
Lemma operations_agree ops : forall K w ms,
  world_ok K w -> views w ms -> Forall op_ok ops -> 1 <= K -> K + Z.of_nat (length ops) < 2 ^ 32 ->
  agree (K + Z.of_nat (length ops)) (run_operations ops w) (abs_operations ops ms).
Proof.
  induction ops as [|op ops IH]; intros K w ms Hw Hv Hops H1 HK; [by rewrite Z.add_0_r|].
  apply Forall_cons_iff in Hops as [Hop Hops]. simpl in HK. pose proof (operation_agrees op K w ms Hw Hv Hop H1 ltac:(lia)) as Ha.
  cbn [run_operations abs_operations]. destruct (run_operation op w) as [w1|e], (abs_operation op ms) as [ms1|e']; try done.
  destruct Ha as [A B]. cbn [mbind result_bind length]. replace (K + Z.of_nat (S (length ops))) with (K + 1 + Z.of_nat (length ops)) by lia.
  apply IH; (done || lia).
Qed.

(** C5. Sharing object states is not observable: for every sequence of new paths, forks,
    bindings, unbindings and writes, fewer than 2^32 - 1, over any number of paths, the
    run with shared states and keys stops exactly where separate memories stop, and in
    the same way; and otherwise each path sees the memory that it would have by itself.
    The owners of the states in a path are at most its key, as AddressSpace.h says, and
    a state that two paths share belongs to neither. *)
Theorem cow_unobservable ops :
  Forall op_ok ops -> Z.of_nat (length ops) < 2 ^ 32 - 1 ->
  match run_operations ops no_spaces, abs_operations ops [] with
  | Ret w, Ret ms => views w ms /\ world_ok (1 + Z.of_nat (length ops)) w
  | Stop e, Stop e' => e = e'
  | _, _ => False
  end.
Proof.
  intros Hops Hlen. assert (H0 : world_ok 1 no_spaces).
  { split; cbn [heap spaces no_spaces]; [done|done|]. intros p [o Hp]. done. }
  pose proof (operations_agree ops 1 no_spaces [] H0 (Forall2_nil _) Hops ltac:(lia) ltac:(lia)) as Ha.
  unfold agree in Ha. destruct (run_operations ops no_spaces), (abs_operations ops []); try done. by destruct Ha.
Qed.
End Cow.

(** ** Two paths that write to one object *)

Import MemoryOk MemoryBytes MemoryMain MemorySys.
(** Objects of [n] bytes: copies are exact. *)
Definition of_size (init : Expr.array -> Z -> option Z) (n : Z) (o : ObjectState) : Prop := exists mem, represents init n o mem.
Lemma of_size_owner init n k o : of_size init n o -> of_size init n (set_owner k o).
Proof. intros (mem & d & L & I & C). exists mem, d. split_and!; [by destruct L|done|done]. Qed.
Lemma of_size_copy init n o : of_size init n o -> readOnly o = false -> copy_ObjectState o = Ret (data o).
Proof.
  intros (mem & d & L & _) Hr. unfold copy_ObjectState, data. rewrite Hr. destruct L as [L1 L2 L3 L4 L5 L6 L7].
  assert (Htake : forall A (l : list A) (f : Z -> A), array_is n l f -> take (Z.to_nat (osize o)) l = l).
  { intros A l f [Hl _]. apply take_ge. lia. }
  f_equal. destruct o as [ow ob st cm fm ks ro he sz rd]. cbn in *. subst sz rd. unfold set_owner. cbn. f_equal.
  - by eapply Htake.
  - destruct cm as [b|]; [|done]. simpl. destruct L3 as [Hs _]. by rewrite BitArray.BitArray.copy_same.
  - destruct fm as [b|]; [|done]. simpl. destruct L4 as [Hs _]. by rewrite BitArray.BitArray.copy_same.
  - destruct ks as [l|]; [|done]. simpl. f_equal. by eapply Htake.
Qed.

Import ExprMain.
Definition object1 : MemoryObject := MkMO 1 4096 8 false.
(** A write at a symbolic offset, and one at a constant offset. *)
Definition write_symbolic (o : ObjectState) : ObjectState :=
  match write false true somewhere (byte 1) o with Ret (_, o') => o' | Stop _ => o end.
Definition write_constant (o : ObjectState) : ObjectState :=
  match write false true (Expr.Constant 64 1) (Expr.Constant 32 305419896) o with Ret (_, o') => o' | Stop _ => o end.
Definition eight_bytes : ObjectState -> Prop := of_size (assigned false asg) 8.
Lemma write_keeps offset value a x :
  points (assigned false asg) 8 offset (Expr.getWidth value) a -> Expr.width_ok value = true ->
  Expr.eval (assigned false asg) value = Some x ->
  forall o, eight_bytes o -> eight_bytes (match write false true offset value o with Ret (_, o') => o' | Stop _ => o end).
Proof.
  intros (Ho & Hf & Hw & Hin & p & Hp & ->) Hval Hx o (mem & Hr).
  pose proof (write_run false (assigned false asg) (assigned_admissible false asg) 8 ltac:(lia) true offset p _ Ho Hp Hf Hw Hin value x o mem
    Hval eq_refl Hx Hr) as Hrun.
  apply runs_out in Hrun as ([] & o' & -> & R). by eexists.
Qed.
Definition two_paths : list operation :=
  [NewSpace; Bind 0 object1 eight; Fork 0; Write 0 object1 write_symbolic; Write 1 object1 write_constant; Fork 1;
   Write 2 object1 write_symbolic].
Lemma two_paths_ok : Forall (op_ok eight_bytes) two_paths.
Proof.
  repeat constructor; simpl.
  - exists (fun _ => Some 0). exact eight_zero.
  - apply (write_keeps somewhere (byte 1) 0 2); [apply somewhere_points; [apply bytes_8|done]|done|done].
  - apply (write_keeps (Expr.Constant 64 1) (Expr.Constant 32 305419896) 1 305419896); [apply one_points; apply bytes_32|done|done].
  - apply (write_keeps somewhere (byte 1) 0 2); [apply somewhere_points; [apply bytes_8|done]|done|done].
Qed.
Lemma cow_unobservable_witness :
  exists w ms, run_operations two_paths no_spaces = Ret w /\ abs_operations two_paths [] = Ret ms /\ length ms = 3%nat /\ views w ms.
Proof.
  pose proof (cow_unobservable eight_bytes (of_size_owner _ 8) (of_size_copy _ 8) two_paths two_paths_ok ltac:(vm_compute; reflexivity)) as H.
  destruct (run_operations two_paths no_spaces) as [w|e] eqn:Ew; [|exfalso; vm_compute in Ew; discriminate Ew].
  destruct (abs_operations two_paths []) as [ms|e] eqn:Em; [|destruct H].
  exists w, ms. split; [reflexivity|]. split; [reflexivity|]. split; [vm_compute in Em; injection Em as <-; reflexivity|apply H].
Defined.
End AddressSpaceCow.
