(* ===== verification/AddressSpaceMain.v ===== *)
(** * The resolution of pointers

The loops over the objects ([AddressSpaceRes]), and what a pointer is resolved to
    ([AddressSpaceMain]). *)
From stdpp Require Import base gmap list sets strings numbers.
From Stdlib Require Import ZArith Lia Sorting.Sorted.
From S2P Require Import Prelude ExprData ExprFacts ExprCreate ExprSound ExprMain Memory ImmTree ImmTreeOk ImmTreeMain.
From S2P Require Import ImmTreeMain AddressSpace AddressSpaceCow ExprEval.

(** * Address spaces: resolving pointers

    The objects a pointer is resolved to are those it can point to, under what the solver's
    answers mean. *)
Module AddressSpaceRes.
Import Expr ExprFacts Create Sound ExprMain Memory AddressSpace AddressSpaceCow ImmTreeOk.

(** ** Objects in memory *)
Definition in_object (mo : MemoryObject) (a : Z) : Prop :=
  (mo_size mo = 0 /\ a = address mo) \/ address mo <= a < address mo + mo_size mo.

(** Objects inside the [w]-bit addresses, none of which overlap; an empty one takes a byte. *)
Definition fits_in (w : Z) (mo : MemoryObject) : Prop :=
  0 <= address mo < 2 ^ w /\ 0 <= mo_size mo < 2 ^ w /\ address mo + mo_size mo <= 2 ^ w.
Definition apart (v w : ObjectPair) : Prop := address v.1 + Z.max 1 (mo_size v.1) <= address w.1.
Definition placed (w : Z) (l : list ObjectPair) : Prop := Forall (fun v => fits_in w v.1) l /\ StronglySorted apart l.

(** An address after the beginning of an object is in no earlier one. *)
Lemma earlier_not_in v w a : apart v w -> address w.1 <= a -> ~ in_object v.1 a.
Proof. unfold apart, in_object. lia. Qed.
Lemma later_not_in v w a : apart v w -> a < address v.1 -> ~ in_object w.1 a.
Proof. unfold apart, in_object. lia. Qed.
Lemma in_object_above mo a : in_object mo a -> address mo <= a.
Proof. unfold in_object. lia. Qed.
Lemma in_one_object l v w a :
  StronglySorted apart l -> v ∈ l -> w ∈ l -> in_object v.1 a -> in_object w.1 a -> v = w.
Proof.
  intros Hs Hv Hw Ha Hb. apply list_elem_of_split in Hv as (l1 & l2 & ->).
  apply elem_of_app in Hw as [Hw|Hw]; [|apply elem_of_cons in Hw as [->|Hw]; [done|]].
  - assert (apart w v) as H by (eapply sorted_split; [exact Hs|done|left]).
    by destruct (earlier_not_in w v a H (in_object_above _ _ Ha)).
  - assert (apart v w) as H.
    { change (v :: l2) with ([v] ++ l2) in Hs. rewrite app_assoc in Hs. eapply sorted_split; [exact Hs| |done].
      apply elem_of_app. right. left. }
    by destruct (earlier_not_in v w a H (in_object_above _ _ Hb)).
Qed.

(** ** Constant addresses *)
Lemma below_at_address a (l : list ObjectPair) v :
  v ∈ below fst MemoryObjectLT (hack a) l ++ at_key fst MemoryObjectLT (hack a) l <-> v ∈ l /\ address v.1 <= a.
Proof.
  unfold below, at_key, MemoryObjectLT. rewrite elem_of_app, !list_elem_of_In, !filter_In. simpl.
  destruct (Z.ltb_spec (address v.1) a), (Z.ltb_spec a (address v.1)); simpl; intuition (try done; lia).
Qed.
Lemma resolveOne_const_ok s a v :
  tree_ok (objects s) -> placed 64 (elements (objects s)) -> 0 <= a < 2 ^ 64 ->
  resolveOne_const s a = Some v <-> v ∈ elements (objects s) /\ in_object v.1 a.
Proof.
  intros [Ho Hb] [Hf Hs] Ha. unfold resolveOne_const.
  pose proof (previous_ok fst MemoryObjectLT (hack a) (objects s) None Ho) as E.
  change (ImmTree.previous_from fst MemoryObjectLT None (hack a) (objects s)) with (map_previous (hack a) (objects s)) in E.
  pose proof (below_at_address a (elements (objects s))) as Hlow.
  pose proof (proj1 (parts_ordered fst MemoryObjectLT (hack a) _ Ho)) as Hparts. rewrite app_assoc in Hparts.
  set (L := below fst MemoryObjectLT (hack a) (elements (objects s)) ++ at_key fst MemoryObjectLT (hack a) (elements (objects s))) in *.
  destruct (list.last L) as [u|] eqn:El; rewrite E; clear E.
  - apply list.last_Some in El as [L' EL]. assert (Hu : u ∈ L) by (rewrite EL; apply elem_of_app; right; left).
    destruct (proj1 (Hlow u) Hu) as [Hu1 Hu2]. rewrite list.Forall_forall in Hf. destruct (Hf u Hu1) as (F1 & F2 & F3).
    assert (Hsub : u64 (a - address u.1) = a - address u.1) by (apply u64_small; change 18446744073709551616 with (2 ^ 64); lia).
    rewrite Hsub. assert (Hiff : ((mo_size u.1 =? 0) && (a =? address u.1)) || (a - address u.1 <? mo_size u.1) = true <-> in_object u.1 a).
    { rewrite orb_true_iff, andb_true_iff, !Z.eqb_eq, Z.ltb_lt. unfold in_object. lia. }
    destruct (_ || _).
    + split; [intros [= <-]; split; [done|by apply Hiff]|]. intros [Hv Hin]. f_equal.
      by apply (in_one_object _ u v a Hs); [..|apply Hiff|].
    + split; [done|]. intros [Hv Hin]. exfalso. assert (HvL : v ∈ L) by (apply Hlow; split; [done|by apply in_object_above]).
      rewrite EL in HvL. apply elem_of_app in HvL as [HvL|HvL].
      * rewrite Hparts, EL, <- app_assoc in Hs.
        apply (earlier_not_in v u a); [|done|done]. eapply sorted_split; [exact Hs|done|left].
      * apply list_elem_of_singleton in HvL as ->. by apply Hiff in Hin.
  - apply list.last_None in El. split; [done|]. intros [Hv Hin]. exfalso.
    assert (HvL : v ∈ L) by (apply Hlow; split; [done|by apply in_object_above]). rewrite El in HvL. by apply elem_of_nil in HvL.
Qed.
(** ** Symbolic addresses *)
(** An answer that a pointer is in the object, or on one side of its beginning. *)
Definition inside (mo : MemoryObject) (p : Z) : bool :=
  if mo_size mo =? 0 then p =? address mo else (address mo <=? p) && (p <? address mo + mo_size mo).
Lemma inside_iff mo p : 0 <= mo_size mo -> inside mo p = true <-> in_object mo p.
Proof.
  unfold inside, in_object. intros Hs. destruct (Z.eqb_spec (mo_size mo) 0); [rewrite Z.eqb_eq; lia|].
  rewrite andb_true_iff, Z.leb_le, Z.ltb_lt. lia.
Qed.

Section Queries.
Context {ap : APInt} {ap_ok : APIntOk} (opt : bool) (w : Z) (Hw : 0 < w).
Context (pointer : expr) (Hok : width_ok pointer = true) (Hwidth : getWidth pointer = w).

(** A boolean expression that says [f] of the value of the pointer. *)
Definition says (r : result expr) (f : Z -> bool) : Prop :=
  exists e, r = Ret e /\ width_ok e = true /\ getWidth e = 1 /\
    forall init p, admissible opt init -> eval init pointer = Some p -> eval init e = Some (b2z (f p)).

Lemma created k l r :
  width_ok l = true -> width_ok r = true -> getWidth l = getWidth r -> div_ok k l r = true ->
  exists e, create_binary opt k l r = Ret e /\ width_ok e = true /\ getWidth e = getWidth (Binary k l r) /\
    forall init, admissible opt init -> refines init (Binary k l r) e.
Proof. intros Hl Hr E Hd. apply implements_all. intros init [Hi Ho]. by apply create_binary_impl. Qed.
Lemma constant_created v : 0 <= v < 2 ^ w -> create_Constant v w = Ret (Constant w v) /\ width_ok (Constant w v) = true.
Proof.
  intros Hv. unfold create_Constant. rewrite Z.mod_small, Z.eqb_refl by done. split; [done|]. simpl.
  apply andb_true_intro. split; [lia|]. by apply fits_iff.
Qed.
Lemma base_compared k f mo :
  fits_in w mo -> is_cmp k = true -> div_ok k pointer (Constant w (address mo)) = true ->
  (forall p, bv_binary k w p (address mo) = Some (b2z (f p))) ->
  says (b ← getBaseExpr w mo; create_binary opt k pointer b) f.
Proof.
  intros (H1 & _ & _) Hc Hd Hf. destruct (constant_created (address mo) H1) as [E1 E2]. unfold getBaseExpr. rewrite E1.
  cbn [mbind result_bind]. destruct (created k pointer (Constant w (address mo))) as (e & He & A & B & C); [done..|].
  exists e. split_and!; [done|done| |].
  - rewrite B. simpl. by rewrite Hc.
  - intros init p Hi Hp. apply C; [done|]. simpl. rewrite Hp. simpl. rewrite Hwidth. apply Hf.
Qed.
Lemma above_says mo :
  fits_in w mo -> says (b ← getBaseExpr w mo; create_binary opt Uge pointer b) (fun p => address mo <=? p).
Proof. intros H. by apply base_compared. Qed.
Lemma below_says mo :
  fits_in w mo -> says (b ← getBaseExpr w mo; create_binary opt Ult pointer b) (fun p => p <? address mo).
Proof. intros H. by apply base_compared. Qed.

(** The bounds check means that the pointer is in the object. *)
Lemma bounds_check_says mo : fits_in w mo -> says (getBoundsCheckPointer opt w mo pointer) (inside mo).
Proof.
  intros (H1 & H2 & H3). unfold getBoundsCheckPointer, getOffsetExpr, getBaseExpr.
  destruct (constant_created (address mo) H1) as [E1 E2]. rewrite E1. cbn [mbind result_bind].
  destruct (created Sub pointer (Constant w (address mo))) as (o & -> & A & B & C); [done..|]. cbn [mbind result_bind].
  simpl in B. rewrite Hwidth in B.
  assert (Ho : forall init p, admissible opt init -> eval init pointer = Some p ->
    eval init o = Some ((p - address mo) `mod` 2 ^ w) /\ 0 <= p < 2 ^ w).
  { intros init p Hi Hp. split; [|rewrite <- Hwidth; by apply (eval_fits init (proj1 Hi))].
    apply C; [done|]. simpl. rewrite Hp. simpl. by rewrite Hwidth. }
  unfold getBoundsCheckOffset, getSizeExpr, inside. destruct (Z.eqb_spec (mo_size mo) 0) as [Hz|Hz].
  - destruct (constant_created 0) as [_ E3]; [lia|].
    destruct (created Eq o (Constant w 0)) as (e & -> & D & E & F); [done..|]. exists e. split_and!; [done..|].
    intros init p Hi Hp. destruct (Ho init p Hi Hp) as [Hv Hb]. apply F; [done|]. simpl. rewrite Hv. simpl. do 2 f_equal.
    apply Bool.eq_iff_eq_true. rewrite !Z.eqb_eq. split; [|intros ->; by rewrite Z.sub_diag].
    intros Hm. apply Z.mod_divide in Hm as [q Hq]; [|lia]. assert (q = 0) by nia. lia.
  - destruct (constant_created (mo_size mo)) as [E3 E4]; [lia|]. rewrite E3. cbn [mbind result_bind].
    destruct (created Ult o (Constant w (mo_size mo))) as (e & -> & D & E & F); [done..|]. exists e. split_and!; [done..|].
    intros init p Hi Hp. destruct (Ho init p Hi Hp) as [Hv Hb]. apply F; [done|]. simpl. rewrite Hv. simpl. do 2 f_equal.
    apply Bool.eq_iff_eq_true. rewrite andb_true_iff, Z.leb_le, !Z.ltb_lt.
    destruct (Z.le_gt_cases (address mo) p).
    + rewrite Z.mod_small by lia. lia.
    + replace (p - address mo) with (p - address mo + 2 ^ w + (-1) * 2 ^ w) by lia. rewrite Z.mod_add, Z.mod_small by lia. lia.
Qed.
End Queries.
End AddressSpaceRes.

(** * Address spaces: what a symbolic pointer is resolved to

    Under the meaning of the solver's answers, [resolve] returns objects the pointer can
    point to, each once, and all of them unless it says that the list is incomplete. *)
Module AddressSpaceMain.
Import Expr ExprFacts Create ExprMain Memory AddressSpace AddressSpaceCow AddressSpaceRes ImmTreeOk.

(** ** What the answers of the solver mean *)
Definition query_ok (models : (array -> Z -> option Z) -> Prop) (e : expr) : Prop :=
  width_ok e = true /\ forall init, models init -> exists v, eval init e = Some v.
(** For the contents of the arrays [models] that the path allows. *)
Record solver_ok (models : (array -> Z -> option Z) -> Prop)
    (getValue : expr -> option Z) (mayBeTrue mustBeTrue : expr -> option bool) : Prop := {
  value_ok e v : query_ok models e -> getValue e = Some v -> exists init, models init /\ eval init e = Some v;
  may_ok e b : query_ok models e -> getWidth e = 1 -> mayBeTrue e = Some b ->
    b = true <-> exists init, models init /\ eval init e = Some 1;
  must_ok e b : query_ok models e -> getWidth e = 1 -> mustBeTrue e = Some b ->
    b = true <-> forall init, models init -> eval init e = Some 1
}.

Lemma in_rev_elem {A} (x : A) l : x ∈ rev l <-> x ∈ l.
Proof. by rewrite !list_elem_of_In, <- in_rev. Qed.
Lemma apart_NoDup l : StronglySorted apart l -> NoDup l.
Proof.
  induction 1 as [|v l Hs IH Hv]; constructor; [|done]. intros Hin.
  rewrite list.Forall_forall in Hv. specialize (Hv v Hin). unfold apart in Hv. lia.
Qed.

Section Solve.
Context {ap : APInt} {ap_ok : APIntOk} (opt : bool) (w : Z) (Hw : 0 < w <= 64).
Context (models : (array -> Z -> option Z) -> Prop).
Context (Hmodels : forall init, models init -> admissible opt init) (Hpath : exists init, models init).
Context (getValue : expr -> option Z) (mayBeTrue mustBeTrue : expr -> option bool).
Context (Hsolver : solver_ok models getValue mayBeTrue mustBeTrue).
Context (pointer : expr) (Hpointer : query_ok models pointer) (Hwidth : getWidth pointer = w).
Context (s : AddressSpace) (Htree : tree_ok (objects s)) (Hplaced : placed w (elements (objects s))).

(** The addresses the pointer may be, and the objects it may point to. *)
Definition address_of (p : Z) : Prop := exists init, models init /\ eval init pointer = Some p.
Definition possible (v : ObjectPair) : Prop := exists p, address_of p /\ in_object v.1 p.

Lemma says_query r f : says opt pointer r f -> exists e, r = Ret e /\ query_ok models e /\ getWidth e = 1 /\
  (forall b, mayBeTrue e = Some b -> b = true <-> exists p, address_of p /\ f p = true) /\
  (forall b, mustBeTrue e = Some b -> b = true <-> forall p, address_of p -> f p = true).
Proof.
  intros (e & -> & A & B & C). exists e. destruct Hpointer as [Hp1 Hp2].
  assert (Hq : query_ok models e).
  { split; [done|]. intros init Hi. destruct (Hp2 init Hi) as [p Hp]. exists (b2z (f p)). by apply C; [apply Hmodels|]. }
  assert (Hone : forall init p, models init -> eval init pointer = Some p -> eval init e = Some 1 <-> f p = true).
  { intros init p Hi Hp. rewrite (C init p (Hmodels _ Hi) Hp). by destruct (f p). }
  split_and!; [done..| |]; intros b Hb.
  - rewrite (may_ok _ _ _ _ Hsolver e b Hq B Hb). split.
    + intros (init & Hi & He). destruct (Hp2 init Hi) as [p Hp]. exists p. split; [by exists init|]. by apply (Hone init).
    + intros (p & (init & Hi & Hp) & Hf). exists init. split; [done|]. by apply (Hone init p).
  - rewrite (must_ok _ _ _ _ Hsolver e b Hq B Hb). split.
    + intros H p (init & Hi & Hp). apply (Hone init p Hi Hp). by apply H.
    + intros H init Hi. destruct (Hp2 init Hi) as [p Hp]. apply (Hone init p Hi Hp). apply H. by exists init.
Qed.

Abbreviation objs := (elements (objects s)).
Lemma obj_fits v : v ∈ objs -> fits_in w v.1.
Proof. destruct Hplaced as [H _]. rewrite list.Forall_forall in H. apply H. Qed.
Lemma bounds_query v : v ∈ objs -> exists e, getBoundsCheckPointer opt w v.1 pointer = Ret e /\
  (forall b, mayBeTrue e = Some b -> b = true <-> possible v) /\
  (forall b, mustBeTrue e = Some b -> b = true <-> forall p, address_of p -> in_object v.1 p).
Proof.
  intros Hv. pose proof (obj_fits v Hv) as Hf. destruct Hpointer as [Hp _].
  destruct (says_query _ _ (bounds_check_says opt w ltac:(lia) pointer Hp Hwidth v.1 Hf)) as (e & -> & _ & _ & A & B).
  assert (Hin : forall p, inside v.1 p = true <-> in_object v.1 p) by (intros p; apply inside_iff; destruct Hf as (_ & ? & _); lia).
  exists e. split_and!; [done| |]; intros b Hb.
  - rewrite (A b Hb). unfold possible. split; intros (p & H1 & H2); exists p; (split; [done|]); by apply Hin.
  - rewrite (B b Hb). split; intros H p Hp'; apply Hin; by apply H.
Qed.
Lemma above_query v : v ∈ objs -> exists e, (b ← getBaseExpr w v.1; create_binary opt Uge pointer b) = Ret e /\
  (forall b, mustBeTrue e = Some b -> b = true <-> forall p, address_of p -> address v.1 <= p).
Proof.
  intros Hv. destruct Hpointer as [Hp _].
  destruct (says_query _ _ (above_says opt w ltac:(lia) pointer Hp Hwidth v.1 (obj_fits v Hv))) as (e & E & _ & _ & _ & B).
  exists e. split; [done|]. intros b Hb. rewrite (B b Hb). by setoid_rewrite Z.leb_le.
Qed.
Lemma below_query v : v ∈ objs -> exists e, (b ← getBaseExpr w v.1; create_binary opt Ult pointer b) = Ret e /\
  (forall b, mustBeTrue e = Some b -> b = true <-> forall p, address_of p -> p < address v.1).
Proof.
  intros Hv. destruct Hpointer as [Hp _].
  destruct (says_query _ _ (below_says opt w ltac:(lia) pointer Hp Hwidth v.1 (obj_fits v Hv))) as (e & E & _ & _ & _ & B).
  exists e. split; [done|]. intros b Hb. rewrite (B b Hb). by setoid_rewrite Z.ltb_lt.
Qed.

(** Objects before one that the pointer is always above, after one it is always below. *)
Lemma none_before p v r u :
  objs = p ++ v :: r -> (forall a, address_of a -> address v.1 <= a) -> u ∈ p -> ~ possible u.
Proof.
  intros He Ha Hu (a & H1 & H2). destruct Hplaced as [_ Hs]. rewrite He in Hs.
  apply (earlier_not_in u v a); [|by apply Ha|done]. eapply sorted_split; [exact Hs|done|left].
Qed.
Lemma none_after p v r u :
  objs = p ++ v :: r -> (forall a, address_of a -> a < address v.1) -> u ∈ v :: r -> ~ possible u.
Proof.
  intros He Ha Hu (a & H1 & H2). specialize (Ha a H1). apply elem_of_cons in Hu as [->|Hu].
  { apply in_object_above in H2. lia. }
  destruct Hplaced as [_ Hs]. rewrite He in Hs. change (v :: r) with ([v] ++ r) in Hs. rewrite app_assoc in Hs.
  apply (later_not_in v u a); [|done|done]. eapply sorted_split; [exact Hs| |done]. apply elem_of_app. right. left.
Qed.
Lemma only_one v u : v ∈ objs -> u ∈ objs -> (forall p, address_of p -> in_object v.1 p) -> possible u -> u = v.
Proof.
  intros Hv Hu Ha (a & H1 & H2). destruct Hplaced as [_ Hs]. symmetry. apply (in_one_object _ v u a Hs); [done..|by apply Ha|done].
Qed.

(** ** The search for all objects *)
Context (maxResolutions : Z) (expired : nat -> bool).
(** Something went wrong: a query failed, or the time ran out. *)
Definition failed : Prop := getValue pointer = None \/ (exists e, mayBeTrue e = None) \/ (exists e, mustBeTrue e = None).
Definition trouble : Prop := failed \/ (exists k, expired k = true).
Lemma may_failed e : mayBeTrue e = None -> failed.
Proof. intros H. right. left. by exists e. Qed.
Lemma must_failed e : mustBeTrue e = None -> failed.
Proof. intros H. right. right. by exists e. Qed.
Definition reached (rl : list ObjectPair) : Prop := 1 < maxResolutions /\ Z.of_nat (length rl) = maxResolutions.
Definition below_max (rl : list ObjectPair) : Prop := 1 < maxResolutions -> Z.of_nat (length rl) < maxResolutions.

(** What a loop over the objects [q] makes of the list [rl]. *)
Record outcome (q rl : list ObjectPair) (ret : option bool) (rl' : list ObjectPair) : Prop := {
  out_new : exists new, rl' = rl ++ new /\ new `sublist_of` q /\ Forall possible new;
  out_false : ret = Some false -> forall u, u ∈ objs -> possible u -> u ∈ rl';
  out_true : ret = Some true -> trouble \/ reached rl';
  out_none : ret = None -> forall u, u ∈ q -> possible u -> u ∈ rl';
  out_max : below_max rl -> (1 < maxResolutions -> Z.of_nat (length rl') <= maxResolutions) /\ (ret = None -> below_max rl')
}.
Lemma outcome_none q rl : (forall u, u ∈ q -> ~ possible u) -> outcome q rl None rl.
Proof.
  intros H. split; try done.
  - exists []. split_and!; [by rewrite app_nil_r|apply sublist_nil_l|constructor].
  - intros _ u Hu Hp. by destruct (H u Hu).
  - unfold below_max. intros Hm. split; [|done]. lia.
Qed.
Lemma outcome_trouble q rl : trouble -> outcome q rl (Some true) rl.
Proof.
  intros H. split; try done.
  - exists []. split_and!; [by rewrite app_nil_r|apply sublist_nil_l|constructor].
  - by left.
  - unfold below_max. intros Hm. split; [|done]. lia.
Qed.
Lemma outcome_skip v q rl ret rl' : ~ possible v -> outcome q rl ret rl' -> outcome (v :: q) rl ret rl'.
Proof.
  intros Hv [(new & E & Hs & Hf) A B C D]. split; try done.
  - exists new. split_and!; [done|by apply sublist_cons|done].
  - intros Hr u Hu Hp. apply elem_of_cons in Hu as [->|Hu]; [done|by apply C].
Qed.
Lemma outcome_add v q rl ret rl' :
  possible v -> (below_max rl -> below_max (rl ++ [v])) -> outcome q (rl ++ [v]) ret rl' -> outcome (v :: q) rl ret rl'.
Proof.
  intros Hv Hm [(new & E & Hs & Hf) A B C D]. rewrite <- app_assoc in E. split; try done.
  - exists (v :: new). split_and!; [done|by apply sublist_skip|by constructor].
  - intros Hr u Hu Hp. apply elem_of_cons in Hu as [->|Hu]; [|by apply C]. rewrite E. apply elem_of_app. right. left.
  - intros H. apply D, Hm, H.
Qed.
Lemma added_ok v e rl q :
  v ∈ objs -> possible v -> (forall b, mustBeTrue e = Some b -> b = true <-> forall p, address_of p -> in_object v.1 p) ->
  match add_resolution mustBeTrue maxResolutions v e rl with
  | (Some b, rl1) => outcome (v :: q) rl (Some b) rl1
  | (None, rl1) => forall ret' rl', outcome q rl1 ret' rl' -> outcome (v :: q) rl ret' rl'
  end.
Proof.
  intros Hv Hp Hm. unfold add_resolution.
  assert (Hlen : Z.of_nat (length (rl ++ [v])) = Z.of_nat (length rl) + 1) by (rewrite length_app; simpl; lia).
  assert (Hnew : exists new, rl ++ [v] = rl ++ new /\ new `sublist_of` v :: q /\ Forall possible new).
  { exists [v]. split_and!; [done|apply sublist_skip, sublist_nil_l|by constructor]. }
  destruct (Z.eqb_spec (Z.of_nat (length (rl ++ [v]))) 1) as [E1|E1].
  - assert (rl = []) as -> by (destruct rl; [done|simpl in Hlen, E1; lia]). simpl. destruct (mustBeTrue e) as [[]|] eqn:Em.
    + split; [done| |done|done|].
      * intros _ u Hu Hpu. apply list_elem_of_singleton. by apply (only_one v u Hv Hu); [apply (Hm true eq_refl)|].
      * intros Hb. split; [simpl; lia|done].
    + intros ret' rl' Ho. apply outcome_add; [done|unfold below_max; simpl; lia|done].
    + split; [done|done| |done|].
      * intros _. left. left. by apply (must_failed e).
      * intros Hb. split; [simpl; lia|done].
  - destruct (Z.eqb_spec (Z.of_nat (length (rl ++ [v]))) maxResolutions) as [E2|E2].
    + split; [done|done| |done|].
      * intros _. right. split; [|done]. lia.
      * intros Hb. split; [lia|done].
    + intros ret' rl' Ho. apply outcome_add; [done|unfold below_max; lia|done].
Qed.
(** One object of either loop. *)
Lemma step_ok v e may rl q :
  v ∈ objs -> (may = true <-> possible v) ->
  (forall b, mustBeTrue e = Some b -> b = true <-> forall p, address_of p -> in_object v.1 p) ->
  match (if may then add_resolution mustBeTrue maxResolutions v e rl else (None, rl)) with
  | (Some b, rl1) => outcome (v :: q) rl (Some b) rl1
  | (None, rl1) => forall ret' rl', outcome q rl1 ret' rl' -> outcome (v :: q) rl ret' rl'
  end.
Proof.
  intros Hv Hm He. destruct may.
  - apply added_ok; [done|by apply Hm|done].
  - intros ret' rl'. apply outcome_skip. intros Hp. by apply Hm in Hp.
Qed.

Lemma two_steps (m : result expr) (f : expr -> result expr) e : (b ← m; f b) = Ret e -> exists b, m = Ret b /\ f b = Ret e.
Proof. destruct m as [b|]; [by exists b|done]. Qed.

Abbreviation back := (resolve_back opt w mayBeTrue mustBeTrue maxResolutions expired).
Abbreviation forth := (resolve_forth opt w mayBeTrue mustBeTrue maxResolutions expired).
Abbreviation stands := (ImmTreeIter.stands no_pair).
Abbreviation stands_eqb := (ImmTreeIter.stands_eqb fst MemoryObjectLT no_pair).
Abbreviation prev_stands := (ImmTreeIter.prev_stands fst MemoryObjectLT no_pair).
Abbreviation next_stands := (ImmTreeIter.next_stands fst MemoryObjectLT no_pair).

Lemma resolve_back_ok begin p : stands (objects s) begin objs -> forall r oi rl k fuel,
  objs = p ++ r -> stands (objects s) oi r -> (length p < fuel)%nat ->
  exists ret k' rl', back fuel k pointer begin oi rl = Ret (ret, k', rl') /\ outcome (rev p) rl ret rl'.
Proof.
  intros Hbegin. induction p as [|v p IH] using rev_ind; intros r oi rl k [|fuel] He Hs Hf; try (simpl in Hf; lia); cbn [resolve_back].
  - pose proof (stands_eqb _ oi begin r objs Htree Hs Hbegin) as Heq.
    rewrite (proj2 Heq) by (by rewrite He). exists None, k, rl. split; [done|]. apply outcome_none. by intros u ?%elem_of_nil.
  - pose proof (stands_eqb _ oi begin r objs Htree Hs Hbegin) as Heq.
    rewrite <- app_assoc in He. cbn [app] in He.
    assert (Hv : v ∈ objs) by (rewrite He; apply elem_of_app; right; left).
    destruct (ImmTree.iterator_eqb oi begin) eqn:Eb.
    { apply proj1 in Heq. specialize (Heq eq_refl). rewrite Heq in He.
      assert (length objs = length (p ++ v :: objs)) as Hl by congruence. rewrite length_app in Hl. simpl in Hl. lia. }
    destruct (prev_stands _ oi p v r Htree Hs He) as (oi' & -> & Hs'). cbn [mbind result_bind].
    destruct (next_stands _ oi' v r Htree Hs') as [-> _]. cbn [mbind result_bind].
    rewrite rev_app_distr. cbn [rev app].
    destruct (expired k) eqn:Ex.
    { exists (Some true), k, rl. split; [done|]. apply outcome_trouble. right. by exists k. }
    destruct (bounds_query v Hv) as (e & -> & Hmay & Hmust). cbn [mbind result_bind].
    destruct (mayBeTrue e) as [may|] eqn:Em.
    2: { exists (Some true), k, rl. split; [done|]. apply outcome_trouble. left. by apply (may_failed e). }
    pose proof (step_ok v e may rl (rev p) Hv (Hmay may eq_refl) Hmust) as Hstep.
    destruct (if may then _ else _) as [[b|] rl1]; [by exists (Some b), k, rl1|].
    destruct (above_query v Hv) as (a & (b & -> & Ha)%two_steps & Habove). cbn [mbind result_bind]. rewrite Ha. cbn [mbind result_bind].
    destruct (mustBeTrue a) as [[]|] eqn:Ea.
    + exists None, (S k), rl1. split; [done|]. apply Hstep, outcome_none. intros u Hu. apply (none_before p v r); [done| |].
      * by apply (Habove true).
      * by apply in_rev_elem.
    + destruct (IH (v :: r) oi' rl1 (S k) fuel) as (ret & k' & rl' & E & Ho); [done|done|rewrite length_app in Hf; simpl in Hf; lia|].
      exists ret, k', rl'. split; [done|by apply Hstep].
    + exists (Some true), k, rl1. split; [done|]. apply Hstep, outcome_trouble. left. by apply (must_failed a).
Qed.
Lemma resolve_forth_ok end_ r : stands (objects s) end_ [] -> forall p oi rl k fuel,
  objs = p ++ r -> stands (objects s) oi r -> (length r < fuel)%nat ->
  exists b rl', forth fuel k pointer end_ oi rl = Ret (b, rl') /\
    exists ret, outcome r rl ret rl' /\ (b = true <-> ret = Some true).
Proof.
  intros Hend. induction r as [|v r IH]; intros p oi rl k [|fuel] He Hs Hf; try (simpl in Hf; lia); cbn [resolve_forth];
    pose proof (stands_eqb _ oi end_ _ [] Htree Hs Hend) as Heq.
  - rewrite (proj2 Heq eq_refl). exists false, rl. split; [done|]. exists None. split; [|done].
    apply outcome_none. by intros u ?%elem_of_nil.
  - assert (Hv : v ∈ objs) by (rewrite He; apply elem_of_app; right; left).
    destruct (ImmTree.iterator_eqb oi end_); [by discriminate (proj1 Heq eq_refl)|].
    destruct (next_stands _ oi v r Htree Hs) as [-> (oi' & Hnext & Hs')]. cbn [mbind result_bind].
    assert (Hstop : forall t rl1 rl2, outcome t rl1 (Some true) rl2 -> exists ret, outcome t rl1 ret rl2 /\ (true = true <-> ret = Some true))
      by (intros; by exists (Some true)).
    destruct (expired k) eqn:Ex.
    { exists true, rl. split; [done|]. apply Hstop, outcome_trouble. right. by exists k. }
    destruct (below_query v Hv) as (a & (b & -> & Ha)%two_steps & Hbelow). cbn [mbind result_bind]. rewrite Ha. cbn [mbind result_bind].
    destruct (mustBeTrue a) as [[]|] eqn:Ea.
    + exists false, rl. split; [done|]. exists None. split; [|done]. apply outcome_none. intros u Hu.
      apply (none_after p v r); [done| |done]. by apply (Hbelow true).
    + destruct (bounds_query v Hv) as (e & -> & Hmay & Hmust). cbn [mbind result_bind].
      destruct (mayBeTrue e) as [may|] eqn:Em.
      2: { exists true, rl. split; [done|]. apply Hstop, outcome_trouble. left. by apply (may_failed e). }
      pose proof (step_ok v e may rl r Hv (Hmay may eq_refl) Hmust) as Hstep.
      destruct (if may then _ else _) as [[b'|] rl1].
      { exists b', rl1. split; [done|]. exists (Some b'). split; [done|]. by destruct b'. }
      rewrite Hnext. cbn [mbind result_bind].
      destruct (IH (p ++ [v]) oi' rl1 (S k) fuel) as (ret & rl' & E & q & Ho & Hq); [by rewrite <- app_assoc|done|simpl in Hf; lia|].
      exists ret, rl'. split; [done|]. exists q. split; [by apply Hstep|done].
    + exists true, rl. split; [done|]. apply Hstop, outcome_trouble. left. by apply (must_failed a).
Qed.

(** ** The search for one object *)
Definition one (q : list ObjectPair) (r : option (option ObjectPair)) : Prop :=
  match r with
  | None => failed
  | Some None => forall u, u ∈ q -> ~ possible u
  | Some (Some v) => v ∈ objs /\ possible v
  end.
Lemma one_skip v q r : ~ possible v -> one q r -> one (v :: q) r.
Proof. intros Hv. destruct r as [[u|]|]; [done| |done]. intros H x [->|Hx]%elem_of_cons; [done|by apply H]. Qed.

Abbreviation back_one := (resolveOne_back opt w mayBeTrue mustBeTrue).
Abbreviation forth_one := (resolveOne_forth opt w mayBeTrue mustBeTrue).

Lemma resolveOne_back_ok begin p : stands (objects s) begin objs -> forall r oi fuel,
  objs = p ++ r -> stands (objects s) oi r -> (length p < fuel)%nat ->
  exists a, back_one fuel pointer begin oi = Ret a /\ one (rev p) a.
Proof.
  intros Hbegin. induction p as [|v p IH] using rev_ind; intros r oi [|fuel] He Hs Hf; try (simpl in Hf; lia); cbn [resolveOne_back];
    pose proof (stands_eqb _ oi begin r objs Htree Hs Hbegin) as Heq.
  - rewrite (proj2 Heq) by (by rewrite He). exists (Some None). split; [done|]. by intros u ?%elem_of_nil.
  - rewrite <- app_assoc in He. cbn [app] in He.
    assert (Hv : v ∈ objs) by (rewrite He; apply elem_of_app; right; left).
    destruct (ImmTree.iterator_eqb oi begin) eqn:Eb.
    { apply proj1 in Heq. specialize (Heq eq_refl). rewrite Heq in He.
      assert (length objs = length (p ++ v :: objs)) as Hl by congruence. rewrite length_app in Hl. simpl in Hl. lia. }
    destruct (prev_stands _ oi p v r Htree Hs He) as (oi' & -> & Hs'). cbn [mbind result_bind].
    destruct (next_stands _ oi' v r Htree Hs') as [-> _]. cbn [mbind result_bind].
    rewrite rev_app_distr. cbn [rev app].
    destruct (bounds_query v Hv) as (e & -> & Hmay & _). cbn [mbind result_bind].
    destruct (mayBeTrue e) as [[]|] eqn:Em.
    + exists (Some (Some v)). split; [done|]. split; [done|by apply (Hmay true)].
    + assert (Hn : ~ possible v) by (intros Hp; by apply (Hmay false eq_refl) in Hp).
      destruct (above_query v Hv) as (a & (b & -> & Ha)%two_steps & Habove). cbn [mbind result_bind]. rewrite Ha. cbn [mbind result_bind].
      destruct (mustBeTrue a) as [[]|] eqn:Ea.
      * exists (Some None). split; [done|]. apply one_skip; [done|]. intros u Hu. apply (none_before p v r); [done| |].
        -- by apply (Habove true).
        -- by apply in_rev_elem.
      * destruct (IH (v :: r) oi' fuel) as (x & E & Ho); [done|done|rewrite length_app in Hf; simpl in Hf; lia|].
        exists x. split; [done|by apply one_skip].
      * exists None. split; [done|]. by apply (must_failed a).
    + exists None. split; [done|]. by apply (may_failed e).
Qed.
Lemma resolveOne_forth_ok end_ r : stands (objects s) end_ [] -> forall p oi fuel,
  objs = p ++ r -> stands (objects s) oi r -> (length r < fuel)%nat ->
  exists a, forth_one fuel pointer end_ oi = Ret a /\ one r a.
Proof.
  intros Hend. induction r as [|v r IH]; intros p oi [|fuel] He Hs Hf; try (simpl in Hf; lia); cbn [resolveOne_forth];
    pose proof (stands_eqb _ oi end_ _ [] Htree Hs Hend) as Heq.
  - rewrite (proj2 Heq eq_refl). exists (Some None). split; [done|]. by intros u ?%elem_of_nil.
  - assert (Hv : v ∈ objs) by (rewrite He; apply elem_of_app; right; left).
    destruct (ImmTree.iterator_eqb oi end_); [by discriminate (proj1 Heq eq_refl)|].
    destruct (next_stands _ oi v r Htree Hs) as [-> (oi' & Hnext & Hs')]. cbn [mbind result_bind].
    destruct (below_query v Hv) as (a & (b & -> & Ha)%two_steps & Hbelow). cbn [mbind result_bind]. rewrite Ha. cbn [mbind result_bind].
    destruct (mustBeTrue a) as [[]|] eqn:Ea.
    + exists (Some None). split; [done|]. intros u Hu. apply (none_after p v r); [done| |done]. by apply (Hbelow true).
    + destruct (bounds_query v Hv) as (e & -> & Hmay & _). cbn [mbind result_bind].
      destruct (mayBeTrue e) as [[]|] eqn:Em.
      * exists (Some (Some v)). split; [done|]. split; [done|by apply (Hmay true)].
      * rewrite Hnext. cbn [mbind result_bind].
        destruct (IH (p ++ [v]) oi' fuel) as (x & E & Ho); [by rewrite <- app_assoc|done|simpl in Hf; lia|].
        exists x. split; [done|]. apply one_skip; [|done]. intros Hp. by apply (Hmay false eq_refl) in Hp.
      * exists None. split; [done|]. by apply (may_failed e).
    + exists None. split; [done|]. by apply (must_failed a).
Qed.

(** ** Both searches start at the example *)
Lemma search_start a : exists oi begin end_ p r,
  ImmTree.upper_bound fst MemoryObjectLT (hack a) (objects s) = Ret oi /\ ImmTree.begin_ (objects s) = Ret begin /\
  ImmTree.end_ (objects s) = Ret end_ /\ objs = p ++ r /\
  stands (objects s) oi r /\ stands (objects s) begin objs /\ stands (objects s) end_ [].
Proof.
  destruct (ImmTreeIter.upper_bound_stands fst MemoryObjectLT no_pair (hack a) (objects s) Htree) as (oi & A & B).
  destruct (ImmTreeIter.begin_stands fst MemoryObjectLT no_pair (objects s) Htree) as (begin & C & D).
  destruct (ImmTreeIter.end_stands no_pair (objects s)) as (end_ & E & F).
  pose proof (proj1 (parts_ordered fst MemoryObjectLT (hack a) objs (proj1 Htree))) as Hp. rewrite app_assoc in Hp.
  exists oi, begin, end_. do 2 eexists. split_and!; [exact A|exact C|exact E|exact Hp|exact B|exact D|exact F].
Qed.
Lemma objs_NoDup : NoDup objs.
Proof. apply (apart_NoDup objs), Hplaced. Qed.
Lemma constant_possible a v : pointer = Constant w a -> 0 <= a < 2 ^ 64 /\ (in_object v.1 a <-> possible v).
Proof.
  intros E. split.
  - destruct Hpointer as [Hok _]. rewrite E in Hok. simpl in Hok. apply andb_true_iff in Hok as [_ Hf]. apply fits_iff in Hf.
    pose proof (Z.pow_le_mono_r 2 w 64 ltac:(lia) ltac:(lia)). lia.
  - destruct Hpath as [init Hi]. unfold possible, address_of. rewrite E. split.
    + intros H. exists a. split; [by exists init|done].
    + intros (p & (init' & _ & Hp) & Hin). by injection Hp as <-.
Qed.
Lemma placed_64 : placed 64 objs.
Proof.
  destruct Hplaced as [Hf Hs]. split; [|done]. eapply list.Forall_impl; [exact Hf|]. simpl.
  pose proof (Z.pow_le_mono_r 2 w 64 ltac:(lia) ltac:(lia)). intros v (H1 & H2 & H3). unfold fits_in. lia.
Qed.
Lemma constant_answer a v : pointer = Constant w a -> resolveOne_const s a = Some v <-> v ∈ objs /\ possible v.
Proof.
  intros E. destruct (constant_possible a v E) as [Ha Hp]. rewrite resolveOne_const_ok by (done || apply placed_64). by rewrite Hp.
Qed.
Lemma previous_below a res : map_previous (hack a) (objects s) = Some res -> res ∈ objs /\ address res.1 <= a.
Proof.
  intros E. pose proof (previous_ok fst MemoryObjectLT (hack a) (objects s) None (proj1 Htree)) as Hp.
  change (map_previous (hack a) (objects s) =
    match list.last (below fst MemoryObjectLT (hack a) objs ++ at_key fst MemoryObjectLT (hack a) objs) with
    | Some v => Some v | None => None end) in Hp. rewrite E in Hp.
  destruct (list.last _) as [u|] eqn:El; [|done]. injection Hp as ->. apply list.last_Some in El as [l El].
  apply (below_at_address a objs). rewrite El. apply elem_of_app. right. left.
Qed.
Lemma pointer_cases : (exists a, pointer = Constant w a) \/ isConstant pointer = false.
Proof. destruct pointer as [w' a| | | | | | | | | ]; [left; exists a; by rewrite <- Hwidth|by right..]. Qed.

Lemma listed rl : rl ⊆+ objs -> Forall possible rl -> NoDup rl /\ forall v, v ∈ rl -> v ∈ objs /\ possible v.
Proof.
  intros (k & Hk)%submseteq_Permutation Hf. pose proof objs_NoDup as Hnd. rewrite Hk in Hnd.
  split; [by apply list.NoDup_app in Hnd as [? _]|]. intros v Hv. split; [rewrite Hk; apply elem_of_app; by left|].
  rewrite list.Forall_forall in Hf. by apply Hf.
Qed.

(** C14. [resolve]: for objects that do not overlap and any pointer the path gives values
    to, the list has no object twice and only ones the pointer can point to; it has all of
    them unless the function says that it is incomplete, which it does only when a query
    fails, the time runs out or the bound is reached; a bound above one is respected. *)
Theorem resolve_correct fuel :
  (length objs < fuel)%nat ->
  exists incomplete rl,
    resolve opt w getValue mayBeTrue mustBeTrue maxResolutions expired fuel s pointer = Ret (incomplete, rl) /\
    NoDup rl /\ (forall v, v ∈ rl -> v ∈ objs /\ possible v) /\
    (incomplete = false -> forall v, v ∈ objs -> possible v -> v ∈ rl) /\
    (incomplete = true -> trouble \/ reached rl) /\
    (1 < maxResolutions -> Z.of_nat (length rl) <= maxResolutions).
Proof.
  intros Hf. destruct pointer_cases as [[a E]|E].
  { pose proof (fun v => constant_answer a v E) as Hc.
    assert (Hr : resolve opt w getValue mayBeTrue mustBeTrue maxResolutions expired fuel s pointer =
      Ret (false, match resolveOne_const s a with Some res => [res] | None => [] end)) by (clear - E; by rewrite E).
    rewrite Hr. clear Hr.
    destruct (resolveOne_const s a) as [u|].
    - exists false, [u]. split_and!; [done|apply NoDup_singleton| | |done|simpl; lia].
      + intros v ->%list_elem_of_singleton. by apply Hc.
      + intros _ v Hv Hp. assert (Some u = Some v) as [= ->] by (by apply Hc). left.
    - exists false, []. split_and!; [done|constructor|by intros v ?%elem_of_nil| |done|simpl; lia].
      intros _ v Hv Hp. assert (None = Some v) by (by apply Hc). done. }
  assert (Hr : resolve opt w getValue mayBeTrue mustBeTrue maxResolutions expired fuel s pointer =
    match getValue pointer with
    | None => Ret (true, [])
    | Some example =>
        oi ← ImmTree.upper_bound fst MemoryObjectLT (hack example) (objects s);
        begin ← ImmTree.begin_ (objects s);
        end_ ← ImmTree.end_ (objects s);
        r ← back fuel 0 pointer begin oi [];
        match r with (Some b, _, rl) => Ret (b, rl) | (None, k, rl) => forth fuel k pointer end_ oi rl end
    end) by (clear - E; by destruct pointer). rewrite Hr. clear Hr.
  destruct (getValue pointer) as [example|] eqn:Ev.
  2: { exists true, []. split_and!; [done|constructor|by intros v ?%elem_of_nil|done| |simpl; lia]. intros _. left. left. by left. }
  destruct (search_start example) as (oi & begin & end_ & p & r & -> & -> & -> & He & Hs & Hb & Hend). cbn [mbind result_bind].
  assert (Hl : length objs = (length p + length r)%nat) by (by rewrite He, length_app).
  destruct (resolve_back_ok begin p Hb r oi [] 0 fuel He Hs) as (ret & k & rl & -> & [(new & E1 & S1 & F1) A B C D]); [lia|].
  cbn [mbind result_bind app] in *. subst new.
  assert (Hrp : rl ⊆+ p) by (rewrite (Permutation_rev p); by apply sublist_submseteq).
  assert (Hsub : rl ⊆+ objs) by (rewrite He; etrans; [exact Hrp|apply submseteq_inserts_r; done]).
  assert (Hm : below_max []) by (unfold below_max; simpl; lia). destruct (D Hm) as [D1 D2].
  destruct ret as [b|].
  - destruct (listed rl Hsub F1) as [N1 N2]. exists b, rl. split_and!; [done..|intros ->; by apply A|intros ->; by apply B|done].
  - destruct (resolve_forth_ok end_ r Hend p oi rl k fuel He Hs) as (b & rl' & -> & q & [(new & E2 & S2 & F2) A' B' C' D'] & Hq); [lia|].
    assert (Hs' : rl' ⊆+ objs) by (rewrite E2, He; apply submseteq_app; [done|by apply sublist_submseteq]).
    destruct (listed rl' Hs') as [N1 N2]; [rewrite E2; by apply Forall_app|]. exists b, rl'.
    split_and!; [done..| |intros ->; by apply B', Hq|intros Hmax; by apply (D' (D2 eq_refl))].
    intros -> v Hv Hp. destruct q as [[]|]; [by discriminate (proj2 Hq eq_refl)|by apply A'|].
    rewrite He in Hv. apply elem_of_app in Hv as [Hv|Hv]; [|by apply C']. rewrite E2. apply elem_of_app. left.
    apply C; [done| |done]. by apply in_rev_elem.
Qed.

(** [resolveOne]: with enough fuel it answers; an object is one the pointer can point
    to, the answer that there is none is right, and it is without an answer only when a
    query failed. *)
Theorem resolveOne_correct fuel :
  (length objs < fuel)%nat ->
  exists a, resolveOne opt w getValue mayBeTrue mustBeTrue fuel s pointer = Ret a /\ one objs a.
Proof.
  intros Hf. destruct pointer_cases as [[a E]|E].
  { pose proof (fun v => constant_answer a v E) as Hc. exists (Some (resolveOne_const s a)).
    split; [clear - E; by rewrite E|].
    destruct (resolveOne_const s a) as [u|]; [by apply Hc|]. intros u Hu Hp. assert (None = Some u) by (by apply Hc). done. }
  assert (Hr : resolveOne opt w getValue mayBeTrue mustBeTrue fuel s pointer =
    match getValue pointer with
    | None => Ret None
    | Some example =>
        let search :=
          oi ← ImmTree.upper_bound fst MemoryObjectLT (hack example) (objects s);
          begin ← ImmTree.begin_ (objects s);
          end_ ← ImmTree.end_ (objects s);
          r ← back_one fuel pointer begin oi;
          match r with Some None => forth_one fuel pointer end_ oi | _ => Ret r end in
        match map_previous (hack example) (objects s) with
        | Some res => if u64 (example - address res.1) <? mo_size res.1 then Ret (Some (Some res)) else search
        | None => search
        end
    end) by (clear - E; by destruct pointer). rewrite Hr. clear Hr.
  destruct (getValue pointer) as [example|] eqn:Ev; [|exists None; split; [done|by left]].
  destruct (search_start example) as (oi & begin & end_ & p & r & -> & -> & -> & He & Hs & Hb & Hend). cbn [mbind result_bind].
  assert (Hl : length objs = (length p + length r)%nat) by (by rewrite He, length_app).
  match goal with |- context [if _ then _ else ?c] => set (search := c) end.
  assert (Hsearch : exists a, search = Ret a /\ one objs a).
  { unfold search. destruct (resolveOne_back_ok begin p Hb r oi fuel He Hs) as (x & -> & Hx); [lia|]. cbn [mbind result_bind].
    destruct x as [[u|]|]; [by exists (Some (Some u))| |by exists None].
    destruct (resolveOne_forth_ok end_ r Hend p oi fuel He Hs) as (y & -> & Hy); [lia|]. exists y. split; [done|].
    destruct y as [[u|]|]; [done| |done]. intros u Hu. rewrite He in Hu. apply elem_of_app in Hu as [Hu|Hu]; [|by apply Hy].
    apply Hx. by apply in_rev_elem. }
  destruct (map_previous (hack example) (objects s)) as [res|] eqn:Em; [|done].
  destruct (Z.ltb_spec (u64 (example - address res.1)) (mo_size res.1)) as [Hlt|]; [|done].
  exists (Some (Some res)). split; [done|]. destruct (value_ok _ _ _ _ Hsolver pointer example Hpointer Ev) as (init & Hi & Hx).
  destruct (previous_below example res Em) as [H1 H2]. destruct (obj_fits res H1) as (F1 & F2 & F3).
  assert (Hex : 0 <= example < 2 ^ w) by (rewrite <- Hwidth; apply (eval_fits init (proj1 (Hmodels init Hi))); [apply Hpointer|done]).
  pose proof (Z.pow_le_mono_r 2 w 64 ltac:(lia) ltac:(lia)) as H64. change (2 ^ 64) with 18446744073709551616 in H64.
  rewrite u64_small in Hlt by lia. split; [done|]. exists example. split; [by exists init|]. unfold in_object. lia.
Qed.
End Solve.

(** ** A solver for finitely many contents *)
Definition finite_value (ms : list (array -> Z -> option Z)) (e : expr) : option Z := init ← list.head ms; eval init e.
Definition finite_may (ms : list (array -> Z -> option Z)) (e : expr) : option bool :=
  Some (existsb (fun init => bool_decide (eval init e = Some 1)) ms).
Definition finite_must (ms : list (array -> Z -> option Z)) (e : expr) : option bool :=
  Some (forallb (fun init => bool_decide (eval init e = Some 1)) ms).
Lemma finite_solver_ok ms : solver_ok (fun init => init ∈ ms) (finite_value ms) (finite_may ms) (finite_must ms).
Proof.
  split.
  - intros e v _. unfold finite_value. destruct ms as [|init ms]; [done|]. intros H. exists init. split; [left|done].
  - intros e b _ _ [= <-]. rewrite existsb_exists. split; intros (init & Hi & He); exists init;
      (split; [by apply list_elem_of_In|by apply bool_decide_eq_true in He || apply bool_decide_eq_true]).
  - intros e b _ _ [= <-]. rewrite forallb_forall. split; intros H init Hi;
      [by apply (bool_decide_eq_true (eval init e = Some 1)), H, list_elem_of_In|by apply bool_decide_eq_true, H, list_elem_of_In].
Qed.

(** A pointer that is 3 or 9, and four objects, two of them empty or out of reach. *)
Definition two_models : list (array -> Z -> option Z) :=
  (fun b => assigned false (Evaluator.MkAssignment false (fun _ => Some [b]))) <$> [3; 9].
Definition ptr : expr := ZExt (byte 0) 32.
Definition place (l : list (Z * Z)) : AddressSpace :=
  MkSpace 1 (foldr (fun x t => map_replace (MkMO x.1 x.1 x.2 false, x.1) t) ImmTree.terminator l).
Definition four : AddressSpace := place [(3, 1); (5, 2); (8, 0); (9, 4)].
Lemma four_ok : tree_ok (objects four) /\ placed 32 (elements (objects four)).
Proof.
  split; [split; [repeat constructor|vm_compute; intuition lia]|]. split; [|repeat constructor; vm_compute; congruence].
  repeat constructor; vm_compute; congruence.
Qed.
Lemma two_models_admissible init : init ∈ two_models -> admissible false init.
Proof. intros (b & -> & _)%list_elem_of_fmap. apply assigned_admissible. Qed.
Lemma ptr_query : query_ok (fun init => init ∈ two_models) ptr.
Proof. split; [done|]. intros init (b & -> & _)%list_elem_of_fmap. by eexists. Qed.
Lemma resolve_correct_witness :
  exists rl, resolve false 32 (finite_value two_models) (finite_may two_models) (finite_must two_models) 0 (fun _ => false) 5 four ptr =
    Ret (false, rl) /\ (address ∘ fst) <$> rl = [3; 9] /\ NoDup rl.
Proof.
  destruct four_ok as [Ht Hp].
  destruct (resolve_correct false 32 ltac:(lia) (fun init => init ∈ two_models) two_models_admissible
    ltac:(eexists; left) (finite_value two_models) (finite_may two_models) (finite_must two_models) (finite_solver_ok two_models)
    ptr ptr_query eq_refl four Ht Hp 0 (fun _ => false) 5 ltac:(vm_compute; lia)) as (b & rl & E & N & _).
  exists rl. rewrite E. vm_compute in E. injection E as <- <-. split; [reflexivity|]. split; [reflexivity|exact N].
Defined.
Lemma resolveOne_correct_witness :
  exists v, resolveOne false 32 (finite_value two_models) (finite_may two_models) (finite_must two_models) 5 four ptr = Ret (Some (Some v)) /\
    possible (fun init => init ∈ two_models) ptr v.
Proof.
  destruct four_ok as [Ht Hp].
  destruct (resolveOne_correct false 32 ltac:(lia) (fun init => init ∈ two_models) two_models_admissible
    ltac:(eexists; left) (finite_value two_models) (finite_may two_models) (finite_must two_models) (finite_solver_ok two_models)
    ptr ptr_query eq_refl four Ht Hp 5 ltac:(vm_compute; lia)) as (a & E & H).
  rewrite E. destruct a as [[v|]|]; [|exfalso; vm_compute in E; discriminate E..]. exists v. split; [reflexivity|apply H].
Defined.

(** The bound one is not respected: the length is compared to it only where it is not one. *)
Example resolve_max_one :
  exists rl, resolve false 32 (finite_value two_models) (finite_may two_models) (finite_must two_models) 1 (fun _ => false) 5 four ptr =
    Ret (false, rl) /\ length rl = 2%nat.
Proof. eexists. split; vm_compute; reflexivity. Qed.
End AddressSpaceMain.
