(* ===== verification/ExprUtil.v ===== *)
(** * The reads of an expression

    lib/Expr/ExprUtil.cpp: the reads and the symbolic arrays that occur in an expression,
    each once. The value of an expression depends on the arrays only through its reads. *)
From stdpp Require Import base gmap list strings numbers relations.
From Stdlib Require Import ZArith Lia.
From S2P Require Import Prelude ExprData ExprFacts ConstraintsOk.

Module ExprUtil.
Import Expr ExprFacts ConstraintsOk.

(** The indices and values of a list of updates, as the loop over the nodes meets them. *)
Fixpoint entries (un : update_node) : list expr :=
  match un with Null => [] | UpdateNode next index value => index :: value :: entries next end.

#[export] Instance node_eq_dec : EqDecision update_node.
Proof.
  intros u u'. destruct (node_eqb u u') eqn:E; [left; by apply (proj2 eqb_both)|right].
  intros ->. by rewrite (proj2 eqb_refl_both) in E.
Defined.

(** ** [findReads] *)
(** [if (!isa<ConstantExpr>(k) && visited.insert(k).second) stack.push_back(k)], for each of
    the expressions; the end of the stack is the head of the list. *)
Fixpoint push_new (ks : list expr) (visited stack : list expr) : list expr * list expr :=
  match ks with
  | [] => (visited, stack)
  | k :: ks =>
      if negb (isConstant k) && bool_decide (k ∉ visited) then push_new ks (k :: visited) (k :: stack)
      else push_new ks visited stack
  end.

Fixpoint findReads_loop (fuel : nat) (visitUpdates : bool) (visited stack : list expr) (updates : list update_node)
    (results : list expr) : result (list expr) :=
  match fuel with
  | O => Stop OutOfFuel
  | S fuel =>
      match stack with
      | [] => Ret results
      | top :: stack =>
          match top with
          | Read _ head index =>
              let results := results ++ [top] in
              let (visited, stack) := push_new [index] visited stack in
              if visitUpdates && bool_decide (head ∉ updates) then
                let (visited, stack) := push_new (entries head) visited stack in
                findReads_loop fuel visitUpdates visited stack (head :: updates) results
              else findReads_loop fuel visitUpdates visited stack updates results
          | _ =>
              let (visited, stack) := push_new (kids_of top) visited stack in
              findReads_loop fuel visitUpdates visited stack updates results
          end
      end
  end.
Definition findReads (fuel : nat) (e : expr) (visitUpdates : bool) : result (list expr) :=
  let start := if isConstant e then [] else [e] in
  findReads_loop fuel visitUpdates start start [] [].

(** ** [findSymbolicObjects]

    The visitor remembers the expressions it has seen; to visit one again would find no
    new array. *)
Definition add_object (a : array) (objects : list array) : list array :=
  if isSymbolicArray a && bool_decide (a ∉ objects) then objects ++ [a] else objects.
Fixpoint visitSymbolic (e : expr) (objects : list array) : list array :=
  match e with
  | Constant _ _ => objects
  | Read root head index => visitSymbolic index (add_object root (visitNodes head objects))
  | NotOptimized k | Extract k _ _ | ZExt k _ | SExt k _ | Not k => visitSymbolic k objects
  | Concat l r | Binary _ l r => visitSymbolic r (visitSymbolic l objects)
  | Select c t f => visitSymbolic f (visitSymbolic t (visitSymbolic c objects))
  end
with visitNodes (un : update_node) (objects : list array) : list array :=
  match un with
  | Null => objects
  | UpdateNode next index value => visitNodes next (visitSymbolic value (visitSymbolic index objects))
  end.
Definition findSymbolicObjects (es : list expr) : list array := foldl (fun objects e => visitSymbolic e objects) [] es.

(** ** What the search finds *)
(** The expressions one step below. *)
Definition below_ (vu : bool) (e : expr) : list expr :=
  match e with Read _ head index => index :: (if vu then entries head else []) | _ => kids_of e end.
Abbreviation occurs vu e := (rtc (fun x k => k ∈ below_ vu x) e).
Definition isRead (e : expr) : bool := match e with Read _ _ _ => true | _ => false end.

Fixpoint size_of (l : list expr) : nat := match l with [] => O | e :: l => (nodes e + size_of l)%nat end.
Lemma entries_size : forall u, (size_of (entries u) <= nodes_of u)%nat.
Proof. fix IH 1. intros [|next index value]; simpl; [lia|]. pose proof (IH next). lia. Qed.
Lemma below_size vu e : (size_of (below_ vu e) < nodes e)%nat.
Proof. destruct e; simpl; try lia. pose proof (entries_size head). destruct vu; simpl in *; lia. Qed.

(** Nothing is below a constant. *)
Lemma occurs_constant vu e x : isConstant e = true -> occurs vu e x -> x = e.
Proof. intros Hc H. destruct e; try done. inversion H as [|? y ? Hy]; subst; [done|]. by apply elem_of_nil in Hy. Qed.

Record pushed (ks visited stack visited' stack' : list expr) : Prop := {
  pu_visited : exists new, visited' = new ++ visited /\ stack' = new ++ stack /\
    Forall (fun k => k ∈ ks /\ isConstant k = false) new /\ (NoDup visited -> NoDup visited');
  pu_all : forall k, k ∈ ks -> isConstant k = false -> k ∈ visited';
  pu_size : (size_of stack' <= size_of ks + size_of stack)%nat
}.
Lemma push_new_ok ks : forall visited stack,
  exists visited' stack', push_new ks visited stack = (visited', stack') /\ pushed ks visited stack visited' stack'.
Proof.
  induction ks as [|k ks IH]; intros visited stack; cbn [push_new].
  { exists visited, stack. split; [done|]. split; [|by intros k ?%elem_of_nil|simpl; lia]. by exists []. }
  destruct (negb (isConstant k) && bool_decide (k ∉ visited)) eqn:E.
  - apply andb_prop in E as [E1%negb_true_iff E2%bool_decide_eq_true].
    destruct (IH (k :: visited) (k :: stack)) as (v' & s' & -> & [(new & -> & -> & Hn & Hd) Ha Hs]).
    exists (new ++ k :: visited), (new ++ k :: stack). split; [done|]. split.
    + exists (new ++ [k]). rewrite <- !app_assoc. split_and!; [done|done| |].
      * apply Forall_app. split; [|constructor; [split; [left|done]|constructor]].
        eapply list.Forall_impl; [exact Hn|]. simpl. intros x [Hx Hc]. split; [by right|done].
      * intros Hv. apply Hd. by constructor.
    + intros x [->|Hx]%elem_of_cons Hc; [|by apply Ha]. apply elem_of_app. right. left.
    + simpl in *. lia.
  - destruct (IH visited stack) as (v' & s' & -> & [(new & -> & -> & Hn & Hd) Ha Hs]).
    exists (new ++ visited), (new ++ stack). split; [done|]. split.
    + exists new. split_and!; [done|done| |done]. eapply list.Forall_impl; [exact Hn|]. simpl.
      intros x [Hx Hc]. split; [by right|done].
    + intros x [->|Hx]%elem_of_cons Hc; [|by apply Ha]. rewrite Hc in E. simpl in E. apply bool_decide_eq_false in E.
      apply elem_of_app. right. destruct (decide (k ∈ visited)); [done|by destruct E].
    + simpl in *. lia.
Qed.
Lemma push_new_app ks ks' visited stack :
  push_new (ks ++ ks') visited stack = (let (v, s) := push_new ks visited stack in push_new ks' v s).
Proof. revert visited stack. induction ks as [|k ks IH]; intros; cbn [push_new app]; [done|]. destruct (_ && _); apply IH. Qed.

(** The loop: [seen] are the expressions that were taken from the stack. *)
Record explored (vu : bool) (e : expr) (visited stack results : list expr) : Prop := {
  ex_nodup : NoDup visited;
  ex_stack : exists seen, visited ≡ₚ seen ++ stack /\ results ≡ₚ filter (fun x => isRead x = true) seen /\
    forall x k, x ∈ seen -> k ∈ below_ vu x -> isConstant k = false -> k ∈ visited;
  ex_root : e ∈ visited;
  ex_occurs : Forall (fun x => occurs vu e x /\ isConstant x = false) visited
}.
Lemma explored_done vu e visited results : explored vu e visited [] results -> NoDup results /\
  forall r, r ∈ results <-> isRead r = true /\ occurs vu e r.
Proof.
  intros [Hd (seen & Hp & Hr & Hc) He Ho]. rewrite app_nil_r in Hp. rewrite list.Forall_forall in Ho. split.
  - rewrite Hr. apply NoDup_filter. by rewrite <- Hp.
  - intros r. rewrite Hr, list_elem_of_filter. split; intros [H1 H2]; (split; [done|]).
    + apply Ho. by rewrite Hp.
    + assert (Hin : forall x y, occurs vu x y -> isConstant y = false -> x ∈ visited -> y ∈ visited).
      { clear r H1 H2. intros x y H Hy. induction H as [|x z y Hz H IH]; [done|]. intros Hx. apply IH; [done|].
        apply (Hc x); [by rewrite <- Hp|done|]. destruct (isConstant z) eqn:Ez; [|done].
        rewrite <- (occurs_constant vu z y Ez H) in Ez. congruence. }
      rewrite <- Hp. apply (Hin e); [done|by destruct r|done].
Qed.
Lemma explored_step vu e visited top stack results ks visited' stack' :
  explored vu e visited (top :: stack) results -> ks ≡ₚ below_ vu top -> pushed ks visited stack visited' stack' ->
  explored vu e visited' stack' (results ++ (if isRead top then [top] else [])).
Proof.
  intros [Hd (seen & Hp & Hr & Hc) He Ho] Hks [(new & -> & -> & Hn & Hd') Ha _].
  assert (Ht : top ∈ visited) by (rewrite Hp; apply elem_of_app; right; left). split.
  - by apply Hd'.
  - exists (seen ++ [top]). split_and!.
    + rewrite Hp. rewrite <- !app_assoc. cbn [app]. rewrite (Permutation_app_comm new). rewrite <- app_assoc. f_equiv.
      cbn [app]. f_equiv. apply Permutation_app_comm.
    + rewrite filter_app, Hr. f_equiv. destruct (isRead top) eqn:E.
      * by rewrite filter_cons_True.
      * rewrite filter_cons_False; [done|congruence].
    + intros x k [Hx|Hx]%elem_of_app Hk Hck; apply elem_of_app.
      * right. by apply (Hc x).
      * apply list_elem_of_singleton in Hx as ->. apply elem_of_app. apply Ha; [by rewrite Hks|done].
  - apply elem_of_app. by right.
  - apply Forall_app. split; [|done]. eapply list.Forall_impl; [exact Hn|]. simpl. intros k [Hk Hck]. split; [|done].
    rewrite list.Forall_forall in Ho. eapply rtc_r; [by apply Ho|]. by rewrite <- Hks.
Qed.
(** The memory of the heads has no effect: their expressions have been visited. *)
Definition remembered (visited : list expr) (updates : list update_node) : Prop :=
  forall h k, h ∈ updates -> k ∈ entries h -> isConstant k = false -> k ∈ visited.
Lemma push_new_noop ks visited stack :
  (forall k, k ∈ ks -> isConstant k = false -> k ∈ visited) -> push_new ks visited stack = (visited, stack).
Proof.
  induction ks as [|k ks IH]; intros H; cbn [push_new]; [done|].
  destruct (isConstant k) eqn:E; simpl; [apply IH; intros; apply H; [by right|done]|].
  rewrite bool_decide_false; [apply IH; intros; apply H; [by right|done]|]. intros Hk. apply Hk, H; [left|done].
Qed.
Lemma findReads_step fuel vu visited top stack updates results :
  remembered visited updates ->
  exists visited' stack' updates',
    findReads_loop (S fuel) vu visited (top :: stack) updates results =
      findReads_loop fuel vu visited' stack' updates' (results ++ (if isRead top then [top] else [])) /\
    pushed (below_ vu top) visited stack visited' stack' /\ remembered visited' updates'.
Proof.
  intros Hm. destruct (push_new_ok (below_ vu top) visited stack) as (v & s & E & Hp).
  assert (Hkeep : remembered v updates).
  { destruct Hp as [(new & -> & _) _ _]. intros h k H1 H2 H3. apply elem_of_app. right. by apply (Hm h). }
  destruct top as [w c|src|root head index|c t f|l r|x o w|src w|src w|x|k l r];
    try (exists v, s, updates; split_and!; [cbn [findReads_loop isRead]; cbn [below_] in E; by rewrite E, app_nil_r|done|done]).
  cbn [isRead]. destruct vu.
  - change (below_ true (Read root head index)) with ([index] ++ entries head) in *. rewrite push_new_app in E.
    destruct (push_new [index] visited stack) as [v1 s1] eqn:E1.
    destruct (bool_decide (head ∉ updates)) eqn:Eh.
    + exists v, s, (head :: updates). split_and!; [|done|].
      * cbn [findReads_loop andb]. by rewrite E1, Eh, E.
      * intros h k [->|Hh]%elem_of_cons Hk Hc; [|by apply (Hkeep h)]. apply (pu_all _ _ _ _ _ Hp); [|done].
        apply elem_of_app. by right.
    + apply bool_decide_eq_false in Eh. assert (Hh : head ∈ updates) by (destruct (decide (head ∈ updates)); [done|by destruct Eh]).
      exists v, s, updates. split_and!; [|done|done]. cbn [findReads_loop andb]. rewrite E1, bool_decide_false by (by intros ?).
      destruct (push_new_ok [index] visited stack) as (v2 & s2 & E2 & [(new & -> & _) _ _]). rewrite E1 in E2.
      injection E2 as -> ->. rewrite push_new_noop in E; [by injection E as -> ->|].
      intros k Hk Hc. apply elem_of_app. right. by apply (Hm head).
  - exists v, s, updates. split_and!; [|done|done]. cbn [findReads_loop andb below_] in *. by rewrite E.
Qed.
Lemma findReads_loop_ok vu e fuel : forall visited stack updates results,
  explored vu e visited stack results -> remembered visited updates -> (size_of stack < fuel)%nat ->
  exists rs, findReads_loop fuel vu visited stack updates results = Ret rs /\ NoDup rs /\
    forall r, r ∈ rs <-> isRead r = true /\ occurs vu e r.
Proof.
  induction fuel as [|fuel IH]; [lia|]. intros visited [|top stack] updates results Hx Hm Hf.
  - exists results. split; [done|]. by apply (explored_done vu e visited).
  - destruct (findReads_step fuel vu visited top stack updates results Hm) as (v & s & u & -> & Hp & Hm').
    apply IH; [by apply (explored_step vu e visited top stack results (below_ vu top))|done|].
    pose proof (pu_size _ _ _ _ _ Hp). pose proof (below_size vu top). simpl in Hf. lia.
Qed.

Lemma findReads_ok vu e fuel :
  (nodes e < fuel)%nat ->
  exists rs, findReads fuel e vu = Ret rs /\ NoDup rs /\ forall r, r ∈ rs <-> isRead r = true /\ occurs vu e r.
Proof.
  intros Hf. unfold findReads. destruct (isConstant e) eqn:Hc.
  - destruct fuel as [|fuel]; [lia|]. exists []. split_and!; [done|constructor|]. intros r. split; [by intros ?%elem_of_nil|].
    intros [Hr Ho]. apply occurs_constant in Ho as ->; [|done]. by destruct e.
  - apply findReads_loop_ok; [|by intros h k ?%elem_of_nil|simpl; lia]. split.
    + apply NoDup_singleton.
    + exists []. split_and!; [done|done|by intros x k ?%elem_of_nil].
    + left.
    + by repeat constructor.
Qed.
(** ** The value depends on the reads only *)
(** Two contents agree on what a read can see of the initial array. *)
Definition agrees (init init' : array -> Z -> option Z) (r : expr) : Prop :=
  match r with
  | Read root _ (Constant _ i) => initial init root i = initial init' root i
  | Read root _ _ => forall i, initial init root i = initial init' root i
  | _ => True
  end.
Lemma occurs_step vu e k r : k ∈ below_ vu e -> occurs vu k r -> occurs vu e r.
Proof. intros Hk Hr. by eapply rtc_l. Qed.
Lemma occurs_parts e x : occurs true e x <-> x = e \/ exists k, k ∈ below_ true e /\ occurs true k x.
Proof.
  split; [intros H; inversion H; subst; [by left|right; by eexists]|].
  intros [-> |(k & Hk & H)]; [apply rtc_refl|by eapply occurs_step].
Qed.
(** Membership in a list that is written out. *)
Ltac member := first [left | right; member].
Lemma eval_local_both init init' :
  (forall e, (forall r, occurs true e r -> agrees init init' r) -> eval init e = eval init' e) /\
  (forall u, (forall k r, k ∈ entries u -> occurs true k r -> agrees init init' r) ->
     forall root i, initial init root i = initial init' root i -> eval_updates init root u i = eval_updates init' root u i).
Proof.
  apply expr_node_ind; cbn [eval eval_updates].
  - done.
  - intros src IH H. apply IH. intros r Hr. apply H. by eapply occurs_step; [left|].
  - intros root head IHh index IHi H.
    assert (Hi : eval init index = eval init' index).
    { apply IHi. intros r Hr. apply H. by eapply occurs_step; [left|]. }
    rewrite Hi. destruct (eval init' index) as [i|] eqn:Ei; [|done]. simpl. apply IHh.
    + intros k r Hk Hr. apply H. eapply occurs_step; [|done]. by right.
    + specialize (H (Read root head index) (rtc_refl _ _)). destruct index; try (by apply H). simpl in Ei. by injection Ei as <-.
  - intros c IHc t IHt f IHf H. rewrite IHc, IHt, IHf; [done| | |]; intros r Hr; apply H; (eapply occurs_step; [|done]); member.
  - intros l IHl r IHr H. rewrite IHl, IHr; [done| |]; intros x Hx; apply H; (eapply occurs_step; [|done]); member.
  - intros e IH off w H. rewrite IH; [done|]. intros x Hx; apply H; (eapply occurs_step; [|done]); member.
  - intros e IH w H. apply IH. intros x Hx; apply H; (eapply occurs_step; [|done]); member.
  - intros e IH w H. rewrite IH; [done|]. intros x Hx; apply H; (eapply occurs_step; [|done]); member.
  - intros e IH H. rewrite IH; [done|]. intros x Hx; apply H; (eapply occurs_step; [|done]); member.
  - intros k l IHl r IHr H. rewrite IHl, IHr; [done| |]; intros x Hx; apply H; (eapply occurs_step; [|done]); member.
  - done.
  - intros next IHn index IHi value IHv H root i Ha. cbn [entries] in H.
    rewrite IHi, IHv, (IHn ltac:(intros k r Hk; apply H; by do 2 right) root i Ha); [done| |]; intros r Hr; (eapply H; [|done]); member.
Qed.
Lemma eval_local init init' e :
  (forall r, occurs true e r -> agrees init init' r) -> eval init e = eval init' e.
Proof. apply eval_local_both. Qed.

(** What occurs in a well-typed expression is well typed. *)
Lemma width_ok_below e k : width_ok e = true -> k ∈ below_ true e -> width_ok k = true.
Proof.
  assert (He : forall root u, nodes_ok root u = true -> forall k, k ∈ entries u -> width_ok k = true).
  { fix IH 2. intros root [|next index value]; simpl; [intros _ x Hx; by apply elem_of_nil in Hx|].
    intros H x Hx. split_ok. apply elem_of_cons in Hx as [->|Hx]; [done|]. apply elem_of_cons in Hx as [->|Hx]; [done|]. by apply (IH root next). }
  intros Hok Hk. destruct e; simpl in *; split_ok;
    repeat match type of Hk with
    | _ ∈ [] => by apply elem_of_nil in Hk
    | _ ∈ entries _ => by eapply He
    | _ ∈ _ :: _ => apply elem_of_cons in Hk as [->|Hk]; [done|]
    end.
Qed.
Lemma width_ok_occurs e r : occurs true e r -> width_ok e = true -> width_ok r = true.
Proof. induction 1 as [|x y z Hy _ IH]; [done|]. intros Hx. by apply IH, (width_ok_below x). Qed.

(** ** The symbolic arrays *)
Definition reads_from (e : expr) (a : array) : Prop :=
  isSymbolicArray a = true /\ exists head index, occurs true e (Read a head index).
Lemma add_object_in a b objects : b ∈ add_object a objects <-> b ∈ objects \/ (b = a /\ isSymbolicArray a = true).
Proof.
  unfold add_object. destruct (isSymbolicArray a) eqn:Ea; simpl.
  - case_bool_decide as H.
    + rewrite elem_of_app, list_elem_of_singleton. tauto.
    + split; [by left|]. intros [Hb|[-> _]]; [done|]. by destruct (decide (a ∈ objects)).
  - split; [by left|]. by intros [Hb|[_ ?]].
Qed.
Lemma add_object_NoDup a objects : NoDup objects -> NoDup (add_object a objects).
Proof.
  intros H. unfold add_object. destruct (isSymbolicArray a); [|done]. simpl. case_bool_decide as Ha; [|done].
  apply list.NoDup_app. split_and!; [done| |apply NoDup_singleton]. by intros x Hx ->%list_elem_of_singleton.
Qed.
Lemma reads_from_below e a : isRead e = false -> reads_from e a <-> exists k, k ∈ kids_of e /\ reads_from k a.
Proof.
  intros Hr. assert (Hb : below_ true e = kids_of e) by (by destruct e). split.
  - intros (Ha & head & index & Ho). inversion Ho as [|? k ? Hk]; subst; [done|]. rewrite Hb in Hk. exists k. split; [done|]. by split; [|eauto].
  - intros (k & Hk & Ha & head & index & Ho). split; [done|]. exists head, index. eapply rtc_l; [|done]. by rewrite Hb.
Qed.
Lemma reads_from_read root head index a :
  reads_from (Read root head index) a <->
  (a = root /\ isSymbolicArray a = true) \/ (exists k, k ∈ entries head /\ reads_from k a) \/ reads_from index a.
Proof.
  split.
  - intros (Ha & h & i & Ho). inversion Ho as [|? k ? Hk]; subst; [by left|]. right.
    apply elem_of_cons in Hk as [->|Hk]; [right; by split; [|eauto]|]. left. exists k. split; [done|]. by split; [|eauto].
  - intros [[-> Ha]|[(k & Hk & Ha & h & i & Ho)|(Ha & h & i & Ho)]]; (split; [done|]).
    + exists head, index. constructor.
    + exists h, i. eapply rtc_l; [|done]. by right.
    + exists h, i. eapply rtc_l; [|done]. left.
Qed.
Lemma ex_nil {A} (P : A -> Prop) : (exists k, k ∈ [] /\ P k) <-> False.
Proof. split; [by intros (k & ?%elem_of_nil & _)|done]. Qed.
Lemma ex_cons {A} (P : A -> Prop) x l : (exists k, k ∈ x :: l /\ P k) <-> P x \/ exists k, k ∈ l /\ P k.
Proof. split; [intros (k & [->|Hk]%elem_of_cons & H); eauto|intros [H|(k & Hk & H)]; eexists; (split; [|exact H]); by constructor]. Qed.
Lemma visitSymbolic_both :
  (forall e objects, (forall a, a ∈ visitSymbolic e objects <-> a ∈ objects \/ reads_from e a) /\
     (NoDup objects -> NoDup (visitSymbolic e objects))) /\
  (forall u objects, (forall a, a ∈ visitNodes u objects <-> a ∈ objects \/ exists k, k ∈ entries u /\ reads_from k a) /\
     (NoDup objects -> NoDup (visitNodes u objects))).
Proof.
  assert (Hk : forall e (objects l : list array), isRead e = false -> (forall a, a ∈ l <-> a ∈ objects \/ exists k, k ∈ kids_of e /\ reads_from k a) ->
    forall a, a ∈ l <-> a ∈ objects \/ reads_from e a).
  { intros e objects l He H a. by rewrite H, (reads_from_below e a He). }
  apply expr_node_ind; cbn [visitSymbolic visitNodes].
  - intros w v objects. split; [|done]. apply Hk; [done|]. intros a. cbn [kids_of]. rewrite ex_nil. tauto.
  - intros k IH objects. split; [|apply IH]. apply Hk; [done|]. intros a. rewrite (proj1 (IH objects)). cbn [kids_of]. rewrite !ex_cons, ex_nil. tauto.
  - intros root head IHh index IHi objects. destruct (IHh objects) as [H1 H2]. destruct (IHi (add_object root (visitNodes head objects))) as [H3 H4].
    split; [|intros; apply H4, add_object_NoDup; auto]. intros a. rewrite H3, add_object_in, H1, reads_from_read. split; [|intros [?|[[-> ?]|?]]; [tauto|left; by right|tauto]].
    intros [[?|[-> ?]]|?]; [tauto|right; by left|tauto].
  - intros c IHc t IHt f IHf objects. split; [|intros; apply IHf, IHt, IHc; done].
    apply Hk; [done|]. intros a. rewrite (proj1 (IHf _)), (proj1 (IHt _)), (proj1 (IHc _)). cbn [kids_of]. rewrite !ex_cons, ex_nil. tauto.
  - intros l IHl r IHr objects. split; [|intros; apply IHr, IHl; done].
    apply Hk; [done|]. intros a. rewrite (proj1 (IHr _)), (proj1 (IHl _)). cbn [kids_of]. rewrite !ex_cons, ex_nil. tauto.
  - intros k IH off w objects. split; [|apply IH]. apply Hk; [done|]. intros a. rewrite (proj1 (IH objects)). cbn [kids_of]. rewrite !ex_cons, ex_nil. tauto.
  - intros k IH w objects. split; [|apply IH]. apply Hk; [done|]. intros a. rewrite (proj1 (IH objects)). cbn [kids_of]. rewrite !ex_cons, ex_nil. tauto.
  - intros k IH w objects. split; [|apply IH]. apply Hk; [done|]. intros a. rewrite (proj1 (IH objects)). cbn [kids_of]. rewrite !ex_cons, ex_nil. tauto.
  - intros k IH objects. split; [|apply IH]. apply Hk; [done|]. intros a. rewrite (proj1 (IH objects)). cbn [kids_of]. rewrite !ex_cons, ex_nil. tauto.
  - intros k l IHl r IHr objects. split; [|intros; apply IHr, IHl; done].
    apply Hk; [done|]. intros a. rewrite (proj1 (IHr _)), (proj1 (IHl _)). cbn [kids_of]. rewrite !ex_cons, ex_nil. tauto.
  - intros objects. split; [|done]. intros a. cbn [entries]. rewrite ex_nil. tauto.
  - intros next IHn index IHi value IHv objects. split; [|intros; apply IHn, IHv, IHi; done].
    intros a. rewrite (proj1 (IHn _)), (proj1 (IHv _)), (proj1 (IHi _)). cbn [entries]. rewrite !ex_cons. tauto.
Qed.
Lemma findSymbolicObjects_ok es :
  NoDup (findSymbolicObjects es) /\ forall a, a ∈ findSymbolicObjects es <-> exists e, e ∈ es /\ reads_from e a.
Proof.
  unfold findSymbolicObjects. assert (H : forall objects, NoDup objects ->
    NoDup (foldl (fun objects e => visitSymbolic e objects) objects es) /\
    forall a, a ∈ foldl (fun objects e => visitSymbolic e objects) objects es <-> a ∈ objects \/ exists e, e ∈ es /\ reads_from e a).
  { induction es as [|e es IH]; intros objects Hd; simpl; [split; [done|]; intros a; rewrite ex_nil; tauto|].
    destruct (proj1 visitSymbolic_both e objects) as [H1 H2]. destruct (IH _ (H2 Hd)) as [H3 H4]. split; [done|].
    intros a. rewrite H4, H1, ex_cons. tauto. }
  destruct (H []) as [H1 H2]; [constructor|]. split; [done|]. intros a. rewrite H2, elem_of_nil. tauto.
Qed.
End ExprUtil.
