(* ===== verification/ExprOrder.v ===== *)
(** * Expressions: their order

    Expr::compare of lib/Expr/Expr.cpp with the hashes it looks at first, and the comparison
    of update lists of Updates.cpp: a total order that the sets and maps of expressions are
    kept in. Every expression has a sequence of numbers that stands for it, and the code
    compares these sequences lexicographically. *)
From stdpp Require Import base gmap list strings numbers.
From Stdlib Require Import ZArith Lia.
From S2P Require Import Prelude MapOfSets ExprData.

Module ExprOrder.
Import Orders Expr.

(** ** Kinds *)
Definition kind_index (k : kind) : Z :=
  match k with
  | Add => 10 | Sub => 11 | Mul => 12 | UDiv => 13 | SDiv => 14 | URem => 15 | SRem => 16
  | And => 17 | Or => 18 | Xor => 19 | Shl => 20 | LShr => 21 | AShr => 22
  | Eq => 23 | Ne => 24 | Ult => 25 | Ule => 26 | Ugt => 27 | Uge => 28
  | Slt => 29 | Sle => 30 | Sgt => 31 | Sge => 32
  end.
Definition getKind (e : expr) : Z :=
  match e with
  | Constant _ _ => 0 | NotOptimized _ => 1 | Read _ _ _ => 3 | Select _ _ _ => 4 | Concat _ _ => 5
  | Extract _ _ _ => 6 | ZExt _ _ => 7 | SExt _ _ => 8 | Not _ => 9 | Binary k _ _ => kind_index k
  end.

(** The hash of the digits of a constant, LLVM's, and the addresses of the arrays. *)
Class Host : Type := { hash_value : Z -> Z -> Z; address : array -> Z }.
Class HostOk {host : Host} : Prop := address_inj a b : address a = address b -> a = b.

Section Order.
Context {host : Host}.

(** ** Hashes *)
Definition MAGIC_HASH_CONSTANT : Z := 39.
Definition mul_magic (h : Z) : Z := u32 (h * MAGIC_HASH_CONSTANT).
(** [Expr::computeHash] on the hashes of the kids *)
Definition hash_kids (kind : Z) (kids : list Z) : Z :=
  foldl (fun res h => Z.lxor (u32 (Z.shiftl res 1)) (mul_magic h)) (mul_magic kind) kids.
(** The characters of a name are signed. *)
Fixpoint hash_name (res : Z) (s : string) : Z :=
  match s with
  | EmptyString => res
  | String c s => hash_name (u32 (mul_magic res + s8 (Z.of_N (Ascii.N_of_ascii c)))) s
  end.
Fixpoint hash (e : expr) : Z :=
  match e with
  | Constant w v => u32 (Z.lxor (hash_value w v) (mul_magic w))
  | NotOptimized src => hash_kids (getKind e) [hash src]
  | Read root head index =>
      Z.lxor (mul_magic (hash index))
        (match head with Null => hash_name 0 (name root) | _ => Z.lxor (hash_name 0 (name root)) (hash_nodes head) end)
  | Select c t f => hash_kids (getKind e) [hash c; hash t; hash f]
  | Concat l r => hash_kids (getKind e) [hash l; hash r]
  | Extract x off w => Z.lxor (Z.lxor (mul_magic off) (mul_magic w)) (mul_magic (hash x))
  | ZExt src w | SExt src w => Z.lxor (mul_magic w) (mul_magic (hash src))
  | Not x => u32 (mul_magic (hash x) * getKind e)
  | Binary k l r => hash_kids (getKind e) [hash l; hash r]
  end
with hash_nodes (un : update_node) : Z :=
  match un with
  | Null => 0
  | UpdateNode next i v =>
      match next with
      | Null => Z.lxor (hash i) (hash v)
      | _ => Z.lxor (Z.lxor (hash i) (hash v)) (hash_nodes next)
      end
  end.

(** ** Comparison: negative, zero or positive *)
Fixpoint compare_names (a b : string) : Z :=
  match a, b with
  | EmptyString, EmptyString => 0
  | EmptyString, String _ _ => -1
  | String _ _, EmptyString => 1
  | String c a, String d b => first (zcmp (Z.of_N (Ascii.N_of_ascii c)) (Z.of_N (Ascii.N_of_ascii d))) (compare_names a b)
  end.
Definition compare_arrays (a b : array) : Z := first (compare_names (name a) (name b)) (zcmp (address a) (address b)).

Fixpoint compare (a b : expr) : Z :=
  first (zcmp (getKind a) (getKind b)) (first (zcmp (hash a) (hash b))
    (match a, b with
     | Constant w v, Constant w' v' => first (zcmp w w') (zcmp v v')
     | NotOptimized x, NotOptimized x' => compare x x'
     | Read root head index, Read root' head' index' =>
         first (first (compare_arrays root root')
                  (first (zcmp (getSize head) (getSize head')) (compare_nodes head head')))
           (compare index index')
     | Select c t f, Select c' t' f' => first (compare c c') (first (compare t t') (compare f f'))
     | Concat l r, Concat l' r' => first (compare l l') (compare r r')
     | Extract x off w, Extract x' off' w' => first (first (zcmp off off') (zcmp w w')) (compare x x')
     | ZExt x w, ZExt x' w' | SExt x w, SExt x' w' => first (zcmp w w') (compare x x')
     | Not x, Not x' => first (compare x x') (compare x x')
     | Binary _ l r, Binary _ l' r' => first (compare l l') (compare r r')
     | _, _ => 0
     end))
with compare_nodes (a b : update_node) : Z :=
  match a, b with
  | UpdateNode n i v, UpdateNode n' i' v' => first (first (compare i i') (compare v v')) (compare_nodes n n')
  | _, _ => 0
  end.
Definition expr_lt (a b : expr) : bool := compare a b <? 0.

(** ** The sequence of an expression *)
Fixpoint seq_name (s : string) : list Z :=
  match s with EmptyString => [-1] | String c s => Z.of_N (Ascii.N_of_ascii c) :: seq_name s end.
Fixpoint seq (e : expr) : list Z :=
  getKind e :: hash e ::
  match e with
  | Constant w v => [w; v]
  | NotOptimized x | Not x => seq x
  | Read root head index => seq_name (name root) ++ address root :: getSize head :: seq_nodes head ++ seq index
  | Select c t f => seq c ++ seq t ++ seq f
  | Concat l r | Binary _ l r => seq l ++ seq r
  | Extract x off w => off :: w :: seq x
  | ZExt x w | SExt x w => w :: seq x
  end
with seq_nodes (un : update_node) : list Z :=
  match un with Null => [] | UpdateNode n i v => seq i ++ seq v ++ seq_nodes n end.

(** Lexicographic comparison. *)
Abbreviation lex := (lexicographic (A := Z)).
Lemma lex_cons a b x y : lex (a :: x) (b :: y) = first (zcmp a b) (lex x y).
Proof. done. Qed.
Lemma zcmp_0 a b : zcmp a b = 0 <-> a = b.
Proof. apply (cmp_0 (K := Z)). Qed.
Lemma first_assoc a b c : first (first a b) c = first a (first b c).
Proof. unfold first. by destruct (Z.eqb_spec a 0) as [->|H]; [|rewrite (proj2 (Z.eqb_neq a 0) H)]. Qed.
Lemma first_same r : first r r = r.
Proof. unfold first. by destruct (Z.eqb_spec r 0). Qed.

Lemma lex_name a : forall b x y, lex (seq_name a ++ x) (seq_name b ++ y) = first (compare_names a b) (lex x y).
Proof.
  induction a as [|c a IH]; intros [|d b] x y; cbn [seq_name app compare_names]; rewrite lex_cons; [done| | |by rewrite IH, first_assoc].
  - destruct (zcmp_cases (-1) (Z.of_N (Ascii.N_of_ascii d))) as [[H _]|[[_ ->]|[H _]]]; [lia|done|lia].
  - destruct (zcmp_cases (Z.of_N (Ascii.N_of_ascii c)) (-1)) as [[H _]|[[H _]|[_ ->]]]; [lia|lia|done].
Qed.
Lemma kind_index_range k : 10 <= kind_index k.
Proof. destruct k; simpl; lia. Qed.
Lemma kind_index_inj k k' : kind_index k = kind_index k' -> k = k'.
Proof. destruct k, k'; simpl; (done || lia). Qed.
Lemma lex_head ka kb ha hb ra rb c x y :
  (ka = kb -> lex (ra ++ x) (rb ++ y) = first c (lex x y)) ->
  lex ((ka :: ha :: ra) ++ x) ((kb :: hb :: rb) ++ y) = first (first (zcmp ka kb) (first (zcmp ha hb) c)) (lex x y).
Proof.
  intros H. cbn [app]. rewrite !lex_cons. destruct (zcmp_cases ka kb) as [[E ->]|[[_ ->]|[_ ->]]]; [|done|done].
  rewrite !first_0, first_assoc. f_equal. by apply H.
Qed.

Definition seq_spec (a : expr) : Prop := forall b x y, lex (seq a ++ x) (seq b ++ y) = first (compare a b) (lex x y).
Definition seq_nodes_spec (u : update_node) : Prop := forall u' x y,
  getSize u = getSize u' -> lex (seq_nodes u ++ x) (seq_nodes u' ++ y) = first (compare_nodes u u') (lex x y).
Lemma getSize_pos u : 0 <= getSize u.
Proof. induction u as [|next IH]; simpl; lia. Qed.
(** Expressions of different kinds. *)
Ltac other_kind :=
  let H := fresh in
  intros H; exfalso; revert H; simpl;
  repeat match goal with |- context [kind_index ?k] => lazymatch goal with _ : 10 <= kind_index k |- _ => fail | _ => pose proof (kind_index_range k) end end; lia.
Lemma lex_seq_both : (forall a, seq_spec a) /\ (forall u, seq_nodes_spec u).
Proof.
  apply expr_node_ind; unfold seq_spec, seq_nodes_spec.
  - intros w v b x y. destruct b; (apply lex_head; try other_kind). intros _. simpl. by rewrite first_assoc.
  - intros a IH b x y. destruct b; (apply lex_head; try other_kind). intros _. apply IH.
  - intros root head IHh index IHi b x y. destruct b as [| |root' head' index'| | | | | | |]; (apply lex_head; try other_kind). intros _.
    rewrite <- !app_assoc, lex_name. cbn [app]. rewrite !lex_cons, <- !app_assoc. unfold compare_arrays. rewrite !first_assoc.
    do 2 f_equal. destruct (zcmp_cases (getSize head) (getSize head')) as [[E ->]|[[_ ->]|[_ ->]]]; [|done|done].
    rewrite !first_0. by rewrite IHh, IHi.
  - intros c IHc t IHt f IHf b x y. destruct b; (apply lex_head; try other_kind). intros _.
    by rewrite <- !app_assoc, IHc, IHt, IHf, !first_assoc.
  - intros l IHl r IHr b x y. destruct b; (apply lex_head; try other_kind). intros _. by rewrite <- !app_assoc, IHl, IHr, !first_assoc.
  - intros a IH off w b x y. destruct b; (apply lex_head; try other_kind). intros _. cbn [app]. by rewrite !lex_cons, IH, !first_assoc.
  - intros a IH w b x y. destruct b; (apply lex_head; try other_kind). intros _. cbn [app]. by rewrite !lex_cons, IH, !first_assoc.
  - intros a IH w b x y. destruct b; (apply lex_head; try other_kind). intros _. cbn [app]. by rewrite !lex_cons, IH, !first_assoc.
  - intros a IH b x y. destruct b; (apply lex_head; try other_kind). intros _. by rewrite first_same, IH.
  - intros k l IHl r IHr b x y. destruct b; (apply lex_head; try other_kind). intros _. by rewrite <- !app_assoc, IHl, IHr, !first_assoc.
  - intros [|n i v] x y; [done|]. simpl. pose proof (getSize_pos n). lia.
  - intros n IHn i IHi v IHv [|n' i' v'] x y; simpl; [pose proof (getSize_pos n); lia|]. intros E.
    by rewrite <- !app_assoc, IHi, IHv, IHn, !first_assoc by lia.
Qed.
Lemma lex_seq a b : lex (seq a) (seq b) = compare a b.
Proof.
  pose proof (proj1 lex_seq_both a b [] []) as H. rewrite !app_nil_r in H. rewrite H. simpl. unfold first. by destruct (Z.eqb_spec (compare a b) 0).
Qed.

(** ** The order of expressions *)
Context {hok : HostOk}.
Lemma compare_names_0 a : forall b, compare_names a b = 0 -> a = b.
Proof.
  induction a as [|c a IH]; intros [|d b]; simpl; try done. rewrite first_zero, zcmp_0. intros [H1 H2%IH]. f_equal; [|done].
  apply N2Z.inj in H1. by rewrite <- (Ascii.ascii_N_embedding c), H1, Ascii.ascii_N_embedding.
Qed.
Ltac kind_cases e' H0 H2 Hk :=
  destruct e'; cbn [compare] in H0; apply first_zero in H0 as [Hk H0]; rewrite zcmp_0 in Hk;
  try (exfalso; revert Hk; other_kind); apply first_zero in H0 as [_ H2]; rewrite ?first_zero in H2.
Lemma compare_0_both :
  (forall a b, compare a b = 0 -> a = b) /\ (forall u u', getSize u = getSize u' -> compare_nodes u u' = 0 -> u = u').
Proof.
  apply expr_node_ind.
  all: try (intros; match goal with H : compare _ ?b = 0 |- _ => rename b into e', H into Hcmp end; kind_cases e' Hcmp Hin Hk).
  - rewrite !zcmp_0 in Hin. by destruct Hin as [-> ->].
  - f_equal; auto.
  - destruct Hin as ((Ha & Hs & Hn) & Hi). rewrite zcmp_0 in Hs. unfold compare_arrays in Ha. rewrite first_zero, zcmp_0 in Ha.
    destruct Ha as [_ Ha%hok]. f_equal; auto.
  - destruct Hin as (? & ? & ?). f_equal; auto.
  - destruct Hin as (? & ?). f_equal; auto.
  - rewrite !zcmp_0 in Hin. destruct Hin as ((-> & ->) & ?). f_equal; auto.
  - rewrite !zcmp_0 in Hin. destruct Hin as (-> & ?). f_equal; auto.
  - rewrite !zcmp_0 in Hin. destruct Hin as (-> & ?). f_equal; auto.
  - destruct Hin as (? & _). f_equal; auto.
  - destruct Hin as (? & ?). apply kind_index_inj in Hk as ->. f_equal; auto.
  - intros [|n i v]; [done|]. simpl. pose proof (getSize_pos n). lia.
  - intros n IHn i IHi v IHv [|n' i' v']; simpl; [pose proof (getSize_pos n); lia|]. rewrite !first_zero.
    intros Hs [[? ?] ?]. f_equal; auto. apply IHn; [lia|done].
Qed.
Lemma compare_0 a b : compare a b = 0 <-> a = b.
Proof. split; [apply compare_0_both|]. intros ->. rewrite <- lex_seq. by apply (cmp_0 (K := list Z)). Qed.
Lemma compare_opp a b : compare b a = - compare a b.
Proof. rewrite <- !lex_seq. apply (cmp_opp (K := list Z)). Qed.
Lemma compare_trans a b c : compare a b < 0 -> compare b c < 0 -> compare a c < 0.
Proof. rewrite <- !lex_seq. apply (cmp_trans (K := list Z)). Qed.

#[export] Instance expr_order : Compare expr := compare.
#[export] Instance expr_order_ok : CompareOk expr.
Proof. split; [exact compare_0|exact compare_opp|exact compare_trans]. Qed.

(** C37. [Expr::compare] is a total order on expressions, in which only equal expressions are
    equal, although it compares hashes first: the sets of expressions and the canonical
    forms of queries are well defined. *)
Theorem compare_total_order a b c :
  (compare a b = 0 <-> a = b) /\ compare b a = - compare a b /\ (compare a b < 0 -> compare b c < 0 -> compare a c < 0).
Proof. split_and!; [apply compare_0|apply compare_opp|apply compare_trans]. Qed.
End Order.
End ExprOrder.
