(* ===== verification/ExprTotal.v ===== *)
(** * Expressions: what constructors keep, and that evaluation returns

Properties of the parts that the constructors keep ([ExprKeep]), and evaluation under an
    assignment, which always returns ([ExprTotal]). *)
From stdpp Require Import base gmap list strings numbers relations.
From Stdlib Require Import ZArith Lia.
From S2P Require Import Prelude ExprData ExprCreate ExprSound ExprFacts ExprEval ExprMain ConstraintsOk ExprUtil.

(** * Expressions: what the constructors take their results from

    A property that an expression has exactly when its parts have it, as a property of all
    reads, is kept by the constructors of binary expressions: what they return is put
    together from parts of the operands and constants. *)
Module ExprKeep.
Import Expr Create Sound.

(** A property of the parts; it may exclude divisors that are literally zero. *)
Record hereditary (P : expr -> Prop) : Prop := {
  he_constant w v : P (Constant w v);
  he_binary k l r : P (Binary k l r) <-> P l /\ P r /\ (is_div k = true -> isZero r = false);
  he_sext e w : P (SExt e w) <-> P e;
  he_zext e w : P (ZExt e w) <-> P e;
  he_index root head index : P (Read root head index) -> P index
}.

Section Keep.
Context {ap : APInt} (opt : bool) (P : expr -> Prop) (HP : hereditary P).

Definition keeps (r : result expr) : Prop := forall e, r = Ret e -> P e.
Definition keeps2 (f : expr -> expr -> result expr) : Prop := forall l r, P l -> P r -> keeps (f l r).

Lemma keeps_ret e : P e -> keeps (Ret e).
Proof. by intros H e' [= <-]. Qed.
Lemma keeps_stop s : keeps (Stop s).
Proof. done. Qed.
Lemma keeps_bind {A} (m : result A) (f : A -> result expr) : (forall a, m = Ret a -> keeps (f a)) -> keeps (a ← m; f a).
Proof. intros H. destruct m as [a|]; [by apply H|done]. Qed.
Lemma keeps_if (b : bool) (r1 r2 : result expr) : keeps r1 -> keeps r2 -> keeps (if b then r1 else r2).
Proof. by destruct b. Qed.
Lemma keeps_constant w v : P (Constant w v).
Proof. apply HP. Qed.
Lemma keeps_division k l r : (is_div k = true -> isZero r = false) -> P l -> P r -> P (Binary k l r).
Proof. intros Hd Hl Hr. by apply (he_binary P HP). Qed.
Lemma keeps_binary k l r : is_div k = false -> P l -> P r -> P (Binary k l r).
Proof. intros Hk. apply keeps_division. congruence. Qed.
Lemma binary_keeps k l r : P (Binary k l r) -> P l /\ P r.
Proof. intros H. apply (he_binary P HP) in H. tauto. Qed.
Lemma const_binary_keeps k w a b : keeps (const_binary k w a b).
Proof. unfold const_binary. destruct (ap_binary k w a b); [apply keeps_ret, keeps_constant|done]. Qed.
Local Hint Resolve keeps_ret keeps_stop keeps_if keeps_constant keeps_binary const_binary_keeps : core.

Lemma bcreate_r_keeps k pl pr full :
  (forall e w v, P e -> keeps (pl e w v)) -> (forall e w v, P e -> keeps (pr w v e)) -> keeps2 full -> keeps2 (bcreate_r k pl pr full).
Proof. intros Hl Hr Hf l r HPl HPr. unfold bcreate_r. apply keeps_if; [done|]. destruct l, r; auto. Qed.
Lemma bcreate_keeps k full : keeps2 full -> keeps2 (bcreate k full).
Proof. intros Hf l r HPl HPr. unfold bcreate. apply keeps_if; [done|]. destruct l, r; auto. Qed.

Lemma And_partial_keeps e w v : P e -> keeps (AndExpr_createPartial e w v).
Proof. intros H. unfold AndExpr_createPartial. apply keeps_ret. destruct (isAllOnes w v), (v =? 0); auto. Qed.
Lemma Or_partial_keeps e w v : P e -> keeps (OrExpr_createPartial e w v).
Proof. intros H. unfold OrExpr_createPartial. apply keeps_ret. destruct (isAllOnes w v), (v =? 0); auto. Qed.
Lemma create_And_keeps : keeps2 create_And.
Proof. apply bcreate_r_keeps; [exact And_partial_keeps|exact And_partial_keeps|]. intros l r Hl Hr. apply keeps_ret. auto. Qed.
Lemma create_Or_keeps : keeps2 create_Or.
Proof. apply bcreate_r_keeps; [exact Or_partial_keeps|exact Or_partial_keeps|]. intros l r Hl Hr. apply keeps_ret. auto. Qed.
Local Hint Resolve create_And_keeps create_Or_keeps : core.

(** ** Eq *)
Lemma EqExpr_keeps l r : P l -> P r -> P (EqExpr_create l r).
Proof. intros Hl Hr. unfold EqExpr_create. destruct (expr_eqb l r); auto. Qed.
Lemma eq_const_keeps rec e w v : (forall w v, keeps (rec w v e)) -> keeps (eq_const rec e w v).
Proof. intros H. unfold eq_const. apply keeps_if; [done|]. destruct e; auto. Qed.
Lemma const_array_keeps mayBe value values : forall i n res,
  P res -> (forall i, keeps (mayBe i)) -> forall r, const_array_loop mayBe value values i n res = Ret (Some r) -> P r.
Proof.
  induction values as [|v values IH]; intros i n res Hres Hm r; cbn [const_array_loop]; [by intros [= <-]|].
  destruct (value =? v); [|by apply IH]. destruct (100 <? n + 1); [done|].
  destruct (mayBe i) as [e|] eqn:E1; [|done]. cbn [mbind result_bind].
  destruct (create_Or res e) as [res'|] eqn:E2; [|done]. cbn [mbind result_bind]. apply IH; [|done].
  apply (create_Or_keeps res e Hres (Hm i e E1) res' E2).
Qed.
Lemma TryConstArray_keeps mayBe w v root head index :
  (forall i, keeps (mayBe i)) -> P (Read root head index) -> keeps (TryConstArrayOpt mayBe w v root head index).
Proof.
  intros Hm Hr. unfold TryConstArrayOpt. apply keeps_if; [by apply keeps_ret, EqExpr_keeps|].
  apply keeps_bind. intros [res|] E; apply keeps_ret; simpl; [|by apply EqExpr_keeps].
  eapply const_array_keeps; [apply keeps_constant|exact Hm|exact E].
Qed.
Lemma Eq_partialR_below n : forall r, (nodes r < n)%nat -> forall w v, P r -> keeps (EqExpr_createPartialR opt w v r).
Proof.
  induction n as [|n IH]; [lia|]. intros r Hn w v Hr.
  assert (Hsub : forall e w v, (nodes e < nodes r)%nat -> P e -> keeps (eq_const (EqExpr_createPartialR opt) e w v)).
  { intros e w' v' Hne He. apply eq_const_keeps. intros w'' v''. apply IH; [lia|done]. }
  assert (Hfull : keeps (Ret (EqExpr_create (Constant w v) r))) by (apply keeps_ret, EqExpr_keeps; auto).
  assert (Hopt : forall mayBe root head index, r = Read root head index -> (forall i, keeps (mayBe i)) ->
    keeps (TryConstArrayOpt mayBe w v root head index)).
  { intros mayBe root head index -> Hm. by apply TryConstArray_keeps. }
  destruct r as [w0 v0|src|root head index|c t f|l r|src o w0|src w0|src w0|src|k x y]; cbn [EqExpr_createPartialR];
    (destruct (w =? Bool); [destruct (isTrue w v); [by apply keeps_ret|]|]); try exact Hfull.
  - destruct opt; [|done]. apply Hopt; [done|]. intros i. apply Hsub; [simpl; lia|]. by eapply (he_index P HP).
  - apply he_zext in Hr; [|done]. apply keeps_if; [|auto]. apply Hsub; [simpl; lia|done].
  - apply he_sext in Hr; [|done]. apply keeps_if; [|auto]. apply Hsub; [simpl; lia|done].
  - apply binary_keeps in Hr as [Hx Hy]. destruct k; try exact Hfull.
    + apply keeps_bind. intros a Ea. apply keeps_bind. intros b Eb. apply create_And_keeps.
      * by apply (Hsub x (getWidth x) 0); [simpl; lia| |].
      * by apply (Hsub y (getWidth y) 0); [simpl; lia| |].
    + destruct x; try exact Hfull. apply keeps_ret. destruct (_ && _)%bool; [done|]. by apply EqExpr_keeps; auto.
  - apply binary_keeps in Hr as [Hx Hy]. destruct k; try exact Hfull; (destruct x; try exact Hfull); apply keeps_if; auto;
      (destruct (ap_binary _ _ _ _); [|done]); (apply IH; [simpl in *; lia|done]).
Qed.
Lemma Eq_partialR_keeps r w v : P r -> keeps (EqExpr_createPartialR opt w v r).
Proof. apply (Eq_partialR_below (S (nodes r))). lia. Qed.
Lemma create_Eq_keeps : keeps2 (create_Eq opt).
Proof.
  apply bcreate_r_keeps.
  - intros e w v. apply Eq_partialR_keeps.
  - intros e w v. apply Eq_partialR_keeps.
  - intros l r Hl Hr. by apply keeps_ret, EqExpr_keeps.
Qed.
Lemma createIsZero_keeps e : P e -> keeps (createIsZero opt e).
Proof. intros He. apply create_Eq_keeps; auto. Qed.
Local Hint Resolve create_Eq_keeps createIsZero_keeps Eq_partialR_keeps : core.

(** ** Xor, Add, Sub *)
Lemma Xor_partialR_keeps w v r : P r -> keeps (XorExpr_createPartialR opt w v r).
Proof. intros Hr. unfold XorExpr_createPartialR. apply keeps_if; [auto|]. apply keeps_if; [by apply Eq_partialR_keeps|auto]. Qed.
Lemma create_Xor_keeps : keeps2 (create_Xor opt).
Proof.
  apply bcreate_r_keeps; [intros; by apply Xor_partialR_keeps..|]. intros l r Hl Hr. apply keeps_ret. auto.
Qed.
Lemma with_const_keeps k pr w v e : (forall w v, keeps (pr w v e)) -> keeps (with_const k pr w v e).
Proof. intros H. unfold with_const. apply keeps_if; [done|]. destruct e; auto. Qed.
Lemma const_first_parts k w' c e : P (Binary k (Constant w' c) e) -> P e.
Proof. by intros [_ H]%binary_keeps. Qed.
Lemma AddSub_partialR_below n : forall r, (nodes r < n)%nat -> forall w v, P r ->
  keeps (AddExpr_createPartialR opt w v r) /\ keeps (SubExpr_createPartialR opt w v r).
Proof.
  induction n as [|n IH]; [lia|]. intros r Hn w v Hr.
  assert (Hadd : forall k0 e, (nodes e < nodes r)%nat -> P e -> forall s, keeps (with_const k0 (AddExpr_createPartialR opt) w s e)).
  { intros k0 e Hne He s. apply with_const_keeps. intros w' v'. apply IH; [lia|done]. }
  assert (Hsub : forall k0 e, (nodes e < nodes r)%nat -> P e -> forall s, keeps (with_const k0 (SubExpr_createPartialR opt) w s e)).
  { intros k0 e Hne He s. apply with_const_keeps. intros w' v'. apply IH; [lia|done]. }
  pose proof (Xor_partialR_keeps w v r Hr) as Hxor.
  assert (Hfa : keeps (Ret (Binary Add (Constant w v) r))) by auto.
  assert (Hfs : keeps (Ret (Binary Sub (Constant w v) r))) by auto.
  split; destruct r as [w0 v0|src|root head index|c t f|l r|src o w0|src w0|src w0|src|k x y];
    cbn [AddExpr_createPartialR SubExpr_createPartialR]; (apply keeps_if; [exact Hxor|]); try (apply keeps_if; [auto|]); try done;
    (destruct k; try done); (destruct x; try done);
    apply const_first_parts in Hr; (apply keeps_bind; intros s _); (apply Hadd || apply Hsub); simpl; (lia || done).
Qed.
Lemma Add_partialR_keeps w v r : P r -> keeps (AddExpr_createPartialR opt w v r).
Proof. intros Hr. by apply (AddSub_partialR_below (S (nodes r))); [lia|]. Qed.
Lemma Sub_partialR_keeps w v r : P r -> keeps (SubExpr_createPartialR opt w v r).
Proof. intros Hr. by apply (AddSub_partialR_below (S (nodes r))); [lia|]. Qed.
Lemma Sub_partial_keeps l w v : P l -> keeps (SubExpr_createPartial opt l w v).
Proof. intros Hl. unfold SubExpr_createPartial. destruct (ap_binary _ _ _ _); [by apply Add_partialR_keeps|done]. Qed.
Lemma const_left_keeps k e c x : P e -> const_left k e = Some (c, x) -> P c /\ P x.
Proof.
  intros He. unfold const_left. destruct e; try done. destruct e1; try done. case_bool_decide; [|done]. intros [= <- <-].
  split; [auto|]. by eapply const_first_parts.
Qed.
Lemma AddSub_create_keeps n : keeps2 (AddExpr_create opt n) /\ keeps2 (SubExpr_create opt n).
Proof.
  induction n as [|n [IHa IHs]]; [by split|].
  assert (Hadd : keeps2 (bcreate_r Add (AddExpr_createPartial opt) (AddExpr_createPartialR opt) (AddExpr_create opt n))).
  { apply bcreate_r_keeps; [intros; by apply Add_partialR_keeps..|done]. }
  assert (Hsub : keeps2 (bcreate_r Sub (SubExpr_createPartial opt) (SubExpr_createPartialR opt) (SubExpr_create opt n))).
  { apply bcreate_r_keeps; [intros; by apply Sub_partial_keeps|intros; by apply Sub_partialR_keeps|done]. }
  assert (Hseq : forall f g a b c (l : bool), keeps2 f -> keeps2 g -> P a -> P b -> P c ->
    keeps (x ← f a b; if l then g c x else g x c)).
  { intros f g a b c l Hf Hg Ha Hb Hc. apply keeps_bind. intros x Hx. pose proof (Hf a b Ha Hb x Hx). destruct l; by apply Hg. }
  split; intros l r Hl Hr; cbn [AddExpr_create SubExpr_create]; (apply keeps_if; [apply keeps_ret; by apply keeps_binary|]);
    try (apply keeps_if; [auto|]);
    repeat match goal with
    | |- keeps (match const_left ?k ?e with _ => _ end) =>
        destruct (const_left k e) as [[? ?]|] eqn:?; [match goal with H : const_left _ _ = Some _ |- _ => apply const_left_keeps in H as [? ?]; [|done] end|]
    end; try (by apply keeps_ret, keeps_binary);
    first [ by apply (Hseq _ _ _ _ _ true) | by apply (Hseq _ _ _ _ _ false) ].
Qed.
Lemma create_Add_keeps : keeps2 (create_Add opt).
Proof.
  intros l r. apply bcreate_r_keeps; [intros; by apply Add_partialR_keeps..|apply AddSub_create_keeps].
Qed.
Lemma create_Sub_keeps : keeps2 (create_Sub opt).
Proof.
  intros l r. apply bcreate_r_keeps; [intros; by apply Sub_partial_keeps|intros; by apply Sub_partialR_keeps|apply AddSub_create_keeps].
Qed.
Local Hint Resolve create_Xor_keeps create_Add_keeps create_Sub_keeps : core.

(** ** The other operators *)
Lemma Mul_partialR_keeps w v r : P r -> keeps (MulExpr_createPartialR w v r).
Proof.
  intros Hr. unfold MulExpr_createPartialR. apply keeps_if; [by apply And_partial_keeps|]. apply keeps_ret.
  destruct (v =? 1), (v =? 0); auto.
Qed.
Lemma create_Mul_keeps : keeps2 create_Mul.
Proof.
  apply bcreate_r_keeps; [intros; by apply Mul_partialR_keeps..|]. intros l r Hl Hr. apply keeps_ret. destruct (_ =? _); auto.
Qed.
Lemma keeps2_ret (f : expr -> expr -> expr) : (forall l r, P l -> P r -> P (f l r)) -> keeps2 (fun l r => Ret (f l r)).
Proof. intros H l r Hl Hr. by apply keeps_ret, H. Qed.
(** A boolean version with a negated operand, else the plain expression. *)
Lemma keeps2_bool k (neg : expr -> expr -> expr) (rest : expr -> expr -> expr -> result expr) :
  is_div k = false -> (forall l r, P l -> P r -> P (neg l r)) -> (forall l r z, P l -> P r -> P z -> keeps (rest l r z)) ->
  keeps2 (fun l r => if getWidth l =? Bool then z ← createIsZero opt (neg l r); rest l r z else Ret (Binary k l r)).
Proof.
  intros Hk Hn Hr l r Hl Hr'. apply keeps_if; [|by apply keeps_ret, keeps_binary]. apply keeps_bind. intros z Hz.
  apply Hr; [done..|]. by apply (createIsZero_keeps (neg l r) ltac:(auto) z Hz).
Qed.
(** A division, by an operand that is not literally zero. *)
Lemma division_keeps k (f : expr -> expr -> expr) l r :
  (forall l r, P l -> P r -> P (f l r)) -> isZero r = false -> P l -> P r ->
  keeps (bcreate k (fun l r => Ret (if getWidth l =? Bool then f l r else Binary k l r)) l r).
Proof.
  intros Hf Hz Hl Hr. unfold bcreate. apply keeps_if; [done|].
  assert (keeps (Ret (if getWidth l =? Bool then f l r else Binary k l r))).
  { apply keeps_ret. destruct (_ =? _); [by apply Hf|by apply keeps_division]. }
  destruct l; try done. destruct r; done || auto.
Qed.
Lemma create_nondiv_keeps k : is_div k = false -> keeps2 (create_binary opt k).
Proof.
  intros Hk.
  assert (Hplain : forall k k' (f : expr -> expr -> expr), is_div k' = false -> (forall l r, P l -> P r -> P (f l r)) ->
    keeps2 (bcreate k (fun l r => Ret (if getWidth l =? Bool then f l r else Binary k' l r)))).
  { intros k0 k' f Hk' Hf. apply bcreate_keeps, keeps2_ret. intros l r Hl Hr. destruct (_ =? _); [by apply Hf|by apply keeps_binary]. }
  assert (Hbool : forall k k' neg rest, is_div k' = false -> (forall l r, P l -> P r -> P (neg l r)) ->
    (forall l r z, P l -> P r -> P z -> keeps (rest l r z)) ->
    keeps2 (bcreate k (fun l r => if getWidth l =? Bool then z ← createIsZero opt (neg l r); rest l r z else Ret (Binary k' l r)))).
  { intros k0 k' neg rest H1 H2 H3. by apply bcreate_keeps, keeps2_bool. }
  assert (Hswap : forall f, keeps2 f -> keeps2 (fun l r => f r l)) by (intros f Hf l r Hl Hr; by apply Hf).
  pose proof (Hbool Ult Ult (fun l r => l) (fun l r z => create_And z r) eq_refl ltac:(auto) ltac:(intros; by apply create_And_keeps)) as Hult.
  pose proof (Hbool Ule Ule (fun l r => l) (fun l r z => create_Or z r) eq_refl ltac:(auto) ltac:(intros; by apply create_Or_keeps)) as Hule.
  pose proof (Hbool Slt Slt (fun l r => r) (fun l r z => create_And l z) eq_refl ltac:(auto) ltac:(intros; by apply create_And_keeps)) as Hslt.
  pose proof (Hbool Sle Sle (fun l r => r) (fun l r z => create_Or l z) eq_refl ltac:(auto) ltac:(intros; by apply create_Or_keeps)) as Hsle.
  destruct k; try done.
  all: try exact create_Add_keeps; try exact create_Sub_keeps; try exact create_Mul_keeps; try exact create_And_keeps;
    try exact create_Or_keeps; try exact create_Xor_keeps; try exact create_Eq_keeps.
  all: try exact Hult; try exact Hule; try exact Hslt; try exact Hsle.
  all: try exact (Hswap _ Hult); try exact (Hswap _ Hule); try exact (Hswap _ Hslt); try exact (Hswap _ Hsle).
  all: try (apply (Hbool _ _ (fun l r => r) (fun l r z => create_And l z)); [done|by auto|intros; by apply create_And_keeps]).
  all: try (apply Hplain; by auto).
  intros l r Hl Hr. apply keeps_bind. intros e He. apply create_Eq_keeps; [auto|]. by apply (create_Eq_keeps l r Hl Hr e He).
Qed.
Lemma create_binary_keeps k l r : (is_div k = true -> isZero r = false) -> P l -> P r -> keeps (create_binary opt k l r).
Proof.
  intros Hd Hl Hr. destruct (is_div k) eqn:Hk; [|by apply create_nondiv_keeps]. specialize (Hd eq_refl).
  destruct k; try done; by apply division_keeps; auto.
Qed.
End Keep.
End ExprKeep.

(** * Expressions: evaluation returns

    The evaluation of lib/Expr/ExprEvaluator.cpp under an assignment reaches no assertion
    and no division by a constant zero, whatever the values of the inputs: a divisor that
    becomes zero is left unevaluated. Only divisors that are literally zero are excluded. *)
Module ExprTotal.
Import Expr ExprFacts Create Sound Evaluator ExprMain ExprUtil ConstraintsOk.

(** No divisor is the constant zero. *)
Definition divisor_ok (x : expr) : Prop := match x with Binary k _ r => is_div k = true -> isZero r = false | _ => True end.
Definition safe (es : list expr) : Prop := forall e x, e ∈ es -> occurs true e x -> divisor_ok x.
Lemma safe_below e : safe [e] -> safe (below_ true e).
Proof. intros H k x Hk Hx. apply (H e); [left|]. by eapply occurs_step. Qed.
Lemma safe_in es e : safe es -> e ∈ es -> safe [e].
Proof. intros H He e' x ->%list_elem_of_singleton. by apply H. Qed.
Lemma safe_app es es' : safe (es ++ es') <-> safe es /\ safe es'.
Proof.
  split.
  - intros H. split; intros e x He; apply H, elem_of_app; auto.
  - intros [H1 H2] e x [He|He]%elem_of_app; [by apply H1|by apply H2].
Qed.
Lemma safe_cons e es : safe (e :: es) <-> safe [e] /\ safe es.
Proof. apply (safe_app [e]). Qed.

Section Total.
Context {ap : APInt} {ap_ok : APIntOk} (opt : bool) (a : Assignment) (Hbytes : bytes_ok a).

(** The result has the width of the expression. *)
Definition returns (w : Z) (r : result expr) : Prop := exists e', r = Ret e' /\ width_ok e' = true /\ getWidth e' = w.
Lemma returns_ret e w : width_ok e = true -> getWidth e = w -> returns w (Ret e).
Proof. intros H <-. by exists e. Qed.
Lemma returns_bind w w' (r : result expr) f :
  returns w r -> (forall e, width_ok e = true -> getWidth e = w -> returns w' (f e)) -> returns w' (e ← r; f e).
Proof. intros (e & -> & H1 & H2) Hf. by apply Hf. Qed.

Lemma rebuild_total e kids e1 w :
  with_kids e kids = Some e1 -> width_ok e1 = true -> match e1 with Binary k l r => div_ok k l r = true | _ => True end ->
  getWidth e1 = w -> returns w (rebuild opt e kids).
Proof.
  intros Hk Hok Hd <-.
  destruct (rebuild_impl opt (fun _ _ => None) ltac:(done) ltac:(done) e kids e1 Hk Hok Hd) as (e' & H1 & H2 & H3 & _). by exists e'.
Qed.
Lemma do_children_total e kids visited e1 w :
  with_kids e visited = Some e1 -> width_ok e1 = true -> match e1 with Binary k l r => div_ok k l r = true | _ => True end ->
  width_ok e = true -> getWidth e = w -> getWidth e1 = w -> returns w (do_children opt e kids visited).
Proof.
  intros Hk Hok Hd He Hw Hw1. unfold do_children. apply (returns_bind w).
  - case_bool_decide; [by apply returns_ret|by eapply rebuild_total].
  - intros e' H1 H2. destruct e'; by apply returns_ret.
Qed.

Abbreviation visit_ := (visit opt (evaluate_cell opt a)).
Abbreviation evalRead_ := (evalRead opt (evaluate_cell opt a)).
Definition visit_returns (e : expr) : Prop := width_ok e = true -> safe [e] -> returns (getWidth e) (visit_ e).
Definition read_returns (un : update_node) : Prop := forall root i,
  array_ok root = true -> nodes_ok root un = true -> safe (entries un) -> 0 <= i < 2 ^ domain root ->
  returns (range root) (evalRead_ root un i).

Lemma alloc_ok v w : 0 <= v < 2 ^ 64 -> const_alloc v w = v `mod` 2 ^ w.
Proof. intros Hv. unfold const_alloc. by rewrite ap_zext_ok by (lia || by apply fits_iff). Qed.
Lemma read_total root un i :
  array_ok root = true -> nodes_ok root un = true -> 0 <= i < 2 ^ domain root ->
  returns (range root) (create_Read opt root un (Constant (domain root) (const_alloc i (domain root)))).
Proof.
  intros Hr Hun Hi. pose proof Hr as Hr'. unfold array_ok in Hr'. split_ok. pose proof (Z.pow_le_mono_r 2 (domain root) 32 ltac:(lia) ltac:(lia)).
  rewrite alloc_ok, Z.mod_small by lia.
  destruct (create_Read_impl opt (fun _ _ => None) ltac:(done) ltac:(done) root un (Constant (domain root) i)) as (e' & -> & He & Hw & _); [|by exists e'].
  change ((array_ok root && nodes_ok root un && width_ok (Constant (domain root) i) && (domain root =? domain root))%bool = true).
  by rewrite Hr, Hun, Z.eqb_refl, constant_ok by lia.
Qed.
Lemma cell_total root i : array_ok root = true -> 0 <= i < 2 ^ domain root -> returns (range root) (evaluate_cell opt a root i).
Proof.
  intros Hr Hi. assert (0 < range root) by (unfold array_ok in Hr; split_ok; lia).
  unfold evaluate_cell. destruct (_ ≫= _) as [b|] eqn:Eb.
  - destruct (bindings a root) as [bytes|] eqn:Eb'; [|done]. simpl in Eb.
    pose proof (Hbytes root bytes Eb') as Hb. rewrite list.Forall_lookup in Hb. specialize (Hb _ _ Eb).
    rewrite alloc_ok by lia. apply returns_ret; [|done]. apply constant_ok; [lia|]. apply Z.mod_pos_bound. lia.
  - destruct (allowFreeValues a); [by apply read_total|]. apply returns_ret; [apply constant_ok; lia|done].
Qed.

(** ** One level *)
Lemma visit_unary_total e x :
  visit_returns x -> width_ok e = true -> safe [e] -> width_ok x = true ->
  below_ true e = [x] ->
  (forall x', width_ok x' = true -> getWidth x' = getWidth x -> exists e1, with_kids e [x'] = Some e1 /\ width_ok e1 = true /\ getWidth e1 = getWidth e /\ match e1 with Binary _ _ _ => False | _ => True end) ->
  returns (getWidth e) (if isConstant x then rebuild opt e [x] else x' ← visit_ x; do_children opt e [x] [x']).
Proof.
  intros IH He Hs Hx Hb Hk. assert (Hp : forall e1, match e1 with Binary _ _ _ => False | _ => True end ->
    match e1 with Binary k l r => div_ok k l r = true | _ => True end) by (by intros []).
  destruct (isConstant x).
  - destruct (Hk x) as (e1 & H1 & H2 & H3 & H4); [done..|]. eapply rebuild_total; [exact H1|exact H2|by apply Hp|exact H3].
  - apply (returns_bind (getWidth x)); [apply IH; [done|]|].
    + apply safe_below in Hs. by rewrite Hb in Hs.
    + intros x' H' Hw'. destruct (Hk x' H' Hw') as (e1 & H1 & H2 & H3 & H4). eapply do_children_total; [exact H1|exact H2|by apply Hp|done|done|exact H3].
Qed.
Lemma visit_select_total c t f :
  visit_returns c -> visit_returns t -> visit_returns f -> visit_returns (Select c t f).
Proof.
  intros IHc IHt IHf He Hs. pose proof He as He'. simpl in He'. split_ok. cbn [visit].
  apply safe_below in Hs. cbn [below_ kids_of] in Hs. apply safe_cons in Hs as [Hsc Hs]. apply safe_cons in Hs as [Hst Hsf].
  destruct (_ && _ && _)%bool; [by eapply rebuild_total|].
  apply (returns_bind (getWidth c)); [by apply IHc|intros c' Hc Wc].
  apply (returns_bind (getWidth t)); [by apply IHt|intros t' Ht Wt]. apply (returns_bind (getWidth f)); [by apply IHf|intros f' Hf Wf].
  eapply do_children_total; [done| |done|done|done|simpl; congruence]. simpl. rewrite Hc, Ht, Hf. simpl. prove_ok; lia.
Qed.
Lemma visit_concat_total l r : visit_returns l -> visit_returns r -> visit_returns (Concat l r).
Proof.
  intros IHl IHr He Hs. pose proof He as He'. simpl in He'. split_ok. cbn [visit].
  apply safe_below in Hs. cbn [below_ kids_of] in Hs. apply safe_cons in Hs as [Hsl Hsr].
  destruct (_ && _)%bool; [by eapply rebuild_total|].
  apply (returns_bind (getWidth l)); [by apply IHl|intros l' Hl Wl]. apply (returns_bind (getWidth r)); [by apply IHr|intros r' Hr Wr].
  eapply do_children_total; [done|by apply concat_ok|done|done|done|simpl; congruence].
Qed.
(** A division keeps its divisor when the value of the divisor is zero. *)
Lemma visit_binary_total k l r : visit_returns l -> visit_returns r -> visit_returns (Binary k l r).
Proof.
  intros IHl IHr He Hs. pose proof He as He'. simpl in He'. split_ok. cbn [visit].
  pose proof (Hs (Binary k l r) (Binary k l r) ltac:(left) (rtc_refl _ _)) as Hz. cbn [divisor_ok] in Hz.
  assert (Hd : forall l' r', (is_div k = true -> isZero r' = false) -> div_ok k l' r' = true).
  { intros l' r' H'. unfold div_ok. destruct (is_div k); [|done]. rewrite H' by done. by destruct (isConstant l'). }
  apply safe_below in Hs. cbn [below_ kids_of] in Hs. apply safe_cons in Hs as [Hsl Hsr].
  destruct (_ && _)%bool; [eapply rebuild_total; [reflexivity|exact He|by apply Hd|reflexivity]|].
  apply (returns_bind (getWidth l)); [by apply IHl|intros l' Hl Wl]. apply (returns_bind (getWidth r)); [by apply IHr|intros r' Hr Wr].
  assert (Hw : forall x y, getWidth x = getWidth l -> getWidth (Binary k x y) = getWidth (Binary k l r)).
  { intros x y Hx. simpl. by rewrite Hx. }
  destruct (is_div k) eqn:Ek.
  - unfold protectedDivOperation. set (r'' := if isZero r' then r else r').
    assert (width_ok r'' = true /\ getWidth r'' = getWidth r /\ isZero r'' = false) as (Hr1 & Hr2 & Hr3).
    { unfold r''. destruct (isZero r') eqn:Ez; auto. }
    destruct (_ && _)%bool; [by apply returns_ret|].
    eapply rebuild_total; [done|apply binary_ok; [done|done|lia]|by apply Hd|by apply Hw].
  - eapply do_children_total; [done|apply binary_ok; [done|done|lia]|by apply Hd|done|done|by apply Hw].
Qed.

(** ** All levels *)
Lemma read_ok root head index :
  array_ok root = true -> nodes_ok root head = true -> width_ok index = true -> getWidth index = domain root ->
  width_ok (Read root head index) = true.
Proof. simpl. intros -> -> -> ->. by rewrite Z.eqb_refl. Qed.
Lemma visit_read_total root head index : visit_returns index -> read_returns head -> visit_returns (Read root head index).
Proof.
  intros IHi IHh He Hs. pose proof He as He'. simpl in He'. split_ok. cbn [visit].
  apply safe_below in Hs. cbn [below_] in Hs. apply safe_cons in Hs as [Hsi Hsh].
  assert (Hd : domain root <= 32) by (unfold array_ok in *; split_ok; lia).
  apply (returns_bind (getWidth index)); [by apply IHi|intros v Hv Wv]. destruct v as [w c| | | | | | | | |];
    try (eapply do_children_total; [reflexivity|apply read_ok; congruence|done|done|done|done]).
  apply constant_inv in Hv as [Hw Hc]. simpl in Wv. subst w. unfold getZExtValue.
  rewrite (proj2 (Z.ltb_ge 64 _)) by lia. cbn [mbind result_bind].
  pose proof (Z.pow_le_mono_r 2 (domain root) 32 ltac:(lia) Hd). match goal with H : getWidth index = domain root |- _ => rewrite H in Hc end.
  rewrite u32_small by lia. by apply IHh.
Qed.
Lemma evalRead_total next i v : read_returns next -> visit_returns i -> visit_returns v -> read_returns (UpdateNode next i v).
Proof.
  intros IHn IHi IHv root j Hr Hun Hs Hj. pose proof Hun as Hun'. simpl in Hun'. split_ok. rewrite evalRead_cons.
  cbn [entries] in Hs. apply safe_cons in Hs as [Hsi Hs]. apply safe_cons in Hs as [Hsv Hs].
  assert (Hd : domain root <= 32) by (unfold array_ok in Hr; split_ok; lia).
  apply (returns_bind (getWidth i)); [by apply IHi|intros u Hu Wu].
  destruct u as [w c| | | | | | | | |]; try (by apply read_total). apply constant_inv in Hu as [Hw Hc]. simpl in Wu. subst w.
  unfold getZExtValue. rewrite (proj2 (Z.ltb_ge 64 _)) by lia. cbn [mbind result_bind]. destruct (c =? j); [|by apply IHn].
  match goal with H : getWidth v = range root |- _ => rewrite <- H end. by apply IHv.
Qed.
Lemma visit_total_both : (forall e, visit_returns e) /\ (forall un, read_returns un).
Proof.
  apply expr_node_ind.
  - intros w c He Hs. by apply returns_ret.
  - intros src IH He Hs. apply (visit_unary_total _ src); [done|done|done|done|done|]. intros x' H1 H2. by eexists.
  - intros root head IHh index IHi. by apply visit_read_total.
  - intros c IHc t IHt f IHf. by apply visit_select_total.
  - intros l IHl r IHr. by apply visit_concat_total.
  - intros x IH off w He Hs. pose proof He as He'. simpl in He'. split_ok. apply (visit_unary_total _ x); [done..|].
    intros x' H1' H2'. eexists. split_and!; [done| |done|done]. cbn [width_ok]. rewrite H2'. by prove_ok.
  - intros x IH w He Hs. pose proof He as He'. simpl in He'. split_ok. apply (visit_unary_total _ x); [done..|].
    intros x' H1' H2'. eexists. split_and!; [done| |done|done]. cbn [width_ok]. rewrite H2'. by prove_ok.
  - intros x IH w He Hs. pose proof He as He'. simpl in He'. split_ok. apply (visit_unary_total _ x); [done..|].
    intros x' H1' H2'. eexists. split_and!; [done| |done|done]. cbn [width_ok]. rewrite H2'. by prove_ok.
  - intros x IH He Hs. apply (visit_unary_total _ x); [done|done|done|done|done|]. intros x' H1 H2. eexists. by split_and!.
  - intros k l IHl r IHr. by apply visit_binary_total.
  - intros root i Hr _ _ Hi. cbn [evalRead]. destruct (isConstantArray root && (i <? size root))%bool eqn:E; [|by apply cell_total].
    apply andb_prop in E as [Ec Ei]. pose proof Hr as Hr'. unfold array_ok in Hr'. split_ok.
    unfold isConstantArray in Ec. assert (Z.of_nat (length (constantValues root)) = size root) as Hl.
    { match goal with H : (_ || _)%bool = true |- _ => apply orb_prop in H as [Hy|Hy] end; [by rewrite Hy in Ec|lia]. }
    destruct (lookup_lt_is_Some_2 (constantValues root) (Z.to_nat i)) as [v Hv]; [lia|]. rewrite Hv. apply returns_ret; [|done].
    match goal with H : forallb _ _ = true |- _ => rewrite forallb_forall in H; specialize (H v ltac:(apply list_elem_of_In; by eapply list_elem_of_lookup_2)) end.
    simpl. by prove_ok.
  - intros next IHn i IHi v IHv. by apply evalRead_total.
Qed.
Lemma evaluate_total e : width_ok e = true -> safe [e] -> returns (getWidth e) (evaluate opt a e).
Proof. intros He Hs. by apply visit_total_both. Qed.

(** [satisfies] answers whether every constraint evaluates to true. *)
Lemma satisfies_total es :
  Forall (fun e => width_ok e = true /\ getWidth e = 1 /\ safe [e]) es ->
  exists b, satisfies opt a es = Ret b /\ (b = true <-> Forall (fun e => evaluate opt a e = Ret (Constant 1 1)) es).
Proof.
  induction es as [|e es IH]; intros Hes; [by exists true|]. apply Forall_cons_iff in Hes as [(He & Hw & Hs) Hes]. cbn [satisfies].
  destruct (evaluate_total e He Hs) as (v & Ev & Hv & Wv). rewrite Ev. cbn [mbind result_bind]. rewrite Wv, Hw. cbn [negb].
  change (negb (1 =? Bool)) with false. cbn match.
  assert (Hno : v <> Constant 1 1 -> ~ Forall (fun e => evaluate opt a e = Ret (Constant 1 1)) (e :: es)).
  { intros Hne [Hc _]%Forall_cons_iff. congruence. }
  destruct v as [w b| | | | | | | | |]; try (exists false; split; [done|]; split; [done|intros Hx; by apply Hno in Hx]).
  simpl in Wv. rewrite Hw in Wv. subst w. apply constant_inv in Hv as [_ Hb]. change (2 ^ 1) with 2 in Hb.
  unfold isTrue. change (1 =? Bool) with true. cbn [andb]. assert (b = 0 \/ b = 1) as [-> | ->] by lia.
  - exists false. split; [done|]. split; [done|intros Hx; by apply Hno in Hx].
  - destruct (IH Hes) as (b & -> & Hb'). exists b. split; [done|]. rewrite Hb', Forall_cons_iff. tauto.
Qed.

(** A division whose divisor evaluates to zero. *)
Lemma division_left k l r l' w :
  width_ok (Binary k l r) = true -> safe [Binary k l r] -> is_div k = true -> getWidth l <> 1 ->
  evaluate opt a l = Ret l' -> evaluate opt a r = Ret (Constant w 0) ->
  evaluate opt a (Binary k l r) = Ret (Binary k l' r).
Proof.
  intros He Hs Hk Hw El Er. pose proof He as He'. simpl in He'. split_ok.
  pose proof (Hs (Binary k l r) (Binary k l r) ltac:(left) (rtc_refl _ _) Hk) as Hz.
  apply safe_below in Hs. cbn [below_ kids_of] in Hs. apply safe_cons in Hs as [Hsl Hsr].
  destruct (evaluate_total l ltac:(done) Hsl) as (l1 & E1 & Hl1 & Wl1). rewrite El in E1. injection E1 as <-.
  assert (Hr : isConstant r = false) by (destruct r; try done; cbn in Er; injection Er as -> ->; done).
  unfold evaluate in *. cbn [visit]. rewrite Hr, andb_false_r, El, Er. cbn [mbind result_bind]. rewrite Hk.
  unfold protectedDivOperation. change (isZero (Constant w 0)) with true. cbv iota zeta.
  rewrite (bool_decide_eq_true_2 (r = r)), andb_true_r by done. case_bool_decide as Ell; [by rewrite Ell|].
  assert (Hww : getWidth l' = getWidth r) by lia. assert (Hb : (getWidth l' =? Bool) = false) by (apply Z.eqb_neq; change Bool with 1; lia).
  destruct k; try done; cbn [rebuild create_binary]; unfold bcreate; rewrite Hww, Z.eqb_refl; cbn [negb];
    destruct l', r; try done; unfold UDivExpr_create, SDivExpr_create, URemExpr_create, SRemExpr_create; by rewrite Hb.
Qed.

(** C29. Evaluation under an assignment returns, for all inputs that the assignment can give:
    an expression of the same width, although under these inputs a divisor may be zero or an
    index out of bounds. A division, of values wider than one bit, whose divisor evaluates to
    zero is not carried out: its dividend is evaluated, and it stays a division by its own
    divisor. And [satisfies] returns, with true exactly when all constraints evaluate to true.
    Divisors that are literally zero are excluded ([safe]). *)
Theorem evaluation_returns e es :
  width_ok e = true -> safe [e] -> Forall (fun e => width_ok e = true /\ getWidth e = 1 /\ safe [e]) es ->
  (exists e', evaluate opt a e = Ret e' /\ width_ok e' = true /\ getWidth e' = getWidth e) /\
  (forall k l r l' w, e = Binary k l r -> is_div k = true -> getWidth l <> 1 ->
     evaluate opt a l = Ret l' -> evaluate opt a r = Ret (Constant w 0) -> evaluate opt a e = Ret (Binary k l' r)) /\
  exists b, satisfies opt a es = Ret b /\ (b = true <-> Forall (fun e => evaluate opt a e = Ret (Constant 1 1)) es).
Proof.
  intros He Hs Hes. split_and!; [by apply evaluate_total| |by apply satisfies_total].
  intros k l r l' w -> Hk Hw El Er. by eapply division_left.
Qed.
End Total.

(** [x[1] / x[2]], when [x[2]] is zero: the division is left. *)
Definition quotient : expr := Binary UDiv (byte 1) (byte 2).
Lemma quotient_safe : safe [quotient].
Proof.
  assert (Hb : forall i x, occurs true (byte i) x -> divisor_ok x).
  { intros i x [->|(k & ->%list_elem_of_singleton & H)]%occurs_parts; [done|]. by apply occurs_constant in H as ->. }
  intros e x ->%list_elem_of_singleton [->|(k & Hk & Ho)]%occurs_parts; [by intros _|].
  apply elem_of_cons in Hk as [-> | ->%list_elem_of_singleton]; by eapply Hb.
Qed.
Lemma quotient_divides : evaluate false asg quotient = Ret (Binary UDiv (Constant 8 2) (byte 2)).
Proof. vm_compute. reflexivity. Qed.
Lemma evaluation_returns_witness :
  (exists e', evaluate false asg quotient = Ret e' /\ width_ok e' = true /\ getWidth e' = 8) /\
  evaluate false asg quotient = Ret (Binary UDiv (Constant 8 2) (byte 2)).
Proof.
  destruct (evaluation_returns false asg asg_bytes quotient [] eq_refl quotient_safe (List.Forall_nil _)) as (H1 & H2 & _).
  split; [exact H1|]. apply (H2 UDiv (byte 1) (byte 2) (Constant 8 2) 8); vm_compute; [reflexivity..|discriminate|reflexivity|reflexivity].
Defined.
End ExprTotal.
