(* ===== verification/Solver.v ===== *)
(** * Solvers

    lib/Solver/Solver.cpp, SolverImpl.cpp and include/klee/Solver.h: a query asks whether an
    expression follows from constraints. [SolverImpl] is what an implementation offers, the
    class [SolverOk] what it promises; [Solver] adds the derived questions and [getRange],
    the binary search for the extreme values of an expression. *)
From stdpp Require Import base gmap list strings numbers.
From Stdlib Require Import ZArith Lia.
From S2P Require Import Prelude ExprData ExprCreate.

Module Solver.
Import Expr Create.

(** ** Queries *)
Record Query : Type := MkQuery { constraints : list expr; query : expr }.
Inductive Validity : Type := VTrue | VFalse | VUnknown.

#[export] Instance validity_eq_dec : EqDecision Validity.
Proof. solve_decision. Defined.

Section Queries.
Context {ap : APInt} (ConstArrayOpt : bool).

Definition withExpr (q : Query) (e : expr) : Query := MkQuery (constraints q) e.
Definition withFalse (q : Query) : Query := withExpr q (Constant Bool 0).
Definition negateExpr (q : Query) : result Query := e ← createIsZero ConstArrayOpt (query q); Ret (withExpr q e).
End Queries.

(** ** Implementations

    The methods of [SolverImpl] on a state of type [St]. [None]: the solver failed. The
    values are whether there is a solution, and the bytes of the arrays in it. *)
Record SolverImpl (St : Type) : Type := MkSolverImpl {
  computeTruth : Query -> M St (option bool);
  computeValidity : Query -> M St (option Validity);
  computeValue : Query -> M St (option expr);
  computeInitialValues : Query -> list array -> M St (option (bool * list (list Z)))
}.
Arguments MkSolverImpl {St}.
Arguments computeTruth {St}.
Arguments computeValidity {St}.
Arguments computeValue {St}.
Arguments computeInitialValues {St}.

Section Solve.
Context {ap : APInt} (ConstArrayOpt : bool) {St : Type}.

(** [SolverImpl::computeValidity], which an implementation may keep. *)
Definition default_computeValidity (truth : Query -> M St (option bool)) (q : Query) : M St (option Validity) :=
  t ← truth q;
  match t with
  | None => mret None
  | Some true => mret (Some VTrue)
  | Some false =>
      n ← lift (negateExpr ConstArrayOpt q);
      f ← truth n;
      match f with
      | None => mret None
      | Some isFalse => mret (Some (if isFalse : bool then VFalse else VUnknown))
      end
  end.

(** ** [class Solver] *)
Context (impl : SolverImpl St).

Definition evaluate (q : Query) : M St (option Validity) :=
  assert_ (getWidth (query q) =? Bool);;
  match query q with
  | Constant w v => mret (Some (if isTrue w v then VTrue else VFalse))
  | _ => computeValidity impl q
  end.
Definition mustBeTrue (q : Query) : M St (option bool) :=
  assert_ (getWidth (query q) =? Bool);;
  match query q with
  | Constant w v => mret (Some (isTrue w v))
  | _ => computeTruth impl q
  end.
Definition mustBeFalse (q : Query) : M St (option bool) := n ← lift (negateExpr ConstArrayOpt q); mustBeTrue n.
Definition mayBeTrue (q : Query) : M St (option bool) := r ← mustBeFalse q; mret (negb <$> r).
Definition mayBeFalse (q : Query) : M St (option bool) := r ← mustBeTrue q; mret (negb <$> r).
Definition getValue (q : Query) : M St (option expr) :=
  match query q with
  | Constant _ _ => mret (Some (query q))
  | _ =>
      r ← computeValue impl q;
      match r with
      | None => mret None
      | Some e => assert_ (isConstant e);; mret (Some e)
      end
  end.
Definition getInitialValues (q : Query) (objects : list array) : M St (option (list (list Z))) :=
  r ← computeInitialValues impl q objects;
  mret (match r with Some (true, values) => Some values | _ => None end).

(** *** [getRange] *)
(** [bits64::maxValueOfNBits] *)
Definition maxValueOfNBits (n : Z) : Z := if n =? 0 then 0 else Z.shiftr (2 ^ 64 - 1) (64 - n).

(** An answer that must be there: [assert(success)]. *)
Definition answered (m : M St (option bool)) : M St bool :=
  r ← m; match r with Some b => mret b | None => halt AssertFailed end.

(** The loop [while (lo<hi)]: the least number for which [ask] says yes. *)
Fixpoint search (fuel : nat) (ask : Z -> M St bool) (lo hi : Z) : M St Z :=
  match fuel with
  | O => halt OutOfFuel
  | S fuel =>
      if lo <? hi then
        let mid := u64 (lo + u64 (hi - lo) / 2) in
        res ← ask mid;
        if res : bool then search fuel ask lo mid else search fuel ask (u64 (mid + 1)) hi
      else mret lo
  end.

Definition ask_bits (q : Query) (width mid : Z) : M St bool :=
  c ← lift (create_Constant mid width);
  z ← lift (create_Constant 0 width);
  s ← lift (create_binary ConstArrayOpt LShr (query q) c);
  e ← lift (create_binary ConstArrayOpt Eq s z);
  answered (mustBeTrue (withExpr q e)).
Definition ask_zero (q : Query) (width : Z) : M St bool :=
  z ← lift (create_Constant 0 width);
  e ← lift (create_binary ConstArrayOpt Eq (query q) z);
  answered (mayBeTrue (withExpr q e)).
Definition ask_min (q : Query) (width mid : Z) : M St bool :=
  c ← lift (create_Constant mid width);
  e ← lift (create_binary ConstArrayOpt Ule (query q) c);
  answered (mayBeTrue (withExpr q e)).
Definition ask_max (q : Query) (width mid : Z) : M St bool :=
  c ← lift (create_Constant mid width);
  e ← lift (create_binary ConstArrayOpt Ule (query q) c);
  answered (mustBeTrue (withExpr q e)).

Definition range_of (fuel : nat) (q : Query) : M St (Z * Z) :=
  let width := getWidth (query q) in
  if width =? 1 then
    r ← evaluate q;
    match r with
    | None => halt AssertFailed
    | Some VTrue => mret (1, 1)
    | Some VFalse => mret (0, 0)
    | Some VUnknown => mret (0, 1)
    end
  else
    match query q with
    | Constant w v => assert_ (w <=? 64);; mret (v, v)
    | _ =>
        bits ← search fuel (ask_bits q width) 0 width;
        zero ← ask_zero q width;
        lo ← (if zero : bool then mret 0 else search fuel (ask_min q width) 0 (maxValueOfNBits bits));
        hi ← search fuel (ask_max q width) lo (maxValueOfNBits bits);
        mret (lo, hi)
    end.
Definition getRange (fuel : nat) (q : Query) : M St (expr * expr) :=
  let width := getWidth (query q) in
  r ← range_of fuel q;
  lo ← lift (create_Constant r.1 width);
  hi ← lift (create_Constant r.2 width);
  mret (lo, hi).
End Solve.
End Solver.
