(* ===== verification/SolverOk.v ===== *)
(** * Solvers: what they promise

    The meaning of the answers, as a class that each implementation is an instance of, and
    what the questions of [Solver] mean when the implementation keeps its promise. *)
From stdpp Require Import base gmap list strings numbers.
From Stdlib Require Import ZArith Lia.
From S2P Require Import Prelude ExprData ExprFacts ExprCreate ExprSound ExprEval ExprMain ExprUtil ExprTotal ConstraintsMain Solver.

Module SolverOk.
Import Expr ExprFacts Create Sound ExprMain ExprUtil ExprKeep ConstraintsMain Solver.

(** ** Expressions that may be asked about *)
(** Reads are of arrays of bytes, and constant indices are in bounds; divisors are not
    literally zero. *)
Definition plain (x : expr) : Prop :=
  match x with
  | Read root _ index => range root = 8 /\ forall w v, index = Constant w v -> v < size root
  | Binary k _ r => is_div k = true -> isZero r = false
  | _ => True
  end.
Definition tidy (e : expr) : Prop := Evaluator.foldable e = true /\ forall x, occurs true e x -> plain x.
Lemma tidy_plain e : tidy e -> plain e.
Proof. intros [_ H]. apply H, rtc_refl. Qed.
Lemma tidy_kids e :
  isRead e = false ->
  tidy e <-> Evaluator.foldable e = true /\ plain e /\ forall k, k ∈ below_ true e -> Evaluator.foldable k = true -> tidy k.
Proof.
  intros Hr. split.
  - intros [H1 H2]. split_and!; [done|apply H2, rtc_refl|]. intros k Hk Hf. split; [done|]. intros x Ho. apply H2. by eapply occurs_step.
  - intros (H1 & Hp & H2). split; [done|]. intros x [->|(k & Hk & Ho)]%occurs_parts; [done|]. destruct (H2 k Hk) as [_ H]; [|by apply H].
    destruct e; try done; simpl in H1, Hk; split_ok; repeat (apply elem_of_cons in Hk as [->|Hk]; [done|]); by apply elem_of_nil in Hk.
Qed.
Lemma tidy_kid e k :
  isRead e = false -> plain e -> below_ true e = [k] -> Evaluator.foldable e = Evaluator.foldable k -> tidy e <-> tidy k.
Proof.
  intros Hr Hp Hb Hf. rewrite tidy_kids, Hb, Hf by done. split; [intros (H1 & _ & H2); apply H2; [left|done]|].
  intros H. split_and!; [apply H|done|]. by intros x ->%list_elem_of_singleton _.
Qed.
Lemma tidy_hereditary : hereditary tidy.
Proof.
  split.
  - intros w v. split; [done|]. intros x Ho. by apply occurs_constant in Ho as ->.
  - intros k l r. rewrite tidy_kids by done. split.
    + intros (H1 & Hp & H2). simpl in H1. split_ok. split_and!; [apply H2..|done]; (done || left || (right; left)).
    + intros ([F1 H1] & [F2 H2] & Hp). simpl. rewrite F1, F2. split_and!; [done|done|].
      by intros x [->|[->|?%elem_of_nil]%elem_of_cons]%elem_of_cons _.
  - intros e w. by apply tidy_kid.
  - intros e w. by apply tidy_kid.
  - intros root head index [H1 H2]. simpl in H1. split_ok. split; [done|]. intros x Ho. apply H2. eapply occurs_step; [left|exact Ho].
Qed.

(** ** Models *)
(** The contents of the arrays that solvers range over, with no cells beyond the end of an
    array: every one a path can start with, or fewer, when what is known of the inputs is
    not written as constraints. *)
Class Contents : Type := {
  contents : (array -> Z -> option Z) -> Prop;
  contents_init init : contents init -> init_ok init;
  contents_end init a i : contents init -> size a <= i -> init a i = None
}.

Section Models.
Context {con : Contents}.
Lemma contents_ends init : contents init -> ends init.
Proof. intros H a i _ Hi. by apply contents_end. Qed.
Record model (cs : list expr) (init : array -> Z -> option Z) : Prop := {
  mo_in : contents init;
  mo_holds : Forall (holds init) cs
}.
Lemma mo_init cs init : model cs init -> init_ok init.
Proof. intros [H _]. by apply contents_init. Qed.
Lemma model_admissible opt cs init : model cs init -> admissible opt init.
Proof. intros [H _]. split; [by apply contents_init|]. intros _. by apply contents_ends. Qed.

(** A query that may be asked: the constraints have a solution, and the expression has a
    value in all of them. *)
Definition defined (q : Query) : Prop := forall init, model (constraints q) init -> exists v, eval init (query q) = Some v.
Record good (q : Query) : Prop := {
  go_cs : Forall bool_ok (constraints q);
  go_sat : exists init, model (constraints q) init;
  go_ok : width_ok (query q) = true;
  go_def : defined q;
  go_tidy : Forall tidy (query q :: constraints q)
}.
Definition valid (q : Query) : Prop := forall init, model (constraints q) init -> eval init (query q) = Some 1.
Definition never (q : Query) : Prop := forall init, model (constraints q) init -> eval init (query q) = Some 0.
Definition value_of (q : Query) (v : Z) : Prop := exists init, model (constraints q) init /\ eval init (query q) = Some v.
Definition validity (q : Query) (v : Validity) : Prop :=
  match v with VTrue => valid q | VFalse => never q | VUnknown => ~ valid q /\ ~ never q end.

(** The bytes of the objects in a solution in which the expression is false. *)
Definition shows (q : Query) (objects : list array) (values : list (list Z)) : Prop :=
  exists init, model (constraints q) init /\ eval init (query q) = Some 0 /\
    Forall2 (fun a bytes => Z.of_nat (length bytes) = size a /\ forall i, 0 <= i < size a -> bytes !! Z.to_nat i = init a i)
      objects values.
Definition solution (q : Query) (objects : list array) (r : bool * list (list Z)) : Prop :=
  if r.1 then shows q objects r.2 else forall init, model (constraints q) init -> eval init (query q) <> Some 0.

(** An answer in a state where the invariant of the solver holds. *)
Definition answers {St A} (inv : St -> Prop) (m : M St (option A)) (Q : A -> Prop) : Prop :=
  forall s, inv s -> runs m s (fun r s' => inv s' /\ forall a, r = Some a -> Q a).

Section Promise.
Context {ap : APInt} (opt : bool).
(** A query for initial values: of the expression, that it is false. *)
Record askable (q : Query) : Prop := {
  as_cs : Forall bool_ok (constraints q);
  as_ok : width_ok (query q) = true;
  as_width : getWidth (query q) = 1;
  as_def : defined q;
  as_tidy : Forall tidy (query q :: constraints q)
}.
Definition not_true (q : Query) : Prop := forall w v, query q = Constant w v -> v = 0.
(** What has to hold in a solution: the constraints and the negated expression, which is
    left out when it is the constant false. *)
Definition conjuncts (q : Query) (cs : list expr) : Prop :=
  (query q = Constant Bool 0 /\ cs = constraints q) \/
  (exists n, negateExpr opt q = Ret n /\ isConstant (query q) = false /\ cs = query n :: constraints q).
Definition byte_array (a : array) : Prop := array_ok a = true /\ range a = 8.

(** [may]: what else an implementation asks of the constraints. *)
Class SolverOk {St} (may : list expr -> Prop) (impl : SolverImpl St) (inv : St -> Prop) : Prop := {
  truth_ok q : good q -> may (constraints q) -> getWidth (query q) = 1 ->
    answers inv (computeTruth impl q) (fun b => b = true <-> valid q);
  validity_ok q : good q -> may (constraints q) -> getWidth (query q) = 1 ->
    answers inv (computeValidity impl q) (validity q);
  value_ok q : good q -> may (constraints q) ->
    answers inv (computeValue impl q) (fun e => exists v, e = Constant (getWidth (query q)) v /\ value_of q v);
  initial_ok q objects : askable q -> not_true q -> (forall cs, conjuncts q cs -> may cs) -> Forall byte_array objects ->
    answers inv (computeInitialValues impl q objects) (solution q objects)
}.
End Promise.

(** ** Boolean expressions *)
Lemma bool_value cs init e :
  model cs init -> width_ok e = true -> getWidth e = 1 -> forall v, eval init e = Some v -> v = 0 \/ v = 1.
Proof.
  intros Hm Ho Hw v Hv. pose proof (eval_fits init (mo_init _ _ Hm) e v Ho Hv) as Hf. rewrite Hw in Hf.
  change (2 ^ 1) with 2 in Hf. lia.
Qed.
Lemma never_valid q : good q -> never q -> ~ valid q.
Proof. intros [_ [init Hm] _ _ _] Hn Hv. specialize (Hn init Hm). specialize (Hv init Hm). congruence. Qed.
Lemma not_valid q : good q -> getWidth (query q) = 1 -> ~ valid q -> ~ (forall init, model (constraints q) init -> eval init (query q) <> Some 0).
Proof.
  intros [_ _ Ho Hd _] Hw Hv Hn. apply Hv. intros init Hm. destruct (Hd init Hm) as [v Hev].
  destruct (bool_value _ init (query q) Hm Ho Hw v Hev) as [-> | ->]; [|done]. by destruct (Hn init Hm).
Qed.

Section Negate.
Context {ap : APInt} {ap_ok : APIntOk} (opt : bool).
(** The negated query is one that may be asked, about the opposite. *)
Lemma negate_ok q :
  width_ok (query q) = true -> getWidth (query q) = 1 ->
  exists q', negateExpr opt q = Ret q' /\ constraints q' = constraints q /\
    width_ok (query q') = true /\ getWidth (query q') = 1 /\
    forall init v, model (constraints q) init -> eval init (query q) = Some v -> eval init (query q') = Some (1 - v).
Proof.
  intros Ho Hw. unfold negateExpr.
  destruct (implements_all opt (Binary Eq (Constant (getWidth (query q)) 0) (query q)) (createIsZero opt (query q))) as (e & -> & Hok & Hwe & Hr).
  { intros init [Hi He]. by apply createIsZero_impl. }
  eexists. split; [reflexivity|]. cbn [withExpr constraints query]. split_and!; [done|done|done|].
  intros init v Hm Hv. pose proof (bool_value _ _ _ Hm Ho Hw v Hv) as Hb. apply Hr; [by apply (model_admissible opt (constraints q))|].
  simpl. rewrite Hv. simpl. by destruct Hb as [-> | ->].
Qed.
Lemma negate_tidy q n : Forall tidy (query q :: constraints q) -> negateExpr opt q = Ret n -> Forall tidy (query n :: constraints n).
Proof.
  intros [Hq Hc]%Forall_cons_iff. unfold negateExpr. destruct (createIsZero opt (query q)) as [e|] eqn:E; [|done].
  intros [= <-]. constructor; [|done]. by apply (createIsZero_keeps opt tidy tidy_hereditary (query q)).
Qed.
Lemma negate_good q :
  good q -> getWidth (query q) = 1 ->
  exists q', negateExpr opt q = Ret q' /\ good q' /\ constraints q' = constraints q /\ getWidth (query q') = 1 /\ (valid q' <-> never q) /\ (never q' <-> valid q).
Proof.
  intros [Hc Hs Ho Hd Ht] Hw. destruct (negate_ok q Ho Hw) as (q' & En & Ec & Ho' & Hw' & Hv). exists q'.
  pose proof (negate_tidy q q' Ht En) as Ht'. rewrite En.
  assert (Hinv : forall init, model (constraints q) init ->
    (eval init (query q) = Some 0 /\ eval init (query q') = Some 1) \/ (eval init (query q) = Some 1 /\ eval init (query q') = Some 0)).
  { intros init Hm. destruct (Hd init Hm) as [v Hev]. pose proof (Hv init v Hm Hev) as Hev'.
    destruct (bool_value (constraints q) init (query q) Hm Ho Hw v Hev) as [-> | ->]; [by left|by right]. }
  split_and!; [done| |done|done| |].
  - split; rewrite ?Ec; [done|done|done| |by rewrite <- Ec]. unfold defined. rewrite Ec. intros init Hm. destruct (Hinv init Hm) as [[_ H]|[_ H]]; by eexists.
  - unfold valid, never. rewrite Ec. split; intros H init Hm; specialize (H init Hm); destruct (Hinv init Hm) as [[H1 H2]|[H1 H2]]; congruence.
  - unfold valid, never. rewrite Ec. split; intros H init Hm; specialize (H init Hm); destruct (Hinv init Hm) as [[H1 H2]|[H1 H2]]; congruence.
Qed.

(** ** Rules for answers *)
Lemma answers_ret {St A} (inv : St -> Prop) (r : option A) (Q : A -> Prop) :
  (forall a, r = Some a -> Q a) -> answers inv (mret r) Q.
Proof. intros H s Hs. by apply runs_ret. Qed.
Lemma answers_some {St A} (inv : St -> Prop) (a : A) (Q : A -> Prop) : Q a -> answers inv (mret (Some a)) Q.
Proof. intros H. apply answers_ret. by intros b [= <-]. Qed.
Lemma answers_bind {St A B} (inv : St -> Prop) (m : M St (option A)) (f : option A -> M St (option B)) P Q :
  answers inv m P -> answers inv (f None) Q -> (forall a, P a -> answers inv (f (Some a)) Q) -> answers inv (m ≫= f) Q.
Proof.
  intros Hm Hn Hf s Hs. eapply runs_step; [by apply Hm|]. intros [a|] s' [Hs' Ha]; [|by apply Hn]. apply (Hf a (Ha a eq_refl) s' Hs').
Qed.
Lemma answers_lift {St A B} (inv : St -> Prop) (r : result B) (f : B -> M St (option A)) Q b :
  r = Ret b -> answers inv (f b) Q -> answers inv (lift r ≫= f) Q.
Proof. intros -> H s Hs. by apply H. Qed.
Lemma answers_assert {St A} (inv : St -> Prop) (b : bool) (f : unit -> M St (option A)) Q :
  b = true -> answers inv (f tt) Q -> answers inv (assert_ b ≫= f) Q.
Proof. intros -> H s Hs. by apply H. Qed.
Lemma answers_mono {St A} (inv : St -> Prop) (m : M St (option A)) (P Q : A -> Prop) :
  answers inv m P -> (forall a, P a -> Q a) -> answers inv m Q.
Proof. intros H HPQ s Hs. eapply runs_mono; [by apply H|]. intros r s' [? Hr]. split; [done|]. intros a ->. by apply HPQ, Hr. Qed.
Lemma answers_none {St A} (inv : St -> Prop) (Q : A -> Prop) : answers inv (mret None) Q.
Proof. by apply answers_ret. Qed.

(** ** The questions of [Solver] *)
Section Derived.
Context {St : Type} (may : list expr -> Prop) (impl : SolverImpl St) (inv : St -> Prop) {sok : SolverOk opt may impl inv}.

Lemma default_validity_ok (truth : Query -> M St (option bool)) q :
  (forall q, good q -> may (constraints q) -> getWidth (query q) = 1 -> answers inv (truth q) (fun b => b = true <-> valid q)) ->
  good q -> may (constraints q) -> getWidth (query q) = 1 -> answers inv (default_computeValidity opt truth q) (validity q).
Proof.
  intros Ht Hg Hmay Hw. unfold default_computeValidity. eapply answers_bind; [by apply Ht|apply answers_none|].
  intros [] Hv; [apply answers_some; by apply Hv|].
  destruct (negate_good q Hg Hw) as (q' & En & Hg' & Ec & Hw' & Hv' & _). eapply answers_lift; [exact En|].
  eapply answers_bind; [apply Ht; by rewrite ?Ec|apply answers_none|]. intros [] Hb; apply answers_some; [by apply Hv', Hb|].
  split; [intros H; by apply Hv in H|]. rewrite <- Hv'. intros H. by apply Hb in H.
Qed.
Lemma constant_verdict q w v : good q -> getWidth (query q) = 1 -> query q = Constant w v ->
  (isTrue w v = true <-> valid q) /\ (isTrue w v = false <-> never q).
Proof.
  intros [Hc [init0 Hs] Ho Hd _] Hw E. unfold valid, never. rewrite E in *. simpl in *. subst w. split_ok.
  pose proof (fits_1 v ltac:(done)) as [-> | ->]; (split; split; try done; intros Hx; by specialize (Hx init0 Hs)).
Qed.
Lemma mustBeTrue_ok q : good q -> may (constraints q) -> getWidth (query q) = 1 -> answers inv (mustBeTrue impl q) (fun b => b = true <-> valid q).
Proof.
  intros Hg Hmay Hw. unfold mustBeTrue. apply answers_assert; [by rewrite Hw|]. pose proof (constant_verdict q) as Hc.
  destruct (query q) as [w v| | | | | | | | |] eqn:E; try (rewrite <- E in Hw; by apply (truth_ok opt)).
  apply answers_some. by apply (Hc w v Hg Hw).
Qed.
Lemma evaluate_ok q : good q -> may (constraints q) -> getWidth (query q) = 1 -> answers inv (evaluate impl q) (validity q).
Proof.
  intros Hg Hmay Hw. unfold evaluate. apply answers_assert; [by rewrite Hw|]. pose proof (constant_verdict q) as Hc.
  destruct (query q) as [w v| | | | | | | | |] eqn:E; try (rewrite <- E in Hw; by apply (validity_ok opt)).
  apply answers_some. destruct (Hc w v Hg Hw eq_refl) as [H1 H2]. destruct (isTrue w v); [by apply H1|by apply H2].
Qed.
Lemma mustBeFalse_ok q : good q -> may (constraints q) -> getWidth (query q) = 1 -> answers inv (mustBeFalse opt impl q) (fun b => b = true <-> never q).
Proof.
  intros Hg Hmay Hw. unfold mustBeFalse. destruct (negate_good q Hg Hw) as (q' & En & Hg' & Ec & Hw' & Hv & _).
  eapply answers_lift; [exact En|]. eapply answers_mono; [apply mustBeTrue_ok; by rewrite ?Ec|]. simpl. intros b Hb. by rewrite Hb.
Qed.
Lemma negb_answers (m : M St (option bool)) (P : Prop) :
  answers inv m (fun b => b = true <-> P) -> answers inv (r ← m; mret (negb <$> r)) (fun b => b = true <-> ~ P).
Proof.
  intros H. eapply answers_bind; [exact H|by apply answers_ret|]. intros b Hb. apply answers_some. simpl.
  rewrite <- Hb. by destruct b.
Qed.
Lemma mayBeTrue_ok q : good q -> may (constraints q) -> getWidth (query q) = 1 -> answers inv (mayBeTrue opt impl q) (fun b => b = true <-> ~ never q).
Proof. intros Hg Hmay Hw. by apply negb_answers, mustBeFalse_ok. Qed.
Lemma mayBeFalse_ok q : good q -> may (constraints q) -> getWidth (query q) = 1 -> answers inv (mayBeFalse impl q) (fun b => b = true <-> ~ valid q).
Proof. intros Hg Hmay Hw. by apply negb_answers, mustBeTrue_ok. Qed.
Lemma getValue_ok q : good q -> may (constraints q) ->
  answers inv (getValue impl q) (fun e => exists v, e = Constant (getWidth (query q)) v /\ value_of q v).
Proof.
  intros Hg Hmay. assert (Hc : forall w v, query q = Constant w v -> exists v', query q = Constant (getWidth (query q)) v' /\ value_of q v').
  { intros w v E. exists v. destruct Hg as [_ [init Hm] _ _ _]. split; [by rewrite E|]. exists init. split; [done|by rewrite E]. }
  assert (Hd : answers inv (r ← computeValue impl q; match r with None => mret None | Some e => assert_ (isConstant e);; mret (Some e) end)
                 (fun e => exists v, e = Constant (getWidth (query q)) v /\ value_of q v)).
  { eapply answers_bind; [by apply (value_ok opt)|apply answers_none|]. intros e He.
    apply answers_assert; [by destruct He as (v & -> & _)|]. by apply answers_some. }
  unfold getValue. destruct (query q) eqn:E; try exact Hd. apply answers_some. by eapply Hc.
Qed.
End Derived.
End Negate.
End Models.
End SolverOk.
