(* ===== verification/StpSolver.v ===== *)
(** * Solvers: solutions as assignments, and the solver on STP

Evaluation under the bytes of a solution ([SolverPoint]), and src/lib/Solver/STPSolver.cpp
    on top of initial values ([StpSolver]). *)
From stdpp Require Import base gmap list strings numbers.
From Stdlib Require Import ZArith Lia.
From S2P Require Import Prelude ExprData ExprFacts ExprCreate ExprSound ExprEval ExprMain ExprUtil ConstraintsMain.
From S2P Require Import Solver SolverOk ExprTotal.

(** * Solvers: assignments that are solutions

    The bytes of a solution bound to arrays: evaluation under such an assignment gives the
    value that an expression has in the solution. *)
Module SolverPoint.
Import Expr ExprFacts Create Sound ExprMain ExprUtil ConstraintsMain Solver SolverOk.

Definition holds_bytes (init : array -> Z -> option Z) (arr : array) (bytes : list Z) : Prop :=
  Z.of_nat (length bytes) = size arr /\ forall i, 0 <= i < size arr -> bytes !! Z.to_nat i = init arr i.
Lemma bind_holds init objects : forall values arr bytes,
  Forall byte_array objects -> Forall2 (holds_bytes init) objects values -> Evaluator.bind objects values arr = Some bytes ->
  byte_array arr /\ holds_bytes init arr bytes.
Proof.
  induction objects as [|o objects IH]; intros values arr bytes Ho Hv; [done|].
  apply Forall2_cons_inv_l in Hv as (v & values' & H & Hv & ->). apply Forall_cons_iff in Ho as [Ho Hos]. cbn [Evaluator.bind].
  case_bool_decide as E; [|by apply IH]. subst. by intros [= <-].
Qed.
Lemma bind_some objects : forall values arr, length objects = length values -> arr ∈ objects -> is_Some (Evaluator.bind objects values arr).
Proof.
  induction objects as [|o objects IH]; intros [|v values] arr Hl Ha; try done; [by apply elem_of_nil in Ha|]. cbn [Evaluator.bind].
  case_bool_decide as E; [by eexists|]. apply elem_of_cons in Ha as [->|Ha]; [done|]. apply IH; [by injection Hl|done].
Qed.

Section Point.
Context {con : Contents} {ap : APInt} {ap_ok : APIntOk} (opt : bool).
(** The assignment says what the solution says of the arrays that are bound. *)
Definition bound (a : Evaluator.Assignment) (init : array -> Z -> option Z) : array -> Z -> option Z :=
  fun arr i => match Evaluator.bindings a arr with Some _ => init arr i | None => None end.
Definition point_of (a : Evaluator.Assignment) (init : array -> Z -> option Z) : Prop :=
  forall arr bytes, Evaluator.bindings a arr = Some bytes -> byte_array arr /\ holds_bytes init arr bytes.
Lemma point_bytes a init : contents init -> point_of a init -> Evaluator.bytes_ok a.
Proof.
  intros Hc Hp arr bytes Hb. destruct (Hp arr bytes Hb) as [[_ Hr] [Hl Hv]]. apply Forall_lookup. intros i b Hi.
  pose proof (lookup_lt_Some _ _ _ Hi) as Hlt. assert (init arr (Z.of_nat i) = Some b) as E.
  { rewrite <- Hv by lia. by rewrite Nat2Z.id. }
  apply (contents_init init Hc) in E. rewrite Hr in E. apply fits_iff in E. change (2 ^ 8) with 256 in E. lia.
Qed.
Lemma point_value a init e v :
  contents init -> point_of a init -> width_ok e = true -> Evaluator.foldable e = true -> eval (bound a init) e = Some v ->
  Evaluator.evaluate opt a e = Ret (Constant (getWidth e) v).
Proof.
  intros Hc Hp He Hf Hv. assert (Hi : init_ok (bound a init)).
  { intros arr i x. unfold bound. destruct (Evaluator.bindings a arr); [|done]. by apply contents_init. }
  refine (proj1 (Evaluator.visit_both opt a (bound a init) Hi _ _) e He Hf v Hv).
  - intros arr i x _ [Hi0 _] Hx. unfold bound in Hx. destruct (Evaluator.bindings a arr) as [bytes|] eqn:Eb; [|done].
    destruct (Hp arr bytes Eb) as [[_ Hr] [Hl Hb]]. assert (i < size arr).
    { destruct (Z.lt_ge_cases i (size arr)) as [|Hge]; [done|]. by rewrite (contents_end init arr i Hc Hge) in Hx. }
    assert (Hbi : bytes !! Z.to_nat i = Some x) by (by rewrite Hb).
    rewrite Evaluator.evaluate_cell_value; [|by eapply point_bytes|right; rewrite Eb; by exists x].
    unfold Evaluator.cells. rewrite Eb. simpl. rewrite Hbi. do 2 f_equal. apply Z.mod_small.
    apply (contents_init init Hc) in Hx. apply fits_iff in Hx. by rewrite Hr in *.
  - intros _ arr i _ Hs. unfold bound. destruct (Evaluator.bindings a arr); [|done]. by apply contents_end.
Qed.

(** An expression whose symbolic arrays are all bound. *)
Lemma bound_value a init e : contents init ->
  (forall root head index, occurs true e (Read root head index) -> isSymbolicArray root = true -> is_Some (Evaluator.bindings a root)) ->
  eval (bound a init) e = eval init e.
Proof.
  intros Hc Ho. apply eval_local. intros r Hr. destruct r as [| |root head index| | | | | | |]; try done.
  assert (Hi : forall i, initial (bound a init) root i = initial init root i).
  { intros i. unfold initial. destruct (isConstantArray root) eqn:Ec; simpl.
    - destruct (Z.ltb_spec i (size root)); [done|]. unfold bound. destruct (Evaluator.bindings a root); [done|].
      symmetry. by apply contents_end.
    - unfold bound. destruct (Ho root head index Hr) as [bytes ->]; [|done]. by apply negb_false_iff. }
  destruct index; simpl; auto.
Qed.
End Point.
End SolverPoint.

(** * The solver on top of a decision procedure

    lib/Solver/STPSolver.cpp: truth and values are derived from initial values, which the
    builder of formulas and STP, here a parameter, give. *)
Module StpSolver.
Import Expr ExprFacts Create Sound ExprMain ExprUtil ExprKeep ConstraintsMain Solver SolverOk SolverPoint.

Section Stp.
Context {ap : APInt} (ConstArrayOpt : bool) {St : Type}.
(** [STPSolverImpl::computeInitialValues] *)
Context (initialValues : Query -> list array -> M St (option (bool * list (list Z)))).

Definition stp_computeTruth (q : Query) : M St (option bool) :=
  r ← initialValues q [];
  mret (match r with None => None | Some (hasSolution, _) => Some (negb hasSolution) end).
Definition stp_computeValue (q : Query) : M St (option expr) :=
  let objects := findSymbolicObjects [query q] in
  r ← initialValues (withFalse q) objects;
  match r with
  | None | Some (false, _) => mret None
  | Some (true, values) =>
      e ← lift (Evaluator.evaluate ConstArrayOpt (Evaluator.new_Assignment objects values false) (query q));
      mret (Some e)
  end.
Definition STPSolverImpl : SolverImpl St :=
  MkSolverImpl stp_computeTruth (default_computeValidity ConstArrayOpt stp_computeTruth) stp_computeValue initialValues.
End Stp.

(** ** The promise *)
Section Promise.
Context {con : Contents} {ap : APInt} {ap_ok : APIntOk} (opt : bool) {St : Type}.
Context (core : Query -> list array -> M St (option (bool * list (list Z)))) (inv : St -> Prop).
Class CoreOk : Prop := core_ok q objects : askable q -> Forall byte_array objects -> answers inv (core q objects) (solution q objects).
Context {cok : CoreOk}.

Lemma good_askable q : good q -> getWidth (query q) = 1 -> askable q.
Proof. intros [H1 H2 H3 H4 H5] Hw. by split. Qed.
Lemma false_askable q : good q -> askable (withFalse q).
Proof.
  intros [H1 H2 H3 H4 H5]. split; cbn [withFalse withExpr constraints query]; [done|done|done| |].
  - intros init _. by eexists.
  - apply Forall_cons_iff in H5 as [_ H5]. constructor; [apply (he_constant tidy tidy_hereditary)|done].
Qed.
Lemma reads_bytes e a : width_ok e = true -> tidy e -> reads_from e a -> byte_array a.
Proof.
  intros He [_ Ht] (_ & head & index & Ho). split; [|by apply (Ht (Read a head index))].
  pose proof (width_ok_occurs e _ Ho He) as H. simpl in H. by split_ok.
Qed.
Lemma objects_bytes es : Forall (fun e => width_ok e = true /\ tidy e) es -> Forall byte_array (findSymbolicObjects es).
Proof.
  intros H. apply list.Forall_forall. intros a Ha. apply findSymbolicObjects_ok in Ha as (e & He & Hr).
  rewrite list.Forall_forall in H. destruct (H e He). by eapply reads_bytes.
Qed.

Lemma truth_answers q : good q -> getWidth (query q) = 1 -> answers inv (stp_computeTruth core q) (fun b => b = true <-> valid q).
Proof.
  intros Hg Hw. unfold stp_computeTruth. eapply answers_bind; [apply (cok q []); [by apply good_askable|done]|apply answers_none|].
  intros [[] values] Hs; apply answers_some; simpl.
  - split; [done|]. intros Hv. destruct Hs as (init & Hm & H0 & _). specialize (Hv init Hm). congruence.
  - split; [|done]. intros _ init Hm. destruct (go_def _ Hg init Hm) as [v Hv].
    destruct (bool_value _ init (query q) Hm (go_ok _ Hg) Hw v Hv) as [-> | ->]; [|done]. by destruct (Hs init Hm).
Qed.
(** The value of an expression in a solution for its arrays. *)
Lemma evaluate_solution e objects values init :
  contents init -> width_ok e = true -> tidy e -> (forall a, reads_from e a -> a ∈ objects) -> Forall byte_array objects ->
  Forall2 (holds_bytes init) objects values -> forall v, eval init e = Some v ->
  Evaluator.evaluate opt (Evaluator.new_Assignment objects values false) e = Ret (Constant (getWidth e) v).
Proof.
  intros Hc He Ht Hr Ho Hv v Hev. apply (point_value opt _ init); [done| |done|apply Ht|].
  - intros a bytes. by apply bind_holds.
  - rewrite bound_value; [done|done|]. intros root head index Hocc Hs. apply bind_some; [by eapply Forall2_length|].
    apply Hr. split; [done|]. by exists head, index.
Qed.
Lemma value_answers q : good q ->
  answers inv (stp_computeValue opt core q) (fun e => exists v, e = Constant (getWidth (query q)) v /\ value_of q v).
Proof.
  intros Hg. unfold stp_computeValue. pose proof (go_tidy _ Hg) as [Ht _]%Forall_cons_iff.
  assert (Ho : Forall byte_array (findSymbolicObjects [query q])) by (apply objects_bytes; constructor; [split; [apply Hg|done]|constructor]).
  eapply answers_bind; [apply (cok (withFalse q)); [by apply false_askable|done]|apply answers_none|].
  intros [[] values] Hs; [|apply answers_none]. destruct Hs as (init & Hm & _ & Hv). destruct (go_def _ Hg init Hm) as [v Hev].
  eapply answers_lift; [|apply answers_some; exists v; split; [reflexivity|by exists init]].
  apply (evaluate_solution _ _ _ init); [apply Hm|apply Hg|done| |done|done|done]. intros a Ha.
  apply findSymbolicObjects_ok. exists (query q). split; [left|done].
Qed.
#[export] Instance stp_ok : SolverOk opt (fun _ => True) (STPSolverImpl opt core) inv.
Proof.
  split; cbn [STPSolverImpl computeTruth computeValidity computeValue computeInitialValues].
  - intros q Hg _ Hw. by apply truth_answers.
  - intros q Hg _ Hw. apply (default_validity_ok opt (fun _ => True)); [|done|done|done]. intros; by apply truth_answers.
  - intros q Hg _. by apply value_answers.
  - intros q objects Ha _ _ Ho. by apply cok.
Qed.
End Promise.
End StpSolver.
