(* ===== verification/SolverRange.v ===== *)
(** * Solvers: the range of an expression

    [getRange] finds the least and the greatest value that an expression has under the
    constraints by three binary searches. *)
From stdpp Require Import base gmap list strings numbers.
From Stdlib Require Import ZArith Lia.
From S2P Require Import Prelude ExprData ExprFacts ExprCreate ExprSound ExprMain ExprTotal ConstraintsMain Solver SolverOk.

Module SolverRange.
Import Expr ExprFacts Create Sound ExprMain ExprKeep ConstraintsMain Solver SolverOk.

(** ** The binary search *)
Section Search.
Context {St : Type} (inv : St -> Prop) (ask : Z -> M St bool) (P : Z -> Prop).

(** The search for the least number that has an upward closed property. *)
Lemma search_ok fuel : forall lo hi s,
  inv s -> 0 <= lo <= hi -> hi < 2 ^ 64 -> hi - lo < 2 ^ Z.of_nat fuel ->
  (forall m m', m <= m' -> P m -> P m') ->
  (forall m s, lo <= m < hi -> inv s -> runs (ask m) s (fun b s' => inv s' /\ (b = true <-> P m))) ->
  runs (search (S fuel) ask lo hi) s
    (fun r s' => inv s' /\ lo <= r <= hi /\ (forall m, lo <= m < r -> ~ P m) /\ (r < hi -> P r)).
Proof.
  induction fuel as [|fuel IH]; intros lo hi s Hs Hlo Hhi Hf HP Hask.
  - change (2 ^ Z.of_nat 0) with 1 in Hf. assert (lo = hi) as -> by lia. cbn [search]. rewrite Z.ltb_irrefl.
    split_and!; [done|lia|lia|lia|lia].
  - rewrite Nat2Z.inj_succ, Z.pow_succ_r in Hf by lia. remember (S fuel) as f eqn:Ef. cbn [search]. destruct (Z.ltb_spec lo hi) as [Hlt|]; [|split_and!; [done|lia|lia|lia|lia]].
    change (2 ^ 64) with 18446744073709551616 in Hhi.
    assert (Hd : 0 <= (hi - lo) / 2 /\ 2 * ((hi - lo) / 2) <= hi - lo < 2 * ((hi - lo) / 2) + 2).
    { pose proof (Z.div_mod (hi - lo) 2). pose proof (Z.mod_pos_bound (hi - lo) 2). lia. }
    rewrite (u64_small (hi - lo)) by lia. rewrite (u64_small (lo + _)) by lia.
    set (mid := lo + (hi - lo) / 2) in *. eapply runs_step; [apply Hask; [lia|done]|].
    intros [] s' [Hs' Hb]; subst f.
    + eapply runs_mono; [apply IH; [done|lia|lia|lia|done|]|].
      * intros m s'' Hm. apply Hask. lia.
      * intros r s'' (A & B & C & D). split_and!; [done|lia|lia|done|]. intros _.
        destruct (Z.eq_dec r mid) as [->|]; [by apply Hb|apply D; lia].
    + rewrite (u64_small (mid + 1)) by lia. eapply runs_mono; [apply IH; [done|lia|lia|lia|done|]|].
      * intros m s'' Hm. apply Hask. lia.
      * intros r s'' (A & B & C & D). split_and!; [done|lia|lia| |done]. intros m Hm Hp.
        destruct (Z.le_gt_cases m mid) as [Hle|]; [|by apply (C m); [lia|]].
        assert (false = true) by (apply Hb, (HP m); [lia|done]). done.
Qed.
End Search.

Section Range.
Context {ap : APInt} {ap_ok : APIntOk} {con : Contents} (opt : bool) {St : Type} (may : list expr -> Prop) (impl : SolverImpl St) (inv : St -> Prop).
Context {sok : SolverOk opt may impl inv}.

(** The solver does not fail. *)
Definition sure {A} (m : M St (option A)) : Prop := forall s, inv s -> post m s (fun r _ => r <> None).
Class Reliable : Prop := {
  truth_sure q : sure (computeTruth impl q);
  validity_sure q : sure (computeValidity impl q)
}.
Context {rel : Reliable}.

Lemma sure_some {A} (a : A) : sure (mret (Some a)).
Proof. intros s _. by apply post_ret. Qed.
Lemma sure_mustBeTrue q : sure (mustBeTrue impl q).
Proof.
  intros s Hs. unfold mustBeTrue. apply post_bind, post_assert. intros _.
  destruct (query q); try (by apply truth_sure); by apply sure_some.
Qed.
Lemma sure_mayBeTrue q : sure (mayBeTrue opt impl q).
Proof.
  intros s Hs. unfold mayBeTrue, mustBeFalse. apply post_bind. intros r s' E. apply post_ret.
  apply mbind_inv in E as (n & s1 & E1 & E2). unfold lift in E1. destruct (negateExpr opt q) as [n'|]; [|done].
  injection E1 as <- <-. pose proof (sure_mustBeTrue n' s Hs r s' E2) as Hr. by destruct r.
Qed.
Lemma answered_ok (m : M St (option bool)) (Q : bool -> Prop) s :
  answers inv m Q -> sure m -> inv s -> runs (answered m) s (fun b s' => inv s' /\ Q b).
Proof.
  intros Ha Hr Hs. specialize (Ha s Hs). specialize (Hr s Hs). unfold answered, runs, mbind, M_bind, post in *.
  destruct (m s) as [[r s']|e]; [|done]. destruct Ha as [Hs' Ha]. specialize (Hr r s' eq_refl). destruct r as [b|]; [|done].
  split; [done|by apply Ha].
Qed.

(** ** The queries of the searches *)
Section Query.
Context (q : Query) (Hq : good q) (Hmay : may (constraints q)) (w : Z) (Hw : getWidth (query q) = w) (Hw64 : w <= 64).

Lemma tidy_with k l w' c e :
  is_div k = false -> tidy l -> create_binary opt k l (Constant w' c) = Ret e -> Forall tidy (constraints q) -> Forall tidy (e :: constraints q).
Proof.
  intros Hk Hl He Hc. constructor; [|done]. apply (create_nondiv_keeps opt tidy tidy_hereditary k Hk l (Constant w' c)); [done| |done].
  apply (he_constant tidy tidy_hereditary).
Qed.
Lemma good_with k c e :
  width_ok (Constant w c) = true -> create_binary opt k (query q) (Constant w c) = Ret e ->
  is_cmp k = true -> div_ok k (query q) (Constant w c) = true -> width_ok e = true -> getWidth e = 1 ->
  (forall init, admissible opt init -> refines init (Binary k (query q) (Constant w c)) e) ->
  good (withExpr q e) /\ forall init v, model (constraints q) init -> eval init (query q) = Some v -> exists b,
    bv_binary k w v c = Some b /\ eval init e = Some b.
Proof.
  intros Hc He Hk Hd Hok Hwe Hr. destruct Hq as [Hcs Hs Ho Hdef Ht].
  assert (Hev : forall init v, model (constraints q) init -> eval init (query q) = Some v -> exists b,
    bv_binary k w v c = Some b /\ eval init e = Some b).
  { intros init v Hm Hv. destruct (bv_binary k w v c) as [b|] eqn:Eb; [|by destruct k]. exists b. split; [done|].
    apply Hr; [by apply (model_admissible opt (constraints q))|]. simpl. rewrite Hv. simpl. by rewrite Hw. }
  split; [|done]. split; [done|done|done| |apply Forall_cons_iff in Ht as [Ht1 Ht2]; apply (tidy_with k (query q) w c e); [by destruct k|done..]]. intros init Hm. destruct (Hdef init Hm) as [v Hv].
  destruct (Hev init v Hm Hv) as (b & _ & Hb). by exists b.
Qed.
Lemma width_range : 0 < w.
Proof. rewrite <- Hw. apply width_pos, (go_ok _ Hq). Qed.
Lemma pow_64 : 2 ^ w <= 18446744073709551616.
Proof. pose proof width_range. change 18446744073709551616 with (2 ^ 64). apply Z.pow_le_mono_r; lia. Qed.
Lemma created_ok k c :
  0 <= c < 2 ^ w -> is_cmp k = true ->
  create_Constant c w = Ret (Constant w c) /\
  exists e, create_binary opt k (query q) (Constant w c) = Ret e /\ good (withExpr q e) /\ getWidth e = 1 /\
    forall init v, model (constraints q) init -> eval init (query q) = Some v -> exists b,
      bv_binary k w v c = Some b /\ eval init e = Some b.
Proof.
  intros Hc Hk. pose proof width_range as H0. split; [unfold create_Constant; by rewrite Z.mod_small, Z.eqb_refl|].
  assert (Hok : width_ok (Constant w c) = true) by (simpl; apply andb_true_intro; split; [lia|by apply fits_iff]).
  assert (Hdiv : div_ok k (query q) (Constant w c) = true) by (by destruct k).
  destruct (implements_all opt (Binary k (query q) (Constant w c)) (create_binary opt k (query q) (Constant w c))) as (e & He & A & B & C).
  { intros init [Hi Ho]. apply create_binary_impl; [done|done|apply (go_ok _ Hq)|done|done|done]. }
  exists e. simpl in B. rewrite Hk in B. destruct (good_with k c e Hok He Hk Hdiv A B C) as [G1 G2]. by split_and!.
Qed.
Lemma value_range v : value_of q v -> 0 <= v < 2 ^ w.
Proof. intros (init & Hm & Hv). rewrite <- Hw. apply (eval_fits init (mo_init _ _ Hm)); [apply (go_ok _ Hq)|done]. Qed.
Lemma some_value : exists v, value_of q v.
Proof. destruct Hq as [_ [init Hm] _ Hd _]. destruct (Hd init Hm) as [v Hv]. exists v. by exists init. Qed.

(** A comparison that must, or may, be true. *)
Lemma must_compare k c f s :
  0 <= c < 2 ^ w -> is_cmp k = true -> (forall v, bv_binary k w v c = Some (b2z (f v))) -> inv s ->
  runs (c ← lift (create_Constant c w); e ← lift (create_binary opt k (query q) c); answered (mustBeTrue impl (withExpr q e))) s
    (fun b s' => inv s' /\ (b = true <-> forall v, value_of q v -> f v = true)).
Proof.
  intros Hc Hk Hf Hs. destruct (created_ok k c Hc Hk) as (-> & e & He & Hg & Hwe & Hev).
  eapply runs_step; [by apply (runs_lift _ _ (fun x s' => x = Constant w c /\ s' = s) (Constant w c))|]. intros ? ? [-> ->].
  eapply runs_step; [by apply (runs_lift _ _ (fun x s' => x = e /\ s' = s) e)|]. intros ? ? [-> ->].
  eapply runs_mono; [apply answered_ok; [by apply (mustBeTrue_ok opt may)|apply sure_mustBeTrue|done]|]. simpl.
  intros b s' [Hs' Hb]. split; [done|]. rewrite Hb. unfold valid. cbn [withExpr constraints query]. split.
  - intros H v (init & Hm & Hv). destruct (Hev init v Hm Hv) as (x & Hx & Hx'). rewrite Hf in Hx.
    rewrite (H init Hm) in Hx'. injection Hx' as <-. injection Hx as Hx. by destruct (f v).
  - intros H init Hm. destruct (go_def _ Hq init Hm) as [v Hv]. destruct (Hev init v Hm Hv) as (x & Hx & Hx').
    rewrite Hf, (H v) in Hx by (by exists init). by injection Hx as <-.
Qed.
Lemma may_compare k c f s :
  0 <= c < 2 ^ w -> is_cmp k = true -> (forall v, bv_binary k w v c = Some (b2z (f v))) -> inv s ->
  runs (c ← lift (create_Constant c w); e ← lift (create_binary opt k (query q) c); answered (mayBeTrue opt impl (withExpr q e))) s
    (fun b s' => inv s' /\ (b = true <-> ~ forall v, value_of q v -> f v = false)).
Proof.
  intros Hc Hk Hf Hs. destruct (created_ok k c Hc Hk) as (-> & e & He & Hg & Hwe & Hev).
  eapply runs_step; [by apply (runs_lift _ _ (fun x s' => x = Constant w c /\ s' = s) (Constant w c))|]. intros ? ? [-> ->].
  eapply runs_step; [by apply (runs_lift _ _ (fun x s' => x = e /\ s' = s) e)|]. intros ? ? [-> ->].
  eapply runs_mono; [apply answered_ok; [by apply (mayBeTrue_ok opt may)|apply sure_mayBeTrue|done]|]. simpl.
  intros b s' [Hs' Hb]. split; [done|]. rewrite Hb. unfold never. cbn [withExpr constraints query].
  apply not_iff_compat. split.
  - intros H v (init & Hm & Hv). destruct (Hev init v Hm Hv) as (x & Hx & Hx'). rewrite Hf in Hx.
    rewrite (H init Hm) in Hx'. injection Hx' as <-. injection Hx as Hx. by destruct (f v).
  - intros H init Hm. destruct (go_def _ Hq init Hm) as [v Hv]. destruct (Hev init v Hm Hv) as (x & Hx & Hx').
    rewrite Hf, (H v) in Hx by (by exists init). by injection Hx as <-.
Qed.

(** The number of useful bits. *)
Lemma ask_bits_ok m s :
  0 <= m < w -> inv s ->
  runs (ask_bits opt impl q w m) s (fun b s' => inv s' /\ (b = true <-> forall v, value_of q v -> v < 2 ^ m)).
Proof.
  intros Hm Hs. unfold ask_bits. pose proof width_range as H0. pose proof (Z.pow_gt_lin_r 2 w ltac:(lia) ltac:(lia)) as Hpow.
  assert (Hc : forall c, 0 <= c < 2 ^ w -> create_Constant c w = Ret (Constant w c) /\ width_ok (Constant w c) = true).
  { intros c Hc. unfold create_Constant. rewrite Z.mod_small, Z.eqb_refl by done. split; [done|]. simpl.
    apply andb_true_intro. split; [lia|by apply fits_iff]. }
  destruct (Hc m ltac:(lia)) as [-> Hm1]. destruct (Hc 0 ltac:(lia)) as [-> Hz1].
  eapply runs_step; [by apply (runs_lift _ _ (fun x s' => x = Constant w m /\ s' = s) (Constant w m))|]. intros ? ? [-> ->].
  eapply runs_step; [by apply (runs_lift _ _ (fun x s' => x = Constant w 0 /\ s' = s) (Constant w 0))|]. intros ? ? [-> ->].
  destruct Hq as [Hcs Hsat Ho Hdef Ht]. apply Forall_cons_iff in Ht as [Ht1 Ht2].
  destruct (implements_all opt (Binary LShr (query q) (Constant w m)) (create_binary opt LShr (query q) (Constant w m))) as (e1 & He1 & A1 & B1 & C1).
  { intros init [Hi Hoo]. by apply create_binary_impl. }
  simpl in B1. rewrite Hw in B1.
  destruct (implements_all opt (Binary Eq e1 (Constant w 0)) (create_binary opt Eq e1 (Constant w 0))) as (e2 & He2 & A2 & B2 & C2).
  { intros init [Hi Hoo]. by apply create_binary_impl. }
  eapply runs_step; [by apply (runs_lift _ _ (fun x s' => x = e1 /\ s' = s) e1)|]. intros ? ? [-> ->].
  eapply runs_step; [by apply (runs_lift _ _ (fun x s' => x = e2 /\ s' = s) e2)|]. intros ? ? [-> ->].
  assert (Hev : forall init v, model (constraints q) init -> eval init (query q) = Some v -> eval init e2 = Some (b2z (v / 2 ^ m =? 0))).
  { intros init v Hmo Hv. pose proof (model_admissible opt _ _ Hmo) as Had.
    assert (He : eval init e1 = Some (v / 2 ^ m)).
    { apply C1; [done|]. simpl. rewrite Hv. simpl. rewrite Hw. by rewrite (proj2 (Z.leb_gt w m)) by lia. }
    apply C2; [done|]. simpl. rewrite He. done. }
  assert (Hg : good (withExpr q e2)).
  { assert (tidy e1) as Ht3 by (pose proof (tidy_with LShr (query q) w m e1 eq_refl Ht1 He1 Ht2) as H; by apply Forall_cons_iff in H as [H _]).
    split; [done|done|done| |by eapply (tidy_with Eq e1)]. intros init Hmo. destruct (Hdef init Hmo) as [v Hv]. eexists. by apply (Hev init v). }
  eapply runs_mono; [apply answered_ok; [by apply (mustBeTrue_ok opt may)|apply sure_mustBeTrue|done]|]. simpl.
  intros b s' [Hs' Hb]. split; [done|]. rewrite Hb. unfold valid. cbn [withExpr constraints query].
  assert (Hdiv : forall v, value_of q v -> v / 2 ^ m = 0 <-> v < 2 ^ m).
  { intros v Hv. destruct Hv as (init & Hmo & Hv). assert (Hr : 0 <= v < 2 ^ w) by (rewrite <- Hw; by apply (eval_fits init (mo_init _ _ Hmo))).
    assert (0 < 2 ^ m) by (apply Z.pow_pos_nonneg; lia). rewrite Z.div_small_iff by lia. lia. }
  split.
  - intros H v Hv. apply Hdiv; [done|]. destruct Hv as (init & Hmo & Hv). specialize (H init Hmo).
    rewrite (Hev init v Hmo Hv) in H. destruct (Z.eqb_spec (v / 2 ^ m) 0); [done|]. by injection H.
  - intros H init Hmo. destruct (Hdef init Hmo) as [v Hv]. rewrite (Hev init v Hmo Hv). do 2 f_equal.
    rewrite (proj2 (Hdiv v ltac:(by exists init))); [done|]. apply H. by exists init.
Qed.

(** The least and the greatest value. *)
Definition exact (r : Z * Z) : Prop :=
  (forall v, value_of q v -> r.1 <= v <= r.2) /\
  (forall lo, (forall v, value_of q v -> lo <= v) -> lo <= r.1) /\
  (forall hi, (forall v, value_of q v -> v <= hi) -> r.2 <= hi).

Lemma maxValue_pow n : 0 <= n <= 64 -> maxValueOfNBits n = 2 ^ n - 1.
Proof.
  intros Hn. unfold maxValueOfNBits. destruct (Z.eqb_spec n 0) as [->|]; [done|].
  rewrite Z.shiftr_div_pow2 by lia. replace (2 ^ 64) with (2 ^ n * 2 ^ (64 - n)) by (rewrite <- Z.pow_add_r by lia; f_equal; lia).
  assert (0 < 2 ^ (64 - n)) by (apply Z.pow_pos_nonneg; lia).
  replace (2 ^ n * 2 ^ (64 - n) - 1) with ((2 ^ n - 1) * 2 ^ (64 - n) + (2 ^ (64 - n) - 1)) by lia.
  rewrite Z.div_add_l, Z.div_small by lia. lia.
Qed.
Lemma min_ok bits (zero : bool) s :
  inv s -> 0 <= bits <= w -> (forall v, value_of q v -> v < 2 ^ bits) ->
  (zero = true <-> ~ forall v, value_of q v -> (v =? 0) = false) ->
  runs (if zero then mret 0 else search 65 (ask_min opt impl q w) 0 (2 ^ bits - 1)) s (fun lo s' => inv s' /\ 0 <= lo <= 2 ^ bits - 1 /\
    (forall v, value_of q v -> lo <= v) /\ (forall lo', (forall v, value_of q v -> lo' <= v) -> lo' <= lo)).
Proof.
  intros Hs Hbits Hall Hz. pose proof width_range as H0. pose proof pow_64 as H64.
  assert (Hbig : 2 ^ Z.of_nat 64 = 18446744073709551616) by done.
  assert (Hpb : 0 < 2 ^ bits <= 2 ^ w) by (split; [apply Z.pow_pos_nonneg; lia|apply Z.pow_le_mono_r; lia]).
  destruct zero.
  - apply runs_ret. split_and!; [done|lia|lia|intros v Hv; by apply value_range|]. intros lo' Hl.
    destruct (Z.le_gt_cases lo' 0); [done|]. destruct (proj1 Hz eq_refl). intros v Hv. specialize (Hl v Hv). lia.
  - eapply runs_mono; [apply (search_ok inv (ask_min opt impl q w) (fun m => ~ forall v, value_of q v -> (v <=? m) = false) 64); [done|lia|..]|].
    + change (2 ^ 64) with 18446744073709551616. lia.
    + rewrite Hbig. lia.
    + intros m m' Hm Hp Hn. apply Hp. intros v Hv. specialize (Hn v Hv). lia.
    + intros m s' Hm Hs'. by apply (may_compare Ule m (fun v => v <=? m)); [lia|..].
    + simpl. intros lo s3 (Hs3 & Hlo & Hbelow & Hat).
      assert (Hp : ~ forall v, value_of q v -> (v <=? lo) = false).
      { destruct (Z.eq_dec lo (2 ^ bits - 1)) as [->|]; [|apply Hat; lia]. intros H. destruct some_value as [v Hv].
        specialize (H v Hv). specialize (Hall v Hv). lia. }
      assert (Hlow : forall v, value_of q v -> lo <= v).
      { intros v Hv. destruct (Z.le_gt_cases lo v) as [|Hlt]; [done|]. destruct (value_range v Hv).
        destruct (Hbelow v ltac:(lia)). intros Hx. specialize (Hx v Hv). lia. }
      split_and!; [done|lia|lia|done|]. intros lo' Hl. destruct (Z.le_gt_cases lo' lo); [done|].
      destruct Hp. intros v Hv. specialize (Hl v Hv). lia.
Qed.
Lemma range_wide s :
  inv s -> w <> 1 -> isConstant (query q) = false ->
  runs (bits ← search 65 (ask_bits opt impl q w) 0 w;
        zero ← ask_zero opt impl q w;
        lo ← (if zero : bool then mret 0 else search 65 (ask_min opt impl q w) 0 (maxValueOfNBits bits));
        hi ← search 65 (ask_max opt impl q w) lo (maxValueOfNBits bits);
        mret (lo, hi)) s (fun r s' => inv s' /\ exact r).
Proof.
  intros Hs Hw1 Hc. pose proof width_range as H0. pose proof pow_64 as H64. change (2 ^ 64) with 18446744073709551616.
  assert (Hbig : 2 ^ Z.of_nat 64 = 18446744073709551616) by done.
  eapply runs_step.
  { apply (search_ok inv (ask_bits opt impl q w) (fun m => forall v, value_of q v -> v < 2 ^ m) 64); [done|lia|..].
    - change (2 ^ 64) with 18446744073709551616. lia.
    - rewrite Hbig. lia.
    - intros m m' Hm Hv v Hx. specialize (Hv v Hx). destruct (value_range v Hx).
      assert (2 ^ m <= 2 ^ m') by (apply Z.pow_le_mono_r; lia). lia.
    - intros m s' Hm Hs'. apply ask_bits_ok; [lia|done]. }
  intros bits s1 (Hs1 & Hb & _ & Hbits). clear s Hs.
  assert (Hall : forall v, value_of q v -> v < 2 ^ bits).
  { intros v Hv. destruct (Z.eq_dec bits w) as [->|]; [by apply value_range|apply Hbits; [lia|done]]. }
  rewrite (maxValue_pow bits) by lia. assert (Hpb : 0 < 2 ^ bits <= 2 ^ w) by (split; [apply Z.pow_pos_nonneg; lia|apply Z.pow_le_mono_r; lia]).
  eapply runs_step; [apply (may_compare Eq 0 (fun v => v =? 0)); [lia|done|done|done]|].
  intros zero s2 [Hs2 Hz]. clear s1 Hs1.
  eapply (runs_step _ _ _ (fun lo s' => inv s' /\ 0 <= lo <= 2 ^ bits - 1 /\ (forall v, value_of q v -> lo <= v) /\
    (forall lo', (forall v, value_of q v -> lo' <= v) -> lo' <= lo))).
  { by apply min_ok. }
  intros lo s3 (Hs3 & Hlo & Hlow & Hglb). clear s2 Hs2.
  eapply runs_step.
  { apply (search_ok inv (ask_max opt impl q w) (fun m => forall v, value_of q v -> (v <=? m) = true) 64); [done|lia|..].
    - change (2 ^ 64) with 18446744073709551616. lia.
    - rewrite Hbig. lia.
    - intros m m' Hm Hp v Hv. specialize (Hp v Hv). lia.
    - intros m s' Hm Hs'. by apply (must_compare Ule m (fun v => v <=? m)); [lia|..]. }
  simpl. intros hi s4 (Hs4 & Hhi & Hbelow & Hat). apply runs_ret. split; [done|].
  assert (Hup : forall v, value_of q v -> v <= hi).
  { intros v Hv. destruct (Z.eq_dec hi (2 ^ bits - 1)) as [->|]; [specialize (Hall v Hv); lia|].
    specialize (Hat ltac:(lia) v Hv). lia. }
  split_and!; [intros v Hv; simpl; split; [by apply Hlow|by apply Hup]|done|]. simpl. intros hi' Hh.
  destruct (Z.le_gt_cases hi hi') as [|Hlt]; [done|]. destruct some_value as [v Hv]. specialize (Hh v Hv) as Hvh. specialize (Hlow v Hv) as Hvl.
  destruct (Hbelow hi' ltac:(lia)). intros u Hu. specialize (Hh u Hu). lia.
Qed.
Lemma exact_one v : value_of q v -> (forall u, value_of q u -> u = v) -> exact (v, v).
Proof.
  intros Hv Hu. split_and!; simpl.
  - intros u Hx. rewrite (Hu u Hx). lia.
  - intros lo Hl. by apply Hl.
  - intros hi Hl. by apply Hl.
Qed.
Lemma range_bool s :
  inv s -> w = 1 ->
  runs (r ← evaluate impl q;
        match r with None => halt AssertFailed | Some VTrue => mret (1, 1) | Some VFalse => mret (0, 0) | Some VUnknown => mret (0, 1) end)
    s (fun r s' => inv s' /\ exact r).
Proof.
  intros Hs Hw1. assert (Hsure : sure (evaluate impl q)).
  { intros s0 Hs0. unfold evaluate. apply post_bind, post_assert. intros _.
    destruct (query q); try (by apply validity_sure); by apply sure_some. }
  pose proof (evaluate_ok opt may impl inv q Hq Hmay (eq_trans Hw Hw1) s Hs) as Ha. specialize (Hsure s Hs). unfold runs, mbind, M_bind, post in *.
  destruct (evaluate impl q s) as [[r s']|e]; [|done]. destruct Ha as [Hs' Ha]. specialize (Hsure r s' eq_refl).
  destruct r as [r|]; [|done]. specialize (Ha r eq_refl). destruct some_value as [v0 Hv0].
  assert (Hbit : forall v, value_of q v -> v = 0 \/ v = 1) by (intros v Hv; apply value_range in Hv; rewrite Hw1 in Hv; change (2 ^ 1) with 2 in Hv; lia).
  destruct r; simpl in Ha |- *; (split; [done|]).
  - assert (Hone : forall v, value_of q v -> v = 1) by (intros v (init & Hm & Hv); specialize (Ha init Hm); congruence).
    apply exact_one; [by rewrite <- (Hone v0 Hv0)|done].
  - assert (Hone : forall v, value_of q v -> v = 0) by (intros v (init & Hm & Hv); specialize (Ha init Hm); congruence).
    apply exact_one; [by rewrite <- (Hone v0 Hv0)|done].
  - destruct Ha as [Hnv Hnn]. split_and!; simpl.
    + intros v Hv. destruct (Hbit v Hv); lia.
    + intros lo Hl. destruct (Z.le_gt_cases lo 0); [done|]. destruct Hnv. intros init Hm. destruct (go_def _ Hq init Hm) as [v Hv].
      assert (value_of q v) as Hx by (by exists init). specialize (Hl v Hx). destruct (Hbit v Hx) as [-> | ->]; [lia|done].
    + intros hi Hl. destruct (Z.le_gt_cases 1 hi); [done|]. destruct Hnn. intros init Hm. destruct (go_def _ Hq init Hm) as [v Hv].
      assert (value_of q v) as Hx by (by exists init). specialize (Hl v Hx). destruct (Hbit v Hx) as [-> | ->]; [done|lia].
Qed.
Lemma range_of_ok s : inv s -> runs (range_of opt impl 65 q) s (fun r s' => inv s' /\ exact r).
Proof.
  intros Hs. unfold range_of. rewrite Hw. destruct (Z.eqb_spec w 1) as [E|E]; [by apply range_bool|].
  destruct (isConstant (query q)) eqn:Hc.
  - destruct (query q) as [w' v| | | | | | | | |] eqn:Eq; try done. simpl in Hw. subst w'.
    rewrite (proj2 (Z.leb_le w 64)) by done. apply runs_ret. split; [done|]. destruct some_value as [u Hu].
    assert (Hone : forall x, value_of q x -> x = v) by (intros x (init & Hm & Hx); rewrite Eq in Hx; simpl in Hx; congruence).
    apply exact_one; [by rewrite <- (Hone u Hu)|done].
  - pose proof (range_wide s Hs E Hc) as Hr. by destruct (query q).
Qed.
End Query.

(** C25. [getRange], for a solver that keeps its promise and does not fail, and an
    expression of at most 64 bits: no assertion fails, the binary searches end within 65
    rounds each, and the answer is the least and the greatest value that the expression has
    in the solutions of the constraints. *)
Theorem getRange_exact q s :
  good q -> may (constraints q) -> getWidth (query q) <= 64 -> inv s ->
  runs (getRange opt impl 65 q) s (fun r s' => inv s' /\ exists lo hi,
    r = (Constant (getWidth (query q)) lo, Constant (getWidth (query q)) hi) /\ exact q (lo, hi)).
Proof.
  intros Hq Hmay H64 Hs. unfold getRange. eapply runs_step; [by apply (range_of_ok q Hq Hmay (getWidth (query q)) eq_refl H64)|].
  intros [lo hi] s' [Hs' He]. destruct (some_value q Hq) as [v Hv]. pose proof (value_range q Hq _ eq_refl v Hv) as Hr.
  pose proof He as (E1 & E2 & E3). specialize (E1 v Hv). simpl in *.
  assert (0 <= lo) by (apply E2; intros u Hu; by apply (value_range q Hq _ eq_refl u)).
  assert (hi <= 2 ^ getWidth (query q) - 1).
  { apply E3. intros u Hu. pose proof (value_range q Hq _ eq_refl u Hu). lia. }
  unfold create_Constant. rewrite !Z.mod_small, !Z.eqb_refl by lia. apply runs_ret. split; [done|]. by exists lo, hi.
Qed.
End Range.
End SolverRange.
