(* ===== verification/IndepSolver.v ===== *)
(** * The independent solver

    lib/Solver/IndependentSolver.cpp: of the constraints of a query only those are given to
    the next solver that share, directly or through others, a cell of an array with the
    expression. For initial values the constraints are split into independent factors,
    and the solutions of the factors are put together. *)
From stdpp Require Import base gmap list sets strings numbers countable.
From Stdlib Require Import ZArith Lia.
From S2P Require Import Prelude ExprData ExprFacts ExprCreate ExprEval ExprUtil Solver.

Module IndepSolver.
Import Expr ExprFacts Create ExprUtil Solver.

(** Sets of arrays are kept by address; the order of addresses is any order. *)
#[export] Instance array_countable : Countable array.
Proof.
  refine (inj_countable' (fun a => (identity a, name a, size a, domain a, range a, constantValues a))
    (fun x => match x with (i, n, s, d, r, c) => Array i n s d r c end) _). by intros [].
Defined.

(** ** [DenseSet] *)
Abbreviation DenseSet := (gset Z).
Definition dense_add_from (b : list Z) (s : DenseSet) : bool * DenseSet :=
  foldl (fun '(modified, s) x => if modified || bool_decide (x ∉ s) then (true, {[x]} ∪ s) else (modified, s)) (false, s) b.
(** [add(const DenseSet &)]: is the set changed? *)
Definition dense_add (s b : DenseSet) : bool * DenseSet := dense_add_from (elements b) s.
Definition dense_intersects (s b : DenseSet) : bool := existsb (fun x => bool_decide (x ∈ b)) (elements s).

(** ** [IndependentElementSet] *)
Record IndependentElementSet : Type := MkSet {
  elems : gmap array DenseSet;
  wholeObjects : gset array;
  exprs : list expr
}.
(** One read is recorded. *)
Definition record_read (ies : IndependentElementSet) (re : expr) : result IndependentElementSet :=
  match re with
  | Read array head index =>
      if isConstantArray array && bool_decide (head = Null) then Ret ies
      else if bool_decide (array ∈ wholeObjects ies) then Ret ies
      else
        match index with
        | Constant w v =>
            if 32 <? w then Stop AssertFailed
            else
              let dis := default ∅ (elems ies !! array) in
              Ret (MkSet (<[array := {[u32 v]} ∪ dis]> (elems ies)) (wholeObjects ies) (exprs ies))
        | _ => Ret (MkSet (delete array (elems ies)) ({[array]} ∪ wholeObjects ies) (exprs ies))
        end
  | _ => Stop AssertFailed
  end.
Fixpoint record_reads (ies : IndependentElementSet) (reads : list expr) : result IndependentElementSet :=
  match reads with [] => Ret ies | re :: reads => ies ← record_read ies re; record_reads ies reads end.
Definition newSet (e : expr) : result IndependentElementSet :=
  reads ← findReads (S (nodes e)) e true;
  record_reads (MkSet ∅ ∅ [e]) reads.

Definition intersects (a b : IndependentElementSet) : bool :=
  existsb (fun arr => bool_decide (arr ∈ wholeObjects b) || bool_decide (is_Some (elems b !! arr))) (elements (wholeObjects a)) ||
  existsb (fun x => bool_decide (x.1 ∈ wholeObjects b) ||
                    match elems b !! x.1 with Some dis => dense_intersects x.2 dis | None => false end) (map_to_list (elems a)).

(** [add]: the whole objects of [b], then its elements; was the set modified? *)
Definition add_whole (st : bool * IndependentElementSet) (arr : array) : bool * IndependentElementSet :=
  let (modified, a) := st in
  match elems a !! arr with
  | Some _ => (true, MkSet (delete arr (elems a)) ({[arr]} ∪ wholeObjects a) (exprs a))
  | None =>
      if bool_decide (arr ∈ wholeObjects a) then (modified, a)
      else (true, MkSet (elems a) ({[arr]} ∪ wholeObjects a) (exprs a))
  end.
Definition add_elements (st : bool * IndependentElementSet) (x : array * DenseSet) : bool * IndependentElementSet :=
  let (modified, a) := st in
  let (arr, dis) := x in
  if bool_decide (arr ∈ wholeObjects a) then (modified, a)
  else
    match elems a !! arr with
    | None => (true, MkSet (<[arr := dis]> (elems a)) (wholeObjects a) (exprs a))
    | Some s =>
        let (m, s) := dense_add s dis in
        (modified || m, MkSet (<[arr := s]> (elems a)) (wholeObjects a) (exprs a))
    end.
Definition add (a b : IndependentElementSet) : bool * IndependentElementSet :=
  let a := MkSet (elems a) (wholeObjects a) (exprs a ++ exprs b) in
  foldl add_elements (foldl add_whole (false, a) (elements (wholeObjects b))) (map_to_list (elems b)).

(** ** [getIndependentConstraints] *)
(** One pass over the worklist: is it done, the closure, the constraints that are left, and
    those that are required. *)
Fixpoint closure_pass (worklist : list (expr * IndependentElementSet)) (closure : IndependentElementSet)
    : bool * IndependentElementSet * list (expr * IndependentElementSet) * list expr :=
  match worklist with
  | [] => (true, closure, [], [])
  | (e, ies) :: worklist =>
      if intersects ies closure then
        let (modified, closure) := add closure ies in
        let '(done, closure, left_, result) := closure_pass worklist closure in
        (negb modified && done, closure, left_, e :: result)
      else
        let '(done, closure, left_, result) := closure_pass worklist closure in
        (done, closure, (e, ies) :: left_, result)
  end.
Fixpoint closure_loop (fuel : nat) (worklist : list (expr * IndependentElementSet)) (closure : IndependentElementSet)
    (required : list expr) : result (IndependentElementSet * list expr) :=
  match fuel with
  | O => Stop OutOfFuel
  | S fuel =>
      let '(done, closure, worklist, found) := closure_pass worklist closure in
      if done : bool then Ret (closure, required ++ found) else closure_loop fuel worklist closure (required ++ found)
  end.
Fixpoint new_worklist (cs : list expr) : result (list (expr * IndependentElementSet)) :=
  match cs with
  | [] => Ret []
  | c :: cs => ies ← newSet c; l ← new_worklist cs; Ret ((c, ies) :: l)
  end.
Definition getIndependentConstraints (q : Query) : result (IndependentElementSet * list expr) :=
  closure ← newSet (query q);
  worklist ← new_worklist (constraints q);
  closure_loop (S (length worklist)) worklist closure [].

(** ** [getAllIndependentConstraintsSets] *)
(** The inner loop: [current] takes in the factors it intersects; the others are kept. *)
Fixpoint absorb (factors : list IndependentElementSet) (current : IndependentElementSet)
    : bool * IndependentElementSet * list IndependentElementSet :=
  match factors with
  | [] => (false, current, [])
  | compare :: factors =>
      if intersects current compare then
        let (modified, current) := add current compare in
        let '(m, current, keep) := absorb factors current in
        (modified || m, current, keep)
      else
        let '(m, current, keep) := absorb factors current in
        (m, current, compare :: keep)
  end.
(** The loop over the queue of factors, in which those that are left come back. *)
Fixpoint factors_pass (fuel : nat) (factors : list IndependentElementSet) : result (bool * list IndependentElementSet) :=
  match factors with
  | [] => Ret (false, [])
  | current :: factors =>
      match fuel with
      | O => Stop OutOfFuel
      | S fuel =>
          let '(m, current, keep) := absorb factors current in
          r ← factors_pass fuel keep;
          let (m', fs) := (r : bool * list IndependentElementSet) in
          Ret (m || m', current :: fs)
      end
  end.
Fixpoint factors_loop (fuel : nat) (factors : list IndependentElementSet) : result (list IndependentElementSet) :=
  match fuel with
  | O => Stop OutOfFuel
  | S fuel =>
      r ← factors_pass (length factors) factors;
      let (modified, fs) := (r : bool * list IndependentElementSet) in
      if modified : bool then factors_loop fuel fs else Ret fs
  end.
Fixpoint new_sets (cs : list expr) : result (list IndependentElementSet) :=
  match cs with
  | [] => Ret []
  | c :: cs => ies ← newSet c; l ← new_sets cs; Ret (ies :: l)
  end.
Section Factors.
Context {ap : APInt} (ConstArrayOpt : bool).
Definition getAllIndependentConstraintsSets (q : Query) : result (list IndependentElementSet) :=
  first ← match query q with
          | Constant w v => if (w =? Bool) && (v =? 0) then Ret [] else Stop AssertFailed
          | e => neg ← createIsZero ConstArrayOpt e; ies ← newSet neg; Ret [ies]
          end;
  rest ← new_sets (constraints q);
  factors_loop (S (length (first ++ rest))) (first ++ rest).
End Factors.

(** [calculateArrayReferences] *)
Definition calculateArrayReferences (ies : IndependentElementSet) : list array :=
  elements (dom (elems ies) ∪ wholeObjects ies).
(** ** [IndependentSolver] *)
Section Independent.
Context {ap : APInt} (ConstArrayOpt : bool) {St : Type} (solver : SolverImpl St).

(** The query with the required constraints only. *)
Definition required_query (q : Query) : M St Query :=
  r ← lift (getIndependentConstraints q); mret (MkQuery r.2 (query q)).
Definition indep_computeTruth (q : Query) : M St (option bool) := q ← required_query q; computeTruth solver q.
Definition indep_computeValidity (q : Query) : M St (option Validity) := q ← required_query q; computeValidity solver q.
Definition indep_computeValue (q : Query) : M St (option expr) := q ← required_query q; computeValue solver q.

(** *** Initial values *)
Abbreviation values_of := (gmap array (list Z)).
(** The bytes at the indices [ds] are taken from the new values. *)
Fixpoint overwrite (ds : list Z) (temp values : list Z) : result (list Z) :=
  match ds with
  | [] => Ret temp
  | index :: ds =>
      match temp !! Z.to_nat index, values !! Z.to_nat index with
      | Some _, Some v => overwrite ds (<[Z.to_nat index := v]> temp) values
      | _, _ => Stop MemError
      end
  end.
Fixpoint merge (ies : IndependentElementSet) (arrays : list array) (tempValues : list (list Z)) (retMap : values_of)
    : result values_of :=
  match arrays, tempValues with
  | arr :: arrays, values :: tempValues =>
      match retMap !! arr with
      | Some temp =>
          if Nat.eqb (length temp) (length values) then
            temp ← overwrite (elements (default ∅ (elems ies !! arr))) temp values;
            merge ies arrays tempValues (<[arr := temp]> retMap)
          else Stop AssertFailed
      | None => merge ies arrays tempValues (<[arr := values]> retMap)
      end
  | _, _ => Ret retMap
  end.
(** The factors one after the other: the values, [None] if there are none. *)
Fixpoint solve_factors (factors : list IndependentElementSet) (retMap : values_of) : M St (option (option values_of)) :=
  match factors with
  | [] => mret (Some (Some retMap))
  | it :: factors =>
      let arraysInFactor := calculateArrayReferences it in
      assert_ (Nat.leb 1 (length (exprs it)));;
      match arraysInFactor with
      | [] => solve_factors factors retMap
      | _ =>
          r ← computeInitialValues solver (MkQuery (exprs it) (Constant Bool 0)) arraysInFactor;
          match r with
          | None => mret None
          | Some (false, _) => mret (Some None)
          | Some (true, tempValues) =>
              assert_ (Nat.eqb (length tempValues) (length arraysInFactor));;
              retMap ← lift (merge it arraysInFactor tempValues retMap);
              solve_factors factors retMap
          end
      end
  end.

(** The bindings of [Assignment], with those of [retMap] for the other arrays. *)
Definition bind_objects (objects : list array) (values : list (list Z)) (retMap : values_of) (arr : array) : option (list Z) :=
  match Evaluator.bind objects values arr with Some v => Some v | None => retMap !! arr end.
Fixpoint all_true (assign : Evaluator.Assignment) (es : list expr) : result bool :=
  match es with
  | [] => Ret true
  | e :: es =>
      ret ← Evaluator.evaluate ConstArrayOpt assign e;
      match ret with
      | Constant w v => if (w =? Bool) && (v =? 0) then Ret false else all_true assign es
      | _ => Stop AssertFailed
      end
  end.
Definition assertCreatedPointEvaluatesToTrue (q : Query) (objects : list array) (values : list (list Z)) (retMap : values_of)
    : result bool :=
  let assign := Evaluator.MkAssignment true (bind_objects objects values retMap) in
  b ← all_true assign (constraints q);
  if negb b then Ret false
  else
    neg ← createIsZero ConstArrayOpt (query q);
    r ← Evaluator.evaluate ConstArrayOpt assign neg;
    match r with Constant w v => Ret (isTrue w v) | _ => Stop AssertFailed end.

Definition indep_computeInitialValues (q : Query) (objects : list array) : M St (option (bool * list (list Z))) :=
  factors ← lift (getAllIndependentConstraintsSets ConstArrayOpt q);
  r ← solve_factors factors ∅;
  match r with
  | None => mret None
  | Some None => mret (Some (false, []))
  | Some (Some retMap) =>
      let values := (fun arr => default (replicate (Z.to_nat (size arr)) 0) (retMap !! arr)) <$> objects in
      b ← lift (assertCreatedPointEvaluatesToTrue q objects values retMap);
      assert_ b;;
      mret (Some (true, values))
  end.

Definition IndependentSolver : SolverImpl St :=
  MkSolverImpl indep_computeTruth indep_computeValidity indep_computeValue indep_computeInitialValues.
End Independent.
End IndepSolver.
