(* ===== verification/IndepOk.v ===== *)
(** * The independent solver: sets of cells

    What the sets of [IndependentElementSet] stand for: cells of the initial arrays. The
    value of an expression depends on the cells of its set only, sets that do not intersect
    have no cell in common, and [add] is the union ([IndepOk]). What follows from the required
    constraints follows from all of them ([IndepMain]). *)
From stdpp Require Import base gmap list sets fin_maps strings numbers relations.
From Stdlib Require Import ZArith Lia.
From S2P Require Import Prelude ExprData ExprFacts ExprCreate ExprSound ExprEval ExprMain ExprUtil ConstraintsMain Solver SolverOk IndepSolver.

Module IndepOk.
Import Expr ExprFacts Create ExprMain ExprUtil Solver IndepSolver.
Implicit Types ies a b c : IndependentElementSet.

(** ** Cells *)
Definition covers ies (arr : array) (i : Z) : Prop :=
  arr ∈ wholeObjects ies \/ exists dis, elems ies !! arr = Some dis /\ i ∈ dis.
Definition coversb ies (arr : array) (i : Z) : bool :=
  bool_decide (arr ∈ wholeObjects ies) || match elems ies !! arr with Some dis => bool_decide (i ∈ dis) | None => false end.
Lemma coversb_iff ies arr i : coversb ies arr i = true <-> covers ies arr i.
Proof.
  unfold coversb, covers. rewrite orb_true_iff, bool_decide_eq_true. apply or_iff_compat_l.
  destruct (elems ies !! arr) as [dis|]; [|by split; [|intros (? & ? & _)]]. rewrite bool_decide_eq_true.
  split; [intros H; by exists dis|by intros (? & [= <-] & H)].
Qed.

(** The value of [e] depends on the cells [S] only. *)
Definition supports (S : array -> Z -> Prop) (e : expr) : Prop :=
  forall init init', ends init -> ends init' -> (forall arr i, S arr i -> init arr i = init' arr i) -> eval init e = eval init' e.
Lemma supports_mono (S T : array -> Z -> Prop) e : (forall arr i, S arr i -> T arr i) -> supports S e -> supports T e.
Proof. intros H Hs init init' H1 H2 Ha. apply Hs; [done|done|]. intros arr i Hi. by apply Ha, H. Qed.

(** ** The set of an expression *)

(** What a read sees is in the set. *)
Definition seen ies (r : expr) : Prop :=
  match r with
  | Read arr head index =>
      (isConstantArray arr = true /\ head = Null) \/
      (match index with Constant _ v => covers ies arr v | _ => arr ∈ wholeObjects ies end)
  | _ => True
  end.
Lemma seen_mono ies ies' r :
  (forall arr i, covers ies arr i -> covers ies' arr i) -> (forall arr, arr ∈ wholeObjects ies -> arr ∈ wholeObjects ies') ->
  seen ies r -> seen ies' r.
Proof. intros Hc Hw. destruct r; try done. intros [H|H]; [by left|right]. destruct r; auto. Qed.
Lemma record_read_ok ies r :
  isRead r = true -> width_ok r = true ->
  exists ies', record_read ies r = Ret ies' /\ exprs ies' = exprs ies /\ seen ies' r /\
    (forall arr i, covers ies arr i -> covers ies' arr i) /\ (forall arr, arr ∈ wholeObjects ies -> arr ∈ wholeObjects ies').
Proof.
  intros Hr Hok. destruct r as [| |arr head index| | | | | | |]; try done. cbn [record_read].
  destruct (isConstantArray arr && bool_decide (head = Null)) eqn:E.
  { apply andb_prop in E as [E1 E2%bool_decide_eq_true]. exists ies. split_and!; [done|done|by left|done|done]. }
  clear E. case_bool_decide as Hw.
  { exists ies. split_and!; [done|done| |done|done]. right. destruct index; [by left|done..]. }
  assert (Hwhole : exists ies', Ret (MkSet (delete arr (elems ies)) ({[arr]} ∪ wholeObjects ies) (exprs ies)) = Ret ies' /\
    exprs ies' = exprs ies /\ arr ∈ wholeObjects ies' /\ (forall arr i, covers ies arr i -> covers ies' arr i) /\
    (forall arr, arr ∈ wholeObjects ies -> arr ∈ wholeObjects ies')).
  { eexists. split; [reflexivity|]. cbn [exprs wholeObjects]. split_and!; [done|set_solver| |set_solver].
    intros arr' i [Hi|(dis & Hd & Hi)]; [left; cbn; set_solver|]. destruct (decide (arr' = arr)) as [->|Hne]; [left; cbn; set_solver|].
    right. exists dis. cbn. by rewrite lookup_delete_ne. }
  destruct index as [w v| | | | | | | | |];
    [clear Hwhole|destruct Hwhole as (ies' & E & A & B & C & D); exists ies'; split_and!; [done|done|by right|done|done]..].
  - simpl in Hok. split_ok. unfold array_ok in *. split_ok.
    assert (Hv : u32 v = v).
    { apply u32_small. match goal with H : fits _ v = true |- _ => apply fits_iff in H end.
      pose proof (Z.pow_le_mono_r 2 w 32 ltac:(lia) ltac:(lia)). change (2 ^ 32) with 4294967296 in *. lia. }
    rewrite (proj2 (Z.ltb_ge 32 w)) by lia. rewrite Hv. eexists. split; [reflexivity|]. split_and!; [done| | |done].
    + right. right. exists ({[v]} ∪ default ∅ (elems ies !! arr)). cbn [elems]. rewrite lookup_insert_eq. split; [done|]. set_solver.
    + intros arr' i [Hi|(dis & Hd & Hi)]; [by left|]. right. cbn [elems]. destruct (decide (arr' = arr)) as [->|Hne].
      * rewrite lookup_insert_eq. eexists. split; [done|]. rewrite Hd. simpl. set_solver.
      * rewrite lookup_insert_ne by done. by exists dis.
Qed.
Lemma record_reads_ok reads ies :
  Forall (fun r => isRead r = true /\ width_ok r = true) reads ->
  exists ies', record_reads ies reads = Ret ies' /\ exprs ies' = exprs ies /\ Forall (seen ies') reads /\
    (forall arr i, covers ies arr i -> covers ies' arr i) /\ (forall arr, arr ∈ wholeObjects ies -> arr ∈ wholeObjects ies').
Proof.
  revert ies. induction reads as [|r reads IH]; intros ies H; cbn [record_reads]; [by exists ies|].
  apply Forall_cons_iff in H as [[H1 H2] H]. destruct (record_read_ok ies r H1 H2) as (a & -> & A1 & A2 & A3 & A4). cbn [mbind result_bind].
  destruct (IH a H) as (b & -> & B1 & B2 & B3 & B4). exists b. split_and!; [done|congruence| |auto|auto].
  constructor; [|done]. by apply (seen_mono a b).
Qed.
Lemma newSet_ok e :
  width_ok e = true ->
  exists ies, newSet e = Ret ies /\ exprs ies = [e] /\ supports (covers ies) e.
Proof.
  intros Hok. unfold newSet. destruct (findReads_ok true e (S (nodes e)) ltac:(lia)) as (rs & -> & _ & Hrs). cbn [mbind result_bind].
  destruct (record_reads_ok rs (MkSet ∅ ∅ [e])) as (ies & -> & A & B & _).
  { apply list.Forall_forall. intros r [H1 H2]%Hrs. split; [done|by apply (width_ok_occurs e)]. }
  exists ies. split_and!; [done|done|]. rewrite list.Forall_forall in B. intros init init' He He' Ha. apply eval_local.
  intros r Hr. destruct (isRead r) eqn:Er; [|by destruct r]. specialize (B r (proj2 (Hrs r) (conj Er Hr))).
  destruct r as [| |arr head index| | | | | | |]; try done.
  assert (Hi : forall i, covers ies arr i -> initial init arr i = initial init' arr i) by (intros i Hi; unfold initial; by rewrite (Ha arr i Hi)).
  destruct B as [[Hc ->]|B].
  - assert (forall i, initial init arr i = initial init' arr i) as H; [|destruct index; simpl; auto].
    intros i. unfold initial. rewrite Hc. simpl. destruct (Z.ltb_spec i (size arr)); [done|]. by rewrite He, He'.
  - destruct index; simpl; try (by apply Hi); intros i; apply Hi; by left.
Qed.

(** ** Intersection and union *)
Lemma intersects_ok a b : intersects a b = false -> forall arr i, covers a arr i -> ~ covers b arr i.
Proof.
  unfold intersects. intros [H1 H2]%orb_false_iff arr i Ha Hb.
  assert (Hf : forall A (f : A -> bool) l x, existsb f l = false -> x ∈ l -> f x = false).
  { intros A f l x H Hx. destruct (f x) eqn:E; [|done]. rewrite <- H. symmetry. apply existsb_exists. exists x. by rewrite <- list_elem_of_In. }
  destruct Ha as [Ha|(dis & Hd & Hi)].
  - specialize (Hf _ _ _ arr H1 ltac:(by apply elem_of_elements)). apply orb_false_iff in Hf as [F1%bool_decide_eq_false F2%bool_decide_eq_false].
    destruct Hb as [Hb|(dis & Hd & Hi)]; [done|]. apply F2. by exists dis.
  - specialize (Hf _ _ _ (arr, dis) H2 ltac:(by apply elem_of_map_to_list)). simpl in Hf. apply orb_false_iff in Hf as [F1%bool_decide_eq_false F2].
    destruct Hb as [Hb|(dis' & Hd' & Hi')]; [done|]. rewrite Hd' in F2.
    assert (Hx : forall x, x ∈ elements dis -> bool_decide (x ∈ dis') = false).
    { intros x Hx. destruct (bool_decide (x ∈ dis')) eqn:E; [|done]. rewrite <- F2. symmetry. apply existsb_exists. exists x.
      by rewrite <- list_elem_of_In. }
    specialize (Hx i ltac:(by apply elem_of_elements)). by apply bool_decide_eq_false in Hx.
Qed.
Lemma dense_add_ok (s b : DenseSet) m s' : dense_add s b = (m, s') -> s' = s ∪ b /\ (m = false -> s' = s).
Proof.
  unfold dense_add, dense_add_from. assert (H : forall l m s m' s',
    foldl (fun '(modified, s) x => if modified || bool_decide (x ∉ s) then (true, {[x]} ∪ s) else (modified, s)) (m, s) l = (m', s') ->
    s' = s ∪ (list_to_set l : DenseSet) /\ (m' = false -> m = false /\ s' = s)).
  { induction l as [|x l IH]; intros m0 s0 m1 s1; simpl; [intros [= <- <-]; split; [set_solver|done]|].
    destruct (m0 || bool_decide (x ∉ s0)) eqn:E.
    - intros Hf. destruct (IH _ _ _ _ Hf) as [-> H2]. split; [set_solver|]. intros H. by destruct (H2 H).
    - apply orb_false_iff in E as [-> E]. apply bool_decide_eq_false in E. intros Hf. destruct (IH _ _ _ _ Hf) as [-> H2]. split; [|done].
      assert (x ∈ s0) by (by destruct (decide (x ∈ s0))). set_solver. }
  intros E. destruct (H _ _ _ _ _ E) as [-> H2]. split; [by rewrite list_to_set_elements_L|]. intros Hm. by destruct (H2 Hm).
Qed.

(** What a step of the union does with the cells [S]. *)
Record takes (st st' : bool * IndependentElementSet) (S : array -> Z -> Prop) : Prop := {
  ta_covers arr i : covers st'.2 arr i <-> covers st.2 arr i \/ S arr i;
  ta_exprs : exprs st'.2 = exprs st.2;
  ta_same : st'.1 = false -> st.1 = false /\ st'.2 = st.2
}.
Lemma takes_refl st : takes st st (fun _ _ => False).
Proof. split; [intros; tauto|done|done]. Qed.
Lemma takes_trans st st' st'' S T : takes st st' S -> takes st' st'' T -> takes st st'' (fun arr i => S arr i \/ T arr i).
Proof.
  intros [A1 A2 A3] [B1 B2 B3]. split; [|congruence|].
  - intros arr i. rewrite B1, A1. tauto.
  - intros H. destruct (B3 H) as [H1 H2]. destruct (A3 H1) as [H3 H4]. split; [done|congruence].
Qed.
Lemma takes_ext st st' (S T : array -> Z -> Prop) : (forall arr i, S arr i <-> T arr i) -> takes st st' S -> takes st st' T.
Proof. intros H [A B C]. split; [|done|done]. intros arr i. by rewrite A, H. Qed.
Lemma add_whole_ok st arr : takes st (add_whole st arr) (fun arr' _ => arr' = arr).
Proof.
  destruct st as [m a]. unfold add_whole. assert (Hin : forall el arr' i,
    (forall x, x <> arr -> el !! x = elems a !! x) ->
    covers (MkSet el ({[arr]} ∪ wholeObjects a) (exprs a)) arr' i <-> covers a arr' i \/ arr' = arr).
  { intros el arr' i Hel. unfold covers. cbn [elems wholeObjects]. rewrite elem_of_union, elem_of_singleton.
    destruct (decide (arr' = arr)) as [->|Hne]; [split; [by right|by left; left]|]. rewrite (Hel _ Hne). tauto. }
  destruct (elems a !! arr) as [dis|] eqn:E.
  - split; [|done|done]. intros arr' i. apply Hin. intros x Hx. by rewrite lookup_delete_ne.
  - case_bool_decide as Hw; (split; [|done|done]).
    + intros arr' i. simpl. split; [by left|]. intros [H| ->]; [done|by left].
    + intros arr' i. by apply Hin.
Qed.
Lemma add_elements_ok st x : takes st (add_elements st x) (fun arr i => arr = x.1 /\ i ∈ x.2).
Proof.
  destruct st as [m a], x as [arr dis]. unfold add_elements. case_bool_decide as Hw.
  { split; [|done|done]. intros arr' i. simpl. split; [by left|]. intros [H|[-> _]]; [done|by left]. }
  assert (Hin : forall s arr' i, covers (MkSet (<[arr := s]> (elems a)) (wholeObjects a) (exprs a)) arr' i <->
    (arr' ∈ wholeObjects a \/ (arr' <> arr /\ exists d, elems a !! arr' = Some d /\ i ∈ d) \/ (arr' = arr /\ i ∈ s))).
  { intros s arr' i. unfold covers. cbn [elems wholeObjects]. destruct (decide (arr' = arr)) as [->|Hne].
    - rewrite lookup_insert_eq. split; [intros [H|(d & [= <-] & H)]; [by left|by right; right]|].
      intros [H|[[? _]|[_ H]]]; [by left|done|]. right. by exists s.
    - rewrite lookup_insert_ne by done. split; [intros [H|H]; [by left|right; by left]|].
      intros [H|[[_ H]|[? _]]]; [by left|by right|done]. }
  destruct (elems a !! arr) as [s|] eqn:E.
  - destruct (dense_add s dis) as [m' s'] eqn:Ed. destruct (dense_add_ok _ _ _ _ Ed) as [Hs Hm]. split; [|done|].
    + intros arr' i. simpl. rewrite Hin, Hs, elem_of_union. unfold covers. destruct (decide (arr' = arr)) as [->|Hne].
      * split.
        -- intros [H|[[? _]|[_ [H|H]]]]; [by left; left|done|left; right; by exists s|by right].
        -- intros [[H|(d & Hd & H)]|[_ H]]; [done|right; right; split; [done|]; left; congruence|right; right; split; [done|by right]].
      * tauto.
    + simpl. intros [H1 H2]%orb_false_iff. split; [done|]. rewrite (Hm H2). rewrite insert_id by done. by destruct a.
  - split; [|done|done]. intros arr' i. simpl. rewrite Hin. unfold covers. destruct (decide (arr' = arr)) as [->|Hne].
    + rewrite E. split; [intros [H|[[? _]|[_ H]]]; [by left; left|done|by right]|].
      intros [[H|(d & ? & _)]|[_ H]]; [done|done|]. right. by right.
    + tauto.
Qed.
Lemma foldl_takes {A} (f : bool * IndependentElementSet -> A -> bool * IndependentElementSet) (S : A -> array -> Z -> Prop) l st :
  (forall st x, takes st (f st x) (S x)) -> takes st (foldl f st l) (fun arr i => exists x, x ∈ l /\ S x arr i).
Proof.
  intros Hf. revert st. induction l as [|x l IH]; intros st; simpl.
  - apply (takes_ext _ _ (fun _ _ => False)); [|apply takes_refl]. intros arr i. symmetry. apply (ex_nil (fun x => S x arr i)).
  - apply (takes_ext _ _ (fun arr i => S x arr i \/ exists y, y ∈ l /\ S y arr i));
      [|by apply (takes_trans _ (f st x))]. intros arr i. symmetry. apply (ex_cons (fun x => S x arr i)).
Qed.
Lemma union_ok a b m c :
  add a b = (m, c) ->
  (forall arr i, covers c arr i <-> covers a arr i \/ covers b arr i) /\ exprs c = exprs a ++ exprs b /\
  (m = false -> elems c = elems a /\ wholeObjects c = wholeObjects a).
Proof.
  unfold add. set (a0 := MkSet (elems a) (wholeObjects a) (exprs a ++ exprs b)).
  pose proof (foldl_takes add_whole (fun arr arr' _ => arr' = arr) (elements (wholeObjects b)) (false, a0) add_whole_ok) as H1.
  set (st := foldl add_whole _ _) in *.
  pose proof (foldl_takes add_elements (fun x arr i => arr = x.1 /\ i ∈ x.2) (map_to_list (elems b)) st add_elements_ok) as H2.
  intros E. rewrite E in H2. destruct (takes_trans _ _ _ _ _ H1 H2) as [T1 T2 T3]. simpl in *. split_and!; [|done|].
  - intros arr i. rewrite T1. change (covers a0 arr i) with (covers a arr i). apply or_iff_compat_l.
    unfold covers at 1. split.
    + intros [(x & Hx & ->)|([x d] & Hx & -> & Hi)]; [left; by apply elem_of_elements|]. right. exists d. split; [by apply elem_of_map_to_list|done].
    + intros [H|(d & Hd & Hi)]; [left; exists arr; split; [by apply elem_of_elements|done]|].
      right. exists (arr, d). split; [by apply elem_of_map_to_list|done].
  - intros ->. destruct (T3 eq_refl) as [_ ->]. done.
Qed.
(** ** The closure *)
Definition same_cells a b : Prop := elems a = elems b /\ wholeObjects a = wholeObjects b.
Lemma same_covers a b arr i : same_cells a b -> covers a arr i <-> covers b arr i.
Proof. intros [H1 H2]. unfold covers. by rewrite H1, H2. Qed.
Lemma same_intersects a b c : same_cells b c -> intersects a b = intersects a c.
Proof. intros [H1 H2]. unfold intersects. by rewrite H1, H2. Qed.

Definition described (x : expr * IndependentElementSet) : Prop := supports (covers x.2) x.1.
Record passed (worklist : list (expr * IndependentElementSet)) closure (done : bool) closure' left_ found : Prop := {
  pa_perm : fst <$> worklist ≡ₚ found ++ (fst <$> left_);
  pa_grows arr i : covers closure arr i -> covers closure' arr i;
  pa_found : Forall (supports (covers closure')) found;
  pa_left : Forall described left_;
  pa_done : done = true -> same_cells closure' closure /\ Forall (fun x => intersects x.2 closure' = false) left_;
  pa_less : done = false -> (length left_ < length worklist)%nat
}.
Lemma closure_pass_ok worklist : forall closure,
  Forall described worklist ->
  exists done closure' left_ found, closure_pass worklist closure = (done, closure', left_, found) /\
    passed worklist closure done closure' left_ found.
Proof.
  induction worklist as [|[e ies] worklist IH]; intros closure Hd; cbn [closure_pass].
  { exists true, closure, [], []. split; [done|]. by split. }
  apply Forall_cons_iff in Hd as [He Hd]. destruct (intersects ies closure) eqn:Ei.
  - destruct (add closure ies) as [m c] eqn:Ea. destruct (union_ok _ _ _ _ Ea) as (Hc & _ & Hsame).
    destruct (IH c Hd) as (done & closure' & l & found & -> & [A B C D E F]).
    exists (negb m && done), closure', l, (e :: found). split; [done|]. split.
    + simpl. by rewrite A.
    + intros arr i H. apply B, Hc. by left.
    + constructor; [|done]. eapply supports_mono; [|exact He]. intros arr i H. apply B, Hc. by right.
    + done.
    + intros [H1%negb_true_iff H2]%andb_prop. destruct (E H2) as [[E1 E2] E3]. destruct (Hsame H1) as [S1 S2].
      split; [split; congruence|done].
    + simpl. intros H. pose proof (Permutation_length A) as Hl. rewrite length_app, !length_fmap in Hl. lia.
  - destruct (IH closure Hd) as (done & closure' & l & found & -> & [A B C D E F]).
    exists done, closure', ((e, ies) :: l), found. split; [done|]. split; [|done|done|by constructor| |].
    + simpl. rewrite A. apply Permutation_middle.
    + intros H. destruct (E H) as [E1 E2]. split; [done|]. constructor; [|done]. simpl. by rewrite (same_intersects ies closure' closure).
    + intros H. simpl. specialize (F H). lia.
Qed.
(** The expressions that are required, and the others. *)
Definition split_by closure (cs required rest : list expr) : Prop :=
  required ++ rest ≡ₚ cs /\ Forall (supports (covers closure)) required /\
  Forall (supports (fun arr i => ~ covers closure arr i)) rest.
Lemma closure_loop_ok fuel : forall worklist closure required,
  Forall described worklist -> Forall (supports (covers closure)) required -> (length worklist < fuel)%nat ->
  exists closure' required' rest, closure_loop fuel worklist closure required = Ret (closure', required') /\
    (forall arr i, covers closure arr i -> covers closure' arr i) /\
    split_by closure' (required ++ (fst <$> worklist)) required' rest.
Proof.
  induction fuel as [|fuel IH]; [lia|]. intros worklist closure required Hd Hr Hf. cbn [closure_loop].
  destruct (closure_pass_ok worklist closure Hd) as (done & c & l & found & -> & [A B C D E F]).
  assert (Hreq : Forall (supports (covers c)) (required ++ found)).
  { apply Forall_app. split; [|done]. eapply list.Forall_impl; [exact Hr|]. intros e. by apply supports_mono. }
  destruct done.
  - destruct (E eq_refl) as [_ El]. exists c, (required ++ found), (fst <$> l). split_and!; [done|done|].
    split_and!; [|done|].
    + rewrite <- app_assoc. by rewrite <- A.
    + apply Forall_fmap. rewrite list.Forall_forall in D, El |- *. intros x Hx. simpl.
      eapply supports_mono; [|by apply D]. by apply intersects_ok, El.
  - destruct (IH l c (required ++ found)) as (c' & req' & rest & -> & G1 & G2 & G3 & G4); [done|done|specialize (F eq_refl); lia|].
    exists c', req', rest. split_and!; [done|auto|]. split_and!; [|done|done]. rewrite G2, <- app_assoc. by rewrite <- A.
Qed.
Lemma new_worklist_ok cs :
  Forall (fun e => width_ok e = true) cs ->
  exists l, new_worklist cs = Ret l /\ fst <$> l = cs /\ Forall described l.
Proof.
  induction cs as [|e cs IH]; intros H; cbn [new_worklist]; [by exists []|].
  apply Forall_cons_iff in H as [H1 H]. destruct (newSet_ok e H1) as (ies & -> & _ & Hs). cbn [mbind result_bind].
  destruct (IH H) as (l & -> & <- & Hl). cbn [mbind result_bind]. exists ((e, ies) :: l). split_and!; [done|done|by constructor].
Qed.
Lemma getIndependentConstraints_ok q :
  width_ok (query q) = true -> Forall (fun e => width_ok e = true) (constraints q) ->
  exists closure required rest, getIndependentConstraints q = Ret (closure, required) /\
    supports (covers closure) (query q) /\ split_by closure (constraints q) required rest.
Proof.
  intros Hq Hcs. unfold getIndependentConstraints. destruct (newSet_ok (query q) Hq) as (c & -> & _ & Hc).
  destruct (new_worklist_ok (constraints q) Hcs) as (l & -> & El & Hl). cbn [mbind result_bind].
  destruct (closure_loop_ok (S (length l)) l c []) as (c' & req & rest & -> & G1 & G2); [done|constructor|lia|].
  exists c', req, rest. split_and!; [done| |by rewrite <- El]. by eapply supports_mono.
Qed.
End IndepOk.

(** * The independent solver keeps the promise of a solver

    What follows from the required constraints follows from all of them, because a content
    of the cells of the required ones can be completed by a solution of the others. *)
Module IndepMain.
Import Expr ExprFacts Create Sound ExprMain ExprUtil ConstraintsMain Solver SolverOk IndepSolver IndepOk.

(** Contents can be combined cell by cell, and arrays of bytes can be zero. *)
Definition mix (f : array -> Z -> bool) (init init' : array -> Z -> option Z) : array -> Z -> option Z :=
  fun arr i => if f arr i then init arr i else init' arr i.
Class Separable {con : Contents} : Prop := {
  contents_mix f init init' : contents init -> contents init' -> contents (mix f init init');
  contents_zero : exists z, contents z /\ forall arr i, byte_array arr -> 0 <= i < size arr -> z arr i = Some 0
}.

Section Independent.
Context {con : Contents} {sep : Separable}.

(** ** What the independent solver asks of constraints *)
(** An expression that depends on no cell is true, not false. *)
Definition open_or_true (e : expr) : Prop :=
  (forall init init', contents init -> contents init' -> eval init e = eval init' e) -> exists init, contents init /\ holds init e.
(** Constraints that share no cell with the others. *)
Definition apart (sub cs : list expr) : Prop :=
  exists rest S, sub ++ rest ≡ₚ cs /\ Forall (supports S) sub /\ Forall (supports (fun arr i => ~ S arr i)) rest.
(** The parts can be given to the next solver. *)
Record parts (may : list expr -> Prop) (cs : list expr) : Prop := {
  pa_open : Forall open_or_true cs;
  pa_may sub : apart sub cs -> may sub
}.

(** ** The required constraints *)
Lemma mix_in f init init' arr i : f arr i = true -> mix f init init' arr i = init arr i.
Proof. unfold mix. by intros ->. Qed.
Lemma mix_out f init init' arr i : f arr i = false -> mix f init init' arr i = init' arr i.
Proof. unfold mix. by intros ->. Qed.
Lemma split_models closure cs required rest init1 init0 :
  split_by closure cs required rest -> model required init1 -> model cs init0 ->
  exists init, model cs init /\ forall e, supports (covers closure) e -> eval init e = eval init1 e.
Proof.
  intros (Hp & Hr & Hs) [A1 A2] [B1 B2]. exists (mix (coversb closure) init1 init0).
  assert (Hc : contents (mix (coversb closure) init1 init0)) by (by apply contents_mix).
  assert (He : forall e, supports (covers closure) e -> eval (mix (coversb closure) init1 init0) e = eval init1 e).
  { intros e H. apply H; [by apply contents_ends..|]. intros arr i Hi. by apply mix_in, coversb_iff. }
  assert (He' : forall e, supports (fun arr i => ~ covers closure arr i) e -> eval (mix (coversb closure) init1 init0) e = eval init0 e).
  { intros e H. apply H; [by apply contents_ends..|]. intros arr i Hi. apply mix_out.
    destruct (coversb closure arr i) eqn:E; [by apply coversb_iff in E|done]. }
  split; [|done]. split; [done|]. rewrite <- Hp in B2 |- *. apply Forall_app in B2 as [_ B2]. apply Forall_app.
  rewrite list.Forall_forall in A2, B2, Hr, Hs. split; apply list.Forall_forall; intros e Hin; unfold holds.
  - rewrite He by (by apply Hr). by apply A2.
  - rewrite He' by (by apply Hs). by apply B2.
Qed.

(** A query with fewer constraints and the same answers. *)
Record same_answers (q q' : Query) : Prop := {
  sa_good : good q';
  sa_query : query q' = query q;
  sa_value v : value_of q' v <-> value_of q v
}.
Lemma same_all q q' (P : Z -> Prop) : same_answers q q' -> good q ->
  (forall init v, model (constraints q') init -> eval init (query q') = Some v -> P v) <->
  (forall init v, model (constraints q) init -> eval init (query q) = Some v -> P v).
Proof.
  intros [_ _ Hv] _. split; intros H init v Hm He.
  - destruct (proj2 (Hv v)) as (init' & Hm' & He'); [by exists init|]. by apply (H init').
  - destruct (proj1 (Hv v)) as (init' & Hm' & He'); [by exists init|]. by apply (H init').
Qed.
Lemma always_iff q v : good q ->
  (forall init, model (constraints q) init -> eval init (query q) = Some v) <->
  (forall init u, model (constraints q) init -> eval init (query q) = Some u -> u = v).
Proof.
  intros [_ _ _ Hd _]. split; intros H init; [intros u Hm He; rewrite (H init Hm) in He; congruence|].
  intros Hm. destruct (Hd init Hm) as [u Hu]. by rewrite <- (H init u Hm Hu).
Qed.
Lemma same_valid q q' : same_answers q q' -> good q -> valid q' <-> valid q.
Proof. intros Hs Hg. unfold valid. rewrite !always_iff by (done || apply Hs). by apply same_all. Qed.
Lemma same_never q q' : same_answers q q' -> good q -> never q' <-> never q.
Proof. intros Hs Hg. unfold never. rewrite !always_iff by (done || apply Hs). by apply same_all. Qed.
Lemma same_validity q q' v : same_answers q q' -> good q -> validity q' v -> validity q v.
Proof. intros Hs Hg. destruct v; simpl; by rewrite ?(same_valid q q' Hs Hg), ?(same_never q q' Hs Hg). Qed.

Lemma required_ok q : good q ->
  exists closure required, getIndependentConstraints q = Ret (closure, required) /\ apart required (constraints q) /\
    same_answers q (MkQuery required (query q)).
Proof.
  intros [Hc [init0 Hm0] Ho Hd Ht].
  destruct (getIndependentConstraints_ok q Ho) as (closure & required & rest & E & Hq & Hsplit).
  { eapply list.Forall_impl; [exact Hc|]. by intros e [H _]. }
  exists closure, required. split; [done|]. pose proof Hsplit as (Hp & Hs1 & Hs2).
  split; [by exists rest, (covers closure)|]. assert (Hsub : forall init, model (constraints q) init -> model required init).
  { intros init [H1 H2]. split; [done|]. rewrite <- Hp in H2. by apply Forall_app in H2 as [H2 _]. }
  assert (Hfull : forall init1, model required init1 -> exists init, model (constraints q) init /\ eval init (query q) = eval init1 (query q)).
  { intros init1 H1. destruct (split_models _ _ _ _ init1 init0 Hsplit H1 Hm0) as (init & Hm & He). exists init. split; [done|by apply He]. }
  split; [split|done|]; cbn [constraints query].
  - rewrite <- Hp in Hc. by apply Forall_app in Hc as [Hc _].
  - exists init0. by apply Hsub.
  - done.
  - intros init1 H1. destruct (Hfull init1 H1) as (init & Hm & He). cbn. rewrite <- He. by apply Hd.
  - apply Forall_cons_iff in Ht as [Ht1 Ht2]. constructor; [done|]. rewrite <- Hp in Ht2. by apply Forall_app in Ht2 as [Ht2 _].
  - intros v. split.
    + intros (init1 & H1 & He1). destruct (Hfull init1 H1) as (init & Hm & He). exists init. split; [done|]. by rewrite He.
    + intros (init & Hm & He). exists init. split; [by apply Hsub|done].
Qed.

(** C24. The constraints the independent solver gives on are among those of the query, and the
    expression has the same values, and is valid in the same cases, under them as under all
    constraints. *)
Theorem independent_same_answers q : good q ->
  exists closure required, getIndependentConstraints q = Ret (closure, required) /\ required ⊆+ constraints q /\
    (valid (MkQuery required (query q)) <-> valid q) /\ (never (MkQuery required (query q)) <-> never q) /\
    forall v, value_of (MkQuery required (query q)) v <-> value_of q v.
Proof.
  intros Hg. destruct (required_ok q Hg) as (closure & required & E & _ & Hs). exists closure, required. split; [done|].
  destruct (getIndependentConstraints_ok q) as (c & r & rest & E' & _ & Hp & _); [apply Hg| |].
  { eapply list.Forall_impl; [apply (go_cs q Hg)|]. by intros e [H _]. }
  rewrite E in E'. injection E' as <- <-. split_and!.
  - rewrite <- Hp. by apply submseteq_inserts_r.
  - by apply same_valid.
  - by apply same_never.
  - apply (sa_value _ _ Hs).
Qed.
End Independent.
End IndepMain.
