(* ===== verification/IndepSpec.v ===== *)
(** * The initial values of the independent solver

The independent factors ([IndepFactors]), their solutions put together ([IndepValues]) and
    what the whole method answers ([IndepSpec]). *)
From stdpp Require Import base gmap list sets fin_maps strings numbers relations.
From Stdlib Require Import ZArith Lia Sorting.Sorted.
From S2P Require Import Prelude ExprData ExprFacts ExprCreate ExprSound ExprEval ExprMain ExprUtil ConstraintsMain.
From S2P Require Import Solver SolverOk IndepSolver IndepOk ExprTotal StpSolver.

(** * The independent solver: factors

    The constraints are split into factors that have no cell in common; every constraint is
    in one of them. *)
Module IndepFactors.
Import Expr ExprFacts Create Sound ExprMain ExprUtil ConstraintsMain Solver SolverOk IndepSolver IndepOk IndepMain.
Implicit Types ies a b c f : IndependentElementSet.

(** ** Sets of cells within arrays of bytes *)
Definition in_array (arr : array) (dis : DenseSet) : Prop := byte_array arr /\ forall i, i ∈ dis -> 0 <= i < size arr.
Record fine ies : Prop := {
  fi_whole arr : arr ∈ wholeObjects ies -> byte_array arr;
  fi_elems arr dis : elems ies !! arr = Some dis -> in_array arr dis
}.
Lemma record_read_fine ies r ies' :
  fine ies -> width_ok r = true ->
  (forall root head index, r = Read root head index -> range root = 8 /\ forall w v, index = Constant w v -> v < size root) ->
  record_read ies r = Ret ies' -> fine ies'.
Proof.
  intros [F1 F2] Hok Ht. destruct r as [| |arr head index| | | | | | |]; try done. destruct (Ht _ _ _ eq_refl) as [Hr Hv].
  assert (Hb : byte_array arr) by (simpl in Hok; by split_ok). cbn [record_read].
  destruct (_ && _); [by intros [= <-]|]. case_bool_decide as Hw; [by intros [= <-]|].
  assert (Hwhole : forall ies', Ret (MkSet (delete arr (elems ies)) ({[arr]} ∪ wholeObjects ies) (exprs ies)) = Ret ies' -> fine ies').
  { intros ? [= <-]. split; cbn [elems wholeObjects].
    - intros arr' [->%elem_of_singleton|H]%elem_of_union; [done|by apply F1].
    - intros arr' dis [_ H]%lookup_delete_Some. by apply F2. }
  destruct index as [w v| | | | | | | | |]; try exact (Hwhole ies').
  destruct (32 <? w) eqn:Ew; [done|]. intros [= <-]. split; cbn [elems wholeObjects]; [done|].
  simpl in Hok. split_ok. assert (Hw32 : w <= 32) by lia.
  assert (Hv0 : 0 <= v < 4294967296).
  { match goal with H : fits w v = true |- _ => apply fits_iff in H end.
    pose proof (Z.pow_le_mono_r 2 w 32 ltac:(lia) ltac:(lia)). change (2 ^ 32) with 4294967296 in *. lia. }
  specialize (Hv w v eq_refl). rewrite (u32_small v Hv0). intros arr' dis.
  rewrite lookup_insert_Some. intros [[<- <-]|[_ Hd]]; [|by apply F2]. split; [done|].
  intros i [->%elem_of_singleton|Hi]%elem_of_union; [lia|]. destruct (elems ies !! arr) as [d|] eqn:E; [|by apply not_elem_of_empty in Hi].
  by apply (F2 arr d E).
Qed.
Lemma record_reads_fine reads : forall ies ies',
  fine ies -> Forall (fun r => width_ok r = true /\ forall root head index, r = Read root head index ->
    range root = 8 /\ forall w v, index = Constant w v -> v < size root) reads ->
  record_reads ies reads = Ret ies' -> fine ies'.
Proof.
  induction reads as [|r reads IH]; intros ies ies' Hf H; cbn [record_reads]; [by intros [= <-]|].
  apply Forall_cons_iff in H as [[H1 H2] H]. destruct (record_read ies r) as [a|] eqn:E; cbn [mbind result_bind]; [|done].
  apply IH; [by apply (record_read_fine ies r a)|done].
Qed.
Lemma newSet_fine e ies : width_ok e = true -> tidy e -> newSet e = Ret ies -> fine ies.
Proof.
  intros Hok [_ Ht]. unfold newSet. destruct (findReads_ok true e (S (nodes e)) ltac:(lia)) as (rs & -> & _ & Hrs). cbn [mbind result_bind].
  apply record_reads_fine.
  - split; cbn [elems wholeObjects]; [set_solver|]. intros arr dis H. by rewrite lookup_empty in H.
  - apply list.Forall_forall. intros r [_ H]%Hrs. split; [by apply (width_ok_occurs e)|]. intros root head index ->. by apply (Ht (Read root head index)).
Qed.
Lemma add_whole_fine st arr : byte_array arr -> fine st.2 -> fine (add_whole st arr).2.
Proof.
  destruct st as [m a]. intros Hb [F1 F2]. unfold add_whole. destruct (elems a !! arr); [|case_bool_decide; [done|]];
    (split; cbn [fst snd elems wholeObjects]; [intros x [->%elem_of_singleton|H']%elem_of_union; [done|by apply F1]|]).
  - intros x dis [_ H]%lookup_delete_Some. by apply F2.
  - done.
Qed.
Lemma add_elements_fine st x : in_array x.1 x.2 -> fine st.2 -> fine (add_elements st x).2.
Proof.
  destruct st as [m a], x as [arr dis]. intros Hb [F1 F2]. simpl in Hb. unfold add_elements. case_bool_decide; [done|].
  destruct (elems a !! arr) as [s|] eqn:E.
  - destruct (dense_add s dis) as [m' s'] eqn:Ed. destruct (dense_add_ok _ _ _ _ Ed) as [-> _]. split; cbn [snd elems wholeObjects]; [done|].
    intros x d. rewrite lookup_insert_Some. intros [[<- <-]|[_ Hd]]; [|by apply F2]. split; [apply Hb|].
    intros i [Hi|Hi]%elem_of_union; [by apply (F2 arr s E)|by apply Hb].
  - split; cbn [snd elems wholeObjects]; [done|]. intros x d. rewrite lookup_insert_Some. intros [[<- <-]|[_ Hd]]; [done|by apply F2].
Qed.
Lemma add_fine a b m c : fine a -> fine b -> add a b = (m, c) -> fine c.
Proof.
  intros Ha [B1 B2]. unfold add. set (a0 := MkSet _ _ _). assert (H0 : fine a0) by (by destruct Ha).
  assert (Hf : forall A (g : bool * IndependentElementSet -> A -> bool * IndependentElementSet) l st,
    (forall st x, x ∈ l -> fine st.2 -> fine (g st x).2) -> fine st.2 -> fine (foldl g st l).2).
  { intros A g l. induction l as [|x l IH]; intros st Hg Hs; simpl; [done|]. apply IH; [|apply Hg; [left|done]].
    intros st' y Hy. apply Hg. by right. }
  intros E. change c with (m, c).2. rewrite <- E. apply Hf.
  - intros st [arr dis] Hx. apply add_elements_fine. simpl. apply B2. by apply elem_of_map_to_list in Hx.
  - apply Hf; [|done]. intros st arr Hx. apply add_whole_fine. apply B1. by apply elem_of_elements in Hx.
Qed.

(** ** Factors *)
Record ready f : Prop := {
  re_supports : Forall (supports (covers f)) (exprs f);
  re_some : exprs f <> [];
  re_fine : fine f
}.
Abbreviation all_exprs fs := (concat (exprs <$> fs)).
Abbreviation separate := (StronglySorted (fun a b => intersects a b = false)).

Record absorbed (factors : list IndependentElementSet) current (m : bool) current' keep : Prop := {
  ab_perm : exprs current' ++ all_exprs keep ≡ₚ exprs current ++ all_exprs factors;
  ab_ready : ready current';
  ab_keep : Forall ready keep;
  ab_sub k : k ∈ keep -> k ∈ factors;
  ab_same : m = false -> same_cells current' current /\ Forall (fun k => intersects current' k = false) keep;
  ab_length : (length keep <= length factors)%nat;
  ab_less : m = true -> (length keep < length factors)%nat
}.
Lemma add_ready a b m c : ready a -> ready b -> add a b = (m, c) -> ready c.
Proof.
  intros [A1 A2 A3] [B1 B2 B3] E. destruct (union_ok _ _ _ _ E) as (Hc & He & _). split; [| |by apply (add_fine a b m c)].
  - rewrite He. apply Forall_app. split.
    + eapply list.Forall_impl; [exact A1|]. intros e. apply supports_mono. intros arr i H. apply Hc. by left.
    + eapply list.Forall_impl; [exact B1|]. intros e. apply supports_mono. intros arr i H. apply Hc. by right.
  - rewrite He. by destruct (exprs a).
Qed.
Lemma absorb_ok factors : forall current,
  Forall ready factors -> ready current ->
  exists m current' keep, absorb factors current = (m, current', keep) /\ absorbed factors current m current' keep.
Proof.
  induction factors as [|x factors IH]; intros current Hf Hc; cbn [absorb].
  { exists false, current, []. split; [done|]. by split. }
  apply Forall_cons_iff in Hf as [Hx Hf]. destruct (intersects current x) eqn:Ei.
  - destruct (add current x) as [m1 c1] eqn:Ea. destruct (union_ok _ _ _ _ Ea) as (_ & He & Hsame).
    destruct (IH c1 Hf) as (m & c' & keep & -> & [A B C S D E F]); [by apply (add_ready current x m1)|].
    exists (m1 || m), c', keep. split; [done|]. split; [|done|done|intros k Hk; right; by apply S| |simpl; lia|simpl; lia].
    + rewrite A, He. simpl. by rewrite <- app_assoc.
    + intros [-> ->]%orb_false_iff. destruct (D eq_refl) as [[D1 D2] D3]. destruct (Hsame eq_refl) as [S1 S2]. split; [split; congruence|done].
  - destruct (IH current Hf Hc) as (m & c' & keep & -> & [A B C S D E F]).
    exists m, c', (x :: keep). split; [done|]. split; [|done|by constructor| | |simpl; lia|intros H; specialize (F H); simpl; lia].
    + simpl. rewrite (Permutation_app_swap_app (exprs c')), A. by rewrite (Permutation_app_swap_app (exprs x)).
    + intros k [->|Hk]%elem_of_cons; [left|right; by apply S].
    + intros H. destruct (D H) as [D1 D2]. split; [done|]. constructor; [|done]. destruct D1 as [D1 D1'].
      unfold intersects in *. by rewrite D1, D1'.
Qed.
Lemma factors_pass_ok fuel : forall factors,
  Forall ready factors -> (length factors <= fuel)%nat ->
  exists m fs, factors_pass fuel factors = Ret (m, fs) /\ all_exprs fs ≡ₚ all_exprs factors /\ Forall ready fs /\
    (length fs <= length factors)%nat /\ (m = true -> (length fs < length factors)%nat) /\
    (m = false -> separate fs /\ forall a, Forall (fun k => intersects a k = false) factors -> Forall (fun k => intersects a k = false) fs).
Proof.
  induction fuel as [|fuel IH]; intros [|current factors] Hf Hl; try (simpl in Hl; lia);
    try (by exists false, []; split_and!; [..|intros _; split; [constructor|done]]).
  apply Forall_cons_iff in Hf as [Hc Hf]. cbn [factors_pass].
  destruct (absorb_ok factors current Hf Hc) as (m & c & keep & -> & [A B C S D E F]).
  destruct (IH keep C) as (m' & fs & -> & G1 & G2 & G3 & G4 & G5); [simpl in Hl; lia|]. cbn [mbind result_bind].
  exists (m || m'), (c :: fs). split_and!; [done| |by constructor|simpl; lia| |].
  - simpl. by rewrite G1, A.
  - intros [H|H]%orb_prop; [specialize (F H)|specialize (G4 H)]; simpl; lia.
  - intros [H1 H2]%orb_false_iff. destruct (D H1) as [[D1 D2] D3]. destruct (G5 H2) as [G6 G7]. split.
    + constructor; [done|]. by apply G7.
    + intros a Ha. apply Forall_cons_iff in Ha as [Ha1 Ha2]. constructor.
      * unfold intersects in *. by rewrite D1, D2.
      * apply G7. rewrite list.Forall_forall in Ha2 |- *. intros k Hk. by apply Ha2, S.
Qed.
Lemma factors_loop_ok fuel : forall factors,
  Forall ready factors -> (length factors < fuel)%nat ->
  exists fs, factors_loop fuel factors = Ret fs /\ all_exprs fs ≡ₚ all_exprs factors /\ Forall ready fs /\ separate fs.
Proof.
  induction fuel as [|fuel IH]; [lia|]. intros factors Hf Hl. cbn [factors_loop].
  destruct (factors_pass_ok (length factors) factors Hf ltac:(lia)) as (m & fs & -> & G1 & G2 & G3 & G4 & G5). cbn [mbind result_bind].
  destruct m.
  - destruct (IH fs G2) as (fs' & -> & H1 & H2 & H3); [specialize (G4 eq_refl); lia|]. exists fs'. split_and!; [done|by rewrite H1, G1|done|done].
  - exists fs. split_and!; [done..|by apply G5].
Qed.
Lemma new_sets_ok cs :
  Forall (fun e => width_ok e = true /\ tidy e) cs -> exists fs, new_sets cs = Ret fs /\ all_exprs fs = cs /\ Forall ready fs.
Proof.
  induction cs as [|e cs IH]; intros H; cbn [new_sets]; [by exists []|]. apply Forall_cons_iff in H as [[H1 H2] H].
  destruct (newSet_ok e H1) as (ies & E & He & Hs). rewrite E. cbn [mbind result_bind]. destruct (IH H) as (fs & -> & G1 & G2).
  cbn [mbind result_bind]. exists (ies :: fs). split_and!; [done|change (exprs ies ++ all_exprs fs = e :: cs); by rewrite He, G1|]. constructor; [|done].
  split; rewrite ?He; [by repeat constructor|done|by apply (newSet_fine e)].
Qed.

(** A factor shares no cell with the other constraints. *)
Lemma all_exprs_split l1 f l2 : all_exprs (l1 ++ f :: l2) ≡ₚ exprs f ++ all_exprs (l1 ++ l2).
Proof. rewrite !fmap_app, !concat_app. change (concat (exprs <$> f :: l2)) with (exprs f ++ all_exprs l2). solve_Permutation. Qed.
Lemma factor_apart fs f cs : Forall ready fs -> separate fs -> f ∈ fs -> all_exprs fs ≡ₚ cs -> apart (exprs f) cs.
Proof.
  intros Hr Hs (l1 & l2 & ->)%list_elem_of_split Hp. exists (all_exprs (l1 ++ l2)), (covers f).
  rewrite list.Forall_forall in Hr. split; [by rewrite <- Hp, all_exprs_split|]. split; [apply Hr, elem_of_app; right; left|].
  assert (Hg : forall g, g ∈ l1 ++ l2 -> Forall (supports (fun arr i => ~ covers f arr i)) (exprs g)).
  { intros g Hg. assert (Hgf : ready g) by (apply Hr; apply elem_of_app in Hg as [?|?]; apply elem_of_app; [by left|by right; right]).
    eapply list.Forall_impl; [apply (re_supports g Hgf)|]. intros e. apply supports_mono. intros arr i Hc Hf.
    apply elem_of_app in Hg as [Hg|Hg].
    - by apply (intersects_ok g f (sorted_split _ _ _ g f Hs Hg ltac:(left)) arr i).
    - assert (Hfg : intersects f g = false).
      { apply (sorted_split (fun a b => intersects a b = false) (l1 ++ [f]) l2 f g); [by rewrite <- app_assoc|apply elem_of_app; right; left|done]. }
      by apply (intersects_ok f g Hfg arr i). }
  clear -Hg. induction (l1 ++ l2) as [|g l IH]; [by constructor|]. change (all_exprs (g :: l)) with (exprs g ++ all_exprs l).
  apply Forall_app. split; [apply Hg; left|]. apply IH. intros g' Hg'. apply Hg. by right.
Qed.

(** The factors of the constraints and of the negated expression, which is not there when
    the expression is the constant false. *)
Section Query.
Context {con : Contents} {ap : APInt} {ap_ok : APIntOk} (opt : bool).
Lemma factors_ok q : askable q -> not_true q ->
  exists cs fs, conjuncts opt q cs /\ getAllIndependentConstraintsSets opt q = Ret fs /\ all_exprs fs ≡ₚ cs /\
    Forall ready fs /\ separate fs /\ Forall bool_ok cs /\ Forall tidy cs.
Proof.
  intros [A1 A2 A3 A4 A6'] A5. pose proof A6' as [A6q A6]%Forall_cons_iff. unfold getAllIndependentConstraintsSets.
  assert (Hr : Forall (fun e => width_ok e = true /\ tidy e) (constraints q)).
  { rewrite list.Forall_forall in A1, A6 |- *. intros e He. split; [by apply A1|by apply A6]. }
  destruct (new_sets_ok _ Hr) as (rest & -> & R1 & R2). cbn [mbind result_bind].
  destruct (isConstant (query q)) eqn:Hc.
  - destruct (query q) as [w v| | | | | | | | |] eqn:Eq; try done. assert (v = 0) as -> by exact (A5 w v Eq). simpl in A3. subst w. cbn [Z.eqb andb].
    change ((1 =? 1) && (0 =? 0)) with true. cbn [mbind result_bind app].
    destruct (factors_loop_ok (S (length rest)) rest R2 ltac:(lia)) as (fs & -> & G1 & G2 & G3).
    exists (constraints q), fs. split_and!; [by left|done|by rewrite G1, R1|done..].
  - destruct (negate_ok opt q A2 A3) as (n & En & Ec & Hn1 & Hn2 & _). pose proof (negate_tidy opt q n A6' En) as [T1 _]%Forall_cons_iff.
    destruct (newSet_ok (query n) Hn1) as (ies & E & He & Hs).
    assert (Hneg : (neg ← createIsZero opt (query q); ies ← newSet neg; Ret [ies]) = Ret [ies]).
    { unfold negateExpr in En. destruct (createIsZero opt (query q)) as [x|]; [|done]. cbn [mbind result_bind] in *.
      injection En as <-. cbn [withExpr query] in E. by rewrite E. }
    assert (Hfirst : (match query q with
                      | Constant w v => if (w =? Bool) && (v =? 0) then Ret [] else Stop AssertFailed
                      | e => neg ← createIsZero opt e; ies ← newSet neg; Ret [ies]
                      end) = Ret [ies]) by (by destruct (query q)).
    rewrite Hfirst. cbn [mbind result_bind app].
    assert (Hready : ready ies) by (split; rewrite ?He; [by repeat constructor|done|by apply (newSet_fine (query n))]).
    destruct (factors_loop_ok (S (length (ies :: rest))) (ies :: rest)) as (fs & -> & G1 & G2 & G3); [by constructor|lia|].
    exists (query n :: constraints q), fs. split_and!; [right; by exists n|done| |done|done|by constructor|by constructor].
    rewrite G1. change (exprs ies ++ all_exprs rest ≡ₚ query n :: constraints q). by rewrite He, R1.
Qed.
End Query.
End IndepFactors.

(** * The independent solver: initial values

    The solutions of the factors are put together into one of the whole query: later factors
    overwrite only the cells of their own sets, which no earlier factor depends on. *)
Module IndepValues.
Import Expr ExprFacts Create Sound ExprMain ExprUtil ExprKeep ConstraintsMain Solver SolverOk SolverPoint IndepSolver IndepOk IndepMain IndepFactors.
Implicit Types f g : IndependentElementSet.
Implicit Types retMap : gmap array (list Z).

(** ** Sets that do not intersect *)
Abbreviation arrays := calculateArrayReferences.
Lemma arrays_in f arr : arr ∈ arrays f <-> arr ∈ wholeObjects f \/ is_Some (elems f !! arr).
Proof. unfold calculateArrayReferences. rewrite elem_of_elements, elem_of_union, elem_of_dom. tauto. Qed.
Lemma existsb_false {A} (p : A -> bool) l x : existsb p l = false -> x ∈ l -> p x = false.
Proof.
  intros H Hx. destruct (p x) eqn:E; [|done]. rewrite <- H. symmetry. apply existsb_exists. exists x. by rewrite <- list_elem_of_In.
Qed.
Lemma intersects_whole g f arr : intersects g f = false -> arr ∈ arrays g -> arr ∉ wholeObjects f.
Proof.
  unfold intersects. intros [H1 H2]%orb_false_iff Hg Hf. apply arrays_in in Hg as [Hg|[d Hd]].
  - pose proof (existsb_false _ _ arr H1 ltac:(by apply elem_of_elements)) as H. apply orb_false_iff in H as [H _].
    by apply bool_decide_eq_false in H.
  - pose proof (existsb_false _ _ (arr, d) H2 ltac:(by apply elem_of_map_to_list)) as H. apply orb_false_iff in H as [H _].
    by apply bool_decide_eq_false in H.
Qed.
Lemma covers_arrays f arr i : covers f arr i -> arr ∈ arrays f.
Proof. intros [H|(d & H & _)]; apply arrays_in; [by left|right; by exists d]. Qed.

(** ** Putting values together *)
Definition newer f retMap (arr : array) (i : Z) : bool :=
  bool_decide (arr ∈ arrays f) && (bool_decide (retMap !! arr = None) || bool_decide (i ∈ default ∅ (elems f !! arr))).

Lemma overwrite_ok ds : forall temp values,
  length temp = length values -> Forall (fun i => 0 <= i < Z.of_nat (length temp)) ds ->
  exists t, overwrite ds temp values = Ret t /\ length t = length temp /\
    forall i, 0 <= i -> t !! Z.to_nat i = if bool_decide (i ∈ ds) then values !! Z.to_nat i else temp !! Z.to_nat i.
Proof.
  induction ds as [|d ds IH]; intros temp values Hl Hd; cbn [overwrite]; [by exists temp|].
  apply Forall_cons_iff in Hd as [Hd Hds]. destruct (lookup_lt_is_Some_2 temp (Z.to_nat d)) as [x Hx]; [lia|].
  destruct (lookup_lt_is_Some_2 values (Z.to_nat d)) as [v Hv]; [lia|]. rewrite Hx, Hv.
  destruct (IH (<[Z.to_nat d := v]> temp) values) as (t & -> & Ht & Hi); [by rewrite length_insert|by rewrite length_insert|].
  exists t. split_and!; [done|by rewrite Ht, length_insert|]. intros i Hi0. rewrite Hi by done.
  destruct (decide (i = d)) as [->|Hne].
  - rewrite (bool_decide_true (d ∈ d :: ds)) by left. rewrite list_lookup_insert_eq by lia. by case_bool_decide.
  - rewrite list_lookup_insert_ne by lia. assert (i ∈ ds <-> i ∈ d :: ds) as H by (rewrite elem_of_cons; tauto).
    by rewrite (bool_decide_ext _ _ H).
Qed.
Lemma merge_ok f init_f init l : forall temps retMap,
  NoDup l -> (forall arr, arr ∈ l -> arr ∈ arrays f) -> fine f -> Forall2 (holds_bytes init_f) l temps ->
  (forall arr bytes, arr ∈ l -> retMap !! arr = Some bytes -> holds_bytes init arr bytes) ->
  exists retMap', merge f l temps retMap = Ret retMap' /\ (forall arr, arr ∉ l -> retMap' !! arr = retMap !! arr) /\
    forall arr, arr ∈ l -> exists bytes, retMap' !! arr = Some bytes /\ holds_bytes (mix (newer f retMap) init_f init) arr bytes.
Proof.
  induction l as [|arr l IH]; intros temps retMap Hnd Hin Hfine Ht Hm.
  { apply Forall2_nil_inv_l in Ht as ->. exists retMap. split_and!; [done|done|]. by intros arr ?%elem_of_nil. }
  apply Forall2_cons_inv_l in Ht as (values & temps' & [Hl Hv] & Ht & ->). apply list.NoDup_cons in Hnd as [Hn Hnd]. cbn [merge].
  assert (Hstep : forall bytes, holds_bytes (mix (newer f retMap) init_f init) arr bytes ->
    exists retMap', merge f l temps' (<[arr := bytes]> retMap) = Ret retMap' /\ (forall a, a ∉ arr :: l -> retMap' !! a = retMap !! a) /\
    forall a, a ∈ arr :: l -> exists bytes, retMap' !! a = Some bytes /\ holds_bytes (mix (newer f retMap) init_f init) a bytes).
  { intros bytes Hb. assert (Hother : forall a, a ∈ l -> <[arr := bytes]> retMap !! a = retMap !! a).
    { intros a Ha. apply lookup_insert_ne. by intros <-. }
    destruct (IH temps' (<[arr := bytes]> retMap) Hnd) as (r & -> & R1 & R2); [intros a Ha; apply Hin; by right|done|done| |].
    { intros a b Ha. rewrite Hother by done. apply Hm. by right. }
    exists r. split_and!; [done| |].
    - intros a Ha. rewrite R1 by (intros H; apply Ha; by right). apply lookup_insert_ne. intros <-. apply Ha. left.
    - intros a [->|Ha]%elem_of_cons.
      + exists bytes. rewrite R1 by done. by rewrite lookup_insert_eq.
      + destruct (R2 a Ha) as (b & Hb1 & Hb2 & Hb3). exists b. split; [done|]. split; [done|]. intros i Hi. rewrite Hb3 by done.
        unfold mix, newer. by rewrite Hother. }
  assert (Ha : arr ∈ arrays f) by (apply Hin; left). destruct (retMap !! arr) as [temp|] eqn:Er.
  - destruct (Hm arr temp ltac:(left) Er) as [Hlt Hvt]. rewrite (proj2 (Nat.eqb_eq _ _)) by lia.
    destruct (overwrite_ok (elements (default ∅ (elems f !! arr))) temp values) as (t & -> & Ht1 & Ht2); [lia| |].
    { apply list.Forall_forall. intros i Hi%elem_of_elements. destruct (elems f !! arr) as [d|] eqn:Ed; [|by apply not_elem_of_empty in Hi].
      simpl in Hi. destruct (fi_elems f Hfine arr d Ed) as [_ Hb]. specialize (Hb i Hi). lia. }
    cbn [mbind result_bind]. apply Hstep. split; [lia|]. intros i Hi. rewrite Ht2 by lia. unfold mix, newer.
    rewrite (bool_decide_true _ Ha), Er. simpl. rewrite (bool_decide_ext _ _ (elem_of_elements (default ∅ (elems f !! arr)) i)).
    case_bool_decide; [by apply Hv|by apply Hvt].
  - apply Hstep. split; [done|]. intros i Hi. rewrite Hv by done. unfold mix, newer. by rewrite (bool_decide_true _ Ha), Er.
Qed.

Section Values.
Context {con : Contents} {sep : Separable} {ap : APInt} {ap_ok : APIntOk} (opt : bool).
Context {St : Type} (may : list expr -> Prop) (solver : SolverImpl St) (inv : St -> Prop) {sok : SolverOk opt may solver inv}.

(** What has been put together for the factors [done_]. *)
Record joined (done_ : list IndependentElementSet) retMap (init : array -> Z -> option Z) : Prop := {
  jo_contents : contents init;
  jo_map arr bytes : retMap !! arr = Some bytes -> byte_array arr /\ holds_bytes init arr bytes;
  jo_zero arr i : byte_array arr -> retMap !! arr = None -> 0 <= i < size arr -> init arr i = Some 0;
  jo_holds g : g ∈ done_ -> Forall (holds init) (exprs g);
  jo_arrays arr : is_Some (retMap !! arr) <-> exists g, g ∈ done_ /\ arr ∈ arrays g
}.
Lemma join_step done_ retMap init f init_f retMap' :
  joined done_ retMap init -> Forall ready done_ -> ready f -> Forall (fun g => intersects g f = false) done_ ->
  model (exprs f) init_f ->
  (forall arr, arr ∉ arrays f -> retMap' !! arr = retMap !! arr) ->
  (forall arr, arr ∈ arrays f -> exists bytes, retMap' !! arr = Some bytes /\ holds_bytes (mix (newer f retMap) init_f init) arr bytes) ->
  joined (done_ ++ [f]) retMap' (mix (newer f retMap) init_f init).
Proof.
  intros [J1 J2 J3 J4 J5] Hd [F1 F2 F3] Hs [M1 M2] R1 R2. rewrite list.Forall_forall in Hs, Hd.
  assert (Hc : contents (mix (newer f retMap) init_f init)) by (by apply contents_mix).
  assert (Hout : forall arr i, arr ∉ arrays f -> mix (newer f retMap) init_f init arr i = init arr i).
  { intros arr i H. apply mix_out. unfold newer. by rewrite bool_decide_false. }
  split; [done| | | |].
  - intros arr bytes H. destruct (decide (arr ∈ arrays f)) as [Ha|Ha].
    + destruct (R2 arr Ha) as (b & Hb & Hh). rewrite H in Hb. injection Hb as <-. split; [|done].
      apply arrays_in in Ha as [Ha|[d Ha]]; [by apply (fi_whole f)|by apply (fi_elems f F3 arr d)].
    + rewrite R1 in H by done. destruct (J2 arr bytes H) as (B1 & B2 & B3). split; [done|]. split; [done|]. intros i Hi.
      by rewrite Hout, B3.
  - intros arr i Hb H Hi. destruct (decide (arr ∈ arrays f)) as [Ha|Ha]; [destruct (R2 arr Ha) as (b & Hb' & _); congruence|].
    rewrite Hout by done. apply J3; [done| |done]. by rewrite <- R1.
  - intros g [Hg|Hg]%elem_of_app.
    + specialize (J4 g Hg). destruct (Hd g Hg) as [G1 _ _]. rewrite list.Forall_forall in J4, G1 |- *. intros e He. unfold holds.
      rewrite (G1 e He _ init); [by apply J4|by apply contents_ends..|]. intros arr i Hi. apply mix_out.
      destruct (newer f retMap arr i) eqn:En; [|done]. exfalso. unfold newer in En.
      apply andb_prop in En as [E1%bool_decide_eq_true [E2%bool_decide_eq_true|E2%bool_decide_eq_true]%orb_prop].
      * destruct (proj2 (J5 arr)) as [b Hb]; [exists g; split; [done|by eapply covers_arrays]|]. congruence.
      * apply (intersects_ok g f (Hs g Hg) arr i Hi). right. destruct (elems f !! arr) as [d|]; [by exists d|by apply not_elem_of_empty in E2].
    + apply list_elem_of_singleton in Hg as ->. rewrite list.Forall_forall in M2, F1 |- *. intros e He. unfold holds.
      rewrite (F1 e He _ init_f); [by apply M2|by apply contents_ends..|]. intros arr i Hi. apply mix_in. unfold newer.
      rewrite bool_decide_true by (by eapply covers_arrays). simpl. apply orb_true_iff. destruct Hi as [Hi|(d & Hd' & Hi)].
      * left. apply bool_decide_eq_true. destruct (retMap !! arr) eqn:Er; [|done]. exfalso.
        destruct (proj1 (J5 arr)) as (g & Hg & Ha); [by eexists|]. by apply (intersects_whole g f arr (Hs g Hg) Ha).
      * right. apply bool_decide_eq_true. by rewrite Hd'.
  - intros arr. destruct (decide (arr ∈ arrays f)) as [Ha|Ha].
    + destruct (R2 arr Ha) as (b & -> & _). split; [|done]. intros _. exists f. split; [apply elem_of_app; right; left|done].
    + rewrite R1 by done. rewrite J5. split; intros (g & Hg & Hga).
      * exists g. split; [apply elem_of_app; by left|done].
      * apply elem_of_app in Hg as [Hg|Hg]; [by exists g|]. by apply list_elem_of_singleton in Hg as ->.
Qed.
Lemma join_closed done_ retMap init f :
  joined done_ retMap init -> ready f -> arrays f = [] -> Forall open_or_true (exprs f) -> joined (done_ ++ [f]) retMap init.
Proof.
  intros [J1 J2 J3 J4 J5] [F1 _ _] Ha Ho.
  assert (Hno : forall arr i, ~ covers f arr i) by (intros arr i Hc%covers_arrays; rewrite Ha in Hc; by apply elem_of_nil in Hc).
  split; [done|done|done| |].
  - intros g [Hg|Hg]%elem_of_app; [by apply J4|]. apply list_elem_of_singleton in Hg as ->.
    rewrite list.Forall_forall in F1, Ho |- *. intros e He. unfold holds.
    assert (Hsame : forall init init', contents init -> contents init' -> eval init e = eval init' e).
    { intros i1 i2 H1 H2. apply (F1 e He); [by apply contents_ends..|]. intros arr i Hi. by apply Hno in Hi. }
    destruct (Ho e He Hsame) as (i1 & H1 & H2). by rewrite (Hsame init i1).
  - intros arr. rewrite J5. split; intros (g & Hg & Hga).
    + exists g. split; [apply elem_of_app; by left|done].
    + apply elem_of_app in Hg as [Hg|Hg]; [by exists g|]. apply list_elem_of_singleton in Hg as ->. rewrite Ha in Hga. by apply elem_of_nil in Hga.
Qed.
Lemma join_start : exists init, joined [] ∅ init.
Proof.
  destruct contents_zero as (z & Hz & H0). exists z. split; [done|by intros ? ? ?| |by intros ? ?%elem_of_nil|].
  - intros arr i Hb _ Hi. by apply H0.
  - intros arr. rewrite lookup_empty. split; [by intros [? ?]|]. by intros (g & ?%elem_of_nil & _).
Qed.

Definition no_solution (es : list expr) : Prop := forall init, ~ model es init.
Lemma inner_askable es : Forall bool_ok es -> Forall tidy es -> askable (MkQuery es (Constant 1 0)).
Proof.
  intros H1 H2. split; cbn [constraints query]; [done|done|done| |].
  - intros init _. by eexists.
  - constructor; [apply (he_constant tidy tidy_hereditary)|done].
Qed.
Lemma inner_conjuncts es cs : conjuncts opt (MkQuery es (Constant 1 0)) cs -> cs = es.
Proof. by intros [[_ ->]|(n & _ & ? & _)]. Qed.
Lemma solve_factors_ok factors : forall done_ retMap init s,
  joined done_ retMap init -> Forall ready done_ -> separate (done_ ++ factors) -> Forall ready factors ->
  Forall (fun f => Forall bool_ok (exprs f) /\ Forall tidy (exprs f) /\ Forall open_or_true (exprs f) /\ may (exprs f)) factors -> inv s ->
  runs (solve_factors solver factors retMap) s (fun r s' => inv s' /\ forall a, r = Some a ->
    match a with
    | Some retMap' => exists init', joined (done_ ++ factors) retMap' init'
    | None => exists f, f ∈ factors /\ no_solution (exprs f)
    end).
Proof.
  induction factors as [|f factors IH]; intros done_ retMap init s Hj Hd Hsep Hr Hall Hs; cbn [solve_factors].
  { apply runs_ret. split; [done|]. intros a [= <-]. exists init. by rewrite app_nil_r. }
  apply Forall_cons_iff in Hr as [Hf Hr]. apply Forall_cons_iff in Hall as [(B1 & B2 & B3 & B4) Hall].
  eapply runs_step; [apply (runs_assert _ _ (fun _ s' => s' = s))|]; [destruct Hf as [_ F2 _]; by destruct (exprs f)|done|].
  intros [] s0 ->. assert (Hnext : forall retMap' init' s', joined (done_ ++ [f]) retMap' init' -> inv s' ->
    runs (solve_factors solver factors retMap') s' (fun r s' => inv s' /\ forall a, r = Some a ->
    match a with
    | Some retMap' => exists init', joined (done_ ++ f :: factors) retMap' init'
    | None => exists g, g ∈ f :: factors /\ no_solution (exprs g)
    end)).
  { intros retMap' init' s' Hj' Hs'. eapply runs_mono; [apply (IH (done_ ++ [f]) retMap' init'); [done| |by rewrite <- app_assoc|done|done|done]|].
    - apply Forall_app. by split; [|constructor].
    - intros r s'' [H1 H2]. split; [done|]. intros a Ha. specialize (H2 a Ha). rewrite <- app_assoc in H2.
      destruct a; [done|]. destruct H2 as (g & Hg & Hno). exists g. split; [by right|done]. }
  destruct (arrays f) as [|arr0 l0] eqn:Ea; [by apply (Hnext retMap init); [apply join_closed|]|]. rewrite <- Ea. clear Ea arr0 l0.
  eapply runs_step; [apply (initial_ok opt (MkQuery (exprs f) (Constant Bool 0)) (arrays f)); [by apply inner_askable|by intros w v [= _ <-]|by intros cs ->%inner_conjuncts| |done]|].
  { apply list.Forall_forall. intros arr [H|[d H]]%arrays_in; [by apply (fi_whole f (re_fine _ Hf))|by apply (fi_elems f (re_fine _ Hf) arr d)]. }
  intros [[[] temps]|] s1 [Hs1 Hsol]; [|apply runs_ret; split; [done|]; intros a [= <-]|by apply runs_ret].
  - destruct (Hsol _ eq_refl) as (init_f & Hm & _ & Hf2).
    eapply runs_step; [apply (runs_assert _ _ (fun _ s' => s' = s1)); [|done]|].
    { apply Nat.eqb_eq. symmetry. by eapply Forall2_length. }
    intros [] s2 ->. destruct (merge_ok f init_f init (arrays f) temps retMap) as (r & -> & R1 & R2).
    + unfold calculateArrayReferences. apply NoDup_elements.
    + done.
    + apply Hf.
    + exact Hf2.
    + intros arr bytes _ H. by apply (jo_map _ _ _ Hj).
    + apply (Hnext r (mix (newer f retMap) init_f init)); [|done]. apply join_step; try done. apply list.Forall_forall. intros g Hg. by eapply (sorted_split _ _ _ g f Hsep Hg); left.
  - exists f. split; [left|]. intros init' Hm. by apply (Hsol _ eq_refl init' Hm).
Qed.
End Values.
End IndepValues.

(** * The independent solver implements the promise of a solver

    Truth, validity and values by the required constraints, initial values by the factors;
    the point that is put together satisfies the query, as the code asserts. *)
Module IndepSpec.
Import Expr ExprFacts Create Sound ExprMain ExprUtil ConstraintsMain Solver SolverOk SolverPoint IndepSolver IndepOk IndepMain IndepFactors IndepValues.
Implicit Types f g : IndependentElementSet.
Implicit Types retMap : gmap array (list Z).

Section Spec.
Context {con : Contents} {sep : Separable} {ap : APInt} {ap_ok : APIntOk} (opt : bool).
Context {St : Type} (may : list expr -> Prop) (solver : SolverImpl St) (inv : St -> Prop) {sok : SolverOk opt may solver inv}.

(** ** The point that is created *)
Definition object_values retMap (objects : list array) : list (list Z) :=
  (fun arr => default (replicate (Z.to_nat (size arr)) 0) (retMap !! arr)) <$> objects.
Lemma object_bytes fs retMap init objects :
  joined fs retMap init -> Forall byte_array objects -> Forall2 (holds_bytes init) objects (object_values retMap objects).
Proof.
  intros J Ho. assert (Hval : forall arr, byte_array arr -> holds_bytes init arr (default (replicate (Z.to_nat (size arr)) 0) (retMap !! arr))).
  { intros arr Ha. destruct (retMap !! arr) as [bytes|] eqn:Er; simpl; [by destruct (jo_map _ _ _ J arr bytes Er)|].
    pose proof Ha as [Ha' _]. unfold array_ok in Ha'. split_ok. split; [rewrite length_replicate; lia|]. intros i Hi.
    rewrite lookup_replicate_2 by lia. symmetry. by apply (jo_zero _ _ _ J). }
  apply Forall2_fmap_r, Forall_Forall2_diag. eapply list.Forall_impl; [exact Ho|]. exact Hval.
Qed.
Lemma bind_ok init objects values retMap :
  Forall byte_array objects -> Forall2 (holds_bytes init) objects values ->
  (forall arr bytes, retMap !! arr = Some bytes -> byte_array arr /\ holds_bytes init arr bytes) ->
  forall arr, match bind_objects objects values retMap arr with
              | Some bytes => byte_array arr /\ holds_bytes init arr bytes
              | None => retMap !! arr = None
              end.
Proof.
  intros Ho Hv Hm arr. unfold bind_objects. destruct (Evaluator.bind objects values arr) as [bytes|] eqn:E.
  - by apply (bind_holds init objects values).
  - destruct (retMap !! arr) eqn:Er; [by apply Hm|done].
Qed.

Lemma all_true_ok a es : Forall (fun e => Evaluator.evaluate opt a e = Ret (Constant 1 1)) es -> all_true opt a es = Ret true.
Proof. induction 1 as [|e es He _ IH]; cbn [all_true]; [done|]. rewrite He. exact IH. Qed.

Lemma assertion_ok q cs fs retMap init objects values :
  conjuncts opt q cs -> all_exprs fs ≡ₚ cs -> Forall ready fs -> Forall bool_ok cs -> Forall tidy cs ->
  joined fs retMap init -> Forall byte_array objects -> Forall2 (holds_bytes init) objects values ->
  assertCreatedPointEvaluatesToTrue opt q objects values retMap = Ret true.
Proof.
  intros Hcs Hp Hr Hb Ht J Ho Hv. unfold assertCreatedPointEvaluatesToTrue.
  set (a := Evaluator.MkAssignment true _). pose proof (bind_ok init objects values retMap Ho Hv (jo_map _ _ _ J)) as Hbind.
  assert (Hpoint : point_of a init).
  { intros arr bytes Hab. specialize (Hbind arr). unfold a in Hab. cbn in Hab. by rewrite Hab in Hbind. }
  assert (Hall : Forall (fun e => Evaluator.evaluate opt a e = Ret (Constant 1 1)) cs).
  { rewrite list.Forall_forall in Hr. rewrite list.Forall_forall in Hb, Ht |- *. intros e He. destruct (Hb e He) as [He1 He2]. rewrite <- He2 at 1.
    pose proof (jo_contents _ _ _ J) as Hc. apply (point_value opt a init); [done|done|done|by apply Ht|].
    assert (Hin : e ∈ all_exprs fs) by (by rewrite Hp). apply list_elem_of_In, in_concat in Hin as (l & Hl & Hel).
    apply list_elem_of_In in Hl, Hel. apply list_elem_of_fmap in Hl as (g & -> & Hg).
    pose proof (jo_holds _ _ _ J g Hg) as Hh. rewrite list.Forall_forall in Hh. rewrite <- (Hh e Hel).
    destruct (Hr g Hg) as [Hs _ _]. rewrite list.Forall_forall in Hs. apply (Hs e Hel); [|by apply contents_ends|].
    { intros arr i _ Hs'. unfold bound. destruct (Evaluator.bindings a arr); [|done]. by apply contents_end. }
    intros arr i Hi. unfold bound. destruct (Evaluator.bindings a arr) eqn:Eb; [done|]. exfalso. specialize (Hbind arr).
    unfold a in Eb. cbn in Eb. rewrite Eb in Hbind. destruct (proj2 (jo_arrays _ _ _ J arr)) as [x Hx]; [|congruence].
    exists g. split; [done|by eapply covers_arrays]. }
  destruct Hcs as [[Hq ->]|(n & Hn & _ & ->)].
  - rewrite all_true_ok by done. cbn [mbind result_bind negb]. rewrite Hq.
    assert (createIsZero opt (Constant Bool 0) = Ret (Constant 1 1)) as ->; [|done].
    unfold createIsZero. cbn [getWidth]. unfold create_Eq, bcreate_r. cbn [getWidth].
    change (negb (1 =? 1)) with false. unfold const_binary. by rewrite (ap_binary_ok Eq 1 0 0 1).
  - apply Forall_cons_iff in Hall as [Hn1 Hall]. rewrite all_true_ok by done. cbn [mbind result_bind negb].
    unfold negateExpr in Hn. destruct (createIsZero opt (query q)) as [z|]; [|done]. cbn [mbind result_bind] in *.
    injection Hn as <-. cbn [withExpr query] in Hn1. by rewrite Hn1.
Qed.

(** ** Initial values *)
Lemma factor_exprs fs (P : expr -> Prop) : Forall P (all_exprs fs) -> Forall (fun f => Forall P (exprs f)) fs.
Proof.
  induction fs as [|f fs IH]; [by constructor|]. change (all_exprs (f :: fs)) with (exprs f ++ all_exprs fs).
  intros [H1 H2]%Forall_app. constructor; [done|by apply IH].
Qed.
Lemma joined_model q cs fs retMap init :
  conjuncts opt q cs -> all_exprs fs ≡ₚ cs -> askable q -> joined fs retMap init ->
  model (constraints q) init /\ eval init (query q) = Some 0.
Proof.
  intros Hcs Hp Ha J. assert (Hall : Forall (holds init) cs).
  { rewrite <- Hp. pose proof (jo_holds _ _ _ J) as H. clear -H. induction fs as [|f fs IH]; [by constructor|].
    change (all_exprs (f :: fs)) with (exprs f ++ all_exprs fs). apply Forall_app. split; [apply H; left|].
    apply IH. intros g Hg. apply H. by right. }
  destruct Hcs as [[Hq ->]|(n & Hn & _ & ->)]; [by rewrite Hq; split; [split; [apply J|]|]|].
  apply Forall_cons_iff in Hall as [Hn1 Hall]. assert (Hm : model (constraints q) init) by (split; [apply J|done]). split; [done|].
  destruct (negate_ok opt q (as_ok _ Ha) (as_width _ Ha)) as (n' & En & _ & _ & _ & Hv). rewrite Hn in En. injection En as <-.
  destruct (as_def _ Ha init Hm) as [v Hev]. specialize (Hv init v Hm Hev). unfold holds in Hn1. rewrite Hv in Hn1.
  injection Hn1 as Hn1. rewrite Hev. f_equal. lia.
Qed.
Lemma factor_unsolvable q cs fs f :
  conjuncts opt q cs -> all_exprs fs ≡ₚ cs -> askable q -> f ∈ fs -> no_solution (exprs f) ->
  forall init, model (constraints q) init -> eval init (query q) <> Some 0.
Proof.
  intros Hcs Hp Ha Hf Hno init Hm Hev. apply (Hno init). split; [apply Hm|].
  assert (Hall : Forall (holds init) (all_exprs fs)).
  { rewrite Hp. destruct Hcs as [[_ ->]|(n & Hn & _ & ->)]; [apply Hm|]. constructor; [|apply Hm].
    destruct (negate_ok opt q (as_ok _ Ha) (as_width _ Ha)) as (n' & En & _ & _ & _ & Hv). rewrite Hn in En. injection En as <-.
    by apply (Hv init 0). }
  apply factor_exprs in Hall. rewrite list.Forall_forall in Hall. by apply Hall.
Qed.
Lemma initial_values_ok q objects : askable q -> not_true q -> (forall cs, conjuncts opt q cs -> parts may cs) -> Forall byte_array objects ->
  answers inv (indep_computeInitialValues opt solver q objects) (solution q objects).
Proof.
  intros Ha Hnt Hmay Ho. destruct (factors_ok opt q Ha Hnt) as (cs & fs & Hcs & E & Hp & Hr & Hs & Hb & Ht).
  destruct (Hmay cs Hcs) as [Hop Hpart].
  unfold indep_computeInitialValues. eapply answers_lift; [exact E|]. intros s0 Hs0. destruct join_start as [z Hz].
  eapply runs_step; [apply (solve_factors_ok opt may solver inv fs [] ∅ z); try done|].
  - rewrite <- Hp in Hb, Ht, Hop. apply factor_exprs in Hb, Ht, Hop. rewrite list.Forall_forall in Hb, Ht, Hop |- *.
    intros f Hf. split_and!; [by apply Hb|by apply Ht|by apply Hop|]. apply Hpart. by apply (factor_apart fs).
  - intros [[retMap|]|] s1 [Hs1 H1]; [| |by apply runs_ret].
    + destruct (H1 _ eq_refl) as [init J]. cbn [app] in J. pose proof (object_bytes fs retMap init objects J Ho) as Hv.
      fold (object_values retMap objects). eapply runs_step.
      { apply (runs_lift _ s1 (fun b s' => b = true /\ s' = s1) true); [by eapply assertion_ok|done]. }
      intros b s2 [-> ->]. eapply runs_step; [apply (runs_assert true s1 (fun _ s' => s' = s1)); done|]. intros _ s2 ->.
      apply runs_ret. split; [done|]. intros a [= <-]. destruct (joined_model q cs fs retMap init Hcs Hp Ha J) as [Hm Hq].
      exists init. by split_and!.
    + apply runs_ret. split; [done|]. intros a [= <-]. destruct (H1 _ eq_refl) as (f & Hf & Hno). exact (factor_unsolvable q cs fs f Hcs Hp Ha Hf Hno).
Qed.

(** ** The promise *)
Lemma required_answers {A} (ask : Query -> M St (option A)) (P : Query -> A -> Prop) q :
  good q -> parts may (constraints q) -> (forall q', same_answers q q' -> may (constraints q') -> answers inv (ask q') (P q')) ->
  (forall q' a, same_answers q q' -> P q' a -> P q a) -> answers inv (q' ← required_query q; ask q') (P q).
Proof.
  intros Hg Hpart Hask HP. destruct (required_ok q Hg) as (closure & required & E & Ha & Hs). unfold required_query.
  rewrite E. eapply answers_mono; [exact (Hask _ Hs (pa_may _ _ Hpart _ Ha))|]. intros a. by apply HP.
Qed.
#[export] Instance independent_ok : SolverOk opt (parts may) (IndependentSolver opt solver) inv.
Proof.
  split; cbn [IndependentSolver computeTruth computeValidity computeValue computeInitialValues].
  - intros q Hg Hm Hw. apply (required_answers (computeTruth solver) (fun q b => b = true <-> valid q)); [done|done| |].
    + intros q' Hs Hm'. apply (truth_ok opt); [apply Hs|done|by rewrite (sa_query _ _ Hs)].
    + intros q' b Hs. by rewrite (same_valid q q' Hs Hg).
  - intros q Hg Hm Hw. apply (required_answers (computeValidity solver) validity); [done|done| |].
    + intros q' Hs Hm'. apply (validity_ok opt); [apply Hs|done|by rewrite (sa_query _ _ Hs)].
    + intros q' v Hs. by apply same_validity.
  - intros q Hg Hm. apply (required_answers (computeValue solver) (fun q e => exists v, e = Constant (getWidth (query q)) v /\ value_of q v)); [done|done| |].
    + intros q' Hs Hm'. apply (value_ok opt); [apply Hs|done].
    + intros q' e Hs (v & -> & Hv). exists v. rewrite (sa_query _ _ Hs). split; [done|by apply (sa_value _ _ Hs)].
  - apply initial_values_ok.
Qed.
End Spec.
End IndepSpec.
