(* ===== verification/SolverMain.v ===== *)
(** * Solvers on concrete queries

A solver that tries all inputs ([SolverTable]), and the independent solver over it
    ([SolverMain]). *)
From stdpp Require Import base gmap list sets strings numbers.
From Stdlib Require Import ZArith Lia.
From S2P Require Import Prelude ExprData ExprFacts ExprCreate ExprSound ExprEval ExprMain ExprUtil ConstraintsMain.
From S2P Require Import Solver SolverOk SolverRange ExprTotal IndepSolver IndepOk IndepSpec.

(** * A solver that tries all inputs

    Inputs of which two bytes are unknown and less than four. The solver evaluates the
    constraints and the expression for each of the sixteen: a concrete instance of the
    interface, on which the theorems about solvers are tried. *)
Module SolverTable.
Import Expr ExprFacts Create Sound ExprMain ExprUtil ConstraintsMain Solver SolverOk SolverRange IndepMain.

(** ** The inputs *)
Definition inside (a : array) (i : Z) : bool := array_ok a && (range a =? 8) && (0 <=? i) && (i <? size a).
Definition free (a : array) (i : Z) : bool := bool_decide (a = arr) && (i <? 2).
Definition cell (a : array) (i : Z) (v : option Z) : Prop :=
  if inside a i then exists x, v = Some x /\ 0 <= x < (if free a i then 4 else 1) else v = None.

#[export] Instance small : Contents.
Proof.
  refine {| contents init := forall a i, cell a i (init a i) |}.
  - intros init H a i v Hv. specialize (H a i). unfold cell, inside in H. destruct (array_ok a); [|simpl in H; congruence].
    destruct (Z.eqb_spec (range a) 8) as [-> |]; [|simpl in H; congruence]. apply fits_iff. change (2 ^ 8) with 256.
    destruct (_ && _)%bool; [|congruence]. destruct H as (x & Hx & Hr). destruct (free a i); assert (v = x) by congruence; lia.
  - intros init a i H Hi. specialize (H a i). unfold cell, inside in H. rewrite (proj2 (Z.ltb_ge i (size a))), andb_false_r in H by done. done.
Defined.
Definition input (x y : Z) : array -> Z -> option Z :=
  fun a i => if inside a i then Some (if free a i then if i =? 0 then x else y else 0) else None.
Lemma input_in x y : 0 <= x < 4 -> 0 <= y < 4 -> contents (input x y).
Proof.
  intros Hx Hy a i. unfold cell, input. destruct (inside a i); [|done]. eexists. split; [done|].
  destruct (free a i); [destruct (i =? 0)|]; lia.
Qed.
#[export] Instance small_separable : Separable.
Proof.
  split.
  - intros f i1 i2 H1 H2 a i. unfold mix. destruct (f a i); [apply H1|apply H2].
  - exists (input 0 0). split; [apply input_in; lia|]. intros a i [Ha Hr] Hi. unfold input, inside.
    rewrite Ha, Hr, (proj2 (Z.leb_le 0 i)), (proj2 (Z.ltb_lt i (size a))) by lia. simpl. destruct (free a i), (i =? 0); done.
Qed.

(** Every content is one of the inputs. *)
Definition numbers : list Z := [0; 1; 2; 3].
Definition inputs : list (array -> Z -> option Z) := x ← numbers; y ← numbers; [input x y].
Lemma in_numbers x : x ∈ numbers <-> 0 <= x < 4.
Proof. unfold numbers. rewrite !elem_of_cons, elem_of_nil. lia. Qed.
Lemma in_inputs init : init ∈ inputs <-> exists x y, init = input x y /\ 0 <= x < 4 /\ 0 <= y < 4.
Proof.
  unfold inputs. setoid_rewrite list_elem_of_bind. setoid_rewrite list_elem_of_bind.
  setoid_rewrite list_elem_of_singleton. setoid_rewrite in_numbers. naive_solver.
Qed.
Lemma eval_pointwise init init' e : (forall a i, init a i = init' a i) -> eval init e = eval init' e.
Proof.
  intros H. apply eval_local. assert (Hi : forall a i, initial init a i = initial init' a i).
  { intros a i. unfold initial. by rewrite H. }
  intros r _. destruct r; simpl; auto. by destruct r.
Qed.
Lemma input_of init : contents init -> exists i, i ∈ inputs /\ forall e, eval init e = eval i e.
Proof.
  intros H. assert (Hv : forall i, (i <? 2) = true -> inside arr i = true -> exists x, init arr i = Some x /\ 0 <= x < 4).
  { intros i Hi Hin. pose proof (H arr i) as Hc. unfold cell in Hc. rewrite Hin in Hc. unfold free in Hc. by rewrite bool_decide_true, Hi in Hc. }
  destruct (Hv 0 eq_refl eq_refl) as (x & Ex & Hx). destruct (Hv 1 eq_refl eq_refl) as (y & Ey & Hy).
  exists (input x y). split; [apply in_inputs; by exists x, y|]. intros e. apply eval_pointwise. intros a i.
  specialize (H a i). unfold cell in H. unfold input. destruct (inside a i) eqn:Hin; [|done]. unfold free in *.
  destruct (bool_decide (a = arr)) eqn:Ea; simpl in *; [|destruct H as (z & -> & ?); f_equal; lia].
  apply bool_decide_eq_true in Ea as ->. destruct (Z.ltb_spec i 2) as [Hi|]; [|destruct H as (z & -> & ?); f_equal; lia].
  assert (Hp : 0 <= i) by (unfold inside in Hin; split_ok; lia).
  assert (i = 0 \/ i = 1) as [-> | ->] by lia; [by rewrite Ex|by rewrite Ey].
Qed.

(** ** The solver *)
Definition is_value (init : array -> Z -> option Z) (e : expr) (v : Z) : bool := bool_decide (eval init e = Some v).
Lemma is_value_iff init e v : is_value init e v = true <-> eval init e = Some v.
Proof. apply bool_decide_eq_true. Qed.
Definition solutions (cs : list expr) : list (array -> Z -> option Z) :=
  List.filter (fun init => forallb (fun c => is_value init c 1) cs) inputs.
Definition always (q : Query) (v : Z) : bool := forallb (fun init => is_value init (query q) v) (solutions (constraints q)).
Definition bytes_of (init : array -> Z -> option Z) (a : array) : list Z :=
  (fun i => default 0 (init a (Z.of_nat i))) <$> seq 0 (Z.to_nat (size a)).
Definition table_solver : SolverImpl unit := MkSolverImpl
  (fun q => mret (Some (always q 1)))
  (fun q => mret (Some (if always q 1 then VTrue else if always q 0 then VFalse else VUnknown)))
  (fun q => mret (match solutions (constraints q) with
                  | init :: _ => match eval init (query q) with Some v => Some (Constant (getWidth (query q)) v) | None => None end
                  | [] => None
                  end))
  (fun q objects => mret (Some (match List.find (fun init => is_value init (query q) 0) (solutions (constraints q)) with
                                | Some init => (true, bytes_of init <$> objects)
                                | None => (false, [])
                                end))).

Lemma solutions_in cs init : init ∈ solutions cs <-> init ∈ inputs /\ model cs init.
Proof.
  unfold solutions. rewrite list_elem_of_In, filter_In, <- list_elem_of_In, forallb_forall. split.
  - intros [H1 H2]. split; [done|]. split.
    + apply in_inputs in H1 as (x & y & -> & Hx & Hy). by apply input_in.
    + apply list.Forall_forall. intros c Hc. apply list_elem_of_In in Hc. by apply is_value_iff, H2.
  - intros [H1 [_ H2]]. split; [done|]. intros c Hc. apply list_elem_of_In in Hc. rewrite list.Forall_forall in H2.
    by apply is_value_iff, H2.
Qed.
Lemma model_solution cs init : model cs init -> exists i, i ∈ solutions cs /\ forall e, eval init e = eval i e.
Proof.
  intros [H1 H2]. destruct (input_of init H1) as (i & Hi & He). exists i. split; [|done]. apply solutions_in. split; [done|]. split.
  - apply in_inputs in Hi as (x & y & -> & Hx & Hy). by apply input_in.
  - eapply list.Forall_impl; [exact H2|]. intros c Hc. unfold holds. by rewrite <- He.
Qed.
Lemma always_ok q v : always q v = true <-> forall init, model (constraints q) init -> eval init (query q) = Some v.
Proof.
  unfold always. rewrite forallb_forall. split.
  - intros H init Hm. destruct (model_solution _ init Hm) as (i & Hi & ->). apply list_elem_of_In in Hi.
    by apply is_value_iff, (H i).
  - intros H i Hi. apply list_elem_of_In, solutions_in in Hi as [_ Hm]. by apply is_value_iff, H.
Qed.
Lemma bytes_holds init a : contents init -> byte_array a ->
  Z.of_nat (length (bytes_of init a)) = size a /\ forall i, 0 <= i < size a -> bytes_of init a !! Z.to_nat i = init a i.
Proof.
  intros Hc [Ha Hr]. unfold bytes_of. split.
  - rewrite length_fmap, length_seq. unfold array_ok in Ha. split_ok. lia.
  - intros i Hi. rewrite list_lookup_fmap, lookup_seq_lt by lia. simpl. rewrite Z2Nat.id by lia. specialize (Hc a i).
    unfold cell, inside in Hc. rewrite Ha, Hr, (proj2 (Z.leb_le 0 i)), (proj2 (Z.ltb_lt i (size a))) in Hc by lia.
    by destruct Hc as (x & -> & _).
Qed.
#[export] Instance table_ok opt : SolverOk opt (fun _ => True) table_solver (fun _ => True).
Proof.
  split.
  - intros q _ _ _. apply answers_some, always_ok.
  - intros q _ _ _. apply answers_some. pose proof (always_ok q 1) as H1. pose proof (always_ok q 0) as H0.
    destruct (always q 1); [exact (proj1 H1 eq_refl)|]. destruct (always q 0); [exact (proj1 H0 eq_refl)|].
    split; intros H; [by apply H1 in H|by apply H0 in H].
  - intros q [_ [init Hm] _ Hd _] _. apply answers_ret. intros e He. destruct (solutions (constraints q)) as [|i l] eqn:El; [done|].
    assert (Hi : i ∈ solutions (constraints q)) by (rewrite El; left). apply solutions_in in Hi as [_ Hi].
    destruct (eval i (query q)) as [v|] eqn:Ev; [|done]. injection He as <-. exists v. split; [done|]. by exists i.
  - intros q objects _ _ _ Ho. apply answers_some. destruct (List.find _ _) as [init|] eqn:Ef.
    + apply find_some in Ef as [Hi Hv%bool_decide_eq_true]. apply list_elem_of_In, solutions_in in Hi as [_ Hm]. exists init.
      split_and!; [done|done|]. apply Forall2_fmap_r, Forall_Forall2_diag. eapply list.Forall_impl; [exact Ho|].
      intros a. by apply bytes_holds, Hm.
    + intros init Hm Hv. destruct (model_solution _ init Hm) as (i & Hi & He). apply list_elem_of_In in Hi.
      pose proof (find_none _ _ Ef i Hi) as Hf. simpl in Hf. rewrite He in Hv. by apply bool_decide_eq_false in Hf.
Qed.
#[export] Instance table_reliable : Reliable table_solver (fun _ => True).
Proof. split; intros q; by apply sure_some. Qed.
End SolverTable.

(** * Solvers: the promise of the stack, on concrete queries

    The independent solver implements the interface over any solver that does, and the range
    of an expression computed through it. *)
Module SolverMain.
Import Expr ExprFacts Create Sound ExprMain ExprUtil ExprKeep ConstraintsMain Solver SolverOk SolverRange IndepSolver IndepMain IndepSpec SolverTable.

(** C6. Over a solver that keeps the promise of [SolverImpl] (truth, validity and values under
    the constraints, initial values that are a solution or none) on the constraints [may],
    [IndependentSolver] keeps it on the constraints [parts may]: those whose independent parts
    may be given to the solver below, and of which none that depends on no cell is false.
    There it gives on fewer constraints, solves the independent factors one after the
    other and puts their solutions together, and neither its assertions nor the one that the
    created point is a solution fail. This is less than what the solver below may be asked
    (see [closed_factor]). *)
Theorem independent_refines {con : Contents} {sep : Separable} {ap : APInt} {ap_ok : APIntOk} (opt : bool)
    {St : Type} (may : list expr -> Prop) (solver : SolverImpl St) (inv : St -> Prop) :
  SolverOk opt may solver inv -> SolverOk opt (parts may) (IndependentSolver opt solver) inv.
Proof. intros H. exact (independent_ok opt may solver inv). Qed.

#[export] Instance independent_reliable {con : Contents} {ap : APInt} opt {St : Type} (solver : SolverImpl St) (inv : St -> Prop) :
  Reliable solver inv -> Reliable (IndependentSolver opt solver) inv.
Proof.
  assert (H : forall q' A (ask : Query -> M St (option A)), (forall q, sure inv (ask q)) -> sure inv (q ← required_query q'; ask q)).
  { intros q' A ask Ha s Hs. unfold required_query. destruct (getIndependentConstraints q') as [r|]; [|done]. by apply Ha. }
  intros [H1 H2]. by split; intros q; apply H.
Qed.

(** ** Concrete queries *)
Definition x0 : expr := byte 0.
Definition x1 : expr := byte 1.
Definition below3 (e : expr) : expr := Binary Ult e (Constant 8 3).
Definition positive (e : expr) : expr := Binary Ult (Constant 8 0) e.
(** [0 < x[0] < 3] and [x[1] < 3], asked for [x[0]]. *)
Definition asked : Query := MkQuery [below3 x0; below3 x1; positive x0] x0.
Definition indep : SolverImpl unit := IndependentSolver false table_solver.

Lemma asked_model : model (constraints asked) (input 1 1).
Proof.
  apply solutions_in. unfold solutions. apply list_elem_of_In, filter_In. split; [|done].
  apply list_elem_of_In, in_inputs. exists 1, 1. split; [done|lia].
Qed.
Lemma x_tidy i : 0 <= i < 4 -> tidy (byte i).
Proof.
  intros Hi. split; [done|]. intros x [->|(k & Hk & Ho)]%occurs_parts.
  - split; [done|]. intros w v [= <- <-]. simpl. lia.
  - apply list_elem_of_singleton in Hk as ->. by apply occurs_constant in Ho as ->.
Qed.
Lemma asked_tidy : Forall tidy (query asked :: constraints asked).
Proof.
  pose proof (he_constant tidy tidy_hereditary) as Hc. pose proof (x_tidy 0 ltac:(lia)). pose proof (x_tidy 1 ltac:(lia)).
  assert (Hb : forall k l r, is_div k = false -> tidy l -> tidy r -> tidy (Binary k l r)) by (intros; by apply (keeps_binary tidy tidy_hereditary)).
  unfold asked. cbn [query constraints]. unfold below3, positive. repeat (apply Forall_cons_iff; split); auto.
Qed.
Lemma asked_parts : parts (fun _ => True) (constraints asked).
Proof.
  split; [|done]. apply list.Forall_forall. intros e He _. exists (input 1 1). pose proof asked_model as [H1 H2]. split; [done|].
  rewrite list.Forall_forall in H2. by apply H2.
Qed.
Lemma asked_good : good asked.
Proof.
  split; [by repeat constructor| |done| |exact asked_tidy].
  - exists (input 1 1). exact asked_model.
  - intros init Hm. destruct (model_solution _ init Hm) as (i & Hi & ->). apply solutions_in in Hi as [Hi _].
    apply in_inputs in Hi as (x & y & -> & Hx & Hy). cbn. by eexists.
Qed.
Example required_of_asked :
  (fun r => r.2) <$> (match getIndependentConstraints asked with Ret r => Some r | Stop _ => None end) = Some [below3 x0; positive x0].
Proof. vm_compute. reflexivity. Qed.
Lemma independent_same_answers_witness :
  exists closure, getIndependentConstraints asked = Ret (closure, [below3 x0; positive x0]) /\
    forall v, value_of (MkQuery [below3 x0; positive x0] x0) v <-> value_of asked v.
Proof.
  destruct (independent_same_answers asked asked_good) as (closure & required & E & _ & _ & _ & Hv). exists closure.
  pose proof required_of_asked as Hr. rewrite E in Hr. injection Hr as ->. exact (conj E Hv).
Defined.

(** The factors are those of the two bytes; the first solution of each is taken. *)
Lemma independent_refines_witness :
  SolverOk false (parts (fun _ => True)) indep (fun _ => True) /\
  computeInitialValues indep (MkQuery (constraints asked) (Constant 1 0)) [arr] tt = Ret (Some (true, [[1; 0; 0; 0]]), tt).
Proof.
  split; [|vm_compute; reflexivity]. apply (independent_refines false (fun _ => True) table_solver (fun _ => True)). exact (table_ok false).
Defined.

(** A factor without arrays is passed over: when it is false, here because of the contents of
    a constant array, the created point is not a solution and the assertion fails, where the
    solver below answers that there is none. *)
Definition table : array := Array 8192 "c" 1 32 8 [7].
Definition closed : expr := Binary Eq (Constant 8 5) (Read table Null (Constant 32 0)).
Example closed_factor :
  computeInitialValues table_solver (MkQuery [closed] (Constant 1 0)) [arr] tt = Ret (Some (false, []), tt) /\
  computeInitialValues indep (MkQuery [closed] (Constant 1 0)) [arr] tt = Stop AssertFailed.
Proof. vm_compute. done. Qed.

Example range_of_asked : getRange false indep 65 asked tt = Ret ((Constant 8 1, Constant 8 2), tt).
Proof. vm_compute. reflexivity. Qed.
Lemma getRange_exact_witness :
  getRange false indep 65 asked tt = Ret ((Constant 8 1, Constant 8 2), tt) /\ exact asked (1, 2).
Proof.
  pose proof (independent_ok false (fun _ => True) table_solver (fun _ => True)) as Hok.
  pose proof (runs_value _ _ _ _ _ range_of_asked (getRange_exact false (parts (fun _ => True)) indep (fun _ => True) asked tt asked_good asked_parts ltac:(done) I)) as H.
  destruct H as (_ & lo & hi & E & He). injection E as <- <-. exact (conj range_of_asked He).
Defined.
End SolverMain.
