(* ===== verification/CexCaching.v ===== *)
(** * The solver that remembers solutions

    lib/Solver/CexCachingSolver.cpp: solutions found before are tried before the next solver
    is asked. The cache is keyed by the set of constraints of a query, its negated expression
    among them, and holds a solution or the null pointer for "there is none"; a solution of a
    superset, or "none" of a subset, answers too. *)
From stdpp Require Import base gmap list strings numbers.
From Stdlib Require Import ZArith Lia.
From S2P Require Import Prelude MapOfSets ExprData ExprOrder ExprCreate ExprEval ExprUtil Solver.

Module CexCaching.
Import Orders Expr ExprOrder Create ExprUtil Solver.

(** ** Assignments

    [Assignment::bindings], a [std::map] from the address of an array to its bytes. *)
Abbreviation bindings_ty := (list (array * list Z)).

Section Bindings.
Context {host : Host}.
#[export] Instance array_order : Compare array := fun a b => zcmp (address a) (address b).

(** [std::map::insert]: a key that is there keeps its value. *)
Fixpoint bind_one (arr : array) (bytes : list Z) (m : bindings_ty) : bindings_ty :=
  match m with
  | [] => [(arr, bytes)]
  | (arr', bytes') :: rest =>
      if cmp arr arr' =? 0 then m
      else if cmp arr arr' <? 0 then (arr, bytes) :: m
      else (arr', bytes') :: bind_one arr bytes rest
  end.
(** The constructor from objects and values *)
Fixpoint bind_all (objects : list array) (values : list (list Z)) (m : bindings_ty) : bindings_ty :=
  match objects, values with
  | o :: objects, v :: values => bind_all objects values (bind_one o v m)
  | _, _ => m
  end.
(** [std::map::find] *)
Fixpoint find_binding (arr : array) (m : bindings_ty) : option (list Z) :=
  match m with
  | [] => None
  | (arr', bytes) :: m => if cmp arr arr' =? 0 then Some bytes else find_binding arr m
  end.
Definition assignment (m : bindings_ty) : Evaluator.Assignment := Evaluator.MkAssignment false (fun arr => find_binding arr m).
End Bindings.

(** ** [class CexCachingSolver] *)
Abbreviation KeyType := (list expr).
(** [Assignment *] *)
Abbreviation answer := (option bindings_ty).

Record CexCachingSolver (St : Type) : Type := MkCexCachingSolver {
  cache : MapOfSets.node (K := expr) (V := answer);
  assignmentsTable : list bindings_ty;
  solver : St
}.
Arguments MkCexCachingSolver {St}.
Arguments cache {St}.
Arguments assignmentsTable {St}.
Arguments solver {St}.

(** The command line options. *)
Record Options : Type := MkOptions {
  DebugCexCacheCheckBinding : bool;
  CexCacheTryAll : bool;
  CexCacheSuperSet : bool;
  CexCacheExperimental : bool
}.

Section Caching.
Context {ap : APInt} (ConstArrayOpt : bool) {host : Host} (options : Options) {St : Type} (impl : SolverImpl St).
Abbreviation C := (CexCachingSolver St).

Definition satisfies (m : bindings_ty) (key : KeyType) : result bool := Evaluator.satisfies ConstArrayOpt (assignment m) key.

(** The predicates of the searches, and what a search ends with; a failed assertion during
    the evaluation ends it too. *)
Definition NullAssignment (a : answer) : option (result answer) :=
  match a with None => Some (Ret None) | Some _ => None end.
Definition NonNullAssignment (a : answer) : option (result answer) :=
  match a with None => None | Some m => Some (Ret (Some m)) end.
Definition NullOrSatisfyingAssignment (key : KeyType) (a : answer) : option (result answer) :=
  match a with
  | None => Some (Ret None)
  | Some m =>
      match satisfies m key with
      | Ret true => Some (Ret (Some m))
      | Ret false => None
      | Stop e => Some (Stop e)
      end
  end.
(** The loop over the assignments. *)
Fixpoint first_satisfying (key : KeyType) (table : list bindings_ty) : result (option answer) :=
  match table with
  | [] => Ret None
  | m :: table => s ← satisfies m key; if s : bool then Ret (Some (Some m)) else first_satisfying key table
  end.

(** [None]: no cached result was found. *)
Definition searchForAssignment (key : KeyType) (c : C) : result (option answer) :=
  match MapOfSets.lookup key (cache c) with
  | Some r => Ret (Some r)
  | None =>
      let super := if CexCacheSuperSet options then MapOfSets.findSuperset NonNullAssignment (cache c) key else None in
      let accept := if CexCacheTryAll options then NullAssignment else NullOrSatisfyingAssignment key in
      match (match super with Some r => Some r | None => MapOfSets.findSubset accept (cache c) key end) with
      | Some r => r ← r; Ret (Some r)
      | None => if CexCacheTryAll options then first_satisfying key (assignmentsTable c) else Ret None
      end
  end.
Definition key_of (es : list expr) : KeyType := foldl (fun key e => MapOfSets.set_insert e key) [] es.
(** The key of the query, and the cached result. *)
Definition lookupAssignment (q : Query) (c : C) : result (KeyType * option answer) :=
  let key := key_of (constraints q) in
  neg ← createIsZero ConstArrayOpt (query q);
  match neg with
  | Constant w v =>
      if (w =? Bool) && (v =? 0) then Ret (key, Some None)
      else r ← searchForAssignment key c; Ret (key, r)
  | _ =>
      let key := MapOfSets.set_insert neg key in
      r ← searchForAssignment key c; Ret (key, r)
  end.

(** [std::set::insert] into the table, which returns the element that is there. *)
Definition memoize (m : bindings_ty) : M C unit :=
  modify (fun c => MkCexCachingSolver (cache c) (MapOfSets.set_insert m (assignmentsTable c)) (solver c)).
Definition remember (key : KeyType) (a : answer) : M C unit :=
  modify (fun c => MkCexCachingSolver (MapOfSets.insert key a (cache c)) (assignmentsTable c) (solver c)).
Definition ask {A} (m : M St A) : M C A :=
  zoom solver (fun s c => MkCexCachingSolver (cache c) (assignmentsTable c) s) m.

(** [None]: [false] is returned; else the assignment, null if there is no solution. A null
    pointer that is found in the cache is returned as [false]. *)
Definition getAssignment (q : Query) : M C (option answer) :=
  c ← get;
  l ← lift (lookupAssignment q c);
  match l with
  | (_, Some (Some m)) => mret (Some (Some m))
  | (_, Some None) => mret None
  | (key, None) =>
      let objects := findSymbolicObjects key in
      r ← ask (computeInitialValues impl q objects);
      match r with
      | None => mret None
      | Some (hasSolution, values) =>
          binding ← (if hasSolution : bool then
                       let m := bind_all objects values [] in
                       memoize m;;
                       (if DebugCexCacheCheckBinding options then s ← lift (satisfies m key); if s : bool then mret tt else halt (Exit 1)
                        else mret tt);;
                       mret (Some m)
                     else mret None);
          remember key binding;;
          mret (Some binding)
      end
  end.

Definition evaluated (m : bindings_ty) (e : expr) : M C expr :=
  v ← lift (Evaluator.evaluate ConstArrayOpt (assignment m) e);
  assert_ (isConstant v);;
  mret v.
(** [assert(a && "... must have assignment")] *)
Definition must_have (a : answer) : M C bindings_ty := match a with Some m => mret m | None => halt AssertFailed end.

Definition cex_computeValidity (q : Query) : M C (option Validity) :=
  a ← getAssignment (withFalse q);
  match a with
  | None => mret None
  | Some a =>
      m ← must_have a;
      v ← evaluated m (query q);
      match v with
      | Constant w b =>
          if isTrue w b then
            a ← getAssignment q;
            mret (match a with None => None | Some None => Some VTrue | Some (Some _) => Some VUnknown end)
          else
            n ← lift (negateExpr ConstArrayOpt q);
            a ← getAssignment n;
            mret (match a with None => None | Some None => Some VFalse | Some (Some _) => Some VUnknown end)
      | _ => halt AssertFailed
      end
  end.
Definition cex_computeTruth (q : Query) : M C (option bool) :=
  stop ← (if CexCacheExperimental options then
            n ← lift (negateExpr ConstArrayOpt q);
            c ← get;
            l ← lift (lookupAssignment n c);
            mret (match l.2 with Some None => true | _ => false end)
          else mret false);
  if stop : bool then mret None
  else
    a ← getAssignment q;
    mret (match a with None => None | Some None => Some true | Some (Some _) => Some false end).
Definition cex_computeValue (q : Query) : M C (option expr) :=
  a ← getAssignment (withFalse q);
  match a with
  | None => mret None
  | Some a => m ← must_have a; v ← evaluated m (query q); mret (Some v)
  end.
Definition cex_computeInitialValues (q : Query) (objects : list array) : M C (option (bool * list (list Z))) :=
  a ← getAssignment q;
  mret (match a with
        | None => None
        | Some None => Some (false, [])
        | Some (Some m) => Some (true, (fun os => default (replicate (Z.to_nat (size os)) 0) (find_binding os m)) <$> objects)
        end).
Definition CexCachingSolverImpl : SolverImpl C :=
  MkSolverImpl cex_computeTruth cex_computeValidity cex_computeValue cex_computeInitialValues.
Definition createCexCachingSolver (s : St) : C := MkCexCachingSolver MapOfSets.empty_node [] s.
End Caching.
End CexCaching.
