(* ===== verification/CexOk.v ===== *)
(** * The solver that remembers solutions keeps its promise

    The invariant of the cache: a cached assignment is the bytes of a solution of its key,
    and a cached null pointer stands for a key without solutions. *)
From stdpp Require Import base gmap list strings numbers.
From Stdlib Require Import ZArith Lia Sorting.Sorted.
From S2P Require Import Prelude MapOfSets ExprData ExprFacts ExprOrder ExprCreate ExprSound ExprEval ExprMain ExprUtil ExprTotal.
From S2P Require Import ConstraintsMain Solver SolverOk StpSolver IndepOk CexCaching.

Module CexOk.
Import Orders Expr ExprFacts ExprOrder Create Sound ExprMain ExprUtil ExprKeep ExprTotal ConstraintsMain Solver SolverOk SolverPoint StpSolver IndepMain CexCaching.

(** ** The bindings *)
Section Bindings.
Context {host : Host} {hok : HostOk}.
#[export] Instance array_order_ok : CompareOk array.
Proof. apply (compare_by (B := Z) address). exact hok. Qed.
Lemma same_array (a b : array) : (cmp a b =? 0) = bool_decide (a = b).
Proof. apply eq_true_iff_eq. by rewrite Z.eqb_eq, cmp_0, bool_decide_eq_true. Qed.

Abbreviation ordered := (StronglySorted (fun a b : array * list Z => cmp a.1 b.1 < 0)).
Lemma cmp_self (a : array) : cmp a a = 0.
Proof. by apply cmp_0. Qed.
Lemma bind_one_in arr bytes m x : x ∈ bind_one arr bytes m -> x ∈ m \/ x = (arr, bytes).
Proof.
  induction m as [|[a v] m IH]; cbn [bind_one]; [intros ->%list_elem_of_singleton; by right|].
  destruct (cmp arr a =? 0); [by left|]. destruct (cmp arr a <? 0).
  - intros [->|H]%elem_of_cons; [by right|by left].
  - intros [->|H]%elem_of_cons; [left; left|]. destruct (IH H); [left; by right|by right].
Qed.
Lemma bind_one_ordered arr bytes m : ordered m -> ordered (bind_one arr bytes m).
Proof.
  induction m as [|[a v] m IH]; intros Hm; cbn [bind_one]; [by repeat constructor|]. pose proof Hm as [Hm' Ha]%StronglySorted_inv.
  destruct (Z.eqb_spec (cmp arr a) 0) as [E|E]; [done|]. rewrite list.Forall_forall in Ha. destruct (Z.ltb_spec (cmp arr a) 0) as [Hl|Hl].
  - constructor; [done|]. apply list.Forall_forall. intros x [->|Hx]%elem_of_cons; [done|].
    apply (cmp_trans arr a); [done|by apply Ha].
  - constructor; [by apply IH|]. apply list.Forall_forall. intros x [Hx| ->]%bind_one_in; [by apply Ha|].
    simpl. pose proof (cmp_opp arr a). lia.
Qed.
Lemma find_below arr m : ordered m -> (forall x, x ∈ m -> cmp arr x.1 < 0) -> find_binding arr m = None.
Proof.
  induction m as [|[a v] m IH]; intros Hm H; [done|]. cbn [find_binding]. pose proof (H (a, v) ltac:(left)) as Ha. simpl in Ha.
  rewrite (proj2 (Z.eqb_neq (cmp arr a) 0)) by lia. apply IH; [by apply StronglySorted_inv in Hm as [? _]|]. intros x Hx. apply H. by right.
Qed.
Lemma find_bind_one arr bytes m arr' : ordered m ->
  find_binding arr' (bind_one arr bytes m) =
  match find_binding arr' m with Some v => Some v | None => if bool_decide (arr' = arr) then Some bytes else None end.
Proof.
  induction m as [|[a v] m IH]; intros Hm; cbn [bind_one find_binding]; [by rewrite same_array|].
  pose proof Hm as [Hm' Ha]%StronglySorted_inv. rewrite list.Forall_forall in Ha.
  destruct (Z.eqb_spec (cmp arr a) 0) as [E|E].
  - apply cmp_0 in E as ->. cbn [find_binding]. rewrite !(same_array arr' a). case_bool_decide; [done|]. by destruct (find_binding arr' m).
  - destruct (Z.ltb_spec (cmp arr a) 0) as [Hl|Hl]; cbn [find_binding]; rewrite !(same_array arr').
    + destruct (bool_decide (arr' = arr)) eqn:E'.
      * apply bool_decide_eq_true in E' as ->. rewrite bool_decide_false by (intros ->; by rewrite cmp_self in E).
        rewrite find_below; [done|done|]. intros x Hx. apply (cmp_trans arr a); [done|by apply Ha].
      * destruct (bool_decide (arr' = a)); [done|]. by destruct (find_binding arr' m).
    + destruct (bool_decide (arr' = a)); [done|by apply IH].
Qed.
Lemma find_bind_all objects : forall values m arr, ordered m ->
  ordered (bind_all objects values m) /\
  find_binding arr (bind_all objects values m) =
    match find_binding arr m with Some v => Some v | None => Evaluator.bind objects values arr end.
Proof.
  induction objects as [|o objects IH]; intros values m arr Hm; [cbn; by destruct (find_binding arr m)|].
  destruct values as [|v values]; [cbn; by destruct (find_binding arr m)|]. cbn [bind_all Evaluator.bind].
  destruct (IH values (bind_one o v m) arr (bind_one_ordered o v m Hm)) as [H1 ->]. split; [done|]. rewrite find_bind_one by done.
  destruct (find_binding arr m); [done|]. destruct (decide (arr = o)) as [->|Hne]; [by rewrite !bool_decide_true|].
  by rewrite !bool_decide_false by congruence.
Qed.
Lemma find_bound objects values arr : find_binding arr (bind_all objects values []) = Evaluator.bind objects values arr.
Proof. apply (find_bind_all objects values []). constructor. Qed.
End Bindings.

Lemma tidy_safe e : tidy e -> safe [e].
Proof. intros [_ H] e' x ->%list_elem_of_singleton Hx. specialize (H x Hx). by destruct x. Qed.

Section Ok.
Context {con : Contents} {sep : Separable} {ap : APInt} {ap_ok : APIntOk} (opt : bool) {host : Host} {hok : HostOk}.

(** ** What an assignment says *)
Definition agree (m : bindings_ty) (init : array -> Z -> option Z) : Prop :=
  forall arr i, byte_array arr -> 0 <= i < size arr -> init arr i = Some (Evaluator.cells (assignment m) arr i).
Definition says (m : bindings_ty) (init : array -> Z -> option Z) : Prop := contents init /\ agree m init.
Record fine (m : bindings_ty) : Prop := {
  fi_array arr bytes : find_binding arr m = Some bytes ->
    byte_array arr /\ Z.of_nat (length bytes) = size arr /\ Forall (fun b => 0 <= b < 256) bytes;
  fi_says : exists init, says m init
}.
Lemma fine_bytes m : fine m -> Evaluator.bytes_ok (assignment m).
Proof. intros H arr bytes Hb. by apply (fi_array m H arr bytes). Qed.
Definition bytes_only (init : array -> Z -> option Z) : array -> Z -> option Z :=
  fun arr i => if (array_ok arr && (range arr =? 8))%bool then init arr i else None.
Lemma bytes_only_in init arr i : byte_array arr -> bytes_only init arr i = init arr i.
Proof. intros [H1 H2]. unfold bytes_only. by rewrite H1, H2. Qed.
Lemma bytes_only_value init e : width_ok e = true -> tidy e -> eval (bytes_only init) e = eval init e.
Proof.
  intros He [_ Ht]. apply eval_local. intros r Hr. destruct r as [| |root head index| | | | | | |]; try done.
  destruct (Ht _ Hr) as [Hb _]. pose proof (width_ok_occurs e _ Hr He) as Hw. simpl in Hw. split_ok.
  assert (Hi : forall i, initial (bytes_only init) root i = initial init root i) by (intros i; unfold initial; by rewrite bytes_only_in).
  destruct index; simpl; auto.
Qed.
(** Under the assignment an expression has the value that it has in the contents. *)
Lemma says_value m init e v :
  fine m -> says m init -> width_ok e = true -> tidy e -> eval init e = Some v ->
  Evaluator.evaluate opt (assignment m) e = Ret (Constant (getWidth e) v).
Proof.
  intros Hf [Hc Hs] He Ht Hv. rewrite <- (bytes_only_value init e He Ht) in Hv.
  assert (Hi : init_ok (bytes_only init)).
  { intros arr i x. unfold bytes_only. destruct (_ && _)%bool; [|done]. by apply contents_init. }
  refine (proj1 (Evaluator.visit_both opt (assignment m) (bytes_only init) Hi _ _) e He (proj1 Ht) v Hv).
  - intros arr i x Ha [Hi0 _] Hx. unfold bytes_only in Hx. rewrite Ha in Hx. destruct (Z.eqb_spec (range arr) 8) as [Hr|]; [|done]. simpl in Hx.
    assert (i < size arr).
    { destruct (Z.lt_ge_cases i (size arr)) as [|Hge]; [done|]. by rewrite (contents_end init arr i Hc Hge) in Hx. }
    rewrite Evaluator.evaluate_cell_value by first [by apply fine_bytes|by left]. rewrite (Hs arr i) in Hx by (done || by split). by injection Hx as ->.
  - intros _ arr i _ Hsz. unfold bytes_only. destruct (_ && _)%bool; [|done]. by apply contents_end.
Qed.
(** What evaluates to true. *)
Definition shown (m : bindings_ty) (e : expr) : Prop := Evaluator.evaluate opt (assignment m) e = Ret (Constant 1 1).
Lemma holds_shown m init e : fine m -> says m init -> bool_ok e -> tidy e -> holds init e -> shown m e.
Proof. intros Hf Hs [He Hw] Ht Hh. unfold shown. rewrite (says_value m init e 1) by done. by rewrite Hw. Qed.

(** The constraints guard their divisions and the symbolic indices of their reads: when the
    evaluation gives true for all of them, they hold. *)
Definition grounded (cs : list expr) : Prop :=
  forall m init, fine m -> says m init -> Forall (shown m) cs -> Forall (holds init) cs.
Lemma always_defined_grounded cs :
  Forall bool_ok cs -> Forall tidy cs -> (forall init, contents init -> Forall (fun e => is_Some (eval init e)) cs) -> grounded cs.
Proof.
  intros Hb Ht Hd m init Hf Hs Hsh. specialize (Hd init (proj1 Hs)). rewrite list.Forall_forall in Hb, Ht, Hd, Hsh |- *.
  intros e He. destruct (Hd e He) as [v Hv]. destruct (Hb e He) as [Ho Hw].
  pose proof (says_value m init e v Hf Hs Ho (Ht e He) Hv) as E. rewrite (Hsh e He), Hw in E. unfold holds. congruence.
Qed.

(** ** Keys *)
Record fine_key (key : KeyType) : Prop := {
  fk_sorted : Sorted.StronglySorted (fun a b : expr => cmp a b < 0) key;
  fk_bool : Forall bool_ok key;
  fk_tidy : Forall tidy key;
  fk_grounded : grounded key
}.
Lemma set_insert_in (e : expr) key x : x ∈ MapOfSets.set_insert e key <-> x = e \/ x ∈ key.
Proof.
  induction key as [|y key IH]; cbn [MapOfSets.set_insert]; [rewrite elem_of_cons; done|].
  destruct (MapOfSets.keq e y) eqn:E; [|destruct (MapOfSets.klt e y)].
  - apply MapOfSets.keq_iff in E as ->. rewrite !elem_of_cons. tauto.
  - rewrite !elem_of_cons. tauto.
  - rewrite !elem_of_cons, IH. tauto.
Qed.
Lemma set_insert_sorted (e : expr) key :
  StronglySorted (fun a b : expr => cmp a b < 0) key -> StronglySorted (fun a b : expr => cmp a b < 0) (MapOfSets.set_insert e key).
Proof.
  induction key as [|y key IH]; cbn [MapOfSets.set_insert]; intros Hk; [by repeat constructor|].
  pose proof Hk as [Hk' Hy]%StronglySorted_inv. rewrite list.Forall_forall in Hy.
  destruct (MapOfSets.cmp_cases e y) as [[-> ->]|[(Hlt & -> & ->)|(Hlt & -> & ->)]]; [done| |].
  - constructor; [done|]. apply list.Forall_forall. intros x [->|Hx]%elem_of_cons; [done|]. by eapply cmp_trans, Hy.
  - constructor; [by apply IH|]. apply list.Forall_forall. intros x [->|Hx]%set_insert_in; [done|by apply Hy].
Qed.
Lemma key_of_ok es : StronglySorted (fun a b : expr => cmp a b < 0) (key_of es) /\ forall x, x ∈ key_of es <-> x ∈ es.
Proof.
  assert (H : forall key, StronglySorted (fun a b : expr => cmp a b < 0) key ->
    StronglySorted (fun a b : expr => cmp a b < 0) (foldl (fun key e => MapOfSets.set_insert e key) key es) /\
    forall x, x ∈ foldl (fun key e => MapOfSets.set_insert e key) key es <-> x ∈ key \/ x ∈ es).
  { induction es as [|e es IH]; intros key Hk; cbn [foldl].
    - split; [done|]. intros x. rewrite elem_of_nil. tauto.
    - destruct (IH _ (set_insert_sorted e key Hk)) as [H1 H2]. split; [done|]. intros x. rewrite H2, set_insert_in, elem_of_cons. tauto. }
  destruct (H [] ltac:(constructor)) as [H1 H2]. split; [done|]. intros x. unfold key_of. rewrite H2, elem_of_nil. tauto.
Qed.

(** ** The searches *)
Definition remembered (key : KeyType) (a : answer) : Prop :=
  match a with
  | Some m => fine m /\ exists init, says m init /\ Forall (holds init) key
  | None => forall init, contents init -> ~ Forall (holds init) key
  end.
Lemma satisfies_ok m key : fine m -> fine_key key ->
  exists b, satisfies opt m key = Ret b /\ (b = true <-> Forall (shown m) key).
Proof.
  intros Hf [_ Hb Ht _]. apply satisfies_total; [by apply fine_bytes|]. rewrite list.Forall_forall in Hb, Ht. apply list.Forall_forall.
  intros e He. destruct (Hb e He). split_and!; [done|done|]. by apply tidy_safe, Ht.
Qed.
Lemma satisfying_remembered m key : fine m -> fine_key key -> Forall (shown m) key -> remembered key (Some m).
Proof. intros Hf Hk Hs. split; [done|]. destruct (fi_says m Hf) as [init Hi]. exists init. split; [done|]. by apply (fk_grounded key Hk m). Qed.
Lemma remembered_superset key key' m : key ⊆ key' -> remembered key' (Some m) -> remembered key (Some m).
Proof. intros Hsub (Hf & init & Hs & Hh). split; [done|]. exists init. split; [done|]. rewrite list.Forall_forall in Hh |- *. auto. Qed.
Lemma remembered_subset key key' : key' ⊆ key -> remembered key' None -> remembered key None.
Proof. intros Hsub H init Hc Hh. apply (H init Hc). rewrite list.Forall_forall in Hh |- *. auto. Qed.

Section State.
Context (options : Options) {St : Type} (inv : St -> Prop).
Record cex_inv (c : CexCachingSolver St) : Prop := {
  ci_inner : inv (solver c);
  ci_wf : MapOfSets.wf (cache c);
  ci_cache key a : MapOfSets.lookup key (cache c) = Some a -> remembered key a;
  ci_table : Forall fine (assignmentsTable c)
}.
(** The result of a search: nothing, or an answer for the key. *)
Definition search_ok (key : KeyType) (r : result (option answer)) : Prop :=
  exists r', r = Ret r' /\ forall a, r' = Some a -> remembered key a.
Lemma search_none key : search_ok key (Ret None).
Proof. by exists None. Qed.
Lemma first_satisfying_ok key table : Forall fine table -> fine_key key -> search_ok key (first_satisfying opt key table).
Proof.
  intros Ht Hk. induction table as [|m table IH]; cbn [first_satisfying]; [apply search_none|].
  apply Forall_cons_iff in Ht as [Hm Ht]. destruct (satisfies_ok m key Hm Hk) as (b & -> & Hb). cbn [mbind result_bind].
  destruct b; [|by apply IH]. eexists. split; [done|]. intros a [= <-]. by apply satisfying_remembered, Hb.
Qed.
Lemma superset_ok c key r : cex_inv c -> fine_key key ->
  MapOfSets.findSuperset NonNullAssignment (cache c) key = Some r -> exists a, r = Ret a /\ remembered key a.
Proof.
  intros Hc Hk E. pose proof (MapOfSets.findSuperset_ok NonNullAssignment (cache c) key (ci_wf c Hc) (fk_sorted key Hk)) as H.
  rewrite E in H. destruct H as (s & Hsub & a & Hl & Ha). destruct a as [m|]; [|done]. injection Ha as <-. eexists. split; [done|].
  apply (remembered_superset key s); [done|]. by apply (ci_cache c Hc).
Qed.
Lemma subset_ok c key (b : bool) r : cex_inv c -> fine_key key ->
  MapOfSets.findSubset (if b then NullAssignment else NullOrSatisfyingAssignment opt key) (cache c) key = Some r ->
  exists a, r = Ret a /\ remembered key a.
Proof.
  intros Hc Hk E.
  pose proof (MapOfSets.findSubset_ok (if b then NullAssignment else NullOrSatisfyingAssignment opt key) (cache c) key
    (ci_wf c Hc) (fk_sorted key Hk)) as H.
  rewrite E in H. destruct H as (s & Hsub & a & Hl & Ha). pose proof (ci_cache c Hc s a Hl) as Hr. destruct a as [m|].
  - destruct b; [done|]. cbn [NullOrSatisfyingAssignment] in Ha. destruct (satisfies_ok m key (proj1 Hr) Hk) as (x & E' & Hx). rewrite E' in Ha.
    destruct x; [|done]. injection Ha as <-. eexists. split; [done|]. apply satisfying_remembered; [apply Hr|done|by apply Hx].
  - assert (r = Ret None) as -> by (destruct b; injection Ha; congruence). eexists. split; [done|]. by apply (remembered_subset key s).
Qed.
Lemma searchForAssignment_ok c key : cex_inv c -> fine_key key -> search_ok key (searchForAssignment opt options key c).
Proof.
  intros Hc Hk. unfold searchForAssignment. destruct (MapOfSets.lookup key (cache c)) as [a|] eqn:El.
  { eexists. split; [done|]. intros a' [= <-]. by apply (ci_cache c Hc). }
  assert (Hfound : forall r, (exists a, r = Ret a /\ remembered key a) -> search_ok key (r ← r; Ret (Some r))).
  { intros r (a & -> & Ha). eexists. split; [done|]. by intros a' [= <-]. }
  pose proof (superset_ok c key) as Hsup. destruct (CexCacheSuperSet options).
  - destruct (MapOfSets.findSuperset _ _ _) as [r|]; [by apply Hfound, Hsup|]. pose proof (subset_ok c key (CexCacheTryAll options)) as Hsub.
    destruct (CexCacheTryAll options), (MapOfSets.findSubset _ _ _) as [r|]; try (by apply Hfound, Hsub); [|apply search_none].
    apply first_satisfying_ok; [apply Hc|done].
  - pose proof (subset_ok c key (CexCacheTryAll options)) as Hsub.
    destruct (CexCacheTryAll options), (MapOfSets.findSubset _ _ _) as [r|]; try (by apply Hfound, Hsub); [|apply search_none].
    apply first_satisfying_ok; [apply Hc|done].
Qed.

(** ** The key of a query *)
Definition refutes (q : Query) (init : array -> Z -> option Z) : Prop := model (constraints q) init /\ eval init (query q) = Some 0.
Definition answers_query (q : Query) (a : answer) : Prop :=
  match a with Some m => fine m /\ exists init, says m init /\ refutes q init | None => forall init, ~ refutes q init end.
(** The constraints and the negated expression guard their divisions and reads. *)
Definition ground (q : Query) : Prop := forall m init n, fine m -> says m init ->
  Forall (shown m) (constraints q) -> negateExpr opt q = Ret n -> shown m (query n) -> refutes q init.
Lemma grounded_ground q : askable q -> grounded (constraints q) -> ground q.
Proof.
  intros [H1 H2 H3 H4 H5] Hg m init n Hf Hs Hc En Hn. assert (Hm : model (constraints q) init) by (split; [apply Hs|by apply (Hg m)]).
  split; [done|]. destruct (H4 init Hm) as [v Hv]. destruct (negate_ok opt q H2 H3) as (n' & En' & _ & Hok & Hw & Hev).
  assert (n' = n) as -> by congruence. specialize (Hev init v Hm Hv).
  pose proof (negate_tidy opt q n H5 En) as [Ht _]%Forall_cons_iff.
  pose proof (says_value m init (query n) (1 - v) Hf Hs Hok Ht Hev) as E. unfold shown in Hn. rewrite Hn in E. injection E as _ E.
  assert (v = 0) as -> by lia. done.
Qed.
Lemma shown_constant m w v : shown m (Constant w v) <-> w = 1 /\ v = 1.
Proof. unfold shown. split; [by intros [= -> ->]|by intros [-> ->]]. Qed.
Lemma conjuncts_ground q : askable q -> not_true q -> (forall cs, conjuncts opt q cs -> grounded cs) -> ground q.
Proof.
  intros Ha Hnt Hg m init n Hf Hs Hc En Hn. destruct (isConstant (query q)) eqn:Eq.
  - destruct (query q) as [w v| | | | | | | | |] eqn:E; try done. pose proof (Hnt w v E) as ->.
    pose proof (as_width q Ha) as Hw. rewrite E in Hw. simpl in Hw. subst w. split; [|by rewrite E]. split; [apply Hs|].
    by apply (Hg (constraints q) ltac:(by left) m).
  - assert (Hall : Forall (holds init) (query n :: constraints q)).
    { apply (Hg (query n :: constraints q) ltac:(right; by exists n) m); [done|done|]. by constructor. }
    apply Forall_cons_iff in Hall as [Hq Hcs]. assert (Hm : model (constraints q) init) by (split; [apply Hs|done]).
    split; [done|]. destruct (as_def q Ha init Hm) as [v Hv].
    destruct (negate_ok opt q (as_ok q Ha) (as_width q Ha)) as (n' & En' & _ & Hok & Hw & Hev).
    assert (n' = n) as -> by congruence. specialize (Hev init v Hm Hv). unfold holds in Hq. rewrite Hq in Hev.
    assert (v = 0) as -> by (injection Hev; lia). done.
Qed.
Record key_for (q : Query) (key : KeyType) : Prop := {
  kf_not_true : not_true q;
  kf_fine : fine_key key;
  kf_holds init : contents init -> Forall (holds init) key <-> refutes q init
}.
Lemma remembered_answer q key a : key_for q key -> remembered key a -> answers_query q a.
Proof.
  intros [_ _ H]. destruct a as [m|]; simpl.
  - intros (Hf & init & Hs & Hh). split; [done|]. exists init. split; [done|]. by apply H; [apply Hs|].
  - intros Hn init Hr. apply (Hn init); [apply Hr|by apply H; [apply Hr|]].
Qed.
(** The key is the constraints and, unless it is constantly true, the negated expression. *)
Lemma key_for_parts q n key :
  askable q -> ground q -> not_true q -> negateExpr opt q = Ret n ->
  StronglySorted (fun a b : expr => cmp a b < 0) key ->
  (forall x, x ∈ key -> x ∈ constraints q \/ x = query n) -> constraints q ⊆ key ->
  query n ∈ key \/ query n = Constant 1 1 -> key_for q key.
Proof.
  intros Ha Hg Hnt En Hsort Hin Hsub Hn. destruct (negate_ok opt q (as_ok q Ha) (as_width q Ha)) as (n' & En' & _ & Hok & Hw & Hev).
  assert (n' = n) as -> by congruence. pose proof (negate_tidy opt q n (as_tidy q Ha) En) as [Ht _]%Forall_cons_iff.
  pose proof (as_tidy q Ha) as [_ Hct]%Forall_cons_iff. pose proof (as_cs q Ha) as Hcb.
  assert (Hup : forall P : expr -> Prop, Forall P (constraints q) -> P (query n) -> Forall P key).
  { intros P H1 H2. rewrite list.Forall_forall in H1 |- *. intros x [Hx| ->]%Hin; [by apply H1|done]. }
  assert (Hholds : forall init, refutes q init -> Forall (holds init) key).
  { intros init [[Hc Hcs] H0]. apply Hup; [done|]. apply (Hev init 0); [by split|done]. }
  assert (Hdown : forall (P : expr -> Prop), P (Constant 1 1) -> Forall P key -> Forall P (constraints q) /\ P (query n)).
  { intros P H1 H2. rewrite list.Forall_forall in H2. split; [apply list.Forall_forall; auto|]. destruct Hn as [Hn| ->]; auto. }
  split; [done|split|].
  - done.
  - by apply Hup.
  - by apply Hup.
  - intros m init Hf Hs Hsh. apply Hdown in Hsh as [Hsc Hsn]; [|by apply shown_constant]. apply Hholds. by apply (Hg m init n).
  - intros init Hc. split; [|apply Hholds]. intros [Hcs Hq]%Hdown; [|done]. assert (Hm : model (constraints q) init) by done.
    split; [done|]. destruct (as_def q Ha init Hm) as [v Hv]. specialize (Hev init v Hm Hv). unfold holds in Hq. rewrite Hq in Hev.
    assert (v = 0) as -> by (injection Hev; lia). done.
Qed.
Lemma not_true_zero q n : askable q -> negateExpr opt q = Ret n -> query n <> Constant 1 0 -> not_true q.
Proof.
  intros Ha En Hn w v E. pose proof (as_width q Ha) as Hw. pose proof (as_ok q Ha) as Ho. rewrite E in Hw, Ho. simpl in Hw. subst w.
  apply constant_inv in Ho as [_ Hv]. change (2 ^ 1) with 2 in Hv. assert (v = 0 \/ v = 1) as [->| ->] by lia; [done|]. exfalso.
  unfold negateExpr, createIsZero, create_Eq, bcreate_r, const_binary in En. rewrite E in En. cbn [getWidth Z.eqb negb] in En.
  rewrite (ap_binary_ok Eq 1 1 0 0) in En by done. injection En as <-. by destruct Hn.
Qed.

(** ** Lookups *)
Record lookup_ok (q : Query) (l : KeyType * option answer) : Prop := {
  lk_found a : l.2 = Some a -> answers_query q a;
  lk_key : l.2 = None -> key_for q l.1
}.
Lemma lookupAssignment_ok q c : cex_inv c -> askable q -> ground q -> exists l, lookupAssignment opt options q c = Ret l /\ lookup_ok q l.
Proof.
  intros Hc Ha Hg. destruct (negate_ok opt q (as_ok q Ha) (as_width q Ha)) as (n & En & Ecs & Hok & Hw & Hev). unfold lookupAssignment.
  assert (createIsZero opt (query q) = Ret (query n)) as ->.
  { unfold negateExpr in En. destruct (createIsZero opt (query q)); [|done]. by injection En as <-. }
  cbn [mbind result_bind]. destruct (key_of_ok (constraints q)) as [Hks Hki].
  assert (Hsearch : forall key, key_for q key ->
    exists l, (r ← searchForAssignment opt options key c; Ret (key, r)) = Ret l /\ lookup_ok q l).
  { intros key Hk. destruct (searchForAssignment_ok c key Hc (kf_fine q key Hk)) as (r & -> & Hr). eexists. split; [done|].
    split; [|done]. intros a E. apply (remembered_answer q key); [done|by apply Hr]. }
  assert (Hother : query n <> Constant 1 0 ->
    exists l, (r ← searchForAssignment opt options (MapOfSets.set_insert (query n) (key_of (constraints q))) c;
               Ret (MapOfSets.set_insert (query n) (key_of (constraints q)), r)) = Ret l /\ lookup_ok q l).
  { intros H0. apply Hsearch, (key_for_parts q n); [done|done|by eapply not_true_zero|done|by apply set_insert_sorted| | |].
    - intros x [->|Hx%Hki]%set_insert_in; [by right|by left].
    - intros x Hx. apply set_insert_in. right. by apply Hki.
    - left. apply set_insert_in. by left. }
  destruct (query n) as [w v| | | | | | | | |] eqn:E; try (by apply Hother).
  simpl in Hw. subst w. apply constant_inv in Hok as [_ Hv]. change (2 ^ 1) with 2 in Hv.
  assert (v = 0 \/ v = 1) as [->| ->] by lia.
  - change ((1 =? Bool) && (0 =? 0))%bool with true. cbn match. eexists. split; [done|]. split; [|done]. intros a [= <-] init [Hm H0]. specialize (Hev init 0 Hm H0). simpl in Hev. injection Hev. lia.
  - change ((1 =? Bool) && (1 =? 0))%bool with false. cbn match. apply Hsearch, (key_for_parts q n); [done|done|eapply not_true_zero; [done|done|congruence]|done|done| | |].
    + intros x Hx%Hki. by left.
    + intros x Hx. by apply Hki.
    + by right.
Qed.

(** ** New assignments *)
Lemma initial_same init init' root :
  contents init -> contents init' -> (isSymbolicArray root = true -> forall i, init root i = init' root i) ->
  forall i, initial init root i = initial init' root i.
Proof.
  intros H H' Hs i. unfold initial, isConstantArray in *. destruct (isSymbolicArray root) eqn:E; simpl; [by apply Hs|].
  destruct (Z.ltb_spec i (size root)); [done|]. rewrite !contents_end; done.
Qed.
(** A content that has the bytes of a solution for the objects, and zeros elsewhere. *)
Lemma new_binding q key objects values init0 :
  (forall e a, e ∈ key -> reads_from e a -> a ∈ objects) -> Forall byte_array objects ->
  key_for q key -> refutes q init0 -> Forall2 (SolverPoint.holds_bytes init0) objects values ->
  fine (bind_all objects values []) /\ exists init, says (bind_all objects values []) init /\ Forall (holds init) key.
Proof.
  intros Hobj Hbytes Hkey Hr Hv. destruct (contents_zero (con := con)) as (z & Hz & Hz0). pose proof (mo_in _ _ (proj1 Hr)) as Hc0.
  set (init := mix (fun arr _ => bool_decide (arr ∈ objects)) init0 z).
  assert (Hc : contents init) by (by apply contents_mix).
  assert (Hin : forall arr, arr ∈ objects -> forall i, init arr i = init0 arr i).
  { intros arr Ha i. unfold init, mix. by rewrite bool_decide_true. }
  assert (Hb : forall arr bytes, find_binding arr (bind_all objects values []) = Some bytes ->
    arr ∈ objects /\ byte_array arr /\ SolverPoint.holds_bytes init0 arr bytes).
  { intros arr bytes. rewrite find_bound. intros E. pose proof (SolverPoint.bind_holds init0 objects values arr bytes Hbytes Hv E) as [H1 H2].
    split; [|done]. clear -E. revert values E. induction objects as [|o objects IH]; intros [|v values]; try done.
    cbn [Evaluator.bind]. case_bool_decide as Eo; [intros _; subst; left|intros E; right; by eapply IH]. }
  assert (Hfit : forall arr bytes i b, byte_array arr -> SolverPoint.holds_bytes init0 arr bytes -> bytes !! i = Some b ->
    0 <= b < 256 /\ init0 arr (Z.of_nat i) = Some b).
  { intros arr bytes i b [_ Hr8] [Hl Hi] Hib. pose proof (lookup_lt_Some _ _ _ Hib) as Hlt.
    assert (E : init0 arr (Z.of_nat i) = Some b) by (by rewrite <- Hi, Nat2Z.id by lia). split; [|done].
    apply (contents_init init0 Hc0) in E. rewrite Hr8 in E. apply fits_iff in E. change (2 ^ 8) with 256 in E. done. }
  assert (Hsays : says (bind_all objects values []) init).
  { split; [done|]. intros arr i Ha Hi. unfold Evaluator.cells. cbn [assignment Evaluator.bindings].
    destruct (find_binding arr (bind_all objects values [])) as [bytes|] eqn:E; simpl.
    - destruct (Hb arr bytes E) as (Hao & _ & Hh). rewrite Hin by done. pose proof Hh as [Hl Hlook].
      destruct (lookup_lt_is_Some_2 bytes (Z.to_nat i)) as [b Eb]; [lia|]. rewrite Eb.
      destruct (Hfit arr bytes (Z.to_nat i) b Ha Hh Eb) as [Hr' E']. rewrite Z2Nat.id in E' by lia. rewrite E'. f_equal.
      destruct Ha as [_ ->]. symmetry. by apply Z.mod_small.
    - unfold init, mix. case_bool_decide as Hao; [|by apply Hz0]. rewrite find_bound in E.
      destruct (SolverPoint.bind_some objects values arr) as [? E']; [by eapply Forall2_length|done|congruence]. }
  split; [split; [|by exists init]|exists init; split; [done|]].
  - intros arr bytes E. destruct (Hb arr bytes E) as (Hao & Ha & Hh). split_and!; [done|apply Hh|]. apply list.Forall_lookup.
    intros i b Hib. by apply (Hfit arr bytes i b).
  - apply (kf_holds q key Hkey init0 Hc0) in Hr. pose proof (fk_bool key (kf_fine q key Hkey)) as Hbo.
    rewrite list.Forall_forall in Hr, Hbo |- *. intros e He. unfold holds. rewrite <- (Hr e He). apply eval_local. intros r Hr'.
    destruct r as [| |root head index| | | | | | |]; try done.
    assert (Hsame : forall i, initial init root i = initial init0 root i).
    { apply initial_same; [done|done|]. intros Hs. apply Hin, (Hobj e); [done|]. split; [done|]. by exists head, index. }
    destruct index; simpl; auto.
Qed.
Lemma cex_insert c key a : cex_inv c -> Sorted.StronglySorted (fun a b : expr => cmp a b < 0) key -> remembered key a ->
  cex_inv (MkCexCachingSolver (MapOfSets.insert key a (cache c)) (assignmentsTable c) (solver c)).
Proof.
  intros [H1 H2 H3 H4] Hs Hr. split; cbn [solver cache assignmentsTable]; [done|by apply MapOfSets.insert_wf| |done].
  intros key' a'. destruct (MapOfSets.lookup_insert_ok key a (cache c) key' H2) as [E1 E2].
  destruct (decide (key' = key)) as [->|Hne]; [rewrite E1 by done; by intros [= <-]|rewrite E2 by done; apply H3].
Qed.
Lemma table_insert_fine m table : Forall fine table -> fine m -> Forall fine (MapOfSets.set_insert m table).
Proof.
  intros Ht Hm. revert Ht. induction table as [|x table IH]; intros Ht; cbn [MapOfSets.set_insert]; [by constructor|].
  pose proof Ht as [Hx Ht']%Forall_cons_iff. destruct (MapOfSets.keq m x); [done|]. destruct (MapOfSets.klt m x); [by constructor|].
  constructor; [done|by apply IH].
Qed.

(** ** Questions *)
Section Questions.
Context (impl : SolverImpl St) {sok : SolverOk opt (fun _ => True) impl inv}.
Lemma ask_runs {A} (m : M St A) c Q :
  runs m (solver c) (fun a s => Q a (MkCexCachingSolver (cache c) (assignmentsTable c) s)) -> runs (ask m) c Q.
Proof. unfold ask, zoom, runs. destruct (m (solver c)) as [[a s]|e]; auto. Qed.
Lemma key_bytes q key : key_for q key -> Forall byte_array (findSymbolicObjects key).
Proof.
  intros [_ [_ Hb Ht _] _]. apply objects_bytes. rewrite list.Forall_forall in Hb, Ht. apply list.Forall_forall.
  intros e He. destruct (Hb e He). auto.
Qed.
Lemma new_remembered q key r : key_for q key -> solution q (findSymbolicObjects key) r ->
  remembered key (if r.1 then Some (bind_all (findSymbolicObjects key) r.2 []) else None).
Proof.
  intros Hk Hs. unfold solution in Hs. destruct r.1.
  - destruct Hs as (init0 & Hm & H0 & Hv). apply (new_binding q key _ _ init0); [|by eapply key_bytes|done|by split|done].
    intros e a He Ha. apply findSymbolicObjects_ok. by exists e.
  - intros init Hc Hh. apply (kf_holds q key Hk init Hc) in Hh as [Hm H0]. by apply (Hs init).
Qed.
(** Adding the result to the table and the cache. *)
Lemma store_runs q key c r : cex_inv c -> key_for q key ->
  remembered key (if r.1 : bool then Some (bind_all (findSymbolicObjects key) r.2 []) else None) ->
  runs (binding ← (if r.1 then
          let m := bind_all (findSymbolicObjects key) r.2 [] in
          memoize m;;
          (if DebugCexCacheCheckBinding options then s ← lift (satisfies opt m key); if s : bool then mret tt else halt (Exit 1)
           else mret tt);;
          mret (Some m)
        else mret None);
        remember key binding;; mret (Some binding)) c
    (fun res c' => cex_inv c' /\ forall a, res = Some a -> answers_query q a).
Proof.
  intros Hc Hk Hr. pose proof (fk_sorted key (kf_fine q key Hk)) as Hs. pose proof (remembered_answer q key _ Hk Hr) as Hans.
  destruct r.1.
  - set (m := bind_all (findSymbolicObjects key) r.2 []) in *. destruct Hr as (Hf & init & Hsay & Hh). cbn [answers_query] in Hans.
    set (c' := MkCexCachingSolver (cache c) (MapOfSets.set_insert m (assignmentsTable c)) (solver c)).
    assert (Hc' : cex_inv c') by (destruct Hc; split; [done..|by apply table_insert_fine]).
    assert (Hcheck : (s ← lift (satisfies opt m key); if s : bool then mret tt else halt (Exit 1)) c' = Ret (tt, c')).
    { destruct (satisfies_ok m key Hf (kf_fine q key Hk)) as (b & E & Hb).
      assert (b = true) as ->.
      { apply Hb. destruct (kf_fine q key Hk) as [_ Hbo Ht _]. rewrite list.Forall_forall in Hbo, Ht, Hh |- *.
        intros e He. apply (holds_shown m init); auto. }
      unfold lift, mbind, M_bind. by rewrite E. }
    cut (runs (remember key (Some m);; mret (Some (Some m))) c' (fun res c' => cex_inv c' /\ forall a, res = Some a -> answers_query q a)).
    { intros Hrun. unfold runs, mbind, M_bind in *. cbn [memoize modify]. fold c'.
      destruct (DebugCexCacheCheckBinding options); [|exact Hrun]. unfold mbind, M_bind in Hcheck. by rewrite Hcheck. }
    split; [|by intros a [= <-]]. apply (cex_insert c' key (Some m)); [done|done|]. split; [done|by exists init].
  - split; [|by intros a [= <-]]. by apply cex_insert.
Qed.
Lemma getAssignment_ok q : askable q -> ground q -> answers cex_inv (getAssignment opt options impl q) (answers_query q).
Proof.
  intros Ha Hg c Hc. destruct (lookupAssignment_ok q c Hc Ha Hg) as ([key r] & El & [Hf Hk]). unfold getAssignment.
  apply (runs_step _ _ _ (fun a s => a = c /\ s = c)); [by apply runs_get|]. intros ? ? [-> ->].
  apply (runs_step _ _ _ (fun a s => a = (key, r) /\ s = c)); [by eapply runs_lift|]. intros ? ? [-> ->]. simpl in Hf, Hk.
  destruct r as [[m|]|]; [by apply runs_ret; split; [|intros a [= <-]; apply Hf]|by apply runs_ret|]. specialize (Hk eq_refl).
  apply (runs_step _ _ _ (fun r c' => cex_inv c' /\ forall v, r = Some v -> solution q (findSymbolicObjects key) v)).
  - apply ask_runs. pose proof (initial_ok opt (impl := impl) q (findSymbolicObjects key) Ha (kf_not_true q key Hk)) as H.
    eapply runs_mono; [apply H; [done|by eapply key_bytes|apply Hc]|]. cbn beta. intros v s [Hs Hv]. split; [|done].
    by destruct Hc; split.
  - intros [[has values]|] c' [Hc' Hv]; [|by apply runs_ret]. specialize (Hv _ eq_refl).
    exact (store_runs q key c' (has, values) Hc' Hk (new_remembered q key _ Hk Hv)).
Qed.

(** ** The promise *)
Lemma evaluated_ok {A} q m init v (f : expr -> M (CexCachingSolver St) (option A)) Q :
  good q -> fine m -> says m init -> eval init (query q) = Some v ->
  answers cex_inv (f (Constant (getWidth (query q)) v)) Q -> answers cex_inv (e ← evaluated opt m (query q); f e) Q.
Proof.
  intros Hg Hf Hs Hv Hk c Hc. pose proof (go_tidy q Hg) as [Ht _]%Forall_cons_iff. unfold evaluated.
  specialize (Hk c Hc). unfold runs, mbind, M_bind, lift in *. by rewrite (says_value m init (query q) v Hf Hs (go_ok q Hg) Ht Hv).
Qed.
(** A solution of the constraints, and the value of the expression in it. *)
Lemma point_ok {A} q (f : bindings_ty -> M (CexCachingSolver St) (option A)) Q : good q -> grounded (constraints q) ->
  (forall m init v, fine m -> says m init -> model (constraints q) init -> eval init (query q) = Some v -> answers cex_inv (f m) Q) ->
  answers cex_inv (a ← getAssignment opt options impl (withFalse q);
                   match a with None => mret None | Some a => m ← must_have a; f m end) Q.
Proof.
  intros Hg Hgr Hf. eapply answers_bind; [apply getAssignment_ok; [by apply false_askable|]|apply answers_none|].
  - apply grounded_ground; [by apply false_askable|done].
  - intros [m|] Ha.
    + destruct Ha as (Hfm & init & Hs & Hm & _). destruct (go_def q Hg init Hm) as [v Hv].
      intros c Hc. by apply (Hf m init v Hfm Hs Hm Hv c Hc).
    + destruct (go_sat q Hg) as [init Hm]. by destruct (Ha init).
Qed.
Lemma cex_validity q : good q -> grounded (constraints q) -> getWidth (query q) = 1 ->
  answers cex_inv (cex_computeValidity opt options impl q) (validity q).
Proof.
  intros Hg Hgr Hw. apply point_ok; [done|done|]. intros m init v Hf Hs Hm Hv. eapply evaluated_ok; [done..|].
  rewrite Hw. destruct (bool_value _ init (query q) Hm (go_ok q Hg) Hw v Hv) as [-> | ->].
  - destruct (negate_good opt q Hg Hw) as (n & En & Hgn & Ecs & Hwn & Hvn & Hnn).
    eapply answers_lift; [exact En|]. eapply answers_bind; [apply getAssignment_ok; [by apply good_askable|]|apply answers_none|].
    + apply grounded_ground; [by apply good_askable|by rewrite Ecs].
    + intros [mn|] Ha; apply answers_some; simpl.
      * destruct Ha as (_ & init1 & _ & Hm1 & H0). split; [intros Hva; specialize (Hva init Hm); congruence|].
        rewrite <- Hvn. intros Hn. specialize (Hn init1 Hm1). congruence.
      * apply Hvn. intros init1 Hm1. destruct (go_def n Hgn init1 Hm1) as [x Hx].
        destruct (bool_value _ init1 (query n) Hm1 (go_ok n Hgn) Hwn x Hx) as [-> | ->]; [|done]. by destruct (Ha init1).
  - eapply answers_bind; [apply getAssignment_ok; [by apply good_askable|]|apply answers_none|].
    + apply grounded_ground; [by apply good_askable|done].
    + intros [mn|] Ha; apply answers_some; simpl.
      * destruct Ha as (_ & init1 & _ & Hm1 & H0). split; [intros Hva; specialize (Hva init1 Hm1); congruence|].
        intros Hn. specialize (Hn init Hm). congruence.
      * intros init1 Hm1. destruct (go_def q Hg init1 Hm1) as [x Hx].
        destruct (bool_value _ init1 (query q) Hm1 (go_ok q Hg) Hw x Hx) as [-> | ->]; [|done]. by destruct (Ha init1).
Qed.
Lemma experimental_ok q c : cex_inv c -> good q -> grounded (constraints q) -> getWidth (query q) = 1 ->
  runs (if CexCacheExperimental options then
          n ← lift (negateExpr opt q); c ← get; l ← lift (lookupAssignment opt options n c);
          mret (match l.2 with Some None => true | _ => false end)
        else mret false) c (fun _ c' => cex_inv c').
Proof.
  intros Hc Hg Hgr Hw. destruct (CexCacheExperimental options); [|done].
  destruct (negate_good opt q Hg Hw) as (n & En & Hgn & Ecs & Hwn & _). eapply runs_step; [by eapply (runs_lift _ _ (fun a s => a = n /\ s = c))|].
  intros ? ? [-> ->]. eapply runs_step; [by apply (runs_get _ (fun a s => a = c /\ s = c))|]. intros ? ? [-> ->].
  destruct (lookupAssignment_ok n c Hc) as (l & El & _); [by apply good_askable|apply grounded_ground; [by apply good_askable|by rewrite Ecs]|].
  eapply runs_step; [by eapply (runs_lift _ _ (fun a s => s = c))|]. by intros ? ? ->.
Qed.
Lemma cex_truth q : good q -> grounded (constraints q) -> getWidth (query q) = 1 ->
  answers cex_inv (cex_computeTruth opt options impl q) (fun b => b = true <-> valid q).
Proof.
  intros Hg Hgr Hw c Hc. eapply runs_step; [by apply experimental_ok|]. intros [] c1 Hc1; [by apply runs_ret|]. revert c1 Hc1.
  eapply answers_bind; [apply getAssignment_ok; [by apply good_askable|apply grounded_ground; [by apply good_askable|done]]|apply answers_none|].
  intros [m|] Ha; apply answers_some; (split; [try done|]).
  - intros Hv. destruct Ha as (_ & init & _ & Hm & H0). specialize (Hv init Hm). congruence.
  - intros _ init Hm. destruct (go_def q Hg init Hm) as [x Hx].
    destruct (bool_value _ init (query q) Hm (go_ok q Hg) Hw x Hx) as [-> | ->]; [|done]. by destruct (Ha init).
  - done.
Qed.
#[export] Instance cex_caching_ok : SolverOk opt grounded (CexCachingSolverImpl opt options impl) cex_inv.
Proof.
  split; cbn [CexCachingSolverImpl computeTruth computeValidity computeValue computeInitialValues].
  - intros q Hg Hgr Hw. by apply cex_truth.
  - intros q Hg Hgr Hw. by apply cex_validity.
  - intros q Hg Hgr. apply point_ok; [done|done|]. intros m init v Hf Hs Hm Hv. eapply evaluated_ok; [done..|].
    apply answers_some. exists v. split; [done|by exists init].
  - intros q objects Ha Hnt Hgr Ho. eapply answers_bind; [apply getAssignment_ok; [done|by apply conjuncts_ground]|apply answers_none|].
    intros [m|] Hans; apply answers_some; unfold solution; cbn [fst snd].
    + destruct Hans as (Hf & init & [Hc Hs] & Hm & H0). exists init. split_and!; [done|done|]. apply Forall2_fmap_r, Forall_Forall2_diag.
      eapply list.Forall_impl; [exact Ho|]. intros arr Ha'. simpl. specialize (Hs arr). unfold Evaluator.cells in Hs. cbn [assignment Evaluator.bindings] in Hs.
      destruct (find_binding arr m) as [bytes|] eqn:E; simpl in *.
      * destruct (fi_array m Hf arr bytes E) as (_ & Hl & Hb). split; [done|]. intros i Hi. rewrite (Hs i Ha' Hi).
        destruct (lookup_lt_is_Some_2 bytes (Z.to_nat i)) as [b Eb]; [lia|]. rewrite Eb. f_equal. rewrite list.Forall_lookup in Hb.
        specialize (Hb _ _ Eb). destruct Ha' as [_ ->]. symmetry. by apply Z.mod_small.
      * rewrite length_replicate. assert (0 <= size arr) by (destruct Ha' as [Ha' _]; unfold array_ok in Ha'; split_ok; lia). split; [lia|].
        intros i Hi. rewrite (Hs i Ha' Hi). by apply lookup_replicate_2; lia.
    + intros init Hm H0. by apply (Hans init).
Qed.
End Questions.
End State.
End Ok.
End CexOk.
