(* ===== verification/CachingSolver.v ===== *)
(** * Partial validity, staged solvers and the validity cache

src/lib/Solver/IncompleteSolver.cpp ([IncompleteSolver]) and CachingSolver.cpp
    ([CachingSolver]). *)
From stdpp Require Import base gmap list strings numbers.
From Stdlib Require Import ZArith Lia.
From S2P Require Import Prelude ExprData ExprCreate Solver SolverOk MapOfSets ExprFacts ExprOrder.

(** * Partial validity and staged solvers

    lib/Solver/IncompleteSolver.cpp: what is known of the validity of a query when a solver
    may give up, and [StagedSolverImpl], which asks a complete solver only then. *)
Module IncompleteSolver.
Import Expr Create Solver SolverOk.

Inductive PartialValidity : Type := MustBeTrue | MustBeFalse | MayBeTrue | MayBeFalse | TrueOrFalse | Nothing.
#[export] Instance partial_validity_eq_dec : EqDecision PartialValidity.
Proof. solve_decision. Defined.

(** Its [default] case is an assertion. *)
Definition negatePartialValidity (pv : PartialValidity) : result PartialValidity :=
  match pv with
  | MustBeTrue => Ret MustBeFalse
  | MustBeFalse => Ret MustBeTrue
  | MayBeTrue => Ret MayBeFalse
  | MayBeFalse => Ret MayBeTrue
  | TrueOrFalse => Ret TrueOrFalse
  | Nothing => Stop AssertFailed
  end.

(** The methods of [IncompleteSolver]; [None] is [false], and no result. *)
Record IncompleteSolver : Type := MkIncompleteSolver {
  partialTruth : Query -> result PartialValidity;
  partialValidity : Query -> result PartialValidity;
  partialValue : Query -> result (option expr);
  partialInitialValues : Query -> list array -> result (option (bool * list (list Z)))
}.

Section Default.
Context {ap : APInt} (ConstArrayOpt : bool).
(** [IncompleteSolver::computeValidity], which an implementation may keep. *)
Definition default_partialValidity (truth : Query -> result PartialValidity) (q : Query) : result PartialValidity :=
  trueResult ← truth q;
  if bool_decide (trueResult = MustBeTrue) then Ret MustBeTrue
  else
    n ← negateExpr ConstArrayOpt q;
    falseResult ← truth n;
    if bool_decide (falseResult = MustBeTrue) then Ret MustBeFalse
    else
      let trueCorrect := bool_decide (trueResult <> Nothing) in
      let falseCorrect := bool_decide (falseResult <> Nothing) in
      Ret (if trueCorrect && falseCorrect then TrueOrFalse
           else if trueCorrect then MayBeFalse
           else if falseCorrect then MayBeTrue
           else Nothing).

(** ** [StagedSolverImpl] *)
Context {St : Type} (primary : IncompleteSolver) (secondary : SolverImpl St).
Definition staged_computeTruth (q : Query) : M St (option bool) :=
  trueResult ← lift (partialTruth primary q);
  if bool_decide (trueResult <> Nothing) then mret (Some (bool_decide (trueResult = MustBeTrue)))
  else computeTruth secondary q.
Definition staged_computeValidity (q : Query) : M St (option Validity) :=
  r ← lift (partialValidity primary q);
  match r with
  | MustBeTrue => mret (Some VTrue)
  | MustBeFalse => mret (Some VFalse)
  | TrueOrFalse => mret (Some VUnknown)
  | MayBeTrue => t ← computeTruth secondary q; mret ((fun tmp : bool => if tmp then VTrue else VUnknown) <$> t)
  | MayBeFalse =>
      n ← lift (negateExpr ConstArrayOpt q);
      t ← computeTruth secondary n; mret ((fun tmp : bool => if tmp then VFalse else VUnknown) <$> t)
  | Nothing => computeValidity secondary q
  end.
Definition staged_computeValue (q : Query) : M St (option expr) :=
  r ← lift (partialValue primary q);
  match r with Some e => mret (Some e) | None => computeValue secondary q end.
Definition staged_computeInitialValues (q : Query) (objects : list array) : M St (option (bool * list (list Z))) :=
  r ← lift (partialInitialValues primary q objects);
  match r with Some v => mret (Some v) | None => computeInitialValues secondary q objects end.
Definition StagedSolverImpl : SolverImpl St :=
  MkSolverImpl staged_computeTruth staged_computeValidity staged_computeValue staged_computeInitialValues.
End Default.

(** ** What partial answers mean *)
Section Meaning.
Context {con : Contents}.
Definition partial (q : Query) (pv : PartialValidity) : Prop :=
  match pv with
  | MustBeTrue => valid q
  | MustBeFalse => never q
  | MayBeTrue => ~ never q
  | MayBeFalse => ~ valid q
  | TrueOrFalse => ~ valid q /\ ~ never q
  | Nothing => True
  end.
Context {ap : APInt} {ap_ok : APIntOk} (opt : bool).
Lemma partial_negate q n pv pv' :
  (valid n <-> never q) -> (never n <-> valid q) -> negatePartialValidity pv = Ret pv' -> partial n pv <-> partial q pv'.
Proof. intros H1 H2. destruct pv; intros [= <-]; simpl; rewrite ?H1, ?H2; tauto. Qed.
Lemma negate_defined pv : pv <> Nothing -> exists pv', negatePartialValidity pv = Ret pv' /\ pv' <> Nothing.
Proof. destruct pv; try done; by eexists. Qed.

(** What an incomplete solver promises. [computeTruth] answers only about truth: whatever it
    says but "must be true" means that it is not. *)
Class IncompleteOk (may : list expr -> Prop) (solver : IncompleteSolver) : Prop := {
  pt_ok q : good q -> may (constraints q) -> getWidth (query q) = 1 -> exists pv, partialTruth solver q = Ret pv /\ partial q pv /\
    (pv <> Nothing -> pv <> MustBeTrue -> ~ valid q);
  pv_ok q : good q -> may (constraints q) -> getWidth (query q) = 1 -> exists pv, partialValidity solver q = Ret pv /\ partial q pv;
  pval_ok q : good q -> may (constraints q) -> exists r, partialValue solver q = Ret r /\
    forall e, r = Some e -> exists v, e = Constant (getWidth (query q)) v /\ value_of q v;
  pini_ok q objects : askable q -> not_true q -> (forall cs, conjuncts opt q cs -> may cs) -> Forall byte_array objects ->
    exists r, partialInitialValues solver q objects = Ret r /\ forall v, r = Some v -> solution q objects v
}.
(** Validity by the default method, from the promise on truth. *)
Lemma default_partial_ok may truth q :
  (forall q, good q -> may (constraints q) -> getWidth (query q) = 1 -> exists pv, truth q = Ret pv /\ partial q pv /\
    (pv <> Nothing -> pv <> MustBeTrue -> ~ valid q)) ->
  good q -> may (constraints q) -> getWidth (query q) = 1 ->
  exists pv, default_partialValidity opt truth q = Ret pv /\ partial q pv.
Proof.
  intros Ht Hg Hm Hw. unfold default_partialValidity. destruct (Ht q Hg Hm Hw) as (t & -> & Hp & Hnot). cbn [mbind result_bind].
  case_bool_decide as E; [subst t; by exists MustBeTrue|].
  destruct (negate_good opt q Hg Hw) as (n & -> & Hgn & Ecs & Hwn & Hv & _). cbn [mbind result_bind].
  destruct (Ht n Hgn) as (f & -> & Hp' & Hnot'); [by rewrite Ecs|done|]. cbn [mbind result_bind].
  case_bool_decide as E'; [subst f; exists MustBeFalse; split; [done|]; by apply Hv|].
  eexists. split; [done|]. rewrite Hv in Hnot'. repeat case_bool_decide; simpl; auto.
Qed.

Section Staged.
Context (may : list expr -> Prop) (primary : IncompleteSolver) {pok : IncompleteOk may primary}.
Context {St : Type} (secondary : SolverImpl St) (inv : St -> Prop) {sok : SolverOk opt may secondary inv}.
Lemma fmap_answers {A B} (f : A -> B) (m : M St (option A)) (P : A -> Prop) (Q : B -> Prop) :
  answers inv m P -> (forall a, P a -> Q (f a)) -> answers inv (a ← m; mret (f <$> a)) Q.
Proof. intros Hm Hf. eapply answers_bind; [exact Hm|apply answers_none|]. intros a Ha. apply answers_some. auto. Qed.
#[export] Instance staged_ok : SolverOk opt may (StagedSolverImpl opt primary secondary) inv.
Proof.
  split; cbn [StagedSolverImpl computeTruth computeValidity computeValue computeInitialValues].
  - intros q Hg Hm Hw. destruct (pt_ok q Hg Hm Hw) as (pv & E & Hp & Hnot). eapply answers_lift; [exact E|].
    case_bool_decide as Hn; [|by apply (truth_ok opt)]. apply answers_some. rewrite bool_decide_eq_true. split; [by intros ->|].
    intros Hv. destruct (decide (pv = MustBeTrue)); [done|]. by destruct Hnot.
  - intros q Hg Hm Hw. destruct (pv_ok q Hg Hm Hw) as (pv & E & Hp). eapply answers_lift; [exact E|].
    destruct (negate_good opt q Hg Hw) as (n & En & Hgn & Ecs & Hwn & Hv & _).
    destruct pv; try (by apply answers_some); [| |by apply (validity_ok opt)].
    + eapply fmap_answers; [by apply (truth_ok opt)|]. intros [] Hb; simpl; [by apply Hb|]. split; [|done]. intros H. by apply Hb in H.
    + eapply answers_lift; [exact En|]. eapply fmap_answers; [apply (truth_ok opt); by rewrite ?Ecs|].
      intros [] Hb; simpl; [by apply Hv, Hb|]. split; [done|]. intros H. by apply Hv, Hb in H.
  - intros q Hg Hm. destruct (pval_ok q Hg Hm) as (r & E & Hr). eapply answers_lift; [exact E|].
    destruct r as [e|]; [|by apply (value_ok opt)]. apply answers_some. by apply Hr.
  - intros q objects Ha Hn Hm Ho. destruct (pini_ok q objects Ha Hn Hm Ho) as (r & E & Hr). eapply answers_lift; [exact E|].
    destruct r as [v|]; [|by apply (initial_ok opt)]. apply answers_some. by apply Hr.
Qed.
End Staged.
End Meaning.
End IncompleteSolver.

(** * The solver that remembers validities

    lib/Solver/CachingSolver.cpp: for the constraints and the smaller of an expression and its
    negation, what is known of the validity. An entry that is there is not replaced. *)
Module CachingSolver.
Import Orders Expr ExprFacts ExprOrder Create Solver SolverOk IncompleteSolver.

(** [CacheEntry] *)
Abbreviation CacheEntry := (list expr * expr)%type.
Record CachingSolver (St : Type) : Type := MkCachingSolver {
  cache : list (CacheEntry * PartialValidity);
  solver : St
}.
Arguments MkCachingSolver {St}.
Arguments cache {St}.
Arguments solver {St}.

Section Caching.
Context {ap : APInt} (ConstArrayOpt : bool) {host : Host} {St : Type} (impl : SolverImpl St).
Abbreviation C := (CachingSolver St).

(** The smaller expression, and whether it is the negated one. *)
Definition canonicalizeQuery (originalQuery : expr) : result (expr * bool) :=
  negatedQuery ← createIsZero ConstArrayOpt originalQuery;
  Ret (if compare originalQuery negatedQuery <? 0 then (originalQuery, false) else (negatedQuery, true)).
Fixpoint find (ce : CacheEntry) (m : list (CacheEntry * PartialValidity)) : option PartialValidity :=
  match m with [] => None | (ce', pv) :: m => if bool_decide (ce = ce') then Some pv else find ce m end.
(** [unordered_map::insert] *)
Definition insert (ce : CacheEntry) (pv : PartialValidity) (m : list (CacheEntry * PartialValidity)) : list (CacheEntry * PartialValidity) :=
  match find ce m with Some _ => m | None => (ce, pv) :: m end.
Definition negated_if (negationUsed : bool) (pv : PartialValidity) : result PartialValidity :=
  if negationUsed then negatePartialValidity pv else Ret pv.

Definition cacheLookup (q : Query) : M C (option PartialValidity) :=
  k ← lift (canonicalizeQuery (query q));
  m ← gets cache;
  match find (constraints q, k.1) m with
  | Some pv => r ← lift (negated_if k.2 pv); mret (Some r)
  | None => mret None
  end.
Definition cacheInsert (q : Query) (r : PartialValidity) : M C unit :=
  k ← lift (canonicalizeQuery (query q));
  cachedResult ← lift (negated_if k.2 r);
  modify (fun c => MkCachingSolver (insert (constraints q, k.1) cachedResult (cache c)) (solver c)).
Definition ask {A} (m : M St A) : M C A := zoom solver (fun s c => MkCachingSolver (cache c) s) m.

Definition full (r : Validity) : PartialValidity :=
  match r with VTrue => MustBeTrue | VFalse => MustBeFalse | VUnknown => TrueOrFalse end.
(** The result is put into the cache. *)
Definition conclude (q : Query) (r : Validity) : M C (option Validity) := cacheInsert q (full r);; mret (Some r).
Definition caching_computeValidity (q : Query) : M C (option Validity) :=
  hit ← cacheLookup q;
  match hit with
  | Some MustBeTrue => mret (Some VTrue)
  | Some MustBeFalse => mret (Some VFalse)
  | Some TrueOrFalse => mret (Some VUnknown)
  | Some MayBeTrue =>
      t ← ask (computeTruth impl q);
      match t with None => mret None | Some tmp => conclude q (if tmp : bool then VTrue else VUnknown) end
  | Some MayBeFalse =>
      n ← lift (negateExpr ConstArrayOpt q);
      t ← ask (computeTruth impl n);
      match t with None => mret None | Some tmp => conclude q (if tmp : bool then VFalse else VUnknown) end
  | Some Nothing => halt AssertFailed
  | None =>
      r ← ask (computeValidity impl q);
      match r with None => mret None | Some r => conclude q r end
  end.
Definition caching_computeTruth (q : Query) : M C (option bool) :=
  hit ← cacheLookup q;
  match hit with
  | Some MayBeTrue | None =>
      t ← ask (computeTruth impl q);
      match t with
      | None => mret None
      | Some isValid =>
          cacheInsert q (if isValid : bool then MustBeTrue else match hit with Some _ => TrueOrFalse | None => MayBeFalse end);;
          mret (Some isValid)
      end
  | Some cachedResult => mret (Some (bool_decide (cachedResult = MustBeTrue)))
  end.
Definition CachingSolverImpl : SolverImpl C :=
  MkSolverImpl caching_computeTruth caching_computeValidity
    (fun q => ask (computeValue impl q)) (fun q objects => ask (computeInitialValues impl q objects)).
Definition createCachingSolver (s : St) : C := MkCachingSolver [] s.
End Caching.

(** ** The promise *)
Section Ok.
Context {con : Contents} {ap : APInt} {ap_ok : APIntOk} (opt : bool) {host : Host}.
Context (may : list expr -> Prop) {St : Type} (impl : SolverImpl St) (inv : St -> Prop) {sok : SolverOk opt may impl inv}.

Definition entry_ok (x : CacheEntry * PartialValidity) : Prop := partial (MkQuery x.1.1 x.1.2) x.2 /\ x.2 <> Nothing.
Record cache_inv (c : CachingSolver St) : Prop := { ca_inner : inv (solver c); ca_entries : Forall entry_ok (cache c) }.
Definition asking (q : Query) : Prop := good q /\ may (constraints q) /\ getWidth (query q) = 1.

Lemma find_in ce pv m : find ce m = Some pv -> (ce, pv) ∈ m.
Proof.
  induction m as [|[ce' pv'] m IH]; [done|]. cbn [find]. case_bool_decide as E; [intros [= <-]; subst; left|intros H; right; by apply IH].
Qed.
Lemma entry_insert_ok ce pv m : entry_ok (ce, pv) -> Forall entry_ok m -> Forall entry_ok (insert ce pv m).
Proof. intros H Hm. unfold insert. destruct (find ce m); [done|by constructor]. Qed.
(** An answer for the canonical query is one for the query. *)
Lemma canonical_ok q : good q -> getWidth (query q) = 1 ->
  exists e b, canonicalizeQuery opt (query q) = Ret (e, b) /\
    (forall pv, pv <> Nothing -> exists pv', negated_if b pv = Ret pv' /\ pv' <> Nothing /\ (partial (MkQuery (constraints q) e) pv <-> partial q pv')) /\
    (forall pv, pv <> Nothing -> exists pv', negated_if b pv = Ret pv' /\ pv' <> Nothing /\ (partial q pv <-> partial (MkQuery (constraints q) e) pv')).
Proof.
  intros Hg Hw. destruct (negate_good opt q Hg Hw) as (n & En & Hgn & Ecs & Hwn & Hv & Hn). unfold canonicalizeQuery.
  assert (createIsZero opt (query q) = Ret (query n)) as ->.
  { unfold negateExpr in En. destruct (createIsZero opt (query q)); [|done]. by injection En as <-. }
  cbn [mbind result_bind]. assert (Enq : n = MkQuery (constraints q) (query n)) by (destruct n; simpl in *; by subst).
  destruct q as [cs e]. simpl in *. destruct (compare e (query n) <? 0); eexists _, _; (split; [done|]).
  - split; intros pv Hpv; by exists pv.
  - rewrite <- Enq. split; intros pv Hpv.
    + destruct (negate_defined pv Hpv) as (pv' & E & Hne). exists pv'. split_and!; [done|done|].
      by apply partial_negate.
    + destruct (negate_defined pv Hpv) as (pv' & E & Hne). exists pv'. split_and!; [done|done|].
      by apply partial_negate.
Qed.
Lemma ask_ok {A} (m : M St (option A)) Q : answers inv m Q -> answers cache_inv (ask m) Q.
Proof.
  intros H c [Hc He]. specialize (H (solver c) Hc). unfold runs, ask, zoom in *. destruct (m (solver c)) as [[a s]|e]; [|done].
  destruct H as [H1 H2]. by split; [split|].
Qed.
Lemma cacheLookup_ok q : good q -> getWidth (query q) = 1 ->
  forall c, cache_inv c -> runs (cacheLookup opt q) c (fun r c' => c' = c /\ forall pv, r = Some pv -> partial q pv /\ pv <> Nothing).
Proof.
  intros Hg Hw c Hc. destruct (canonical_ok q Hg Hw) as (e & b & E & Hdown & _). unfold cacheLookup.
  unfold runs, mbind, M_bind, lift, gets. rewrite E. cbn [fst snd].
  destruct (find (constraints q, e) (cache c)) as [pv|] eqn:Ef; [|by split].
  apply find_in in Ef. pose proof (ca_entries c Hc) as Hen. rewrite list.Forall_forall in Hen. destruct (Hen _ Ef) as [Hp Hne].
  destruct (Hdown pv Hne) as (pv' & E' & Hne' & Hiff). rewrite E'. split; [done|]. intros ? [= <-]. split; [by apply Hiff|done].
Qed.
Lemma insert_runs q pv : good q -> getWidth (query q) = 1 -> partial q pv -> pv <> Nothing ->
  forall c, cache_inv c -> runs (cacheInsert opt q pv) c (fun _ c' => cache_inv c').
Proof.
  intros Hg Hw Hp Hne c [Hc Hen]. destruct (canonical_ok q Hg Hw) as (e & b & E & _ & Hup). unfold cacheInsert.
  unfold runs, mbind, M_bind, lift, modify. rewrite E. cbn [fst snd]. destruct (Hup pv Hne) as (pv' & E' & Hne' & Hiff). rewrite E'.
  split; [done|]. apply entry_insert_ok; [|done]. split; [by apply Hiff|done].
Qed.
Lemma conclude_ok q r : good q -> getWidth (query q) = 1 -> validity q r -> answers cache_inv (conclude opt q r) (validity q).
Proof.
  intros Hg Hw Hr c Hc. unfold conclude. eapply runs_step; [apply insert_runs; [done|done| |by destruct r|done]|].
  - by destruct r.
  - intros [] c' Hc'. apply runs_ret. split; [done|]. by intros a [= <-].
Qed.
Lemma looked_up {A} q (f : option PartialValidity -> M (CachingSolver St) (option A)) Q : good q -> getWidth (query q) = 1 ->
  answers cache_inv (f None) Q -> (forall pv, partial q pv -> pv <> Nothing -> answers cache_inv (f (Some pv)) Q) ->
  answers cache_inv (r ← cacheLookup opt q; f r) Q.
Proof.
  intros Hg Hw Hn Hs c Hc. eapply runs_step; [by apply cacheLookup_ok|]. intros [pv|] c' [-> Hp]; [|by apply Hn].
  destruct (Hp pv eq_refl). by apply Hs.
Qed.
Lemma caching_validity q : asking q -> answers cache_inv (caching_computeValidity opt impl q) (validity q).
Proof.
  intros (Hg & Hm & Hw). destruct (negate_good opt q Hg Hw) as (n & En & Hgn & Ecs & Hwn & Hv & _). apply looked_up; [done|done| |].
  - eapply answers_bind; [apply ask_ok; by apply (validity_ok opt)|apply answers_none|]. intros r Hr. by apply conclude_ok.
  - intros pv Hp Hne. destruct pv; try (by apply answers_some); [| |done].
    + eapply answers_bind; [apply ask_ok; by apply (truth_ok opt)|apply answers_none|]. intros t Ht. apply conclude_ok; [done|done|].
      destruct t; simpl; [by apply Ht|]. split; [|done]. intros H. by apply Ht in H.
    + eapply answers_lift; [exact En|]. eapply answers_bind; [apply ask_ok; apply (truth_ok opt); by rewrite ?Ecs|apply answers_none|].
      intros t Ht. apply conclude_ok; [done|done|]. destruct t; simpl; [by apply Hv, Ht|]. split; [done|]. intros H. by apply Hv, Ht in H.
Qed.
Lemma caching_truth q : asking q -> answers cache_inv (caching_computeTruth opt impl q) (fun b => b = true <-> valid q).
Proof.
  intros (Hg & Hm & Hw).
  assert (Hask : forall hit : option PartialValidity, (forall pv, hit = Some pv -> ~ never q) -> answers cache_inv
    (t ← ask (computeTruth impl q);
     match t with
     | None => mret None
     | Some isValid =>
         cacheInsert opt q (if isValid : bool then MustBeTrue else match hit with Some _ => TrueOrFalse | None => MayBeFalse end);;
         mret (Some isValid)
     end) (fun b => b = true <-> valid q)).
  { intros hit Hhit. eapply answers_bind; [apply ask_ok; by apply (truth_ok opt)|apply answers_none|]. intros t Ht c Hc.
    eapply runs_step; [apply insert_runs; [done|done| | |done]|].
    - destruct t; simpl; [by apply Ht|]. destruct hit as [pv|]; simpl; [split; [|by apply (Hhit pv)]|]; intros H; by apply Ht in H.
    - by destruct t, hit.
    - intros [] c' Hc'. apply runs_ret. split; [done|]. by intros a [= <-]. }
  apply looked_up; [done|done|by apply (Hask None)|]. intros pv Hp Hne.
  destruct pv; try (apply answers_some; simpl in Hp; split; (done || tauto)).
  - apply answers_some. simpl in Hp. split; [done|]. intros Hv. by destruct (never_valid q Hg Hp).
  - apply (Hask (Some MayBeTrue)). by intros ? _.
Qed.
#[export] Instance caching_ok : SolverOk opt may (CachingSolverImpl opt impl) cache_inv.
Proof.
  split; cbn [CachingSolverImpl computeTruth computeValidity computeValue computeInitialValues].
  - intros q Hg Hm Hw. by apply caching_truth.
  - intros q Hg Hm Hw. by apply caching_validity.
  - intros q Hg Hm. by apply ask_ok, (value_ok opt).
  - intros q objects Ha Hn Hm Ho. by apply ask_ok, (initial_ok opt).
Qed.
End Ok.
End CachingSolver.
