(* ===== verification/SolverStack.v ===== *)
(** * The stack of solvers

src/lib/Basic/ConstructSolverChain.cpp with the theorem on sequences of questions
    ([SolverStack]), and concrete questions ([SolverStackMain]). *)
From stdpp Require Import base gmap list strings numbers countable.
From Stdlib Require Import ZArith Lia.
From S2P Require Import Prelude MapOfSets ExprData ExprFacts ExprOrder ExprCreate ExprSound ExprEval ExprMain ExprUtil.
From S2P Require Import ConstraintsMain Solver SolverOk StpSolver IndepSolver IndepOk IndepSpec.
From S2P Require Import CachingSolver CexCaching CexOk ExprTotal SolverMain.

(** * The stack of solvers

    lib/Basic/ConstructSolverChain.cpp: the solvers on top of each other as the command line
    says, and what every question to the stack answers. *)
Module SolverStack.
Import Expr ExprOrder Create ExprUtil ConstraintsMain Solver SolverOk StpSolver IndepSolver IndepOk IndepMain IndepSpec.
Import IncompleteSolver CexCaching CexOk CachingSolver.

(** A solver with its state. *)
Record solver : Type := MkSolver { state : Type; impl : SolverImpl state; current : state }.

Record ChainOptions : Type := MkChainOptions {
  UseFastCexSolver : bool;
  UseCexCache : bool;
  UseCache : bool;
  UseIndependentSolver : bool;
  cex_options : Options
}.

Section Chain.
Context {ap : APInt} (ConstArrayOpt : bool) {host : Host} (FastCexSolver : IncompleteSolver) (options : ChainOptions).
Definition createFastCexSolver (s : solver) : solver :=
  MkSolver (state s) (StagedSolverImpl ConstArrayOpt FastCexSolver (impl s)) (current s).
Definition createCexCachingSolver (s : solver) : solver :=
  MkSolver (CexCaching.CexCachingSolver (state s)) (CexCachingSolverImpl ConstArrayOpt (cex_options options) (impl s))
    (CexCaching.createCexCachingSolver (current s)).
Definition createCachingSolver (s : solver) : solver :=
  MkSolver (CachingSolver.CachingSolver (state s)) (CachingSolverImpl ConstArrayOpt (impl s)) (CachingSolver.createCachingSolver (current s)).
Definition createIndependentSolver (s : solver) : solver :=
  MkSolver (state s) (IndependentSolver ConstArrayOpt (impl s)) (current s).
(** The options that log queries or check answers against a second solver are off. *)
Definition constructSolverChain (coreSolver : solver) : solver :=
  let s := coreSolver in
  let s := if UseFastCexSolver options then createFastCexSolver s else s in
  let s := if UseCexCache options then createCexCachingSolver s else s in
  let s := if UseCache options then createCachingSolver s else s in
  if UseIndependentSolver options then createIndependentSolver s else s.
End Chain.

(** A sequence of questions, each of any kind. *)
Inductive question : Type :=
  | AskTruth (q : Query)
  | AskValidity (q : Query)
  | AskValue (q : Query)
  | AskInitialValues (q : Query) (objects : list array).
Inductive reply : Type :=
  | SaysTruth (b : bool)
  | SaysValidity (v : Validity)
  | SaysValue (e : expr)
  | SaysInitialValues (r : bool * list (list Z)).
(** [None]: the solver failed. *)
Definition pose_ {St} (s : SolverImpl St) (x : question) : M St (option reply) :=
  match x with
  | AskTruth q => r ← computeTruth s q; mret (SaysTruth <$> r)
  | AskValidity q => r ← computeValidity s q; mret (SaysValidity <$> r)
  | AskValue q => r ← computeValue s q; mret (SaysValue <$> r)
  | AskInitialValues q objects => r ← computeInitialValues s q objects; mret (SaysInitialValues <$> r)
  end.
Fixpoint session {St} (s : SolverImpl St) (xs : list question) : M St (list (option reply)) :=
  match xs with [] => mret [] | x :: xs => r ← pose_ s x; rs ← session s xs; mret (r :: rs) end.

(** ** What the stack promises *)
Section Promise.
Context {con : Contents} {sep : Separable} {ap : APInt} {ap_ok : APIntOk} (opt : bool) {host : Host} {hok : HostOk}.

(** The questions that may be asked, and the answers that are right. *)
Definition proper (may : list expr -> Prop) (x : question) : Prop :=
  match x with
  | AskTruth q | AskValidity q => good q /\ may (constraints q) /\ getWidth (query q) = 1
  | AskValue q => good q /\ may (constraints q)
  | AskInitialValues q objects => askable q /\ not_true q /\ (forall cs, conjuncts opt q cs -> may cs) /\ Forall byte_array objects
  end.
Definition right (x : question) (r : reply) : Prop :=
  match x, r with
  | AskTruth q, SaysTruth b => b = true <-> valid q
  | AskValidity q, SaysValidity v => validity q v
  | AskValue q, SaysValue e => exists v, e = Constant (getWidth (query q)) v /\ value_of q v
  | AskInitialValues q objects, SaysInitialValues r => solution q objects r
  | _, _ => False
  end.
(** In its current state the solver keeps its promise, and so it does from then on. *)
Definition keeps (may : list expr -> Prop) (s : solver) : Prop := exists inv, SolverOk opt may (impl s) inv /\ inv (current s).

Lemma pose_ok {St} may (s : SolverImpl St) inv x : SolverOk opt may s inv -> proper may x -> answers inv (pose_ s x) (right x).
Proof.
  intros Hs. destruct x as [q|q|q|q objects]; cbn [proper pose_]; intros H.
  - destruct H as (H1 & H2 & H3). eapply fmap_answers; [by apply (truth_ok opt)|done].
  - destruct H as (H1 & H2 & H3). eapply fmap_answers; [by apply (validity_ok opt)|done].
  - destruct H as (H1 & H2). eapply fmap_answers; [by apply (value_ok opt)|done].
  - destruct H as (H1 & H2 & H3 & H4). eapply fmap_answers; [by apply (initial_ok opt)|done].
Qed.
Lemma session_ok {St} may (s : SolverImpl St) inv xs : SolverOk opt may s inv -> Forall (proper may) xs ->
  forall st, inv st -> runs (session s xs) st (fun rs _ => Forall2 (fun x r => forall a, r = Some a -> right x a) xs rs).
Proof.
  intros Hs. induction xs as [|x xs IH]; intros Hx st Hst; cbn [session]; [apply runs_ret; constructor|].
  apply Forall_cons_iff in Hx as [Hx Hxs]. eapply runs_step; [by apply (pose_ok may s inv)|]. intros r st' [Hst' Hr].
  eapply runs_step; [by apply (IH Hxs)|]. intros rs st'' Hrs. apply runs_ret. by constructor.
Qed.

Lemma answers_weaken may may' {St} (s : SolverImpl St) inv :
  (forall cs, may' cs -> may cs) -> SolverOk opt may s inv -> SolverOk opt may' s inv.
Proof.
  intros H Hs. split.
  - intros q Hg Hm Hw. apply (truth_ok opt); auto.
  - intros q Hg Hm Hw. apply (validity_ok opt); auto.
  - intros q Hg Hm. apply (value_ok opt); auto.
  - intros q objects Ha Hn Hm Ho. apply (initial_ok opt); auto.
Qed.
Lemma keeps_weaken may may' s : (forall cs, may' cs -> may cs) -> keeps may s -> keeps may' s.
Proof. intros H (inv & Hs & Hc). exists inv. split; [by apply (answers_weaken may)|done]. Qed.
Lemma all_apart cs : apart cs cs.
Proof.
  exists [], (fun _ _ => True). rewrite app_nil_r. split_and!; [done| |constructor]. apply list.Forall_forall. intros e _ init init' _ _ H.
  apply eval_local. intros r _. assert (Hi : forall a i, initial init a i = initial init' a i) by (intros a i; unfold initial; by rewrite H).
  destruct r; simpl; auto. by destruct r.
Qed.
Lemma parts_may may cs : parts may cs -> may cs.
Proof. intros [_ H]. apply H, all_apart. Qed.

Lemma keeps_staged may s fast : IncompleteOk opt may fast -> keeps may s -> keeps may (createFastCexSolver opt fast s).
Proof. intros Hf (inv & Hs & Hc). exists inv. split; [by apply staged_ok|done]. Qed.
Lemma keeps_cex options s : keeps (fun _ => True) s -> keeps (grounded opt) (createCexCachingSolver opt options s).
Proof.
  intros (inv & Hs & Hc). exists (cex_inv inv). split; [by apply cex_caching_ok|]. split; cbn; [done|apply MapOfSets.wf_empty| |constructor].
  intros key a. by rewrite MapOfSets.lookup_empty.
Qed.
Lemma keeps_caching may s : keeps may s -> keeps may (createCachingSolver opt s).
Proof. intros (inv & Hs & Hc). exists (cache_inv inv). split; [by apply caching_ok|]. split; [done|constructor]. Qed.
Lemma keeps_independent may s : keeps may s -> keeps (parts may) (createIndependentSolver opt s).
Proof. intros (inv & Hs & Hc). exists inv. split; [by apply independent_ok|done]. Qed.

(** What the chain asks of constraints. *)
Definition chain_may : list expr -> Prop := parts (grounded opt).
Lemma chain_keeps fast options core :
  (UseFastCexSolver options = true -> IncompleteOk opt (fun _ => True) fast) -> keeps (fun _ => True) core ->
  keeps chain_may (constructSolverChain opt fast options core).
Proof.
  intros Hf Hcore. unfold constructSolverChain.
  assert (H1 : keeps (fun _ => True) (if UseFastCexSolver options then createFastCexSolver opt fast core else core)).
  { destruct (UseFastCexSolver options); [apply keeps_staged; [by apply Hf|done]|done]. }
  revert H1. generalize (if UseFastCexSolver options then createFastCexSolver opt fast core else core). intros s1 H1.
  assert (H2 : keeps (grounded opt) (if UseCexCache options then createCexCachingSolver opt options s1 else s1)).
  { destruct (UseCexCache options); [by apply keeps_cex|by apply (keeps_weaken (fun _ => True))]. }
  revert H2. generalize (if UseCexCache options then createCexCachingSolver opt options s1 else s1). intros s2 H2.
  assert (H3 : keeps (grounded opt) (if UseCache options then createCachingSolver opt s2 else s2)).
  { destruct (UseCache options); [by apply keeps_caching|done]. }
  revert H3. generalize (if UseCache options then createCachingSolver opt s2 else s2). intros s3 H3.
  destruct (UseIndependentSolver options); [by apply keeps_independent|]. apply (keeps_weaken (grounded opt)); [|done].
  intros cs. apply parts_may.
Qed.

(** C3. Whatever solvers the options put on top of each other - the fast, the counterexample
    caching, the caching and the independent solver, with the validating and the logging ones
    off - over a decision procedure that is right: in any sequence of questions, each on a
    well-formed query that may be asked of the chain ([proper chain_may]), the stack
    stops at no assertion, and every answer that it gives is right, although the caches
    answer from what earlier questions left in them. Other questions can stop it
    ([SolverStackMain.impossible_value_stops]). *)
Theorem chain_answers {St : Type} (core : Query -> list array -> M St (option (bool * list (list Z)))) (inv : St -> Prop) (s0 : St)
    (fast : IncompleteSolver) (options : ChainOptions) (xs : list question) :
  CoreOk core inv -> inv s0 -> (UseFastCexSolver options = true -> IncompleteOk opt (fun _ => True) fast) ->
  Forall (proper chain_may) xs ->
  let chain := constructSolverChain opt fast options (MkSolver St (STPSolverImpl opt core) s0) in
  runs (session (impl chain) xs) (current chain) (fun rs _ => Forall2 (fun x r => forall a, r = Some a -> right x a) xs rs).
Proof.
  intros Hcore H0 Hf Hx. simpl.
  destruct (chain_keeps fast options (MkSolver St (STPSolverImpl opt core) s0) Hf) as (inv' & Hs & Hc).
  { exists inv. split; [by apply stp_ok|done]. }
  by apply (session_ok chain_may _ inv').
Qed.
End Promise.
End SolverStack.

(** * The stack of solvers on concrete questions

    All the solvers over the one that tries all inputs; what a repeated question is answered. *)
Module SolverStackMain.
Import Expr ExprOrder Create Sound ExprMain ExprKeep ExprUtil ConstraintsMain Solver SolverOk StpSolver IndepSolver IndepMain CexCaching CexOk SolverTable SolverMain SolverStack.

(** Addresses that tell arrays apart. *)
#[export] Instance some_host : Host := {| hash_value w v := v; address a := Zpos (encode a) |}.
#[export] Instance some_host_ok : HostOk.
Proof. intros a b [= H]. by apply encode_inj. Qed.

(** An expression with the smaller hash comes first, here after the name of the array. *)
Lemma compare_total_order_witness :
  let c := Binary Eq (Constant 8 2) x0 in
  compare x0 c < 0 /\ compare c x0 = 1 /\ (compare x0 x0 = 0 <-> x0 = x0).
Proof.
  pose proof (compare_total_order x0 (Binary Eq (Constant 8 2) x0) x0) as (_ & H2 & _).
  pose proof (compare_total_order x0 x0 x0) as (H1 & _ & _). intros c. subst c.
  split; [vm_compute; reflexivity|]. split; [rewrite H2; vm_compute; reflexivity|exact H1].
Defined.

(** The decision procedure. *)
Definition core (q : Query) (objects : list array) : M unit (option (bool * list (list Z))) := computeInitialValues table_solver q objects.
#[export] Instance core_right : CoreOk core (fun _ => True).
Proof.
  intros q objects Ha Ho. apply answers_some. destruct (List.find _ _) as [init|] eqn:Ef.
  - apply List.find_some in Ef as [Hi Hv%bool_decide_eq_true]. apply list_elem_of_In, solutions_in in Hi as [_ Hm]. exists init.
    split_and!; [done|done|]. apply Forall2_fmap_r, Forall_Forall2_diag. eapply list.Forall_impl; [exact Ho|].
    intros a. by apply bytes_holds, Hm.
  - intros init Hm Hv. destruct (model_solution _ init Hm) as (i & Hi & He). apply list_elem_of_In in Hi.
    pose proof (List.find_none _ _ Ef i Hi) as Hf. simpl in Hf. rewrite He in Hv. by apply bool_decide_eq_false in Hf.
Qed.
Definition no_fast : IncompleteSolver.IncompleteSolver :=
  IncompleteSolver.MkIncompleteSolver (fun _ => Ret IncompleteSolver.Nothing) (fun _ => Ret IncompleteSolver.Nothing)
    (fun _ => Ret None) (fun _ _ => Ret None).
Definition all_on : ChainOptions := MkChainOptions false true true true (MkOptions true false true false).
Definition chain : solver := constructSolverChain false no_fast all_on (MkSolver unit (STPSolverImpl false core) tt).

Definition below (n : Z) : Query := withExpr asked (Binary Ult x0 (Constant 8 n)).
Definition questions : list question :=
  [AskTruth (below 3); AskTruth (below 3); AskTruth (below 2); AskValidity (below 2); AskValue asked;
   AskInitialValues (withFalse asked) [arr]].
Example session_answers :
  session (impl chain) questions (current chain) =
  match session (impl chain) questions (current chain) with
  | Ret (_, s) =>
      Ret ([Some (SaysTruth true); Some (SaysTruth true); Some (SaysTruth false); Some (SaysValidity VUnknown);
            Some (SaysValue (Constant 8 2)); Some (SaysInitialValues (true, [[2; 0; 0; 0]]))], s)
  | Stop e => Stop e
  end.
Proof. vm_compute. reflexivity. Qed.

(** The constraints of [asked] may be given to every solver of the stack. *)
Lemma constraint_defined e init : e ∈ constraints asked -> contents init -> is_Some (eval init e).
Proof.
  intros He Hc. destruct (input_of init Hc) as (i & Hi & ->). apply in_inputs in Hi as (x & y & -> & _).
  cbn in He. repeat (apply elem_of_cons in He as [->|He]; [cbn; by eexists|]). by apply elem_of_nil in He.
Qed.
Lemma asked_may : chain_may false (constraints asked).
Proof.
  split; [apply asked_parts|]. intros sub (rest & S & Hp & _ & _).
  assert (Hin : forall e, e ∈ sub -> e ∈ constraints asked) by (intros e He; rewrite <- Hp; apply elem_of_app; by left).
  pose proof (go_cs _ asked_good) as Hb. pose proof asked_tidy as [_ Ht]%Forall_cons_iff. rewrite list.Forall_forall in Hb, Ht.
  apply always_defined_grounded; [apply list.Forall_forall; auto..|]. intros init Hc. apply list.Forall_forall. intros e He.
  by apply constraint_defined; [apply Hin|].
Qed.
Lemma below_good n : 0 <= n < 256 -> good (below n).
Proof.
  intros Hn. pose proof asked_good as [H1 H2 H3 _ Ht]. apply Forall_cons_iff in Ht as [Hx Ht].
  assert (Hc : width_ok (Constant 8 n) = true) by (apply constant_ok; lia).
  split; cbn [below withExpr constraints query]; [done|done| | |].
  - by apply binary_ok.
  - intros init [Hc0 _]. destruct (input_of init Hc0) as (i & Hi & ->). apply in_inputs in Hi as (x & y & -> & _). cbn. by eexists.
  - constructor; [|done]. apply (keeps_binary tidy tidy_hereditary); [done|done|]. apply (he_constant tidy tidy_hereditary).
Qed.
Lemma arr_bytes : Forall byte_array [arr].
Proof. by repeat constructor. Qed.
Lemma questions_proper : Forall (proper false (chain_may false)) questions.
Proof.
  assert (Hb : forall n, 0 <= n < 256 -> good (below n) /\ chain_may false (constraints (below n)) /\ getWidth (query (below n)) = 1).
  { intros n Hn. split_and!; [by apply below_good|exact asked_may|done]. }
  repeat (apply Forall_cons_iff; split); [by apply Hb..| | |done].
  - split; [exact asked_good|exact asked_may].
  - split_and!; [apply false_askable, asked_good|by intros w v [= _ <-]| |exact arr_bytes].
    intros cs [[_ ->]|(n & _ & H & _)]; [exact asked_may|done].
Qed.
Lemma chain_answers_witness :
  exists rs s, session (impl chain) questions (current chain) = Ret (rs, s) /\
    rs = [Some (SaysTruth true); Some (SaysTruth true); Some (SaysTruth false); Some (SaysValidity VUnknown);
          Some (SaysValue (Constant 8 2)); Some (SaysInitialValues (true, [[2; 0; 0; 0]]))] /\
    valid (below 3) /\ ~ valid (below 2).
Proof.
  pose proof session_answers as E. pose proof (chain_answers false core (fun _ => True) tt no_fast all_on questions core_right I ltac:(done) questions_proper) as H.
  destruct (runs_out _ _ _ H) as (rs & s & E' & Hr). fold chain in E'. rewrite E' in E. injection E as ->.
  eexists _, s. split; [exact E'|]. split; [reflexivity|].
  apply Forall2_cons_1 in Hr as [H1 Hr]. apply Forall2_cons_1 in Hr as [_ Hr]. apply Forall2_cons_1 in Hr as [H3 _].
  split; [by apply (H1 _ eq_refl)|]. intros Hv. by apply (H3 _ eq_refl) in Hv.
Defined.

(** What follows from constraints follows from more of them; but when the cache knows that a
    subset of the key has no solution, the question fails, and so it does when it is asked
    again of [CexCachingSolver]. *)
Definition more : Query := MkQuery (Binary Ult x0 (Constant 8 200) :: constraints asked) (query (below 3)).
Definition cex : solver := createCexCachingSolver false all_on (MkSolver unit (STPSolverImpl false core) tt).
Example known_truth_fails :
  match session (impl chain) [AskTruth (below 3); AskTruth more] (current chain) with
  | Ret (rs, _) => rs = [Some (SaysTruth true); None]
  | Stop _ => False
  end /\
  match session (impl cex) [AskTruth (below 3); AskTruth (below 3)] (current cex) with
  | Ret (rs, _) => rs = [Some (SaysTruth true); None]
  | Stop _ => False
  end.
Proof. vm_compute. split; reflexivity. Qed.

(** The value of an expression under constraints without a solution: [CexCachingSolver] does
    not fail but asserts that there is an assignment. A caller that tries constraints to see
    whether they are possible, as the search for a worst-case address in
    ContentionSetCacheModel.cpp, is stopped. *)
Definition impossible : Query := MkQuery (Binary Ult x0 (Constant 8 1) :: constraints asked) x0.
Example impossible_value_stops : session (impl cex) [AskValue impossible] (current cex) = Stop AssertFailed.
Proof. vm_compute. reflexivity. Qed.
End SolverStackMain.
