(* ===== verification/Paths.v ===== *)
(** * Paths and their solutions

    What the parts of the executor that ask the solver about a path share:
    lib/Core/TimingSolver.cpp, through which they ask ([TimingSolver]); and [Paths]:
    computations that answer with enough fuel, the solutions of the constraints of a path,
    what simplifying under the constraints and adding one do to them, and what a solver
    promises that decides conditions and gives values. [TryAll] is one such solver, for
    examples. *)
From stdpp Require Import base gmap list strings numbers.
From Stdlib Require Import ZArith Lia.
From S2P Require Import Prelude ExprData ExprFacts ExprCreate ExprSound ExprEval ExprMain.
From S2P Require Import Constraints ConstraintsOk ConstraintsMain Solver.

(** * The solver of the executor

    The time of the queries, which it adds up, is left out. *)
Module TimingSolver.
Import Expr Create Solver.
Section Ask.
Context {ap : APInt} (ConstArrayOpt simplifyExprs : bool) {St : Type} (solver : SolverImpl St) (fuel : nat).

(** [expr = state.constraints.simplifyExpr(expr)], with the option for it. *)
Definition timing_simplify (cs : list expr) (e : expr) : M St expr :=
  if simplifyExprs then lift (Constraints.simplifyExpr ConstArrayOpt fuel cs e) else mret e.
Definition timing_evaluate (cs : list expr) (e : expr) : M St (option Validity) :=
  match e with
  | Constant w v => mret (Some (if isTrue w v then VTrue else VFalse))
  | _ => e ← timing_simplify cs e; evaluate solver (MkQuery cs e)
  end.
Definition timing_mustBeTrue (cs : list expr) (e : expr) : M St (option bool) :=
  match e with
  | Constant w v => mret (Some (isTrue w v))
  | _ => e ← timing_simplify cs e; mustBeTrue solver (MkQuery cs e)
  end.
Definition timing_mustBeFalse (cs : list expr) (e : expr) : M St (option bool) :=
  z ← lift (createIsZero ConstArrayOpt e); timing_mustBeTrue cs z.
Definition timing_mayBeTrue (cs : list expr) (e : expr) : M St (option bool) :=
  r ← timing_mustBeFalse cs e; mret (negb <$> r).
Definition timing_mayBeFalse (cs : list expr) (e : expr) : M St (option bool) :=
  r ← timing_mustBeTrue cs e; mret (negb <$> r).
Definition timing_getValue (cs : list expr) (e : expr) : M St (option expr) :=
  if isConstant e then mret (Some e)
  else e ← timing_simplify cs e; getValue solver (MkQuery cs e).
Definition timing_getInitialValues (cs : list expr) (objects : list array) : M St (option (list (list Z))) :=
  match objects with
  | [] => mret (Some [])
  | _ => getInitialValues solver (MkQuery cs (Constant Bool 0)) objects
  end.
(** [Solver::getRange] has loops of its own. *)
Definition timing_getRange (loops : nat) (cs : list expr) (e : expr) : M St (expr * expr) :=
  getRange ConstArrayOpt solver loops (MkQuery cs e).
End Ask.
End TimingSolver.

Module Paths.
Import Expr ExprFacts Create Sound ExprMain Weight Constraints ConstraintsOk ConstraintsMain Solver TimingSolver.

(** ** Computations with enough fuel *)
Definition eventually {S A} (run : nat -> M S A) (s : S) (Q : A -> S -> Prop) : Prop :=
  exists a s', gives (fun n => run n s) (a, s') /\ Q a s'.

Lemma ev_ret {S A} (a : A) (s : S) Q : Q a s -> eventually (fun _ => mret a) s Q.
Proof. intros H. exists a, s. split; [by apply gives_ret|done]. Qed.
Lemma ev_bind {S A B} (run : nat -> M S A) (f : nat -> A -> M S B) s P Q :
  eventually run s P -> (forall a s', P a s' -> eventually (fun n => f n a) s' Q) ->
  eventually (fun n => run n ≫= f n) s Q.
Proof.
  intros (a & s' & [n Hn] & Ha) Hf. destruct (Hf a s' Ha) as (b & s'' & [n' Hn'] & Hb). exists b, s''. split; [|done].
  exists (Nat.max n n'). intros k Hk. unfold mbind, M_bind. rewrite Hn by lia. apply Hn'. lia.
Qed.
Lemma ev_runs {S A} (m : M S A) s Q : runs m s Q -> eventually (fun _ => m) s Q.
Proof. intros (a & s' & E & H)%runs_out. exists a, s'. split; [by exists O|done]. Qed.
Lemma ev_lift {S A B} (r : nat -> result A) (f : nat -> A -> M S B) s Q a :
  gives r a -> eventually (fun n => f n a) s Q -> eventually (fun n => lift (r n) ≫= f n) s Q.
Proof.
  intros [n Hn] (b & s' & [n' Hn'] & Hb). exists b, s'. split; [|done]. exists (Nat.max n n'). intros k Hk.
  unfold mbind, M_bind, lift. rewrite Hn by lia. apply Hn'. lia.
Qed.
Lemma ev_lift_const {S A B} (r : result A) (f : nat -> A -> M S B) s Q a :
  r = Ret a -> eventually (fun n => f n a) s Q -> eventually (fun n => lift r ≫= f n) s Q.
Proof. intros ->. apply (ev_lift (fun _ => Ret a)), gives_ret. Qed.
Lemma ev_mono {S A} (run : nat -> M S A) s (P Q : A -> S -> Prop) :
  eventually run s P -> (forall a s', P a s' -> Q a s') -> eventually run s Q.
Proof. intros (a & s' & H & Ha) HPQ. exists a, s'. auto. Qed.
Lemma ev_get {S B} (f : nat -> S -> M S B) s Q : eventually (fun n => f n s) s Q -> eventually (fun n => get ≫= f n) s Q.
Proof. done. Qed.
Lemma ev_zoom {S T A} (look : S -> T) (upd : T -> S -> S) (run : nat -> M T A) s (Q : A -> S -> Prop) :
  eventually run (look s) (fun a t => Q a (upd t s)) -> eventually (fun n => zoom look upd (run n)) s Q.
Proof.
  intros (a & t & [n Hn] & Ha). exists a, (upd t s). split; [|done]. exists n. intros m Hm. unfold zoom. by rewrite Hn.
Qed.

(** ** Solutions

    The contents of the arrays that the solver ranges over. Arrays are total in them, and
    expressions have no divisions, so that they have values. *)
Class Inputs : Type := {
  inputs : (array -> Z -> option Z) -> Prop;
  inputs_init init : inputs init -> init_ok init;
  inputs_full init : inputs init -> full init
}.
Section Solutions.
Context {ins : Inputs}.
Record solution (cs : list expr) (init : array -> Z -> option Z) : Prop := {
  sol_in : inputs init;
  sol_holds : Forall (holds init) cs
}.
Lemma sol_init cs init : solution cs init -> init_ok init.
Proof. intros [H _]. by apply inputs_init. Qed.
Lemma sol_full cs init : solution cs init -> full init.
Proof. intros [H _]. by apply inputs_full. Qed.
Record path_ok (cs : list expr) : Prop := { pa_bool : Forall bool_ok cs; pa_divs : divs cs = O }.
Record asked (w : Z) (e : expr) : Prop := { as_ok : width_ok e = true; as_width : getWidth e = w; as_divs : divisions e = O }.

(** What the solver promises: where the constraints have a solution, the value of the
    expression in one of them. *)
Class GivesValues {St : Type} (impl : SolverImpl St) (inv : St -> Prop) : Prop :=
  gives_value q w : path_ok (Solver.constraints q) -> asked w (query q) -> (exists init, solution (Solver.constraints q) init) ->
    forall s, inv s -> runs (computeValue impl q) s (fun r s' => inv s' /\
      exists v init, r = Some (Constant w v) /\ solution (Solver.constraints q) init /\ eval init (query q) = Some v).

Section Path.
Context {ap : APInt} {ap_ok : APIntOk} (RewriteEqualities : bool).

Lemma asked_defined w e init : asked w e -> init_ok init -> full init -> exists v, eval init e = Some v.
Proof. intros [H1 _ H2] Hi Hf. by apply eval_defined. Qed.
Lemma sol_defined w e cs init : asked w e -> solution cs init -> exists v, eval init e = Some v.
Proof. intros He Hs. eapply asked_defined; [done|by eapply sol_init|by eapply sol_full]. Qed.

(** A binary expression without divisions. *)
Lemma binary_created k w l r :
  asked w l -> asked w r -> is_div k = false ->
  exists e, create_binary false k l r = Ret e /\ asked (getWidth (Binary k l r)) e /\
    forall init v, init_ok init -> eval init (Binary k l r) = Some v -> eval init e = Some v.
Proof.
  intros [Hl Wl Dl] [Hr Wr Dr] Hk.
  destruct (implements_all false (Binary k l r) (create_binary false k l r)) as (e & E & H1 & H2 & H3).
  { intros init [Hi Ho]. apply create_binary_impl; try done; [congruence|]. unfold div_ok. by rewrite Hk. }
  exists e. split; [done|]. split.
  - split; [done|done|]. pose proof (create_binary_light 0 1 0 ltac:(lia) k l r e E) as Hd. unfold dk in Hd. rewrite Hk in Hd.
    change (weight 0 1 0) with divisions in Hd. lia.
  - intros init v Hi. apply H3. by split.
Qed.

(** Simplification under the constraints. *)
Lemma simplified cs w e init0 :
  path_ok cs -> solution cs init0 -> asked w e ->
  exists e', gives (fun n => simplifyExpr false n cs e) e' /\ asked w e' /\
    forall init, solution cs init -> eval init e' = eval init e.
Proof.
  intros [Hb Hd] Hs0 He. destruct (sol_defined w e cs init0 He Hs0) as [v0 Hv0]. pose proof He as [Ho Hw Hde].
  destruct (simplify_ok init0 cs e v0 (S (mass e)) (sol_init _ _ Hs0) Hb (sol_holds _ _ Hs0) Ho Hv0 ltac:(lia))
    as (e' & E & (K1 & K2 & _) & _).
  exists e'. split; [exists (S (mass e)); intros m Hm; by eapply simplify_more|]. split.
  - split; [done|congruence|]. pose proof (simplify_divisions _ _ _ _ E). lia.
  - intros init Hs. destruct (sol_defined w e cs init He Hs) as [v Hv].
    destruct (simplify_ok init cs e v (S (mass e)) (sol_init _ _ Hs) Hb (sol_holds _ _ Hs) Ho Hv ltac:(lia))
      as (e'' & E' & (_ & _ & K) & _).
    rewrite E in E'. injection E' as <-. congruence.
Qed.

(** Adding a constraint that holds in a solution. *)
Lemma added cs e init0 :
  path_ok cs -> asked 1 e -> solution cs init0 -> holds init0 e ->
  exists cs', gives (fun n => addConstraint false RewriteEqualities n e cs) cs' /\ path_ok cs' /\
    forall init, solution cs' init <-> solution cs init /\ holds init e.
Proof.
  intros [Hb Hd] [Ho Hw Hde] Hs0 He. pose proof (sol_init _ _ Hs0) as Hi. pose proof (sol_holds _ _ Hs0) as Hh.
  destruct (addConstraint_extends RewriteEqualities init0 cs e) as (cs' & H1 & H2 & H3 & H4 & H5); try done.
  exists cs'. split; [done|]. split; [split; [done|lia]|]. intros init. split.
  - intros Hs. destruct (H5 init) as [G1 G2]; [by eapply sol_init|by eapply sol_full|done|done|by apply Hs|].
    split; [|done]. split; [apply Hs|done].
  - intros [Hs He']. split; [apply Hs|]. apply H4; [by eapply sol_init|apply Hs|done].
Qed.
(** ** Conditions *)
Lemma asked_bool e cs init : asked 1 e -> solution cs init -> eval init e = Some 1 \/ eval init e = Some 0.
Proof.
  intros He Hs. destruct (sol_defined 1 e cs init He Hs) as [v Hv]. destruct He as [Ho Hw _].
  pose proof (eval_fits init (sol_init _ _ Hs) e v Ho Hv) as Hf. rewrite Hw in Hf. change (2 ^ 1) with 2 in Hf. rewrite Hv.
  assert (v = 0 \/ v = 1) as [-> | ->] by lia; auto.
Qed.
Lemma is_zero_ok e : asked 1 e -> exists z, createIsZero false e = Ret z /\ asked 1 z /\
  forall cs init, solution cs init -> (holds init z <-> ~ holds init e).
Proof.
  intros He. pose proof He as [Ho Hw Hd]. unfold createIsZero. rewrite Hw.
  destruct (binary_created Eq 1 e (Constant 1 0)) as (z & E & B & V); [done|by split|done|]. simpl in B.
  exists z. split; [exact E|]. split; [done|]. intros cs init Hs. unfold holds.
  destruct (asked_bool e cs init He Hs) as [Hv|Hv]; rewrite Hv.
  - pose proof (V init 0 (sol_init _ _ Hs)) as H. simpl in H. rewrite Hv in H. simpl in H. rewrite H by done. split; [done|congruence].
  - pose proof (V init 1 (sol_init _ _ Hs)) as H. simpl in H. rewrite Hv in H. simpl in H. rewrite H by done. split; [done|congruence].
Qed.

(** What an answer to whether a condition holds says of the solutions. *)
Definition verdict (cs : list expr) (e : expr) (v : Validity) : Prop :=
  match v with
  | VTrue => forall init, solution cs init -> holds init e
  | VFalse => forall init, solution cs init -> ~ holds init e
  | VUnknown => (exists init, solution cs init /\ holds init e) /\ (exists init, solution cs init /\ ~ holds init e)
  end.
Lemma verdict_ext cs e e' v : (forall init, solution cs init -> eval init e' = eval init e) -> verdict cs e' v -> verdict cs e v.
Proof.
  intros H. assert (Hh : forall init, solution cs init -> (holds init e' <-> holds init e)) by (intros init Hs; unfold holds; by rewrite H).
  destruct v; simpl; [intros Ha init Hs; by apply Hh, Ha|intros Ha init Hs; rewrite <- Hh by done; by apply Ha|].
  intros [(i1 & S1 & H1) (i2 & S2 & H2)]. split; [exists i1; split; [done|by apply Hh]|exists i2; split; [done|by rewrite <- Hh]].
Qed.
Lemma verdict_constant cs w v : asked 1 (Constant w v) -> verdict cs (Constant w v) (if isTrue w v then VTrue else VFalse).
Proof.
  intros [Ho Hw _]. simpl in Ho, Hw. subst w. unfold isTrue. simpl. destruct (nz v) eqn:E.
  - intros init _. apply nz_true in E. unfold holds. simpl. f_equal. apply andb_true_iff in Ho as [_ Hf]. apply fits_iff in Hf. lia.
  - intros init _ H. apply nz_false in E. unfold holds in H. simpl in H. congruence.
Qed.

(** What the solver promises: it may fail, and answers right otherwise. *)
Class Decides {St : Type} (impl : SolverImpl St) (inv : St -> Prop) : Prop := {
  decides_validity q : path_ok (Solver.constraints q) -> asked 1 (query q) -> (exists init, solution (Solver.constraints q) init) ->
    forall s, inv s -> runs (computeValidity impl q) s (fun r s' => inv s' /\ forall v, r = Some v -> verdict (Solver.constraints q) (query q) v);
  decides_truth q : path_ok (Solver.constraints q) -> asked 1 (query q) -> (exists init, solution (Solver.constraints q) init) ->
    forall s, inv s -> runs (computeTruth impl q) s (fun r s' => inv s' /\
      forall b, r = Some b -> (b = true <-> forall init, solution (Solver.constraints q) init -> holds init (query q)))
}.

Section Timing.
Context (simplifyExprs : bool) {St : Type} (impl : SolverImpl St) (inv : St -> Prop) {decides : Decides impl inv}.
Context (cs : list expr) (init0 : array -> Z -> option Z) (Hp : path_ok cs) (Hs0 : solution cs init0).

Lemma timing_simplify_ok w e s : asked w e -> inv s ->
  eventually (fun n => timing_simplify false simplifyExprs n cs e) s
    (fun e' s' => inv s' /\ asked w e' /\ forall init, solution cs init -> eval init e' = eval init e).
Proof.
  intros He Hs. unfold timing_simplify. destruct simplifyExprs; [|by apply ev_ret].
  destruct (simplified cs w e init0 Hp Hs0 He) as (e' & [n Hn] & H1 & H2). exists e', s. split; [|done].
  exists n. intros m Hm. unfold lift. by rewrite Hn.
Qed.
(** The solver has no answer to some question. *)
Definition gives_up : Prop :=
  exists q s s', inv s /\ (computeValidity impl q s = Ret (None, s') \/ computeTruth impl q s = Ret (None, s')).
Definition decided (e : expr) (r : option Validity) : Prop := match r with Some v => verdict cs e v | None => gives_up end.
Lemma ask_validity_ok e s : asked 1 e -> inv s ->
  runs (evaluate impl (MkQuery cs e)) s (fun r s' => inv s' /\ decided e r).
Proof.
  intros He Hs. unfold evaluate. apply runs_bind, runs_assert; [cbn [query]; by rewrite (as_width _ _ He)|]. cbn [query].
  destruct (isConstant e) eqn:Ec.
  - destruct e; try done. apply runs_ret. split; [done|]. by apply verdict_constant.
  - assert (Hr : runs (computeValidity impl (MkQuery cs e)) s (fun r s' => inv s' /\ decided e r)); [|by destruct e].
    assert (Hd : runs (computeValidity impl (MkQuery cs e)) s (fun r s' => inv s' /\ forall v, r = Some v -> verdict cs e v))
      by (apply (decides_validity (MkQuery cs e)); [done|done|by exists init0|done]).
    unfold runs in *. destruct (computeValidity impl (MkQuery cs e) s) as [[r s']|] eqn:E; [|done]. destruct Hd as [H1 H2]. split; [done|].
    destruct r as [v|]; [by apply H2|]. exists (MkQuery cs e), s, s'. auto.
Qed.
Lemma timing_evaluate_ok e s : asked 1 e -> inv s ->
  eventually (fun n => timing_evaluate false simplifyExprs impl n cs e) s (fun r s' => inv s' /\ decided e r).
Proof.
  intros He Hs. destruct (isConstant e) eqn:Ec.
  { destruct e; try done. apply ev_ret. split; [done|]. by apply verdict_constant. }
  assert (H : eventually (fun n => e ← timing_simplify false simplifyExprs n cs e; evaluate impl (MkQuery cs e)) s
    (fun r s' => inv s' /\ decided e r)); [|by destruct e].
  eapply ev_bind; [by apply (timing_simplify_ok 1)|]. intros e' s' (H1 & H2 & H3).
  eapply ev_mono; [apply ev_runs, ask_validity_ok; done|]. intros r s'' [H4 H5]. split; [done|].
  destruct r as [v|]; [|done]. eapply verdict_ext; [exact H3|by apply H5].
Qed.

Lemma timing_getValue_ok w e s {values : GivesValues impl inv} : asked w e -> inv s ->
  eventually (fun n => timing_getValue false simplifyExprs impl n cs e) s
    (fun r s' => inv s' /\ exists v init, r = Some (Constant w v) /\ solution cs init /\ eval init e = Some v).
Proof.
  intros He Hs. unfold timing_getValue. destruct (isConstant e) eqn:Ec.
  { destruct e as [w' v| | | | | | | | |]; try done. apply ev_ret. split; [done|]. destruct He as [_ Hw _]. simpl in Hw. subst w'. by exists v, init0. }
  eapply ev_bind; [by apply (timing_simplify_ok w)|]. intros e' s' (H1 & H2 & H3). apply ev_runs. unfold getValue. cbn [query].
  destruct (isConstant e') eqn:Ec'.
  - destruct e' as [w' v| | | | | | | | |]; try done. apply runs_ret. split; [done|]. pose proof (as_width _ _ H2) as Hw. simpl in Hw. subst w'.
    exists v, init0. split_and!; [done|done|]. by rewrite <- H3.
  - assert (Hr : runs (r ← computeValue impl (MkQuery cs e'); match r with None => mret None | Some e => assert_ (isConstant e);; mret (Some e) end) s'
      (fun r s' => inv s' /\ exists v init, r = Some (Constant w v) /\ solution cs init /\ eval init e = Some v)); [|by destruct e'].
    eapply runs_step; [apply (gives_value (MkQuery cs e') w Hp H2); [by exists init0|done]|].
    intros r s'' (H4 & v & init & -> & H5 & H6). apply runs_ret. split; [done|]. exists v, init. split_and!; [done|done|]. by rewrite <- H3.
Qed.

(** Whether all solutions have it. *)
Definition answers (e : expr) (b : bool) : Prop := b = true <-> forall init, solution cs init -> holds init e.
Lemma answers_constant w v : asked 1 (Constant w v) -> answers (Constant w v) (isTrue w v).
Proof.
  intros Ha. pose proof (verdict_constant cs w v Ha) as H. unfold answers. destruct (isTrue w v); simpl in H.
  - split; [intros _; exact H|done].
  - split; [done|]. intros Hall. destruct (H init0 Hs0). by apply Hall.
Qed.
Definition answered (e : expr) (r : option bool) : Prop := match r with Some b => answers e b | None => gives_up end.
Lemma ask_truth_ok e s : asked 1 e -> inv s ->
  runs (mustBeTrue impl (MkQuery cs e)) s (fun r s' => inv s' /\ answered e r).
Proof.
  intros He Hs. unfold mustBeTrue. apply runs_bind, runs_assert; [cbn [query]; by rewrite (as_width _ _ He)|]. cbn [query].
  destruct (isConstant e) eqn:Ec.
  - destruct e; try done. apply runs_ret. split; [done|]. by apply answers_constant.
  - assert (Hr : runs (computeTruth impl (MkQuery cs e)) s (fun r s' => inv s' /\ answered e r)); [|by destruct e].
    assert (Hd : runs (computeTruth impl (MkQuery cs e)) s (fun r s' => inv s' /\ forall b, r = Some b -> answers e b))
      by (apply (decides_truth (MkQuery cs e)); [done|done|by exists init0|done]).
    unfold runs in *. destruct (computeTruth impl (MkQuery cs e) s) as [[r s']|] eqn:E; [|done]. destruct Hd as [H1 H2]. split; [done|].
    destruct r as [b|]; [by apply H2|]. exists (MkQuery cs e), s, s'. auto.
Qed.
Lemma timing_mustBeTrue_ok e s : asked 1 e -> inv s ->
  eventually (fun n => timing_mustBeTrue false simplifyExprs impl n cs e) s (fun r s' => inv s' /\ answered e r).
Proof.
  intros He Hs. destruct (isConstant e) eqn:Ec.
  { destruct e; try done. apply ev_ret. split; [done|]. by apply answers_constant. }
  assert (H : eventually (fun n => e ← timing_simplify false simplifyExprs n cs e; mustBeTrue impl (MkQuery cs e)) s
    (fun r s' => inv s' /\ answered e r)); [|by destruct e].
  eapply ev_bind; [by apply (timing_simplify_ok 1)|]. intros e' s' (H1 & H2 & H3).
  eapply ev_mono; [apply ev_runs, ask_truth_ok; done|]. intros r s'' [H4 H5]. split; [done|]. destruct r as [b|]; [|done].
  unfold answered, answers in *. rewrite H5. unfold holds. split; intros H init Hi; [rewrite <- H3|rewrite H3]; auto.
Qed.
(** The answer to whether no solution has it. *)
Definition refuted (e : expr) (r : option bool) : Prop :=
  match r with Some b => b = true <-> forall init, solution cs init -> ~ holds init e | None => gives_up end.
Lemma timing_mustBeFalse_ok e s : asked 1 e -> inv s ->
  eventually (fun n => timing_mustBeFalse false simplifyExprs impl n cs e) s (fun r s' => inv s' /\ refuted e r).
Proof.
  intros He Hs. unfold timing_mustBeFalse. destruct (is_zero_ok e He) as (z & Ez & Az & Hz). eapply ev_lift_const; [exact Ez|].
  eapply ev_mono; [by apply timing_mustBeTrue_ok|]. intros r s' [H1 H2]. split; [done|]. destruct r as [b|]; [|done].
  unfold refuted, answered, answers in *. rewrite H2. split; intros H init Hi; by apply (Hz cs init Hi), H.
Qed.
Lemma timing_mayBeTrue_ok e s : asked 1 e -> inv s ->
  eventually (fun n => timing_mayBeTrue false simplifyExprs impl n cs e) s (fun r s' => inv s' /\ refuted e (negb <$> r)).
Proof.
  intros He Hs. eapply ev_bind; [by apply timing_mustBeFalse_ok|]. intros r s' [H1 H2]. apply ev_ret. split; [done|].
  destruct r as [b|]; [|done]. simpl. by rewrite negb_involutive.
Qed.

(** The questions of the executor. With a solver that answers right where it answers at
    all, and whatever the simplification under the constraints makes of the condition: a
    condition may be true if it holds in a solution of the path, and may be false if it fails in
    one; there is no answer only where the solver gives up. *)
Theorem timing_mayBe_ok e s : asked 1 e -> inv s ->
  eventually (fun n => timing_mayBeTrue false simplifyExprs impl n cs e) s (fun r s' => inv s' /\
    match r with Some b => b = false <-> forall init, solution cs init -> ~ holds init e | None => gives_up end) /\
  eventually (fun n => timing_mayBeFalse false simplifyExprs impl n cs e) s (fun r s' => inv s' /\
    match r with Some b => b = false <-> forall init, solution cs init -> holds init e | None => gives_up end).
Proof.
  intros He Hs. split; (eapply ev_bind; [first [by apply timing_mustBeFalse_ok|by apply timing_mustBeTrue_ok]|]);
    intros r s' [H1 H2]; apply ev_ret; (split; [done|]); destruct r as [[|]|]; simpl in *; unfold answers in *; try done; rewrite <- H2; done.
Qed.
End Timing.

End Path.
End Solutions.
End Paths.

(** * A solver over the values of the inputs

    It tries the 256 inputs whose bytes are all alike. *)
Module TryAll.
Import Expr ExprFacts Create Constraints ConstraintsOk ConstraintsMain Solver Paths.
Definition fill (v : Z) : array -> Z -> option Z := fun a i => if 0 <? range a then Some (v `mod` 2 ^ range a) else None.
Definition fills : list (array -> Z -> option Z) := (fun n => fill (Z.of_nat n)) <$> seq 0 256.
Lemma fills_ok init : init ∈ fills -> init_ok init /\ full init.
Proof.
  intros (n & -> & _)%list_elem_of_fmap. split.
  - intros a i v. unfold fill. destruct (Z.ltb_spec 0 (range a)); [|done]. intros [= <-]. apply fits_iff, Z.mod_pos_bound. lia.
  - intros a i Ha. unfold fill. rewrite (proj2 (Z.ltb_lt _ _) Ha). by eexists.
Qed.
#[export] Instance byte_inputs : Inputs := {
  inputs init := init ∈ fills;
  inputs_init init H := proj1 (fills_ok init H);
  inputs_full init H := proj2 (fills_ok init H)
}.
Definition all_hold (cs : list expr) (init : array -> Z -> option Z) : bool := forallb (fun e => bool_decide (eval init e = Some 1)) cs.
Definition found (cs : list expr) : bool := match List.find (all_hold cs) fills with Some _ => true | None => false end.
(** It finds for the condition, and for its negation, whether there is a solution. *)
Definition possible_values (q : Query) : bool * bool :=
  (found (query q :: Solver.constraints q),
   existsb (fun init => all_hold (Solver.constraints q) init && negb (all_hold [query q] init)) fills).
Definition try_validity (q : Query) : Validity :=
  match possible_values q with (true, true) => VUnknown | (_, false) => VTrue | (false, true) => VFalse end.
Definition try_all : SolverImpl unit :=
  MkSolverImpl (fun q => mret (Some (negb (possible_values q).2)))
    (fun q => mret (Some (try_validity q)))
    (fun q => mret (match List.find (all_hold (Solver.constraints q)) fills with
                    | Some init => Constant (getWidth (query q)) <$> eval init (query q)
                    | None => None
                    end))
    (fun _ _ => mret None).
#[export] Instance holds_dec init e : Decision (holds init e).
Proof. unfold holds. apply _. Defined.
Lemma all_hold_iff cs init : all_hold cs init = true <-> Forall (holds init) cs.
Proof.
  unfold all_hold. rewrite forallb_forall, Forall_forall. unfold holds. setoid_rewrite bool_decide_eq_true. done.
Qed.
Lemma found_iff cs : found cs = true <-> exists init, solution cs init.
Proof.
  unfold found. destruct (List.find (all_hold cs) fills) as [init|] eqn:E.
  - apply find_some in E as [H1 H2]. apply all_hold_iff in H2. apply list_elem_of_In in H1. split; [|done]. intros _. by exists init.
  - split; [done|]. intros (init & Hin & Hh). pose proof (find_none _ _ E init (proj1 (list_elem_of_In _ _) Hin)) as Hn.
    apply all_hold_iff in Hh. congruence.
Qed.
Lemma may_hold_iff q : (possible_values q).1 = true <-> exists init, solution (Solver.constraints q) init /\ holds init (query q).
Proof.
  unfold possible_values. cbn [fst]. rewrite found_iff. split.
  - intros (init & Hin & [Hq Hc]%list.Forall_cons). by exists init.
  - intros (init & [Hin Hc] & Hq). exists init. split; [done|]. by constructor.
Qed.
Lemma may_fail_iff q : (possible_values q).2 = true <-> exists init, solution (Solver.constraints q) init /\ ~ holds init (query q).
Proof.
  unfold possible_values. cbn [snd]. rewrite existsb_exists. split.
  - intros (init & Hin & [H1 H2%negb_true_iff]%andb_true_iff). apply list_elem_of_In in Hin. apply all_hold_iff in H1.
    exists init. split; [done|]. intros Hq. assert (H3 : all_hold [query q] init = true) by (apply all_hold_iff; by constructor). congruence.
  - intros (init & [Hin Hc] & Hq). exists init. split; [by apply list_elem_of_In|]. apply andb_true_iff. split; [by apply all_hold_iff|].
    apply negb_true_iff. destruct (all_hold [query q] init) eqn:E; [|done]. apply all_hold_iff in E. by inversion E.
Qed.
#[export] Instance try_all_gives : GivesValues try_all (fun _ => True).
Proof.
  intros q w Hp Ha (init & Hin & Hh) s _. unfold runs.
  change (computeValue try_all q s) with (Ret (match List.find (all_hold (Solver.constraints q)) fills with
    | Some init => Constant (getWidth (query q)) <$> eval init (query q) | None => None end, s)). cbv iota beta. split; [done|].
  destruct (List.find (all_hold (Solver.constraints q)) fills) as [init'|] eqn:E.
  - apply find_some in E as [H1 H2]. apply all_hold_iff in H2. apply list_elem_of_In in H1.
    assert (Hs : solution (Solver.constraints q) init') by (by split).
    destruct (sol_defined w (query q) _ _ Ha Hs) as [v Hv]. exists v, init'. rewrite Hv, (as_width _ _ Ha).
    split_and!; [done|done|done].
  - exfalso. pose proof (find_none _ _ E init (proj1 (list_elem_of_In _ _) Hin)) as Hn.
    apply all_hold_iff in Hh. congruence.
Qed.

Lemma try_validity_ok q : verdict (Solver.constraints q) (query q) (try_validity q).
Proof.
  pose proof (may_hold_iff q) as H1. pose proof (may_fail_iff q) as H0. unfold try_validity. destruct (possible_values q) as [a b].
  cbn [fst snd] in *. assert (Hall : b = false -> forall init, solution (Solver.constraints q) init -> holds init (query q)).
  { intros -> init Hi. apply dec_stable. intros Hn. by assert (false = true) by (apply H0; by exists init). }
  destruct a, b; cbn [verdict]; [split; [by apply H1|by apply H0]|by apply Hall| |by apply Hall].
  intros init Hi Hn. by assert (false = true) by (apply H1; by exists init).
Qed.
Lemma try_truth_ok q : negb (possible_values q).2 = true <-> forall init, solution (Solver.constraints q) init -> holds init (query q).
Proof.
  pose proof (may_fail_iff q) as H0. destruct (possible_values q).2; cbn [negb].
  - split; [done|]. intros Hall. destruct (proj1 H0 eq_refl) as (init & Hi & Hn). by destruct Hn; apply Hall.
  - split; [|done]. intros _ init Hi. apply dec_stable. intros Hn. by assert (false = true) by (apply H0; by exists init).
Qed.
#[export] Instance try_all_decides : Decides try_all (fun _ => True).
Proof.
  split; intros q Hp Ha Hsol s _; unfold runs; cbn [try_all computeTruth computeValidity mret M_ret]; (split; [done|]).
  - intros v Hv. assert (v = try_validity q) as -> by congruence. apply try_validity_ok.
  - intros b Hb. assert (b = negb (possible_values q).2) as -> by congruence. apply try_truth_ok.
Qed.
Lemma fill_solution n : (n < 256)%nat -> solution [] (fill (Z.of_nat n)).
Proof. intros Hn. split; [|constructor]. apply list_elem_of_fmap. exists n. split; [done|]. apply elem_of_seq. lia. Qed.
Lemma no_constraints : path_ok [] /\ solution [] (fill 0).
Proof. split; [by split|]. apply (fill_solution 0). lia. Qed.
End TryAll.
