(* ===== verification/Contention.v ===== *)
(** * CASTAN's contention set cache model

    lib/CASTAN/ContentionSetCacheModel.cpp: a last-level cache that is known by its
    contention sets, the addresses of a page that compete for the same ways. It charges the
    accesses of a path as a cache with least recently used replacement, and chooses the
    address of a symbolic pointer so that the access misses: it asks the solver which lines of
    a set are possible, and picks one of a set that the possible lines overflow.
    Messages are not modelled; reading a property that a message prints is, where it is
    undefined. *)
From stdpp Require Import base gmap list strings numbers.
From Stdlib Require Import ZArith Lia Ascii SpecFloat.
From S2P Require Import Prelude CacheModel ExprData ExprCreate ExprEval Constraints Solver Paths.

Module Contention.
Import Expr Create Solver TimingSolver.
(** The ordered maps and the least recently used entry are those of [Cache]. *)
Import Cache (cache_entry(..), useTime, dirty, mfind, mput, merase, lru, line_of, set_line).

Abbreviation line_t := (list (Z * cache_entry)).
Abbreviation cache_t := (gmap Z line_t).

Definition CACHE_SIZE : Z := 25600 * 1024.
Definition CACHE_WRITEBACK : bool := true.
Definition CACHE_MISS_LATENCY : Z := 62.
Definition BLOCK_BITS : Z := 6.
Definition PAGE_BITS : Z := 30.

(** ** The file of contention sets *)

(** [std::stol] and [std::stoi] on the bytes of a line; [lo] and [hi] are the range of the
    result. They throw where there is no number and where it is out of range. *)
Definition is_space (c : Z) : bool := (c =? 32) || ((9 <=? c) && (c <=? 13)).
Fixpoint skip_space (l : list Z) : list Z :=
  match l with
  | [] => []
  | c :: l' => if is_space c then skip_space l' else l
  end.
Fixpoint digits (l : list Z) (acc : option Z) : option Z :=
  match l with
  | [] => acc
  | c :: l => if (48 <=? c) && (c <=? 57) then digits l (Some (default 0 acc * 10 + (c - 48))) else acc
  end.
Definition sto (lo hi : Z) (line : list Z) : result Z :=
  let '(sign, l) :=
    match skip_space line with
    | 45 :: l => (-1, l)
    | 43 :: l => (1, l)
    | l => (1, l)
    end in
  match digits l None with
  | None => Stop (ReportError "std::invalid_argument")
  | Some n => if (lo <=? sign * n) && (sign * n <=? hi) then Ret (sign * n) else Stop (ReportError "std::out_of_range")
  end.
Definition stoi : list Z -> result Z := sto (- 2 ^ 31) (2 ^ 31 - 1).
Definition stol : list Z -> result Z := sto (- 2 ^ 63) (2 ^ 63 - 1).

(** [std::set<long>]: in increasing order, without repetitions. *)
Fixpoint set_insert (x : Z) (l : list Z) : list Z :=
  match l with
  | [] => [x]
  | y :: l' => if x =? y then l else if x <? y then x :: l else y :: set_insert x l'
  end.

(** The lines of the file as [std::getline] returns them, the one after the last newline
    included. [set]: the addresses and the associativity of the set that is being read. *)
Fixpoint read_sets (set : option (list Z * Z)) (lines : list (list Z)) : result (list (list Z * Z)) :=
  match lines, set with
  | [], None => Ret []
  | [], Some s => Ret [s]
  | [] :: lines, None => read_sets None lines
  | [] :: lines, Some s => rest ← read_sets None lines; Ret (s :: rest)
  | line :: lines, None => associativity ← stoi line; read_sets (Some ([], u32 associativity)) lines
  | line :: lines, Some (addresses, associativity) =>
      address ← stol line; read_sets (Some (set_insert address addresses, associativity)) lines
  end.

(** The globals [contentionSets] and [contentionSetIdxs] *)
Record globals : Type := Globals {
  contentionSets : list (list Z * Z);
  contentionSetIdxs : gmap Z (list Z)
}.
Definition index_address (i : Z) (m : gmap Z (list Z)) (address : Z) : gmap Z (list Z) :=
  <[address := set_insert i (default [] (m !! address))]> m.
Fixpoint index_sets (i : Z) (sets : list (list Z * Z)) (m : gmap Z (list Z)) : gmap Z (list Z) :=
  match sets with
  | [] => m
  | (addresses, _) :: sets => index_sets (i + 1) sets (foldl (index_address i) m addresses)
  end.

(** The constructor, on the globals it finds. *)
Definition ContentionSetCacheModel (g : globals) (lines : list (list Z)) : result globals :=
  sets ← read_sets None lines;
  let sets := contentionSets g ++ sets in
  Ret (Globals sets (index_sets 0 sets (contentionSetIdxs g))).

(** ** The model of a path *)
Record loop_stats : Type := Stats {
  instructionCount : Z; readCount : Z; writeCount : Z; hitCount : Z; missCount : Z
}.
Definition new_stats : loop_stats := Stats 0 0 0 0 0.

(** [loopStats] has its last element first. *)
Record model : Type := Model {
  enabled : bool;
  cache : cache_t;
  currentTime : Z;
  loopStats : list loop_stats
}.
Definition start : model := Model false ∅ 0 [].

(** [loopStats.back()] *)
Definition on_back (f : loop_stats -> loop_stats) : M model unit := fun m =>
  match loopStats m with
  | [] => Stop MemError
  | s :: l => Ret (tt, Model (enabled m) (cache m) (currentTime m) (f s :: l))
  end.
Definition count_instruction (s : loop_stats) : loop_stats :=
  Stats (u64 (instructionCount s + 1)) (readCount s) (writeCount s) (hitCount s) (missCount s).
Definition count_read (s : loop_stats) : loop_stats :=
  Stats (instructionCount s) (u64 (readCount s + 1)) (writeCount s) (hitCount s) (missCount s).
Definition count_write (s : loop_stats) : loop_stats :=
  Stats (instructionCount s) (readCount s) (u64 (writeCount s + 1)) (hitCount s) (missCount s).
Definition count_hit (s : loop_stats) : loop_stats :=
  Stats (instructionCount s) (readCount s) (writeCount s) (u64 (hitCount s + 1)) (missCount s).
Definition count_miss (s : loop_stats) : loop_stats :=
  Stats (instructionCount s) (readCount s) (writeCount s) (hitCount s) (u64 (missCount s + 1)).

Definition block_of (address : Z) : Z := Z.land address (u64 (Z.lnot (Z.shiftl 1 BLOCK_BITS - 1))).
Definition page_of (blockAddr : Z) : Z := Z.land blockAddr (Z.shiftl 1 PAGE_BITS - 1).

Section Access.
Context (g : globals).

(** The sets of a block, [-1] for a block of no set. *)
Definition sets_of (blockAddr : Z) : list Z := default [-1] (contentionSetIdxs g !! page_of blockAddr).

Definition associativity_of (setIdx : Z) : result Z :=
  if 0 <=? setIdx then
    match contentionSets g !! Z.to_nat setIdx with Some (_, ways) => Ret ways | None => Stop MemError end
  else Ret (CACHE_SIZE / Z.shiftl 1 BLOCK_BITS).

(** The oldest entry of a full set; of an empty set, [begin()] has none. *)
Definition lruPtr (l : line_t) : result (Z * cache_entry) :=
  match lru l with Some x => Ret x | None => Stop MemError end.

(** The body of the loop of [updateCache]: the set, whether the access hits it, and whether
    it evicts a dirty block. *)
Definition update_set (now blockAddr : Z) (isWrite : bool) (associativity : Z) (l : line_t)
    : result (line_t * bool * bool) :=
  match mfind l blockAddr with
  | Some e =>
      Ret (mput l blockAddr (Entry now (if isWrite then CACHE_WRITEBACK else dirty e)),
           negb (isWrite && negb CACHE_WRITEBACK), false)
  | None =>
      r ← (if associativity <=? Z.of_nat (length l) then p ← lruPtr l; Ret (merase l p.1, dirty p.2)
           else Ret (l, false));
      Ret (mput r.1 blockAddr (Entry now (isWrite && CACHE_WRITEBACK)), false, r.2)
  end.
Fixpoint update_sets (now blockAddr : Z) (isWrite : bool) (idxs : list Z) (c : cache_t) (miss dirtyMiss : bool)
    : result (cache_t * bool * bool) :=
  match idxs with
  | [] => Ret (c, miss, dirtyMiss)
  | setIdx :: idxs =>
      associativity ← associativity_of setIdx;
      r ← update_set now blockAddr isWrite associativity (line_of c setIdx);
      let '(l, hit, evicted) := r in
      update_sets now blockAddr isWrite idxs (set_line c setIdx l) (miss && negb hit) (dirtyMiss || evicted)
  end.

Definition updateCache (address : Z) (isWrite : bool) : M model unit :=
  let blockAddr := block_of address in
  m ← get;
  let now := u64 (currentTime m + 1) in
  r ← lift (S := model) (update_sets now blockAddr isWrite (sets_of blockAddr) (cache m) true false);
  let '(c, miss, dirtyMiss) := r in
  put (Model (enabled m) c now (loopStats m));;
  on_back (if miss : bool then count_miss else count_hit);;
  if dirtyMiss : bool then on_back count_miss else mret tt.

(** [getMissCost]; [CACHE_HIT_LATENCY] is the double 6.9, of which the sum keeps 6. *)
Definition CACHE_HIT_LATENCY : Z := 6.
Definition getMissCost (c : cache_t) (setIdx : Z) (isWrite : bool) : result Z :=
  let l := line_of c setIdx in
  s ← (match contentionSets g !! Z.to_nat setIdx with Some s => Ret s | None => Stop MemError end);
  evict ← (if s.2 <=? Z.of_nat (length l) then p ← lruPtr l; Ret (if dirty p.2 then CACHE_MISS_LATENCY else 0)
           else Ret 0);
  Ret (evict + (if negb isWrite || negb CACHE_WRITEBACK then CACHE_MISS_LATENCY else CACHE_HIT_LATENCY)).

(** ** The order in which sets are tried *)

(** A key of [setCosts]: minus the cost, the misses until an eviction, a random number. *)
Definition cost_key : Type := (Z * Z * Z)%type.
Definition key_ltb (x y : cost_key) : bool :=
  let '(a, b, r) := x in let '(a', b', r') := y in
  (a <? a') || ((a =? a') && ((b <? b') || ((b =? b') && (r <? r')))).
(** [std::map::operator[]] and assignment. *)
Fixpoint cost_put (k : cost_key) (i : Z) (l : list (cost_key * Z)) : list (cost_key * Z) :=
  match l with
  | [] => [(k, i)]
  | (k', i') :: l' =>
      if key_ltb k k' then (k, i) :: l
      else if key_ltb k' k then (k', i') :: cost_put k i l'
      else (k, i) :: l'
  end.
(** [rand n] is the number drawn for set [n]. *)
Fixpoint setCosts (c : cache_t) (isWrite : bool) (rand : Z -> Z) (setIdx : Z) (sets : list (list Z * Z))
    (costs : list (cost_key * Z)) : result (list (cost_key * Z)) :=
  match sets with
  | [] => Ret costs
  | (_, ways) :: sets =>
      cost ← getMissCost c setIdx isWrite;
      let key := (s64 (u64 (- cost)), s64 (u64 (ways - Z.of_nat (length (line_of c setIdx)))), rand setIdx) in
      setCosts c isWrite rand (setIdx + 1) sets (cost_put key setIdx costs)
  end.
End Access.

(** ** The choice of an address *)

(** What is left of an execution state: the path constraints, and whether
    [terminateStateEarly] was called. *)
Record state {St : Type} : Type := State {
  cache_model : model;
  constraints : list expr;
  terminated : bool;
  solver_state : St
}.
Arguments state : clear implicits.
Arguments State {St}.

Section Choice.
Context (g : globals) {ap : APInt} (ConstArrayOpt RewriteEqualities : bool).
Context (WorstCaseSymIndices GiveUpOnComplexSymIndices TerminateOnUNSAT simplifyExprs : bool).
Context {St : Type} (solver : SolverImpl St) (fuel : nat).

Abbreviation simplifyExpr := (Constraints.simplifyExpr ConstArrayOpt fuel).
Abbreviation addConstraint := (Constraints.addConstraint ConstArrayOpt RewriteEqualities fuel).

(** [((1 << PAGE_BITS) - 1) & ~((1 << BLOCK_BITS) - 1)] *)
Definition LINE_MASK : Z := Z.land (Z.shiftl 1 PAGE_BITS - 1) (Z.lnot (Z.shiftl 1 BLOCK_BITS - 1)).

(** [e]: that the address is in line [a] of its page. *)
Definition in_line (cs : list expr) (address : expr) (a : Z) : result expr :=
  line ← create_Constant (u64 a) (getWidth address);
  mask ← create_Constant LINE_MASK (getWidth address);
  masked ← create_And mask address;
  e ← create_Eq ConstArrayOpt line masked;
  simplifyExpr cs e.
Definition isFalse (e : expr) : bool :=
  match e with Constant w v => (w =? Bool) && (v =? 0) | _ => false end.

Inductive outcome : Type := Found (concreteAddress : expr) | GaveUp | Exhausted.
(** [backupHits] and [backupAddress] *)
Definition backup_t : Type := (Z * option expr)%type.

(** Whether a set of line [a] has the block. *)
Definition cached (c : cache_t) (a blockAddr : Z) : bool :=
  existsb (fun idx => match mfind (line_of c idx) blockAddr with Some _ => true | None => false end)
    (default [] (contentionSetIdxs g !! a)).
Definition block_of_expr (e : expr) : result Z :=
  match e with
  | Constant w v => z ← Evaluator.getZExtValue w v; Ret (block_of z)
  | _ => Stop AssertFailed
  end.

(** The loop over the lines of a set. *)
Fixpoint try_addresses (cs : list expr) (address : expr) (c : cache_t) (ways : Z) (addresses : list Z)
    (hitCount : Z) (backup : backup_t) : M St (outcome * backup_t) :=
  match addresses with
  | [] => mret (Exhausted, backup)
  | a :: addresses =>
      e ← lift (in_line cs address a);
      if isFalse e then try_addresses cs address c ways addresses hitCount backup
      else
        cs' ← lift (addConstraint e cs);
        r ← getValue solver (MkQuery cs' address);
        match r with
        | None =>
            if GiveUpOnComplexSymIndices then mret (GaveUp, backup)
            else try_addresses cs address c ways addresses hitCount backup
        | Some concreteAddress =>
            blockAddr ← lift (block_of_expr concreteAddress);
            if cached c a blockAddr then try_addresses cs address c ways addresses hitCount backup
            else
              let hitCount := u32 (hitCount + 1) in
              if ways <? hitCount then mret (Found concreteAddress, backup)
              else
                let backup := if backup.1 <? hitCount then (hitCount, Some concreteAddress) else backup in
                try_addresses cs address c ways addresses hitCount backup
        end
  end.
(** The loop over the sets. *)
Fixpoint try_sets (cs : list expr) (address : expr) (c : cache_t) (order : list (cost_key * Z)) (backup : backup_t)
    : M St (outcome * backup_t) :=
  match order with
  | [] => mret (Exhausted, backup)
  | (_, setIdx) :: order =>
      s ← of_option (contentionSets g !! Z.to_nat setIdx);
      r ← try_addresses cs address c s.2 s.1 (u32 (Z.of_nat (length (line_of c setIdx)))) backup;
      match r with
      | (Exhausted, backup) => try_sets cs address c order backup
      | _ => mret r
      end
  end.
Definition worst_case (cs : list expr) (address : expr) (c : cache_t) (isWrite : bool) (rand : Z -> Z)
    : M St (outcome * backup_t) :=
  if WorstCaseSymIndices then
    order ← lift (setCosts g c isWrite rand 0 (contentionSets g) []);
    (* The message on the costs reads the first and the last entry. *)
    match order with
    | [] => halt MemError
    | _ => try_sets cs address c order (0, None)
    end
  else mret (Exhausted, (0, None)).

Definition on_solver {A} (m : M St A) : M (state St) A :=
  zoom solver_state (fun s p => State (cache_model p) (constraints p) (terminated p) s) m.
Definition on_model {A} (m : M model A) : M (state St) A :=
  zoom cache_model (fun c p => State c (constraints p) (terminated p) (solver_state p)) m.

(** [state.addConstraint(EqExpr::create(concreteAddress, address)); address = concreteAddress] *)
Definition pin (concreteAddress address : expr) : M (state St) expr :=
  e ← lift (create_Eq ConstArrayOpt concreteAddress address);
  p ← get;
  cs ← lift (addConstraint e (constraints p));
  put (State (cache_model p) cs (terminated p) (solver_state p));;
  mret concreteAddress.
Definition terminateStateEarly : M (state St) unit :=
  modify (fun p => State (cache_model p) (constraints p) true (solver_state p)).

(** Without a set that the lines overflow; [None]: the state was terminated. *)
Definition fallback (address : expr) (backupAddress : option expr) : M (state St) (option expr) :=
  if TerminateOnUNSAT then terminateStateEarly;; mret None
  else
    p ← get;
    v ← (match backupAddress with
         | Some _ => mret backupAddress
         | None => on_solver (timing_getValue ConstArrayOpt simplifyExprs solver fuel (constraints p) address)
         end);
    match v with
    | Some concreteAddress => v ← pin concreteAddress address; mret (Some v)
    | None => halt AssertFailed
    end.
(** The address of a symbolic pointer. *)
Definition concretize (address : expr) (isWrite : bool) (rand : Z -> Z) : M (state St) (option expr) :=
  p ← get;
  r ← on_solver (worst_case (constraints p) address (cache (cache_model p)) isWrite rand);
  match r.1 with
  | Found concreteAddress => v ← pin concreteAddress address; mret (Some v)
  | _ => fallback address r.2.2
  end.

Definition memoryOperation (address : expr) (isWrite : bool) (rand : Z -> Z) : M (state St) expr :=
  p ← get;
  address ← lift (simplifyExpr (constraints p) address);
  r ← (if isConstant address then mret (Some address) else concretize address isWrite rand);
  match r with
  | None => mret address
  | Some (Constant w v) =>
      z ← lift (Evaluator.getZExtValue w v);
      on_model (updateCache g z isWrite);;
      mret (Constant w v)
  | Some _ => halt MemError
  end.

Definition load (address : expr) (rand : Z -> Z) : M (state St) expr :=
  p ← get;
  if enabled (cache_model p) then on_model (on_back count_read);; memoryOperation address false rand
  else mret address.
Definition store (address : expr) (rand : Z -> Z) : M (state St) expr :=
  p ← get;
  if enabled (cache_model p) then on_model (on_back count_write);; memoryOperation address true rand
  else mret address.
End Choice.

Section Loops.
Context (MaxLoops : Z).
Definition exec : M model unit :=
  m ← get; if enabled m then on_back count_instruction else mret tt.
Definition loop : M model bool :=
  m ← get;
  let next := Model true (cache m) (currentTime m) (new_stats :: loopStats m) in
  if enabled m then
    if Z.of_nat (length (loopStats m)) >=? MaxLoops then mret false else put next;; mret true
  else put next;; mret true.
End Loops.

Definition getNumIterations (m : model) : Z := s32 (Z.of_nat (length (loopStats m))).

(** ** The time of a path, in nanoseconds

    In doubles, with the operations of IEEE 754 from the Standard Library. *)
Definition double : Type := spec_float.
Definition of_Z (z : Z) : double := binary_normalize 53 1024 z 0 false.
Definition dadd : double -> double -> double := SFadd 53 1024.
Definition dmul : double -> double -> double := SFmul 53 1024.
Definition ddiv : double -> double -> double := SFdiv 53 1024.
(** The literals [.23] and [0.05]: the doubles next to them. *)
Definition CYCLE : double := ddiv (of_Z 23) (of_Z 100).
Definition HIT_LATENCY : double := dmul (of_Z 30) CYCLE.
Definition NS_PER_INSTRUCTION : double := ddiv (of_Z 5) (of_Z 100).
Definition FIXED_OVERHEAD_NS : Z := 0.
Definition loop_time (s : loop_stats) : double :=
  dadd (dadd (dadd (of_Z FIXED_OVERHEAD_NS) (dmul (of_Z (instructionCount s)) NS_PER_INSTRUCTION))
         (dmul (of_Z (hitCount s)) HIT_LATENCY))
    (of_Z (u64 (missCount s * CACHE_MISS_LATENCY))).
Definition getTotalTime (m : model) : double :=
  foldl (fun ns s => dadd ns (loop_time s)) (of_Z 0) (reverse (loopStats m)).
End Contention.
