(* ===== verification/ContentionOk.v ===== *)
(** * The contention set model: what its caches hold

    Every access returns and keeps the sets within their ways; an access misses exactly when
    no set of its block holds it; and blocks that overflow a set, accessed in turn, miss for
    ever. *)
From stdpp Require Import base gmap list strings numbers.
From Stdlib Require Import ZArith Lia.
From S2P Require Import Prelude CacheModel CacheLru ExprData ExprCreate ExprMain Constraints Solver Contention.

(** * Invariants and one access *)
Module ContentionOk.
Import Contention.
Import Cache (cache_entry(..), useTime, dirty, mfind, mput, merase, lru, line_of, set_line).
Import Lru (line_ok, touched, victim, recent, sorted, lo_sorted, lo_ways).

(** A level that writes back, for the lemmas on one line. *)
Definition way_cfg : Cache.level_config := Cache.Level 0 true 0 0 [].
Abbreviation touched_ := (touched way_cfg).

Definition ways_of (g : globals) (idx : Z) : Z := match associativity_of g idx with Ret w => w | Stop _ => 0 end.
(** Every set of a block is there and has a way. *)
Record sound (g : globals) : Prop := {
  so_ways b idx : idx ∈ sets_of g b -> exists w, associativity_of g idx = Ret w /\ 1 <= w;
  so_nodup b : NoDup (sets_of g b);
  so_ways_of idx : 0 <= ways_of g idx
}.

Section Sets.
Context (g : globals) (Hg : sound g).

Lemma ways_pos b idx : idx ∈ sets_of g b -> associativity_of g idx = Ret (ways_of g idx) /\ 1 <= ways_of g idx.
Proof. intros Hi. destruct (so_ways g Hg b idx Hi) as (w & E & Hw). unfold ways_of. by rewrite E. Qed.

(** ** One set *)
Definition is_hit (c : cache_t) (b idx : Z) : bool := match mfind (line_of c idx) b with Some _ => true | None => false end.
Definition evicts (c : cache_t) (b idx : Z) : bool :=
  match mfind (line_of c idx) b, victim (ways_of g idx) (line_of c idx) with
  | None, Some (_, e) => dirty e
  | _, _ => false
  end.

Lemma update_set_eq now b w c idx :
  1 <= ways_of g idx ->
  update_set now b w (ways_of g idx) (line_of c idx) =
  Ret (touched_ (ways_of g idx) now b w (line_of c idx), is_hit c b idx, evicts c b idx).
Proof.
  intros Hw. unfold update_set, touched, is_hit, evicts, Lru.evicted, victim. destruct (mfind _ b); [by destruct w|].
  destruct (Z.leb_spec (ways_of g idx) (Z.of_nat (length (line_of c idx)))) as [Hl|]; [|by destruct w].
  unfold lruPtr. destruct (lru (line_of c idx)) as [[p e]|] eqn:E; [by destruct w|].
  destruct (line_of c idx); [simpl in Hl; lia|done].
Qed.

Definition touch_all (now b : Z) (w : bool) (idxs : list Z) (c : cache_t) : cache_t :=
  foldl (fun c idx => set_line c idx (touched_ (ways_of g idx) now b w (line_of c idx))) c idxs.

Lemma touch_all_cons now b w i idxs c :
  touch_all now b w (i :: idxs) c = touch_all now b w idxs (set_line c i (touched_ (ways_of g i) now b w (line_of c i))).
Proof. done. Qed.
Lemma touch_all_other now b w idxs c idx : idx ∉ idxs -> line_of (touch_all now b w idxs c) idx = line_of c idx.
Proof.
  revert c. induction idxs as [|i idxs IH]; intros c Hi; [done|]. apply not_elem_of_cons in Hi as [Hne Hi].
  rewrite touch_all_cons. rewrite IH by done. by rewrite Lru.line_of_set, decide_False.
Qed.
Lemma touch_all_line now b w idxs c idx :
  NoDup idxs -> idx ∈ idxs -> line_of (touch_all now b w idxs c) idx = touched_ (ways_of g idx) now b w (line_of c idx).
Proof.
  intros Hn. revert c. induction Hn as [|i idxs Hi Hn IH]; intros c Hin; [by apply not_elem_of_nil in Hin|].
  rewrite touch_all_cons. apply elem_of_cons in Hin as [->|Hin].
  - rewrite touch_all_other by done. by rewrite Lru.line_of_set, decide_True.
  - rewrite IH by done. rewrite Lru.line_of_set, decide_False; [done|]. by intros ->.
Qed.

(** ** All sets of a block *)
Lemma update_sets_eq now b w idxs c miss dirtyMiss :
  NoDup idxs -> (forall idx, idx ∈ idxs -> associativity_of g idx = Ret (ways_of g idx) /\ 1 <= ways_of g idx) ->
  update_sets g now b w idxs c miss dirtyMiss =
  Ret (touch_all now b w idxs c, miss && negb (existsb (is_hit c b) idxs), dirtyMiss || existsb (evicts c b) idxs).
Proof.
  intros Hn. revert c miss dirtyMiss. induction Hn as [|idx idxs Hi Hn IH]; intros c miss dirtyMiss Hw.
  { simpl. by rewrite andb_true_r, orb_false_r. }
  destruct (Hw idx ltac:(left)) as [Ew Hw1]. cbn [update_sets]. rewrite Ew. cbn [mbind result_bind].
  rewrite update_set_eq by done. cbn [mbind result_bind]. rewrite IH by (intros; apply Hw; by right).
  rewrite touch_all_cons. cbn [existsb].
  set (c' := set_line c idx _).
  assert (Hsame : forall i, i ∈ idxs -> line_of c' i = line_of c i).
  { intros i Hin. unfold c'. rewrite Lru.line_of_set, decide_False; [done|]. by intros ->. }
  assert (Hf : forall f : cache_t -> Z -> bool, (forall i, i ∈ idxs -> f c' i = f c i) -> existsb (f c') idxs = existsb (f c) idxs).
  { intros f Hfe. clear -Hfe. induction idxs as [|i idxs IH]; [done|]. simpl. rewrite Hfe by left. f_equal. apply IH.
    intros j Hj. apply Hfe. by right. }
  rewrite (Hf (fun c => is_hit c b)), (Hf (fun c => evicts c b)).
  - by rewrite negb_orb, andb_assoc, orb_assoc.
  - intros i Hin. unfold evicts. by rewrite Hsame.
  - intros i Hin. unfold is_hit. by rewrite Hsame.
Qed.

(** ** The invariant *)
Record line_good (idx t : Z) (l : line_t) : Prop := {
  lg_ok : line_ok (ways_of g idx) t l;
  lg_here x : x ∈ l -> block_of x.1 = x.1 /\ idx ∈ sets_of g x.1
}.
Definition cache_ok (t : Z) (c : cache_t) : Prop := forall idx, line_good idx t (line_of c idx).

Lemma line_good_later idx t now l : line_good idx t l -> t <= now -> line_good idx now l.
Proof. intros [H1 H2] Ht. split; [by eapply Lru.line_ok_later|done]. Qed.

Lemma line_good_touched idx t now b w l :
  line_good idx t l -> t < now -> block_of b = b -> idx ∈ sets_of g b ->
  line_good idx now (touched_ (ways_of g idx) now b w l).
Proof.
  intros [H1 H2] Ht Hb Hi. destruct (ways_pos b idx Hi) as [_ Hw]. split.
  - by apply (Lru.touched_ok way_cfg _ t).
  - intros [k e] Hx. destruct (decide (k = b)) as [->|Hk]; [done|].
    apply Lru.touched_other in Hx; [|by eapply lo_sorted|done]. by apply (H2 (k, e)).
Qed.
Lemma cache_ok_touch t now b w c :
  cache_ok t c -> t < now -> block_of b = b -> cache_ok now (touch_all now b w (sets_of g b) c).
Proof.
  intros Hc Ht Hb idx. destruct (decide (idx ∈ sets_of g b)) as [Hi|Hi].
  - rewrite touch_all_line by (done || apply Hg). by apply (line_good_touched idx t).
  - rewrite touch_all_other by done. apply (line_good_later idx t); [done|lia].
Qed.

Lemma block_of_idem a : block_of (block_of a) = block_of a.
Proof. unfold block_of. by rewrite <- Z.land_assoc, Z.land_diag. Qed.

(** ** One access *)
Record model_ok (m : model) : Prop := {
  mo_cache : cache_ok (currentTime m) (cache m);
  mo_time : 0 <= currentTime m;
  mo_stats : enabled m = true -> loopStats m <> []
}.
(** Some set of the block holds it. *)
Definition present (m : model) (b : Z) : Prop := exists idx, idx ∈ sets_of g b /\ is_hit (cache m) b idx = true.
Definition charge (m : model) (b : Z) (s : loop_stats) : loop_stats :=
  (if existsb (evicts (cache m) b) (sets_of g b) then count_miss else id)
    ((if existsb (is_hit (cache m) b) (sets_of g b) then count_hit else count_miss) s).

Lemma present_existsb m b : existsb (is_hit (cache m) b) (sets_of g b) = true <-> present m b.
Proof.
  unfold present. rewrite existsb_exists. by setoid_rewrite <- list_elem_of_In.
Qed.
Lemma updateCache_run m a w s l :
  model_ok m -> loopStats m = s :: l -> currentTime m + 1 < 2 ^ 64 ->
  updateCache g a w m =
    Ret (tt, Model (enabled m) (touch_all (currentTime m + 1) (block_of a) w (sets_of g (block_of a)) (cache m))
               (currentTime m + 1) (charge m (block_of a) s :: l)).
Proof.
  intros [Hc Ht _] Hs Hb. unfold updateCache, get, put, lift. cbv beta iota delta [mbind M_bind].
  rewrite u64_small by lia.
  rewrite update_sets_eq by (first [apply Hg | intros idx Hi; by apply (ways_pos (block_of a))]).
  cbn [andb orb]. unfold on_back. cbn [loopStats enabled cache currentTime]. rewrite Hs.
  unfold charge. destruct (existsb (is_hit _ _) _); destruct (existsb (evicts _ _) _); done.
Qed.
Lemma contention_update_ok m a w :
  model_ok m -> loopStats m <> [] -> currentTime m + 1 < 2 ^ 64 ->
  runs (updateCache g a w) m (fun _ m' => model_ok m' /\ enabled m' = enabled m /\ currentTime m' = currentTime m + 1 /\
    cache m' = touch_all (currentTime m + 1) (block_of a) w (sets_of g (block_of a)) (cache m) /\
    exists s l, loopStats m = s :: l /\ loopStats m' = charge m (block_of a) s :: l).
Proof.
  intros Hm Hs Hb. destruct (loopStats m) as [|s l] eqn:E; [done|]. unfold runs.
  rewrite (updateCache_run m a w s l) by done. split_and!; try done; [|by exists s, l].
  destruct Hm as [Hc Ht Hst]. split; cbn [cache currentTime enabled loopStats]; [|lia|done].
  apply (cache_ok_touch (currentTime m)); [done|lia|apply block_of_idem].
Qed.

(** ** Loads and stores of constant addresses *)
Definition access (aw : Z * bool) : M model unit :=
  on_back (if aw.2 then count_write else count_read);; updateCache g aw.1 aw.2.
Fixpoint accesses (l : list (Z * bool)) : M model unit :=
  match l with
  | [] => mret tt
  | aw :: l => access aw;; accesses l
  end.
Definition counted (aw : Z * bool) (m : model) (s : loop_stats) : loop_stats :=
  charge m (block_of aw.1) ((if aw.2 then count_write else count_read) s).

Lemma access_ok m aw :
  model_ok m -> loopStats m <> [] -> currentTime m + 1 < 2 ^ 64 ->
  runs (access aw) m (fun _ m' => model_ok m' /\ enabled m' = enabled m /\ currentTime m' = currentTime m + 1 /\
    cache m' = touch_all (currentTime m + 1) (block_of aw.1) aw.2 (sets_of g (block_of aw.1)) (cache m) /\
    exists s l, loopStats m = s :: l /\ loopStats m' = counted aw m s :: l).
Proof.
  intros Hm Hs Hb. destruct (loopStats m) as [|s l] eqn:E; [done|]. unfold access. apply runs_bind.
  unfold on_back at 1, runs at 1. rewrite E.
  eapply runs_mono; [apply contention_update_ok; [|done|done]|].
  - destruct Hm as [H1 H2 H3]. by split.
  - cbn [loopStats enabled currentTime cache]. intros _ m' (H1 & H2 & H3 & H4 & s' & l' & [= <- <-] & H5).
    split_and!; try done. by exists s, l.
Qed.

(** ** Blocks that overflow a set

    [tracked]: the blocks [xs] were the last ones used in the set, the most recent first, and
    are all in it. *)
Section Thrash.
Context (idx : Z).
Abbreviation ways := (ways_of g idx).

Definition tracked (l : line_t) (xs : list Z) : Prop :=
  forall i x, xs !! i = Some x -> recent l x (list_to_set (take i xs)).

Lemma size_list_le (xs : list Z) : (base.size (list_to_set (C := gset Z) xs) <= length xs)%nat.
Proof.
  induction xs as [|x xs IH]; [done|]. rewrite list_to_set_cons, size_union_alt, size_singleton. simpl.
  pose proof (subseteq_size (list_to_set (C := gset Z) xs ∖ {[x]}) (list_to_set xs) ltac:(set_solver)). lia.
Qed.
Lemma tracked_nil l : tracked l [].
Proof. intros i x H. by rewrite lookup_nil in H. Qed.
Lemma tracked_touch t now b w l xs :
  line_ok ways t l -> t < now -> 1 <= ways -> tracked l xs -> b ∉ xs ->
  tracked (touched_ ways now b w l) (take (Z.to_nat ways) (b :: xs)).
Proof.
  intros Hl Ht Hw Hx Hb [|i] x Hi.
  { rewrite lookup_take in Hi. case_decide; [|done]. injection Hi as <-. by apply (Lru.touched_same way_cfg _ t). }
  rewrite lookup_take in Hi. case_decide as Hlt; [|done]. simpl in Hi.
  rewrite take_take, Nat.min_l by lia. cbn [take]. rewrite list_to_set_cons.
  rewrite (comm_L (∪) {[b]}). apply (Lru.touched_recent way_cfg _ t); [done|done|done|by apply Hx| |].
  - intros ->. apply Hb. by apply (list_elem_of_lookup_2 _ i).
  - pose proof (size_union_alt (list_to_set (C := gset Z) (take i xs)) {[b]}) as Hu.
    pose proof (subseteq_size ({[b]} ∖ list_to_set (C := gset Z) (take i xs)) {[b]} ltac:(set_solver)) as Hs.
    rewrite size_singleton in Hs. pose proof (size_list_le (take i xs)). rewrite length_take in *. lia.
Qed.

(** A set that is full of tracked blocks holds no other block. *)
Lemma tracked_full t l xs b :
  line_ok ways t l -> tracked l xs -> NoDup xs -> Z.of_nat (length xs) = ways -> b ∉ xs -> mfind l b = None.
Proof.
  intros Hl Hx Hn Hlen Hb. apply Lru.mfind_none. intros Hk.
  assert (Hsub : xs ⊆ l.*1).
  { intros x Hin. apply list_elem_of_lookup_1 in Hin as [i Hi]. destruct (Hx i x Hi) as (e & He & _).
    apply list_elem_of_fmap. by exists (x, e). }
  pose proof (Lru.sorted_nodup l (lo_sorted _ _ _ Hl)) as Hnd. pose proof (lo_ways _ _ _ Hl) as Hle.
  assert (Hsz : (length (b :: xs) <= length (l.*1))%nat).
  { apply NoDup_incl_length; [by apply NoDup_ListNoDup, list.NoDup_cons|].
    intros y [<-|Hy]; apply list_elem_of_In; [done|]. by apply Hsub, list_elem_of_In. }
  rewrite length_fmap in Hsz. simpl in Hsz. lia.
Qed.

(** The blocks of the set that are to be accessed, in order, the last ones being in the set. *)
Record ready (m : model) (bs : list Z) : Prop := {
  re_sets b : b ∈ bs -> sets_of g b = [idx];
  re_nodup : NoDup bs;
  re_length : Z.of_nat (length bs) = ways + 1;
  re_tracked : tracked (line_of (cache m) idx) (reverse (drop 1 bs))
}.
Abbreviation blocks l := ((fun aw => block_of aw.1) <$> (l : list (Z * bool))).

Lemma touch_set now b w c : sets_of g b = [idx] -> line_of (touch_all now b w (sets_of g b) c) idx = touched_ ways now b w (line_of c idx).
Proof. intros Hs. rewrite touch_all_line; [done|apply Hg|]. rewrite Hs. by left. Qed.

Lemma ready_step m aw bs :
  model_ok m -> loopStats m <> [] -> currentTime m + 1 < 2 ^ 64 -> ready m (block_of aw.1 :: bs) ->
  runs (access aw) m (fun _ m' => model_ok m' /\ enabled m' = enabled m /\ currentTime m' = currentTime m + 1 /\
    ready m' (bs ++ [block_of aw.1]) /\
    exists s l, loopStats m = s :: l /\ loopStats m' = counted aw m s :: l /\ ~ present m (block_of aw.1)).
Proof.
  intros Hm Hs Hb [R1 R2 R3 R4]. set (b := block_of aw.1) in *. eapply runs_mono; [by apply access_ok|].
  intros _ m' (H1 & H2 & H3 & H4 & s & l & H5 & H6). fold b in H4.
  assert (Hsb : sets_of g b = [idx]) by (apply R1; left).
  apply list.NoDup_cons in R2 as [Rb R2]. cbn [drop length] in R3, R4. destruct (ways_pos b idx) as [_ Hw]; [rewrite Hsb; left|].
  pose proof (lg_ok _ _ _ (mo_cache _ Hm idx)) as Hl.
  assert (Hmiss : mfind (line_of (cache m) idx) b = None).
  { apply (tracked_full (currentTime m) _ (reverse bs)); try done.
    - by rewrite reverse_Permutation.
    - rewrite length_reverse. lia.
    - by rewrite elem_of_reverse. }
  split_and!; try done.
  - split.
    + intros x Hx. apply R1. apply elem_of_app in Hx as [Hx|Hx]; [by right|]. apply list_elem_of_singleton in Hx as ->. left.
    + apply list.NoDup_app. split_and!; [done|intros x Hx ->%list_elem_of_singleton; done|apply NoDup_singleton].
    + rewrite length_app. simpl. lia.
    + rewrite H4, touch_set by done. pose proof (tracked_touch (currentTime m) (currentTime m + 1) b aw.2 _ (reverse bs) Hl) as Ht.
      rewrite elem_of_reverse in Ht. specialize (Ht ltac:(lia) Hw R4 Rb). destruct bs as [|b0 bs]; [simpl in R3; lia|].
      change (drop 1 ((b0 :: bs) ++ [b])) with (bs ++ [b]). rewrite reverse_snoc. rewrite reverse_cons in Ht.
      assert (E : take (Z.to_nat ways) (b :: reverse bs ++ [b0]) = b :: reverse bs); [|by rewrite E in Ht].
      rewrite app_comm_cons. apply take_app_length'. simpl in *. rewrite length_reverse. lia.
  - exists s, l. split_and!; [done|done|]. intros (i & Hi & Hh). rewrite Hsb in Hi. apply list_elem_of_singleton in Hi as ->.
    unfold is_hit in Hh. by rewrite Hmiss in Hh.
Qed.

(** [misses n s s']: since [s] there were [n] misses, each of one or two accesses to memory,
    and no hits. *)
Definition misses (n : Z) (s s' : loop_stats) : Prop :=
  hitCount s' = hitCount s /\ missCount s + n <= missCount s' <= missCount s + 2 * n.
Lemma counted_misses aw m s :
  ~ present m (block_of aw.1) -> 0 <= missCount s -> missCount s + 2 < 2 ^ 64 -> misses 1 s (counted aw m s).
Proof.
  intros Hp H0 Hb. unfold counted, charge, misses. rewrite <- present_existsb in Hp. apply not_true_is_false in Hp. rewrite Hp.
  destruct (existsb (evicts _ _) _), aw.2; cbn; rewrite ?(u64_small (missCount s + 1)), ?u64_small; lia.
Qed.

(** A round from the middle: the accesses [l], then the blocks [rest] are next. *)
Lemma round_misses l : forall m rest s0 st,
  model_ok m -> loopStats m = s0 :: st -> currentTime m + Z.of_nat (length l) < 2 ^ 64 -> ready m (blocks l ++ rest) ->
  0 <= missCount s0 -> missCount s0 + 2 * Z.of_nat (length l) < 2 ^ 64 ->
  runs (accesses l) m (fun _ m' => model_ok m' /\ enabled m' = enabled m /\ currentTime m' = currentTime m + Z.of_nat (length l) /\
    ready m' (rest ++ blocks l) /\ exists s, loopStats m' = s :: st /\ misses (Z.of_nat (length l)) s0 s).
Proof.
  induction l as [|aw l IH]; intros m rest s0 st Hm Hst Ht Hr H0 Hc.
  { apply runs_ret. rewrite app_nil_r, Z.add_0_r. split_and!; try done. exists s0. split; [done|]. unfold misses. simpl. lia. }
  cbn [fmap list_fmap app length] in *. cbn [accesses]. apply runs_bind. eapply runs_mono; [apply ready_step; [done|by rewrite Hst|lia|exact Hr]|].
  intros _ m1 (H1 & H2 & H3 & H4 & s & l' & E1 & E2 & Hp). rewrite Hst in E1. injection E1 as <- <-.
  destruct (counted_misses aw m s0 Hp H0) as [Hh Hmi]; [lia|]. rewrite <- app_assoc in H4.
  eapply runs_mono; [apply (IH m1 (rest ++ [block_of aw.1]) _ _ H1 E2); [lia|exact H4|lia|lia]|].
  intros _ m' (G1 & G2 & G3 & G4 & s' & G5 & Gh & Gm). rewrite <- app_assoc in G4.
  split_and!; [done|congruence|lia|done|]. exists s'. split; [done|]. unfold misses. rewrite Gh, Hh. lia.
Qed.

(** The first round, from any state: what is tracked are the blocks of the round. *)
Lemma counted_bound aw m s :
  0 <= missCount s -> missCount s + 2 < 2 ^ 64 -> missCount s <= missCount (counted aw m s) <= missCount s + 2.
Proof.
  intros H0 Hb. unfold counted, charge.
  destruct (existsb (evicts _ _) _), (existsb (is_hit _ _) _), aw.2; cbn; rewrite ?(u64_small (missCount s + 1)), ?u64_small; lia.
Qed.
Lemma warm_up l : forall m xs s0 st,
  model_ok m -> loopStats m = s0 :: st -> currentTime m + Z.of_nat (length l) < 2 ^ 64 -> 1 <= ways ->
  (forall b, b ∈ blocks l -> sets_of g b = [idx]) -> NoDup (blocks l ++ xs) ->
  tracked (line_of (cache m) idx) (take (Z.to_nat ways) xs) ->
  0 <= missCount s0 -> missCount s0 + 2 * Z.of_nat (length l) < 2 ^ 64 ->
  runs (accesses l) m (fun _ m' => model_ok m' /\ enabled m' = enabled m /\ currentTime m' = currentTime m + Z.of_nat (length l) /\
    tracked (line_of (cache m') idx) (take (Z.to_nat ways) (reverse (blocks l) ++ xs)) /\
    exists s, loopStats m' = s :: st /\ missCount s0 <= missCount s <= missCount s0 + 2 * Z.of_nat (length l)).
Proof.
  induction l as [|aw l IH]; intros m xs s0 st Hm Hst Ht Hw Hsets Hn Hx H0 Hc.
  { apply runs_ret. rewrite Z.add_0_r. split_and!; try done. exists s0. split; [done|simpl; lia]. }
  cbn [fmap list_fmap app length] in *. apply list.NoDup_cons in Hn as [Hb Hn].
  cbn [accesses]. apply runs_bind. eapply runs_mono; [apply access_ok; [done|by rewrite Hst|lia]|].
  intros _ m1 (H1 & H2 & H3 & H4 & s & l' & E1 & E2). rewrite Hst in E1. injection E1 as <- <-.
  set (b := block_of aw.1) in *. assert (Hsb : sets_of g b = [idx]) by (apply Hsets; left).
  pose proof (counted_bound aw m s0 H0 ltac:(lia)) as Hcb.
  eapply runs_mono; [apply (IH m1 (b :: xs) _ _ H1 E2); [lia|done| | | |lia|lia]|].
  - intros x Hx'. apply Hsets. by right.
  - rewrite <- Permutation_middle. by apply list.NoDup_cons.
  - rewrite H4, touch_set by done.
    pose proof (tracked_touch (currentTime m) (currentTime m + 1) b aw.2 _ _ (lg_ok _ _ _ (mo_cache _ Hm idx)) ltac:(lia) Hw Hx) as Htr.
    destruct (Z.to_nat ways) as [|k] eqn:Ek; [lia|]. cbn [take] in *. rewrite take_take, Nat.min_l in Htr by lia. apply Htr.
    intros Hin. apply Hb. apply elem_of_app. right. by apply elem_of_take in Hin as (i & Hi%list_elem_of_lookup_2 & _).
  - intros _ m' (G1 & G2 & G3 & G4 & s' & G5 & G6). rewrite reverse_cons, <- app_assoc. split_and!; [done|congruence|lia|done|].
    exists s'. split; [done|lia].
Qed.
Lemma warm_ready l m s0 st :
  model_ok m -> loopStats m = s0 :: st -> currentTime m + Z.of_nat (length l) < 2 ^ 64 -> 1 <= ways ->
  (forall b, b ∈ blocks l -> sets_of g b = [idx]) -> NoDup (blocks l) -> Z.of_nat (length l) = ways + 1 ->
  0 <= missCount s0 -> missCount s0 + 2 * Z.of_nat (length l) < 2 ^ 64 ->
  runs (accesses l) m (fun _ m' => model_ok m' /\ enabled m' = enabled m /\ currentTime m' = currentTime m + Z.of_nat (length l) /\
    ready m' (blocks l) /\ exists s, loopStats m' = s :: st /\ missCount s0 <= missCount s <= missCount s0 + 2 * Z.of_nat (length l)).
Proof.
  intros Hm Hst Ht Hw Hsets Hn Hlen H0 Hc.
  eapply runs_mono; [apply (warm_up l m [] s0 st); try done; [by rewrite app_nil_r|by rewrite take_nil; apply tracked_nil]|].
  intros _ m' (G1 & G2 & G3 & G4 & G5). split_and!; try done. split; [done|done|by rewrite length_fmap|].
  rewrite app_nil_r in G4. destruct l as [|aw l]; [simpl in Hlen; lia|]. cbn [fmap list_fmap drop length] in *.
  rewrite reverse_cons in G4. rewrite take_app_length' in G4; [done|]. rewrite length_reverse, length_fmap. lia.
Qed.

(** Rounds after the first. *)
Lemma rounds_miss l n : forall m s0 st,
  model_ok m -> loopStats m = s0 :: st -> currentTime m + Z.of_nat n * Z.of_nat (length l) < 2 ^ 64 -> ready m (blocks l) ->
  0 <= missCount s0 -> missCount s0 + 2 * (Z.of_nat n * Z.of_nat (length l)) < 2 ^ 64 ->
  runs (accesses (concat (replicate n l))) m (fun _ m' => exists s, loopStats m' = s :: st /\ misses (Z.of_nat n * Z.of_nat (length l)) s0 s).
Proof.
  induction n as [|n IH]; intros m s0 st Hm Hst Ht Hr H0 Hc.
  { apply runs_ret. exists s0. split; [done|]. unfold misses. lia. }
  assert (Happ : forall l1 l2 m Q, runs (accesses l1) m (fun _ m' => runs (accesses l2) m' Q) -> runs (accesses (l1 ++ l2)) m Q).
  { clear. induction l1 as [|aw l1 IH]; intros l2 m Q H; [exact H|]. cbn [app accesses] in *. unfold runs in *.
    unfold mbind, M_bind in *. destruct (access aw m) as [[[] m1]|]; [|done]. by apply IH. }
  cbn [replicate concat]. apply Happ.
  eapply runs_mono; [apply (round_misses l m [] s0 st); [done|done|lia|by rewrite app_nil_r|done|lia]|].
  intros _ m1 (G1 & G2 & G3 & G4 & s1 & G5 & Gh & Gm).
  eapply runs_mono; [apply (IH m1 s1 st); [done|done|lia|done|lia|lia]|].
  intros _ m2 (s2 & E2 & Hh & Hmm). exists s2. split; [done|]. unfold misses. rewrite Hh, Gh. lia.
Qed.
End Thrash.
End Sets.
End ContentionOk.

(** * The file of contention sets, sequences of operations *)
Module ContentionRun.
Import Expr Create Solver Contention ContentionOk.
Import Cache (line_of).

(** ** The sets that are read *)
Lemma set_insert_elem x y l : y ∈ set_insert x l <-> y = x \/ y ∈ l.
Proof.
  induction l as [|z l IH]; simpl.
  { by rewrite list_elem_of_singleton, elem_of_nil, (right_id False (∨)). }
  destruct (Z.eqb_spec x z) as [->|]; [|destruct (x <? z)]; rewrite ?elem_of_cons, ?IH; tauto.
Qed.
Definition increasing : list Z -> Prop := Sorting.Sorted.StronglySorted Z.lt.
Lemma std_set_sorted x l : increasing l -> increasing (set_insert x l).
Proof.
  intros Hs. induction Hs as [|y l Hs IH Hy]; simpl; [constructor; constructor|].
  destruct (Z.eqb_spec x y) as [->|]; [by constructor|]. rewrite Forall_forall in Hy. destruct (Z.ltb_spec x y).
  - constructor; [constructor; [done|by apply Forall_forall]|]. apply Forall_forall. intros z [<-|Hz]; [done|].
    specialize (Hy z Hz). lia.
  - constructor; [done|]. apply Forall_forall. intros z Hz. apply list_elem_of_In, set_insert_elem in Hz as [->|Hz]; [lia|].
    by apply Hy, list_elem_of_In.
Qed.
Lemma increasing_nodup l : increasing l -> NoDup l.
Proof.
  intros Hs. induction Hs as [|x l Hs IH Hx]; [apply NoDup_nil_2|]. apply list.NoDup_cons. split; [|done].
  intros Hin. rewrite Forall_forall in Hx. apply list_elem_of_In in Hin. specialize (Hx x Hin). lia.
Qed.

Definition idxs_at (m : gmap Z (list Z)) (a : Z) : list Z := default [] (m !! a).
Lemma index_addresses_elem i l : forall m a idx,
  idx ∈ idxs_at (foldl (index_address i) m l) a <-> idx ∈ idxs_at m a \/ (idx = i /\ a ∈ l).
Proof.
  induction l as [|b l IH]; intros m a idx; simpl; [set_solver|]. rewrite IH. unfold index_address, idxs_at at 1.
  rewrite lookup_insert. case_decide as E; [subst b|set_solver]. simpl. fold (idxs_at m a). rewrite set_insert_elem. set_solver.
Qed.
Lemma index_sets_elem sets : forall i m a idx,
  idx ∈ idxs_at (index_sets i sets m) a <->
  idx ∈ idxs_at m a \/ exists k s, sets !! k = Some s /\ a ∈ s.1 /\ idx = i + Z.of_nat k.
Proof.
  induction sets as [|[l ways] sets IH]; intros i m a idx; cbn [index_sets].
  { split; [by left|]. intros [|(k & s & H & _)]; [done|by rewrite lookup_nil in H]. }
  rewrite IH, index_addresses_elem. split.
  - intros [[H|[-> H]]|(k & s & H1 & H2 & ->)]; [by left| |].
    + right. exists O, (l, ways). split_and!; [done|done|lia].
    + right. exists (S k), s. split_and!; [done|done|lia].
  - intros [H|([|k] & s & H1 & H2 & ->)]; [by do 2 left| |].
    + injection H1 as <-. left. right. split; [lia|done].
    + right. exists k, s. split_and!; [done|done|lia].
Qed.
Lemma index_sorted sets : forall i m, (forall a, increasing (idxs_at m a)) -> forall a, increasing (idxs_at (index_sets i sets m) a).
Proof.
  assert (Hl : forall i l m, (forall a, increasing (idxs_at m a)) -> forall a, increasing (idxs_at (foldl (index_address i) m l) a)).
  { intros i l. induction l as [|b l IH]; intros m Hm a; simpl; [done|]. apply IH. intros c. unfold idxs_at, index_address.
    rewrite lookup_insert. case_decide as E; [subst c; apply std_set_sorted, Hm|apply Hm]. }
  induction sets as [|[l ways] sets IH]; intros i m Hm a; cbn [index_sets]; [done|]. by apply IH, Hl.
Qed.

(** A model over the sets of a file; each set has a way. *)
Definition loaded (lines : list (list Z)) (g : globals) : Prop :=
  ContentionSetCacheModel (Globals [] ∅) lines = Ret g /\ Forall (fun s => 1 <= s.2 < 2 ^ 31) (contentionSets g).

Lemma loaded_index lines g : loaded lines g -> contentionSetIdxs g = index_sets 0 (contentionSets g) ∅.
Proof.
  intros [E _]. unfold ContentionSetCacheModel in E. destruct (read_sets None lines); [|done]. by injection E as <-.
Qed.
Lemma loaded_elem lines g b idx :
  loaded lines g -> idx ∈ sets_of g b ->
  idx = -1 \/ exists k s, contentionSets g !! k = Some s /\ page_of b ∈ s.1 /\ idx = Z.of_nat k.
Proof.
  intros Hl. unfold sets_of. destruct (contentionSetIdxs g !! page_of b) as [l|] eqn:E; simpl.
  - intros Hi. right. assert (Hi' : idx ∈ idxs_at (index_sets 0 (contentionSets g) ∅) (page_of b)).
    { unfold idxs_at. rewrite <- (loaded_index lines g Hl), E. done. }
    apply index_sets_elem in Hi' as [Hi'|(k & s & H1 & H2 & ->)]; [unfold idxs_at in Hi'; rewrite lookup_empty in Hi'; by apply not_elem_of_nil in Hi'|].
    exists k, s. done.
  - intros ->%list_elem_of_singleton. by left.
Qed.
Lemma loaded_sound lines g : loaded lines g -> sound g.
Proof.
  intros Hl. split.
  - intros b idx [->|(k & s & E & _ & ->)]%(loaded_elem lines); [|..|done]; [by eexists|].
    exists s.2. unfold associativity_of. rewrite (proj2 (Z.leb_le 0 _)), Nat2Z.id, E by lia. destruct s as [a w]. split; [done|].
    destruct Hl as [_ Hw]. rewrite list.Forall_lookup in Hw. apply (Hw k _ E).
  - intros b. unfold sets_of. destruct (contentionSetIdxs g !! page_of b) as [l|] eqn:E; [|apply NoDup_singleton].
    apply increasing_nodup. pose proof (index_sorted (contentionSets g) 0 ∅ ltac:(intros a; unfold idxs_at; rewrite lookup_empty; constructor) (page_of b)) as H.
    unfold idxs_at in H. by rewrite <- (loaded_index lines g Hl), E in H.
  - intros idx. unfold ways_of, associativity_of. destruct (0 <=? idx); [|done].
    destruct (contentionSets g !! Z.to_nat idx) as [[a w]|] eqn:E; [|done].
    destruct Hl as [_ Hw]. rewrite list.Forall_lookup in Hw. specialize (Hw _ _ E). simpl in Hw. lia.
Qed.

(** ** Sequences of operations *)
Inductive op : Type := OLoad (e : expr) (rand : Z -> Z) | OStore (e : expr) (rand : Z -> Z) | OExec | OLoop.

Section Run.
Context (g : globals) {ap : APInt} (ConstArrayOpt RewriteEqualities : bool).
Context (WorstCaseSymIndices GiveUpOnComplexSymIndices TerminateOnUNSAT simplifyExprs : bool) (MaxLoops : Z).
Context {St : Type} (solver : SolverImpl St) (fuel : nat).
Abbreviation load_ := (load g ConstArrayOpt RewriteEqualities WorstCaseSymIndices GiveUpOnComplexSymIndices TerminateOnUNSAT simplifyExprs solver fuel).
Abbreviation store_ := (store g ConstArrayOpt RewriteEqualities WorstCaseSymIndices GiveUpOnComplexSymIndices TerminateOnUNSAT simplifyExprs solver fuel).

Definition step (o : op) : M (state St) unit :=
  match o with
  | OLoad e rand => load_ e rand;; mret tt
  | OStore e rand => store_ e rand;; mret tt
  | OExec => on_model exec
  | OLoop => on_model (loop MaxLoops);; mret tt
  end.
Fixpoint run (l : list op) : M (state St) unit :=
  match l with
  | [] => mret tt
  | o :: l => step o;; run l
  end.

(** Operations on constant addresses, as most pointers of a path are. *)
Definition constant (o : op) : Prop :=
  match o with OLoad e _ | OStore e _ => exists v, e = Constant 64 v | _ => True end.
Definition access_op (rand : Z -> Z) (aw : Z * bool) : op :=
  if aw.2 then OStore (Constant 64 aw.1) rand else OLoad (Constant 64 aw.1) rand.

Lemma access_step rand aw m cs t st :
  enabled m = true -> step (access_op rand aw) (State m cs t st) = on_model (access g aw) (State m cs t st).
Proof.
  intros He. destruct aw as [a w].
  assert (Hm : forall w, memoryOperation g ConstArrayOpt RewriteEqualities WorstCaseSymIndices GiveUpOnComplexSymIndices
    TerminateOnUNSAT simplifyExprs solver fuel (Constant 64 a) w rand = (on_model (updateCache g a w);; mret (Constant 64 a))).
  { intros w'. idtac. reflexivity. }
  unfold access_op, step, load, store, access, on_model, zoom, get. cbn [snd fst]. unfold zoom.
  destruct w; cbv beta iota delta [mbind M_bind]; cbn [cache_model]; rewrite He; cbn [cache_model];
    (destruct (on_back _ m) as [[[] m1]|]; [|done]); cbn [cache_model constraints terminated solver_state]; rewrite Hm;
    cbv beta iota delta [mbind M_bind on_model zoom mret M_ret]; cbn [cache_model constraints terminated solver_state];
    by destruct (updateCache g a _ m1) as [[[] m2]|].
Qed.
Lemma run_accesses rand l : forall m cs t st, sound g -> model_ok g m -> enabled m = true ->
  currentTime m + Z.of_nat (length l) < 2 ^ 64 ->
  run (access_op rand <$> l) (State m cs t st) = on_model (accesses g l) (State m cs t st).
Proof.
  induction l as [|aw l IH]; intros m cs t st Hg Hm He Ht; [done|]. cbn [fmap list_fmap run accesses length] in *.
  pose proof (access_ok g Hg m aw Hm (mo_stats _ _ Hm He) ltac:(lia)) as (a & m1 & E & H1 & H2 & H3 & _)%runs_out. destruct a.
  rewrite (mbind_run _ _ _ tt (State m1 cs t st)).
  - rewrite IH by (done || congruence || lia). unfold on_model, zoom. cbn [cache_model]. by rewrite (mbind_run _ _ _ _ _ E).
  - rewrite access_step by done. unfold on_model, zoom. cbn [cache_model]. by rewrite E.
Qed.

Lemma contention_start_ok : sound g -> model_ok g start.
Proof.
  intros Hg.   split; [|done|done]. intros idx. unfold line_of, start. cbn [cache]. rewrite lookup_empty. split.
  - by apply Lru.line_ok_nil, Hg.
  - intros x Hx. by apply not_elem_of_nil in Hx.
Qed.

Lemma lift_model {A} (c : M model A) m cs t (st : St) a m' :
  c m = Ret (a, m') -> on_model c (State m cs t st) = Ret (a, State m' cs t st).
Proof. intros E. unfold on_model, zoom. cbn [cache_model]. by rewrite E. Qed.

(** One operation on a constant address. *)
Lemma contention_step_ok o m cs t st :
  sound g -> constant o -> model_ok g m -> currentTime m + 1 < 2 ^ 64 ->
  exists m', step o (State m cs t st) = Ret (tt, State m' cs t st) /\ model_ok g m' /\ currentTime m' <= currentTime m + 1.
Proof.
  intros Hg Hc Hm Ht. destruct (enabled m) eqn:He.
  - assert (Ha : forall rand aw, exists m', step (access_op rand aw) (State m cs t st) = Ret (tt, State m' cs t st) /\
      model_ok g m' /\ currentTime m' <= currentTime m + 1).
    { intros rand aw. pose proof (access_ok g Hg m aw Hm (mo_stats _ _ Hm He) Ht) as ([] & m1 & E & H1 & _ & H3 & _)%runs_out.
      exists m1. rewrite access_step by done. split; [by apply lift_model|]. split; [done|lia]. }
    destruct o as [e rand|e rand| |].
    + destruct Hc as [a ->]. apply (Ha rand (a, false)).
    + destruct Hc as [a ->]. apply (Ha rand (a, true)).
    + destruct Hm as [H1 H2 H3]. specialize (H3 He). destruct (loopStats m) as [|s l] eqn:E; [done|].
      exists (Model true (cache m) (currentTime m) (count_instruction s :: l)). split; [|split; [by split|simpl; lia]].
      apply lift_model. unfold exec, get. cbv beta iota delta [mbind M_bind]. rewrite He. unfold on_back. by rewrite E, He.
    + destruct Hm as [H1 H2 H3]. cbn [step].
      exists (if Z.of_nat (length (loopStats m)) >=? MaxLoops then m else Model true (cache m) (currentTime m) (new_stats :: loopStats m)).
      split; [|by destruct (_ >=? _); (split; [by split|simpl; lia])].
      rewrite (mbind_run _ _ _ (if Z.of_nat (length (loopStats m)) >=? MaxLoops then false else true)
        (State (if Z.of_nat (length (loopStats m)) >=? MaxLoops then m else Model true (cache m) (currentTime m) (new_stats :: loopStats m)) cs t st)); [done|].
      apply lift_model. unfold loop, get, put. cbv beta iota delta [mbind M_bind]. rewrite He. by destruct (_ >=? _).
  - destruct o as [e rand|e rand| |].
    + exists m. split; [|split; [done|lia]]. cbn [step]. unfold load, get. cbv beta iota delta [mbind M_bind].
      cbn [cache_model]. by rewrite He.
    + exists m. split; [|split; [done|lia]]. cbn [step]. unfold store, get. cbv beta iota delta [mbind M_bind].
      cbn [cache_model]. by rewrite He.
    + exists m. split; [|split; [done|lia]]. apply lift_model. unfold exec, get. cbv beta iota delta [mbind M_bind]. by rewrite He.
    + destruct Hm as [H1 H2 H3]. exists (Model true (cache m) (currentTime m) (new_stats :: loopStats m)).
      split; [|split; [by split|simpl; lia]]. cbn [step]. rewrite (mbind_run _ _ _ true (State (Model true (cache m) (currentTime m) (new_stats :: loopStats m)) cs t st)); [done|].
      apply lift_model. unfold loop, get, put. cbv beta iota delta [mbind M_bind]. by rewrite He.
Qed.
Lemma contention_run_ok ops : forall m cs t st,
  sound g -> Forall constant ops -> model_ok g m -> currentTime m + Z.of_nat (length ops) < 2 ^ 64 ->
  exists m', run ops (State m cs t st) = Ret (tt, State m' cs t st) /\ model_ok g m'.
Proof.
  induction ops as [|o ops IH]; intros m cs t st Hg Hc Hm Ht; [by exists m|].
  apply Forall_cons_iff in Hc as [Ho Hc]. cbn [length run] in *.
  destruct (contention_step_ok o m cs t st Hg Ho Hm) as (m1 & E & H1 & H2); [lia|].
  rewrite (mbind_run _ _ _ _ _ E). apply IH; (done || lia).
Qed.

(** C38. The contention set model over the file it loads: whatever loads and stores of constant
    addresses, instructions and loop marks a path executes, each is answered, no constraint is
    added, and in the end every set holds at most as many blocks as it has ways, each aligned
    and one of its own, used at different times. *)
Theorem contention_bounded lines ops cs st :
  loaded lines g -> Forall constant ops -> Z.of_nat (length ops) < 2 ^ 64 ->
  exists m, run ops (State start cs false st) = Ret (tt, State m cs false st) /\ cache_ok g (currentTime m) (cache m).
Proof.
  intros Hl Hc Hn. destruct (contention_run_ok ops start cs false st) as (m & E & Hm); [by eapply loaded_sound|done| |done|].
  - apply contention_start_ok. by eapply loaded_sound.
  - exists m. split; [done|]. apply Hm.
Qed.

(** C15. Contention: when a path accesses, in turn, one block more than a set has ways, then
    from the second round on every access is a miss, for as many rounds as there are: no hit
    is counted, and at least one access to memory for each. *)
Theorem overflowing_blocks_miss lines idx rand l n m s0 stats cs t st :
  loaded lines g -> model_ok g m -> enabled m = true -> loopStats m = s0 :: stats ->
  NoDup ((fun aw => block_of aw.1) <$> l) -> Forall (fun aw => sets_of g (block_of aw.1) = [idx]) l ->
  Z.of_nat (length l) = ways_of g idx + 1 ->
  currentTime m + Z.of_nat (S n) * Z.of_nat (length l) < 2 ^ 64 ->
  0 <= missCount s0 -> missCount s0 + 2 * (Z.of_nat (S n) * Z.of_nat (length l)) < 2 ^ 64 ->
  exists m1 s1 m2 s2,
    run (access_op rand <$> l) (State m cs t st) = Ret (tt, State m1 cs t st) /\ loopStats m1 = s1 :: stats /\
    run (access_op rand <$> concat (replicate n l)) (State m1 cs t st) = Ret (tt, State m2 cs t st) /\ loopStats m2 = s2 :: stats /\
    hitCount s2 = hitCount s1 /\ missCount s1 + Z.of_nat n * Z.of_nat (length l) <= missCount s2.
Proof.
  intros Hl Hm He Hs Hn Hsets Hlen Ht H0 Hc. pose proof (loaded_sound _ _ Hl) as Hg. rewrite list.Forall_forall in Hsets.
  pose proof (so_ways_of g Hg idx) as Hw0. assert (Hw : 1 <= ways_of g idx).
  { destruct l as [|aw l]; [simpl in Hlen; lia|]. apply (ways_pos g Hg (block_of aw.1)). rewrite (Hsets aw) by left. left. }
  assert (Hb : forall b, b ∈ (fun aw : Z * bool => block_of aw.1) <$> l -> sets_of g b = [idx]).
  { intros b (aw & -> & Hin)%list_elem_of_fmap. by apply Hsets. }
  pose proof (warm_ready g Hg idx l m s0 stats Hm Hs ltac:(lia) Hw Hb Hn Hlen H0 ltac:(lia))
    as ([] & m1 & E1 & G1 & G2 & G3 & G4 & s1 & G5 & G6)%runs_out.
  pose proof (rounds_miss g Hg idx l n m1 s1 stats G1 G5 ltac:(lia) G4 ltac:(lia) ltac:(lia))
    as ([] & m2 & E2 & s2 & K1 & K2 & K3)%runs_out.
  assert (Hcl : Z.of_nat (length (concat (replicate n l))) = Z.of_nat n * Z.of_nat (length l)).
  { clear. induction n as [|n IH]; [done|]. cbn [replicate concat]. rewrite length_app. lia. }
  exists m1, s1, m2, s2. split_and!; try done; [| |lia].
  - rewrite run_accesses by (done || lia). by apply lift_model.
  - rewrite run_accesses by (done || congruence || lia). by apply lift_model.
Qed.
End Run.

(** ** On a file

    One set, of two ways and three lines of a page. *)
Definition text (s : string) : list Z := (fun c => Z.of_nat (Ascii.nat_of_ascii c)) <$> String.list_ascii_of_string s.
Definition file : list (list Z) := text <$> ["2"; "64"; "0"; " 128"; ""].
Definition file_globals : globals :=
  Globals [([0; 64; 128], 2)] (index_sets 0 [([0; 64; 128], 2)] ∅).
Lemma file_loaded : loaded file file_globals.
Proof. split; [vm_compute; reflexivity|]. constructor; [done|constructor]. Qed.

(** A solver that is not asked. *)
Definition no_solver : SolverImpl unit :=
  MkSolverImpl (fun _ => mret None) (fun _ => mret None) (fun _ => mret None) (fun _ _ => mret None).
Abbreviation run_ := (@run file_globals ExprMain.bv_apint false true true false false true 3 unit no_solver 0).
Definition no_rand : Z -> Z := fun _ => 0.
Definition reads_and_writes : list op :=
  [OLoad (Constant 64 0) no_rand; OLoop; OStore (Constant 64 4096) no_rand; OExec; OLoad (Constant 64 70) no_rand].

Lemma contention_bounded_witness :
  exists m, run_ reads_and_writes (State start [] false tt) = Ret (tt, State m [] false tt) /\
    cache_ok file_globals (currentTime m) (cache m).
Proof.
  refine (contention_bounded file_globals false true true false false true 3 no_solver 0 file reads_and_writes [] tt file_loaded _ _).
  - repeat constructor; by eexists.
  - change (Z.of_nat 5 < 2 ^ 64). lia.
Defined.

(** Three lines of the set, accessed in turn. *)
Definition three_lines : list (Z * bool) := [(0, true); (70, false); (128, false)].
Definition first_loop : model := Model true ∅ 0 [new_stats].
Lemma first_loop_ok : model_ok file_globals first_loop.
Proof. destruct (contention_start_ok file_globals (loaded_sound _ _ file_loaded)) as [H1 H2 _]. by split. Qed.
Lemma three_lines_sets : Forall (fun aw => sets_of file_globals (block_of aw.1) = [0]) three_lines.
Proof. repeat constructor; vm_compute; reflexivity. Qed.

Lemma overflowing_blocks_miss_witness :
  exists m1 s1 m2 s2,
    run_ (access_op no_rand <$> three_lines) (State first_loop [] false tt) = Ret (tt, State m1 [] false tt) /\ loopStats m1 = [s1] /\
    run_ (access_op no_rand <$> concat (replicate 5 three_lines)) (State m1 [] false tt) = Ret (tt, State m2 [] false tt) /\
    loopStats m2 = [s2] /\ hitCount s2 = hitCount s1 /\ missCount s1 + Z.of_nat 5 * Z.of_nat (length three_lines) <= missCount s2.
Proof.
  apply (overflowing_blocks_miss file_globals false true true false false true 3 no_solver 0 file 0 no_rand three_lines 5 first_loop
    new_stats [] [] false tt file_loaded first_loop_ok eq_refl eq_refl).
  - vm_compute. repeat constructor; set_solver by lia.
  - exact three_lines_sets.
  - vm_compute. reflexivity.
  - vm_compute. reflexivity.
  - done.
  - vm_compute. reflexivity.
Defined.

(** ** Where prediction and count part *)
(** A write that misses is predicted at the latency of a hit, and counted as a miss. *)
Example write_miss_cost :
  getMissCost file_globals ∅ 0 true = Ret CACHE_HIT_LATENCY /\
  exists m, run_ [OLoop; OStore (Constant 64 0) no_rand] (State start [] false tt) = Ret (tt, State m [] false tt) /\
    loopStats m = [Stats 0 0 1 0 1].
Proof. split; [vm_compute; reflexivity|]. eexists. split; vm_compute; reflexivity. Qed.
(** A set without ways: the first access to a line of it reads the first entry of an empty map. *)
Example no_ways :
  update_set 1 0 false 0 [] = Stop MemError.
Proof. reflexivity. Qed.
End ContentionRun.
