(* ===== verification/ContentionChoice.v ===== *)
(** * The contention set model: the address of a symbolic pointer

    A symbolic pointer is replaced by an address it can have, and nothing else is assumed:
    the new constraints have exactly the solutions of the old ones with that address. An
    address that was found by overflowing a set misses. *)
From stdpp Require Import base gmap list strings numbers.
From Stdlib Require Import ZArith Lia.
From S2P Require Import Prelude CacheModel CacheLru ExprData ExprFacts ExprCreate ExprSound ExprEval ExprMain.
From S2P Require Import Constraints ConstraintsOk ConstraintsMain Solver Paths Contention ContentionOk.

Module ContentionChoice.
Import Expr ExprFacts Create Sound ExprMain Weight Constraints ConstraintsOk ConstraintsMain Solver TimingSolver Paths TryAll.
Import Contention ContentionOk ContentionRun.
Import Cache (mfind, line_of).

Section Solutions.
Context {ins : Inputs}.
Section Path.
Context {ap : APInt} {ap_ok : APIntOk} (RewriteEqualities : bool).

(** ** The line of an address *)
Definition line_bits (v : Z) : Z := Z.land v LINE_MASK.
Definition on_line (address : expr) (a : Z) (init : array -> Z -> option Z) : Prop :=
  exists v, eval init address = Some v /\ line_bits v = u64 a.

Lemma in_line_ok cs address a init0 :
  path_ok cs -> solution cs init0 -> asked 64 address ->
  exists e, gives (fun n => in_line false n cs address a) e /\ asked 1 e /\
    forall init, solution cs init -> (holds init e <-> on_line address a init).
Proof.
  intros Hp Hs0 Ha. pose proof (u64_range a) as Hr. destruct Ha as [Ho Hw Hd].
  assert (Hc : forall v, 0 <= v < 2 ^ 64 -> create_Constant v (getWidth address) = Ret (Constant 64 v) /\ asked 64 (Constant 64 v)).
  { intros v Hv. unfold create_Constant. rewrite Hw, Z.mod_small, Z.eqb_refl by lia. split; [done|].
    split; [by apply constant_ok|done|done]. }
  destruct (Hc (u64 a)) as [C1 A1]; [lia|]. destruct (Hc LINE_MASK) as [C2 A2]; [by vm_compute|].
  destruct (binary_created And 64 (Constant 64 LINE_MASK) address) as (masked & E1 & B1 & V1); [done|by split|done|]. simpl in B1.
  destruct (binary_created Eq 64 (Constant 64 (u64 a)) masked) as (e & E2 & B2 & V2); [done|done|done|]. simpl in B2.
  destruct (simplified cs 1 e init0 Hp Hs0 B2) as (e' & G & B3 & V3). exists e'. split_and!; [|done|].
  - unfold in_line. destruct G as [n Hn]. exists n. intros m Hm. rewrite C1, C2. cbn [mbind result_bind].
    change (create_And (Constant 64 LINE_MASK) address) with (create_binary false And (Constant 64 LINE_MASK) address).
    rewrite E1. cbn [mbind result_bind].
    change (create_Eq false (Constant 64 (u64 a)) masked) with (create_binary false Eq (Constant 64 (u64 a)) masked).
    rewrite E2. cbn [mbind result_bind]. by apply Hn.
  - intros init Hs. unfold holds. rewrite (V3 init Hs). destruct (sol_defined 64 address cs init ltac:(by split) Hs) as [v Hv].
    pose proof (V1 init (line_bits v) (sol_init _ _ Hs)) as Hm. simpl in Hm. rewrite Hv in Hm. simpl in Hm.
    unfold line_bits in *. rewrite (Z.land_comm LINE_MASK v) in Hm. specialize (Hm eq_refl).
    pose proof (V2 init (b2z (u64 a =? Z.land v LINE_MASK)) (sol_init _ _ Hs)) as He. simpl in He. rewrite Hm in He.
    simpl in He. rewrite He by (by destruct (_ =? _)). unfold on_line, line_bits. split.
    + intros [= Hx]. exists v. split; [done|]. destruct (Z.eqb_spec (u64 a) (Z.land v LINE_MASK)); [done|by simpl in Hx].
    + intros (v' & Hv' & Hl). rewrite Hv in Hv'. injection Hv' as <-. by rewrite Hl, Z.eqb_refl.
Qed.

(** A constant is an address of the path. *)
Definition feasible (cs : list expr) (address : expr) (v : Z) : Prop :=
  exists init, solution cs init /\ eval init address = Some v.

(** The equality that pins an address adds exactly that. *)
Definition pinned (cs : list expr) (address : expr) (v : Z) (cs' : list expr) : Prop :=
  path_ok cs' /\ (exists init, solution cs' init) /\
  forall init, solution cs' init <-> solution cs init /\ eval init address = Some v.

Lemma pin_ok cs address v :
  path_ok cs -> asked 64 address -> 0 <= v < 2 ^ 64 -> feasible cs address v ->
  exists e cs', create_Eq false (Constant 64 v) address = Ret e /\
    gives (fun n => addConstraint false RewriteEqualities n e cs) cs' /\ pinned cs address v cs'.
Proof.
  intros Hp Ha Hv (init0 & Hs0 & Hv0).
  destruct (binary_created Eq 64 (Constant 64 v) address) as (e & E & B & V); [split; [by apply constant_ok|done|done]|done|done|]. simpl in B.
  assert (Hh : forall init, solution cs init -> (holds init e <-> eval init address = Some v)).
  { intros init Hs. destruct (sol_defined 64 address cs init Ha Hs) as [u Hu]. unfold holds.
    pose proof (V init (b2z (v =? u)) (sol_init _ _ Hs)) as He. simpl in He. rewrite Hu in He. simpl in He.
    rewrite He, Hu by (by destruct (_ =? _)). destruct (Z.eqb_spec v u) as [->|]; simpl; [done|].
    split; [done|]. intros [= ->]. done. }
  destruct (added RewriteEqualities cs e init0 Hp B Hs0) as (cs' & G & Hp' & Hs'); [by apply Hh|].
  exists e, cs'. split_and!; [done|done|]. split; [done|]. split.
  - exists init0. apply Hs'. split; [done|by apply Hh].
  - intros init. rewrite Hs'. split; intros [H1 H2]; (split; [done|]); by apply Hh.
Qed.

(** ** The search *)
Section Search.
Context (g : globals) (c : cache_t) (GiveUpOnComplexSymIndices : bool).
Context {St : Type} (solver : SolverImpl St) (inv : St -> Prop) {values : GivesValues solver inv}.
Context (cs : list expr) (address : expr) (init0 : array -> Z -> option Z).
Hypotheses (Hp : path_ok cs) (Hs0 : solution cs init0) (Ha : asked 64 address) (Hsym : isConstant address = false).

(** Line [a] is possible, or excluded without the solver. *)
Definition decided (a : Z) : Prop :=
  (exists init, solution cs init /\ on_line address a init) \/ gives (fun n => in_line false n cs address a) (Constant Bool 0).

(** A possible address of line [a] that is not cached. *)
Definition fresh (a : Z) : Prop := exists v, feasible cs address v /\ line_bits v = u64 a /\ cached g c a (block_of v) = false.

Abbreviation try_ := (fun n ways => try_addresses g false RewriteEqualities GiveUpOnComplexSymIndices solver n cs address c ways).

(** What the search returns: [L] are the lines counted so far. *)
Definition backup_ok (b : backup_t) : Prop := forall e, b.2 = Some e -> exists v, e = Constant 64 v /\ 0 <= v < 2 ^ 64 /\ feasible cs address v.
(** The address misses: its line is one of a list of fresh lines of the set, which
    together with the blocks in the set are more than its ways. *)
Record overflows (ways size : Z) (lines : list Z) (e : expr) : Prop := {
  ov_address : exists v a, e = Constant 64 v /\ 0 <= v < 2 ^ 64 /\ feasible cs address v /\
    a ∈ lines /\ line_bits v = u64 a /\ cached g c a (block_of v) = false;
  ov_lines : exists L, NoDup L /\ L ⊆ lines /\ Forall fresh L /\ ways < size + Z.of_nat (length L)
}.

(** The value the solver gives for a candidate. *)
Lemma candidate_ok a s :
  decided a -> inv s ->
  exists e, gives (fun n => in_line false n cs address a) e /\
    (isFalse e = true \/
     isFalse e = false /\ exists cs', gives (fun n => addConstraint false RewriteEqualities n e cs) cs' /\
       runs (getValue solver (MkQuery cs' address)) s (fun r s' => inv s' /\
         exists v, r = Some (Constant 64 v) /\ 0 <= v < 2 ^ 64 /\ feasible cs address v /\ line_bits v = u64 a)).
Proof.
  intros Hd Hs. destruct (in_line_ok cs address a init0 Hp Hs0 Ha) as (e & G & B & Hl). exists e. split; [done|].
  destruct (isFalse e) eqn:Hf; [by left|]. right. split; [done|]. destruct Hd as [(init & Hi & Ho)|Hc].
  2:{ destruct G as [n Hn], Hc as [n' Hn']. specialize (Hn (Nat.max n n') ltac:(lia)). rewrite Hn' in Hn by lia.
      injection Hn as <-. done. }
  destruct (added RewriteEqualities cs e init Hp B Hi) as (cs' & G' & Hp' & Hs'); [by apply Hl|]. exists cs'. split; [done|].
  assert (Hsat : exists init, solution cs' init) by (exists init; apply Hs'; split; [done|by apply Hl]).
  unfold getValue. assert (Hq : runs (r ← computeValue solver (MkQuery cs' address);
      match r with None => mret None | Some e => assert_ (isConstant e);; mret (Some e) end) s
      (fun r s' => inv s' /\ exists v, r = Some (Constant 64 v) /\ 0 <= v < 2 ^ 64 /\ feasible cs address v /\ line_bits v = u64 a)).
  { eapply runs_step; [apply (gives_value (MkQuery cs' address) 64 Hp' Ha Hsat s Hs)|].
    intros r s' (Hs1 & v & init' & -> & Hi' & Hv). apply runs_ret. split; [done|]. exists v. simpl in Hi', Hv.
    apply Hs' in Hi' as [Hi1 Hi2]. pose proof (eval_fits init' (sol_init _ _ Hi1) address v (as_ok _ _ Ha) Hv) as Hfit.
    rewrite (as_width _ _ Ha) in Hfit. split_and!; [done|lia|lia|by exists init'|].
    apply Hl in Hi2 as (v' & Hv' & Hb); [|done]. congruence. }
  destruct address; done.
Qed.

Lemma try_addresses_ok ways size : 0 <= size -> 1 <= ways < 2 ^ 31 -> forall addresses lines L b s,
  Forall decided addresses -> NoDup addresses -> (forall a, a ∈ L -> a ∉ addresses) -> addresses ⊆ lines ->
  NoDup L -> L ⊆ lines -> Forall fresh L -> size + Z.of_nat (length L) <= ways -> backup_ok b -> inv s ->
  eventually (fun n => try_ n ways addresses (size + Z.of_nat (length L)) b) s (fun r s' => inv s' /\ backup_ok r.2 /\
    match r.1 with Found e => overflows ways size lines e | GaveUp => False | Exhausted => True end).
Proof.
  intros Hsz Hw addresses. induction addresses as [|a addresses IH]; intros lines L b s Hd Hn Hdis Hsub HnL HL HfL Hle Hb Hs.
  { by apply ev_ret. }
  apply Forall_cons_iff in Hd as [Hda Hd]. apply list.NoDup_cons in Hn as [Hna Hn].
  assert (Hdis' : forall x, x ∈ L -> x ∉ addresses) by (intros x Hx Hx'; apply (Hdis x Hx); by right).
  assert (Hsub' : addresses ⊆ lines) by (intros x Hx; apply Hsub; by right).
  assert (Hin : a ∈ lines) by (apply Hsub; left).
  destruct (candidate_ok a s Hda Hs) as (e & G & [Hf|(Hf & cs' & G' & Hr)]); cbn [try_addresses]; (eapply ev_lift; [exact G|]); rewrite Hf.
  { by apply IH. }
  eapply ev_lift; [exact G'|]. eapply ev_bind; [apply ev_runs, Hr|]. intros r s' (Hs' & v & -> & Hv & Hfe & Hl).
  cbn [block_of_expr Evaluator.getZExtValue]. unfold Evaluator.getZExtValue. change (64 <? 64) with false. cbn [mbind result_bind].
  eapply ev_lift_const; [reflexivity|]. destruct (cached g c a (block_of v)) eqn:Hc; [by apply IH|].
  rewrite u32_small by lia. assert (Hfr : fresh a) by (by exists v).
  assert (HnL' : NoDup (a :: L)) by (apply list.NoDup_cons; split; [intros Hx; apply (Hdis a Hx); left|done]).
  assert (HL' : a :: L ⊆ lines) by (intros x [->|Hx]%elem_of_cons; [done|by apply HL]).
  assert (El : size + Z.of_nat (length L) + 1 = size + Z.of_nat (length (a :: L))) by (simpl; lia). rewrite El.
  destruct (Z.ltb_spec ways (size + Z.of_nat (length (a :: L)))) as [Ho|Ho].
  - apply ev_ret. split_and!; [done|done|]. split; [by exists v, a|]. exists (a :: L). split_and!; [done|done|by constructor|done].
  - apply IH; try done.
    + intros x [->|Hx]%elem_of_cons; [done|by apply Hdis'].
    + by constructor.
    + cbn [fst]. destruct (b.1 <? _); [|done]. intros e' [= <-]. by exists v.
Qed.

(** *** The sets *)
Definition sets_ok : Prop := Forall (fun s => 1 <= s.2 < 2 ^ 31 /\ NoDup s.1 /\ Forall decided s.1) (contentionSets g).
Definition within (idx : Z) : Prop :=
  exists s, contentionSets g !! Z.to_nat idx = Some s /\ Z.of_nat (length (line_of c idx)) <= s.2.
(** The address overflows one of the sets. *)
Definition overflows_some (e : expr) : Prop :=
  exists idx s, contentionSets g !! Z.to_nat idx = Some s /\ overflows s.2 (Z.of_nat (length (line_of c idx))) s.1 e.

Lemma try_sets_ok order : forall b s, sets_ok -> Forall (fun x => within x.2) order -> backup_ok b -> inv s ->
  eventually (fun n => try_sets g false RewriteEqualities GiveUpOnComplexSymIndices solver n cs address c order b) s
    (fun r s' => inv s' /\ backup_ok r.2 /\ match r.1 with Found e => overflows_some e | GaveUp => False | Exhausted => True end).
Proof.
  induction order as [|[k idx] order IH]; intros b s Hok Ho Hb Hs; [by apply ev_ret|].
  apply Forall_cons_iff in Ho as [(st & Es & Hlen) Ho]. simpl in Es, Hlen. cbn [try_sets]. rewrite Es.
  unfold sets_ok in Hok. pose proof Hok as Hok'. rewrite list.Forall_lookup in Hok'. destruct (Hok' _ _ Es) as (Hw & Hn & Hd).
  apply (ev_bind (fun _ => of_option (Some st)) _ _ (fun a s' => a = st /\ s' = s)); [by apply ev_ret|]. intros ? ? [-> ->].
  rewrite u32_small by lia.
  pose proof (try_addresses_ok st.2 (Z.of_nat (length (line_of c idx))) ltac:(lia) Hw st.1 st.1 [] b s Hd Hn) as Htry.
  rewrite Z.add_0_r in Htry. eapply ev_bind; [apply Htry|]; clear Htry; try done.
  - intros a Hx. by apply not_elem_of_nil in Hx.
  - apply NoDup_nil_2.
  - intros a Hx. by apply not_elem_of_nil in Hx.
  - intros [[e| |] b'] s' (Hs' & Hb' & H); simpl in H; [|done|by apply IH].
    apply ev_ret. split_and!; [done|done|]. by exists idx, st.
Qed.

(** *** The order of the sets *)
Lemma cost_put_forall (P : Z -> Prop) k i l : P i -> Forall (fun x => P x.2) l -> Forall (fun x => P x.2) (cost_put k i l).
Proof.
  intros Hi. induction 1 as [|[k' i'] l Hx Hl IH]; cbn [cost_put]; [by repeat constructor|].
  destruct (key_ltb k k'); [by repeat constructor|]. destruct (key_ltb k' k); by constructor.
Qed.
Lemma cost_put_cons k i l : cost_put k i l <> [].
Proof. destruct l as [|[k' i'] l]; [done|]. cbn [cost_put]. destruct (key_ltb k k'), (key_ltb k' k); done. Qed.

Lemma getMissCost_ok idx isWrite s :
  contentionSets g !! Z.to_nat idx = Some s -> 1 <= s.2 -> exists n, getMissCost g c idx isWrite = Ret n.
Proof.
  intros Es Hw. unfold getMissCost. rewrite Es. cbn [mbind result_bind]. destruct (Z.leb_spec s.2 (Z.of_nat (length (line_of c idx)))); [|by eexists].
  destruct (line_of c idx) as [|x l] eqn:E; [simpl in *; lia|]. unfold lruPtr. simpl. by eexists.
Qed.
Lemma setCosts_ok isWrite rand (P : Z -> Prop) sets : forall i costs,
  0 <= i -> (forall k s, sets !! k = Some s -> contentionSets g !! Z.to_nat (i + Z.of_nat k) = Some s /\ 1 <= s.2 /\ P (i + Z.of_nat k)) ->
  Forall (fun x => P x.2) costs -> (sets = [] -> costs <> []) ->
  exists order, setCosts g c isWrite rand i sets costs = Ret order /\ Forall (fun x => P x.2) order /\ order <> [].
Proof.
  induction sets as [|[l ways] sets IH]; intros i costs Hi Hs Hc Hne; [by exists costs; auto|].
  destruct (Hs O (l, ways) eq_refl) as (E & Hw & HP). rewrite Z.add_0_r in E, HP. cbn [setCosts].
  destruct (getMissCost_ok i isWrite _ E Hw) as [n ->]. cbn [mbind result_bind]. apply IH; [lia| |by apply cost_put_forall|by intros _; apply cost_put_cons].
  intros k s Hk. specialize (Hs (S k) s Hk). by replace (i + 1 + Z.of_nat k) with (i + Z.of_nat (S k)) by lia.
Qed.

Lemma worst_case_ok WorstCaseSymIndices isWrite rand s :
  contentionSets g <> [] -> sets_ok -> (forall idx st, contentionSets g !! Z.to_nat idx = Some st -> 0 <= idx -> within idx) -> inv s ->
  eventually (fun n => worst_case g false RewriteEqualities WorstCaseSymIndices GiveUpOnComplexSymIndices solver n cs address c isWrite rand) s
    (fun r s' => inv s' /\ backup_ok r.2 /\ match r.1 with Found e => overflows_some e | GaveUp => False | Exhausted => True end).
Proof.
  intros Hne Hok Hwi Hs. unfold worst_case. destruct WorstCaseSymIndices; [|by apply ev_ret].
  destruct (setCosts_ok isWrite rand within (contentionSets g) 0 []) as (order & E & Ho & Hno); [done| |constructor|done|].
  - intros k st Hk. rewrite Z.add_0_l, Nat2Z.id. split; [done|]. unfold sets_ok in Hok. rewrite list.Forall_lookup in Hok.
    split; [apply (Hok _ _ Hk)|]. apply (Hwi _ st); [by rewrite Nat2Z.id|lia].
  - eapply ev_lift_const; [exact E|]. destruct order as [|x order]; [done|]. by apply try_sets_ok.
Qed.

(** *** The chosen address *)
(** The equality with the chosen address is added to the constraints. *)
Lemma pin_run m t s v :
  0 <= v < 2 ^ 64 -> feasible cs address v -> inv s ->
  eventually (fun n => pin false RewriteEqualities n (Constant 64 v) address) (State m cs t s)
    (fun e p => e = Constant 64 v /\ pinned cs address v (constraints p) /\ cache_model p = m /\ terminated p = t /\ inv (solver_state p)).
Proof.
  intros Hv Hf Hs. destruct (pin_ok cs address v Hp Ha Hv Hf) as (e & cs' & E & G & Hpin). unfold pin.
  eapply ev_lift_const; [exact E|]. apply ev_get. cbn [constraints]. eapply ev_lift; [exact G|].
  eapply ev_bind; [apply ev_runs, (runs_modify (fun _ => State m cs' t s) _ (fun _ p => p = State m cs' t s)); reflexivity|].
  intros [] p ->. by apply ev_ret.
Qed.

(** How a symbolic pointer is replaced. *)
Definition replaced (TerminateOnUNSAT : bool) (m : model) (r : option expr) (p : state St) : Prop :=
  inv (solver_state p) /\ cache_model p = m /\
  match r with
  | None => TerminateOnUNSAT = true /\ terminated p = true /\ constraints p = cs
  | Some e => terminated p = false /\ exists v, e = Constant 64 v /\ pinned cs address v (constraints p)
  end.

Lemma timing_ok simplifyExprs s :
  inv s -> eventually (fun n => timing_getValue false simplifyExprs solver n cs address) s
    (fun r s' => inv s' /\ exists v, r = Some (Constant 64 v) /\ 0 <= v < 2 ^ 64 /\ feasible cs address v).
Proof.
  intros Hs. unfold timing_getValue, timing_simplify. rewrite Hsym.
  set (e2 := simplified cs 64 address init0 Hp Hs0 Ha).
  assert (Hx : exists e', eventually (fun n => if simplifyExprs then lift (simplifyExpr false n cs address) else mret address) s
    (fun x s' => x = e' /\ s' = s) /\ asked 64 e' /\ forall init, solution cs init -> eval init e' = eval init address).
  { destruct simplifyExprs.
    - destruct e2 as (e' & G & B & V). exists e'. split; [|done]. exists e', s. split; [|done].
      destruct G as [n Hn]. exists n. intros m Hm. unfold lift. by rewrite Hn.
    - exists address. split; [by apply ev_ret|done]. }
  destruct Hx as (e' & He & B & V). eapply ev_bind; [exact He|]. intros ? ? [-> ->]. apply ev_runs.
  assert (Hfits : forall init v, solution cs init -> eval init e' = Some v -> 0 <= v < 2 ^ 64).
  { intros init v Hi Hv. pose proof (eval_fits init (sol_init _ _ Hi) e' v (as_ok _ _ B) Hv) as Hfit. rewrite (as_width _ _ B) in Hfit. lia. }
  unfold getValue. assert (Hq : runs (r ← computeValue solver (MkQuery cs e');
      match r with None => mret None | Some e => assert_ (isConstant e);; mret (Some e) end) s
      (fun r s' => inv s' /\ exists v, r = Some (Constant 64 v) /\ 0 <= v < 2 ^ 64 /\ feasible cs address v)).
  { eapply runs_step; [apply (gives_value (MkQuery cs e') 64 Hp B (ex_intro _ init0 Hs0) s Hs)|].
    intros r s' (Hs1 & v & init & -> & Hi & Hv). apply runs_ret. split; [done|]. exists v. simpl in Hi, Hv.
    split_and!; [done|by eapply Hfits..|]. exists init. split; [done|]. by rewrite <- V. }
  destruct e' as [w v| | | | | | | | |] eqn:Ee; try exact Hq. simpl. unfold runs, mret, M_ret. split; [done|]. exists v.
  destruct B as [_ Hw _]. simpl in Hw. subst w. pose proof (Hfits init0 v Hs0 eq_refl). split_and!; [done|lia|lia|].
  exists init0. split; [done|]. by rewrite <- V.
Qed.

Lemma concretize_ok WorstCaseSymIndices TerminateOnUNSAT simplifyExprs isWrite rand m s :
  c = cache m -> contentionSets g <> [] -> sets_ok ->
  (forall idx st, contentionSets g !! Z.to_nat idx = Some st -> 0 <= idx -> within idx) -> inv s ->
  eventually (fun n => concretize g false RewriteEqualities WorstCaseSymIndices GiveUpOnComplexSymIndices TerminateOnUNSAT
      simplifyExprs solver n address isWrite rand) (State m cs false s) (replaced TerminateOnUNSAT m).
Proof.
  intros Ec Hne Hok Hwi Hs. unfold concretize. apply ev_get. cbn [constraints cache_model]. rewrite <- Ec.
  apply (ev_bind _ _ _ (fun r p => exists s', p = State m cs false s' /\ inv s' /\ backup_ok r.2 /\
    match r.1 with Found e => overflows_some e | GaveUp => False | Exhausted => True end)).
  { apply ev_zoom. cbn [solver_state]. eapply ev_mono; [by apply (worst_case_ok WorstCaseSymIndices isWrite rand s)|].
    intros r s' H. by exists s'. }
  assert (Hpin : forall v s', 0 <= v < 2 ^ 64 -> feasible cs address v -> inv s' ->
    eventually (fun n => v ← pin false RewriteEqualities n (Constant 64 v) address; mret (Some v)) (State m cs false s') (replaced TerminateOnUNSAT m)).
  { intros v s' Hv Hf Hs'. eapply ev_bind; [by apply (pin_run m false s' v)|]. intros e p (-> & H1 & H2 & H3 & H4).
    apply ev_ret. split_and!; try done. by exists v. }
  intros [o [bh ba]] ? (p & -> & Hs' & Hb & Ho). cbn [fst snd] in *.
  assert (Hfall : eventually (fun n => fallback false RewriteEqualities TerminateOnUNSAT simplifyExprs solver n address ba)
      (State m cs false p) (replaced TerminateOnUNSAT m)).
  { unfold fallback. destruct TerminateOnUNSAT.
    { eapply ev_bind; [apply ev_runs, (runs_modify _ _ (fun _ p' => p' = State m cs true p)); reflexivity|].
      intros [] ? ->. by apply ev_ret. }
    apply ev_get. cbn [constraints].
    apply (ev_bind _ _ _ (fun r p' => exists s'' v, p' = State m cs false s'' /\ inv s'' /\ r = Some (Constant 64 v) /\ 0 <= v < 2 ^ 64 /\ feasible cs address v)).
    - destruct ba as [e|].
      + destruct (Hb e eq_refl) as (v & -> & Hv & Hf). apply ev_ret. by exists p, v.
      + apply ev_zoom. cbn [solver_state]. eapply ev_mono; [by apply timing_ok|]. intros r s'' (H1 & v & H2 & H3 & H4).
        by exists s'', v.
    - intros r p' (s'' & v & -> & Hs'' & -> & Hv & Hf). by apply Hpin. }
  destruct o as [e| |]; [|done|exact Hfall].
  destruct Ho as (idx & st & Es & [(v & a & -> & Hv & Hf & _) _]). by apply Hpin.
Qed.
End Search.

(** ** The sets of a file *)
Lemma sto_range lo hi l n : sto lo hi l = Ret n -> lo <= n <= hi.
Proof.
  unfold sto. destruct (match skip_space l with 45 :: _ => _ | 43 :: _ => _ | _ => _ end) as [sign l'].
  destruct (digits l' None) as [k|]; [|done]. destruct (_ && _) eqn:E; [|done]. intros [= <-]. lia.
Qed.
Definition addresses_ok (l : list Z) : Prop := increasing l /\ forall a, a ∈ l -> - 2 ^ 63 <= a < 2 ^ 63.
Lemma read_sets_ok lines : forall set sets,
  match set with Some (l, _) => addresses_ok l | None => True end ->
  read_sets set lines = Ret sets -> Forall (fun s => addresses_ok s.1) sets.
Proof.
  induction lines as [|line lines IH]; intros set sets Hset E.
  { destruct set as [[l w]|]; injection E as <-; [by constructor|constructor]. }
  destruct set as [[l w]|], line as [|b line]; cbn [read_sets] in E.
  - destruct (read_sets None lines) as [rest|] eqn:Er; [|done]. injection E as <-. constructor; [done|by apply (IH None)].
  - destruct (stol (b :: line)) as [a|] eqn:Ea; [|done]. apply sto_range in Ea. eapply IH; [|exact E].
    destruct Hset as [H1 H2]. split; [by apply std_set_sorted|]. intros x [->|Hx]%set_insert_elem; [lia|by apply H2].
  - by apply (IH None).
  - destruct (stoi (b :: line)) as [a|]; [|done]. eapply IH; [|exact E]. split; [constructor|]. intros x Hx. by apply not_elem_of_nil in Hx.
Qed.
Lemma loaded_addresses lines g idx s : loaded lines g -> contentionSets g !! idx = Some s -> addresses_ok s.1.
Proof.
  intros [E _] Hs. unfold ContentionSetCacheModel in E. destruct (read_sets None lines) as [sets|] eqn:Er; [|done].
  injection E as <-. apply read_sets_ok in Er; [|done]. rewrite list.Forall_lookup in Er. by apply (Er idx).
Qed.

Lemma page_bits v : page_of (block_of v) = line_bits v.
Proof. unfold page_of, block_of, line_bits. rewrite <- Z.land_assoc. f_equal. Qed.
(** The sets of an address on line [a]. *)
Lemma line_sets lines g idx s a v :
  loaded lines g -> contentionSets g !! idx = Some s -> a ∈ s.1 -> line_bits v = u64 a ->
  page_of (block_of v) = a /\ sets_of g (block_of v) = default [] (contentionSetIdxs g !! a).
Proof.
  intros Hl Es Hin Hv. destruct (loaded_addresses _ _ _ _ Hl Es) as [_ Hr]. specialize (Hr a Hin).
  assert (Hb : 0 <= line_bits v < 2 ^ 30).
  { unfold line_bits. change LINE_MASK with (Z.land (Z.lnot 63) (Z.ones 30)). rewrite Z.land_assoc, land_ones_mod by lia.
    by apply Z.mod_pos_bound. }
  assert (Ea : page_of (block_of v) = a).
  { rewrite page_bits. destruct (Z.ltb_spec a 0); [|rewrite Hv; apply u64_small; lia].
    rewrite Hv in Hb. unfold u64 in Hb. rewrite <- (Z.mod_add a 1 (2 ^ 64)), Z.mod_small in Hb by lia. lia. }
  split; [done|]. unfold sets_of. rewrite Ea. destruct (contentionSetIdxs g !! a) as [l|] eqn:E; [done|].
  assert (Hx : Z.of_nat idx ∈ idxs_at (index_sets 0 (contentionSets g) ∅) a).
  { apply index_sets_elem. right. exists idx, s. split_and!; [done|done|lia]. }
  rewrite <- (loaded_index _ _ Hl) in Hx. unfold idxs_at in Hx. rewrite E in Hx. by apply not_elem_of_nil in Hx.
Qed.
Lemma cached_present lines g idx s a v m :
  loaded lines g -> contentionSets g !! idx = Some s -> a ∈ s.1 -> line_bits v = u64 a ->
  cached g (cache m) a (block_of v) = false -> ~ present g m (block_of v).
Proof.
  intros Hl Es Hin Hv Hc (i & Hi & Hh). destruct (line_sets _ _ _ _ _ _ Hl Es Hin Hv) as [_ E]. rewrite E in Hi.
  enough (cached g (cache m) a (block_of v) = true) by congruence. unfold cached. apply existsb_exists. exists i.
  split; [by apply list_elem_of_In|done].
Qed.

(** ** The statements *)
Section Claims.
Context (g : globals) (lines : list (list Z)) (Hl : loaded lines g).
Context (GiveUpOnComplexSymIndices : bool).
Context {St : Type} (solver : SolverImpl St) (inv : St -> Prop) {values : GivesValues solver inv}.
Context (cs : list expr) (init0 : array -> Z -> option Z) (Hp : path_ok cs) (Hs0 : solution cs init0).

Lemma within_all m idx st : model_ok g m -> contentionSets g !! Z.to_nat idx = Some st -> 0 <= idx -> within g (cache m) idx.
Proof.
  intros Hm Es Hi. exists st. split; [done|]. pose proof (Lru.lo_ways _ _ _ (lg_ok _ _ _ _ (mo_cache _ _ Hm idx))) as Hw.
  unfold ways_of, associativity_of in Hw. rewrite (proj2 (Z.leb_le 0 idx)), Es in Hw by lia. by destruct st.
Qed.
Lemma sets_ok_loaded address : (forall s a, s ∈ contentionSets g -> a ∈ s.1 -> decided cs address a) -> sets_ok g cs address.
Proof.
  intros Hd. apply list.Forall_lookup. intros i s Es. split; [|split].
  - destruct Hl as [_ Hw]. rewrite list.Forall_lookup in Hw. apply (Hw i s Es).
  - apply increasing_nodup. by eapply loaded_addresses.
  - apply list.Forall_forall. intros a Ha. apply (Hd s); [|done]. by apply (list_elem_of_lookup_2 _ i).
Qed.

(** C10. A load or store through a symbolic pointer, on a satisfiable path without divisions,
    when every line of a contention set is possible for the pointer or syntactically
    excluded: with enough fuel it returns a constant address; the new constraints have
    exactly the solutions of the old ones in which the pointer is that address, and have
    one; and the cache is charged with that address. Where the option asks for it, the state
    can be terminated instead, with nothing else changed. *)
Theorem symbolic_access_sound (WorstCaseSymIndices TerminateOnUNSAT simplifyExprs isWrite : bool) rand m st address :
  contentionSets g <> [] -> model_ok g m -> loopStats m <> [] -> currentTime m + 1 < 2 ^ 64 -> asked 64 address ->
  (forall s a, s ∈ contentionSets g -> a ∈ s.1 ->
     (exists init, solution cs init /\ on_line address a init) \/
     (forall address', gives (fun n => simplifyExpr false n cs address) address' ->
        gives (fun n => in_line false n cs address' a) (Constant Bool 0))) ->
  inv st ->
  eventually (fun n => memoryOperation g false RewriteEqualities WorstCaseSymIndices GiveUpOnComplexSymIndices TerminateOnUNSAT
      simplifyExprs solver n address isWrite rand) (State m cs false st)
    (fun e p => inv (solver_state p) /\
      ((TerminateOnUNSAT = true /\ terminated p = true /\ cache_model p = m /\ constraints p = cs) \/
       (terminated p = false /\ exists v, e = Constant 64 v /\ pinned cs address v (constraints p) /\
          updateCache g v isWrite m = Ret (tt, cache_model p) /\ model_ok g (cache_model p)))).
Proof.
  intros Hne Hm Hst Ht Ha Hd Hs. destruct (simplified cs 64 address init0 Hp Hs0 Ha) as (address' & G & B & V).
  assert (Hpin : forall v cs', pinned cs address' v cs' -> pinned cs address v cs').
  { intros v cs' (H1 & H2 & H3). split_and!; [done|done|]. intros init. rewrite H3. split; intros [K1 K2]; (split; [done|]).
    - by rewrite <- V.
    - by rewrite V. }
  assert (Hd' : forall s a, s ∈ contentionSets g -> a ∈ s.1 -> decided cs address' a).
  { intros s a H1 H2. destruct (Hd s a H1 H2) as [(init & Hi & v & Hv & Hb)|H]; [left|right; by apply H].
    exists init. split; [done|]. exists v. by rewrite V. }
  unfold memoryOperation. apply ev_get. cbn [constraints]. eapply ev_lift; [exact G|].
  apply (ev_bind _ _ _ (fun r p => replaced inv cs address' TerminateOnUNSAT m r p)).
  { destruct (isConstant address') eqn:Hc; [|eapply (concretize_ok g (cache m)); try done; [by apply sets_ok_loaded|intros; by eapply within_all]].
    apply ev_ret. destruct address' as [w v| | | | | | | | |]; try done. destruct B as [_ Hw _]. simpl in Hw. subst w.
    split_and!; [done|done|done|]. exists v. split; [done|]. split_and!; [done|by exists init0|]. intros init. simpl. tauto. }
  intros [e|] p (H1 & H2 & H3).
  - destruct H3 as (H3 & v & -> & H4). unfold Evaluator.getZExtValue. change (64 <? 64) with false. eapply ev_lift_const; [reflexivity|].
    destruct p as [m' cs' t' st']. simpl in *. subst m' t'.
    pose proof (contention_update_ok g (loaded_sound _ _ Hl) m v isWrite Hm Hst Ht) as ([] & m' & E & K & _)%runs_out.
    apply (ev_bind (fun _ => on_model (updateCache g v isWrite)) _ _ (fun _ p => p = State m' cs' false st')).
    + exists tt, (State m' cs' false st'). split; [|done]. exists O. intros n _. by apply lift_model.
    + intros _ ? ->. apply ev_ret. cbn [cache_model constraints solver_state terminated]. split; [done|]. right. split; [done|].
      exists v. split_and!; [done|by apply Hpin|done|done].
  - apply ev_ret. split; [done|]. left. destruct H3 as (H3 & H4 & H5). done.
Qed.

(** C13. An address that the search for the worst case finds is possible on the path, and its
    access is a miss: one or two accesses to memory are counted, and no hit. It was picked
    for a set that overflows: the blocks in the set, and lines of the set that the pointer
    can be on with an uncached block, are together more than the ways. *)
Theorem worst_case_misses (WorstCaseSymIndices isWrite : bool) rand m st address s0 stats :
  contentionSets g <> [] -> model_ok g m -> loopStats m = s0 :: stats -> 0 <= missCount s0 -> missCount s0 + 2 < 2 ^ 64 ->
  currentTime m + 1 < 2 ^ 64 -> asked 64 address -> isConstant address = false ->
  (forall s a, s ∈ contentionSets g -> a ∈ s.1 -> decided cs address a) -> inv st ->
  eventually (fun n => worst_case g false RewriteEqualities WorstCaseSymIndices GiveUpOnComplexSymIndices solver n cs address
      (cache m) isWrite rand) st
    (fun r _ => forall e, r.1 = Found e -> exists v m' s', e = Constant 64 v /\ feasible cs address v /\
      updateCache g v isWrite m = Ret (tt, m') /\ loopStats m' = s' :: stats /\ misses 1 s0 s' /\
      exists idx s L, contentionSets g !! Z.to_nat idx = Some s /\ page_of (block_of v) ∈ s.1 /\ NoDup L /\ L ⊆ s.1 /\
        Forall (fresh g (cache m) cs address) L /\ s.2 < Z.of_nat (length (line_of (cache m) idx)) + Z.of_nat (length L)).
Proof.
  intros Hne Hm Hst H0 Hb Ht Ha Hsym Hd Hs.
  eapply ev_mono; [eapply (worst_case_ok g (cache m)); try done; [by apply sets_ok_loaded|intros; by eapply within_all]|].
  intros r s' (_ & _ & Ho) e E. rewrite E in Ho.
  destruct Ho as (idx & s & Es & [(v & a & -> & Hv & Hf & Hin & Hlb & Hc) (L & H1 & H2 & H3 & H4)]).
  pose proof (cached_present _ _ _ _ _ _ _ Hl Es Hin Hlb Hc) as Hpr. pose proof (loaded_sound _ _ Hl) as Hg.
  exists v, (Model (enabled m) (touch_all g (currentTime m + 1) (block_of v) isWrite (sets_of g (block_of v)) (cache m))
    (currentTime m + 1) (charge g m (block_of v) s0 :: stats)), (charge g m (block_of v) s0).
  split_and!; [done|done|by apply updateCache_run|done| |].
  - unfold charge, misses. rewrite <- present_existsb in Hpr.
    apply not_true_is_false in Hpr. rewrite Hpr.
    destruct (existsb (evicts _ _ _) _); cbn; rewrite ?(u64_small (missCount s0 + 1)), ?u64_small; lia.
  - exists idx, s, L. destruct (line_sets _ _ _ _ _ _ Hl Es Hin Hlb) as [-> _]. by split_and!.
Qed.
End Claims.
End Path.
End Solutions.

(** ** A pointer into a table

    The page at address 0 is indexed by an input byte, and a solver that tries the 256
    values of the byte. *)
Section Table.
Definition pointer : expr := ZExt (byte 0) 64.
Lemma pointer_asked : asked 64 pointer.
Proof. split; reflexivity. Qed.
Lemma pointer_value v : eval (fill v) pointer = Some (v `mod` 2 ^ 8).
Proof. reflexivity. Qed.
Lemma line_value n : (n < 256)%nat -> Z.land (Z.of_nat n) LINE_MASK = Z.of_nat n -> on_line pointer (Z.of_nat n) (fill (Z.of_nat n)).
Proof.
  intros Hn Hm. exists (Z.of_nat n). rewrite pointer_value, Z.mod_small by lia. split; [done|]. unfold line_bits. by rewrite Hm, u64_small by lia.
Qed.
Lemma pointer_lines s a : s ∈ contentionSets file_globals -> a ∈ s.1 -> exists init, solution [] init /\ on_line pointer a init.
Proof.
  intros ->%list_elem_of_singleton Ha. change (a ∈ [Z.of_nat 0; Z.of_nat 64; Z.of_nat 128]) in Ha.
  assert (Hx : forall n, (n < 256)%nat -> Z.land (Z.of_nat n) LINE_MASK = Z.of_nat n -> exists init, solution [] init /\ on_line pointer (Z.of_nat n) init).
  { intros n Hn Hm. exists (fill (Z.of_nat n)). split; [by apply fill_solution|by apply line_value]. }
  apply elem_of_cons in Ha as [->|Ha]; [apply Hx; [lia|reflexivity]|].
  apply elem_of_cons in Ha as [->|Ha]; [apply Hx; [lia|reflexivity]|].
  apply list_elem_of_singleton in Ha as ->. apply Hx; [lia|reflexivity].
Qed.
Definition store_pointer (n : nat) : M (state unit) expr :=
  memoryOperation file_globals false true true false false true try_all n pointer true no_rand.

(** The search in an empty cache: the third line overflows the set. *)
Example pointer_run :
  exists p, store_pointer 100 (State first_loop [] false tt) = Ret (Constant 64 128, p) /\
    constraints p = [Binary Eq (Constant 8 128) (byte 0)] /\ loopStats (cache_model p) = [Stats 0 0 0 0 1].
Proof. eexists. split; [vm_compute; reflexivity|]. split; vm_compute; reflexivity. Qed.

(** Two sets with equal costs and equal random numbers: only the later one is tried. *)
Example equal_draws_drop_a_set :
  setCosts (Globals [([0], 2); ([64], 2)] ∅) ∅ false no_rand 0 [([0], 2); ([64], 2)] [] = Ret [((-62, 2, 0), 1)].
Proof. reflexivity. Qed.

Lemma symbolic_access_sound_witness :
  eventually store_pointer (State first_loop [] false tt)
    (fun e p => True /\
      ((false = true /\ terminated p = true /\ cache_model p = first_loop /\ constraints p = []) \/
       (terminated p = false /\ exists v, e = Constant 64 v /\ pinned [] pointer v (constraints p) /\
          updateCache file_globals v true first_loop = Ret (tt, cache_model p) /\ model_ok file_globals (cache_model p)))).
Proof.
  pose proof (symbolic_access_sound true file_globals file file_loaded false try_all (fun _ => True) [] (fill 0)
    (proj1 no_constraints) (proj2 no_constraints) true false true true no_rand first_loop tt pointer) as H.
  apply H; clear H; [discriminate|exact first_loop_ok|discriminate|reflexivity|exact pointer_asked| |exact I].
  intros s a Hs Ha. left. exact (pointer_lines s a Hs Ha).
Defined.

Lemma worst_case_misses_witness :
  eventually (fun n => worst_case file_globals false true true false try_all n [] pointer ∅ true no_rand) tt
    (fun r _ => forall e, r.1 = Found e -> exists v m' s', e = Constant 64 v /\ feasible [] pointer v /\
      updateCache file_globals v true first_loop = Ret (tt, m') /\ loopStats m' = [s'] /\ misses 1 new_stats s' /\
      exists idx s L, contentionSets file_globals !! Z.to_nat idx = Some s /\ page_of (block_of v) ∈ s.1 /\ NoDup L /\ L ⊆ s.1 /\
        Forall (fresh file_globals ∅ [] pointer) L /\ s.2 < Z.of_nat (length (line_of (∅ : cache_t) idx)) + Z.of_nat (length L)).
Proof.
  apply (worst_case_misses true file_globals file file_loaded false try_all (fun _ => True) [] (fill 0)
    (proj1 no_constraints) (proj2 no_constraints) true true no_rand first_loop tt pointer new_stats []);
    [discriminate|exact first_loop_ok|reflexivity|discriminate|vm_compute; reflexivity|vm_compute; reflexivity|exact pointer_asked|reflexivity| |exact I].
  intros s a Hs Ha. left. exact (pointer_lines s a Hs Ha).
Defined.

End Table.
End ContentionChoice.
