(* ===== verification/Searcher.v ===== *)
(** * CASTAN's searcher

    lib/CASTAN/CastanSearcher.cpp: the constructor computes, by a worklist over the
    instructions of the program, how far each is from the next iteration of the analysed loop
    ([Searcher], with [SearcherOk] on what the map says); the states of the search are kept
    in order of priority ([Queue]). The module is given by its functions, blocks and
    instructions, which LLVM keeps; addresses stand for pointers. *)
From stdpp Require Import base gmap list numbers.
From Stdlib Require Import ZArith Lia SpecFloat.
From S2P Require Import Prelude MapOfSets Contention ContentionOk.

(** * The cost map *)
Module Searcher.
Import Contention.

(** ** The module *)
(** A call has a called function, or none when it is indirect. *)
Inductive opcode : Type := CallInst (called : option Z) | MemInst | OtherInst.
Record instruction : Type := Inst { address : Z; op : opcode }.
(** The instructions of a block, the terminator last, and the blocks it can go on to. *)
Record block : Type := Block { insts : list instruction; next_blocks : list nat }.
(** A function; a declaration has no blocks. *)
Record function : Type := Function { f_address : Z; blocks : list block }.

Definition front (b : block) : option Z := address <$> head (insts b).
Definition entry (f : function) : option Z := head (blocks f) ≫= front.

(** ** The ICFG *)
Record icfg : Type := Icfg {
  predecessors : gmap Z (list Z);
  successors : gmap Z (list Z);
  callers : gmap Z (list Z)
}.
Definition at_ (m : gmap Z (list Z)) (i : Z) : list Z := default [] (m !! i).
Definition insert_at (k x : Z) (m : gmap Z (list Z)) : gmap Z (list Z) := <[k := set_insert x (at_ m k)]> m.
Definition add_edge (g : icfg) (e : Z * Z) : icfg :=
  Icfg (insert_at e.2 e.1 (predecessors g)) (insert_at e.1 e.2 (successors g)) (callers g).
Definition add_call (g : icfg) (i : instruction) : icfg :=
  match op i with
  | CallInst (Some fn) => Icfg (predecessors g) (successors g) (insert_at fn (address i) (callers g))
  | _ => g
  end.
(** One instruction after the other, and the terminator before the first one of a successor. *)
Fixpoint chain (l : list instruction) : list (Z * Z) :=
  match l with
  | a :: (b :: _) as l => (address a, address b) :: chain l
  | _ => []
  end.
Definition successor_edge (f : function) (t : instruction) (n : nat) : list (Z * Z) :=
  match blocks f !! n ≫= front with Some s => [(address t, s)] | None => [] end.
Definition block_edges (f : function) (b : block) : list (Z * Z) :=
  chain (insts b) ++
  match list.last (insts b) with
  | Some t => concat (successor_edge f t <$> next_blocks b)
  | None => []
  end.
Definition add_block (f : function) (g : icfg) (b : block) : icfg :=
  foldl add_edge (foldl add_call g (insts b)) (block_edges f b).
Definition ICFG (fns : list function) : icfg :=
  foldl (fun g f => foldl (add_block f) g (blocks f)) (Icfg ∅ ∅ ∅) fns.

Section CostMap.
(** [castan_loop], which the module has to contain. *)
Context (fns : list function) (loopAnnotation : Z).
Definition graph : icfg := ICFG fns.

(** An instruction with the function it is in. *)
Definition instructions : list (function * instruction) :=
  f ← fns; b ← blocks f; i ← insts b; [(f, i)].
Definition find_inst (i : Z) : option (function * instruction) :=
  List.find (fun x => address x.2 =? i) instructions.
Definition find_function (fn : Z) : option function := List.find (fun f => f_address f =? fn) fns.
Definition is_entry (f : function) (i : Z) : bool := bool_decide (entry f = Some i).

(** ** The maps *)
(** [costs]: whether the instruction is on a direct path to the loop, and the cost. A path
    counts how often an instruction is on it. *)
Record maps : Type := Maps {
  costs : gmap Z (bool * double);
  successorCosts : gmap Z double;
  paths : gmap Z (gmap Z Z);
  worklist : list Z
}.
Definition path_at (p : gmap Z (gmap Z Z)) (i : Z) : gmap Z Z := default ∅ (p !! i).
Definition count_at (p : gmap Z Z) (i : Z) : Z := default 0 (p !! i).
Definition cost_of (c : gmap Z (bool * double)) (i : Z) : bool * double := default (false, of_Z 0) (c !! i).

(** [costs[i]], which adds an entry that is missing. *)
Definition cost_at (i : Z) : M maps (bool * double) := fun m =>
  Ret (cost_of (costs m) i, Maps (<[i := cost_of (costs m) i]> (costs m)) (successorCosts m) (paths m) (worklist m)).
Definition set_cost (i : Z) (c : bool * double) : M maps unit :=
  modify (fun m => Maps (<[i := c]> (costs m)) (successorCosts m) (paths m) (worklist m)).
Definition set_path (i : Z) (p : gmap Z Z) : M maps unit :=
  modify (fun m => Maps (costs m) (successorCosts m) (<[i := p]> (paths m)) (worklist m)).
(** [paths[s][i]], which adds an entry that is missing. *)
Definition count_path (s i : Z) : M maps Z := fun m =>
  let p := path_at (paths m) s in
  Ret (count_at p i, Maps (costs m) (successorCosts m) (<[s := <[i := count_at p i]> p]> (paths m)) (worklist m)).
Definition add_work (l : list Z) : M maps unit :=
  modify (fun m => Maps (costs m) (successorCosts m) (paths m) (foldl (fun w i => set_insert i w) (worklist m) l)).
Definition increment (p : gmap Z Z) (i : Z) : gmap Z Z := <[i := s32 (count_at p i + 1)]> p.
Definition add_counts (p q : gmap Z Z) : gmap Z Z := map_fold (fun i n p => <[i := s32 (count_at p i + n)]> p) p q.

(** ** Where costs start *)
(** The end of a function, or a mark of the loop. *)
Definition start_at (f : function) (i : Z) (c : bool * double) : M maps unit :=
  set_cost i c;;
  m ← get;
  set_path i (<[i := 1]> (path_at (paths m) i));;
  add_work (at_ (predecessors graph) i);;
  if is_entry f i then add_work (at_ (callers graph) (f_address f)) else mret tt.
Fixpoint start_ends (l : list (function * instruction)) : M maps unit :=
  match l with
  | [] => mret tt
  | (f, i) :: l =>
      (match at_ (successors graph) (address i) with [] => start_at f (address i) (false, of_Z 1) | _ => mret tt end);;
      start_ends l
  end.
Fixpoint start_loops (l : list Z) : M maps unit :=
  match l with
  | [] => mret tt
  | i :: l =>
      x ← of_option (find_inst i);
      start_at x.1 i (true, of_Z 1);;
      start_loops l
  end.
Definition initialize : M maps unit :=
  start_ends instructions;;
  start_loops (at_ (callers graph) loopAnnotation).

(** ** One instruction of the worklist *)
(** A double, converted to [long]. *)
Definition long_of (d : double) : Z :=
  match d with
  | S754_finite s m e =>
      let v := if 0 <=? e then Z.shiftl (Zpos m) e else Z.shiftr (Zpos m) (- e) in if s then - v else v
  | _ => 0
  end.
(** [CACHE_L1_LATENCY] and [NS_PER_MEMORY_INSTRUCTION] of GenericCacheModel.h *)
Definition CACHE_L1_LATENCY : double := dmul (of_Z 4) CYCLE.
Definition NS_PER_MEMORY_INSTRUCTION : double := dadd NS_PER_INSTRUCTION CACHE_L1_LATENCY.
Definition instruction_cost (o : opcode) : Z :=
  long_of match o with MemInst => NS_PER_MEMORY_INSTRUCTION | _ => NS_PER_INSTRUCTION end.

(** [operator!=] of pairs *)
Definition cost_ne (c d : bool * double) : bool := negb (Bool.eqb c.1 d.1 && SFeqb c.2 d.2).
(** A call of a function with a body, whose first instruction is [e]. *)
Definition visit_call (i e : Z) : M maps bool :=
  m ← get;
  assert_ (bool_decide (path_at (paths m) e !! i = None));;
  ce ← cost_at e;
  r ← (if ce.1 : bool then mret ((true, dadd ce.2 (of_Z 1)), increment (path_at (paths m) e) i)
       else
         match at_ (successors graph) i with
         | [s] =>
             cs ← cost_at s;
             if bool_decide (path_at (paths m) e = ∅) || bool_decide (path_at (paths m) s = ∅) then mret ((cs.1, of_Z 0), ∅)
             else
               modify (fun m => Maps (costs m) (<[i := cs.2]> (successorCosts m)) (paths m) (worklist m));;
               mret ((cs.1, dadd (dadd (of_Z 1) ce.2) cs.2),
                     add_counts (add_counts (increment ∅ i) (path_at (paths m) e)) (path_at (paths m) s))
         | _ => halt AssertFailed
         end);
  c ← cost_at i;
  if cost_ne r.1 c then set_path i r.2;; set_cost i r.1;; mret true else mret false.

(** Any other instruction: its successors in turn. *)
Fixpoint visit_successors (i cost : Z) (succs : list Z) (changed : bool) : M maps bool :=
  match succs with
  | [] => mret changed
  | s :: succs =>
      n ← count_path s i;
      if n <=? 1 then
        c ← cost_at i;
        cs ← cost_at s;
        let sum := dadd cs.2 (of_Z cost) in
        if (if c.1 : bool then cs.1 && SFltb c.2 sum else cs.1 || SFltb c.2 sum) then
          set_cost i (if c.1 then true else cs.1, sum);;
          m ← get;
          set_path i (increment (path_at (paths m) s) i);;
          visit_successors i cost succs true
        else visit_successors i cost succs changed
      else visit_successors i cost succs changed
  end.

(** The first instruction of the callee, for a call that is not one of [castan_loop] and whose
    callee has a body. *)
Definition callee_entry (o : opcode) : option Z :=
  match o with CallInst (Some fn) => find_function fn ≫= entry | _ => None end.
Definition is_loop_call (o : opcode) : bool :=
  match o with CallInst (Some fn) => fn =? loopAnnotation | _ => false end.
Definition visit (i : Z) (o : opcode) : M maps bool :=
  if is_loop_call o then mret false
  else match callee_entry o with
  | Some e => visit_call i e
  | None => visit_successors i (instruction_cost o) (at_ (successors graph) i) false
  end.

(** The body of the loop, on the first instruction of the worklist. *)
Definition work (i : Z) : M maps unit :=
  x ← of_option (find_inst i);
  changed ← visit i (op x.2);
  if changed : bool then
    add_work (if is_entry x.1 i then at_ (callers graph) (f_address x.1) else at_ (predecessors graph) i)
  else mret tt.
Definition pop : M maps (option Z) := fun m =>
  match worklist m with
  | [] => Ret (None, m)
  | i :: w => Ret (Some i, Maps (costs m) (successorCosts m) (paths m) w)
  end.
Fixpoint compute (fuel : nat) : M maps unit :=
  match fuel with
  | O => halt OutOfFuel
  | S fuel =>
      i ← pop;
      match i with
      | None => mret tt
      | Some i => work i;; compute fuel
      end
  end.
Definition CastanSearcher (fuel : nat) : M maps unit :=
  assert_ (bool_decide (find_function loopAnnotation <> None));;
  initialize;;
  compute fuel.
Definition no_maps : maps := Maps ∅ ∅ ∅ [].
End CostMap.
End Searcher.

(** * The order of doubles *)
Module Doubles.
Import Orders Contention.
Definition dkey (d : double) : Z * Z * Z :=
  match d with
  | S754_zero _ => (0, 0, 0)
  | S754_infinity s => (if s then -2 else 2, 0, 0)
  | S754_nan => (3, 0, 0)
  | S754_finite s m e => if s then (-1, - e, - Zpos m) else (1, e, Zpos m)
  end.
Definition not_nan (d : double) : Prop := d <> S754_nan.
Lemma zcmp_compare a b : zcmp a b = match a ?= b with Lt => -1 | Eq => 0 | Gt => 1 end.
Proof.
  destruct (zcmp_cases a b) as [[-> ->]|[[H ->]|[H ->]]]; [by rewrite Z.compare_refl|by rewrite (proj2 (Z.compare_lt_iff a b))|].
  by rewrite (proj2 (Z.compare_gt_iff a b)).
Qed.
Lemma ltb_key a b : not_nan a -> not_nan b -> SFltb a b = (cmp (dkey a) (dkey b) <? 0).
Proof.
  intros Ha Hb.
  destruct a as [s|s| |s m e], b as [s'|s'| |s' m' e']; try done; try (by destruct s); try (by destruct s'); try (by destruct s, s').
  unfold SFltb, SFcompare, dkey. destruct s, s'; try done; rewrite !cmp_pair; cbn [fst snd]; unfold cmp, z_compare; rewrite !zcmp_compare.
  - rewrite Z.compare_opp, (Z.compare_antisym e e'). change (- Zpos m ?= - Zpos m') with (CompOpp (Pos.compare m m')).
    change (Pos.compare_cont Eq m m') with (Pos.compare m m'). by destruct (e ?= e'), (Pos.compare m m').
  - change (Zpos m ?= Zpos m') with (Pos.compare m m'). change (Pos.compare_cont Eq m m') with (Pos.compare m m').
    by destruct (e ?= e'), (Pos.compare m m').
Qed.
Lemma ltb_irrefl d : SFltb d d = false.
Proof. destruct d as [[]|[]| |s m e]; try done. rewrite ltb_key by done. by rewrite (proj2 (cmp_0 _ _) eq_refl). Qed.
Lemma nan_or d : d = S754_nan \/ not_nan d.
Proof. by destruct d; [right|right|left|right]. Qed.
Lemma ltb_nan_l d : SFltb S754_nan d = false.
Proof. done. Qed.
Lemma ltb_nan_r d : SFltb d S754_nan = false.
Proof. by destruct d as [[]|[]| |[]]. Qed.
Lemma ltb_trans a b c : SFltb a b = true -> SFltb b c = true -> SFltb a c = true.
Proof.
  destruct (nan_or a) as [->|Ha]; [done|]. destruct (nan_or b) as [->|Hb]; [by rewrite ltb_nan_r|].
  destruct (nan_or c) as [->|Hc]; [by rewrite !ltb_nan_r|]. rewrite !ltb_key by done. rewrite !Z.ltb_lt. apply cmp_trans.
Qed.
(** Adding nothing keeps the place of a double in the order. *)
Lemma ltb_add_0 a b : SFltb a (dadd b (of_Z 0)) = SFltb a b.
Proof. by destruct b as [[]|[]| |s m e], a as [[]|[]| |s' m' e']. Qed.
Lemma add_0_ltb a b : SFltb (dadd b (of_Z 0)) a = SFltb b a.
Proof. by destruct b as [[]|[]| |s m e], a as [[]|[]| |s' m' e']. Qed.
End Doubles.

(** * What the cost map says *)
Module SearcherOk.
Import Contention Searcher Doubles.

Section Graph.
Context (fns : list function) (loopAnnotation : Z).

(** ** The edges of the module *)
Definition edge (i s : Z) : Prop := exists f b, f ∈ fns /\ b ∈ blocks f /\ (i, s) ∈ block_edges f b.
Definition calls (i fn : Z) : Prop :=
  exists f x, (f, x) ∈ instructions fns /\ address x = i /\ op x = CallInst (Some fn).

Lemma at_insert_at k x m j y : y ∈ at_ (insert_at k x m) j <-> y ∈ at_ m j \/ (j = k /\ y = x).
Proof.
  unfold insert_at. unfold at_ at 1. rewrite lookup_insert. case_decide as E; simpl.
  - subst j. rewrite ContentionRun.set_insert_elem. intuition.
  - fold (at_ m j). intuition congruence.
Qed.
Lemma fold_edges l : forall g,
  (forall i s, s ∈ at_ (successors (foldl add_edge g l)) i <-> s ∈ at_ (successors g) i \/ (i, s) ∈ l) /\
  (forall i p, p ∈ at_ (predecessors (foldl add_edge g l)) i <-> p ∈ at_ (predecessors g) i \/ (p, i) ∈ l) /\
  callers (foldl add_edge g l) = callers g.
Proof.
  induction l as [|[a b] l IH]; intros g; cbn [foldl].
  { split_and!; [| |done]; intros; rewrite elem_of_nil; tauto. }
  destruct (IH (add_edge g (a, b))) as (H1 & H2 & H3). split_and!; [| |done].
  - intros i s. rewrite H1. cbn [add_edge successors fst snd]. rewrite at_insert_at, elem_of_cons. intuition congruence.
  - intros i p. rewrite H2. cbn [add_edge predecessors fst snd]. rewrite at_insert_at, elem_of_cons. intuition congruence.
Qed.
Lemma fold_calls l : forall g,
  (forall i fn, i ∈ at_ (callers (foldl add_call g l)) fn <->
     i ∈ at_ (callers g) fn \/ exists x, x ∈ l /\ address x = i /\ op x = CallInst (Some fn)) /\
  successors (foldl add_call g l) = successors g /\ predecessors (foldl add_call g l) = predecessors g.
Proof.
  induction l as [|x l IH]; intros g; cbn [foldl].
  { split_and!; [|done|done]. intros i fn. split; [tauto|]. intros [|(x & Hx & _)]; [done|by apply not_elem_of_nil in Hx]. }
  destruct (IH (add_call g x)) as (H1 & H2 & H3). unfold add_call in *. split_and!; [|by destruct (op x) as [[|]| |]..].
  intros i fn. rewrite H1. assert (Hc : i ∈ at_ (callers (match op x with
      | CallInst (Some fn0) => Icfg (predecessors g) (successors g) (insert_at fn0 (address x) (callers g)) | _ => g end)) fn <->
    i ∈ at_ (callers g) fn \/ (address x = i /\ op x = CallInst (Some fn))).
  { destruct (op x) as [[fn'|]| |]; cbn [callers]; rewrite ?at_insert_at; intuition congruence. }
  rewrite Hc. setoid_rewrite elem_of_cons. split.
  - intros [[H|[H H']]|(y & Hy & H)]; [by left|right; exists x; tauto|right; exists y; tauto].
  - intros [H|(y & [->|Hy] & H)]; [tauto|tauto|]. right. by exists y.
Qed.

Lemma block_graph f g b :
  (forall i s, s ∈ at_ (successors (add_block f g b)) i <-> s ∈ at_ (successors g) i \/ (i, s) ∈ block_edges f b) /\
  (forall i p, p ∈ at_ (predecessors (add_block f g b)) i <-> p ∈ at_ (predecessors g) i \/ (p, i) ∈ block_edges f b) /\
  (forall i fn, i ∈ at_ (callers (add_block f g b)) fn <->
     i ∈ at_ (callers g) fn \/ exists x, x ∈ insts b /\ address x = i /\ op x = CallInst (Some fn)).
Proof.
  unfold add_block. destruct (fold_edges (block_edges f b) (foldl add_call g (insts b))) as (H1 & H2 & H3).
  destruct (fold_calls (insts b) g) as (H4 & H5 & H6).
  split_and!; intros; rewrite ?H1, ?H2, ?H3, ?H5, ?H6; [done|done|apply H4].
Qed.
Lemma exists_nil {A} (P : A -> Prop) : (exists x, x ∈ [] /\ P x) <-> False.
Proof. split; [|done]. intros (x & H & _). by apply not_elem_of_nil in H. Qed.
Lemma exists_cons {A} (P : A -> Prop) a l : (exists x, x ∈ a :: l /\ P x) <-> P a \/ exists x, x ∈ l /\ P x.
Proof.
  split.
  - intros (x & [->|Hx]%elem_of_cons & H); [by left|right; by exists x].
  - intros [H|(x & Hx & H)]; [exists a; split; [left|done]|exists x; split; [by right|done]].
Qed.
Lemma blocks_graph f bs : forall g,
  (forall i s, s ∈ at_ (successors (foldl (add_block f) g bs)) i <->
     s ∈ at_ (successors g) i \/ exists b, b ∈ bs /\ (i, s) ∈ block_edges f b) /\
  (forall i p, p ∈ at_ (predecessors (foldl (add_block f) g bs)) i <->
     p ∈ at_ (predecessors g) i \/ exists b, b ∈ bs /\ (p, i) ∈ block_edges f b) /\
  (forall i fn, i ∈ at_ (callers (foldl (add_block f) g bs)) fn <->
     i ∈ at_ (callers g) fn \/ exists b, b ∈ bs /\ exists x, x ∈ insts b /\ address x = i /\ op x = CallInst (Some fn)).
Proof.
  induction bs as [|b bs IH]; intros g; cbn [foldl].
  { split_and!; intros; rewrite exists_nil; tauto. }
  destruct (IH (add_block f g b)) as (H1 & H2 & H3), (block_graph f g b) as (G1 & G2 & G3).
  split_and!; intros; rewrite ?H1, ?H2, ?H3, ?G1, ?G2, ?G3, exists_cons; tauto.
Qed.
Lemma functions_graph l : forall g,
  (forall i s, s ∈ at_ (successors (foldl (fun g f => foldl (add_block f) g (blocks f)) g l)) i <->
     s ∈ at_ (successors g) i \/ exists f, f ∈ l /\ exists b, b ∈ blocks f /\ (i, s) ∈ block_edges f b) /\
  (forall i p, p ∈ at_ (predecessors (foldl (fun g f => foldl (add_block f) g (blocks f)) g l)) i <->
     p ∈ at_ (predecessors g) i \/ exists f, f ∈ l /\ exists b, b ∈ blocks f /\ (p, i) ∈ block_edges f b) /\
  (forall i fn, i ∈ at_ (callers (foldl (fun g f => foldl (add_block f) g (blocks f)) g l)) fn <->
     i ∈ at_ (callers g) fn \/ exists f, f ∈ l /\ exists b, b ∈ blocks f /\ exists x, x ∈ insts b /\ address x = i /\ op x = CallInst (Some fn)).
Proof.
  induction l as [|f l IH]; intros g; cbn [foldl].
  { split_and!; intros; rewrite exists_nil; tauto. }
  destruct (IH (foldl (add_block f) g (blocks f))) as (H1 & H2 & H3), (blocks_graph f (blocks f) g) as (G1 & G2 & G3).
  split_and!; intros; rewrite ?H1, ?H2, ?H3, ?G1, ?G2, ?G3, exists_cons; tauto.
Qed.
Lemma instructions_elem f x : (f, x) ∈ instructions fns <-> exists b, f ∈ fns /\ b ∈ blocks f /\ x ∈ insts b.
Proof.
  unfold instructions. rewrite list_elem_of_bind. split.
  - intros (f' & H & Hf). apply list_elem_of_bind in H as (b & H & Hb). apply list_elem_of_bind in H as (x' & H & Hx).
    apply list_elem_of_singleton in H as [= -> ->]. by exists b.
  - intros (b & Hf & Hb & Hx). exists f. split; [|done]. apply list_elem_of_bind. exists b. split; [|done].
    apply list_elem_of_bind. exists x. split; [by apply list_elem_of_singleton|done].
Qed.

(** The graph has exactly the edges and the calls of the module. *)
Lemma graph_successors i s : s ∈ at_ (successors (graph fns)) i <-> edge i s.
Proof.
  destruct (functions_graph fns (Icfg ∅ ∅ ∅)) as (H & _ & _). unfold graph, ICFG. rewrite H. unfold at_, edge. simpl.
  rewrite lookup_empty. simpl. rewrite elem_of_nil. naive_solver.
Qed.
Lemma graph_predecessors i p : p ∈ at_ (predecessors (graph fns)) i <-> edge p i.
Proof.
  destruct (functions_graph fns (Icfg ∅ ∅ ∅)) as (_ & H & _). unfold graph, ICFG. rewrite H. unfold at_, edge. simpl.
  rewrite lookup_empty. simpl. rewrite elem_of_nil. naive_solver.
Qed.
Lemma graph_callers i fn : i ∈ at_ (callers (graph fns)) fn <-> calls i fn.
Proof.
  destruct (functions_graph fns (Icfg ∅ ∅ ∅)) as (_ & _ & H). unfold graph, ICFG. rewrite H. unfold at_, calls. simpl.
  rewrite lookup_empty. simpl. rewrite elem_of_nil. setoid_rewrite instructions_elem. naive_solver.
Qed.

(** ** The state of the worklist *)
Definition C (m : maps) (i : Z) : bool * double := cost_of (costs m) i.
Definition N (m : maps) (s i : Z) : Z := count_at (path_at (paths m) s) i.

(** Instruction [i] may have new entries; those of the others say the same. *)
Record touches (i : Z) (m m' : maps) : Prop := {
  to_cost j : j <> i -> C m' j = C m j;
  to_path j k : j <> i -> N m' j k = N m j k;
  to_work : worklist m' = worklist m
}.
Record same (m m' : maps) : Prop := { sa_cost j : C m' j = C m j; sa_path j k : N m' j k = N m j k; sa_work : worklist m' = worklist m }.
Lemma same_refl m : same m m.
Proof. done. Qed.
Lemma same_trans m1 m2 m3 : same m1 m2 -> same m2 m3 -> same m1 m3.
Proof. intros [H1 H2 H3] [G1 G2 G3]. split; congruence. Qed.
Lemma touches_trans i m1 m2 m3 : touches i m1 m2 -> touches i m2 m3 -> touches i m1 m3.
Proof. intros [H1 H2 H3] [G1 G2 G3]. split; intros; rewrite ?G1, ?G2, ?G3 by done; auto. Qed.
Lemma same_touches i m m' : same m m' -> touches i m m'.
Proof. intros [H1 H2 H3]. by split. Qed.

Lemma cost_at_spec i m (Q : bool * double -> maps -> Prop) : (forall m', same m m' -> Q (C m i) m') -> post (cost_at i) m Q.
Proof.
  intros H c m' [= <- <-]. apply H. split; [|done|done]. intros j. unfold C, cost_of. cbn [costs]. rewrite lookup_insert.
  case_decide as E; [|done]. by subst j.
Qed.
Lemma count_path_spec s i m (Q : Z -> maps -> Prop) : (forall m', same m m' -> Q (N m s i) m') -> post (count_path s i) m Q.
Proof.
  intros H c m' [= <- <-]. apply H. split; [done| |done]. intros j k. unfold N, path_at, count_at. cbn [paths]. rewrite lookup_insert.
  case_decide as E; [|done]. subst j. simpl. rewrite lookup_insert. case_decide as E'; [|done]. by subst k.
Qed.
Lemma set_cost_spec i c m (Q : unit -> maps -> Prop) : (forall m', touches i m m' -> C m' i = c -> paths m' = paths m -> Q tt m') -> post (set_cost i c) m Q.
Proof.
  intros H [] m' [= <-]. apply H; [|unfold C, cost_of; cbn [costs]; by rewrite lookup_insert, decide_True|done].
  split; [|done|done]. intros j Hj. unfold C, cost_of. cbn [costs]. by rewrite lookup_insert, decide_False.
Qed.
Lemma set_path_spec i p m (Q : unit -> maps -> Prop) : (forall m', touches i m m' -> costs m' = costs m -> Q tt m') -> post (set_path i p) m Q.
Proof.
  intros H [] m' [= <-]. apply H; [|done]. split; [done| |done]. intros j k Hj. unfold N, path_at. cbn [paths].
  by rewrite lookup_insert, decide_False.
Qed.
Lemma add_work_spec l m (Q : unit -> maps -> Prop) :
  (forall m', C m' = C m -> N m' = N m -> (forall i, i ∈ worklist m' <-> i ∈ worklist m \/ i ∈ l) -> Q tt m') -> post (add_work l) m Q.
Proof.
  intros H [] m' [= <-]. apply H; [done|done|]. cbn [worklist]. generalize (worklist m). clear H.
  induction l as [|x l IH]; intros w i; cbn [foldl]; [by rewrite elem_of_nil, (right_id False (∨))|].
  rewrite IH, ContentionRun.set_insert_elem, elem_of_cons. intuition.
Qed.

(** ** The invariant *)
(** Reaching the loop: at a call of [castan_loop], at an instruction before one that reaches
    it, or at a call of a function whose first instruction reaches it. *)
Inductive reaches : Z -> Prop :=
  | reach_loop i : calls i loopAnnotation -> reaches i
  | reach_next i s : edge i s -> reaches s -> reaches i
  | reach_into i x e : find_inst fns i = Some x -> callee_entry fns (op x.2) = Some e -> reaches e -> reaches i.

Definition plain (i : Z) : Prop :=
  exists x, find_inst fns i = Some x /\ is_loop_call loopAnnotation (op x.2) = false /\ callee_entry fns (op x.2) = None.
(** The successor with cost [cs] offers more than [c]. *)
Definition improves (c cs : bool * double) : bool := if c.1 then cs.1 && SFltb c.2 cs.2 else cs.1 || SFltb c.2 cs.2.
Definition stable (m : maps) (i s : Z) : Prop := N m s i <= 1 -> improves (C m i) (C m s) = false.

Definition values_ok (m : maps) : Prop := forall i, (C m i).1 = true -> reaches i.
Record inv (m : maps) : Prop := {
  in_values : values_ok m;
  in_stable i s : i ∉ worklist m -> plain i -> edge i s -> stable m i s
}.

Lemma values_same m m' : same m m' -> values_ok m -> values_ok m'.
Proof. intros [H _ _] H1 i. rewrite H. apply H1. Qed.
Lemma values_touches i m m' :
  touches i m m' -> ((C m' i).1 = true -> reaches i) -> values_ok m -> values_ok m'.
Proof. intros [H _ _] Hr H1 j. destruct (decide (j = i)) as [->|Hj]; [done|]. rewrite H by done. apply H1. Qed.

Lemma improves_self c : improves c c = false.
Proof. destruct c as [[] v]; unfold improves; simpl; by rewrite ltb_irrefl. Qed.
Definition better (c cs : bool * double) : bool * double := (if c.1 then true else cs.1, dadd cs.2 (of_Z 0)).
Lemma better_stable c cs c0 : improves c cs = true -> improves c c0 = false -> improves (better c cs) c0 = false.
Proof.
  destruct c as [b v], cs as [bs vs], c0 as [b0 v0]. unfold improves, better. simpl. rewrite add_0_ltb.
  pose proof (ltb_trans v vs v0) as H. destruct b, bs, b0; simpl; try done; intros H1 H2; destruct (SFltb vs v0); try done;
    rewrite H in H2; done.
Qed.
Lemma better_self c cs : improves c cs = true -> improves (better c cs) cs = false.
Proof. destruct c as [[] v], cs as [[] vs]; unfold improves, better; simpl; rewrite ?add_0_ltb, ?ltb_irrefl; done. Qed.
Lemma no_cost o : instruction_cost o = 0.
Proof. destruct o as [[|]| |]; vm_compute; reflexivity. Qed.

(** ** The successors of an instruction *)
Lemma visit_successors_spec i succs : forall done changed m (Q : bool -> maps -> Prop),
  (forall s, s ∈ succs -> edge i s) -> values_ok m ->
  (forall s, s ∈ done -> stable m i s) ->
  (forall changed' m', touches i m m' -> values_ok m' -> (forall s, s ∈ done ++ succs -> stable m' i s) ->
     (changed' = false -> changed = false /\ same m m') -> Q changed' m') ->
  post (visit_successors i 0 succs changed) m Q.
Proof.
  induction succs as [|s succs IH]; intros done0 changed m Q Hs Hv Hd HQ.
  { apply post_ret. apply HQ; [by apply same_touches, same_refl|done|by rewrite app_nil_r|done]. }
  assert (Hs' : forall s, s ∈ succs -> edge i s) by (intros x Hx; apply Hs; by right).
  assert (Hstab : forall m m' x, same m m' -> stable m i x -> stable m' i x).
  { intros m1 m2 x [E1 E2 _]. unfold stable. by rewrite E2, !E1. }
  assert (Hskip : forall m', same m m' -> stable m i s -> post (visit_successors i 0 succs changed) m' Q).
  { intros m' Hsame Hst. apply (IH (done0 ++ [s])); [done|by eapply values_same| |].
    - intros x [Hx| ->%list_elem_of_singleton]%elem_of_app; apply (Hstab m); auto.
    - intros ch m'' H1 H2 H3 H4. apply HQ; [eapply touches_trans; [by apply same_touches|done]|done|by rewrite <- app_assoc in H3|].
      intros Hc. destruct (H4 Hc) as [? ?]. split; [done|by eapply same_trans]. }
  cbn [visit_successors]. apply post_bind, count_path_spec. intros m1 S1. destruct (Z.leb_spec (N m s i) 1) as [Hn|Hn].
  2:{ apply Hskip; [done|]. intros Hn'. lia. }
  apply post_bind, cost_at_spec. intros m2 S2. apply post_bind, cost_at_spec. intros m3 S3.
  cbv zeta. rewrite (sa_cost _ _ S1 i), (sa_cost _ _ S2 s), (sa_cost _ _ S1 s), ltb_add_0.
  change (if (C m i).1 then (C m s).1 && SFltb (C m i).2 (C m s).2 else (C m s).1 || SFltb (C m i).2 (C m s).2) with (improves (C m i) (C m s)).
  pose proof (same_trans _ _ _ S1 (same_trans _ _ _ S2 S3)) as S13. destruct (improves (C m i) (C m s)) eqn:Hi.
  2:{ apply Hskip; [done|]. by intros _. }
  change (if (C m i).1 then true else (C m s).1, dadd (C m s).2 (of_Z 0)) with (better (C m i) (C m s)).
  apply post_bind, set_cost_spec. intros m4 T4 C4 P4. apply post_bind. intros m4' ? [= <- <-].
  apply post_bind, set_path_spec. intros m5 T5 C5.
  assert (T : touches i m m5) by (eapply touches_trans; [by apply same_touches|eapply touches_trans; done]).
  assert (Ci : C m5 i = better (C m i) (C m s)) by (unfold C at 1; by rewrite C5).
  assert (Hv5 : values_ok m5).
  { apply (values_touches i m); [done| |done]. rewrite Ci. unfold better. simpl.
    destruct (C m i).1 eqn:E; [intros _; by apply Hv|]. intros E'. apply (reach_next _ s); [apply Hs; left|by apply Hv]. }
  assert (Hst : forall x, stable m i x \/ x = s -> stable m5 i x).
  { intros x Hx. destruct (decide (x = i)) as [->|Hxi]; [intros _; apply improves_self|].
    unfold stable. rewrite (to_path _ _ _ T x i Hxi), (to_cost _ _ _ T x Hxi), Ci. intros Hle.
    destruct Hx as [Hx| ->]; [by apply better_stable, Hx|by apply better_self]. }
  apply (IH (done0 ++ [s])); [done|done| |].
  - intros x [Hx| ->%list_elem_of_singleton]%elem_of_app; apply Hst; auto.
  - intros ch m'' H1 H2 H3 H4. apply HQ; [by eapply touches_trans|done|by rewrite <- app_assoc in H3|].
    intros Hc. by destruct (H4 Hc).
Qed.

(** ** A call *)
Lemma visit_call_spec i e x m (Q : bool -> maps -> Prop) :
  find_inst fns i = Some x -> callee_entry fns (op x.2) = Some e -> values_ok m ->
  (forall changed m', touches i m m' -> values_ok m' -> (changed = false -> same m m') -> Q changed m') ->
  post (visit_call fns i e) m Q.
Proof.
  intros Hx He Hv HQ. unfold visit_call. apply post_bind. intros ? ? [= <- <-]. apply post_bind.
  destruct (bool_decide _); [|apply post_halt]. apply post_ret. apply post_bind, cost_at_spec. intros m1 S1. apply post_bind.
  assert (Hend : forall m2 r, same m m2 -> (r.1.1 = true -> reaches i) ->
    post (c ← cost_at i; if cost_ne r.1 c then set_path i r.2;; set_cost i r.1;; mret true else mret false) m2 Q).
  { intros m2 [c p] S2 Hr. cbn [fst snd] in *. apply post_bind, cost_at_spec. intros m3 S3.
    pose proof (same_trans _ _ _ S2 S3) as S23. destruct (cost_ne _ _).
    2:{ apply post_ret. apply HQ; [by apply same_touches|by eapply values_same|done]. }
    apply post_bind, set_path_spec. intros m4 T4 _. apply post_bind, set_cost_spec. intros m5 T5 C5 _. apply post_ret.
      assert (T : touches i m m5) by (eapply touches_trans; [by apply same_touches|by eapply touches_trans]).
      apply HQ; [done| |done]. apply (values_touches i m); rewrite ?C5; done. }
  destruct (C m e) as [[] v] eqn:Ee; cbn [fst snd].
  - apply post_ret. apply Hend; [done|]. intros _. eapply reach_into; [done|done|]. apply Hv. by rewrite Ee.
  - destruct (at_ (successors (graph fns)) i) as [|s [|? ?]] eqn:Es; try apply post_halt.
    assert (Hed : edge i s) by (apply graph_successors; rewrite Es; left).
    apply post_bind, cost_at_spec. intros m2 S2. pose proof (same_trans _ _ _ S1 S2) as S12. rewrite (sa_cost _ _ S1 s).
    destruct (_ || _).
    + apply post_ret. apply Hend; [done|]. simpl. intros Hc. apply (reach_next _ s); [done|by apply Hv].
    + apply post_bind. intros [] m3 [= <-]. apply post_ret. apply Hend.
      * destruct S12 as [H1 H2 H3]. by split.
      * simpl. intros Hc. apply (reach_next _ s); [done|by apply Hv].
Qed.

(** ** The worklist *)
(** The module as LLVM keeps it: instructions have their own addresses, and nothing goes
    back to the first instruction of a function. *)
Record module_ok : Prop := {
  mo_unique f x g y : (f, x) ∈ instructions fns -> (g, y) ∈ instructions fns -> address x = address y -> (f, x) = (g, y);
  mo_entry i s f : edge i s -> f ∈ fns -> entry f <> Some s
}.
Context (Hmod : module_ok).

Lemma find_inst_elem i x : find_inst fns i = Some x -> x ∈ instructions fns /\ address x.2 = i.
Proof. intros [H1 H2%Z.eqb_eq]%find_some. by apply list_elem_of_In in H1. Qed.
Lemma elem_find_inst f x : (f, x) ∈ instructions fns -> find_inst fns (address x) = Some (f, x).
Proof.
  intros Hin. destruct (find_inst fns (address x)) as [[g y]|] eqn:E.
  - apply find_inst_elem in E as [H1 H2]. f_equal. simpl in H2. by apply (mo_unique Hmod).
  - unfold find_inst in E. pose proof (find_none _ _ E (f, x) (proj1 (list_elem_of_In _ _) Hin)) as H. simpl in H. by rewrite Z.eqb_refl in H.
Qed.

(** After instruction [i] was changed, and the instructions before it added. *)
Lemma inv_touches i m m' m'' :
  (forall j s, j ∉ worklist m -> j <> i -> plain j -> edge j s -> stable m j s) ->
  touches i m m' -> values_ok m' -> (plain i -> forall s, edge i s -> stable m' i s) ->
  C m'' = C m' -> N m'' = N m' -> (forall j, j ∈ worklist m' -> j ∈ worklist m'') ->
  (forall j, edge j i -> j ∈ worklist m'' \/ same m m') -> inv m''.
Proof.
  intros Hst T Hv Hi EC EN Hw Hp.
  assert (Hsm : forall j s, stable m'' j s <-> stable m' j s) by (intros; unfold stable; by rewrite EC, EN).
  split; [intros j; rewrite EC; apply Hv|]. intros j s Hj Hpl He. rewrite Hsm.
  assert (Hj' : j ∉ worklist m) by (intros H; apply Hj, Hw; by rewrite (to_work _ _ _ T)).
  destruct (decide (j = i)) as [->|Hji]; [by apply Hi|]. destruct (decide (s = i)) as [->|Hsi].
  - destruct (Hp j He) as [?|[S1 S2 _]]; [done|]. unfold stable. rewrite S2, !S1. by apply Hst.
  - unfold stable. rewrite (to_path _ _ _ T s j Hsi), (to_cost _ _ _ T j Hji), (to_cost _ _ _ T s Hsi). by apply Hst.
Qed.

Lemma visit_spec i x m (Q : bool -> maps -> Prop) :
  find_inst fns i = Some x -> values_ok m ->
  (forall changed m', touches i m m' -> values_ok m' -> (plain i -> forall s, edge i s -> stable m' i s) ->
     (changed = false -> same m m') -> Q changed m') ->
  post (visit fns loopAnnotation i (op x.2)) m Q.
Proof.
  intros Hx Hv HQ. unfold visit. destruct (is_loop_call loopAnnotation (op x.2)) eqn:El.
  { apply post_ret. apply HQ; [by apply same_touches, same_refl|done| |done].
    intros (y & Hy & E & _). rewrite Hx in Hy. injection Hy as <-. congruence. }
  destruct (callee_entry fns (op x.2)) as [e|] eqn:Ee.
  - eapply visit_call_spec; [done|done|done|]. intros ch m' T V S. apply HQ; [done|done| |done].
    intros (y & Hy & _ & E). rewrite Hx in Hy. injection Hy as <-. congruence.
  - rewrite no_cost. apply (visit_successors_spec i _ []); [|done|intros s Hs; by apply not_elem_of_nil in Hs|].
    + intros s. apply graph_successors.
    + intros ch m' T V S Hc. apply HQ; [done|done| |intros H; apply (Hc H)]. intros _ s He. apply S.
      by apply graph_successors.
Qed.

(** One round of the loop. *)
Lemma work_inv i w m :
  worklist m = i :: w -> inv m -> post (work fns loopAnnotation i) (Maps (costs m) (successorCosts m) (paths m) w) (fun _ m' => inv m').
Proof.
  intros Ew [Hv Hst]. set (m0 := Maps _ _ _ w). unfold work. apply post_bind.
  destruct (find_inst fns i) as [x|] eqn:Hx; [|apply post_halt]. apply post_ret. apply post_bind.
  apply (visit_spec i x); [done|exact Hv|]. intros ch m' T V S Hc.
  assert (Hst0 : forall j s, j ∉ worklist m0 -> j <> i -> plain j -> edge j s -> stable m0 j s).
  { intros j s Hj Hji. apply Hst. rewrite Ew. intros [?|?]%elem_of_cons; done. }
  destruct ch.
  - apply add_work_spec. intros m'' EC EN EW. apply (inv_touches i m0 m'); [done|done|done|done|done|done|intros j Hj; apply EW; by left|].
    intros j He. left. apply EW. right. destruct (is_entry x.1 i) eqn:Een; [|by apply graph_predecessors].
    exfalso. unfold is_entry in Een. apply bool_decide_eq_true in Een. apply find_inst_elem in Hx as [Hx _].
    destruct x as [f y]. apply instructions_elem in Hx as (b & Hf & _). by apply (mo_entry Hmod j i f).
  - apply post_ret. apply (inv_touches i m0 m'); [done..|]. intros j He. right. by apply Hc.
Qed.

Lemma start_at_inv f i c m :
  inv m -> (c.1 = true -> reaches i) -> (plain i -> forall s, ~ edge i s) ->
  post (start_at fns f i c) m (fun _ m' => inv m').
Proof.
  intros [Hv Hst] Hc Hp. unfold start_at. apply post_bind, set_cost_spec. intros m1 T1 C1 _. apply post_bind. intros ? ? [= <- <-].
  apply post_bind, set_path_spec. intros m2 T2 C2. apply post_bind, add_work_spec. intros m3 EC EN EW.
  assert (T : touches i m m2) by (by eapply touches_trans).
  assert (Ci : C m2 i = c) by (unfold C at 1; by rewrite C2).
  assert (H3 : inv m3).
  { apply (inv_touches i m m2); [by auto|done|apply (values_touches i m); rewrite ?Ci; done| |done|done|intros j Hj; apply EW; by left|].
    - intros Hpl s He. by destruct (Hp Hpl s).
    - intros j He. left. apply EW. right. by apply graph_predecessors. }
  destruct (is_entry f i); [|by apply post_ret]. apply add_work_spec. intros m4 EC4 EN4 EW4. destruct H3 as [V3 S3].
  split; [intros j; rewrite EC4; apply V3|]. intros j s Hj Hpl He. unfold stable. rewrite EC4, EN4. apply S3; [|done|done].
  intros H. apply Hj, EW4. by left.
Qed.
Lemma initialize_inv m : inv m -> post (initialize fns loopAnnotation) m (fun _ m' => inv m').
Proof.
  intros Hm. unfold initialize. apply post_bind.
  assert (He : forall l m, inv m -> post (start_ends fns l) m (fun _ m' => inv m')).
  { induction l as [|[f x] l IH]; intros m0 H0; [by apply post_ret|]. cbn [start_ends]. apply post_bind.
    destruct (at_ (successors (graph fns)) (address x)) as [|s0 rest] eqn:Es; [|by apply post_ret, IH].
    eapply post_weaken; [apply start_at_inv; [done|done|]|intros; by apply IH].
    intros _ s Hed%graph_successors. rewrite Es in Hed. by apply not_elem_of_nil in Hed. }
  assert (Hl : forall l m, (forall i, i ∈ l -> calls i loopAnnotation) -> inv m -> post (start_loops fns l) m (fun _ m' => inv m')).
  { induction l as [|i l IH]; intros m0 Hi H0; [by apply post_ret|]. cbn [start_loops]. apply post_bind.
    destruct (find_inst fns i) as [x|] eqn:Hx; [|apply post_halt]. apply post_ret. apply post_bind.
    eapply post_weaken; [apply start_at_inv; [done|intros _; apply reach_loop, Hi; left|]|intros; apply IH; [|done]; intros; apply Hi; by right].
    intros (y & Hy & E & _) s _. destruct (Hi i ltac:(left)) as (f & z & Hz & Ha & Ho). apply elem_find_inst in Hz. rewrite Ha, Hy in Hz.
    injection Hz as ->. simpl in E. rewrite Ho in E. simpl in E. by rewrite Z.eqb_refl in E. }
  eapply post_weaken; [by apply He|]. intros [] m1 H1. apply Hl; [|done]. intros i. apply graph_callers.
Qed.
Lemma no_maps_inv : inv no_maps.
Proof.
  split.
  - intros i. unfold C, cost_of. simpl. by rewrite lookup_empty.
  - intros i s _ _ _ _. unfold C, cost_of. simpl. rewrite !lookup_empty. done.
Qed.

(** ** The loop *)
(** The states at the head of the loop. *)
Inductive reachable : maps -> Prop :=
  | reachable_start m : initialize fns loopAnnotation no_maps = Ret (tt, m) -> reachable m
  | reachable_round m i w m' : reachable m -> worklist m = i :: w ->
      work fns loopAnnotation i (Maps (costs m) (successorCosts m) (paths m) w) = Ret (tt, m') -> reachable m'.
Lemma reachable_inv m : reachable m -> inv m.
Proof.
  induction 1 as [m E|m i w m' _ IH Ew E]; [by apply (initialize_inv no_maps no_maps_inv tt)|].
  by apply (work_inv i w m Ew IH tt).
Qed.
Lemma compute_reachable fuel : forall m m', reachable m -> compute fns loopAnnotation fuel m = Ret (tt, m') -> reachable m' /\ worklist m' = [].
Proof.
  induction fuel as [|fuel IH]; [done|]. intros m m' Hm E. cbn [compute] in E.
  apply mbind_inv in E as (o & m1 & E1 & E). unfold pop in E1. destruct (worklist m) as [|i w] eqn:Ew.
  - injection E1 as <- <-. injection E as <-. done.
  - injection E1 as <- <-. apply mbind_inv in E as ([] & m2 & E2 & E). eapply IH; [|exact E]. by eapply reachable_round.
Qed.

(** The loop is reached. *)
Lemma start_at_returns f i c m : exists m', start_at fns f i c m = Ret (tt, m').
Proof. unfold start_at. destruct (is_entry f i); by eexists. Qed.
Lemma initialize_returns : exists m, initialize fns loopAnnotation no_maps = Ret (tt, m).
Proof.
  assert (He : forall l m, exists m', start_ends fns l m = Ret (tt, m')).
  { induction l as [|[f x] l IH]; intros m; [by eexists|]. cbn [start_ends].
    destruct (at_ (successors (graph fns)) (address x)) as [|s0 rest]; [|destruct (IH m) as [m' E]; by exists m'].
    destruct (start_at_returns f (address x) (false, of_Z 1) m) as [m1 E]. rewrite (mbind_run _ _ _ _ _ E). apply IH. }
  assert (Hl : forall l m, (forall i, i ∈ l -> calls i loopAnnotation) -> exists m', start_loops fns l m = Ret (tt, m')).
  { induction l as [|i l IH]; intros m Hi; [by eexists|]. cbn [start_loops].
    destruct (Hi i ltac:(left)) as (f & z & Hz & Ha & _). apply elem_find_inst in Hz. rewrite <- Ha, Hz. cbn [of_option].
    rewrite (mbind_run _ _ _ (f, z) m) by done. destruct (start_at_returns f (address z) (true, of_Z 1) m) as [m1 E]. cbn [fst].
    rewrite (mbind_run _ _ _ _ _ E). apply IH. intros j Hj. apply Hi. by right. }
  destruct (He (instructions fns) no_maps) as [m E]. destruct (Hl (at_ (callers (graph fns)) loopAnnotation) m) as [m' E'].
  { intros i. apply graph_callers. }
  exists m'. unfold initialize. by rewrite (mbind_run _ _ _ _ _ E).
Qed.

(** C16. The cost map of the searcher: its start returns, and in every state of the worklist,
    the final one included, an instruction that is marked as being on a direct path to the
    analysed loop reaches a call of [castan_loop] in the control flow graph of the module,
    through successors and calls; and the cost of an instruction that is not waiting and is
    [plain], neither a call of a function with a body nor one of [castan_loop], cannot be
    improved by any successor on whose path it is at most once. *)
Theorem cost_map_invariant :
  (exists m, initialize fns loopAnnotation no_maps = Ret (tt, m)) /\
  (forall m, reachable m ->
     (forall i, (C m i).1 = true -> reaches i) /\
     (forall i s, i ∉ worklist m -> plain i -> edge i s -> N m s i <= 1 -> improves (C m i) (C m s) = false)) /\
  (forall fuel m, CastanSearcher fns loopAnnotation fuel no_maps = Ret (tt, m) -> reachable m /\ worklist m = []).
Proof.
  split_and!; [exact initialize_returns| |].
  - intros m Hm. destruct (reachable_inv m Hm) as [H1 H2]. split; [done|]. intros i s Hi Hp He. by apply H2.
  - intros fuel m E. unfold CastanSearcher in E. destruct (bool_decide _); [|done].
    apply mbind_inv in E as ([] & m1 & E1 & E). injection E1 as <-. apply mbind_inv in E as ([] & m2 & E2 & E).
    eapply compute_reachable; [|exact E]. by apply reachable_start.
Qed.
End Graph.

(** ** Checking a module *)
Definition all_edges (fns : list function) : list (Z * Z) := f ← fns; b ← blocks f; block_edges f b.
Lemma edge_elem fns i s : edge fns i s <-> (i, s) ∈ all_edges fns.
Proof.
  unfold all_edges, edge. rewrite list_elem_of_bind. split.
  - intros (f & b & Hf & Hb & He). exists f. split; [|done]. apply list_elem_of_bind. by exists b.
  - intros (f & H & Hf). apply list_elem_of_bind in H as (b & He & Hb). by exists f, b.
Qed.
Lemma module_check fns :
  NoDup (address <$> (snd <$> instructions fns)) ->
  forallb (fun e => forallb (fun f => negb (bool_decide (entry f = Some e.2))) fns) (all_edges fns) = true ->
  module_ok fns.
Proof.
  intros Hn He. split.
  - intros f x g y Hx Hy Ha. rewrite <- list_fmap_compose in Hn.
    apply list_elem_of_lookup in Hx as [i Hi], Hy as [j Hj].
    assert (i = j) as <-; [|congruence].
    apply (NoDup_lookup _ _ _ (address x) Hn); rewrite list_lookup_fmap; [by rewrite Hi|]. rewrite Hj. simpl. by rewrite Ha.
  - intros i s f Hs Hf. apply edge_elem, list_elem_of_In in Hs. rewrite forallb_forall in He. specialize (He _ Hs).
    rewrite forallb_forall in He. apply list_elem_of_In in Hf. specialize (He _ Hf). simpl in He.
    by apply negb_true_iff, bool_decide_eq_false in He.
Qed.

(** A packet loop, with a call before and one inside of it. *)
Definition program : list function :=
  [Function 1 [Block [Inst 10 (CallInst (Some 2)); Inst 11 OtherInst] [1%nat];
               Block [Inst 20 (CallInst (Some 3)); Inst 21 MemInst; Inst 22 (CallInst (Some 2)); Inst 23 OtherInst] [1%nat; 2%nat];
               Block [Inst 30 OtherInst] []];
   Function 2 [Block [Inst 40 MemInst; Inst 41 OtherInst] []];
   Function 3 []].
Lemma program_ok : module_ok program.
Proof. apply module_check; [apply (bool_decide_eq_true_1 _); vm_compute; reflexivity|vm_compute; reflexivity]. Qed.
Definition final_maps : maps := match CastanSearcher program 3 100 no_maps with Ret (_, m) => m | Stop _ => no_maps end.
Example program_run : CastanSearcher program 3 100 no_maps = Ret (tt, final_maps).
Proof. vm_compute. reflexivity. Qed.
Example program_costs :
  (C final_maps <$> [10; 11; 20; 21; 22; 23; 30; 40; 41]) =
    (prod_map id of_Z <$> [(true, 3); (true, 1); (true, 1); (true, 3); (true, 3); (true, 1); (false, 1); (false, 1); (false, 1)]).
Proof. vm_compute. reflexivity. Qed.
Example cost_21 : (C final_maps 21).1 = true.
Proof. vm_compute. reflexivity. Qed.
Lemma cost_map_invariant_witness :
  (exists m, initialize program 3 no_maps = Ret (tt, m)) /\ reaches program 3 21 /\
  forall i s, plain program 3 i -> edge program i s -> N final_maps s i <= 1 -> improves (C final_maps i) (C final_maps s) = false.
Proof.
  destruct (cost_map_invariant program 3 program_ok) as (H1 & H2 & H3). split; [exact H1|].
  destruct (H3 100%nat final_maps program_run) as [Hr Hw]. destruct (H2 final_maps Hr) as [Hs Hst]. split; [exact (Hs 21 cost_21)|].
  intros i s. apply Hst. rewrite Hw. apply not_elem_of_nil.
Defined.
(** All instructions weigh nothing: the costs of nanoseconds are stored in a [long]. *)
Example instructions_weigh_nothing o : instruction_cost o = 0.
Proof. apply no_cost. Qed.
End SearcherOk.

(** * The queue of states *)
Module Queue.
Import Orders Contention Searcher Doubles.

(** What is read of an execution state: the instruction it is at, the call sites of its stack
    from the innermost frame (none for the outermost), and its cache model. *)
Record exec_state : Type := ExecState {
  pc : Z;
  stack : list (option Z);
  totalTime : double;
  numIterations : Z
}.

(** An element of [states]. *)
Definition item : Type := (list double * Z)%type.
Record searcher : Type := Queued {
  q_costs : gmap Z (bool * double);
  q_successorCosts : gmap Z double;
  states : list item
}.

(** ** [getPriority] *)
(** [costs[i]] and [successorCosts[i]], which add missing entries. *)
Definition look_cost (i : Z) : M searcher (bool * double) := fun q =>
  Ret (cost_of (q_costs q) i, Queued (<[i := cost_of (q_costs q) i]> (q_costs q)) (q_successorCosts q) (states q)).
Definition look_successor (i : Z) : M searcher double := fun q =>
  let c := default (of_Z 0) (q_successorCosts q !! i) in
  Ret (c, Queued (q_costs q) (<[i := c]> (q_successorCosts q)) (states q)).
(** The sum over the call sites, up to the first one on a direct path. *)
Fixpoint add_callers (st : list (option Z)) (result : double) : M searcher double :=
  match st with
  | Some caller :: st =>
      n ← look_successor caller;
      let result := dadd result n in
      c ← look_cost caller;
      if c.1 : bool then mret result else add_callers st result
  | _ => mret result
  end.
Definition getPriority (s : exec_state) : M searcher (list double) :=
  if numIterations s =? 0 then mret [S754_infinity false; of_Z 0; of_Z 0]
  else
    q ← get;
    assert_ (bool_decide (q_costs q !! pc s <> None));;
    c ← look_cost (pc s);
    let result := dadd (totalTime s) c.2 in
    result ← (if c.1 : bool then mret result else add_callers (stack s) result);
    mret [ddiv result (of_Z (numIterations s)); totalTime s].

(** ** The set *)
(** [operator<] of vectors and of pairs. *)
Fixpoint vector_lt (x y : list double) : bool :=
  match x, y with
  | [], [] => false
  | [], _ => true
  | _, [] => false
  | a :: x, b :: y => if SFltb a b then true else if SFltb b a then false else vector_lt x y
  end.
Definition item_lt (x y : item) : bool := vector_lt x.1 y.1 || (negb (vector_lt y.1 x.1) && (x.2 <? y.2)).
Fixpoint place (e : item) (l : list item) : list item :=
  match l with
  | [] => [e]
  | x :: l' => if item_lt e x then e :: l else if item_lt x e then x :: place e l' else l
  end.
Fixpoint erase (e : item) (l : list item) : list item :=
  match l with
  | [] => []
  | x :: l' => if item_lt e x || item_lt x e then x :: erase e l' else l'
  end.

Definition on_states (f : list item -> list item) : M searcher unit :=
  modify (fun q => Queued (q_costs q) (q_successorCosts q) (f (states q))).
Definition find_state (p : Z) : M searcher (option item) := gets (fun q => List.find (fun e => e.2 =? p) (states q)).

Section Update.
(** The states in memory. *)
Context (heap : Z -> exec_state).
Definition add_state (p : Z) : M searcher unit := d ← getPriority (heap p); on_states (place (d, p)).
Definition remove_state (p : Z) : M searcher unit :=
  e ← find_state p;
  match e with Some e => on_states (erase e) | None => halt AssertFailed end.
Fixpoint each (f : Z -> M searcher unit) (l : list Z) : M searcher unit :=
  match l with [] => mret tt | p :: l => f p;; each f l end.
Definition update (current : option Z) (addedStates removedStates : list Z) : M searcher unit :=
  match current with Some c => remove_state c;; add_state c | None => mret tt end;;
  each add_state addedStates;;
  each remove_state removedStates.
End Update.
(** [states.rbegin()]; the report of the progress is left out. *)
Definition selectState (q : searcher) : result Z :=
  match list.last (states q) with Some e => Ret e.2 | None => Stop MemError end.
Definition empty (q : searcher) : bool := match states q with [] => true | _ => false end.

(** ** The order of priorities *)
Definition key (x : item) : list (Z * Z * Z) * Z := (dkey <$> x.1, x.2).

Lemma vector_key x y : Forall not_nan x -> Forall not_nan y -> vector_lt x y = (cmp (dkey <$> x) (dkey <$> y) <? 0).
Proof.
  intros Hx. revert y. induction Hx as [|a x Ha Hx IH]; intros [|b y] Hy; [done..|].
  apply Forall_cons_iff in Hy as [Hb Hy]. cbn [vector_lt fmap list_fmap]. rewrite !ltb_key by done.
  rewrite cmp_cons. unfold first. rewrite (cmp_opp (dkey a) (dkey b)), IH by done.
  destruct (Z.ltb_spec (cmp (dkey a) (dkey b)) 0), (Z.ltb_spec (- cmp (dkey a) (dkey b)) 0), (Z.eqb_spec (cmp (dkey a) (dkey b)) 0); (lia || done).
Qed.
Definition proper (x : item) : Prop := Forall not_nan x.1.
Lemma item_key x y : proper x -> proper y -> item_lt x y = (cmp (key x) (key y) <? 0).
Proof.
  intros Hx Hy. unfold item_lt. rewrite !vector_key by done. unfold key. rewrite cmp_pair. cbn [fst snd]. unfold first.
  rewrite (cmp_opp (dkey <$> x.1) (dkey <$> y.1)). set (c := cmp (dkey <$> x.1) (dkey <$> y.1)).
  assert (Hz : (cmp x.2 y.2 <? 0) = (x.2 <? y.2)).
  { unfold cmp, z_compare. destruct (zcmp_cases x.2 y.2) as [[-> ->]|[[? ->]|[? ->]]]; symmetry;
      [apply Z.ltb_irrefl|by apply Z.ltb_lt|apply Z.ltb_ge; lia]. }
  destruct (Z.ltb_spec c 0), (Z.ltb_spec (- c) 0), (Z.eqb_spec c 0); simpl; try lia; rewrite ?Hz; try done; symmetry;
    (by apply Z.ltb_lt) || by apply Z.ltb_ge.
Qed.

(** ** Sorted sets *)
Definition before (x y : item) : Prop := cmp (key x) (key y) < 0.
Lemma before_trans x y z : before x y -> before y z -> before x z.
Proof. apply cmp_trans. Qed.
Lemma before_irrefl x : ~ before x x.
Proof. unfold before. rewrite (proj2 (cmp_0 (key x) (key x)) eq_refl). lia. Qed.
(** Items of different states are in one order or the other. *)
Lemma before_total x y : x.2 <> y.2 -> before x y \/ before y x.
Proof.
  intros Hne. unfold before. rewrite (cmp_opp (key x) (key y)). destruct (Z.eq_dec (cmp (key x) (key y)) 0) as [E|]; [|lia].
  apply (cmp_0 (key x) (key y)) in E. unfold key in E. by injection E.
Qed.
Lemma item_lt_spec x y : proper x -> proper y -> item_lt x y = true <-> before x y.
Proof. intros Hx Hy. rewrite item_key by done. apply Z.ltb_lt. Qed.
Lemma item_lt_false x y : proper x -> proper y -> item_lt x y = false <-> ~ before x y.
Proof. intros Hx Hy. rewrite item_key by done. unfold before. rewrite Z.ltb_ge. lia. Qed.

Abbreviation sorted := (Sorting.Sorted.StronglySorted before).
Lemma place_spec e l :
  Forall proper (e :: l) -> sorted l -> e.2 ∉ l.*2 -> sorted (place e l) /\ forall x, x ∈ place e l <-> x = e \/ x ∈ l.
Proof.
  intros [He Hp]%Forall_cons_iff Hs. induction Hs as [|y l Hs IH Hy]; intros Hn.
  { split; [constructor; constructor|]. intros x. cbn [place]. rewrite list_elem_of_singleton, elem_of_nil. tauto. }
  apply Forall_cons_iff in Hp as [Hpy Hp]. cbn [fmap list_fmap] in Hn. apply not_elem_of_cons in Hn as [Hne Hn].
  destruct (IH Hp Hn) as [IHs IHe]. cbn [place]. rewrite Forall_forall in Hy. destruct (item_lt e y) eqn:E1.
  - apply item_lt_spec in E1; [|done|done]. split; [|intros x; by rewrite elem_of_cons].
    constructor; [by constructor; [|apply Forall_forall]|]. constructor; [done|]. apply Forall_forall. intros z Hz.
    eapply before_trans; [exact E1|by apply Hy].
  - apply item_lt_false in E1; [|done|done]. destruct (before_total e y Hne) as [?|Hb]; [done|].
    rewrite (proj2 (item_lt_spec y e Hpy He) Hb). split; [|intros x; rewrite !elem_of_cons, IHe; tauto].
    constructor; [done|]. apply Forall_forall. intros z Hz. apply list_elem_of_In, IHe in Hz as [->|Hz]; [done|].
    by apply Hy, list_elem_of_In.
Qed.
Lemma erase_spec e l :
  Forall proper l -> sorted l -> e ∈ l -> NoDup (l.*2) -> sorted (erase e l) /\ forall x, x ∈ erase e l <-> x ∈ l /\ x.2 <> e.2.
Proof.
  intros Hp Hs He Hn. assert (Hpe : proper e) by (rewrite list.Forall_forall in Hp; by apply Hp).
  induction Hs as [|y l Hs IH Hy]; [by apply not_elem_of_nil in He|].
  apply Forall_cons_iff in Hp as [Hpy Hp]. cbn [fmap list_fmap] in Hn. apply list.NoDup_cons in Hn as [Hny Hn]. cbn [erase].
  assert (Hnot : forall x, x ∈ l -> x.2 <> y.2) by (intros x Hx E; apply Hny; rewrite <- E; by apply list_elem_of_fmap_2).
  rewrite Forall_forall in Hy. apply elem_of_cons in He as [->|He].
  - rewrite (proj2 (item_lt_false y y Hpy Hpy) (before_irrefl y)). simpl. split; [done|]. intros x. rewrite elem_of_cons. split.
    + intros Hx. split; [by right|by apply Hnot].
    + by intros [[->|Hx] Hne].
  - assert (Hb : before y e) by (by apply Hy, list_elem_of_In). rewrite (proj2 (item_lt_spec y e Hpy Hpe) Hb), orb_true_r.
    destruct (IH Hp He Hn) as [IHs IHe]. split.
    + constructor; [done|]. apply Forall_forall. intros z Hz. apply list_elem_of_In, IHe in Hz as [Hz _]. by apply Hy, list_elem_of_In.
    + intros x. rewrite !elem_of_cons, IHe. split; [intros [->|[Hx Hne]]|intros [[->|Hx] Hne]]; try tauto.
      split; [by left|]. intros E. by apply (Hnot e He).
Qed.

(** ** The abstract queue

    The priority of every waiting state. *)
Abbreviation queue := (gmap Z (list double)).
Record represents (l : list item) (A : queue) : Prop := {
  re_sorted : sorted l;
  re_proper : Forall proper l;
  re_nodup : NoDup (l.*2);
  re_items d p : (d, p) ∈ l <-> A !! p = Some d
}.

Lemma represents_in l A p : represents l A -> p ∈ l.*2 <-> is_Some (A !! p).
Proof.
  intros Hr. rewrite list_elem_of_fmap. split.
  - intros ([d p'] & -> & Hin). apply (re_items _ _ Hr) in Hin. by eexists.
  - intros [d Hd]. apply (re_items _ _ Hr) in Hd. by exists (d, p).
Qed.
Lemma represents_place l A d p :
  represents l A -> Forall not_nan d -> A !! p = None -> represents (place (d, p) l) (<[p := d]> A).
Proof.
  intros Hr Hd Hp. assert (Hn : p ∉ l.*2) by (intros [? H]%(represents_in l A p Hr); congruence).
  destruct (place_spec (d, p) l) as [Hs He]; [by constructor; [|apply Hr]|apply Hr|done|].
  assert (Hnd : NoDup ((place (d, p) l).*2)).
  { clear Hs. revert Hn He. destruct Hr as [_ _ Hnd _]. revert Hnd. clear. intros Hnd Hn _.
    assert (Hperm : (place (d, p) l).*2 ≡ₚ p :: l.*2 \/ place (d, p) l = l).
    { clear. induction l as [|y l IH]; [by left|]. cbn [place]. destruct (item_lt _ y); [by left|]. destruct (item_lt y _); [|by right].
      destruct IH as [IH|IH]; [left|right; by rewrite IH]. cbn [fmap list_fmap]. rewrite IH. apply Permutation_swap. }
    destruct Hperm as [-> | ->]; [by apply list.NoDup_cons|done]. }
  split; [done| |done|].
  - apply list.Forall_forall. intros x [->|Hx]%He; [done|]. pose proof (re_proper _ _ Hr) as H. rewrite list.Forall_forall in H. by apply H.
  - intros d' p'. rewrite He, lookup_insert. case_decide as E; [subst p'|].
    + split; [intros [[= ->]|Hx]; [done|]|intros [= ->]; by left]. apply (re_items _ _ Hr) in Hx. congruence.
    + rewrite <- (re_items _ _ Hr). split; [intros [[= _ ->]|]; done|tauto].
Qed.
Lemma represents_erase l A d p : represents l A -> A !! p = Some d -> represents (erase (d, p) l) (delete p A).
Proof.
  intros Hr Hp. destruct (erase_spec (d, p) l) as [Hs He]; [apply Hr|apply Hr|by apply Hr|apply Hr|].
  assert (Hsub : erase (d, p) l `sublist_of` l).
  { clear. induction l as [|y l IH]; [constructor|]. cbn [erase]. destruct (_ || _); by constructor. }
  split; [done| | |].
  - apply list.Forall_forall. intros x [Hx _]%He. pose proof (re_proper _ _ Hr) as H. rewrite list.Forall_forall in H. by apply H.
  - apply (sublist_NoDup _ (l.*2)); [apply Hr|by apply fmap_sublist].
  - intros d' p'. rewrite He, (re_items _ _ Hr), lookup_delete. simpl. case_decide as E; [|intuition congruence].
    subst p'. split; [by intros [_ ?]|done].
Qed.
Lemma find_state_some l A p d : represents l A -> A !! p = Some d -> List.find (fun e => e.2 =? p) l = Some (d, p).
Proof.
  intros Hr Hp. destruct (List.find (fun e => e.2 =? p) l) as [[d' p']|] eqn:E.
  - apply find_some in E as [H1 H2%Z.eqb_eq]. simpl in H2. subst p'. apply list_elem_of_In, (re_items _ _ Hr) in H1. congruence.
  - apply (re_items _ _ Hr), list_elem_of_In in Hp. pose proof (find_none _ _ E _ Hp) as H. simpl in H. by rewrite Z.eqb_refl in H.
Qed.

(** *** Priorities *)
Section Priority.
Context (c0 : gmap Z (bool * double)) (s0 : gmap Z double).
Fixpoint callers_time (st : list (option Z)) (result : double) : double :=
  match st with
  | Some caller :: st =>
      let result := dadd result (default (of_Z 0) (s0 !! caller)) in
      if (cost_of c0 caller).1 then result else callers_time st result
  | _ => result
  end.
(** The time per iteration: the time so far and the cost map's estimate of what is left of
    this one; and the time so far. A state that has not begun comes first. *)
Definition priority (s : exec_state) : list double :=
  if numIterations s =? 0 then [S754_infinity false; of_Z 0; of_Z 0]
  else
    let result := dadd (totalTime s) (cost_of c0 (pc s)).2 in
    [ddiv (if (cost_of c0 (pc s)).1 then result else callers_time (stack s) result) (of_Z (numIterations s)); totalTime s].

(** The maps say the same, with new entries perhaps. *)
Record maps_as (q : searcher) : Prop := {
  ma_costs i : cost_of (q_costs q) i = cost_of c0 i;
  ma_succ i : default (of_Z 0) (q_successorCosts q !! i) = default (of_Z 0) (s0 !! i);
  ma_there i : is_Some (c0 !! i) -> is_Some (q_costs q !! i)
}.
Lemma look_cost_as i q : maps_as q -> runs (look_cost i) q (fun c q' => c = cost_of c0 i /\ maps_as q' /\ states q' = states q).
Proof.
  intros [H1 H2 H3]. unfold look_cost, runs. split; [apply H1|]. split; [|done]. split; cbn [q_costs q_successorCosts]; [|done|].
  - intros j. unfold cost_of at 1. rewrite lookup_insert. case_decide as E; [subst j; apply H1|apply H1].
  - intros j Hj. rewrite lookup_insert. case_decide; [done|by apply H3].
Qed.
Lemma look_successor_as i q : maps_as q -> runs (look_successor i) q (fun c q' => c = default (of_Z 0) (s0 !! i) /\ maps_as q' /\ states q' = states q).
Proof.
  intros [H1 H2 H3]. unfold look_successor, runs. split; [apply H2|]. split; [|done]. split; cbn [q_costs q_successorCosts]; [done| |done].
  intros j. rewrite lookup_insert. case_decide as E; [subst j; apply H2|apply H2].
Qed.
Lemma add_callers_as st : forall result q, maps_as q ->
  runs (add_callers st result) q (fun r q' => r = callers_time st result /\ maps_as q' /\ states q' = states q).
Proof.
  induction st as [|[caller|] st IH]; intros result q Hq; [by apply runs_ret| |by apply runs_ret]. cbn [add_callers callers_time].
  eapply runs_step; [by apply look_successor_as|]. intros ? q1 (-> & H1 & E1). eapply runs_step; [by apply look_cost_as|].
  intros ? q2 (-> & H2 & E2). destruct (cost_of c0 caller).1.
  - apply runs_ret. split_and!; [done|done|congruence].
  - eapply runs_mono; [by apply IH|]. intros r q3 (-> & H3 & E3). split_and!; [done|done|congruence].
Qed.
(** A state whose priority can be computed: it has not begun, or it is at an instruction that
    is in the cost map. *)
Definition known (s : exec_state) : Prop :=
  (numIterations s = 0 \/ is_Some (c0 !! pc s)) /\ Forall not_nan (priority s).
Lemma getPriority_as s q : known s -> maps_as q ->
  runs (getPriority s) q (fun d q' => d = priority s /\ maps_as q' /\ states q' = states q).
Proof.
  intros [Hk _] Hq. unfold getPriority, priority. destruct (Z.eqb_spec (numIterations s) 0) as [|Hn]; [by apply runs_ret|].
  destruct Hk as [?|Hk]; [done|]. apply runs_bind. unfold get at 1, runs at 1. apply runs_bind. apply (ma_there _ Hq) in Hk.
  apply runs_assert; [apply bool_decide_eq_true; by destruct Hk as [? ->]|]. eapply runs_step; [by apply look_cost_as|].
  intros ? q1 (-> & H1 & E1). apply (runs_step _ _ _ (fun r q' => r = (if (cost_of c0 (pc s)).1 then dadd (totalTime s) (cost_of c0 (pc s)).2
      else callers_time (stack s) (dadd (totalTime s) (cost_of c0 (pc s)).2)) /\ maps_as q' /\ states q' = states q)).
  - destruct (cost_of c0 (pc s)).1; [by apply runs_ret|]. eapply runs_mono; [by apply add_callers_as|].
    intros r q2 (-> & H2 & E2). split_and!; [done|done|congruence].
  - intros ? q2 (-> & H2 & E2). by apply runs_ret.
Qed.
End Priority.

(** *** Updates *)
Section Refinement.
Context (c0 : gmap Z (bool * double)) (s0 : gmap Z double).
(** One call of [update], with the states in memory. *)
Record call : Type := Call { c_heap : Z -> exec_state; c_current : option Z; c_added : list Z; c_removed : list Z }.
Definition call_update (c : call) : M searcher unit := update (c_heap c) (c_current c) (c_added c) (c_removed c).
Definition with_priority (c : call) (A : queue) (p : Z) : queue := <[p := priority c0 s0 (c_heap c p)]> A.
Definition after_current (c : call) (A : queue) : queue := match c_current c with Some p => with_priority c A p | None => A end.
Definition after_added (c : call) (A : queue) : queue := foldl (with_priority c) (after_current c A) (c_added c).
Definition spec_update (c : call) (A : queue) : queue := foldl (fun A p => delete p A) (after_added c A) (c_removed c).

(** The executor updates waiting states, adds new ones and removes waiting ones. *)
Record legal (c : call) (A : queue) : Prop := {
  le_current p : c_current c = Some p -> is_Some (A !! p) /\ known c0 s0 (c_heap c p);
  le_added : NoDup (c_added c);
  le_new p : p ∈ c_added c -> A !! p = None /\ known c0 s0 (c_heap c p);
  le_removed : NoDup (c_removed c);
  le_there p : p ∈ c_removed c -> is_Some (after_added c A !! p)
}.
Definition models (A : queue) (q : searcher) : Prop := represents (states q) A /\ maps_as c0 s0 q.

Lemma queue_remove_ok p A q : models A q -> is_Some (A !! p) -> runs (remove_state p) q (fun _ q' => models (delete p A) q').
Proof.
  intros [Hr Hm] [d Hp]. unfold remove_state. apply runs_bind. unfold find_state, gets, runs at 1.
  rewrite (find_state_some _ A p d) by done. apply runs_modify. split; [by apply represents_erase|]. destruct Hm. by split.
Qed.
Lemma queue_add_ok h p A q :
  models A q -> A !! p = None -> known c0 s0 (h p) -> runs (add_state h p) q (fun _ q' => models (<[p := priority c0 s0 (h p)]> A) q').
Proof.
  intros [Hr Hm] Hp Hk. unfold add_state. eapply runs_step; [by apply (getPriority_as c0 s0)|]. intros ? q1 (-> & H1 & E1).
  apply runs_modify. split; [|destruct H1; by split]. cbn [states]. rewrite E1. apply represents_place; [done|apply Hk|done].
Qed.
Lemma each_added c l : forall A q, models A q -> NoDup l -> (forall p, p ∈ l -> A !! p = None /\ known c0 s0 (c_heap c p)) ->
  runs (each (add_state (c_heap c)) l) q (fun _ q' => models (foldl (with_priority c) A l) q').
Proof.
  induction l as [|p l IH]; intros A q Hq Hn Hl; [by apply runs_ret|]. apply list.NoDup_cons in Hn as [Hp Hn].
  destruct (Hl p ltac:(left)) as [H1 H2]. cbn [each foldl]. eapply runs_step; [by apply queue_add_ok|]. intros [] q1 H3.
  apply IH; [done|done|]. intros p' Hp'. unfold with_priority. rewrite lookup_insert_ne by (by intros ->). apply Hl. by right.
Qed.
Lemma each_removed l : forall A q, models A q -> NoDup l -> (forall p, p ∈ l -> is_Some (A !! p)) ->
  runs (each remove_state l) q (fun _ q' => models (foldl (fun A p => delete p A) A l) q').
Proof.
  induction l as [|p l IH]; intros A q Hq Hn Hl; [by apply runs_ret|]. apply list.NoDup_cons in Hn as [Hp Hn].
  cbn [each foldl]. eapply runs_step; [apply queue_remove_ok; [done|apply Hl; left]|]. intros [] q1 H3.
  apply IH; [done|done|]. intros p' Hp'. rewrite lookup_delete_ne by (by intros ->). apply Hl. by right.
Qed.
Lemma update_ok c A q : models A q -> legal c A -> runs (call_update c) q (fun _ q' => models (spec_update c A) q').
Proof.
  intros Hq [H1 H2 H3 H4 H5]. unfold call_update, update.
  apply (runs_step _ _ _ (fun _ q' => models (after_current c A) q')).
  { unfold after_current. destruct (c_current c) as [p|]; [|by apply runs_ret]. destruct (H1 p eq_refl) as [Hp Hk].
    eapply runs_step; [by apply (queue_remove_ok p A)|]. intros [] q1 Hq1. eapply runs_mono; [apply (queue_add_ok _ p); [done|apply lookup_delete_eq|done]|].
    intros [] q2. unfold with_priority. by rewrite insert_delete_eq. }
  intros [] q1 Hq1. eapply runs_step; [apply (each_added c); [done|done|]|].
  { intros p Hp. destruct (H3 p Hp) as [E Hk]. split; [|done]. unfold after_current, with_priority. destruct (c_current c) as [p'|] eqn:Ec; [|done].
    rewrite lookup_insert_ne; [done|]. intros ->. destruct (H1 p eq_refl) as [[? ?] _]. congruence. }
  intros [] q2 Hq2. by apply each_removed.
Qed.

(** A sequence of calls. *)
Fixpoint updates (l : list call) : M searcher unit :=
  match l with [] => mret tt | c :: l => call_update c;; updates l end.
Fixpoint spec_updates (l : list call) (A : queue) : queue := match l with [] => A | c :: l => spec_updates l (spec_update c A) end.
Fixpoint all_legal (l : list call) (A : queue) : Prop :=
  match l with [] => True | c :: l => legal c A /\ all_legal l (spec_update c A) end.

Lemma sorted_last l e x : sorted l -> list.last l = Some e -> x ∈ l -> x = e \/ before x e.
Proof.
  intros Hs. induction Hs as [|y l Hs IH Hy]; [done|]. intros Hl Hx. destruct l as [|z l].
  { injection Hl as ->. apply list_elem_of_singleton in Hx. by left. }
  change (list.last (z :: l) = Some e) in Hl. apply elem_of_cons in Hx as [->|Hx]; [|by apply IH].
  right. rewrite Forall_forall in Hy. apply Hy, list_elem_of_In. by apply last_Some_elem_of.
Qed.

(** C17. The searcher is a priority queue: over any sequence of updates that keep to the
    executor's protocol, no assertion fails, every waiting state is kept once, with the
    priority it had when it last was the current one or was added; and a state is selected
    unless there is none, one whose priority no other exceeds: time per iteration first, then
    time, then the address. *)
Theorem searcher_refines l :
  all_legal l ∅ ->
  runs (updates l) (Queued c0 s0 []) (fun _ q =>
    represents (states q) (spec_updates l ∅) /\
    match selectState q with
    | Stop _ => spec_updates l ∅ = ∅ /\ empty q = true
    | Ret p => exists d, spec_updates l ∅ !! p = Some d /\
        forall p' d', spec_updates l ∅ !! p' = Some d' -> p' <> p -> item_lt (d', p') (d, p) = true
    end).
Proof.
  intros Hl. assert (Hu : forall l A q, models A q -> all_legal l A -> runs (updates l) q (fun _ q' => models (spec_updates l A) q')).
  { clear. induction l as [|c l IH]; intros A q Hq Hl; [by apply runs_ret|]. destruct Hl as [Hc Hl].
    cbn [updates spec_updates]. eapply runs_step; [by apply (update_ok c A)|]. intros [] q1 Hq1. by apply IH. }
  eapply runs_mono; [apply (Hu l ∅); [|done]|].
  - split; [|by split]. split; [constructor|constructor|apply NoDup_nil_2|]. intros d p. cbn [states]. rewrite lookup_empty, elem_of_nil. done.
  - intros _ q [Hr _]. split; [done|]. unfold selectState, empty. destruct (list.last (states q)) as [[d p]|] eqn:E; cbn [snd].
    + exists d. split; [by apply (re_items _ _ Hr), last_Some_elem_of|]. intros p' d' Hp' Hne. apply (re_items _ _ Hr) in Hp'.
      pose proof (re_proper _ _ Hr) as Hpr. rewrite list.Forall_forall in Hpr. apply item_lt_spec; [by apply Hpr|by apply Hpr, last_Some_elem_of|].
      destruct (sorted_last _ _ _ (re_sorted _ _ Hr) E Hp') as [[= _ ->]|Hb]; [done|exact Hb].
    + apply last_None in E. rewrite E. split; [|done]. apply map_eq. intros p. rewrite lookup_empty.
      destruct (spec_updates l ∅ !! p) as [d|] eqn:Ep; [|done]. apply (re_items _ _ Hr) in Ep. rewrite E in Ep. by apply not_elem_of_nil in Ep.
Qed.
End Refinement.

(** ** A search of two states *)
(** One is at instruction 21 in its second iteration, the other one has not begun; it runs,
    and forks a third one. *)
Definition search_costs : gmap Z (bool * double) := {[21 := (true, of_Z 3); 22 := (false, of_Z 1); 40 := (false, of_Z 0)]}.
Definition search_heap (p : Z) : exec_state :=
  if p =? 100 then ExecState 21 [] (of_Z 10) 2
  else if p =? 200 then ExecState 10 [] (of_Z 0) 0 else ExecState 22 [Some 40; None] (of_Z 20) 1.
Definition ran_heap (p : Z) : exec_state := if p =? 200 then ExecState 22 [None] (of_Z 5) 1 else search_heap p.
Definition search : list call :=
  [Call search_heap None [100; 200] []; Call ran_heap (Some 200) [300] [100]].
Definition final_searcher : searcher :=
  match updates search (Queued search_costs ∅ []) with Ret (_, q) => q | Stop _ => Queued ∅ ∅ [] end.
Example search_selects : selectState final_searcher = Ret 300 /\ (snd <$> states final_searcher) = [200; 300].
Proof. vm_compute. split; reflexivity. Qed.

Definition is_nan (d : double) : bool := match d with S754_nan => true | _ => false end.
Lemma known_check c0 s0 s :
  ((numIterations s =? 0) || bool_decide (is_Some (c0 !! pc s))) && forallb (fun d => negb (is_nan d)) (priority c0 s0 s) = true ->
  known c0 s0 s.
Proof.
  intros [H1 H2]%andb_true_iff. split.
  - apply orb_true_iff in H1 as [H%Z.eqb_eq|H%bool_decide_eq_true]; tauto.
  - apply list.Forall_forall. intros d Hd ->. rewrite forallb_forall in H2. apply list_elem_of_In in Hd. by specialize (H2 _ Hd).
Qed.
Definition legal_b (c0 : gmap Z (bool * double)) (s0 : gmap Z double) (c : call) (A : queue) : bool :=
  let ok p := ((numIterations (c_heap c p) =? 0) || bool_decide (is_Some (c0 !! pc (c_heap c p)))) &&
              forallb (fun d => negb (is_nan d)) (priority c0 s0 (c_heap c p)) in
  match c_current c with Some p => bool_decide (is_Some (A !! p)) && ok p | None => true end &&
  bool_decide (NoDup (c_added c)) && forallb (fun p => bool_decide (A !! p = None) && ok p) (c_added c) &&
  bool_decide (NoDup (c_removed c)) && forallb (fun p => bool_decide (is_Some (after_added c0 s0 c A !! p))) (c_removed c).
Lemma legal_check c0 s0 c A : legal_b c0 s0 c A = true -> legal c0 s0 c A.
Proof.
  intros [[[[H1 H2]%andb_true_iff H3]%andb_true_iff H4]%andb_true_iff H5]%andb_true_iff.
  apply bool_decide_eq_true in H2, H4. rewrite forallb_forall in H3, H5. split; [|done| |done|].
  - intros p Hp. rewrite Hp in H1. apply andb_true_iff in H1 as [H%bool_decide_eq_true Hk]. split; [done|by apply known_check].
  - intros p Hp. apply list_elem_of_In, H3, andb_true_iff in Hp as [H%bool_decide_eq_true Hk]. split; [done|by apply known_check].
  - intros p Hp. by apply list_elem_of_In, H5, bool_decide_eq_true in Hp.
Qed.
Lemma search_legal : all_legal search_costs ∅ search ∅.
Proof.
  split; [apply legal_check; vm_compute; reflexivity|]. split; [apply legal_check; vm_compute; reflexivity|exact I].
Qed.
Lemma searcher_refines_witness :
  exists d, spec_updates search_costs ∅ search ∅ !! 300 = Some d /\
    forall p' d', spec_updates search_costs ∅ search ∅ !! p' = Some d' -> p' <> 300 -> item_lt (d', p') (d, 300) = true.
Proof.
  pose proof (searcher_refines search_costs ∅ search search_legal) as H. unfold runs in H.
  assert (E : updates search (Queued search_costs ∅ []) = Ret (tt, final_searcher)) by (vm_compute; reflexivity).
  rewrite E in H. destruct H as [_ H]. rewrite (proj1 search_selects) in H. exact H.
Defined.
End Queue.
