(* ===== verification/Lpm.v ===== *)
(** * Network functions: longest prefix match

    examples/dpdk-lpm-btrie (the table is a binary trie), examples/dpdk-lpm-da (a flat table
    of one entry per 27-bit prefix) and examples/dpdk-lpm-dpdklpm (the table is DPDK's), which
    share the loading of the routes, [dispatch_packet] and the receive loop. The table is an
    interface, [LpmTable]; [Btrie] and [Da] implement it. *)
From stdpp Require Import base gmap list numbers.
From Stdlib Require Import ZArith Lia.
From S2P Require Import Prelude CMem NfPacket.

(** * The handler *)
Module Lpm.
Import Packet.

(** A table of routes: [lpm_set_prefix_port] and [lpm_get_ip_port], which answer 0 or not; the
    port that was found is written through [out_port]. *)
Class LpmTable (T : Type) : Type := {
  lpm_set_prefix_port : Z -> Z -> Z -> M T Z;
  lpm_get_ip_port : T -> Z -> result (Z * Z)
}.

Definition LPM_MAX_RULES : Z := 1000000.
Definition EXIT_FAILURE : Z := 1.

(** A line of the routing table, as [fscanf] and [inet_pton] read it: the address in network
    order, the length of the prefix and the number of the device. *)
Record line : Type := Line { l_ip : Z; depth : Z; asn : Z }.
Record nf_config : Type := Config { device_macs : list (list Z); endpoint_macs : list (list Z) }.

Section Handler.
Context `{Dpdk} (rte_be_to_cpu_32 : Z -> Z) (rte_eth_dev_count : Z) {T : Type} {LT : LpmTable T}.

(** [init_lpm], on the lines of the file. *)
Fixpoint init_lpm (count : Z) (l : list line) : M T unit :=
  match l with
  | [] => mret tt
  | x :: l =>
      if count <? LPM_MAX_RULES then
        (if (asn x <? 0) || (rte_eth_dev_count <? asn x) then mret tt
         else
           result ← lpm_set_prefix_port (rte_be_to_cpu_32 (l_ip x)) (depth x) (asn x);
           if result <? 0 then halt (Exit EXIT_FAILURE) else mret tt);;
        init_lpm (count + 1) l
      else mret tt
  end.

Definition lpm_get_dst_port (lpm : T) (portid : Z) : M mem Z :=
  dst_addr ← load_int 4 o_dst_addr;
  r ← lift (lpm_get_ip_port lpm (rte_be_to_cpu_32 dst_addr));
  mret (if nz r.1 then portid else r.2).

Definition dispatch_packet (config : nf_config) (device : Z) (lpm : T) (mbuf : rte_mbuf) : M mem Z :=
  ok ← is_ipv4 mbuf;
  if (ok : bool) then
    dst_dev ← lpm_get_dst_port lpm device;
    (if dst_dev =? device then mret tt
     else if u8 rte_eth_dev_count <=? dst_dev then halt (Exit EXIT_FAILURE)
     else set_macs (device_macs config) (endpoint_macs config) dst_dev);;
    mret dst_dev
  else mret device.

(** The receive loop on the packets that arrive: the device a packet leaves by ([None]:
    freed) and its bytes. *)
Fixpoint run (config : nf_config) (lpm : T) (l : list arrival) : result (list (option Z * mem)) :=
  match l with
  | [] => Ret []
  | a :: l =>
      r ← dispatch_packet config (a_device a) lpm (a_mbuf a) (a_data a);
      rs ← run config lpm l;
      Ret (((if r.1 =? a_device a then None else Some r.1), r.2) :: rs)
  end.
End Handler.

(** ** The tries of dpdk-lpm-btrie *)
Definition NULL_PORT : Z := -1.
Inductive prefix_node : Type := NULL | Node (child0 child1 : prefix_node) (port : Z).
(** [lpm_create] *)
Definition btrie_create : prefix_node := NULL.

(** [ip & 1 << (sizeof(ip) * 8 - pos - 1)]; a shift by a number that is no bit of an [int] is
    an error. *)
Definition ip_bit (ip pos : Z) : result bool :=
  if (0 <=? 32 - pos - 1) && (32 - pos - 1 <? 32) then Ret (nz (Z.land ip (u32 (Z.shiftl 1 (32 - pos - 1))))) else Stop MemError.
(** The loop from position [pos] on, [n] positions before the end of the prefix, and what
    follows it. *)
Fixpoint btrie_set (ip pos : Z) (n : nat) (port : Z) (node : prefix_node) : result (Z * prefix_node) :=
  let '(c0, c1, p) := match node with NULL => (NULL, NULL, NULL_PORT) | Node c0 c1 p => (c0, c1, p) end in
  match n with
  | O => if p =? NULL_PORT then Ret (0, Node c0 c1 port) else Ret (-1, Node c0 c1 p)
  | S n =>
      b ← ip_bit ip pos;
      if (b : bool) then r ← btrie_set ip (pos + 1) n port c1; Ret (r.1, Node c0 r.2 p)
      else r ← btrie_set ip (pos + 1) n port c0; Ret (r.1, Node r.2 c1 p)
  end.
(** Without a round of the loop, the root has to be there. *)
Definition btrie_set_prefix_port (ip prefix_len port : Z) : M prefix_node Z := fun lpm =>
  if prefix_len <? 0 then
    match lpm with
    | NULL => Stop MemError
    | Node c0 c1 p => if p =? NULL_PORT then Ret (0, Node c0 c1 port) else Ret (-1, Node c0 c1 p)
    end
  else btrie_set ip 0 (Z.to_nat prefix_len) port lpm.

(** The loop of the lookup: [k] is [pos + 1]. *)
Fixpoint btrie_get (k : nat) (ip port : Z) (node : prefix_node) : Z :=
  match k, node with
  | S pos, Node c0 c1 p =>
      let port := if p =? NULL_PORT then port else p in
      btrie_get pos ip port (if nz (Z.land ip (u32 (Z.shiftl 1 (Z.of_nat pos)))) then c1 else c0)
  | _, _ => port
  end.
Definition btrie_get_ip_port (lpm : prefix_node) (ip : Z) : result (Z * Z) :=
  let port := btrie_get 32 ip NULL_PORT lpm in
  Ret (if port =? NULL_PORT then (-1, 0) else (0, u32 port)).
#[export] Instance btrie_table : LpmTable prefix_node :=
  {| lpm_set_prefix_port := btrie_set_prefix_port; lpm_get_ip_port := btrie_get_ip_port |}.

(** ** The flat table of dpdk-lpm-da *)
Definition LONGEST_PREFIX : Z := 27.
Record entry : Type := Entry { e_port : Z; e_prefix_len : Z }.
(** The memory of [lpm_create], which is zero. *)
Abbreviation da_table := (gmap Z entry).
Definition entry_at (lpm : da_table) (i : Z) : entry := default (Entry 0 0) (lpm !! i).
Definition in_table (i : Z) : bool := (0 <=? i) && (i <? Z.shiftl 1 LONGEST_PREFIX).

(** [(1 << (sizeof(ip) * 8 - prefix_len)) - 1]: the shift is one of an [int], and the
    subtraction must not overflow. *)
Definition host_mask (prefix_len : Z) : result Z :=
  if (2 <=? prefix_len) && (prefix_len <=? 32) then Ret (Z.shiftl 1 (32 - prefix_len) - 1) else Stop MemError.
Fixpoint fill (n : nat) (i prefix_len port : Z) (lpm : da_table) : result da_table :=
  match n with
  | O => Ret lpm
  | S n =>
      if in_table i then
        fill n (i + 1) prefix_len port
          (if e_prefix_len (entry_at lpm i) <=? prefix_len then <[i := Entry port prefix_len]> lpm else lpm)
      else Stop MemError
  end.
Definition da_set_prefix_port (ip prefix_len port : Z) : M da_table Z := fun lpm =>
  if LONGEST_PREFIX <? prefix_len then Ret (-1, lpm)
  else
    mask ← host_mask prefix_len;
    let lo := Z.shiftr (Z.land ip (u32 (Z.lnot mask))) (32 - LONGEST_PREFIX) in
    let hi := Z.shiftr (Z.lor ip mask) (32 - LONGEST_PREFIX) in
    lpm ← fill (Z.to_nat (hi + 1 - lo)) lo prefix_len port lpm;
    Ret (0, lpm).
Definition da_get_ip_port (lpm : da_table) (ip : Z) : result (Z * Z) :=
  let i := Z.shiftr ip (32 - LONGEST_PREFIX) in
  if in_table i then Ret (0, u32 (e_port (entry_at lpm i))) else Stop MemError.
#[export] Instance da_lpm : LpmTable da_table :=
  {| lpm_set_prefix_port := da_set_prefix_port; lpm_get_ip_port := da_get_ip_port |}.
End Lpm.

(** * Routes *)
Module Routes.
Import Lpm.

(** A rule, and the rule of an address: the longest of those whose prefix the address has,
    the last one of several. *)
Record rule : Type := Rule { r_ip : Z; r_len : Z; r_port : Z }.
Definition covers (ip : Z) (r : rule) : bool := Z.shiftr ip (32 - r_len r) =? Z.shiftr (r_ip r) (32 - r_len r).
Definition better (ip : Z) (best : option rule) (r : rule) : option rule :=
  if covers ip r && match best with Some b => r_len b <=? r_len r | None => true end then Some r else best.
Definition route (rules : list rule) (ip : Z) : option rule := foldl (better ip) None rules.

Definition ip_ok (ip : Z) : Prop := 0 <= ip < 2 ^ 32.
Definition rule_ok (r : rule) : Prop := ip_ok (r_ip r) /\ 0 <= r_len r <= 32 /\ 0 <= r_port r < 2 ^ 31.

Lemma route_snoc rules r ip : route (rules ++ [r]) ip = better ip (route rules ip) r.
Proof. unfold route. by rewrite foldl_app. Qed.
Lemma route_some rules ip r :
  route rules ip = Some r -> r ∈ rules /\ covers ip r = true /\ forall r', r' ∈ rules -> covers ip r' = true -> r_len r' <= r_len r.
Proof.
  revert r. induction rules as [|x rules IH] using rev_ind; [done|]. intros r. rewrite route_snoc. unfold better.
  assert (Hx : forall y, y ∈ rules ++ [x] <-> y ∈ rules \/ y = x) by (intros; by rewrite elem_of_app, list_elem_of_singleton).
  setoid_rewrite Hx. destruct (covers ip x) eqn:Ex; cbn [andb].
  - destruct (route rules ip) as [b|] eqn:Eb.
    + destruct (IH b eq_refl) as (H1 & H2 & H3). destruct (Z.leb_spec (r_len b) (r_len x)); intros [= <-].
      * split_and!; [by right|done|]. intros r' [Hr| ->] Hc; [|done]. pose proof (H3 r' Hr Hc). lia.
      * split_and!; [by left|done|]. intros r' [Hr| ->] Hc; [by apply H3|lia].
    + intros [= <-]. split_and!; [by right|done|]. intros r' [Hr| ->] Hc; [|done]. exfalso. clear IH. revert Eb Hr Hc. clear.
      intros Eb Hr Hc. induction rules as [|x rules IH] using rev_ind; [by apply not_elem_of_nil in Hr|].
      rewrite route_snoc in Eb. unfold better in Eb. destruct (route rules ip); [by destruct (_ && _)|].
      apply elem_of_app in Hr as [Hr|Hr]; [apply IH; [by destruct (_ && _)|done]|].
      apply list_elem_of_singleton in Hr as ->. by rewrite Hc in Eb.
  - intros H. destruct (IH r H) as (H1 & H2 & H3). split_and!; [by left|done|]. intros r' [Hr| ->] Hc; [by apply H3|congruence].
Qed.
Lemma route_none rules ip : route rules ip = None <-> forall r, r ∈ rules -> covers ip r = false.
Proof.
  induction rules as [|x rules IH] using rev_ind; [split; [intros _ r Hr; by apply not_elem_of_nil in Hr|done]|].
  rewrite route_snoc. unfold better. split.
  - intros H r Hr. apply elem_of_app in Hr as [Hr|Hr].
    + destruct (route rules ip); [by destruct (_ && _)|]. by apply IH.
    + apply list_elem_of_singleton in Hr as ->. destruct (covers ip x); [|done]. by destruct (route rules ip); [destruct (_ <=? _)|].
  - intros H. rewrite (proj2 IH) by (intros; apply H, elem_of_app; by left).
    by rewrite (H x) by (apply elem_of_app; right; by apply list_elem_of_singleton).
Qed.

(** ** Prefixes as bits *)
(** The [n] bits of an address from position [pos] on. *)
Definition path_from (ip pos : Z) (n : nat) : list bool := (fun i => Z.testbit ip (31 - pos - Z.of_nat i)) <$> seq 0 n.
Definition rule_path (r : rule) : list bool := path_from (r_ip r) 0 (Z.to_nat (r_len r)).
Lemma path_S ip pos n : path_from ip pos (S n) = Z.testbit ip (31 - pos) :: path_from ip (pos + 1) n.
Proof.
  unfold path_from. cbn [seq fmap list_fmap]. f_equal; [f_equal; lia|]. rewrite <- seq_shift.
  change (map S (seq 0 n)) with (S <$> seq 0 n). rewrite <- list_fmap_compose. apply list_fmap_ext. intros i x _. simpl. f_equal. lia.
Qed.
Lemma length_path ip pos n : length (path_from ip pos n) = n.
Proof. unfold path_from. by rewrite length_fmap, length_seq. Qed.
Lemma path_eq ip ip' n : ip_ok ip -> ip_ok ip' -> 0 <= n <= 32 ->
  path_from ip 0 (Z.to_nat n) = path_from ip' 0 (Z.to_nat n) <-> Z.shiftr ip (32 - n) = Z.shiftr ip' (32 - n).
Proof.
  intros H1 H2 Hn. split.
  - intros E. apply Z.bits_inj'. intros i Hi. rewrite !Z.shiftr_spec by done.
    destruct (Z_lt_le_dec i n) as [Hlt|Hge]; [|rewrite !(testbit_high 32) by (lia || done); done].
    assert (Ei : forall a, path_from a 0 (Z.to_nat n) !! Z.to_nat (n - 1 - i) = Some (Z.testbit a (i + (32 - n)))).
    { intros a. unfold path_from. rewrite list_lookup_fmap, lookup_seq_lt by lia. simpl. do 2 f_equal. lia. }
    pose proof (Ei ip) as E1. rewrite E, Ei in E1. by injection E1.
  - intros E. unfold path_from. apply list_fmap_ext. intros k x [-> Hk]%lookup_seq.
    assert (Et : Z.testbit (Z.shiftr ip (32 - n)) (n - 1 - Z.of_nat k) = Z.testbit (Z.shiftr ip' (32 - n)) (n - 1 - Z.of_nat k)) by (by rewrite E).
    rewrite !Z.shiftr_spec in Et by lia. replace (31 - 0 - Z.of_nat (0 + k)) with (n - 1 - Z.of_nat k + (32 - n)) by lia. exact Et.
Qed.
Lemma covers_path ip r : ip_ok ip -> rule_ok r -> covers ip r = true <-> path_from ip 0 (Z.to_nat (r_len r)) = rule_path r.
Proof. intros H1 (H2 & H3 & _). unfold covers, rule_path. rewrite path_eq by done. apply Z.eqb_eq. Qed.

(** The rule of an address is the only one of its length, when no two rules have a prefix. *)
Definition distinct (rules : list rule) : Prop := NoDup (rule_path <$> rules).
Lemma route_unique rules ip r :
  ip_ok ip -> Forall rule_ok rules -> distinct rules -> r ∈ rules -> covers ip r = true ->
  (forall r', r' ∈ rules -> covers ip r' = true -> r_len r' <= r_len r) -> route rules ip = Some r.
Proof.
  intros Hip Hok Hd Hr Hc Hmax. rewrite list.Forall_forall in Hok. destruct (route rules ip) as [b|] eqn:Eb.
  - apply route_some in Eb as (H1 & H2 & H3). f_equal. pose proof (H3 r Hr Hc). pose proof (Hmax b H1 H2).
    assert (El : r_len b = r_len r) by lia. apply list_elem_of_lookup in H1 as [i Hi], Hr as [j Hj].
    assert (i = j) as <-; [|congruence]. apply (NoDup_lookup _ _ _ (rule_path b) Hd); rewrite list_lookup_fmap; [by rewrite Hi|].
    rewrite Hj. simpl. f_equal. apply covers_path in Hc; [|done|apply Hok; by eapply list_elem_of_lookup_2].
    apply covers_path in H2; [|done|apply Hok; by eapply list_elem_of_lookup_2]. by rewrite <- Hc, <- H2, El.
  - rewrite route_none in Eb. by rewrite Eb in Hc.
Qed.
End Routes.

(** * The trie *)
Module Btrie.
Import Lpm Routes.

(** The port at the end of a path. *)
Fixpoint port_at (t : prefix_node) (q : list bool) : Z :=
  match t, q with
  | NULL, _ => NULL_PORT
  | Node _ _ p, [] => p
  | Node c0 c1 _, b :: q => port_at (if b then c1 else c0) q
  end.
Lemma nz_bit ip k : 0 <= k < 32 -> nz (Z.land ip (u32 (Z.shiftl 1 k))) = Z.testbit ip k.
Proof.
  intros Hk. rewrite Z.shiftl_1_l, u32_small by (split; [lia|]; change 4294967296 with (2 ^ 32); apply Z.pow_lt_mono_r; lia).
  destruct (Z.testbit ip k) eqn:E.
  - apply nz_true. intros H. apply (f_equal (fun z => Z.testbit z k)) in H.
    rewrite Z.land_spec, Z.pow2_bits_true, E, Z.bits_0 in H by lia. done.
  - apply nz_false, Z.bits_inj'. intros i Hi. rewrite Z.land_spec, Z.bits_0, Z.pow2_bits_eqb by lia.
    destruct (Z.eqb_spec k i) as [<-|]; [by rewrite E|by rewrite andb_false_r].
Qed.
Lemma ip_bit_ok ip pos : 0 <= pos < 32 -> ip_bit ip pos = Ret (Z.testbit ip (31 - pos)).
Proof.
  intros Hp. unfold ip_bit. rewrite (proj2 (Z.leb_le 0 (32 - pos - 1))), (proj2 (Z.ltb_lt (32 - pos - 1) 32)) by lia.
  simpl. rewrite nz_bit by lia. do 2 f_equal. lia.
Qed.

(** Setting the port of a path that has none. *)
Lemma btrie_set_ok ip n port : forall pos t, 0 <= pos -> pos + Z.of_nat n <= 32 ->
  exists t', btrie_set ip pos n port t = Ret (if port_at t (path_from ip pos n) =? NULL_PORT then 0 else -1, t') /\
    forall q, port_at t' q =
      if bool_decide (q = path_from ip pos n) && (port_at t (path_from ip pos n) =? NULL_PORT) then port else port_at t q.
Proof.
  assert (Hnull : forall q, port_at (Node NULL NULL NULL_PORT) q = port_at NULL q) by (intros [|[] q]; done).
  induction n as [|n IH]; intros pos t Hp Hn.
  - change (path_from ip pos 0) with (@nil bool). destruct t as [|c0 c1 p]; cbn [btrie_set port_at].
    + eexists. split; [done|]. intros [|b q]; [done|]. rewrite bool_decide_eq_false_2 by done. simpl. by destruct b.
    + destruct (Z.eqb_spec p NULL_PORT) as [->|Hne]; (eexists; split; [done|]); intros [|b q]; try done;
        rewrite bool_decide_eq_false_2 by done; done.
  - rewrite path_S. cbn [btrie_set]. rewrite ip_bit_ok by lia. set (t0 := match t with NULL => Node NULL NULL NULL_PORT | _ => t end).
    assert (E0 : forall q, port_at t q = port_at t0 q) by (intros q; unfold t0; destruct t; [by rewrite Hnull|done]).
    rewrite !E0. setoid_rewrite E0. destruct t0 as [|c0 c1 p] eqn:Et; [by destruct t|].
    replace (match t with NULL => (NULL, NULL, NULL_PORT) | Node c0 c1 p => (c0, c1, p) end) with (c0, c1, p)
      by (destruct t; by injection Et as -> -> ->).
    cbn [mbind result_bind port_at]. clear t E0 Et t0. destruct (Z.testbit ip (31 - pos)).
    + destruct (IH (pos + 1) c1) as (t' & -> & Ht); [lia|lia|]. cbn [mbind result_bind fst snd]. eexists. split; [done|].
      intros [|[] q]; cbn [port_at]; [done| |by rewrite bool_decide_eq_false_2]. rewrite Ht.
      by rewrite (bool_decide_ext (true :: q = true :: path_from ip (pos + 1) n) (q = path_from ip (pos + 1) n)) by (split; congruence).
    + destruct (IH (pos + 1) c0) as (t' & -> & Ht); [lia|lia|]. cbn [mbind result_bind fst snd]. eexists. split; [done|].
      intros [|[] q]; cbn [port_at]; [done|by rewrite bool_decide_eq_false_2|]. rewrite Ht.
      by rewrite (bool_decide_ext (false :: q = false :: path_from ip (pos + 1) n) (q = path_from ip (pos + 1) n)) by (split; congruence).
Qed.

(** The lookup: the last port along the bits of the address. *)
Definition last_port (ip pos : Z) (k : nat) (port : Z) (t : prefix_node) : Z :=
  foldl (fun acc i => let p := port_at t (path_from ip pos i) in if p =? NULL_PORT then acc else p) port (seq 0 k).
Lemma foldl_null ip pos l : forall port, foldl (fun acc i => let p := port_at NULL (path_from ip pos i) in if p =? NULL_PORT then acc else p) port l = port.
Proof. induction l as [|i l IH]; intros port; [done|apply IH]. Qed.
Lemma btrie_get_ok ip k : forall port t, (k <= 32)%nat -> btrie_get k ip port t = last_port ip (32 - Z.of_nat k) k port t.
Proof.
  induction k as [|k IH]; intros port t Hk; [by destruct t|]. destruct t as [|c0 c1 p]; [symmetry; apply foldl_null|].
  cbn [btrie_get]. rewrite nz_bit, IH by lia. unfold last_port. cbn [seq foldl].
  change (path_from ip (32 - Z.of_nat (S k)) 0) with (@nil bool). cbn [port_at]. rewrite <- seq_shift.
  generalize (if p =? NULL_PORT then port else p). generalize (seq 0 k). intros l. induction l as [|i l IHl]; intros acc; [done|].
  cbn [List.map foldl]. rewrite path_S. cbn [port_at]. replace (31 - (32 - Z.of_nat (S k))) with (Z.of_nat k) by lia.
  replace (32 - Z.of_nat (S k) + 1) with (32 - Z.of_nat k) by lia. apply IHl.
Qed.

(** ** The rules of a trie *)
Definition port_of (rules : list rule) (q : list bool) : Z :=
  match List.find (fun r => bool_decide (rule_path r = q)) rules with Some r => r_port r | None => NULL_PORT end.
Record holds (rules : list rule) (t : prefix_node) : Prop := {
  ho_ok : Forall rule_ok rules;
  ho_distinct : distinct rules;
  ho_port q : port_at t q = port_of rules q
}.
Lemma trie_holds_create : holds [] btrie_create.
Proof. split; [done|apply NoDup_nil_2|]. by intros [|]. Qed.
Lemma port_of_rule rules r : distinct rules -> r ∈ rules -> port_of rules (rule_path r) = r_port r.
Proof.
  unfold port_of. intros Hd Hr. destruct (List.find _ rules) as [b|] eqn:E.
  - apply find_some in E as [Hb E%bool_decide_eq_true]. apply list_elem_of_In in Hb. f_equal.
    apply list_elem_of_lookup in Hb as [i Hi], Hr as [j Hj]. assert (i = j) as <-; [|congruence].
    apply (NoDup_lookup _ _ _ (rule_path b) Hd); rewrite list_lookup_fmap; [by rewrite Hi|]. rewrite Hj. simpl. by rewrite E.
  - apply list_elem_of_In in Hr. pose proof (find_none _ _ E _ Hr) as H. simpl in H. by rewrite bool_decide_eq_true_2 in H.
Qed.
Lemma port_of_null rules q : Forall rule_ok rules -> port_of rules q = NULL_PORT <-> q ∉ rule_path <$> rules.
Proof.
  unfold port_of. intros Hok. rewrite list.Forall_forall in Hok. destruct (List.find _ rules) as [r|] eqn:E.
  - apply find_some in E as [Hr E%bool_decide_eq_true]. apply list_elem_of_In in Hr. destruct (Hok r Hr) as (_ & _ & Hp).
    split; [unfold NULL_PORT; lia|]. intros H. destruct H. rewrite <- E. by apply list_elem_of_fmap_2.
  - split; [|done]. intros _ (r & -> & Hr)%list_elem_of_fmap. apply list_elem_of_In in Hr.
    pose proof (find_none _ _ E _ Hr) as H. simpl in H. by rewrite bool_decide_eq_true_2 in H.
Qed.

Lemma port_of_snoc rules r q : rule_path r ∉ rule_path <$> rules ->
  port_of (rules ++ [r]) q = if bool_decide (q = rule_path r) then r_port r else port_of rules q.
Proof.
  unfold port_of. induction rules as [|x rules IH]; intros E; simpl.
  - rewrite (bool_decide_ext (q = rule_path r) (rule_path r = q)) by (split; congruence). by destruct (bool_decide _).
  - destruct (decide (rule_path x = q)) as [H1|H1].
    + rewrite (bool_decide_eq_true_2 _ H1), bool_decide_eq_false_2; [done|]. intros H2. apply E. rewrite <- H2, <- H1. left.
    + rewrite (bool_decide_eq_false_2 _ H1). apply IH. intros H. apply E. by right.
Qed.

(** A rule is added, unless there is one for its prefix. *)
Lemma trie_set_holds rules t r : holds rules t -> rule_ok r ->
  exists t', btrie_set_prefix_port (r_ip r) (r_len r) (r_port r) t =
      Ret (if bool_decide (rule_path r ∈ rule_path <$> rules) then -1 else 0, t') /\
    holds (if bool_decide (rule_path r ∈ rule_path <$> rules) then rules else rules ++ [r]) t'.
Proof.
  intros [Hok Hd Hp] Hr. destruct (Hr) as (H1 & H2 & H3). unfold btrie_set_prefix_port. rewrite (proj2 (Z.ltb_ge _ _)) by lia.
  destruct (btrie_set_ok (r_ip r) (Z.to_nat (r_len r)) (r_port r) 0 t) as (t' & -> & Ht); [done|lia|]. fold (rule_path r) in *.
  rewrite Hp in Ht. rewrite Hp. exists t'. case_bool_decide as E.
  - assert (Hn : (port_of rules (rule_path r) =? NULL_PORT) = false) by (apply Z.eqb_neq; rewrite port_of_null by done; tauto).
    rewrite Hn in *. split; [done|]. split; [done|done|]. intros q. by rewrite Ht, andb_false_r.
  - assert (Hn : (port_of rules (rule_path r) =? NULL_PORT) = true) by (by apply Z.eqb_eq; rewrite port_of_null).
    rewrite Hn in *. split; [done|]. split.
    + apply Forall_app. split; [done|by constructor].
    + unfold distinct. rewrite fmap_app. apply list.NoDup_app. split_and!; [done| |apply NoDup_singleton].
      intros q Hq Hq'. apply (list_elem_of_singleton q (rule_path r)) in Hq' as ->. done.
    + intros q. by rewrite Ht, andb_true_r, port_of_snoc, Hp.
Qed.

(** ** The answer *)
Definition short (r : rule) : bool := r_len r <=? 31.
Lemma last_port_spec rules t ip k : ip_ok ip -> holds rules t -> (k <= 33)%nat ->
  (last_port ip 0 k NULL_PORT t = NULL_PORT /\ forall r, r ∈ rules -> covers ip r = true -> Z.of_nat k <= r_len r) \/
  exists r, r ∈ rules /\ covers ip r = true /\ r_len r < Z.of_nat k /\ last_port ip 0 k NULL_PORT t = r_port r /\
    forall r', r' ∈ rules -> covers ip r' = true -> r_len r' < Z.of_nat k -> r_len r' <= r_len r.
Proof.
  intros Hip Ht. destruct (Ht) as [Hok Hd Hp]. rewrite list.Forall_forall in Hok. unfold last_port.
  induction k as [|k IH]; intros Hk.
  { left. split; [done|]. intros r Hr _. destruct (Hok r Hr) as (_ & ? & _). lia. }
  rewrite seq_S, foldl_app. cbn [foldl plus]. set (p := foldl _ _ (seq 0 k)) in *. specialize (IH ltac:(lia)). cbn zeta. rewrite Hp.
  assert (Hlen : forall r, r ∈ rules -> covers ip r = true -> r_len r = Z.of_nat k -> path_from ip 0 k = rule_path r).
  { intros r Hr Hc El. apply covers_path in Hc; [|done|by apply Hok]. rewrite <- Hc, El. by rewrite Nat2Z.id. }
  destruct (Z.eqb_spec (port_of rules (path_from ip 0 k)) NULL_PORT) as [En|En].
  - apply port_of_null in En; [|apply list.Forall_forall, Hok].
    assert (Hno : forall r, r ∈ rules -> covers ip r = true -> r_len r <> Z.of_nat k).
    { intros r Hr Hc El. apply En. rewrite (Hlen r Hr Hc El). by apply list_elem_of_fmap_2. }
    destruct IH as [[H1 H2]|(r & H1 & H2 & H3 & H4 & H5)].
    + left. split; [done|]. intros r Hr Hc. pose proof (H2 r Hr Hc). pose proof (Hno r Hr Hc). lia.
    + right. exists r. split_and!; [done|done|lia|done|]. intros r' Hr' Hc' Hl'. apply H5; [done|done|]. pose proof (Hno r' Hr' Hc'). lia.
  - right. destruct (decide (path_from ip 0 k ∈ rule_path <$> rules)) as [Hin|Hno].
    2:{ exfalso. apply En, port_of_null; [apply list.Forall_forall, Hok|done]. }
    apply list_elem_of_fmap in Hin as (r & E & Hr). assert (El : r_len r = Z.of_nat k).
    { apply (f_equal length) in E. unfold rule_path in E. rewrite !length_path in E. destruct (Hok r Hr) as (_ & ? & _). lia. }
    exists r. split_and!; [done| |lia| |intros; lia].
    + apply covers_path; [done|by apply Hok|]. by rewrite <- E, El, Nat2Z.id.
    + rewrite E. by apply port_of_rule.
Qed.
Lemma distinct_filter f rules : distinct rules -> distinct (List.filter f rules).
Proof.
  unfold distinct. induction rules as [|r rules IH]; [done|]. simpl. intros [H1 H2]%list.NoDup_cons. destruct (f r); [|by apply IH].
  simpl. apply list.NoDup_cons. split; [|by apply IH]. intros (x & Ex & Hx)%list_elem_of_fmap. apply H1. rewrite Ex.
  apply list_elem_of_fmap_2. apply list_elem_of_In, filter_In in Hx as [Hx _]. by apply list_elem_of_In.
Qed.
Lemma short_elem r rules : r ∈ List.filter short rules <-> r ∈ rules /\ r_len r <= 31.
Proof. rewrite !list_elem_of_In, filter_In. unfold short. by rewrite Z.leb_le. Qed.

(** The answer is the route among the rules of at most 31 bits: the trie is not looked at
    below its level 31. *)
Lemma trie_get_holds rules t ip : ip_ok ip -> holds rules t ->
  btrie_get_ip_port t ip = Ret match route (List.filter short rules) ip with Some r => (0, r_port r) | None => (-1, 0) end.
Proof.
  intros Hip Ht. unfold btrie_get_ip_port. rewrite btrie_get_ok by lia. change (32 - Z.of_nat 32) with 0. f_equal.
  destruct (Ht) as [Hok Hd _]. assert (Hoks : Forall rule_ok (List.filter short rules)).
  { rewrite list.Forall_forall in *. intros r Hr%short_elem. apply Hok, Hr. }
  destruct (last_port_spec rules t ip 32 Hip Ht ltac:(lia)) as [[-> Hno]|(r & H1 & H2 & H3 & -> & H5)].
  - rewrite Z.eqb_refl. rewrite (proj2 (route_none _ ip)); [done|]. intros r [Hr Hl]%short_elem. apply not_true_is_false. intros Hc.
    pose proof (Hno r Hr Hc). lia.
  - assert (Hrs : r ∈ List.filter short rules) by (apply short_elem; split; [done|lia]).
    rewrite (route_unique _ ip r); [|done|done|by apply distinct_filter|done|done|].
    + rewrite list.Forall_forall in Hok. destruct (Hok r H1) as (_ & _ & Hport). rewrite (proj2 (Z.eqb_neq _ _)) by (unfold NULL_PORT; lia).
      by rewrite u32_small by lia.
    + intros r' [Hr' Hl']%short_elem Hc. apply H5; [done|done|lia].
Qed.
End Btrie.

(** * The flat table *)
Module Da.
Import Lpm Routes.

Lemma fill_ok n len port : forall i lpm, 0 <= i -> i + Z.of_nat n <= 2 ^ 27 ->
  exists lpm', fill n i len port lpm = Ret lpm' /\ forall j, entry_at lpm' j =
    if (i <=? j) && (j <? i + Z.of_nat n) && (e_prefix_len (entry_at lpm j) <=? len) then Entry port len else entry_at lpm j.
Proof.
  induction n as [|n IH]; intros i lpm Hi Hn.
  { exists lpm. split; [done|]. intros j. destruct (Z.leb_spec i j), (Z.ltb_spec j (i + Z.of_nat 0)); (lia || done). }
  cbn [fill]. unfold in_table. rewrite (proj2 (Z.leb_le 0 i)), (proj2 (Z.ltb_lt i _)) by (change (Z.shiftl 1 LONGEST_PREFIX) with (2 ^ 27); lia).
  cbn [andb]. set (lpm1 := if _ <=? len then _ else _). destruct (IH (i + 1) lpm1) as (lpm' & -> & He); [lia|lia|].
  exists lpm'. split; [done|]. intros j. rewrite He.
  assert (E1 : entry_at lpm1 j = if (j =? i) && (e_prefix_len (entry_at lpm j) <=? len) then Entry port len else entry_at lpm j).
  { unfold lpm1. destruct (Z.eqb_spec j i) as [->|Hne]; simpl.
    - destruct (_ <=? len); [|done]. unfold entry_at. by rewrite lookup_insert, decide_True.
    - destruct (_ <=? len); [|done]. unfold entry_at. by rewrite lookup_insert_ne. }
  rewrite E1. clear E1. destruct (Z.eqb_spec j i) as [->|Hne]; simpl.
  - rewrite (proj2 (Z.leb_gt (i + 1) i)), Z.leb_refl, (proj2 (Z.ltb_lt i (i + Z.of_nat (S n)))) by lia. done.
  - replace (i + Z.of_nat (S n)) with (i + 1 + Z.of_nat n) by lia.
    destruct (Z.leb_spec (i + 1) j), (Z.leb_spec i j); (lia || done).
Qed.

(** ** The entries of a prefix *)
Lemma host_mask_ones k : Z.shiftl 1 k - 1 = Z.ones k.
Proof. unfold Z.ones. lia. Qed.
Lemma network_part ip k : ip_ok ip -> 0 <= k <= 32 -> Z.land ip (u32 (Z.lnot (Z.ones k))) = Z.shiftl (Z.shiftr ip k) k.
Proof.
  intros Hip Hk. apply Z.bits_inj'. intros i Hi. rewrite Z.land_spec, u32_bit, Z.lnot_spec, Z.shiftl_spec by done.
  destruct (Z.ltb_spec i 32) as [H32|H32].
  - destruct (Z_lt_le_dec i k) as [Hlt|Hge].
    + rewrite Z.ones_spec_low by lia. rewrite (Z.testbit_neg_r _ (i - k)) by lia. by rewrite andb_false_r.
    + rewrite Z.ones_spec_high by lia. rewrite Z.shiftr_spec by lia. rewrite andb_true_r. f_equal. lia.
  - rewrite andb_false_r. symmetry. destruct (Z_lt_le_dec i k) as [Hlt|Hge]; [lia|]. rewrite Z.shiftr_spec by lia.
    apply (testbit_high 32); [done|lia].
Qed.
Lemma last_address ip k : 0 <= k -> Z.lor ip (Z.ones k) = Z.shiftl (Z.shiftr ip k) k + Z.ones k.
Proof.
  intros Hk. transitivity (Z.lor (Z.shiftl (Z.shiftr ip k) k) (Z.ones k)).
  - apply Z.bits_inj'. intros i Hi. rewrite !Z.lor_spec, Z.shiftl_spec by done. destruct (Z_lt_le_dec i k) as [Hlt|Hge].
    + rewrite Z.ones_spec_low by lia. by rewrite !orb_true_r.
    + rewrite Z.shiftr_spec by lia. do 2 f_equal. lia.
  - assert (E0 : Z.land (Z.shiftl (Z.shiftr ip k) k) (Z.ones k) = 0).
    { apply Z.bits_inj'. intros i Hi. rewrite Z.land_spec, Z.shiftl_spec, Z.bits_0 by done. destruct (Z_lt_le_dec i k) as [Hlt|Hge].
      + by rewrite (Z.testbit_neg_r _ (i - k)) by lia.
      + rewrite Z.ones_spec_high by lia. apply andb_false_r. }
    rewrite <- Z.add_lor_land, E0. lia.
Qed.
Definition da_rule (r : rule) : Prop := ip_ok (r_ip r) /\ 2 <= r_len r <= 27 /\ 0 <= r_port r < 2 ^ 31.
Lemma range_ok ip len : ip_ok ip -> 2 <= len <= 27 ->
  exists lo, Z.shiftr (Z.land ip (u32 (Z.lnot (Z.ones (32 - len))))) 5 = lo /\
    Z.shiftr (Z.lor ip (Z.ones (32 - len))) 5 = lo + 2 ^ (27 - len) - 1 /\
    0 <= lo /\ lo + 2 ^ (27 - len) <= 2 ^ 27 /\
    forall x, ip_ok x -> (lo <=? Z.shiftr x 5) && (Z.shiftr x 5 <? lo + 2 ^ (27 - len)) = (Z.shiftr x (32 - len) =? Z.shiftr ip (32 - len)).
Proof.
  intros Hip Hl. unfold ip_ok in *. rewrite network_part, last_address by (done || lia).
  rewrite !Z.shiftr_div_pow2, Z.shiftl_mul_pow2, Z.ones_equiv by lia. change (2 ^ 5) with 32.
  set (m := 2 ^ (27 - len)). assert (Hm : 0 < m) by (apply Z.pow_pos_nonneg; lia).
  assert (Ek : 2 ^ (32 - len) = 32 * m) by (replace (32 - len) with (5 + (27 - len)) by lia; unfold m; by rewrite Z.pow_add_r by lia).
  rewrite Ek. set (a := ip / (32 * m)). exists (a * m).
  assert (E27 : m * 2 ^ len = 2 ^ 27) by (unfold m; rewrite <- Z.pow_add_r by lia; f_equal; lia).
  assert (Ha : 0 <= a) by (apply Z.div_pos; lia).
  assert (Ha' : a < 2 ^ len) by (apply Z.div_lt_upper_bound; [lia|]; change (2 ^ 32) with (32 * 2 ^ 27) in Hip; nia).
  split; [rewrite (Z.mul_comm 32 m), Z.mul_assoc; apply Z.div_mul; lia|]. split.
  { rewrite (Z.mul_comm 32 m), Z.mul_assoc, Z.add_pred_r, <- Z.sub_1_r. symmetry. apply (Z.div_unique _ _ _ 31); [lia|]. ring. }
  split; [nia|]. split; [nia|]. intros x Hx. rewrite !Z.shiftr_div_pow2 by lia. rewrite Ek. change (2 ^ 5) with 32.
  fold a. rewrite <- (Z.div_div x 32 m) by lia. set (y := x / 32).
  pose proof (Z.div_mod y m ltac:(lia)) as E. pose proof (Z.mod_pos_bound y m Hm) as B. set (q := y / m) in *.
  destruct (Z.eqb_spec q a) as [Eq|Hne].
  - rewrite (proj2 (Z.leb_le (a * m) y)), (proj2 (Z.ltb_lt y (a * m + m))) by nia. done.
  - apply not_true_is_false. intros [H1%Z.leb_le H2%Z.ltb_lt]%andb_true_iff. apply Hne. nia.
Qed.

(** ** The rules of a table *)
Record holds (rules : list rule) (lpm : da_table) : Prop := {
  ho_ok : Forall da_rule rules;
  ho_entry ip : ip_ok ip -> entry_at lpm (Z.shiftr ip 5) =
    match route rules ip with Some r => Entry (r_port r) (r_len r) | None => Entry 0 0 end
}.
Lemma flat_holds_create : holds [] ∅.
Proof. split; [done|]. intros ip _. unfold entry_at. by rewrite lookup_empty. Qed.
Lemma flat_set_holds rules lpm r : holds rules lpm -> da_rule r ->
  exists lpm', da_set_prefix_port (r_ip r) (r_len r) (r_port r) lpm = Ret (0, lpm') /\ holds (rules ++ [r]) lpm'.
Proof.
  intros [Hok He] Hr. destruct (Hr) as (H1 & H2 & H3). unfold da_set_prefix_port, host_mask.
  rewrite (proj2 (Z.ltb_ge LONGEST_PREFIX (r_len r))) by (unfold LONGEST_PREFIX; lia).
  rewrite (proj2 (Z.leb_le 2 (r_len r))), (proj2 (Z.leb_le (r_len r) 32)) by lia. cbn [andb mbind result_bind].
  rewrite host_mask_ones. change (32 - LONGEST_PREFIX) with 5.
  destruct (range_ok (r_ip r) (r_len r) H1 H2) as (lo & -> & -> & Hlo & Hhi & Hin).
  destruct (fill_ok (Z.to_nat (lo + 2 ^ (27 - r_len r) - 1 + 1 - lo)) (r_len r) (r_port r) lo lpm) as (lpm' & -> & Hf); [done|lia|].
  exists lpm'. split; [done|]. split; [apply Forall_app; split; [done|by constructor]|]. intros ip Hip. rewrite Hf.
  replace (lo + Z.of_nat (Z.to_nat (lo + 2 ^ (27 - r_len r) - 1 + 1 - lo))) with (lo + 2 ^ (27 - r_len r)) by lia.
  rewrite Hin by done. fold (covers ip r). rewrite route_snoc, He by done. unfold better. destruct (covers ip r); [|done]. cbn [andb].
  destruct (route rules ip) as [b|]; cbn [e_prefix_len]; [by destruct (_ <=? _)|]. by rewrite (proj2 (Z.leb_le 0 (r_len r))) by lia.
Qed.
Lemma flat_get_holds rules lpm ip : ip_ok ip -> holds rules lpm ->
  da_get_ip_port lpm ip = Ret (0, match route rules ip with Some r => r_port r | None => 0 end).
Proof.
  intros Hip [Hok He]. unfold da_get_ip_port. change (32 - LONGEST_PREFIX) with 5. unfold in_table, ip_ok in *.
  assert (0 <= Z.shiftr ip 5 < 2 ^ 27) as Hb.
  { rewrite Z.shiftr_div_pow2 by lia. split; [apply Z.div_pos; lia|]. apply Z.div_lt_upper_bound; lia. }
  rewrite (proj2 (Z.leb_le 0 _)), (proj2 (Z.ltb_lt _ (Z.shiftl 1 LONGEST_PREFIX))) by (change (Z.shiftl 1 LONGEST_PREFIX) with (2 ^ 27); lia).
  cbn [andb]. rewrite He by done. do 2 f_equal. destruct (route rules ip) as [r|] eqn:E; cbn [e_port]; [|done].
  apply route_some in E as (Hr & _). rewrite list.Forall_forall in Hok. destruct (Hok r Hr) as (_ & _ & ?). by rewrite u32_small by lia.
Qed.
End Da.

(** * The network function *)
Module LpmMain.
Import Packet Sample Lpm Routes.

(** ** What a table promises *)
(** It holds the rules that it has taken, in order, and answers with the port of an address. *)
Class TableOk (T : Type) `{LpmTable T} : Type := {
  start : T;
  holds : list rule -> T -> Prop;
  good_rule : rule -> Prop;
  takes : list rule -> rule -> bool;
  answer : list rule -> Z -> option Z;
  start_holds : holds [] start;
  set_holds rules t r : holds rules t -> good_rule r ->
    exists t', lpm_set_prefix_port (r_ip r) (r_len r) (r_port r) t = Ret (if takes rules r then 0 else -1, t') /\
      holds (if takes rules r then rules ++ [r] else rules) t';
  get_holds rules t ip : holds rules t -> ip_ok ip ->
    lpm_get_ip_port t ip = Ret match answer rules ip with Some p => (0, p) | None => (-1, 0) end;
  answer_nonneg rules t ip p : holds rules t -> answer rules ip = Some p -> 0 <= p
}.
#[export] Program Instance btrie_ok : TableOk prefix_node := {|
  start := btrie_create;
  holds := Btrie.holds;
  good_rule := rule_ok;
  takes rules r := negb (bool_decide (rule_path r ∈ rule_path <$> rules));
  answer rules ip := r_port <$> route (List.filter Btrie.short rules) ip
|}.
Next Obligation. exact Btrie.trie_holds_create. Qed.
Next Obligation.
  intros rules t r Ht Hr. destruct (Btrie.trie_set_holds rules t r Ht Hr) as (t' & E & Ht'). exists t'. cbn [lpm_set_prefix_port btrie_table].
  rewrite E. by destruct (bool_decide _).
Qed.
Next Obligation.
  intros rules t ip Ht Hip. cbn [lpm_get_ip_port btrie_table]. rewrite (Btrie.trie_get_holds rules t ip Hip Ht). by destruct (route _ ip).
Qed.
Next Obligation.
  intros rules t ip p Ht (r & Hr & ->)%fmap_Some. apply route_some in Hr as ([Hr _]%Btrie.short_elem & _).
  pose proof (Btrie.ho_ok _ _ Ht) as Hok. rewrite list.Forall_forall in Hok. destruct (Hok r Hr) as (_ & _ & ?). lia.
Qed.
Definition da_answer (rules : list rule) (ip : Z) : option Z := Some match route rules ip with Some r => r_port r | None => 0 end.
#[export] Program Instance da_ok : TableOk da_table := {|
  start := ∅;
  holds := Da.holds;
  good_rule r := ip_ok (r_ip r) /\ 2 <= r_len r /\ 0 <= r_port r < 2 ^ 31;
  takes rules r := r_len r <=? 27;
  answer := da_answer
|}.
Next Obligation. exact Da.flat_holds_create. Qed.
Next Obligation.
  intros rules t r Ht (H1 & H2 & H3). cbn [lpm_set_prefix_port da_lpm]. destruct (Z.leb_spec (r_len r) 27) as [Hl|Hl].
  - apply Da.flat_set_holds; [done|]. split_and!; (done || lia).
  - exists t. split; [|done]. unfold da_set_prefix_port. by rewrite (proj2 (Z.ltb_lt _ _)) by (unfold LONGEST_PREFIX; lia).
Qed.
Next Obligation. intros rules t ip Ht Hip. cbn [lpm_get_ip_port da_lpm]. by rewrite (Da.flat_get_holds rules t ip Hip Ht). Qed.
Next Obligation.
  intros rules t ip p Ht [= <-]. destruct (route rules ip) as [r|] eqn:Hr; [|done]. apply route_some in Hr as (Hr & _).
  pose proof (Da.ho_ok _ _ Ht) as Hok. rewrite list.Forall_forall in Hok. destruct (Hok r Hr) as (_ & _ & ?). lia.
Qed.

(** ** The behaviour of the program *)
Section Program.
Context `{Dpdk} (rte_be_to_cpu_32 : Z -> Z) (rte_eth_dev_count : Z).
Context (Hswap : forall x, 0 <= x < 2 ^ 32 -> ip_ok (rte_be_to_cpu_32 x)).
Context {T : Type} `{LT : LpmTable T} {OK : TableOk T}.

(** The rules of the file, and the ones in the table; [None] if one of them is not taken. *)
Definition wanted (x : line) : bool := (0 <=? asn x) && (asn x <=? rte_eth_dev_count).
Definition rule_of (x : line) : rule := Rule (rte_be_to_cpu_32 (l_ip x)) (depth x) (asn x).
Definition file_rules (l : list line) : list rule := rule_of <$> List.filter wanted (take (Z.to_nat LPM_MAX_RULES) l).
Fixpoint taken (rules new : list rule) : option (list rule) :=
  match new with [] => Some rules | r :: new => if takes (T := T) rules r then taken (rules ++ [r]) new else None end.

(** What happens to a packet: where it goes, if it goes anywhere else than back. *)
Definition hop (rules : list rule) (a : arrival) : Z :=
  if is_ipv4_b (a_mbuf a) (a_data a)
  then default (a_device a) (answer (T := T) rules (rte_be_to_cpu_32 (field (a_data a) 4 o_dst_addr))) else a_device a.
Definition readdressed (cfg : nf_config) (dst : Z) (m : mem) : mem :=
  write (write m o_s_addr (default [] (device_macs cfg !! Z.to_nat dst))) o_d_addr (default [] (endpoint_macs cfg !! Z.to_nat dst)).
Definition outcome (cfg : nf_config) (rules : list rule) (a : arrival) : result (option Z * mem) :=
  let dst := hop rules a in
  if dst =? a_device a then Ret (None, a_data a)
  else if u8 rte_eth_dev_count <=? dst then Stop (Exit EXIT_FAILURE)
  else Ret (Some dst, readdressed cfg dst (a_data a)).
Fixpoint outcomes (cfg : nf_config) (rules : list rule) (l : list arrival) : result (list (option Z * mem)) :=
  match l with [] => Ret [] | a :: l => r ← outcome cfg rules a; rs ← outcomes cfg rules l; Ret (r :: rs) end.

Definition config_ok (cfg : nf_config) : Prop :=
  0 <= rte_eth_dev_count < 2 ^ 31 /\
  (forall i, 0 <= i < u8 rte_eth_dev_count ->
     exists s d, device_macs cfg !! Z.to_nat i = Some s /\ endpoint_macs cfg !! Z.to_nat i = Some d /\ mac_ok s /\ mac_ok d).
Definition lines_ok (l : list line) : Prop := Forall (good_rule (T := T)) (file_rules l).

Lemma init_lpm_run l : forall count rules t, 0 <= count ->
  let new := rule_of <$> List.filter wanted (take (Z.to_nat (LPM_MAX_RULES - count)) l) in
  Forall (good_rule (T := T)) new -> holds rules t ->
  match taken rules new with
  | Some rules' => exists t', init_lpm rte_be_to_cpu_32 rte_eth_dev_count count l t = Ret (tt, t') /\ holds rules' t'
  | None => init_lpm rte_be_to_cpu_32 rte_eth_dev_count count l t = Stop (Exit EXIT_FAILURE)
  end.
Proof.
  cbn zeta. induction l as [|x l IH]; intros count rules t Hc Hl Ht; [rewrite take_nil; by exists t|]. cbn [init_lpm].
  destruct (Z.ltb_spec count LPM_MAX_RULES) as [Hlt|Hge].
  2:{ replace (Z.to_nat (LPM_MAX_RULES - count)) with 0%nat by lia. by exists t. }
  replace (Z.to_nat (LPM_MAX_RULES - count)) with (S (Z.to_nat (LPM_MAX_RULES - (count + 1)))) in * by lia.
  cbn [take List.filter] in *. assert (Ew : wanted x = negb ((asn x <? 0) || (rte_eth_dev_count <? asn x))).
  { unfold wanted. by rewrite negb_orb, <- Z.leb_antisym, <- Z.leb_antisym. }
  rewrite Ew in *. destruct ((asn x <? 0) || (rte_eth_dev_count <? asn x)); cbn [negb] in *.
  - rewrite (mbind_run _ _ _ _ _ (eq_refl : _ = Ret (tt, t))). apply IH; (done || lia).
  - cbn [fmap list_fmap taken] in *. apply Forall_cons_iff in Hl as [Hx Hl]. destruct (set_holds rules t (rule_of x) Ht Hx) as (t' & E & Ht').
    cbn [rule_of r_ip r_len r_port] in E. destruct (takes (T := T) rules (rule_of x)).
    + rewrite (mbind_run _ _ t tt t'); [apply IH; (done || lia)|]. by rewrite (mbind_run _ _ _ _ _ E).
    + apply mbind_stop. by rewrite (mbind_run _ _ _ _ _ E).
Qed.

Lemma dispatch_run cfg rules t a :
  config_ok cfg -> buffer (a_data a) -> holds rules t ->
  dispatch_packet rte_be_to_cpu_32 rte_eth_dev_count cfg (a_device a) t (a_mbuf a) (a_data a) =
    let dst := hop rules a in
    if dst =? a_device a then Ret (dst, a_data a)
    else if u8 rte_eth_dev_count <=? dst then Stop (Exit EXIT_FAILURE)
    else Ret (dst, readdressed cfg dst (a_data a)).
Proof.
  intros [Hn Hm] Hb Ht. unfold dispatch_packet, hop, lpm_get_dst_port. rewrite (mbind_run _ _ _ _ _ (is_ipv4_run (a_mbuf a) _ Hb)).
  destruct (is_ipv4_b _ _); [|by cbn zeta; rewrite Z.eqb_refl]. set (m := a_data a) in *.
  set (ip := rte_be_to_cpu_32 (field m 4 o_dst_addr)). assert (Hip : ip_ok ip) by (apply Hswap, (packet_field_range m 4), Hb).
  assert (El : (dst_addr ← load_int 4 o_dst_addr; r ← lift (lpm_get_ip_port t (rte_be_to_cpu_32 dst_addr)); mret (if nz r.1 then a_device a else r.2)) m
    = Ret (default (a_device a) (answer (T := T) rules ip), m)).
  { rewrite (mbind_run _ _ _ _ _ (load_field m 4 o_dst_addr ltac:(apply buffer_acc; [done|offsets..]))). fold ip.
    unfold lift, mbind, M_bind. rewrite (get_holds rules t ip Ht Hip). by destruct (answer rules ip). }
  rewrite (mbind_run _ _ _ _ _ El). cbn zeta. destruct (answer rules ip) as [dst|] eqn:Ea; cbn [default from_option id]; [|by rewrite Z.eqb_refl].
  apply (answer_nonneg rules t ip dst Ht) in Ea. destruct (Z.eqb_spec dst (a_device a)) as [|Hne]; [done|].
  destruct (Z.leb_spec (u8 rte_eth_dev_count) dst) as [|Hlt]; [done|]. destruct (Hm dst) as (s & d & Es & Ed & [Ls Fs] & [Ld Fd]); [lia|].
  unfold readdressed. rewrite Es, Ed. cbn [default from_option id].
  assert (Hb' : buffer (write m o_s_addr s)) by (by apply buffer_write).
  rewrite (mbind_run _ _ m tt (write (write m o_s_addr s) o_d_addr d)); [done|]. unfold set_macs. rewrite Es, Ed.
  unfold of_option, mret, M_ret, mbind, M_bind. rewrite (store_bytes_run m o_s_addr s); [|apply (buffer_acc m); [done|offsets|rewrite Ls; offsets]|done].
  apply store_bytes_run; [|done]. apply (buffer_acc _ _ _ Hb'); [offsets|rewrite Ld; offsets].
Qed.
Lemma run_outcomes cfg rules t l : config_ok cfg -> Forall (fun a => buffer (a_data a)) l -> holds rules t ->
  run rte_be_to_cpu_32 rte_eth_dev_count cfg t l = outcomes cfg rules l.
Proof.
  intros Hc Hl Ht. induction Hl as [|a l Ha Hl IH]; [done|]. cbn [run outcomes]. rewrite (dispatch_run cfg rules t a Hc Ha Ht), IH.
  unfold outcome. cbn zeta. destruct (Z.eqb_spec (hop rules a) (a_device a)) as [E|E].
  - unfold mbind, result_bind. cbn [fst snd]. by rewrite (proj2 (Z.eqb_eq _ _) E).
  - destruct (_ <=? _); [done|]. unfold mbind, result_bind. cbn [fst snd]. by rewrite (proj2 (Z.eqb_neq _ _) E).
Qed.

(** C20. The network function forwards by its table, with any table that keeps the promises
    of the interface, which takes or refuses a rule and answers an address from the rules it
    took: where a rule of the file is refused, the program ends while loading. Else every
    packet goes to the device that the table answers for its destination, with the addresses
    of that device's link and nothing else changed, or is dropped when the table has no
    answer, the answer is where it came from, or it is not IPv4; an answer that is no device
    ends the program. The answers of the two tables are the ones of [btrie_ok] (the longest
    prefix among the rules of at most 31 bits) and of [da_ok] (the longest prefix, and device
    0 where there is none). *)
Theorem lpm_forwards cfg (lines : list line) (arrivals : list arrival) :
  config_ok cfg -> lines_ok lines -> Forall (fun a => buffer (a_data a)) arrivals ->
  match taken [] (file_rules lines) with
  | None => init_lpm rte_be_to_cpu_32 rte_eth_dev_count 0 lines start = Stop (Exit EXIT_FAILURE)
  | Some rules => exists t, init_lpm rte_be_to_cpu_32 rte_eth_dev_count 0 lines start = Ret (tt, t) /\
      run rte_be_to_cpu_32 rte_eth_dev_count cfg t arrivals = outcomes cfg rules arrivals
  end.
Proof.
  intros Hc Hl Ha. pose proof (init_lpm_run lines 0 [] start ltac:(done) Hl start_holds) as Hi. rewrite Z.sub_0_r in Hi.
  unfold file_rules. destruct (taken [] _) as [rules|]; [|done]. destruct Hi as (t & E & Ht). exists t. split; [done|by apply run_outcomes].
Qed.
End Program.

(** ** The two tables *)
Lemma taken_distinct new : forall rules, distinct (rules ++ new) -> taken (T := prefix_node) rules new = Some (rules ++ new).
Proof.
  induction new as [|r new IH]; intros rules Hd; [by rewrite app_nil_r|]. cbn [taken takes btrie_ok].
  rewrite bool_decide_eq_false_2; cbn [negb].
  - rewrite IH; rewrite <- app_assoc; done.
  - unfold distinct in Hd. rewrite fmap_app in Hd. apply list.NoDup_app in Hd as (_ & Hd & _). intros H.
    apply (Hd _ H). cbn [fmap list_fmap]. left.
Qed.
Lemma taken_short new : forall rules, Forall Da.da_rule new -> taken (T := da_table) rules new = Some (rules ++ new).
Proof.
  induction new as [|r new IH]; intros rules Hd; [by rewrite app_nil_r|]. apply Forall_cons_iff in Hd as [(_ & Hr & _) Hd].
  cbn [taken takes da_ok]. rewrite (proj2 (Z.leb_le _ _)) by lia. rewrite IH by done. by rewrite <- app_assoc.
Qed.
Lemma short_all rules : Forall Da.da_rule rules -> List.filter Btrie.short rules = rules.
Proof.
  induction 1 as [|r rules (_ & Hr & _) _ IH]; [done|]. simpl. unfold Btrie.short at 1. rewrite (proj2 (Z.leb_le _ _)) by lia. by rewrite IH.
Qed.

(** C21. The two tables agree: loaded with the same routes, of 2 to 27 bits and no prefix
    twice, the trie and the flat table give every address the port of the longest prefix that
    it has; where it has none, the trie says so, and the flat table answers device 0. *)
Theorem tables_agree rte_be_to_cpu_32 rte_eth_dev_count (lines : list line) :
  Forall Da.da_rule (file_rules rte_be_to_cpu_32 rte_eth_dev_count lines) ->
  distinct (file_rules rte_be_to_cpu_32 rte_eth_dev_count lines) ->
  exists tb td,
    init_lpm rte_be_to_cpu_32 rte_eth_dev_count 0 lines btrie_create = Ret (tt, tb) /\
    init_lpm rte_be_to_cpu_32 rte_eth_dev_count 0 lines (∅ : da_table) = Ret (tt, td) /\
    forall ip, ip_ok ip ->
      (exists r, r ∈ file_rules rte_be_to_cpu_32 rte_eth_dev_count lines /\ covers ip r = true /\
         (forall r', r' ∈ file_rules rte_be_to_cpu_32 rte_eth_dev_count lines -> covers ip r' = true -> r_len r' <= r_len r) /\
         btrie_get_ip_port tb ip = Ret (0, r_port r) /\ da_get_ip_port td ip = Ret (0, r_port r)) \/
      ((forall r, r ∈ file_rules rte_be_to_cpu_32 rte_eth_dev_count lines -> covers ip r = false) /\
       btrie_get_ip_port tb ip = Ret (-1, 0) /\ da_get_ip_port td ip = Ret (0, 0)).
Proof.
  set (rules := file_rules _ _ lines). intros Hok Hd.
  pose proof (init_lpm_run (T := prefix_node) rte_be_to_cpu_32 rte_eth_dev_count lines 0 [] btrie_create ltac:(done)) as Hb.
  pose proof (init_lpm_run (T := da_table) rte_be_to_cpu_32 rte_eth_dev_count lines 0 [] ∅ ltac:(done)) as Ha.
  rewrite Z.sub_0_r in Hb, Ha. fold (file_rules rte_be_to_cpu_32 rte_eth_dev_count lines) in Hb, Ha. fold rules in Hb, Ha. cbn zeta in Hb, Ha.
  rewrite taken_distinct in Hb by done. rewrite taken_short in Ha by done.
  destruct Hb as (tb & Eb & Hb); [|exact Btrie.trie_holds_create|].
  { eapply Forall_impl; [|exact Hok]. intros r (? & ? & ?). split_and!; (done || lia). }
  destruct Ha as (td & Ed & Ha); [|exact Da.flat_holds_create|].
  { eapply Forall_impl; [|exact Hok]. intros r (? & ? & ?). split_and!; (done || lia). }
  exists tb, td. split; [exact Eb|]. split; [exact Ed|]. intros ip Hip.
  rewrite (Btrie.trie_get_holds _ tb ip Hip Hb), (Da.flat_get_holds _ td ip Hip Ha). cbn [app]. rewrite short_all by done.
  destruct (route rules ip) as [r|] eqn:E.
  - left. exists r. apply route_some in E as (H1 & H2 & H3). by split_and!.
  - right. by rewrite route_none in E.
Qed.
End LpmMain.

(** * Two devices and three routes *)
Module LpmDemo.
Import Packet Sample Lpm Routes LpmMain.

Definition bswap (x : Z) : Z := le_value (rev (le_bytes 4 x)).
Lemma bswap_range x : 0 <= x < 2 ^ 32 -> ip_ok (bswap x).
Proof.
  intros _. apply (le_value_range (rev (le_bytes 4 x))). apply Forall_rev, le_bytes_byte.
Qed.
(** 10.0.0.0/8 to device 1, 10.0.0.0/24 to device 0; the third line is for a device that is
    not there, and skipped. *)
Definition demo_lines : list line := [Line 10 8 1; Line 10 24 0; Line 192 16 7].
Definition demo_config : nf_config := Config [demo_mac 0; demo_mac 1] [demo_mac 2; demo_mac 3].
Definition to_far : arrival := demo_arrival 0 [192; 168; 0; 1] [10; 1; 0; 1] [3; 232] [0; 53].
Definition to_near : arrival := demo_arrival 1 [192; 168; 0; 1] [10; 0; 0; 9] [3; 232] [0; 53].
Definition to_nowhere : arrival := demo_arrival 1 [192; 168; 0; 1] [172; 16; 0; 1] [3; 232] [0; 53].

Lemma to_far_ok : arrival_ok to_far. Proof. demo_ok. Qed.
Lemma to_near_ok : arrival_ok to_near. Proof. demo_ok. Qed.
Lemma to_nowhere_ok : arrival_ok to_nowhere. Proof. demo_ok. Qed.
Lemma demo_config_ok : config_ok 2 demo_config.
Proof.
  split; [lia|]. intros i Hi. change (u8 2) with 2 in Hi. assert (Hcases : i = 0 \/ i = 1) by lia.
  destruct Hcases as [-> | ->]; eexists _, _; (split_and!; [reflexivity|reflexivity|apply demo_mac_ok; lia|apply demo_mac_ok; lia]).
Qed.
Lemma demo_rules : file_rules bswap 2 demo_lines = [Rule 167772160 8 1; Rule 167772160 24 0].
Proof. unfold file_rules. rewrite take_ge; [vm_compute; reflexivity|]. unfold LPM_MAX_RULES. simpl. lia. Qed.
Lemma demo_da_rules : Forall Da.da_rule (file_rules bswap 2 demo_lines).
Proof. rewrite demo_rules. repeat constructor; simpl; unfold ip_ok; simpl; lia. Qed.
Lemma demo_distinct : distinct (file_rules bswap 2 demo_lines).
Proof. rewrite demo_rules. apply (bool_decide_eq_true_1 _). vm_compute. reflexivity. Qed.
Lemma demo_lines_ok : lines_ok (T := prefix_node) bswap 2 demo_lines.
Proof. unfold lines_ok. rewrite demo_rules. repeat constructor; simpl; unfold ip_ok; simpl; lia. Qed.
Lemma demo_arrivals_ok : Forall (fun a => buffer (a_data a)) [to_far; to_near; to_nowhere].
Proof.
  constructor; [apply to_far_ok|]. constructor; [apply to_near_ok|]. constructor; [apply to_nowhere_ok|constructor].
Qed.

Definition demo_outcome : list (option Z) :=
  match outcomes (T := prefix_node) bswap 2 demo_config (file_rules bswap 2 demo_lines) [to_far; to_near; to_nowhere] with
  | Ret l => fst <$> l | Stop _ => [] end.
Lemma demo_forwarded : demo_outcome = [Some 1; Some 0; None].
Proof. unfold demo_outcome. rewrite demo_rules. vm_compute. reflexivity. Qed.

Lemma lpm_forwards_witness :
  demo_outcome = [Some 1; Some 0; None] /\
  exists t, init_lpm bswap 2 0 demo_lines btrie_create = Ret (tt, t) /\
    run bswap 2 demo_config t [to_far; to_near; to_nowhere] =
      outcomes (T := prefix_node) bswap 2 demo_config (file_rules bswap 2 demo_lines) [to_far; to_near; to_nowhere].
Proof.
  split; [exact demo_forwarded|].
  pose proof (lpm_forwards (T := prefix_node) bswap 2 bswap_range demo_config demo_lines [to_far; to_near; to_nowhere]
    demo_config_ok demo_lines_ok demo_arrivals_ok) as H.
  rewrite (taken_distinct (file_rules bswap 2 demo_lines) [] demo_distinct) in H. exact H.
Defined.
Lemma tables_agree_witness :
  exists tb td, init_lpm bswap 2 0 demo_lines btrie_create = Ret (tt, tb) /\
    init_lpm bswap 2 0 demo_lines (∅ : da_table) = Ret (tt, td) /\
    ((exists p, btrie_get_ip_port tb 167772161 = Ret (0, p) /\ da_get_ip_port td 167772161 = Ret (0, p)) \/ da_get_ip_port td 167772161 = Ret (0, 0)).
Proof.
  destruct (tables_agree bswap 2 demo_lines demo_da_rules demo_distinct) as (tb & td & Eb & Ed & H).
  exists tb, td. split; [exact Eb|]. split; [exact Ed|].
  destruct (H 167772161 ltac:(split; [discriminate|reflexivity])) as [(r & _ & _ & _ & H1 & H2)|(_ & _ & H2)].
  - left. exists (r_port r). exact (conj H1 H2).
  - right. exact H2.
Defined.

(** ** What goes wrong *)
Definition loaded (l : list line) : prefix_node :=
  match init_lpm bswap 2 0 l btrie_create with Ret (_, t) => t | Stop _ => btrie_create end.
(** A route to one host is loaded by the trie and never found. *)
Example host_route_ignored :
  init_lpm bswap 2 0 [Line 16777226 32 1] btrie_create = Ret (tt, loaded [Line 16777226 32 1]) /\
  btrie_get_ip_port (loaded [Line 16777226 32 1]) (bswap 16777226) = Ret (-1, 0).
Proof. vm_compute. split; reflexivity. Qed.
(** A prefix that the flat table says to ignore ends the program. *)
Example long_prefix_exits : init_lpm bswap 2 0 [Line 16777226 28 1] (∅ : da_table) = Stop (Exit EXIT_FAILURE).
Proof. vm_compute. reflexivity. Qed.
(** The default route is an overflow in the flat table. *)
Example default_route_undefined : init_lpm bswap 2 0 [Line 0 0 1] (∅ : da_table) = Stop MemError.
Proof. vm_compute. reflexivity. Qed.
(** A route to the device after the last one is loaded, and ends the program when a packet
    takes it. *)
Example device_out_of_range :
  init_lpm bswap 2 0 [Line 10 8 2] btrie_create = Ret (tt, loaded [Line 10 8 2]) /\
  run bswap 2 demo_config (loaded [Line 10 8 2]) [to_far] = Stop (Exit EXIT_FAILURE).
Proof. vm_compute. split; reflexivity. Qed.
End LpmDemo.
