(* ===== verification/ExecFork.v ===== *)
(** * The executor: paths that fork and end

    lib/Core/Executor.cpp (fork, branch, addConstraint, toUnique, toConstant, terminateState,
    updateStates), ExecutionState::branch and lib/Core/PTree.cpp: the states of the search, the
    tree of the processes they stand for ([PTree]), and how a condition splits a path
    ([ExecFork]). [ForkOk] shows what the children of a path are; ForkMain.v follows whole
    searches. Seeds, test cases and statistics are left out; addresses stand for pointers. *)
From stdpp Require Import base gmap list strings numbers.
From Stdlib Require Import ZArith Lia.
From S2P Require Import Prelude ExprData ExprFacts ExprCreate ExprEval ExprMain Constraints ConstraintsOk ConstraintsMain Solver Paths.

(** * The process tree *)
Module PTree.

(** [data] is the state of a leaf. *)
Record Node : Type := MkNode { parent : option Z; left : option Z; right : option Z; data : option Z }.
Record ptree : Type := Tree { nodes : gmap Z Node; next_node : Z }.

(** [PTree::PTree]: the root is node 0. *)
Definition PTree (root : Z) : ptree := Tree {[0 := MkNode None None None (Some root)]} 1.
Definition node_at (n : Z) : M ptree Node := fun t => match nodes t !! n with Some x => Ret (x, t) | None => Stop MemError end.
Definition set_node (n : Z) (x : Node) : M ptree unit := modify (fun t => Tree (<[n := x]> (nodes t)) (next_node t)).
Definition new_node (x : Node) : M ptree Z := fun t => Ret (next_node t, Tree (<[next_node t := x]> (nodes t)) (next_node t + 1)).
Definition no_kids (x : Node) : bool := match left x, right x with None, None => true | _, _ => false end.
(** [n->data = d] *)
Definition set_data (n : Z) (d : option Z) : M ptree unit :=
  x ← node_at n; set_node n (MkNode (parent x) (left x) (right x) d).

Definition split (n leftData rightData : Z) : M ptree (Z * Z) :=
  x ← node_at n;
  assert_ (no_kids x);;
  l ← new_node (MkNode (Some n) None None (Some leftData));
  x ← node_at n;
  set_node n (MkNode (parent x) (Some l) (right x) (data x));;
  r ← new_node (MkNode (Some n) None None (Some rightData));
  x ← node_at n;
  set_node n (MkNode (parent x) (left x) (Some r) (data x));;
  mret (l, r).

(** The body of the loop of [remove]: the node to go on with. *)
Definition delete_node (n : Z) : M ptree (option Z) :=
  x ← node_at n;
  (match parent x with
   | None => mret tt
   | Some p =>
       y ← node_at p;
       if bool_decide (left y = Some n) then set_node p (MkNode (parent y) None (right y) (data y))
       else
         assert_ (bool_decide (right y = Some n));;
         set_node p (MkNode (parent y) (left y) None (data y))
   end);;
  modify (fun t => Tree (delete n (nodes t)) (next_node t));;
  mret (parent x).
Fixpoint remove_loop (fuel : nat) (n : Z) : M ptree unit :=
  match fuel with
  | O => halt OutOfFuel
  | S fuel =>
      p ← delete_node n;
      match p with
      | None => mret tt
      | Some p => y ← node_at p; if no_kids y then remove_loop fuel p else mret tt
      end
  end.
(** A loop never has more rounds than there are nodes. *)
Definition remove (n : Z) : M ptree unit :=
  x ← node_at n;
  assert_ (no_kids x);;
  t ← get;
  remove_loop (size (nodes t)) n.
End PTree.

(** * The executor *)
Module ExecFork.
Import Expr Create Solver TimingSolver PTree.

(** A call that is not finished; the cells of registers without a value are null. *)
Record StackFrame : Type := Frame { caller : option Z; kf : Z; locals : list (option expr) }.
(** What is read and written of an [ExecutionState]; the frame of the current call comes first. *)
Record est : Type := EState {
  pc : Z;
  prevPC : Z;
  stack : list StackFrame;
  incomingBBIndex : Z;
  constraints : list expr;
  depth : Z;
  pathOS : list bool;
  symPathOS : list bool;
  forkDisabled : bool;
  ptreeNode : Z
}.

(** The options of the executor, and what it finds out elsewhere: whether memory is short. *)
Record options : Type := Options {
  MaxDepth : Z;
  MaxForks : Z;
  MaxMemoryInhibit : bool;
  atMemoryLimit : bool;
  inhibitForking : bool;
  replayPath : option (list bool);
  replayKTest : bool;
  pathWriter : bool;
  symPathWriter : bool
}.
Definition no_limit : Z := 2 ^ 32 - 1.

(** The executor with its states in memory; [draws] is how often [theRNG] was asked. *)
Record executor {St : Type} : Type := Exec {
  live : gmap Z est;
  next_state : Z;
  states : list Z;
  addedStates : list Z;
  removedStates : list Z;
  processTree : ptree;
  forks : Z;
  draws : Z;
  replayPosition : Z;
  solver_state : St
}.
Arguments executor : clear implicits.
Arguments Exec {St}.

Section Fork.
Context {ap : APInt} (ConstArrayOpt RewriteEqualities simplifyExprs : bool) (o : options) (rng : Z -> Z).
Context {St : Type} (solver : SolverImpl St) (fuel : nat).
Abbreviation executor := (executor St).

Definition state_at (p : Z) : M executor est := fun x => match live x !! p with Some s => Ret (s, x) | None => Stop MemError end.
Definition set_live (f : gmap Z est -> gmap Z est) : M executor unit :=
  modify (fun x => Exec (f (live x)) (next_state x) (states x) (addedStates x) (removedStates x) (processTree x) (forks x) (draws x)
    (replayPosition x) (solver_state x)).
Definition on_state (p : Z) (f : est -> est) : M executor unit := s ← state_at p; set_live (fun m => <[p := f s]> m).
Definition on_solver {A} (m : M St A) : M executor A :=
  zoom solver_state (fun s x => Exec (live x) (next_state x) (states x) (addedStates x) (removedStates x) (processTree x) (forks x) (draws x)
    (replayPosition x) s) m.
Definition on_tree {A} (m : M ptree A) : M executor A :=
  zoom processTree (fun t x => Exec (live x) (next_state x) (states x) (addedStates x) (removedStates x) t (forks x) (draws x)
    (replayPosition x) (solver_state x)) m.
Definition set_lists (f : list Z -> list Z) (added removed : list Z -> list Z) : M executor unit :=
  modify (fun x => Exec (live x) (next_state x) (f (states x)) (added (addedStates x)) (removed (removedStates x)) (processTree x) (forks x)
    (draws x) (replayPosition x) (solver_state x)).
Definition add_forks (n : Z) : M executor unit :=
  modify (fun x => Exec (live x) (next_state x) (states x) (addedStates x) (removedStates x) (processTree x) (u64 (forks x + n)) (draws x)
    (replayPosition x) (solver_state x)).
Definition getInt32 : M executor Z := fun x =>
  Ret (rng (draws x), Exec (live x) (next_state x) (states x) (addedStates x) (removedStates x) (processTree x) (forks x) (draws x + 1)
    (replayPosition x) (solver_state x)).
(** [RNG::getBool]: the parity of the bits. *)
Definition getBool : M executor bool :=
  bits ← getInt32;
  let bits := Z.lxor bits (Z.shiftr bits 16) in
  let bits := Z.lxor bits (Z.shiftr bits 8) in
  let bits := Z.lxor bits (Z.shiftr bits 4) in
  let bits := Z.lxor bits (Z.shiftr bits 2) in
  let bits := Z.lxor bits (Z.shiftr bits 1) in
  mret (nz (Z.land bits 1)).
Definition next_replay : M executor Z := fun x =>
  Ret (replayPosition x, Exec (live x) (next_state x) (states x) (addedStates x) (removedStates x) (processTree x) (forks x) (draws x)
    (u32 (replayPosition x + 1)) (solver_state x)).

(** ** Setters of a state *)
Definition with_constraints (cs : list expr) (s : est) : est :=
  EState (pc s) (prevPC s) (stack s) (incomingBBIndex s) cs (depth s) (pathOS s) (symPathOS s) (forkDisabled s) (ptreeNode s).
Definition with_node (n : Z) (s : est) : est :=
  EState (pc s) (prevPC s) (stack s) (incomingBBIndex s) (constraints s) (depth s) (pathOS s) (symPathOS s) (forkDisabled s) n.
Definition with_depth (d : Z) (s : est) : est :=
  EState (pc s) (prevPC s) (stack s) (incomingBBIndex s) (constraints s) d (pathOS s) (symPathOS s) (forkDisabled s) (ptreeNode s).
Definition with_path (b : bool) (s : est) : est :=
  EState (pc s) (prevPC s) (stack s) (incomingBBIndex s) (constraints s) (depth s) (pathOS s ++ [b]) (symPathOS s) (forkDisabled s) (ptreeNode s).
Definition with_symPath (b : bool) (s : est) : est :=
  EState (pc s) (prevPC s) (stack s) (incomingBBIndex s) (constraints s) (depth s) (pathOS s) (symPathOS s ++ [b]) (forkDisabled s) (ptreeNode s).
(** [state.pc = state.prevPC] *)
Definition back_to_prev (s : est) : est :=
  EState (prevPC s) (prevPC s) (stack s) (incomingBBIndex s) (constraints s) (depth s) (pathOS s) (symPathOS s) (forkDisabled s) (ptreeNode s).

(** [ExecutionState::branch] *)
Definition state_branch (p : Z) : M executor Z := fun x =>
  match live x !! p with
  | Some s =>
      let s := with_depth (u32 (depth s + 1)) s in
      Ret (next_state x, Exec (<[next_state x := s]> (<[p := s]> (live x))) (next_state x + 1) (states x) (addedStates x) (removedStates x)
        (processTree x) (forks x) (draws x) (replayPosition x) (solver_state x))
  | None => Stop MemError
  end.

(** [Executor::addConstraint]; there are no seeds, and [ivcEnabled] is off. *)
Definition exec_addConstraint (p : Z) (condition : expr) : M executor unit :=
  match condition with
  | Constant w v => if isTrue w v then mret tt else halt (ReportError "attempt to add invalid constraint")
  | _ =>
      s ← state_at p;
      cs ← lift (Constraints.addConstraint ConstArrayOpt RewriteEqualities fuel condition (constraints s));
      on_state p (with_constraints cs)
  end.

(** [addedStates.erase(it)] *)
Fixpoint remove_first (p : Z) (l : list Z) : list Z :=
  match l with [] => [] | q :: l => if q =? p then l else q :: remove_first p l end.
(** [Executor::terminateState] and [terminateStateEarly] *)
Definition terminateState (p : Z) : M executor unit :=
  x ← get;
  if bool_decide (p ∈ addedStates x) then
    s ← state_at p;
    set_lists id (remove_first p) id;;
    on_tree (remove (ptreeNode s));;
    set_live (delete p)
  else
    on_state p back_to_prev;;
    set_lists id id (fun l => l ++ [p]).

(** [processTree->split(n, ns, es)]: the first child is for the new state. *)
Definition split_tree (es ns : Z) : M executor unit :=
  e ← state_at es;
  on_tree (set_data (ptreeNode e) None);;
  res ← on_tree (split (ptreeNode e) ns es);
  on_state ns (with_node res.1);;
  on_state es (with_node res.2).

(** ** [Executor::fork] *)
(** A condition that is replaced by one of its values, when forks or the solver take too large
    a share ([over]: the limits on the statistics are exceeded). *)
Definition limit_static (over : bool) (p : Z) (condition : expr) : M executor expr :=
  if negb (isConstant condition) && over then
    s ← state_at p;
    v ← on_solver (timing_getValue ConstArrayOpt simplifyExprs solver fuel (constraints s) condition);
    match v with
    | None => halt AssertFailed
    | Some value =>
        e ← lift (create_Eq ConstArrayOpt value condition);
        exec_addConstraint p e;;
        mret value
    end
  else mret condition.
(** One of the branches only. *)
Definition take_branch (p : Z) (condition : expr) (b : bool) : M executor Validity :=
  e ← (if b then mret condition else lift (createIsZero ConstArrayOpt condition));
  exec_addConstraint p e;;
  mret (if b then VTrue else VFalse).
Definition inhibited (s : est) (n : Z) : bool :=
  (MaxMemoryInhibit o && atMemoryLimit o) || forkDisabled s || inhibitForking o || (negb (MaxForks o =? no_limit) && (MaxForks o <=? n)).
Definition limit_fork (p : Z) (condition : expr) (isInternal : bool) (res : Validity) : M executor Validity :=
  match replayPath o, isInternal with
  | Some path, false =>
      n ← next_replay;
      match path !! Z.to_nat n with
      | None => halt AssertFailed
      | Some b =>
          match res with
          | VTrue => assert_ b;; mret res
          | VFalse => assert_ (negb b);; mret res
          | VUnknown => take_branch p condition b
          end
      end
  | _, _ =>
      match res with
      | VUnknown =>
          assert_ (negb (replayKTest o));;
          s ← state_at p;
          x ← get;
          if inhibited s (forks x) then b ← getBool; take_branch p condition b else mret res
      | _ => mret res
      end
  end.
Definition write_path (p : Z) (isInternal b : bool) : M executor unit :=
  if negb isInternal && pathWriter o then on_state p (with_path b) else mret tt.
Definition terminateStateEarly (p : Z) : M executor unit := terminateState p.

Definition write_both (p q : Z) (isInternal : bool) : M executor unit :=
  if isInternal then mret tt
  else
    (if pathWriter o then on_state p (with_path true);; on_state q (with_path false) else mret tt);;
    (if symPathWriter o then on_state p (with_symPath true);; on_state q (with_symPath false) else mret tt).

(** Both branches are possible. *)
Definition fork_both (p : Z) (condition : expr) (isInternal : bool) : M executor (option Z * option Z) :=
  add_forks 1;;
  falseState ← state_branch p;
  set_lists id (fun l => l ++ [falseState]) id;;
  split_tree p falseState;;
  write_both p falseState isInternal;;
  exec_addConstraint p condition;;
  e ← lift (createIsZero ConstArrayOpt condition);
  exec_addConstraint falseState e;;
  s ← state_at p;
  if nz (MaxDepth o) && (MaxDepth o <=? depth s) then
    terminateStateEarly p;;
    terminateStateEarly falseState;;
    mret (None, None)
  else mret (Some p, Some falseState).

(** [fork] from the call of the solver on. *)
Definition fork_decided (p : Z) (condition : expr) (isInternal : bool) : M executor (option Z * option Z) :=
  s ← state_at p;
  r ← on_solver (timing_evaluate ConstArrayOpt simplifyExprs solver fuel (constraints s) condition);
  match r with
  | None =>
      on_state p back_to_prev;;
      terminateStateEarly p;;
      mret (None, None)
  | Some res =>
      res ← limit_fork p condition isInternal res;
      match res with
      | VTrue => write_path p isInternal true;; mret (Some p, None)
      | VFalse => write_path p isInternal false;; mret (None, Some p)
      | VUnknown => fork_both p condition isInternal
      end
  end.
Definition fork (over : bool) (p : Z) (condition : expr) (isInternal : bool) : M executor (option Z * option Z) :=
  condition ← limit_static over p condition;
  fork_decided p condition isInternal.

(** ** [Executor::branch]

    One state for every condition, or for one that is drawn. *)
Fixpoint branch_more (p : Z) (n i : nat) (result : list Z) : M executor (list Z) :=
  match n with
  | O => mret result
  | S n =>
      r ← getInt32;
      match result !! Z.to_nat (r `mod` Z.of_nat i) with
      | None => halt MemError
      | Some es =>
          ns ← state_branch es;
          set_lists id (fun l => l ++ [ns]) id;;
          split_tree es ns;;
          branch_more p n (S i) (result ++ [ns])
      end
  end.
Fixpoint add_conditions (result : list (option Z)) (conditions : list expr) : M executor unit :=
  match result, conditions with
  | Some p :: result, c :: conditions => exec_addConstraint p c;; add_conditions result conditions
  | None :: result, _ :: conditions => add_conditions result conditions
  | _, _ => mret tt
  end.
Definition branch (p : Z) (conditions : list expr) : M executor (list (option Z)) :=
  let N := length conditions in
  assert_ (negb (Nat.eqb N 0));;
  x ← get;
  result ← (if negb (MaxForks o =? no_limit) && (MaxForks o <=? forks x) then
              next ← getInt32;
              mret ((fun i => if Nat.eqb i (Z.to_nat (next `mod` Z.of_nat N)) then Some p else None) <$> seq 0 N)
            else
              add_forks (Z.of_nat N - 1);;
              l ← branch_more p (N - 1) 1 [p];
              mret (Some <$> l));
  add_conditions result conditions;;
  mret result.

(** ** Values of expressions *)
Definition toUnique (p : Z) (e : expr) : M executor expr :=
  if isConstant e then mret e
  else
    s ← state_at p;
    v ← on_solver (timing_getValue ConstArrayOpt simplifyExprs solver fuel (constraints s) e);
    match v with
    | None => mret e
    | Some value =>
        q ← lift (create_Eq ConstArrayOpt e value);
        r ← on_solver (timing_mustBeTrue ConstArrayOpt simplifyExprs solver fuel (constraints s) q);
        mret (match r with Some true => value | _ => e end)
    end.
Definition toConstant (p : Z) (e : expr) : M executor expr :=
  s ← state_at p;
  e ← lift (Constraints.simplifyExpr ConstArrayOpt fuel (constraints s) e);
  if isConstant e then mret e
  else
    v ← on_solver (timing_getValue ConstArrayOpt simplifyExprs solver fuel (constraints s) e);
    match v with
    | None => halt AssertFailed
    | Some value =>
        q ← lift (create_Eq ConstArrayOpt e value);
        exec_addConstraint p q;;
        mret value
    end.

(** ** [Executor::updateStates]

    It returns what the searcher is told: the states that were added and removed. *)
Fixpoint insert_all (l states : list Z) : list Z :=
  match l with [] => states | p :: l => insert_all l (if bool_decide (p ∈ states) then states else p :: states) end.
Fixpoint delete_removed (l : list Z) : M executor unit :=
  match l with
  | [] => mret tt
  | p :: l =>
      x ← get;
      assert_ (bool_decide (p ∈ states x));;
      set_lists (remove_first p) id id;;
      s ← state_at p;
      on_tree (remove (ptreeNode s));;
      set_live (delete p);;
      delete_removed l
  end.
Definition updateStates : M executor (list Z * list Z) :=
  x ← get;
  set_lists (insert_all (addedStates x)) (fun _ => []) id;;
  delete_removed (removedStates x);;
  set_lists id id (fun _ => []);;
  mret (addedStates x, removedStates x).
End Fork.
End ExecFork.

(** * The process tree is a tree *)
Module PTreeOk.
Import PTree.

(** Parents are older than their children, and the pointers go both ways. *)
Record wf (t : ptree) : Prop := {
  wf_fresh n x : nodes t !! n = Some x -> n < next_node t;
  wf_parent n x p : nodes t !! n = Some x -> parent x = Some p ->
    p < n /\ exists y, nodes t !! p = Some y /\ (left y = Some n \/ right y = Some n);
  wf_kid n x k : nodes t !! n = Some x -> left x = Some k \/ right x = Some k -> exists y, nodes t !! k = Some y /\ parent y = Some n;
  wf_distinct n x k : nodes t !! n = Some x -> left x = Some k -> right x <> Some k
}.
Definition kids (x : Node) (k : Z) : Prop := left x = Some k \/ right x = Some k.
Lemma no_kids_iff x : no_kids x = true <-> forall k, ~ kids x k.
Proof.
  unfold no_kids, kids. destruct (left x) as [l|], (right x) as [r|]; (split; [try done|]); try done.
  - intros H. destruct (H l). by left.
  - intros H. destruct (H l). by left.
  - intros H. destruct (H r). by right.
  - intros _ k [|]; done.
Qed.

(** The leaves are the nodes of the states [m], but for node [free]. *)
Record leaves (t : ptree) (m : gmap Z Z) (free : option Z) : Prop := {
  le_owned p n : m !! p = Some n -> exists x, nodes t !! n = Some x /\ no_kids x = true /\ data x = Some p;
  le_leaf n x : nodes t !! n = Some x -> no_kids x = true -> free = Some n \/ exists p, m !! p = Some n
}.
Lemma leaves_inj t m f p q n : leaves t m f -> m !! p = Some n -> m !! q = Some n -> p = q.
Proof.
  intros Hl Hp Hq. apply (le_owned _ _ _ Hl) in Hp as (x & Hx & _ & Hd), Hq as (y & Hy & _ & Hd'). congruence.
Qed.
Lemma node_at_run n t x : nodes t !! n = Some x -> node_at n t = Ret (x, t).
Proof. unfold node_at. by intros ->. Qed.

(** ** Splitting a leaf *)
Definition split_result (t : ptree) (n ns es : Z) (x : Node) : ptree :=
  Tree (<[next_node t + 1 := MkNode (Some n) None None (Some es)]>
         (<[next_node t := MkNode (Some n) None None (Some ns)]>
           (<[n := MkNode (parent x) (Some (next_node t)) (Some (next_node t + 1)) None]> (nodes t)))) (next_node t + 2).
Lemma split_run t n ns es x : wf t -> nodes t !! n = Some x -> no_kids x = true ->
  (set_data n None;; split n ns es) t = Ret ((next_node t, next_node t + 1), split_result t n ns es x).
Proof.
  intros Hwf Hx Hk. pose proof (wf_fresh _ Hwf n x Hx) as Hlt. unfold set_data, split.
  rewrite (mbind_run _ _ _ tt (Tree (<[n := MkNode (parent x) (left x) (right x) None]> (nodes t)) (next_node t))).
  2:{ by rewrite (mbind_run _ _ _ _ _ (node_at_run n t x Hx)). }
  set (t1 := Tree _ _). assert (H1 : nodes t1 !! n = Some (MkNode (parent x) (left x) (right x) None)) by apply lookup_insert_eq.
  rewrite (mbind_run _ _ _ _ _ (node_at_run n t1 _ H1)). unfold no_kids in *. cbn [left right] in *. rewrite Hk.
  rewrite (mbind_run _ _ _ tt t1) by done. unfold new_node at 1. cbn [next_node t1].
  rewrite (mbind_run _ _ t1 (next_node t) (Tree (<[next_node t := MkNode (Some n) None None (Some ns)]> (nodes t1)) (next_node t + 1))) by done.
  set (t2 := Tree _ (next_node t + 1)).
  assert (H2 : nodes t2 !! n = Some (MkNode (parent x) (left x) (right x) None)) by (simpl; rewrite lookup_insert_ne by lia; apply lookup_insert_eq).
  rewrite (mbind_run _ _ _ _ _ (node_at_run n t2 _ H2)). cbn [parent left right data].
  unfold set_node at 1. rewrite (mbind_run _ _ t2 tt (Tree (<[n := MkNode (parent x) (Some (next_node t)) (right x) None]> (nodes t2)) (next_node t + 1))) by done.
  set (t3 := Tree (<[n := _]> (nodes t2)) _).
  rewrite (mbind_run _ _ t3 (next_node t + 1) (Tree (<[next_node t + 1 := MkNode (Some n) None None (Some es)]> (nodes t3)) (next_node t + 2))).
  2:{ unfold new_node. simpl. do 3 f_equal. lia. }
  set (t4 := Tree _ (next_node t + 2)).
  assert (H4 : nodes t4 !! n = Some (MkNode (parent x) (Some (next_node t)) (right x) None)) by (simpl; rewrite lookup_insert_ne by lia; apply lookup_insert_eq).
  rewrite (mbind_run _ _ _ _ _ (node_at_run n t4 _ H4)). cbn [parent left right data]. unfold set_node, modify, mbind, M_bind, mret, M_ret.
  do 2 f_equal. unfold split_result. f_equal. simpl.
  apply map_eq. intros i. rewrite !lookup_insert. repeat case_decide; congruence || lia || done.
Qed.
Lemma split_wf t n ns es x : wf t -> nodes t !! n = Some x -> no_kids x = true -> wf (split_result t n ns es x).
Proof.
  intros Hwf Hx Hk. pose proof (wf_fresh _ Hwf n x Hx) as Hlt. rewrite no_kids_iff in Hk.
  assert (Hin : forall i y, nodes (split_result t n ns es x) !! i = Some y ->
    (i = next_node t + 1 /\ y = MkNode (Some n) None None (Some es)) \/ (i = next_node t /\ y = MkNode (Some n) None None (Some ns)) \/
    (i = n /\ y = MkNode (parent x) (Some (next_node t)) (Some (next_node t + 1)) None) \/ (i <> n /\ i < next_node t /\ nodes t !! i = Some y)).
  { intros i y. simpl. rewrite !lookup_insert. repeat case_decide; try (intros [= <-]; subst; tauto).
    intros Hi. pose proof (wf_fresh _ Hwf i y Hi). right. right. right. split_and!; (done || lia). }
  assert (Ho : forall i y, nodes t !! i = Some y -> i <> n -> nodes (split_result t n ns es x) !! i = Some y).
  { intros i y Hi Hne. pose proof (wf_fresh _ Hwf i y Hi). simpl. by rewrite !lookup_insert_ne by lia. }
  assert (Hn : nodes (split_result t n ns es x) !! n = Some (MkNode (parent x) (Some (next_node t)) (Some (next_node t + 1)) None)).
  { simpl. rewrite !lookup_insert_ne by lia. apply lookup_insert_eq. }
  assert (Hl : nodes (split_result t n ns es x) !! next_node t = Some (MkNode (Some n) None None (Some ns))).
  { simpl. rewrite lookup_insert_ne by lia. apply lookup_insert_eq. }
  assert (Hr : nodes (split_result t n ns es x) !! (next_node t + 1) = Some (MkNode (Some n) None None (Some es))) by (simpl; apply lookup_insert_eq).
  split.
  - intros i y Hi. simpl. destruct (Hin i y Hi) as [[-> _]|[[-> _]|[[-> _]|(_ & ? & _)]]]; lia.
  - intros i y p Hi Hp. destruct (Hin i y Hi) as [[-> ->]|[[-> ->]|[[-> ->]|(Hne & _ & Hi')]]]; cbn [parent] in Hp.
    + injection Hp as <-. split; [lia|]. eexists. split; [exact Hn|]. by right.
    + injection Hp as <-. split; [lia|]. eexists. split; [exact Hn|]. by left.
    + destruct (wf_parent _ Hwf n x p Hx Hp) as (H1 & z & Hz & Hkid). split; [done|]. exists z. split; [|done]. apply Ho; [done|lia].
    + destruct (wf_parent _ Hwf i y p Hi' Hp) as (H1 & z & Hz & Hkid). split; [done|]. destruct (decide (p = n)) as [->|Hpn].
      * rewrite Hx in Hz. injection Hz as <-. by destruct (Hk i).
      * exists z. split; [by apply Ho|done].
  - intros i y k Hi Hkid. destruct (Hin i y Hi) as [[-> ->]|[[-> ->]|[[-> ->]|(Hne & _ & Hi')]]]; cbn [left right] in Hkid.
    + by destruct Hkid.
    + by destruct Hkid.
    + destruct Hkid as [[= <-]|[= <-]]; eexists; done.
    + destruct (wf_kid _ Hwf i y k Hi' Hkid) as (z & Hz & Hp). destruct (decide (k = n)) as [->|Hkn].
      * rewrite Hx in Hz. injection Hz as <-. eexists. split; [exact Hn|done].
      * exists z. split; [by apply Ho|done].
  - intros i y k Hi Hkid. destruct (Hin i y Hi) as [[-> ->]|[[-> ->]|[[-> ->]|(Hne & _ & Hi')]]]; cbn [left right] in *; try done.
    + injection Hkid as <-. intros [= ?]. lia.
    + by apply (wf_distinct _ Hwf i y k).
Qed.
Lemma split_leaves t m n ns es x :
  wf t -> leaves t m None -> nodes t !! n = Some x -> m !! es = Some n -> m !! ns = None ->
  leaves (split_result t n ns es x) (<[es := next_node t + 1]> (<[ns := next_node t]> m)) None.
Proof.
  intros Hwf Hl Hx He Hs. pose proof (wf_fresh _ Hwf n x Hx) as Hlt. assert (Hne : es <> ns) by congruence. split.
  - intros p i. rewrite !lookup_insert. case_decide as E1; [intros [= <-]; subst p; eexists; split; [simpl; apply lookup_insert_eq|done]|].
    case_decide as E2; [intros [= <-]; subst p; eexists; split; [simpl; rewrite lookup_insert_ne by lia; apply lookup_insert_eq|done]|].
    intros Hp. destruct (le_owned _ _ _ Hl p i Hp) as (y & Hy & Hk & Hd). exists y. split; [|done].
    assert (Hin : i <> n) by (intros ->; apply E1; by eapply leaves_inj).
    pose proof (wf_fresh _ Hwf i y Hy). simpl. by rewrite !lookup_insert_ne by lia.
  - intros i y. simpl. rewrite !lookup_insert. case_decide as E1; [intros _ _; right; exists es; rewrite lookup_insert_eq; by f_equal|].
    case_decide as E2; [intros _ _; right; exists ns; rewrite lookup_insert_ne by done; rewrite lookup_insert_eq; by f_equal|].
    case_decide as E3; [by intros [= <-]|]. intros Hy Hk. destruct (le_leaf _ _ _ Hl i y Hy Hk) as [?|[p Hp]]; [done|]. right. exists p.
    rewrite !lookup_insert_ne; [done|intros ->; congruence|intros ->; congruence].
Qed.

(** ** Removing a leaf *)
Definition unlink (n : Z) (y : Node) : Node :=
  if bool_decide (left y = Some n) then MkNode (parent y) None (right y) (data y) else MkNode (parent y) (left y) None (data y).
Definition unlinked (t : ptree) (n : Z) (x : Node) : gmap Z Node :=
  match parent x with Some p => match nodes t !! p with Some y => <[p := unlink n y]> (nodes t) | None => nodes t end | None => nodes t end.
Definition deleted (t : ptree) (n : Z) (x : Node) : ptree := Tree (delete n (unlinked t n x)) (next_node t).
Lemma delete_run t n x : wf t -> nodes t !! n = Some x -> delete_node n t = Ret (parent x, deleted t n x).
Proof.
  intros Hwf Hx. unfold delete_node, deleted, unlinked. rewrite (mbind_run _ _ _ _ _ (node_at_run n t x Hx)).
  destruct (parent x) as [p|] eqn:Ep; [|done]. destruct (wf_parent _ Hwf n x p Hx Ep) as (Hlt & y & Hy & Hk). rewrite Hy. unfold unlink.
  case_bool_decide as El.
  - rewrite (mbind_run _ _ t tt (Tree (<[p := MkNode (parent y) None (right y) (data y)]> (nodes t)) (next_node t))); [done|].
    rewrite (mbind_run _ _ _ _ _ (node_at_run p t y Hy)). by rewrite bool_decide_eq_true_2.
  - rewrite (mbind_run _ _ t tt (Tree (<[p := MkNode (parent y) (left y) None (data y)]> (nodes t)) (next_node t))); [done|].
    rewrite (mbind_run _ _ _ _ _ (node_at_run p t y Hy)). rewrite bool_decide_eq_false_2 by done.
    destruct Hk as [Hk|Hk]; [done|]. by rewrite bool_decide_eq_true_2.
Qed.
(** What is left of a node. *)
Lemma unlink_parent n y : parent (unlink n y) = parent y.
Proof. unfold unlink. by case_bool_decide. Qed.
Lemma unlink_data n y : data (unlink n y) = data y.
Proof. unfold unlink. by case_bool_decide. Qed.
Lemma unlink_kids t n p y k : wf t -> nodes t !! p = Some y -> kids y n -> kids (unlink n y) k <-> kids y k /\ k <> n.
Proof.
  intros Hwf Hy Hn. unfold unlink, kids in *. pose proof (wf_distinct _ Hwf p y n Hy) as Hd. case_bool_decide as El; simpl.
  - specialize (Hd El). split; [intros [?|H]; [done|split; [by right|congruence]]|intros [[H|H] Hne]; [congruence|by right]].
  - destruct Hn as [?|Hr]; [done|]. split; [intros [H|?]; [split; [by left|congruence]|done]|intros [[H|H] Hne]; [by left|congruence]].
Qed.
Lemma deleted_lookup t n x i z : wf t -> nodes t !! n = Some x -> nodes (deleted t n x) !! i = Some z <->
  i <> n /\ exists y, nodes t !! i = Some y /\ z = if bool_decide (parent x = Some i) then unlink n y else y.
Proof.
  intros Hwf Hx. unfold deleted, unlinked. cbn [nodes]. rewrite lookup_delete_Some.
  assert (H : (match parent x with Some p => match nodes t !! p with Some y => <[p := unlink n y]> (nodes t) | None => nodes t end
    | None => nodes t end) !! i = Some z <-> exists y, nodes t !! i = Some y /\ z = if bool_decide (parent x = Some i) then unlink n y else y).
  { destruct (parent x) as [p|] eqn:Ep.
    - destruct (wf_parent _ Hwf n x p Hx Ep) as (_ & y & Hy & _). rewrite Hy, lookup_insert. case_decide as E.
      + subst i. rewrite bool_decide_eq_true_2 by done. split; [intros [= <-]; by exists y|intros (y' & Hy' & ->); congruence].
      + rewrite bool_decide_eq_false_2 by congruence. split; [by exists z|by intros (? & ? & ->)].
    - rewrite bool_decide_eq_false_2 by done. split; [by exists z|by intros (? & ? & ->)]. }
  rewrite H. intuition congruence.
Qed.
Lemma deleted_wf t n x : wf t -> nodes t !! n = Some x -> no_kids x = true -> wf (deleted t n x).
Proof.
  intros Hwf Hx Hk. rewrite no_kids_iff in Hk. assert (Hl := fun i z => deleted_lookup t n x i z Hwf Hx).
  assert (Hkids : forall i y k, nodes t !! i = Some y ->
    kids (if bool_decide (parent x = Some i) then unlink n y else y) k <-> kids y k /\ k <> n).
  { intros i y k Hi. case_bool_decide as E.
    - destruct (wf_parent _ Hwf n x i Hx E) as (_ & y' & Hy' & Hn). rewrite Hi in Hy'. injection Hy' as <-. by eapply unlink_kids.
    - split; [|tauto]. intros Hky. split; [done|]. intros ->. destruct (wf_kid _ Hwf i y n Hi Hky) as (x' & Hx' & Hp). congruence. }
  assert (Hpar : forall i y, parent (if bool_decide (parent x = Some i) then unlink n y else y) = parent y).
  { intros i y. case_bool_decide; [apply unlink_parent|done]. }
  split.
  - intros i z (Hne & y & Hy & _)%Hl. simpl. by apply (wf_fresh _ Hwf i y).
  - intros i z p (Hne & y & Hy & ->)%Hl Hp. rewrite Hpar in Hp. destruct (wf_parent _ Hwf i y p Hy Hp) as (Hlt & w & Hw & Hkw).
    split; [done|]. assert (p <> n) by (intros ->; rewrite Hx in Hw; injection Hw as <-; by destruct (Hk i)).
    eexists. split; [apply Hl; split; [done|by exists w]|]. by apply (Hkids p w i Hw).
  - intros i z k (Hne & y & Hy & ->)%Hl Hkid. apply (Hkids i y k Hy) in Hkid as [Hkid Hkn].
    destruct (wf_kid _ Hwf i y k Hy Hkid) as (w & Hw & Hp). eexists. split; [apply Hl; split; [done|by exists w]|]. by rewrite Hpar.
  - intros i z k (Hne & y & Hy & ->)%Hl Hleft Hright. pose proof (wf_distinct _ Hwf i y k Hy) as Hd. unfold unlink in *.
    repeat case_bool_decide; simpl in *; (done || by apply Hd).
Qed.
Lemma deleted_size t n x : wf t -> nodes t !! n = Some x -> S (size (nodes (deleted t n x))) = size (nodes t).
Proof.
  intros Hwf Hx. unfold deleted, unlinked. cbn [nodes]. assert (Hpos : size (nodes t) <> 0%nat).
  { intros H. apply map_size_empty_inv in H. by rewrite H, lookup_empty in Hx. }
  destruct (parent x) as [p|] eqn:Ep.
  - destruct (wf_parent _ Hwf n x p Hx Ep) as (Hlt & y & Hy & _). rewrite Hy.
    rewrite map_size_delete_Some by (rewrite lookup_insert_ne by lia; done). rewrite map_size_insert_Some by done. lia.
  - rewrite map_size_delete_Some by done. lia.
Qed.
Lemma deleted_leaves t n x m : wf t -> nodes t !! n = Some x -> no_kids x = true ->
  leaves t m (Some n) -> (forall p, m !! p <> Some n) ->
  match parent x with
  | None => leaves (deleted t n x) m None
  | Some p => exists y, nodes (deleted t n x) !! p = Some y /\ (forall q, m !! q <> Some p) /\
      leaves (deleted t n x) m (if no_kids y then Some p else None)
  end.
Proof.
  intros Hwf Hx Hk Hl Hun. assert (Hlk := fun i z => deleted_lookup t n x i z Hwf Hx).
  assert (Hown : forall q i, m !! q = Some i -> exists z, nodes (deleted t n x) !! i = Some z /\ no_kids z = true /\ data z = Some q).
  { intros q i Hq. destruct (le_owned _ _ _ Hl q i Hq) as (y & Hy & Hky & Hd). eexists. split; [apply Hlk; split; [intros ->; by destruct (Hun q)|by exists y]|].
    case_bool_decide as E; [|done]. destruct (wf_parent _ Hwf n x i Hx E) as (_ & y' & Hy' & Hn). rewrite Hy in Hy'. injection Hy' as <-.
    rewrite no_kids_iff in Hky. by destruct (Hky n). }
  destruct (parent x) as [p|] eqn:Ep.
  - destruct (wf_parent _ Hwf n x p Hx Ep) as (Hlt & y & Hy & Hn). exists (unlink n y). split_and!.
    + apply Hlk. split; [lia|]. exists y. split; [done|]. by rewrite bool_decide_eq_true_2.
    + intros q Hq. destruct (le_owned _ _ _ Hl q p Hq) as (y' & Hy' & Hky & _). rewrite Hy in Hy'. injection Hy' as <-.
      rewrite no_kids_iff in Hky. by destruct (Hky n).
    + split; [done|]. intros i z (Hne & w & Hw & ->)%Hlk Hkz. case_bool_decide as E.
      * injection E as <-. rewrite Hy in Hw. injection Hw as <-. rewrite Hkz. by left.
      * destruct (le_leaf _ _ _ Hl i w Hw Hkz) as [[= ->]|?]; [done|by right].
  - split; [done|]. intros i z (Hne & w & Hw & ->)%Hlk Hkz. rewrite bool_decide_eq_false_2 in Hkz by done.
    destruct (le_leaf _ _ _ Hl i w Hw Hkz) as [[= ->]|?]; [done|by right].
Qed.

(** The loop ends with a tree whose leaves are those of the other states. *)
Lemma remove_loop_ok m fuel : forall t n x,
  wf t -> nodes t !! n = Some x -> no_kids x = true -> leaves t m (Some n) -> (forall p, m !! p <> Some n) -> (size (nodes t) <= fuel)%nat ->
  exists t', remove_loop fuel n t = Ret (tt, t') /\ wf t' /\ leaves t' m None /\ next_node t' = next_node t.
Proof.
  induction fuel as [|fuel IH]; intros t n x Hwf Hx Hk Hl Hun Hf; pose proof (deleted_size t n x Hwf Hx) as Hsz; [lia|].
  cbn [remove_loop]. rewrite (mbind_run _ _ _ _ _ (delete_run t n x Hwf Hx)).
  pose proof (deleted_wf t n x Hwf Hx Hk) as Hwf'. pose proof (deleted_leaves t n x m Hwf Hx Hk Hl Hun) as Hd.
  destruct (parent x) as [p|]; [|by exists (deleted t n x)]. destruct Hd as (y & Hy & Hup & Hly).
  rewrite (mbind_run _ _ _ _ _ (node_at_run p _ y Hy)). destruct (no_kids y) eqn:Ey; [|by exists (deleted t n x)].
  destruct (IH (deleted t n x) p y) as (t' & E & H1 & H2 & H3); [done|done|done|done|done|lia|]. by exists t'.
Qed.
Lemma remove_ok_tree t m p n : wf t -> leaves t m None -> m !! p = Some n ->
  exists t', remove n t = Ret (tt, t') /\ wf t' /\ leaves t' (delete p m) None /\ next_node t' = next_node t.
Proof.
  intros Hwf Hl Hp. destruct (le_owned _ _ _ Hl p n Hp) as (x & Hx & Hk & Hd). unfold remove.
  rewrite (mbind_run _ _ _ _ _ (node_at_run n t x Hx)), Hk, (mbind_run _ _ _ tt t) by done.
  unfold get at 1, mbind at 1, M_bind at 1. apply (remove_loop_ok (delete p m) (size (nodes t)) t n x); [done|done|done| | |done].
  - split.
    + intros q i (Hne & Hq)%lookup_delete_Some. by apply (le_owned _ _ _ Hl).
    + intros i y Hy Hky. destruct (le_leaf _ _ _ Hl i y Hy Hky) as [?|[q Hq]]; [done|].
      destruct (decide (q = p)) as [->|Hne]; [left; congruence|]. right. exists q. by rewrite lookup_delete_ne.
  - intros q (Hne & Hq)%lookup_delete_Some. apply Hne. by eapply leaves_inj.
Qed.
Lemma start_tree p : wf (PTree p) /\ leaves (PTree p) {[p := 0]} None.
Proof.
  assert (H : forall i x, nodes (PTree p) !! i = Some x -> i = 0 /\ x = MkNode None None None (Some p)).
  { intros i x. simpl. rewrite lookup_singleton_Some. by intros [<- <-]. }
  split; split.
  - intros n x [-> _]%H. simpl. lia.
  - by intros n x q [_ ->]%H.
  - intros n x k [_ ->]%H. simpl. by intros [|].
  - by intros n x k [_ ->]%H.
  - intros q n [<- <-]%lookup_singleton_Some. eexists. split; [apply lookup_singleton_eq|done].
  - intros n x [-> _]%H _. right. exists p. apply lookup_singleton_eq.
Qed.
End PTreeOk.

(** * What forking does to a path *)
Module ForkOk.
Import Expr ExprFacts Create Constraints ConstraintsOk ConstraintsMain Solver TimingSolver Paths PTree PTreeOk ExecFork.

Lemma remove_first_elem p l : NoDup l -> (forall q, q ∈ remove_first p l <-> q ∈ l /\ q <> p) /\ NoDup (remove_first p l).
Proof.
  induction l as [|r l IH]; intros Hn; [split; [intros q; simpl; rewrite elem_of_nil; tauto|constructor]|].
  apply list.NoDup_cons in Hn as [Hr Hn]. destruct (IH Hn) as [H1 H2]. cbn [remove_first]. destruct (Z.eqb_spec r p) as [->|Hne].
  - split; [|done]. intros q. rewrite elem_of_cons. split; [intros Hq; split; [by right|by intros ->]|intros [[->|?] ?]; done].
  - split; [intros q; rewrite !elem_of_cons, H1; split; [intros [->|?]; tauto|tauto]|]. apply list.NoDup_cons. split; [|done].
    intros [? _]%H1. done.
Qed.
Lemma remove_first_none p l : p ∉ l -> remove_first p l = l.
Proof.
  induction l as [|r l IH]; [done|]. intros [H1 H2]%not_elem_of_cons. cbn [remove_first]. rewrite (proj2 (Z.eqb_neq r p)) by congruence. by rewrite IH.
Qed.

Section Fork.
Context {ins : Inputs} {ap : APInt} {ap_ok : APIntOk} (RewriteEqualities simplifyExprs : bool) (o : options) (rng : Z -> Z).
Context {St : Type} (solver : SolverImpl St) (inv : St -> Prop) {values : GivesValues solver inv} {decides : Decides solver inv}.
Abbreviation executor := (executor St).

(** A path that can be taken. *)
Record state_ok (s : est) : Prop := { so_path : path_ok (constraints s); so_sat : exists init, solution (constraints s) init }.
Lemma state_ok_same s s' : constraints s' = constraints s -> state_ok s -> state_ok s'.
Proof. intros E []. by split; rewrite E. Qed.
(** Memory holds the states of the search and the new ones, each with its leaf of the tree. *)
Record exec_ok (x : executor) : Prop := {
  ex_live p : is_Some (live x !! p) <-> p ∈ states x \/ p ∈ addedStates x;
  ex_fresh p : is_Some (live x !! p) -> p < next_state x;
  ex_states : NoDup (states x);
  ex_added : NoDup (addedStates x);
  ex_apart p : p ∈ states x -> p ∉ addedStates x;
  ex_removed : NoDup (removedStates x);
  ex_gone p : p ∈ removedStates x -> p ∈ states x;
  ex_tree : wf (processTree x);
  ex_leaves : leaves (processTree x) (ptreeNode <$> live x) None;
  ex_paths p s : live x !! p = Some s -> state_ok s;
  ex_solver : inv (solver_state x)
}.

Definition set_state (p : Z) (s : est) (x : executor) : executor :=
  Exec (<[p := s]> (live x)) (next_state x) (states x) (addedStates x) (removedStates x) (processTree x) (forks x) (draws x)
    (replayPosition x) (solver_state x).
Definition with_solver (st : St) (x : executor) : executor :=
  Exec (live x) (next_state x) (states x) (addedStates x) (removedStates x) (processTree x) (forks x) (draws x) (replayPosition x) st.
Lemma state_at_run p s (x : executor) : live x !! p = Some s -> state_at p x = Ret (s, x).
Proof. unfold state_at. by intros ->. Qed.
Lemma on_state_run p f s (x : executor) : live x !! p = Some s -> on_state p f x = Ret (tt, set_state p (f s) x).
Proof. intros H. unfold on_state. by rewrite (mbind_run _ _ _ _ _ (state_at_run p s x H)). Qed.
Lemma set_state_id p s (x : executor) : live x !! p = Some s -> set_state p s x = x.
Proof. intros H. unfold set_state. rewrite insert_id by done. by destruct x. Qed.
Lemma ev_state {A} p s (f : nat -> est -> M executor A) (x : executor) Q :
  live x !! p = Some s -> eventually (fun n => f n s) x Q -> eventually (fun n => state_at p ≫= f n) x Q.
Proof.
  intros H (a & x' & [n Hn] & Ha). exists a, x'. split; [|done]. exists n. intros m Hm.
  rewrite (mbind_run _ _ _ _ _ (state_at_run p s x H)). by apply Hn.
Qed.
Lemma ev_solver {A} (run : nat -> M St A) (x : executor) (Q : A -> St -> Prop) :
  eventually run (solver_state x) Q -> eventually (fun n => on_solver (run n)) x (fun a x' => exists st, x' = with_solver st x /\ Q a st).
Proof. intros H. apply ev_zoom. eapply ev_mono; [exact H|]. intros a st Hq. by exists st. Qed.

Lemma set_state_ok p s s' (x : executor) :
  exec_ok x -> live x !! p = Some s -> ptreeNode s' = ptreeNode s -> state_ok s' -> exec_ok (set_state p s' x).
Proof.
  intros [] Hp Hn Hs. assert (Hd : forall q, is_Some (<[p := s']> (live x) !! q) <-> is_Some (live x !! q)).
  { intros q. rewrite lookup_insert. case_decide as E; [|done]. subst q. rewrite Hp. split; by eexists. }
  split; cbn [live next_state states addedStates removedStates processTree set_state solver_state]; try done.
  - intros q. by rewrite Hd.
  - intros q. rewrite Hd. auto.
  - rewrite fmap_insert, Hn, insert_id; [done|]. by rewrite lookup_fmap, Hp.
  - intros q sq. rewrite lookup_insert. case_decide; [intros [= <-]; done|eauto].
Qed.
Lemma with_solver_ok st (x : executor) : exec_ok x -> inv st -> exec_ok (with_solver st x).
Proof. intros [] H. by split. Qed.

(** ** Adding a condition *)
(** [s'] is [s] where [e] holds. *)
Record narrowed (s : est) (e : expr) (s' : est) : Prop := {
  na_same : s' = with_constraints (constraints s') s;
  na_path : path_ok (constraints s');
  na_sols init : solution (constraints s') init <-> solution (constraints s) init /\ holds init e
}.
Lemma add_ok_exec p s e init0 (x : executor) :
  live x !! p = Some s -> state_ok s -> asked 1 e -> solution (constraints s) init0 -> holds init0 e ->
  eventually (fun n => exec_addConstraint false RewriteEqualities n p e) x
    (fun _ x' => exists s', x' = set_state p s' x /\ narrowed s e s').
Proof.
  intros Hp [Hpath Hsat] He Hs Hh. destruct (isConstant e) eqn:Ec.
  - destruct e as [w v| | | | | | | | |]; try done. pose proof (verdict_constant (constraints s) w v He) as Hv.
    cbn [exec_addConstraint]. destruct (isTrue w v).
    + apply ev_ret. exists s. split; [by rewrite set_state_id|]. split; [by destruct s|done|]. intros init. split; [|tauto].
      intros Hi. split; [done|]. by apply Hv.
    + by destruct (Hv init0 Hs).
  - destruct (added RewriteEqualities (constraints s) e init0 Hpath He Hs Hh) as (cs' & G & Hp' & Hs').
    assert (H : eventually (fun n => s ← state_at p; cs ← lift (addConstraint false RewriteEqualities n e (constraints s)); on_state p (with_constraints cs)) x
      (fun _ x' => exists s', x' = set_state p s' x /\ narrowed s e s')); [|by destruct e].
    eapply ev_state; [exact Hp|]. eapply ev_lift; [exact G|]. apply ev_runs. unfold runs. rewrite (on_state_run p _ s x Hp).
    exists (with_constraints cs' s). split; [done|]. by split.
Qed.
Lemma narrowed_ok s e s' init0 : narrowed s e s' -> solution (constraints s) init0 -> holds init0 e -> state_ok s'.
Proof. intros [_ H1 H2] Hs He. split; [done|]. exists init0. by apply H2. Qed.
Lemma narrowed_node s e s' : narrowed s e s' -> ptreeNode s' = ptreeNode s.
Proof. intros [-> _ _]. done. Qed.

(** The same place in the program. *)
Record same_control (s s' : est) : Prop := {
  sc_pc : pc s' = pc s;
  sc_prevPC : prevPC s' = prevPC s;
  sc_stack : stack s' = stack s;
  sc_incoming : incomingBBIndex s' = incomingBBIndex s;
  sc_forks : forkDisabled s' = forkDisabled s
}.
Lemma same_control_trans s1 s2 s3 : same_control s1 s2 -> same_control s2 s3 -> same_control s1 s3.
Proof. intros [] []. split; congruence. Qed.
Lemma narrowed_control s e s' : narrowed s e s' -> same_control s s'.
Proof. intros [-> _ _]. done. Qed.
(** The solutions of [s'] are those of [s] where the condition has value [b]. *)
Definition child (s : est) (condition : expr) (b : bool) (s' : est) : Prop :=
  same_control s s' /\ forall init, solution (constraints s') init <-> solution (constraints s) init /\ (holds init condition <-> b = true).
Lemma child_true s e s' : narrowed s e s' -> child s e true s'.
Proof. intros Hn. split; [by eapply narrowed_control|]. destruct Hn as [_ _ H]. intros init. rewrite H. intuition. Qed.
Lemma child_false s e z s' : (forall cs init, solution cs init -> (holds init z <-> ~ holds init e)) -> narrowed s z s' -> child s e false s'.
Proof.
  intros Hz Hn. split; [by eapply narrowed_control|]. destruct Hn as [_ _ H]. intros init. rewrite H.
  split; intros [H1 H2]; (split; [done|]); specialize (Hz _ _ H1); intuition congruence.
Qed.
Lemma child_all s e (b : bool) : (forall init, solution (constraints s) init -> (holds init e <-> b = true)) -> child s e b s.
Proof. intros H. split; [done|]. intros init. split; [|tauto]. intros Hi. split; [done|by apply H]. Qed.

Lemma take_branch_ok p s condition b init0 (x : executor) :
  live x !! p = Some s -> state_ok s -> asked 1 condition -> solution (constraints s) init0 -> (holds init0 condition <-> b = true) ->
  eventually (fun n => take_branch false RewriteEqualities n p condition b) x
    (fun res x' => res = (if b then VTrue else VFalse) /\
       exists s', x' = set_state p s' x /\ child s condition b s' /\ state_ok s' /\ ptreeNode s' = ptreeNode s).
Proof.
  intros Hp Hok He Hs Hh. unfold take_branch. destruct b.
  - assert (Hc : holds init0 condition) by tauto. cbn [mbind M_bind mret M_ret]. unfold mbind at 1, M_bind at 1.
    eapply ev_bind; [by eapply (add_ok_exec p s condition init0)|]. intros ? x' (s' & -> & Hn). apply ev_ret. split; [done|]. exists s'.
    split_and!; [done|by apply child_true|by eapply narrowed_ok|by eapply narrowed_node].
  - destruct (is_zero_ok condition He) as (z & Ez & Az & Hz). eapply ev_lift_const; [exact Ez|].
    assert (Hc : holds init0 z) by (apply (Hz (constraints s)); [done|intuition congruence]).
    eapply ev_bind; [by eapply (add_ok_exec p s z init0)|]. intros ? x' (s' & -> & Hn). apply ev_ret. split; [done|]. exists s'.
    split_and!; [done|by eapply child_false|by eapply narrowed_ok|by eapply narrowed_node].
Qed.

(** ** What stays *)
Record keeps (p : Z) (x x' : executor) : Prop := {
  ke_other q : q <> p -> live x' !! q = live x !! q;
  ke_next : next_state x' = next_state x;
  ke_states : states x' = states x;
  ke_added : addedStates x' = addedStates x;
  ke_removed : removedStates x' = removedStates x;
  ke_forks : forks x' = forks x
}.
Lemma path_keeps_refl p x : keeps p x x.
Proof. done. Qed.
Lemma path_keeps_trans p x y z : keeps p x y -> keeps p y z -> keeps p x z.
Proof. intros [A1 A2 A3 A4 A5 A6] [B1 B2 B3 B4 B5 B6]. split; [intros q Hq; by rewrite B1, A1|congruence..]. Qed.
Lemma keeps_set p s x : keeps p x (set_state p s x).
Proof. split; try done. intros q Hq. simpl. by rewrite lookup_insert_ne. Qed.
Lemma keeps_solver p st x : keeps p x (with_solver st x).
Proof. done. Qed.

(** ** The limits *)
Lemma decided_ok p s e x : exec_ok x -> live x !! p = Some s -> asked 1 e ->
  eventually (fun n => on_solver (timing_evaluate false simplifyExprs solver n (constraints s) e)) x
    (fun r x' => exec_ok x' /\ keeps p x x' /\ live x' !! p = Some s /\ decided solver inv (constraints s) e r).
Proof.
  intros Hx Hp He. destruct (ex_paths _ Hx p s Hp) as [H1 [init0 H2]].
  eapply ev_mono; [apply ev_solver; by apply (timing_evaluate_ok simplifyExprs solver inv (constraints s) init0 H1 H2 e _ He), Hx|].
  intros r x' (st & -> & Hst & Hv). split; [by apply with_solver_ok|]. by split_and!.
Qed.
Definition drawn (x : executor) : executor :=
  Exec (live x) (next_state x) (states x) (addedStates x) (removedStates x) (processTree x) (forks x) (draws x + 1) (replayPosition x) (solver_state x).
Lemma getBool_run x : exists b, getBool rng x = Ret (b, drawn x).
Proof. unfold getBool, getInt32, mbind, M_bind, mret, M_ret, drawn. cbv beta iota zeta. eexists. reflexivity. Qed.
Lemma drawn_ok x : exec_ok x -> exec_ok (drawn x).
Proof. intros []. by split. Qed.

(** One branch was taken. *)
Definition narrows (p : Z) (s : est) (condition : expr) (b : bool) (x x' : executor) : Prop :=
  exec_ok x' /\ keeps p x x' /\ exists s', live x' !! p = Some s' /\ child s condition b s' /\ ptreeNode s' = ptreeNode s.
Lemma take_branch_narrows p s condition b init0 (x : executor) :
  exec_ok x -> live x !! p = Some s -> asked 1 condition -> solution (constraints s) init0 -> (holds init0 condition <-> b = true) ->
  eventually (fun n => take_branch false RewriteEqualities n p condition b) x
    (fun res x' => res = (if b then VTrue else VFalse) /\ narrows p s condition b x x').
Proof.
  intros Hx Hp He Hs Hh. pose proof (ex_paths _ Hx p s Hp) as Hok.
  eapply ev_mono; [by eapply (take_branch_ok p s condition b init0)|]. intros res x' (-> & s' & -> & Hc & Hok' & Hn).
  split; [done|]. split; [by eapply set_state_ok|]. split; [apply keeps_set|]. exists s'. split; [apply lookup_insert_eq|done].
Qed.

Lemma limit_fork_ok p s condition isInternal res (x : executor) :
  replayPath o = None -> replayKTest o = false ->
  exec_ok x -> live x !! p = Some s -> asked 1 condition -> verdict (constraints s) condition res ->
  eventually (fun n => limit_fork false RewriteEqualities o rng n p condition isInternal res) x (fun res' x' =>
    (res' = res /\ x' = x /\ (res = VUnknown -> inhibited o s (forks x) = false)) \/
    (res = VUnknown /\ inhibited o s (forks x) = true /\ exists b : bool, res' = (if b then VTrue else VFalse) /\ narrows p s condition b x x')).
Proof.
  intros Hr Hk Hx Hp He Hv. unfold limit_fork. rewrite Hr, Hk. destruct res; [by apply ev_ret; left..|].
  cbn [negb assert_]. unfold mbind at 1, M_bind at 1, mret at 1, M_ret at 1. eapply ev_state; [exact Hp|]. apply ev_get.
  destruct (inhibited o s (forks x)) eqn:Ei; [|by apply ev_ret; left].
  destruct (getBool_run x) as [b Hb]. apply (ev_bind (fun _ => getBool rng) _ _ (fun b' x' => b' = b /\ x' = drawn x)).
  { apply ev_runs. unfold runs. by rewrite Hb. }
  intros ? ? [-> ->]. destruct Hv as [(i1 & S1 & H1) (i0 & S0 & H0)].
  eapply ev_mono; [apply (take_branch_narrows p s condition b (if b then i1 else i0)); [by apply drawn_ok|done|done|by destruct b|by destruct b; intuition]|].
  intros res' x' (-> & H2 & H3 & H4). right. split_and!; [done|done|]. exists b. split; [done|]. split; [done|]. split; [|done].
  eapply path_keeps_trans; [|exact H3]. done.
Qed.

(** The condition is replaced by one of its values. *)
Lemma limit_static_ok over p s condition (x : executor) :
  exec_ok x -> live x !! p = Some s -> asked 1 condition ->
  eventually (fun n => limit_static false RewriteEqualities simplifyExprs solver n over p condition) x (fun c x' =>
    (c = condition /\ x' = x /\ (over = false \/ isConstant condition = true)) \/
    (over = true /\ exists b : bool, c = Constant 1 (b2z b) /\ narrows p s condition b x x')).
Proof.
  intros Hx Hp He. unfold limit_static. destruct (isConstant condition) eqn:Ec; [by apply ev_ret; left; auto|]. destruct over; [|by apply ev_ret; left; auto].
  cbn [negb andb]. eapply ev_state; [exact Hp|]. destruct (ex_paths _ Hx p s Hp) as [H1 [init0 H2]].
  eapply ev_bind.
  { apply ev_solver. exact (timing_getValue_ok simplifyExprs solver inv (constraints s) init0 H1 H2 1 condition _ He (ex_solver _ Hx)). }
  intros r x' (st & -> & Hst & v & init & -> & Hs & Hv).
  assert (Hb : exists b, v = b2z b) by (destruct (asked_bool condition _ init He Hs) as [E|E]; rewrite E in Hv; injection Hv as <-; [by exists true|by exists false]).
  destruct Hb as [b ->].
  destruct (binary_created Eq 1 (Constant 1 (b2z b)) condition) as (e & Ee & Ae & Ve); [by destruct b|done|done|]. simpl in Ae.
  eapply ev_lift_const; [exact Ee|].
  assert (Hh : forall init, solution (constraints s) init -> (holds init e <-> (holds init condition <-> b = true))).
  { intros i Hi. unfold holds. destruct (asked_bool condition _ i He Hi) as [Hc|Hc], b.
    - rewrite (Ve i 1), Hc; [by split|by eapply sol_init|simpl; by rewrite Hc].
    - rewrite (Ve i 0), Hc; [|by eapply sol_init|simpl; by rewrite Hc]. split; [done|]. intros [H _]. by specialize (H eq_refl).
    - rewrite (Ve i 0), Hc; [|by eapply sol_init|simpl; by rewrite Hc]. split; [done|]. intros [_ H]. by specialize (H eq_refl).
    - rewrite (Ve i 1), Hc; [by split|by eapply sol_init|simpl; by rewrite Hc]. }
  assert (Hinit : holds init condition <-> b = true) by (unfold holds; rewrite Hv; destruct b; by split).
  eapply ev_bind; [apply (add_ok_exec p s e init (with_solver st x)); [done|by split; [|exists init0]|done|done|by apply Hh]|].
  intros ? x' (s' & -> & Hn). apply ev_ret. right. split; [done|]. exists b. split; [done|]. split.
  - eapply (set_state_ok p s); [by apply with_solver_ok|done|by eapply narrowed_node|]. destruct Hn as [_ N1 N2]. split; [done|].
    exists init. apply N2. split; [done|]. by apply Hh.
  - split; [apply (path_keeps_trans _ _ (with_solver st x)); [done|apply keeps_set]|]. exists s'. split_and!; [apply lookup_insert_eq| |by eapply narrowed_node].
    split; [by eapply narrowed_control|]. destruct Hn as [_ _ N2]. intros i. rewrite N2. split; intros [A B]; (split; [done|]); by apply (Hh i A).
Qed.

(** ** A second state *)
Definition cloned (p : Z) (s : est) (x : executor) : executor :=
  let q := next_state x in
  let n := next_node (processTree x) in
  let s' := with_depth (u32 (depth s + 1)) s in
  Exec (<[p := with_node (n + 1) s']> (<[q := with_node n s']> (live x))) (q + 1) (states x) (addedStates x ++ [q]) (removedStates x)
    (split_result (processTree x) (ptreeNode s) q p (default (MkNode None None None None) (nodes (processTree x) !! ptreeNode s)))
    (forks x) (draws x) (replayPosition x) (solver_state x).
Lemma leaf_of p s (x : executor) : exec_ok x -> live x !! p = Some s ->
  exists y, nodes (processTree x) !! ptreeNode s = Some y /\ no_kids y = true /\ data y = Some p.
Proof. intros Hx Hp. apply (le_owned _ _ _ (ex_leaves _ Hx)). by rewrite lookup_fmap, Hp. Qed.
Lemma clone_run {A} p s (x : executor) (k : Z -> M executor A) : exec_ok x -> live x !! p = Some s ->
  (ns ← state_branch p; set_lists id (fun l => l ++ [ns]) id;; split_tree p ns;; k ns) x = k (next_state x) (cloned p s x).
Proof.
  intros Hx Hp. assert (Hfresh : p < next_state x) by (apply (ex_fresh _ Hx); by eexists).
  destruct (leaf_of p s x Hx Hp) as (y & Hy & Hk & _). set (s' := with_depth (u32 (depth s + 1)) s).
  set (x1 := Exec (<[next_state x := s']> (<[p := s']> (live x))) (next_state x + 1) (states x) (addedStates x) (removedStates x)
    (processTree x) (forks x) (draws x) (replayPosition x) (solver_state x)).
  rewrite (mbind_run _ _ x (next_state x) x1) by (unfold state_branch; by rewrite Hp).
  set (x2 := Exec (live x1) (next_state x + 1) (states x) (addedStates x ++ [next_state x]) (removedStates x)
    (processTree x) (forks x) (draws x) (replayPosition x) (solver_state x)).
  rewrite (mbind_run _ _ x1 tt x2) by done.
  rewrite (mbind_run _ _ x2 tt (cloned p s x)); [done|]. unfold split_tree.
  assert (Hp2 : live x2 !! p = Some s') by (simpl; rewrite lookup_insert_ne by lia; apply lookup_insert_eq).
  rewrite (mbind_run _ _ _ _ _ (state_at_run p s' x2 Hp2)).
  assert (Ht : forall B (f : M ptree B) b t, f (processTree x) = Ret (b, t) -> on_tree f x2 = Ret (b,
    Exec (live x2) (next_state x2) (states x2) (addedStates x2) (removedStates x2) t (forks x2) (draws x2) (replayPosition x2) (solver_state x2))).
  { intros B f b t E. unfold on_tree, zoom. cbn [processTree x2]. by rewrite E. }
  pose proof (split_run (processTree x) (ptreeNode s) (next_state x) p y (ex_tree _ Hx) Hy Hk) as Hs.
  assert (Hboth : forall B (f : unit -> M ptree (Z * Z)) (g : Z * Z -> M executor B) r t,
     ((set_data (ptreeNode s) None) ≫= f) (processTree x) = Ret (r, t) ->
     (on_tree (set_data (ptreeNode s) None) ≫= (fun u => on_tree (f u) ≫= g)) x2 = g r
       (Exec (live x2) (next_state x2) (states x2) (addedStates x2) (removedStates x2) t (forks x2) (draws x2) (replayPosition x2) (solver_state x2))).
  { intros B f g r t E. apply mbind_inv in E as (u & t1 & E1 & E2). rewrite (mbind_run _ _ _ _ _ (Ht _ _ u t1 E1)).
    unfold on_tree at 1, zoom at 1, mbind at 1, M_bind at 1. cbn [processTree]. rewrite E2. done. }
  change (ptreeNode s') with (ptreeNode s). rewrite (Hboth _ _ _ _ _ Hs). cbn [fst snd].
  set (x3 := Exec (live x2) _ _ _ _ (split_result _ _ _ _ _) _ _ _ _).
  rewrite (mbind_run _ _ _ _ _ (on_state_run (next_state x) _ s' x3 (lookup_insert_eq _ _ _))).
  rewrite (on_state_run p _ s' _); [|simpl; rewrite lookup_insert_ne by lia; exact Hp2].
  do 2 f_equal. unfold cloned, set_state. simpl. rewrite Hy. cbn [default from_option]. f_equal.
  apply map_eq. intros i. rewrite !lookup_insert. repeat case_decide; done.
Qed.
Lemma cloned_ok p s (x : executor) : exec_ok x -> live x !! p = Some s -> exec_ok (cloned p s x).
Proof.
  intros Hx Hp. pose proof (leaf_of p s x Hx Hp) as (y & Hy & Hk & _). pose proof (ex_fresh _ Hx) as Hf.
  assert (Hq : live x !! next_state x = None).
  { destruct (live x !! next_state x) eqn:E; [|done]. specialize (Hf (next_state x) ltac:(by eexists)). lia. }
  assert (Hpl : is_Some (live x !! p)) by by eexists. pose proof (Hf p Hpl) as Hpq.
  assert (Hqs : (next_state x ∉ states x) /\ (next_state x ∉ addedStates x)).
  { split; intros H; assert (is_Some (live x !! next_state x)) as [? ?] by (apply (ex_live _ Hx); tauto); congruence. }
  destruct Hx. unfold cloned. rewrite Hy. cbn [default from_option].
  split; cbn [live next_state states addedStates removedStates processTree solver_state]; try done.
  - intros r. rewrite !lookup_insert, elem_of_app, list_elem_of_singleton. case_decide as E; [subst r; apply ex_live0 in Hpl; split; [tauto|by eexists]|].
    case_decide as E'; [subst r; split; [tauto|by eexists]|]. rewrite ex_live0. intuition congruence.
  - intros r. rewrite !lookup_insert. case_decide as E; [subst r; lia|]. case_decide as E'; [subst r; lia|]. intros H. specialize (Hf r H). lia.
  - apply list.NoDup_app. split_and!; [done| |apply NoDup_singleton]. intros r Hr ->%list_elem_of_singleton. tauto.
  - intros r Hr [Ha|Ha]%elem_of_app; [by apply (ex_apart0 r)|]. apply list_elem_of_singleton in Ha as ->. tauto.
  - by apply split_wf.
  - rewrite !fmap_insert. apply split_leaves; [done|done|done|by rewrite lookup_fmap, Hp|by rewrite lookup_fmap, Hq].
  - intros r sr. rewrite !lookup_insert. case_decide; [intros [= <-]; by eapply state_ok_same, (ex_paths0 p s)|]. case_decide; [intros [= <-]; by eapply state_ok_same, (ex_paths0 p s)|eauto].
Qed.

(** ** The end of a state *)
(** A state that the searcher does not know is freed; another one is on the list of those that
    will be removed. *)
Definition ended (p : Z) (x x' : executor) : Prop :=
  (forall q, q <> p -> live x' !! q = live x !! q) /\ states x' = states x /\ next_state x <= next_state x' /\
  ((p ∈ addedStates x /\ live x' !! p = None /\ addedStates x' = remove_first p (addedStates x) /\ removedStates x' = removedStates x) \/
   ((p ∉ addedStates x) /\ addedStates x' = addedStates x /\ removedStates x' = removedStates x ++ [p])).
(** A state is freed. *)
Definition dropped (p : Z) (t : ptree) (x : executor) : executor :=
  Exec (delete p (live x)) (next_state x) (remove_first p (states x)) (remove_first p (addedStates x)) (removedStates x) t (forks x) (draws x)
    (replayPosition x) (solver_state x).
Lemma dropped_ok p s (x : executor) : exec_ok x -> live x !! p = Some s -> p ∉ removedStates x ->
  exists t, remove (ptreeNode s) (processTree x) = Ret (tt, t) /\ exec_ok (dropped p t x).
Proof.
  intros Hx Hp Hr. destruct (remove_first_elem p (addedStates x) (ex_added _ Hx)) as [Ha Na].
  destruct (remove_first_elem p (states x) (ex_states _ Hx)) as [Hs Ns].
  destruct (remove_ok_tree (processTree x) (ptreeNode <$> live x) p (ptreeNode s) (ex_tree _ Hx) (ex_leaves _ Hx)) as (t & Et & T1 & T2 & _);
    [by rewrite lookup_fmap, Hp|].
  exists t. split; [done|]. destruct Hx. split; cbn [live next_state states addedStates removedStates processTree solver_state dropped]; try done.
  - intros q. rewrite Ha, Hs. destruct (decide (q = p)) as [->|Hne].
    + rewrite lookup_delete_eq. split; [by intros [? ?]|]. intuition.
    + rewrite lookup_delete_ne by done. rewrite ex_live0. intuition.
  - intros q [? [_ Hq]%lookup_delete_Some]. apply ex_fresh0. by eexists.
  - intros q [Hq _]%Hs [Hq' _]%Ha. by apply (ex_apart0 q).
  - intros q Hq. apply Hs. split; [by apply ex_gone0|by intros ->].
  - by rewrite fmap_delete.
  - intros q sq [_ Hq]%lookup_delete_Some. eauto.
Qed.
Lemma on_tree_run {A} (m : M ptree A) (x : executor) a t : m (processTree x) = Ret (a, t) ->
  on_tree m x = Ret (a, Exec (live x) (next_state x) (states x) (addedStates x) (removedStates x) t (forks x) (draws x) (replayPosition x) (solver_state x)).
Proof. intros H. unfold on_tree, zoom. by rewrite H. Qed.
Lemma terminate_ok p s (x : executor) : exec_ok x -> live x !! p = Some s -> p ∉ removedStates x ->
  exists x', terminateState p x = Ret (tt, x') /\ exec_ok x' /\ ended p x x'.
Proof.
  intros Hx Hp Hr. unfold terminateState. unfold get at 1, mbind at 1, M_bind at 1. case_bool_decide as Ha.
  - rewrite (mbind_run _ _ _ _ _ (state_at_run p s x Hp)). destruct (dropped_ok p s x Hx Hp Hr) as (t & Et & Hd). exists (dropped p t x).
    set (x1 := Exec (live x) (next_state x) (states x) (remove_first p (addedStates x)) (removedStates x) (processTree x) (forks x) (draws x)
      (replayPosition x) (solver_state x)). rewrite (mbind_run _ _ x tt x1) by done. rewrite (mbind_run _ _ _ _ _ (on_tree_run _ x1 tt t Et)).
    assert (Hns : remove_first p (states x) = states x) by (apply remove_first_none; intros Hs; by apply (ex_apart _ Hx p)).
    split; [unfold dropped; by rewrite Hns|]. split; [done|]. split; [intros q Hq; simpl; by rewrite lookup_delete_ne|]. split; [done|]. split; [done|].
    left. split_and!; [done|simpl; apply lookup_delete_eq|done|done].
  - rewrite (mbind_run _ _ _ _ _ (on_state_run p back_to_prev s x Hp)). eexists. split; [reflexivity|]. split.
    + pose proof (set_state_ok p s (back_to_prev s) x Hx Hp eq_refl (state_ok_same s (back_to_prev s) eq_refl (ex_paths _ Hx p s Hp))) as [].
      split; cbn [live next_state states addedStates removedStates processTree solver_state set_state] in *; try done.
      * apply list.NoDup_app. split_and!; [done| |apply NoDup_singleton]. intros r Hr' ->%list_elem_of_singleton. done.
      * intros q [Hq|Hq]%elem_of_app; [by apply ex_gone0|]. apply list_elem_of_singleton in Hq as ->.
        destruct (proj1 (ex_live _ Hx p) ltac:(by eexists)); [done|]. by destruct Ha.
    + split_and!; [intros q Hq; simpl; by rewrite lookup_insert_ne|done|done|]. right. done.
Qed.
(** ** Both children *)
Lemma ev_bind_run {S A B} (m : M S A) (f : nat -> A -> M S B) x a x' Q :
  m x = Ret (a, x') -> eventually (fun n => f n a) x' Q -> eventually (fun n => m ≫= f n) x Q.
Proof.
  intros H (b & y & [n Hn] & Hb). exists b, y. split; [|done]. exists n. intros k Hk. rewrite (mbind_run _ _ _ _ _ H). by apply Hn.
Qed.
Lemma ev_clone {A} p s (k : nat -> Z -> M executor A) (x : executor) Q : exec_ok x -> live x !! p = Some s ->
  eventually (fun n => k n (next_state x)) (cloned p s x) Q ->
  eventually (fun n => ns ← state_branch p; set_lists id (fun l => l ++ [ns]) id;; split_tree p ns;; k n ns) x Q.
Proof.
  intros Hx Hp (a & y & [n Hn] & Ha). exists a, y. split; [|done]. exists n. intros m Hm. rewrite (clone_run p s x) by done. by apply Hn.
Qed.

(** Only the records of the branches differ. *)
Record similar (s s' : est) : Prop := {
  si_constraints : constraints s' = constraints s;
  si_control : same_control s s';
  si_depth : depth s' = depth s;
  si_node : ptreeNode s' = ptreeNode s
}.
Lemma set_both_ok p q sp sq sp' sq' (x : executor) : exec_ok x -> p <> q -> live x !! p = Some sp -> live x !! q = Some sq ->
  ptreeNode sp' = ptreeNode sp -> ptreeNode sq' = ptreeNode sq -> state_ok sp' -> state_ok sq' -> exec_ok (set_state q sq' (set_state p sp' x)).
Proof.
  intros Hx Hne Hp Hq H1 H2 H3 H4. apply (set_state_ok q sq); [by apply (set_state_ok p sp)| |done|done].
  simpl. by rewrite lookup_insert_ne.
Qed.
Lemma set_both_set p q s1 s2 s3 s4 (x : executor) : p <> q ->
  set_state q s4 (set_state p s3 (set_state q s2 (set_state p s1 x))) = set_state q s4 (set_state p s3 x).
Proof.
  intros Hne. unfold set_state. cbn [live next_state states addedStates removedStates processTree forks draws replayPosition solver_state].
  f_equal. apply map_eq. intros r. rewrite !lookup_insert. repeat case_decide; done.
Qed.
Lemma on_both_run {A} p q f g sp sq (k : M executor A) (x : executor) : p <> q -> live x !! p = Some sp -> live x !! q = Some sq ->
  (on_state p f;; on_state q g;; k) x = k (set_state q (g sq) (set_state p (f sp) x)).
Proof.
  intros Hne Hp Hq. rewrite (mbind_run _ _ _ _ _ (on_state_run p f sp x Hp)).
  rewrite (mbind_run _ _ _ _ _ (on_state_run q g sq (set_state p (f sp) x) ltac:(simpl; by rewrite lookup_insert_ne))). done.
Qed.
Lemma if_both_run (b : bool) p q f g sp sq (x : executor) : p <> q -> live x !! p = Some sp -> live x !! q = Some sq ->
  (forall s, similar s (f s)) -> (forall s, similar s (g s)) ->
  exists sp' sq', (if b then on_state p f;; on_state q g else mret tt) x = Ret (tt, set_state q sq' (set_state p sp' x)) /\
    similar sp sp' /\ similar sq sq'.
Proof.
  intros Hne Hp Hq Hf Hg. destruct b.
  - exists (f sp), (g sq). split; [|done]. rewrite (mbind_run _ _ _ _ _ (on_state_run p f sp x Hp)).
    by rewrite (on_state_run q g sq (set_state p (f sp) x)) by (simpl; by rewrite lookup_insert_ne).
  - exists sp, sq. split; [|done]. rewrite (set_state_id p sp x Hp), (set_state_id q sq x Hq). done.
Qed.
Lemma write_both_run p q isInternal sp sq (x : executor) : p <> q -> live x !! p = Some sp -> live x !! q = Some sq ->
  exists sp' sq', write_both o p q isInternal x = Ret (tt, set_state q sq' (set_state p sp' x)) /\ similar sp sp' /\ similar sq sq'.
Proof.
  intros Hne Hp Hq. unfold write_both. destruct isInternal; [by apply (if_both_run false p q id id)|].
  destruct (if_both_run (pathWriter o) p q (with_path true) (with_path false) sp sq x Hne Hp Hq) as (s1 & s2 & E1 & [A1 A0 A2 A3] & [B1 B0 B2 B3]); [done..|].
  rewrite (mbind_run _ _ _ _ _ E1).
  destruct (if_both_run (symPathWriter o) p q (with_symPath true) (with_symPath false) s1 s2 (set_state q s2 (set_state p s1 x)) Hne)
    as (s3 & s4 & E2 & [C1 C0 C2 C3] & [D1 D0 D2 D3]); [simpl; rewrite lookup_insert_ne by done; apply lookup_insert_eq|apply lookup_insert_eq|done..|].
  exists s3, s4. rewrite E2, set_both_set by done. split_and!; [done|split; [congruence|by eapply same_control_trans|congruence..]..].
Qed.

(** The two children of a state. *)
Definition both (p : Z) (s : est) (condition : expr) (x x' : executor) : Prop :=
  let q := next_state x in
  (exists sp sq, live x' !! p = Some sp /\ live x' !! q = Some sq /\ child s condition true sp /\ child s condition false sq) /\
  (forall r, r <> p -> r <> q -> live x' !! r = live x !! r) /\ states x' = states x /\ addedStates x' = addedStates x ++ [q] /\
  removedStates x' = removedStates x /\ next_state x' = q + 1.
Definition counted (x : executor) : executor :=
  Exec (live x) (next_state x) (states x) (addedStates x) (removedStates x) (processTree x) (u64 (forks x + 1)) (draws x) (replayPosition x)
    (solver_state x).
Lemma counted_ok x : exec_ok x -> exec_ok (counted x).
Proof. intros []. by split. Qed.
Lemma child_similar s s1 c b s' : same_control s s1 -> constraints s1 = constraints s -> child s1 c b s' -> child s c b s'.
Proof. intros H1 E [H2 H3]. split; [by eapply same_control_trans|]. by rewrite <- E. Qed.

(** The conditions are added to both. *)
Lemma conditions_ok {A} p q condition sp sq i1 i0 (k : nat -> M executor A) (x : executor) (Q : A -> executor -> Prop) :
  exec_ok x -> p <> q -> live x !! p = Some sp -> live x !! q = Some sq -> asked 1 condition ->
  solution (constraints sp) i1 -> holds i1 condition -> solution (constraints sq) i0 -> ~ holds i0 condition ->
  (forall sp' sq', exec_ok (set_state q sq' (set_state p sp' x)) -> child sp condition true sp' -> child sq condition false sq' ->
     depth sp' = depth sp -> eventually k (set_state q sq' (set_state p sp' x)) Q) ->
  eventually (fun n => exec_addConstraint false RewriteEqualities n p condition;; e ← lift (createIsZero false condition);
    exec_addConstraint false RewriteEqualities n q e;; k n) x Q.
Proof.
  intros Hx Hne Hp Hq He S1 H1 S0 H0 Hk. pose proof (ex_paths _ Hx p sp Hp) as Op. pose proof (ex_paths _ Hx q sq Hq) as Oq.
  eapply ev_bind; [by eapply (add_ok_exec p sp condition i1)|]. intros ? x1 (sp' & -> & Np).
  destruct (is_zero_ok condition He) as (z & Ez & Az & Hz). eapply ev_lift_const; [exact Ez|].
  assert (Hc : holds i0 z) by by apply (Hz (constraints sq)).
  eapply ev_bind; [apply (add_ok_exec q sq z i0); [simpl; by rewrite lookup_insert_ne|done..]|]. intros ? x2 (sq' & -> & Nq). apply Hk.
  - apply (set_both_ok p q sp sq); try done; [by eapply narrowed_node|by eapply narrowed_node|by eapply narrowed_ok|by eapply narrowed_ok].
  - by apply child_true.
  - by eapply child_false.
  - destruct Np as [-> _ _]. done.
Qed.
(** The limit on the depth is reached by the children of [s]. *)
Definition at_depth (s : est) : bool := nz (MaxDepth o) && (MaxDepth o <=? u32 (depth s + 1)).
(** Both values of the condition are possible. *)
Definition splits (s : est) (condition : expr) : Prop :=
  (exists init, solution (constraints s) init /\ holds init condition) /\ (exists init, solution (constraints s) init /\ ~ holds init condition).
(** A depth limit ends both. *)
Lemma both_ended p s condition sq (x x1 : executor) : exec_ok x -> exec_ok x1 -> live x !! p = Some s -> p ∉ removedStates x ->
  both p s condition x x1 -> live x1 !! next_state x = Some sq ->
  exists x', (terminateStateEarly p;; terminateStateEarly (next_state x);; mret (@None Z, @None Z)) x1 = Ret ((None, None), x') /\
    exec_ok x' /\ ended p x x'.
Proof.
  intros Hx Hx1 Hp Hr ((sp & sq' & Lp & Lq & _) & Ho & Hst & Ha & Hrm & Hn) Hq. set (q := next_state x) in *.
  assert (Hpq : p < q) by (apply (ex_fresh _ Hx); by eexists).
  assert (Hq0 : (q ∉ states x) /\ (q ∉ addedStates x)).
  { split; intros H; assert (H2 : is_Some (live x !! q)) by (apply (ex_live _ Hx); tauto); pose proof (ex_fresh _ Hx q H2); subst q; lia. }
  assert (Hql : live x !! q = None) by (apply eq_None_not_Some; intros H; apply (ex_fresh _ Hx) in H; subst q; lia).
  destruct (terminate_ok p sp x1 Hx1 Lp) as (x2 & E2 & Hx2 & (O2 & St2 & N2 & D2)); [by rewrite Hrm|].
  unfold terminateStateEarly. rewrite (mbind_run _ _ _ _ _ E2).
  assert (Hr2 : q ∉ removedStates x2). { intros H. apply (ex_gone _ Hx2) in H. rewrite St2, Hst in H. tauto. }
  assert (Ha2 : q ∈ addedStates x2).
  { destruct D2 as [(_ & _ & -> & _)|(_ & -> & _)]; [apply (remove_first_elem p _ (ex_added _ Hx1)); split; [|lia]|]; rewrite Ha; apply elem_of_app; right;
    by apply list_elem_of_singleton. }
  destruct (terminate_ok q sq x2 Hx2) as (x3 & E3 & Hx3 & (O3 & St3 & N3 & D3)); [rewrite O2 by lia; done|done|].
  rewrite (mbind_run _ _ _ _ _ E3). exists x3. split; [done|]. split; [done|].
  destruct D3 as [(_ & L3 & A3 & R3)|[H _]]; [|done].
  assert (Hlast : forall l, q ∉ l -> remove_first q (l ++ [q]) = l).
  { induction l as [|r l IH]; intros Hl; cbn [remove_first app]; [by rewrite Z.eqb_refl|].
    destruct (Z.eqb_spec r q) as [->|_]; [destruct Hl; by left|]. rewrite IH; [done|]. intros H. apply Hl. by right. }
  split; [|split; [congruence|split; [lia|]]].
  - intros r Hr'. destruct (decide (r = q)) as [->|Hne]; [congruence|]. rewrite O3, O2, Ho by done. done.
  - destruct D2 as [(P2 & L2 & A2 & R2)|(P2 & A2 & R2)].
    + left. rewrite Ha in P2. apply elem_of_app in P2 as [P2|P2%list_elem_of_singleton]; [|lia]. split_and!; [done|rewrite O3; [done|lia]| |congruence].
      rewrite A3, A2, Ha. assert (Hf : forall l, p ∈ l -> remove_first p (l ++ [q]) = remove_first p l ++ [q]).
      { induction l as [|r l IH]; intros Hl; [by apply elem_of_nil in Hl|]. cbn [remove_first app]. destruct (Z.eqb_spec r p); [done|].
        apply elem_of_cons in Hl as [->|Hl]; [done|]. by rewrite IH. }
      rewrite Hf by done. apply Hlast. intros [H _]%(remove_first_elem p _ (ex_added _ Hx)). tauto.
    + right. rewrite Ha in P2. split_and!; [intros H; apply P2, elem_of_app; by left| |congruence]. rewrite A3, A2, Ha. apply Hlast, Hq0.
Qed.

Lemma fork_both_ok p s condition isInternal i1 i0 (x : executor) :
  exec_ok x -> live x !! p = Some s -> p ∉ removedStates x -> asked 1 condition ->
  solution (constraints s) i1 -> holds i1 condition -> solution (constraints s) i0 -> ~ holds i0 condition ->
  eventually (fun n => fork_both false RewriteEqualities o n p condition isInternal) x (fun r x' => exec_ok x' /\
    ((r = (Some p, Some (next_state x)) /\ at_depth s = false /\ both p s condition x x') \/ (r = (None, None) /\ at_depth s = true /\ ended p x x'))).
Proof.
  intros Hx Hp Hr He S1 H1 S0 H0. unfold fork_both. set (q := next_state x). pose proof (counted_ok x Hx) as Hx0.
  assert (Hpq : p < q) by (apply (ex_fresh _ Hx); by eexists).
  pose proof (cloned_ok p s (counted x) Hx0 Hp) as Hx1. set (x1 := cloned p s (counted x)) in *.
  destruct (live x1 !! p) as [sp1|] eqn:Lp; [|by unfold x1, cloned in Lp; cbn [live] in Lp; rewrite lookup_insert_eq in Lp].
  destruct (live x1 !! q) as [sq1|] eqn:Lq;
    [|by unfold x1, cloned in Lq; cbn [live counted next_state] in Lq; fold q in Lq; rewrite lookup_insert_ne, lookup_insert_eq in Lq by lia].
  assert (Cp : constraints sp1 = constraints s /\ same_control s sp1)
    by (unfold x1, cloned in Lp; cbn [live] in Lp; rewrite lookup_insert_eq in Lp; by injection Lp as <-).
  assert (Cq : constraints sq1 = constraints s /\ same_control s sq1).
  { unfold x1, cloned in Lq. cbn [live counted next_state] in Lq. fold q in Lq. rewrite lookup_insert_ne, lookup_insert_eq in Lq by lia. by injection Lq as <-. }
  assert (Ep1 : depth sp1 = u32 (depth s + 1)) by (unfold x1, cloned in Lp; cbn [live] in Lp; rewrite lookup_insert_eq in Lp; by injection Lp as <-).
  destruct Cp as [Cp Kp], Cq as [Cq Kq].
  destruct (write_both_run p q isInternal sp1 sq1 x1 ltac:(lia) Lp Lq) as (sp2 & sq2 & E & [P1 P0 P2 P3] & [Q1 Q0 Q2 Q3]).
  assert (Hx2 : exec_ok (set_state q sq2 (set_state p sp2 x1))).
  { apply (set_both_ok p q sp1 sq1); try done; [lia|by eapply state_ok_same, (ex_paths _ Hx1 p)|by eapply state_ok_same, (ex_paths _ Hx1 q)]. }
  apply (ev_bind_run (add_forks 1) _ x tt (counted x)); [done|]. apply (ev_clone p s _ (counted x)); [done|done|]. fold x1.
  eapply ev_bind_run; [exact E|].
  change (next_state (counted x)) with q. set (x2 := set_state q sq2 (set_state p sp2 x1)) in *.
  assert (Lp2 : live x2 !! p = Some sp2) by (simpl; rewrite lookup_insert_ne by lia; apply lookup_insert_eq).
  apply (conditions_ok p q condition sp2 sq2 i1 i0); [done|lia|done|apply lookup_insert_eq|done|congruence|done|congruence|done|].
  intros sp3 sq3 Hx3 Cp3 Cq3 Dp3. set (x3 := set_state q sq3 (set_state p sp3 x2)) in *.
  assert (Lp3 : live x3 !! p = Some sp3) by (simpl; rewrite lookup_insert_ne by lia; apply lookup_insert_eq).
  assert (Lq3 : live x3 !! q = Some sq3) by apply lookup_insert_eq.
  assert (Hb : both p s condition x x3).
  { split; [exists sp3, sq3; split_and!; [done|done|apply (child_similar s sp2); [by apply (same_control_trans s sp1)|congruence|exact Cp3]|apply (child_similar s sq2); [by apply (same_control_trans s sq1)|congruence|exact Cq3]]|].
    split; [|done]. intros r Hrp Hrq. unfold x3, x2, x1, set_state, cloned. cbn [live counted next_state]. fold q. rewrite !lookup_insert_ne by done. done. }
  assert (Hd : depth sp3 = u32 (depth s + 1)) by congruence.
  eapply ev_state; [exact Lp3|]. rewrite Hd. fold (at_depth s). destruct (at_depth s) eqn:Em; [|by apply ev_ret; split; [done|left]].
  destruct (both_ended p s condition sq3 x x3 Hx Hx3 Hp Hr Hb Lq3) as (x' & E' & Hok & Hend).
  fold q in E'. apply ev_runs. unfold runs. rewrite E'. split; [done|]. right. by split_and!.
Qed.
(** ** [fork] *)
(** One child: every solution agrees with it, unless a limit is reached ([lim]). *)
Definition one (lim : bool) (p : Z) (s : est) (condition : expr) (b : bool) (x x' : executor) : Prop :=
  keeps p x x' /\ exists s', live x' !! p = Some s' /\ child s condition b s' /\
    (lim = true \/ forall init, solution (constraints s) init -> (holds init condition <-> b = true)).
Definition outcome (lim : bool) (p : Z) (s : est) (condition : expr) (x : executor) (r : option Z * option Z) (x' : executor) : Prop :=
  match r with
  | (Some p', None) => p' = p /\ one lim p s condition true x x'
  | (None, Some p') => p' = p /\ one lim p s condition false x x'
  | (Some p', Some q) => p' = p /\ q = next_state x /\ lim = false /\ at_depth s = false /\ both p s condition x x'
  | (None, None) => ended p x x' /\ (gives_up solver inv \/ (lim = false /\ at_depth s = true /\ splits s condition))
  end.
Lemma ended_keeps p x y z : keeps p x y -> ended p y z -> ended p x z.
Proof.
  intros [K1 K2 K3 K4 K5 _] (E1 & E2 & E3 & E4). split; [intros r Hr; by rewrite E1, K1|]. split; [congruence|]. split; [lia|].
  by rewrite <- K4, <- K5.
Qed.
Lemma both_keeps p s c x y z : keeps p x y -> both p s c y z -> both p s c x z.
Proof.
  intros [K1 K2 K3 K4 K5 _] (E1 & E2 & E3 & E4 & E5 & E6). unfold both. rewrite <- K2, <- K3, <- K4, <- K5. split; [done|].
  split; [|done]. intros r Hr Hq. by rewrite E2, K1.
Qed.
Lemma write_path_ok p isInternal b s (x : executor) : exec_ok x -> live x !! p = Some s ->
  exists s', write_path o p isInternal b x = Ret (tt, set_state p s' x) /\ exec_ok (set_state p s' x) /\ constraints s' = constraints s /\
    same_control s s'.
Proof.
  intros Hx Hp. unfold write_path. destruct (negb isInternal && pathWriter o).
  - exists (with_path b s). split; [by apply on_state_run|]. split; [|done]. apply (set_state_ok p s); [done|done|done|].
    apply (state_ok_same s); [done|by apply (ex_paths _ Hx p)].
  - exists s. rewrite (set_state_id p s x Hp). by split_and!.
Qed.
Lemma child_ext s c b s1 s2 : same_control s1 s2 -> constraints s2 = constraints s1 -> child s c b s1 -> child s c b s2.
Proof. intros H1 E [H2 H3]. split; [by eapply same_control_trans|]. by rewrite E. Qed.
Lemma one_written {A} (lim : bool) p s s1 condition isInternal (b : bool) (r : A) (x y : executor) :
  exec_ok y -> keeps p x y -> live y !! p = Some s1 -> child s condition b s1 ->
  (lim = true \/ forall init, solution (constraints s) init -> (holds init condition <-> b = true)) ->
  eventually (fun _ => write_path o p isInternal b;; mret r) y (fun r' x' => r' = r /\ exec_ok x' /\ one lim p s condition b x x').
Proof.
  intros Hy Hk Hp Hc Hl. destruct (write_path_ok p isInternal b s1 y Hy Hp) as (s2 & E & Hx' & Hs2 & Hc2).
  eapply ev_bind_run; [exact E|]. apply ev_ret. split; [done|]. split; [done|]. split; [eapply path_keeps_trans; [exact Hk|apply keeps_set]|].
  exists s2. split; [apply lookup_insert_eq|]. split; [by eapply child_ext|done].
Qed.

Lemma fork_decided_ok p s condition isInternal (x : executor) :
  replayPath o = None -> replayKTest o = false ->
  exec_ok x -> live x !! p = Some s -> p ∉ removedStates x -> asked 1 condition ->
  eventually (fun n => fork_decided false RewriteEqualities simplifyExprs o rng solver n p condition isInternal) x
    (fun r x' => exec_ok x' /\ outcome (inhibited o s (forks x)) p s condition x r x').
Proof.
  intros Hr Hk Hx Hp Hg He. unfold fork_decided. eapply ev_state; [exact Hp|]. eapply ev_bind; [by apply decided_ok|].
  intros r x1 (Hx1 & K1 & Hp1 & Hv). pose proof K1 as [_ _ _ _ Kr Kf]. destruct r as [res|].
  - eapply ev_bind; [by apply (limit_fork_ok p s condition isInternal res x1)|]. intros res' x2 [(-> & -> & Hun)|(-> & Hi & b & -> & Hn)].
    + destruct res.
      * eapply ev_mono; [eapply (one_written false p s s condition isInternal true); try done|].
        { apply child_all. intros init Hs. specialize (Hv init Hs). tauto. }
        { right. intros init Hs. specialize (Hv init Hs). tauto. }
        intros r x' (-> & H1 & H2 & s' & H3 & H4 & [?|H5]); [done|]. split; [done|]. split; [done|]. split; [done|]. exists s'. auto.
      * eapply ev_mono; [eapply (one_written false p s s condition isInternal false); try done|].
        { apply child_all. intros init Hs. specialize (Hv init Hs). intuition congruence. }
        { right. intros init Hs. specialize (Hv init Hs). intuition congruence. }
        intros r x' (-> & H1 & H2 & s' & H3 & H4 & [?|H5]); [done|]. split; [done|]. split; [done|]. split; [done|]. exists s'. auto.
      * destruct Hv as [(i1 & S1 & H1) (i0 & S0 & H0)]. eapply ev_mono; [apply (fork_both_ok p s condition isInternal i1 i0); [done|done|by rewrite Kr|done..]|].
        specialize (Hun eq_refl). rewrite Kf in Hun.
        intros r x' (Hx' & [(-> & Hd & Hb)|(-> & Hd & Hend)]); (split; [done|]).
        { pose proof K1 as [_ Kn _ _ _ _]. split_and!; [done|done|done|done|by eapply both_keeps]. }
        split; [by eapply ended_keeps|]. right. split_and!; [done|done|]. split; [by exists i1|by exists i0].
    + destruct Hn as (Hx2 & K2 & s' & Hs' & Hc & _). assert (Hi' : inhibited o s (forks x) = true) by congruence.
assert (K3 : keeps p x x2) by by eapply path_keeps_trans.
      destruct b; (eapply ev_mono; [apply (one_written true p s s' condition isInternal _ _ x x2 Hx2 K3 Hs' Hc); by left|]);
        intros r x' (-> & H1 & H2); rewrite Hi'; by split_and!.
  - destruct (set_state_ok p s (back_to_prev s) x1 Hx1 Hp1 eq_refl) as []; [apply (state_ok_same s); [done|by apply (ex_paths _ Hx p)]|].
    eapply ev_bind_run; [by apply (on_state_run p _ s)|].
    destruct (terminate_ok p (back_to_prev s) (set_state p (back_to_prev s) x1)) as (x' & E & Hx' & Hend); [done|apply lookup_insert_eq|simpl; by rewrite Kr|].
    eapply ev_bind_run; [exact E|]. apply ev_ret. split; [done|]. split; [|by left]. eapply ended_keeps; [|exact Hend]. eapply path_keeps_trans; [exact K1|apply keeps_set].
Qed.

(** A condition that was replaced by its value. *)
Lemma outcome_static (b lim : bool) p s s1 condition r (x x1 x' : executor) :
  keeps p x x1 -> child s condition b s1 -> exec_ok x' -> outcome lim p s1 (Constant 1 (b2z b)) x1 r x' ->
  outcome true p s condition x r x'.
Proof.
  intros Hk Hc Hx' Ho.
  assert (Hb : forall init, holds init (Constant 1 (b2z b)) <-> b = true) by (intros init; unfold holds; destruct b; by split).
  assert (Hone : forall v : bool, one lim p s1 (Constant 1 (b2z b)) v x1 x' -> one true p s condition v x x').
  { intros v (K2 & s' & L & C & _). split; [by eapply path_keeps_trans|]. exists s'. split; [done|]. split; [|by left].
    destruct (ex_paths _ Hx' p s' L) as [_ [i Hi]]. destruct C as [C0 C]. apply C in Hi as [_ Hi]. rewrite Hb in Hi.
    assert (v = b) as -> by (destruct v, b; intuition). destruct Hc as [Hc0 Hc]. split; [by eapply same_control_trans|]. intros init. rewrite (C init), (Hc init), Hb. tauto. }
  destruct r as [[p'|] [q|]]; simpl in *.
  - destruct Ho as (-> & -> & _ & _ & (sp & sq & Lp & Lq & Cp & Cq) & _). destruct (ex_paths _ Hx' p sp Lp) as [_ [i Hi]].
    destruct (ex_paths _ Hx' _ sq Lq) as [_ [j Hj]]. destruct Cp as [_ Cp], Cq as [_ Cq]. apply Cp in Hi as [_ Hi]. apply Cq in Hj as [_ Hj]. rewrite Hb in Hi, Hj.
    destruct b; intuition congruence.
  - destruct Ho as [-> Ho]. auto.
  - destruct Ho as [-> Ho]. auto.
  - destruct Ho as [Ho Hd]. split; [by eapply ended_keeps|]. destruct Hd as [?|(_ & _ & (i & _ & Hi) & (j & _ & Hj))]; [by left|].
    rewrite Hb in Hi, Hj. done.
Qed.
Lemma one_limited lim p s condition b (x x' : executor) : one lim p s condition b x x' -> one true p s condition b x x'.
Proof. intros (H & s' & H1 & H2 & _). split; [done|]. exists s'. auto. Qed.
(** A constant condition does not split a path. *)
Lemma constant_holds c i j : isConstant c = true -> holds i c -> holds j c.
Proof. by destruct c. Qed.
Lemma outcome_constant lim p s condition r (x x' : executor) : isConstant condition = true -> exec_ok x' ->
  outcome lim p s condition x r x' -> outcome true p s condition x r x'.
Proof.
  intros Hc Hx' Ho. destruct r as [[p'|] [q|]]; simpl in *.
  - exfalso. destruct Ho as (-> & -> & _ & _ & (sp & sq & Lp & Lq & [_ Cp] & [_ Cq]) & _).
    destruct (ex_paths _ Hx' p sp Lp) as [_ [i Hi]], (ex_paths _ Hx' _ sq Lq) as [_ [j Hj]].
    apply Cp in Hi as [_ Hi]. apply Cq in Hj as [_ Hj]. pose proof (constant_holds condition i j Hc). intuition congruence.
  - destruct Ho as [-> Ho]. split; [done|by eapply one_limited].
  - destruct Ho as [-> Ho]. split; [done|by eapply one_limited].
  - destruct Ho as [Ho [?|(_ & _ & (i & _ & Hi) & (j & _ & Hj))]]; (split; [done|]); [by left|]. destruct Hj. by eapply constant_holds.
Qed.
Lemma constant_asked (b : bool) : asked 1 (Constant 1 (b2z b)).
Proof. by destruct b. Qed.


Lemma fork_ok (over : bool) p s condition isInternal (x : executor) :
  replayPath o = None -> replayKTest o = false ->
  exec_ok x -> live x !! p = Some s -> p ∉ removedStates x -> asked 1 condition ->
  eventually (fun n => fork false RewriteEqualities simplifyExprs o rng solver n over p condition isInternal) x
    (fun r x' => exec_ok x' /\ outcome (over || inhibited o s (forks x)) p s condition x r x').
Proof.
  intros Hr Hk Hx Hp Hg He. unfold fork. eapply ev_bind; [by apply (limit_static_ok over p s)|].
  intros c x1 [(-> & -> & Hover)|(-> & b & -> & Hx1 & K1 & s1 & Hp1 & Hc & _)].
  - eapply ev_mono; [by apply fork_decided_ok|]. intros r x' [Hx' Ho]. split; [done|]. destruct Hover as [-> |Hc]; [done|].
    destruct over; [|done]. by eapply outcome_constant.
  - eapply ev_mono; [apply (fork_decided_ok p s1); try done; [by destruct K1 as [_ _ _ _ -> _]|apply constant_asked]|].
    intros r x' [Hx' Ho]. split; [done|]. by eapply outcome_static.
Qed.

(** C8. A condition splits a path: from a path that can be taken, [fork] ends and leaves the
    executor sound, outside of replays. Where no limit on forks is reached its children have
    together the solutions of the path: two where both values are possible, one with the
    condition and one with its negation, and one where every solution agrees with it. Where a
    limit is reached there is at most one, and the path is restricted to one of the values. The
    path ends only when the solver gives up, or when it would split and the children would be
    at the limit on the depth, and then it always does; no other state changes. *)
Theorem fork_partitions (over : bool) p s condition isInternal (x : executor) :
  replayPath o = None -> replayKTest o = false ->
  exec_ok x -> live x !! p = Some s -> p ∉ removedStates x -> asked 1 condition ->
  eventually (fun n => fork false RewriteEqualities simplifyExprs o rng solver n over p condition isInternal) x
    (fun r x' => exec_ok x' /\ outcome (over || inhibited o s (forks x)) p s condition x r x').
Proof. apply fork_ok. Qed.
End Fork.
End ForkOk.
