(* ===== verification/ForkMain.v ===== *)
(** * The executor over a whole search

    [ForkRun]: [updateStates], the values that [toConstant] and [toUnique] fix, [branch], and
    what holds of every executor that forks, ends and updates states. [ForkDemo]: a solver over
    the inputs of two bytes, and a search that splits on their first. *)
From stdpp Require Import base gmap list strings numbers.
From Stdlib Require Import ZArith Lia.
From S2P Require Import Prelude ExprData ExprFacts ExprCreate ExprEval ExprMain Constraints ConstraintsOk ConstraintsMain Solver Paths ExecFork Searcher.

Module ForkRun.
Import Expr ExprFacts Create Constraints ConstraintsOk ConstraintsMain Solver TimingSolver Paths PTree PTreeOk ExecFork ForkOk.

Section Run.
Context {ins : Inputs} {ap : APInt} {ap_ok : APIntOk} (RewriteEqualities simplifyExprs : bool) (o : options) (rng : Z -> Z).
Context {St : Type} (solver : SolverImpl St) (inv : St -> Prop) {values : GivesValues solver inv} {decides : Decides solver inv}.
Abbreviation executor := (executor St).

(** ** [updateStates] *)
(** While states are removed, the list of those to remove is not yet cleared. *)
Definition forget (x : executor) : executor :=
  Exec (live x) (next_state x) (states x) (addedStates x) [] (processTree x) (forks x) (draws x) (replayPosition x) (solver_state x).
Lemma delete_removed_ok l : forall x : executor, exec_ok inv (forget x) -> addedStates x = [] -> NoDup l -> (forall p, p ∈ l -> p ∈ states x) ->
  exists x', delete_removed l x = Ret (tt, x') /\ exec_ok inv (forget x') /\ addedStates x' = [] /\ next_state x' = next_state x /\
    (forall q, q ∈ states x' <-> q ∈ states x /\ q ∉ l) /\ (forall q, q ∉ l -> live x' !! q = live x !! q).
Proof.
  induction l as [|p l IH]; intros x Hx Ha Hn Hl; cbn [delete_removed].
  { exists x. split_and!; try done. intros q. rewrite elem_of_nil. tauto. }
  apply list.NoDup_cons in Hn as [Hpl Hn]. unfold get at 1, mbind at 1, M_bind at 1. assert (Hp : p ∈ states x) by (apply Hl; by left).
  rewrite bool_decide_eq_true_2 by done. unfold assert_, mbind at 1, M_bind at 1, mret at 1, M_ret at 1.
  destruct (proj2 (ex_live _ _ Hx p) (or_introl Hp)) as [s Hs].
  destruct (dropped_ok rng inv p s (forget x) Hx Hs ltac:(apply not_elem_of_nil)) as (t & Et & Hd).
  set (x1 := Exec (live x) (next_state x) (remove_first p (states x)) (addedStates x) (removedStates x) (processTree x) (forks x) (draws x)
    (replayPosition x) (solver_state x)). rewrite (mbind_run _ _ x tt x1) by done.
  rewrite (mbind_run _ _ _ _ _ (state_at_run p s x1 Hs)), (mbind_run _ _ _ _ _ (on_tree_run _ x1 tt t Et)).
  set (x2 := Exec (delete p (live x)) (next_state x) (remove_first p (states x)) (addedStates x) (removedStates x) t (forks x) (draws x)
    (replayPosition x) (solver_state x)). rewrite (mbind_run _ _ _ tt x2) by done.
  destruct (remove_first_elem p (states x) (ex_states _ _ Hx)) as [Hrf _].
  assert (Hx2 : exec_ok inv (forget x2)) by (revert Hd; unfold dropped, forget, x2; cbn [live next_state states addedStates removedStates
    forks draws replayPosition solver_state]; by rewrite Ha).
  destruct (IH x2) as (x' & E & Hx' & Ha' & Hn' & Hs' & Hl'); [done|done|done| |].
  { intros q Hq. simpl. apply Hrf. split; [apply Hl; by right|by intros ->]. }
  exists x'. split; [done|]. split; [done|]. split; [done|]. split; [done|]. split.
  - intros q. rewrite Hs'. simpl. rewrite Hrf, elem_of_cons. tauto.
  - intros q [Hq1 Hq2]%not_elem_of_cons. rewrite Hl' by done. simpl. by rewrite lookup_delete_ne.
Qed.
Lemma insert_states_ok l : forall ss, NoDup ss -> NoDup (insert_all l ss) /\ forall q, q ∈ insert_all l ss <-> q ∈ ss \/ q ∈ l.
Proof.
  induction l as [|p l IH]; intros ss Hn; cbn [insert_all]; [split; [done|]; intros q; rewrite elem_of_nil; tauto|].
  case_bool_decide as Hp.
  - destruct (IH ss Hn) as [H1 H2]. split; [done|]. intros q. rewrite H2, elem_of_cons. split; [tauto|]. by intros [?|[->|?]]; auto.
  - destruct (IH (p :: ss)) as [H1 H2]; [by apply list.NoDup_cons|]. split; [done|]. intros q. rewrite H2, !elem_of_cons. tauto.
Qed.
(** The states are afterwards those of the search with the new ones, less those that ended. *)
Record updated (x x' : executor) : Prop := {
  up_states q : q ∈ states x' <-> (q ∈ states x \/ q ∈ addedStates x) /\ q ∉ removedStates x;
  up_added : addedStates x' = [];
  up_removed : removedStates x' = [];
  up_live q : q ∉ removedStates x -> live x' !! q = live x !! q
}.
Lemma updateStates_ok (x : executor) : exec_ok inv x ->
  exists x', updateStates x = Ret ((addedStates x, removedStates x), x') /\ exec_ok inv x' /\ updated x x'.
Proof.
  intros Hx. unfold updateStates. unfold get at 1, mbind at 1, M_bind at 1.
  set (x1 := Exec (live x) (next_state x) (insert_all (addedStates x) (states x)) [] (removedStates x) (processTree x) (forks x) (draws x)
    (replayPosition x) (solver_state x)). rewrite (mbind_run _ _ x tt x1) by done.
  destruct (insert_states_ok (addedStates x) (states x) (ex_states _ _ Hx)) as [Ni Hi].
  destruct (delete_removed_ok (removedStates x) x1) as (x2 & E & Hx2 & Ha2 & Hn2 & Hs2 & Hl2).
  - destruct Hx. split; cbn [live next_state states addedStates removedStates processTree solver_state forget x1]; try done.
    + intros p. rewrite Hi, ex_live0, elem_of_nil. tauto.
    + constructor.
    + intros p _. apply not_elem_of_nil.
    + constructor.
    + by intros p ?%elem_of_nil.
  - done.
  - apply Hx.
  - intros p Hp. simpl. apply Hi. left. by apply (ex_gone _ _ Hx).
  - rewrite (mbind_run _ _ _ _ _ E). exists (forget x2). split; [done|]. split; [done|]. split; [|done|done|exact Hl2].
    intros q. simpl. rewrite Hs2. simpl. by rewrite Hi.
Qed.

(** ** Values of expressions *)
Lemma asked_value w e v cs init0 : asked w e -> solution cs init0 -> eval init0 e = Some v -> asked w (Constant w v).
Proof.
  intros [Ho Hw Hd] Hs Hv. split; [|done|done]. rewrite <- Hw. pose proof (eval_fits init0 (sol_init _ _ Hs) e v Ho Hv) as Hf.
  cbn [width_ok]. apply andb_true_iff. split; [by apply Z.ltb_lt, width_pos|by apply fits_iff].
Qed.
Lemma value_equal w e v : asked w e -> asked w (Constant w v) ->
  exists q, create_binary false Eq e (Constant w v) = Ret q /\ asked 1 q /\
    forall cs init, solution cs init -> (holds init q <-> eval init e = Some v).
Proof.
  intros He Hc. destruct (binary_created Eq w e (Constant w v) He Hc eq_refl) as (q & Eq & Aq & Vq). simpl in Aq.
  exists q. split; [done|]. split; [done|]. intros cs init Hs. destruct (sol_defined w e cs init He Hs) as [a Ha].
  pose proof (Vq init (b2z (a =? v)) (sol_init _ _ Hs)) as H. unfold holds. rewrite H by (simpl; by rewrite Ha). rewrite Ha.
  destruct (Z.eqb_spec a v); simpl; split; congruence.
Qed.

(** The value that a path is restricted to is one that the expression takes on it. *)
Definition fixed (p : Z) (s : est) (w : Z) (e c : expr) (x x' : executor) : Prop :=
  exists v s', c = Constant w v /\ live x' !! p = Some s' /\
    forall init, solution (constraints s') init <-> solution (constraints s) init /\ eval init e = Some v.
Lemma toConstant_ok p s w e (x : executor) : exec_ok inv x -> live x !! p = Some s -> asked w e ->
  eventually (fun n => toConstant false RewriteEqualities simplifyExprs solver n p e) x
    (fun c x' => exec_ok inv x' /\ keeps p x x' /\ fixed p s w e c x x').
Proof.
  intros Hx Hp He. unfold toConstant. eapply ev_state; [exact Hp|]. destruct (ex_paths _ _ Hx p s Hp) as [H1 [init0 H2]].
  destruct (simplified (constraints s) w e init0 H1 H2 He) as (e' & G & He' & Hv'). eapply ev_lift; [exact G|].
  destruct (isConstant e') eqn:Ec.
  - destruct e' as [w' v| | | | | | | | |]; try done. pose proof (as_width _ _ He') as Hw. simpl in Hw. subst w'. apply ev_ret. split; [done|].
    split; [done|]. exists v, s. split; [done|]. split; [done|]. intros init. split; [|tauto]. intros Hi. split; [done|]. by rewrite <- Hv'.
  - eapply ev_bind.
    { apply ev_solver. exact (timing_getValue_ok simplifyExprs solver inv (constraints s) init0 H1 H2 w e' _ He' (ex_solver _ _ Hx)). }
    intros r x' (st & -> & Hst & v & init & -> & Hs & Hv).
    destruct (value_equal w e' v He' (asked_value w e' v _ init He' Hs Hv)) as (q & Eq & Aq & Hq).
    eapply ev_lift_const; [exact Eq|]. pose proof (proj2 (Hq _ init Hs) Hv) as Hh.
    eapply ev_bind; [apply (add_ok_exec RewriteEqualities rng p s q init (with_solver st x)); [done|by split; [|exists init0]|done|done|done]|].
    intros ? x' (s' & -> & Hn). apply ev_ret. split.
    { apply (set_state_ok inv p s); [by apply with_solver_ok|done|by eapply narrowed_node|by eapply narrowed_ok]. }
    split; [apply (path_keeps_trans _ _ (with_solver st x)); [done|apply keeps_set]|]. exists v, s'. split; [done|]. split; [apply lookup_insert_eq|].
    destruct Hn as [_ _ N2]. intros i. rewrite N2. split; intros [A B]; (split; [done|]).
    + rewrite <- Hv' by done. by apply (Hq _ i A).
    + apply (Hq _ i A). by rewrite Hv'.
Qed.
(** A constant is given only where no solution has another value. *)
Lemma toUnique_ok p s w e (x : executor) : exec_ok inv x -> live x !! p = Some s -> asked w e ->
  eventually (fun n => toUnique false simplifyExprs solver n p e) x
    (fun c x' => (exists st, x' = with_solver st x /\ inv st) /\
       (c = e \/ exists v, c = Constant w v /\ forall init, solution (constraints s) init -> eval init e = Some v)).
Proof.
  intros Hx Hp He. assert (Hid : exists st, x = with_solver st x /\ inv st).
  { exists (solver_state x). split; [by destruct x|apply Hx]. }
  unfold toUnique. destruct (isConstant e) eqn:Ec; [by apply ev_ret; split; [|left]|].
  eapply ev_state; [exact Hp|]. destruct (ex_paths _ _ Hx p s Hp) as [H1 [init0 H2]]. eapply ev_bind.
  { apply ev_solver. exact (timing_getValue_ok simplifyExprs solver inv (constraints s) init0 H1 H2 w e _ He (ex_solver _ _ Hx)). }
  intros r x' (st & -> & Hst & v & init & -> & Hs & Hv).
  destruct (value_equal w e v He (asked_value w e v _ init He Hs Hv)) as (q & Eq & Aq & Hq). eapply ev_lift_const; [exact Eq|].
  eapply ev_bind.
  { apply (ev_solver _ (with_solver st x)). exact (timing_mustBeTrue_ok simplifyExprs solver inv (constraints s) init0 H1 H2 q _ Aq Hst). }
  intros r x' (st' & -> & Hst' & Hb). apply ev_ret. split; [by exists st'|]. destruct r as [[|]|]; [right|by left..].
  exists v. split; [done|]. intros i Hi. apply (Hq _ i Hi). by apply Hb.
Qed.

(** ** [branch] *)
Definition copy (s : est) (x : executor) (q : Z) : Prop :=
  exists sq, live x !! q = Some sq /\ constraints sq = constraints s /\ same_control s sq.
Lemma cloned_copy s p sp (x : executor) q : live x !! p = Some sp -> copy s x p -> copy s x q \/ q = next_state x -> p <> next_state x ->
  copy s (cloned p sp x) q.
Proof.
  intros Hp (sp' & Hp' & Cp) Hq Hne. rewrite Hp in Hp'. injection Hp' as <-. unfold copy, cloned. cbn [live].
  destruct Cp as [Cp [K1 K2 K3 K4 K5]].
  destruct (decide (q = p)) as [->|Hqp]; [eexists; split; [apply lookup_insert_eq|done]|]. rewrite lookup_insert_ne by done.
  destruct (decide (q = next_state x)) as [->|Hqn]; [eexists; split; [apply lookup_insert_eq|done]|]. rewrite lookup_insert_ne by done.
  destruct Hq as [Hq|Hq]; [exact Hq|done].
Qed.
Lemma cloned_other p sp (x : executor) q : q <> p -> q <> next_state x -> live (cloned p sp x) !! q = live x !! q.
Proof. intros H1 H2. unfold cloned. cbn [live]. by rewrite !lookup_insert_ne. Qed.
(** New states, all of them copies. *)
Record grown (l : list Z) (n : nat) (new : list Z) (x x' : executor) : Prop := {
  gr_length : length new = n;
  gr_new q : q ∈ new -> next_state x <= q;
  gr_added : addedStates x' = addedStates x ++ new;
  gr_states : states x' = states x;
  gr_removed : removedStates x' = removedStates x;
  gr_other q : q ∉ l ++ new -> live x' !! q = live x !! q
}.
Lemma drawn_inv (x : executor) : exec_ok inv x -> exec_ok inv (drawn x).
Proof. intros []. by split. Qed.
Lemma fresh_next (x : executor) s q : exec_ok inv x -> copy s x q -> q < next_state x.
Proof. intros Hx (sq & Hq & _). apply (ex_fresh _ _ Hx). by eexists. Qed.
Lemma branch_more_ok s p n : forall i l (x : executor),
  exec_ok inv x -> length l = i -> (0 < i)%nat -> NoDup l -> (forall q, q ∈ l -> copy s x q) ->
  exists new x', branch_more rng p n i l x = Ret (l ++ new, x') /\ exec_ok inv x' /\ NoDup (l ++ new) /\
    (forall q, q ∈ l ++ new -> copy s x' q) /\ grown l n new x x'.
Proof.
  induction n as [|n IH]; intros i l x Hx Hi Hpos Hn Hl; cbn [branch_more].
  { exists [], x. rewrite app_nil_r. split_and!; try done. split; try done; [intros q ?%elem_of_nil; done|by rewrite app_nil_r]. }
  unfold getInt32, mbind at 1, M_bind at 1. fold (drawn x). set (r := rng (draws x)).
  destruct (l !! Z.to_nat (r `mod` Z.of_nat i)) as [es|] eqn:Ees.
  2:{ apply lookup_ge_None in Ees. pose proof (Z.mod_pos_bound r (Z.of_nat i)). lia. }
  assert (Hes : es ∈ l) by by eapply list_elem_of_lookup_2. destruct (Hl es Hes) as (ss & Hss & Css).
  rewrite (clone_run inv es ss (drawn x) _ (drawn_inv x Hx) Hss). set (q0 := next_state (drawn x)).
  assert (Hlt : forall q, q ∈ l -> q < q0) by (intros q Hq; exact (fresh_next x s q Hx (Hl q Hq))).
  assert (Hes0 : es < q0) by auto.
  destruct (IH (S i) (l ++ [q0]) (cloned es ss (drawn x))) as (new & x' & E & Hx' & Hn' & Hc & [G1 G2 G3 G4 G5 G6]).
  - apply (cloned_ok rng inv); [by apply drawn_inv|done].
  - rewrite length_app. simpl. lia.
  - lia.
  - apply list.NoDup_app. split_and!; [done| |apply NoDup_singleton]. intros q Hq ->%list_elem_of_singleton. specialize (Hlt _ Hq). lia.
  - intros q [Hq|Hq%list_elem_of_singleton]%elem_of_app; (apply cloned_copy; [done|by apply Hl| |subst q0; lia]); [left; by apply Hl|by right].
  - exists (q0 :: new), x'. rewrite <- app_assoc in E, Hn', Hc. rewrite <- app_assoc in G6. split_and!; try done. split.
    + simpl. by rewrite G1.
    + intros q [->|Hq]%elem_of_cons; [done|]. specialize (G2 q Hq). simpl in G2. lia.
    + rewrite G3. simpl. by rewrite <- app_assoc.
    + done.
    + done.
    + intros q Hq. rewrite G6 by done. rewrite cloned_other; [done|by intros ->; apply Hq, elem_of_app; left|].
      intros ->. apply Hq, elem_of_app. right. left.
Qed.

(** Every state that is there gets its condition. *)
Definition distinct (r : list (option Z)) : Prop := forall i j p, r !! i = Some (Some p) -> r !! j = Some (Some p) -> i = j.
Definition can_take (x : executor) (r : option Z) (c : expr) : Prop :=
  match r with
  | None => True
  | Some p => exists sp, live x !! p = Some sp /\ asked 1 c /\ exists init, solution (constraints sp) init /\ holds init c
  end.
Definition taken (x x' : executor) (r : option Z) (c : expr) : Prop :=
  match r with
  | None => True
  | Some p => exists sp sp', live x !! p = Some sp /\ live x' !! p = Some sp' /\ child sp c true sp'
  end.
Record same_lists (x x' : executor) : Prop := {
  sl_states : states x' = states x;
  sl_added : addedStates x' = addedStates x;
  sl_removed : removedStates x' = removedStates x;
  sl_next : next_state x' = next_state x
}.
Lemma distinct_tail r l : distinct (r :: l) -> distinct l.
Proof. intros H i j p Hi Hj. specialize (H (S i) (S j) p Hi Hj). congruence. Qed.
Lemma distinct_head p l : distinct (Some p :: l) -> Some p ∉ l.
Proof. intros H [i Hi]%list_elem_of_lookup_1. by specialize (H O (S i) p eq_refl Hi). Qed.
Lemma Forall2_in {A B} (P Q : A -> B -> Prop) l k : Forall2 P l k -> (forall a b, a ∈ l -> P a b -> Q a b) -> Forall2 Q l k.
Proof.
  induction 1 as [|a b l k Hab Hl IH]; intros H; [constructor|]. constructor; [apply H; [by left|done]|]. apply IH. intros a' b' Ha'. apply H. by right.
Qed.
Lemma add_conditions_ok r : forall cs (x : executor), exec_ok inv x -> distinct r -> Forall2 (can_take x) r cs ->
  eventually (fun n => add_conditions false RewriteEqualities n r cs) x (fun _ x' =>
    exec_ok inv x' /\ same_lists x x' /\ (forall q, Some q ∉ r -> live x' !! q = live x !! q) /\ Forall2 (taken x x') r cs).
Proof.
  induction r as [|[p|] r IH]; intros cs x Hx Hd Hf; inversion_clear Hf as [|? c ? cs' Hc Hf']; subst.
  - apply ev_ret. split_and!; done.
  - destruct Hc as (sp & Hp & Ac & init & Hs & Hh). pose proof (distinct_head p r Hd) as Hpr. cbn [add_conditions].
    eapply ev_bind; [apply (add_ok_exec RewriteEqualities rng p sp c init x Hp (ex_paths _ _ Hx p sp Hp) Ac Hs Hh)|].
    intros ? x1 (sp' & -> & Hn). assert (Hlive : forall q, q <> p -> live (set_state p sp' x) !! q = live x !! q) by (intros q Hq; simpl; by rewrite lookup_insert_ne).
    eapply ev_mono; [apply (IH cs' (set_state p sp' x))|].
    + apply (set_state_ok inv p sp); [done|done|by eapply narrowed_node|by eapply narrowed_ok].
    + by eapply distinct_tail.
    + eapply Forall2_in; [exact Hf'|]. intros [q|] d Hq Hcan; [|done]. destruct Hcan as (sq & Hsq & Hrest). exists sq. split; [|done].
      rewrite Hlive; [done|]. by intros ->.
    + intros ? x' (Hx' & [L1 L2 L3 L4] & Hoth & Hall). split; [done|]. split; [done|]. split.
      * intros q [Hq Hqr]%not_elem_of_cons. rewrite Hoth, Hlive; [done|congruence|done].
      * constructor.
        -- exists sp, sp'. rewrite Hoth by done. split; [done|]. split; [apply lookup_insert_eq|by apply child_true].
        -- eapply Forall2_in; [exact Hall|]. intros [q|] d Hq Ht; [|done]. destruct Ht as (sq & sq' & H1 & H2). exists sq, sq'. rewrite <- Hlive; [done|]. by intros ->.
  - cbn [add_conditions]. eapply ev_mono; [apply (IH cs' x); [done|by eapply distinct_tail|done]|].
    intros ? x' (Hx' & Hsl & Hoth & Hall). split; [done|]. split; [done|]. split; [|by constructor].
    intros q [_ Hq]%not_elem_of_cons. by apply Hoth.
Qed.

Definition branched (s : est) (x' : executor) (r : option Z) (c : expr) : Prop :=
  match r with None => True | Some q => exists sq, live x' !! q = Some sq /\ child s c true sq end.
Definition too_many (x : executor) : bool := negb (MaxForks o =? no_limit) && (MaxForks o <=? forks x).
(** Which states there are: the path alone, at one of the places, or with a new one for each of
    the others. *)
Definition made (p : Z) (n : nat) (r : list (option Z)) (x x' : executor) : Prop :=
  states x' = states x /\ removedStates x' = removedStates x /\
  if too_many x then addedStates x' = addedStates x /\ exists k, (k < n)%nat /\ r = (fun i => if Nat.eqb i k then Some p else None) <$> seq 0 n
  else exists new : list Z, r = Some <$> (p :: new) /\ addedStates x' = addedStates x ++ new /\ forall q, q ∉ p :: new -> live x' !! q = live x !! q.
Definition possible (s : est) (c : expr) : Prop := asked 1 c /\ exists init, solution (constraints s) init /\ holds init c.

Lemma distinct_some (l : list Z) : NoDup l -> distinct (Some <$> l).
Proof.
  intros Hn i j p. rewrite !list_lookup_fmap. intros Hi Hj. destruct (l !! i) eqn:Ei; [|done]. destruct (l !! j) eqn:Ej; [|done].
  injection Hi as ->. injection Hj as ->. by eapply NoDup_lookup.
Qed.
Lemma only_lookup (p : Z) n k i : ((fun i => if Nat.eqb i k then Some p else None) <$> seq 0 n) !! i = Some (Some p) -> i = k.
Proof.
  rewrite list_lookup_fmap. destruct (seq 0 n !! i) as [j|] eqn:E; [|done]. apply lookup_seq in E as [-> _]. simpl.
  by destruct (Nat.eqb_spec i k).
Qed.
Lemma distinct_only (p : Z) n k : distinct ((fun i => if Nat.eqb i k then Some p else None) <$> seq 0 n).
Proof.
  intros i j q Hi Hj. assert (q = p) as ->.
  { apply list_elem_of_lookup_2, list_elem_of_fmap in Hi as (m & Hm & _). destruct (Nat.eqb m k); congruence. }
  rewrite (only_lookup p n k i Hi). symmetry. by apply (only_lookup p n k j).
Qed.
Lemma possible_copies s (x : executor) r conditions : length r = length conditions -> Forall (possible s) conditions ->
  (forall q, Some q ∈ r -> copy s x q) -> Forall2 (can_take x) r conditions.
Proof.
  revert conditions. induction r as [|r0 r IH]; intros [|c cs] Hlen Hall Hc; try done.
  apply list.Forall_cons in Hall as [[Ac (init & Hs & Hh)] Hall]. constructor.
  - destruct r0 as [q|]; [|done]. destruct (Hc q ltac:(by left)) as (sq & Hq & E & _). exists sq. split; [done|]. split; [done|]. exists init. by rewrite E.
  - apply IH; [simpl in Hlen; congruence|done|]. intros q Hq. apply Hc. by right.
Qed.
Lemma taken_branched s (x x' : executor) r conditions : (forall q, Some q ∈ r -> copy s x q) -> Forall2 (taken x x') r conditions ->
  Forall2 (branched s x') r conditions.
Proof.
  intros Hc Hf. eapply Forall2_in; [exact Hf|]. intros [q|] c Hq Ht; [|done]. destruct Ht as (sq & sq' & H1 & H2 & H3).
  destruct (Hc q Hq) as (s1 & E1 & E2). rewrite H1 in E1. injection E1 as ->. exists sq'. split; [done|]. destruct E2 as [E2 E3]. by eapply child_similar.
Qed.
Lemma copies_branched s r conditions (x : executor) (P : executor -> Prop) :
  exec_ok inv x -> length r = length conditions -> distinct r -> Forall (possible s) conditions -> (forall q, Some q ∈ r -> copy s x q) ->
  (forall x', same_lists x x' -> (forall q, Some q ∉ r -> live x' !! q = live x !! q) -> P x') ->
  eventually (fun n => add_conditions false RewriteEqualities n r conditions;; mret r) x (fun r' x' =>
    r' = r /\ exec_ok inv x' /\ Forall2 (branched s x') r conditions /\ P x').
Proof.
  intros Hx Hlen Hd Hall Hc HP. eapply ev_bind; [apply (add_conditions_ok r conditions x Hx Hd); by apply (possible_copies s)|].
  intros ? x' (Hx' & Hsl & Hoth & Ht). apply ev_ret. split; [done|]. split; [done|]. split; [by eapply taken_branched|auto].
Qed.

Lemma branch_ok p s conditions (x : executor) :
  exec_ok inv x -> live x !! p = Some s -> conditions <> [] -> Forall (possible s) conditions ->
  eventually (fun n => branch false RewriteEqualities o rng n p conditions) x (fun r x' =>
    exec_ok inv x' /\ distinct r /\ Forall2 (branched s x') r conditions /\ made p (length conditions) r x x').
Proof.
  intros Hx Hp Hne Hall. unfold branch. set (N := length conditions). assert (HN : (0 < N)%nat) by (subst N; destruct conditions; [done|simpl; lia]).
  rewrite (proj2 (Nat.eqb_neq N 0)) by lia. cbn [negb assert_]. unfold mbind at 1, M_bind at 1, mret at 1, M_ret at 1. apply ev_get.
  assert (Hcopy : copy s x p) by by exists s. unfold made. fold (too_many x). destruct (too_many x).
  - set (k := Z.to_nat (rng (draws x) `mod` Z.of_nat N)). set (r := (fun i => if Nat.eqb i k then Some p else None) <$> seq 0 N).
    assert (Hk : (k < N)%nat) by (subst k; pose proof (Z.mod_pos_bound (rng (draws x)) (Z.of_nat N)); lia).
    assert (Hr : forall q, Some q ∈ r -> q = p).
    { intros q Hq. apply list_elem_of_fmap in Hq as (i & Hi & _). destruct (Nat.eqb i k); congruence. }
    apply (ev_bind_run _ _ x r (drawn x)); [done|].
    eapply ev_mono; [apply (copies_branched s r conditions (drawn x) (fun x' => same_lists x x'));
      [by apply drawn_inv|by unfold r; rewrite length_fmap, length_seq|apply distinct_only|done|by intros q ->%Hr|by intros x' [] _]|].
    intros r' x' (-> & Hx' & Hb & [L1 L2 L3 L4]). split_and!; try done; [apply distinct_only|by exists k].
  - set (x1 := Exec (live x) (next_state x) (states x) (addedStates x) (removedStates x) (processTree x) (u64 (forks x + (Z.of_nat N - 1)))
      (draws x) (replayPosition x) (solver_state x)).
    assert (Hx1 : exec_ok inv x1) by (destruct Hx; by split).
    destruct (branch_more_ok s p (N - 1) 1 [p] x1 Hx1 eq_refl ltac:(lia) (NoDup_singleton p)) as (new & x2 & E & Hx2 & Hn & Hc & [G1 G2 G3 G4 G5 G6]).
    { by intros q ->%list_elem_of_singleton. }
    apply (ev_bind_run _ _ x (Some <$> (p :: new)) x2).
    { unfold add_forks, modify, mbind at 1, M_bind at 1. by rewrite (mbind_run _ _ x1 _ _ E). }
    assert (Hsome : forall q, Some q ∈ Some <$> (p :: new) -> q ∈ p :: new) by (intros q (? & [= ->] & ?)%list_elem_of_fmap; done).
    eapply ev_mono; [apply (copies_branched s (Some <$> (p :: new)) conditions x2 (fun x' => same_lists x2 x' /\ forall q, q ∉ p :: new -> live x' !! q = live x2 !! q));
      [done| |by apply distinct_some|done|by intros q Hq%Hsome; apply Hc|]|].
    + rewrite length_fmap. simpl. rewrite G1. fold N. lia.
    + intros x' Hsl Hoth. split; [done|]. intros q Hq. apply Hoth. by intros ?%Hsome.
    + intros r' x' (-> & Hx' & Hb & [L1 L2 L3 L4] & Hoth). split; [done|]. split; [by apply distinct_some|]. split; [done|].
      split; [by rewrite L1|]. split; [by rewrite L3|]. exists new. split; [done|]. split; [by rewrite L2|]. intros q Hq. by rewrite Hoth, G6.
Qed.
(** C19. A switch. From a path on which each of the conditions can hold, [branch] gives a state
    for each of them whose solutions are those of the path where its condition holds: the path
    itself and new states, no two the same, or where the limit on forks is reached the path
    alone, for a condition that is drawn; the executor stays sound, and no other state changes. *)
Theorem branch_splits p s conditions (x : executor) :
  exec_ok inv x -> live x !! p = Some s -> conditions <> [] -> Forall (possible s) conditions ->
  eventually (fun n => branch false RewriteEqualities o rng n p conditions) x (fun r x' =>
    exec_ok inv x' /\ distinct r /\ Forall2 (branched s x') r conditions /\ made p (length conditions) r x x').
Proof. apply branch_ok. Qed.

(** ** Every step of a search *)
(** What the executor does to its states; [gives] is the result with enough fuel. *)
Inductive step : executor -> executor -> Prop :=
  | step_fork over p s condition isInternal r x x' :
      live x !! p = Some s -> p ∉ removedStates x -> asked 1 condition ->
      gives (fun n => fork false RewriteEqualities simplifyExprs o rng solver n over p condition isInternal x) (r, x') -> step x x'
  | step_branch p s conditions r x x' :
      live x !! p = Some s -> conditions <> [] -> Forall (possible s) conditions ->
      gives (fun n => branch false RewriteEqualities o rng n p conditions x) (r, x') -> step x x'
  | step_constant p s w e c x x' :
      live x !! p = Some s -> asked w e ->
      gives (fun n => toConstant false RewriteEqualities simplifyExprs solver n p e x) (c, x') -> step x x'
  | step_unique p s w e c x x' :
      live x !! p = Some s -> asked w e -> gives (fun n => toUnique false simplifyExprs solver n p e x) (c, x') -> step x x'
  | step_terminate p s x x' :
      live x !! p = Some s -> p ∉ removedStates x -> terminateState p x = Ret (tt, x') -> step x x'
  | step_update told x x' : updateStates x = Ret (told, x') -> step x x'.

Lemma gives_same {A} (f : nat -> result A) a b : gives f a -> gives f b -> a = b.
Proof. intros [n Hn] [m Hm]. specialize (Hn (Nat.max n m) ltac:(lia)). specialize (Hm (Nat.max n m) ltac:(lia)). congruence. Qed.
Lemma ev_gives {A} (run : nat -> M executor A) x (P : A -> executor -> Prop) a x' :
  eventually run x P -> gives (fun n => run n x) (a, x') -> P a x'.
Proof. intros (b & y & H1 & Hb) H2. pose proof (gives_same _ _ _ H1 H2) as [= -> ->]. done. Qed.
Lemma search_step_ok x x' : replayPath o = None -> replayKTest o = false -> exec_ok inv x -> step x x' -> exec_ok inv x'.
Proof.
  intros Hr Hk Hx Hs. destruct Hs as [over p s c b r x x' Hp Hg Ha H|p s cs r x x' Hp Hn Hf H|p s w e c x x' Hp Ha H|p s w e c x x' Hp Ha H|p s x x' Hp Hg H|told x x' H].
  - by apply (ev_gives _ _ _ _ _ (fork_ok RewriteEqualities simplifyExprs o rng solver inv over p s c b x Hr Hk Hx Hp Hg Ha) H).
  - by apply (ev_gives _ _ _ _ _ (branch_ok p s cs x Hx Hp Hn Hf) H).
  - by apply (ev_gives _ _ _ _ _ (toConstant_ok p s w e x Hx Hp Ha) H).
  - destruct (ev_gives _ _ _ _ _ (toUnique_ok p s w e x Hx Hp Ha) H) as [(st & -> & Hst) _]. by apply with_solver_ok.
  - destruct (terminate_ok rng inv p s x Hx Hp Hg) as (y & E & Hy & _). congruence.
  - destruct (updateStates_ok x Hx) as (y & E & Hy & _). congruence.
Qed.
(** The executor before its first step ([Executor::run]). *)
Definition started (p : Z) (s : est) (st : St) : executor := Exec {[p := with_node 0 s]} (p + 1) [p] [] [] (PTree p) 0 0 0 st.
Lemma started_ok p s st : state_ok s -> inv st -> exec_ok inv (started p s st).
Proof.
  intros Hs Hi. destruct (start_tree p) as [T1 T2].
  split; cbn [live next_state states addedStates removedStates processTree solver_state started]; try done.
  - intros q. rewrite list_elem_of_singleton, elem_of_nil. split; [intros [? [-> _]%lookup_singleton_Some]; by left|intros [->|[]]; rewrite lookup_singleton_eq; by eexists].
  - intros q [? [-> _]%lookup_singleton_Some]. lia.
  - apply NoDup_singleton.
  - constructor.
  - intros q _. apply not_elem_of_nil.
  - constructor.
  - by intros q ?%elem_of_nil.
  - rewrite map_fmap_singleton. exact T2.
  - intros q sq [-> <-]%lookup_singleton_Some. by apply (state_ok_same s).
Qed.

(** ** The searcher's calls *)
(** A queue of the searcher holds the states of the search. *)
Definition holds_states (A : Queue.queue) (x : executor) : Prop := forall q, is_Some (A !! q) <-> q ∈ states x.
Section Calls.
Context (c0 : gmap Z (bool * Contention.Contention.double)) (s0 : gmap Z Contention.Contention.double).
Lemma after_added_keys c A q : is_Some (Queue.after_added c0 s0 c A !! q) <->
  is_Some (A !! q) \/ Queue.c_current c = Some q \/ q ∈ Queue.c_added c.
Proof.
  assert (Hkey : forall p (A : Queue.queue), is_Some (Queue.with_priority c0 s0 c A p !! q) <-> is_Some (A !! q) \/ p = q).
  { intros p B. unfold Queue.with_priority. rewrite lookup_insert. case_decide; [split; [by right|by eexists]|]. tauto. }
  assert (Hall : forall l (A : Queue.queue), is_Some (foldl (Queue.with_priority c0 s0 c) A l !! q) <-> is_Some (A !! q) \/ q ∈ l).
  { induction l as [|p l IH]; intros B; simpl; [rewrite elem_of_nil; tauto|]. rewrite IH, Hkey, elem_of_cons. intuition. }
  unfold Queue.after_added. rewrite Hall. unfold Queue.after_current. destruct (Queue.c_current c) as [p|]; [rewrite Hkey|].
  - split; [intros [[?| ->]|?]; tauto|intros [?|[[= ->]|?]]; tauto].
  - intuition congruence.
Qed.
Lemma spec_update_keys c A q : is_Some (Queue.spec_update c0 s0 c A !! q) <->
  is_Some (Queue.after_added c0 s0 c A !! q) /\ q ∉ Queue.c_removed c.
Proof.
  unfold Queue.spec_update. generalize (Queue.after_added c0 s0 c A). induction (Queue.c_removed c) as [|p l IH]; intros B; simpl.
  { rewrite elem_of_nil. tauto. }
  rewrite IH, elem_of_cons. destruct (decide (q = p)) as [->|Hne]; [rewrite lookup_delete_eq; split; [by intros [[? ?] _]|tauto]|].
  rewrite lookup_delete_ne by done. tauto.
Qed.
(** What [updateStates] tells the searcher keeps to its protocol. *)
Definition tells (c : Queue.call) (x : executor) : Prop :=
  Queue.c_added c = addedStates x /\ Queue.c_removed c = removedStates x /\
  (forall p, Queue.c_current c = Some p -> p ∈ states x) /\
  forall p, p ∈ states x \/ p ∈ addedStates x -> Queue.known c0 s0 (Queue.c_heap c p).
Lemma update_legal c A (x x' : executor) : exec_ok inv x -> holds_states A x -> tells c x -> updated x x' ->
  Queue.legal c0 s0 c A /\ holds_states (Queue.spec_update c0 s0 c A) x'.
Proof.
  intros Hx HA (Ha & Hr & Hc & Hk) Hu. split.
  - split.
    + intros p Hp. split; [by apply HA, Hc|apply Hk; left; by apply Hc].
    + rewrite Ha. apply Hx.
    + rewrite Ha. intros p Hp. split; [|apply Hk; by right]. apply eq_None_not_Some. intros Hs%HA. by apply (ex_apart _ _ Hx p).
    + rewrite Hr. apply Hx.
    + rewrite Hr. intros p Hp. apply after_added_keys. left. apply HA. by apply (ex_gone _ _ Hx).
  - intros q. rewrite spec_update_keys, after_added_keys, Hr, Ha, (up_states _ _ Hu), (HA q).
    split; intros [H1 H2]; (split; [|done]); [destruct H1 as [?|[?|?]]; auto|tauto].
Qed.
End Calls.

(** C9. A search. From a state with a path that can be taken, whatever the executor does outside
    of replays - forking, switching on possible conditions, making values constant, ending each
    state at most once between updates, and updating the search - it stays sound: every state in
    memory is known to the search or new, and never both, its path can be taken, and the leaves
    of the process tree are the states in memory. Each of these steps returns, without a failed
    assertion, on a state that has not ended; and [updateStates] finds every state that it
    removes and tells the searcher what the searcher's protocol asks for. That a state is not
    ended again by the limit on memory is assumed ([ForkDemo.ended_twice]). *)
Theorem executor_invariant p0 s0 st0 (x : executor) :
  replayPath o = None -> replayKTest o = false -> state_ok s0 -> inv st0 -> rtc step (started p0 s0 st0) x ->
  exec_ok inv x /\
  (forall p s, live x !! p = Some s -> p ∉ removedStates x ->
     (exists x', terminateState p x = Ret (tt, x') /\ ended p x x') /\
     (forall over condition isInternal, asked 1 condition ->
        exists r x', gives (fun n => fork false RewriteEqualities simplifyExprs o rng solver n over p condition isInternal x) (r, x')) /\
     (forall conditions, conditions <> [] -> Forall (possible s) conditions ->
        exists r x', gives (fun n => branch false RewriteEqualities o rng n p conditions x) (r, x')) /\
     forall w e, asked w e ->
       (exists c x', gives (fun n => toConstant false RewriteEqualities simplifyExprs solver n p e x) (c, x')) /\
       exists c x', gives (fun n => toUnique false simplifyExprs solver n p e x) (c, x')) /\
  exists x', updateStates x = Ret ((addedStates x, removedStates x), x') /\ updated x x' /\
    forall costs succs c A, holds_states A x -> tells costs succs c x ->
      Queue.legal costs succs c A /\ holds_states (Queue.spec_update costs succs c A) x'.
Proof.
  intros Hr Hk Hs Hi Hrun. assert (Hx : exec_ok inv x).
  { pose proof (started_ok p0 s0 st0 Hs Hi) as H0. clear Hs Hi. induction Hrun as [x|x y z Hxy _ IH]; [done|]. by eapply IH, search_step_ok. }
  split; [done|]. split.
  - intros p s Hp Hg. split; [destruct (terminate_ok rng inv p s x Hx Hp Hg) as (x' & E & _ & He); by exists x'|].
    split_and!.
    + intros over c b Ha. destruct (fork_ok RewriteEqualities simplifyExprs o rng solver inv over p s c b x Hr Hk Hx Hp Hg Ha) as (r & x' & H & _).
      by exists r, x'.
    + intros cs Hne Hcs. destruct (branch_ok p s cs x Hx Hp Hne Hcs) as (r & x' & H & _). by exists r, x'.
    + intros w e He. destruct (toConstant_ok p s w e x Hx Hp He) as (c & x1 & H1 & _), (toUnique_ok p s w e x Hx Hp He) as (c' & x2 & H2 & _).
      split; [by exists c, x1|by exists c', x2].
  - destruct (updateStates_ok x Hx) as (x' & E & _ & Hu). exists x'. split; [done|]. split; [done|]. intros costs succs c A HA Ht.
    by eapply update_legal.
Qed.
End Run.
End ForkRun.

(** * A search that splits on an input byte *)
Module ForkDemo.
Import Expr ExprFacts Create ExprMain ConstraintsOk ConstraintsMain Constraints Solver TimingSolver Paths TryAll PTree ExecFork ForkOk ForkRun.

Definition no_limits : options := Options 0 no_limit false false false None false true false.
Definition two_levels : options := Options 1 no_limit false false false None false false false.
Definition no_draws (_ : Z) : Z := 0.
Definition first : est := EState 10 9 [] 0 [] 0 [] [] false 0.
Definition small : expr := Binary Ult (byte 0) (Constant 8 100).
Definition begin : executor unit := started 7 first tt.
Definition split_search (n : nat) : M (executor unit) (option Z * option Z) := fork false true true no_limits no_draws try_all n false 7 small false.

Lemma first_ok : state_ok first.
Proof. split; [by split|]. exists (fill 0). apply no_constraints. Qed.
Lemma begin_ok : exec_ok (fun _ => True) begin.
Proof. apply started_ok; [exact first_ok|exact I]. Qed.
Lemma small_asked : asked 1 small.
Proof. split; reflexivity. Qed.

Example split_run_example :
  exists x, split_search 20 begin = Ret ((Some 7, Some 8), x) /\ addedStates x = [8] /\
    (constraints <$> live x !! 7) = Some [small] /\ (constraints <$> live x !! 8) = Some [Binary Eq (Constant 1 0) small] /\
    (pathOS <$> live x !! 8) = Some [false].
Proof. eexists. split; [vm_compute; reflexivity|]. split_and!; vm_compute; reflexivity. Qed.

Lemma fork_partitions_witness :
  exec_ok (fun _ => True) begin /\
  eventually split_search begin (fun r x' => exec_ok (fun _ => True) x' /\ outcome no_limits try_all (fun _ => True) false 7 (with_node 0 first) small begin r x').
Proof.
  split; [exact begin_ok|].
  apply (fork_partitions true true no_limits no_draws try_all (fun _ => True) false 7 (with_node 0 first) small false begin);
    [reflexivity|reflexivity|exact begin_ok|reflexivity|apply not_elem_of_nil|exact small_asked].
Defined.

Definition large : expr := Binary Ult (Constant 8 99) (byte 0).
Lemma cases_possible : Forall (possible first) [small; large].
Proof.
  repeat constructor; try reflexivity; [exists (fill 0)|exists (fill 200)]; (split; [|reflexivity]).
  - apply (fill_solution 0). lia.
  - apply (fill_solution 200). lia.
Qed.
Lemma branch_splits_witness :
  eventually (fun n => branch false true no_limits no_draws n 7 [small; large]) begin (fun r x' =>
    exec_ok (fun _ => True) x' /\ distinct r /\ Forall2 (branched (with_node 0 first) x') r [small; large] /\ made no_limits 7 2 r begin x').
Proof.
  apply (branch_splits true no_limits no_draws (fun _ => True) 7 (with_node 0 first) [small; large] begin);
    [exact begin_ok|reflexivity|discriminate|exact cases_possible].
Defined.

Lemma timing_mayBe_ok_witness :
  eventually (fun n => timing_mayBeTrue false true try_all n [] small) tt (fun r s' => True /\
    match r with Some b => b = false <-> forall init, solution [] init -> ~ holds init small | None => gives_up try_all (fun _ => True) end).
Proof.
  apply (timing_mayBe_ok true try_all (fun _ => True) [] (fill 0) (proj1 no_constraints) (proj2 no_constraints) small tt small_asked I).
Defined.

Lemma executor_invariant_witness :
  exists r x x', gives (fun n => split_search n begin) (r, x) /\ exec_ok (fun _ => True) x /\
    updateStates x = Ret ((addedStates x, removedStates x), x').
Proof.
  destruct (fork_ok true true no_limits no_draws try_all (fun _ => True) false 7 (with_node 0 first) small false begin) as (r & x & H & _);
    [reflexivity|reflexivity|exact begin_ok|reflexivity|apply not_elem_of_nil|exact small_asked|].
  destruct (executor_invariant true true no_limits no_draws try_all (fun _ => True) 7 first tt x) as (H1 & _ & x' & H2 & _).
  - reflexivity.
  - reflexivity.
  - exact first_ok.
  - exact I.
  - apply rtc_once. eapply (step_fork _ _ _ _ _ false 7 (with_node 0 first) small false r); [reflexivity|apply not_elem_of_nil|exact small_asked|exact H].
  - exists r, x, x'. split; [exact H|]. split; [exact H1|exact H2].
Defined.

(** A limit on the depth ends both children. *)
Example depth_ends_both :
  exists x, fork false true true two_levels no_draws try_all 20 false 7 small false begin = Ret ((None, None), x) /\
    addedStates x = [] /\ removedStates x = [7].
Proof. eexists. split; [vm_compute; reflexivity|]. split; vm_compute; reflexivity. Qed.

(** A state that ends twice before the states are updated, as one does that ended in its last
    instruction and that the memory limit then picks. *)
Example ended_twice : (terminateState 7;; terminateState 7;; updateStates) begin = Stop AssertFailed.
Proof. vm_compute. reflexivity. Qed.
End ForkDemo.
