(* ===== verification/Interp.v ===== *)
(** * The interpreter of the executor

    lib/Core/Executor.cpp (eval, bindLocal, stepInstruction, executeCall,
    transferToBasicBlock, executeInstruction): the instructions on integers and the flow of
    control ([Interp]), over the states and forks of ExecFork. Instructions have consecutive
    addresses within a function; functions, basic blocks and constants are given as the
    module presents them. Memory, floating point, vectors, aggregates, variadic functions,
    exceptions, inline assembly and external functions are left out, and no cache model is
    attached. [Machine] is the program's own meaning on machine integers. *)
From stdpp Require Import base gmap list strings numbers.
From Stdlib Require Import ZArith Lia.
From S2P Require Import Prelude ExprData ExprFacts ExprCreate ExprOrder Constraints Solver Paths ExecFork.

(** * Instructions *)
Module Instruction.
Inductive binary_op : Type := Add | Sub | Mul | UDiv | SDiv | URem | SRem | And | Or | Xor | Shl | LShr | AShr.
Inductive predicate : Type :=
  | ICMP_EQ | ICMP_NE | ICMP_UGT | ICMP_UGE | ICMP_ULT | ICMP_ULE | ICMP_SGT | ICMP_SGE | ICMP_SLT | ICMP_SLE.
(** A call has the function that [getTargetFunction] finds; where its type is not that of the
    pointer, the widths of its parameters; and which parameters and results are sign-extended.
    A switch has the values of its cases. *)
Inductive opcode : Type :=
  | Ret (has_value : bool)
  | Br (succ0 : Z)
  | BrIf (succ0 succ1 : Z)
  | Switch (cases : list (Z * Z)) (default : Z)
  | Unreachable
  | Call (f : option Z) (params : option (list Z)) (sext_params : list bool) (sext_result : bool)
  | PHI (blocks : list Z)
  | Select
  | VAArg
  | BinaryOp (op : binary_op)
  | ICmp (p : predicate)
  | GetElementPtr (indices : list (Z * Z)) (offset : Z)
  | Trunc | ZExt | SExt | IntToPtr | PtrToInt | BitCast.
End Instruction.
Import Instruction (binary_op, predicate, opcode).

(** [width] is that of the type, 0 for void; [used] whether the value has users. *)
Record KInstruction : Type := KInst {
  inst : opcode;
  operands : list Z;
  dest : Z;
  parent : Z;
  width : Z;
  used : bool
}.
Record KFunction : Type := KFunc { instructions : Z; numArgs : nat; numRegisters : nat; basicBlockEntry : gmap Z Z }.
Record KModule : Type := KMod {
  code : gmap Z KInstruction;
  functionMap : gmap Z KFunction;
  constantTable : list Expr.expr;
  legalFunctions : list Z
}.

(** * The interpreter *)
Module Interp.
Import Expr Create ExprOrder Solver TimingSolver ExecFork.

Definition binary_kind (op : binary_op) : kind :=
  match op with
  | Instruction.Add => Add | Instruction.Sub => Sub | Instruction.Mul => Mul | Instruction.UDiv => UDiv | Instruction.SDiv => SDiv
  | Instruction.URem => URem | Instruction.SRem => SRem | Instruction.And => And | Instruction.Or => Or | Instruction.Xor => Xor
  | Instruction.Shl => Shl | Instruction.LShr => LShr | Instruction.AShr => AShr
  end.
Definition predicate_kind (p : predicate) : kind :=
  match p with
  | Instruction.ICMP_EQ => Eq | Instruction.ICMP_NE => Ne | Instruction.ICMP_UGT => Ugt | Instruction.ICMP_UGE => Uge
  | Instruction.ICMP_ULT => Ult | Instruction.ICMP_ULE => Ule | Instruction.ICMP_SGT => Sgt | Instruction.ICMP_SGE => Sge
  | Instruction.ICMP_SLT => Slt | Instruction.ICMP_SLE => Sle
  end.

(** Setters of a state *)
Definition with_stack (l : list StackFrame) (s : est) : est :=
  EState (pc s) (prevPC s) l (incomingBBIndex s) (constraints s) (depth s) (pathOS s) (symPathOS s) (forkDisabled s) (ptreeNode s).
Definition with_pc (a : Z) (s : est) : est :=
  EState a (prevPC s) (stack s) (incomingBBIndex s) (constraints s) (depth s) (pathOS s) (symPathOS s) (forkDisabled s) (ptreeNode s).
Definition with_incoming (i : Z) (s : est) : est :=
  EState (pc s) (prevPC s) (stack s) i (constraints s) (depth s) (pathOS s) (symPathOS s) (forkDisabled s) (ptreeNode s).

Section Run.
Context {ap : APInt} {host : Host} (ConstArrayOpt RewriteEqualities simplifyExprs : bool) (o : options) (rng : Z -> Z).
Context {St : Type} (solver : SolverImpl St) (fuel : nat) (over : bool) (km : KModule) (PW : Z).
Abbreviation executor := (executor St).

(** ** Cells *)
Definition eval_cell (ki : KInstruction) (index : Z) (s : est) : result expr :=
  match (if index <? 0 then None else operands ki !! Z.to_nat index) with
  | None => Stop AssertFailed
  | Some vnumber =>
      if vnumber =? -1 then Stop AssertFailed
      else if vnumber <? 0 then match constantTable km !! Z.to_nat (- vnumber - 2) with Some c => Ret c | None => Stop MemError end
      else
        match stack s with
        | sf :: _ => match locals sf !! Z.to_nat vnumber with Some (Some e) => Ret e | _ => Stop MemError end
        | [] => Stop MemError
        end
  end.
(** The cell of a register of the current frame. *)
Definition set_cell (r : Z) (v : expr) (s : est) : result est :=
  match stack s with
  | sf :: rest =>
      if (0 <=? r) && (r <? Z.of_nat (length (locals sf))) then
        Ret (with_stack (Frame (caller sf) (kf sf) (<[Z.to_nat r := Some v]> (locals sf)) :: rest) s)
      else Stop MemError
  | [] => Stop MemError
  end.
Definition change (p : Z) (f : est -> result est) : M executor unit := s ← state_at p; s' ← lift (f s); set_live (fun m => <[p := s']> m).
Definition bindLocal (p : Z) (target : KInstruction) (value : expr) : M executor unit := change p (set_cell (dest target) value).
Definition bindArgument (p : Z) (index : nat) (value : expr) : M executor unit := change p (set_cell (Z.of_nat index) value).
Definition eval_at (p : Z) (ki : KInstruction) (index : Z) : M executor expr := s ← state_at p; lift (eval_cell ki index s).

(** [state.prevPC = state.pc; ++state.pc] *)
Definition stepInstruction (p : Z) : M executor unit :=
  on_state p (fun s => EState (pc s + 1) (pc s) (stack s) (incomingBBIndex s) (constraints s) (depth s) (pathOS s) (symPathOS s)
    (forkDisabled s) (ptreeNode s)).
Definition fetch (a : Z) : result KInstruction := match code km !! a with Some ki => Ret ki | None => Stop MemError end.

(** ** Control flow *)
(** [PHINode::getBasicBlockIndex] *)
Fixpoint block_index (l : list Z) (b i : Z) : Z := match l with [] => -1 | x :: l => if x =? b then i else block_index l b (i + 1) end.
Definition transfer (dst src : Z) (s : est) : result est :=
  match stack s with
  | [] => Stop MemError
  | sf :: _ =>
      match functionMap km !! kf sf with
      | None => Stop MemError
      | Some f =>
          let entry := instructions f + default 0 (basicBlockEntry f !! dst) in
          ki ← fetch entry;
          let s := with_pc entry s in
          Ret (match inst ki with Instruction.PHI blocks => with_incoming (block_index blocks src 0) s | _ => s end)
      end
  end.
Definition transferToBasicBlock (dst src p : Z) : M executor unit := change p (transfer dst src).

Definition terminateStateOnExit (p : Z) : M executor unit := terminateState p.
Definition terminateStateOnError (p : Z) : M executor unit := terminateState p.
Definition terminateStateOnExecError (p : Z) : M executor unit := terminateStateOnError p.

Definition pushFrame (caller : option Z) (f : Z) (k : KFunction) (s : est) : result est :=
  Ret (with_pc (instructions k) (with_stack (Frame caller f (replicate (numRegisters k) None) :: stack s) s)).
Fixpoint bind_arguments (p : Z) (n index : nat) (arguments : list expr) : M executor unit :=
  match n, arguments with
  | S n, a :: arguments => bindArgument p index a;; bind_arguments p n (S index) arguments
  | _, _ => mret tt
  end.
Definition executeCall (p f : Z) (arguments : list expr) : M executor unit :=
  match functionMap km !! f with
  | None => halt MemError
  | Some k =>
      s ← state_at p;
      change p (pushFrame (Some (prevPC s)) f k);;
      if Nat.ltb (length arguments) (numArgs k) then terminateStateOnError p
      else bind_arguments p (numArgs k) 0 arguments
  end.

(** Arguments and results of another width *)
Definition coerce (signed : bool) (e : expr) (w : Z) : result expr :=
  if getWidth e =? w then Ret e else if signed then create_SExt e w else create_ZExt e w.
Fixpoint coerce_arguments (params : list Z) (signed : list bool) (arguments : list expr) : result (list expr) :=
  match arguments, params with
  | a :: arguments, w :: params =>
      a ← coerce (default false (head signed)) a w;
      l ← coerce_arguments params (tail signed) arguments;
      Ret (a :: l)
  | _, _ => Ret arguments
  end.
(** [popFrame]; the state goes on behind the call. *)
Definition pop (rest : list StackFrame) (kcaller : Z) (s : est) : result est := Ret (with_pc (kcaller + 1) (with_stack rest s)).
Definition returns (p : Z) (ki : KInstruction) (has_value : bool) : M executor unit :=
  s ← state_at p;
  match stack s with
  | [] => halt MemError
  | sf :: rest =>
      result ← (if has_value then eval_at p ki 0 else mret (Constant Bool 0));
      match rest with
      | [] => assert_ (match caller sf with None => true | Some _ => false end);; terminateStateOnExit p
      | _ =>
          match caller sf with
          | None => halt MemError
          | Some kcaller =>
              call ← lift (fetch kcaller);
              change p (pop rest kcaller);;
              if has_value then
                if width call =? 0 then mret tt
                else
                  result ← lift (coerce (match inst call with Instruction.Call _ _ _ b => b | _ => false end) result (width call));
                  bindLocal p call result
              else if used call then terminateStateOnExecError p else mret tt
          end
      end
  end.

(** ** Switches

    [getZExtValue] asserts that a constant has at most 64 bits. *)
(** [std::map::insert] of a case: a value that is there keeps its block. *)
Fixpoint insert_case (value : expr) (bb : Z) (m : list (expr * Z)) : list (expr * Z) :=
  match m with
  | [] => [(value, bb)]
  | (v, b) :: m' => if expr_lt value v then (value, bb) :: m else if expr_lt v value then (v, b) :: insert_case value bb m' else m
  end.
(** A block and the condition to go there, in the order of [bbOrder]. *)
Definition targets : Type := list (Z * expr).
Fixpoint or_target (bb : Z) (e : expr) (ts : targets) : result targets :=
  match ts with
  | [] => c ← create_Or e (Constant Bool 0); Ret [(bb, c)]
  | (b, c) :: ts => if b =? bb then c' ← create_Or e c; Ret ((b, c') :: ts) else ts' ← or_target bb e ts; Ret ((b, c) :: ts')
  end.
Definition add_default (bb : Z) (e : expr) (ts : targets) : targets := if bool_decide (bb ∈ ts.*1) then ts else ts ++ [(bb, e)].
Definition mayBeTrue_of (p : Z) (e : expr) : M executor bool :=
  s ← state_at p;
  r ← on_solver (timing_mayBeTrue ConstArrayOpt simplifyExprs solver fuel (constraints s) e);
  match r with Some b => mret b | None => halt AssertFailed end.
Fixpoint case_conditions (p : Z) (cond : expr) (cases : list (expr * Z)) (defaultValue : expr) (ts : targets) : M executor (expr * targets) :=
  match cases with
  | [] => mret (defaultValue, ts)
  | (value, bb) :: cases =>
      match_ ← lift (create_Eq ConstArrayOpt cond value);
      z ← lift (createIsZero ConstArrayOpt match_);
      defaultValue ← lift (create_And defaultValue z);
      b ← mayBeTrue_of p match_;
      ts ← (if b : bool then lift (or_target bb match_ ts) else mret ts);
      case_conditions p cond cases defaultValue ts
  end.
Fixpoint transfer_all (bbs : list Z) (src : Z) (branches : list (option Z)) : M executor unit :=
  match bbs, branches with
  | bb :: bbs, Some q :: branches => transferToBasicBlock bb src q;; transfer_all bbs src branches
  | _ :: bbs, None :: branches => transfer_all bbs src branches
  | _, _ => mret tt
  end.
Definition find_case (cases : list (Z * Z)) (default v : Z) : Z :=
  match List.find (fun c => c.1 =? v) cases with Some c => c.2 | None => default end.
Definition switches (p : Z) (ki : KInstruction) (cases : list (Z * Z)) (default : Z) : M executor unit :=
  cond ← eval_at p ki 0;
  cond ← toUnique ConstArrayOpt simplifyExprs solver fuel p cond;
  match cond with
  | Constant w v => assert_ (w <=? 64);; transferToBasicBlock (find_case cases default v) (parent ki) p
  | _ =>
      let order := foldl (fun m c => insert_case (Constant (getWidth cond) c.1) c.2 m) [] cases in
      res ← case_conditions p cond order (Constant Bool 1) [];
      b ← mayBeTrue_of p res.1;
      let ts := if b : bool then add_default default res.1 res.2 else res.2 in
      branches ← branch ConstArrayOpt RewriteEqualities o rng fuel p ts.*2;
      transfer_all ts.*1 (parent ki) branches
  end.

(** ** Calls *)
Fixpoint eval_arguments (p : Z) (ki : KInstruction) (n : nat) (j : Z) : M executor (list expr) :=
  match n with
  | O => mret []
  | S n => a ← eval_at p ki (j + 1); l ← eval_arguments p ki n (j + 1); mret (a :: l)
  end.
(** A pointer to a function: every value it can have, one after the other. *)
Fixpoint call_pointer (rounds : nat) (p free : Z) (v : expr) (arguments : list expr) (hasInvalid : bool) : M executor unit :=
  match rounds with
  | O => halt OutOfFuel
  | S rounds =>
      s ← state_at free;
      r ← on_solver (timing_getValue ConstArrayOpt simplifyExprs solver fuel (constraints s) v);
      match r with
      | Some (Constant w value) =>
          e ← lift (create_Eq ConstArrayOpt v (Constant w value));
          res ← fork ConstArrayOpt RewriteEqualities simplifyExprs o rng solver fuel over free e true;
          hasInvalid ← (match res.1 with
                        | None => mret hasInvalid
                        | Some q =>
                            assert_ (w <=? 64);;
                            if bool_decide (value ∈ legalFunctions km) then executeCall q value arguments;; mret hasInvalid
                            else if hasInvalid then mret hasInvalid
                            else terminateStateOnExecError p;; mret true
                        end);
          match res.2 with None => mret tt | Some free => call_pointer rounds p free v arguments hasInvalid end
      | _ => halt AssertFailed
      end
  end.
Definition calls (p : Z) (ki : KInstruction) (f : option Z) (params : option (list Z)) (sext_params : list bool) : M executor unit :=
  arguments ← eval_arguments p ki (length (operands ki) - 1) 0;
  match f with
  | Some f =>
      arguments ← (match params with Some l => lift (coerce_arguments l sext_params arguments) | None => mret arguments end);
      executeCall p f arguments
  | None => v ← eval_at p ki 0; call_pointer fuel p p v arguments false
  end.

(** ** Values *)
Definition createPointer (v : Z) : result expr := create_Constant v PW.
Fixpoint add_indices (ki : KInstruction) (s : est) (base : expr) (indices : list (Z * Z)) : result expr :=
  match indices with
  | [] => Ret base
  | (i, elementSize) :: indices =>
      index ← eval_cell ki i s;
      index ← create_SExt index PW;
      size ← createPointer elementSize;
      scaled ← create_Mul index size;
      base ← create_Add ConstArrayOpt base scaled;
      add_indices ki s base indices
  end.
(** The value that an instruction gives its register, for those that do nothing else. *)
Definition value_of (ki : KInstruction) (s : est) : result expr :=
  match inst ki with
  | Instruction.PHI _ => eval_cell ki (incomingBBIndex s) s
  | Instruction.Select => c ← eval_cell ki 0 s; t ← eval_cell ki 1 s; f ← eval_cell ki 2 s; create_Select ConstArrayOpt c t f
  | Instruction.BinaryOp op => l ← eval_cell ki 0 s; r ← eval_cell ki 1 s; create_binary ConstArrayOpt (binary_kind op) l r
  | Instruction.ICmp p => l ← eval_cell ki 0 s; r ← eval_cell ki 1 s; create_binary ConstArrayOpt (predicate_kind p) l r
  | Instruction.GetElementPtr indices offset =>
      base ← eval_cell ki 0 s;
      base ← add_indices ki s base indices;
      if nz offset then off ← createPointer offset; create_Add ConstArrayOpt base off else Ret base
  | Instruction.Trunc => e ← eval_cell ki 0 s; create_Extract e 0 (width ki)
  | Instruction.ZExt | Instruction.IntToPtr | Instruction.PtrToInt => e ← eval_cell ki 0 s; create_ZExt e (width ki)
  | Instruction.SExt => e ← eval_cell ki 0 s; create_SExt e (width ki)
  | Instruction.BitCast => eval_cell ki 0 s
  | _ => Stop MemError
  end.

Definition executeInstruction (p : Z) (ki : KInstruction) : M executor unit :=
  match inst ki with
  | Instruction.Ret has_value => returns p ki has_value
  | Instruction.Br dst => transferToBasicBlock dst (parent ki) p
  | Instruction.BrIf succ0 succ1 =>
      cond ← eval_at p ki 0;
      branches ← fork ConstArrayOpt RewriteEqualities simplifyExprs o rng solver fuel over p cond false;
      (match branches.1 with Some q => transferToBasicBlock succ0 (parent ki) q | None => mret tt end);;
      (match branches.2 with Some q => transferToBasicBlock succ1 (parent ki) q | None => mret tt end)
  | Instruction.Switch cases default => switches p ki cases default
  | Instruction.Unreachable | Instruction.VAArg => terminateStateOnExecError p
  | Instruction.Call f params sext_params _ => calls p ki f params sext_params
  | _ => s ← state_at p; v ← lift (value_of ki s); bindLocal p ki v
  end.
(** The body of the loop of [Executor::run] for the state that was selected. *)
Definition step (p : Z) : M executor unit :=
  s ← state_at p;
  ki ← lift (fetch (pc s));
  stepInstruction p;;
  executeInstruction p ki.
End Run.
End Interp.
