(* ===== verification/InterpMain.v ===== *)
(** * The interpreter follows the program

    [Machine] is what the instructions mean on machine integers, without symbols. [Simulation]:
    a path of the executor stands for the runs of the program on its solutions, and a step of
    the interpreter gives paths that stand, together, for the next states of all of these runs
    and of no other ([follows]), for each instruction; [explores] is any order of such steps and
    of updates of the states. [InterpDemo]: a program with a branch and a switch, and two that
    are explored wrongly. *)
From stdpp Require Import base gmap list strings numbers.
From Stdlib Require Import ZArith Lia.
From S2P Require Import Prelude ExprData ExprFacts ExprCreate ExprSound ExprEval ExprMain ExprOrder.
From S2P Require Import Constraints ConstraintsOk ConstraintsMain IndepSolver Solver Paths ExecFork ForkMain Interp.

(** * The program's meaning

    A value has its width and its bits. A step is undefined where a type does not fit, a
    register has no value, or a switch is on more than 64 bits, which the executor refuses. *)
Module Machine.
Import Instruction (binary_op, predicate, opcode).
Abbreviation value := (Z * Z)%type.
Record frame : Type := MFrame { m_caller : option Z; m_kf : Z; m_locals : list (option value) }.
Record state : Type := MState { m_pc : Z; m_stack : list frame; m_incoming : Z }.
Inductive outcome : Type := Next (c : state) | Exits | Fails.

Section Run.
Context (km : KModule) (PW : Z).

Definition constant_value (e : Expr.expr) : option value := match e with Expr.Constant w v => Some (w, v) | _ => None end.
Definition m_eval (ki : KInstruction) (index : Z) (c : state) : option value :=
  vnumber ← (if index <? 0 then None else operands ki !! Z.to_nat index);
  if vnumber =? -1 then None
  else if vnumber <? 0 then constantTable km !! Z.to_nat (- vnumber - 2) ≫= constant_value
  else match m_stack c with sf :: _ => mjoin (m_locals sf !! Z.to_nat vnumber) | [] => None end.
Definition m_set (r : Z) (v : value) (c : state) : option state :=
  match m_stack c with
  | sf :: rest =>
      if (0 <=? r) && (r <? Z.of_nat (length (m_locals sf))) then
        Some (MState (m_pc c) (MFrame (m_caller sf) (m_kf sf) (<[Z.to_nat r := Some v]> (m_locals sf)) :: rest) (m_incoming c))
      else None
  | [] => None
  end.
Definition m_transfer (dst src : Z) (c : state) : option state :=
  match m_stack c with
  | sf :: _ =>
      f ← functionMap km !! m_kf sf;
      let entry := instructions f + default 0 (basicBlockEntry f !! dst) in
      ki ← code km !! entry;
      Some (MState entry (m_stack c) (match inst ki with Instruction.PHI blocks => Interp.block_index blocks src 0 | _ => m_incoming c end))
  | [] => None
  end.

(** ** Values *)
Definition m_binary (k : Expr.kind) (x y : option value) : option value :=
  a ← x; b ← y;
  if a.1 =? b.1 then v ← Expr.bv_binary k a.1 a.2 b.2; Some (if Expr.is_cmp k then 1 else a.1, v) else None.
Definition m_select (x y z : option value) : option value :=
  c ← x; t ← y; f ← z;
  if (c.1 =? 1) && (t.1 =? f.1) then Some (t.1, if c.2 =? 1 then t.2 else f.2) else None.
(** Smaller widths cut the value off. *)
Definition m_cast (signed : bool) (x : option value) (w : Z) : option value :=
  a ← x; if 0 <? w then Some (w, (if signed then sext a.1 a.2 else a.2) `mod` 2 ^ w) else None.
Definition m_trunc (x : option value) (w : Z) : option value := a ← x; if w <=? a.1 then m_cast false x w else None.
Definition m_pointer (v : Z) : option value := if (0 <? PW) && (v =? v `mod` 2 ^ PW) then Some (PW, v) else None.
Fixpoint m_indices (ki : KInstruction) (c : state) (base : option value) (indices : list (Z * Z)) : option value :=
  match indices with
  | [] => base
  | (i, elementSize) :: indices =>
      m_indices ki c (m_binary Expr.Add base (m_binary Expr.Mul (m_cast true (m_eval ki i c) PW) (m_pointer elementSize))) indices
  end.
Definition m_value (ki : KInstruction) (c : state) : option value :=
  match inst ki with
  | Instruction.PHI _ => m_eval ki (m_incoming c) c
  | Instruction.Select => m_select (m_eval ki 0 c) (m_eval ki 1 c) (m_eval ki 2 c)
  | Instruction.BinaryOp op => m_binary (Interp.binary_kind op) (m_eval ki 0 c) (m_eval ki 1 c)
  | Instruction.ICmp p => m_binary (Interp.predicate_kind p) (m_eval ki 0 c) (m_eval ki 1 c)
  | Instruction.GetElementPtr indices offset =>
      let base := m_indices ki c (m_eval ki 0 c) indices in
      if nz offset then m_binary Expr.Add base (m_pointer offset) else base
  | Instruction.Trunc => m_trunc (m_eval ki 0 c) (width ki)
  | Instruction.ZExt | Instruction.IntToPtr | Instruction.PtrToInt => m_cast false (m_eval ki 0 c) (width ki)
  | Instruction.SExt => m_cast true (m_eval ki 0 c) (width ki)
  | Instruction.BitCast => m_eval ki 0 c
  | _ => None
  end.

(** ** Calls *)
Definition m_coerce (signed : bool) (x : value) (w : Z) : option value := if x.1 =? w then Some x else m_cast signed (Some x) w.
Fixpoint m_coerce_arguments (params : list Z) (signed : list bool) (arguments : list value) : option (list value) :=
  match arguments, params with
  | a :: arguments, w :: params =>
      a ← m_coerce (default false (head signed)) a w; l ← m_coerce_arguments params (tail signed) arguments; Some (a :: l)
  | _, _ => Some arguments
  end.
Fixpoint m_arguments (ki : KInstruction) (n : nat) (j : Z) (c : state) : option (list value) :=
  match n with O => Some [] | S n => a ← m_eval ki (j + 1) c; l ← m_arguments ki n (j + 1) c; Some (a :: l) end.
Fixpoint m_bind (n index : nat) (arguments : list value) (c : state) : option state :=
  match n, arguments with
  | S n, a :: arguments => c ← m_set (Z.of_nat index) a c; m_bind n (S index) arguments c
  | _, _ => Some c
  end.
Definition m_push (caller : Z) (f : Z) (k : KFunction) (c : state) : state :=
  MState (instructions k) (MFrame (Some caller) f (replicate (numRegisters k) None) :: m_stack c) (m_incoming c).
Definition m_call (caller f : Z) (arguments : list value) (c : state) : option outcome :=
  k ← functionMap km !! f;
  let c := m_push caller f k c in
  if Nat.ltb (length arguments) (numArgs k) then Some Fails else Next <$> m_bind (numArgs k) 0 arguments c.
Definition m_return (ki : KInstruction) (has_value : bool) (c : state) : option outcome :=
  match m_stack c with
  | [] => None
  | sf :: rest =>
      result ← (if has_value then m_eval ki 0 c else Some (1, 0));
      match rest with
      | [] => match m_caller sf with None => Some Exits | Some _ => None end
      | _ =>
          kcaller ← m_caller sf;
          call ← code km !! kcaller;
          let c := MState (kcaller + 1) rest (m_incoming c) in
          if has_value then
            if width call =? 0 then Some (Next c)
            else
              r ← m_coerce (match inst call with Instruction.Call _ _ _ b => b | _ => false end) result (width call);
              Next <$> m_set (dest call) r c
          else Some (if used call then Fails else Next c)
      end
  end.
Definition m_calls (caller : Z) (ki : KInstruction) (f : option Z) (params : option (list Z)) (sext_params : list bool) (c : state) : option outcome :=
  arguments ← m_arguments ki (length (operands ki) - 1) 0 c;
  match f with
  | Some f =>
      arguments ← (match params with Some l => m_coerce_arguments l sext_params arguments | None => Some arguments end);
      m_call caller f arguments c
  | None => v ← m_eval ki 0 c; if bool_decide (v.2 ∈ legalFunctions km) then m_call caller v.2 arguments c else Some Fails
  end.

(** ** Steps *)
Definition m_execute (ki : KInstruction) (caller : Z) (c : state) : option outcome :=
  match inst ki with
  | Instruction.Ret has_value => m_return ki has_value c
  | Instruction.Br dst => Next <$> m_transfer dst (parent ki) c
  | Instruction.BrIf succ0 succ1 =>
      v ← m_eval ki 0 c;
      if v.1 =? 1 then Next <$> m_transfer (if v.2 =? 1 then succ0 else succ1) (parent ki) c else None
  | Instruction.Switch cases default =>
      v ← m_eval ki 0 c;
      if (v.1 <=? 64) && forallb (fun x => Expr.fits v.1 x.1) cases then Next <$> m_transfer (Interp.find_case cases default v.2) (parent ki) c else None
  | Instruction.Unreachable | Instruction.VAArg => Some Fails
  | Instruction.Call f params sext_params _ => m_calls caller ki f params sext_params c
  | _ => v ← m_value ki c; Next <$> m_set (dest ki) v c
  end.
Definition m_step (c : state) : option outcome :=
  ki ← code km !! m_pc c;
  m_execute ki (m_pc c) (MState (m_pc c + 1) (m_stack c) (m_incoming c)).
End Run.
End Machine.

(** * The interpreter and the program *)
Module Simulation.
Import Expr ExprFacts Create Sound ExprMain Weight Constraints ConstraintsOk ConstraintsMain Solver TimingSolver Paths ExecFork ForkOk ForkRun Interp Machine.

Section Sim.
Context {ins : Inputs} {ap : APInt} {ap_ok : APIntOk} (km : KModule) (PW : Z).

(** ** Paths and runs *)
(** A cell has the value of its expression. *)
Definition cell_sim (init : array -> Z -> option Z) (x : option expr) (y : option value) : Prop :=
  match x, y with
  | None, None => True
  | Some e, Some (w, v) => asked w e /\ eval init e = Some v
  | _, _ => False
  end.
Record frame_sim (init : array -> Z -> option Z) (f : StackFrame) (g : frame) : Prop := {
  fs_caller : m_caller g = caller f;
  fs_kf : m_kf g = kf f;
  fs_locals : Forall2 (cell_sim init) (locals f) (m_locals g)
}.
(** The state of the program on a solution of the path. *)
Record sim (init : array -> Z -> option Z) (s : est) (c : state) : Prop := {
  sm_solution : solution (constraints s) init;
  sm_pc : m_pc c = pc s;
  sm_stack : Forall2 (frame_sim init) (stack s) (m_stack c);
  sm_incoming : m_incoming c = incomingBBIndex s
}.
(** Constants are well typed. *)
Definition constants_ok : Prop := Forall (fun e => exists w v, e = Constant w v /\ width_ok e = true) (constantTable km).

(** ** Values *)
(** An expression of the path and a value of the program: where one run has a value, the
    expression is made, and has the value in every run. *)
Definition denotes (s : est) (r : result expr) (m : state -> option value) : Prop :=
  forall init0 c0 w v0, sim init0 s c0 -> m c0 = Some (w, v0) ->
    exists e, r = Ret e /\ asked w e /\ forall init c, sim init s c -> exists v, m c = Some (w, v) /\ eval init e = Some v.
Lemma denotes_const s w v : width_ok (Constant w v) = true -> denotes s (Ret (Constant w v)) (fun _ => Some (w, v)).
Proof. intros Hc init0 c0 w' v' _ [= <- <-]. exists (Constant w v). split; [done|]. split; [done|]. intros init c _. by exists v. Qed.
Lemma denotes_eval s ki i : constants_ok -> denotes s (eval_cell km ki i s) (m_eval km ki i).
Proof.
  intros Hc init0 c0 w v0 Hs. unfold m_eval, eval_cell. destruct (if i <? 0 then None else operands ki !! Z.to_nat i) as [n|]; [|done]. simpl.
  destruct (n =? -1); [done|]. destruct (n <? 0) eqn:En.
  - destruct (constantTable km !! Z.to_nat (- n - 2)) as [e|] eqn:E; [|done]. simpl. intros He.
    unfold constants_ok in Hc. rewrite list.Forall_lookup in Hc. destruct (Hc _ e E) as (w' & v' & -> & Hok). injection He as -> ->.
    exists (Constant w v0). split; [done|]. split; [done|]. intros init c _. by exists v0.
  - destruct Hs as [_ _ Hstk _]. destruct (stack s) as [|sf rest] eqn:Es; inversion Hstk as [|? g ? rest' [_ _ Hl] Hrest Ex Ey]; [done|].
    subst. destruct (m_locals g !! Z.to_nat n) as [[y|]|] eqn:Ey'; [|done|done]. intros [= ->].
    destruct (Forall2_lookup_r _ _ _ _ _ Hl Ey') as (x & Ex & Hx). rewrite Ex. destruct x as [e|]; [|done]. destruct Hx as [Ha He].
    exists e. split; [done|]. split; [done|]. intros init c [_ _ Hstk' _]. rewrite Es in Hstk'.
    inversion Hstk' as [|? g' ? rest'' [_ _ Hl'] Hrest' Ex2 Ey2]; subst. destruct (Forall2_lookup_l _ _ _ _ _ Hl' Ex) as (y' & Ey'' & Hy').
    rewrite Ey''. destruct y' as [[w' v']|]; [|done]. destruct Hy' as [Ha' He']. exists v'. split; [|done].
    simpl. by rewrite <- (as_width _ _ Ha), (as_width _ _ Ha').
Qed.

(** What a constructor returns for well-typed kids without divisions. *)
Lemma constructed plain r w : (forall init, init_ok init -> implements init plain r) -> getWidth plain = w ->
  (forall e, r = Ret e -> divisions e = O) ->
  exists e, r = Ret e /\ asked w e /\ forall init v, init_ok init -> eval init plain = Some v -> eval init e = Some v.
Proof.
  intros Hi Hw Hd. destruct (implements_all false plain r) as (e & -> & H1 & H2 & H3); [intros init [H _]; by apply Hi|].
  exists e. split; [done|]. split; [split; [done|congruence|by apply Hd]|]. intros init v Hin. apply H3. by split.
Qed.
Lemma bv_total k w a b : is_div k = false -> exists v, bv_binary k w a b = Some v.
Proof. destruct k; intros H; try done; by eexists. Qed.
Lemma denotes_binary s k r1 r2 m1 m2 : is_div k = false -> denotes s r1 m1 -> denotes s r2 m2 ->
  denotes s (l ← r1; r ← r2; create_binary false k l r) (fun c => m_binary k (m1 c) (m2 c)).
Proof.
  intros Hk H1 H2 init0 c0 w v0 Hs. unfold m_binary.
  destruct (m1 c0) as [[w1 a]|] eqn:E1; [|done]. destruct (m2 c0) as [[w2 b]|] eqn:E2; [|done]. simpl.
  destruct (Z.eqb_spec w1 w2) as [->|]; [|done]. destruct (bv_total k w2 a b Hk) as [v Hv]. rewrite Hv. simpl. intros [= <- <-].
  destruct (H1 _ _ _ _ Hs E1) as (e1 & -> & A1 & V1). destruct (H2 _ _ _ _ Hs E2) as (e2 & -> & A2 & V2). simpl.
  destruct (binary_created k w2 e1 e2 A1 A2 Hk) as (e & -> & Ae & Ve). exists e. split; [done|].
  assert (Hw : getWidth (Binary k e1 e2) = if is_cmp k then 1 else w2) by (simpl; destruct (is_cmp k); [done|apply A1]).
  rewrite Hw in Ae. split; [done|]. intros init c Hc. destruct (V1 init c Hc) as (a' & -> & Ea). destruct (V2 init c Hc) as (b' & -> & Eb).
  simpl. rewrite Z.eqb_refl. destruct (bv_total k w2 a' b' Hk) as [v' Hv']. rewrite Hv'. simpl. exists v'. split; [done|].
  apply Ve; [by eapply sol_init, sm_solution|]. simpl. rewrite Ea, Eb. simpl. by rewrite (as_width _ _ A1).
Qed.
Lemma denotes_select s r1 r2 r3 m1 m2 m3 : denotes s r1 m1 -> denotes s r2 m2 -> denotes s r3 m3 ->
  denotes s (c ← r1; t ← r2; f ← r3; create_Select false c t f) (fun c => m_select (m1 c) (m2 c) (m3 c)).
Proof.
  intros H1 H2 H3 init0 c0 w v0 Hs. unfold m_select.
  destruct (m1 c0) as [[w1 a]|] eqn:E1; [|done]. destruct (m2 c0) as [[w2 b]|] eqn:E2; [|done]. destruct (m3 c0) as [[w3 d]|] eqn:E3; [|done]. simpl.
  destruct (Z.eqb_spec w1 1) as [->|]; [|done]. destruct (Z.eqb_spec w2 w3) as [->|]; [|done]. simpl. intros [= <- <-].
  destruct (H1 _ _ _ _ Hs E1) as (e1 & -> & A1 & V1). destruct (H2 _ _ _ _ Hs E2) as (e2 & -> & A2 & V2).
  destruct (H3 _ _ _ _ Hs E3) as (e3 & -> & A3 & V3). simpl. pose proof A1 as [O1 W1 D1]. pose proof A2 as [O2 W2 D2]. pose proof A3 as [O3 W3 D3].
  destruct (constructed (Select e1 e2 e3) (create_Select false e1 e2 e3) w3) as (e & -> & Ae & Ve); [|done| |].
  - intros init Hi. apply create_Select_impl; try done; congruence.
  - intros e He. pose proof (create_Select_light 0 1 0 ltac:(lia) e1 e2 e3 e He) as Hl. change (weight 0 1 0) with divisions in Hl. lia.
  - exists e. split; [done|]. split; [done|]. intros init c Hc. destruct (V1 init c Hc) as (a' & -> & Ea). destruct (V2 init c Hc) as (b' & -> & Eb).
    destruct (V3 init c Hc) as (d' & -> & Ed). simpl. rewrite Z.eqb_refl. simpl. eexists. split; [done|].
    apply Ve; [by eapply sol_init, sm_solution|]. simpl. by rewrite Ea, Eb, Ed.
Qed.
Lemma cast_value init e w a (signed : bool) : init_ok init -> width_ok e = true -> 0 < w -> eval init e = Some a ->
  eval init (cast_plain signed e w) = Some ((if signed then sext (getWidth e) a else a) `mod` 2 ^ w).
Proof.
  intros Hi He Hw Ha. pose proof (eval_fits init Hi e a He Ha) as Hf. unfold cast_plain. destruct (Z.ltb_spec w (getWidth e)) as [Hlt|Hge].
  - simpl. rewrite Ha. simpl. rewrite Z.pow_0_r, Z.div_1_r. f_equal. destruct signed; [|done].
    rewrite <- (mod_pow_mod (sext (getWidth e) a) w (getWidth e)) by lia. f_equal. symmetry. apply sext_mod_fits; [lia|by apply fits_iff].
  - destruct signed; simpl; rewrite Ha; simpl; [done|]. f_equal. rewrite Z.mod_small; [done|].
    pose proof (Z.pow_le_mono_r 2 (getWidth e) w). lia.
Qed.
Lemma denotes_cast s (signed : bool) r m w : denotes s r m ->
  denotes s (e ← r; if signed then create_SExt e w else create_ZExt e w) (fun c => m_cast signed (m c) w).
Proof.
  intros H init0 c0 w' v0 Hs. unfold m_cast. destruct (m c0) as [[w1 a]|] eqn:E1; [|done]. simpl. destruct (Z.ltb_spec 0 w) as [Hw|]; [|done].
  intros [= <- <-]. destruct (H _ _ _ _ Hs E1) as (e1 & -> & A1 & V1). simpl. pose proof A1 as [O1 W1 D1].
  destruct (constructed (cast_plain signed e1 w) (if signed then create_SExt e1 w else create_ZExt e1 w) w) as (e & -> & Ae & Ve).
  - intros init Hi. destruct signed; [by apply create_SExt_impl|by apply create_ZExt_impl].
  - unfold cast_plain. destruct (w <? getWidth e1); [done|]. by destruct signed.
  - intros e He. assert (Hl : (divisions e <= divisions e1)%nat); [|lia].
    destruct signed; [apply (create_ext_light 0 1 0 ltac:(lia) const_sext SExt e1 w)|apply (create_ext_light 0 1 0 ltac:(lia) const_zext ZExt e1 w)]; done.
  - exists e. split; [done|]. split; [done|]. intros init c Hc. destruct (V1 init c Hc) as (a' & -> & Ea). simpl. eexists. split; [done|].
    assert (Hi : init_ok init) by (by eapply sol_init, sm_solution). apply Ve; [done|]. rewrite (cast_value init e1 w a') by done. by rewrite W1.
Qed.
Lemma denotes_trunc s r m w : denotes s r m -> denotes s (e ← r; create_Extract e 0 w) (fun c => m_trunc (m c) w).
Proof.
  intros H init0 c0 w' v0 Hs. unfold m_trunc. destruct (m c0) as [[w1 a]|] eqn:E1; [|done]. simpl. destruct (Z.leb_spec w w1) as [Hle|]; [|done].
  unfold m_cast. simpl. destruct (Z.ltb_spec 0 w) as [Hw|]; [|done].
  intros [= <- <-]. destruct (H _ _ _ _ Hs E1) as (e1 & -> & A1 & V1). simpl. pose proof A1 as [O1 W1 D1].
  destruct (constructed (Extract e1 0 w) (create_Extract e1 0 w) w) as (e & -> & Ae & Ve); [|done| |].
  - intros init Hi. apply extract_low; [done|lia|done].
  - intros e He. pose proof (ExtractExpr_create_light 0 1 0 ltac:(lia) _ e1 0 w e He) as Hl. change (weight 0 1 0) with divisions in Hl. lia.
  - exists e. split; [done|]. split; [done|]. intros init c Hc. destruct (V1 init c Hc) as (a' & -> & Ea). simpl.
    rewrite (proj2 (Z.leb_le w w1)) by done. simpl. eexists. split; [done|].
    apply Ve; [by eapply sol_init, sm_solution|]. simpl. rewrite Ea. simpl. by rewrite Z.pow_0_r, Z.div_1_r.
Qed.
Lemma denotes_pointer s v : denotes s (createPointer PW v) (fun _ => m_pointer PW v).
Proof.
  intros init0 c0 w v0 Hs. unfold m_pointer, createPointer, create_Constant. destruct (Z.ltb_spec 0 PW); [|done]. simpl.
  destruct (Z.eqb_spec v (v `mod` 2 ^ PW)) as [Hv|]; [|done]. intros [= <- <-]. exists (Constant PW v). split; [done|]. split.
  - split; [|done|done]. cbn [width_ok]. apply andb_true_iff. split; [by apply Z.ltb_lt|]. rewrite Hv. apply fits_mod. lia.
  - intros init c _. by exists v.
Qed.
(** The constructors of the executor in the order in which it calls them. *)
Lemma denotes_bind s r m r' m' : denotes s r m -> (forall e, r = Ret e -> denotes s (r' e) m') -> (forall c, is_Some (m' c) -> is_Some (m c)) ->
  denotes s (e ← r; r' e) m'.
Proof.
  intros H H' Hm init0 c0 w v0 Hs Hv. destruct (Hm c0 ltac:(by eexists)) as [[w1 a] E1]. destruct (H _ _ _ _ Hs E1) as (e1 & -> & _).
  simpl. by apply (H' e1 eq_refl init0 c0 w v0).
Qed.
Lemma denotes_done s e m : (exists r, denotes s r m /\ r = Ret e) -> denotes s (Ret e) m.
Proof. by intros (r & H & ->). Qed.
Lemma m_binary_some k x y : is_Some (m_binary k x y) -> is_Some x /\ is_Some y.
Proof. unfold m_binary. destruct x, y; simpl; intros [r Hr]; [split; by eexists|done..]. Qed.
Lemma m_indices_some ki l : forall x c, is_Some (m_indices km PW ki c x l) -> is_Some x.
Proof. induction l as [|[i size] l IH]; intros x c; [done|]. cbn [m_indices]. by intros [? _]%IH%m_binary_some. Qed.
Lemma denotes_scaled s ki i size base m : constants_ok -> denotes s (Ret base) m ->
  denotes s (index ← eval_cell km ki i s; index ← create_SExt index PW; size ← createPointer PW size; scaled ← create_Mul index size;
             create_Add false base scaled) (fun c => m_binary Add (m c) (m_binary Mul (m_cast true (m_eval km ki i c) PW) (m_pointer PW size))).
Proof.
  intros Hc Hb.
  pose proof (denotes_cast s true _ _ PW (denotes_eval s ki i Hc)) as H1.
  pose proof (denotes_binary s Mul _ _ _ _ eq_refl H1 (denotes_pointer s size)) as H2.
  pose proof (denotes_binary s Add _ _ _ _ eq_refl Hb H2) as H3. intros init0 c0 w v0 Hs Hv.
  destruct (H3 init0 c0 w v0 Hs Hv) as (e & E & R). exists e. split; [|done]. revert E. clear. simpl.
  destruct (eval_cell km ki i s) as [e1|]; simpl; [|done]. destruct (create_SExt e1 PW) as [e2|]; simpl; [|done].
  destruct (createPointer PW size) as [e3|]; simpl; done.
Qed.
Lemma denotes_indices s ki indices : constants_ok -> forall base m, denotes s (Ret base) m ->
  denotes s (add_indices false km PW ki s base indices) (fun c => m_indices km PW ki c (m c) indices).
Proof.
  intros Hc. induction indices as [|[i size] l IH]; intros base m Hb; [done|]. cbn [add_indices m_indices].
  pose proof (denotes_scaled s ki i size base m Hc Hb) as H1.
  intros init0 c0 w v0 Hs Hv. destruct (m_indices_some _ _ _ _ ltac:(by eexists)) as [[w1 a] E1].
  destruct (H1 init0 c0 w1 a Hs E1) as (e1 & Ee & _).
  assert (H2 : denotes s (Ret e1) _) by (apply denotes_done; eexists; split; [exact H1|exact Ee]). revert Ee.
  destruct (eval_cell km ki i s) as [e2|] eqn:X1; simpl; [|done]. destruct (create_SExt e2 PW) as [e3|] eqn:X2; simpl; [|done].
  destruct (createPointer PW size) as [e4|] eqn:X3; simpl; [|done]. destruct (create_Mul e3 e4) as [e5|] eqn:X4; simpl; [|done]. intros X5. rewrite X5. simpl.
  by apply (IH e1 _ H2 init0 c0 w v0).
Qed.
Lemma denotes_pointers s ki indices offset : constants_ok ->
  denotes s (base ← eval_cell km ki 0 s; base ← add_indices false km PW ki s base indices;
             if nz offset then off ← createPointer PW offset; create_Add false base off else Ret base)
    (fun c => let base := m_indices km PW ki c (m_eval km ki 0 c) indices in
              if nz offset then m_binary Add base (m_pointer PW offset) else base).
Proof.
  intros Hc. assert (Hb : denotes s (base ← eval_cell km ki 0 s; add_indices false km PW ki s base indices)
    (fun c => m_indices km PW ki c (m_eval km ki 0 c) indices)).
  { apply (denotes_bind _ _ (m_eval km ki 0)); [by apply denotes_eval| |intros c; apply m_indices_some].
    intros e E. apply (denotes_indices s ki indices Hc e (m_eval km ki 0)), denotes_done. eexists. split; [by apply denotes_eval|exact E]. }
  destruct (nz offset).
  - pose proof (denotes_binary s Add _ _ _ _ eq_refl Hb (denotes_pointer s offset)) as H. intros init0 c0 w v0 Hs Hv.
    destruct (H init0 c0 w v0 Hs Hv) as (e & E & R). exists e. split; [|done]. revert E. clear.
    destruct (eval_cell km ki 0 s) as [e1|]; simpl; [|done]. destruct (add_indices false km PW ki s e1 indices) as [e2|]; simpl; [|done].
    destruct (createPointer PW offset) as [e3|]; simpl; done.
  - intros init0 c0 w v0 Hs Hv. destruct (Hb init0 c0 w v0 Hs Hv) as (e & E & R). exists e. split; [|done]. revert E. clear.
    destruct (eval_cell km ki 0 s) as [e1|]; simpl; [|done]. destruct (add_indices false km PW ki s e1 indices) as [e2|]; simpl; done.
Qed.
(** The instructions without divisions. *)
Definition no_division (ki : KInstruction) : Prop := match inst ki with Instruction.BinaryOp op => is_div (binary_kind op) = false | _ => True end.
Lemma denotes_value s ki : constants_ok -> no_division ki -> denotes s (value_of false km PW ki s) (m_value km PW ki).
Proof.
  intros Hc Hd. pose proof (fun i => denotes_eval s ki i Hc) as He. unfold value_of, m_value. unfold no_division in Hd.
  destruct (inst ki); try (by intros ? ? ? ? ? ?); try apply He.
  - intros init0 c0 w v0 Hs. rewrite (sm_incoming _ _ _ Hs). intros Hv. destruct (He (incomingBBIndex s) init0 c0 w v0 Hs Hv) as (e & E & A & V).
    exists e. split; [done|]. split; [done|]. intros init c Hsim. rewrite (sm_incoming _ _ _ Hsim). by apply V.
  - apply denotes_select; apply He.
  - apply denotes_binary; [done|apply He|apply He].
  - apply denotes_binary; [by destruct p|apply He|apply He].
  - by apply denotes_pointers.
  - apply denotes_trunc, He.
  - apply (denotes_cast s false), He.
  - apply (denotes_cast s true), He.
  - apply (denotes_cast s false), He.
  - apply (denotes_cast s false), He.
Qed.

(** ** States of the program *)
Record same_data (s s' : est) : Prop := {
  sd_constraints : constraints s' = constraints s;
  sd_node : ptreeNode s' = ptreeNode s;
  sd_forks : forkDisabled s' = forkDisabled s;
  sd_prev : prevPC s' = prevPC s
}.
Lemma same_data_trans s1 s2 s3 : same_data s1 s2 -> same_data s2 s3 -> same_data s1 s3.
Proof. intros [] []. split; congruence. Qed.
(** A change of the path does to every run what the program does. *)
Definition moves (m : state -> option state) (s s' : est) : Prop :=
  same_data s s' /\ forall init c, sim init s c -> exists c', m c = Some c' /\ sim init s' c'.
Definition tracks (s : est) (f : est -> result est) (m : state -> option state) : Prop :=
  (exists init c c', sim init s c /\ m c = Some c') -> exists s', f s = Ret s' /\ moves m s s'.
Definition val_sim (init : array -> Z -> option Z) (e : expr) (x : value) : Prop := asked x.1 e /\ eval init e = Some x.2.

Lemma set_cell_ok s r e : (exists init c c' x, sim init s c /\ val_sim init e x /\ m_set r x c = Some c') ->
  exists s', set_cell r e s = Ret s' /\ same_data s s' /\
    forall init c x, sim init s c -> val_sim init e x -> exists c', m_set r x c = Some c' /\ sim init s' c'.
Proof.
  intros (init0 & c0 & c0' & x0 & Hs & _ & Hm). unfold set_cell, m_set in *. pose proof (sm_stack _ _ _ Hs) as Hst.
  destruct (m_stack c0) as [|g rest']; [done|]. destruct (stack s) as [|sf rest] eqn:Es; [by inversion Hst|].
  apply Forall2_cons_1 in Hst as [Hfr Hrest].
  rewrite <- (Forall2_length (fs_locals _ _ _ Hfr)) in Hm. destruct ((0 <=? r) && _) eqn:Er; [|done]. eexists. split; [done|]. split; [done|].
  intros init c [w v] [S1 S2 S3 S4] [Ha He]. rewrite Es in S3.
  destruct (m_stack c) as [|g' rest''] eqn:Eg; [by inversion S3|]. apply Forall2_cons_1 in S3 as [[F1 F2 F3] Hrest'].
  rewrite <- (Forall2_length F3), Er. eexists. split; [done|]. split; [done|done| |done].
  constructor; [|done]. split; [done|done|]. cbn [locals m_locals]. by apply Forall2_insert.
Qed.
Lemma transfer_ok s dst src : tracks s (transfer km dst src) (m_transfer km dst src).
Proof.
  intros (init0 & c0 & c0' & Hs & Hm). unfold transfer, m_transfer in *. pose proof (sm_stack _ _ _ Hs) as Hst.
  destruct (m_stack c0) as [|g rest']; [done|]. destruct (stack s) as [|sf rest] eqn:Es; [by inversion Hst|].
  apply Forall2_cons_1 in Hst as [Hfr Hrest].
  rewrite (fs_kf _ _ _ Hfr) in Hm. destruct (functionMap km !! kf sf) as [f|] eqn:Ef; [|done]. simpl in *. unfold fetch.
  destruct (code km !! _) as [ki|] eqn:Ek; [|done]. simpl. eexists. split; [done|]. split; [by destruct (inst ki)|].
  intros init c [S1 S2 S3 S4]. pose proof S3 as S3'. rewrite Es in S3.
  destruct (m_stack c) as [|g' rest''] eqn:Eg; [by inversion S3|]. apply Forall2_cons_1 in S3 as [[F1 F2 F3] Hrest'].
  rewrite F2, Ef. simpl. rewrite Ek. simpl. eexists. split; [done|]. destruct (inst ki); split; try done; cbn; by rewrite Es.
Qed.
Lemma push_ok s caller f k : exists s', pushFrame (Some caller) f k s = Ret s' /\ same_data s s' /\
  forall init c, sim init s c -> sim init s' (m_push caller f k c).
Proof.
  eexists. split; [done|]. split; [done|]. intros init c [S1 S2 S3 S4]. split; [done|done| |done]. constructor; [|done]. split; [done|done|].
  cbn [locals m_locals]. by apply Forall2_replicate.
Qed.
(** ** Lists of values *)
Definition denotes_all (s : est) (r : result (list expr)) (m : state -> option (list value)) : Prop :=
  (exists init c vs, sim init s c /\ m c = Some vs) ->
  exists es, r = Ret es /\ forall init c, sim init s c -> exists vs, m c = Some vs /\ Forall2 (val_sim init) es vs.
Lemma denotes_sim s r m : denotes s r m -> (exists init c x, sim init s c /\ m c = Some x) ->
  exists e, r = Ret e /\ forall init c, sim init s c -> exists x, m c = Some x /\ val_sim init e x.
Proof.
  intros H (init0 & c0 & [w v0] & Hs & Hm). destruct (H _ _ _ _ Hs Hm) as (e & E & A & V). exists e. split; [done|].
  intros init c Hc. destruct (V init c Hc) as (v & Ev & He). by exists (w, v).
Qed.
Fixpoint values_of (ki : KInstruction) (n : nat) (j : Z) (s : est) : result (list expr) :=
  match n with O => Ret [] | S n => a ← eval_cell km ki (j + 1) s; l ← values_of ki n (j + 1) s; Ret (a :: l) end.
Lemma arguments_ok s ki n : constants_ok -> forall j, denotes_all s (values_of ki n j s) (m_arguments km ki n j).
Proof.
  intros Hc. induction n as [|n IH]; intros j (init0 & c0 & vs0 & Hs & Hm); cbn [values_of m_arguments] in *.
  { exists []. split; [done|]. intros init c _. by exists []. }
  destruct (m_eval km ki (j + 1) c0) as [x0|] eqn:E1; [|done]. simpl in Hm. destruct (m_arguments km ki n (j + 1) c0) as [l0|] eqn:E2; [|done].
  destruct (denotes_sim s _ _ (denotes_eval s ki (j + 1) Hc)) as (e & -> & He); [by exists init0, c0, x0|].
  destruct (IH (j + 1)) as (es & -> & Hes); [by exists init0, c0, l0|]. simpl. exists (e :: es). split; [done|].
  intros init c Hsim. destruct (He init c Hsim) as (x & -> & Hx). destruct (Hes init c Hsim) as (l & -> & Hl). simpl. exists (x :: l).
  split; [done|by constructor].
Qed.
Fixpoint binds (n index : nat) (arguments : list expr) (s : est) : result est :=
  match n, arguments with
  | S n, a :: arguments => s ← set_cell (Z.of_nat index) a s; binds n (S index) arguments s
  | _, _ => Ret s
  end.
Lemma binds_ok n : forall index es s, (exists init c c' vs, sim init s c /\ Forall2 (val_sim init) es vs /\ m_bind n index vs c = Some c') ->
  exists s', binds n index es s = Ret s' /\ same_data s s' /\
    forall init c vs, sim init s c -> Forall2 (val_sim init) es vs -> exists c', m_bind n index vs c = Some c' /\ sim init s' c'.
Proof.
  induction n as [|n IH]; intros index es s (init0 & c0 & c0' & vs0 & Hs & Hv & Hm); cbn [binds m_bind] in *.
  { exists s. split; [done|]. split; [done|]. intros init c vs Hc _. by exists c. }
  inversion Hv as [|e x0 es' vs0' Hx Hv' Ee Ev]; subst.
  { exists s. split; [done|]. split; [done|]. intros init c vs Hc H. inversion H; subst. by exists c. }
  destruct (m_set (Z.of_nat index) x0 c0) as [c1|] eqn:E1; [|done]. simpl in Hm.
  destruct (set_cell_ok s (Z.of_nat index) e) as (s1 & -> & D1 & H1); [by exists init0, c0, c1, x0|]. simpl.
  destruct (H1 init0 c0 x0 Hs Hx) as (c1' & E1' & Hs1). rewrite E1 in E1'. injection E1' as <-.
  destruct (IH (S index) es' s1) as (s' & -> & D2 & H2); [by exists init0, c1, c0', vs0'|]. exists s'. split; [done|].
  split; [by eapply same_data_trans|]. intros init c vs Hc H. inversion H as [|? x ? vs' Hx2 Hvs2]; subst.
  destruct (H1 init c x Hc Hx2) as (c2 & -> & Hs2). simpl. by apply H2.
Qed.
(** ** Values of another width *)
Lemma coerce_ok s (signed : bool) e x0 w : (exists init c, sim init s c /\ val_sim init e x0) -> is_Some (m_coerce signed x0 w) ->
  exists e', coerce signed e w = Ret e' /\ forall init c x, sim init s c -> val_sim init e x ->
    exists x', m_coerce signed x w = Some x' /\ val_sim init e' x'.
Proof.
  intros (init0 & c0 & Hs & [A0 V0]) Hm. unfold coerce, m_coerce in *. rewrite (as_width _ _ A0). destruct (Z.eqb_spec x0.1 w) as [Hw|Hw].
  - exists e. split; [done|]. intros init c x Hc Hx. assert (x.1 = w) as <-. { destruct Hx as [Ax _]. rewrite <- Hw, <- (as_width _ _ A0), <- (as_width _ _ Ax). done. }
    rewrite Z.eqb_refl. by exists x.
  - destruct (constructed (cast_plain signed e w) (if signed then create_SExt e w else create_ZExt e w) w) as (e' & E & Ae & Ve).
    + intros init Hi. destruct Hm as [y Hm]. unfold m_cast in Hm. simpl in Hm. destruct (Z.ltb_spec 0 w); [|done]. destruct A0 as [O1 _ _].
      destruct signed; [by apply create_SExt_impl|by apply create_ZExt_impl].
    + unfold cast_plain. destruct (w <? getWidth e); [done|]. by destruct signed.
    + intros e' He. assert (Hl : (divisions e' <= divisions e)%nat); [|destruct A0; lia].
      destruct signed; [apply (create_ext_light 0 1 0 ltac:(lia) const_sext SExt e w)|apply (create_ext_light 0 1 0 ltac:(lia) const_zext ZExt e w)]; done.
    + exists e'. split; [by destruct signed|]. intros init c x Hc [Ax Vx]. assert (Hxw : x.1 = x0.1) by (by rewrite <- (as_width _ _ A0), <- (as_width _ _ Ax)).
      rewrite Hxw, (proj2 (Z.eqb_neq _ _) Hw). destruct Hm as [y Hm]. unfold m_cast in *. simpl in *. destruct (Z.ltb_spec 0 w); [|done].
      eexists. split; [done|]. split; [done|]. assert (Hi : init_ok init) by (by eapply sol_init, sm_solution).
      apply Ve; [done|]. destruct Ax as [O1 W1 D1]. rewrite (cast_value init e w x.2) by done. by rewrite W1.
Qed.
Lemma coerce_arguments_ok s es : forall params signed,
  (exists init c vs vs', sim init s c /\ Forall2 (val_sim init) es vs /\ m_coerce_arguments params signed vs = Some vs') ->
  exists es', coerce_arguments params signed es = Ret es' /\ forall init c vs, sim init s c -> Forall2 (val_sim init) es vs ->
    exists vs', m_coerce_arguments params signed vs = Some vs' /\ Forall2 (val_sim init) es' vs'.
Proof.
  induction es as [|e es IH]; intros params signed (init0 & c0 & vs0 & vs0' & Hs & Hv & Hm).
  { exists []. split; [by destruct params|]. intros init c vs Hc H. inversion H; subst. exists []. split; [by destruct params|done]. }
  destruct vs0 as [|x0 vs0]; [by inversion Hv|]. apply Forall2_cons_1 in Hv as [Hx Hv]. destruct params as [|w params].
  { exists (e :: es). split; [done|]. intros init c vs Hc H. exists vs. split; [by destruct vs|done]. }
  cbn [m_coerce_arguments coerce_arguments] in *. destruct (m_coerce (default false (head signed)) x0 w) as [y0|] eqn:E1; [|done]. simpl in Hm.
  destruct (m_coerce_arguments params (tail signed) vs0) as [l0|] eqn:E2; [|done].
  destruct (coerce_ok s (default false (head signed)) e x0 w) as (e' & -> & He); [by exists init0, c0|by rewrite E1; eexists|]. simpl.
  destruct (IH params (tail signed)) as (es' & -> & Hes); [by exists init0, c0, vs0, l0|]. simpl. exists (e' :: es'). split; [done|].
  intros init c vs Hc H. destruct vs as [|x vs]; [by inversion H|]. apply Forall2_cons_1 in H as [Hx2 Hvs].
  cbn [m_coerce_arguments]. destruct (He init c x Hc Hx2) as (y & -> & Hy). destruct (Hes init c vs Hc Hvs) as (l & -> & Hl). simpl.
  exists (y :: l). split; [done|by constructor].
Qed.

(** ** Steps of the executor *)
Section Steps.
Context {host : ExprOrder.Host} {hok : ExprOrder.HostOk} (RewriteEqualities simplifyExprs : bool) (o : options) (rng : Z -> Z).
Context {St : Type} (solver : SolverImpl St) (inv : St -> Prop) {values : GivesValues solver inv} {decides : Decides solver inv}.
Abbreviation executor := (executor St).

(** Every run that is at a remaining child takes this step, and every run of the path is at
    one of the children where its step goes on. *)
Record follows (m : state -> option outcome) (p : Z) (s : est) (x x' : executor) : Prop := {
  fo_sound q s' init : live x' !! q = Some s' -> q = p \/ live x !! q = None -> q ∉ removedStates x' -> solution (constraints s') init ->
    solution (constraints s) init /\ forall c, sim init s c -> exists c', m c = Some (Next c') /\ sim init s' c';
  fo_complete init c : sim init s c ->
    match m c with
    | Some (Next c') => exists q s', live x' !! q = Some s' /\ (q = p \/ live x !! q = None) /\ (q ∉ removedStates x') /\ sim init s' c'
    | Some _ => True
    | None => False
    end;
  fo_other q : q <> p -> is_Some (live x !! q) -> live x' !! q = live x !! q /\ (q ∈ removedStates x' <-> q ∈ removedStates x)
}.
Lemma follows_ext m m' p s (x x' : executor) : (forall init c, sim init s c -> m c = m' c) -> follows m' p s x x' -> follows m p s x x'.
Proof.
  intros Hm [F1 F2 F3]. split; [|intros init c Hc; rewrite (Hm init c Hc); by apply F2|done].
  intros q s' init Hq Hor Hg Hsol. destruct (F1 q s' init Hq Hor Hg Hsol) as [H1 H2]. split; [done|]. intros c Hc. rewrite (Hm init c Hc). by apply H2.
Qed.
(** The solver's state is of no account. *)
Lemma follows_solver m p s st (x x' : executor) : follows m p s (with_solver st x) x' -> follows m p s x x'.
Proof. intros [F1 F2 F3]. by split. Qed.
Lemma change_run p f s s' (x : executor) : live x !! p = Some s -> f s = Ret s' -> change p f x = Ret (tt, set_state p s' x).
Proof. intros Hp Hf. unfold change. rewrite (mbind_run _ _ _ _ _ (state_at_run p s x Hp)). unfold lift. rewrite Hf. done. Qed.
Lemma set_state_set p s s' (x : executor) : set_state p s' (set_state p s x) = set_state p s' x.
Proof. unfold set_state. cbn. by rewrite insert_insert_eq. Qed.
Lemma eval_at_run p ki i s (x : executor) : live x !! p = Some s -> eval_at km p ki i x = lift (eval_cell km ki i s) x.
Proof. intros Hp. unfold eval_at. by rewrite (mbind_run _ _ _ _ _ (state_at_run p s x Hp)). Qed.

(** A change that keeps the constraints. *)
Lemma moved_ok p s s' (x : executor) : exec_ok inv x -> live x !! p = Some s -> same_data s s' -> exec_ok inv (set_state p s' x).
Proof.
  intros Hx Hp [H1 H2 H3 H4]. apply (set_state_ok inv p s); [done|done|done|]. apply (state_ok_same s); [done|by apply (ex_paths _ _ Hx p)].
Qed.
Lemma moved_follows m p s s' (x : executor) : live x !! p = Some s -> p ∉ removedStates x -> same_data s s' ->
  (forall init c, sim init s c -> exists c', m c = Some (Next c') /\ sim init s' c') -> follows m p s x (set_state p s' x).
Proof.
  intros Hp Hr [H1 H2 H3 H4] Hm. split.
  - intros q sq init Hq Hor Hg Hsol. simpl in Hq. rewrite lookup_insert in Hq. case_decide as E; [subst q; injection Hq as <-; rewrite <- H1; split; [done|]; by apply Hm|].
    destruct Hor as [->|Hn]; [done|congruence].
  - intros init c Hc. destruct (Hm init c Hc) as (c' & -> & Hc'). exists p, s'. split; [apply lookup_insert_eq|]. split; [by left|done].
  - intros q Hne _. split; [simpl; by rewrite lookup_insert_ne|done].
Qed.
Lemma ended_follows m p s (x x' : executor) : ended p x x' -> (forall init c, sim init s c -> m c = Some Exits \/ m c = Some Fails) ->
  follows m p s x x'.
Proof.
  intros (E1 & E2 & E3 & E4) Hm. split.
  - intros q sq init Hq Hor Hg _. exfalso. destruct (decide (q = p)) as [->|Hne].
    + destruct E4 as [(_ & Hn & _)|(_ & _ & Hrm)]; [congruence|]. apply Hg. rewrite Hrm. apply elem_of_app. right. by apply list_elem_of_singleton.
    + destruct Hor as [->|Hn]; [done|]. rewrite E1 in Hq by done. congruence.
  - intros init c Hc. by destruct (Hm init c Hc) as [-> | ->].
  - intros q Hne _. split; [by apply E1|]. destruct E4 as [(_ & _ & _ & ->)|(_ & _ & ->)]; [done|].
    rewrite elem_of_app, list_elem_of_singleton. tauto.
Qed.
(** A step that goes on from a changed path. *)
Lemma follows_from m m' p s s1 (x x' : executor) : live x !! p = Some s -> constraints s1 = constraints s ->
  (forall init c, sim init s c -> exists c1, sim init s1 c1 /\ m c = m' c1) ->
  follows m' p s1 (set_state p s1 x) x' -> follows m p s x x'.
Proof.
  intros Hp Hcs Hm [F1 F2 F3].
  assert (Hlive : forall q, (q = p \/ live (set_state p s1 x) !! q = None) <-> (q = p \/ live x !! q = None)).
  { intros q. simpl. rewrite lookup_insert. case_decide as E; [subst; tauto|done]. }
  split.
  - intros q s' init Hq Hor Hg Hsol. destruct (F1 q s' init Hq (proj2 (Hlive q) Hor) Hg Hsol) as [H1 H2]. rewrite <- Hcs. split; [done|].
    intros c Hc. destruct (Hm init c Hc) as (c1 & Hc1 & ->). by apply H2.
  - intros init c Hc. destruct (Hm init c Hc) as (c1 & Hc1 & ->). specialize (F2 init c1 Hc1). destruct (m' c1) as [[c'| |]|]; try done.
    destruct F2 as (q & s' & Q1 & Q2 & Q3). exists q, s'. split; [done|]. split; [by apply Hlive|done].
  - intros q Hne Hs. destruct (F3 q Hne) as [E1 E2]; [simpl; by rewrite lookup_insert_ne|]. split; [|done]. rewrite E1. simpl. by rewrite lookup_insert_ne.
Qed.

(** ** Runs of the inputs of a path *)
Lemma sim_exists init0 init s c0 : sim init0 s c0 -> solution (constraints s) init -> exists c, sim init s c.
Proof.
  intros [_ S2 S3 S4] Hs.
  assert (Hl : forall l m, Forall2 (cell_sim init0) l m -> exists m', Forall2 (cell_sim init) l m').
  { induction 1 as [|x y l m Hxy _ (m' & IH)]; [by exists []|]. destruct x as [e|].
    - destruct y as [[w v]|]; [|done]. destruct Hxy as [Ha _]. destruct (sol_defined w e _ init Ha Hs) as [v' Hv'].
      exists (Some (w, v') :: m'). by constructor.
    - exists (None :: m'). by constructor. }
  assert (Hst : exists st, Forall2 (frame_sim init) (stack s) st).
  { clear S2 S4. induction S3 as [|f g fs gs [F1 F2 F3] _ (st & IH)]; [by exists []|]. destruct (Hl _ _ F3) as (m' & Hm').
    exists (MFrame (caller f) (kf f) m' :: st). by constructor. }
  destruct Hst as (st & Hst). exists (MState (pc s) st (incomingBBIndex s)). by split.
Qed.
Lemma sim_child init s s' c : same_control s s' -> sim init s c -> solution (constraints s') init -> sim init s' c.
Proof. intros [K1 K2 K3 K4 K5] [S1 S2 S3 S4] Hs. split; [done|congruence|by rewrite K3|congruence]. Qed.
(** The program is defined on every input of the path. *)
Record defined (m : state -> option outcome) (s : est) : Prop := {
  de_some : exists init c, sim init s c;
  de_all init c : sim init s c -> is_Some (m c)
}.

(** ** The instructions *)
Definition stands (m : state -> option outcome) (p : Z) (s : est) (x : executor) (run : M executor unit) : Prop :=
  exists x', run x = Ret (tt, x') /\ exec_ok inv x' /\ follows m p s x x'.
Lemma value_stands p s ki (x : executor) : constants_ok -> no_division ki -> exec_ok inv x -> live x !! p = Some s -> p ∉ removedStates x ->
  defined (fun c => v ← m_value km PW ki c; Next <$> m_set (dest ki) v c) s ->
  stands (fun c => v ← m_value km PW ki c; Next <$> m_set (dest ki) v c) p s x
    (s ← state_at p; v ← lift (value_of false km PW ki s); bindLocal p ki v).
Proof.
  intros Hc Hd Hx Hp Hr [(init0 & c0 & Hs) Hdef]. destruct (Hdef init0 c0 Hs) as [out Hout].
  destruct (m_value km PW ki c0) as [v0|] eqn:Ev; [|done]. simpl in Hout. destruct (m_set (dest ki) v0 c0) as [c0'|] eqn:Es; [|done].
  destruct (denotes_sim s _ _ (denotes_value s ki Hc Hd)) as (e & Ee & He); [by exists init0, c0, v0|].
  destruct (He init0 c0 Hs) as (v0' & Ev' & Hv0). rewrite Ev in Ev'. injection Ev' as <-.
  destruct (set_cell_ok s (dest ki) e) as (s' & Ec & D & H); [by exists init0, c0, c0', v0|].
  exists (set_state p s' x). split.
  { rewrite (mbind_run _ _ _ _ _ (state_at_run p s x Hp)), Ee. unfold lift, mbind, M_bind. by apply (change_run p _ s). }
  split; [by eapply moved_ok|]. apply moved_follows; [done|done|done|]. intros init c Hsim. destruct (He init c Hsim) as (v & -> & Hv). simpl.
  destruct (H init c v Hsim Hv) as (c' & -> & Hc'). by exists c'.
Qed.
Lemma jump_stands p s dst src (x : executor) : exec_ok inv x -> live x !! p = Some s -> p ∉ removedStates x ->
  defined (fun c => Next <$> m_transfer km dst src c) s ->
  stands (fun c => Next <$> m_transfer km dst src c) p s x (transferToBasicBlock km dst src p).
Proof.
  intros Hx Hp Hr [(init0 & c0 & Hs) Hdef]. destruct (Hdef init0 c0 Hs) as [out Hout]. destruct (m_transfer km dst src c0) as [c0'|] eqn:E; [|done].
  destruct (transfer_ok s dst src) as (s' & Es & D & H); [by exists init0, c0, c0'|].
  exists (set_state p s' x). split; [by apply (change_run p _ s)|]. split; [by eapply moved_ok|]. apply moved_follows; [done|done|done|].
  intros init c Hsim. destruct (H init c Hsim) as (c' & -> & Hc'). by exists c'.
Qed.
Lemma termination_stands p s (m : state -> option outcome) (x : executor) : exec_ok inv x -> live x !! p = Some s -> p ∉ removedStates x ->
  (forall init c, sim init s c -> m c = Some Exits \/ m c = Some Fails) -> stands m p s x (terminateState p).
Proof.
  intros Hx Hp Hr Hm. destruct (terminate_ok rng inv p s x Hx Hp Hr) as (x' & E & Hx' & He). exists x'. split; [done|]. split; [done|]. by apply ended_follows.
Qed.
Lemma removed_set p s q (x : executor) : q ∉ removedStates x -> q ∉ removedStates (set_state p s x).
Proof. done. Qed.
(** The rest of a step, on a changed path. *)
Lemma stands_from m m' p s s1 (x : executor) (run : M executor unit) : exec_ok inv x -> live x !! p = Some s -> same_data s s1 ->
  (forall init c, sim init s c -> exists c1, sim init s1 c1 /\ m c = m' c1) ->
  stands m' p s1 (set_state p s1 x) run -> exists x', run (set_state p s1 x) = Ret (tt, x') /\ exec_ok inv x' /\ follows m p s x x'.
Proof.
  intros Hx Hp D Hm (x' & E & Hx' & Hf). exists x'. split; [done|]. split; [done|]. eapply follows_from; [done|by destruct D|done|done].
Qed.

(** *** Returns *)
Definition pop_machine (kcaller : Z) (rest : list frame) (c : state) : state := MState (kcaller + 1) rest (m_incoming c).
Lemma pop_ok s sf fr frs kcaller : stack s = sf :: fr :: frs ->
  exists s', pop (fr :: frs) kcaller s = Ret s' /\ same_data s s' /\
    forall init c, sim init s c -> exists g r rs, m_stack c = g :: r :: rs /\ m_caller g = caller sf /\ sim init s' (pop_machine kcaller (r :: rs) c).
Proof.
  intros Es. eexists. split; [done|]. split; [done|]. intros init c [S1 S2 S3 S4]. rewrite Es in S3.
  destruct (m_stack c) as [|g [|r rs]]; [by inversion S3|by apply Forall2_cons_1 in S3 as [_ ?%Forall2_length]|].
  apply Forall2_cons_1 in S3 as [Hg Hrest]. exists g, r, rs. split; [done|]. split; [apply Hg|]. by split.
Qed.
Lemma result_value s ki (has_value : bool) : constants_ok ->
  denotes s (if has_value then eval_cell km ki 0 s else Ret (Constant Bool 0)) (fun c => if has_value then m_eval km ki 0 c else Some (1, 0)).
Proof. intros Hc. destruct has_value; [by apply denotes_eval|by apply denotes_const]. Qed.
Lemma first_return p s sf ki has_value (x : executor) : constants_ok -> exec_ok inv x -> live x !! p = Some s -> p ∉ removedStates x ->
  stack s = [sf] -> defined (m_return km ki has_value) s -> stands (m_return km ki has_value) p s x (returns km p ki has_value).
Proof.
  intros Hc Hx Hp Hr Es [(init0 & c0 & Hs) Hdef].
  assert (Hm : forall init c, sim init s c -> is_Some (m_return km ki has_value c) ->
    exists v, (if has_value then m_eval km ki 0 c else Some (1, 0)) = Some v /\ caller sf = None /\ m_return km ki has_value c = Some Exits).
  { intros init c [S1 S2 S3 S4] [out H]. unfold m_return in *. rewrite Es in S3. destruct (m_stack c) as [|g [|r rs]]; [done| |by apply Forall2_cons_1 in S3 as [_ ?%Forall2_length]].
    apply Forall2_cons_1 in S3 as [[F1 _ _] _]. rewrite F1 in *. destruct (if has_value then m_eval km ki 0 c else Some (1, 0)) as [v|]; [|done]. simpl in *.
    destruct (caller sf); [done|]. by exists v. }
  destruct (Hm init0 c0 Hs (Hdef init0 c0 Hs)) as (v0 & Ev & Hca & _).
  destruct (denotes_sim s _ _ (result_value s ki has_value Hc)) as (e & Ee & _); [by exists init0, c0, v0|].
  destruct (termination_stands p s (m_return km ki has_value) x Hx Hp Hr) as (x' & E & Hx' & Hf).
  { intros init c Hsim. left. destruct (Hm init c Hsim (Hdef init c Hsim)) as (_ & _ & _ & H). exact H. }
  exists x'. split; [|done]. unfold returns. rewrite (mbind_run _ _ _ _ _ (state_at_run p s x Hp)), Es.
  assert (Hrun : (if has_value then eval_at km p ki 0 else mret (Constant Bool 0)) x = Ret (e, x)).
  { destruct has_value; [rewrite (eval_at_run p ki 0 s x Hp); unfold lift; by rewrite Ee|by injection Ee as <-]. }
  rewrite (mbind_run _ _ _ _ _ Hrun), Hca. exact E.
Qed.
(** What a return to a caller does to a run. *)
Definition after_pop (has_value : bool) (kcaller : Z) (call : KInstruction) (v : value) (c : state) : option outcome :=
  if has_value then
    if width call =? 0 then Some (Next c)
    else r ← m_coerce (match inst call with Instruction.Call _ _ _ b => b | _ => false end) v (width call); Next <$> m_set (dest call) r c
  else Some (if used call then Fails else Next c).
Lemma return_shape s sf fr frs ki (has_value : bool) init c : stack s = sf :: fr :: frs -> sim init s c -> is_Some (m_return km ki has_value c) ->
  exists v kcaller call r rs, (if has_value then m_eval km ki 0 c else Some (1, 0)) = Some v /\ caller sf = Some kcaller /\
    code km !! kcaller = Some call /\ (exists g, m_stack c = g :: r :: rs) /\
    m_return km ki has_value c = after_pop has_value kcaller call v (pop_machine kcaller (r :: rs) c).
Proof.
  intros Es [S1 S2 S3 S4] [out H]. unfold m_return in *. rewrite Es in S3.
  destruct (m_stack c) as [|g [|r rs]]; [done|by apply Forall2_cons_1 in S3 as [_ ?%Forall2_length]|].
  apply Forall2_cons_1 in S3 as [[F1 _ _] _]. rewrite F1 in *. destruct (if has_value then m_eval km ki 0 c else Some (1, 0)) as [v|]; [|done]. simpl in *.
  destruct (caller sf) as [kc|]; [|done]. simpl in *. destruct (code km !! kc) as [call|] eqn:Ek; [|done]. simpl in *.
  exists v, kc, call, r, rs. split_and!; [done|done|done|by exists g|done].
Qed.
Lemma inner_return p s sf fr frs ki (has_value : bool) (x : executor) : constants_ok -> exec_ok inv x -> live x !! p = Some s -> p ∉ removedStates x ->
  stack s = sf :: fr :: frs -> defined (m_return km ki has_value) s -> stands (m_return km ki has_value) p s x (returns km p ki has_value).
Proof.
  intros Hc Hx Hp Hr Es [(init0 & c0 & Hs) Hdef].
  destruct (return_shape s sf fr frs ki has_value init0 c0 Es Hs (Hdef _ _ Hs)) as (v0 & kc & call & r0 & rs0 & Ev0 & Hca & Hk & (g0 & Eg0) & Em0).
  destruct (denotes_sim s _ _ (result_value s ki has_value Hc)) as (e & Ee & He); [by exists init0, c0, v0|].
  destruct (pop_ok s sf fr frs kc Es) as (s1 & E1 & D1 & H1). set (x1 := set_state p s1 x).
  assert (Hx1 : exec_ok inv x1) by (by eapply moved_ok). assert (Hp1 : live x1 !! p = Some s1) by apply lookup_insert_eq.
  (* every run goes on from the caller's frame *)
  set (m1 := fun v c => after_pop has_value kc call v c).
  assert (Hall : forall init c, sim init s c -> exists v r rs, val_sim init e v /\ sim init s1 (pop_machine kc (r :: rs) c) /\
    m_return km ki has_value c = m1 v (pop_machine kc (r :: rs) c)).
  { intros init c Hsim. destruct (return_shape s sf fr frs ki has_value init c Es Hsim (Hdef _ _ Hsim)) as (v & kc' & call' & r & rs & Ev & Hca' & Hk' & (g & Eg) & Em).
    rewrite Hca in Hca'. injection Hca' as <-. rewrite Hk in Hk'. injection Hk' as <-.
    destruct (He init c Hsim) as (v' & Ev' & Hv'). rewrite Ev in Ev'. injection Ev' as <-.
    destruct (H1 init c Hsim) as (g' & r' & rs' & Eg' & _ & Hsim1). rewrite Eg in Eg'. injection Eg' as <- <- <-. by exists v, r, rs. }
  destruct (Hall init0 c0 Hs) as (v0' & r0' & rs0' & Hv0 & Hs1 & Em0'). clear Em0.
  assert (Hrun : forall B (k : expr -> M executor B), (result ← (if has_value then eval_at km p ki 0 else mret (Constant Bool 0)); k result) x = k e x).
  { intros B k. apply mbind_run. destruct has_value; [rewrite (eval_at_run p ki 0 s x Hp); unfold lift; by rewrite Ee|by injection Ee as <-]. }
  unfold stands, returns. rewrite (mbind_run _ _ _ _ _ (state_at_run p s x Hp)), Es, Hrun, Hca.
  assert (Hfetch : forall B (k : KInstruction -> M executor B), (call ← lift (fetch km kc); k call) x = k call x).
  { intros B k. apply mbind_run. unfold lift, fetch. by rewrite Hk. }
  rewrite Hfetch. rewrite (mbind_run _ _ _ _ _ (change_run p _ s s1 x Hp E1)). fold x1.
  assert (Hd0 : is_Some (m1 v0' (pop_machine kc (r0' :: rs0') c0))) by (rewrite <- Em0'; exact (Hdef init0 c0 Hs)).
  unfold m1, after_pop in Hall, Hd0. destruct has_value; [destruct (Z.eqb_spec (width call) 0) as [Hw|Hw]|destruct (used call)].
  - exists x1. split; [done|]. split; [done|]. apply moved_follows; [done|done|done|]. intros init c Hsim.
    destruct (Hall init c Hsim) as (v & r & rs & _ & Hsim1 & ->). by eexists.
  - set (b := match inst call with Instruction.Call _ _ _ b => b | _ => false end) in *.
    destruct (m_coerce b v0' (width call)) as [y0|] eqn:Ey; [|by destruct Hd0]. simpl in Hd0.
    destruct (coerce_ok s1 b e v0' (width call)) as (e' & Ee' & He'); [by exists init0, (pop_machine kc (r0' :: rs0') c0)|by rewrite Ey; eexists|].
    destruct (He' init0 _ v0' Hs1 Hv0) as (y0' & Ey' & Hy0). rewrite Ey in Ey'. injection Ey' as <-.
    destruct (m_set (dest call) y0 (pop_machine kc (r0' :: rs0') c0)) as [c1|] eqn:Ec1; [|by destruct Hd0].
    destruct (set_cell_ok s1 (dest call) e') as (s2 & E2 & D2 & H2); [by exists init0, (pop_machine kc (r0' :: rs0') c0), c1, y0|].
    exists (set_state p s2 x). split.
    { unfold lift at 1. rewrite Ee'. unfold mbind, M_bind, bindLocal. rewrite (change_run p _ s1 s2 x1 Hp1 E2). unfold x1. by rewrite set_state_set. }
    assert (D : same_data s s2) by (by eapply same_data_trans). split; [by eapply moved_ok|]. apply moved_follows; [done|done|done|].
    intros init c Hsim. destruct (Hall init c Hsim) as (v & r & rs & Hv & Hsim1 & ->). destruct (He' init _ v Hsim1 Hv) as (y & -> & Hy). simpl.
    destruct (H2 init _ y Hsim1 Hy) as (c' & -> & Hc'). by exists c'.
  - destruct (stands_from (m_return km ki false) (fun _ => Some Fails) p s s1 x (terminateState p) Hx Hp D1) as (x' & E & Hx' & Hf).
    + intros init c Hsim. destruct (Hall init c Hsim) as (v & r & rs & _ & Hsim1 & ->). by exists (pop_machine kc (r :: rs) c).
    + apply termination_stands; [done|done|done|]. intros init c _. by right.
    + by exists x'.
  - exists x1. split; [done|]. split; [done|]. apply moved_follows; [done|done|done|]. intros init c Hsim.
    destruct (Hall init c Hsim) as (v & r & rs & _ & Hsim1 & ->). by eexists.
Qed.
Lemma return_stands p s ki has_value (x : executor) : constants_ok -> exec_ok inv x -> live x !! p = Some s -> p ∉ removedStates x ->
  defined (m_return km ki has_value) s -> stands (m_return km ki has_value) p s x (returns km p ki has_value).
Proof.
  intros Hc Hx Hp Hr Hd. destruct (stack s) as [|sf [|fr frs]] eqn:Es.
  - destruct Hd as [(init0 & c0 & Hs) Hdef]. destruct (Hdef init0 c0 Hs) as [out H]. unfold m_return in H.
    destruct Hs as [_ _ S3 _]. rewrite Es in S3. destruct (m_stack c0); [done|by inversion S3].
  - by eapply first_return.
  - by eapply inner_return.
Qed.

(** *** Calls of functions *)
Lemma eval_arguments_run p ki s n : forall j es (x : executor), live x !! p = Some s -> values_of ki n j s = Ret es ->
  eval_arguments km p ki n j x = Ret (es, x).
Proof.
  induction n as [|n IH]; intros j es x Hp; cbn [values_of eval_arguments]; [by intros [= <-]|].
  destruct (eval_cell km ki (j + 1) s) as [a|] eqn:E1; [|done]. simpl. destruct (values_of ki n (j + 1) s) as [l|] eqn:E2; [|done]. simpl. intros [= <-].
  rewrite (mbind_run _ _ x a x) by (rewrite (eval_at_run p ki (j + 1) s x Hp); unfold lift; by rewrite E1).
  by rewrite (mbind_run _ _ x l x (IH (j + 1) l x Hp E2)).
Qed.
Lemma bind_arguments_run p n : forall index es s s' (x : executor), live x !! p = Some s -> binds n index es s = Ret s' ->
  bind_arguments p n index es x = Ret (tt, set_state p s' x).
Proof.
  induction n as [|n IH]; intros index es s s' x Hp; cbn [binds bind_arguments].
  { intros [= <-]. by rewrite set_state_id. }
  destruct es as [|e es]; [intros [= <-]; by rewrite set_state_id|].
  destruct (set_cell (Z.of_nat index) e s) as [s1|] eqn:E1; [|done]. simpl. intros E2.
  unfold bindArgument. rewrite (mbind_run _ _ _ _ _ (change_run p _ s s1 x Hp E1)).
  rewrite (IH (S index) es s1 s' _ (lookup_insert_eq _ _ _) E2). by rewrite set_state_set.
Qed.
(** The arguments of all runs *)
Definition arguments_sim (s : est) (es : list expr) (m : state -> option (list value)) : Prop :=
  forall init c, sim init s c -> exists vs, m c = Some vs /\ Forall2 (val_sim init) es vs.
Lemma call_stands p s f es m (x : executor) : exec_ok inv x -> live x !! p = Some s -> p ∉ removedStates x -> arguments_sim s es m ->
  defined (fun c => vs ← m c; m_call km (prevPC s) f vs c) s ->
  stands (fun c => vs ← m c; m_call km (prevPC s) f vs c) p s x (executeCall km p f es).
Proof.
  intros Hx Hp Hr Hes [(init0 & c0 & Hs) Hdef]. destruct (Hdef init0 c0 Hs) as [out Hout]. destruct (Hes init0 c0 Hs) as (vs0 & Ev0 & Hv0).
  rewrite Ev0 in Hout. simpl in Hout. unfold m_call in Hout. destruct (functionMap km !! f) as [k|] eqn:Ef; [|done]. simpl in Hout.
  destruct (push_ok s (prevPC s) f k) as (s1 & E1 & D1 & H1). set (x1 := set_state p s1 x).
  assert (Hx1 : exec_ok inv x1) by (by eapply moved_ok). assert (Hp1 : live x1 !! p = Some s1) by apply lookup_insert_eq.
  assert (Hall : forall init c, sim init s c -> exists vs, Forall2 (val_sim init) es vs /\ sim init s1 (m_push (prevPC s) f k c) /\
    (vs ← m c; m_call km (prevPC s) f vs c) =
      if Nat.ltb (length es) (numArgs k) then Some Fails else Next <$> m_bind (numArgs k) 0 vs (m_push (prevPC s) f k c)).
  { intros init c Hsim. destruct (Hes init c Hsim) as (vs & -> & Hv). exists vs. split; [done|]. split; [by apply H1|]. simpl.
    unfold m_call. rewrite Ef. simpl. by rewrite <- (Forall2_length Hv). }
  unfold stands, executeCall. rewrite Ef. rewrite (mbind_run _ _ _ _ _ (state_at_run p s x Hp)).
  rewrite (mbind_run _ _ _ _ _ (change_run p _ s s1 x Hp E1)). fold x1.
  rewrite <- (Forall2_length Hv0) in Hout. destruct (Nat.ltb (length es) (numArgs k)) eqn:En.
  - apply (stands_from (fun c => vs ← m c; m_call km (prevPC s) f vs c) (fun _ => Some Fails) p s s1 x (terminateState p) Hx Hp D1).
    + intros init c Hsim. destruct (Hall init c Hsim) as (vs & _ & Hsim1 & ->). by exists (m_push (prevPC s) f k c).
    + apply termination_stands; [done|done|done|]. intros init c _. by right.
  - destruct (m_bind (numArgs k) 0 vs0 (m_push (prevPC s) f k c0)) as [c1|] eqn:Eb; [|done].
    destruct (binds_ok (numArgs k) 0 es s1) as (s2 & E2 & D2 & H2).
    { exists init0, (m_push (prevPC s) f k c0), c1, vs0. split; [by apply H1|done]. }
    exists (set_state p s2 x). split; [rewrite (bind_arguments_run p (numArgs k) 0 es s1 s2 x1 Hp1 E2); unfold x1; by rewrite set_state_set|].
    assert (D : same_data s s2) by (by eapply same_data_trans). split; [by eapply moved_ok|]. apply moved_follows; [done|done|done|].
    intros init c Hsim. destruct (Hall init c Hsim) as (vs & Hv & Hsim1 & ->). destruct (H2 init _ vs Hsim1 Hv) as (c' & -> & Hc'). by exists c'.
Qed.
Lemma calls_stand fuel over p s ki f params sext_params (x : executor) : constants_ok -> exec_ok inv x -> live x !! p = Some s -> p ∉ removedStates x ->
  defined (m_calls km (prevPC s) ki (Some f) params sext_params) s ->
  stands (m_calls km (prevPC s) ki (Some f) params sext_params) p s x
    (calls false RewriteEqualities simplifyExprs o rng solver fuel over km p ki (Some f) params sext_params).
Proof.
  intros Hc Hx Hp Hr Hdef. pose proof Hdef as [(init0 & c0 & Hs) Hall]. destruct (Hall init0 c0 Hs) as [out Hout]. unfold m_calls in Hout.
  destruct (m_arguments km ki (length (operands ki) - 1) 0 c0) as [vs0|] eqn:Ea; [|done]. simpl in Hout.
  destruct (arguments_ok s ki (length (operands ki) - 1) Hc 0) as (es & Ees & Hes); [by exists init0, c0, vs0|].
  destruct (Hes init0 c0 Hs) as (vs0' & Ea' & Hv0). rewrite Ea in Ea'. injection Ea' as <-.
  unfold stands, calls. rewrite (mbind_run _ _ _ _ _ (eval_arguments_run p ki s _ 0 es x Hp Ees)).
  set (mv := fun c => vs ← m_arguments km ki (length (operands ki) - 1) 0 c;
                      match params with Some l => m_coerce_arguments l sext_params vs | None => Some vs end).
  assert (Hm : forall c, m_calls km (prevPC s) ki (Some f) params sext_params c = (vs ← mv c; m_call km (prevPC s) f vs c)).
  { intros c. unfold m_calls, mv. by destruct (m_arguments _ _ _ _ c). }
  assert (Hco : exists es', (match params with Some l => lift (coerce_arguments l sext_params es) | None => mret es end) x = Ret (es', x) /\ arguments_sim s es' mv).
  { destruct params as [l|].
    - destruct (m_coerce_arguments l sext_params vs0) as [vs1|] eqn:E1; [|done].
      destruct (coerce_arguments_ok s es l sext_params) as (es' & Ee' & He'); [by exists init0, c0, vs0, vs1|]. exists es'. split; [unfold lift; by rewrite Ee'|].
      intros init c Hsim. destruct (Hes init c Hsim) as (vs & Ev & Hv). destruct (He' init c vs Hsim Hv) as (vs' & Ev' & Hv'). exists vs'.
      unfold mv. by rewrite Ev.
    - exists es. split; [done|]. intros init c Hsim. destruct (Hes init c Hsim) as (vs & Ev & Hv). exists vs. unfold mv. by rewrite Ev. }
  destruct Hco as (es' & Erun & Hes'). rewrite (mbind_run _ _ _ _ _ Erun).
  destruct (call_stands p s f es' mv x Hx Hp Hr Hes') as (x' & E & Hx' & Hf).
  - split; [by exists init0, c0|]. intros init c Hsim. rewrite <- Hm. by apply (Hall init c).
  - exists x'. split; [done|]. split; [done|]. eapply follows_ext; [|exact Hf]. intros init c _. apply Hm.
Qed.

(** *** Conditional branches *)
(** Where the children of a condition are, and what the program does there. *)
Definition m_branch (succ0 succ1 src : Z) (ki : KInstruction) (c : state) : option outcome :=
  v ← m_eval km ki 0 c;
  if v.1 =? 1 then Next <$> m_transfer km (if v.2 =? 1 then succ0 else succ1) src c else None.
Definition landed (m : state -> option outcome) (s : est) (cond : expr) (b : bool) (s1 : est) : Prop :=
  exists s', child s cond b s' /\ constraints s1 = constraints s' /\
    forall init c, sim init s' c -> exists c', m c = Some (Next c') /\ sim init s1 c'.
(** A child is at its block, where the program goes there on all of its inputs. *)
Lemma lands m s s' cond (b : bool) dst src init0 c0 : sim init0 s c0 ->
  (forall init c, sim init s c -> (holds init cond <-> b = true) -> exists c', m_transfer km dst src c = Some c' /\ m c = Some (Next c')) ->
  child s cond b s' -> state_ok s' -> exists s1, transfer km dst src s' = Ret s1 /\ same_data s' s1 /\ landed m s cond b s1.
Proof.
  intros Hs0 Hm Hch Hok. pose proof Hch as [Hcon Hsol].
  assert (Hall : forall init c, sim init s' c -> exists c', m_transfer km dst src c = Some c' /\ m c = Some (Next c')).
  { intros init c [S1 S2 S3 S4]. apply Hsol in S1 as [S1 Hh]. destruct Hcon as [K1 K2 K3 K4 K5].
    apply (Hm init c); [|done]. split; [done|congruence|by rewrite <- K3|congruence]. }
  destruct (so_sat _ Hok) as [init Hi]. destruct (sim_exists init0 init s c0 Hs0) as [c Hc]; [by apply Hsol|].
  destruct (Hall init c (sim_child _ _ _ _ Hcon Hc Hi)) as (c' & Et & _).
  destruct (transfer_ok s' dst src) as (s1 & E & D & H); [exists init, c, c'; split; [by eapply sim_child|done]|].
  exists s1. split; [done|]. split; [done|]. exists s'. split; [done|]. split; [by destruct D|]. intros i d Hd.
  destruct (Hall i d Hd) as (d' & Ed & ->). destruct (H i d Hd) as (d'' & Ed' & Hd'). rewrite Ed in Ed'. injection Ed' as <-. by exists d'.
Qed.
(** A path where [cond] has the value [b] is at the block for [b]. *)
Lemma child_lands s s' cond (b : bool) ki succ0 succ1 src :
  (forall init c, sim init s c -> exists v, m_eval km ki 0 c = Some v /\ val_sim init cond v) ->
  defined (m_branch succ0 succ1 src ki) s -> child s cond b s' -> state_ok s' ->
  exists s1, transfer km (if b then succ0 else succ1) src s' = Ret s1 /\ same_data s' s1 /\ landed (m_branch succ0 succ1 src ki) s cond b s1.
Proof.
  intros Hv [(init0 & c0 & Hs0) Hdef] Hch Hok. apply (lands _ s s' cond b _ src init0 c0 Hs0); [|done|done].
  intros init c Hsim Hh. destruct (Hv init c Hsim) as ([w v] & Ev & Ha & He). destruct (Hdef init c Hsim) as [out Hout].
  unfold m_branch in *. rewrite Ev in *. simpl in *. destruct (w =? 1); [|done]. assert (Hb : (v =? 1) = b).
  { unfold holds in Hh. rewrite He in Hh. apply eq_true_iff_eq. rewrite Z.eqb_eq, <- Hh. split; [by intros ->|by intros [= ->]]. }
  rewrite Hb in *. destruct (m_transfer km _ src c) as [c'|]; [|done]. by exists c'.
Qed.
Lemma landed_sound m s cond b s1 init : landed m s cond b s1 -> solution (constraints s1) init ->
  solution (constraints s) init /\ forall c, sim init s c -> exists c', m c = Some (Next c') /\ sim init s1 c'.
Proof.
  intros (s' & [Hcon Hsol] & E & H) Hs. rewrite E in Hs. split; [by apply Hsol in Hs as [? _]|]. intros c Hc. apply H. by eapply sim_child.
Qed.
Lemma landed_complete m s cond (b : bool) s1 init c : landed m s cond b s1 -> sim init s c -> (holds init cond <-> b = true) ->
  exists c', m c = Some (Next c') /\ sim init s1 c'.
Proof.
  intros H Hc Hb. destruct (landed_sound _ _ _ _ _ init H) as [_ Hgo]; [|by apply Hgo].
  destruct H as (s' & [_ Hs] & -> & _). apply Hs. split; [by apply Hc|done].
Qed.
(** A state with one child goes on there. *)
Lemma one_follows m p s s1 cond (b : bool) (x x1 : executor) : p ∉ removedStates x -> keeps p x x1 -> landed m s cond b s1 ->
  (forall init, solution (constraints s) init -> (holds init cond <-> b = true)) -> follows m p s x (set_state p s1 x1).
Proof.
  intros Hr [K1 _ _ _ K5 _] Hl Hb. split.
  - intros q sq init Hq Hor Hg Hsol. simpl in Hq. rewrite lookup_insert in Hq. case_decide as E.
    + subst q. injection Hq as <-. by eapply landed_sound.
    + destruct Hor as [->|Hn]; [done|]. rewrite K1 in Hq by done. congruence.
  - intros init c Hc. destruct (landed_complete m s cond b s1 init c Hl Hc) as (c' & -> & Hc'); [apply Hb, Hc|].
    exists p, s1. split; [apply lookup_insert_eq|]. split; [by left|]. split; [simpl; by rewrite K5|done].
  - intros q Hne _. split; [simpl; rewrite lookup_insert_ne by done; by apply K1|simpl; by rewrite K5].
Qed.
(** A state with two children *)
Lemma both_follow m p q s sp sq cond (x x1 : executor) : p <> q -> live x !! q = None -> p ∉ removedStates x -> q ∉ removedStates x ->
  removedStates x1 = removedStates x ->
  (forall r, r <> p -> r <> q -> live x1 !! r = live x !! r) ->
  landed m s cond true sp -> landed m s cond false sq -> follows m p s x (set_state q sq (set_state p sp x1)).
Proof.
  intros Hpq Hq Hrp Hrq Hrm Ho Lp Lq. rewrite <- Hrm in Hrp, Hrq. split.
  - intros r sr init Hsr Hor Hg Hsol. simpl in Hsr. rewrite !lookup_insert in Hsr. case_decide as E1; [subst r; injection Hsr as <-; by eapply landed_sound|].
    case_decide as E2; [subst r; injection Hsr as <-; by eapply landed_sound|]. destruct Hor as [->|Hn]; [done|]. rewrite Ho in Hsr by done. congruence.
  - intros init c Hc. destruct (decide (eval init cond = Some 1)) as [Hh|Hh].
    + destruct (landed_complete m s cond true sp init c Lp Hc) as (c' & -> & Hc'); [done|].
      exists p, sp. split; [simpl; rewrite lookup_insert_ne by done; apply lookup_insert_eq|]. split; [by left|done].
    + destruct (landed_complete m s cond false sq init c Lq Hc) as (c' & -> & Hc'); [done|].
      exists q, sq. split; [simpl; apply lookup_insert_eq|]. split; [by right|done].
  - intros r Hne [y Hy]. simpl. assert (r <> q) by congruence. rewrite !lookup_insert_ne, Hrm by done. split; [by apply Ho|done].
Qed.
(** Forks are neither replayed nor limited, and the solver answers. *)
Record unlimited (s : est) (x : executor) : Prop := {
  ul_path : replayPath o = None;
  ul_test : replayKTest o = false;
  ul_forks : inhibited o s (forks x) = false;
  ul_depth : MaxDepth o = 0;
  ul_solver : ~ gives_up solver inv
}.
Definition stands_eventually (m : state -> option outcome) (p : Z) (s : est) (x : executor) (run : nat -> M executor unit) : Prop :=
  eventually run x (fun _ x' => exec_ok inv x' /\ follows m p s x x').
Lemma stands_now m p s (x : executor) run : stands m p s x run -> stands_eventually m p s x (fun _ => run).
Proof. intros (x' & E & H). apply ev_runs. unfold runs. by rewrite E. Qed.
(** The transfer of a child *)
Lemma transferred q dst src s' s1 (x : executor) : live x !! q = Some s' -> transfer km dst src s' = Ret s1 ->
  transferToBasicBlock km dst src q x = Ret (tt, set_state q s1 x).
Proof. intros Hq E. by apply (change_run q _ s'). Qed.
Lemma conditional_stands p s ki succ0 succ1 src (x : executor) : constants_ok -> unlimited s x -> exec_ok inv x -> live x !! p = Some s ->
  p ∉ removedStates x -> defined (m_branch succ0 succ1 src ki) s ->
  stands_eventually (m_branch succ0 succ1 src ki) p s x (fun n =>
    cond ← eval_at km p ki 0;
    branches ← fork false RewriteEqualities simplifyExprs o rng solver n false p cond false;
    (match branches.1 with Some q => transferToBasicBlock km succ0 src q | None => mret tt end);;
    (match branches.2 with Some q => transferToBasicBlock km succ1 src q | None => mret tt end)).
Proof.
  intros Hc [U1 U2 U3 U4 U5] Hx Hp Hr Hdef. pose proof Hdef as [(init0 & c0 & Hs0) Hsome]. destruct (Hsome init0 c0 Hs0) as [out Hout].
  unfold m_branch in Hout. destruct (m_eval km ki 0 c0) as [v0|] eqn:Ev0; [|done]. simpl in Hout. destruct (Z.eqb_spec v0.1 1) as [Hw|]; [|done].
  destruct (denotes_sim s _ _ (denotes_eval s ki 0 Hc)) as (cond & Ec & Hcond); [by exists init0, c0, v0|].
  destruct (Hcond init0 c0 Hs0) as (v0' & Ev0' & Ha & _). rewrite Ev0 in Ev0'. injection Ev0' as <-. rewrite Hw in Ha.
  eapply ev_bind; [apply (ev_runs _ _ (fun e x' => e = cond /\ x' = x)); unfold runs; rewrite (eval_at_run p ki 0 s x Hp), Ec; done|].
  intros e x0 [-> ->]. eapply ev_bind; [by apply (fork_ok RewriteEqualities simplifyExprs o rng solver inv false p s cond false x)|].
  intros r x1 [Hx1 Ho]. rewrite U3 in Ho. simpl in Ho.
  assert (Hgo : forall q s' (b : bool), live x1 !! q = Some s' -> child s cond b s' -> exists s1,
    transfer km (if b then succ0 else succ1) src s' = Ret s1 /\ same_data s' s1 /\ landed (m_branch succ0 succ1 src ki) s cond b s1).
  { intros q s' b Hq Hch. apply child_lands; [done|done|done|by apply (ex_paths _ _ Hx1 q)]. }
  apply ev_runs. unfold runs. destruct r as [[p'|] [q|]]; simpl in Ho |- *.
  - destruct Ho as (-> & -> & _ & _ & (sp & sq & Lp & Lq & Cp & Cq) & B2 & B3 & B4 & B5 & B6).
    destruct (Hgo p sp true Lp Cp) as (sp1 & Ep & Dp & Hlp). destruct (Hgo _ sq false Lq Cq) as (sq1 & Eq & Dq & Hlq).
    assert (Hn : live x !! next_state x = None).
    { destruct (live x !! next_state x) eqn:E; [|done]. pose proof (ex_fresh _ _ Hx (next_state x) ltac:(by eexists)). lia. }
    assert (Hne : p <> next_state x) by congruence.
    rewrite (mbind_run _ _ _ _ _ (transferred p succ0 src sp sp1 x1 Lp Ep)).
    rewrite (transferred (next_state x) succ1 src sq sq1); [|simpl; by rewrite lookup_insert_ne|done]. split.
    + apply (moved_ok (next_state x) sq); [by apply (moved_ok p sp)|simpl; by rewrite lookup_insert_ne|done].
    + apply (both_follow _ p (next_state x) s sp1 sq1 cond x x1); try done.
      intros Hg%(ex_gone _ _ Hx). destruct (proj2 (ex_live _ _ Hx (next_state x)) (or_introl Hg)). congruence.
  - destruct Ho as (-> & K & s' & L & C & [?|Hall]); [done|]. destruct (Hgo p s' true L C) as (s1 & E & D & Hl).
    rewrite (mbind_run _ _ _ _ _ (transferred p succ0 src s' s1 x1 L E)). split; [by apply (moved_ok p s')|by apply (one_follows _ p s s1 cond true)].
  - destruct Ho as (-> & K & s' & L & C & [?|Hall]); [done|]. destruct (Hgo p s' false L C) as (s1 & E & D & Hl).
    rewrite (mbind_run (mret tt) _ x1 tt x1 eq_refl), (transferred p succ1 src s' s1 x1 L E). split; [by apply (moved_ok p s')|by apply (one_follows _ p s s1 cond false)].
  - destruct Ho as [_ [?|(_ & Hd & _)]]; [done|]. unfold at_depth in Hd. by rewrite U4 in Hd.
Qed.

(** *** Switches *)
Lemma and_created e1 e2 : asked 1 e1 -> asked 1 e2 ->
  exists e, create_And e1 e2 = Ret e /\ asked 1 e /\ forall cs init, solution cs init -> (holds init e <-> holds init e1 /\ holds init e2).
Proof.
  intros A1 A2. destruct (binary_created And 1 e1 e2 A1 A2 eq_refl) as (e & E & Ae & Ve). simpl in Ae. rewrite (as_width _ _ A1) in Ae.
  exists e. split; [done|]. split; [done|]. intros cs init Hs. pose proof (fun v => Ve init v (sol_init _ _ Hs)) as H. unfold holds.
  destruct (asked_bool e1 cs init A1 Hs) as [E1|E1], (asked_bool e2 cs init A2 Hs) as [E2|E2]; cbn [eval] in H; rewrite E1, E2 in *;
    rewrite (H _ eq_refl); (split; [intros ?; split|intros [? ?]]); done.
Qed.
Lemma or_created e1 e2 : asked 1 e1 -> asked 1 e2 ->
  exists e, create_Or e1 e2 = Ret e /\ asked 1 e /\ forall cs init, solution cs init -> (holds init e <-> holds init e1 \/ holds init e2).
Proof.
  intros A1 A2. destruct (binary_created Or 1 e1 e2 A1 A2 eq_refl) as (e & E & Ae & Ve). simpl in Ae. rewrite (as_width _ _ A1) in Ae.
  exists e. split; [done|]. split; [done|]. intros cs init Hs. pose proof (fun v => Ve init v (sol_init _ _ Hs)) as H. unfold holds.
  destruct (asked_bool e1 cs init A1 Hs) as [E1|E1], (asked_bool e2 cs init A2 Hs) as [E2|E2]; cbn [eval] in H; rewrite E1, E2 in *;
    rewrite (H _ eq_refl); (split; [intros ?; auto|intros [? | ?]]); done.
Qed.
(** Whether a condition holds in some solution, for a solver that answers. *)
Definition in_some (s : est) (e : expr) (b : bool) : Prop :=
  if b then exists init, solution (constraints s) init /\ holds init e else forall init, solution (constraints s) init -> ~ holds init e.
Lemma some_or_none s e st : ~ gives_up solver inv -> inv st -> state_ok s -> asked 1 e -> exists b, in_some s e b.
Proof.
  intros Hg Hst [Hp [init0 Hs]] He. pose proof (ask_validity_ok solver inv (constraints s) init0 Hp Hs e st He Hst) as H.
  unfold runs in H. destruct (evaluate solver (MkQuery (constraints s) e) st) as [[r st']|]; [|done]. destruct H as [_ H].
  destruct r as [[]|]; simpl in H.
  - exists true. exists init0. split; [done|by apply H].
  - exists false. intros init Hi. by apply H.
  - exists true. apply H.
  - done.
Qed.
Lemma mayBeTrue_of_ok p s e (x : executor) : ~ gives_up solver inv -> exec_ok inv x -> live x !! p = Some s -> asked 1 e ->
  eventually (fun n => mayBeTrue_of false simplifyExprs solver n p e) x
    (fun b x' => (exists st, x' = with_solver st x /\ inv st) /\ in_some s e b).
Proof.
  intros Hg Hx Hp He. pose proof (ex_paths _ _ Hx p s Hp) as Hok. destruct (some_or_none s e (solver_state x) Hg (ex_solver _ _ Hx) Hok He) as [b Hb].
  destruct Hok as [H1 [init0 H2]]. unfold mayBeTrue_of. eapply ev_state; [exact Hp|]. eapply ev_bind.
  { apply ev_solver. exact (timing_mayBeTrue_ok simplifyExprs solver inv (constraints s) init0 H1 H2 e (solver_state x) He (ex_solver _ _ Hx)). }
  intros r x' (st & -> & Hst & Hr). destruct r as [r|]; [|done]. apply ev_ret. split; [by exists st|]. simpl in Hr.
  assert (r = b) as ->; [|done]. destruct b, r; simpl in *; try done; exfalso.
  - destruct Hb as (init & H3 & H4). by apply (proj1 Hr eq_refl init).
  - assert (false = true) by (by apply Hr). done.
Qed.
(** The targets after some cases: the default value holds where none of them does, and a block
    has the condition that one of its cases does. *)
Record cases_done (s : est) (w : Z) (cond : expr) (pre : list (expr * Z)) (dv : expr) (ts : targets) : Prop := {
  cd_asked : asked 1 dv;
  cd_default init : solution (constraints s) init -> (holds init dv <-> forall c b, (Constant w c, b) ∈ pre -> eval init cond <> Some c);
  cd_nodup : NoDup ts.*1;
  cd_target b e : (b, e) ∈ ts -> b ∈ pre.*2 /\ possible s e /\
    forall init, solution (constraints s) init -> (holds init e <-> exists c, (Constant w c, b) ∈ pre /\ eval init cond = Some c);
  cd_all init c b : solution (constraints s) init -> (Constant w c, b) ∈ pre -> eval init cond = Some c -> b ∈ ts.*1
}.
Lemma or_target_ok bb e ts : asked 1 e -> NoDup ts.*1 -> (forall b c, (b, c) ∈ ts -> asked 1 c) ->
  exists ts', or_target bb e ts = Ret ts' /\ NoDup ts'.*1 /\ (forall b, b ∈ ts'.*1 <-> b = bb \/ b ∈ ts.*1) /\
    forall b c, (b, c) ∈ ts' -> asked 1 c /\ (b <> bb /\ (b, c) ∈ ts \/
      b = bb /\ forall cs init, solution cs init -> (holds init c <-> holds init e \/ exists c0, (bb, c0) ∈ ts /\ holds init c0)).
Proof.
  intros He. induction ts as [|[b0 c0] ts IH]; intros Hn Ha; cbn [or_target].
  - destruct (or_created e (Constant 1 0) He) as (c & E & Ac & Hc); [by split|]. change (Constant Bool 0) with (Constant 1 0). rewrite E. simpl.
    exists [(bb, c)]. split; [done|]. split; [apply NoDup_singleton|]. split; [intros b; simpl; rewrite elem_of_cons, elem_of_nil; tauto|].
    intros b c' [= -> ->]%list_elem_of_singleton. split; [done|]. right. split; [done|]. intros cs init Hs. rewrite (Hc cs init Hs).
    split; [intros [?|?]; [by left|done]|intros [?|(? & ?%elem_of_nil & _)]; [by left|done]].
  - apply list.NoDup_cons in Hn as [Hb Hn]. assert (Hc0 : asked 1 c0) by (apply (Ha b0); left).
    assert (Hkey : forall c, (b0, c) ∉ ts) by (intros c Hc; apply Hb; by apply (list_elem_of_fmap_2 fst) in Hc).
    destruct (Z.eqb_spec b0 bb) as [->|Hne].
    + destruct (or_created e c0 He Hc0) as (c & E & Ac & Hc). rewrite E. simpl. exists ((bb, c) :: ts). split; [done|].
      split; [by apply list.NoDup_cons|]. split; [intros b; simpl; rewrite !elem_of_cons; tauto|].
      intros b c' [[= -> ->]|Hin]%elem_of_cons.
      * split; [done|]. right. split; [done|]. intros cs init Hs. rewrite (Hc cs init Hs). split; (intros [?|H]; [by left|right]).
        -- exists c0. split; [left|done].
        -- destruct H as (c1 & [[= <-]|H1]%elem_of_cons & H2); [done|by apply Hkey in H1].
      * split; [apply (Ha b); by right|]. left. split; [intros ->; by apply Hkey in Hin|by right].
    + destruct IH as (ts' & E & Hn' & Hk & Ht); [done|intros b c Hin; apply (Ha b); by right|]. rewrite E. simpl. exists ((b0, c0) :: ts'). split; [done|].
      split; [apply list.NoDup_cons; split; [intros [?|?]%Hk; done|done]|]. split; [intros b; simpl; rewrite !elem_of_cons, Hk; tauto|].
      intros b c [[= -> ->]|Hin]%elem_of_cons; [split; [done|]; left; split; [done|left]|].
      destruct (Ht b c Hin) as [Ac [[Hb1 Hb2]|[-> Hc]]]; (split; [done|]); [left; split; [done|by right]|right]. split; [done|].
      intros cs init Hs. rewrite (Hc cs init Hs). apply or_iff_compat_l. split; intros (c1 & H1 & H2); exists c1; (split; [|done]); [by right|].
      apply elem_of_cons in H1 as [[= E1 _]|H1]; [by destruct Hne|done].
Qed.
Lemma in_snoc (w c b : Z) (pre : list (expr * Z)) (c1 b1 : Z) : (Constant w c, b) ∈ pre ++ [(Constant w c1, b1)] <-> (Constant w c, b) ∈ pre \/ c = c1 /\ b = b1.
Proof. rewrite elem_of_app, list_elem_of_singleton. split; (intros [?|H]; [by left|right]); [by injection H|by destruct H as [-> ->]]. Qed.
Section Cases.
Context (s : est) (w : Z) (cond : expr).
(** The condition of a case, and the default value without it. *)
Record case_of (dv : expr) (c : Z) (q dv' : expr) : Prop := {
  co_asked : asked 1 q;
  co_match init : solution (constraints s) init -> (holds init q <-> eval init cond = Some c);
  co_default : asked 1 dv';
  co_rest init : solution (constraints s) init -> (holds init dv' <-> holds init dv /\ ~ holds init q)
}.
Lemma default_step pre dv ts c bb q dv' init : cases_done s w cond pre dv ts -> case_of dv c q dv' -> solution (constraints s) init ->
  (holds init dv' <-> forall c' b, (Constant w c', b) ∈ pre ++ [(Constant w c, bb)] -> eval init cond <> Some c').
Proof.
  intros [_ D _ _ _] [_ Hq _ Hr] Hs. rewrite (Hr init Hs), (D init Hs), (Hq init Hs). split.
  - intros [H1 H2] c' b [H|[-> ->]]%in_snoc; [by eapply H1|done].
  - intros H. split; [intros c' b Hin; apply (H c' b), in_snoc; by left|]. apply (H c bb), in_snoc. by right.
Qed.
Lemma impossible_case pre dv ts c bb q dv' : cases_done s w cond pre dv ts -> case_of dv c q dv' -> in_some s q false ->
  cases_done s w cond (pre ++ [(Constant w c, bb)]) dv' ts.
Proof.
  intros Hd Hco Hno. pose proof Hd as [D1 D2 D3 D4 D5]. pose proof Hco as [Q1 Q2 Q3 Q4].
  assert (Hnever : forall init, solution (constraints s) init -> eval init cond <> Some c) by (intros init Hs He; apply (Hno init Hs); by apply Q2).
  split; [done|intros init; by apply (default_step pre dv ts c bb q)|done| |].
  - intros b e Hin. destruct (D4 b e Hin) as (H1 & H2 & H3). split; [rewrite fmap_app; apply elem_of_app; by left|]. split; [done|].
    intros init Hs. rewrite (H3 init Hs). split; intros (c' & Hc & He); exists c'; (split; [|done]); [apply in_snoc; by left|].
    apply in_snoc in Hc as [Hc|[-> _]]; [done|by destruct (Hnever init Hs)].
  - intros init c' b Hs [Hc|[-> _]]%in_snoc He; [by eapply D5|by destruct (Hnever init Hs)].
Qed.
Lemma possible_case pre dv ts c bb q dv' : cases_done s w cond pre dv ts -> case_of dv c q dv' -> in_some s q true ->
  exists ts', or_target bb q ts = Ret ts' /\ cases_done s w cond (pre ++ [(Constant w c, bb)]) dv' ts'.
Proof.
  intros Hd Hco (i & Hi & Hh). pose proof Hd as [D1 D2 D3 D4 D5]. pose proof Hco as [Q1 Q2 Q3 Q4].
  destruct (or_target_ok bb q ts Q1 D3) as (ts' & E & Hn & Hk & Ht); [intros b e Hin; by destruct (D4 b e Hin) as (_ & [? _] & _)|].
  exists ts'. split; [done|]. split; [done|intros init; by apply (default_step pre dv ts c bb q)|done| |].
  - intros b e Hin. destruct (Ht b e Hin) as [Ae [[Hb Hin']|[-> He]]].
    + destruct (D4 b e Hin') as (H1 & H2 & H3). split; [rewrite fmap_app; apply elem_of_app; by left|]. split; [done|].
      intros init Hs. rewrite (H3 init Hs). split; intros (c' & Hc & He); exists c'; (split; [|done]); [apply in_snoc; by left|].
      by apply in_snoc in Hc as [Hc|[_ ->]].
    + split; [rewrite fmap_app; apply elem_of_app; right; left|]. split; [split; [done|]; exists i; split; [done|]; apply (He _ i Hi); by left|].
      intros init Hs. rewrite (He _ init Hs), (Q2 init Hs). split.
      * intros [H|(e0 & Hin0 & H)]; [exists c; split; [apply in_snoc; by right|done]|].
        destruct (D4 bb e0 Hin0) as (_ & _ & H3). apply (H3 init Hs) in H as (c' & Hc & Hv). exists c'. split; [apply in_snoc; by left|done].
      * intros (c' & [Hc|[-> _]]%in_snoc & Hv); [right|by left]. pose proof (D5 init c' bb Hs Hc Hv) as ([b0 e0] & Eb & Hin0)%list_elem_of_fmap.
        simpl in Eb. subst b0. exists e0. split; [done|]. destruct (D4 bb e0 Hin0) as (_ & _ & H3). apply (H3 init Hs). by exists c'.
  - intros init c' b Hs [Hc|[-> ->]]%in_snoc He; apply Hk; [right; by eapply D5|by left].
Qed.
Lemma case_created dv c : asked w cond -> asked w (Constant w c) -> asked 1 dv ->
  exists q z dv', create_Eq false cond (Constant w c) = Ret q /\ createIsZero false q = Ret z /\ create_And dv z = Ret dv' /\ case_of dv c q dv'.
Proof.
  intros Hc Hv Hd. destruct (value_equal w cond c Hc Hv) as (q & Eq & Aq & Hq). destruct (is_zero_ok q Aq) as (z & Ez & Az & Hz).
  destruct (and_created dv z Hd Az) as (dv' & Ed & Ad & Had). exists q, z, dv'. split_and!; [exact Eq|done|done|]. split; [done| |done|].
  - intros init. apply Hq.
  - intros init Hs. by rewrite (Had _ init Hs), (Hz _ init Hs).
Qed.
End Cases.
Lemma with_solver_twice st st' (x : executor) : with_solver st' (with_solver st x) = with_solver st' x.
Proof. done. Qed.
Lemma case_conditions_ok p s w cond : ~ gives_up solver inv -> asked w cond -> forall cases pre dv ts (x : executor),
  (forall v b, (v, b) ∈ cases -> exists c, v = Constant w c /\ asked w v) -> cases_done s w cond pre dv ts ->
  exec_ok inv x -> live x !! p = Some s ->
  eventually (fun n => case_conditions false simplifyExprs solver n p cond cases dv ts) x
    (fun r x' => (exists st, x' = with_solver st x /\ inv st) /\ cases_done s w cond (pre ++ cases) r.1 r.2).
Proof.
  intros Hg Hcond. induction cases as [|[v bb] cases IH]; intros pre dv ts x Hv Hd Hx Hp; cbn [case_conditions].
  - apply ev_ret. rewrite app_nil_r. split; [|done]. exists (solver_state x). split; [by destruct x|apply Hx].
  - destruct (Hv v bb) as (c & -> & Ac); [left|].
    destruct (case_created s w cond dv c Hcond Ac (cd_asked _ _ _ _ _ _ Hd)) as (q & z & dv' & Eq & Ez & Ed & Hco).
    eapply ev_lift_const; [exact Eq|]. eapply ev_lift_const; [exact Ez|]. eapply ev_lift_const; [exact Ed|].
    eapply ev_bind; [by apply (mayBeTrue_of_ok p s q x Hg Hx Hp), (co_asked _ _ _ _ _ _ Hco)|].
    intros b x1 [(st & -> & Hst) Hb].
    assert (H : exists ts', (forall y : executor, (if b : bool then lift (or_target bb q ts) else mret ts) y = Ret (ts', y)) /\
      cases_done s w cond (pre ++ [(Constant w c, bb)]) dv' ts').
    { destruct b; [|exists ts; split; [done|by eapply impossible_case]].
      destruct (possible_case s w cond pre dv ts c bb q dv' Hd Hco Hb) as (ts' & E & H). exists ts'. split; [|done]. intros y. unfold lift. by rewrite E. }
    destruct H as (ts' & Erun & Hd'). eapply (ev_bind_run _ _ _ ts'); [exact (Erun _)|].
    eapply ev_mono; [apply (IH (pre ++ [(Constant w c, bb)]) dv' ts'); [intros v' b' Hin; apply (Hv v' b'); by right|done|by apply with_solver_ok|done]|].
    intros r x' [(st' & -> & Hst') H]. split; [by exists st'|]. by rewrite <- app_assoc in H.
Qed.
(** The cases in the order of their expressions *)
Lemma insert_case_perm v b m : v ∉ m.*1 -> insert_case v b m ≡ₚ (v, b) :: m.
Proof.
  induction m as [|[v0 b0] m IH]; [done|]. simpl. rewrite not_elem_of_cons. intros [Hne Hv]. unfold ExprOrder.expr_lt.
  destruct (Z.ltb_spec (ExprOrder.compare v v0) 0); [done|]. destruct (Z.ltb_spec (ExprOrder.compare v0 v) 0).
  - rewrite (IH Hv). apply perm_swap.
  - exfalso. apply Hne, (proj1 (ExprOrder.compare_0 v v0)). pose proof (ExprOrder.compare_opp v v0). lia.
Qed.
Definition case_of_value (w : Z) (c : Z * Z) : expr * Z := (Constant w c.1, c.2).
Lemma ordered w cases : forall acc, NoDup cases.*1 -> (forall c, c ∈ cases.*1 -> Constant w c ∉ acc.*1) ->
  foldl (fun m c => insert_case (Constant w c.1) c.2 m) acc cases ≡ₚ (case_of_value w <$> cases) ++ acc.
Proof.
  induction cases as [|[c b] cases IH]; intros acc Hn Ha; [done|]. simpl in Hn. apply list.NoDup_cons in Hn as [Hc Hn]. simpl.
  assert (Hp : insert_case (Constant w c) b acc ≡ₚ (Constant w c, b) :: acc) by (apply insert_case_perm, Ha; left).
  rewrite IH; [by rewrite Hp, <- Permutation_middle|done|]. intros c' Hc'. rewrite Hp. simpl. rewrite not_elem_of_cons. split; [|apply Ha; by right].
  intros [= ->]. done.
Qed.
Lemma ordered_in w (cases : list (Z * Z)) c b : (Constant w c, b) ∈ case_of_value w <$> cases <-> (c, b) ∈ cases.
Proof.
  rewrite list_elem_of_fmap. split; [intros ([c' b'] & [= -> ->] & H); done|]. intros H. by exists (c, b).
Qed.
Lemma find_case_in (cases : list (Z * Z)) dflt v b : NoDup cases.*1 -> (v, b) ∈ cases -> find_case cases dflt v = b.
Proof.
  unfold find_case. induction cases as [|[c b'] cases IH]; simpl; [by intros _ ?%elem_of_nil|]. intros [Hc Hn]%list.NoDup_cons [[= <- <-]|H]%elem_of_cons.
  - by rewrite Z.eqb_refl.
  - destruct (Z.eqb_spec c v) as [->|]; [|by apply IH]. by apply (list_elem_of_fmap_2 fst) in H.
Qed.
Lemma find_case_out (cases : list (Z * Z)) dflt v : v ∉ cases.*1 -> find_case cases dflt v = dflt.
Proof.
  unfold find_case. induction cases as [|[c b'] cases IH]; simpl; [done|]. rewrite not_elem_of_cons. intros [Hne Hv].
  destruct (Z.eqb_spec c v) as [->|]; [done|by apply IH].
Qed.

(** Blocks with the conditions to go there, of which each solution fulfils one. *)
Record targets_ok (s : est) (target : (array -> Z -> option Z) -> Z) (ts : targets) : Prop := {
  to_nodup : NoDup ts.*1;
  to_target b e : (b, e) ∈ ts -> possible s e /\ forall init, solution (constraints s) init -> (holds init e <-> target init = b);
  to_all init : solution (constraints s) init -> target init ∈ ts.*1
}.
Definition case_block (cases : list (Z * Z)) (dflt : Z) (cond : expr) (init : array -> Z -> option Z) : Z :=
  find_case cases dflt (default 0 (eval init cond)).
Section Blocks.
Context (s : est) (w : Z) (cond : expr) (cases : list (Z * Z)) (dflt : Z) (order : list (expr * Z)) (dv : expr) (ts : targets).
Hypothesis Hc : asked w cond.
Hypothesis Hn : NoDup cases.*1.
Hypothesis Hd : dflt ∉ cases.*2.
Hypothesis Ho : order ≡ₚ case_of_value w <$> cases.
Hypothesis Hdone : cases_done s w cond order dv ts.
Lemma in_order c b : (Constant w c, b) ∈ order <-> (c, b) ∈ cases.
Proof. rewrite Ho. apply ordered_in. Qed.
Lemma block_cases init : solution (constraints s) init ->
  exists a, eval init cond = Some a /\ (((a, case_block cases dflt cond init) ∈ cases) \/ ((a ∉ cases.*1) /\ case_block cases dflt cond init = dflt)).
Proof.
  intros Hs. destruct (sol_defined w cond _ init Hc Hs) as [a Ha]. exists a. split; [done|]. unfold case_block. rewrite Ha. simpl.
  destruct (decide (a ∈ cases.*1)) as [Hac|Hac]; [left|right; split; [done|by apply find_case_out]].
  apply list_elem_of_fmap in Hac as ([a' b] & -> & Hac). simpl. by rewrite (find_case_in cases dflt a' b Hn Hac).
Qed.
Lemma default_no_target : dflt ∉ ts.*1.
Proof.
  intros ([b0 e0] & Eb & H)%list_elem_of_fmap. simpl in Eb. subst b0. destruct (cd_target _ _ _ _ _ _ Hdone dflt e0 H) as (H1 & _). rewrite Ho in H1.
  apply list_elem_of_fmap in H1 as ([v1 b1] & Eb & H1). simpl in Eb. subst b1. apply list_elem_of_fmap in H1 as ([c b1] & [= -> ->] & H1).
  apply (list_elem_of_fmap_2 snd) in H1. by apply Hd.
Qed.
Lemma case_target b e : (b, e) ∈ ts -> possible s e /\ forall init, solution (constraints s) init -> (holds init e <-> case_block cases dflt cond init = b).
Proof.
  intros He. destruct (cd_target _ _ _ _ _ _ Hdone b e He) as (_ & H2 & H3). split; [done|]. intros init Hs. rewrite (H3 init Hs).
  destruct (block_cases init Hs) as (a & Ha & [Hin|[Hout ->]]); rewrite Ha.
  - split; [intros (c & H%in_order & [= <-])|intros <-; exists a; split; [by apply in_order|done]].
    rewrite <- (find_case_in cases dflt a b Hn H). by rewrite (find_case_in cases dflt a _ Hn Hin).
  - split; [intros (c & H%in_order & [= <-]); apply (list_elem_of_fmap_2 fst) in H; by destruct Hout|].
    intros <-. destruct default_no_target. by apply (list_elem_of_fmap_2 fst) in He.
Qed.
Lemma default_target init : solution (constraints s) init -> (holds init dv <-> case_block cases dflt cond init = dflt).
Proof.
  intros Hs. rewrite (cd_default _ _ _ _ _ _ Hdone init Hs). destruct (block_cases init Hs) as (a & -> & [Hin|[Hout ->]]).
  - split; [intros H; by destruct (H a _ (proj2 (in_order _ _) Hin))|]. intros E. rewrite E in Hin. apply (list_elem_of_fmap_2 snd) in Hin. by destruct Hd.
  - split; [done|]. intros _ c b H%in_order [= <-]. apply (list_elem_of_fmap_2 fst) in H. by apply Hout.
Qed.
Lemma block_covered init : solution (constraints s) init -> holds init dv \/ case_block cases dflt cond init ∈ ts.*1.
Proof.
  intros Hs. destruct (block_cases init Hs) as (a & Ha & [Hin|[_ Hb]]).
  - right. by apply (cd_all _ _ _ _ _ _ Hdone init a _ Hs), Ha; apply in_order.
  - left. by apply default_target.
Qed.
Lemma cases_targets b : in_some s dv b -> targets_ok s (case_block cases dflt cond) (if b : bool then add_default dflt dv ts else ts).
Proof.
  intros Hb. pose proof default_no_target as Hnd. pose proof (cd_nodup _ _ _ _ _ _ Hdone) as Hts. unfold add_default. rewrite bool_decide_false by done.
  destruct b; simpl in Hb.
  - split.
    + rewrite fmap_app. apply list.NoDup_app. split; [done|]. split; [|apply NoDup_singleton]. intros b H ->%list_elem_of_singleton. done.
    + intros b e [He|[= -> ->]%list_elem_of_singleton]%elem_of_app; [by apply case_target|].
      split; [split; [apply (cd_asked _ _ _ _ _ _ Hdone)|done]|apply default_target].
    + intros init Hs. rewrite fmap_app, elem_of_app. destruct (block_covered init Hs) as [H|H]; [right|by left].
      apply (default_target init Hs) in H. rewrite H. left.
  - split; [done|apply case_target|]. intros init Hs. destruct (block_covered init Hs) as [H|H]; [|done]. by destruct (Hb init Hs).
Qed.
End Blocks.

(** The branches go to their blocks. *)
Lemma Forall3_mid {A B C} (P : A -> B -> C -> Prop) l k k' : Forall3 P l k k' -> Forall3 (fun x y z => (y ∈ k) /\ P x y z) l k k'.
Proof.
  induction 1 as [|x y z l k k' HP _ IH]; [constructor|]. constructor; [split; [left|done]|].
  eapply Forall3_impl; [exact IH|]. intros ? ? ? [? ?]. split; [by right|done].
Qed.
Lemma transfer_all_ok m s src init0 c0 : sim init0 s c0 -> forall bbs qs es (x : executor), NoDup qs -> exec_ok inv x ->
  Forall3 (fun bb q e => (exists sq, live x !! q = Some sq /\ child s e true sq) /\
    forall init c, sim init s c -> (holds init e <-> true = true) -> exists c', m_transfer km bb src c = Some c' /\ m c = Some (Next c')) bbs qs es ->
  exists x', transfer_all km bbs src (Some <$> qs) x = Ret (tt, x') /\ exec_ok inv x' /\ removedStates x' = removedStates x /\
    (forall q, q ∉ qs -> live x' !! q = live x !! q) /\
    Forall3 (fun _ q e => exists s1, live x' !! q = Some s1 /\ landed m s e true s1) bbs qs es.
Proof.
  intros Hs0. induction bbs as [|bb bbs IH]; intros qs es x Hn Hx H; inversion H as [|? q e ? qs' es' [(sq & Hq & Hch) Hm] Hrest]; subst.
  { exists x. split; [done|]. split; [done|]. split; [done|]. split; [done|constructor]. }
  apply list.NoDup_cons in Hn as [Hqn Hn]. cbn [fmap list_fmap transfer_all].
  destruct (lands m s sq e true bb src init0 c0 Hs0 Hm Hch (ex_paths _ _ Hx q sq Hq)) as (s1 & E & D & Hl).
  rewrite (mbind_run _ _ _ _ _ (transferred q bb src sq s1 x Hq E)).
  destruct (IH qs' es' (set_state q s1 x)) as (x' & Erun & Hx' & Hr & Hother & Hall).
  - done.
  - by apply (moved_ok q sq).
  - eapply Forall3_impl; [exact (Forall3_mid _ _ _ _ Hrest)|]. intros b q' e' (Hin & (sq' & Hq' & Hc') & Hm'). split; [|done]. exists sq'. split; [|done].
    simpl. rewrite lookup_insert_ne; [done|]. intros ->. done.
  - exists x'. split; [exact Erun|]. split; [done|]. split; [done|]. split.
    + intros q' [Hne Hq']%not_elem_of_cons. rewrite Hother by done. simpl. by rewrite lookup_insert_ne.
    + constructor; [|done]. exists s1. split; [|done]. rewrite Hother by done. apply lookup_insert_eq.
Qed.

(** A state that branches goes on at the blocks of its runs. *)
Lemma branches_follow m p s target (ts : targets) new (x x' : executor) : p ∉ removedStates x -> removedStates x' = removedStates x ->
  (forall q, q ∉ p :: new -> live x' !! q = live x !! q) -> (forall q, q ∈ new -> live x !! q = None) -> (forall q, q ∈ new -> q ∉ removedStates x) ->
  targets_ok s target ts ->
  Forall3 (fun _ q e => exists s1, live x' !! q = Some s1 /\ landed m s e true s1) ts.*1 (p :: new) ts.*2 -> follows m p s x x'.
Proof.
  intros Hrp Hrm Ho Hnew Hrn [T1 T2 T3] Hall. rewrite <- Hrm in Hrp, Hrn.
  assert (Hq : forall q, q ∈ p :: new -> exists s1 e, live x' !! q = Some s1 /\ landed m s e true s1).
  { intros q [i Hi]%list_elem_of_lookup_1. destruct (Forall3_lookup_m _ _ _ _ _ _ Hall Hi) as (b & e & _ & _ & s1 & H). by exists s1, e. }
  split.
  - intros q sq init Hsq Hor Hg Hsol. assert (Hin : q ∈ p :: new).
    { destruct (decide (q ∈ p :: new)) as [?|Hout]; [done|]. destruct Hor as [->|Hn]; [left|]. rewrite Ho in Hsq by done. congruence. }
    destruct (Hq q Hin) as (s1 & e & E & Hl). rewrite E in Hsq. injection Hsq as <-. by eapply landed_sound.
  - intros init c Hc. pose proof (T3 init (sm_solution _ _ _ Hc)) as Ht. apply list_elem_of_lookup_1 in Ht as [i Hi].
    destruct (Forall3_lookup_l _ _ _ _ _ _ Hall Hi) as (q & e & Eq & Ee & s1 & E & Hl).
    rewrite list_lookup_fmap in Hi. rewrite list_lookup_fmap in Ee. apply fmap_Some in Ee as ([b e'] & Et & ->). rewrite Et in Hi. injection Hi as Hb. cbn [snd] in *.
    destruct (T2 b e') as [_ H]; [by apply list_elem_of_lookup_2 in Et|].
    destruct (landed_complete m s e' true s1 init c Hl Hc) as (c' & -> & Hc'); [split; [done|]; intros _; by apply (H init (sm_solution _ _ _ Hc))|].
    exists q, s1. split; [done|]. apply list_elem_of_lookup_2, elem_of_cons in Eq as [->|Hin]; [auto|]. split; [right; by apply Hnew|]. split; [by apply Hrn|done].
  - intros q Hne [sq Hsq]. rewrite Hrm. split; [|done]. apply Ho. intros [->|Hin]%elem_of_cons; [done|]. rewrite (Hnew q Hin) in Hsq. done.
Qed.
Lemma new_states p n r (x x' : executor) : exec_ok inv x -> exec_ok inv x' -> too_many o x = false -> made o p n r x x' ->
  exists new, r = Some <$> (p :: new) /\ removedStates x' = removedStates x /\ (forall q, q ∉ p :: new -> live x' !! q = live x !! q) /\
    (forall q, q ∈ new -> live x !! q = None /\ (q ∉ removedStates x')).
Proof.
  intros Hx Hx' Ht (M1 & M2 & M3). rewrite Ht in M3. destruct M3 as (new' & -> & M3 & M4). exists new'. split; [done|]. split; [done|]. split; [done|].
  intros q Hq. assert (Hadded : q ∈ addedStates x') by (rewrite M3; apply elem_of_app; by right). split.
  - destruct (live x !! q) eqn:E; [|done]. exfalso. destruct (proj1 (ex_live _ _ Hx q) ltac:(by eexists)) as [H|H].
    + by apply (ex_apart _ _ Hx' q); [rewrite M1|].
    + pose proof (ex_added _ _ Hx') as Hn. rewrite M3 in Hn. apply list.NoDup_app in Hn as (_ & Hn & _). by apply (Hn q).
  - intros H%(ex_gone _ _ Hx'). by apply (ex_apart _ _ Hx' q).
Qed.
Lemma branched_stands m p s src target (ts : targets) (x : executor) : too_many o x = false -> exec_ok inv x -> live x !! p = Some s ->
  p ∉ removedStates x -> (exists init c, sim init s c) -> targets_ok s target ts ->
  (forall init c, sim init s c -> exists c', m_transfer km (target init) src c = Some c' /\ m c = Some (Next c')) ->
  stands_eventually m p s x (fun n => branches ← branch false RewriteEqualities o rng n p ts.*2; transfer_all km ts.*1 src branches).
Proof.
  intros Hm Hx Hp Hr (init0 & c0 & Hs0) Hto Hgo. pose proof Hto as [T1 T2 T3].
  assert (Hne : ts.*2 <> []) by (pose proof (T3 init0 (sm_solution _ _ _ Hs0)) as H; destruct ts; [by apply elem_of_nil in H|done]).
  assert (Hpos : Forall (possible s) ts.*2).
  { apply list.Forall_forall. intros e ([b e'] & -> & Hin)%list_elem_of_fmap. by destruct (T2 b e' Hin). }
  eapply ev_bind; [by apply (branch_ok RewriteEqualities o rng inv p s ts.*2 x)|]. intros r x1 (Hx1 & Hdis & Hbr & Hmade).
  destruct (new_states p _ r x x1 Hx Hx1 Hm Hmade) as (new & -> & Hrm & Ho & Hnew).
  assert (Hnd : NoDup (p :: new)).
  { apply NoDup_alt. intros i j q Hi Hj. apply (Hdis i j q); by rewrite list_lookup_fmap, ?Hi, ?Hj. }
  assert (Hall : Forall3 (fun bb q e => (exists sq, live x1 !! q = Some sq /\ child s e true sq) /\
    forall init c, sim init s c -> (holds init e <-> true = true) -> exists c', m_transfer km bb src c = Some c' /\ m c = Some (Next c'))
    ts.*1 (p :: new) ts.*2).
  { clear -Hbr T2 Hgo. revert Hbr T2. generalize (p :: new). induction ts as [|[b e] ts IH]; intros qs Hbr T2.
    - destruct qs; [constructor|by inversion Hbr].
    - destruct qs as [|q qs]; [by inversion Hbr|]. simpl in Hbr. apply Forall2_cons_1 in Hbr as [Hb Hbr]. constructor.
      + split; [exact Hb|]. intros init c Hc Hh. destruct (Hgo init c Hc) as (c' & H1 & H2). destruct (T2 b e) as [_ H3]; [left|].
        exists c'. rewrite (proj1 (H3 init (sm_solution _ _ _ Hc))) in H1 by by apply Hh. done.
      + apply IH; [done|]. intros b' e' Hin. apply (T2 b' e'). by right. }
  destruct (transfer_all_ok m s src init0 c0 Hs0 ts.*1 (p :: new) ts.*2 x1 Hnd Hx1 Hall) as (x2 & E & Hx2 & Hr2 & Ho2 & Hall2).
  apply ev_runs. unfold runs. rewrite E. split; [done|]. apply (branches_follow m p s target ts new x x2); try done.
  - by rewrite Hr2.
  - intros q Hq. by rewrite Ho2, Ho.
  - intros q Hq. by apply Hnew.
  - intros q Hq. rewrite <- Hrm. by apply Hnew.
Qed.
Definition m_switch (ki : KInstruction) (cases : list (Z * Z)) (dflt : Z) (c : state) : option outcome :=
  v ← m_eval km ki 0 c;
  if (v.1 <=? 64) && forallb (fun x => fits v.1 x.1) cases then Next <$> m_transfer km (find_case cases dflt v.2) (parent ki) c else None.
(** What the program does on the inputs of the path, by the value of the condition. *)
Lemma switch_runs s ki cases dflt w cond : asked w cond ->
  (forall init c, sim init s c -> exists x, m_eval km ki 0 c = Some x /\ val_sim init cond x) -> defined (m_switch ki cases dflt) s ->
  w <= 64 /\ (forall c b, (c, b) ∈ cases -> asked w (Constant w c)) /\
  forall init c, sim init s c -> exists c', m_transfer km (case_block cases dflt cond init) (parent ki) c = Some c' /\ m_switch ki cases dflt c = Some (Next c').
Proof.
  intros Hw Hv [(init0 & c0 & Hs0) Hdef].
  assert (Hall : forall init c, sim init s c -> ((w <=? 64) && forallb (fun x => fits w x.1) cases) = true /\
    exists c', m_transfer km (case_block cases dflt cond init) (parent ki) c = Some c' /\ m_switch ki cases dflt c = Some (Next c')).
  { intros init c Hc. destruct (Hv init c Hc) as ([w' v] & Ev & Ha & He). destruct (Hdef init c Hc) as [out Hout]. unfold m_switch, case_block in *.
    rewrite Ev in *. rewrite He. simpl in *. rewrite <- (as_width _ _ Ha), (as_width _ _ Hw) in *. destruct (_ && _); [|done].
    destruct (m_transfer km (find_case cases dflt v) (parent ki) c) as [c'|]; [|done]. split; [done|by exists c']. }
  destruct (Hall init0 c0 Hs0) as [[Hw64%Z.leb_le Hf]%andb_true_iff _]. split; [done|].
  split; [|intros init c Hc; by apply Hall]. rewrite forallb_forall in Hf. intros c b Hin.
  split; [|done|done]. cbn [width_ok]. apply andb_true_iff. split; [apply Z.ltb_lt; rewrite <- (as_width _ _ Hw); by apply width_pos, Hw|].
  exact (Hf (c, b) (proj1 (list_elem_of_In _ _) Hin)).
Qed.
Lemma many_targets p s w cond ki cases dflt (x : executor) : ~ gives_up solver inv -> too_many o x = false -> asked w cond ->
  NoDup cases.*1 -> dflt ∉ cases.*2 -> (forall c b, (c, b) ∈ cases -> asked w (Constant w c)) ->
  (exists init c, sim init s c) ->
  (forall init c, sim init s c -> exists c', m_transfer km (case_block cases dflt cond init) (parent ki) c = Some c' /\
    m_switch ki cases dflt c = Some (Next c')) ->
  exec_ok inv x -> live x !! p = Some s -> p ∉ removedStates x ->
  stands_eventually (m_switch ki cases dflt) p s x (fun n =>
    res ← case_conditions false simplifyExprs solver n p cond
      (foldl (fun m c => insert_case (Constant (getWidth cond) c.1) c.2 m) [] cases) (Constant Bool 1) [];
    b ← mayBeTrue_of false simplifyExprs solver n p res.1;
    branches ← branch false RewriteEqualities o rng n p (if b : bool then add_default dflt res.1 res.2 else res.2).*2;
    transfer_all km (if b : bool then add_default dflt res.1 res.2 else res.2).*1 (parent ki) branches).
Proof.
  intros Hg Hm Hw Hn Hd Hfit Hne Hgo Hx Hp Hr. rewrite (as_width _ _ Hw).
  set (order := foldl (fun m c => insert_case (Constant w c.1) c.2 m) [] cases).
  assert (Hperm : order ≡ₚ case_of_value w <$> cases).
  { unfold order. rewrite (ordered w cases []); [by rewrite app_nil_r|done|]. intros c _. apply not_elem_of_nil. }
  eapply ev_bind; [apply (case_conditions_ok p s w cond Hg Hw order [] (Constant Bool 1) [] x)|].
  - intros v b Hin. rewrite Hperm in Hin. apply list_elem_of_fmap in Hin as ([c b'] & [= -> ->] & Hin). exists c. split; [done|by apply (Hfit c b')].
  - split; [by split| |constructor|by intros ? ? ?%elem_of_nil|by intros ? ? ? _ ?%elem_of_nil]. intros init _. split; [by intros _ ? ? ?%elem_of_nil|done].
  - done.
  - done.
  - intros [dv ts] x1 [(st & -> & Hst) Hdone]. cbn [fst snd app] in *.
    assert (Hx1 : exec_ok inv (with_solver st x)) by by apply with_solver_ok.
    eapply ev_bind; [apply (mayBeTrue_of_ok p s dv _ Hg Hx1 Hp), Hdone|]. intros b x2 [(st2 & -> & Hst2) Hb].
    pose proof (cases_targets s w cond cases dflt order dv ts Hw Hn Hd Hperm Hdone b Hb) as Hto.
    eapply ev_mono; [apply (branched_stands (m_switch ki cases dflt) p s (parent ki) (case_block cases dflt cond) _
      (with_solver st2 (with_solver st x))); try done; by apply with_solver_ok|].
    intros _ x' [H1 H2]. split; [done|]. by apply follows_solver, follows_solver in H2.
Qed.
(** A condition with one value on the path *)
Lemma unique_case p s v cond ki cases dflt (x : executor) : (exists init c, sim init s c) ->
  (forall init c, sim init s c -> exists c', m_transfer km (case_block cases dflt cond init) (parent ki) c = Some c' /\
    m_switch ki cases dflt c = Some (Next c')) ->
  exec_ok inv x -> live x !! p = Some s -> p ∉ removedStates x ->
  (forall init, solution (constraints s) init -> eval init cond = Some v) ->
  stands (m_switch ki cases dflt) p s x (transferToBasicBlock km (find_case cases dflt v) (parent ki) p).
Proof.
  intros Hne Hgo Hx Hp Hr Hall.
  assert (Hsame : forall init c, sim init s c -> exists c', m_transfer km (find_case cases dflt v) (parent ki) c = Some c' /\
    m_switch ki cases dflt c = Some (Next c')).
  { intros init c Hsim. destruct (Hgo init c Hsim) as (c' & E & H). unfold case_block in E. rewrite (Hall init (sm_solution _ _ _ Hsim)) in E. by exists c'. }
  destruct (jump_stands p s (find_case cases dflt v) (parent ki) x Hx Hp Hr) as (x' & E & Hx' & Hf).
  - split; [done|]. intros init c Hsim. destruct (Hsame init c Hsim) as (c' & -> & _). by eexists.
  - exists x'. split; [done|]. split; [done|]. eapply follows_ext; [|exact Hf]. intros init c Hsim. by destruct (Hsame init c Hsim) as (c' & -> & ->).
Qed.
Lemma switch_stands p s ki cases dflt (x : executor) : constants_ok -> unlimited s x -> exec_ok inv x -> live x !! p = Some s ->
  p ∉ removedStates x -> NoDup cases.*1 -> dflt ∉ cases.*2 -> defined (m_switch ki cases dflt) s ->
  stands_eventually (m_switch ki cases dflt) p s x (fun n => switches false RewriteEqualities simplifyExprs o rng solver n km p ki cases dflt).
Proof.
  intros Hc [U1 U2 U3 U4 U5] Hx Hp Hr Hn Hd Hdef. pose proof Hdef as [(init0 & c0 & Hs0) Hsome]. destruct (Hsome init0 c0 Hs0) as [out Hout].
  unfold m_switch in Hout. destruct (m_eval km ki 0 c0) as [v0|] eqn:Ev0; [|done]. clear Hout.
  destruct (denotes_sim s _ _ (denotes_eval s ki 0 Hc)) as (cond & Ec & Hcond); [by exists init0, c0, v0|].
  destruct (Hcond init0 c0 Hs0) as (v0' & _ & Hw & _).
  destruct (switch_runs s ki cases dflt _ cond Hw Hcond Hdef) as (Hw64%Z.leb_le & Hfit & Hgo).
  assert (Hm : too_many o x = false) by (unfold inhibited in U3; by apply orb_false_iff in U3 as [_ U3]).
  eapply ev_bind; [apply (ev_runs _ _ (fun e x' => e = cond /\ x' = x)); unfold runs; rewrite (eval_at_run p ki 0 s x Hp), Ec; done|].
  intros e x0 [-> ->]. eapply ev_bind; [by apply (toUnique_ok simplifyExprs solver inv p s _ cond x Hx Hp Hw)|].
  intros e x1 [(st & -> & Hst) He]. assert (Hx1 : exec_ok inv (with_solver st x)) by by apply with_solver_ok.
  assert (Hne : exists init c, sim init s c) by by exists init0, c0.
  apply (ev_mono _ _ (fun _ x' => exec_ok inv x' /\ follows (m_switch ki cases dflt) p s (with_solver st x) x'));
    [|intros _ x' [H1 H2]; split; [done|by apply follows_solver in H2]].
  assert (Hone : forall v, (forall init, solution (constraints s) init -> eval init cond = Some v) ->
    stands_eventually (m_switch ki cases dflt) p s (with_solver st x)
      (fun _ => assert_ (v0'.1 <=? 64);; transferToBasicBlock km (find_case cases dflt v) (parent ki) p))
    by (intros v Hall; rewrite Hw64; by apply stands_now, (unique_case p s v cond)).
  destruct He as [->|(v & -> & Hall)]; [|by apply (Hone v)].
  destruct (isConstant cond) eqn:Ek.
  - destruct cond as [w v| | | | | | | | |]; try done. rewrite <- (as_width _ _ Hw) in Hone. by apply (Hone v).
  - assert (Hmany := many_targets p s _ cond ki cases dflt (with_solver st x) U5 Hm Hw Hn Hd Hfit Hne Hgo Hx1 Hp Hr).
    by destruct cond.
Qed.

(** *** A step *)
Definition stepped (s : est) : est :=
  EState (pc s + 1) (pc s) (stack s) (incomingBBIndex s) (constraints s) (depth s) (pathOS s) (symPathOS s) (forkDisabled s) (ptreeNode s).
(** A switch has a case for a value only once, and none goes to the default block. *)
Definition supported (ki : KInstruction) : Prop :=
  match inst ki with
  | Instruction.Switch cases dflt => NoDup cases.*1 /\ dflt ∉ cases.*2
  | Instruction.Call f _ _ _ => is_Some f
  | _ => no_division ki
  end.
Lemma execute_stands p s ki (x : executor) : constants_ok -> unlimited s x -> exec_ok inv x -> live x !! p = Some s -> p ∉ removedStates x ->
  supported ki -> defined (m_execute km PW ki (prevPC s)) s ->
  stands_eventually (m_execute km PW ki (prevPC s)) p s x
    (fun n => executeInstruction false RewriteEqualities simplifyExprs o rng solver n false km PW p ki).
Proof.
  intros Hc Hu Hx Hp Hr Hk Hdef.
  assert (Hfail : (forall c, m_execute km PW ki (prevPC s) c = Some Fails) ->
    stands_eventually (m_execute km PW ki (prevPC s)) p s x (fun _ => terminateState p)).
  { intros Hm. apply stands_now, termination_stands; [done..|]. intros init c _. by right. }
  assert (Hvalue : no_division ki -> defined (fun c => v ← m_value km PW ki c; Next <$> m_set (dest ki) v c) s ->
    stands_eventually (fun c => v ← m_value km PW ki c; Next <$> m_set (dest ki) v c) p s x
      (fun _ => s ← state_at p; v ← lift (value_of false km PW ki s); bindLocal p ki v)).
  { intros Hnd Hd. by apply stands_now, value_stands. }
  unfold supported in Hk. unfold m_execute, executeInstruction in *.
  destruct (inst ki) as [hv|dst|s0 s1|cases dflt| |f params sp sr|bl| | |op|pr|ind off| | | | | |] eqn:Ei;
    try (apply Hvalue; [by unfold no_division in *; rewrite Ei in *|exact Hdef]); try (apply Hfail; done).
  - by apply stands_now, return_stands.
  - by apply stands_now, jump_stands.
  - by apply conditional_stands.
  - destruct Hk. by apply switch_stands.
  - destruct f as [f|]; [|by destruct Hk]. destruct (calls_stand 0 false p s ki f params sp x Hc Hx Hp Hr Hdef) as (x' & E & H).
    exists tt, x'. split; [|exact H]. exists O. intros k _. exact E.
Qed.
Lemma stepped_sim s init c : sim init s c <-> sim init (stepped s) (MState (m_pc c + 1) (m_stack c) (m_incoming c)).
Proof. split; intros [S1 S2 S3 S4]; (split; [done|simpl in *; lia|done|done]). Qed.
Lemma step_stands p s ki (x : executor) : constants_ok -> unlimited s x -> exec_ok inv x -> live x !! p = Some s -> p ∉ removedStates x ->
  code km !! pc s = Some ki -> supported ki -> defined (m_step km PW) s ->
  stands_eventually (m_step km PW) p s x (fun n => step false RewriteEqualities simplifyExprs o rng solver n false km PW p).
Proof.
  intros Hc [U1 U2 U3 U4 U5] Hx Hp Hr Hki Hsup [(init0 & c0 & Hs0) Hdef].
  assert (Hm : forall init c, sim init s c -> exists c1, sim init (stepped s) c1 /\ m_step km PW c = m_execute km PW ki (pc s) c1).
  { intros init c Hc1. exists (MState (m_pc c + 1) (m_stack c) (m_incoming c)). split; [exact (proj1 (stepped_sim s init c) Hc1)|].
    unfold m_step. rewrite (sm_pc _ _ _ Hc1), Hki. done. }
  assert (Hx1 : exec_ok inv (set_state p (stepped s) x)).
  { apply (set_state_ok inv p s); [done|done|done|]. apply (state_ok_same s); [done|by apply (ex_paths _ _ Hx p)]. }
  destruct (execute_stands p (stepped s) ki (set_state p (stepped s) x)) as (u & x' & [n Hn] & Hx' & Hf); try done; try (by apply lookup_insert_eq); try (by split).
  - split; [destruct (Hm init0 c0 Hs0) as (c1 & H1 & _); by exists init0, c1|]. intros init c1 Hc1.
    set (c := MState (m_pc c1 - 1) (m_stack c1) (m_incoming c1)). assert (E : MState (m_pc c + 1) (m_stack c) (m_incoming c) = c1).
    { destruct c1. unfold c. simpl. f_equal. lia. }
    assert (Hc2 : sim init s c) by (apply (proj2 (stepped_sim s init c)); by rewrite E). destruct (Hdef init c Hc2) as [out Ho]. exists out.
    unfold m_step in Ho. rewrite (sm_pc _ _ _ Hc2), Hki in Ho. rewrite <- E, (sm_pc _ _ _ Hc2). exact Ho.
  - exists u, x'. split; [|split; [done|by eapply (follows_from _ _ p s (stepped s))]]. exists n. intros k Hk. unfold step.
    rewrite (mbind_run _ _ _ _ _ (state_at_run p s x Hp)). unfold fetch. rewrite Hki. unfold lift at 1. unfold mbind at 1, M_bind at 1. simpl.
    unfold stepInstruction. rewrite (mbind_run _ _ _ _ _ (on_state_run p _ s x Hp)). by apply Hn.
Qed.

(** ** The exploration of a program *)
Abbreviation step_of p := (fun n => step false RewriteEqualities simplifyExprs o rng solver n false km PW p).
(** The searcher selects some path; the states are updated between the steps. *)
Inductive explores : executor -> executor -> Prop :=
  | explore_step p s x x' :
      live x !! p = Some s -> p ∉ removedStates x -> unlimited s x -> gives (fun n => step_of p n x) (tt, x') -> explores x x'
  | explore_update told x x' : updateStates x = Ret (told, x') -> explores x x'.
Definition next (c c' : state) : Prop := m_step km PW c = Some (Next c').
Definition supported_all : Prop := forall a ki, code km !! a = Some ki -> supported ki.
(** The program is defined on all inputs. *)
Definition runs_defined (s0 : est) : Prop := forall init c0 c, sim init s0 c0 -> rtc next c0 c -> is_Some (m_step km PW c).
Definition waits (p : Z) (s : est) (x : executor) : Prop := live x !! p = Some s /\ (p ∉ removedStates x).
(** A path of the executor is there for every run, and only for runs. *)
Record explored (s0 : est) (x : executor) : Prop := {
  ed_ok : exec_ok inv x;
  ed_sound p s init : waits p s x -> solution (constraints s) init -> exists c0 c, sim init s0 c0 /\ rtc next c0 c /\ sim init s c;
  ed_complete init c0 : sim init s0 c0 -> exists c, rtc next c0 c /\
    (m_step km PW c = Some Exits \/ m_step km PW c = Some Fails \/ exists p s, waits p s x /\ sim init s c)
}.
Lemma cell_unique init x : forall y y', cell_sim init x y -> cell_sim init x y' -> y = y'.
Proof.
  destruct x as [e|]; intros [[w v]|] [[w' v']|]; simpl; try done. intros [A V] [A' V']. rewrite V in V'. injection V' as ->.
  by rewrite <- (as_width _ _ A), (as_width _ _ A').
Qed.
Lemma Forall2_unique {A B} (P : A -> B -> Prop) l : (forall x y y', P x y -> P x y' -> y = y') ->
  forall m m', Forall2 P l m -> Forall2 P l m' -> m = m'.
Proof.
  intros HP. induction l as [|x l IH]; intros m m' H H'; inversion H; subst; inversion H'; subst; [done|]. f_equal; [by eapply HP|by apply IH].
Qed.
Lemma frame_unique init f g g' : frame_sim init f g -> frame_sim init f g' -> g = g'.
Proof.
  intros [F1 F2 F3] [G1 G2 G3]. destruct g, g'. simpl in *. f_equal; [congruence|congruence|]. by eapply Forall2_unique; [apply cell_unique|..].
Qed.
Lemma sim_unique init s c c' : sim init s c -> sim init s c' -> c = c'.
Proof.
  intros [S1 S2 S3 S4] [T1 T2 T3 T4]. destruct c, c'. simpl in *. f_equal; [congruence| |congruence]. by eapply Forall2_unique; [apply frame_unique|..].
Qed.
Lemma explored_defined s0 p s (x : executor) : explored s0 x -> runs_defined s0 -> waits p s x -> defined (m_step km PW) s.
Proof.
  intros [E1 E2 E3] Hdef Hw. split.
  - destruct (so_sat _ (ex_paths _ _ E1 p s (proj1 Hw))) as [init Hi]. destruct (E2 p s init Hw Hi) as (c0 & c & _ & _ & H). by exists init, c.
  - intros init c Hc. destruct (E2 p s init Hw (sm_solution _ _ _ Hc)) as (c0 & c' & H0 & Hr & H).
    rewrite (sim_unique init s c c' Hc H). by eapply Hdef.
Qed.
(** A path that waits can be stepped. *)
Lemma explored_steps s0 p s (x : executor) : constants_ok -> supported_all -> explored s0 x -> runs_defined s0 -> waits p s x -> unlimited s x ->
  stands_eventually (m_step km PW) p s x (step_of p).
Proof.
  intros Hc Hs He Hd [Hp Hr] Hu. pose proof (explored_defined s0 p s x He Hd (conj Hp Hr)) as Hdef. pose proof Hdef as [(init & c & Hsim) Hsome].
  destruct (Hsome init c Hsim) as [out Ho]. unfold m_step in Ho. rewrite (sm_pc _ _ _ Hsim) in Ho.
  destruct (code km !! pc s) as [ki|] eqn:Ek; [|done]. apply (step_stands p s ki); try done; [apply He|by apply (Hs (pc s))].
Qed.
Lemma step_explored s0 p s (x x' : executor) : explored s0 x -> waits p s x -> exec_ok inv x' -> follows (m_step km PW) p s x x' -> explored s0 x'.
Proof.
  intros [E1 E2 E3] Hw Hx' [F1 F2 F3].
  assert (Hold : forall q sq, q <> p -> is_Some (live x !! q) -> waits q sq x' <-> waits q sq x).
  { intros q sq Hne Hq. unfold waits. destruct (F3 q Hne Hq) as [-> ->]. done. }
  split; [done| |].
  - intros q sq init Hq Hs. destruct (decide (q = p \/ live x !! q = None)) as [Hor|Hor].
    + destruct (F1 q sq init (proj1 Hq) Hor (proj2 Hq) Hs) as [H1 H2]. destruct (E2 p s init Hw H1) as (c0 & c & H0 & Hr & Hc).
      destruct (H2 c Hc) as (c' & Hn & Hc'). exists c0, c'. split; [done|]. split; [by eapply rtc_r|done].
    + apply (E2 q sq init); [|done]. apply Hold; [naive_solver|destruct (live x !! q) eqn:E; [by eexists|naive_solver]|done].
  - intros init c0 H0. destruct (E3 init c0 H0) as (c & Hr & [H|[H|(q & sq & Hq & Hc)]]); [exists c; auto|exists c; auto|].
    destruct (decide (q = p)) as [->|Hne].
    + assert (sq = s) as -> by (destruct Hw, Hq; congruence). specialize (F2 init c Hc).
      destruct (m_step km PW c) as [[c'| |]|] eqn:Em; [|exists c; auto|exists c; auto|done].
      destruct F2 as (q' & s' & L & _ & G & Hc'). exists c'. split; [by eapply rtc_r|]. right. right. by exists q', s'.
    + exists c. split; [done|]. right. right. exists q, sq. split; [|done]. apply Hold; [done|by eexists; apply Hq|done].
Qed.
Lemma update_explored s0 told (x x' : executor) : explored s0 x -> updateStates x = Ret (told, x') -> explored s0 x'.
Proof.
  intros [E1 E2 E3] Hu. destruct (updateStates_ok rng inv x E1) as (y & Ey & Hy & [U1 U2 U3 U4]). rewrite Hu in Ey. injection Ey as _ <-.
  assert (Hw : forall p s, waits p s x' <-> waits p s x).
  { intros p s. unfold waits. rewrite U3. destruct (decide (p ∈ removedStates x)) as [Hin|Hout]; [|rewrite U4 by done; pose proof (not_elem_of_nil p); tauto].
    split; [|tauto]. intros [Hp _]. exfalso. destruct (proj1 (ex_live _ _ Hy p)) as [H|H]; [by eexists|by apply U1 in H as [_ ?]|rewrite U2 in H; by apply elem_of_nil in H]. }
  split; [done| |].
  - intros p s init H. by apply (E2 p s init), Hw.
  - intros init c0 H0. destruct (E3 init c0 H0) as (c & Hr & [H|[H|(q & sq & Hq & Hc)]]); exists c; (split; [done|]); [auto|auto|].
    right. right. exists q, sq. split; [by apply Hw|done].
Qed.
Lemma started_explored p0 s0 st : state_ok s0 -> (exists init c, sim init s0 c) -> inv st -> explored s0 (started p0 s0 st).
Proof.
  intros Hs (i & ci & Hci) Hi. assert (Hsame : forall init c, sim init (with_node 0 s0) c <-> sim init s0 c) by (intros init c; split; intros []; by split).
  split; [by apply started_ok| |].
  - intros p s init [Hp _] Hsol. simpl in Hp. apply lookup_singleton_Some in Hp as [<- <-]. destruct (sim_exists i init s0 ci Hci Hsol) as [c Hc].
    exists c, c. split; [done|]. split; [done|by apply Hsame].
  - intros init c0 H0. exists c0. split; [done|]. right. right. exists p0, (with_node 0 s0). split; [|by apply Hsame].
    split; [apply lookup_singleton_eq|apply not_elem_of_nil].
Qed.
Lemma explores_explored s0 (x x' : executor) : constants_ok -> supported_all -> runs_defined s0 -> explored s0 x -> explores x x' -> explored s0 x'.
Proof.
  intros Hc Hs Hd He Hex. destruct Hex as [p s y y' Hp Hr Hu H|told y y' H]; [|exact (update_explored s0 told y y' He H)].
  destruct (ev_gives _ _ _ _ _ (explored_steps s0 p s y Hc Hs He Hd (conj Hp Hr) Hu) H) as [H1 H2]. by apply (step_explored s0 p s y).
Qed.
Lemma all_explored p0 s0 st (x : executor) : constants_ok -> supported_all -> runs_defined s0 -> state_ok s0 -> (exists init c, sim init s0 c) -> inv st ->
  rtc explores (started p0 s0 st) x -> explored s0 x.
Proof.
  intros Hc Hs Hd Hok Hsim Hi Hrun. pose proof (started_explored p0 s0 st Hok Hsim Hi) as H. revert H.
  induction Hrun as [|x y z Hxy _ IH]; [done|]. intros H. apply IH. by apply (explores_explored s0 x y).
Qed.

(** C1. Symbolic execution explores the runs of the program, all of them and no others. The
    program consists of integer instructions without divisions; its calls are direct, its
    switches list each value once, and none of their cases goes to the default block
    ([supported_all]); and it is defined on all its inputs ([runs_defined]), so that it
    switches on no more than 64 bits. The constant array optimisation is off, nothing is
    replayed, and paths are stepped while no limit on forks or depth applies and the solver
    never gives up ([unlimited]). Then, in whatever order the paths are selected: every
    solution of a path that waits is an input on which the program itself gets to that
    place, with the values that the registers' expressions then have; every input is either
    followed to the end of its run, or a path waits at a place that the program reaches on it;
    and each waiting path, within those limits, can be stepped: the interpreter never fails
    an assertion, runs into a missing cell or block, or fails to return. Without the
    restrictions it can be otherwise ([InterpDemo.default_inputs_lost],
    [InterpDemo.wrong_path_ended]). *)
Theorem exploration_exact p0 s0 st (x : executor) :
  constants_ok -> supported_all -> runs_defined s0 -> state_ok s0 -> (exists init c, sim init s0 c) -> inv st ->
  rtc explores (started p0 s0 st) x ->
  (forall p s init, waits p s x -> solution (constraints s) init -> exists c0 c, sim init s0 c0 /\ rtc next c0 c /\ sim init s c) /\
  (forall init c0, sim init s0 c0 -> exists c, rtc next c0 c /\
     (m_step km PW c = Some Exits \/ m_step km PW c = Some Fails \/ exists p s, waits p s x /\ sim init s c)) /\
  (forall p s, waits p s x -> unlimited s x -> exists x', gives (fun n => step_of p n x) (tt, x')).
Proof.
  intros Hc Hs Hd Hok Hsim Hi Hrun. pose proof (all_explored p0 s0 st x Hc Hs Hd Hok Hsim Hi Hrun) as He.
  split; [apply He|]. split; [apply He|]. intros p s Hw Hu.
  destruct (explored_steps s0 p s x Hc Hs He Hd Hw Hu) as ([] & x' & H & _). by exists x'.
Qed.
End Steps.
End Sim.
End Simulation.

(** * A program

    It compares its argument, adds to it where it is small, and goes by its value otherwise. *)
Module InterpDemo.
Import Expr ExprFacts Create ExprOrder ExprMain ConstraintsOk ConstraintsMain Solver IndepSolver TimingSolver Paths TryAll ExecFork ForkOk ForkRun ForkDemo Interp Machine Simulation.
#[export] Instance demo_host : Host := {| hash_value w v := v; address a := Zpos (encode a) |}.
#[export] Instance demo_host_ok : HostOk.
Proof. intros a b [= H]. by apply encode_inj. Qed.

Definition demo_code : gmap Z KInstruction := list_to_map [
  (10, KInst (Instruction.ICmp Instruction.ICMP_ULT) [0; -2] 1 0 1 true);
  (11, KInst (Instruction.BrIf 1 2) [1] 0 0 0 false);
  (12, KInst (Instruction.BinaryOp Instruction.Add) [0; -3] 2 1 8 true);
  (13, KInst (Instruction.Ret true) [2] 0 1 0 false);
  (14, KInst (Instruction.Switch [(150, 3)] 4) [0] 0 2 0 false);
  (15, KInst (Instruction.Ret true) [0] 0 3 0 false);
  (16, KInst Instruction.Unreachable [] 0 4 0 false)].
Definition demo : KModule :=
  KMod demo_code {[0 := KFunc 10 1 3 (list_to_map [(1, 2); (2, 4); (3, 5); (4, 6)])]} [Constant 8 100; Constant 8 1] [].
Definition entry : est := EState 10 9 [Frame None 0 [Some (byte 0); None; None]] 0 [] 0 [] [] false 0.
Definition entry_machine (v : Z) : state := MState 10 [MFrame None 0 [Some (8, v); None; None]] 0.
Definition demo_step (p : Z) (n : nat) : M (executor unit) unit := step false true true no_limits no_draws try_all n false demo 64 p.

(** The paths after some steps, of the states in this order. *)
Fixpoint steps (l : list Z) (n : nat) : M (executor unit) unit := match l with [] => mret tt | p :: l => demo_step p n;; steps l n end.
Example five_steps :
  exists x, steps [7; 7; 8; 7; 7] 30 (started 7 entry tt) = Ret (tt, x) /\ removedStates x = [7] /\
    (pc <$> live x !! 8) = Some 15 /\ (constraints <$> live x !! 8) = Some [Binary Eq (Constant 8 150) (byte 0)] /\
    (pc <$> live x !! 9) = Some 16.
Proof. eexists. split; [vm_compute; reflexivity|]. split_and!; vm_compute; reflexivity. Qed.

Lemma demo_constants : constants_ok demo.
Proof. repeat constructor; eexists; eexists; (split; [reflexivity|reflexivity]). Qed.
Lemma demo_supported : supported_all demo.
Proof.
  intros a ki H%elem_of_list_to_map_2. repeat (apply elem_of_cons in H as [[= -> ->]|H]; [try done|]); [|by apply elem_of_nil in H].
  split; [apply NoDup_singleton|]. by intros ?%list_elem_of_singleton.
Qed.
Lemma entry_ok : state_ok entry.
Proof. split; [by split|]. exists (fill 0). apply no_constraints. Qed.
Lemma entry_sim n : (n < 256)%nat -> sim (fill (Z.of_nat n)) entry (entry_machine (Z.of_nat n `mod` 256)).
Proof.
  intros Hn. split; [by apply fill_solution|done| |done]. constructor; [|constructor]. split; [done|done|].
  constructor; [split; [by split|reflexivity]|]. by repeat constructor.
Qed.
Fixpoint ends (n : nat) (c : state) : bool :=
  match n with
  | O => false
  | S n => match m_step demo 64 c with Some (Next c') => ends n c' | Some _ => true | None => false end
  end.
Lemma ends_defined n : forall c c', ends n c = true -> rtc (next demo 64) c c' -> is_Some (m_step demo 64 c').
Proof.
  induction n as [|n IH]; intros c c' He Hr; [done|]. simpl in He. destruct (m_step demo 64 c) as [out|] eqn:E; [|done].
  inversion Hr as [|? d ? Hs Hr']; subst; [by eexists|]. unfold next in Hs. rewrite E in Hs. injection Hs as ->. by apply (IH d).
Qed.
Lemma all_end : forallb (fun n => ends 10 (entry_machine (Z.of_nat n `mod` 256))) (List.seq 0 256) = true.
Proof. vm_compute. reflexivity. Qed.
Lemma demo_defined : runs_defined demo 64 entry.
Proof.
  intros init c0 c Hs Hr. pose proof Hs as [[Hin _] _ _ _]. apply list_elem_of_fmap in Hin as (n & -> & Hn%elem_of_seq).
  apply (ends_defined 10 c0); [|done]. rewrite (sim_unique _ _ _ _ Hs (entry_sim n ltac:(lia))).
  pose proof all_end as Hall. rewrite forallb_forall in Hall. apply Hall, in_seq. lia.
Qed.
Lemma entry_unlimited st : unlimited no_limits try_all (fun _ => True) entry (started 7 entry st).
Proof. split; try reflexivity. by intros (q & s & s' & _ & [H|H]). Qed.
Lemma exploration_exact_witness :
  exists x, gives (fun n => demo_step 7 n (started 7 entry tt)) (tt, x) /\
    (forall p s init, waits p s x -> solution (constraints s) init -> exists c0 c, sim init entry c0 /\ rtc (next demo 64) c0 c /\ sim init s c) /\
    (forall init c0, sim init entry c0 -> exists c, rtc (next demo 64) c0 c /\
       (m_step demo 64 c = Some Exits \/ m_step demo 64 c = Some Fails \/ exists p s, waits p s x /\ sim init s c)).
Proof.
  assert (Hsim : exists init c, sim init entry c) by (exists (fill 0), (entry_machine 0); exact (entry_sim 0 ltac:(lia))).
  assert (He : explored demo 64 (fun _ => True) entry (started 7 entry tt))
    by exact (started_explored demo 64 (fun _ => True) 7 entry tt entry_ok Hsim I).
  assert (Hw : waits 7 (with_node 0 entry) (started 7 entry tt)) by (split; [reflexivity|apply not_elem_of_nil]).
  destruct (explored_steps demo 64 true true no_limits no_draws try_all (fun _ => True) entry 7 (with_node 0 entry) (started 7 entry tt)
    demo_constants demo_supported He demo_defined Hw (entry_unlimited tt)) as ([] & x & H & _).
  exists x. split; [exact H|].
  destruct (exploration_exact demo 64 true true no_limits no_draws try_all (fun _ => True) 7 entry tt x demo_constants demo_supported demo_defined
    entry_ok Hsim I) as (H1 & H2 & _); [|split; [exact H1|exact H2]].
  apply rtc_once. apply (explore_step demo 64 true true no_limits no_draws try_all (fun _ => True) 7 (with_node 0 entry)); [reflexivity|apply not_elem_of_nil|exact (entry_unlimited tt)|exact H].
Defined.

(** A case that goes to the default block: the inputs of the default case are on no path, although
    the program goes on with them. *)
Definition shared_block : KModule :=
  KMod {[10 := KInst (Instruction.Switch [(150, 1)] 1) [0] 0 0 0 false; 11 := KInst Instruction.Unreachable [] 0 1 0 false]}
    {[0 := KFunc 10 1 3 {[1 := 1]}]} [] [].
Example default_inputs_lost :
  exists x, step false true true no_limits no_draws try_all 30 false shared_block 64 7 (started 7 entry tt) = Ret (tt, x) /\
    (fst <$> map_to_list (live x)) = [7] /\ (constraints <$> live x !! 7) = Some [Binary Eq (Constant 8 150) (byte 0)] /\
    m_step shared_block 64 (entry_machine 3) = Some (Next (MState 11 [MFrame None 0 [Some (8, 3); None; None]] 0)).
Proof. eexists. split; [vm_compute; reflexivity|]. split_and!; vm_compute; reflexivity. Qed.

(** A pointer to the function 0 or to none: the path that has called the function is ended for
    the other value, and the path with the other value stays and goes on behind the call. *)
Definition pointer_call : KModule :=
  KMod {[10 := KInst (Instruction.Call None None [] false) [0] 1 0 8 true; 11 := KInst Instruction.Unreachable [] 0 0 0 false;
         20 := KInst (Instruction.Ret true) [-2] 0 0 0 false]}
    {[0 := KFunc 20 0 0 ∅]} [Constant 8 100] [0].
Definition two_pointers : est := with_constraints [Binary Ult (byte 0) (Constant 8 2)] entry.
Example wrong_path_ended :
  exists x, step false true true no_limits no_draws try_all 30 false pointer_call 64 7 (started 7 two_pointers tt) = Ret (tt, x) /\
    removedStates x = [7] /\ (constraints <$> live x !! 7) = Some [Binary Eq (Constant 8 0) (byte 0)] /\
    (length ∘ stack <$> live x !! 7) = Some 2%nat /\ (pc <$> live x !! 8) = Some 11 /\
    m_step pointer_call 64 (entry_machine 0) = Some (Next (MState 20 [MFrame (Some 10) 0 []; MFrame None 0 [Some (8, 0); None; None]] 0)) /\
    m_step pointer_call 64 (entry_machine 1) = Some Fails.
Proof. eexists. split; [vm_compute; reflexivity|]. split_and!; vm_compute; reflexivity. Qed.
End InterpDemo.
